(* ===== verification/_CoqProject ===== *)
-Q . S2P
Prelude.v
Diag.v
Lexer.v
LexSpec.v
LexerFacts.v
LexerCorrect.v
LexProps.v
Ast.v
Parser.v
Grammar.v
ParserBase.v
ParserTypes.v
ParserExpr.v
ParserDecl.v
ParserProps.v
TkirBuf.v
Tkir.v
TkirFacts.v
TkirEnc.v
TkirEncFacts.v
TkirProps.v
Encoding.v
EncBase.v
EncDecode.v
EncUtf8.v
EncProps.v
Arena.v
ArenaProps.v
CStr.v
ModName.v
ModNameProps.v
StdDeps.v
StdDepsProps.v
Imports.v
ImportsProps.v
Resolve.v
ResolveSpec.v
ResolveFacts.v
ResolveProps.v
Iface.v
IfaceFacts.v
IfaceJson.v
Ir.v
IrFacts.v
Names.v
NamesFacts.v
IfaceProps.v
Types.v
Infer.v
TypeSpec.v
TypeFacts.v
TypeLookup.v
TypeRules.v
TypeStmt.v
TypeTotal.v
TypeProps.v
Driver.v
FrontFacts.v
FrontProps.v
LinkProps.v
Heap.v
TkArray.v
Collections.v
TkMap.v
Containers.v
SeqFacts.v
TkMapFacts.v
ArrayFacts.v
MapContainer.v
ContainerProps.v
Sha.v
ShaSpec.v
ShaHash.v
ShaProps.v
Json.v
Report.v
Dump.v
ReportFacts.v
DumpFacts.v
ReportProps.v
