(* ===== verification/Prelude.v ===== *)
(** * A verification library for the toke compiler [tkc]

    toke is a small language; [tkc], the compiler written in C under
    [src/src/], turns bytes into tokens ([lexer.c]), tokens into a tree
    ([parser.c]), and the tree into LLVM text or into a binary IR ([tkir.c]),
    reporting through [diag.c].  This library is a shallow embedding of parts
    of it: C functions as Rocq functions, in a state monad whose outcomes are a
    value, an access outside a buffer ([Oob]), or the end of the fuel of a loop
    ([NoFuel]); the theorems say that the last two never happen.

    ** Files

    - [Prelude]: bytes, slices, the monad [M], its weakest preconditions [wp]
      and their tactics.
    - [Diag]: the counters and the suppression of [diag.c].
    - [Lexer] ([lexer.c]); [LexSpec]: the lexical grammar; [LexerFacts],
      [LexerCorrect]: safety, determinism, soundness and completeness; [LexProps]:
      the theorems.
    - [Ast], [Parser] ([parser.h], [parser.c]); [Grammar]: the grammar with the
      tree of each production; [ParserBase] to [ParserDecl]: one specification
      per parse function; [ParserProps]: the theorems.
    - [TkirBuf], [Tkir], [TkirEnc] ([tkir.h], [tkir.c]: buffer, reader, encoder);
      [TkirFacts], [TkirEncFacts]: their safety, the format as a serialiser, and
      the bytes written; [TkirProps]: the theorems.
    - [Encoding] ([stdlib/encoding.c]); [EncBase]: bits and their spelling in
      digits, filled arrays, RFC 4648; [EncDecode], [EncUtf8]: the decoders,
      hexadecimal and percent-encoding, UTF-8; [EncProps]: the theorems.
    - [Arena] ([arena.c]); [ArenaProps]: reachable states, the theorems.
    - [ModName], [Imports], [Resolve] ([names.c]: module names, imports, scopes):
      [ModNameProps], [ImportsProps]: their theorems; [ResolveSpec]: scoping on
      finite maps; [ResolveFacts]: the resolver implements it, and what its scopes
      name is in the source; [ResolveProps]: the theorems.
    - [StdDeps] ([stdlib_deps.c]); [StdDepsProps]: the closure of dependencies.
    - [CStr]: strings inside arrays, as the C library sees them.
    - [Iface] ([names.c], [tki_*] and [imported_*]: the reader of interface
      files), [Ir] ([ir.c]: the writer), [Names] ([resolve_names] with its module
      scope); [IfaceFacts]: the reader on lists, and that positions implement it; [IfaceJson]: JSON texts and what is found in them; [IrFacts]:
      the document of a tree; [NamesFacts]: the scans for names; [IfaceProps]: the
      theorems.
    - [Types], [Infer] ([types.c]: types, annotations, reports; the rules and the
      pass); [TypeSpec]: the typing rules as relations; [TypeFacts]: equality,
      commands as relations, and the invariant of the context; [TypeLookup]: what
      is looked up, the table of operators; [TypeRules],
      [TypeStmt]: each rule of the code is that of [TypeSpec]; [TypeTotal]:
      when the pass ends; [TypeProps]: the theorems.
    - [Driver] ([main.c]: the passes over a file, [link_multi_module]); [FrontFacts]:
      the trees of the grammar are in the source; the passes one after the other;
      [FrontProps], [LinkProps]: the theorems.
    - [Heap]: objects behind handles, the allocator; [TkArray], [Collections],
      [TkMap] ([stdlib/tk_array.h], [collections.c], [collections_glue.c]: arrays;
      stacks, queues, sets, vectors; hash maps); [Containers]: the class of what a
      container promises, and traces of calls; [SeqFacts]: its instances;
      [TkMapFacts], [MapContainer]: the table of slots, and maps as association
      lists; [ArrayFacts]: arrays as lists; [ContainerProps]: the
      theorems.
    - [Sha] ([stdlib/crypto.c]: hashes, keyed hashes, comparison, hexadecimal);
      [ShaSpec]: FIPS 180-4 and RFC 2104; [ShaHash]: words, the schedule, the
      rounds, texts cut in blocks, the buffer; [ShaProps]: the theorems.
    - [Json]: a reader of JSON on bytes; [Report] ([diag.c] with its texts), [Dump]
      ([ast_json.c], [sourcemap.c]); [ReportFacts], [DumpFacts]: their texts read
      back; [ReportProps]: the theorems.

    ** How the parts meet

    [Driver.front_end] runs [lex], [parse], [resolve_imports], [resolve_names] and
    [type_check] on a text as [main.c] does, and stops behind the first that fails
    or reports an error; [Driver.link_multi_module] runs it on several files, and
    writes the interface of each with [emit_interface] for those behind it.  The
    token buffer has the length of the text plus 16.  String interpolation
    calls the lexer and the parser again on a part of the text.  Every part
    reports through [Diag.diag_emit]; its state is the record [Diags], which
    [Report.Report] refines with the texts.
    [emit_tkir], [emit_interface], [resolve_imports] and [resolve_names] take the
    tree of the parser, [resolve_names] also the symbol table of
    [resolve_imports] and the interface files of other modules, which
    [emit_interface] writes; [tkir_decode] takes the bytes of a file.
    [type_check] takes the tree, the module scope of [resolve_names] with the
    places of its declarations ([Infer.tdecls]) and the tables of the imports;
    what it asks of [llvm.c] is the class [Infer.Runtime].  For text that is
    interpolated it calls the lexer and the parser.  The containers are called by
    the compiled program: they share the heap of [Heap], and [MapContainer] and
    [Collections] make arrays of [TkArray].

    ** What the theorems show

    - [LexProps]: on any bytes [lex] ends within its buffers; its tokens are
      those of the grammar, for all and only the texts of the grammar.
    - [ParserProps]: on lexed tokens [parse] ends, reads nothing out of bounds,
      recovers up to the limit of errors, reports what it counts, and an
      error-free parse is a derivation of the grammar.
    - [TkirProps]: the reader is safe and validates on any bytes and inverts the
      serialiser of the format; the encoder is safe and keeps its limits on the
      trees it expects; the file it writes is in the format but for the bytes in
      front, the code section and array and function types; the reader rejects it.
    - [EncProps]: the encoders write the text of RFC 4648, the decoders end within
      their arrays on any string and give a reference function of it, each
      encoding round-trips, and UTF-8 validation accepts exactly valid text.
    - [ArenaProps]: on every reachable state regions are aligned, zeroed, inside
      their blocks and disjoint.
    - [ModNameProps]: edit distance, versions and normal paths.
    - [StdDepsProps]: the closure ends with the required modules.
    - [ImportsProps]: the symbol table and the result are functions of the
      imports; circular imports are never reported.
    - [ResolveProps]: the resolver finds an error exactly when the program is not
      well scoped; what closures capture.
    - [IfaceProps]: the reader of interface files is safe on any bytes, finds the
      records of a JSON array under the key exports, unless a string in it has an
      escaped quote or the key is spelled earlier, and reads back what the writer
      writes; examples show what is lost else; [resolve_names] ends with any files,
      from a scope and with tables that are given.
    - [TypeProps]: [type_check] accepts exactly the programs the typing rules
      derive and annotates them so; when the types and the initialisers follow an
      order it ends and decides them; its result agrees with its reports and its
      state is restored; equality of types is consistency.  Programs show what the
      rules leave unchecked.
    - [FrontProps]: what the driver accepts is a program of the grammar whose
      imports exist, whose names are declared and whose types the rules derive;
      every text within the limits is accepted or rejected with an error.
    - [LinkProps]: [link_multi_module] succeeds exactly when its files compile in
      their order; a file sees of a module it imports exactly what that exports.
    - [ContainerProps]: any calls on a new container answer as its abstract value
      (association list, finite set, list) does, and touch no other object;
      [m.set] and [a.append] answer new values and change none, appending in place
      builds the same array; functions on arrays are those of lists.  A key that is
      no string traps with no change, in [m.set] behind a copy, and not at all when
      there is no memory for it.  Lemmas behind them show what else happens then.
    - [ShaProps]: the hashes and keyed hashes are those of the standards, whose
      constants are computed from their definition; comparison is equality.
    - [ReportProps]: every diagnostic is a JSON line that reads back, SARIF is one
      document of the first reports, and [Report] changes the state as [Diag] does;
      a dump determines its tree but for the operators, which it leaves out; a source
      map takes each character to its copy.  The reader of JSON is one on bytes: that
      a document is UTF-8 is said apart, for SARIF.

    ** Conventions and bounds

    Offsets, lengths and characters are in [Z]; where the code computes at a
    machine width the reduction is written out.  The lexer's loops have fuel
    the length of the text, the parser's one unit per token and nesting, the
    reader's one per byte: each theorem of termination shows that it is enough.
    Interpolation nests at most [INTERP_MAX_DEPTH] deep, as in the code.
    Allocation is taken to succeed, but for [realloc] in [TkirBuf] and [malloc]
    in [Encoding] and [Arena], which are parameters, and the allocator of [Heap],
    one for the calls by their number; so is [strtod] in [TkirEnc].
    The theorems on the encodings are for texts below 2^58 bytes, so that no size
    wraps at 64 bits; those on the arena for allocations up to 2^30-8 bytes, so
    that no sum leaves [int]; those on imports for major versions that fit [int];
    those on the front end for strings without interpolated expressions, and for
    at least one module in flight; that on dependencies for imports of less than 1600 characters, which leaves
    room in the buffer of 2048; those on interface files for texts below 2^31
    bytes, with only blanks around the colons of the array of exports, and for module
    paths of at most 250 characters, which fit the buffer of 256 with their ending.  Which files exist is a parameter of [Imports], what
    they hold one of [Names].  The loops over a file have one unit of fuel for
    each of its bytes, and every step passes at least one.  The theorems on
    containers, but for those on functions on arrays and on keys that trap, ask that
    allocations succeed ([Plenty]), for up to 2^58 elements, of a map 2^29, so that its sizes stay within [int]; a probe has a unit of fuel for
    each slot, a binary search for each element.  Those on hashes are for texts
    below 2^61 bytes, whose length in bits fits 64 bits, and for a buffer that
    holds anything before it is set.  Those on reports are for codes of four digits
    and strings without NUL.  A struct and the block it owns are one object of the
    heap.

    ** Not modelled

    The texts of the messages each phase reports (their writers are [Report]'s);
    the texts of sources and flags of [stdlib_deps.c]; LLVM generation ([llvm.c]);
    lint, formatting, migration, compression, companion files, packages; the
    command line, the output modes and the temporary files of [main.c]
    (the file system, the code generator and the linker are parameters of
    [Driver]); the WASM interface; the runtime library
    under [src/src/stdlib/] but for [encoding.c], the containers and the hashes of
    [crypto.c] (not its random bytes and its bcrypt).  Code generation builds on the
    annotations of [Infer] and is the largest part left; the rest is glue, input
    and output, or bindings of third-party libraries. *)

From Stdlib Require Import ZArith Lia String Ascii.
From stdpp Require Import base tactics list.

(** * Bytes *)

Declare Scope toke_scope.
Delimit Scope toke_scope with toke.
Open Scope Z_scope.
Open Scope toke_scope.

#[global] Arguments Z.leb : simpl never.
#[global] Arguments Z.ltb : simpl never.
#[global] Arguments Z.eqb : simpl never.
#[global] Arguments Z.add : simpl never.
#[global] Arguments Z.sub : simpl never.
#[global] Arguments Z.mul : simpl never.
#[global] Arguments Z.of_nat : simpl never.
#[global] Arguments Z.to_nat : simpl never.

Definition Z_of_ascii (a : ascii) : Z := Z.of_N (N_of_ascii a).

(** A C character constant, as the number it is. *)
Notation "'chr' c" :=
  (ltac:(let v := eval vm_compute in (Z_of_ascii c%char) in exact v))
  (at level 9, c at level 0, only parsing) : toke_scope.

(** The bytes of a C string literal (without the terminator). *)
Fixpoint bytes_of (s : string) : list Z :=
  match s with
  | EmptyString => []
  | String a s => Z_of_ascii a :: bytes_of s
  end.

(** Byte-wise equality, [strcmp(a, b) == 0] on two terminated strings. *)
Fixpoint bytes_eqb (a b : list Z) : bool :=
  match a, b with
  | [], [] => true
  | x :: a, y :: b => (x =? y) && bytes_eqb a b
  | _, _ => false
  end.

Lemma bytes_eqb_eq a b : bytes_eqb a b = true <-> a = b.
Proof.
  revert b; induction a as [|x a IH]; intros [|y b]; simpl; split; try done.
  - rewrite andb_true_iff, Z.eqb_eq, IH. by intros [-> ->].
  - injection 1 as -> ->. by rewrite Z.eqb_refl, (proj2 (IH b) eq_refl).
Qed.

Lemma bytes_eqb_refl a : bytes_eqb a a = true.
Proof. by apply bytes_eqb_eq. Qed.

(** The C string that starts an array. *)
Fixpoint until_nul (l : list Z) : list Z :=
  match l with
  | [] => []
  | c :: l => if c =? 0 then [] else c :: until_nul l
  end.

(** What fits [int]. *)
Definition int_ok (v : Z) : bool := (- 2 ^ 31 <=? v) && (v <? 2 ^ 31).

(** ** Sub-ranges of a buffer *)

(** [l[start .. start+n)] *)
Definition slice (l : list Z) (start n : Z) : list Z :=
  take (Z.to_nat n) (drop (Z.to_nat start) l).

(** The byte at an offset; total, used where the offset is known to be valid. *)
Definition byte_at (l : list Z) (i : Z) : Z := nth (Z.to_nat i) l 0.

Definition zlen {A} (l : list A) : Z := Z.of_nat (length l).

Lemma zlen_nonneg {A} (l : list A) : 0 <= zlen l.
Proof. unfold zlen; lia. Qed.

Lemma zlen_nil {A} : zlen (@nil A) = 0.
Proof. done. Qed.

Lemma zlen_app {A} (l k : list A) : zlen (l ++ k) = zlen l + zlen k.
Proof. unfold zlen; rewrite length_app; lia. Qed.

Lemma zlen_cons {A} (x : A) l : zlen (x :: l) = 1 + zlen l.
Proof. unfold zlen; simpl; lia. Qed.

Lemma until_nul_len l : zlen (until_nul l) <= zlen l.
Proof.
  induction l as [|c l IH]; simpl; [done|]. rewrite zlen_cons.
  pose proof (zlen_nonneg l). case_match; rewrite ?zlen_cons, ?zlen_nil; lia.
Qed.

Lemma zlen_slice l s n :
  0 <= s -> 0 <= n -> s + n <= zlen l -> zlen (slice l s n) = n.
Proof.
  intros. unfold zlen, slice in *. rewrite length_take, length_drop. lia.
Qed.

Lemma slice_nil l s : slice l s 0 = [].
Proof. done. Qed.

Lemma slice_app l s n m :
  0 <= s -> 0 <= n -> 0 <= m ->
  slice l s (n + m) = slice l s n ++ slice l (s + n) m.
Proof.
  intros. unfold slice. rewrite Z2Nat.inj_add by lia.
  rewrite <- take_take_drop, drop_drop. do 3 f_equal. lia.
Qed.

Lemma drop_byte_at l p :
  0 <= p < zlen l -> drop (Z.to_nat p) l = byte_at l p :: drop (Z.to_nat (p + 1)) l.
Proof.
  intros. unfold byte_at, zlen in *. rewrite Z2Nat.inj_add by lia. simpl.
  assert (Hk : (Z.to_nat p < length l)%nat) by lia.
  revert Hk. generalize (Z.to_nat p). clear. intros k. revert k.
  induction l as [|x l IH]; intros [|k] Hk; simpl in *; try lia; try done.
  - by rewrite IH by lia.
Qed.

Lemma slice_1 l p : 0 <= p < zlen l -> slice l p 1 = [byte_at l p].
Proof. intros. unfold slice. by rewrite drop_byte_at. Qed.

Lemma slice_cons l p n :
  0 <= p -> 0 < n -> p + n <= zlen l ->
  slice l p n = byte_at l p :: slice l (p + 1) (n - 1).
Proof.
  intros. replace n with (1 + (n - 1)) at 1 by lia.
  rewrite slice_app, slice_1 by lia. done.
Qed.

Lemma slice_snoc l p n :
  0 <= p -> 0 <= n -> p + n < zlen l ->
  slice l p (n + 1) = slice l p n ++ [byte_at l (p + n)].
Proof. intros. by rewrite slice_app, slice_1 by lia. Qed.

Lemma byte_at_slice l p n i :
  0 <= p -> 0 <= i < n -> p + n <= zlen l ->
  byte_at (slice l p n) i = byte_at l (p + i).
Proof.
  intros. unfold byte_at, slice, zlen in *.
  rewrite !nth_lookup, lookup_take, lookup_drop.
  rewrite decide_True by lia. do 2 f_equal. lia.
Qed.

Lemma slice_all l : slice l 0 (zlen l) = l.
Proof.
  unfold slice, zlen. rewrite Nat2Z.id. simpl. by rewrite drop_0, firstn_all.
Qed.

(** * Outcomes

    A C function either returns, or it reads outside a buffer ([Oob], undefined
    behaviour), or the fuel given to one of its loops runs out ([NoFuel]).  The
    last two never happen: every total-correctness theorem of the development
    says [Ok]. *)

Inductive res (A : Type) : Type :=
  | Ok (a : A)
  | Oob
  | NoFuel.
Arguments Ok {A} _.
Arguments Oob {A}.
Arguments NoFuel {A}.

(** ** State monad over outcomes *)

Definition M (S A : Type) : Type := S -> res (A * S).

Definition ret {S A} (a : A) : M S A := fun s => Ok (a, s).

Definition bind {S A B} (m : M S A) (k : A -> M S B) : M S B :=
  fun s => match m s with
           | Ok (a, s') => k a s'
           | Oob => Oob
           | NoFuel => NoFuel
           end.

Notation "'do' x <- m ; k" := (bind m (fun x => k))
  (at level 10, x name, m at level 100, k at level 200) : toke_scope.
Notation "'do' ' p <- m ; k" := (bind m (fun p => k))
  (at level 10, p pattern, m at level 100, k at level 200) : toke_scope.
Notation "'do!' m ; k" := (bind m (fun _ => k))
  (at level 10, m at level 100, k at level 200) : toke_scope.

Definition get {S} : M S S := fun s => Ok (s, s).
Definition gets {S A} (f : S -> A) : M S A := fun s => Ok (f s, s).
Definition put {S} (s : S) : M S unit := fun _ => Ok (tt, s).
Definition modify {S} (f : S -> S) : M S unit := fun s => Ok (tt, f s).
Definition oob {S A} : M S A := fun _ => Oob.
Definition no_fuel {S A} : M S A := fun _ => NoFuel.

(** [if (b) m;] *)
Definition when {S} (b : bool) (m : M S unit) : M S unit := if b then m else ret tt.

(** A loop: [inl] continues, [inr] leaves with a value. *)
Fixpoint iter {S A B} (fuel : nat) (body : A -> M S (A + B)) (a : A) : M S B :=
  match fuel with
  | O => no_fuel
  | S f => do r <- body a;
           match r with
           | inl a' => iter f body a'
           | inr b => ret b
           end
  end.

(** [buf[i]]: undefined outside the buffer. *)
Definition rd {S} (buf : list Z) (i : Z) : M S Z :=
  if (0 <=? i) && (i <? zlen buf) then ret (byte_at buf i) else oob.

(** [memcpy(dst, buf + p, n)]: the bytes. *)
Definition rd_range {S} (buf : list Z) (p n : Z) : M S (list Z) :=
  if (0 <=? p) && (0 <=? n) && (p + n <=? zlen buf) then ret (slice buf p n) else oob.

(** [for (x in l) f(x);] *)
Section Each.
Context {S A : Type} (f : A -> M S unit).

Fixpoint each (l : list A) : M S unit :=
  match l with
  | [] => ret tt
  | a :: l => do! f a; each l
  end.
End Each.

(** ** Weakest preconditions (total correctness) *)

Definition wp {S A} (m : M S A) (Q : A -> S -> Prop) (s : S) : Prop :=
  match m s with
  | Ok (a, s') => Q a s'
  | _ => False
  end.

Section Wp.
Context {S : Type}.
Implicit Types s : S.

Lemma wp_conseq {A} (m : M S A) (P Q : A -> S -> Prop) s :
  wp m P s -> (forall a s', P a s' -> Q a s') -> wp m Q s.
Proof. unfold wp. destruct (m s) as [[a s']| |]; eauto. Qed.

Lemma wp_bind {A B} (m : M S A) (k : A -> M S B) Q s :
  wp m (fun a s' => wp (k a) Q s') s -> wp (bind m k) Q s.
Proof. unfold wp, bind. destruct (m s) as [[a s']| |]; done. Qed.

(** Sequencing through a specification of the first command. *)
Lemma wp_seq {A B} (m : M S A) (k : A -> M S B) P Q s :
  wp m P s -> (forall a s', P a s' -> wp (k a) Q s') -> wp (bind m k) Q s.
Proof. intros Hm Hk. apply wp_bind. eapply wp_conseq; eauto. Qed.

Lemma wp_ret {A} (a : A) (Q : A -> S -> Prop) s : Q a s -> wp (ret a) Q s.
Proof. done. Qed.

Lemma wp_get (Q : S -> S -> Prop) s : Q s s -> wp get Q s.
Proof. done. Qed.

Lemma wp_gets {A} (f : S -> A) (Q : A -> S -> Prop) s : Q (f s) s -> wp (gets f) Q s.
Proof. done. Qed.

Lemma wp_put s0 (Q : unit -> S -> Prop) s : Q tt s0 -> wp (put s0) Q s.
Proof. done. Qed.

Lemma wp_modify f (Q : unit -> S -> Prop) s : Q tt (f s) -> wp (modify f) Q s.
Proof. done. Qed.

Lemma wp_when (b : bool) (m : M S unit) (Q : unit -> S -> Prop) s :
  (b = true -> wp m Q s) -> (b = false -> Q tt s) -> wp (when b m) Q s.
Proof. intros H1 H2. destruct b; [by apply H1 | by apply H2]. Qed.

Lemma wp_rd buf i (Q : Z -> S -> Prop) s :
  0 <= i < zlen buf -> Q (byte_at buf i) s -> wp (rd buf i) Q s.
Proof.
  intros Hi HQ. unfold rd.
  destruct (0 <=? i) eqn:?, (i <? zlen buf) eqn:?; try lia. done.
Qed.

Lemma wp_rd_range buf p n (Q : list Z -> S -> Prop) s :
  0 <= p -> 0 <= n -> p + n <= zlen buf -> Q (slice buf p n) s -> wp (rd_range buf p n) Q s.
Proof. intros. unfold rd_range. rewrite !(proj2 (Z.leb_le _ _)) by done. done. Qed.

(** Loops: an invariant and a measure below the fuel. *)
Lemma wp_iter {A B} (I : A -> S -> Prop) (mu : A -> S -> nat)
    (body : A -> M S (A + B)) Q fuel a s :
  I a s -> (mu a s < fuel)%nat ->
  (forall a s, I a s ->
     wp (body a) (fun r s' => match r with
                              | inl a' => I a' s' /\ (mu a' s' < mu a s)%nat
                              | inr b => Q b s'
                              end) s) ->
  wp (iter fuel body a) Q s.
Proof.
  revert a s. induction fuel as [|fuel IH]; intros a s HI Hmu Hbody; [lia|].
  simpl. eapply wp_seq; [by apply Hbody|].
  intros [a'|b] s' Hr; simpl in Hr; [|done].
  destruct Hr. apply IH; [done|lia|done].
Qed.

(** What [wp] says of a run. *)
Lemma wp_ok {A} (m : M S A) Q s :
  wp m Q s -> exists a s', m s = Ok (a, s') /\ Q a s'.
Proof. unfold wp. destruct (m s) as [[a s']| |]; try done. eauto. Qed.

Lemma wp_run {A} (m : M S A) (Q : A -> S -> Prop) s a s' :
  wp m Q s -> m s = Ok (a, s') -> Q a s'.
Proof. unfold wp. intros H E. by rewrite E in H. Qed.

Lemma wp_and {A} (m : M S A) P Q s :
  wp m P s -> wp m Q s -> wp m (fun a s' => P a s' /\ Q a s') s.
Proof. unfold wp. destruct (m s) as [[a s']| |]; done. Qed.

End Wp.

(** One symbolic-execution step on the head command of a [wp] goal. *)
Ltac wp_step :=
  lazymatch goal with
  | |- wp (bind _ _) _ _ => apply wp_bind
  | |- wp (ret _) _ _ => apply wp_ret
  | |- wp get _ _ => apply wp_get
  | |- wp (gets _) _ _ => apply wp_gets
  | |- wp (put _) _ _ => apply wp_put
  | |- wp (modify _) _ _ => apply wp_modify
  | |- wp (when _ _) _ _ => apply wp_when; intros ?
  | |- wp (rd _ _) _ _ => apply wp_rd; [try lia|]
  | |- wp (if true then _ else _) _ _ => cbv iota
  | |- wp (if false then _ else _) _ _ => cbv iota
  | |- wp (if ?b then _ else _) _ _ => destruct b eqn:?
  | |- wp (match ?x with _ => _ end) _ _ => destruct x eqn:?
  end; cbn beta.

Ltac wp_steps := repeat wp_step.

(** Use a specification [H : wp m P s] of the head command. *)
Tactic Notation "wp_use" uconstr(H) "as" simple_intropattern_list(p) :=
  first [ eapply wp_seq; [ eapply H | intros p ]
        | eapply wp_conseq; [ eapply H | intros p ] ]; cbn beta.

(** Booleans of the code to propositions [lia] understands. *)
Ltac zb :=
  repeat match goal with
  | H : (_ && _) = true |- _ => apply andb_prop in H; destruct H
  | H : (_ || _) = false |- _ => apply orb_false_elim in H; destruct H
  | H : negb _ = true |- _ => apply negb_true_iff in H
  | H : negb _ = false |- _ => apply negb_false_iff in H
  | H : (_ <? _) = true |- _ => apply Z.ltb_lt in H
  | H : (_ <? _) = false |- _ => apply Z.ltb_ge in H
  | H : (_ <=? _) = true |- _ => apply Z.leb_le in H
  | H : (_ <=? _) = false |- _ => apply Z.leb_gt in H
  | H : (_ =? _) = true |- _ => apply Z.eqb_eq in H
  | H : (_ =? _) = false |- _ => apply Z.eqb_neq in H
  | H : (_ >=? _) = _ |- _ => rewrite Z.geb_leb in H
  | H : (_ >? _) = _ |- _ => rewrite Z.gtb_ltb in H
  end.
