(* ===== verification/Diag.v ===== *)
(** * Diagnostics: [src/src/diag.c]

    The diagnostic state the compiler keeps in statics, and the emission of one
    diagnostic.  Every phase reports through [diag_emit]/[diag_emit_span]. The
    texts of messages are left out, for [Report] to add; severity, code, position,
    span and the presence of a fix hint are here. *)

From Stdlib Require Import ZArith Lia String Ascii.
From stdpp Require Import base tactics list.
From S2P Require Import Prelude.

Inductive DiagSeverity := DIAG_WARNING | DIAG_ERROR.

(** [s_int_mode] *)
Inductive DiagIntMode := DIAG_INT_JSON | DIAG_INT_TEXT | DIAG_INT_SARIF.

(** One emitted diagnostic: the arguments of [emit_json]/[emit_text]/[buffer_sarif]. *)
Record diag := mkDiag {
  d_sev : DiagSeverity;
  d_code : Z;
  d_off : Z;
  d_line : Z;
  d_col : Z;
  d_span_start : Z;
  d_span_end : Z;
  d_fix : bool
}.

(** The statics of diag.c. [s_stream] is what has been written to stderr. *)
Record Diags := mkDiags {
  s_int_mode : DiagIntMode;
  s_error_count : Z;
  s_warn_count : Z;
  s_seq : Z;
  s_suppress : bool;
  s_stream : list diag;
  s_sarif_buf : list diag
}.

Definition SARIF_MAX_DIAGS : Z := 4096.

(** The state a compilation starts in. *)
Definition diags_init : Diags := mkDiags DIAG_INT_JSON 0 0 0 false [] [].

Definition diag_suppress (on : bool) (d : Diags) : Diags :=
  mkDiags (s_int_mode d) (s_error_count d) (s_warn_count d) (s_seq d) on
    (s_stream d) (s_sarif_buf d).

Definition update_counters (sev : DiagSeverity) (d : Diags) : Diags :=
  match sev with
  | DIAG_ERROR =>
      mkDiags (s_int_mode d) (s_error_count d + 1) (s_warn_count d) (s_seq d + 1)
        (s_suppress d) (s_stream d) (s_sarif_buf d)
  | DIAG_WARNING =>
      mkDiags (s_int_mode d) (s_error_count d) (s_warn_count d + 1) (s_seq d + 1)
        (s_suppress d) (s_stream d) (s_sarif_buf d)
  end.

(** A full buffer drops the diagnostic silently. *)
Definition buffer_sarif (e : diag) (d : Diags) : Diags :=
  if SARIF_MAX_DIAGS <=? zlen (s_sarif_buf d) then d
  else mkDiags (s_int_mode d) (s_error_count d) (s_warn_count d) (s_seq d)
         (s_suppress d) (s_stream d) (s_sarif_buf d ++ [e]).

Definition write_stream (e : diag) (d : Diags) : Diags :=
  mkDiags (s_int_mode d) (s_error_count d) (s_warn_count d) (s_seq d)
    (s_suppress d) (s_stream d ++ [e]) (s_sarif_buf d).

(** The common tail of [diag_emit] and [diag_emit_span]. *)
Definition emit_diag (e : diag) (d : Diags) : Diags :=
  if s_suppress d then d
  else
    let d := update_counters (d_sev e) d in
    match s_int_mode d with
    | DIAG_INT_SARIF => buffer_sarif e d
    | DIAG_INT_TEXT | DIAG_INT_JSON => write_stream e d
    end.

(** [diag_emit]: no span. *)
Definition diag_emit (sev : DiagSeverity) (code off line col : Z) (fix_ : bool) : Diags -> Diags :=
  emit_diag (mkDiag sev code off line col (-1) (-1) fix_).

(** [diag_emit_span]: the span covers [span_len] bytes from the offset. *)
Definition diag_emit_span (sev : DiagSeverity) (code off line col span_len : Z) (fix_ : bool)
    : Diags -> Diags :=
  emit_diag (mkDiag sev code off line col off (off + span_len) fix_).

(** ** Lemmas for the clients *)

Lemma emit_diag_suppressed e d : s_suppress d = true -> emit_diag e d = d.
Proof. intros E. unfold emit_diag. by rewrite E. Qed.

Lemma emit_diag_suppress e d : s_suppress (emit_diag e d) = s_suppress d.
Proof.
  unfold emit_diag, buffer_sarif, write_stream.
  repeat case_match; simplify_eq/=; try done; by destruct (d_sev e).
Qed.

Lemma emit_diag_errors e d :
  s_error_count (emit_diag e d)
  = s_error_count d + match d_sev e with
                      | DIAG_ERROR => if s_suppress d then 0 else 1
                      | DIAG_WARNING => 0
                      end.
Proof.
  unfold emit_diag, buffer_sarif, write_stream.
  destruct (s_suppress d), (d_sev e); simpl; repeat case_match; simpl; lia.
Qed.

(** Diagnostics one after the other. *)
Definition emitted (l : list diag) (d : Diags) : Diags := fold_left (fun d e => emit_diag e d) l d.

Lemma emitted_app l k d : emitted (l ++ k) d = emitted k (emitted l d).
Proof. apply fold_left_app. Qed.

Definition is_error (e : diag) : Prop := d_sev e = DIAG_ERROR.

#[global] Instance is_error_dec e : Decision (is_error e).
Proof. unfold is_error. destruct (d_sev e); [right|left]; done. Defined.

(** Every error is counted. *)
Lemma emitted_count l d :
  s_suppress d = false ->
  s_error_count (emitted l d) = s_error_count d + zlen (filter is_error l).
Proof.
  revert d. induction l as [|e l IH]; intros d Hs; cbn [emitted fold_left].
  - change (filter is_error []) with (@nil diag). rewrite zlen_nil. lia.
  - fold (emitted l (emit_diag e d)). rewrite IH by by rewrite emit_diag_suppress.
    rewrite emit_diag_errors, Hs, filter_cons.
    case_decide as He; [rewrite He, zlen_cons; lia|].
    unfold is_error in He. destruct (d_sev e); [lia|done].
Qed.

Lemma emitted_errors l d :
  s_suppress d = false -> Exists is_error l -> s_error_count d < s_error_count (emitted l d).
Proof.
  intros Hs H. rewrite emitted_count by done. apply Exists_exists in H as (e & He & Hr).
  assert (H : e ∈ filter is_error l) by by apply list_elem_of_filter.
  destruct (filter is_error l) as [|x k]; [by apply elem_of_nil in H|].
  rewrite zlen_cons. pose proof (zlen_nonneg k). lia.
Qed.
