(* ===== verification/Lexer.v ===== *)
(** * The lexer: [src/src/lexer.h], [src/src/lexer.c]

    Data and operations.  A C function over [Lexer *l] is a computation in
    [M Lexer]; reads of the source buffer go through [rd], so reading outside it
    would give [Oob]. The fields of the C struct that never change ([src], [len],
    [out_cap], [profile]) are the section's variables. *)

From Stdlib Require Import ZArith Lia String Ascii.
From stdpp Require Import base tactics list.
From S2P Require Import Prelude Diag.
Open Scope Z_scope.

Inductive Profile := PROFILE_DEFAULT | PROFILE_LEGACY.

Inductive TokenKind :=
  | TK_KW_F | TK_KW_T | TK_KW_I | TK_KW_M | TK_KW_IF | TK_KW_EL | TK_KW_LP
  | TK_KW_BR | TK_KW_LET | TK_KW_MUT | TK_KW_AS | TK_KW_RT | TK_KW_SC | TK_KW_MT
  | TK_BOOL_LIT | TK_INT_LIT | TK_FLOAT_LIT | TK_STR_LIT
  | TK_IDENT | TK_TYPE_IDENT
  | TK_LPAREN | TK_RPAREN | TK_LBRACE | TK_RBRACE | TK_LBRACKET | TK_RBRACKET
  | TK_EQ | TK_EQEQ | TK_COLON | TK_DOT | TK_SEMI
  | TK_PLUS | TK_MINUS | TK_STAR | TK_SLASH | TK_LT | TK_GT | TK_BANG | TK_PIPE
  | TK_DOLLAR | TK_AT | TK_AND | TK_OR | TK_AMP | TK_CARET | TK_TILDE
  | TK_SHR | TK_SHL | TK_PERCENT | TK_LE | TK_GE | TK_NE
  | TK_EOF | TK_ERROR.

#[export] Instance Profile_eq_dec : EqDecision Profile.
Proof. solve_decision. Defined.
#[export] Instance TokenKind_eq_dec : EqDecision TokenKind.
Proof. solve_decision. Defined.

Record Token := mkToken {
  t_kind : TokenKind;
  t_start : Z;
  t_len : Z;
  t_line : Z;
  t_col : Z
}.

(** Diagnostic codes and the error limit. *)
Definition LEX_E1001 : Z := 1001.
Definition LEX_E1002 : Z := 1002.
Definition LEX_E1003 : Z := 1003.
Definition LEX_E1004 : Z := 1004.
Definition LEX_E1005 : Z := 1005.
Definition LEX_E1006 : Z := 1006.
Definition LEX_W1010 : Z := 1010.
Definition LEX_W1020 : Z := 1020.
Definition LEX_MAX_ERRORS : Z := 20.

(** ** Character classes *)

Definition is_letter (c : Z) : bool :=
  (chr "a" <=? c) && (c <=? chr "z") || (chr "A" <=? c) && (c <=? chr "Z").
Definition is_digit (c : Z) : bool := (chr "0" <=? c) && (c <=? chr "9").
Definition is_ident_cont (c : Z) : bool := is_letter c || is_digit c.
Definition is_ident_cont_legacy (c : Z) : bool :=
  is_letter c || is_digit c || (c =? chr "_").
Definition is_hex (c : Z) : bool :=
  is_digit c || (chr "a" <=? c) && (c <=? chr "f") || (chr "A" <=? c) && (c <=? chr "F").
(** the test of the [0b] branch of [lex_number] *)
Definition is_bin (c : Z) : bool := (c =? chr "0") || (c =? chr "1").
Definition is_whitespace (c : Z) : bool :=
  (c =? chr " ") || (c =? 9) || (c =? 13) || (c =? 10).
Definition is_upper (c : Z) : bool := (chr "A" <=? c) && (c <=? chr "Z").

(** ** Keyword tables *)

Definition KEYWORDS_LEGACY : list (list Z * TokenKind) :=
  [ (bytes_of "F", TK_KW_F); (bytes_of "T", TK_KW_T);
    (bytes_of "I", TK_KW_I); (bytes_of "M", TK_KW_M);
    (bytes_of "if", TK_KW_IF); (bytes_of "el", TK_KW_EL);
    (bytes_of "lp", TK_KW_LP); (bytes_of "br", TK_KW_BR);
    (bytes_of "let", TK_KW_LET); (bytes_of "mut", TK_KW_MUT);
    (bytes_of "as", TK_KW_AS); (bytes_of "rt", TK_KW_RT);
    (bytes_of "sc", TK_KW_SC); (bytes_of "mt", TK_KW_MT);
    (bytes_of "true", TK_BOOL_LIT); (bytes_of "false", TK_BOOL_LIT) ].

Definition KEYWORDS_DEFAULT : list (list Z * TokenKind) :=
  [ (bytes_of "if", TK_KW_IF); (bytes_of "el", TK_KW_EL);
    (bytes_of "lp", TK_KW_LP); (bytes_of "br", TK_KW_BR);
    (bytes_of "let", TK_KW_LET); (bytes_of "mut", TK_KW_MUT);
    (bytes_of "as", TK_KW_AS); (bytes_of "rt", TK_KW_RT);
    (bytes_of "sc", TK_KW_SC); (bytes_of "mt", TK_KW_MT);
    (bytes_of "true", TK_BOOL_LIT); (bytes_of "false", TK_BOOL_LIT) ].

(** The table scan of [classify_ident]; the first entry that matches wins. *)
Fixpoint find_kw (table : list (list Z * TokenKind)) (w : list Z) : option TokenKind :=
  match table with
  | [] => None
  | (word, k) :: table => if bytes_eqb w word then Some k else find_kw table w
  end.

(** [classify_ident], on the bytes of the identifier. *)
Definition classify_ident (w : list Z) (profile : Profile) : TokenKind :=
  let table := match profile with
               | PROFILE_LEGACY => KEYWORDS_LEGACY
               | PROFILE_DEFAULT => KEYWORDS_DEFAULT
               end in
  match (if 32 <=? zlen w then None else find_kw table w) with
  | Some k => k
  | None => if is_upper (byte_at w 0) then TK_TYPE_IDENT else TK_IDENT
  end.

(** The upper-case letters of [UPPER_KW_MAP]. *)
Definition UPPER_KW_MAP : list Z := [chr "M"; chr "F"; chr "T"; chr "I"; chr "C"].

(** The words of [PYTHON_KEYWORDS]. *)
Definition PYTHON_KEYWORDS : list (list Z) :=
  map bytes_of
    [ "def"; "return"; "import"; "class"; "elif"; "print"; "None";
      "func"; "package"; "var"; "nil";
      "fn"; "impl"; "pub"; "use";
      "function"; "const"; "null"; "undefined"; "console";
      "void"; "char"; "printf";
      "else"; "loop"; "match"; "module"; "while"; "struct" ]%string.

(** ** Scanner state *)

Record Lexer := mkLexer {
  l_pos : Z;
  l_line : Z;
  l_col : Z;
  l_out : list Token;
  l_err_count : Z;
  l_diags : Diags
}.

(** [out_n], the number of tokens written so far. *)
Definition l_out_n (l : Lexer) : Z := zlen (l_out l).

Section Lex.
Context (src : list Z) (len out_cap : Z) (profile : Profile).

Definition LM := M Lexer.

Definition record_error : LM bool :=
  do l <- get;
  let n := l_err_count l + 1 in
  do! put (mkLexer (l_pos l) (l_line l) (l_col l) (l_out l) n (l_diags l));
  ret (LEX_MAX_ERRORS <=? n).

Definition lex_diag (sev : DiagSeverity) (code off line col : Z) (fix_ : bool) : LM unit :=
  modify (fun l => mkLexer (l_pos l) (l_line l) (l_col l) (l_out l) (l_err_count l)
                     (diag_emit sev code off line col fix_ (l_diags l))).

Definition advance : LM unit :=
  do l <- get;
  if len <=? l_pos l then ret tt
  else
    do c <- rd src (l_pos l);
    put (if c =? 10
         then mkLexer (l_pos l + 1) (l_line l + 1) 1 (l_out l) (l_err_count l) (l_diags l)
         else mkLexer (l_pos l + 1) (l_line l) (l_col l + 1) (l_out l) (l_err_count l) (l_diags l)).

Definition emit (k : TokenKind) (start tlen line col : Z) : LM Z :=
  do l <- get;
  if out_cap <=? l_out_n l then ret (-1)
  else
    do! put (mkLexer (l_pos l) (l_line l) (l_col l)
               (l_out l ++ [mkToken k start tlen line col]) (l_err_count l) (l_diags l));
    ret 0.

(** [l->pos + off < l->len && p(l->src[l->pos + off])] *)
Definition look (off : Z) (p : Z -> bool) : LM bool :=
  do l <- get;
  if l_pos l + off <? len then
    do c <- rd src (l_pos l + off); ret (p c)
  else ret false.

(** [while (l->pos < l->len && p(l->src[l->pos])) advance(l);] *)
Definition skip_while (p : Z -> bool) : LM unit :=
  do l <- get;
  iter (S (Z.to_nat (len - l_pos l)))
    (fun _ => do b <- look 0 p;
              if b then do! advance; ret (inl tt) else ret (inr tt)) tt.

(** The check for a letter directly after a number. *)
Definition digit_ident_check (start line col : Z) (fix_ : bool) (k : LM Z) : LM Z :=
  do b <- look 0 is_letter;
  if b then
    do! skip_while is_ident_cont;
    do! lex_diag DIAG_ERROR LEX_E1004 start line col fix_;
    ret (-1)
  else k.

(** The body shared by the [0x] and [0b] branches of [lex_number]. *)
Definition lex_radix (is_dig : Z -> bool) (start line col : Z) : LM Z :=
  do! advance; do! advance;
  do b <- look 0 is_dig;
  if negb b then
    do! lex_diag DIAG_ERROR LEX_E1005 start line col true;
    ret (-1)
  else
    do! skip_while is_dig;
    digit_ident_check start line col true
      (do l <- get; emit TK_INT_LIT start (l_pos l - start) line col).

Definition lex_decimal (start line col : Z) : LM Z :=
  do! skip_while is_digit;
  do dot <- look 0 (fun c => c =? chr ".");
  do frac <- (if dot then look 1 is_digit else ret false);
  do! when frac (do! advance; skip_while is_digit);
  digit_ident_check start line col false
    (do l <- get;
     emit (if frac then TK_FLOAT_LIT else TK_INT_LIT) start (l_pos l - start) line col).

Definition lex_number (start line col : Z) : LM Z :=
  do l <- get;
  do c <- rd src (l_pos l);
  if (c =? chr "0") && (l_pos l + 1 <? len) then
    do next <- rd src (l_pos l + 1);
    if (next =? chr "x") || (next =? chr "X") then lex_radix is_hex start line col
    else if (next =? chr "b") || (next =? chr "B") then lex_radix is_bin start line col
    else lex_decimal start line col
  else lex_decimal start line col.

(** The interpolation scan of [lex_string]: to the matching parenthesis. *)
Definition skip_interp : LM unit :=
  do l <- get;
  iter (S (Z.to_nat (len - l_pos l)))
    (fun depth =>
       do l <- get;
       if (l_pos l <? len) && (0 <? depth) then
         do c <- rd src (l_pos l);
         do! advance;
         ret (inl (if c =? chr "(" then depth + 1
                   else if c =? chr ")" then depth - 1 else depth))
       else ret (inr tt)) 1.

(** One escape sequence, after the backslash has been consumed.  The result is
    [None] for [return -1], otherwise whether an error was recorded. *)
Definition lex_escape : LM (option bool) :=
  do l <- get;
  do esc <- rd src (l_pos l);
  if (esc =? 34) || (esc =? 92) || (esc =? chr "n") ||
     (esc =? chr "t") || (esc =? chr "r") || (esc =? chr "0") then
    do! advance; ret (Some false)
  else if esc =? chr "x" then
    do! advance;
    do inb <- gets (fun l => l_pos l + 1 <? len);
    do h0 <- (if inb then look 0 is_hex else ret false);
    do h1 <- (if h0 then look 1 is_hex else ret false);
    if h1 then do! advance; do! advance; ret (Some false)
    else
      do l <- get;
      do! lex_diag DIAG_ERROR LEX_E1001 (l_pos l) (l_line l) (l_col l) true;
      do stop <- record_error;
      if stop then ret None else ret (Some true)
  else if esc =? chr "(" then
    do! when (bool_decide (profile = PROFILE_LEGACY))
          (lex_diag DIAG_WARNING LEX_W1010 (l_pos l - 1) (l_line l) (l_col l - 1) true);
    do! advance;
    do! skip_interp;
    ret (Some false)
  else
    do! lex_diag DIAG_ERROR LEX_E1001 (l_pos l - 1) (l_line l) (l_col l - 1) false;
    do stop <- record_error;
    if stop then ret None
    else do! advance; ret (Some true).

(** How the loop of [lex_string] ends. *)
Inductive str_end := StrReturn (rc : Z) | StrUnterminated.

Definition lex_string (start line col : Z) : LM Z :=
  do l <- get;
  do r <- iter (S (Z.to_nat (len - l_pos l)))
    (fun had_error =>
       do l <- get;
       if l_pos l <? len then
         do c <- rd src (l_pos l);
         if c =? 34 then
           do! advance;
           do l <- get;
           if negb had_error then
             do rc <- emit TK_STR_LIT start (l_pos l - start) line col;
             ret (inr (StrReturn rc))
           else ret (inr (StrReturn (-1)))
         else if c =? 92 then
           do! advance;
           do l <- get;
           if len <=? l_pos l then ret (inr StrUnterminated)
           else
             do e <- lex_escape;
             match e with
             | None => ret (inr (StrReturn (-1)))
             | Some err => ret (inl (had_error || err))
             end
         else
           do! advance; ret (inl had_error)
       else ret (inr StrUnterminated)) false;
  match r with
  | StrReturn rc => ret rc
  | StrUnterminated =>
      do! lex_diag DIAG_ERROR LEX_E1002 start line col false;
      do! record_error;
      ret (-1)
  end.

(** [check_foreign_keyword]: one W1020 warning when the word is foreign. *)
Definition check_foreign_keyword (w : list Z) (start line col : Z) : LM unit :=
  if existsb (bytes_eqb w) PYTHON_KEYWORDS then
    lex_diag DIAG_WARNING LEX_W1020 start line col true
  else if bytes_eqb w (bytes_of "True") then
    lex_diag DIAG_WARNING LEX_W1020 start line col true
  else if bytes_eqb w (bytes_of "False") then
    lex_diag DIAG_WARNING LEX_W1020 start line col true
  else ret tt.

(** The W1020 part of [lex_ident]: not after a dot or a sigil, and not for the
    closure literal [fn(]. *)
Definition foreign_hint (kind : TokenKind) (start ilen line col : Z) : LM unit :=
  if bool_decide (kind = TK_IDENT) || bool_decide (kind = TK_TYPE_IDENT) then
    do prev <- (if 0 <? start then do c <- rd src (start - 1); ret (Some c) else ret None);
    let preceded_by_dot := match prev with Some c => c =? chr "." | None => false end in
    let preceded_by_sigil := match prev with Some c => c =? chr "$" | None => false end in
    if negb preceded_by_dot && negb preceded_by_sigil then
      let py_buf := slice src start (Z.min ilen 31) in
      do next_paren <-
        (if bytes_eqb py_buf (bytes_of "fn") && (start + ilen <? len)
         then do c <- rd src (start + ilen); ret (c =? chr "(") else ret false);
      if next_paren then ret tt else check_foreign_keyword py_buf start line col
    else ret tt
  else ret tt.

Definition lex_ident (start line col : Z) : LM Z :=
  do! skip_while is_ident_cont;
  do us <- (if bool_decide (profile = PROFILE_DEFAULT)
            then look 0 (fun c => c =? chr "_") else ret false);
  if us then
    do! skip_while is_ident_cont_legacy;
    do! lex_diag DIAG_ERROR LEX_E1003 start line col true;
    ret (-1)
  else
    do l <- get;
    let ilen := l_pos l - start in
    let w := slice src start ilen in
    let kind := classify_ident w profile in
    do upper_kw <-
      (if bool_decide (profile = PROFILE_DEFAULT) && (ilen =? 1) then
         do c <- rd src start;
         do eq <- (if is_upper c then look 0 (fun c => c =? chr "=") else ret false);
         ret (eq && existsb (Z.eqb c) UPPER_KW_MAP)
       else ret false);
    if upper_kw then
      do! lex_diag DIAG_ERROR LEX_E1006 start line col true;
      ret (-1)
    else
      do! foreign_hint kind start ilen line col;
      emit kind start ilen line col.

(** ** The main loop of [lex]

    How one turn of the scan loop ends: [continue], [break] or [return -1]. *)
Inductive ctl := Continue | Break | ReturnM1.

(** [if (record_error(&l)) break; continue;] *)
Definition err_ctl : LM ctl :=
  do stop <- record_error; ret (if stop then Break else Continue).

(** A one-byte symbol: the code after the switch. *)
Definition sym1 (k : TokenKind) (start line col : Z) : LM ctl :=
  do! advance;
  do rc <- emit k start 1 line col;
  ret (if rc <? 0 then ReturnM1 else Continue).

(** A two-byte symbol. *)
Definition sym2 (k : TokenKind) (start line col : Z) : LM ctl :=
  do! advance; do! advance;
  do rc <- emit k start 2 line col;
  ret (if rc <? 0 then ReturnM1 else Continue).

(** A rejected symbol: E1003, then skip the byte unless the limit is reached. *)
Definition sym_error (start line col : Z) (fix_ : bool) : LM ctl :=
  do! lex_diag DIAG_ERROR LEX_E1003 start line col fix_;
  do stop <- record_error;
  if stop then ret Break else do! advance; ret Continue.

(** The nested block comment, after its opening delimiter. *)
Definition skip_comment : LM unit :=
  do l <- get;
  iter (S (Z.to_nat (len - l_pos l)))
    (fun depth =>
       do l <- get;
       if (l_pos l <? len) && (0 <? depth) then
         do o0 <- (if l_pos l + 1 <? len then look 0 (fun c => c =? chr "(") else ret false);
         do o1 <- (if o0 then look 1 (fun c => c =? chr "*") else ret false);
         if o1 then do! advance; do! advance; ret (inl (depth + 1))
         else
           do c0 <- (if l_pos l + 1 <? len then look 0 (fun c => c =? chr "*") else ret false);
           do c1 <- (if c0 then look 1 (fun c => c =? chr ")") else ret false);
           if c1 then do! advance; do! advance; ret (inl (depth - 1))
           else do! advance; ret (inl depth)
       else ret (inr tt)) 1.

(** Skip to the end of the line. *)
Definition skip_line : LM unit := skip_while (fun c => negb (c =? 10)).

(** The switch on the first byte of a symbol. *)
Definition lex_symbol (c start line col : Z) : LM ctl :=
  let next x := look 1 (fun d => d =? x) in
  if c =? chr "(" then
    do star <- next (chr "*");
    if star then do! advance; do! advance; do! skip_comment; ret Continue
    else sym1 TK_LPAREN start line col
  else if c =? chr ")" then sym1 TK_RPAREN start line col
  else if c =? chr "{" then sym1 TK_LBRACE start line col
  else if c =? chr "}" then sym1 TK_RBRACE start line col
  else if c =? chr "[" then
    if bool_decide (profile = PROFILE_DEFAULT) then sym_error start line col true
    else sym1 TK_LBRACKET start line col
  else if c =? chr "]" then
    if bool_decide (profile = PROFILE_DEFAULT) then sym_error start line col true
    else sym1 TK_RBRACKET start line col
  else if c =? chr "=" then
    do eq <- next (chr "=");
    if eq then sym2 TK_EQEQ start line col else sym1 TK_EQ start line col
  else if c =? chr ":" then sym1 TK_COLON start line col
  else if c =? chr "." then sym1 TK_DOT start line col
  else if c =? chr ";" then sym1 TK_SEMI start line col
  else if c =? chr "+" then sym1 TK_PLUS start line col
  else if c =? chr "-" then sym1 TK_MINUS start line col
  else if c =? chr "*" then sym1 TK_STAR start line col
  else if c =? chr "/" then
    do sl <- next (chr "/");
    if sl then
      do! lex_diag DIAG_WARNING LEX_W1020 start line col true;
      do! skip_line; ret Continue
    else sym1 TK_SLASH start line col
  else if c =? chr "<" then
    do eq <- next (chr "=");
    if eq then sym2 TK_LE start line col
    else
      do lt <- next (chr "<");
      if lt then sym2 TK_SHL start line col else sym1 TK_LT start line col
  else if c =? chr ">" then
    do eq <- next (chr "=");
    if eq then sym2 TK_GE start line col
    else
      do gt <- next (chr ">");
      if gt then sym2 TK_SHR start line col else sym1 TK_GT start line col
  else if c =? chr "!" then
    do eq <- next (chr "=");
    if eq then sym2 TK_NE start line col else sym1 TK_BANG start line col
  else if c =? chr "|" then
    do p <- next (chr "|");
    if p then sym2 TK_OR start line col else sym1 TK_PIPE start line col
  else if c =? chr "&" then
    do a <- next (chr "&");
    if a then sym2 TK_AND start line col else sym1 TK_AMP start line col
  else if c =? chr "^" then sym1 TK_CARET start line col
  else if c =? chr "~" then sym1 TK_TILDE start line col
  else if c =? chr "%" then sym1 TK_PERCENT start line col
  else if c =? chr "$" then
    if bool_decide (profile = PROFILE_LEGACY) then sym_error start line col true
    else sym1 TK_DOLLAR start line col
  else if c =? chr "@" then
    if bool_decide (profile = PROFILE_LEGACY) then sym_error start line col true
    else sym1 TK_AT start line col
  else sym_error start line col false.

(** One turn of [while (l.pos < l.len)]. *)
Definition lex_step : LM ctl :=
  do l <- get;
  let start := l_pos l in
  let line := l_line l in
  let col := l_col l in
  do c <- rd src start;
  if is_whitespace c then do! advance; ret Continue
  else if (c =? chr "_") && bool_decide (profile = PROFILE_DEFAULT) then
    do! advance;
    do! skip_while is_ident_cont_legacy;
    do! lex_diag DIAG_ERROR LEX_E1003 start line col true;
    err_ctl
  else if is_letter c || (c =? chr "_") && bool_decide (profile = PROFILE_LEGACY) then
    do! advance;
    do rc <- lex_ident start line col;
    if rc <? 0 then err_ctl else ret Continue
  else if is_digit c then
    do rc <- lex_number start line col;
    if rc <? 0 then err_ctl else ret Continue
  else if c =? 34 then
    do! advance;
    do rc <- lex_string start line col;
    if rc <? 0 then
      do l <- get;
      ret (if LEX_MAX_ERRORS <=? l_err_count l then Break else Continue)
    else ret Continue
  else if c =? chr "#" then
    do! lex_diag DIAG_WARNING LEX_W1020 start line col true;
    do! skip_line; ret Continue
  else lex_symbol c start line col.

(** The scan loop; [true] when it is left normally, [false] for [return -1]. *)
Definition lex_loop : LM bool :=
  iter (S (Z.to_nat len))
    (fun _ =>
       do l <- get;
       if l_pos l <? len then
         do r <- lex_step;
         ret (match r with
              | Continue => inl tt
              | Break => inr true
              | ReturnM1 => inr false
              end)
       else ret (inr true)) tt.

Definition lex_init (d : Diags) : Lexer := mkLexer 0 1 1 [] 0 d.

(** [lex], from the state after the initialisation of [l]: the return value and
    the final state ([l_out] is the caller's buffer). *)
Definition lex_body : LM Z :=
  do go <- lex_loop;
  if go then
    do l <- get;
    do rc <- emit TK_EOF (l_pos l) 0 (l_line l) (l_col l);
    if rc <? 0 then ret (-1)
    else
      do l <- get;
      ret (if 0 <? l_err_count l then -1 else l_out_n l)
  else ret (-1).

Definition lex (d : Diags) : res (Z * Lexer) := lex_body (lex_init d).

End Lex.

(** The tokens of a source text that lexes. *)
Definition lex_string_of (s : string) (p : Profile) : res (Z * Lexer) :=
  let b := bytes_of s in lex b (zlen b) (zlen b + 16) p diags_init.

Definition kinds_of (r : res (Z * Lexer)) : option (Z * list TokenKind) :=
  match r with
  | Ok (n, l) => Some (n, map t_kind (l_out l))
  | _ => None
  end.
