(* ===== verification/LexSpec.v ===== *)
(** * The lexical grammar, as a reference for the lexer

    Positions, gaps and lexemes of a source text stated directly on the bytes,
    independently of the scanner's state: what [LexerFacts] proves [lex] to
    implement. *)

From Stdlib Require Import ZArith Lia String Ascii.
From stdpp Require Import base tactics list.
From S2P Require Import Prelude Lexer.
Open Scope Z_scope.

(** Line and column after a prefix of the text; both start at 1. *)
Definition loc_step (lc : Z * Z) (c : Z) : Z * Z :=
  if c =? 10 then (lc.1 + 1, 1) else (lc.1, lc.2 + 1).

(** Length of the longest prefix whose bytes satisfy [p]. *)
Fixpoint run_len (p : Z -> bool) (l : list Z) : Z :=
  match l with
  | [] => 0
  | x :: l => if p x then 1 + run_len p l else 0
  end.

(** Length of a block comment's body up to its closing delimiter (or the end of
    the text), at nesting depth [d]. *)
Fixpoint comment_len (d : Z) (t : list Z) : Z :=
  if d <=? 0 then 0 else
  match t with
  | [] => 0
  | a :: t1 =>
      match t1 with
      | [] => 1
      | b :: t2 =>
          if (a =? chr "(") && (b =? chr "*") then 2 + comment_len (d + 1) t2
          else if (a =? chr "*") && (b =? chr ")") then 2 + comment_len (d - 1) t2
          else 1 + comment_len d t1
      end
  end.

(** Length of an interpolation up to its closing parenthesis. *)
Fixpoint interp_len (d : Z) (t : list Z) : Z :=
  if d <=? 0 then 0 else
  match t with
  | [] => 0
  | c :: t =>
      1 + interp_len (if c =? chr "(" then d + 1 else if c =? chr ")" then d - 1 else d) t
  end.

(** Two-byte operators. *)
Definition sym2_kind (a b : Z) : option TokenKind :=
  if (a =? chr "=") && (b =? chr "=") then Some TK_EQEQ
  else if (a =? chr "<") && (b =? chr "=") then Some TK_LE
  else if (a =? chr "<") && (b =? chr "<") then Some TK_SHL
  else if (a =? chr ">") && (b =? chr "=") then Some TK_GE
  else if (a =? chr ">") && (b =? chr ">") then Some TK_SHR
  else if (a =? chr "!") && (b =? chr "=") then Some TK_NE
  else if (a =? chr "|") && (b =? chr "|") then Some TK_OR
  else if (a =? chr "&") && (b =? chr "&") then Some TK_AND
  else None.

(** One-byte symbols of a profile. *)
Definition sym1_table (p : Profile) : list (Z * TokenKind) :=
  [ (chr "(", TK_LPAREN); (chr ")", TK_RPAREN); (chr "{", TK_LBRACE); (chr "}", TK_RBRACE);
    (chr "=", TK_EQ); (chr ":", TK_COLON); (chr ".", TK_DOT); (chr ";", TK_SEMI);
    (chr "+", TK_PLUS); (chr "-", TK_MINUS); (chr "*", TK_STAR); (chr "/", TK_SLASH);
    (chr "<", TK_LT); (chr ">", TK_GT); (chr "!", TK_BANG); (chr "|", TK_PIPE);
    (chr "&", TK_AMP); (chr "^", TK_CARET); (chr "~", TK_TILDE); (chr "%", TK_PERCENT) ] ++
  match p with
  | PROFILE_DEFAULT => [ (chr "$", TK_DOLLAR); (chr "@", TK_AT) ]
  | PROFILE_LEGACY => [ (chr "[", TK_LBRACKET); (chr "]", TK_RBRACKET) ]
  end.

Fixpoint assoc (l : list (Z * TokenKind)) (c : Z) : option TokenKind :=
  match l with
  | [] => None
  | (x, k) :: l => if c =? x then Some k else assoc l c
  end.

Definition sym1_kind (p : Profile) (c : Z) : option TokenKind := assoc (sym1_table p) c.

(** The bytes that may follow a backslash and stand for themselves. *)
Definition simple_escape (c : Z) : bool :=
  (c =? 34) || (c =? 92) || (c =? chr "n") || (c =? chr "t") || (c =? chr "r") || (c =? chr "0").

Section Spec.
Context (src : list Z) (profile : Profile).

Definition byte (p : Z) : Z := byte_at src p.
Definition suffix (p : Z) : list Z := drop (Z.to_nat p) src.

(** [loc p]: line and column of offset [p]. *)
Definition loc (p : Z) : Z * Z := fold_left loc_step (take (Z.to_nat p) src) (1, 1).

(** End of the run of bytes satisfying [f] from [p]. *)
Definition scan (f : Z -> bool) (p : Z) : Z := p + run_len f (suffix p).

(** The byte at [p] exists and satisfies [f]. *)
Definition has (f : Z -> bool) (p : Z) : bool := (p <? zlen src) && f (byte p).

Definition has_c (c p : Z) : bool := has (fun d => d =? c) p.

(** Text between tokens: white space and comments. *)
Inductive gap : Z -> Z -> Prop :=
  | gap_space p :
      has is_whitespace p = true -> gap p (p + 1)
  | gap_hash p :
      has_c (chr "#") p = true ->
      gap p (scan (fun c => negb (c =? 10)) p)
  | gap_slashes p :
      has_c (chr "/") p = true -> has_c (chr "/") (p + 1) = true ->
      gap p (scan (fun c => negb (c =? 10)) p)
  | gap_block p :
      has_c (chr "(") p = true -> has_c (chr "*") (p + 1) = true ->
      gap p (p + 2 + comment_len 1 (suffix (p + 2))).

(** The inside of a string literal. *)
Inductive str_items : Z -> Z -> Prop :=
  | si_nil p : str_items p p
  | si_plain p q :
      has (fun c => negb (c =? 34) && negb (c =? 92)) p = true ->
      str_items (p + 1) q -> str_items p q
  | si_escape p q :
      has_c 92 p = true -> has simple_escape (p + 1) = true ->
      str_items (p + 2) q -> str_items p q
  | si_hex p q :
      has_c 92 p = true -> has_c (chr "x") (p + 1) = true ->
      has is_hex (p + 2) = true -> has is_hex (p + 3) = true ->
      str_items (p + 4) q -> str_items p q
  | si_interp p q :
      has_c 92 p = true -> has_c (chr "(") (p + 1) = true ->
      str_items (p + 2 + interp_len 1 (suffix (p + 2))) q -> str_items p q.

Definition word_start (c : Z) : bool :=
  is_letter c || (c =? chr "_") && bool_decide (profile = PROFILE_LEGACY).

(** An upper-case declaration keyword ([M=] and the like), refused by the
    default profile. *)
Definition upper_decl (p q : Z) : bool :=
  bool_decide (profile = PROFILE_DEFAULT) && (q - p =? 1) && is_upper (byte p) &&
  has_c (chr "=") q && existsb (Z.eqb (byte p)) UPPER_KW_MAP.

(** Radix prefixes. *)
Definition radix_at (p : Z) : option (Z -> bool) :=
  if has_c (chr "0") p then
    if has (fun c => (c =? chr "x") || (c =? chr "X")) (p + 1) then Some is_hex
    else if has (fun c => (c =? chr "b") || (c =? chr "B")) (p + 1) then Some is_bin
    else None
  else None.

(** [lexeme k p q]: the bytes [p .. q) are a token of kind [k]. *)
Inductive lexeme : TokenKind -> Z -> Z -> Prop :=
  | lx_word p q :
      has word_start p = true -> q = scan is_ident_cont (p + 1) ->
      (profile = PROFILE_DEFAULT -> has_c (chr "_") q = false) ->
      upper_decl p q = false ->
      lexeme (classify_ident (slice src p (q - p)) profile) p q
  | lx_int p q :
      has is_digit p = true -> radix_at p = None ->
      q = scan is_digit p ->
      has_c (chr ".") q && has is_digit (q + 1) = false ->
      has is_letter q = false ->
      lexeme TK_INT_LIT p q
  | lx_float p q q1 :
      has is_digit p = true -> radix_at p = None ->
      q1 = scan is_digit p ->
      has_c (chr ".") q1 && has is_digit (q1 + 1) = true ->
      q = scan is_digit (q1 + 1) ->
      has is_letter q = false ->
      lexeme TK_FLOAT_LIT p q
  | lx_radix p q dig :
      radix_at p = Some dig -> has dig (p + 2) = true ->
      q = scan dig (p + 2) -> has is_letter q = false ->
      lexeme TK_INT_LIT p q
  | lx_string p q :
      has_c 34 p = true -> str_items (p + 1) q -> has_c 34 q = true ->
      lexeme TK_STR_LIT p (q + 1)
  | lx_sym2 p k :
      p + 1 < zlen src -> sym2_kind (byte p) (byte (p + 1)) = Some k ->
      lexeme k p (p + 2)
  | lx_sym1 p k :
      p < zlen src -> sym1_kind profile (byte p) = Some k ->
      (p + 1 < zlen src -> sym2_kind (byte p) (byte (p + 1)) = None) ->
      has_c (chr "(") p && has_c (chr "*") (p + 1) = false ->
      has_c (chr "/") p && has_c (chr "/") (p + 1) = false ->
      lexeme k p (p + 1).

(** A token that stands where and for what it says. *)
Record token_at (t : Token) (q : Z) : Prop := {
  ta_lexeme : lexeme (t_kind t) (t_start t) q;
  ta_len : t_len t = q - t_start t;
  ta_loc : (t_line t, t_col t) = loc (t_start t)
}.

(** [scanned ok ts p]: the text up to [p] has been read as the tokens [ts];
    when [ok] the whole text is accounted for, otherwise some of it was
    skipped after an error. *)
Inductive scanned : bool -> list Token -> Z -> Prop :=
  | sc_nil : scanned true [] 0
  | sc_gap ok ts p q :
      scanned ok ts p -> gap p q -> scanned ok ts q
  | sc_tok ok ts t q :
      scanned ok ts (t_start t) -> token_at t q -> scanned ok (ts ++ [t]) q
  | sc_err ok ts p q :
      scanned ok ts p -> p <= q <= zlen src -> scanned false ts q.

(** [lexes p ts]: the text from [p] on is exactly the tokens [ts] and gaps. *)
Inductive lexes : Z -> list Token -> Prop :=
  | lexes_end : lexes (zlen src) []
  | lexes_gap p q ts : gap p q -> lexes q ts -> lexes p ts
  | lexes_tok t q ts :
      token_at t q -> lexes q ts -> lexes (t_start t) (t :: ts).

(** Nothing of the language stands at [p]. *)
Definition stuck (p : Z) : Prop :=
  forall q, ~ gap p q /\ forall k, ~ lexeme k p q.

End Spec.
