(* ===== verification/LexerFacts.v ===== *)
(** * The lexer implements the lexical grammar

    Symbolic execution of the functions of [Lexer] against [LexSpec]. *)

From Stdlib Require Import ZArith Lia String Ascii.
From stdpp Require Import base tactics list.
From S2P Require Import Prelude Diag Lexer LexSpec.
Open Scope Z_scope.

(** ** Runs of bytes *)

Lemma run_len_nonneg p l : 0 <= run_len p l.
Proof. induction l as [|x l IH]; simpl; [lia|]. destruct (p x); lia. Qed.

Lemma run_len_le p l : run_len p l <= zlen l.
Proof.
  induction l as [|x l IH]; simpl; [unfold zlen; simpl; lia|].
  rewrite zlen_cons. destruct (p x); pose proof (zlen_nonneg l); lia.
Qed.

Lemma comment_len_cons2 d a b t :
  comment_len d (a :: b :: t) =
  if d <=? 0 then 0
  else if (a =? chr "(") && (b =? chr "*") then 2 + comment_len (d + 1) t
  else if (a =? chr "*") && (b =? chr ")") then 2 + comment_len (d - 1) t
  else 1 + comment_len d (b :: t).
Proof. done. Qed.

Lemma comment_len_bounds d t : 0 <= comment_len d t <= zlen t.
Proof.
  revert d. remember (length t) as n eqn:Hn. revert t Hn.
  induction n as [n IH] using lt_wf_ind; intros t Hn d.
  destruct t as [|a [|b t]]; [simpl; case_match; unfold zlen; simpl; lia..|].
  simpl in Hn. rewrite comment_len_cons2, !zlen_cons.
  pose proof (IH (length t) ltac:(lia) t eq_refl (d + 1)).
  pose proof (IH (length t) ltac:(lia) t eq_refl (d - 1)).
  pose proof (IH (S (length t)) ltac:(lia) (b :: t) eq_refl d) as H3.
  rewrite zlen_cons in H3. pose proof (zlen_nonneg t). repeat case_match; lia.
Qed.

Lemma interp_len_bounds d t : 0 <= interp_len d t <= zlen t.
Proof.
  revert d. induction t as [|c t IH]; intros d; simpl; destruct (d <=? 0);
    rewrite ?zlen_cons, ?zlen_nil; try (unfold zlen; lia).
  pose proof (IH (if c =? 40 then d + 1 else if c =? 41 then d - 1 else d)). lia.
Qed.

(** ** Diagnostics *)

(** [n] more errors have been reported (none when diagnostics are suppressed). *)
Definition diags_up (n : Z) (d d' : Diags) : Prop :=
  s_suppress d' = s_suppress d /\
  s_error_count d' = s_error_count d + if s_suppress d then 0 else n.

Lemma diags_up_refl d : diags_up 0 d d.
Proof. split; [done|]. case_match; lia. Qed.

Lemma diags_up_trans n m d1 d2 d3 :
  diags_up n d1 d2 -> diags_up m d2 d3 -> diags_up (n + m) d1 d3.
Proof.
  intros [E1 H1] [E2 H2]. rewrite E1 in *. split; [done|].
  rewrite H2, H1. case_match; lia.
Qed.

Lemma diags_up_emit sev code off ln c f d :
  diags_up (match sev with DIAG_ERROR => 1 | DIAG_WARNING => 0 end)
    d (diag_emit sev code off ln c f d).
Proof.
  split; [apply emit_diag_suppress|]. unfold diag_emit. rewrite emit_diag_errors. simpl.
  destruct sev, (s_suppress d); lia.
Qed.

Lemma diags_up_after n m d sev code off ln c f d' :
  diags_up n d d' ->
  m = n + match sev with DIAG_ERROR => 1 | DIAG_WARNING => 0 end ->
  diags_up m d (diag_emit sev code off ln c f d').
Proof. intros H ->. eapply diags_up_trans; [done|apply diags_up_emit]. Qed.

(** A scanner state with a diagnostic added, a token added. *)
Definition addd (sev : DiagSeverity) (code off ln c : Z) (f : bool) (l : Lexer) : Lexer :=
  mkLexer (l_pos l) (l_line l) (l_col l) (l_out l) (l_err_count l)
    (diag_emit sev code off ln c f (l_diags l)).

Definition push (t : Token) (l : Lexer) : Lexer :=
  mkLexer (l_pos l) (l_line l) (l_col l) (l_out l ++ [t]) (l_err_count l) (l_diags l).

Lemma wp_lex_diag sev code off ln c f (Q : unit -> Lexer -> Prop) l :
  Q tt (addd sev code off ln c f l) -> wp (lex_diag sev code off ln c f) Q l.
Proof. done. Qed.

Lemma wp_emit cap k start n ln c (Q : Z -> Lexer -> Prop) l :
  (cap <= l_out_n l -> Q (-1) l) ->
  (l_out_n l < cap -> Q 0 (push (mkToken k start n ln c) l)) ->
  wp (emit cap k start n ln c) Q l.
Proof. intros H1 H2. unfold emit. wp_steps; zb; auto. Qed.

(** ** Which bytes can start what *)

Ltac byte_cases :=
  unfold word_start, is_ident_cont, is_letter, is_digit, is_whitespace, is_upper, simple_escape,
    LexSpec.has_c in *;
  repeat match goal with
         | H : LexSpec.has _ _ _ = true |- _ => apply andb_prop in H; destruct H
         | H : context [bool_decide ?P] |- _ => destruct (bool_decide P)
         end; lia.

Lemma sym1_kind_byte p c k :
  sym1_kind p c = Some k ->
  is_letter c = false /\ is_digit c = false /\ is_whitespace c = false /\
  c <> 34 /\ c <> chr "#" /\ c <> chr "_".
Proof.
  unfold sym1_kind, sym1_table.
  destruct p; simpl; intros H; repeat (case_match; [zb; subst; vm_compute; repeat split; done|]);
    done.
Qed.

Lemma sym2_kind_byte a b k :
  sym2_kind a b = Some k ->
  a = chr "=" \/ a = chr "<" \/ a = chr ">" \/ a = chr "!" \/ a = chr "|" \/ a = chr "&".
Proof.
  unfold sym2_kind. intros H. repeat (case_match; [zb; tauto|]). done.
Qed.

Section Facts.
Context (src : list Z) (out_cap : Z) (profile : Profile).
Abbreviation len := (zlen src).
Abbreviation byte := (byte src).
Abbreviation suffix := (suffix src).
Abbreviation loc := (loc src).
Abbreviation scan := (scan src).
Abbreviation has := (has src).
Abbreviation has_c := (has_c src).

Lemma suffix_cons p : 0 <= p < len -> suffix p = byte p :: suffix (p + 1).
Proof. apply drop_byte_at. Qed.

Lemma suffix_end p : len <= p -> suffix p = [].
Proof. intros. apply drop_ge. unfold zlen in *. lia. Qed.

Lemma zlen_suffix p : 0 <= p <= len -> zlen (suffix p) = len - p.
Proof. intros. unfold suffix, zlen in *. rewrite length_drop. lia. Qed.

Lemma has_true f p : has f p = true <-> p < len /\ f (byte p) = true.
Proof. unfold LexSpec.has. rewrite andb_true_iff, Z.ltb_lt. done. Qed.

Lemma has_c_true c p : has_c c p = true <-> p < len /\ byte p = c.
Proof. unfold LexSpec.has_c. by rewrite has_true, Z.eqb_eq. Qed.

Lemma scan_step f p : 0 <= p -> has f p = true -> scan f p = scan f (p + 1).
Proof.
  intros ? [? Hf]%has_true. unfold LexSpec.scan.
  rewrite (suffix_cons p) by lia. simpl. rewrite Hf. lia.
Qed.

Lemma scan_stop f p : 0 <= p -> has f p = false -> scan f p = p.
Proof.
  intros ? Hf. unfold LexSpec.scan. destruct (decide (p < len)).
  - rewrite (suffix_cons p) by lia. simpl. unfold LexSpec.has in Hf.
    destruct (p <? len) eqn:?; zb; [|lia]. simpl in Hf. rewrite Hf. lia.
  - rewrite suffix_end by lia. simpl. lia.
Qed.

Lemma scan_ge f p : p <= scan f p.
Proof. unfold LexSpec.scan. pose proof (run_len_nonneg f (suffix p)). lia. Qed.

Lemma scan_le f p : 0 <= p <= len -> scan f p <= len.
Proof.
  intros. unfold LexSpec.scan. pose proof (run_len_le f (suffix p)).
  rewrite zlen_suffix in * by lia. lia.
Qed.

(** ** Positions *)

Lemma loc_0 : loc 0 = (1, 1).
Proof. done. Qed.

Lemma loc_succ p : 0 <= p < len -> loc (p + 1) = loc_step (loc p) (byte p).
Proof.
  intros. unfold LexSpec.loc, LexSpec.byte, byte_at.
  rewrite Z2Nat.inj_add by lia. rewrite Nat.add_1_r.
  destruct (lookup_lt_is_Some_2 src (Z.to_nat p)) as [x Hx]; [unfold zlen in *; lia|].
  rewrite (take_S_r _ _ x Hx), fold_left_app, nth_lookup, Hx. done.
Qed.

(** [l] moved to offset [p]. *)
Definition goto (p : Z) (l : Lexer) : Lexer :=
  mkLexer p (loc p).1 (loc p).2 (l_out l) (l_err_count l) (l_diags l).

(** The scanner stands inside the text, and its line and column are right. *)
Record good (l : Lexer) : Prop := {
  good_pos : 0 <= l_pos l <= len;
  good_loc : (l_line l, l_col l) = loc (l_pos l)
}.

Lemma good_goto p l : 0 <= p <= len -> good (goto p l).
Proof. intros. split; [done|]. simpl. by destruct (loc p). Qed.

Lemma goto_self l : good l -> goto (l_pos l) l = l.
Proof. intros [_ H]. unfold goto. rewrite <- H. by destruct l. Qed.

Lemma goto_goto p q l : goto p (goto q l) = goto p l.
Proof. done. Qed.

Lemma wp_advance Q l :
  good l -> l_pos l < len -> Q tt (goto (l_pos l + 1) l) ->
  wp (advance src len) Q l.
Proof.
  intros [Hp Hl] Hlt HQ. unfold advance. wp_step. wp_step.
  destruct (len <=? l_pos l) eqn:?; zb; [lia|].
  wp_steps; zb; unfold goto in HQ; rewrite loc_succ, <- Hl in HQ by lia;
    unfold loc_step in HQ; simpl in HQ; unfold LexSpec.byte in HQ;
    by case_match; zb; try lia.
Qed.

Lemma wp_look off f (Q : bool -> Lexer -> Prop) l :
  0 <= l_pos l + off -> Q (has f (l_pos l + off)) l -> wp (look src len off f) Q l.
Proof.
  intros Hp HQ. unfold look, LexSpec.has in *. wp_steps; zb; simpl in *; done.
Qed.

Lemma wp_skip_while f Q l :
  good l -> Q tt (goto (scan f (l_pos l)) l) -> wp (skip_while src len f) Q l.
Proof.
  intros Hg HQ. unfold skip_while. wp_step. wp_step.
  apply (wp_iter (fun _ l' => exists p, l_pos l <= p <= len /\
           l' = goto p l /\ scan f p = scan f (l_pos l))
         (fun _ l' => Z.to_nat (len - l_pos l'))).
  - exists (l_pos l). rewrite goto_self by done. destruct Hg. repeat split; lia.
  - lia.
  - intros _ l' (p & Hp & -> & Hs). destruct Hg as [? _].
    wp_step. apply wp_look; simpl; [lia|]. rewrite Z.add_0_r.
    destruct (has f p) eqn:Hf.
    + pose proof (proj1 (has_true _ _) Hf) as [? _].
      wp_step. apply wp_advance; [by apply good_goto; lia|simpl; lia|].
      wp_step. simpl. split; [|lia]. exists (p + 1).
      rewrite <- scan_step by (done || lia). repeat split; (done || lia).
    + wp_step. by rewrite <- Hs, scan_stop in HQ by (done || lia).
Qed.

Lemma comment_len_suffix d p :
  0 <= p -> 0 < d ->
  comment_len d (suffix p) =
  if p <? len then
    if has_c (chr "(") p && has_c (chr "*") (p + 1) then 2 + comment_len (d + 1) (suffix (p + 2))
    else if has_c (chr "*") p && has_c (chr ")") (p + 1) then
      2 + comment_len (d - 1) (suffix (p + 2))
    else 1 + comment_len d (suffix (p + 1))
  else 0.
Proof.
  intros ? Hd. destruct (p <? len) eqn:Hp; zb;
    assert (Hz : (d <=? 0) = false) by lia.
  2: { rewrite suffix_end by lia. simpl. by rewrite Hz. }
  unfold LexSpec.has_c, LexSpec.has. rewrite (suffix_cons p) by lia.
  assert ((p <? len) = true) as -> by lia.
  destruct (p + 1 <? len) eqn:Hp1.
  - rewrite (suffix_cons (p + 1)) by lia. rewrite comment_len_cons2, Hz.
    replace (p + 1 + 1) with (p + 2) by lia. done.
  - rewrite (suffix_end (p + 1)) by lia. simpl. by rewrite Hz, !andb_false_r.
Qed.

Lemma wp_skip_comment Q l :
  good l -> Q tt (goto (l_pos l + comment_len 1 (suffix (l_pos l))) l) ->
  wp (skip_comment src len) Q l.
Proof.
  intros Hg HQ. unfold skip_comment. wp_step. wp_step.
  apply (wp_iter (fun d l' => exists p, l_pos l <= p <= len /\ l' = goto p l /\
           p + comment_len d (suffix p) = l_pos l + comment_len 1 (suffix (l_pos l)))
         (fun _ l' => Z.to_nat (len - l_pos l'))).
  - exists (l_pos l). rewrite goto_self by done. destruct Hg. repeat split; lia.
  - lia.
  - intros d l' (p & Hp & -> & Hs). destruct Hg as [Hg _]. wp_step. wp_step. simpl.
    destruct ((p <? len) && (0 <? d)) eqn:Hc; zb.
    2: { wp_step. destruct (Z.le_gt_cases d 0) as [Hd|Hd].
         - assert (comment_len d (suffix p) = 0) as Hz.
           { destruct (suffix p); simpl; case_match; zb; (done || lia). }
           rewrite Hz in Hs. rewrite <- Hs, Z.add_0_r in HQ. done.
         - rewrite suffix_end in Hs; [|lia]. simpl in Hs. case_match; zb; [lia|].
           rewrite <- Hs, Z.add_0_r in HQ. done. }
    rewrite comment_len_suffix in Hs by lia.
    assert ((p <? len) = true) as Hpl by lia. rewrite Hpl in Hs.
    assert (Hgo : forall q, p < q <= len -> forall d',
      q + comment_len d' (suffix q) = l_pos l + comment_len 1 (suffix (l_pos l)) ->
      (exists p0, l_pos l <= p0 <= len /\ goto q l = goto p0 l /\
         p0 + comment_len d' (suffix p0) = l_pos l + comment_len 1 (suffix (l_pos l))) /\
      (Z.to_nat (len - q) < Z.to_nat (len - p))%nat).
    { intros q Hq d' E. split; [|lia]. exists q. repeat split; (done || lia). }
    assert (Htwo : forall a b (k : bool -> M Lexer (Z + unit)) R,
      wp (k (has_c a p && has_c b (p + 1))) R (goto p l) ->
      wp (do o0 <- (if p + 1 <? len then look src len 0 (fun c => c =? a) else ret false);
          do o1 <- (if o0 then look src len 1 (fun c => c =? b) else ret false); k o1) R (goto p l)).
    { intros a b k R Hk. wp_step. destruct (p + 1 <? len) eqn:?.
      - apply wp_look; simpl; [lia|]. rewrite Z.add_0_r. fold (has_c a p).
        wp_step. destruct (has_c a p) eqn:Ha; [|by wp_step].
        apply wp_look; simpl; [lia|]. fold (has_c b (p + 1)). done.
      - wp_step. wp_step. wp_step. unfold LexSpec.has_c, LexSpec.has in Hk.
        rewrite Heqb0, andb_false_r in Hk. done. }
    apply Htwo. destruct (has_c 40 p && has_c 42 (p + 1)) eqn:Ho.
    { apply andb_prop in Ho as [_ [? _]%has_c_true].
      wp_step. apply wp_advance; [apply good_goto; lia|simpl; lia|]. rewrite goto_goto. simpl.
      wp_step. apply wp_advance; [apply good_goto; lia|simpl; lia|]. rewrite goto_goto. simpl.
      replace (p + 1 + 1) with (p + 2) by lia. wp_step. simpl. apply Hgo; lia. }
    apply Htwo. destruct (has_c 42 p && has_c 41 (p + 1)) eqn:Hcl.
    { apply andb_prop in Hcl as [_ [? _]%has_c_true].
      wp_step. apply wp_advance; [apply good_goto; lia|simpl; lia|]. rewrite goto_goto. simpl.
      wp_step. apply wp_advance; [apply good_goto; lia|simpl; lia|]. rewrite goto_goto. simpl.
      replace (p + 1 + 1) with (p + 2) by lia. wp_step. simpl. apply Hgo; lia. }
    wp_step. apply wp_advance; [apply good_goto; lia|simpl; lia|]. rewrite goto_goto. simpl.
    wp_step. simpl. apply Hgo; lia.
Qed.

Lemma wp_skip_interp Q l :
  good l -> Q tt (goto (l_pos l + interp_len 1 (suffix (l_pos l))) l) ->
  wp (skip_interp src len) Q l.
Proof.
  intros Hg HQ. unfold skip_interp. wp_step. wp_step.
  apply (wp_iter (fun d l' => exists p, l_pos l <= p <= len /\ l' = goto p l /\
           p + interp_len d (suffix p) = l_pos l + interp_len 1 (suffix (l_pos l)))
         (fun _ l' => Z.to_nat (len - l_pos l'))).
  - exists (l_pos l). rewrite goto_self by done. destruct Hg. repeat split; lia.
  - lia.
  - intros d l' (p & Hp & -> & Hs). destruct Hg as [Hg _]. wp_step. wp_step. simpl.
    destruct ((p <? len) && (0 <? d)) eqn:Hc; zb.
    + rewrite (suffix_cons p) in Hs by lia. simpl in Hs.
      assert ((d <=? 0) = false) as Hd by lia. rewrite Hd in Hs.
      wp_step. wp_step. wp_step.
      apply wp_advance; [apply good_goto; lia|simpl; lia|]. rewrite goto_goto. simpl.
      wp_step. simpl. split; [|lia]. exists (p + 1). rewrite <- Hs.
      fold (byte p). repeat split; lia.
    + wp_step. destruct (Z.le_gt_cases d 0) as [Hd|Hd].
      * assert (interp_len d (suffix p) = 0) as Hz.
        { destruct (suffix p); simpl; case_match; zb; (done || lia). }
        rewrite Hz in Hs. rewrite <- Hs, Z.add_0_r in HQ. done.
      * rewrite suffix_end in Hs; [|lia]. simpl in Hs. case_match; zb; [lia|].
        rewrite <- Hs, Z.add_0_r in HQ. done.
Qed.

(** ** Numbers, words and strings

    What a token scanner leaves: one token, or nothing because the output buffer
    is full, or one reported error where the grammar has no token either. *)
Inductive tok_out (l l' : Lexer) : Z -> Prop :=
  | to_tok t :
      l_out_n l < out_cap -> l_out l' = l_out l ++ [t] -> t_start t = l_pos l ->
      token_at src profile t (l_pos l') -> l_err_count l' = l_err_count l ->
      diags_up 0 (l_diags l) (l_diags l') -> tok_out l l' 0
  | to_full :
      out_cap <= l_out_n l -> l_out l' = l_out l -> l_err_count l' = l_err_count l ->
      tok_out l l' (-1)
  | to_err :
      stuck src profile (l_pos l) ->
      l_out l' = l_out l -> l_err_count l' = l_err_count l ->
      diags_up 1 (l_diags l) (l_diags l') -> tok_out l l' (-1).

Definition tok_post (l : Lexer) (rc : Z) (l' : Lexer) : Prop :=
  good l' /\ l_pos l < l_pos l' /\ tok_out l l' rc.

Lemma good_same l l' :
  good l -> l_pos l' = l_pos l -> l_line l' = l_line l -> l_col l' = l_col l -> good l'.
Proof. intros [? ?] E1 E2 E3. split; by rewrite ?E1, ?E2, ?E3. Qed.

Lemma good_addd sev code off ln c f l : good l -> good (addd sev code off ln c f l).
Proof. intros. by eapply good_same. Qed.

(** The end of every token scanner: emit the lexeme from [l]'s position to [q]. *)
Lemma wp_emit_token k q l l1 :
  good l -> l_pos l < q <= len -> lexeme src profile k (l_pos l) q ->
  l_out l1 = l_out l -> l_err_count l1 = l_err_count l ->
  diags_up 0 (l_diags l) (l_diags l1) ->
  wp (emit out_cap k (l_pos l) (q - l_pos l) (l_line l) (l_col l)) (tok_post l) (goto q l1).
Proof.
  intros [Hp Hl] Hq Hk Ho He Hd. apply wp_emit; unfold l_out_n; simpl; intros Hc.
  - split; [by apply good_goto; lia|]. split; [simpl; lia|].
    apply to_full; simpl; [by rewrite Ho in Hc|done..].
  - split; [by eapply good_same; [apply (good_goto q l1)|..]; try done; lia|].
    split; [simpl; lia|].
    rewrite Ho in Hc. eapply to_tok; simpl; [done|by rewrite Ho|done|..]; simpl; try done.
    all: split; simpl; done || lia.
Qed.

Lemma wp_token_error code fx q l l1 :
  good l -> l_pos l < q <= len -> stuck src profile (l_pos l) ->
  l_out l1 = l_out l -> l_err_count l1 = l_err_count l ->
  diags_up 0 (l_diags l) (l_diags l1) ->
  tok_post l (-1) (addd DIAG_ERROR code (l_pos l) (l_line l) (l_col l) fx (goto q l1)).
Proof.
  intros [Hp Hl] Hq Hk Ho He Hd.
  split; [by eapply good_same; [apply (good_goto q l1)|..]; try done; lia|].
  split; [simpl; lia|]. apply to_err; simpl; [done..|]. by eapply diags_up_after.
Qed.

Lemma wp_digit_ident_check fx l q k :
  good l -> l_pos l < q <= len ->
  (has is_letter q = true -> stuck src profile (l_pos l)) ->
  (has is_letter q = false -> wp k (tok_post l) (goto q l)) ->
  wp (digit_ident_check src len (l_pos l) (l_line l) (l_col l) fx k) (tok_post l) (goto q l).
Proof.
  intros Hg Hq Hbad Hk. pose proof (good_pos _ Hg). unfold digit_ident_check. wp_step.
  apply wp_look; simpl; [lia|]. rewrite Z.add_0_r.
  destruct (has is_letter q) eqn:Hl; [|by apply Hk].
  wp_step. apply wp_skip_while; [apply good_goto; lia|]. rewrite goto_goto. simpl.
  wp_step. apply wp_lex_diag. wp_step.
  pose proof (scan_ge is_ident_cont q). pose proof (scan_le is_ident_cont q).
  apply wp_token_error; try done; [lia|by apply Hbad|apply diags_up_refl].
Qed.

(** A digit starts a number and nothing else. *)
Lemma digit_inv p q k :
  has is_digit p = true -> lexeme src profile k p q ->
  (k = TK_INT_LIT /\ radix_at src p = None /\ q = scan is_digit p /\
     has_c (chr ".") q && has is_digit (q + 1) = false /\ has is_letter q = false) \/
  (k = TK_FLOAT_LIT /\ radix_at src p = None /\
     has_c (chr ".") (scan is_digit p) && has is_digit (scan is_digit p + 1) = true /\
     q = scan is_digit (scan is_digit p + 1) /\ has is_letter q = false) \/
  (k = TK_INT_LIT /\ exists dig, radix_at src p = Some dig /\ has dig (p + 2) = true /\
     q = scan dig (p + 2) /\ has is_letter q = false).
Proof.
  intros Hd. inversion 1; subst; try byte_cases; eauto 20.
  - apply has_true in Hd as [_ Hd]. apply sym2_kind_byte in H1. byte_cases.
  - apply has_true in Hd as [_ Hd]. apply sym1_kind_byte in H1. byte_cases.
Qed.

Lemma digit_no_gap p q : has is_digit p = true -> ~ gap src p q.
Proof. intros Hd. inversion 1; subst; byte_cases. Qed.

Lemma wp_lex_radix dig l :
  good l -> l_pos l + 1 < len -> has is_digit (l_pos l) = true ->
  radix_at src (l_pos l) = Some dig ->
  wp (lex_radix src len out_cap dig (l_pos l) (l_line l) (l_col l)) (tok_post l) l.
Proof.
  intros Hg Hlt Hd Hr. pose proof (good_pos _ Hg). unfold lex_radix.
  assert (Hstuck : (has dig (l_pos l + 2) = false \/
                    has is_letter (scan dig (l_pos l + 2)) = true) ->
                   stuck src profile (l_pos l)).
  { intros Hbad q. split; [by apply digit_no_gap|]. intros k Hk.
    apply digit_inv in Hk as [Hk|[Hk|(_ & ? & ? & ? & ? & ?)]]; [..|done];
      destruct_and?; simplify_eq; destruct Hbad; congruence. }
  wp_step. apply wp_advance; [done|lia|].
  wp_step. apply wp_advance; [apply good_goto; lia|simpl; lia|]. rewrite goto_goto. simpl.
  replace (l_pos l + 1 + 1) with (l_pos l + 2) by lia.
  wp_step. apply wp_look; simpl; [lia|]. rewrite Z.add_0_r.
  destruct (has dig (l_pos l + 2)) eqn:Hdig; simpl.
  - wp_step. apply wp_skip_while; [apply good_goto; lia|]. rewrite goto_goto. simpl.
    pose proof (scan_ge dig (l_pos l + 2)). pose proof (scan_le dig (l_pos l + 2)).
    apply wp_digit_ident_check; [done|lia|auto|]. intros Hl. wp_step. wp_step. simpl.
    apply wp_emit_token; try done; [lia| |apply diags_up_refl]. by eapply lx_radix.
  - wp_step. apply wp_lex_diag. wp_step.
    apply wp_token_error; try done; [lia|auto|apply diags_up_refl].
Qed.

Lemma wp_lex_decimal l :
  good l -> has is_digit (l_pos l) = true -> radix_at src (l_pos l) = None ->
  wp (lex_decimal src len out_cap (l_pos l) (l_line l) (l_col l)) (tok_post l) l.
Proof.
  intros Hg Hd Hr. pose proof (good_pos _ Hg).
  pose proof (proj1 (has_true _ _) Hd) as [Hlt _]. unfold lex_decimal.
  pose proof (scan_step is_digit (l_pos l) ltac:(lia) Hd) as Hs.
  pose proof (scan_ge is_digit (l_pos l + 1)). pose proof (scan_le is_digit (l_pos l)).
  wp_step. apply wp_skip_while; [done|].
  wp_step. apply wp_look; simpl; [lia|]. rewrite Z.add_0_r. fold (has_c 46 (scan is_digit (l_pos l))).
  remember (scan is_digit (l_pos l)) as q1 eqn:Hq1.
  assert (Hfrac : forall Q, Q (has_c 46 q1 && has is_digit (q1 + 1)) (goto q1 l) ->
    wp (if has_c 46 q1 then look src len 1 is_digit else ret false) Q (goto q1 l)).
  { intros Q HQ. destruct (has_c 46 q1); [apply wp_look; simpl; [lia|done]|done]. }
  wp_step. apply Hfrac.
  destruct (has_c 46 q1 && has is_digit (q1 + 1)) eqn:Hf.
  - pose proof Hf as [_ [Hq2 _]%has_true]%andb_prop.
    wp_step. wp_step; [|done].
    wp_step. apply wp_advance; [apply good_goto; lia|simpl; lia|]. rewrite goto_goto. simpl.
    apply wp_skip_while; [apply good_goto; lia|]. rewrite goto_goto. simpl.
    pose proof (scan_ge is_digit (q1 + 1)). pose proof (scan_le is_digit (q1 + 1)).
    apply wp_digit_ident_check; [done|lia| |].
    + intros Hl q. split; [by apply digit_no_gap|]. intros k Hk.
      apply digit_inv in Hk as [Hk|[Hk|(_ & ? & ? & _)]]; [..|done];
        destruct_and?; congruence.
    + intros Hl. wp_step. wp_step. simpl.
      apply wp_emit_token; try done; [lia| |apply diags_up_refl]. by eapply lx_float.
  - wp_step. wp_step; [done|].
    apply wp_digit_ident_check; [done|lia| |].
    + intros Hl q. split; [by apply digit_no_gap|]. intros k Hk.
      apply digit_inv in Hk as [Hk|[Hk|(_ & ? & ? & _)]]; [..|done];
        destruct_and?; congruence.
    + intros Hl. wp_step. wp_step. simpl.
      apply wp_emit_token; try done; [lia| |apply diags_up_refl]. by apply lx_int.
Qed.

Lemma wp_lex_number l :
  good l -> has is_digit (l_pos l) = true ->
  wp (lex_number src len out_cap (l_pos l) (l_line l) (l_col l)) (tok_post l) l.
Proof.
  intros Hg Hd. pose proof (good_pos _ Hg).
  pose proof (proj1 (has_true _ _) Hd) as [Hlt _]. unfold lex_number.
  assert (H0 : has_c 48 (l_pos l) = (byte (l_pos l) =? 48)).
  { unfold LexSpec.has_c, LexSpec.has. destruct (l_pos l <? len) eqn:?; [done|lia]. }
  assert (H1 : forall f, l_pos l + 1 < len -> has f (l_pos l + 1) = f (byte (l_pos l + 1))).
  { intros f ?. unfold LexSpec.has. destruct (l_pos l + 1 <? len) eqn:?; [done|lia]. }
  wp_step. wp_step. wp_step. wp_step. fold (byte (l_pos l)).
  destruct ((byte (l_pos l) =? 48) && (l_pos l + 1 <? len)) eqn:Hz.
  - apply andb_prop in Hz as [Hz Hl]. apply Z.ltb_lt in Hl.
    wp_step. wp_step. fold (byte (l_pos l + 1)).
    wp_step; [|wp_step].
    + apply wp_lex_radix; try done. unfold radix_at. by rewrite H0, Hz, H1, Heqb.
    + apply wp_lex_radix; try done. unfold radix_at. by rewrite H0, Hz, !H1, Heqb, Heqb0.
    + apply wp_lex_decimal; try done. unfold radix_at. by rewrite H0, Hz, !H1, Heqb, Heqb0.
  - apply wp_lex_decimal; try done. unfold radix_at. rewrite H0.
    destruct (byte (l_pos l) =? 48); [|done]. simpl in Hz.
    unfold LexSpec.has. by rewrite Hz.
Qed.

(** *** Words *)

(** Only diagnostics were added, none of them an error. *)
Record quiet (l l' : Lexer) : Prop := {
  q_pos : l_pos l' = l_pos l;
  q_line : l_line l' = l_line l;
  q_col : l_col l' = l_col l;
  q_out : l_out l' = l_out l;
  q_err : l_err_count l' = l_err_count l;
  q_diags : diags_up 0 (l_diags l) (l_diags l')
}.

Lemma quiet_refl l : quiet l l.
Proof. split; try done. apply diags_up_refl. Qed.

Lemma quiet_warn code off ln c f l : quiet l (addd DIAG_WARNING code off ln c f l).
Proof. split; try done. eapply diags_up_after; [apply diags_up_refl|done]. Qed.

Lemma wp_check_foreign_keyword w start ln c (Q : unit -> Lexer -> Prop) l :
  (forall l', quiet l l' -> Q tt l') -> wp (check_foreign_keyword w start ln c) Q l.
Proof.
  intros HQ. unfold check_foreign_keyword. wp_steps;
    try (apply wp_lex_diag); apply HQ; first [apply quiet_warn | apply quiet_refl].
Qed.

Lemma wp_foreign_hint k start n ln c (Q : unit -> Lexer -> Prop) l :
  0 <= start <= len -> 0 <= n -> (forall l', quiet l l' -> Q tt l') ->
  wp (foreign_hint src len k start n ln c) Q l.
Proof.
  intros Hs Hn HQ. unfold foreign_hint.
  wp_steps; zb; try lia;
    first [apply wp_check_foreign_keyword; done | apply HQ, quiet_refl].
Qed.

Lemma word_inv p q k :
  has (word_start profile) p = true -> lexeme src profile k p q ->
  k = classify_ident (slice src p (q - p)) profile /\ q = scan is_ident_cont (p + 1) /\
  (profile = PROFILE_DEFAULT -> has_c (chr "_") q = false) /\
  upper_decl src profile p q = false.
Proof.
  intros Hd. inversion 1; subst; try byte_cases; try done.
  - unfold radix_at in *. destruct (has_c 48 p) eqn:?; [|done]. byte_cases.
  - apply has_true in Hd as [_ Hd]. apply sym2_kind_byte in H1. byte_cases.
  - apply has_true in Hd as [_ Hd]. apply sym1_kind_byte in H1. byte_cases.
Qed.

Lemma word_no_gap p q : has (word_start profile) p = true -> ~ gap src p q.
Proof. intros Hd. inversion 1; subst; byte_cases. Qed.

Lemma wp_lex_ident l :
  good l -> has (word_start profile) (l_pos l) = true ->
  wp (lex_ident src len out_cap profile (l_pos l) (l_line l) (l_col l)) (tok_post l)
     (goto (l_pos l + 1) l).
Proof.
  intros Hg Hd. pose proof (good_pos _ Hg).
  pose proof (proj1 (has_true _ _) Hd) as [Hlt _]. unfold lex_ident.
  wp_step. apply wp_skip_while; [apply good_goto; lia|]. rewrite goto_goto. simpl.
  pose proof (scan_ge is_ident_cont (l_pos l + 1)).
  pose proof (scan_le is_ident_cont (l_pos l + 1)).
  remember (scan is_ident_cont (l_pos l + 1)) as q eqn:Hq.
  assert (Hus : forall Q,
    Q (bool_decide (profile = PROFILE_DEFAULT) && has_c (chr "_") q) (goto q l) ->
    wp (if bool_decide (profile = PROFILE_DEFAULT)
        then look src len 0 (fun c => c =? 95) else ret false) Q (goto q l)).
  { intros Q HQ. case_bool_decide; [|done]. apply wp_look; simpl; [lia|].
    rewrite Z.add_0_r. done. }
  wp_step. apply Hus.
  destruct (bool_decide (profile = PROFILE_DEFAULT) && has_c 95 q) eqn:Hu.
  { apply andb_prop in Hu as [Hp%bool_decide_eq_true Hu].
    wp_step. apply wp_skip_while; [apply good_goto; lia|]. rewrite goto_goto. simpl.
    pose proof (scan_ge is_ident_cont_legacy q). pose proof (scan_le is_ident_cont_legacy q).
    wp_step. apply wp_lex_diag. wp_step.
    apply wp_token_error; try done; [lia| |apply diags_up_refl].
    intros q'. split; [by apply word_no_gap|]. intros k (_ & -> & Hn & _)%word_inv; [|done].
    rewrite <- Hq in Hn. by rewrite Hn in Hu. }
  wp_step. wp_step. simpl.
  assert (Hup : forall Q, Q (upper_decl src profile (l_pos l) q) (goto q l) ->
    wp (if bool_decide (profile = PROFILE_DEFAULT) && (q - l_pos l =? 1)
        then do c <- rd src (l_pos l);
             do eq <- (if is_upper c then look src len 0 (fun c => c =? 61) else ret false);
             ret (eq && existsb (Z.eqb c) UPPER_KW_MAP)
        else ret false) Q (goto q l)).
  { intros Q HQ. unfold upper_decl in HQ.
    destruct (bool_decide (profile = PROFILE_DEFAULT) && (q - l_pos l =? 1)); [|done].
    wp_step. wp_step. fold (byte (l_pos l)). wp_step.
    destruct (is_upper (byte (l_pos l))); [|done].
    apply wp_look; simpl; [lia|]. rewrite Z.add_0_r. done. }
  wp_step. apply Hup.
  destruct (upper_decl src profile (l_pos l) q) eqn:Hud.
  { wp_step. apply wp_lex_diag. wp_step.
    apply wp_token_error; try done; [lia| |apply diags_up_refl].
    intros q'. split; [by apply word_no_gap|]. intros k (_ & -> & _ & Hn)%word_inv; [|done].
    rewrite <- Hq in Hn. congruence. }
  wp_step. apply wp_foreign_hint; [lia..|]. intros l' [E1 E2 E3 Ho He Hdg]. simpl in *.
  assert (l' = goto q l') as ->.
  { rewrite <- E1. rewrite goto_self; [done|].
    by eapply (good_same (goto q l)); [apply good_goto; lia|..]. }
  apply wp_emit_token; try done; [lia|]. apply lx_word; try done.
  intros E. by rewrite (bool_decide_eq_true_2 _ E) in Hu.
Qed.

(** *** Strings *)

Lemma wp_record_error (Q : bool -> Lexer -> Prop) l :
  Q (LEX_MAX_ERRORS <=? l_err_count l + 1)
    (mkLexer (l_pos l) (l_line l) (l_col l) (l_out l) (l_err_count l + 1) (l_diags l)) ->
  wp record_error Q l.
Proof. done. Qed.

(** [l'] is [l] moved, with [n] more errors, all of them reported. *)
Record rel (n : Z) (l l' : Lexer) : Prop := {
  r_good : good l';
  r_out : l_out l' = l_out l;
  r_err : l_err_count l' = l_err_count l + n;
  r_diags : diags_up n (l_diags l) (l_diags l')
}.

Lemma rel_refl l : good l -> rel 0 l l.
Proof. intros. split; try done; [lia|apply diags_up_refl]. Qed.

Lemma rel_goto n l l' p : 0 <= p <= len -> rel n l l' -> rel n l (goto p l').
Proof. intros ? []. split; simpl; try done. by apply good_goto. Qed.

Lemma rel_trans n m l1 l2 l3 : rel n l1 l2 -> rel m l2 l3 -> rel (n + m) l1 l3.
Proof.
  intros [] []. split; try done; [congruence|lia|by eapply diags_up_trans].
Qed.

Lemma rel_error l l' code off ln c f :
  rel 0 l l' ->
  rel 1 l (mkLexer (l_pos l') (l_line l') (l_col l') (l_out l') (l_err_count l' + 1)
             (diag_emit DIAG_ERROR code off ln c f (l_diags l'))).
Proof.
  intros [? ? ? Hd]. split; simpl; try done; [by eapply good_same|lia|].
  by eapply diags_up_after.
Qed.

Abbreviation items := (str_items src).

Lemma items_trans a b c : items a b -> items b c -> items a c.
Proof.
  induction 1; intros; eauto using str_items.
Qed.

(** What an escape can be, from its second byte. *)
Lemma items_backslash_inv c q :
  has_c 92 c = true -> has_c 34 q = true -> items c q ->
  (has simple_escape (c + 1) = true /\ items (c + 2) q) \/
  (has_c (chr "x") (c + 1) = true /\ has is_hex (c + 2) = true /\ has is_hex (c + 3) = true /\
     items (c + 4) q) \/
  (has_c (chr "(") (c + 1) = true /\ items (c + 2 + interp_len 1 (suffix (c + 2))) q).
Proof.
  intros Hc Hq. inversion 1; subst; try tauto.
  - apply has_c_true in Hc, Hq. lia.
  - apply has_c_true in Hc. byte_cases.
Qed.

Lemma wp_lex_escape l c :
  good l -> l_pos l = c + 1 -> 0 <= c -> has_c 92 c = true -> c + 1 < len ->
  wp (lex_escape src len profile)
    (fun r l' => c + 1 <= l_pos l' <= len /\
       match r with
       | Some false => rel 0 l l' /\ c + 1 < l_pos l' /\ items c (l_pos l') /\
           forall q, has_c 34 q = true -> items c q -> items (l_pos l') q
       | Some true => rel 1 l l' /\ c + 1 < l_pos l' /\ l_err_count l + 1 < LEX_MAX_ERRORS /\
           forall q, has_c 34 q = true -> ~ items c q
       | None => rel 1 l l' /\ LEX_MAX_ERRORS <= l_err_count l + 1 /\
           forall q, has_c 34 q = true -> ~ items c q
       end) l.
Proof.
  intros Hg Hp Hc0 Hc Hlt. unfold lex_escape. wp_step. wp_step. rewrite Hp.
  wp_step. wp_step. fold (byte (c + 1)).
  assert (Hbyte : forall f, has f (c + 1) = f (byte (c + 1))).
  { intros f. unfold LexSpec.has. destruct (c + 1 <? len) eqn:?; [done|lia]. }
  fold (simple_escape (byte (c + 1))). rewrite <- Hbyte.
  pose proof (Hbyte (fun d => d =? 120)) as Hx. fold (has_c 120 (c + 1)) in Hx.
  pose proof (Hbyte (fun d => d =? 40)) as Hpar. fold (has_c 40 (c + 1)) in Hpar.
  simpl in Hx, Hpar. rewrite <- Hx, <- Hpar. clear Hx Hpar.
  destruct (has simple_escape (c + 1)) eqn:Hs.
  { wp_step. apply wp_advance; [done|lia|]. rewrite Hp. wp_step. simpl.
    split; [lia|]. replace (c + 1 + 1) with (c + 2) by lia.
    split; [apply rel_goto, rel_refl; (done || lia)|]. split; [lia|].
    split; [by apply si_escape; [..|apply si_nil]|].
    intros q Hq [[]|[[]|[]]]%items_backslash_inv; try done; byte_cases. }
  destruct (has_c 120 (c + 1)) eqn:Hx.
  { wp_step. apply wp_advance; [done|lia|]. rewrite Hp.
    replace (c + 1 + 1) with (c + 2) by lia. wp_step. wp_step. simpl.
    assert (Htwo : forall (k : bool -> M Lexer (option bool)) Q,
      wp (k (has is_hex (c + 2) && has is_hex (c + 3))) Q (goto (c + 2) l) ->
      wp (do h0 <- (if c + 2 + 1 <? len then look src len 0 is_hex else ret false);
          do h1 <- (if h0 then look src len 1 is_hex else ret false); k h1) Q (goto (c + 2) l)).
    { intros k Q Hk. wp_step. destruct (c + 2 + 1 <? len) eqn:Hin; zb.
      - apply wp_look; simpl; [lia|]. rewrite Z.add_0_r. wp_step.
        destruct (has is_hex (c + 2)); [|done].
        apply wp_look; simpl; [lia|]. by replace (c + 2 + 1) with (c + 3) by lia.
      - assert (has is_hex (c + 3) = false) as Hf.
        { unfold LexSpec.has. destruct (c + 3 <? len) eqn:?; zb; [lia|done]. }
        by rewrite Hf, andb_false_r in Hk. }
    apply Htwo. destruct (has is_hex (c + 2) && has is_hex (c + 3)) eqn:Hh.
    - apply andb_prop in Hh as [Hh2 Hh3]. pose proof (proj1 (has_true _ _) Hh3) as [? _].
      wp_step. apply wp_advance; [apply good_goto; lia|simpl; lia|]. rewrite goto_goto. simpl.
      wp_step. apply wp_advance; [apply good_goto; lia|simpl; lia|]. rewrite goto_goto. simpl.
      replace (c + 2 + 1 + 1) with (c + 4) by lia. wp_step. simpl. split; [lia|].
      split; [apply rel_goto, rel_refl; (done || lia)|]. split; [lia|].
      split; [by apply si_hex; [..|apply si_nil]|].
      intros q Hq [[]|[(?&?&?&?)|[]]]%items_backslash_inv; try done; byte_cases.
    - wp_step. wp_step. wp_step. apply wp_lex_diag. wp_step. apply wp_record_error. simpl.
      assert (Hdead : forall q, has_c 34 q = true -> ~ items c q).
      { intros q Hq [[]|[(?&H2&H3&?)|[]]]%items_backslash_inv; try done; try byte_cases.
        by rewrite H2, H3 in Hh. }
      pose proof (rel_error l (goto (c + 2) l) LEX_E1001 (c + 2) (loc (c + 2)).1
        (loc (c + 2)).2 true (rel_goto 0 l l (c + 2) ltac:(lia) (rel_refl l Hg))) as Hr.
      simpl in Hr. wp_step; wp_step; zb; split_and!; first [done|simpl; lia]. }
  destruct (has_c 40 (c + 1)) eqn:Hpar.
  { wp_step.
    assert (Hq : wp (when (bool_decide (profile = PROFILE_LEGACY))
        (lex_diag DIAG_WARNING LEX_W1010 (c + 1 - 1) (l_line l) (l_col l - 1) true))
        (fun _ l' => quiet l l') l).
    { wp_step; [apply wp_lex_diag, quiet_warn|apply quiet_refl]. }
    eapply wp_conseq; [exact Hq|]. intros _ l1 [E1 E2 E3 Ho He Hd].
    assert (Hg1 : good l1) by (by eapply good_same).
    wp_step. apply wp_advance; [done|lia|]. rewrite E1, Hp.
    replace (c + 1 + 1) with (c + 2) by lia.
    wp_step. apply wp_skip_interp; [apply good_goto; lia|]. rewrite goto_goto. simpl.
    pose proof (interp_len_bounds 1 (suffix (c + 2))) as Hil.
    rewrite zlen_suffix in Hil by lia.
    wp_step. simpl. split; [lia|]. split; [|split; [lia|split]].
    - apply rel_goto; [lia|]. split; try done. lia.
    - by apply si_interp; [..|apply si_nil].
    - intros q Hq2 [[]|[[]|[]]]%items_backslash_inv; try done; byte_cases. }
  wp_step. apply wp_lex_diag. wp_step. apply wp_record_error. simpl.
  assert (Hdead : forall q, has_c 34 q = true -> ~ items c q).
  { intros q Hq [[]|[(?&H2&H3&?)|[]]]%items_backslash_inv; try done; congruence. }
  pose proof (rel_error l l LEX_E1001 (c + 1 - 1) (l_line l) (l_col l - 1) false
    (rel_refl l Hg)) as Hr.
  wp_step; [wp_step|]; zb; simpl.
  - split_and!; first [done|lia].
  - wp_step. apply wp_advance; [apply Hr|simpl; lia|]. simpl. rewrite Hp. wp_step. simpl.
    split; [lia|]. split; [apply (rel_goto 1 l _ (c + 1 + 1) ltac:(lia) Hr)|].
    split_and!; first [done|lia].
Qed.

(** What [lex_string] leaves; it counts its own errors. *)
Inductive str_out (l l' : Lexer) : Z -> Prop :=
  | st_tok t :
      l_out_n l < out_cap -> l_out l' = l_out l ++ [t] -> t_start t = l_pos l ->
      token_at src profile t (l_pos l') -> l_err_count l' = l_err_count l ->
      diags_up 0 (l_diags l) (l_diags l') -> str_out l l' 0
  | st_full :
      out_cap <= l_out_n l -> l_out l' = l_out l -> l_err_count l' = l_err_count l ->
      str_out l l' (-1)
  | st_err n :
      stuck src profile (l_pos l) -> 0 < n -> rel n l l' ->
      l_err_count l' <= LEX_MAX_ERRORS -> str_out l l' (-1).

Lemma quote_inv p q k :
  has_c 34 p = true -> lexeme src profile k p q ->
  k = TK_STR_LIT /\ exists q0, q = q0 + 1 /\ items (p + 1) q0 /\ has_c 34 q0 = true.
Proof.
  intros Hd. inversion 1; subst; try byte_cases; eauto.
  - unfold radix_at in *. destruct (has_c 48 p) eqn:?; [|done]. byte_cases.
  - apply has_c_true in Hd as [_ Hd]. apply sym2_kind_byte in H1. byte_cases.
  - apply has_c_true in Hd as [_ Hd]. apply sym1_kind_byte in H1. byte_cases.
Qed.

Lemma quote_stuck p :
  has_c 34 p = true -> (forall q, has_c 34 q = true -> ~ items (p + 1) q) ->
  stuck src profile p.
Proof.
  intros Hp Hdead q. split.
  - inversion 1; subst; byte_cases.
  - intros k (_ & q0 & _ & ? & ?)%quote_inv; [|done]. by eapply Hdead.
Qed.

(** Where the scan of the string that starts at [l]'s position stands. *)
Definition str_inv (l : Lexer) (had_error : bool) (l' : Lexer) : Prop :=
  l_pos l + 1 <= l_pos l' <= len /\ l_err_count l' < LEX_MAX_ERRORS /\
  if had_error then
    (exists n, 0 < n /\ rel n l l') /\ forall q, has_c 34 q = true -> ~ items (l_pos l + 1) q
  else
    rel 0 l l' /\ items (l_pos l + 1) (l_pos l') /\
    forall q, has_c 34 q = true -> items (l_pos l + 1) q -> items (l_pos l') q.

Lemma str_inv_rel l h l' : str_inv l h l' -> exists n, 0 <= n /\ rel n l l'.
Proof.
  intros (_ & _ & H). destruct h; [destruct H as [(n & ? & ?) _]; eauto using Z.lt_le_incl|].
  destruct H as [? _]. by exists 0.
Qed.

Lemma str_inv_pos l h l' : str_inv l h l' -> 0 <= l_pos l'.
Proof. intros (n & _ & Hr)%str_inv_rel. apply (good_pos _ (r_good _ _ _ Hr)). Qed.

(** Nothing can be read once the text ends, or on a backslash at the very end. *)
Lemma items_end c q : len <= c -> has_c 34 q = true -> ~ items c q.
Proof.
  intros Hc Hq. apply has_c_true in Hq as [? _].
  inversion 1; subst; try lia; byte_cases.
Qed.

Lemma items_last_backslash c q :
  has_c 92 c = true -> len <= c + 1 -> has_c 34 q = true -> ~ items c q.
Proof.
  intros Hc Hl Hq [[H _]|[[H _]|[H _]]]%items_backslash_inv; try done;
    apply andb_prop in H as [H _]; zb; lia.
Qed.

(** The final, unterminated case: E1002. *)
Lemma wp_str_unterminated n l l' :
  has_c 34 (l_pos l) = true -> 0 <= n -> rel n l l' -> l_pos l < l_pos l' ->
  l_err_count l' < LEX_MAX_ERRORS ->
  (forall q, has_c 34 q = true -> ~ items (l_pos l + 1) q) ->
  wp (do! lex_diag DIAG_ERROR LEX_E1002 (l_pos l) (l_line l) (l_col l) false;
      do! record_error; ret (-1))
     (fun rc l'' => good l'' /\ l_pos l < l_pos l'' /\ str_out l l'' rc) l'.
Proof.
  intros Hq Hn Hr Hp He Hdead.
  wp_step. apply wp_lex_diag. wp_step. apply wp_record_error. wp_step. simpl.
  pose proof (rel_error l' l' LEX_E1002 (l_pos l) (l_line l) (l_col l) false
    (rel_refl l' (r_good _ _ _ Hr))) as Hr1.
  pose proof (rel_trans _ _ _ _ _ Hr Hr1) as Hr2.
  split_and!; [apply Hr1|done|]. apply (st_err _ _ (n + 1)); try done.
  - by apply quote_stuck.
  - lia.
  - simpl. unfold LEX_MAX_ERRORS in *. lia.
Qed.

Lemma str_inv_move l h l' p :
  str_inv l h l' -> l_pos l' < p <= len ->
  (h = false -> items (l_pos l') p) ->
  (h = false -> forall q, has_c 34 q = true -> items (l_pos l') q -> items p q) ->
  str_inv l h (goto p l').
Proof.
  intros Hinv Hlt Hi Hr. pose proof (str_inv_pos _ _ _ Hinv) as Hpos0.
  destruct Hinv as (Hp & He & H). split_and!; simpl; [lia..|]. destruct h.
  - destruct H as [(n & ? & ?) ?]. split; [|done]. exists n. split; [done|].
    apply rel_goto; [lia|done].
  - destruct H as (? & ? & ?). split_and!.
    + apply rel_goto; [lia|done].
    + eapply items_trans; eauto.
    + eauto.
Qed.

(** The result of one escape, in the loop's terms. *)
Lemma str_inv_escape l h l1 l2 b c :
  str_inv l h l1 -> l_pos l1 = c -> l_pos l2 <= len -> c + 1 < l_pos l2 ->
  (if b : bool
   then rel 1 (goto (c + 1) l1) l2 /\ l_err_count l1 + 1 < LEX_MAX_ERRORS /\
        (forall q, has_c 34 q = true -> ~ items c q)
   else rel 0 (goto (c + 1) l1) l2 /\ items c (l_pos l2) /\
        (forall q, has_c 34 q = true -> items c q -> items (l_pos l2) q)) ->
  str_inv l (h || b) l2.
Proof.
  intros Hinv <- Hle Hlt Hb. pose proof (str_inv_pos _ _ _ Hinv) as Hpos0.
  destruct Hinv as (Hp & He & H).
  assert (Hrel : forall n m, rel n l l1 -> rel m (goto (l_pos l1 + 1) l1) l2 -> rel (n + m) l l2).
  { intros n m Hn Hm. eapply rel_trans; [|done]. apply rel_goto; [lia|done]. }
  destruct h, b; simpl.
  - destruct H as [(n & ? & ?) ?], Hb as (Hr & ? & ?).
    split_and!; [lia..|destruct Hr; simpl in *; lia| |done]. exists (n + 1). split; [lia|auto].
  - destruct H as [(n & ? & ?) ?], Hb as (Hr & ? & ?).
    split_and!; [lia..|destruct Hr; simpl in *; lia| |done]. exists (n + 0). split; [lia|auto].
  - destruct H as (? & ? & ?), Hb as (Hr & ? & ?).
    split_and!; [lia..|destruct Hr; simpl in *; lia| |]; [exists (0 + 1); split; [lia|auto]|].
    intros q Hq Hi. firstorder.
  - destruct H as (? & ? & ?), Hb as (Hr & ? & ?).
    split_and!; [lia..|destruct Hr; simpl in *; lia|by apply (Hrel 0 0)| |].
    + eapply items_trans; eauto.
    + firstorder.
Qed.

Lemma wp_lex_string l :
  good l -> has_c 34 (l_pos l) = true -> l_err_count l < LEX_MAX_ERRORS ->
  wp (lex_string src len out_cap profile (l_pos l) (l_line l) (l_col l))
     (fun rc l' => good l' /\ l_pos l < l_pos l' /\ str_out l l' rc)
     (goto (l_pos l + 1) l).
Proof.
  intros Hg Hq He. pose proof (good_pos _ Hg).
  pose proof (proj1 (has_c_true _ _) Hq) as [Hlt _]. unfold lex_string. wp_step. wp_step.
  apply wp_bind.
  apply (wp_iter (str_inv l) (fun _ l' => Z.to_nat (len - l_pos l'))); simpl.
  { split_and!; simpl; [lia..|done| |apply si_nil|done].
    apply rel_goto, rel_refl; [lia|done]. }
  { lia. }
  intros h l' Hinv. pose proof Hinv as (Hp & Hec & Hh).
  assert (exists n, 0 <= n /\ rel n l l') as (n & Hn & Hr) by by eapply str_inv_rel.
  pose proof (r_good _ _ _ Hr) as Hg'.
  wp_step. wp_step. destruct (l_pos l' <? len) eqn:Hin.
  2: { wp_step. zb. eapply wp_str_unterminated; try done; [lia|].
       intros q Hq2 Hi. destruct h; [by eapply Hh|].
       destruct Hh as (_ & _ & Hh). eapply (items_end (l_pos l')); [lia|done|eauto]. }
  assert (Hby : forall f, has f (l_pos l') = f (byte (l_pos l'))).
  { intros f. unfold LexSpec.has. by rewrite Hin. }
  zb. wp_step. wp_step. fold (byte (l_pos l')).
  destruct (byte (l_pos l') =? 34) eqn:Hquote.
  { wp_step. apply wp_advance; [done|lia|].
    assert (Hhq : has_c 34 (l_pos l') = true) by (unfold LexSpec.has_c; by rewrite Hby).
    wp_step. wp_step. destruct h; simpl.
    - wp_step. wp_step. split_and!; [by apply good_goto; lia|simpl; lia|].
      destruct Hh as [(m & ? & Hm) Hdead]. apply (st_err _ _ m); [by apply quote_stuck|done| |].
      + apply rel_goto; [lia|done].
      + simpl. unfold LEX_MAX_ERRORS in *. lia.
    - destruct Hh as (Hr0 & Hi & _). wp_step.
      eapply wp_conseq; [apply (wp_emit_token TK_STR_LIT (l_pos l' + 1) l l'); try done|].
      + lia.
      + by apply lx_string.
      + apply Hr0.
      + destruct Hr0; lia.
      + apply Hr0.
      + intros rc l2 (? & ? & Ho). wp_step. wp_step. split_and!; [done|done|].
        destruct Ho as [t ? ? ? ? ?| |Hst]; [by eapply st_tok|by apply st_full|].
        exfalso. destruct (Hst (l_pos l' + 1)) as [_ Hst2]. eapply Hst2. by apply lx_string. }
  destruct (byte (l_pos l') =? 92) eqn:Hbs.
  { assert (Hhb : has_c 92 (l_pos l') = true) by (unfold LexSpec.has_c; by rewrite Hby).
    wp_step. apply wp_advance; [done|lia|]. wp_step. wp_step. simpl.
    destruct (len <=? l_pos l' + 1) eqn:Hlast.
    - wp_step. wp_step. zb.
      eapply (wp_str_unterminated n); try done; [apply rel_goto; [lia|done]|simpl; lia|].
      intros q Hq2 Hi. destruct h; [by eapply Hh|].
      destruct Hh as (_ & _ & Hh). eapply (items_last_backslash (l_pos l')); eauto.
    - zb. wp_step.
      eapply wp_conseq;
        [apply (wp_lex_escape _ (l_pos l')); first [done|lia|apply good_goto; lia]|].
      intros [[]|] l2 [Hp2 H2]; simpl in H2.
      + wp_step. destruct H2 as (? & ? & ? & ?). split; [|lia].
        eapply (str_inv_escape l h l' l2 true); try done; lia.
      + wp_step. destruct H2 as (? & ? & ? & ?). split; [|lia].
        eapply (str_inv_escape l h l' l2 false); try done; lia.
      + wp_step. wp_step. destruct H2 as (Hr2 & ? & Hdead).
        assert (Hr3 : rel (n + 1) l l2).
        { eapply rel_trans; [|done]. apply rel_goto; [lia|done]. }
        split_and!; [apply Hr2|lia|]. apply (st_err _ _ (n + 1)); [|lia|done|].
        * apply quote_stuck; [done|]. intros q Hq2 Hi. destruct h; [by eapply Hh|].
          destruct Hh as (_ & _ & Hh). by eapply Hdead, Hh.
        * destruct Hr2. simpl in *. unfold LEX_MAX_ERRORS in *. lia. }
  wp_step. apply wp_advance; [done|lia|]. wp_step. simpl. split; [|lia].
  assert (Hpl : has (fun c => negb (c =? 34) && negb (c =? 92)) (l_pos l') = true)
    by (rewrite Hby; by rewrite Hquote, Hbs).
  apply str_inv_move; [done|lia| |]; intros _.
  - apply si_plain; [done|apply si_nil].
  - intros q Hq2. inversion 1; subst; try done; try byte_cases.
Qed.

(** ** One turn of the scan loop *)

Inductive step_out (l l' : Lexer) : ctl -> Prop :=
  | sp_gap : gap src (l_pos l) (l_pos l') -> rel 0 l l' -> step_out l l' Continue
  | sp_tok t :
      l_out_n l < out_cap -> l_out l' = l_out l ++ [t] -> t_start t = l_pos l ->
      token_at src profile t (l_pos l') -> l_err_count l' = l_err_count l ->
      diags_up 0 (l_diags l) (l_diags l') -> step_out l l' Continue
  | sp_full r :
      out_cap <= l_out_n l -> l_out l' = l_out l ->
      l_err_count l <= l_err_count l' <= LEX_MAX_ERRORS ->
      (r = Continue -> l_err_count l' < LEX_MAX_ERRORS) ->
      step_out l l' r
  | sp_err n r :
      stuck src profile (l_pos l) -> 0 < n -> rel n l l' ->
      l_err_count l' <= LEX_MAX_ERRORS ->
      (r = Continue -> l_err_count l' < LEX_MAX_ERRORS) -> r <> ReturnM1 ->
      step_out l l' r.

Definition step_post (l : Lexer) (r : ctl) (l' : Lexer) : Prop :=
  good l' /\ l_pos l <= l_pos l' /\ (r = Continue -> l_pos l < l_pos l') /\
  step_out l l' r.

(** Emitting a symbol. *)
Lemma wp_sym k q l m :
  good l -> l_err_count l < LEX_MAX_ERRORS -> l_pos l < q <= len ->
  lexeme src profile k (l_pos l) q -> m = q - l_pos l ->
  wp (do rc <- emit out_cap k (l_pos l) m (l_line l) (l_col l);
      ret (if rc <? 0 then ReturnM1 else Continue)) (step_post l) (goto q l).
Proof.
  intros Hg He Hq Hk ->. wp_step.
  eapply wp_conseq; [by apply (wp_emit_token k q l l); try done; apply diags_up_refl|].
  intros rc l' (Hg' & Hp & Ho). wp_step. destruct Ho as [t ? ? ? ? ?|? ? E|Hst].
  - split_and!; [done|lia|done|]. by eapply sp_tok.
  - split_and!; [done|lia|done|]. apply sp_full; [done..|lia|done].
  - exfalso. eapply (Hst q), Hk.
Qed.

Lemma wp_sym1 k l :
  good l -> l_err_count l < LEX_MAX_ERRORS -> l_pos l < len ->
  sym1_kind profile (byte (l_pos l)) = Some k ->
  (l_pos l + 1 < len -> sym2_kind (byte (l_pos l)) (byte (l_pos l + 1)) = None) ->
  has_c (chr "(") (l_pos l) && has_c (chr "*") (l_pos l + 1) = false ->
  has_c (chr "/") (l_pos l) && has_c (chr "/") (l_pos l + 1) = false ->
  wp (sym1 src len out_cap k (l_pos l) (l_line l) (l_col l)) (step_post l) l.
Proof.
  intros Hg He Hlt H1 H2 H3 H4. pose proof (good_pos _ Hg). unfold sym1.
  wp_step. apply wp_advance; [done..|]. apply wp_sym; try done; try lia.
  by apply lx_sym1.
Qed.

Lemma wp_sym2 k l :
  good l -> l_err_count l < LEX_MAX_ERRORS -> l_pos l + 1 < len ->
  sym2_kind (byte (l_pos l)) (byte (l_pos l + 1)) = Some k ->
  wp (sym2 src len out_cap k (l_pos l) (l_line l) (l_col l)) (step_post l) l.
Proof.
  intros Hg He Hlt H2. pose proof (good_pos _ Hg). unfold sym2.
  wp_step. apply wp_advance; [done|lia|].
  wp_step. apply wp_advance; [apply good_goto; lia|simpl; lia|]. rewrite goto_goto. simpl.
  replace (l_pos l + 1 + 1) with (l_pos l + 2) by lia.
  apply wp_sym; try done; try lia. by apply lx_sym2.
Qed.

(** Counting an error that has been reported. *)
Lemma wp_err_ctl n l l1 :
  good l1 -> l_pos l < l_pos l1 -> l_err_count l < LEX_MAX_ERRORS ->
  stuck src profile (l_pos l) -> l_out l1 = l_out l -> l_err_count l1 = l_err_count l ->
  diags_up 1 (l_diags l) (l_diags l1) -> n = 1 ->
  wp err_ctl (step_post l) l1.
Proof.
  intros Hg Hp He Hst Ho Hc Hd ->. unfold err_ctl. wp_step. apply wp_record_error. wp_step.
  split_and!; simpl; [by eapply good_same|lia|by intros|].
  apply (sp_err _ _ 1); try done.
  - split; simpl; [by eapply good_same|done|lia|done].
  - simpl. lia.
  - simpl. intros H. destruct (LEX_MAX_ERRORS <=? l_err_count l1 + 1) eqn:?; [done|]. by zb.
  - by case_match.
Qed.

Lemma wp_sym_error fx l :
  good l -> l_err_count l < LEX_MAX_ERRORS -> l_pos l < len ->
  stuck src profile (l_pos l) ->
  wp (sym_error src len (l_pos l) (l_line l) (l_col l) fx) (step_post l) l.
Proof.
  intros Hg He Hlt Hst. unfold sym_error. wp_step. apply wp_lex_diag.
  wp_step. apply wp_record_error. simpl.
  pose proof (rel_error l l LEX_E1003 (l_pos l) (l_line l) (l_col l) fx (rel_refl l Hg)) as Hr.
  pose proof (good_pos _ Hg).
  destruct (LEX_MAX_ERRORS <=? l_err_count l + 1) eqn:Hm; zb.
  - wp_step. split_and!; simpl; [apply Hr|lia|done|].
    apply (sp_err _ _ 1); simpl; (done || lia).
  - wp_step. apply wp_advance; [apply Hr|done|]. simpl. wp_step.
    split_and!; simpl; [apply good_goto; lia|lia|lia|].
    apply (sp_err _ _ 1); simpl; try (done || lia).
    apply (rel_goto 1 l _ (l_pos l + 1) ltac:(lia) Hr).
Qed.

(** A byte that starts nothing. *)
Lemma other_stuck p :
  p < len -> has is_whitespace p = false -> has (word_start profile) p = false ->
  has is_digit p = false -> has_c 34 p = false -> has_c (chr "#") p = false ->
  sym1_kind profile (byte p) = None -> stuck src profile p.
Proof.
  intros Hp Hw Hs Hd Hq Hh H1 q. split.
  - inversion 1; subst; try congruence;
      (match goal with H : LexSpec.has_c _ _ p = true |- _ =>
         apply has_c_true in H as [_ H]; rewrite H in H1 end); by destruct profile.
  - intros k. inversion 1; subst; try congruence.
    + unfold radix_at in *. destruct (has_c 48 p) eqn:E; [|done].
      apply has_c_true in E as [_ E]. unfold LexSpec.has in Hd. rewrite E in Hd.
      assert ((p <? len) = true) as Hpl by lia. by rewrite Hpl in Hd.
    + match goal with H : sym2_kind _ _ = Some _ |- _ => apply sym2_kind_byte in H end.
      destruct_or?;
        (match goal with H : byte p = _ |- _ => rewrite H in H1 end); by destruct profile.
Qed.

Lemma has_c_false c p : has_c c p = false -> p < len -> byte p <> c.
Proof. intros H ? E. by rewrite (proj2 (has_c_true c p) (conj H0 E)) in H. Qed.

Lemma wp_next x (Q : bool -> Lexer -> Prop) l :
  good l -> Q (has_c x (l_pos l + 1)) l ->
  wp (look src len 1 (fun d => d =? x)) Q l.
Proof. intros Hg HQ. pose proof (good_pos _ Hg). apply wp_look; [lia|done]. Qed.

Ltac guard_side :=
  apply andb_false_iff;
  first [ right; assumption
        | left; apply not_true_is_false; intros [_ ?]%has_c_true; lia ].

Ltac sym2_side :=
  intros; repeat match goal with
  | H : LexSpec.has_c _ _ (_ + 1) = false |- _ => apply has_c_false in H; [|assumption]
  end; unfold sym2_kind;
  repeat (case_match; [exfalso; zb; lia|]); done.

Ltac sym1_case Hc :=
  apply wp_sym1; [assumption..|by rewrite Hc; destruct profile|sym2_side|guard_side|guard_side].

Ltac sym2_case Hc :=
  match goal with
  | H : LexSpec.has_c _ _ (_ + 1) = true |- _ =>
      apply has_c_true in H as [? H]; apply wp_sym2; [assumption..|by rewrite Hc, H]
  end.

(** A symbol one profile refuses. *)
Ltac profile_case Hc Hother :=
  let Hpr := fresh "Hpr" in
  case_bool_decide as Hpr;
  [ apply wp_sym_error; try done; apply Hother; by rewrite Hc, Hpr
  | apply wp_sym1; [done..| |sym2_side|guard_side|guard_side];
    rewrite Hc; by destruct profile ].

(** A symbol that may be the first byte of a longer one. *)
Ltac next_case Hc k :=
  wp_step; apply wp_next; [assumption|];
  match goal with
  | |- context [LexSpec.has_c src ?x (l_pos ?l + 1)] =>
      destruct (LexSpec.has_c src x (l_pos l + 1)) eqn:?
  end; [sym2_case Hc|k].

Lemma wp_skip_line Q l :
  good l -> Q tt (goto (scan (fun c => negb (c =? 10)) (l_pos l)) l) ->
  wp (skip_line src len) Q l.
Proof. apply wp_skip_while. Qed.

Lemma step_gap l q :
  good l -> l_err_count l < LEX_MAX_ERRORS -> l_pos l < q <= len -> gap src (l_pos l) q ->
  step_post l Continue (goto q l).
Proof.
  intros Hg He Hq Hgap. pose proof (good_pos _ Hg).
  split_and!; simpl; [apply good_goto; lia|lia|lia|]. apply sp_gap; [done|].
  apply rel_goto, rel_refl; (done || lia).
Qed.

Lemma step_gap_warn l q code ln c f :
  good l -> l_err_count l < LEX_MAX_ERRORS -> l_pos l < q <= len -> gap src (l_pos l) q ->
  step_post l Continue (goto q (addd DIAG_WARNING code (l_pos l) ln c f l)).
Proof.
  intros Hg He Hq Hgap. pose proof (good_pos _ Hg).
  split_and!; simpl; [apply good_goto; lia|lia|lia|]. apply sp_gap; [done|].
  destruct (quiet_warn code (l_pos l) ln c f l).
  split; simpl; [apply good_goto; lia|done|lia|done].
Qed.

(** A line comment always moves. *)
Lemma scan_line_gt p :
  0 <= p -> p < len -> byte p <> 10 -> p < scan (fun c => negb (c =? 10)) p <= len.
Proof.
  intros ? ? Hb. rewrite scan_step; [|done|].
  - pose proof (scan_ge (fun c => negb (c =? 10)) (p + 1)).
    pose proof (scan_le (fun c => negb (c =? 10)) (p + 1)). lia.
  - apply has_true. split; [done|]. destruct (byte p =? 10) eqn:?; [by zb|done].
Qed.

Lemma wp_lex_symbol l :
  good l -> l_err_count l < LEX_MAX_ERRORS -> l_pos l < len ->
  has is_whitespace (l_pos l) = false -> has (word_start profile) (l_pos l) = false ->
  has is_digit (l_pos l) = false -> has_c 34 (l_pos l) = false ->
  has_c (chr "#") (l_pos l) = false ->
  wp (lex_symbol src len out_cap profile (byte (l_pos l)) (l_pos l) (l_line l) (l_col l))
     (step_post l) l.
Proof.
  intros Hg He Hlt Hw Hs Hd Hq Hh. pose proof (good_pos _ Hg) as Hp.
  pose proof (other_stuck _ Hlt Hw Hs Hd Hq Hh) as Hother. clear Hw Hs Hd Hq Hh.
  unfold lex_symbol.
  destruct (byte (l_pos l) =? 40) eqn:Hc; [zb|].
  { wp_step. apply wp_next; [done|]. destruct (has_c 42 (l_pos l + 1)) eqn:Hn; [|sym1_case Hc].
    pose proof Hn as [? _]%has_c_true.
    wp_step. apply wp_advance; [done|lia|].
    wp_step. apply wp_advance; [apply good_goto; lia|simpl; lia|]. rewrite goto_goto. simpl.
    replace (l_pos l + 1 + 1) with (l_pos l + 2) by lia.
    wp_step. apply wp_skip_comment; [apply good_goto; lia|]. rewrite goto_goto. simpl. wp_step.
    pose proof (comment_len_bounds 1 (suffix (l_pos l + 2))) as Hb.
    rewrite zlen_suffix in Hb by lia.
    apply step_gap; [done..|lia|]. apply gap_block; [by apply has_c_true|done]. }
  destruct (byte (l_pos l) =? 41) eqn:Hc1; [zb; sym1_case Hc1|].
  destruct (byte (l_pos l) =? 123) eqn:Hc2; [zb; sym1_case Hc2|].
  destruct (byte (l_pos l) =? 125) eqn:Hc3; [zb; sym1_case Hc3|].
  destruct (byte (l_pos l) =? 91) eqn:Hc4; [zb|].
  { profile_case Hc4 Hother. }
  destruct (byte (l_pos l) =? 93) eqn:Hc5; [zb|].
  { profile_case Hc5 Hother. }
  destruct (byte (l_pos l) =? 61) eqn:Hc6; [zb|].
  { next_case Hc6 ltac:(sym1_case Hc6). }
  destruct (byte (l_pos l) =? 58) eqn:Hc7; [zb; sym1_case Hc7|].
  destruct (byte (l_pos l) =? 46) eqn:Hc8; [zb; sym1_case Hc8|].
  destruct (byte (l_pos l) =? 59) eqn:Hc9; [zb; sym1_case Hc9|].
  destruct (byte (l_pos l) =? 43) eqn:Hc10; [zb; sym1_case Hc10|].
  destruct (byte (l_pos l) =? 45) eqn:Hc11; [zb; sym1_case Hc11|].
  destruct (byte (l_pos l) =? 42) eqn:Hc12; [zb; sym1_case Hc12|].
  destruct (byte (l_pos l) =? 47) eqn:Hc13; [zb|].
  { wp_step. apply wp_next; [done|].
    destruct (has_c 47 (l_pos l + 1)) eqn:Hn; [|sym1_case Hc13].
    wp_step. apply wp_lex_diag. wp_step.
    apply wp_skip_line; [by eapply good_same|]. wp_step. simpl.
    apply step_gap_warn; [done..|apply scan_line_gt; lia|].
    apply gap_slashes; [by apply has_c_true|done]. }
  destruct (byte (l_pos l) =? 60) eqn:Hc14; [zb|].
  { next_case Hc14 ltac:(next_case Hc14 ltac:(sym1_case Hc14)). }
  destruct (byte (l_pos l) =? 62) eqn:Hc15; [zb|].
  { next_case Hc15 ltac:(next_case Hc15 ltac:(sym1_case Hc15)). }
  destruct (byte (l_pos l) =? 33) eqn:Hc16; [zb|].
  { next_case Hc16 ltac:(sym1_case Hc16). }
  destruct (byte (l_pos l) =? 124) eqn:Hc17; [zb|].
  { next_case Hc17 ltac:(sym1_case Hc17). }
  destruct (byte (l_pos l) =? 38) eqn:Hc18; [zb|].
  { next_case Hc18 ltac:(sym1_case Hc18). }
  destruct (byte (l_pos l) =? 94) eqn:Hc19; [zb; sym1_case Hc19|].
  destruct (byte (l_pos l) =? 126) eqn:Hc20; [zb; sym1_case Hc20|].
  destruct (byte (l_pos l) =? 37) eqn:Hc21; [zb; sym1_case Hc21|].
  destruct (byte (l_pos l) =? 36) eqn:Hc22; [zb|].
  { profile_case Hc22 Hother. }
  destruct (byte (l_pos l) =? 64) eqn:Hc23; [zb|].
  { profile_case Hc23 Hother. }
  apply wp_sym_error; try done. apply Hother. unfold sym1_kind, sym1_table. simpl.
  rewrite Hc, Hc1, Hc2, Hc3, Hc6, Hc7, Hc8, Hc9, Hc10, Hc11, Hc12, Hc13, Hc14, Hc15, Hc16,
    Hc17, Hc18, Hc19, Hc20, Hc21.
  destruct profile; simpl; by rewrite ?Hc4, ?Hc5, ?Hc22, ?Hc23.
Qed.

End Facts.
