(* ===== verification/LexerCorrect.v ===== *)
(** * [lex] is total and implements the lexical grammar

    The grammar is deterministic, and every step of the code is one of its lexemes. *)

From Stdlib Require Import ZArith Lia String Ascii.
From stdpp Require Import base tactics list.
From S2P Require Import Prelude Diag Lexer LexSpec LexerFacts.
Open Scope Z_scope.

(** * The lexical grammar is deterministic

    At each position at most one gap or lexeme is possible, so a text is read in
    at most one way. *)

Section Det.
Context (src : list Z) (profile : Profile).
Abbreviation len := (zlen src).
Abbreviation byte := (byte src).
Abbreviation has := (has src).
Abbreviation has_c := (has_c src).
Abbreviation items := (str_items src).

Lemma gap_det p q q' : gap src p q -> gap src p q' -> q = q'.
Proof. inversion 1; subst; inversion 1; subst; (done || byte_cases). Qed.

Lemma items_det c q q' :
  items c q -> has_c 34 q = true -> items c q' -> has_c 34 q' = true -> q = q'.
Proof.
  induction 1; intros Hq; (inversion 1; subst); intros Hq'; auto; try byte_cases.
Qed.

Lemma symbol_inv p q k :
  p < len -> has (word_start profile) p = false -> has is_digit p = false ->
  has_c 34 p = false -> lexeme src profile k p q ->
  (q = p + 2 /\ p + 1 < len /\ sym2_kind (byte p) (byte (p + 1)) = Some k) \/
  (q = p + 1 /\ sym1_kind profile (byte p) = Some k /\
   (p + 1 < len -> sym2_kind (byte p) (byte (p + 1)) = None) /\
   has_c (chr "(") p && has_c (chr "*") (p + 1) = false /\
   has_c (chr "/") p && has_c (chr "/") (p + 1) = false).
Proof.
  intros Hp Hw Hd Hq. inversion 1; subst; try congruence; auto 10.
  unfold radix_at in *. destruct (has_c 48 p) eqn:E; [|done].
  apply has_c_true in E as [_ E]. unfold LexSpec.has in Hd. rewrite E in Hd.
  assert ((p <? len) = true) as Hpl by lia. by rewrite Hpl in Hd.
Qed.

Lemma lexeme_lt k p q : lexeme src profile k p q -> p < len.
Proof.
  inversion 1; subst; try done; try lia;
    try (match goal with H : LexSpec.has _ _ p = true |- _ => apply has_true in H; tauto end);
    try (match goal with H : LexSpec.has_c _ _ p = true |- _ => apply has_c_true in H; tauto end).
  unfold radix_at in *. destruct (has_c 48 p) eqn:E; [|done]. by apply has_c_true in E as [? _].
Qed.

Lemma lexeme_det k k' p q q' :
  lexeme src profile k p q -> lexeme src profile k' p q' -> k = k' /\ q = q'.
Proof.
  intros H1 H2. pose proof (lexeme_lt _ _ _ H1) as Hp.
  destruct (has (word_start profile) p) eqn:Hw.
  { apply word_inv in H1 as (-> & -> & _), H2 as (-> & -> & _); done. }
  destruct (has is_digit p) eqn:Hd.
  { apply digit_inv in H1 as [H1|[H1|(? & dig & H1)]], H2 as [H2|[H2|(? & dig' & H2)]];
      try done; destruct_and?; subst; split; congruence. }
  destruct (has_c 34 p) eqn:Hq.
  { apply quote_inv in H1 as (-> & q1 & -> & ? & ?), H2 as (-> & q2 & -> & ? & ?); try done.
    split; [done|]. f_equal. by eapply items_det. }
  apply symbol_inv in H1 as [(-> & ? & H1)|(-> & H1 & H1' & _)],
    H2 as [(-> & ? & H2)|(-> & H2 & H2' & _)]; try done.
  - split; [congruence|done].
  - rewrite H2' in H1; done.
  - rewrite H1' in H2; done.
  - split; [congruence|done].
Qed.

Lemma gap_lexeme p q q' k : gap src p q -> ~ lexeme src profile k p q'.
Proof.
  intros H1 H2. pose proof (lexeme_lt _ _ _ H2) as Hp. destruct H1 as [p Hs|p Hs|p Hs Hs'|p Hs Hs'].
  all: assert (Hno : has (word_start profile) p = false /\ has is_digit p = false /\
                     has_c 34 p = false)
         by (split_and!; apply not_true_is_false; intros ?; byte_cases).
  all: destruct Hno as (? & ? & ?).
  - apply has_true in Hs as [_ Hs].
    apply symbol_inv in H2 as [(_ & _ & H2%sym2_kind_byte)|(_ & H2%sym1_kind_byte & _)];
      try done; byte_cases.
  - apply has_c_true in Hs as [_ Hs].
    apply symbol_inv in H2 as [(_ & _ & H2%sym2_kind_byte)|(_ & H2%sym1_kind_byte & _)];
      try done; byte_cases.
  - apply symbol_inv in H2 as [(_ & _ & H2%sym2_kind_byte)|(_ & _ & _ & _ & H2)]; try done.
    + apply has_c_true in Hs as [_ Hs]. byte_cases.
    + by rewrite Hs, Hs' in H2.
  - apply symbol_inv in H2 as [(_ & _ & H2%sym2_kind_byte)|(_ & _ & _ & H2 & _)]; try done.
    + apply has_c_true in Hs as [_ Hs]. byte_cases.
    + by rewrite Hs, Hs' in H2.
Qed.

Lemma token_det t t' q q' :
  token_at src profile t q -> token_at src profile t' q' -> t_start t = t_start t' ->
  t = t' /\ q = q'.
Proof.
  intros [Hx Hl Hc] [Hx' Hl' Hc'] E. rewrite <- E in *.
  destruct (lexeme_det _ _ _ _ _ Hx Hx') as [Hk <-]. split; [|done].
  rewrite <- Hc in Hc'. destruct t, t'; simpl in *. by simplify_eq.
Qed.

(** ** Readings of a text *)

Abbreviation lexes := (lexes src profile).

Lemma gap_lt p q : gap src p q -> p < len.
Proof.
  inversion 1; subst;
    try (match goal with H : LexSpec.has _ _ p = true |- _ => apply has_true in H; tauto end);
    match goal with H : LexSpec.has_c _ _ p = true |- _ => apply has_c_true in H; tauto end.
Qed.

Lemma lexes_gap_inv p q ts : gap src p q -> lexes p ts -> lexes q ts.
Proof.
  intros Hg. inversion 1; subst.
  - apply gap_lt in Hg. lia.
  - by rewrite (gap_det _ _ _ Hg H0).
  - exfalso. by eapply gap_lexeme, ta_lexeme.
Qed.

Lemma lexes_tok_inv t q ts :
  token_at src profile t q -> lexes (t_start t) ts ->
  exists ts', ts = t :: ts' /\ lexes q ts'.
Proof.
  intros Ht. inversion 1; subst.
  - pose proof (lexeme_lt _ _ _ (ta_lexeme _ _ _ _ Ht)). lia.
  - exfalso. by eapply gap_lexeme, ta_lexeme.
  - destruct (token_det _ _ _ _ Ht H1 (eq_sym H0)) as [-> ->]. eauto.
Qed.

Lemma lexes_stuck p ts : stuck src profile p -> p < len -> ~ lexes p ts.
Proof.
  intros Hs Hp. inversion 1; subst; [lia|by destruct (Hs q)|].
  destruct (Hs q) as [_ Hk]. by eapply Hk, ta_lexeme.
Qed.

Lemma lexes_end_inv p ts : len <= p -> lexes p ts -> ts = [].
Proof.
  intros Hp. inversion 1; subst; [done|by apply gap_lt in H0; lia|].
  pose proof (lexeme_lt _ _ _ (ta_lexeme _ _ _ _ H0)). lia.
Qed.

(** What has been read, followed by a reading of the rest. *)
Lemma scanned_lexes ok ts p ts' :
  scanned src profile ok ts p -> ok = true -> lexes p ts' -> lexes 0 (ts ++ ts').
Proof.
  intros Hs. revert ts'. induction Hs as [|ok ts p q _ IH Hg|ok ts t q _ IH Ht|]; intros ts' E Hl;
    simplify_eq; try done.
  - apply IH; [done|]. by eapply lexes_gap.
  - rewrite <- app_assoc. apply IH; [done|]. by eapply lexes_tok.
Qed.

End Det.

(** * [lex] is total and implements the lexical grammar

    The scan loop and the entry point, on top of the token scanners of
    [LexerFacts]. *)

Section Correct.
Context (src : list Z) (out_cap : Z) (profile : Profile).
Abbreviation len := (zlen src).
Abbreviation byte := (byte src).
Abbreviation has := (has src).
Abbreviation has_c := (has_c src).
Abbreviation goto := (goto src).
Abbreviation good := (good src).
Abbreviation rel := (rel src).
Abbreviation scan := (scan src).
Abbreviation stuck := (stuck src profile).
Abbreviation tok_post := (tok_post src out_cap profile).
Abbreviation step_post := (step_post src out_cap profile).

Lemma wp_token_ctl l l1 rc :
  l_err_count l < LEX_MAX_ERRORS -> tok_post l rc l1 ->
  wp (if rc <? 0 then err_ctl else ret Continue) (step_post l) l1.
Proof.
  intros He (Hg & Hp & Ho). destruct Ho as [t ? ? ? ? ?|? ? E|Hst ? ? ?].
  - change (0 <? 0) with false. wp_step. split_and!; [done|lia|done|]. by eapply sp_tok.
  - change (-1 <? 0) with true. unfold err_ctl. simpl. wp_step. apply wp_record_error. wp_step.
    split_and!; simpl; [by eapply good_same|lia|done|].
    apply sp_full; simpl; [done..|lia|].
    intros H1. destruct (LEX_MAX_ERRORS <=? l_err_count l1 + 1) eqn:?; zb; done.
  - change (-1 <? 0) with true. by eapply wp_err_ctl.
Qed.

Lemma has_here f p : p < len -> has f p = f (byte p).
Proof. intros. unfold LexSpec.has. destruct (p <? len) eqn:?; [done|zb; lia]. Qed.

Lemma word_start_cases c :
  word_start profile c = false ->
  is_letter c = false /\ (c =? 95) && bool_decide (profile = PROFILE_LEGACY) = false.
Proof. apply orb_false_elim. Qed.

(** An identifier of the default profile that starts with an underscore. *)
Lemma wp_underscore l :
  good l -> l_err_count l < LEX_MAX_ERRORS -> l_pos l < len ->
  byte (l_pos l) = chr "_" -> profile = PROFILE_DEFAULT ->
  wp (do! advance src len;
      do! skip_while src len is_ident_cont_legacy;
      do! lex_diag DIAG_ERROR LEX_E1003 (l_pos l) (l_line l) (l_col l) true;
      err_ctl) (step_post l) l.
Proof.
  intros Hg He Hlt Hb Hpr. pose proof (good_pos _ _ Hg).
  wp_step. apply wp_advance; [done..|].
  wp_step. apply wp_skip_while; [apply good_goto; lia|]. rewrite goto_goto. simpl.
  pose proof (scan_ge src is_ident_cont_legacy (l_pos l + 1)).
  pose proof (scan_le src is_ident_cont_legacy (l_pos l + 1)).
  wp_step. apply wp_lex_diag.
  eapply (wp_err_ctl src out_cap profile 1); try done; simpl; [by apply good_addd, good_goto; lia|lia| |].
  - apply other_stuck; try done; unfold LexSpec.has_c; rewrite ?has_here, ?Hb by done; try done.
    + unfold word_start. by rewrite Hpr.
    + by destruct profile.
  - eapply diags_up_after; [apply diags_up_refl|done].
Qed.

Lemma wp_lex_step l :
  good l -> l_err_count l < LEX_MAX_ERRORS -> l_pos l < len ->
  wp (lex_step src len out_cap profile) (step_post l) l.
Proof.
  intros Hg He Hlt. pose proof (good_pos _ _ Hg). unfold lex_step.
  wp_step. wp_step. wp_step. wp_step. fold (byte (l_pos l)).
  destruct (is_whitespace (byte (l_pos l))) eqn:Hw.
  { wp_step. apply wp_advance; [done..|]. wp_step.
    apply step_gap; [done..|lia|]. apply gap_space. by rewrite has_here. }
  destruct ((byte (l_pos l) =? 95) && bool_decide (profile = PROFILE_DEFAULT)) eqn:Hu.
  { apply andb_prop in Hu as [Hu Hpr%bool_decide_eq_true]. zb. by apply wp_underscore. }
  fold (word_start profile (byte (l_pos l))).
  destruct (word_start profile (byte (l_pos l))) eqn:Hs.
  { wp_step. apply wp_advance; [done..|]. wp_step.
    eapply wp_conseq; [apply wp_lex_ident; [done|by rewrite has_here]|].
    intros rc l1 Ht. by apply wp_token_ctl. }
  destruct (is_digit (byte (l_pos l))) eqn:Hd.
  { wp_step. eapply wp_conseq; [apply wp_lex_number; [done|by rewrite has_here]|].
    intros rc l1 Ht. by apply wp_token_ctl. }
  destruct (byte (l_pos l) =? 34) eqn:Hq.
  { wp_step. apply wp_advance; [done..|]. wp_step.
    eapply wp_conseq;
      [apply wp_lex_string; [done|by unfold LexSpec.has_c; rewrite has_here|done]|].
    intros rc l1 (Hg1 & Hp1 & Ho). destruct Ho as [t|? ? E|n ? ? ? Hm];
      [change (0 <? 0) with false|change (-1 <? 0) with true..].
    - wp_step. split_and!; [done|lia|done|]. by eapply sp_tok.
    - wp_step. wp_step. wp_step. split_and!; [done|lia|done|].
      apply sp_full; [done..|lia|]. intros _. by rewrite E.
    - wp_step. wp_step. wp_step. split_and!; [done|lia|done|].
      eapply (sp_err _ _ _ _ _ n); try done.
      + intros Hc1. destruct (LEX_MAX_ERRORS <=? l_err_count l1) eqn:?; zb; done.
      + by case_match. }
  destruct (byte (l_pos l) =? 35) eqn:Hh.
  { wp_step. apply wp_lex_diag. wp_step. apply wp_skip_line; [by eapply good_same|].
    wp_step. simpl. apply step_gap_warn; [done..|apply scan_line_gt; zb; lia|].
    apply gap_hash. by unfold LexSpec.has_c; rewrite has_here. }
  apply wp_lex_symbol; unfold LexSpec.has_c; rewrite ?has_here; done.
Qed.

(** ** The loop *)

Abbreviation lexes := (lexes src profile).
Abbreviation scanned := (scanned src profile).

(** What holds of the scanner after every turn: [full] is the one exception,
    an output buffer with no room left. *)
Record inv (d : Diags) (l : Lexer) : Prop := {
  i_good : good l;
  i_err : 0 <= l_err_count l <= LEX_MAX_ERRORS;
  i_out : l_out_n l <= l_pos l /\ l_out_n l <= out_cap;
  i_scan : exists ok, scanned ok (l_out l) (l_pos l) /\
             (ok = true \/ 0 < l_err_count l \/ out_cap <= l_out_n l);
  i_diags : diags_up (l_err_count l) d (l_diags l) \/ out_cap <= l_out_n l;
  i_complete : forall ts, lexes 0 ts ->
    out_cap <= l_out_n l \/
    (l_err_count l = 0 /\ exists ts2, ts = l_out l ++ ts2 /\ lexes (l_pos l) ts2)
}.

Lemma inv_init d : 0 <= out_cap -> inv d (lex_init d).
Proof.
  intros Hc. split; simpl; try done.
  - split; simpl; [pose proof (zlen_nonneg src); lia|done].
  - exists true. split; [apply sc_nil|by left].
  - left. apply diags_up_refl.
  - intros ts H. right. split; [done|]. by exists ts.
Qed.

Lemma l_out_n_snoc l l' t : l_out l' = l_out l ++ [t] -> l_out_n l' = l_out_n l + 1.
Proof. unfold l_out_n. intros ->. by rewrite zlen_app. Qed.

Lemma l_out_n_same l l' : l_out l' = l_out l -> l_out_n l' = l_out_n l.
Proof. unfold l_out_n. by intros ->. Qed.

(** Nothing more is claimed of a scanner whose buffer is full. *)
Lemma inv_full d l l' :
  inv d l -> out_cap <= l_out_n l -> l_out l' = l_out l -> good l' -> l_pos l <= l_pos l' ->
  0 <= l_err_count l' <= LEX_MAX_ERRORS -> inv d l'.
Proof.
  intros [Hg He [Ho Hoc] (ok & Hs & _) _ _] Hf E Hg' Hp He'.
  pose proof (good_pos _ _ Hg'). pose proof (l_out_n_same _ _ E).
  split; [done|done|lia| |right; lia|intros; left; lia].
  exists false. rewrite E. split; [|right; right; lia]. eapply sc_err; [done|lia].
Qed.

Lemma inv_gap d l l' :
  inv d l -> gap src (l_pos l) (l_pos l') -> rel 0 l l' -> l_pos l <= l_pos l' -> inv d l'.
Proof.
  intros [Hg He Ho (ok & Hs & Hok) Hd Hc] Hgap [Hg' E Ee Hd'] Hp.
  rewrite Z.add_0_r in Ee. pose proof (l_out_n_same _ _ E) as En.
  split; rewrite ?Ee, ?En, ?E in *; try done; [lia|..].
  - exists ok. split; [by eapply sc_gap|done].
  - destruct Hd as [Hd|]; [left|by right]. rewrite <- (Z.add_0_r (l_err_count l)).
    by eapply diags_up_trans.
  - intros ts Hts. destruct (Hc ts Hts) as [|(? & ts2 & -> & Hl)]; [by left|right].
    split; [done|]. exists ts2. split; [done|]. by eapply lexes_gap_inv.
Qed.

Lemma inv_tok d l l' t :
  inv d l -> l_out_n l < out_cap -> l_out l' = l_out l ++ [t] -> t_start t = l_pos l ->
  token_at src profile t (l_pos l') -> l_err_count l' = l_err_count l ->
  diags_up 0 (l_diags l) (l_diags l') -> good l' -> l_pos l < l_pos l' -> inv d l'.
Proof.
  intros [Hg He Ho (ok & Hs & Hok) Hd Hc] Hcap E Et Ht Ee Hd' Hg' Hp.
  pose proof (l_out_n_snoc _ _ _ E) as En.
  split; rewrite ?Ee, ?En, ?E in *; try done; [lia|..].
  - exists ok. split; [eapply sc_tok; by rewrite ?Et|]. destruct Hok as [|[]]; auto. lia.
  - destruct Hd as [Hd|]; [left|lia]. rewrite <- (Z.add_0_r (l_err_count l)).
    by eapply diags_up_trans.
  - intros ts Hts. destruct (Hc ts Hts) as [|(? & ts2 & -> & Hl)]; [lia|right].
    split; [done|]. rewrite <- Et in Hl.
    destruct (lexes_tok_inv _ _ _ _ _ Ht Hl) as (ts3 & -> & Hl3). exists ts3.
    split; [by rewrite <- app_assoc|done].
Qed.

Lemma inv_err d l l' n :
  inv d l -> stuck (l_pos l) -> l_pos l < len -> 0 < n -> rel n l l' -> l_pos l <= l_pos l' ->
  l_err_count l' <= LEX_MAX_ERRORS -> inv d l'.
Proof.
  intros [Hg He Ho (ok & Hs & Hok) Hd Hc] Hst Hlt Hn [Hg' E Ee Hd'] Hp Hm.
  pose proof (l_out_n_same _ _ E) as En. pose proof (good_pos _ _ Hg').
  split; rewrite ?En, ?E in *; try done; [lia..| | |].
  - exists false. split; [|right; left; lia]. eapply sc_err; [done|lia].
  - destruct Hd as [Hd|]; [left|by right]. rewrite Ee. by eapply diags_up_trans.
  - intros ts Hts. destruct (Hc ts Hts) as [|(? & ts2 & _ & Hl)]; [by left|].
    exfalso. by eapply lexes_stuck.
Qed.

Lemma inv_step d l r l' :
  inv d l -> l_pos l < len -> step_post l r l' -> inv d l'.
Proof.
  intros Hi Hlt (Hg' & Hp & Hc & Ho). pose proof (i_err _ _ Hi).
  destruct Ho as [Hgap Hr|t ? ? ? ? ? ?|r ? ? ? _|n r ? ? ? ? _ _].
  - by eapply inv_gap.
  - eapply inv_tok; eauto.
  - eapply inv_full; eauto. lia.
  - by eapply inv_err.
Qed.

(** How the loop ends. *)
Definition loop_post (d : Diags) (go : bool) (l : Lexer) : Prop :=
  inv d l /\ (go = false -> out_cap <= l_out_n l) /\
  (l_err_count l = 0 -> out_cap <= l_out_n l \/ l_pos l = len).

Lemma wp_lex_loop d :
  0 <= out_cap -> wp (lex_loop src len out_cap profile) (loop_post d) (lex_init d).
Proof.
  intros Hcap. unfold lex_loop.
  apply (wp_iter (fun _ l => inv d l /\ l_err_count l < LEX_MAX_ERRORS)
           (fun _ l => Z.to_nat (len - l_pos l))); simpl.
  { split; [by apply inv_init|done]. }
  { lia. }
  intros _ l [Hi He]. pose proof (good_pos _ _ (i_good _ _ Hi)).
  wp_step. wp_step. destruct (l_pos l <? len) eqn:Hlt; zb.
  2: { wp_step. split_and!; [done|done|intros _; right; lia]. }
  wp_step. eapply wp_conseq; [apply wp_lex_step; [apply Hi|done|done]|].
  intros r l' Hpost. pose proof (inv_step _ _ _ _ Hi Hlt Hpost) as Hi'.
  destruct Hpost as (Hg' & Hp & Hc & Ho). wp_step.
  assert (Hr : r = Continue \/ out_cap <= l_out_n l' \/ (0 < l_err_count l' /\ r <> ReturnM1)).
  { destruct Ho as [| |r ? E|n r ? ? [] ? _ ?]; auto.
    - right; left. by rewrite (l_out_n_same _ _ E).
    - right; right. split; [|done]. pose proof (i_err _ _ Hi). lia. }
  destruct r.
  - split_and!; [done| |specialize (Hc eq_refl); lia].
    remember Continue as r eqn:Er.
    destruct Ho as [? [? ? ? ?]|t|r ? ? ? Hlt2|n r ? ? ? ? Hlt2]; [lia|lia|by apply Hlt2..].
  - destruct Hr as [|[|[]]]; [done|..]; split_and!; (done || intros; lia || auto).
  - destruct Hr as [|[|[]]]; [done| |done]; split_and!; (done || auto).
Qed.

(** The sentinel. *)
Definition eof_token (l : Lexer) : Token :=
  mkToken TK_EOF (l_pos l) 0 (l_line l) (l_col l).

(** Everything [lex] promises, for any capacity. *)
Definition lex_post (d : Diags) (rc : Z) (l' : Lexer) : Prop :=
  exists l, inv d l /\
    ((rc = -1 /\ l' = l /\ out_cap <= l_out_n l) \/
     (l' = push (eof_token l) l /\ l_out_n l < out_cap /\
      ((rc = -1 /\ 0 < l_err_count l) \/
       (rc = l_out_n l + 1 /\ l_err_count l = 0 /\ l_pos l = len)))).

Lemma lex_total d :
  0 <= out_cap ->
  exists rc l', lex src len out_cap profile d = Ok (rc, l') /\ lex_post d rc l'.
Proof.
  intros Hcap. apply (wp_ok (lex_body src len out_cap profile) _ (lex_init d)).
  unfold lex_body. wp_step. eapply wp_conseq; [by apply wp_lex_loop|].
  intros go l (Hi & Hgo & Hend). pose proof (i_out _ _ Hi). pose proof (i_err _ _ Hi).
  destruct go; [|wp_step; exists l; split; [done|]; left; auto].
  wp_step. wp_step. unfold emit. do 3 wp_step.
  destruct (out_cap <=? l_out_n l) eqn:Hf; zb.
  { wp_step. change (-1 <? 0) with true. wp_step. wp_step.
    exists l. split; [done|]. left. done. }
  wp_step. wp_step. wp_step. change (0 <? 0) with false. wp_step. wp_step. wp_step. wp_step.
  exists l. split; [done|]. right. cbn [l_err_count]. split_and!; [done|lia|].
  destruct (0 <? l_err_count l) eqn:?; zb; [left; lia|right].
  split_and!; [|lia|destruct Hend; lia].
  by rewrite (l_out_n_snoc l _ (eof_token l)).
Qed.

End Correct.
