(* ===== verification/LexProps.v ===== *)
(** * The lexer's theorems

    Totality and memory safety, soundness of the token stream whatever happens,
    equivalence with the lexical grammar of [LexSpec], and the accounting of
    errors. *)

From Stdlib Require Import ZArith Lia String Ascii.
From stdpp Require Import base tactics list.
From S2P Require Import Prelude Diag Lexer LexSpec LexerFacts LexerCorrect.
Open Scope Z_scope.

(** Tokens in order of their positions, none overlapping the next, all of them
    between [p] and [q]. *)
Fixpoint ordered (p : Z) (ts : list Token) (q : Z) : Prop :=
  match ts with
  | [] => p <= q
  | t :: ts => p <= t_start t /\ ordered (t_start t + t_len t) ts q
  end.

Lemma ordered_weaken p ts q q' : ordered p ts q -> q <= q' -> ordered p ts q'.
Proof. revert p. induction ts as [|t ts IH]; simpl; intros p; [lia|intros [? ?] ?; auto]. Qed.

Lemma ordered_snoc p ts t q :
  ordered p ts (t_start t) -> t_start t + t_len t <= q -> ordered p (ts ++ [t]) q.
Proof. revert p. induction ts as [|u ts IH]; simpl; intros p; [auto|intros [? ?] ?; auto]. Qed.

Section Bounds.
Context (src : list Z) (profile : Profile).
Abbreviation len := (zlen src).

Lemma items_ge p q : str_items src p q -> p <= q.
Proof.
  induction 1; try lia. pose proof (interp_len_bounds 1 (suffix src (p + 2))). lia.
Qed.

Lemma has_lt f p : has src f p = true -> p < len.
Proof. by intros [? _]%has_true. Qed.

Lemma has_c_lt c p : has_c src c p = true -> p < len.
Proof. by intros [? _]%has_c_true. Qed.

Lemma scan_bounds f p : 0 <= p <= len -> p <= scan src f p <= len.
Proof. split; [apply scan_ge|by apply scan_le]. Qed.

Lemma radix_digit_lt p dig : radix_at src p = Some dig -> p + 1 < len.
Proof.
  unfold radix_at. repeat case_match; try done; intros _;
    repeat match goal with H : has src _ (p + 1) = true |- _ => apply has_lt in H end; lia.
Qed.

Lemma suffix_len p : 0 <= p <= len -> zlen (suffix src p) = len - p.
Proof. intros. unfold suffix, zlen in *. rewrite length_drop. lia. Qed.

Lemma gap_bounds p q : 0 <= p -> gap src p q -> p <= q <= len.
Proof.
  intros Hp Hg. pose proof (gap_lt src p q Hg). destruct Hg as [p| | |p ? H2].
  - lia.
  - apply scan_bounds; lia.
  - apply scan_bounds; lia.
  - apply has_c_lt in H2. pose proof (comment_len_bounds 1 (suffix src (p + 2))).
    rewrite suffix_len in * by lia. lia.
Qed.

Lemma lexeme_bounds k p q : 0 <= p -> lexeme src profile k p q -> p < q <= len.
Proof.
  intros Hp Hl. pose proof (lexeme_lt src profile k p q Hl).
  destruct Hl as [p q _ -> _ _|p q Hd _ -> _ _|p q q1 _ _ -> H1 -> _|p q dig _ Hd -> _
                 |p q _ Hi Hq|p k Hp1 _|p k].
  - pose proof (scan_bounds is_ident_cont (p + 1)). lia.
  - rewrite scan_step by done. pose proof (scan_bounds is_digit (p + 1)). lia.
  - apply andb_prop in H1 as [_ H1%has_lt].
    pose proof (scan_bounds is_digit p). pose proof (scan_bounds is_digit (scan src is_digit p + 1)).
    lia.
  - apply has_lt in Hd. pose proof (scan_bounds dig (p + 2)). lia.
  - apply items_ge in Hi. apply has_c_lt in Hq. lia.
  - lia.
  - lia.
Qed.

Lemma token_bounds t q :
  0 <= t_start t -> token_at src profile t q ->
  q = t_start t + t_len t /\ 0 < t_len t /\ q <= len.
Proof. intros H [Hl E _]. apply lexeme_bounds in Hl; [lia|done]. Qed.

(** Line and column never exceed the length of the text plus one. *)
Lemma loc_bounds p : 0 <= p <= len -> 1 <= (loc src p).1 <= p + 1 /\ 1 <= (loc src p).2 <= p + 1.
Proof.
  intros [H0 Hp]. revert Hp. pattern p. apply natlike_ind; [simpl; lia| |done].
  intros x Hx IH Hp. unfold Z.succ in *. rewrite loc_succ by lia.
  unfold loc_step. destruct IH as [? ?]; [lia|]. case_match; simpl; lia.
Qed.

Lemma scanned_tokens ok ts p :
  scanned src profile ok ts p ->
  0 <= p <= len /\ ordered 0 ts p /\ Forall (fun t => exists q, token_at src profile t q) ts.
Proof.
  induction 1 as [|ok ts p q _ (? & ? & ?) Hg|ok ts t q _ (? & ? & ?) Ht|ok ts p q _ (? & ? & ?)].
  - split_and!; simpl; try done. pose proof (zlen_nonneg src). lia.
  - apply gap_bounds in Hg; [|lia]. split_and!; [lia..| |done]. eapply ordered_weaken; [done|lia].
  - pose proof (token_bounds t q ltac:(lia) Ht) as (? & ? & ?).
    split_and!; [lia..| |].
    + apply ordered_snoc; [done|lia].
    + apply Forall_app; split; [done|]. constructor; [by exists q|constructor].
  - split_and!; [lia..| |done]. eapply ordered_weaken; [done|lia].
Qed.

End Bounds.

(** The lexer's state at the end of a successful run. *)
Lemma lex_success src cap profile d rc l :
  0 <= cap -> lex src (zlen src) cap profile d = Ok (rc, l) -> rc <> -1 ->
  exists l0, inv src cap profile d l0 /\ l = push (eof_token l0) l0 /\
    rc = l_out_n l0 + 1 /\ l_err_count l0 = 0 /\ l_pos l0 = zlen src /\ l_out_n l0 < cap.
Proof.
  intros Hc E Hrc. destruct (lex_total src cap profile d Hc) as (rc' & l' & E' & l0 & Hi & Hp).
  rewrite E in E'. injection E' as <- <-.
  destruct Hp as [(? & ?)|(? & ? & [(? & ?)|(? & ? & ?)])]; try done. exists l0. auto 10.
Qed.

Lemma inv_small src cap profile d l :
  zlen src < cap -> inv src cap profile d l -> l_out_n l < cap.
Proof. intros H [Hg ? ? ? ? ?]. pose proof (good_pos _ _ Hg). lia. Qed.

(** What has been written when the end is reached without an error. *)
Lemma inv_lexes src cap profile d l :
  inv src cap profile d l -> l_err_count l = 0 -> l_pos l = zlen src -> l_out_n l < cap ->
  lexes src profile 0 (l_out l).
Proof.
  intros Hi He Hpos Hn. destruct (i_scan _ _ _ _ _ Hi) as (ok & Hs & Hok).
  rewrite <- (app_nil_r (l_out l)). eapply scanned_lexes; [done| |rewrite Hpos; apply lexes_end].
  destruct Hok as [|[]]; [done|lia..].
Qed.

(** ** The theorems *)

(** C1: on any bytes and for any capacity of the token buffer [lex] terminates
    without reading outside the text, writes at most [cap] tokens, returns
    either -1 or the positive number of tokens written, keeps the error count
    within its limit, and its positions, lines and columns stay within the
    length of the text plus one (no [int] overflows on a text shorter than
    2^31). *)
Theorem lex_safe src cap profile d :
  0 <= cap ->
  exists rc l, lex src (zlen src) cap profile d = Ok (rc, l) /\
    (rc = -1 \/ (0 < rc /\ rc = l_out_n l)) /\ l_out_n l <= cap /\
    0 <= l_err_count l <= LEX_MAX_ERRORS /\ 0 <= l_pos l <= zlen src /\
    1 <= l_line l <= zlen src + 1 /\ 1 <= l_col l <= zlen src + 1.
Proof.
  intros Hc. destruct (lex_total src cap profile d Hc) as (rc & l & E & l0 & Hi & Hp).
  exists rc, l. split; [done|].
  pose proof (i_err _ _ _ _ _ Hi). pose proof (i_out _ _ _ _ _ Hi).
  destruct (i_good _ _ _ _ _ Hi) as [Hpos Hloc].
  pose proof (loc_bounds src (l_pos l0) Hpos) as Hb. rewrite <- Hloc in Hb. simpl in Hb.
  destruct Hp as [(-> & -> & ?)|(-> & ? & Hr)].
  - split_and!; auto; lia.
  - rewrite (l_out_n_snoc l0 (push _ l0) (eof_token l0)) by done.
    split_and!; simpl; try lia.
    destruct Hr as [(-> & _)|(-> & _)]; [by left|right].
    pose proof (zlen_nonneg (l_out l0)). unfold l_out_n in *. lia.
Qed.

Lemma lex_safe_witness :
  0 <= 3 /\
  exists rc l, lex (bytes_of "a=1+") 4 3 PROFILE_DEFAULT diags_init = Ok (rc, l) /\
    (rc = -1 \/ (0 < rc /\ rc = l_out_n l)) /\ l_out_n l <= 3 /\
    0 <= l_err_count l <= LEX_MAX_ERRORS /\ 0 <= l_pos l <= 4 /\
    1 <= l_line l <= 4 + 1 /\ 1 <= l_col l <= 4 + 1.
Proof.
  split; [lia|].
  apply (lex_safe (bytes_of "a=1+") 3 PROFILE_DEFAULT diags_init). lia.
Defined.

(** C2: soundness, for every outcome, errors and a full buffer included: apart
    from the final EOF every token written is a lexeme of the grammar, stands
    at its offset, at the line and column of that offset, and the tokens come
    in order without overlapping. *)
Theorem lex_sound src cap profile d rc l :
  0 <= cap -> lex src (zlen src) cap profile d = Ok (rc, l) ->
  exists ts, (l_out l = ts \/ l_out l = ts ++ [eof_token l]) /\
    Forall (fun t => exists q, token_at src profile t q) ts /\ ordered 0 ts (l_pos l).
Proof.
  intros Hc E. destruct (lex_total src cap profile d Hc) as (rc' & l' & E' & l0 & Hi & Hp).
  rewrite E in E'. injection E' as <- <-. destruct (i_scan _ _ _ _ _ Hi) as (ok & Hs & _).
  apply scanned_tokens in Hs as (_ & ? & ?). exists (l_out l0).
  destruct Hp as [(_ & -> & _)|(-> & _)]; auto.
Qed.

Lemma lex_sound_witness :
  exists rc l, 0 <= 20 /\ lex (bytes_of "a=`1;") 5 20 PROFILE_DEFAULT diags_init = Ok (rc, l) /\
  exists ts, (l_out l = ts \/ l_out l = ts ++ [eof_token l]) /\
    Forall (fun t => exists q, token_at (bytes_of "a=`1;") PROFILE_DEFAULT t q) ts /\
    ordered 0 ts (l_pos l).
Proof.
  destruct (lex (bytes_of "a=`1;") 5 20 PROFILE_DEFAULT diags_init) as [[rc l]| |] eqn:E;
    [|vm_compute in E; discriminate..].
  exists rc, l. split; [lia|]. split; [done|].
  eapply (lex_sound (bytes_of "a=`1;") 20 PROFILE_DEFAULT diags_init); [lia|done].
Defined.

(** C3: completeness and functional correctness: a text that the grammar reads
    as the tokens [ts] is lexed, given room for one token per byte and the
    EOF, to exactly [ts] followed by EOF at the end of the text, and the number
    of tokens is returned. *)
Theorem lex_complete src cap profile d ts :
  zlen src < cap -> lexes src profile 0 ts ->
  exists l, lex src (zlen src) cap profile d = Ok (zlen ts + 1, l) /\
    l_out l = ts ++ [mkToken TK_EOF (zlen src) 0 (loc src (zlen src)).1 (loc src (zlen src)).2].
Proof.
  intros Hcap Hts. pose proof (zlen_nonneg src).
  destruct (lex_total src cap profile d ltac:(lia)) as (rc & l & E & l0 & Hi & Hp).
  pose proof (inv_small _ _ _ _ _ Hcap Hi).
  destruct (i_complete _ _ _ _ _ Hi ts Hts) as [|(He & ts2 & Ets & Hl2)]; [lia|].
  destruct Hp as [(_ & _ & ?)|(-> & _ & [(_ & ?)|(-> & _ & Hpos)])]; [lia|lia|].
  rewrite Hpos in Hl2. apply (lexes_end_inv src profile) in Hl2; [|lia]. subst ts2.
  rewrite app_nil_r in Ets. subst ts. exists (push (eof_token l0) l0).
  split; [done|]. simpl. unfold eof_token.
  pose proof (good_loc _ _ (i_good _ _ _ _ _ Hi)) as Hloc. rewrite Hpos in *. by rewrite <- Hloc.
Qed.

Lemma lex_complete_witness :
  let src := bytes_of "1 " in
  zlen src < 18 /\ lexes src PROFILE_DEFAULT 0 [mkToken TK_INT_LIT 0 1 1 1] /\
  exists l, lex src (zlen src) 18 PROFILE_DEFAULT diags_init
            = Ok (zlen [mkToken TK_INT_LIT 0 1 1 1] + 1, l) /\
    l_out l = [mkToken TK_INT_LIT 0 1 1 1] ++
              [mkToken TK_EOF (zlen src) 0 (loc src (zlen src)).1 (loc src (zlen src)).2].
Proof.
  intros src.
  assert (Hl : lexes src PROFILE_DEFAULT 0 [mkToken TK_INT_LIT 0 1 1 1]).
  { apply (lexes_tok src PROFILE_DEFAULT (mkToken TK_INT_LIT 0 1 1 1) 1).
    - split; [|done|done]. by apply lx_int.
    - eapply lexes_gap; [by apply gap_space|]. apply lexes_end. }
  split; [done|]. split; [exact Hl|].
  apply (lex_complete src 18 PROFILE_DEFAULT diags_init); [done|exact Hl].
Defined.

(** C4: acceptance: when [lex] returns a count, the whole text is of the
    grammar and the tokens written are its tokens and EOF. *)
Theorem lex_accepts src cap profile d rc l :
  0 <= cap -> lex src (zlen src) cap profile d = Ok (rc, l) -> rc <> -1 ->
  exists ts, lexes src profile 0 ts /\ l_out l = ts ++ [eof_token l] /\ rc = zlen ts + 1 /\
    l_pos l = zlen src.
Proof.
  intros Hc E Hrc.
  destruct (lex_success _ _ _ _ _ _ Hc E Hrc) as (l0 & Hi & -> & -> & He & Hpos & Hn).
  exists (l_out l0). split_and!; [by eapply inv_lexes|done..].
Qed.

Lemma lex_accepts_witness :
  exists rc l, 0 <= 20 /\ lex (bytes_of "f():i64{<1};") 12 20 PROFILE_DEFAULT diags_init = Ok (rc, l)
  /\ rc <> -1 /\
  exists ts, lexes (bytes_of "f():i64{<1};") PROFILE_DEFAULT 0 ts /\
    l_out l = ts ++ [eof_token l] /\ rc = zlen ts + 1 /\ l_pos l = 12.
Proof.
  destruct (lex (bytes_of "f():i64{<1};") 12 20 PROFILE_DEFAULT diags_init) as [[rc l]| |] eqn:E;
    [|vm_compute in E; discriminate..].
  assert (Hrc : rc <> -1) by (vm_compute in E; by injection E as <- _).
  exists rc, l. split; [lia|]. split; [done|]. split; [done|].
  eapply (lex_accepts (bytes_of "f():i64{<1};") 20 PROFILE_DEFAULT diags_init); [lia|done..].
Defined.

(** C5: error accounting: with room in the buffer and diagnostics not
    suppressed, [lex] fails exactly when it reported an error; it reports as
    many errors as it counts, at most [LEX_MAX_ERRORS]. *)
Theorem lex_reports src cap profile d :
  zlen src < cap -> s_suppress d = false ->
  exists rc l, lex src (zlen src) cap profile d = Ok (rc, l) /\
    s_error_count (l_diags l) = s_error_count d + l_err_count l /\
    (rc = -1 <-> s_error_count d < s_error_count (l_diags l)) /\
    l_err_count l <= LEX_MAX_ERRORS.
Proof.
  intros Hcap Hsup. pose proof (zlen_nonneg src).
  destruct (lex_total src cap profile d ltac:(lia)) as (rc & l & E & l0 & Hi & Hp).
  pose proof (inv_small _ _ _ _ _ Hcap Hi). exists rc, l. split; [done|].
  pose proof (i_err _ _ _ _ _ Hi).
  destruct (i_diags _ _ _ _ _ Hi) as [[_ Hd]|]; [|lia]. rewrite Hsup in Hd.
  destruct Hp as [(_ & _ & ?)|(-> & _ & Hr)]; [lia|]. simpl. rewrite Hd.
  pose proof (zlen_nonneg (l_out l0)). unfold l_out_n in *.
  split_and!; [done|lia|lia].
Qed.

Lemma lex_reports_witness :
  zlen (bytes_of "a`b`") < 20 /\ s_suppress diags_init = false /\
  exists rc l, lex (bytes_of "a`b`") (zlen (bytes_of "a`b`")) 20 PROFILE_DEFAULT diags_init
               = Ok (rc, l) /\
    s_error_count (l_diags l) = s_error_count diags_init + l_err_count l /\
    (rc = -1 <-> s_error_count diags_init < s_error_count (l_diags l)) /\
    l_err_count l <= LEX_MAX_ERRORS.
Proof.
  split; [done|]. split; [done|].
  apply (lex_reports (bytes_of "a`b`") 20 PROFILE_DEFAULT diags_init); done.
Defined.
