(* ===== verification/Ast.v ===== *)
(** * The syntax tree: [src/src/parser.h]

    Node kinds and nodes.  A node's children are a list; [n_child_cap] is the
    capacity of the C array that holds them.  [rtype], which only the type
    checker sets, is left out. *)

From Stdlib Require Import ZArith Lia String Ascii.
From stdpp Require Import base tactics list.
From S2P Require Import Prelude Lexer.
Open Scope Z_scope.

Inductive NodeKind :=
  | NODE_PROGRAM | NODE_MODULE | NODE_IMPORT | NODE_FUNC_DECL | NODE_TYPE_DECL
  | NODE_CONST_DECL | NODE_PARAM | NODE_FIELD | NODE_STMT_LIST | NODE_BIND_STMT
  | NODE_MUT_BIND_STMT | NODE_ASSIGN_STMT | NODE_RETURN_STMT | NODE_IF_STMT
  | NODE_LOOP_STMT | NODE_BREAK_STMT | NODE_ARENA_STMT | NODE_MATCH_STMT
  | NODE_EXPR_STMT | NODE_BINARY_EXPR | NODE_UNARY_EXPR | NODE_CALL_EXPR
  | NODE_CAST_EXPR | NODE_PROPAGATE_EXPR | NODE_INDEX_EXPR | NODE_FIELD_EXPR
  | NODE_IDENT | NODE_TYPE_IDENT | NODE_INT_LIT | NODE_FLOAT_LIT | NODE_STR_LIT
  | NODE_BOOL_LIT | NODE_ARRAY_LIT | NODE_STRUCT_LIT | NODE_FIELD_INIT
  | NODE_TYPE_EXPR | NODE_ARRAY_TYPE | NODE_FUNC_TYPE | NODE_PTR_TYPE
  | NODE_MATCH_ARM | NODE_RETURN_SPEC | NODE_MODULE_PATH | NODE_LOOP_INIT
  | NODE_MAP_TYPE | NODE_MAP_LIT | NODE_MAP_ENTRY | NODE_FUNC_REF | NODE_CLOSURE
  | NODE_SCOPE_STMT | NODE_SPAWN_EXPR.

#[global] Instance NodeKind_eq_dec : EqDecision NodeKind.
Proof. solve_decision. Defined.

#[warnings="-register-all"]
Inductive Node := mkNode {
  n_kind : NodeKind;
  n_start : Z;
  n_line : Z;
  n_col : Z;
  n_tok_start : Z;
  n_tok_len : Z;
  n_op : TokenKind;
  n_child_cap : Z;
  n_children : list Node
}.

Definition NODE_INIT_CAP : Z := 8.

(** [mk]: a node anchored at a token; the arena never runs out (see the header
    of the development). *)
Definition mk (k : NodeKind) (t : Token) : Node :=
  mkNode k (t_start t) (t_line t) (t_col t) (t_start t) (t_len t) TK_EOF NODE_INIT_CAP [].

(** [n->op = op] *)
Definition set_op (op : TokenKind) (n : Node) : Node :=
  mkNode (n_kind n) (n_start n) (n_line n) (n_col n) (n_tok_start n) (n_tok_len n) op
    (n_child_cap n) (n_children n).

(** [ch]: append a child; a full array is doubled; a NULL child is ignored. *)
Definition ch (par : Node) (c : option Node) : Node :=
  match c with
  | None => par
  | Some c =>
      let cap := if n_child_cap par <=? zlen (n_children par) then n_child_cap par * 2
                 else n_child_cap par in
      mkNode (n_kind par) (n_start par) (n_line par) (n_col par) (n_tok_start par)
        (n_tok_len par) (n_op par) cap (n_children par ++ [c])
  end.

(** The text of the node is in the source. *)
Definition span_in (src : list Z) (n : Node) : bool :=
  (0 <=? n_tok_start n) && (0 <=? n_tok_len n) && (n_tok_start n + n_tok_len n <=? zlen src).

(** A text without interpolation. *)
Fixpoint no_interp (l : list Z) : bool :=
  match l with
  | [] => true
  | c :: l => negb ((c =? 92) && match l with d :: _ => d =? chr "(" | [] => false end) && no_interp l
  end.

Lemma no_interp_at l i :
  no_interp l = true -> 0 <= i -> i + 1 < zlen l ->
  (byte_at l i =? 92) && (byte_at l (i + 1) =? chr "(") = false.
Proof.
  intros H Hi Hl. rewrite <- (Z2Nat.id i) by done. assert (Hk : (S (Z.to_nat i) < length l)%nat).
  { unfold zlen in Hl. lia. }
  replace (Z.of_nat (Z.to_nat i) + 1) with (Z.of_nat (S (Z.to_nat i))) by lia.
  unfold byte_at. rewrite !Nat2Z.id. revert H Hk. generalize (Z.to_nat i). clear. intros k. revert l.
  induction k as [|k IH]; intros [|c l] H Hk; cbn [length] in Hk; try lia; cbn [no_interp] in H;
    apply andb_prop in H as [H1 H2].
  - destruct l as [|d l]; [cbn in Hk; lia|]. cbn. by apply negb_true_iff in H1.
  - apply (IH l H2). lia.
Qed.

(** Induction over nodes, with the hypothesis for every child. *)
Section NodeInd.
Context (P : Node -> Prop).
Context (H : forall n, Forall P (n_children n) -> P n).

Fixpoint node_ind' (n : Node) : P n :=
  H n ((fix go (l : list Node) : Forall P l :=
          match l with
          | [] => Forall_nil_2 _
          | c :: l => Forall_cons_2 _ _ _ (node_ind' c) (go l)
          end) (n_children n)).

End NodeInd.

(** The children array is never overfull, in the node and below it. *)
#[warnings="-register-all"]
Inductive node_caps : Node -> Prop :=
  node_caps_intro n :
    NODE_INIT_CAP <= n_child_cap n -> zlen (n_children n) <= n_child_cap n ->
    Forall node_caps (n_children n) -> node_caps n.
