(* ===== verification/Parser.v ===== *)
(** * The parser: [src/src/parser.c]

    Every [parse_*] function of the recursive-descent parser, over the tokens,
    the source text and the profile of one [Parser].  The functions that the
    source declares forward are reached through the record [rec], whose fuel
    [parser_at] ties; interpolated strings re-enter the lexer and the parser
    through [inner]. *)

From Stdlib Require Import ZArith Lia String Ascii.
From stdpp Require Import base tactics list.
From S2P Require Import Prelude Diag Lexer Ast.
Open Scope Z_scope.

Definition E2001 : Z := 2001.
Definition E2002 : Z := 2002.
Definition E2003 : Z := 2003.
Definition E2004 : Z := 2004.
Definition E2005 : Z := 2005.
Definition E2015 : Z := 2015.
Definition W2020 : Z := 2020.
Definition W2021 : Z := 2021.
Definition W2022 : Z := 2022.
Definition MAX_PARSE_ERRORS : Z := 20.
Abbreviation TK_SEMICOLON := TK_SEMI.

(** The changing part of [Parser], with the diagnostics' statics. *)
Record Parser := mkParser {
  p_pos : Z;
  p_errs : Z;
  p_in_sc : bool;
  p_diags : Diags
}.

Definition PM := M Parser.

Definition set_pos (i : Z) (p : Parser) : Parser :=
  mkParser i (p_errs p) (p_in_sc p) (p_diags p).
Definition set_in_sc (b : bool) (p : Parser) : Parser :=
  mkParser (p_pos p) (p_errs p) b (p_diags p).
Definition set_diags (d : Diags) (p : Parser) : Parser :=
  mkParser (p_pos p) (p_errs p) (p_in_sc p) d.
Definition add_err (p : Parser) : Parser :=
  mkParser (p_pos p) (p_errs p + 1) (p_in_sc p) (p_diags p).

Definition tk_in (k : TokenKind) (ks : list TokenKind) : bool := bool_decide (k ∈ ks).
Definition tk_eqb (a b : TokenKind) : bool := bool_decide (a = b).

(** [interp_reloc]: shift a subtree to the coordinates of the real source. *)
Fixpoint interp_reloc (delta line str_start str_col : Z) (n : Node) : Node :=
  mkNode (n_kind n) (n_start n + delta) line (str_col + (n_tok_start n + delta - str_start))
    (n_tok_start n + delta) (n_tok_len n) (n_op n) (n_child_cap n)
    (map (interp_reloc delta line str_start str_col) (n_children n)).

(** The first child of a list for which [f] finds something. *)
Fixpoint first_some {A} (f : Node -> option A) (l : list Node) : option A :=
  match l with
  | [] => None
  | c :: l => match f c with Some a => Some a | None => first_some f l end
  end.

Definition has_kind (k : NodeKind) (n : Node) : bool := bool_decide (n_kind n = k).

(** [interp_unwrap]: the returned expression of the wrapper program. *)
Definition interp_unwrap (ast : option Node) : option Node :=
  match ast with
  | None => None
  | Some ast =>
      let is_fn c := if has_kind NODE_FUNC_DECL c then Some c else None in
      let fn := first_some
        (fun c => if has_kind NODE_FUNC_DECL c then Some c
                  else if has_kind NODE_MODULE c then first_some is_fn (n_children c)
                  else None) (n_children ast) in
      match fn with
      | None => None
      | Some fn =>
          first_some
            (fun c => if has_kind NODE_STMT_LIST c then
                        first_some (fun st => if has_kind NODE_RETURN_STMT st
                                              then head (n_children st) else None)
                          (n_children c)
                      else None) (n_children fn)
      end
  end.

Definition INTERP_WRAP : list Z := bytes_of "m=i;f=e():$str{<".
Definition INTERP_WRAP_LEN : Z := zlen INTERP_WRAP.
Definition INTERP_MAX_SEGS : Z := 128.
Definition INTERP_MAX_DEPTH : Z := 8.

(** The wrapper program around one segment. *)
Definition interp_wrapper (seg : list Z) : list Z :=
  INTERP_WRAP ++ until_nul seg ++ bytes_of ";};".

(** [is_scalar]'s table. *)
Definition SCALARS : list (list Z) :=
  map bytes_of ["u8"; "u16"; "u32"; "u64"; "i8"; "i16"; "i32"; "i64"; "f32"; "f64";
                "bool"; "str"; "byte"; "Str"; "Byte"; "void"]%string.

Definition STMT_KW_PREFIXES : list (list Z) :=
  map bytes_of ["let"; "if"; "el"; "lp"; "br"; "mut"; "rt"; "as"]%string.

Section Parse.
Context (toks : list Token) (src : list Z) (profile : Profile).
Abbreviation n_toks := (zlen toks).

(** [parse] of an interpolation's wrapper: its tokens, its text and the
    diagnostics; [None] at [INTERP_MAX_DEPTH]. *)
Context (inner : option (list Token -> list Z -> Diags -> res (option Node * Diags))).

(** Fuel of every loop over the tokens. *)
Definition loop_fuel : nat := S (Z.to_nat (n_toks + MAX_PARSE_ERRORS + 1)).

(** [toks[i]] *)
Definition tok_at (i : Z) : PM Token :=
  if 0 <=? i then
    match toks !! Z.to_nat i with Some t => ret t | None => oob end
  else oob.

Definition peek_at (off : Z) : PM TokenKind :=
  do p <- get;
  if p_pos p + off <? n_toks then do t <- tok_at (p_pos p + off); ret (t_kind t)
  else ret TK_EOF.

Definition peek : PM TokenKind := peek_at 0.

Definition cur : PM Token :=
  do p <- get;
  tok_at (if p_pos p <? n_toks then p_pos p else n_toks - 1).

Definition adv : PM Token :=
  do t <- cur;
  do p <- get;
  do! when (p_pos p <? n_toks - 1) (modify (set_pos (p_pos p + 1)));
  ret t.

Definition next_is (k : TokenKind) : PM bool := do k' <- peek; ret (tk_eqb k' k).
Definition next_at_is (off : Z) (k : TokenKind) : PM bool :=
  do k' <- peek_at off; ret (tk_eqb k' k).
Definition next_in (ks : list TokenKind) : PM bool := do k <- peek; ret (tk_in k ks).

(** Short-circuit [&&] and [||]. *)
Definition mand (a b : PM bool) : PM bool := do x <- a; if x then b else ret false.
Definition mor (a b : PM bool) : PM bool := do x <- a; if x then ret true else b.

(** The bytes [start .. start+len) of the source. *)
Definition src_range (start len : Z) : PM (list Z) :=
  if (0 <=? start) && (0 <=? len) && (start + len <=? zlen src) then ret (slice src start len)
  else oob.

Definition teq (t : Token) (s : list Z) : PM bool :=
  if t_len t =? zlen s then do w <- src_range (t_start t) (t_len t); ret (bytes_eqb w s)
  else ret false.

Definition tok_text_extract (t : Token) (bufsz : Z) : PM (list Z) :=
  if (0 <? t_len t) && (t_len t <? bufsz - 1) then src_range (t_start t) (t_len t) else ret [].

(** ** Errors *)

Definition pdiag (f : Diags -> Diags) : PM unit := modify (fun p => set_diags (f (p_diags p)) p).

Definition eerr (code : Z) (t : Token) : PM unit :=
  do! modify add_err;
  pdiag (diag_emit_span DIAG_ERROR code (t_start t) (t_line t) (t_col t) (t_len t)
           ((code =? E2003) || (code =? E2004) || (code =? E2001))).

Definition eerr_got (code : Z) (t : Token) : PM unit :=
  do _ <- tok_text_extract t 64;
  do! modify add_err;
  pdiag (diag_emit_span DIAG_ERROR code (t_start t) (t_line t) (t_col t) (t_len t)
           ((code =? E2005) || (code =? E2002))).

Definition ewarn (code : Z) (t : Token) : PM unit :=
  pdiag (diag_emit DIAG_WARNING code (t_start t) (t_line t) (t_col t) true).

(** [p->errs++; diag_emit(...);] *)
Definition eerr_plain (code : Z) (t : Token) : PM unit :=
  do! modify add_err;
  pdiag (diag_emit DIAG_ERROR code (t_start t) (t_line t) (t_col t) true).

(** [diag_emit(...); p->errs++;] *)
Definition eerr_nospan (code : Z) (t : Token) : PM unit :=
  do! pdiag (diag_emit DIAG_ERROR code (t_start t) (t_line t) (t_col t) true);
  modify add_err.

(** ** Recovery *)

(** The tokens [sync] stops at without consuming them. *)
Definition SYNC_STOPS : list TokenKind :=
  [TK_KW_LET; TK_KW_IF; TK_KW_LP; TK_KW_RT; TK_KW_BR; TK_KW_SC; TK_KW_MT; TK_KW_F; TK_KW_T;
   TK_KW_I; TK_KW_M; TK_LT].

Definition sync : PM unit :=
  iter loop_fuel
    (fun _ =>
       do k <- peek;
       if tk_eqb k TK_EOF then ret (inr tt)
       else if tk_in k [TK_SEMICOLON; TK_RBRACE] then do _ <- adv; ret (inr tt)
       else if tk_in k SYNC_STOPS then ret (inr tt)
       else do _ <- adv; ret (inl tt)) tt.

Definition opt_semi : PM unit :=
  do semi <- next_is TK_SEMICOLON;
  if semi then do _ <- adv; ret tt
  else
    do stop <- next_in [TK_RBRACE; TK_EOF];
    if stop then ret tt
    else
      do t <- cur;
      do _ <- tok_text_extract t 64;
      do! modify add_err;
      pdiag (diag_emit_span DIAG_ERROR E2003 (t_start t) (t_line t) (t_col t) (t_len t) true).

Definition xp (k : TokenKind) : PM (option Token) :=
  do yes <- next_is k;
  if yes then do t <- adv; ret (Some t)
  else
    do t <- cur;
    do _ <- tok_text_extract t 64;
    do eof <- next_is TK_EOF;
    do! modify add_err;
    do! pdiag (diag_emit DIAG_ERROR (if eof then E2004 else E2002)
                 (t_start t) (t_line t) (t_col t) true);
    ret None.

(** [if(!xp(p,k,..)) fail; else k t] *)
Definition expect {A} (k : TokenKind) (fail : PM A) (cont : Token -> PM A) : PM A :=
  do t <- xp k;
  match t with None => fail | Some t => cont t end.

(** [{ sync(p); return n; }] *)
Definition sync_ret {A} (n : A) : PM A := do! sync; ret n.

(** [if(!xp(p,k,..)) eerr(p,E2004,cur(p),"unclosed delimiter");] *)
Definition close (k : TokenKind) : PM unit :=
  expect k (do t <- cur; eerr E2004 t) (fun _ => ret tt).

(** [if(peek(p)==TK_SEMICOLON) adv(p);] *)
Definition skip_semi : PM unit :=
  do semi <- next_is TK_SEMICOLON;
  when semi (do _ <- adv; ret tt).

(** [ch(p,n,m)] *)
Definition add (n : Node) (m : PM (option Node)) : PM Node := do c <- m; ret (ch n c).

(** [while(peek(p)==TK_SEMICOLON){adv(p);ch(p,n,item);}] *)
Definition semi_items (item : PM (option Node)) (n : Node) : PM Node :=
  iter loop_fuel
    (fun n =>
       do semi <- next_is TK_SEMICOLON;
       if semi then do _ <- adv; do n <- add n item; ret (inl n) else ret (inr n)) n.

(** The same, leaving when [stop] follows the separator. *)
Definition semi_items_until (stop : TokenKind) (item : PM (option Node)) (n : Node) : PM Node :=
  iter loop_fuel
    (fun n =>
       do semi <- next_is TK_SEMICOLON;
       if semi then
         do _ <- adv;
         do fin <- next_is stop;
         if fin then ret (inr n) else do n <- add n item; ret (inl n)
       else ret (inr n)) n.

(** ** Recursion

    The entry points that mutual recursion goes through; every call through the
    record comes after a token has been consumed. *)
Record Rec := mkRec {
  r_type_expr : PM (option Node);
  r_expr : PM (option Node);
  r_unary : PM (option Node);
  r_if_core : bool -> PM (option Node);
  r_stmt_list : Token -> PM Node
}.

Definition no_rec : Rec :=
  mkRec no_fuel no_fuel no_fuel (fun _ => no_fuel) (fun _ => no_fuel).

Context (rec : Rec).

(** ** Type expressions *)

Definition is_scalar (t : Token) : PM bool :=
  if tk_in (t_kind t) [TK_IDENT; TK_TYPE_IDENT] then
    (fix go l := match l with
                 | [] => ret false
                 | s :: l => do yes <- teq t s; if yes then ret true else go l
                 end) SCALARS
  else ret false.

Definition parse_func_type : PM (option Node) :=
  expect TK_LPAREN (ret None) (fun t =>
    let n := mk NODE_FUNC_TYPE t in
    do empty <- next_is TK_RPAREN;
    do n <- (if empty then ret n
             else do n <- add n (r_type_expr rec); semi_items (r_type_expr rec) n);
    do! close TK_RPAREN;
    do colon <- xp TK_COLON;
    do n <- match colon with Some _ => add n (r_type_expr rec) | None => ret n end;
    ret (Some n)).

(** [parse_type_expr]'s [@] case, after the token. *)
Definition parse_at_type (at_ : Token) : PM (option Node) :=
  do paren <- next_is TK_LPAREN;
  if paren then
    do _ <- adv;
    do first <- r_type_expr rec;
    do colon <- next_is TK_COLON;
    if colon then
      do _ <- adv;
      do n <- add (ch (mk NODE_MAP_TYPE at_) first) (r_type_expr rec);
      do! close TK_RPAREN;
      ret (Some n)
    else
      do! close TK_RPAREN;
      ret (Some (ch (mk NODE_ARRAY_TYPE at_) first))
  else
    do n <- add (mk NODE_ARRAY_TYPE at_) (r_type_expr rec);
    ret (Some n).

(** Its legacy [[]] case, at the bracket. *)
Definition parse_bracket_type (t : Token) : PM (option Node) :=
  do first <- r_type_expr rec;
  do colon <- next_is TK_COLON;
  if colon then
    do _ <- adv;
    do n <- add (ch (mk NODE_MAP_TYPE t) first) (r_type_expr rec);
    do! close TK_RBRACKET;
    ret (Some n)
  else
    do! close TK_RBRACKET;
    ret (Some (ch (mk NODE_ARRAY_TYPE t) first)).

Definition parse_type_expr : PM (option Node) :=
  do star <- next_is TK_STAR;
  if star then
    do t <- adv;
    do n <- add (mk NODE_PTR_TYPE t) (r_type_expr rec);
    ret (Some n)
  else
  do qual <- mand (next_is TK_IDENT) (mand (next_at_is 1 TK_DOT) (next_at_is 2 TK_DOLLAR));
  if qual then
    do _ <- adv; do _ <- adv; do _ <- adv;
    do nt <- cur;
    expect TK_IDENT (do! eerr E2002 nt; ret None)
      (fun _ => ret (Some (set_op TK_DOT (mk NODE_TYPE_IDENT nt))))
  else
  do dollar <- next_is TK_DOLLAR;
  if dollar then
    do dt <- adv;
    do nt <- cur;
    expect TK_IDENT (do! eerr E2002 dt; ret None)
      (fun _ => ret (Some (mk NODE_TYPE_IDENT nt)))
  else
  do at_ <- next_is TK_AT;
  if at_ then do at_ <- adv; parse_at_type at_
  else
  do bracket <- next_is TK_LBRACKET;
  if bracket then
    do t <- xp TK_LBRACKET;
    match t with Some t => parse_bracket_type t | None => oob end
  else
  do paren <- next_is TK_LPAREN;
  if paren then parse_func_type
  else
  do t <- cur;
  do scalar <- is_scalar t;
  if scalar then do _ <- adv; ret (Some (mk NODE_TYPE_EXPR t))
  else
  do ti <- next_is TK_TYPE_IDENT;
  if ti then do _ <- adv; ret (Some (mk NODE_TYPE_IDENT t))
  else do! eerr_got E2005 t; ret None.

(** ** String interpolation and literals *)

(** The scan for the parenthesis that closes a segment, from [j]: the offset it
    stops at and the depth there. *)
Definition seg_end (start j end_ : Z) : PM (Z * Z) :=
  do r <- iter (S (Z.to_nat end_))
    (fun st : Z * Z * bool =>
       let '(j, depth, instr) := st in
       if (j <? end_) && (0 <? depth) then
         do c <- rd src (start + j);
         if (c =? 92) && (j + 1 <? end_) then ret (inl (j + 2, depth, instr))
         else if (instr : bool) then ret (inl (j + 1, depth, negb (c =? 34)))
         else if c =? 34 then ret (inl (j + 1, depth, true))
         else if c =? chr "(" then ret (inl (j + 1, depth + 1, false))
         else if c =? chr ")" then
           if depth - 1 =? 0 then ret (inr (j, 0)) else ret (inl (j + 1, depth - 1, false))
         else ret (inl (j + 1, depth, false))
       else ret (inr (j, depth))) (j, 1, false);
  ret r.

(** The tokens of a wrapper, or nothing. *)
Definition lex_inner (wrap : list Z) (cap : Z) (d : Diags)
    : res (option (list Token) * Diags) :=
  match lex wrap (zlen wrap) cap PROFILE_DEFAULT d with
  | Ok (tc, l) =>
      Ok (if 0 <? tc then Some (take (Z.to_nat tc) (l_out l)) else None, l_diags l)
  | Oob => Oob
  | NoFuel => NoFuel
  end.

(** Lex and parse one segment with the diagnostics off, then switch them on. *)
Definition interp_expr
    (parse_ : list Token -> list Z -> Diags -> res (option Node * Diags)) (seg : list Z)
    : PM (option Node) :=
  fun p =>
    let wrap := interp_wrapper seg in
    match lex_inner wrap (zlen seg + 32) (diag_suppress true (p_diags p)) with
    | Oob => Oob
    | NoFuel => NoFuel
    | Ok (None, d) => Ok (None, set_diags (diag_suppress false d) p)
    | Ok (Some ts, d) =>
        match parse_ ts wrap d with
        | Oob => Oob
        | NoFuel => NoFuel
        | Ok (root, d) => Ok (interp_unwrap root, set_diags (diag_suppress false d) p)
        end
    end.

(** One step of the scan of a string literal [sn] for segments, at [i]. *)
Definition interp_step
    (parse_ : list Token -> list Z -> Diags -> res (option Node * Diags))
    (st : Z * Z * Node) : PM (Z * Z * Node + Node) :=
  let '(i, nseg, sn) := st in
  let start := n_tok_start sn in
  let rlen := n_tok_len sn in
  if (i + 1 <? rlen - 1) && (nseg <? INTERP_MAX_SEGS) then
    do c <- rd src (start + i);
    if negb (c =? 92) then ret (inl (i + 1, nseg, sn))
    else
    do c1 <- rd src (start + i + 1);
    if negb (c1 =? chr "(") then ret (inl (i + 2, nseg, sn))
    else
    do ' (j, depth) <- seg_end start (i + 2) (rlen - 1);
    if negb (depth =? 0) then ret (inr sn)
    else
    let elen := j - (i + 2) in
    if elen <=? 0 then ret (inl (j + 1, nseg, sn))
    else
    do seg <- src_range (start + i + 2) elen;
    do e <- interp_expr parse_ seg;
    match e with
    | Some e =>
        let e := interp_reloc (start + i + 2 - INTERP_WRAP_LEN) (n_line sn) start (n_col sn) e in
        ret (inl (j + 1, nseg + 1, ch sn (Some e)))
    | None => ret (inl (j + 1, nseg, sn))
    end
  else ret (inr sn).

Definition attach_interp (sn : Node) : PM Node :=
  match inner with
  | Some parse_ =>
      if bool_decide (profile = PROFILE_DEFAULT) then
        iter (S (Z.to_nat (n_tok_len sn))) (interp_step parse_) (1, 0, sn)
      else ret sn
  | None => ret sn
  end.

Definition lit_kind (k : TokenKind) : option NodeKind :=
  match k with
  | TK_INT_LIT => Some NODE_INT_LIT
  | TK_FLOAT_LIT => Some NODE_FLOAT_LIT
  | TK_STR_LIT => Some NODE_STR_LIT
  | TK_BOOL_LIT => Some NODE_BOOL_LIT
  | _ => None
  end.

Definition parse_literal : PM (option Node) :=
  do t <- cur;
  do k <- peek;
  match lit_kind k with
  | None => do! eerr_got E2002 t; ret None
  | Some k =>
      do _ <- adv;
      let n := mk k t in
      if bool_decide (k = NODE_STR_LIT) then do n <- attach_interp n; ret (Some n)
      else ret (Some n)
  end.

(** ** Primary expressions *)

Definition parse_one_param (fn : Node) : PM Node :=
  do pt <- cur;
  expect TK_IDENT (ret fn) (fun _ =>
    let pm := ch (mk NODE_PARAM pt) (Some (mk NODE_IDENT pt)) in
    do colon <- xp TK_COLON;
    do pm <- match colon with Some _ => add pm parse_type_expr | None => ret pm end;
    ret (ch fn (Some pm))).

(** [p->pos+off<p->n&&p->toks[p->pos+off].kind==k] *)
Definition here_is (off : Z) (k : TokenKind) : PM bool :=
  do p <- get;
  if p_pos p + off <? n_toks then do t <- tok_at (p_pos p + off); ret (tk_eqb (t_kind t) k)
  else ret false.

Definition here_is_not (off : Z) (k : TokenKind) : PM bool :=
  do p <- get;
  if p_pos p + off <? n_toks then
    do t <- tok_at (p_pos p + off); ret (negb (tk_eqb (t_kind t) k))
  else ret false.

(** The parameter list, up to the closing parenthesis. *)
Definition parse_params (fn : Node) : PM Node :=
  do empty <- next_is TK_RPAREN;
  if empty then ret fn
  else
    do fn <- parse_one_param fn;
    iter loop_fuel
      (fun fn =>
         do more <- mand (next_is TK_SEMICOLON) (here_is_not 1 TK_RPAREN);
         if more then do _ <- adv; do fn <- parse_one_param fn; ret (inl fn)
         else ret (inr fn)) fn.

(** [ReturnSpec], at its first token. *)
Definition parse_return_spec : PM Node :=
  do rs <- cur;
  do rspec <- add (mk NODE_RETURN_SPEC rs) parse_type_expr;
  do bang <- next_is TK_BANG;
  if bang then do _ <- adv; add rspec parse_type_expr else ret rspec.

(** [&name] and [&alias.method], at the ampersand. *)
Definition parse_func_ref : PM (option Node) :=
  do _ <- adv;
  do nt <- cur;
  do _ <- adv;
  let ref := mk NODE_FUNC_REF nt in
  do qual <- mand (next_is TK_DOT) (next_at_is 1 TK_IDENT);
  if qual then
    do _ <- adv;
    do mt2 <- cur;
    do _ <- adv;
    ret (Some (ch ref (Some (mk NODE_IDENT mt2))))
  else ret (Some ref).

(** [fn(params):ret{body}], at [fn]. *)
Definition parse_closure : PM (option Node) :=
  do ft <- adv;
  let n := mk NODE_CLOSURE ft in
  do _ <- xp TK_LPAREN;
  do n <- parse_params n;
  do! close TK_RPAREN;
  do colon <- next_is TK_COLON;
  do n <- (if colon then do _ <- adv; do rspec <- parse_return_spec; ret (ch n (Some rspec))
           else ret n);
  expect TK_LBRACE (sync_ret (Some n)) (fun _ =>
    do body <- r_stmt_list rec ft;
    do! close TK_RBRACE;
    ret (Some (ch n (Some body)))).

(** [FieldInit (';' FieldInit)*] of a struct literal; [variant] allows [$name]. *)
Definition parse_field_inits (variant : bool) (n : Node) : PM Node :=
  iter loop_fuel
    (fun n =>
       do fin <- next_in [TK_RBRACE; TK_EOF];
       if fin then ret (inr n)
       else
       do ft <- cur;
       do dollar <- (if variant then next_is TK_DOLLAR else ret false);
       do ft <- (if dollar then do _ <- adv; cur else ret ft);
       do name <- next_in [TK_IDENT; TK_TYPE_IDENT];
       if name then
         do _ <- adv;
         let fi := mk NODE_FIELD_INIT ft in
         expect TK_COLON (sync_ret (inr n)) (fun _ =>
           do fi <- add fi (r_expr rec);
           let n := ch n (Some fi) in
           do semi <- next_is TK_SEMICOLON;
           if semi then do _ <- adv; ret (inl n) else ret (inr n))
       else
         do _ <- xp TK_IDENT; sync_ret (inr n)) n.

(** The braces of a struct literal. *)
Definition parse_struct_lit (variant : bool) (t : Token) : PM (option Node) :=
  let n := mk NODE_STRUCT_LIT t in
  do _ <- xp TK_LBRACE;
  do n <- parse_field_inits variant n;
  do! close TK_RBRACE;
  ret (Some n).

(** The entries after the first of a map literal closed by [stop]. *)
Definition parse_map_entries (stop : TokenKind) (n : Node) : PM Node :=
  iter loop_fuel
    (fun n =>
       do semi <- next_is TK_SEMICOLON;
       if semi then
         do _ <- adv;
         do fin <- next_is stop;
         if fin then ret (inr n)
         else
           do et <- cur;
           do e2 <- add (mk NODE_MAP_ENTRY et) (r_expr rec);
           expect TK_COLON (ret (inr n)) (fun _ =>
             do e2 <- add e2 (r_expr rec);
             ret (inl (ch n (Some e2))))
       else ret (inr n)) n.

(** A map literal after its first key, at the colon. *)
Definition parse_map_lit (stop : TokenKind) (t : Token) (first : option Node)
    : PM (option Node) :=
  do _ <- adv;
  do entry <- add (ch (mk NODE_MAP_ENTRY t) first) (r_expr rec);
  do n <- parse_map_entries stop (ch (mk NODE_MAP_LIT t) (Some entry));
  do! close stop;
  ret (Some n).

(** [@(...)], at the token. *)
Definition parse_at_lit : PM (option Node) :=
  do at_ <- adv;
  expect TK_LPAREN (ret None) (fun _ =>
    do empty <- next_is TK_RPAREN;
    if empty then do _ <- adv; ret (Some (mk NODE_ARRAY_LIT at_))
    else
    do first <- r_expr rec;
    do colon <- next_is TK_COLON;
    if colon then parse_map_lit TK_RPAREN at_ first
    else
      do n <- semi_items_until TK_RPAREN (r_expr rec) (ch (mk NODE_ARRAY_LIT at_) first);
      do! close TK_RPAREN;
      ret (Some n)).

(** Legacy [[...]], at the bracket. *)
Definition parse_bracket_lit : PM (option Node) :=
  do lt <- xp TK_LBRACKET;
  match lt with
  | None => oob
  | Some lt =>
      do empty <- next_is TK_RBRACKET;
      if empty then do _ <- adv; ret (Some (mk NODE_ARRAY_LIT lt))
      else
      do first <- r_expr rec;
      do colon <- next_is TK_COLON;
      if colon then parse_map_lit TK_RBRACKET lt first
      else
        do n <- semi_items (r_expr rec) (ch (mk NODE_ARRAY_LIT lt) first);
        do! close TK_RBRACKET;
        ret (Some n)
  end.

(** [spawn expr], at [spawn]. *)
Definition parse_spawn : PM Node :=
  do st <- cur;
  do _ <- adv;
  add (mk NODE_SPAWN_EXPR st) (r_expr rec).

(** [p->in_sc&&peek(p)==TK_IDENT&&teq(p,cur(p),"spawn")] *)
Definition at_spawn : PM bool :=
  do p <- get;
  if p_in_sc p then
    mand (next_is TK_IDENT) (do t <- cur; teq t (bytes_of "spawn"))
  else ret false.

Definition parse_primary : PM (option Node) :=
  do t <- cur;
  do amp <- mand (next_is TK_AMP) (next_at_is 1 TK_IDENT);
  if amp then parse_func_ref
  else
  do fn <- mand (next_is TK_IDENT)
             (mand (next_at_is 1 TK_LPAREN) (do t <- cur; teq t (bytes_of "fn")));
  if fn then parse_closure
  else
  do spawn <- at_spawn;
  if spawn then do sp <- parse_spawn; ret (Some sp)
  else
  do ident <- next_is TK_IDENT;
  if ident then do _ <- adv; ret (Some (mk NODE_IDENT t))
  else
  do tident <- next_is TK_TYPE_IDENT;
  if tident then
    do _ <- adv;
    do brace <- next_is TK_LBRACE;
    if brace then parse_struct_lit false t else ret (Some (mk NODE_TYPE_IDENT t))
  else
  do dollar <- next_is TK_DOLLAR;
  if dollar then
    do _ <- adv;
    do nt <- cur;
    do ident <- next_is TK_IDENT;
    if ident then
      do _ <- adv;
      do brace <- next_is TK_LBRACE;
      if brace then parse_struct_lit true nt else ret (Some (mk NODE_TYPE_IDENT nt))
    else do! eerr E2002 nt; ret None
  else
  do at_ <- next_is TK_AT;
  if at_ then parse_at_lit
  else
  do paren <- next_is TK_LPAREN;
  if paren then do _ <- adv; do e <- r_expr rec; do! close TK_RPAREN; ret e
  else
  do bracket <- next_is TK_LBRACKET;
  if bracket then parse_bracket_lit
  else parse_literal.

(** ** Postfix expressions *)

Definition parse_get_postfix (base : Node) (d f : Token) : PM Node :=
  do _ <- adv;
  do _ <- adv;
  do empty <- next_is TK_RPAREN;
  do first <- (if empty then ret None else r_expr rec);
  do single <- match first with Some _ => next_is TK_RPAREN | None => ret false end;
  if single then
    do _ <- adv;
    ret (ch (ch (mk NODE_INDEX_EXPR d) (Some base)) first)
  else
    let fld := ch (ch (mk NODE_FIELD_EXPR d) (Some base)) (Some (mk NODE_IDENT f)) in
    let call := ch (ch (mk NODE_CALL_EXPR f) (Some fld)) first in
    do call <- semi_items (r_expr rec) call;
    do! close TK_RPAREN;
    ret call.

(** The [.] case of [parse_postfix] and [parse_call]. *)
Definition parse_dot (l : Node) : PM (Node + Node) :=
  do d <- adv;
  do f <- cur;
  do get_ <- mand (next_is TK_IDENT)
               (mand (teq f (bytes_of "get")) (next_at_is 1 TK_LPAREN));
  if get_ then do n <- parse_get_postfix l d f; ret (inl n)
  else
  do int <- next_is TK_INT_LIT;
  if int then
    do _ <- adv;
    ret (inl (ch (ch (mk NODE_INDEX_EXPR d) (Some l)) (Some (mk NODE_INT_LIT f))))
  else
    expect TK_IDENT (ret (inr l)) (fun _ =>
      ret (inl (ch (ch (mk NODE_FIELD_EXPR d) (Some l)) (Some (mk NODE_IDENT f))))).

(** Their [[] case. *)
Definition parse_index (l : Node) : PM (Node + Node) :=
  do d <- adv;
  do n <- add (ch (mk NODE_INDEX_EXPR d) (Some l)) (r_expr rec);
  do! close TK_RBRACKET;
  ret (inl n).

Definition parse_postfix : PM (option Node) :=
  do l <- parse_primary;
  match l with
  | None => ret None
  | Some l =>
      do l <- iter loop_fuel
        (fun l =>
           do dot <- next_is TK_DOT;
           if dot then parse_dot l
           else
           do bracket <- next_is TK_LBRACKET;
           if bracket then parse_index l else ret (inr l)) l;
      ret (Some l)
  end.

(** The [(] case of [parse_call]. *)
Definition parse_args (l : Node) : PM (Node + Node) :=
  do op <- adv;
  let c := ch (mk NODE_CALL_EXPR op) (Some l) in
  do empty <- next_is TK_RPAREN;
  do c <- (if empty then ret c else do c <- add c (r_expr rec); semi_items (r_expr rec) c);
  do! close TK_RPAREN;
  ret (inl c).

Definition parse_call : PM (option Node) :=
  do l <- parse_postfix;
  match l with
  | None => ret None
  | Some l =>
      do l <- iter loop_fuel
        (fun l =>
           do tk <- peek;
           if tk_eqb tk TK_LPAREN then parse_args l
           else if tk_eqb tk TK_DOT then parse_dot l
           else if tk_eqb tk TK_LBRACKET then parse_index l
           else ret (inr l)) l;
      ret (Some l)
  end.

Definition parse_cast_prop : PM (option Node) :=
  do l <- parse_call;
  match l with
  | None => ret None
  | Some l =>
      do as_ <- next_is TK_KW_AS;
      do l <- (if as_ then do t <- adv; add (ch (mk NODE_CAST_EXPR t) (Some l)) parse_type_expr
               else ret l);
      do bang <- next_is TK_BANG;
      do l <- (if bang then
                 do t <- adv; add (ch (mk NODE_PROPAGATE_EXPR t) (Some l)) parse_type_expr
               else ret l);
      ret (Some l)
  end.

Definition is_struct_lit (n : option Node) : bool :=
  match n with Some n => has_kind NODE_STRUCT_LIT n | None => false end.

Definition parse_unary : PM (option Node) :=
  do pre <- next_in [TK_MINUS; TK_BANG; TK_TILDE];
  if pre then
    do t <- cur;
    do t' <- adv;
    let op := t_kind t' in
    let n := set_op op (mk NODE_UNARY_EXPR t) in
    do operand <- r_unary rec;
    do! when (tk_eqb op TK_BANG && is_struct_lit operand)
          (eerr_plain E2002 t);
    ret (Some (ch n operand))
  else parse_cast_prop.

(** ** Binary operators *)

(** The node of [l op right]. *)
Definition parse_right (op : TokenKind) (t : Token) (l : Node) (right : PM (option Node))
    : PM Node :=
  add (ch (set_op op (mk NODE_BINARY_EXPR t)) (Some l)) right.

(** One left-associative level of the precedence chain. *)
Definition left_assoc (ops : list TokenKind) (next : PM (option Node)) : PM (option Node) :=
  do l <- next;
  match l with
  | None => ret None
  | Some l =>
      do l <- iter loop_fuel
        (fun l =>
           do more <- next_in ops;
           if more then
             do t <- cur;
             do t' <- adv;
             do n <- parse_right (t_kind t') t l next;
             ret (inl n)
           else ret (inr l)) l;
      ret (Some l)
  end.

Definition parse_mul : PM (option Node) :=
  left_assoc [TK_STAR; TK_SLASH; TK_PERCENT] parse_unary.
Definition parse_add : PM (option Node) := left_assoc [TK_PLUS; TK_MINUS] parse_mul.
Definition parse_shift : PM (option Node) := left_assoc [TK_SHL; TK_SHR] parse_add.

Definition parse_compare : PM (option Node) :=
  do l <- parse_shift;
  match l with
  | None => ret None
  | Some l =>
      do cmp <- next_in [TK_LT; TK_GT; TK_EQEQ; TK_LE; TK_GE; TK_NE];
      if cmp then
        do t <- cur;
        do t' <- adv;
        let op := if tk_eqb (t_kind t') TK_EQEQ then TK_EQ else t_kind t' in
        do n <- parse_right op t l parse_shift;
        ret (Some n)
      else
      do eq <- next_is TK_EQ;
      if eq then
        do t <- cur;
        do! eerr E2002 t;
        do t <- adv;
        do n <- parse_right TK_EQ t l parse_shift;
        ret (Some n)
      else ret (Some l)
  end.

Definition parse_bitand : PM (option Node) := left_assoc [TK_AMP] parse_compare.
Definition parse_bitxor : PM (option Node) := left_assoc [TK_CARET] parse_bitand.
Definition parse_bitor : PM (option Node) := left_assoc [TK_PIPE] parse_bitxor.
Definition parse_and : PM (option Node) := left_assoc [TK_AND] parse_bitor.
Definition parse_or : PM (option Node) := left_assoc [TK_OR] parse_and.

(** ** Match, [if] and loops *)

(** [if(val) ch(p,n,val); else { sync(p); return n; }], then [k]. *)
Definition value_or_sync (n : Node) (m : PM (option Node)) (k : Node -> PM (option Node))
    : PM (option Node) :=
  do val <- m;
  match val with
  | Some _ => k (ch n val)
  | None => sync_ret (Some n)
  end.

(** The recursive entry point of [parse_expr]. *)
Abbreviation expr := (r_expr rec).

Definition parse_match_arm_body : PM (option Node) :=
  do lt <- next_is TK_LT;
  if lt then
    do t <- cur;
    do _ <- adv;
    let n := mk NODE_RETURN_STMT t in
    do fin <- next_in [TK_SEMICOLON; TK_RBRACE; TK_EOF];
    if fin then ret (Some n)
    else value_or_sync n expr (fun n => ret (Some n))
  else expr.

(** The binding and the body of an arm, at the colon. *)
Definition parse_arm_rest (arm : Node) : PM (option Node) :=
  expect TK_COLON (sync_ret (Some arm)) (fun _ =>
    do bt <- cur;
    expect TK_IDENT (sync_ret (Some arm)) (fun _ =>
      do arm <- add (ch arm (Some (mk NODE_IDENT bt))) parse_match_arm_body;
      ret (Some arm))).

Definition parse_match_arm : PM (option Node) :=
  do pt <- cur;
  do dollar <- next_is TK_DOLLAR;
  if dollar then
    do _ <- adv;
    do nt <- cur;
    expect TK_IDENT (ret None) (fun _ =>
      parse_arm_rest (ch (mk NODE_MATCH_ARM pt) (Some (mk NODE_TYPE_IDENT nt))))
  else
  do name <- next_in [TK_TYPE_IDENT; TK_IDENT];
  if name then
    do _ <- adv;
    parse_arm_rest (ch (mk NODE_MATCH_ARM pt) (Some (mk NODE_TYPE_IDENT pt)))
  else do _ <- xp TK_TYPE_IDENT; ret None.

(** The [{ arms }] of a match. *)
Definition parse_match (t : Token) : PM (option Node) :=
  do n <- add (mk NODE_MATCH_STMT t) parse_or;
  expect TK_LBRACE (sync_ret (Some n)) (fun _ =>
    do n <- add n parse_match_arm;
    do n <- semi_items_until TK_RBRACE parse_match_arm n;
    do! close TK_RBRACE;
    ret (Some n)).

(** A Python-style [:] before a block is skipped with a warning. *)
Definition python_colon : PM unit :=
  do colon <- next_is TK_COLON;
  when colon (do t <- cur; do! ewarn W2021 t; do _ <- adv; ret tt).

(** [else] part of [parse_if_core], after [el]. *)
Definition parse_else (expr_form : bool) (t : Token) (n : Node) : PM (option Node) :=
  do if_ <- next_is TK_KW_IF;
  if if_ then do n <- add n (r_if_core rec expr_form); ret (Some n)
  else
  expect TK_LBRACE (sync_ret (Some n)) (fun _ =>
    do body <- r_stmt_list rec t;
    do! close TK_RBRACE;
    do! when (negb expr_form) skip_semi;
    ret (Some (ch n (Some body)))).

Definition parse_if_core (expr_form : bool) : PM (option Node) :=
  expect TK_KW_IF (ret None) (fun t =>
    let n := mk NODE_IF_STMT t in
    expect TK_LPAREN (sync_ret (Some n)) (fun _ =>
      do n <- add n expr;
      do! close TK_RPAREN;
      do! python_colon;
      expect TK_LBRACE (sync_ret (Some n)) (fun _ =>
        do body <- r_stmt_list rec t;
        let n := ch n (Some body) in
        do! close TK_RBRACE;
        do el <- next_is TK_KW_EL;
        if el then do _ <- adv; parse_else expr_form t n
        else
          do! (if expr_form then do t <- cur; eerr_got E2002 t else skip_semi);
          ret (Some n)))).

Definition parse_if_stmt : PM (option Node) := parse_if_core false.
Definition parse_if_expr : PM (option Node) := parse_if_core true.

Definition parse_expr : PM (option Node) :=
  do if_ <- next_is TK_KW_IF;
  if if_ then parse_if_expr
  else
  do mt <- next_is TK_KW_MT;
  if mt then do t <- adv; parse_match t
  else
  do l <- parse_or;
  do old <- mand (next_is TK_PIPE) (next_at_is 1 TK_LBRACE);
  do! when old (do t <- cur; do! eerr_got E2002 t; sync);
  ret l.

(** The three-clause header of a loop up to its closing parenthesis, for the
    loop node [n]; [None]: recovery has taken place and the loop is returned as
    it is. *)
Definition parse_loop_clauses (n : Node) : PM (Node * bool) :=
  let fail n := sync_ret (n, false) in
  do it <- cur;
  do let_ <- next_is TK_KW_LET;
  do ini <- (if let_ then do _ <- adv; ret (set_op TK_KW_LET (mk NODE_LOOP_INIT it))
             else ret (mk NODE_LOOP_INIT it));
  do nt <- cur;
  do id <- xp TK_IDENT;
  let ini := match id with Some _ => ch ini (Some (mk NODE_IDENT nt)) | None => ini end in
  expect TK_EQ (fail n) (fun _ =>
    do ini <- add ini parse_expr;
    let n := ch n (Some ini) in
    expect TK_SEMICOLON (fail n) (fun _ =>
      do n <- add n parse_expr;
      expect TK_SEMICOLON (fail n) (fun _ =>
        do st <- cur;
        expect TK_IDENT (fail n) (fun _ =>
          let step := ch (mk NODE_ASSIGN_STMT st) (Some (mk NODE_IDENT st)) in
          expect TK_EQ (fail n) (fun _ =>
            do step <- add step parse_expr;
            do! close TK_RPAREN;
            ret (ch n (Some step), true)))))).

Definition is_three_clause : PM bool :=
  mor (mand (next_is TK_KW_LET) (mand (next_at_is 1 TK_IDENT) (next_at_is 2 TK_EQ)))
      (mand (next_is TK_IDENT) (next_at_is 1 TK_EQ)).

Definition parse_loop_stmt : PM (option Node) :=
  expect TK_KW_LP (ret None) (fun t =>
    let n := mk NODE_LOOP_STMT t in
    expect TK_LPAREN (sync_ret (Some n)) (fun _ =>
      do three <- is_three_clause;
      do ' (n, go) <- (if three then parse_loop_clauses n
                       else do n <- add n parse_expr; do! close TK_RPAREN; ret (n, true));
      if negb go then ret (Some n)
      else
      do! python_colon;
      expect TK_LBRACE (sync_ret (Some n)) (fun _ =>
        do body <- r_stmt_list rec t;
        do! close TK_RBRACE;
        do! skip_semi;
        ret (Some (ch n (Some body)))))).

(** ** Statements *)

(** [text] starts with the keyword [kw], followed by a lower-case letter. *)
Definition kw_prefixed (text kw : list Z) : bool :=
  (zlen kw <? zlen text) && bytes_eqb (slice text 0 (zlen kw)) kw &&
  (let c := byte_at text (zlen kw) in (chr "a" <=? c) && (c <=? chr "z")).

Definition check_stmt_keyword_prefix (t : Token) : PM unit :=
  do text <- src_range (t_start t) (t_len t);
  when (existsb (kw_prefixed text) STMT_KW_PREFIXES) (ewarn W2020 t).

(** What may follow a [mut] that lacks its dot. *)
Definition MUT_STARTS : list TokenKind :=
  [TK_INT_LIT; TK_FLOAT_LIT; TK_STR_LIT; TK_IDENT; TK_BOOL_LIT; TK_LPAREN; TK_LBRACKET].

(** The dot of [mut.]; [false]: it is missing and recovery has taken place. *)
Definition parse_mut_dot : PM bool :=
  do _ <- adv;
  do dot <- next_is TK_DOT;
  if dot then do _ <- adv; ret true
  else
  do starts <- next_in MUT_STARTS;
  if starts then do t <- cur; do! ewarn W2022 t; ret true
  else expect TK_DOT (sync_ret false) (fun _ => ret true).

(** The value of a binding, and its end. *)
Definition parse_bind_value (n : Node) : PM (option Node) :=
  do spawn <- at_spawn;
  if spawn then
    do sp <- parse_spawn;
    do! opt_semi;
    ret (Some (ch n (Some sp)))
  else value_or_sync n parse_expr (fun n => do! opt_semi; ret (Some n)).

(** A binding, after its name [nt]. *)
Definition parse_bind_rest (t nt : Token) : PM (option Node) :=
  do colon <- next_is TK_COLON;
  do ann <- (if colon then do _ <- adv; parse_type_expr else ret None);
  expect TK_EQ (sync_ret None) (fun _ =>
    do mut <- next_is TK_KW_MUT;
    let n := ch (mk (if mut then NODE_MUT_BIND_STMT else NODE_BIND_STMT) t)
               (Some (mk NODE_IDENT nt)) in
    let n := ch n ann in
    do ok <- (if mut then parse_mut_dot else ret true);
    if ok then parse_bind_value n else ret (Some n)).

Definition parse_bind (t : Token) : PM (option Node) :=
  do _ <- adv;
  do nt <- cur;
  do rust <- mand (next_is TK_KW_MUT) (next_at_is 1 TK_IDENT);
  do nt <- (if rust then do! ewarn W2021 nt; do _ <- adv; cur else ret nt);
  do lit <- next_is TK_BOOL_LIT;
  if lit then do! eerr 1010 nt; sync_ret None
  else expect TK_IDENT (sync_ret None) (fun _ => parse_bind_rest t nt).

Definition parse_return (t : Token) : PM (option Node) :=
  do _ <- adv;
  let n := mk NODE_RETURN_STMT t in
  do fin <- next_in [TK_SEMICOLON; TK_RBRACE; TK_EOF];
  if fin then do! opt_semi; ret (Some n)
  else value_or_sync n parse_expr (fun n => do! opt_semi; ret (Some n)).

(** [int prev_sc=p->in_sc; p->in_sc=1; ...; p->in_sc=prev_sc;] *)
Definition in_scope {A} (m : PM A) : PM A :=
  do prev_sc <- gets p_in_sc;
  do! modify (set_in_sc true);
  do a <- m;
  do! modify (set_in_sc prev_sc);
  ret a.

Definition parse_scope (t : Token) : PM (option Node) :=
  do _ <- adv;
  expect TK_LBRACE (sync_ret None) (fun _ =>
    do body <- in_scope (r_stmt_list rec t);
    do! close TK_RBRACE;
    do! opt_semi;
    ret (Some (ch (mk NODE_SCOPE_STMT t) (Some body)))).

(** [p->pos+1<p->n&&p->toks[p->pos+1].kind==TK_IDENT&&teq(p,&p->toks[p->pos+1],"arena")] *)
Definition at_arena : PM bool :=
  mand (here_is 1 TK_IDENT)
    (do p <- get; do t1 <- tok_at (p_pos p + 1); teq t1 (bytes_of "arena")).

(** [{arena ...}] *)
Definition parse_arena (t : Token) : PM (option Node) :=
  do arena <- at_arena;
  if arena then
    do _ <- adv;
    do _ <- adv;
    do body <- r_stmt_list rec t;
    do! close TK_RBRACE;
    ret (Some (ch (mk NODE_ARENA_STMT t) (Some body)))
  else do! eerr_got E2002 t; sync_ret None.

Definition parse_expr_stmt (t : Token) : PM (option Node) :=
  value_or_sync (mk NODE_EXPR_STMT t) parse_expr (fun n => do! opt_semi; ret (Some n)).

(** A statement that starts with an identifier. *)
Definition parse_ident_stmt (t : Token) : PM (option Node) :=
  do! check_stmt_keyword_prefix t;
  do assign <- here_is 1 TK_EQ;
  if assign then
    do _ <- adv;
    do _ <- adv;
    value_or_sync (ch (mk NODE_ASSIGN_STMT t) (Some (mk NODE_IDENT t))) parse_expr
      (fun n => do! opt_semi; ret (Some n))
  else parse_expr_stmt t.

Definition parse_stmt : PM (option Node) :=
  do t <- cur;
  do k <- peek;
  match k with
  | TK_KW_LET => parse_bind t
  | TK_KW_BR => do _ <- adv; do! opt_semi; ret (Some (mk NODE_BREAK_STMT t))
  | TK_KW_RT | TK_LT => parse_return t
  | TK_KW_SC => parse_scope t
  | TK_KW_IF => parse_if_stmt
  | TK_KW_LP => parse_loop_stmt
  | TK_LBRACE => parse_arena t
  | TK_IDENT => parse_ident_stmt t
  | _ => parse_expr_stmt t
  end.

Definition parse_stmt_list (ref : Token) : PM Node :=
  iter loop_fuel
    (fun n =>
       do fin <- next_in [TK_RBRACE; TK_EOF];
       if fin then ret (inr n)
       else
       do p <- get;
       if MAX_PARSE_ERRORS <=? p_errs p then ret (inr n)
       else
         let sv := p_pos p in
         do s <- parse_stmt;
         do p <- get;
         do! when (p_pos p =? sv) sync;
         ret (inl (ch n s))) (mk NODE_STMT_LIST ref).

(** The record that ties one more level of recursion. *)
Definition next_rec : Rec :=
  mkRec parse_type_expr parse_expr parse_unary parse_if_core parse_stmt_list.

(** ** Declarations *)

Definition xp_seg : PM (option Token) :=
  do seg <- next_in [TK_IDENT; TK_TYPE_IDENT];
  if seg then do t <- adv; ret (Some t)
  else
    do eof <- next_is TK_EOF;
    do t <- cur;
    do! eerr_got (if eof then E2004 else E2002) t;
    ret None.

Definition parse_module_path : PM (option Node) :=
  do t <- cur;
  do seg <- xp_seg;
  match seg with
  | None => ret None
  | Some _ =>
      do n <- iter loop_fuel
        (fun n =>
           do dot <- next_is TK_DOT;
           if dot then
             do _ <- adv;
             do s <- cur;
             do seg <- xp_seg;
             match seg with
             | None => ret (inr n)
             | Some _ => ret (inl (ch n (Some (mk NODE_IDENT s))))
             end
           else ret (inr n)) (ch (mk NODE_MODULE_PATH t) (Some (mk NODE_IDENT t)));
      ret (Some n)
  end.

(** The declarations after their keyword [t], which [parse] consumes itself when
    it is a lower-case letter. *)

Definition module_rest (t : Token) : PM Node :=
  let n := mk NODE_MODULE t in
  expect TK_EQ (sync_ret n) (fun _ =>
    do n <- add n parse_module_path;
    do! opt_semi;
    ret n).

Definition import_rest (t : Token) : PM Node :=
  let n := mk NODE_IMPORT t in
  expect TK_EQ (sync_ret n) (fun _ =>
    do at_ <- cur;
    expect TK_IDENT (sync_ret n) (fun _ =>
      let n := ch n (Some (mk NODE_IDENT at_)) in
      expect TK_COLON (sync_ret n) (fun _ =>
        do n <- add n parse_module_path;
        do version <- next_is TK_STR_LIT;
        do n <- (if version then
                   do vt <- cur; do _ <- adv; ret (ch n (Some (mk NODE_STR_LIT vt)))
                 else ret n);
        do! opt_semi;
        ret n))).

(** The duplicate test of [parse_field_list]. *)
Fixpoint seen_field (seen : list (Z * Z)) (ft : Token) : PM bool :=
  match seen with
  | [] => ret false
  | (s, l) :: seen =>
      if l =? t_len ft then
        do a <- src_range s l;
        do b <- src_range (t_start ft) (t_len ft);
        if bytes_eqb a b then ret true else seen_field seen ft
      else seen_field seen ft
  end.

Definition SEEN_MAX : Z := 64.

(** One turn of [parse_field_list]'s [do] loop. *)
Definition parse_field (st : Node * list (Z * Z)) : PM (Node * list (Z * Z) + Node) :=
  let '(n, seen) := st in
  do ft <- cur;
  do is_variant <- next_is TK_DOLLAR;
  do ft <- (if is_variant then do _ <- adv; cur else ret ft);
  do name <- next_in [TK_IDENT; TK_TYPE_IDENT];
  if negb name then do! eerr_got E2002 ft; ret (inr n)
  else
  do dup <- seen_field seen ft;
  do! when dup (eerr E2015 ft);
  let seen := if zlen seen <? SEEN_MAX then seen ++ [(t_start ft, t_len ft)] else seen in
  do _ <- adv;
  let f := mk NODE_FIELD ft in
  let f := if is_variant then set_op TK_DOLLAR f else f in
  expect TK_COLON (sync_ret (inr n)) (fun _ =>
    do f <- add f parse_type_expr;
    let n := ch n (Some f) in
    do semi <- next_is TK_SEMICOLON;
    if negb semi then ret (inr n)
    else
    do last <- here_is 1 TK_RBRACE;
    if last then ret (inr n)
    else
    do _ <- adv;
    do fin <- next_in [TK_RBRACE; TK_EOF];
    ret (if fin then inr n else inl (n, seen))).

Definition parse_field_list : PM Node :=
  do t <- cur;
  iter loop_fuel parse_field (mk NODE_STMT_LIST t, []).

(** The body of a type declaration, after its name. *)
Definition type_body (n : Node) : PM Node :=
  expect TK_LBRACE (sync_ret n) (fun _ =>
    do fields <- parse_field_list;
    do! close TK_RBRACE;
    do! opt_semi;
    ret (ch n (Some fields))).

Definition parse_type_decl : PM (option Node) :=
  expect TK_KW_T (ret None) (fun t =>
    let n := mk NODE_TYPE_DECL t in
    expect TK_EQ (sync_ret (Some n)) (fun _ =>
      do nt <- cur;
      expect TK_TYPE_IDENT (sync_ret (Some n)) (fun _ =>
        do n <- type_body (ch n (Some (mk NODE_TYPE_IDENT nt)));
        ret (Some n)))).

(** [t=], after the letter. *)
Definition lower_type_decl (t : Token) : PM Node :=
  let n := mk NODE_TYPE_DECL t in
  expect TK_EQ (sync_ret n) (fun _ =>
    do nt <- cur;
    do dollar <- next_is TK_DOLLAR;
    if dollar then
      do _ <- adv;
      do nt <- cur;
      expect TK_IDENT (sync_ret n) (fun _ => type_body (ch n (Some (mk NODE_TYPE_IDENT nt))))
    else
    do name <- next_in [TK_IDENT; TK_TYPE_IDENT];
    if name then do _ <- adv; type_body (ch n (Some (mk NODE_TYPE_IDENT nt)))
    else do _ <- xp TK_IDENT; sync_ret n).

Definition parse_const_decl : PM (option Node) :=
  do nt <- cur;
  expect TK_IDENT (ret None) (fun _ =>
    let n := ch (mk NODE_CONST_DECL nt) (Some (mk NODE_IDENT nt)) in
    expect TK_EQ (sync_ret (Some n)) (fun _ =>
      do n <- add n parse_literal;
      expect TK_COLON (sync_ret (Some n)) (fun _ =>
        do n <- add n parse_type_expr;
        do! opt_semi;
        ret (Some n)))).

Definition func_rest (t : Token) : PM Node :=
  let n := mk NODE_FUNC_DECL t in
  expect TK_EQ (sync_ret n) (fun _ =>
    do nt <- cur;
    expect TK_IDENT (sync_ret n) (fun _ =>
      let n := ch n (Some (mk NODE_IDENT nt)) in
      expect TK_LPAREN (sync_ret n) (fun _ =>
        do n <- parse_params n;
        do! close TK_RPAREN;
        expect TK_COLON (sync_ret n) (fun _ =>
          do rspec <- parse_return_spec;
          let n := ch n (Some rspec) in
          do body <- next_is TK_LBRACE;
          do n <- (if body then
                     do _ <- xp TK_LBRACE;
                     do b <- parse_stmt_list t;
                     do! close TK_RBRACE;
                     ret (ch n (Some b))
                   else ret n);
          do! opt_semi;
          ret n)))).

(** [parse_module_decl], [parse_import_decl], [parse_func_decl] *)
Definition kw_decl (k : TokenKind) (rest : Token -> PM Node) : PM (option Node) :=
  expect k (ret None) (fun t => do n <- rest t; ret (Some n)).

Definition parse_module_decl : PM (option Node) := kw_decl TK_KW_M module_rest.
Definition parse_import_decl : PM (option Node) := kw_decl TK_KW_I import_rest.
Definition parse_func_decl : PM (option Node) := kw_decl TK_KW_F func_rest.

(** [consume_decl_kw], and the declaration after it. *)
Definition lower_decl (rest : Token -> PM Node) : PM (option Node) :=
  do t <- adv; do n <- rest t; ret (Some n).

(** [is_decl_ident]: 1 import, 2 type, 4 function, 5 module, 0 none. *)
Definition is_decl_ident : PM Z :=
  if negb (bool_decide (profile = PROFILE_DEFAULT)) then ret 0
  else
  do ok <- mand (next_is TK_IDENT) (next_at_is 1 TK_EQ);
  if negb ok then ret 0
  else
  do t <- cur;
  if negb (t_len t =? 1) then ret 0
  else
    do c <- rd src (t_start t);
    ret (if c =? chr "m" then 5
         else if c =? chr "i" then 1
         else if c =? chr "t" then 2
         else if c =? chr "f" then 4
         else 0).

(** The module declaration, or its absence. *)
Definition parse_head (first : Token) (root : Node) : PM Node :=
  do kw <- next_is TK_KW_M;
  if kw then add root parse_module_decl
  else
  do di <- is_decl_ident;
  if di =? 5 then add root (lower_decl module_rest)
  else do! eerr_nospan E2001 first; ret root.

(** The class of the declaration at the current token: 1 import, 2 type,
    3 constant, 4 global, 5 function, 0 none of them. *)
Definition decl_class (k : TokenKind) (di : Z) : Z :=
  if tk_eqb k TK_KW_I || (di =? 1) then 1
  else if tk_eqb k TK_KW_T || (di =? 2) then 2
  else if tk_eqb k TK_IDENT && (di =? 0) then 3
  else if tk_eqb k TK_KW_LET then 4
  else if tk_eqb k TK_KW_F || (di =? 4) then 5
  else 0.

(** A declaration of class [cp] that starts with the token kind [k]. *)
Definition parse_decl (k : TokenKind) (cp : Z) : PM (option Node) :=
  if cp =? 1 then
    if tk_eqb k TK_KW_I then parse_import_decl else lower_decl import_rest
  else if cp =? 2 then
    if tk_eqb k TK_KW_T then parse_type_decl else lower_decl lower_type_decl
  else if cp =? 3 then parse_const_decl
  else if cp =? 4 then parse_stmt
  else if tk_eqb k TK_KW_F then parse_func_decl else lower_decl func_rest.

(** One turn of [parse]'s loop: the phase and the root. *)
Definition parse_top (st : Z * Node) : PM (Z * Node + Node) :=
  let '(phase, root) := st in
  do k <- peek;
  if tk_eqb k TK_EOF then ret (inr root)
  else
  do p <- get;
  if MAX_PARSE_ERRORS <=? p_errs p then ret (inr root)
  else
  do t <- cur;
  do di <- is_decl_ident;
  let cp := decl_class k di in
  if cp =? 0 then
    do! eerr E2002 t;
    do! sync;
    do p <- get;
    ret (if MAX_PARSE_ERRORS <=? p_errs p then inr root else inl (phase, root))
  else
    do! when (cp <? phase) (eerr_nospan E2001 t);
    let phase := if cp <? phase then phase else cp in
    do d <- parse_decl k cp;
    ret (inl (phase, ch root d)).

(** [parse], after the initialisation of [p]. *)
Definition parse_body : PM Node :=
  do first <- cur;
  do root <- parse_head first (mk NODE_PROGRAM first);
  iter loop_fuel parse_top (1, root).

End Parse.

(** ** Tying the recursion *)

(** [rec] with [fuel] levels: every level has consumed a token. *)
Fixpoint recs (toks : list Token) (src : list Z) (profile : Profile)
    (inner : option (list Token -> list Z -> Diags -> res (option Node * Diags)))
    (fuel : nat) : Rec :=
  match fuel with
  | O => no_rec
  | S f => next_rec toks src profile inner (recs toks src profile inner f)
  end.

Definition rec_fuel (toks : list Token) : nat := S (length toks).

Definition parser_init (d : Diags) : Parser := mkParser 0 0 false d.

(** [parse] at interpolation depth [INTERP_MAX_DEPTH - room]: the root, and the
    parser's final state. *)
Fixpoint parse_run (room : nat) (profile : Profile) (toks : list Token) (src : list Z)
    (d : Diags) : res (option Node * Parser) :=
  if bool_decide (toks = []) then Ok (None, parser_init d)
  else
    let inner := match room with
                 | O => None
                 | S r => Some (fun ts s d =>
                     match parse_run r PROFILE_DEFAULT ts s d with
                     | Ok (n, p) => Ok (n, p_diags p)
                     | Oob => Oob
                     | NoFuel => NoFuel
                     end)
                 end in
    match parse_body toks src profile inner (recs toks src profile inner (rec_fuel toks))
            (parser_init d) with
    | Ok (root, p) => Ok (Some root, p)
    | Oob => Oob
    | NoFuel => NoFuel
    end.

Definition parse (toks : list Token) (src : list Z) (profile : Profile) (d : Diags)
    : res (option Node * Parser) :=
  parse_run (Z.to_nat INTERP_MAX_DEPTH) profile toks src d.

(** Lexing and parsing a text, as the driver does. *)
Definition parse_source (src : list Z) (profile : Profile) (d : Diags)
    : res (option (option Node * Parser)) :=
  match lex src (zlen src) (zlen src + 16) profile d with
  | Ok (tc, l) =>
      if tc <? 0 then Ok None
      else match parse (take (Z.to_nat tc) (l_out l)) src profile (l_diags l) with
           | Ok r => Ok (Some r)
           | Oob => Oob
           | NoFuel => NoFuel
           end
  | Oob => Oob
  | NoFuel => NoFuel
  end.

(** The tree of a text that parses. *)
Definition ast_of (src : list Z) : Node :=
  match parse_source src PROFILE_DEFAULT diags_init with
  | Ok (Some (Some root, _)) => root
  | _ => mk NODE_PROGRAM (mkToken TK_EOF 0 0 0 0)
  end.
