(* ===== verification/Grammar.v ===== *)
(** * The grammar of toke, with the tree each phrase stands for

    [G sc X i j n]: the tokens [i .. j) are a phrase of the nonterminal [X], and
    [n] is its tree; [sc] says whether the phrase stands inside an [sc] block.
    The rules are those the comments of parser.c state, one constructor per
    alternative.  Lists are left recursive and carry the node they extend.
    What [ParserProps] proves is that a parse without errors follows [G]. *)

From Stdlib Require Import ZArith Lia String Ascii.
From stdpp Require Import base tactics list.
From S2P Require Import Prelude Diag Lexer Ast Parser.
Open Scope Z_scope.

(** Levels of left-associative binary operators, from the tightest. *)
Inductive level := L_mul | L_add | L_shift | L_bitand | L_bitxor | L_bitor | L_and | L_or.

Definition level_ops (lv : level) : list TokenKind :=
  match lv with
  | L_mul => [TK_STAR; TK_SLASH; TK_PERCENT]
  | L_add => [TK_PLUS; TK_MINUS]
  | L_shift => [TK_SHL; TK_SHR]
  | L_bitand => [TK_AMP]
  | L_bitxor => [TK_CARET]
  | L_bitor => [TK_PIPE]
  | L_and => [TK_AND]
  | L_or => [TK_OR]
  end.

(** [NT_items X n0]: [n0] extended by [(';' X)*]; [NT_until stop X n0]: the same,
    with a last separator allowed before [stop].  The other nonterminals that
    carry a node extend it. *)
Inductive nonterm :=
  | NT_type | NT_ret | NT_lit | NT_primary | NT_chain | NT_castprop | NT_unary
  | NT_bin (lv : level) | NT_compare | NT_expr | NT_arm | NT_arm_body | NT_if (expr_form : bool)
  | NT_stmt | NT_stmts (ref : Token) | NT_path | NT_field_list
  | NT_items (X : nonterm) (n0 : Node)
  | NT_until (stop : TokenKind) (X : nonterm) (n0 : Node)
  | NT_entries (stop : TokenKind) (n0 : Node)
  | NT_param (fn : Node) | NT_params (fn : Node) | NT_params1 (fn : Node)
  | NT_init (variant : bool) (n0 : Node) | NT_inits (variant : bool) (n0 : Node)
  | NT_init_list (variant : bool) (n0 : Node)
  | NT_step (l : Node)
  | NT_arm_rest (arm : Node)
  | NT_field (n0 : Node) | NT_fields (n0 : Node) | NT_path_rest (n0 : Node)
  | NT_clauses (n0 : Node) | NT_ann (n0 : Node).

(** The nonterminal just tighter than a level. *)
Definition below (lv : level) : nonterm :=
  match lv with
  | L_mul => NT_unary
  | L_add => NT_bin L_mul
  | L_shift => NT_bin L_add
  | L_bitand => NT_compare
  | L_bitxor => NT_bin L_bitand
  | L_bitor => NT_bin L_bitxor
  | L_and => NT_bin L_bitor
  | L_or => NT_bin L_and
  end.

(** Comparison operators, and the operator their node carries. *)
Definition CMP_OPS : list TokenKind := [TK_LT; TK_GT; TK_EQEQ; TK_LE; TK_GE; TK_NE].
Definition cmp_op (k : TokenKind) : TokenKind := if tk_eqb k TK_EQEQ then TK_EQ else k.

(** Two nodes that differ at most in their children. *)
Definition same_leaf (a b : Node) : Prop :=
  n_kind a = n_kind b /\ n_start a = n_start b /\ n_line a = n_line b /\ n_col a = n_col b /\
  n_tok_start a = n_tok_start b /\ n_tok_len a = n_tok_len b /\ n_op a = n_op b.

Section Grammar.
Context (toks : list Token) (src : list Z).

(** The token at an index, its kind (EOF past the end) and its text. *)
Definition tk (i : Z) : Token := nth (Z.to_nat i) toks (mkToken TK_EOF 0 0 0 0).
Definition kd (i : Z) : TokenKind := t_kind (tk i).
Definition text (i : Z) : list Z := slice src (t_start (tk i)) (t_len (tk i)).

Definition node2 (n : Node) (a b : Node) : Node := ch (ch n (Some a)) (Some b).

(** A statement's end: a semicolon, or nothing before a brace or the end. *)
Inductive g_semi : Z -> Z -> Prop :=
  | gs_semi i : kd i = TK_SEMI -> g_semi i (i + 1)
  | gs_none i : kd i = TK_RBRACE \/ kd i = TK_EOF -> g_semi i i.

(** An optional token. *)
Inductive g_opt (k : TokenKind) : Z -> Z -> Prop :=
  | go_some i : kd i = k -> g_opt k i (i + 1)
  | go_none i : g_opt k i i.

(** The dot of [mut.], which may be missing (with a warning). *)
Inductive g_mut : Z -> Z -> Prop :=
  | gm_dot i : kd i = TK_KW_MUT -> kd (i + 1) = TK_DOT -> g_mut i (i + 2)
  | gm_space i : kd i = TK_KW_MUT -> tk_in (kd (i + 1)) MUT_STARTS = true -> g_mut i (i + 1).

Inductive G : bool -> nonterm -> Z -> Z -> Node -> Prop :=
  (* types *)
  | gt_ptr sc i j a :
      kd i = TK_STAR -> G sc NT_type (i + 1) j a ->
      G sc NT_type i j (ch (mk NODE_PTR_TYPE (tk i)) (Some a))
  | gt_qual sc i :
      kd i = TK_IDENT -> kd (i + 1) = TK_DOT -> kd (i + 2) = TK_DOLLAR ->
      kd (i + 3) = TK_IDENT ->
      G sc NT_type i (i + 4) (set_op TK_DOT (mk NODE_TYPE_IDENT (tk (i + 3))))
  | gt_name sc i :
      kd i = TK_DOLLAR -> kd (i + 1) = TK_IDENT ->
      G sc NT_type i (i + 2) (mk NODE_TYPE_IDENT (tk (i + 1)))
  | gt_at_map sc i j m a b :
      kd i = TK_AT -> kd (i + 1) = TK_LPAREN -> G sc NT_type (i + 2) m a ->
      kd m = TK_COLON -> G sc NT_type (m + 1) j b -> kd j = TK_RPAREN ->
      G sc NT_type i (j + 1) (node2 (mk NODE_MAP_TYPE (tk i)) a b)
  | gt_at_paren sc i j a :
      kd i = TK_AT -> kd (i + 1) = TK_LPAREN -> G sc NT_type (i + 2) j a ->
      kd j = TK_RPAREN ->
      G sc NT_type i (j + 1) (ch (mk NODE_ARRAY_TYPE (tk i)) (Some a))
  | gt_at sc i j a :
      kd i = TK_AT -> G sc NT_type (i + 1) j a ->
      G sc NT_type i j (ch (mk NODE_ARRAY_TYPE (tk i)) (Some a))
  | gt_map sc i j m a b :
      kd i = TK_LBRACKET -> G sc NT_type (i + 1) m a -> kd m = TK_COLON ->
      G sc NT_type (m + 1) j b -> kd j = TK_RBRACKET ->
      G sc NT_type i (j + 1) (node2 (mk NODE_MAP_TYPE (tk i)) a b)
  | gt_array sc i j a :
      kd i = TK_LBRACKET -> G sc NT_type (i + 1) j a -> kd j = TK_RBRACKET ->
      G sc NT_type i (j + 1) (ch (mk NODE_ARRAY_TYPE (tk i)) (Some a))
  | gt_func0 sc i j r :
      kd i = TK_LPAREN -> kd (i + 1) = TK_RPAREN -> kd (i + 2) = TK_COLON ->
      G sc NT_type (i + 3) j r ->
      G sc NT_type i j (ch (mk NODE_FUNC_TYPE (tk i)) (Some r))
  | gt_func sc i j m m' a n r :
      kd i = TK_LPAREN -> G sc NT_type (i + 1) m a ->
      G sc (NT_items NT_type (ch (mk NODE_FUNC_TYPE (tk i)) (Some a))) m m' n ->
      kd m' = TK_RPAREN -> kd (m' + 1) = TK_COLON -> G sc NT_type (m' + 2) j r ->
      G sc NT_type i j (ch n (Some r))
  | gt_scalar sc i :
      tk_in (kd i) [TK_IDENT; TK_TYPE_IDENT] = true -> text i ∈ SCALARS ->
      G sc NT_type i (i + 1) (mk NODE_TYPE_EXPR (tk i))
  | gt_ident sc i :
      kd i = TK_TYPE_IDENT -> G sc NT_type i (i + 1) (mk NODE_TYPE_IDENT (tk i))
  (* lists *)
  | gi_nil sc X n i : G sc (NT_items X n) i i n
  | gi_snoc sc X n0 i m j n c :
      G sc (NT_items X n0) i m n -> kd m = TK_SEMI -> G sc X (m + 1) j c ->
      G sc (NT_items X n0) i j (ch n (Some c))
  | gu_items sc stop X n0 i j n :
      G sc (NT_items X n0) i j n -> G sc (NT_until stop X n0) i j n
  | gu_trail sc stop X n0 i j n :
      G sc (NT_items X n0) i j n -> kd j = TK_SEMI -> kd (j + 1) = stop ->
      G sc (NT_until stop X n0) i (j + 1) n
  (* parameters and return specifications *)
  | gp_param sc fn i j t :
      kd i = TK_IDENT -> kd (i + 1) = TK_COLON -> G sc NT_type (i + 2) j t ->
      G sc (NT_param fn) i j
        (ch fn (Some (node2 (mk NODE_PARAM (tk i)) (mk NODE_IDENT (tk i)) t)))
  | gp_none sc fn i : G sc (NT_params fn) i i fn
  | gp_some sc fn i j n : G sc (NT_params1 fn) i j n -> G sc (NT_params fn) i j n
  | gp_first sc fn i j n : G sc (NT_param fn) i j n -> G sc (NT_params1 fn) i j n
  | gp_more sc fn i m j n n' :
      G sc (NT_params1 fn) i m n -> kd m = TK_SEMI -> G sc (NT_param n) (m + 1) j n' ->
      G sc (NT_params1 fn) i j n'
  | gr_plain sc i j t :
      G sc NT_type i j t -> G sc NT_ret i j (ch (mk NODE_RETURN_SPEC (tk i)) (Some t))
  | gr_error sc i m j t e :
      G sc NT_type i m t -> kd m = TK_BANG -> G sc NT_type (m + 1) j e ->
      G sc NT_ret i j (node2 (mk NODE_RETURN_SPEC (tk i)) t e)
  (* literals *)
  | gl_lit sc i k :
      lit_kind (kd i) = Some k -> k <> NODE_STR_LIT -> G sc NT_lit i (i + 1) (mk k (tk i))
  | gl_str sc i n :
      kd i = TK_STR_LIT -> same_leaf (mk NODE_STR_LIT (tk i)) n ->
      (no_interp (text i) = true -> n = mk NODE_STR_LIT (tk i)) -> G sc NT_lit i (i + 1) n
  (* primary expressions *)
  | ge_ref sc i :
      kd i = TK_AMP -> kd (i + 1) = TK_IDENT ->
      G sc NT_primary i (i + 2) (mk NODE_FUNC_REF (tk (i + 1)))
  | ge_ref_qual sc i :
      kd i = TK_AMP -> kd (i + 1) = TK_IDENT -> kd (i + 2) = TK_DOT -> kd (i + 3) = TK_IDENT ->
      G sc NT_primary i (i + 4)
        (ch (mk NODE_FUNC_REF (tk (i + 1))) (Some (mk NODE_IDENT (tk (i + 3)))))
  | ge_closure sc i j m n b :
      kd i = TK_IDENT -> text i = bytes_of "fn" -> kd (i + 1) = TK_LPAREN ->
      G sc (NT_params (mk NODE_CLOSURE (tk i))) (i + 2) m n -> kd m = TK_RPAREN ->
      kd (m + 1) = TK_LBRACE -> G sc (NT_stmts (tk i)) (m + 2) j b -> kd j = TK_RBRACE ->
      G sc NT_primary i (j + 1) (ch n (Some b))
  | ge_closure_ret sc i j m m' n r b :
      kd i = TK_IDENT -> text i = bytes_of "fn" -> kd (i + 1) = TK_LPAREN ->
      G sc (NT_params (mk NODE_CLOSURE (tk i))) (i + 2) m n -> kd m = TK_RPAREN ->
      kd (m + 1) = TK_COLON -> G sc NT_ret (m + 2) m' r ->
      kd m' = TK_LBRACE -> G sc (NT_stmts (tk i)) (m' + 1) j b -> kd j = TK_RBRACE ->
      G sc NT_primary i (j + 1) (node2 n r b)
  | ge_spawn i j e :
      kd i = TK_IDENT -> text i = bytes_of "spawn" -> G true NT_expr (i + 1) j e ->
      G true NT_primary i j (ch (mk NODE_SPAWN_EXPR (tk i)) (Some e))
  | ge_ident sc i :
      kd i = TK_IDENT -> G sc NT_primary i (i + 1) (mk NODE_IDENT (tk i))
  | ge_struct_t sc i j n :
      kd i = TK_TYPE_IDENT -> kd (i + 1) = TK_LBRACE ->
      G sc (NT_init_list false (mk NODE_STRUCT_LIT (tk i))) (i + 2) j n -> kd j = TK_RBRACE ->
      G sc NT_primary i (j + 1) n
  | ge_type_t sc i :
      kd i = TK_TYPE_IDENT -> G sc NT_primary i (i + 1) (mk NODE_TYPE_IDENT (tk i))
  | ge_struct sc i j n :
      kd i = TK_DOLLAR -> kd (i + 1) = TK_IDENT -> kd (i + 2) = TK_LBRACE ->
      G sc (NT_init_list true (mk NODE_STRUCT_LIT (tk (i + 1)))) (i + 3) j n -> kd j = TK_RBRACE ->
      G sc NT_primary i (j + 1) n
  | ge_type sc i :
      kd i = TK_DOLLAR -> kd (i + 1) = TK_IDENT ->
      G sc NT_primary i (i + 2) (mk NODE_TYPE_IDENT (tk (i + 1)))
  | ge_at_empty sc i :
      kd i = TK_AT -> kd (i + 1) = TK_LPAREN -> kd (i + 2) = TK_RPAREN ->
      G sc NT_primary i (i + 3) (mk NODE_ARRAY_LIT (tk i))
  | ge_at_array sc i m j a n :
      kd i = TK_AT -> kd (i + 1) = TK_LPAREN -> G sc NT_expr (i + 2) m a ->
      G sc (NT_until TK_RPAREN NT_expr (ch (mk NODE_ARRAY_LIT (tk i)) (Some a))) m j n ->
      kd j = TK_RPAREN -> G sc NT_primary i (j + 1) n
  | ge_at_map sc i m m' j a b n :
      kd i = TK_AT -> kd (i + 1) = TK_LPAREN -> G sc NT_expr (i + 2) m a ->
      kd m = TK_COLON -> G sc NT_expr (m + 1) m' b ->
      G sc (NT_entries TK_RPAREN (ch (mk NODE_MAP_LIT (tk i))
              (Some (node2 (mk NODE_MAP_ENTRY (tk i)) a b)))) m' j n ->
      kd j = TK_RPAREN -> G sc NT_primary i (j + 1) n
  | ge_paren sc i j e :
      kd i = TK_LPAREN -> G sc NT_expr (i + 1) j e -> kd j = TK_RPAREN ->
      G sc NT_primary i (j + 1) e
  | ge_br_empty sc i :
      kd i = TK_LBRACKET -> kd (i + 1) = TK_RBRACKET ->
      G sc NT_primary i (i + 2) (mk NODE_ARRAY_LIT (tk i))
  | ge_br_array sc i m j a n :
      kd i = TK_LBRACKET -> G sc NT_expr (i + 1) m a ->
      G sc (NT_items NT_expr (ch (mk NODE_ARRAY_LIT (tk i)) (Some a))) m j n ->
      kd j = TK_RBRACKET -> G sc NT_primary i (j + 1) n
  | ge_br_map sc i m m' j a b n :
      kd i = TK_LBRACKET -> G sc NT_expr (i + 1) m a ->
      kd m = TK_COLON -> G sc NT_expr (m + 1) m' b ->
      G sc (NT_entries TK_RBRACKET (ch (mk NODE_MAP_LIT (tk i))
              (Some (node2 (mk NODE_MAP_ENTRY (tk i)) a b)))) m' j n ->
      kd j = TK_RBRACKET -> G sc NT_primary i (j + 1) n
  | ge_lit sc i j n : G sc NT_lit i j n -> G sc NT_primary i j n
  (* map entries after the first; field initialisers *)
  | gm_nil sc stop n i : G sc (NT_entries stop n) i i n
  | gm_snoc sc stop n0 i m m' j n a b :
      G sc (NT_entries stop n0) i m n -> kd m = TK_SEMI -> G sc NT_expr (m + 1) m' a ->
      kd m' = TK_COLON -> G sc NT_expr (m' + 1) j b ->
      G sc (NT_entries stop n0) i j (ch n (Some (node2 (mk NODE_MAP_ENTRY (tk (m + 1))) a b)))
  | gm_trail sc stop n0 i j n :
      G sc (NT_entries stop n0) i j n -> kd j = TK_SEMI -> kd (j + 1) = stop ->
      G sc (NT_entries stop n0) i (j + 1) n
  | gf_init sc v n i i' j e :
      i' = i \/ (v = true /\ kd i = TK_DOLLAR /\ i' = i + 1) ->
      tk_in (kd i') [TK_IDENT; TK_TYPE_IDENT] = true -> kd (i' + 1) = TK_COLON ->
      G sc NT_expr (i' + 2) j e ->
      G sc (NT_init v n) i j (ch n (Some (ch (mk NODE_FIELD_INIT (tk i')) (Some e))))
  | gf_nil sc v n i : G sc (NT_inits v n) i i n
  | gf_snoc sc v n0 i m j n n' :
      G sc (NT_inits v n0) i m n -> G sc (NT_init v n) m j n' -> kd j = TK_SEMI ->
      G sc (NT_inits v n0) i (j + 1) n'
  | gf_end sc v n0 i j n : G sc (NT_inits v n0) i j n -> G sc (NT_init_list v n0) i j n
  | gf_last sc v n0 i m j n n' :
      G sc (NT_inits v n0) i m n -> G sc (NT_init v n) m j n' ->
      G sc (NT_init_list v n0) i j n'
  (* postfix operators and calls, left associative *)
  | gc_primary sc i j n : G sc NT_primary i j n -> G sc NT_chain i j n
  | gc_step sc i m j l n :
      G sc NT_chain i m l -> G sc (NT_step l) m j n -> G sc NT_chain i j n
  | gx_field sc l i :
      kd i = TK_DOT -> kd (i + 1) = TK_IDENT ->
      G sc (NT_step l) i (i + 2)
        (node2 (mk NODE_FIELD_EXPR (tk i)) l (mk NODE_IDENT (tk (i + 1))))
  | gx_const sc l i :
      kd i = TK_DOT -> kd (i + 1) = TK_INT_LIT ->
      G sc (NT_step l) i (i + 2)
        (node2 (mk NODE_INDEX_EXPR (tk i)) l (mk NODE_INT_LIT (tk (i + 1))))
  | gx_get sc l i j e :
      kd i = TK_DOT -> kd (i + 1) = TK_IDENT -> text (i + 1) = bytes_of "get" ->
      kd (i + 2) = TK_LPAREN -> G sc NT_expr (i + 3) j e -> kd j = TK_RPAREN ->
      G sc (NT_step l) i (j + 1) (node2 (mk NODE_INDEX_EXPR (tk i)) l e)
  | gx_get_call0 sc l i :
      kd i = TK_DOT -> kd (i + 1) = TK_IDENT -> text (i + 1) = bytes_of "get" ->
      kd (i + 2) = TK_LPAREN -> kd (i + 3) = TK_RPAREN ->
      G sc (NT_step l) i (i + 4)
        (ch (mk NODE_CALL_EXPR (tk (i + 1)))
           (Some (node2 (mk NODE_FIELD_EXPR (tk i)) l (mk NODE_IDENT (tk (i + 1))))))
  | gx_get_call sc l i m j e n :
      kd i = TK_DOT -> kd (i + 1) = TK_IDENT -> text (i + 1) = bytes_of "get" ->
      kd (i + 2) = TK_LPAREN -> G sc NT_expr (i + 3) m e ->
      G sc (NT_items NT_expr (node2 (mk NODE_CALL_EXPR (tk (i + 1)))
              (node2 (mk NODE_FIELD_EXPR (tk i)) l (mk NODE_IDENT (tk (i + 1)))) e)) m j n ->
      kd j = TK_RPAREN -> G sc (NT_step l) i (j + 1) n
  | gx_index sc l i j e :
      kd i = TK_LBRACKET -> G sc NT_expr (i + 1) j e -> kd j = TK_RBRACKET ->
      G sc (NT_step l) i (j + 1) (node2 (mk NODE_INDEX_EXPR (tk i)) l e)
  | gx_call0 sc l i :
      kd i = TK_LPAREN -> kd (i + 1) = TK_RPAREN ->
      G sc (NT_step l) i (i + 2) (ch (mk NODE_CALL_EXPR (tk i)) (Some l))
  | gx_call sc l i m j e n :
      kd i = TK_LPAREN -> G sc NT_expr (i + 1) m e ->
      G sc (NT_items NT_expr (node2 (mk NODE_CALL_EXPR (tk i)) l e)) m j n ->
      kd j = TK_RPAREN -> G sc (NT_step l) i (j + 1) n
  (* casts, propagation, prefix operators *)
  | gk_chain sc i j n : G sc NT_chain i j n -> G sc NT_castprop i j n
  | gk_cast sc i m j n t :
      G sc NT_chain i m n -> kd m = TK_KW_AS -> G sc NT_type (m + 1) j t ->
      G sc NT_castprop i j (node2 (mk NODE_CAST_EXPR (tk m)) n t)
  | gk_prop sc i m j n t :
      G sc NT_chain i m n -> kd m = TK_BANG -> G sc NT_type (m + 1) j t ->
      G sc NT_castprop i j (node2 (mk NODE_PROPAGATE_EXPR (tk m)) n t)
  | gk_both sc i m m' j n t e :
      G sc NT_chain i m n -> kd m = TK_KW_AS -> G sc NT_type (m + 1) m' t ->
      kd m' = TK_BANG -> G sc NT_type (m' + 1) j e ->
      G sc NT_castprop i j
        (node2 (mk NODE_PROPAGATE_EXPR (tk m')) (node2 (mk NODE_CAST_EXPR (tk m)) n t) e)
  | gn_castprop sc i j n : G sc NT_castprop i j n -> G sc NT_unary i j n
  | gn_prefix sc i j n :
      tk_in (kd i) [TK_MINUS; TK_BANG; TK_TILDE] = true -> G sc NT_unary (i + 1) j n ->
      (kd i = TK_BANG -> n_kind n <> NODE_STRUCT_LIT) ->
      G sc NT_unary i j (ch (set_op (kd i) (mk NODE_UNARY_EXPR (tk i))) (Some n))
  (* binary operators *)
  | gb_below sc lv i j n : G sc (below lv) i j n -> G sc (NT_bin lv) i j n
  | gb_op sc lv i m j l r :
      G sc (NT_bin lv) i m l -> tk_in (kd m) (level_ops lv) = true ->
      G sc (below lv) (m + 1) j r ->
      G sc (NT_bin lv) i j (node2 (set_op (kd m) (mk NODE_BINARY_EXPR (tk m))) l r)
  | go_shift sc i j n : G sc (NT_bin L_shift) i j n -> G sc NT_compare i j n
  | go_cmp sc i m j l r :
      G sc (NT_bin L_shift) i m l -> tk_in (kd m) CMP_OPS = true ->
      G sc (NT_bin L_shift) (m + 1) j r ->
      G sc NT_compare i j (node2 (set_op (cmp_op (kd m)) (mk NODE_BINARY_EXPR (tk m))) l r)
  (* expressions *)
  | gx_or sc i j n :
      G sc (NT_bin L_or) i j n -> kd i <> TK_KW_IF -> kd i <> TK_KW_MT -> G sc NT_expr i j n
  | gx_if sc i j n : G sc (NT_if true) i j n -> G sc NT_expr i j n
  | gx_match sc i m m' j e a n :
      kd i = TK_KW_MT -> G sc (NT_bin L_or) (i + 1) m e -> kd m = TK_LBRACE ->
      G sc NT_arm (m + 1) m' a ->
      G sc (NT_until TK_RBRACE NT_arm (node2 (mk NODE_MATCH_STMT (tk i)) e a)) m' j n ->
      kd j = TK_RBRACE -> G sc NT_expr i (j + 1) n
  | ga_dollar sc i j n :
      kd i = TK_DOLLAR -> kd (i + 1) = TK_IDENT ->
      G sc (NT_arm_rest (ch (mk NODE_MATCH_ARM (tk i)) (Some (mk NODE_TYPE_IDENT (tk (i + 1))))))
        (i + 2) j n -> G sc NT_arm i j n
  | ga_name sc i j n :
      tk_in (kd i) [TK_TYPE_IDENT; TK_IDENT] = true ->
      G sc (NT_arm_rest (ch (mk NODE_MATCH_ARM (tk i)) (Some (mk NODE_TYPE_IDENT (tk i)))))
        (i + 1) j n -> G sc NT_arm i j n
  | ga_rest sc arm i j b :
      kd i = TK_COLON -> kd (i + 1) = TK_IDENT -> G sc NT_arm_body (i + 2) j b ->
      G sc (NT_arm_rest arm) i j (node2 arm (mk NODE_IDENT (tk (i + 1))) b)
  | ga_expr sc i j n : G sc NT_expr i j n -> G sc NT_arm_body i j n
  | ga_return0 sc i :
      kd i = TK_LT -> tk_in (kd (i + 1)) [TK_SEMI; TK_RBRACE; TK_EOF] = true ->
      G sc NT_arm_body i (i + 1) (mk NODE_RETURN_STMT (tk i))
  | ga_return sc i j e :
      kd i = TK_LT -> G sc NT_expr (i + 1) j e ->
      G sc NT_arm_body i j (ch (mk NODE_RETURN_STMT (tk i)) (Some e))
  (* if: the expression form has an [el] on every path, the statement form may
     end with a semicolon *)
  | gh_then sc i m m' j j' c b :
      kd i = TK_KW_IF -> kd (i + 1) = TK_LPAREN -> G sc NT_expr (i + 2) m c ->
      kd m = TK_RPAREN -> g_opt TK_COLON (m + 1) m' -> kd m' = TK_LBRACE ->
      G sc (NT_stmts (tk i)) (m' + 1) j b -> kd j = TK_RBRACE -> kd (j + 1) <> TK_KW_EL ->
      g_opt TK_SEMI (j + 1) j' ->
      G sc (NT_if false) i j' (node2 (mk NODE_IF_STMT (tk i)) c b)
  | gh_chain sc form i m m' j k c b e :
      kd i = TK_KW_IF -> kd (i + 1) = TK_LPAREN -> G sc NT_expr (i + 2) m c ->
      kd m = TK_RPAREN -> g_opt TK_COLON (m + 1) m' -> kd m' = TK_LBRACE ->
      G sc (NT_stmts (tk i)) (m' + 1) j b -> kd j = TK_RBRACE -> kd (j + 1) = TK_KW_EL ->
      G sc (NT_if form) (j + 2) k e ->
      G sc (NT_if form) i k (ch (node2 (mk NODE_IF_STMT (tk i)) c b) (Some e))
  | gh_else sc (form : bool) i m m' j k k' c b e :
      kd i = TK_KW_IF -> kd (i + 1) = TK_LPAREN -> G sc NT_expr (i + 2) m c ->
      kd m = TK_RPAREN -> g_opt TK_COLON (m + 1) m' -> kd m' = TK_LBRACE ->
      G sc (NT_stmts (tk i)) (m' + 1) j b -> kd j = TK_RBRACE -> kd (j + 1) = TK_KW_EL ->
      kd (j + 2) = TK_LBRACE -> G sc (NT_stmts (tk i)) (j + 3) k e -> kd k = TK_RBRACE ->
      (if form then k' = k + 1 else g_opt TK_SEMI (k + 1) k') ->
      G sc (NT_if form) i k' (ch (node2 (mk NODE_IF_STMT (tk i)) c b) (Some e))
  (* statements *)
  | gz_bind sc i i1 m m' j k n e (mut : bool) :
      kd i = TK_KW_LET ->
      i1 = i + 1 \/ (kd (i + 1) = TK_KW_MUT /\ i1 = i + 2) ->
      kd i1 = TK_IDENT ->
      G sc (NT_ann (ch (mk (if mut then NODE_MUT_BIND_STMT else NODE_BIND_STMT) (tk i))
                      (Some (mk NODE_IDENT (tk i1))))) (i1 + 1) m n ->
      kd m = TK_EQ -> (if mut then g_mut (m + 1) m' else m' = m + 1) ->
      G sc NT_expr m' j e -> g_semi j k ->
      G sc NT_stmt i k (ch n (Some e))
  | gz_ann_none sc n i : G sc (NT_ann n) i i n
  | gz_ann sc n i j t :
      kd i = TK_COLON -> G sc NT_type (i + 1) j t -> G sc (NT_ann n) i j (ch n (Some t))
  | gz_break sc i j :
      kd i = TK_KW_BR -> g_semi (i + 1) j -> G sc NT_stmt i j (mk NODE_BREAK_STMT (tk i))
  | gz_return0 sc i j :
      kd i = TK_KW_RT \/ kd i = TK_LT ->
      g_semi (i + 1) j -> G sc NT_stmt i j (mk NODE_RETURN_STMT (tk i))
  | gz_return sc i j k e :
      kd i = TK_KW_RT \/ kd i = TK_LT -> G sc NT_expr (i + 1) j e -> g_semi j k ->
      G sc NT_stmt i k (ch (mk NODE_RETURN_STMT (tk i)) (Some e))
  | gz_scope sc i j k b :
      kd i = TK_KW_SC -> kd (i + 1) = TK_LBRACE -> G true (NT_stmts (tk i)) (i + 2) j b ->
      kd j = TK_RBRACE -> g_semi (j + 1) k ->
      G sc NT_stmt i k (ch (mk NODE_SCOPE_STMT (tk i)) (Some b))
  | gz_if sc i j n : G sc (NT_if false) i j n -> G sc NT_stmt i j n
  | gz_loop sc i m m' j k n b :
      kd i = TK_KW_LP -> kd (i + 1) = TK_LPAREN ->
      G sc (NT_clauses (mk NODE_LOOP_STMT (tk i))) (i + 2) m n -> kd m = TK_RPAREN ->
      g_opt TK_COLON (m + 1) m' -> kd m' = TK_LBRACE ->
      G sc (NT_stmts (tk i)) (m' + 1) j b -> kd j = TK_RBRACE -> g_opt TK_SEMI (j + 1) k ->
      G sc NT_stmt i k (ch n (Some b))
  | gw_while sc n0 i j c : G sc NT_expr i j c -> G sc (NT_clauses n0) i j (ch n0 (Some c))
  | gw_three sc n0 i i1 m m1 j a c e (let_ : bool) :
      (if let_ then kd i = TK_KW_LET /\ i1 = i + 1 else i1 = i) ->
      kd i1 = TK_IDENT -> kd (i1 + 1) = TK_EQ -> G sc NT_expr (i1 + 2) m a ->
      kd m = TK_SEMI -> G sc NT_expr (m + 1) m1 c -> kd m1 = TK_SEMI ->
      kd (m1 + 1) = TK_IDENT -> kd (m1 + 2) = TK_EQ -> G sc NT_expr (m1 + 3) j e ->
      G sc (NT_clauses n0) i j
        (ch (node2 n0
               (node2 (if let_ then set_op TK_KW_LET (mk NODE_LOOP_INIT (tk i))
                       else mk NODE_LOOP_INIT (tk i)) (mk NODE_IDENT (tk i1)) a) c)
           (Some (node2 (mk NODE_ASSIGN_STMT (tk (m1 + 1))) (mk NODE_IDENT (tk (m1 + 1))) e)))
  | gz_arena sc i j b :
      kd i = TK_LBRACE -> kd (i + 1) = TK_IDENT -> text (i + 1) = bytes_of "arena" ->
      G sc (NT_stmts (tk i)) (i + 2) j b -> kd j = TK_RBRACE ->
      G sc NT_stmt i (j + 1) (ch (mk NODE_ARENA_STMT (tk i)) (Some b))
  | gz_assign sc i j k e :
      kd i = TK_IDENT -> kd (i + 1) = TK_EQ -> G sc NT_expr (i + 2) j e -> g_semi j k ->
      G sc NT_stmt i k (node2 (mk NODE_ASSIGN_STMT (tk i)) (mk NODE_IDENT (tk i)) e)
  | gz_expr sc i j k e :
      G sc NT_expr i j e -> g_semi j k ->
      G sc NT_stmt i k (ch (mk NODE_EXPR_STMT (tk i)) (Some e))
  | gl_nil sc ref i : G sc (NT_stmts ref) i i (mk NODE_STMT_LIST ref)
  | gl_snoc sc ref i m j n s :
      G sc (NT_stmts ref) i m n -> G sc NT_stmt m j s -> G sc (NT_stmts ref) i j (ch n (Some s))
  (* module paths and fields *)
  | gd_path sc i j n :
      tk_in (kd i) [TK_IDENT; TK_TYPE_IDENT] = true ->
      G sc (NT_path_rest (ch (mk NODE_MODULE_PATH (tk i)) (Some (mk NODE_IDENT (tk i)))))
        (i + 1) j n -> G sc NT_path i j n
  | gd_path_nil sc n i : G sc (NT_path_rest n) i i n
  | gd_path_snoc sc n0 i j n :
      G sc (NT_path_rest n0) i j n -> kd j = TK_DOT ->
      tk_in (kd (j + 1)) [TK_IDENT; TK_TYPE_IDENT] = true ->
      G sc (NT_path_rest n0) i (j + 2) (ch n (Some (mk NODE_IDENT (tk (j + 1)))))
  | gd_field sc n i i' j t (variant : bool) :
      (if variant then kd i = TK_DOLLAR /\ i' = i + 1 else i' = i) ->
      tk_in (kd i') [TK_IDENT; TK_TYPE_IDENT] = true -> kd (i' + 1) = TK_COLON ->
      G sc NT_type (i' + 2) j t ->
      G sc (NT_field n) i j
        (ch n (Some (ch (if variant then set_op TK_DOLLAR (mk NODE_FIELD (tk i'))
                         else mk NODE_FIELD (tk i')) (Some t))))
  | gd_fields_nil sc n i : G sc (NT_fields n) i i n
  | gd_fields_snoc sc n0 i m j n n' :
      G sc (NT_fields n0) i m n -> G sc (NT_field n) m j n' -> kd j = TK_SEMI ->
      G sc (NT_fields n0) i (j + 1) n'
  | gd_field_last sc i m j n n' :
      G sc (NT_fields (mk NODE_STMT_LIST (tk i))) i m n -> G sc (NT_field n) m j n' ->
      G sc NT_field_list i j n'.

(** ** Declarations *)

(** The name of a type declaration; after a lower-case [t=] also [$name] and
    plain identifiers. *)
Inductive g_type_name (lower : bool) : Z -> Z -> Token -> Prop :=
  | gtn_type i k : kd i = TK_TYPE_IDENT -> k = i + 1 -> g_type_name lower i k (tk i)
  | gtn_ident i k :
      lower = true -> kd i = TK_IDENT -> k = i + 1 -> g_type_name lower i k (tk i)
  | gtn_dollar i j k :
      lower = true -> kd i = TK_DOLLAR -> kd j = TK_IDENT -> j = i + 1 -> k = i + 2 ->
      g_type_name lower i k (tk j).

(** The optional version of an import, the optional body of a function. *)
Inductive g_version (n : Node) : Z -> Z -> Node -> Prop :=
  | gv_none i : g_version n i i n
  | gv_some i : kd i = TK_STR_LIT ->
      g_version n i (i + 1) (ch n (Some (mk NODE_STR_LIT (tk i)))).

Inductive g_body (sc : bool) (t : Token) (n : Node) : Z -> Z -> Node -> Prop :=
  | gb_none i : g_body sc t n i i n
  | gb_some i j b :
      kd i = TK_LBRACE -> G sc (NT_stmts t) (i + 1) j b -> kd j = TK_RBRACE ->
      g_body sc t n i (j + 1) (ch n (Some b)).

(** The classes of declarations: 0 module, 1 import, 2 type, 3 constant, 4 global,
    5 function.  [g_rest cp lower t i k n]: what follows the keyword [t]. *)
Inductive g_rest (sc lower : bool) : Z -> Token -> Z -> Z -> Node -> Prop :=
  | gr_module t i j k p :
      kd i = TK_EQ -> G sc NT_path (i + 1) j p -> g_semi j k ->
      g_rest sc lower 0 t i k (ch (mk NODE_MODULE t) (Some p))
  | gr_import t i m j k p x :
      kd i = TK_EQ -> kd (i + 1) = TK_IDENT -> kd (i + 2) = TK_COLON ->
      G sc NT_path (i + 3) m p ->
      g_version (node2 (mk NODE_IMPORT t) (mk NODE_IDENT (tk (i + 1))) p) m j x -> g_semi j k ->
      g_rest sc lower 1 t i k x
  | gr_type t i m nt j k f :
      kd i = TK_EQ -> g_type_name lower (i + 1) m nt -> kd m = TK_LBRACE ->
      G sc NT_field_list (m + 1) j f -> kd j = TK_RBRACE -> g_semi (j + 1) k ->
      g_rest sc lower 2 t i k (node2 (mk NODE_TYPE_DECL t) (mk NODE_TYPE_IDENT nt) f)
  | gr_func t i m m' j k x r y :
      kd i = TK_EQ -> kd (i + 1) = TK_IDENT -> kd (i + 2) = TK_LPAREN ->
      G sc (NT_params (ch (mk NODE_FUNC_DECL t) (Some (mk NODE_IDENT (tk (i + 1))))))
        (i + 3) m x ->
      kd m = TK_RPAREN -> kd (m + 1) = TK_COLON -> G sc NT_ret (m + 2) m' r ->
      g_body sc t (ch x (Some r)) m' j y -> g_semi j k ->
      g_rest sc lower 5 t i k y.

(** The keyword of a class, and the letter that stands for it. *)
Definition class_kw (cp : Z) : TokenKind :=
  if cp =? 0 then TK_KW_M else if cp =? 1 then TK_KW_I else if cp =? 2 then TK_KW_T else TK_KW_F.
Definition class_letter (cp : Z) : Z :=
  if cp =? 0 then chr "m" else if cp =? 1 then chr "i" else if cp =? 2 then chr "t" else chr "f".

Context (profile : Profile).

Inductive g_decl (sc : bool) : Z -> Z -> Z -> Node -> Prop :=
  | gd_kw cp i k n :
      kd i = class_kw cp -> g_rest sc false cp (tk i) (i + 1) k n -> g_decl sc cp i k n
  | gd_lower cp i k n :
      profile = PROFILE_DEFAULT -> kd i = TK_IDENT -> text i = [class_letter cp] ->
      g_rest sc true cp (tk i) (i + 1) k n -> g_decl sc cp i k n
  | gd_const i j m k l t :
      kd i = TK_IDENT -> kd (i + 1) = TK_EQ -> G sc NT_lit (i + 2) m l -> kd m = TK_COLON ->
      G sc NT_type (m + 1) j t -> g_semi j k ->
      g_decl sc 3 i k (ch (node2 (mk NODE_CONST_DECL (tk i)) (mk NODE_IDENT (tk i)) l) (Some t))
  | gd_global i k n : kd i = TK_KW_LET -> G sc NT_stmt i k n -> g_decl sc 4 i k n.

(** The declarations after the module, in the order of their classes. *)
Inductive g_decls (sc : bool) (i0 : Z) (root0 : Node) : Z -> Z -> Node -> Prop :=
  | gds_nil : g_decls sc i0 root0 1 i0 root0
  | gds_snoc ph cp j k root d :
      g_decls sc i0 root0 ph j root -> ph <= cp -> g_decl sc cp j k d ->
      g_decls sc i0 root0 cp k (ch root (Some d)).

(** [SourceFile = ModuleDecl ImportDecl* TypeDecl* ConstDecl* FuncDecl* EOF] *)
Definition g_program (root : Node) : Prop :=
  exists i j m ph,
    g_decl false 0 0 i m /\
    g_decls false i (ch (mk NODE_PROGRAM (tk 0)) (Some m)) ph j root /\ kd j = TK_EOF.

End Grammar.
