(* ===== verification/ParserBase.v ===== *)
(** * Reasoning about the parser's primitives

    Token lists that end in EOF, the frame every parse function keeps, and one
    rule per primitive of [Parser]: tests on the coming tokens are pure and
    reduce to [kd]; [adv], [xp], [sync] and the reporting functions have a rule
    that says how the position, the errors and the diagnostics move. *)

From Stdlib Require Import ZArith Lia String Ascii.
From stdpp Require Import base tactics list.
From S2P Require Import Prelude Diag Lexer Ast Parser Grammar.
Open Scope Z_scope.

(** A token whose bytes lie inside the text. *)
Definition span_ok (src : list Z) (t : Token) : Prop :=
  0 <= t_start t /\ 0 <= t_len t /\ t_start t + t_len t <= zlen src.

(** What the parser needs of its input: the tokens end in EOF and lie inside the
    text they were made from. *)
Record toks_ok (toks : list Token) (src : list Z) : Prop := {
  tko_last : exists ts t, toks = ts ++ [t] /\ t_kind t = TK_EOF;
  tko_spans : Forall (span_ok src) toks
}.

(** [k] errors were reported between two states of the diagnostics, unless they
    are suppressed; [exact] says that nothing else was. *)
Record drel (exact : bool) (k : Z) (d d' : Diags) : Prop := {
  dr_mono : s_error_count d <= s_error_count d';
  dr_on : s_suppress d = false ->
    s_suppress d' = false /\ s_error_count d + k <= s_error_count d';
  dr_exact : exact = true ->
    s_suppress d' = s_suppress d /\
    s_error_count d' = s_error_count d + if s_suppress d then 0 else k
}.

Lemma drel_refl e d : drel e 0 d d.
Proof. split; intros; [lia|split; [done|lia]|split; [done|case_match; lia]]. Qed.

Lemma drel_trans e k1 k2 k d1 d2 d3 :
  drel e k1 d1 d2 -> drel e k2 d2 d3 -> k = k1 + k2 -> drel e k d1 d3.
Proof.
  intros [M1 O1 E1] [M2 O2 E2] ->. split; [lia| |].
  - intros H. destruct (O1 H) as [H' ?]. destruct (O2 H') as [? ?]. split; [done|lia].
  - intros He. destruct (E1 He) as [Ha Hb]. destruct (E2 He) as [Hc Hd].
    split; [congruence|]. rewrite Hd, Hb, Ha. destruct (s_suppress d1); lia.
Qed.

Lemma drel_emit e sev dg k d :
  d_sev dg = sev -> k = (match sev with DIAG_ERROR => 1 | DIAG_WARNING => 0 end) ->
  drel e k d (emit_diag dg d).
Proof.
  intros Hs ->. pose proof (emit_diag_errors dg d) as He. pose proof (emit_diag_suppress dg d) as Hp.
  rewrite Hs in He.
  split; rewrite ?Hp, He; intros; [|split; [done|]|split; [done|]];
    destruct sev, (s_suppress d); try done; lia.
Qed.

Lemma tk_eqb_true a b : tk_eqb a b = true <-> a = b.
Proof. apply bool_decide_eq_true. Qed.
Lemma tk_eqb_false a b : tk_eqb a b = false <-> a <> b.
Proof. apply bool_decide_eq_false. Qed.
Lemma tk_in_true k ks : tk_in k ks = true <-> k ∈ ks.
Proof. apply bool_decide_eq_true. Qed.

(** The setting of a parse; [exact]: no interpolation is attached, so that the
    errors reported are exactly the parser's own. *)
Definition setting (toks : list Token) (src : list Z) (exact : bool) : Prop := toks_ok toks src.

Section Base.
Context (toks : list Token) (src : list Z) (exact : bool).
Context (Hok : setting toks src exact).
Abbreviation n := (zlen toks).
Abbreviation kd := (kd toks).
Abbreviation tk := (tk toks).
Abbreviation drel := (drel exact).

Definition inb (s : Parser) : Prop := 0 <= p_pos s < n /\ 0 <= p_errs s.

(** The frame: the position moves forward inside the tokens, errors accumulate,
    and the diagnostics know of them. *)
Record fr (s s' : Parser) : Prop := {
  fr_pos : p_pos s <= p_pos s' < n;
  fr_errs : p_errs s <= p_errs s';
  fr_sc : p_in_sc s' = p_in_sc s;
  fr_diags : drel (p_errs s' - p_errs s) (p_diags s) (p_diags s')
}.

Lemma fr_refl s : inb s -> fr s s.
Proof. intros [? ?]. split; [lia|lia|done|]. rewrite Z.sub_diag. apply drel_refl. Qed.

Lemma fr_trans s1 s2 s3 : fr s1 s2 -> fr s2 s3 -> fr s1 s3.
Proof.
  intros [? ? ? ?] [? ? ? ?]. split; [lia|lia|congruence|].
  eapply drel_trans; [done..|lia].
Qed.

(** Moving forward. *)
Lemma fr_set s i s' : fr s s' -> p_pos s' <= i < n -> fr s (set_pos i s').
Proof. intros [? ? ? ?] ?. split; simpl; [lia|done..]. Qed.

Lemma last_eof i : n - 1 <= i -> kd i = TK_EOF.
Proof.
  intros Hi. destruct (tko_last _ _ Hok) as (ts & t & E & Ht). unfold Grammar.kd, Grammar.tk.
  rewrite E in *. destruct (decide (i = zlen ts)) as [->|].
  - unfold zlen. rewrite Nat2Z.id, app_nth2, Nat.sub_diag by lia. done.
  - rewrite nth_overflow; [done|]. rewrite zlen_app in Hi. unfold zlen in *.
    rewrite length_app. simpl in *. lia.
Qed.

Lemma kd_lt i k : kd i = k -> k <> TK_EOF -> i < n - 1.
Proof. intros E Hk. destruct (Z.lt_ge_cases i (n - 1)); [done|]. by rewrite last_eof in E. Qed.

Lemma tk_span i : 0 <= i < n -> span_ok src (tk i).
Proof.
  intros Hi. pose proof (tko_spans _ _ Hok) as Hs. rewrite Forall_lookup in Hs.
  destruct (lookup_lt_is_Some_2 toks (Z.to_nat i)) as [t Ht]; [unfold zlen in *; lia|].
  apply (Hs (Z.to_nat i)). unfold Grammar.tk. by rewrite Ht, (nth_lookup_Some _ _ _ _ Ht).
Qed.

(** ** Pure tests *)

Lemma wp_test {A} (m : PM A) b Q s : m s = Ok (b, s) -> Q b s -> wp m Q s.
Proof. unfold wp. by intros ->. Qed.

Lemma tok_at_eq i s : 0 <= i < n -> tok_at toks i s = Ok (tk i, s).
Proof.
  intros Hi. unfold tok_at. destruct (0 <=? i) eqn:?; zb; [|lia].
  destruct (lookup_lt_is_Some_2 toks (Z.to_nat i)) as [t Ht]; [unfold zlen in *; lia|].
  rewrite Ht. unfold Grammar.tk. by rewrite (nth_lookup_Some _ _ _ _ Ht).
Qed.

Lemma cur_eq s : inb s -> cur toks s = Ok (tk (p_pos s), s).
Proof.
  intros [? ?]. unfold cur, bind, get. destruct (p_pos s <? n) eqn:?; zb; [|lia].
  by apply tok_at_eq.
Qed.

Lemma peek_at_eq off s : inb s -> 0 <= off -> peek_at toks off s = Ok (kd (p_pos s + off), s).
Proof.
  intros [? ?] ?. unfold peek_at, bind, get, ret. destruct (p_pos s + off <? n) eqn:?; zb.
  - by rewrite tok_at_eq by lia.
  - by rewrite last_eof by lia.
Qed.

Lemma peek_eq s : inb s -> peek toks s = Ok (kd (p_pos s), s).
Proof. intros. unfold peek. by rewrite peek_at_eq, Z.add_0_r. Qed.

Lemma next_is_eq k s : inb s -> next_is toks k s = Ok (tk_eqb (kd (p_pos s)) k, s).
Proof. intros. unfold next_is, bind, ret. by rewrite peek_eq. Qed.

Lemma next_in_eq ks s : inb s -> next_in toks ks s = Ok (tk_in (kd (p_pos s)) ks, s).
Proof. intros. unfold next_in, bind, ret. by rewrite peek_eq. Qed.

Lemma next_at_is_eq off k s :
  inb s -> 0 <= off -> next_at_is toks off k s = Ok (tk_eqb (kd (p_pos s + off)) k, s).
Proof. intros. unfold next_at_is, bind, ret. by rewrite peek_at_eq. Qed.

Lemma mand_eq a b x y s : a s = Ok (x, s) -> b s = Ok (y, s) -> mand a b s = Ok (x && y, s).
Proof. unfold mand, bind, ret. intros -> H. by destruct x. Qed.

Lemma mand_eq_if a b x y s :
  a s = Ok (x, s) -> (x = true -> b s = Ok (y, s)) -> mand a b s = Ok (x && y, s).
Proof. unfold mand, bind, ret. intros -> H. destruct x; auto. Qed.

Lemma mor_eq a b x y s : a s = Ok (x, s) -> b s = Ok (y, s) -> mor a b s = Ok (x || y, s).
Proof. unfold mor, bind, ret. intros -> H. by destruct x. Qed.

Lemma here_is_eq off k s :
  inb s -> 0 <= off -> k <> TK_EOF ->
  here_is toks off k s = Ok (tk_eqb (kd (p_pos s + off)) k, s).
Proof.
  intros [? ?] ? ?. unfold here_is, bind, get, ret. destruct (p_pos s + off <? n) eqn:?; zb.
  - by rewrite tok_at_eq by lia.
  - rewrite last_eof by lia. do 2 f_equal. symmetry. apply tk_eqb_false. congruence.
Qed.

Lemma here_is_not_eq off k s :
  inb s -> 0 <= off ->
  here_is_not toks off k s
  = Ok ((p_pos s + off <? n) && negb (tk_eqb (kd (p_pos s + off)) k), s).
Proof.
  intros [? ?] ?. unfold here_is_not, bind, get, ret. destruct (p_pos s + off <? n) eqn:?; zb; [|done].
  by rewrite tok_at_eq by lia.
Qed.

Lemma src_range_eq a l (s : Parser) :
  0 <= a -> 0 <= l -> a + l <= zlen src -> src_range src a l s = Ok (slice src a l, s).
Proof.
  intros. unfold src_range. by rewrite !(proj2 (Z.leb_le _ _)) by done.
Qed.

Lemma teq_eq i w s :
  0 <= i < n -> teq src (tk i) w s = Ok (bytes_eqb (text toks src i) w, s).
Proof.
  intros Hi. destruct (tk_span i Hi) as (? & ? & ?). unfold teq, bind, ret.
  destruct (t_len (tk i) =? zlen w) eqn:E; zb.
  - by rewrite src_range_eq by done.
  - do 2 f_equal. symmetry. apply not_true_iff_false. rewrite bytes_eqb_eq. intros E2.
    apply E. rewrite <- E2. unfold text. by rewrite zlen_slice.
Qed.

Lemma cur_teq_eq w s :
  inb s -> (do t <- cur toks; teq src t w) s = Ok (bytes_eqb (text toks src (p_pos s)) w, s).
Proof. intros Hi. unfold bind at 1. rewrite cur_eq by done. apply teq_eq, Hi. Qed.

Lemma extract_eq i z s : 0 <= i < n -> exists w, tok_text_extract src (tk i) z s = Ok (w, s).
Proof.
  intros Hi. destruct (tk_span i Hi) as (? & ? & ?). unfold tok_text_extract.
  case_match; [|by eexists]. rewrite src_range_eq by done. by eexists.
Qed.

(** ** Moving *)

Lemma loop_fuel_ok z : z <= n + MAX_PARSE_ERRORS -> (Z.to_nat z < loop_fuel toks)%nat.
Proof. unfold loop_fuel, MAX_PARSE_ERRORS. pose proof (zlen_nonneg toks). lia. Qed.

Lemma wp_adv (Q : Token -> Parser -> Prop) i s :
  inb s -> kd (p_pos s) <> TK_EOF -> i = p_pos s + 1 ->
  (p_pos s + 1 < n -> Q (tk (p_pos s)) (set_pos i s)) -> wp (adv toks) Q s.
Proof.
  intros Hi Hk -> HQ. pose proof (kd_lt _ _ eq_refl Hk). unfold adv.
  wp_step. eapply wp_test; [by apply cur_eq|]. wp_step. wp_step. wp_step.
  apply wp_when; intros Hb; zb; [|lia]. wp_step. wp_step. apply HQ. lia.
Qed.

Lemma fr_adv s i : inb s -> p_pos s <= i < n -> fr s (set_pos i s).
Proof. intros. apply fr_set; [by apply fr_refl|done]. Qed.

(** [sync] only moves forward. *)
Lemma wp_sync (Q : unit -> Parser -> Prop) s :
  inb s -> (forall s', fr s s' -> p_errs s' = p_errs s -> Q tt s') -> wp (sync toks) Q s.
Proof.
  intros Hi HQ. unfold sync.
  apply (wp_iter (fun _ s' => fr s s' /\ p_errs s' = p_errs s)
           (fun _ s' => Z.to_nat (n - p_pos s'))).
  { split; [by apply fr_refl|done]. }
  { destruct Hi. apply loop_fuel_ok. unfold MAX_PARSE_ERRORS. lia. }
  intros _ s' [Hf He]. destruct (fr_pos _ _ Hf). destruct Hi.
  assert (Hi' : inb s') by (split; lia).
  wp_step. eapply wp_test; [by apply peek_eq|].
  destruct (tk_eqb (kd (p_pos s')) TK_EOF) eqn:Hk; [wp_step; auto|]. apply tk_eqb_false in Hk.
  destruct (tk_in _ _).
  { wp_step. eapply wp_adv; [done..|]. intros. wp_step. apply HQ; [|done].
    eapply fr_set; [done|]. lia. }
  destruct (tk_in _ _); [wp_step; auto|].
  wp_step. eapply wp_adv; [done..|]. intros. wp_step. split_and!; [|done|simpl; lia].
  eapply fr_set; [done|]. lia.
Qed.

Lemma wp_sync_ret {A} (a : A) (Q : A -> Parser -> Prop) s :
  inb s -> (forall s', fr s s' -> p_errs s' = p_errs s -> Q a s') -> wp (sync_ret toks a) Q s.
Proof. intros Hi HQ. unfold sync_ret. wp_step. apply wp_sync; [done|]. auto. Qed.

(** ** Errors and warnings *)

Lemma drel_succ s d : drel 1 (p_diags s) d -> drel (p_errs s + 1 - p_errs s) (p_diags s) d.
Proof. intros. by replace (p_errs s + 1 - p_errs s) with 1 by lia. Qed.

(** The state after an error: nothing but the error has changed. *)
Definition erred (s s' : Parser) : Prop :=
  fr s s' /\ p_errs s' = p_errs s + 1 /\ p_pos s' = p_pos s.

Lemma erred_intro s s' :
  inb s -> p_pos s' = p_pos s -> p_errs s' = p_errs s + 1 -> p_in_sc s' = p_in_sc s ->
  drel 1 (p_diags s) (p_diags s') -> erred s s'.
Proof.
  intros [? ?] Hp He Hs Hd. split_and!; [|done..]. split; [lia|lia|done|].
  rewrite He. by apply drel_succ.
Qed.

Lemma wp_eerr c t (Q : unit -> Parser -> Prop) s :
  inb s -> (forall s', erred s s' -> Q tt s') -> wp (eerr c t) Q s.
Proof.
  intros Hi HQ. unfold eerr. wp_step. wp_step. unfold pdiag. wp_step. simpl. apply HQ.
  apply erred_intro; [done..|]. by eapply drel_emit.
Qed.

Lemma wp_eerr_plain c t (Q : unit -> Parser -> Prop) s :
  inb s -> (forall s', erred s s' -> Q tt s') -> wp (eerr_plain c t) Q s.
Proof.
  intros Hi HQ. unfold eerr_plain, pdiag. wp_step. wp_step. wp_step. apply HQ.
  apply erred_intro; [done..|]. by eapply drel_emit.
Qed.

Lemma wp_eerr_nospan c t (Q : unit -> Parser -> Prop) s :
  inb s -> (forall s', erred s s' -> Q tt s') -> wp (eerr_nospan c t) Q s.
Proof.
  intros Hi HQ. unfold eerr_nospan, pdiag. wp_step. wp_step. wp_step. apply HQ.
  apply erred_intro; [done..|]. by eapply drel_emit.
Qed.

Lemma wp_eerr_got c i (Q : unit -> Parser -> Prop) s :
  inb s -> 0 <= i < n -> (forall s', erred s s' -> Q tt s') -> wp (eerr_got src c (tk i)) Q s.
Proof.
  intros Hi Hin HQ. unfold eerr_got. wp_step.
  destruct (extract_eq i 64 s Hin) as [w Hw]. eapply wp_test; [done|].
  wp_step. wp_step. unfold pdiag. wp_step. simpl. apply HQ.
  apply erred_intro; [done..|]. by eapply drel_emit.
Qed.

Lemma wp_ewarn c t (Q : unit -> Parser -> Prop) s :
  inb s -> (forall s', fr s s' -> p_errs s' = p_errs s -> p_pos s' = p_pos s -> Q tt s') ->
  wp (ewarn c t) Q s.
Proof.
  intros [? ?] HQ. unfold ewarn, pdiag. wp_step. apply HQ; [|done..].
  split; simpl; [lia|lia|done|]. rewrite Z.sub_diag. by eapply drel_emit.
Qed.

Lemma wp_opt_semi (Q : unit -> Parser -> Prop) s :
  inb s ->
  (forall s', fr s s' -> (p_errs s' = p_errs s -> g_semi toks (p_pos s) (p_pos s')) -> Q tt s') ->
  wp (opt_semi toks src) Q s.
Proof.
  intros Hi HQ. unfold opt_semi. wp_step. eapply wp_test; [by apply next_is_eq|].
  destruct (tk_eqb _ _) eqn:Hk.
  { apply tk_eqb_true in Hk. wp_step. eapply wp_adv; [done|by rewrite Hk|done|]. intros.
    wp_step. apply HQ; [apply fr_adv; [done|lia]|]. intros _. by apply gs_semi. }
  wp_step. eapply wp_test; [by apply next_in_eq|]. destruct (tk_in _ _) eqn:Hin.
  { wp_step. apply HQ; [by apply fr_refl|]. intros _. apply gs_none.
    apply tk_in_true in Hin. rewrite !elem_of_cons, elem_of_nil in Hin. tauto. }
  wp_step. eapply wp_test; [by apply cur_eq|]. wp_step.
  destruct (extract_eq (p_pos s) 64 s (proj1 Hi)) as [w Hw]. eapply wp_test; [done|].
  wp_step. wp_step. unfold pdiag. wp_step. simpl.
  match goal with |- Q tt ?s' => assert (H : erred s s') end.
  { apply erred_intro; [done..|]. by eapply drel_emit. }
  destruct H as (? & He & ?). apply HQ; [done|lia].
Qed.

(** ** Expecting a token *)

Lemma wp_xp k (Q : option Token -> Parser -> Prop) s i :
  inb s -> k <> TK_EOF -> i = p_pos s + 1 ->
  (kd (p_pos s) = k -> p_pos s + 1 < n -> Q (Some (tk (p_pos s))) (set_pos i s)) ->
  (forall s', erred s s' -> Q None s') -> wp (xp toks src k) Q s.
Proof.
  intros Hi Hk -> Hyes Hno. unfold xp. wp_step. eapply wp_test; [by apply next_is_eq|].
  destruct (tk_eqb _ _) eqn:E.
  { apply tk_eqb_true in E. wp_step. eapply wp_adv; [done|congruence|done|]. intros.
    wp_step. by apply Hyes. }
  wp_step. eapply wp_test; [by apply cur_eq|]. wp_step.
  destruct (extract_eq (p_pos s) 64 s (proj1 Hi)) as [w Hw]. eapply wp_test; [done|].
  wp_step. eapply wp_test; [by apply next_is_eq|].
  wp_step. wp_step. wp_step. unfold pdiag. wp_step. wp_step. simpl. apply Hno.
  apply erred_intro; [done..|]. by eapply drel_emit.
Qed.

(** The token is known to be there. *)
Lemma wp_xp_yes k (Q : option Token -> Parser -> Prop) s i :
  inb s -> kd (p_pos s) = k -> k <> TK_EOF -> i = p_pos s + 1 ->
  (p_pos s + 1 < n -> Q (Some (tk (p_pos s))) (set_pos i s)) -> wp (xp toks src k) Q s.
Proof.
  intros Hi E Hk -> HQ. unfold xp. wp_step. eapply wp_test; [by apply next_is_eq|].
  rewrite E. rewrite (proj2 (tk_eqb_true k k)) by done. wp_step.
  eapply wp_adv; [done|congruence|done|]. intros. wp_step. auto.
Qed.

Lemma wp_expect {A} k (fail : PM A) cont (Q : A -> Parser -> Prop) s i :
  inb s -> k <> TK_EOF -> i = p_pos s + 1 ->
  (kd (p_pos s) = k -> p_pos s + 1 < n -> wp (cont (tk (p_pos s))) Q (set_pos i s)) ->
  (forall s', erred s s' -> wp fail Q s') -> wp (expect toks src k fail cont) Q s.
Proof.
  intros Hi Hk Hs Hyes Hno. unfold expect. wp_step. eapply wp_xp; [done..| |].
  - intros. by apply Hyes.
  - intros. by apply Hno.
Qed.

Lemma wp_close k (Q : unit -> Parser -> Prop) s i :
  inb s -> k <> TK_EOF -> i = p_pos s + 1 ->
  (kd (p_pos s) = k -> p_pos s + 1 < n -> Q tt (set_pos i s)) ->
  (forall s', fr s s' -> p_errs s < p_errs s' -> Q tt s') ->
  wp (close toks src k) Q s.
Proof.
  intros Hi Hk Hs Hyes Hno. unfold close. eapply wp_expect; [done..| |].
  - intros. wp_step. by apply Hyes.
  - intros s' (Hf & He & Hp). assert (Hi' : inb s').
    { destruct Hi, (fr_pos _ _ Hf). split; lia. }
    wp_step. eapply wp_test; [by apply cur_eq|]. apply wp_eerr; [done|].
    intros s2 (Hf2 & He2 & Hp2). apply Hno; [by eapply fr_trans|lia].
Qed.

Lemma wp_skip_semi (Q : unit -> Parser -> Prop) s :
  inb s ->
  (forall s', fr s s' -> p_errs s' = p_errs s -> g_opt toks TK_SEMI (p_pos s) (p_pos s') ->
     Q tt s') -> wp (skip_semi toks) Q s.
Proof.
  intros Hi HQ. unfold skip_semi. wp_step. eapply wp_test; [by apply next_is_eq|].
  wp_step.
  - apply tk_eqb_true in H. wp_step. eapply wp_adv; [done|by rewrite H|done|]. intros.
    wp_step. apply HQ; [apply fr_adv; [done|lia]|done|]. by apply go_some.
  - apply HQ; [by apply fr_refl|done|apply go_none].
Qed.

Lemma wp_python_colon (Q : unit -> Parser -> Prop) s :
  inb s ->
  (forall s', fr s s' -> p_errs s' = p_errs s -> g_opt toks TK_COLON (p_pos s) (p_pos s') ->
     Q tt s') -> wp (python_colon toks) Q s.
Proof.
  intros Hi HQ. unfold python_colon. wp_step. eapply wp_test; [by apply next_is_eq|].
  wp_step.
  - apply tk_eqb_true in H. wp_step. eapply wp_test; [by apply cur_eq|]. wp_step.
    apply wp_ewarn; [done|]. intros s' Hf He Hp. pose proof (fr_pos _ _ Hf) as [? ?].
    destruct Hi. wp_step. eapply wp_adv; [split; lia|by rewrite Hp, H|done|]. intros.
    wp_step. apply HQ; [eapply fr_set; [done|lia]|done|]. simpl. rewrite Hp. by apply go_some.
  - apply HQ; [by apply fr_refl|done|apply go_none].
Qed.

End Base.
