(* ===== verification/ParserTypes.v ===== *)
(** * Soundness of the parser, part 1: proof tactics and type expressions

    [sp B R m]: run from a state whose remaining tokens are at most [B], [m]
    terminates, keeps the frame, and, when it reports no error, its result
    satisfies [R]. *)

From Stdlib Require Import ZArith Lia String Ascii.
From stdpp Require Import base tactics list.
From S2P Require Import Prelude Diag Lexer Ast Parser Grammar ParserBase.
Open Scope Z_scope.

Lemma existsb_bytes w l : existsb (bytes_eqb w) l = true -> w ∈ l.
Proof.
  induction l as [|x l IH]; simpl; [done|].
  rewrite orb_true_iff, bytes_eqb_eq, elem_of_cons. intros [->|?]; auto.
Qed.

Section Scalar.
Context (toks : list Token) (src : list Z) (exact : bool).
Context (Hok : setting toks src exact).
Abbreviation kd := (kd toks).
Abbreviation tk := (tk toks).

Lemma is_scalar_eq i s :
  0 <= i < zlen toks ->
  is_scalar src (tk i) s
  = Ok (tk_in (kd i) [TK_IDENT; TK_TYPE_IDENT] && existsb (bytes_eqb (text toks src i)) SCALARS, s).
Proof.
  intros Hi. unfold is_scalar. change (t_kind (tk i)) with (kd i). destruct (tk_in _ _); [|done]. rewrite andb_true_l.
  generalize SCALARS. induction l as [|w l IH]; [done|].
  unfold bind, ret in *. rewrite (teq_eq _ _ _ Hok) by done. simpl.
  destruct (bytes_eqb (text toks src i) w); [done|]. apply IH.
Qed.

Lemma at_spawn_eq s :
  inb toks s ->
  at_spawn toks src s
  = Ok (p_in_sc s && (tk_eqb (kd (p_pos s)) TK_IDENT
                      && bytes_eqb (text toks src (p_pos s)) (bytes_of "spawn")), s).
Proof.
  intros Hi. unfold at_spawn, bind, get, ret. destruct (p_in_sc s); [|done].
  rewrite andb_true_l. apply mand_eq; [by eapply next_is_eq|by eapply cur_teq_eq].
Qed.

Lemma at_arena_eq s :
  inb toks s ->
  at_arena toks src s
  = Ok (tk_eqb (kd (p_pos s + 1)) TK_IDENT
        && bytes_eqb (text toks src (p_pos s + 1)) (bytes_of "arena"), s).
Proof.
  intros Hi. unfold at_arena. apply mand_eq_if; [eapply here_is_eq; done|].
  intros Hk%tk_eqb_true. unfold bind, get.
  pose proof (kd_lt _ _ _ Hok _ _ Hk ltac:(done)). unfold inb in *.
  rewrite tok_at_eq by lia. apply (teq_eq _ _ _ Hok). lia.
Qed.

(** A keyword prefix only warns. *)
Lemma wp_check_prefix i (Q : unit -> Parser -> Prop) s :
  inb toks s -> 0 <= i < zlen toks ->
  (forall s', fr toks exact s s' -> p_errs s' = p_errs s -> p_pos s' = p_pos s -> Q tt s') ->
  wp (check_stmt_keyword_prefix src (tk i)) Q s.
Proof.
  intros Hi Hn HQ. destruct (tk_span _ _ _ Hok i Hn) as (? & ? & ?).
  unfold check_stmt_keyword_prefix. wp_step. eapply wp_test; [by apply src_range_eq|].
  wp_step; [by apply (wp_ewarn toks exact)|]. apply HQ; [by apply fr_refl|done..].
Qed.

End Scalar.

(** ** Tactics *)

(** [x + a + b] with numerals is [x + c]. *)
Ltac zn :=
  cbn [p_pos p_errs p_in_sc p_diags set_pos]; cbv iota beta;
  repeat match goal with
  | |- context [set_pos ?i (set_pos ?j ?s)] =>
      change (set_pos i (set_pos j s)) with (set_pos i s)
  | |- context [?x + Zpos ?a + Zpos ?b] =>
      let c := eval vm_compute in (Zpos a + Zpos b) in
      replace (x + Zpos a + Zpos b) with (x + c) by lia
  end.

(** The position after the one of [s]. *)
Ltac next_pos s k :=
  let p := eval cbn [p_pos set_pos] in (p_pos s) in
  lazymatch p with
  | ?x + Zpos ?a => let c := eval vm_compute in (Zpos a + 1) in k constr:(x + c)
  | _ => k constr:(p + 1)
  end.

Ltac ib := unfold inb in *; cbn [p_pos p_errs set_pos set_in_sc]; lia.

Lemma level_ops_eof lv k : tk_in k (level_ops lv) = true -> k <> TK_EOF.
Proof. intros H ->. by destruct lv. Qed.

(** A token kind known not to be EOF. *)
Ltac knz :=
  cbn [p_pos set_pos];
  try match goal with H : p_pos ?a = _ |- kd _ (p_pos ?a) <> _ => rewrite H end;
  first [eapply level_ops_eof; eassumption | knz_kind]
with knz_kind :=
  let E := fresh in intros E;
  match goal with H : context [kd _ _] |- _ => rewrite E in H; discriminate H end.

(** Facts of a new state. *)
Ltac fr_facts F :=
  pose proof (fr_pos _ _ _ _ F); pose proof (fr_errs _ _ _ _ F);
  let E := fresh "Esc" in
  pose proof (fr_sc _ _ _ _ F) as E;
  cbn [p_pos p_errs p_in_sc p_diags set_pos] in *;
  repeat match goal with
  | H : p_in_sc ?b = p_in_sc ?c |- _ =>
      lazymatch type of E with
      | p_in_sc _ = p_in_sc b => rewrite H in E
      end
  end.

Ltac sc_in C :=
  repeat match goal with
  | H : p_in_sc ?a = p_in_sc _ |- _ =>
      lazymatch type of C with context [p_in_sc a] => rewrite H in C end
  end.

(** Frames compose along the run. *)
Ltac fr_solve :=
  lazymatch goal with
  | |- fr _ _ ?a ?a => apply fr_refl; ib
  | |- fr _ _ ?a (set_pos ?i ?b) => apply fr_set; [fr_solve | cbn [p_pos set_pos]; lia]
  | F : fr ?t ?e ?b ?c |- fr ?t ?e ?a ?c =>
      first [exact F | refine (fr_trans t e a b c _ F); fr_solve]
  end.

(** Solve an equation for a pure test. *)
Ltac solve_test :=
  lazymatch goal with Hok : setting _ _ _ |- _ =>
    first
      [ eapply (next_is_eq _ _ _ Hok); ib
      | eapply (next_in_eq _ _ _ Hok); ib
      | eapply (next_at_is_eq _ _ _ Hok); [ib|lia]
      | eapply (here_is_eq _ _ _ Hok); [ib|lia|discriminate]
      | eapply here_is_not_eq; [ib|lia]
      | eapply (peek_eq _ _ _ Hok); ib
      | eapply cur_eq; ib
      | eapply (cur_teq_eq _ _ _ Hok); ib
      | eapply (teq_eq _ _ _ Hok); cbn [p_pos set_pos]; unfold inb in *; lia
      | eapply (at_spawn_eq _ _ _ Hok); ib
      | eapply (at_arena_eq _ _ _ Hok); ib
      | eapply (is_scalar_eq _ _ _ Hok); cbn [p_pos set_pos]; unfold inb in *; lia
      | eapply mand_eq; [solve_test|solve_test]
      | eapply mor_eq; [solve_test|solve_test] ]
  end.

(** Conclusions of a test. *)
Ltac kb H :=
  lazymatch type of H with
  | (_ && _) = true =>
      let A := fresh "K" in let B := fresh "K" in
      apply andb_prop in H; destruct H as [A B]; kb A; kb B
  | tk_eqb _ _ = true => apply tk_eqb_true in H
  | tk_eqb _ _ = false => apply tk_eqb_false in H
  | bytes_eqb _ _ = true => apply bytes_eqb_eq in H
  | negb _ = true => apply negb_true_iff in H; kb H
  | negb _ = false => apply negb_false_iff in H; kb H
  | (_ <? _) = true => apply Z.ltb_lt in H
  | (_ <? _) = false => apply Z.ltb_ge in H
  | (_ <=? _) = true => apply Z.leb_le in H
  | (_ <=? _) = false => apply Z.leb_gt in H
  | (_ =? _) = true => apply Z.eqb_eq in H
  | (_ =? _) = false => apply Z.eqb_neq in H
  | _ => idtac
  end.

Ltac kcase b := let K := fresh "K" in destruct b eqn:K; kb K.

(** A token that is both of a kind and not of it. *)
Ltac kcontra :=
  exfalso;
  match goal with
  | H : kd _ ?i = _, K : tk_in (kd _ ?i) _ = false |- _ => rewrite H in K; discriminate K
  | H : kd _ ?i = ?k, K : kd _ ?i <> ?k |- _ => exact (K H)
  end.

(** A state after an error. *)
Ltac new_err := let F := fresh "F" in intros ? (F & ? & ?); fr_facts F.

(** One step of a parse function. *)
Ltac ps :=
  lazymatch goal with
  | |- wp (bind _ _) _ _ => apply wp_bind; cbn beta
  | |- wp (ret _) _ _ => apply wp_ret; cbn beta iota
  | |- wp (add _ _) _ _ => unfold add; apply wp_bind; cbn beta
  | |- wp get _ _ => apply wp_get; cbn beta
  | |- wp (gets _) _ _ => apply wp_gets; cbn beta
  | |- wp (if true then _ else _) _ _ => cbv iota
  | |- wp (if false then _ else _) _ _ => cbv iota
  | |- wp (if ?b then _ else _) _ _ => kcase b
  | |- wp (match ?x with Some _ => _ | None => _ end) _ _ => destruct x as [?|]; cbv iota
  | |- wp (when ?b _) _ _ => let K := fresh "K" in apply wp_when; intros K; kb K
  | Hok : setting _ _ _ |- wp (adv _) _ ?s =>
      next_pos s ltac:(fun i => eapply (wp_adv _ _ _ Hok _ i); [ib|knz|zn; lia|]);
      zn; intros ?
  | Hok : setting _ _ _ |- wp (xp _ _ _) _ ?s =>
      next_pos s ltac:(fun i =>
        first
          [ eapply (wp_xp_yes _ _ _ Hok _ _ _ i);
            [ib|zn; eassumption|discriminate|zn; lia|zn; intros ?]
          | eapply (wp_xp _ _ _ Hok _ _ _ i); [ib|discriminate|zn; lia| |];
            [zn; intros ? ?; try kcontra | new_err] ])
  | Hok : setting _ _ _ |- wp (expect _ _ _ _ _) _ ?s =>
      next_pos s ltac:(fun i => eapply (wp_expect _ _ _ Hok _ _ _ _ _ i);
        [ib|discriminate|zn; lia| |]);
      [zn; intros ? ?; try kcontra | new_err]
  | Hok : setting _ _ _ |- wp (close _ _ _) _ ?s =>
      next_pos s ltac:(fun i => eapply (wp_close _ _ _ Hok _ _ _ i);
        [ib|discriminate|zn; lia| |]);
      [zn; intros ? ? | let F := fresh "F" in intros ? F ?; fr_facts F]
  | Hok : setting _ _ _ |- wp (sync _) _ _ =>
      eapply (wp_sync _ _ _ Hok); [ib|let F := fresh "F" in intros ? F ?; fr_facts F]
  | Hok : setting _ _ _ |- wp (sync_ret _ _) _ _ =>
      eapply (wp_sync_ret _ _ _ Hok); [ib|let F := fresh "F" in intros ? F ?; fr_facts F]
  | Hok : setting ?t ?s ?e |- wp (eerr _ _) _ _ => eapply (wp_eerr t e); [ib|new_err]
  | Hok : setting ?t ?s ?e |- wp (eerr_plain _ _) _ _ => eapply (wp_eerr_plain t e); [ib|new_err]
  | Hok : setting ?t ?s ?e |- wp (eerr_nospan _ _) _ _ =>
      eapply (wp_eerr_nospan t e); [ib|new_err]
  | Hok : setting _ _ _ |- wp (eerr_got _ _ _) _ _ =>
      eapply (wp_eerr_got _ _ _ Hok);
      [ib|cbn [p_pos set_pos]; unfold inb in *; lia|new_err]
  | Hok : setting ?t ?s ?e |- wp (ewarn _ _) _ _ =>
      eapply (wp_ewarn t e); [ib|let F := fresh "F" in intros ? F ? ?; fr_facts F]
  | Hok : setting _ _ _ |- wp (check_stmt_keyword_prefix _ _) _ _ =>
      eapply (wp_check_prefix _ _ _ Hok);
      [ib|unfold inb in *; lia|let F := fresh "F" in intros ? F ? ?; fr_facts F]
  | |- wp (value_or_sync _ _ _ _) _ _ => unfold value_or_sync
  | Hok : setting _ _ _ |- wp (opt_semi _ _) _ _ =>
      eapply (wp_opt_semi _ _ _ Hok);
      [ib|let F := fresh "F" in let C := fresh "C" in intros ? F C; fr_facts F]
  | Hok : setting _ _ _ |- wp (skip_semi _) _ _ =>
      eapply (wp_skip_semi _ _ _ Hok); [ib|let F := fresh "F" in intros ? F ? ?; fr_facts F]
  | Hok : setting _ _ _ |- wp (python_colon _) _ _ =>
      eapply (wp_python_colon _ _ _ Hok); [ib|let F := fresh "F" in intros ? F ? ?; fr_facts F]
  | |- wp _ _ _ => eapply wp_test; [solve_test|]; zn
  end.

Ltac pss := repeat ps.

(** A kind or a text that a hypothesis gives, up to the form of the index. *)
Ltac ktac :=
  first
    [ eassumption
    | match goal with
      | H : kd _ ?y = ?k |- kd _ ?x = ?k => replace x with y by lia; exact H
      end
    | lia ].

Section Sp.
Context (toks : list Token) (src : list Z) (exact : bool).
Context (Hok : setting toks src exact).
Abbreviation n := (zlen toks).
Abbreviation kd := (kd toks).
Abbreviation tk := (tk toks).
Abbreviation G := (G toks src).
Abbreviation fr := (fr toks exact).
Abbreviation inb := (inb toks).

Definition sp {A} (B : Z) (R : bool -> Z -> Z -> A -> Prop) (m : PM A) : Prop :=
  forall s, inb s -> n - p_pos s <= B ->
  wp m (fun a s' => fr s s' /\
          (p_errs s' = p_errs s -> R (p_in_sc s) (p_pos s) (p_pos s') a)) s.

(** The result is a phrase [X], and it is not empty. *)
Definition phrase (X : nonterm) (sc : bool) (i j : Z) (a : option Node) : Prop :=
  exists c, a = Some c /\ i < j /\ G sc X i j c.

(** The node is a phrase [X], which may be empty. *)
Definition extends (X : nonterm) (sc : bool) (i j : Z) (a : Node) : Prop := G sc X i j a.

Lemma sp_use {A} B R (m : PM A) s :
  sp B R m -> inb s -> n - p_pos s <= B ->
  wp m (fun a s' => fr s s' /\
          (p_errs s' = p_errs s -> R (p_in_sc s) (p_pos s) (p_pos s') a)) s.
Proof. intros H. apply H. Qed.

(** What the recursive entry points promise on at most [F] remaining tokens. *)
Record rec_ok (rec : Rec) (F : Z) : Prop := {
  ro_type : sp F (phrase NT_type) (r_type_expr rec);
  ro_expr : sp F (phrase NT_expr) (r_expr rec);
  ro_unary : sp F (phrase NT_unary) (r_unary rec);
  ro_if : forall b, sp F (phrase (NT_if b)) (r_if_core rec b);
  ro_stmts : forall ref, sp F (extends (NT_stmts ref)) (r_stmt_list rec ref)
}.

(** A call that yields a phrase moves on or reports an error. *)
Lemma phrase_moves X sc (s s' : Parser) a :
  (p_errs s' = p_errs s -> phrase X sc (p_pos s) (p_pos s') a) -> p_errs s <= p_errs s' ->
  p_pos s < p_pos s' \/ p_errs s < p_errs s'.
Proof.
  intros C ?. destruct (decide (p_errs s' = p_errs s)) as [E|]; [|right; lia].
  destruct (C E) as (? & ? & ? & ?). by left.
Qed.

Lemma sp_weaken {A} B B' R (m : PM A) : sp B R m -> B' <= B -> sp B' R m.
Proof. intros H Hle s ? ?. apply H; [done|lia]. Qed.

End Sp.

(** Loops over the tokens: every turn that goes on has consumed a token; [I] is an
    invariant of all runs, [J] one of error-free runs. *)
Lemma wp_loop_inv {A B} toks exact (I : A -> Prop) (J : A -> Z -> Prop) (K : B -> Z -> Prop)
    (body : A -> PM (A + B)) a0 s0 :
  inb toks s0 -> I a0 -> J a0 (p_pos s0) ->
  (forall a s1, inb toks s1 -> I a -> p_pos s0 <= p_pos s1 -> p_in_sc s1 = p_in_sc s0 ->
     wp (body a) (fun r s' =>
       match r with
       | inl a' => I a' /\
                   (fr toks exact s1 s' /\
                    (p_errs s' = p_errs s1 -> J a (p_pos s1) -> J a' (p_pos s'))) /\
                   p_pos s1 < p_pos s'
       | inr b => fr toks exact s1 s' /\
                  (p_errs s' = p_errs s1 -> J a (p_pos s1) -> K b (p_pos s'))
       end) s1) ->
  wp (iter (loop_fuel toks) body a0)
    (fun b s' => fr toks exact s0 s' /\ (p_errs s' = p_errs s0 -> K b (p_pos s'))) s0.
Proof.
  intros Hi HI HJ Hbody.
  apply (wp_iter (fun a s' => I a /\ fr toks exact s0 s' /\
                              (p_errs s' = p_errs s0 -> J a (p_pos s')))
           (fun _ s' => Z.to_nat (zlen toks - p_pos s'))).
  { split; [done|]. split; [by apply fr_refl|done]. }
  { apply (loop_fuel_ok toks). unfold inb, MAX_PARSE_ERRORS in *. lia. }
  intros a s1 (HI1 & F1 & C1). pose proof (fr_pos _ _ _ _ F1). pose proof (fr_errs _ _ _ _ F1).
  unfold inb in *.
  eapply wp_conseq; [apply Hbody; [lia|done|lia|apply (fr_sc _ _ _ _ F1)]|].
  intros [a'|b] s'; [intros (? & [F2 C2] & ?)|intros [F2 C2]];
    pose proof (fr_errs _ _ _ _ F2).
  - split; [split; [done|split; [by eapply fr_trans|]]|pose proof (fr_pos _ _ _ _ F2); lia].
    intros. apply C2; [lia|]. apply C1. lia.
  - split; [by eapply fr_trans|]. intros. apply C2; [lia|]. apply C1. lia.
Qed.

Lemma wp_loop {A B} toks exact (J : A -> Z -> Prop) (K : B -> Z -> Prop)
    (body : A -> PM (A + B)) a0 s0 :
  inb toks s0 -> J a0 (p_pos s0) ->
  (forall a s1, inb toks s1 -> p_pos s0 <= p_pos s1 -> p_in_sc s1 = p_in_sc s0 ->
     wp (body a) (fun r s' =>
       match r with
       | inl a' => (fr toks exact s1 s' /\
                    (p_errs s' = p_errs s1 -> J a (p_pos s1) -> J a' (p_pos s'))) /\
                   p_pos s1 < p_pos s'
       | inr b => fr toks exact s1 s' /\
                  (p_errs s' = p_errs s1 -> J a (p_pos s1) -> K b (p_pos s'))
       end) s1) ->
  wp (iter (loop_fuel toks) body a0)
    (fun b s' => fr toks exact s0 s' /\ (p_errs s' = p_errs s0 -> K b (p_pos s'))) s0.
Proof.
  intros Hi HJ Hbody. apply (wp_loop_inv _ _ (fun _ => True) J K); [done..|].
  intros a s1 ? _ ? ?. eapply wp_conseq; [by apply Hbody|]. by intros [a'|b].
Qed.

Create HintDb sp.
#[export] Hint Resolve ro_type ro_expr ro_unary ro_if ro_stmts : sp.

Ltac after_call :=
  let F := fresh "F" in let C := fresh "C" in
  intros ? ? [F C]; fr_facts F; sc_in C; zn.

(** Run a command by its specification. *)
Ltac call H := eapply wp_conseq; [eapply H; [ib|zn; lia]|]; after_call.

(** The same, with a specification from the hint database. *)
Ltac call_db :=
  lazymatch goal with
  | Hok : setting ?t ?s ?e |- wp ?m _ _ =>
      eapply wp_conseq; [eapply (sp_use t e); [solve [eauto 6 with sp]|ib|zn; lia]|]; after_call
  end.

Ltac run := repeat first [ps | call_db].

(** Use the results of the calls of an error-free run. *)
Ltac clean :=
  repeat match goal with
  | C : p_errs ?a = p_errs ?b -> _ |- _ =>
      let H := fresh in assert (H : p_errs a = p_errs b) by lia; specialize (C H); clear H
  end;
  repeat match goal with
  | C : phrase _ _ _ _ _ _ ?a |- _ =>
      let E := fresh in
      destruct C as (? & E & ? & ?); first [discriminate E | injection E as <- | subst a]
  | C : extends _ _ _ _ _ _ _ |- _ => unfold extends in C
  end.

(** The end of a run: the frame, the measure of a loop, and what remains to show
    of a clean run. *)
Ltac leaf :=
  lazymatch goal with
  | |- (fr _ _ _ _ /\ (_ -> _)) /\ _ < _ => split; [leaf | zn; lia]
  | |- ?P /\ (fr _ _ _ _ /\ (_ -> _)) /\ _ < _ => split; [|leaf]
  | |- fr _ _ _ _ /\ (_ -> _) =>
      split; [solve [fr_solve]|];
      let Hc := fresh "Hc" in intros Hc; cbn [p_pos p_errs p_in_sc set_pos] in *;
      first [exfalso; lia | clean; zn; try (eexists; split; [reflexivity|]; split; [lia|])]
  end.

(** A rule of the grammar whose premises are at hand. *)
Ltac rule r :=
  eapply r; zn; try eassumption; try done; try (unfold node2; done); zn; try eassumption.

(** Run to the ends, of which the clean ones are left. *)
Ltac go := run; leaf.

Section Types.
Context (toks : list Token) (src : list Z) (exact : bool).
Context (Hok : setting toks src exact).
Context (rec : Rec) (F : Z).
Context (Hrec : rec_ok toks src exact rec F).
Abbreviation n := (zlen toks).
Abbreviation kd := (kd toks).
Abbreviation tk := (tk toks).
Abbreviation G := (G toks src).
Abbreviation sp := (sp toks exact).
Abbreviation phrase := (phrase toks src).
Abbreviation extends := (extends toks src).

Lemma sp_semi_items X B item n0 :
  sp B (phrase X) item -> sp (B + 1) (extends (NT_items X n0)) (semi_items toks item n0).
Proof.
  intros Hitem s Hi Hb. unfold semi_items.
  apply (wp_loop _ _ (fun a j => G (p_in_sc s) (NT_items X n0) (p_pos s) j a)
           (fun a j => G (p_in_sc s) (NT_items X n0) (p_pos s) j a));
    [done|apply gi_nil|]. intros a s1 Hi1 ? Hsc. go.
  - intros. by eapply gi_snoc.
  - done.
Qed.

Lemma sp_semi_items_until stop X B item n0 :
  sp B (phrase X) item ->
  sp (B + 1) (extends (NT_until stop X n0)) (semi_items_until toks stop item n0).
Proof.
  intros Hitem s Hi Hb. unfold semi_items_until.
  apply (wp_loop _ _ (fun a j => G (p_in_sc s) (NT_items X n0) (p_pos s) j a)
           (fun a j => G (p_in_sc s) (NT_until stop X n0) (p_pos s) j a));
    [done|apply gi_nil|]. intros a s1 Hi1 ? Hsc. go; intros HJ.
  - by apply gu_trail.
  - by eapply gi_snoc.
  - by apply gu_items.
Qed.

Hint Resolve sp_semi_items sp_semi_items_until : sp.

Lemma sp_func_type : sp (F + 1) (phrase NT_type) (parse_func_type toks src rec).
Proof.
  intros s Hi Hb. unfold parse_func_type. go.
  - by apply gt_func0.
  - by eapply gt_func.
Qed.

Hint Resolve sp_func_type : sp.

Lemma sp_type_expr : sp (F + 1) (phrase NT_type) (parse_type_expr toks src rec).
Proof.
  intros s Hi Hb. unfold parse_type_expr, parse_at_type, parse_bracket_type. go.
  - by apply gt_ptr.
  - by apply gt_qual.
  - by apply gt_name.
  - by eapply gt_at_map.
  - by eapply gt_at_paren.
  - by eapply gt_at.
  - by eapply gt_map.
  - by eapply gt_array.
  - done.
  - apply gt_scalar; [done|by apply existsb_bytes].
  - by apply gt_ident.
Qed.

End Types.

#[export] Hint Resolve sp_semi_items sp_semi_items_until sp_type_expr : sp.
