(* ===== verification/ParserExpr.v ===== *)
(** * Soundness of the parser, part 2: literals, expressions and statements

    Interpolated text runs the lexer and the parser again. *)

From Stdlib Require Import ZArith Lia String Ascii.
From stdpp Require Import base tactics list.
From S2P Require Import Prelude Diag Lexer LexSpec LexerFacts LexerCorrect LexProps Ast Parser Grammar.
From S2P Require Import ParserBase ParserTypes.
Open Scope Z_scope.

(** * Soundness of the parser, part 2: literals and string interpolation

    The tokens of a lexed text satisfy what the parser needs, so that the
    wrapper of every interpolated segment can be parsed; [attach_interp] reads
    only inside the literal and ends. *)

(** ** From the lexer to the parser *)

Lemma ordered_spans src profile p ts q :
  0 <= p -> q <= zlen src -> ordered p ts q ->
  Forall (fun t => exists q, token_at src profile t q) ts -> Forall (span_ok src) ts.
Proof.
  revert p. induction ts as [|t ts IH]; intros p Hp Hq Ho Ht; [done|].
  destruct Ho as [H1 H2]. inversion Ht as [|? ? [qt Hqt] Hts]; subst.
  assert (0 <= t_start t) as Ht0 by lia.
  destruct (token_bounds _ _ _ _ Ht0 Hqt) as (? & ? & ?).
  constructor; [split; lia|]. eapply IH; [|done..]. lia.
Qed.

(** The tokens of a successful run of the lexer are fit for the parser. *)
Lemma lex_toks_ok src cap profile d rc l :
  zlen src < cap -> lex src (zlen src) cap profile d = Ok (rc, l) -> rc <> -1 ->
  take (Z.to_nat rc) (l_out l) = l_out l /\ toks_ok (l_out l) src.
Proof.
  intros Hc E Hrc. pose proof (zlen_nonneg src).
  assert (0 <= cap) as Hc0 by lia.
  destruct (lex_success _ _ _ _ _ _ Hc0 E Hrc) as (l0 & Hi & -> & -> & _ & Hpos & _).
  split.
  - rewrite take_ge; [done|]. simpl. rewrite length_app. simpl.
    unfold l_out_n, zlen in *. lia.
  - split; [by exists (l_out l0), (eof_token l0)|].
    destruct (i_scan _ _ _ _ _ Hi) as (ok & Hs & _).
    destruct (scanned_tokens _ _ _ _ _ Hs) as (? & ? & ?).
    apply Forall_app; split; [by eapply ordered_spans; [| |done..]; lia|].
    constructor; [|done]. unfold eof_token. split; simpl; lia.
Qed.

(** The lexer only adds errors, and leaves the suppression as it is. *)
Lemma lex_runs src cap profile d :
  zlen src < cap ->
  exists rc l, lex src (zlen src) cap profile d = Ok (rc, l) /\ -1 <= rc /\
    s_suppress (l_diags l) = s_suppress d /\
    s_error_count (l_diags l) = s_error_count d + (if s_suppress d then 0 else l_err_count l) /\
    0 <= l_err_count l /\ (rc = -1 -> 0 < l_err_count l) /\ (rc <> -1 -> l_err_count l = 0).
Proof.
  intros Hc. pose proof (zlen_nonneg src).
  destruct (lex_total src cap profile d ltac:(lia)) as (rc & l & E & l0 & Hi & Hp).
  pose proof (inv_small _ _ _ _ _ Hc Hi). pose proof (i_err _ _ _ _ _ Hi).
  destruct (i_diags _ _ _ _ _ Hi) as [[Hs Hd]|]; [|lia].
  assert (Hrc : -1 <= rc /\ (rc = -1 -> 0 < l_err_count l0) /\ (rc <> -1 -> l_err_count l0 = 0)).
  { pose proof (zlen_nonneg (l_out l0)). unfold l_out_n in *.
    destruct Hp as [(? & ? & ?)|(_ & _ & [(? & ?)|(? & ? & ?)])]; lia. }
  exists rc, l. split; [done|]. destruct Hp as [(_ & -> & _)|(-> & _)]; simpl; tauto.
Qed.

Lemma lex_inner_ok wrap cap d :
  zlen wrap < cap ->
  exists o d', lex_inner wrap cap d = Ok (o, d') /\ s_error_count d <= s_error_count d' /\
    forall ts, o = Some ts -> toks_ok ts wrap.
Proof.
  intros Hc. destruct (lex_runs wrap cap PROFILE_DEFAULT d Hc) as (rc & l & E & ? & _ & He & ? & _).
  unfold lex_inner. rewrite E. eexists _, _. split; [done|]. split; [case_match; lia|].
  intros ts. destruct (0 <? rc) eqn:Hrc; [|done]. zb. intros [= <-].
  assert (rc <> -1) as Hrc1 by lia.
  by destruct (lex_toks_ok _ _ _ _ _ _ Hc E Hrc1) as [-> ?].
Qed.

Lemma wrapper_len seg : zlen (interp_wrapper seg) < zlen seg + 32.
Proof.
  unfold interp_wrapper. rewrite !zlen_app. pose proof (until_nul_len seg).
  change (zlen INTERP_WRAP) with 16. change (zlen (bytes_of ";};")) with 3. lia.
Qed.

(** ** The hypotheses on the inner parser *)

Definition inner_ok (inner : option (list Token -> list Z -> Diags -> res (option Node * Diags)))
    : Prop :=
  forall parse_, inner = Some parse_ ->
  forall ts w d, toks_ok ts w ->
  exists r d', parse_ ts w d = Ok (r, d') /\ s_error_count d <= s_error_count d'.

Section Interp.
Context (toks : list Token) (src : list Z) (profile : Profile).
Context (inner : option (list Token -> list Z -> Diags -> res (option Node * Diags))).
Context (exact : bool) (Hok : setting toks src exact) (Hin : inner_ok inner).
Context (Hex : exact = true -> inner = None \/ profile = PROFILE_LEGACY).
Abbreviation n := (zlen toks).
Abbreviation kd := (kd toks).
Abbreviation tk := (tk toks).

Lemma wp_interp_expr parse_ seg (Q : option Node -> Parser -> Prop) s :
  inner = Some parse_ -> exact = false -> inb toks s ->
  (forall e s', fr toks exact s s' -> p_errs s' = p_errs s -> p_pos s' = p_pos s -> Q e s') ->
  wp (interp_expr parse_ seg) Q s.
Proof.
  intros Hp Hx Hi HQ. unfold wp, interp_expr.
  destruct (lex_inner_ok (interp_wrapper seg) (zlen seg + 32) (diag_suppress true (p_diags s))
              (wrapper_len seg)) as (o & d1 & -> & Hd1 & Hts). simpl in Hd1.
  assert (Hfr : forall d, s_error_count d1 <= s_error_count d ->
    fr toks exact s (set_diags (diag_suppress false d) s)).
  { intros d Hd. destruct Hi. split; simpl; [lia|lia|done|]. rewrite Z.sub_diag.
    split; simpl; [lia|intros; split; [done|lia]|]. by rewrite Hx. }
  destruct o as [ts|]; [|by apply HQ; [apply Hfr; lia|..]].
  destruct (Hin _ Hp ts (interp_wrapper seg) d1 (Hts _ eq_refl)) as (r & d2 & -> & Hd2).
  by apply HQ; [apply Hfr|..].
Qed.

End Interp.

Section Attach.
Context (toks : list Token) (src : list Z) (profile : Profile).
Context (inner : option (list Token -> list Z -> Diags -> res (option Node * Diags))).
Context (exact : bool) (Hok : setting toks src exact) (Hin : inner_ok inner).
Context (Hex : exact = true -> inner = None \/ profile = PROFILE_LEGACY).

Lemma wp_seg_end start j end_ (Q : Z * Z -> Parser -> Prop) s :
  0 <= start -> 0 <= j <= end_ -> start + end_ <= zlen src ->
  (forall j' d, j <= j' <= end_ -> Q (j', d) s) -> wp (seg_end src start j end_) Q s.
Proof.
  intros H0 Hj He HQ. unfold seg_end. wp_step.
  apply (wp_iter (fun '(j', _, _) s' => s' = s /\ j <= j' <= end_)
           (fun '(j', _, _) _ => Z.to_nat (end_ - j'))); [split; [done|lia]|lia|].
  intros [[j' d] instr] s' [-> Hj']. cbv iota.
  destruct ((j' <? end_) && (0 <? d)) eqn:Hc; [|repeat wp_step; apply HQ; lia].
  zb. do 2 wp_step.
  repeat wp_step; zb; (split_and!; (done || lia)) || (apply HQ; lia).
Qed.

Lemma same_leaf_refl a : same_leaf a a.
Proof. by split_and!. Qed.

Lemma same_leaf_ch a b c : same_leaf a b -> same_leaf a (ch b c).
Proof. by destruct c. Qed.

Lemma wp_attach_interp sn (Q : Node -> Parser -> Prop) s :
  inb toks s -> 0 <= n_tok_start sn -> 0 <= n_tok_len sn ->
  n_tok_start sn + n_tok_len sn <= zlen src ->
  (forall sn' s', same_leaf sn sn' -> fr toks exact s s' -> p_errs s' = p_errs s ->
     p_pos s' = p_pos s ->
     (no_interp (slice src (n_tok_start sn) (n_tok_len sn)) = true -> sn' = sn) -> Q sn' s') ->
  wp (attach_interp src profile inner sn) Q s.
Proof.
  intros Hi H0 Hl Hs HQ. unfold attach_interp.
  assert (Hsame : Q sn s) by (apply HQ; [apply same_leaf_refl|by apply fr_refl|done..]).
  remember inner as inn eqn:Hinner. destruct inn as [parse_|]; [|by wp_step].
  destruct (bool_decide (profile = PROFILE_DEFAULT)) eqn:Hp; [|by wp_step].
  apply bool_decide_eq_true in Hp.
  assert (Hx : exact = false).
  { apply not_true_iff_false. intros Hx. destruct (Hex Hx); congruence. }
  apply (wp_iter (fun '(i, _, sn') s' => same_leaf sn sn' /\ fr toks exact s s' /\
            p_errs s' = p_errs s /\ p_pos s' = p_pos s /\ 1 <= i /\
            (no_interp (slice src (n_tok_start sn) (n_tok_len sn)) = true -> sn' = sn))
          (fun '(i, _, _) _ => Z.to_nat (n_tok_len sn - i))).
  { split_and!; [apply same_leaf_refl|by apply fr_refl|done..]. }
  { lia. }
  intros [[i nseg] sn'] s' (Hsn & Hf & He & Hpos & Hi1 & Hpl). unfold interp_step.
  destruct Hsn as (? & ? & ? & ? & Hst & Hln & ?). rewrite <- Hst, <- Hln.
  destruct ((i + 1 <? n_tok_len sn - 1) && (nseg <? INTERP_MAX_SEGS)) eqn:Hc;
    [|wp_step; by apply HQ; [by split_and!|..]].
  zb. do 2 wp_step. wp_step; [wp_step; split_and!; (done || lia)|]. do 2 wp_step.
  wp_step; [wp_step; split_and!; (done || lia)|]. wp_step.
  apply wp_seg_end; [lia..|]. intros j d Hj.
  wp_step; [wp_step; by apply HQ; [by split_and!|..]|].
  wp_step; [wp_step; split_and!; (done || lia)|]. zb.
  wp_step. eapply wp_test; [apply src_range_eq; lia|]. wp_step.
  eapply wp_interp_expr; [done..|unfold inb in *; rewrite Hpos, He; done|].
  intros e s2 Hf2 He2 Hp2.
  assert (Hf3 : fr toks exact s s2) by (by eapply fr_trans).
  assert (Hsn : same_leaf sn sn') by (by split_and!).
  assert (Hno : no_interp (slice src (n_tok_start sn) (n_tok_len sn)) = true -> False).
  { intros Hn. apply no_interp_at with (i := i) in Hn; [|lia|rewrite zlen_slice; lia].
    rewrite !byte_at_slice, Z.add_assoc, Heqb, Heqb0 in Hn by lia. done. }
  destruct e as [e|]; wp_step; (split; [|lia]);
    (split; [try apply same_leaf_ch; done|]);
    split_and!; (done || lia || congruence || (intros ?%Hno; done)).
Qed.

End Attach.

(** * Soundness of the parser, part 3: expressions

    Literals, primary and postfix expressions, prefix operators and the
    precedence chain. *)

Section Expr.
Context (toks : list Token) (src : list Z) (profile : Profile).
Context (inner : option (list Token -> list Z -> Diags -> res (option Node * Diags))).
Context (exact : bool) (Hok : setting toks src exact) (Hin : inner_ok inner).
Context (Hex : exact = true -> inner = None \/ profile = PROFILE_LEGACY).
Context (rec : Rec) (F : Z) (Hrec : rec_ok toks src exact rec F).
Abbreviation n := (zlen toks).
Abbreviation kd := (kd toks).
Abbreviation tk := (tk toks).
Abbreviation G := (G toks src).
Abbreviation sp := (sp toks exact).
Abbreviation phrase := (phrase toks src).
Abbreviation extends := (extends toks src).

Lemma lit_kind_eof k : lit_kind k <> None -> k <> TK_EOF.
Proof. by destruct k. Qed.

Lemma lit_kind_str k : lit_kind k = Some NODE_STR_LIT -> k = TK_STR_LIT.
Proof. by destruct k. Qed.

Lemma sp_literal : sp (F + 1) (phrase NT_lit) (parse_literal toks src profile inner).
Proof.
  intros s Hi _. unfold parse_literal. ps. ps. ps. ps.
  destruct (lit_kind (kd (p_pos s))) as [k|] eqn:Hk.
  - assert (He : kd (p_pos s) <> TK_EOF) by (apply lit_kind_eof; congruence).
    ps. eapply (wp_adv _ _ _ Hok _ (p_pos s + 1)); [done..|]. intros.
    destruct (bool_decide (k = NODE_STR_LIT)) eqn:Hs.
    + apply bool_decide_eq_true in Hs as ->. ps.
      destruct (tk_span _ _ _ Hok (p_pos s) (proj1 Hi)) as (? & ? & ?).
      eapply (wp_attach_interp toks src profile inner exact); [done..|ib|simpl; lia|simpl; lia|simpl; lia|].
      intros sn' s' Hsame F1 He1 Hp1 Hpl. fr_facts F1. ps.
      split; [fr_solve|]. intros _. exists sn'. split; [done|]. split; [lia|].
      rewrite Hp1. apply gl_str; [by apply lit_kind_str|done..].
    + apply bool_decide_eq_false in Hs. ps. leaf. by apply gl_lit.
  - go.
Qed.

Hint Resolve sp_literal : sp.

(** ** Parameters and return specifications *)

Lemma sp_one_param fn : sp (F + 1) (extends (NT_param fn)) (parse_one_param toks src rec fn).
Proof. intros s Hi Hb. unfold parse_one_param. go. by apply gp_param. Qed.

Hint Resolve sp_one_param : sp.

Lemma sp_params fn : sp (F + 1) (extends (NT_params fn)) (parse_params toks src rec fn).
Proof.
  intros s Hi Hb. unfold parse_params. run; [leaf; apply gp_none|].
  eapply wp_conseq.
  { apply (wp_loop toks exact
      (fun x j => p_errs s' = p_errs s -> G (p_in_sc s) (NT_params1 fn) (p_pos s) j x)
      (fun x j => p_errs s' = p_errs s -> G (p_in_sc s) (NT_params fn) (p_pos s) j x));
      [ib| |].
    - intros Hc. apply gp_first, C, Hc.
    - intros x s1 Hi1 ? Hsc. go; intros HJ Hc'.
      + eapply gp_more; [by apply HJ|done..].
      + by apply gp_some, HJ. }
  intros b s2 [F2 C2]. fr_facts F2. leaf. done.
Qed.

Lemma sp_return_spec : sp (F + 1) (extends NT_ret) (parse_return_spec toks src rec).
Proof.
  intros s Hi Hb. unfold parse_return_spec. go.
  - by eapply gr_error.
  - by apply gr_plain.
Qed.

Hint Resolve sp_params sp_return_spec : sp.

(** ** Primary expressions *)

Lemma sp_field_inits v n0 :
  sp (F + 1) (extends (NT_init_list v n0)) (parse_field_inits toks src rec v n0).
Proof.
  intros s Hi Hb. unfold parse_field_inits.
  apply (wp_loop _ _ (fun x j => G (p_in_sc s) (NT_inits v n0) (p_pos s) j x)
           (fun x j => G (p_in_sc s) (NT_init_list v n0) (p_pos s) j x));
    [done|apply gf_nil|]. intros x s1 Hi1 ? Hsc.
  go; intros HJ.
  - by apply gf_end.
  - eapply gf_snoc; [done|eapply gf_init; zn; auto|done].
  - eapply gf_last; [done|eapply gf_init; zn; auto].
  - eapply gf_snoc; [done|eapply gf_init; zn; auto|done].
  - eapply gf_last; [done|eapply gf_init; zn; auto].
  - eapply gf_snoc; [done|eapply gf_init; zn; auto|done].
  - eapply gf_last; [done|eapply gf_init; zn; auto].
Qed.

Lemma sp_map_entries stop n0 :
  sp (F + 1) (extends (NT_entries stop n0)) (parse_map_entries toks src rec stop n0).
Proof.
  intros s Hi Hb. unfold parse_map_entries.
  apply (wp_loop _ _ (fun x j => G (p_in_sc s) (NT_entries stop n0) (p_pos s) j x)
           (fun x j => G (p_in_sc s) (NT_entries stop n0) (p_pos s) j x));
    [done|apply gm_nil|]. intros x s1 Hi1 ? Hsc.
  go; intros HJ.
  - by apply gm_trail.
  - by eapply gm_snoc.
  - done.
Qed.

Hint Resolve sp_field_inits sp_map_entries : sp.

Lemma sp_primary : sp (F + 1) (phrase NT_primary) (parse_primary toks src profile inner rec).
Proof.
  intros s Hi Hb. unfold parse_primary, parse_func_ref, parse_closure, parse_struct_lit,
    parse_at_lit, parse_bracket_lit, parse_map_lit, parse_spawn.
  go.
  - rule ge_ref_qual.
  - rule ge_ref.
  - rule ge_closure_ret.
  - rule ge_closure.
  - match goal with H : p_in_sc _ = true |- _ => rewrite H in * end. rule ge_spawn.
  - rule ge_ident.
  - rule ge_struct_t.
  - rule ge_type_t.
  - rule ge_struct.
  - rule ge_type.
  - rule ge_at_empty.
  - rule ge_at_map.
  - rule ge_at_array.
  - rule ge_paren.
  - rule ge_br_empty.
  - rule ge_br_map.
  - rule ge_br_array.
  - rule ge_lit.
Qed.

Hint Resolve sp_primary : sp.

(** ** Postfix expressions and calls *)

Lemma items_first sc X n0 i j x :
  G sc (NT_items X n0) i j x -> kd i <> TK_SEMI -> j = i /\ x = n0.
Proof.
  intros H. remember (NT_items X n0) as Y. revert HeqY.
  induction H; intros E Hk; try discriminate E; injection E as -> ->; [done|].
  destruct IHG1 as [-> _]; done.
Qed.

(** One postfix operator, as the loops of [parse_postfix] and [parse_call] use
    it: [inr] leaves the loop after an error. *)
Definition step_ok (l : Node) (s : Parser) (r : Node + Node) (s' : Parser) : Prop :=
  match r with
  | inl a => (fr toks exact s s' /\
              (p_errs s' = p_errs s -> G (p_in_sc s) (NT_step l) (p_pos s) (p_pos s') a)) /\
             p_pos s < p_pos s'
  | inr _ => fr toks exact s s' /\ (p_errs s' = p_errs s -> False)
  end.

Lemma wp_dot l s :
  inb toks s -> n - p_pos s <= F + 1 -> kd (p_pos s) = TK_DOT ->
  wp (parse_dot toks src rec l) (step_ok l s) s.
Proof.
  intros Hi Hb Hk. unfold step_ok, parse_dot, parse_get_postfix. go.
  - match goal with H : G _ (NT_items _ _) _ _ _ |- _ =>
      apply items_first in H as [-> ->]; [|congruence] end. zn. rule gx_get_call0.
  - rule gx_get.
  - rule gx_get_call.
  - rule gx_const.
  - rule gx_field.
Qed.

Lemma wp_index l s :
  inb toks s -> n - p_pos s <= F + 1 -> kd (p_pos s) = TK_LBRACKET ->
  wp (parse_index toks src rec l) (step_ok l s) s.
Proof. intros Hi Hb Hk. unfold step_ok, parse_index. go. rule gx_index. Qed.

Lemma wp_args l s :
  inb toks s -> n - p_pos s <= F + 1 -> kd (p_pos s) = TK_LPAREN ->
  wp (parse_args toks src rec l) (step_ok l s) s.
Proof.
  intros Hi Hb Hk. unfold step_ok, parse_args. go.
  - rule gx_call0.
  - rule gx_call.
Qed.

(** A loop of postfix operators after [l]. *)
Lemma wp_steps s1 i0 l (body : Node -> PM (Node + Node)) :
  inb toks s1 -> i0 <= p_pos s1 -> n - p_pos s1 <= F + 1 ->
  (forall l s, inb toks s -> n - p_pos s <= F + 1 ->
     wp (body l) (fun r s' => step_ok l s r s' \/ (r = inr l /\ s' = s)) s) ->
  wp (iter (loop_fuel toks) body l)
    (fun b s' => fr toks exact s1 s' /\
       (p_errs s' = p_errs s1 -> G (p_in_sc s1) NT_chain i0 (p_pos s1) l ->
        G (p_in_sc s1) NT_chain i0 (p_pos s') b)) s1.
Proof.
  intros Hi Hi0 Hb Hbody.
  eapply wp_conseq.
  { apply (wp_loop toks exact
      (fun x j => G (p_in_sc s1) NT_chain i0 (p_pos s1) l -> G (p_in_sc s1) NT_chain i0 j x)
      (fun x j => G (p_in_sc s1) NT_chain i0 (p_pos s1) l -> G (p_in_sc s1) NT_chain i0 j x));
      [done|done|].
    intros x s2 Hi2 ? Hsc. eapply wp_conseq; [apply Hbody; [done|lia]|].
    intros r s' [Hr|[-> ->]]; [|split; [by apply fr_refl|done]].
    destruct r as [a|]; [|destruct Hr; split; [done|tauto]].
    destruct Hr as [[F1 C1] ?]. split; [split; [done|]|done].
    intros Hc HJ Hl. rewrite Hsc in *. eapply gc_step; [by apply HJ|by apply C1]. }
  done.
Qed.

Lemma sp_postfix : sp (F + 1) (phrase NT_chain) (parse_postfix toks src profile inner rec).
Proof.
  intros s Hi Hb. unfold parse_postfix. run; [|leaf].
  eapply wp_conseq.
  { apply (wp_steps s' (p_pos s)); [ib|lia|lia|].
    intros l s1 Hi1 Hb1. ps. ps. ps.
    - eapply wp_conseq; [by apply wp_dot|]. tauto.
    - ps. ps. ps; [eapply wp_conseq; [by apply wp_index|]; tauto|]. ps. tauto. }
  intros b s2 [F2 C2]. fr_facts F2. sc_in C2. ps. leaf.
  apply C2. by apply gc_primary.
Qed.

Hint Resolve sp_postfix : sp.

Lemma sp_call : sp (F + 1) (phrase NT_chain) (parse_call toks src profile inner rec).
Proof.
  intros s Hi Hb. unfold parse_call. run; [|leaf].
  eapply wp_conseq.
  { apply (wp_steps s' (p_pos s)); [ib|lia|lia|].
    intros l s1 Hi1 Hb1. ps. ps. ps; [eapply wp_conseq; [by apply wp_args|]; tauto|].
    ps; [eapply wp_conseq; [by apply wp_dot|]; tauto|].
    ps; [eapply wp_conseq; [by apply wp_index|]; tauto|]. ps. tauto. }
  intros b s2 [F2 C2]. fr_facts F2. sc_in C2. ps. leaf. by apply C2.
Qed.

Hint Resolve sp_call : sp.

(** ** Casts, prefix and binary operators *)

Lemma sp_cast_prop : sp (F + 1) (phrase NT_castprop) (parse_cast_prop toks src profile inner rec).
Proof.
  intros s Hi Hb. unfold parse_cast_prop. go.
  - rule gk_both.
  - rule gk_cast.
  - rule gk_prop.
  - rule gk_chain.
Qed.

Hint Resolve sp_cast_prop : sp.

Lemma sp_unary : sp (F + 1) (phrase NT_unary) (parse_unary toks src profile inner rec).
Proof.
  intros s Hi Hb. unfold parse_unary. go.
  - change (t_kind (tk (p_pos s))) with (kd (p_pos s)). rule gn_prefix.
    intros E E2. unfold Grammar.kd in E.
    match goal with H : _ && _ = false |- _ =>
      rewrite E in H; simpl in H; unfold has_kind in H;
      by rewrite bool_decide_eq_true_2 in H
    end.
  - rule gn_castprop.
Qed.

Hint Resolve sp_unary : sp.

(** One left-associative level. *)
Lemma sp_left_assoc lv next :
  sp (F + 1) (phrase (below lv)) next ->
  sp (F + 1) (phrase (NT_bin lv)) (left_assoc toks (level_ops lv) next).
Proof.
  intros Hnext s Hi Hb. unfold left_assoc. run; [|leaf].
  eapply wp_conseq.
  { apply (wp_loop toks exact
      (fun x j => p_errs s' = p_errs s -> G (p_in_sc s) (NT_bin lv) (p_pos s) j x)
      (fun x j => p_errs s' = p_errs s -> G (p_in_sc s) (NT_bin lv) (p_pos s) j x));
      [ib| |].
    - intros Hc. destruct (C Hc) as (c & [= ->] & _ & ?). by apply gb_below.
    - intros x s1 Hi1 ? Hsc. unfold parse_right.
      go; intros HJ Hc'.
      + specialize (HJ Hc'). rule gb_op.
      + by apply HJ. }
  intros b s2 [F2 C2]. fr_facts F2. run. leaf. done.
Qed.

Lemma sp_mul : sp (F + 1) (phrase (NT_bin L_mul)) (parse_mul toks src profile inner rec).
Proof. apply (sp_left_assoc L_mul), sp_unary. Qed.
Lemma sp_add : sp (F + 1) (phrase (NT_bin L_add)) (parse_add toks src profile inner rec).
Proof. apply (sp_left_assoc L_add), sp_mul. Qed.
Lemma sp_shift : sp (F + 1) (phrase (NT_bin L_shift)) (parse_shift toks src profile inner rec).
Proof. apply (sp_left_assoc L_shift), sp_add. Qed.

Hint Resolve sp_shift : sp.

Lemma sp_compare : sp (F + 1) (phrase NT_compare) (parse_compare toks src profile inner rec).
Proof.
  intros s Hi Hb. unfold parse_compare, parse_right. go.
  - rule go_cmp.
  - rule go_shift.
Qed.

Lemma sp_bitand : sp (F + 1) (phrase (NT_bin L_bitand)) (parse_bitand toks src profile inner rec).
Proof. apply (sp_left_assoc L_bitand), sp_compare. Qed.
Lemma sp_bitxor : sp (F + 1) (phrase (NT_bin L_bitxor)) (parse_bitxor toks src profile inner rec).
Proof. apply (sp_left_assoc L_bitxor), sp_bitand. Qed.
Lemma sp_bitor : sp (F + 1) (phrase (NT_bin L_bitor)) (parse_bitor toks src profile inner rec).
Proof. apply (sp_left_assoc L_bitor), sp_bitxor. Qed.
Lemma sp_and : sp (F + 1) (phrase (NT_bin L_and)) (parse_and toks src profile inner rec).
Proof. apply (sp_left_assoc L_and), sp_bitor. Qed.
Lemma sp_or : sp (F + 1) (phrase (NT_bin L_or)) (parse_or toks src profile inner rec).
Proof. apply (sp_left_assoc L_or), sp_and. Qed.

End Expr.

#[export] Hint Resolve sp_params sp_return_spec sp_or sp_unary : sp.

(** * Soundness of the parser, part 4: match, [if], loops and statements *)

Section Stmt.
Context (toks : list Token) (src : list Z) (profile : Profile).
Context (inner : option (list Token -> list Z -> Diags -> res (option Node * Diags))).
Context (exact : bool) (Hok : setting toks src exact) (Hin : inner_ok inner).
Context (Hex : exact = true -> inner = None \/ profile = PROFILE_LEGACY).
Context (rec : Rec) (F : Z) (Hrec : rec_ok toks src exact rec F).
Abbreviation n := (zlen toks).
Abbreviation kd := (kd toks).
Abbreviation tk := (tk toks).
Abbreviation G := (G toks src).
Abbreviation sp := (sp toks exact).
Abbreviation phrase := (phrase toks src).
Abbreviation extends := (extends toks src).

(** ** Match *)

Lemma sp_match_arm_body : sp F (phrase NT_arm_body) (parse_match_arm_body toks rec).
Proof.
  intros s Hi Hb. unfold parse_match_arm_body. go.
  - rule ga_return0.
  - rule ga_return.
  - rule ga_expr.
Qed.

Hint Resolve sp_match_arm_body : sp.

Lemma sp_arm_rest arm : sp (F + 1) (phrase (NT_arm_rest arm)) (parse_arm_rest toks src rec arm).
Proof. intros s Hi Hb. unfold parse_arm_rest. go. rule ga_rest. Qed.

Hint Resolve sp_arm_rest : sp.

Lemma sp_match_arm : sp (F + 1) (phrase NT_arm) (parse_match_arm toks src rec).
Proof.
  intros s Hi Hb. unfold parse_match_arm. go.
  - rule ga_dollar.
  - rule ga_name.
Qed.

Hint Resolve sp_match_arm : sp.

(** ** If *)

Lemma sp_if_core form : sp (F + 1) (phrase (NT_if form)) (parse_if_core toks src rec form).
Proof.
  intros s Hi Hb. unfold parse_if_core, parse_else. go.
  - rule gh_chain.
  - subst form. rule gh_else.
  - subst form. rule gh_else.
  - rule gh_then.
Qed.

Lemma sp_if_stmt : sp (F + 1) (phrase (NT_if false)) (parse_if_stmt toks src rec).
Proof. apply sp_if_core. Qed.
Lemma sp_if_expr : sp (F + 1) (phrase (NT_if true)) (parse_if_expr toks src rec).
Proof. apply sp_if_core. Qed.

Hint Resolve sp_if_stmt sp_if_expr : sp.

(** ** Expressions *)

Lemma sp_expr : sp (F + 1) (phrase NT_expr) (parse_expr toks src profile inner rec).
Proof.
  intros s Hi Hb. unfold parse_expr, parse_match. go.
  - rule gx_if.
  - rule gx_match.
  - rule gx_or.
Qed.

Hint Resolve sp_expr : sp.

(** ** Loops *)

(** The header of a loop: [true] when the body may follow. *)
Definition header_ok (n0 : Node) (sc : bool) (i j : Z) (r : Node * bool) : Prop :=
  r.2 = true /\ exists m, j = m + 1 /\ kd m = TK_RPAREN /\ G sc (NT_clauses n0) i m r.1.

Lemma sp_loop_clauses n0 s :
  inb toks s -> n - p_pos s <= F + 1 ->
  (kd (p_pos s) = TK_KW_LET /\ kd (p_pos s + 1) = TK_IDENT /\ kd (p_pos s + 2) = TK_EQ) \/
  (kd (p_pos s) = TK_IDENT /\ kd (p_pos s + 1) = TK_EQ) ->
  wp (parse_loop_clauses toks src profile inner rec n0)
    (fun r s' => fr toks exact s s' /\
       (p_errs s' = p_errs s -> header_ok n0 (p_in_sc s) (p_pos s) (p_pos s') r)) s.
Proof.
  intros Hi Hb Hthree. unfold parse_loop_clauses. go.
  - split; [done|]. eexists. split; [done|]. split; [done|].
    eapply (gw_three _ _ _ _ _ _ _ _ _ _ _ _ true); zn; try eassumption; done.
  - split; [done|]. eexists. split; [done|]. split; [done|].
    eapply (gw_three _ _ _ _ _ _ _ _ _ _ _ _ false); zn; try eassumption; done.
Qed.

Lemma sp_loop_stmt : sp (F + 1) (phrase NT_stmt) (parse_loop_stmt toks src profile inner rec).
Proof.
  intros s Hi Hb. unfold parse_loop_stmt. run; try leaf.
  - eapply wp_conseq; [apply sp_loop_clauses; [ib|zn; lia|]|].
    { zn. match goal with H : _ || _ = true |- _ => apply orb_prop in H as [H|H]; kb H; auto end. }
    after_call. destruct a as [n' go]. unfold header_ok in *. simpl in *.
    run; try leaf; repeat match goal with H : _ /\ _ |- _ => destruct H end; try congruence.
    match goal with H : exists m, _ |- _ => destruct H as (m & E & ? & ?) end.
    rewrite E in *. rule gz_loop.
  - rule gz_loop. rule gw_while.
Qed.

Hint Resolve sp_loop_stmt : sp.

(** ** Statements *)

Lemma sp_in_scope X m :
  sp F (extends X) m -> sp F (fun _ i j a => G true X i j a) (in_scope m).
Proof.
  intros Hm s Hi Hb. unfold in_scope. ps. ps. ps. apply wp_modify. ps.
  eapply wp_conseq; [by apply Hm|]. intros a s1 [F1 C1]. ps. apply wp_modify. ps.
  destruct F1. simpl in *. split; [by split|]. apply C1.
Qed.

Lemma expr_of_primary sc i j e :
  G sc NT_primary i j e -> kd i <> TK_KW_IF -> kd i <> TK_KW_MT -> G sc NT_expr i j e.
Proof.
  intros. apply gx_or; [|done..]. do 5 apply gb_below. apply go_shift. do 3 apply gb_below.
  by apply gn_castprop, gk_chain, gc_primary.
Qed.

Lemma sp_mut_dot s :
  inb toks s -> kd (p_pos s) = TK_KW_MUT ->
  wp (parse_mut_dot toks src)
    (fun b s' => fr toks exact s s' /\
       (p_errs s' = p_errs s -> b = true /\ g_mut toks (p_pos s) (p_pos s'))) s.
Proof.
  intros Hi Hk. unfold parse_mut_dot. go.
  - split; [done|]. by apply gm_dot.
  - split; [done|]. match goal with H : p_pos ?x = _ |- context [p_pos ?x] => rewrite H end.
    by apply gm_space.
Qed.

Definition bind_value_ok (x : Node) (sc : bool) (i k : Z) (a : option Node) : Prop :=
  exists j e, a = Some (ch x (Some e)) /\ i < k /\ G sc NT_expr i j e /\ g_semi toks j k.

Lemma sp_bind_value x :
  sp (F + 1) (bind_value_ok x) (parse_bind_value toks src profile inner rec x).
Proof.
  intros s Hi Hb. unfold parse_bind_value, parse_spawn. go; eexists _, _.
  - split; [done|]. split; [lia|]. split; [|done].
    match goal with H : p_in_sc _ = true |- _ => rewrite H in * end.
    apply expr_of_primary; [rule ge_spawn|congruence..].
  - split; [done|]. split; [lia|]. by split.
Qed.

Hint Resolve sp_bind_value : sp.

Definition bind_ok (t nt : Token) (sc : bool) (i k : Z) (a : option Node) : Prop :=
  exists m m' j x e (mut : bool),
    a = Some (ch x (Some e)) /\ i < k /\
    G sc (NT_ann (ch (mk (if mut then NODE_MUT_BIND_STMT else NODE_BIND_STMT) t)
                    (Some (mk NODE_IDENT nt)))) i m x /\
    kd m = TK_EQ /\ (if mut then g_mut toks (m + 1) m' else m' = m + 1) /\
    G sc NT_expr m' j e /\ g_semi toks j k.

Ltac bind_leaf b :=
  eexists _, _, _, _, _, b; split; [done|]; split; [lia|]; split;
  [first [apply gz_ann; [eassumption|zn; eassumption] | apply gz_ann_none]|];
  split; [zn; eassumption|]; split; [zn; first [eassumption|done]|]; split; eassumption.

Lemma sp_bind_rest t nt :
  sp (F + 1) (bind_ok t nt) (parse_bind_rest toks src profile inner rec t nt).
Proof.
  intros s Hi Hb. unfold parse_bind_rest.
  run; try leaf;
    try (eapply wp_conseq; [apply sp_mut_dot; [ib|zn; eassumption]|]; after_call; run; leaf);
    repeat match goal with
           | H : _ /\ _ |- _ => destruct H
           | H : bind_value_ok _ _ _ _ _ |- _ => destruct H as (? & ? & -> & ? & ? & ?)
           end; try discriminate.
  - bind_leaf true.
  - bind_leaf false.
  - bind_leaf true.
  - bind_leaf false.
Qed.

Hint Resolve sp_bind_rest : sp.

Lemma sp_bind s :
  inb toks s -> n - p_pos s <= F + 1 -> kd (p_pos s) = TK_KW_LET ->
  wp (parse_bind toks src profile inner rec (tk (p_pos s)))
    (fun a s' => fr toks exact s s' /\
       (p_errs s' = p_errs s -> phrase NT_stmt (p_in_sc s) (p_pos s) (p_pos s') a)) s.
Proof.
  intros Hi Hb Hk. unfold parse_bind. go;
    match goal with H : bind_ok _ _ _ _ _ _ |- _ =>
      destruct H as (m & m' & j & x & e & mut & -> & ? & ? & ? & ? & ? & ?) end;
    (eexists; split; [done|]; split; [lia|]).
  - replace (p_pos s' + 1) with (p_pos s + 2) in * by lia.
    replace (p_pos s' + 2) with (p_pos s + 3) in * by lia.
    eapply (gz_bind _ _ _ _ (p_pos s + 2)); zn; eauto.
  - eapply (gz_bind _ _ _ _ (p_pos s + 1)); zn; eauto.
Qed.

(** What a statement function gives at the position of its first token. *)
Definition stmt_post (s : Parser) (a : option Node) (s' : Parser) : Prop :=
  fr toks exact s s' /\
  (p_errs s' = p_errs s -> phrase NT_stmt (p_in_sc s) (p_pos s) (p_pos s') a).

Lemma sp_ident_stmt s :
  inb toks s -> n - p_pos s <= F + 1 -> kd (p_pos s) = TK_IDENT ->
  wp (parse_ident_stmt toks src profile inner rec (tk (p_pos s))) (stmt_post s) s.
Proof.
  intros Hi Hb Hk. unfold parse_ident_stmt, parse_expr_stmt, stmt_post. go.
  - match goal with E : p_pos s' = p_pos s |- _ => rewrite E in * end. rule gz_assign.
  - match goal with E : p_pos s' = p_pos s |- _ => rewrite E in * end. rule gz_expr.
Qed.

Lemma wp_expr_stmt s :
  inb toks s -> n - p_pos s <= F + 1 ->
  wp (parse_expr_stmt toks src profile inner rec (tk (p_pos s))) (stmt_post s) s.
Proof. intros Hi Hb. unfold parse_expr_stmt, stmt_post. go. rule gz_expr. Qed.

Lemma wp_return s :
  inb toks s -> n - p_pos s <= F + 1 -> kd (p_pos s) = TK_KW_RT \/ kd (p_pos s) = TK_LT ->
  wp (parse_return toks src profile inner rec (tk (p_pos s))) (stmt_post s) s.
Proof.
  intros Hi Hb Hk. assert (kd (p_pos s) <> TK_EOF) by (destruct Hk as [E|E]; by rewrite E).
  unfold parse_return, stmt_post. ps.
  eapply (wp_adv _ _ _ Hok _ (p_pos s + 1)); [done..|]. intros. go.
  - rule gz_return0.
  - rule gz_return.
Qed.

Lemma wp_scope s :
  inb toks s -> n - p_pos s <= F + 1 -> kd (p_pos s) = TK_KW_SC ->
  wp (parse_scope toks src rec (tk (p_pos s))) (stmt_post s) s.
Proof.
  intros Hi Hb Hk. unfold parse_scope, stmt_post.
  pose proof (sp_in_scope (NT_stmts (tk (p_pos s))) (r_stmt_list rec (tk (p_pos s)))
    (ro_stmts _ _ _ _ _ Hrec _)) as Hs.
  go. rule gz_scope.
Qed.

Lemma wp_arena s :
  inb toks s -> n - p_pos s <= F + 1 -> kd (p_pos s) = TK_LBRACE ->
  wp (parse_arena toks src rec (tk (p_pos s))) (stmt_post s) s.
Proof. intros Hi Hb Hk. unfold parse_arena, stmt_post. go. rule gz_arena. Qed.

Lemma sp_stmt : sp (F + 1) (phrase NT_stmt) (parse_stmt toks src profile inner rec).
Proof.
  intros s Hi Hb. unfold parse_stmt. ps. ps. ps. ps.
  assert (Hother := wp_expr_stmt s Hi Hb).
  destruct (kd (p_pos s)) eqn:Hk; try exact Hother.
  - go. rule gz_if.
  - by apply sp_loop_stmt.
  - go. rule gz_break.
  - by apply sp_bind.
  - apply wp_return; auto.
  - by apply wp_scope.
  - by apply sp_ident_stmt.
  - by apply wp_arena.
  - apply wp_return; auto.
Qed.

Hint Resolve sp_stmt : sp.

(** [parse_stmt_list] ends because every turn moves on or reports an error. *)
Lemma sp_stmt_list ref :
  sp (F + 1) (extends (NT_stmts ref)) (parse_stmt_list toks src profile inner rec ref).
Proof.
  intros s Hi Hb. unfold parse_stmt_list.
  apply (wp_iter (fun a s' => fr toks exact s s' /\
            (p_errs s' = p_errs s -> G (p_in_sc s) (NT_stmts ref) (p_pos s) (p_pos s') a))
          (fun _ s' => Z.to_nat (n - p_pos s' + (MAX_PARSE_ERRORS - p_errs s')))).
  { split; [fr_solve|]. intros _. apply gl_nil. }
  { apply (loop_fuel_ok toks). unfold inb, MAX_PARSE_ERRORS in *. lia. }
  intros a s1 [F1 C1]. fr_facts F1. unfold inb in Hi.
  run; try leaf; [done|done|..];
    assert (Hm : p_pos s1 < p_pos s' \/ p_errs s1 < p_errs s')
      by (eapply phrase_moves; [exact C|lia]).
  - split; [split; [fr_solve|]|lia]. intros Hc. exfalso. clean. lia.
  - split; [split; [fr_solve|]|lia]. intros Hc. clean. rule gl_snoc.
Qed.

(** One more level of recursion. *)
Lemma next_rec_ok : rec_ok toks src exact (next_rec toks src profile inner rec) (F + 1).
Proof.
  split; simpl; intros.
  - by apply sp_type_expr.
  - apply sp_expr.
  - by apply sp_unary.
  - apply sp_if_core.
  - apply sp_stmt_list.
Qed.

End Stmt.

#[export] Hint Resolve sp_stmt sp_stmt_list : sp.

(** The recursion is well founded: [fuel] levels suffice for [fuel] tokens. *)
Lemma recs_ok toks src profile inner exact :
  setting toks src exact -> inner_ok inner ->
  (exact = true -> inner = None \/ profile = PROFILE_LEGACY) ->
  forall fuel, rec_ok toks src exact (recs toks src profile inner fuel) (Z.of_nat fuel).
Proof.
  intros Hok Hin Hex. induction fuel as [|f IH].
  - split; intros; intros s Hi Hb; unfold inb in Hi; lia.
  - rewrite Nat2Z.inj_succ, <- Z.add_1_r. by apply next_rec_ok.
Qed.
