(* ===== verification/ParserDecl.v ===== *)
(** * Soundness of the parser, part 5: declarations and [parse] *)

From Stdlib Require Import ZArith Lia String Ascii.
From stdpp Require Import base tactics list.
From S2P Require Import Prelude Diag Lexer Ast Parser Grammar ParserBase ParserTypes ParserExpr.
Open Scope Z_scope.

Section Decl.
Context (toks : list Token) (src : list Z) (profile : Profile).
Context (inner : option (list Token -> list Z -> Diags -> res (option Node * Diags))).
Context (exact : bool) (Hok : setting toks src exact) (Hin : inner_ok inner).
Context (Hex : exact = true -> inner = None \/ profile = PROFILE_LEGACY).
Context (rec : Rec) (F : Z) (Hrec : rec_ok toks src exact rec F).
Abbreviation n := (zlen toks).
Abbreviation kd := (kd toks).
Abbreviation tk := (tk toks).
Abbreviation G := (G toks src).
Abbreviation sp := (sp toks exact).
Abbreviation phrase := (phrase toks src).
Abbreviation extends := (extends toks src).

Lemma sp_lit : sp (F + 1) (phrase NT_lit) (parse_literal toks src profile inner).
Proof. apply sp_literal; done. Qed.

Hint Resolve sp_lit : sp.

(** ** Module paths and field lists *)

Lemma sp_path : sp (F + 1) (phrase NT_path) (parse_module_path toks src).
Proof.
  intros s Hi Hb. unfold parse_module_path, xp_seg. run; try leaf.
  set (n0 := ch (mk NODE_MODULE_PATH (tk (p_pos s))) _).
  eapply wp_conseq.
  { apply (wp_loop toks exact
      (fun x j => G (p_in_sc s) (NT_path_rest n0) (p_pos s + 1) j x)
      (fun x j => G (p_in_sc s) (NT_path_rest n0) (p_pos s + 1) j x));
      [ib|apply gd_path_nil|].
    intros x s1 Hi1 ? Hsc. zn. go; intros HJ.
    - by apply gd_path_snoc.
    - done. }
  intros b s2 [F2 C2]. fr_facts F2. run. leaf. by apply gd_path.
Qed.

Hint Resolve sp_path : sp.

(** The duplicate test reads inside the text and changes nothing. *)
Definition seen_ok (seen : list (Z * Z)) : Prop :=
  Forall (fun p => span_ok src (mkToken TK_EOF p.1 p.2 0 0)) seen.

Lemma seen_field_ok seen i s :
  0 <= i < n -> seen_ok seen -> exists b, seen_field src seen (tk i) s = Ok (b, s).
Proof.
  intros Hi. destruct (tk_span _ _ _ Hok i Hi) as (? & ? & ?).
  induction seen as [|[a l] seen IH]; intros Hs; simpl; [by eexists|].
  inversion Hs as [|? ? Hal Hs']; subst. destruct Hal as (? & ? & ?). simpl in *.
  unfold bind, ret. case_match; [|auto]. rewrite !src_range_eq by done.
  case_match; [by eexists|auto].
Qed.

Lemma seen_ok_snoc seen i :
  0 <= i < n -> seen_ok seen -> 
  seen_ok (if zlen seen <? SEEN_MAX then seen ++ [(t_start (tk i), t_len (tk i))] else seen).
Proof.
  intros Hi Hs. destruct (tk_span _ _ _ Hok i Hi) as (? & ? & ?). case_match; [|done].
  apply Forall_app; split; [done|]. by constructor; [split_and!|].
Qed.

Definition field_post (st : Node * list (Z * Z)) (s : Parser)
    (r : Node * list (Z * Z) + Node) (s' : Parser) : Prop :=
  match r with
  | inl st' =>
      seen_ok st'.2 /\
      (fr toks exact s s' /\
       (p_errs s' = p_errs s ->
        exists j, p_pos s' = j + 1 /\ kd j = TK_SEMI /\
          G (p_in_sc s) (NT_field st.1) (p_pos s) j st'.1)) /\ p_pos s < p_pos s'
  | inr x =>
      fr toks exact s s' /\
      (p_errs s' = p_errs s -> kd (p_pos s') = TK_RBRACE ->
       G (p_in_sc s) (NT_field st.1) (p_pos s) (p_pos s') x)
  end.

(** A field from its name at [i], where the state [s1] stands. *)
Lemma wp_field_name st s s1 (variant : bool) :
  fr toks exact s s1 -> p_errs s1 = p_errs s -> inb toks s -> n - p_pos s <= F + 1 ->
  seen_ok st.2 -> (if variant then kd (p_pos s) = TK_DOLLAR /\ p_pos s1 = p_pos s + 1
                   else p_pos s1 = p_pos s) ->
  wp (do name <- next_in toks [TK_IDENT; TK_TYPE_IDENT];
      if negb name then do! eerr_got src E2002 (tk (p_pos s1)); ret (inr st.1)
      else
      do dup <- seen_field src st.2 (tk (p_pos s1));
      do! when dup (eerr E2015 (tk (p_pos s1)));
      let seen := if zlen st.2 <? SEEN_MAX
                  then st.2 ++ [(t_start (tk (p_pos s1)), t_len (tk (p_pos s1)))] else st.2 in
      do _ <- adv toks;
      let f := mk NODE_FIELD (tk (p_pos s1)) in
      let f := if variant then set_op TK_DOLLAR f else f in
      expect toks src TK_COLON (sync_ret toks (inr st.1)) (fun _ =>
        do f <- add f (parse_type_expr toks src rec);
        let n := ch st.1 (Some f) in
        do semi <- next_is toks TK_SEMICOLON;
        if negb semi then ret (inr n)
        else
        do last <- here_is toks 1 TK_RBRACE;
        if last then ret (inr n)
        else
        do _ <- adv toks;
        do fin <- next_in toks [TK_RBRACE; TK_EOF];
        ret (if fin then inr n else inl (n, seen)))) (field_post st s) s1.
Proof.
  intros F1 He Hi Hb Hseen Hv. fr_facts F1. unfold field_post.
  ps. ps. ps. { go. }
  ps. unfold inb in Hi. destruct (seen_field_ok st.2 (p_pos s1) s1) as [b Hbb]; [lia|done|].
  eapply wp_test; [done|].
  run; try leaf.
  all: try (match goal with |- match (if ?b then _ else _) with _ => _ end => destruct b eqn:? end;
            leaf).
  all: try (apply seen_ok_snoc; [lia|done]).
  all: intros; try congruence.
  - rule gd_field.
  - eexists. split; [done|]. split; [done|]. rule gd_field.
Qed.

Lemma sp_field st s :
  inb toks s -> n - p_pos s <= F + 1 -> seen_ok st.2 ->
  wp (parse_field toks src rec st) (field_post st s) s.
Proof.
  intros Hi Hb Hseen. unfold parse_field. destruct st as [n0 seen].
  ps. ps. ps. ps. ps. unfold inb in *.
  destruct (tk_eqb (kd (p_pos s)) TK_DOLLAR) eqn:K.
  - apply tk_eqb_true in K. ps. ps. ps.
    apply (wp_field_name (n0, seen) s (set_pos (p_pos s + 1) s) true); [fr_solve|done|ib|done..].
  - ps. apply (wp_field_name (n0, seen) s s false); [fr_solve|done|ib|done..].
Qed.

Lemma sp_field_list :
  sp (F + 1) (fun sc i j x => kd j = TK_RBRACE -> G sc NT_field_list i j x)
    (parse_field_list toks src rec).
Proof.
  intros s Hi Hb. unfold parse_field_list. ps. ps.
  apply (wp_loop_inv _ _ (fun st => seen_ok st.2)
    (fun st j => G (p_in_sc s) (NT_fields (mk NODE_STMT_LIST (tk (p_pos s)))) (p_pos s) j st.1)
    (fun x j => kd j = TK_RBRACE -> G (p_in_sc s) NT_field_list (p_pos s) j x));
    [done|by constructor|apply gd_fields_nil|].
  intros [n0 seen] s1 Hi1 Hseen ? Hsc.
  eapply wp_conseq; [apply (sp_field (n0, seen)); [done|lia|done]|].
  intros [[x seen']|x] s'; unfold field_post; simpl; rewrite Hsc.
  - intros (? & [F1 C1] & ?). split; [done|]. split; [split; [done|]|done].
    intros Hc HJ. destruct (C1 Hc) as (j & -> & ? & ?). by eapply gd_fields_snoc.
  - intros [F1 C1]. split; [done|]. intros Hc HJ Hk. eapply gd_field_last; [done|auto].
Qed.

Hint Resolve sp_field_list : sp.

(** ** Declarations *)

Abbreviation g_rest := (g_rest toks src).
Abbreviation g_decl := (g_decl toks src profile).

(** The rest of a declaration, after its keyword. *)
Definition rest_ok (lower : bool) (cp : Z) (t : Token) (sc : bool) (i k : Z) (x : Node) : Prop :=
  g_rest sc lower cp t i k x.

Lemma sp_module_rest lower t : sp (F + 1) (rest_ok lower 0 t) (module_rest toks src t).
Proof. intros s Hi Hb. unfold module_rest. go. rule gr_module. Qed.

Lemma sp_import_rest lower t : sp (F + 1) (rest_ok lower 1 t) (import_rest toks src t).
Proof.
  intros s Hi Hb. unfold import_rest. go.
  - rule gr_import. by apply gv_some.
  - rule gr_import. by apply gv_none.
Qed.

Lemma sp_func_rest lower t : sp (F + 1) (rest_ok lower 5 t) (func_rest toks src profile inner rec t).
Proof.
  intros s Hi Hb. unfold func_rest. go.
  - rule gr_func. rule gb_some.
  - rule gr_func. rule gb_none.
Qed.

Lemma sp_lower_type t : sp (F + 1) (rest_ok true 2 t) (lower_type_decl toks src rec t).
Proof.
  intros s Hi Hb. unfold lower_type_decl, type_body. go.
  - rule gr_type; [|auto]. eapply gtn_dollar; (done || lia).
  - rule gr_type; [|auto].
    match goal with H : tk_in _ [TK_IDENT; TK_TYPE_IDENT] = true |- _ =>
      apply tk_in_true in H; rewrite !elem_of_cons, elem_of_nil in H;
      destruct H as [|[|[]]]; [apply gtn_ident|apply gtn_type]; (done || lia) end.
Qed.

(** A declaration of class [cp]. *)
Definition decl_ok (cp : Z) (sc : bool) (i k : Z) (a : option Node) : Prop :=
  exists x, a = Some x /\ i < k /\ g_decl sc cp i k x.

Lemma sp_kw_decl cp k rest :
  k = class_kw cp -> k <> TK_EOF -> (forall t, sp (F + 1) (rest_ok false cp t) (rest t)) ->
  sp (F + 1) (decl_ok cp) (kw_decl toks src k rest).
Proof.
  intros -> Hk Hrest s Hi Hb. unfold kw_decl.
  eapply (wp_expect _ _ _ Hok _ _ _ _ _ (p_pos s + 1)); [done..| |].
  - intros. ps. call Hrest. ps. leaf. by apply gd_kw.
  - new_err. ps. leaf.
Qed.

Lemma wp_lower_decl cp rest s :
  inb toks s -> n - p_pos s <= F + 1 -> profile = PROFILE_DEFAULT ->
  kd (p_pos s) = TK_IDENT -> text toks src (p_pos s) = [class_letter cp] ->
  (forall t, sp (F + 1) (rest_ok true cp t) (rest t)) ->
  wp (lower_decl toks rest)
    (fun a s' => fr toks exact s s' /\
       (p_errs s' = p_errs s -> decl_ok cp (p_in_sc s) (p_pos s) (p_pos s') a)) s.
Proof.
  intros Hi Hb Hp Hk Ht Hrest. unfold lower_decl. ps. ps. ps. call Hrest. ps. leaf.
  by apply gd_lower.
Qed.

Lemma sp_type_decl : sp (F + 1) (decl_ok 2) (parse_type_decl toks src rec).
Proof.
  intros s Hi Hb. unfold parse_type_decl, type_body. go.
  apply gd_kw; [done|]. rule gr_type; [|auto].
  apply gtn_type; (done || lia).
Qed.

Lemma sp_const_decl : sp (F + 1) (decl_ok 3) (parse_const_decl toks src profile inner rec).
Proof.
  intros s Hi Hb. unfold parse_const_decl. go.
  rule gd_const.
Qed.

(** ** The declaration letters *)

Definition di (i : Z) : Z :=
  if bool_decide (profile = PROFILE_DEFAULT) && (tk_eqb (kd i) TK_IDENT
       && tk_eqb (kd (i + 1)) TK_EQ) && (t_len (tk i) =? 1) then
    let c := byte_at src (t_start (tk i)) in
    if c =? chr "m" then 5 else if c =? chr "i" then 1 else if c =? chr "t" then 2
    else if c =? chr "f" then 4 else 0
  else 0.

Lemma is_decl_ident_eq s : inb toks s -> is_decl_ident toks src profile s = Ok (di (p_pos s), s).
Proof.
  intros Hi. unfold is_decl_ident, di. destruct (bool_decide _); [|done].
  pose proof (mand_eq _ _ _ _ _ (next_is_eq _ _ _ Hok TK_IDENT _ Hi)
    (next_at_is_eq _ _ _ Hok 1 TK_EQ _ Hi ltac:(lia))) as Hm.
  unfold bind, ret in *. change (negb true) with false. cbv beta iota.
  rewrite Hm, andb_true_l. destruct (_ && _); [|done].
  change (negb true) with false. cbv beta iota. rewrite cur_eq, andb_true_l by done.
  destruct (t_len (tk (p_pos s)) =? 1) eqn:E; [|done]. zb.
  change (negb true) with false. cbv beta iota.
  destruct (tk_span _ _ _ Hok (p_pos s) (proj1 Hi)) as (? & ? & ?). unfold rd, ret.
  destruct ((0 <=? t_start (tk (p_pos s))) && (t_start (tk (p_pos s)) <? zlen src)) eqn:Hr; [done|].
  apply andb_false_iff in Hr as [Hr|Hr]; zb; lia.
Qed.

Lemma di_letter i cp :
  0 <= i < n -> di i = (if cp =? 0 then 5 else if cp =? 5 then 4 else cp) -> 0 <= cp <= 5 ->
  di i <> 0 -> 
  profile = PROFILE_DEFAULT /\ kd i = TK_IDENT /\ text toks src i = [class_letter cp].
Proof.
  intros Hi. destruct (tk_span _ _ _ Hok i Hi) as (? & ? & ?). unfold di.
  destruct (_ && _) eqn:E; [|done]. apply andb_prop in E as [E Hl].
  apply andb_prop in E as [E1 E]. apply andb_prop in E as [E2 _].
  apply bool_decide_eq_true in E1. apply tk_eqb_true in E2. apply Z.eqb_eq in Hl.
  intros Hd Hcp _. split; [done|]. split; [done|]. unfold text. rewrite Hl, slice_1 by lia.
  f_equal. revert Hd. unfold class_letter.
  repeat case_match; zb; lia.
Qed.

Hint Resolve sp_module_rest sp_import_rest sp_func_rest sp_lower_type : sp.

(** ** Top level *)

Lemma sp_decl s cp :
  inb toks s -> n - p_pos s <= F + 1 -> cp = decl_class (kd (p_pos s)) (di (p_pos s)) ->
  cp <> 0 ->
  wp (parse_decl toks src profile inner rec (kd (p_pos s)) cp)
    (fun a s' => fr toks exact s s' /\
       (p_errs s' = p_errs s -> decl_ok cp (p_in_sc s) (p_pos s) (p_pos s') a)) s.
Proof.
  intros Hi Hb Hcp H0. pose proof (di_letter (p_pos s) cp (proj1 Hi)) as Hl.
  unfold decl_class in Hcp.
  assert (Hlower : forall rest, di (p_pos s) = (if cp =? 0 then 5 else if cp =? 5 then 4 else cp) ->
    0 <= cp <= 5 -> di (p_pos s) <> 0 -> (forall t, sp (F + 1) (rest_ok true cp t) (rest t)) ->
    wp (lower_decl toks rest)
      (fun a s' => fr toks exact s s' /\
         (p_errs s' = p_errs s -> decl_ok cp (p_in_sc s) (p_pos s) (p_pos s') a)) s).
  { intros rest E1 E2 E3 Hr. destruct (Hl E1 E2 E3) as (? & ? & ?). by apply wp_lower_decl. }
  unfold parse_decl.
  destruct (tk_eqb (kd (p_pos s)) TK_KW_I || (di (p_pos s) =? 1)) eqn:E1.
  { subst cp. simpl. destruct (tk_eqb _ _) eqn:E; simpl in E1; zb.
    - apply (sp_kw_decl 1 TK_KW_I); [done..|auto with sp|done|done].
    - apply Hlower; [done|lia|lia|auto with sp]. }
  destruct (tk_eqb (kd (p_pos s)) TK_KW_T || (di (p_pos s) =? 2)) eqn:E2.
  { subst cp. simpl. destruct (tk_eqb _ TK_KW_T) eqn:E; simpl in E2; zb.
    - by apply sp_type_decl.
    - apply Hlower; [done|lia|lia|auto with sp]. }
  destruct (tk_eqb (kd (p_pos s)) TK_IDENT && (di (p_pos s) =? 0)) eqn:E3.
  { subst cp. simpl. by apply sp_const_decl. }
  destruct (tk_eqb (kd (p_pos s)) TK_KW_LET) eqn:E4.
  { subst cp. simpl. apply tk_eqb_true in E4.
    eapply wp_conseq; [eapply sp_stmt; [done..|]|]; [done|]. intros a s' [F1 C1]. split; [done|].
    intros Hc. destruct (C1 Hc) as (x & -> & ? & ?). exists x. split_and!; [done..|].
    by apply gd_global. }
  destruct (tk_eqb (kd (p_pos s)) TK_KW_F || (di (p_pos s) =? 4)) eqn:E5; [|done].
  subst cp. simpl. destruct (tk_eqb _ TK_KW_F) eqn:E; simpl in E5; zb.
  - apply (sp_kw_decl 5 TK_KW_F); [done..|auto with sp|done|done].
  - apply Hlower; [done|lia|lia|auto with sp].
Qed.

(** The module declaration. *)
Lemma wp_head root s :
  inb toks s -> n - p_pos s <= F + 1 ->
  wp (parse_head toks src profile (tk (p_pos s)) root)
    (fun r s' => fr toks exact s s' /\ same_leaf root r /\
       (p_errs s' = p_errs s -> exists m, r = ch root (Some m) /\
          g_decl (p_in_sc s) 0 (p_pos s) (p_pos s') m)) s.
Proof.
  intros Hi Hb. unfold parse_head. ps. ps. ps.
  { ps. eapply wp_conseq; [apply (sp_kw_decl 0 TK_KW_M); [done..|auto with sp|done|done]|].
    intros a s' [F1 C1]. ps. split_and!; [done|apply same_leaf_ch, same_leaf_refl|].
    intros Hc.
    destruct (C1 Hc) as (x & -> & ? & ?). by exists x. }
  ps. eapply wp_test; [by apply is_decl_ident_eq|]. ps.
  - destruct (di_letter (p_pos s) 0 (proj1 Hi)) as (? & ? & ?); [done|lia|lia|].
    ps. eapply wp_conseq; [apply (wp_lower_decl 0); [done..|auto with sp]|].
    intros a s' [F1 C1]. ps. split_and!; [done|apply same_leaf_ch, same_leaf_refl|].
    intros Hc.
    destruct (C1 Hc) as (x & -> & ? & ?). by exists x.
  - ps. ps. ps. split_and!; [done|apply same_leaf_refl|]. intros Hc. lia.
Qed.

(** The end of a run of [parse_body]. *)
Record body_post (s : Parser) (root : Node) (s' : Parser) : Prop := {
  bp_fr : fr toks exact s s';
  bp_root : same_leaf (mk NODE_PROGRAM (tk (p_pos s))) root;
  bp_stop : p_errs s' < MAX_PARSE_ERRORS -> kd (p_pos s') = TK_EOF;
  bp_clean : p_errs s' = p_errs s -> p_in_sc s = false -> p_pos s = 0 ->
             g_program toks src profile root
}.

(** One turn of the loop over the declarations. *)
Definition top_post (s : Parser) (ph : Z) (root : Node) (r : Z * Node + Node) (s' : Parser)
    : Prop :=
  fr toks exact s s' /\
  match r with
  | inl (ph', root') =>
      same_leaf root root' /\
      (p_pos s < p_pos s' \/ p_errs s < p_errs s') /\ p_errs s < MAX_PARSE_ERRORS /\
      (p_errs s' = p_errs s -> exists d, root' = ch root (Some d) /\ ph <= ph' /\
         g_decl (p_in_sc s) ph' (p_pos s) (p_pos s') d)
  | inr root' =>
      root' = root /\
      (p_errs s' < MAX_PARSE_ERRORS ->
       p_errs s' = p_errs s /\ p_pos s' = p_pos s /\ kd (p_pos s') = TK_EOF)
  end.

Lemma wp_top ph root s :
  inb toks s -> n - p_pos s <= F + 1 ->
  wp (parse_top toks src profile inner rec (ph, root)) (top_post s ph root) s.
Proof.
  intros Hi Hb. unfold parse_top, top_post. ps. ps. ps.
  { ps. split; [fr_solve|auto]. }
  ps. ps. ps. { ps. split; [fr_solve|]. split; [done|lia]. }
  ps. ps. ps. eapply wp_test; [by apply is_decl_ident_eq|].
  remember (decl_class (kd (p_pos s)) (di (p_pos s))) as cp eqn:Hcp. ps.
  { ps. ps. ps. ps. ps. ps. ps. destruct (MAX_PARSE_ERRORS <=? p_errs s'0) eqn:E; zb.
    - split; [fr_solve|]. split; [done|lia].
    - split; [fr_solve|]. split_and!; [done..|lia|lia|lia]. }
  ps.
  assert (Hd : forall s1, fr toks exact s s1 -> p_pos s1 = p_pos s ->
    (cp < ph -> p_errs s1 = p_errs s + 1) ->
    wp (do d <- parse_decl toks src profile inner rec (kd (p_pos s)) cp;
        ret (inl (if cp <? ph then ph else cp, ch root d))) (top_post s ph root) s1).
  { intros s1 F1 Hp He. fr_facts F1. rewrite <- Hp in *. ps.
    eapply wp_conseq; [apply sp_decl; [unfold inb in *; lia|lia|done..]|].
    intros a s2 [F2 C2]. fr_facts F2. ps. unfold top_post. split; [fr_solve|].
    rewrite <- Hp. unfold inb in *.
    split; [apply same_leaf_ch, same_leaf_refl|]. split_and!; [|done|].
    - destruct (decide (p_errs s2 = p_errs s1)) as [E|]; [|lia].
      destruct (C2 E) as (? & ? & ? & ?). lia.
    - intros Hc. destruct (C2 ltac:(lia)) as (x & -> & ? & ?). exists x. split; [done|].
      destruct (cp <? ph) eqn:E; zb; [lia|]. split; [lia|]. congruence. }
  ps.
  - ps. apply Hd; [done|lia|lia].
  - apply Hd; [fr_solve|done|lia].
Qed.

Lemma same_leaf_trans a b c : same_leaf a b -> same_leaf b c -> same_leaf a c.
Proof. unfold same_leaf. intuition congruence. Qed.

Lemma wp_body s :
  inb toks s -> n - p_pos s <= F + 1 -> p_errs s < MAX_PARSE_ERRORS ->
  wp (parse_body toks src profile inner rec) (body_post s) s.
Proof.
  intros Hi Hb He. unfold parse_body. ps. ps. ps.
  eapply wp_conseq; [by apply wp_head|]. intros root s1 (F1 & L1 & C1). fr_facts F1.
  unfold inb in Hi.
  apply (wp_iter (fun '(ph, r) s' => fr toks exact s s' /\
            same_leaf (mk NODE_PROGRAM (tk (p_pos s))) r /\
            (p_errs s' = p_errs s -> p_in_sc s = false ->
             exists m, g_decl (p_in_sc s) 0 (p_pos s) (p_pos s1) m /\
               g_decls toks src profile (p_in_sc s) (p_pos s1)
                 (ch (mk NODE_PROGRAM (tk (p_pos s))) (Some m)) ph (p_pos s') r))
          (fun _ s' => Z.to_nat (n - p_pos s' + (MAX_PARSE_ERRORS - p_errs s')))).
  { split_and!; [done..|]. intros Hc _. destruct (C1 Hc) as (m & -> & ?). exists m.
    split; [done|]. apply gds_nil. }
  { apply (loop_fuel_ok toks). unfold MAX_PARSE_ERRORS in *. lia. }
  intros [ph r] s2 (F2 & L2 & C2). fr_facts F2.
  eapply wp_conseq; [apply wp_top; [ib|lia]|].
  intros [[ph' r']|r'] s3 [F3 P3]; fr_facts F3.
  - destruct P3 as (L3 & Hm & He2 & C3). split; [|lia].
    split_and!; [fr_solve|by eapply same_leaf_trans|]. intros Hc Hsc.
    destruct (C2 ltac:(lia) Hsc) as (m & ? & ?). destruct (C3 ltac:(lia)) as (d & -> & ? & ?).
    exists m. split; [done|]. eapply gds_snoc; [done..|]. congruence.
  - destruct P3 as (-> & He3). split; [fr_solve|done|intros ?%He3; tauto|].
    intros Hc Hsc Hz. destruct (C2 ltac:(lia) Hsc) as (m & ? & ?).
    destruct He3 as (? & E3 & K); [lia|]. rewrite E3 in K.
    exists (p_pos s1), (p_pos s2), m, ph. rewrite Hsc, Hz in *. split_and!; done.
Qed.

End Decl.

