(* ===== verification/ParserProps.v ===== *)
(** * The parser's theorems

    Totality and memory safety of [parse] on every lexed text, soundness of the
    trees of error-free parses for the grammar of [Grammar], and the accounting
    of errors; then the front end, from bytes to tree. *)

From Stdlib Require Import ZArith Lia String Ascii.
From stdpp Require Import base tactics list.
From S2P Require Import Prelude Diag Lexer LexSpec LexerFacts LexerCorrect LexProps Ast Parser Grammar.
From S2P Require Import ParserBase ParserTypes ParserExpr ParserDecl.
Open Scope Z_scope.

(** The outcome of [parse] on tokens that are fit for it. *)
Record parsed (exact : bool) (toks : list Token) (src : list Z) (profile : Profile) (d : Diags)
    (root : Node) (p : Parser) : Prop := {
  pd_fr : fr toks exact (parser_init d) p;
  pd_root : same_leaf (mk NODE_PROGRAM (tk toks 0)) root;
  pd_stop : p_errs p < MAX_PARSE_ERRORS -> kd toks (p_pos p) = TK_EOF;
  pd_clean : p_errs p = 0 -> g_program toks src profile root
}.

Lemma toks_ok_pos toks src : toks_ok toks src -> 0 < zlen toks.
Proof.
  intros [(ts & t & -> & _) _]. rewrite zlen_app. pose proof (zlen_nonneg ts).
  change (zlen [t]) with 1. lia.
Qed.

(** [parse] one depth down, as the interpolation sees it. *)
Definition inner_of (room : nat) : option (list Token -> list Z -> Diags ->
    res (option Node * Diags)) :=
  match room with
  | O => None
  | S r => Some (fun ts s d =>
      match parse_run r PROFILE_DEFAULT ts s d with
      | Ok (n, p) => Ok (n, p_diags p)
      | Oob => Oob
      | NoFuel => NoFuel
      end)
  end.

(** The recursion of the parser within one depth has fuel enough. *)
Lemma parse_run_step exact room profile toks src d :
  toks_ok toks src -> inner_ok (inner_of room) ->
  (exact = true -> inner_of room = None \/ profile = PROFILE_LEGACY) ->
  exists root p, parse_run room profile toks src d = Ok (Some root, p) /\
    parsed exact toks src profile d root p.
Proof.
  intros Hok Hin Hex. pose proof (toks_ok_pos _ _ Hok) as Hn.
  pose proof (recs_ok toks src profile (inner_of room) exact Hok Hin Hex (rec_fuel toks)) as Hrec.
  assert (Hb : zlen toks - 0 <= Z.of_nat (rec_fuel toks) + 1) by (unfold rec_fuel, zlen; lia).
  pose proof (wp_body toks src profile _ exact Hok Hin Hex _ _ Hrec (parser_init d)
    ltac:(split; simpl; lia) Hb ltac:(done)) as Hw.
  assert (E : parse_run room profile toks src d =
    match parse_body toks src profile (inner_of room)
            (recs toks src profile (inner_of room) (rec_fuel toks)) (parser_init d) with
    | Ok (root, p) => Ok (Some root, p)
    | Oob => Oob
    | NoFuel => NoFuel
    end).
  { destruct room; simpl; (rewrite bool_decide_false; [done|by intros ->]). }
  rewrite E. unfold wp in Hw. destruct (parse_body _ _ _ _ _ _) as [[root p]| |]; [|done..].
  exists root, p. split; [done|]. destruct Hw as [F L S C]. split; [done..|].
  intros He. apply C; [done..].
Qed.

Lemma inner_of_ok room : inner_ok (inner_of room).
Proof.
  induction room as [|r IH]; intros parse_; [done|]. intros [= <-] ts w d Hok.
  destruct (parse_run_step false r PROFILE_DEFAULT ts w d Hok IH ltac:(done))
    as (root & p & -> & P).
  eexists _, _. split; [done|]. apply (dr_mono _ _ _ _ (fr_diags _ _ _ _ (pd_fr _ _ _ _ _ _ _ P))).
Qed.

Lemma parse_ok exact toks src profile d :
  toks_ok toks src -> (exact = true -> profile = PROFILE_LEGACY) ->
  exists root p, parse toks src profile d = Ok (Some root, p) /\
    parsed exact toks src profile d root p.
Proof.
  intros Hok Hex. apply parse_run_step; [done|apply inner_of_ok|]. intros ?. right. auto.
Qed.

(** ** Concrete inputs for the witnesses *)

Definition toks_okb (toks : list Token) (src : list Z) : bool :=
  match last toks with Some t => tk_eqb (t_kind t) TK_EOF | None => false end &&
  forallb (fun t => (0 <=? t_start t) && (0 <=? t_len t) && (t_start t + t_len t <=? zlen src))
    toks.

Lemma toks_okb_ok toks src : toks_okb toks src = true -> toks_ok toks src.
Proof.
  intros [H1 H2]%andb_prop. split.
  - destruct (last toks) as [t|] eqn:E; [|done]. apply last_Some in E as [ts ->].
    exists ts, t. split; [done|]. by apply tk_eqb_true.
  - apply List.Forall_forall. intros t Ht. rewrite forallb_forall in H2.
    apply H2 in Ht. apply andb_prop in Ht as [[? ?]%andb_prop ?]. zb. by split.
Qed.

(** The tokens of a text. *)
Definition lexed (src : list Z) (profile : Profile) : list Token :=
  match lex src (zlen src) (zlen src + 16) profile diags_init with
  | Ok (_, l) => l_out l
  | _ => []
  end.

Definition sample : list Z :=
  bytes_of "m=a;t=$p{x:i64};f=g(x:i64):i64{if(x<2){<1};<x*g(x-1)};".
Definition sample_bad : list Z := bytes_of "m=a;f=g(x:i64):i64{<x+};f=h(".

(** ** The theorems on [parse] *)

(** C6: on tokens that end in EOF and lie inside the text, [parse] terminates
    at every depth of interpolation, reads no token and no byte out of bounds,
    and returns a program node anchored at the first token; the final position
    is on a token, and short of twenty errors it is the EOF. *)
Theorem parse_safe toks src profile d :
  toks_ok toks src ->
  exists root p, parse toks src profile d = Ok (Some root, p) /\
    n_kind root = NODE_PROGRAM /\ n_tok_start root = t_start (tk toks 0) /\
    0 <= p_pos p < zlen toks /\ 0 <= p_errs p /\
    (p_errs p < MAX_PARSE_ERRORS -> kd toks (p_pos p) = TK_EOF).
Proof.
  intros Hok. destruct (parse_ok false toks src profile d Hok ltac:(done)) as (root & p & E & P).
  destruct P as [F (? & _ & _ & _ & ? & _) ? _]. destruct F as [? ? _ _]. simpl in *.
  exists root, p. split_and!; auto; lia.
Qed.

Lemma parse_safe_witness :
  let toks := lexed sample_bad PROFILE_DEFAULT in
  toks_ok toks sample_bad /\
  exists root p, parse toks sample_bad PROFILE_DEFAULT diags_init = Ok (Some root, p) /\
    n_kind root = NODE_PROGRAM /\ n_tok_start root = t_start (tk toks 0) /\
    0 <= p_pos p < zlen toks /\ 0 <= p_errs p /\
    (p_errs p < MAX_PARSE_ERRORS -> kd toks (p_pos p) = TK_EOF).
Proof.
  intros toks. assert (H : toks_ok toks sample_bad) by by apply toks_okb_ok.
  split; [exact H|]. exact (parse_safe toks sample_bad PROFILE_DEFAULT diags_init H).
Defined.

(** C7: soundness: a parse that reports no error has read every token up to the
    EOF as a program of the grammar, the module first and the declarations in
    the order of their classes, and has built the tree that the grammar gives. *)
Theorem parse_sound toks src profile d root p :
  toks_ok toks src -> parse toks src profile d = Ok (Some root, p) -> p_errs p = 0 ->
  g_program toks src profile root.
Proof.
  intros Hok E. destruct (parse_ok false toks src profile d Hok ltac:(done)) as (r' & p' & E' & P).
  rewrite E in E'. injection E' as <- <-. apply (pd_clean _ _ _ _ _ _ _ P).
Qed.

Lemma parse_sound_witness :
  let toks := lexed sample PROFILE_DEFAULT in
  exists root p, toks_ok toks sample /\
    parse toks sample PROFILE_DEFAULT diags_init = Ok (Some root, p) /\ p_errs p = 0 /\
    g_program toks sample PROFILE_DEFAULT root.
Proof.
  intros toks. assert (H : toks_ok toks sample) by by apply toks_okb_ok.
  destruct (parse toks sample PROFILE_DEFAULT diags_init) as [[[root|] p]| |] eqn:E;
    [|vm_compute in E; discriminate..].
  assert (He : p_errs p = 0) by (vm_compute in E; by injection E as _ <-).
  exists root, p. split; [exact H|]. split; [done|]. split; [exact He|].
  exact (parse_sound toks sample PROFILE_DEFAULT diags_init root p H E He).
Defined.

(** Error accounting: with diagnostics on, every error the parser counts is
    reported, so that a compilation with no reported error is a clean parse;
    in the legacy profile, where strings are not interpolated, the reported
    errors are exactly the counted ones, suppressed or not. *)
Theorem parse_reports toks src profile d :
  toks_ok toks src ->
  exists root p, parse toks src profile d = Ok (Some root, p) /\
    (s_suppress d = false ->
     s_suppress (p_diags p) = false /\
     s_error_count d + p_errs p <= s_error_count (p_diags p)) /\
    (profile = PROFILE_LEGACY ->
     s_suppress (p_diags p) = s_suppress d /\
     s_error_count (p_diags p) = s_error_count d + if s_suppress d then 0 else p_errs p).
Proof.
  intros Hok. destruct (parse_ok (bool_decide (profile = PROFILE_LEGACY)) toks src profile d Hok)
    as (root & p & E & P); [apply bool_decide_eq_true_1|].
  exists root, p. split; [done|]. destruct (fr_diags _ _ _ _ (pd_fr _ _ _ _ _ _ _ P)) as [_ Hon Hx].
  simpl in *. rewrite Z.sub_0_r in *. split; [done|]. intros Hp. apply Hx. by apply bool_decide_eq_true.
Qed.

Lemma parse_reports_witness :
  let toks := lexed sample_bad PROFILE_LEGACY in
  toks_ok toks sample_bad /\
  exists root p, parse toks sample_bad PROFILE_LEGACY diags_init = Ok (Some root, p) /\
    (s_suppress diags_init = false ->
     s_suppress (p_diags p) = false /\
     s_error_count diags_init + p_errs p <= s_error_count (p_diags p)) /\
    (PROFILE_LEGACY = PROFILE_LEGACY ->
     s_suppress (p_diags p) = s_suppress diags_init /\
     s_error_count (p_diags p) =
       s_error_count diags_init + if s_suppress diags_init then 0 else p_errs p).
Proof.
  intros toks. assert (H : toks_ok toks sample_bad) by by apply toks_okb_ok.
  split; [exact H|]. exact (parse_reports toks sample_bad PROFILE_LEGACY diags_init H).
Defined.

(** ** From bytes to tree *)

Lemma parse_source_run src profile d rc l :
  lex src (zlen src) (zlen src + 16) profile d = Ok (rc, l) -> rc <> -1 -> 0 <= rc ->
  parse_source src profile d =
    match parse (l_out l) src profile (l_diags l) with
    | Ok r => Ok (Some r) | Oob => Oob | NoFuel => NoFuel
    end /\ toks_ok (l_out l) src.
Proof.
  intros E Hrc H0. unfold parse_source. rewrite E.
  destruct (lex_toks_ok src (zlen src + 16) profile d rc l ltac:(lia) E Hrc) as [-> ?].
  destruct (rc <? 0) eqn:?; zb; [lia|done].
Qed.

(** The front end is total on every byte sequence: it stops at the lexer,
    which has then reported an error, or yields a program tree. *)
Theorem parse_source_total src profile d :
  s_suppress d = false ->
  (parse_source src profile d = Ok None /\
   exists l, lex src (zlen src) (zlen src + 16) profile d = Ok (-1, l) /\
     s_error_count d < s_error_count (l_diags l)) \/
  (exists root p, parse_source src profile d = Ok (Some (Some root, p)) /\
     n_kind root = NODE_PROGRAM /\ s_error_count d + p_errs p <= s_error_count (p_diags p)).
Proof.
  intros Hs.
  destruct (lex_runs src (zlen src + 16) profile d ltac:(lia))
    as (rc & l & E & ? & Hsl & He & ? & Hfail & Hgood).
  rewrite Hs in *. destruct (decide (rc = -1)) as [->|Hrc].
  { left. split; [unfold parse_source; by rewrite E|]. exists l. split; [done|]. lia. }
  right. destruct (parse_source_run src profile d rc l E Hrc ltac:(lia)) as [-> Hok].
  destruct (parse_ok false (l_out l) src profile (l_diags l) Hok ltac:(done)) as (root & p & -> & P).
  exists root, p. split; [done|]. destruct P as [F (? & _) _ _].
  destruct (dr_on _ _ _ _ (fr_diags _ _ _ _ F) Hsl) as [_ Hc]. simpl in Hc.
  split; [done|]. lia.
Qed.

Lemma parse_source_total_witness :
  s_suppress diags_init = false /\
  ((parse_source sample_bad PROFILE_DEFAULT diags_init = Ok None /\
    exists l, lex sample_bad (zlen sample_bad) (zlen sample_bad + 16) PROFILE_DEFAULT diags_init
              = Ok (-1, l) /\ s_error_count diags_init < s_error_count (l_diags l)) \/
   (exists root p, parse_source sample_bad PROFILE_DEFAULT diags_init = Ok (Some (Some root, p)) /\
      n_kind root = NODE_PROGRAM /\
      s_error_count diags_init + p_errs p <= s_error_count (p_diags p))).
Proof. split; [done|]. by apply (parse_source_total sample_bad PROFILE_DEFAULT diags_init). Defined.

(** What the front end accepts: when no error is reported, the text is
    lexically well formed, and its tokens are a program of the grammar whose
    tree is the one returned. *)
Theorem parse_source_sound src profile d root p :
  s_suppress d = false -> parse_source src profile d = Ok (Some (Some root, p)) ->
  s_error_count (p_diags p) = s_error_count d ->
  exists ts e, lexes src profile 0 ts /\ t_kind e = TK_EOF /\ t_start e = zlen src /\
    g_program (ts ++ [e]) src profile root.
Proof.
  intros Hs E Hc.
  destruct (lex_runs src (zlen src + 16) profile d ltac:(lia))
    as (rc & l & El & ? & Hsl & He & ? & Hfail & Hgood).
  rewrite Hs in *. destruct (decide (rc = -1)) as [->|Hrc].
  { unfold parse_source in E. by rewrite El in E. }
  destruct (parse_source_run src profile d rc l El Hrc ltac:(lia)) as [E' Hok].
  rewrite E in E'.
  destruct (parse_ok false (l_out l) src profile (l_diags l) Hok ltac:(done))
    as (root' & p' & Ep & P).
  rewrite Ep in E'. injection E' as <- <-.
  pose proof (zlen_nonneg src) as Hcap. assert (0 <= zlen src + 16) as Hcap16 by lia.
  destruct (lex_success _ _ _ _ _ _ Hcap16 El Hrc)
    as (l0 & Hi & -> & _ & He0 & Hpos & Hn).
  exists (l_out l0), (eof_token l0). split_and!; [by eapply inv_lexes|done..|].
  change (l_out l0 ++ [eof_token l0]) with (l_out (push (eof_token l0) l0)).
  apply (pd_clean _ _ _ _ _ _ _ P).
  destruct (dr_on _ _ _ _ (fr_diags _ _ _ _ (pd_fr _ _ _ _ _ _ _ P)) Hsl) as [_ Hc']. 
  pose proof (fr_errs _ _ _ _ (pd_fr _ _ _ _ _ _ _ P)). simpl in *. lia.
Qed.

Lemma parse_source_sound_witness :
  exists root p,
    s_suppress diags_init = false /\
    parse_source sample PROFILE_DEFAULT diags_init = Ok (Some (Some root, p)) /\
    s_error_count (p_diags p) = s_error_count diags_init /\
  exists ts e, lexes sample PROFILE_DEFAULT 0 ts /\ t_kind e = TK_EOF /\
    t_start e = zlen sample /\ g_program (ts ++ [e]) sample PROFILE_DEFAULT root.
Proof.
  destruct (parse_source sample PROFILE_DEFAULT diags_init) as [[[[root|] p]|]| |] eqn:E;
    [|vm_compute in E; discriminate..].
  assert (He : s_error_count (p_diags p) = s_error_count diags_init)
    by (vm_compute in E; by injection E as _ <-).
  exists root, p. split; [done|]. split; [done|]. split; [exact He|].
  by apply (parse_source_sound sample PROFILE_DEFAULT diags_init root p).
Defined.

(** ** What interpolation does to suppressed diagnostics

    [attach_interp] switches the diagnostics on again whatever they were. *)
Lemma interp_expr_unsuppresses parse_ seg p e p' :
  interp_expr parse_ seg p = Ok (e, p') -> s_suppress (p_diags p') = false.
Proof. unfold interp_expr. repeat case_match; intros [=]; by subst. Qed.

(** The outer segment is parsed speculatively, yet its error after the inner
    string is reported: one error for a parse that counts none. *)
Definition nested_interp : list Z :=
  bytes_of "m=a;f=g(x:i64):str{<" ++ [34] ++ bytes_of "v \(f(" ++ [34] ++ bytes_of "\(x)"
  ++ [34] ++ bytes_of ")+)" ++ [34] ++ bytes_of "};".

Lemma nested_interp_leak :
  exists root p,
    parse_source nested_interp PROFILE_DEFAULT diags_init = Ok (Some (Some root, p)) /\
    p_errs p = 0 /\ s_error_count (p_diags p) = 1.
Proof. eexists _, _. vm_compute. done. Qed.
