(* ===== verification/TkirBuf.v ===== *)
(** * The growable byte buffer of [src/src/tkir.c]

    [tkir_buf_*].  The outcome of [realloc] is a parameter: a write for which
    there is no room is dropped, which nothing reports. *)

From Stdlib Require Import ZArith Lia String Ascii.
From stdpp Require Import base tactics list.
From S2P Require Import Prelude.
Open Scope Z_scope.

(** The bytes written and [cap]; [len] is the number of bytes. *)
Record TkirBuf := mkTkirBuf { b_data : list Z; b_cap : Z }.

Definition b_len (b : TkirBuf) : Z := zlen (b_data b).

Definition tkir_buf_init : TkirBuf := mkTkirBuf [] 0.
Definition tkir_buf_free (b : TkirBuf) : TkirBuf := mkTkirBuf [] 0.

(** [while (nc < need) nc *= 2;] *)
Fixpoint double_until (fuel : nat) (need nc : Z) : Z :=
  match fuel with
  | O => nc
  | S f => if nc <? need then double_until f need (nc * 2) else nc
  end.

Definition double_fuel (need : Z) : nat := S (Z.to_nat (Z.log2 need)).

(** The bytes of an integer, the least significant first. *)
Definition le16 (v : Z) : list Z := [Z.land v 255; Z.land (Z.shiftr v 8) 255].
Definition le32 (v : Z) : list Z :=
  [Z.land v 255; Z.land (Z.shiftr v 8) 255; Z.land (Z.shiftr v 16) 255;
   Z.land (Z.shiftr v 24) 255].

(** [for (i = 0; i < n; i++) { u & 0xFF; u >>= 8; }] *)
Fixpoint le_bytes (n : nat) (u : Z) : list Z :=
  match n with
  | O => []
  | S n => Z.land u 255 :: le_bytes n (Z.shiftr u 8)
  end.

(** The conversion of a signed 64-bit integer to an unsigned one. *)
Definition to_u64 (v : Z) : Z := v mod 2 ^ 64.
Definition to_u16 (v : Z) : Z := v mod 2 ^ 16.
Definition to_u32 (v : Z) : Z := v mod 2 ^ 32.

Section Buf.
Context (realloc : Z -> bool).

Definition tkir_buf_grow (need : Z) (b : TkirBuf) : TkirBuf :=
  if b_len b + need <=? b_cap b then b
  else
    let nc := if b_cap b =? 0 then 4096 else b_cap b in
    let nc := double_until (double_fuel (b_len b + need)) (b_len b + need) nc in
    if realloc nc then mkTkirBuf (b_data b) nc else b.

(** The write of [l] after [tkir_buf_grow]. *)
Definition buf_write (l : list Z) (b : TkirBuf) : TkirBuf :=
  let b := tkir_buf_grow (zlen l) b in
  if b_len b + zlen l <=? b_cap b then mkTkirBuf (b_data b ++ l) (b_cap b) else b.

Definition tkir_buf_u8 (v : Z) (b : TkirBuf) : TkirBuf :=
  let b := tkir_buf_grow 1 b in
  if b_len b <? b_cap b then mkTkirBuf (b_data b ++ [v]) (b_cap b) else b.

Definition tkir_buf_u16 (v : Z) : TkirBuf -> TkirBuf := buf_write (le16 v).
Definition tkir_buf_u32 (v : Z) : TkirBuf -> TkirBuf := buf_write (le32 v).
Definition tkir_buf_i64 (v : Z) : TkirBuf -> TkirBuf := buf_write (le_bytes 8 (to_u64 v)).
Definition tkir_buf_bytes (src : list Z) : TkirBuf -> TkirBuf := buf_write src.
Definition tkir_buf_str (s : list Z) (b : TkirBuf) : TkirBuf :=
  tkir_buf_bytes s (tkir_buf_u16 (to_u16 (zlen s)) b).

(** ** Laws *)

(** The bytes fit the allocation, which is none or at least the first one. *)
Definition buf_ok (b : TkirBuf) : Prop := b_len b <= b_cap b /\ (b_cap b = 0 \/ 4096 <= b_cap b).

Lemma init_ok : buf_ok tkir_buf_init.
Proof. split; [done|by left]. Qed.

Lemma double_until_ge f need nc : 1 <= nc -> nc <= double_until f need nc.
Proof.
  revert nc. induction f as [|f IH]; intros nc H; simpl; [lia|].
  case_match; [|lia]. specialize (IH (nc * 2)). lia.
Qed.

Lemma double_until_enough f need nc :
  1 <= nc -> need <= nc * 2 ^ Z.of_nat f -> need <= double_until f need nc.
Proof.
  revert nc. induction f as [|f IH]; intros nc H Hn; simpl; [rewrite Z.mul_1_r in Hn; lia|].
  destruct (nc <? need) eqn:E; zb; [|lia]. apply IH; [lia|].
  rewrite Nat2Z.inj_succ, Z.pow_succ_r in Hn by lia. lia.
Qed.

(** The doubling loop ends with room for [need]. *)
Lemma grow_fits need nc : 1 <= nc -> need <= double_until (double_fuel need) need nc.
Proof.
  intros H. destruct (Z.le_gt_cases need 0).
  { pose proof (double_until_ge (double_fuel need) need nc H). lia. }
  apply double_until_enough; [done|]. unfold double_fuel.
  pose proof (Z.log2_spec need ltac:(lia)) as [_ Hl]. pose proof (Z.log2_nonneg need).
  rewrite Nat2Z.inj_succ, Z2Nat.id by lia. nia.
Qed.

Lemma grow_data need b : b_data (tkir_buf_grow need b) = b_data b.
Proof. unfold tkir_buf_grow. by repeat case_match. Qed.

Lemma grow_ok need b : buf_ok b -> buf_ok (tkir_buf_grow need b).
Proof.
  intros [H1 H2]. pose proof (zlen_nonneg (b_data b)).
  unfold tkir_buf_grow. destruct (_ <=? _) eqn:E; [done|]. destruct (realloc _); [|done].
  unfold buf_ok, b_len in *. zb. cbn [b_data b_cap].
  set (nc := if b_cap b =? 0 then 4096 else b_cap b).
  assert (4096 <= nc) by (unfold nc; case_match; zb; lia).
  pose proof (double_until_ge (double_fuel (zlen (b_data b) + need)) (zlen (b_data b) + need) nc
    ltac:(lia)).
  assert (b_cap b <= nc) by (unfold nc; case_match; zb; lia). lia.
Qed.

(** A write keeps the invariant and appends everything or nothing. *)
Lemma write_ok l b : buf_ok b -> buf_ok (buf_write l b).
Proof.
  intros H. apply (grow_ok (zlen l)) in H. unfold buf_write. case_match; [|done]. zb.
  destruct H as [? ?]. unfold buf_ok, b_len in *. simpl. rewrite zlen_app. lia.
Qed.

Lemma write_data l b :
  b_data (buf_write l b) = b_data b \/ b_data (buf_write l b) = b_data b ++ l.
Proof. unfold buf_write. case_match; simpl; rewrite grow_data; auto. Qed.

Lemma u8_write v b : tkir_buf_u8 v b = buf_write [v] b.
Proof.
  unfold tkir_buf_u8, buf_write. change (zlen [v]) with 1.
  destruct (_ <? _) eqn:E1, (_ <=? _) eqn:E2; zb; (done || lia).
Qed.

(** When [realloc] succeeds every write is an append. *)
Section Succeeds.
Context (Hr : forall n, realloc n = true).

Lemma write_app l b : buf_ok b -> b_data (buf_write l b) = b_data b ++ l.
Proof.
  intros [H1 H2]. unfold buf_write.
  assert (Hfit : b_len (tkir_buf_grow (zlen l) b) + zlen l <= b_cap (tkir_buf_grow (zlen l) b)).
  { unfold b_len. rewrite grow_data. unfold tkir_buf_grow. rewrite Hr.
    destruct (_ <=? _) eqn:E; zb; [unfold b_len in E; lia|]. simpl. apply grow_fits.
    case_match; zb; lia. }
  apply Z.leb_le in Hfit. rewrite Hfit. simpl. by rewrite grow_data.
Qed.

Lemma u8_app v b : buf_ok b -> b_data (tkir_buf_u8 v b) = b_data b ++ [v].
Proof. rewrite u8_write. apply write_app. Qed.

End Succeeds.

End Buf.

Lemma le16_len v : zlen (le16 v) = 2.
Proof. done. Qed.
Lemma le32_len v : zlen (le32 v) = 4.
Proof. done. Qed.

(** ** Reading the bytes back *)

Definition byte (v : Z) : Prop := 0 <= v < 256.

Lemma land_byte v : byte (Z.land v 255).
Proof. unfold byte. change 255 with (Z.ones 8). rewrite Z.land_ones by lia. apply Z.mod_pos_bound. lia. Qed.

Lemma le16_bytes v : Forall byte (le16 v).
Proof. repeat constructor; apply land_byte. Qed.
Lemma le32_bytes v : Forall byte (le32 v).
Proof. repeat constructor; apply land_byte. Qed.

(** Bits of a byte above the eighth are zero. *)
Lemma bits_low v n : 0 <= n -> Z.testbit (Z.land v 255) n = (n <? 8) && Z.testbit v n.
Proof.
  intros Hn. change 255 with (Z.ones 8). rewrite Z.land_spec, Z.testbit_ones_nonneg by lia.
  rewrite andb_comm. done.
Qed.

Lemma bits_high v w n : 0 <= v < 2 ^ w -> w <= n -> Z.testbit v n = false.
Proof.
  intros Hv Hn. destruct (decide (v = 0)) as [->|]; [apply Z.bits_0|].
  apply Z.bits_above_log2; [lia|]. apply Z.log2_lt_pow2; [lia|].
  assert (0 <= w) by (apply Z.nlt_ge; intros ?; rewrite Z.pow_neg_r in Hv; lia).
  pose proof (Z.pow_le_mono_r 2 w n). lia.
Qed.

Lemma le16_read v :
  0 <= v < 2 ^ 16 -> Z.lor (Z.land v 255) (Z.shiftl (Z.land (Z.shiftr v 8) 255) 8) = v.
Proof.
  intros Hv. apply Z.bits_inj'. intros n Hn. rewrite Z.lor_spec, bits_low, Z.shiftl_spec by done.
  destruct (Z.lt_ge_cases n 8).
  - rewrite (Z.testbit_neg_r _ (n - 8)), orb_false_r by lia.
    by rewrite (proj2 (Z.ltb_lt n 8)) by lia.
  - rewrite bits_low, Z.shiftr_spec, Z.sub_add by lia.
    rewrite (proj2 (Z.ltb_ge n 8)) by lia. simpl.
    destruct (Z.ltb_spec (n - 8) 8); [done|]. simpl. symmetry. apply (bits_high v 16); lia.
Qed.

Lemma le32_read v :
  0 <= v < 2 ^ 32 ->
  Z.lor (Z.lor (Z.lor (Z.land v 255) (Z.shiftl (Z.land (Z.shiftr v 8) 255) 8))
    (Z.shiftl (Z.land (Z.shiftr v 16) 255) 16)) (Z.shiftl (Z.land (Z.shiftr v 24) 255) 24) = v.
Proof.
  intros Hv. apply Z.bits_inj'. intros n Hn.
  rewrite !Z.lor_spec, !Z.shiftl_spec, bits_low by done.
  assert (Hpart : forall k, 0 <= k ->
    Z.testbit (Z.land (Z.shiftr v k) 255) (n - k) = (k <=? n) && (n <? k + 8) && Z.testbit v n).
  { intros k Hk. destruct (Z.leb_spec k n); [|by rewrite Z.testbit_neg_r by lia].
    rewrite bits_low, Z.shiftr_spec, Z.sub_add by lia.
    by destruct (Z.ltb_spec (n - k) 8), (Z.ltb_spec n (k + 8)); try lia. }
  rewrite !Hpart by lia.
  destruct (Z.lt_ge_cases n 32); [|rewrite (bits_high v 32 n) by lia; by rewrite !andb_false_r].
  destruct (Z.ltb_spec n 8), (Z.leb_spec 8 n), (Z.ltb_spec n (8 + 8)), (Z.leb_spec 16 n),
    (Z.ltb_spec n (16 + 8)), (Z.leb_spec 24 n), (Z.ltb_spec n (24 + 8)); try lia;
    simpl; by destruct (Z.testbit v n).
Qed.
