(* ===== verification/Tkir.v ===== *)
(** * The binary IR: [src/src/tkir.c] and [tkir.h], the reader

    [tkir_decode] and everything under it: the cursor, the six section parsers,
    the validation of opcodes and registers, and the release of a module.  A
    buffer is the list of its bytes; a read outside it is [Oob].  An error is
    the message written to [errbuf] (the format string, when it is formatted).
    Allocations are taken to succeed. *)

From Stdlib Require Import ZArith Lia String Ascii.
From stdpp Require Import base tactics list.
From S2P Require Import Prelude.
Open Scope Z_scope.

(** ** Format constants *)

Definition TKIR_MAGIC : Z := 0x544B4952.
Definition TKIR_VERSION_MAJOR : Z := 1.
Definition TKIR_VERSION_MINOR : Z := 0.

Definition TKIR_SEC_TYPE : Z := 1.
Definition TKIR_SEC_FUNC : Z := 2.
Definition TKIR_SEC_CODE : Z := 3.
Definition TKIR_SEC_DATA : Z := 4.
Definition TKIR_SEC_IMPORT : Z := 5.
Definition TKIR_SEC_EXPORT : Z := 6.

Definition TKIR_TY_I64 : Z := 1.
Definition TKIR_TY_F64 : Z := 2.
Definition TKIR_TY_BOOL : Z := 3.
Definition TKIR_TY_STR : Z := 4.
Definition TKIR_TY_VOID : Z := 5.
Definition TKIR_TY_STRUCT : Z := 6.
Definition TKIR_TY_ARRAY : Z := 7.
Definition TKIR_TY_FN_PTR : Z := 8.
Definition TKIR_TY_ERR_UNION : Z := 9.

Definition TKIR_OP_ADD : Z := 0x01.
Definition TKIR_OP_SUB : Z := 0x02.
Definition TKIR_OP_MUL : Z := 0x03.
Definition TKIR_OP_DIV : Z := 0x04.
Definition TKIR_OP_MOD : Z := 0x05.
Definition TKIR_OP_NEG : Z := 0x06.
Definition TKIR_OP_EQ : Z := 0x10.
Definition TKIR_OP_NE : Z := 0x11.
Definition TKIR_OP_LT : Z := 0x12.
Definition TKIR_OP_LE : Z := 0x13.
Definition TKIR_OP_GT : Z := 0x14.
Definition TKIR_OP_GE : Z := 0x15.
Definition TKIR_OP_BR : Z := 0x20.
Definition TKIR_OP_BR_IF : Z := 0x21.
Definition TKIR_OP_CALL : Z := 0x22.
Definition TKIR_OP_RET : Z := 0x23.
Definition TKIR_OP_ALLOCA : Z := 0x30.
Definition TKIR_OP_LOAD : Z := 0x31.
Definition TKIR_OP_STORE : Z := 0x32.
Definition TKIR_OP_CONST_DATA : Z := 0x33.
Definition TKIR_OP_CAST : Z := 0x40.
Definition TKIR_OP_FIELD_GET : Z := 0x41.
Definition TKIR_OP_FIELD_SET : Z := 0x42.

Definition TKIR_DATA_STR : Z := 1.
Definition TKIR_DATA_I64 : Z := 2.
Definition TKIR_DATA_F64 : Z := 3.

Definition TKIR_FN_EXPORTED : Z := 1.
Definition TKIR_FN_EXTERN : Z := 2.
Definition TKIR_FLAG_EXPORTS : Z := 2.
Definition E9020 : Z := 9020.

(** ** The decoded module

    A count and the array it measures are one list. *)

Record TkirInstr := mkTkirInstr {
  i_opcode : Z;
  i_dst : Z;
  i_src : Z;
  i_rhs : Z;
  i_imm : Z;
  i_arg_regs : list Z
}.

Record TkirTypeEntry := mkTkirTypeEntry {
  ty_kind : Z;
  ty_name : list Z;
  ty_elem_type_idx : Z;
  ty_field_type_idxs : list Z
}.

Record TkirFuncDef := mkTkirFuncDef {
  fd_name : list Z;
  fd_flags : Z;
  fd_type_idx : Z;
  fd_reg_count : Z;
  fd_param_count : Z;
  fd_instrs : list TkirInstr
}.

Record TkirDataEntry := mkTkirDataEntry { de_kind : Z; de_bytes : list Z }.

Record TkirImportEntry := mkTkirImportEntry {
  im_name : list Z;
  im_module : list Z;
  im_kind : Z;
  im_type_idx : Z
}.

Record TkirExportEntry := mkTkirExportEntry {
  ex_name : list Z;
  ex_kind : Z;
  ex_index : Z
}.

(** [module_name] and [target] are never written by the reader. *)
Record TkirModule := mkTkirModule {
  m_version_major : Z;
  m_version_minor : Z;
  m_header_flags : Z;
  m_types : list TkirTypeEntry;
  m_funcs : list TkirFuncDef;
  m_data : list TkirDataEntry;
  m_imports : list TkirImportEntry;
  m_exports : list TkirExportEntry
}.

(** [memset(out, 0, sizeof *out)] *)
Definition module_zero : TkirModule := mkTkirModule 0 0 0 [] [] [] [] [].

Definition tkir_module_free (m : TkirModule) : TkirModule :=
  mkTkirModule (m_version_major m) (m_version_minor m) (m_header_flags m) [] [] [] [] [].

Definition set_types (x : list TkirTypeEntry) (m : TkirModule) : TkirModule :=
  mkTkirModule (m_version_major m) (m_version_minor m) (m_header_flags m)
    x (m_funcs m) (m_data m) (m_imports m) (m_exports m).
Definition set_funcs (x : list TkirFuncDef) (m : TkirModule) : TkirModule :=
  mkTkirModule (m_version_major m) (m_version_minor m) (m_header_flags m)
    (m_types m) x (m_data m) (m_imports m) (m_exports m).
Definition set_data (x : list TkirDataEntry) (m : TkirModule) : TkirModule :=
  mkTkirModule (m_version_major m) (m_version_minor m) (m_header_flags m)
    (m_types m) (m_funcs m) x (m_imports m) (m_exports m).
Definition set_imports (x : list TkirImportEntry) (m : TkirModule) : TkirModule :=
  mkTkirModule (m_version_major m) (m_version_minor m) (m_header_flags m)
    (m_types m) (m_funcs m) (m_data m) x (m_exports m).
Definition set_exports (x : list TkirExportEntry) (m : TkirModule) : TkirModule :=
  mkTkirModule (m_version_major m) (m_version_minor m) (m_header_flags m)
    (m_types m) (m_funcs m) (m_data m) (m_imports m) x.
Definition set_instrs (x : list TkirInstr) (f : TkirFuncDef) : TkirFuncDef :=
  mkTkirFuncDef (fd_name f) (fd_flags f) (fd_type_idx f) (fd_reg_count f) (fd_param_count f) x.

(** ** Opcodes and type kinds *)

Definition opcode_valid (op : Z) : bool :=
  ((0x01 <=? op) && (op <=? 0x06)) || ((0x10 <=? op) && (op <=? 0x15)) ||
  ((0x20 <=? op) && (op <=? 0x23)) || ((0x30 <=? op) && (op <=? 0x33)) ||
  ((0x40 <=? op) && (op <=? 0x42)).

(** The first entry of a table, or [UNKNOWN]. *)
Fixpoint name_in (t : list (Z * string)) (k : Z) : string :=
  match t with
  | [] => "UNKNOWN"
  | (k', s) :: t => if k =? k' then s else name_in t k
  end.

Definition tkir_opcode_name : Z -> string :=
  name_in
    [(TKIR_OP_ADD, "ADD"); (TKIR_OP_SUB, "SUB"); (TKIR_OP_MUL, "MUL"); (TKIR_OP_DIV, "DIV");
     (TKIR_OP_MOD, "MOD"); (TKIR_OP_NEG, "NEG"); (TKIR_OP_EQ, "EQ"); (TKIR_OP_NE, "NE");
     (TKIR_OP_LT, "LT"); (TKIR_OP_LE, "LE"); (TKIR_OP_GT, "GT"); (TKIR_OP_GE, "GE");
     (TKIR_OP_BR, "BR"); (TKIR_OP_BR_IF, "BR_IF"); (TKIR_OP_CALL, "CALL"); (TKIR_OP_RET, "RET");
     (TKIR_OP_ALLOCA, "ALLOCA"); (TKIR_OP_LOAD, "LOAD"); (TKIR_OP_STORE, "STORE");
     (TKIR_OP_CONST_DATA, "CONST_DATA"); (TKIR_OP_CAST, "CAST");
     (TKIR_OP_FIELD_GET, "FIELD_GET"); (TKIR_OP_FIELD_SET, "FIELD_SET")]%string.

Definition tkir_type_kind_name : Z -> string :=
  name_in
    [(TKIR_TY_I64, "i64"); (TKIR_TY_F64, "f64"); (TKIR_TY_BOOL, "bool"); (TKIR_TY_STR, "str");
     (TKIR_TY_VOID, "void"); (TKIR_TY_STRUCT, "struct"); (TKIR_TY_ARRAY, "array");
     (TKIR_TY_FN_PTR, "fn"); (TKIR_TY_ERR_UNION, "error_union")]%string.

(** ** The cursor *)

(** A reader over one buffer: the state is [c->pos]. *)
Definition C (A : Type) : Type := M Z A.
(** A reader that may fail with a message. *)
Definition E (A : Type) : Type := C (string + A).

Definition fail {A} (msg : string) : E A := ret (inl msg).
Definition ok {A} (a : A) : E A := ret (inr a).
Definition ebind {A B} (m : E A) (k : A -> E B) : E B :=
  do r <- m; match r with inl e => ret (inl e) | inr a => k a end.

Notation "'try' x <- m ; k" := (ebind m (fun x => k))
  (at level 10, x name, m at level 100, k at level 200) : toke_scope.

(** [if (m < 0) { set_err(msg); return -1; }] *)
Definition need {A} (msg : string) (m : C (option A)) : E A :=
  do r <- m; match r with None => fail msg | Some a => ok a end.

(** [for (i = 0; i < n; i++) x[i] = item(i);] *)
Fixpoint collect {A} (n : nat) (item : E A) : E (list A) :=
  match n with
  | O => ok []
  | S n => try a <- item; try l <- collect n item; ok (a :: l)
  end.

Section Reader.
Context (buf : list Z).
Abbreviation len := (zlen buf).

Definition cur_read_u8 : C (option Z) :=
  do pos <- get;
  if len <? pos + 1 then ret None
  else do b <- rd buf pos; do! put (pos + 1); ret (Some b).

Definition cur_read_u16 : C (option Z) :=
  do pos <- get;
  if len <? pos + 2 then ret None
  else
    do b0 <- rd buf pos;
    do b1 <- rd buf (pos + 1);
    do! put (pos + 2);
    ret (Some (Z.lor b0 (Z.shiftl b1 8))).

Definition cur_read_u32 : C (option Z) :=
  do pos <- get;
  if len <? pos + 4 then ret None
  else
    do b0 <- rd buf pos;
    do b1 <- rd buf (pos + 1);
    do b2 <- rd buf (pos + 2);
    do b3 <- rd buf (pos + 3);
    do! put (pos + 4);
    ret (Some (Z.lor (Z.lor (Z.lor b0 (Z.shiftl b1 8)) (Z.shiftl b2 16)) (Z.shiftl b3 24))).

Definition cur_read_bytes (n : Z) : C (option (list Z)) :=
  do pos <- get;
  if len <? pos + n then ret None
  else do l <- rd_range buf pos n; do! put (pos + n); ret (Some l).

(** The bytes that land in the destination, before the terminator. *)
Definition cur_read_str (buf_size : Z) : C (option (list Z)) :=
  do slen <- cur_read_u16;
  match slen with
  | None => ret None
  | Some slen =>
      do pos <- get;
      if len <? pos + slen then ret None
      else
        let copy := if slen <? buf_size - 1 then slen else buf_size - 1 in
        do l <- rd_range buf pos copy;
        do! put (pos + slen);
        ret (Some l)
  end.

(** ** Section parsers *)

Definition has_name (kind : Z) : bool := (kind =? TKIR_TY_STRUCT) || (kind =? TKIR_TY_FN_PTR).
Definition has_elem (kind : Z) : bool :=
  (kind =? TKIR_TY_ARRAY) || (kind =? TKIR_TY_ERR_UNION) || (kind =? TKIR_TY_FN_PTR).

Definition parse_type_entry : E TkirTypeEntry :=
  try kind <- need "type section: truncated kind" cur_read_u8;
  if (kind <? 0x01) || (0x09 <? kind) then
    fail "type section: unknown type kind 0x%02x at index %d"
  else
  try name <- (if has_name kind then need "type section: truncated name" (cur_read_str 128)
               else ok []);
  try elem <- (if has_elem kind then need "type section: truncated elem_type_idx" cur_read_u16
               else ok 0);
  try fields <- (if kind =? TKIR_TY_STRUCT then
                   try n <- need "type section: truncated field_count" cur_read_u16;
                   collect (Z.to_nat n) (need "type section: truncated field type" cur_read_u16)
                 else ok []);
  try fields <- (if kind =? TKIR_TY_FN_PTR then
                   try n <- need "type section: truncated param_count" cur_read_u16;
                   collect (Z.to_nat n) (need "type section: truncated param type" cur_read_u16)
                 else ok fields);
  ok (mkTkirTypeEntry kind name elem fields).

Definition parse_type_section : E (list TkirTypeEntry) :=
  try count <- need "type section: truncated count" cur_read_u16;
  collect (Z.to_nat count) parse_type_entry.

(** [type_count]: the types loaded so far. *)
Definition parse_func_entry (type_count : Z) : E TkirFuncDef :=
  try name <- need "func section: truncated name" (cur_read_str 128);
  try flags <- need "func section: truncated header" cur_read_u8;
  try type_idx <- need "func section: truncated header" cur_read_u16;
  try reg_count <- need "func section: truncated header" cur_read_u16;
  try param_count <- need "func section: truncated header" cur_read_u16;
  if (0 <? type_count) && (type_count <=? type_idx) then
    fail "func '%s': type_idx %u exceeds type count %d"
  else ok (mkTkirFuncDef name flags type_idx reg_count param_count []).

Definition parse_func_section (type_count : Z) : E (list TkirFuncDef) :=
  try count <- need "func section: truncated count" cur_read_u16;
  collect (Z.to_nat count) (parse_func_entry type_count).

(** The immediate of an instruction, and the arguments of a call. *)
Definition parse_imm (opcode : Z) : E (Z * list Z) :=
  if opcode =? TKIR_OP_CONST_DATA then
    try v <- need "code section: truncated CONST_DATA imm" cur_read_u32; ok (v, [])
  else if opcode =? TKIR_OP_ALLOCA then
    try v <- need "code section: truncated ALLOCA imm" cur_read_u32; ok (v, [])
  else if (opcode =? TKIR_OP_BR) || (opcode =? TKIR_OP_BR_IF) then
    try v <- need "code section: truncated branch imm" cur_read_u32; ok (v, [])
  else if opcode =? TKIR_OP_CALL then
    try f <- need "code section: truncated CALL func_idx" cur_read_u16;
    try n <- need "code section: truncated CALL arg_count" cur_read_u16;
    try args <- collect (Z.to_nat n) (need "code section: truncated CALL arg" cur_read_u16);
    ok (f, args)
  else if (opcode =? TKIR_OP_FIELD_GET) || (opcode =? TKIR_OP_FIELD_SET) then
    try v <- need "code section: truncated field index" cur_read_u16; ok (v, [])
  else if opcode =? TKIR_OP_CAST then
    try v <- need "code section: truncated CAST type" cur_read_u16; ok (v, [])
  else ok (0, []).

(** [reg_count]: the registers of the function the instruction belongs to. *)
Definition parse_instr (reg_count : Z) : E TkirInstr :=
  try opcode <- need "code section: truncated opcode" cur_read_u8;
  if negb (opcode_valid opcode) then
    fail "code section: invalid opcode 0x%02x in func '%s' at instr %d"
  else
  try dst <- need "code section: truncated operands" cur_read_u16;
  try src <- need "code section: truncated operands" cur_read_u16;
  try rhs <- need "code section: truncated operands" cur_read_u16;
  if (0 <? reg_count) && ((reg_count <=? dst) || (reg_count <=? src) || (reg_count <=? rhs)) then
    fail "code section: register out of range in func '%s' instr %d"
  else
  try imm <- parse_imm opcode;
  ok (mkTkirInstr opcode dst src rhs imm.1 imm.2).

(** The code of one function. *)
Definition parse_func_code (funcs : list TkirFuncDef) : E (list TkirFuncDef) :=
  try func_idx <- need "code section: truncated func header" cur_read_u16;
  try instr_count <- need "code section: truncated func header" cur_read_u16;
  if zlen funcs <=? func_idx then fail "code section: func_idx %u >= func_count %d"
  else
  match funcs !! Z.to_nat func_idx with
  | None => oob
  | Some fn =>
      try instrs <- collect (Z.to_nat instr_count) (parse_instr (fd_reg_count fn));
      ok (<[Z.to_nat func_idx := set_instrs instrs fn]> funcs)
  end.

Definition parse_code_section (sec_end : Z) (funcs : list TkirFuncDef) : E (list TkirFuncDef) :=
  iter (S (length buf))
    (fun funcs =>
       do pos <- get;
       if pos <? sec_end then
         do r <- parse_func_code funcs;
         match r with
         | inl e => ret (inr (inl e))
         | inr funcs => ret (inl funcs)
         end
       else ret (inr (inr funcs))) funcs.

Definition parse_data_entry (sec_end : Z) : E TkirDataEntry :=
  try kind <- need "data section: truncated kind" cur_read_u8;
  try size <- need "data section: truncated size" cur_read_u32;
  do pos <- get;
  if sec_end <? pos + size then fail "data section: entry %d size %u exceeds section bounds"
  else
  try bytes <- (if 0 <? size then need "data section: truncated payload" (cur_read_bytes size)
                else ok []);
  ok (mkTkirDataEntry kind bytes).

Definition parse_data_section (sec_end : Z) : E (list TkirDataEntry) :=
  try count <- need "data section: truncated count" cur_read_u16;
  collect (Z.to_nat count) (parse_data_entry sec_end).

Definition parse_import_entry : E TkirImportEntry :=
  try name <- need "import section: truncated name" (cur_read_str 128);
  try module <- need "import section: truncated module" (cur_read_str 256);
  try kind <- need "import section: truncated entry" cur_read_u8;
  try type_idx <- need "import section: truncated entry" cur_read_u16;
  ok (mkTkirImportEntry name module kind type_idx).

Definition parse_import_section : E (list TkirImportEntry) :=
  try count <- need "import section: truncated count" cur_read_u16;
  collect (Z.to_nat count) parse_import_entry.

Definition parse_export_entry : E TkirExportEntry :=
  try name <- need "export section: truncated name" (cur_read_str 128);
  try kind <- need "export section: truncated entry" cur_read_u8;
  try index <- need "export section: truncated entry" cur_read_u16;
  ok (mkTkirExportEntry name kind index).

Definition parse_export_section : E (list TkirExportEntry) :=
  try count <- need "export section: truncated count" cur_read_u16;
  collect (Z.to_nat count) parse_export_entry.

(** ** [tkir_decode] *)

(** The tag of a section, and where it ends. *)
Definition section_header : E (Z * Z) :=
  try tag <- need "truncated section header (tag)" cur_read_u8;
  try sec_len <- need "truncated section header (length)" cur_read_u32;
  do pos <- get;
  if len <? pos + sec_len then fail "section %d (tag 0x%02x): length %u exceeds file size"
  else ok (tag, pos + sec_len).

Definition parse_section (tag sec_end : Z) (out : TkirModule) : E TkirModule :=
  if tag =? TKIR_SEC_TYPE then
    try x <- parse_type_section; ok (set_types x out)
  else if tag =? TKIR_SEC_FUNC then
    try x <- parse_func_section (zlen (m_types out)); ok (set_funcs x out)
  else if tag =? TKIR_SEC_CODE then
    try x <- parse_code_section sec_end (m_funcs out); ok (set_funcs x out)
  else if tag =? TKIR_SEC_DATA then
    try x <- parse_data_section sec_end; ok (set_data x out)
  else if tag =? TKIR_SEC_IMPORT then
    try x <- parse_import_section; ok (set_imports x out)
  else if tag =? TKIR_SEC_EXPORT then
    try x <- parse_export_section; ok (set_exports x out)
  else ok out.

(** The loop over the sections; a section that fails releases the module, a
    header that fails does not. *)
Fixpoint parse_sections (n : nat) (out : TkirModule) : C (option string * TkirModule) :=
  match n with
  | O => ret (None, out)
  | S n =>
      do h <- section_header;
      match h with
      | inl e => ret (Some e, out)
      | inr (tag, sec_end) =>
          do r <- parse_section tag sec_end out;
          match r with
          | inl e => ret (Some e, tkir_module_free out)
          | inr out => do! put sec_end; parse_sections n out
          end
      end
  end.

(** The header: version, flags and number of sections. *)
Definition parse_header : E (Z * Z * Z * Z) :=
  do magic <- cur_read_u32;
  if negb (bool_decide (magic = Some TKIR_MAGIC)) then
    fail "invalid magic bytes (expected 'TKIR')"
  else
  try vmaj <- need "truncated version" cur_read_u8;
  try vmin <- need "truncated version" cur_read_u8;
  if negb (vmaj =? TKIR_VERSION_MAJOR) then
    fail "unsupported TKIR version %u.%u (expected %u.x)"
  else
  try flags <- need "truncated header flags" cur_read_u8;
  try sec_count <- need "truncated section count" cur_read_u16;
  ok (vmaj, vmin, flags, sec_count).

(** The message ([None] for a return of 0) and the module. *)
Definition decode_from_start : C (option string * TkirModule) :=
  do h <- parse_header;
  match h with
  | inl e => ret (Some e, module_zero)
  | inr (vmaj, vmin, flags, sec_count) =>
      parse_sections (Z.to_nat sec_count) (mkTkirModule vmaj vmin flags [] [] [] [] [])
  end.

End Reader.

Definition tkir_decode (buf : list Z) : res (option string * TkirModule) :=
  if zlen buf <? 9 then
    Ok (Some "file too small for TKIR header (need >= 9 bytes)"%string, module_zero)
  else
    match decode_from_start buf 0 with
    | Ok (r, _) => Ok r
    | Oob => Oob
    | NoFuel => NoFuel
    end.

(** [tkir_read]: [None] for a file that cannot be opened. *)
Definition tkir_read (file : option (list Z)) : res (option string * TkirModule) :=
  match file with
  | None => Ok (Some "cannot open '%s'"%string, module_zero)
  | Some [] => Ok (Some "empty or unreadable file"%string, module_zero)
  | Some buf => tkir_decode buf
  end.
