(* ===== verification/TkirFacts.v ===== *)
(** * The binary IR: the reader is safe, and inverts the serialiser of the format *)

From Stdlib Require Import ZArith Lia String Ascii.
From stdpp Require Import base tactics list.
From S2P Require Import Prelude TkirBuf Tkir.
Open Scope Z_scope.

(** * The binary IR reader: safety and validation

    Whatever the bytes, [tkir_decode] terminates inside the buffer, and the
    module it leaves satisfies everything the reader validates. *)

(** ** What a decoded module satisfies *)

Definition u8 (v : Z) : Prop := 0 <= v < 2 ^ 8.
Definition u16 (v : Z) : Prop := 0 <= v < 2 ^ 16.
Definition u32 (v : Z) : Prop := 0 <= v < 2 ^ 32.

(** A name held in an array of [n] characters, its terminator included. *)
Definition name_ok (n : Z) (s : list Z) : Prop := zlen s < n /\ Forall byte s.

(** An array whose count is a [uint16_t]. *)
Definition array_ok {A} (P : A -> Prop) (l : list A) : Prop := zlen l < 2 ^ 16 /\ Forall P l.

Record type_ok (t : TkirTypeEntry) : Prop := {
  to_kind : 1 <= ty_kind t <= 9;
  to_name : name_ok 128 (ty_name t) /\ (has_name (ty_kind t) = false -> ty_name t = []);
  to_elem : u16 (ty_elem_type_idx t) /\ (has_elem (ty_kind t) = false -> ty_elem_type_idx t = 0);
  to_fields : array_ok u16 (ty_field_type_idxs t) /\
              (has_name (ty_kind t) = false -> ty_field_type_idxs t = [])
}.

(** The bytes of the immediate of an opcode. *)
Definition imm_bytes (op : Z) : Z :=
  if (op =? TKIR_OP_CONST_DATA) || (op =? TKIR_OP_ALLOCA) || (op =? TKIR_OP_BR)
     || (op =? TKIR_OP_BR_IF) then 4
  else if (op =? TKIR_OP_CALL) || (op =? TKIR_OP_FIELD_GET) || (op =? TKIR_OP_FIELD_SET)
          || (op =? TKIR_OP_CAST) then 2
  else 0.

Definition imm_ok (op : Z) (x : Z * list Z) : Prop :=
  0 <= x.1 < 2 ^ (8 * imm_bytes op) /\ array_ok u16 x.2 /\ (op <> TKIR_OP_CALL -> x.2 = []).

Record instr_ok (reg_count : Z) (i : TkirInstr) : Prop := {
  io_opcode : opcode_valid (i_opcode i) = true;
  io_u16 : u16 (i_dst i) /\ u16 (i_src i) /\ u16 (i_rhs i);
  io_regs : 0 < reg_count ->
            i_dst i < reg_count /\ i_src i < reg_count /\ i_rhs i < reg_count;
  io_imm : imm_ok (i_opcode i) (i_imm i, i_arg_regs i)
}.

Record func_ok (f : TkirFuncDef) : Prop := {
  fo_name : name_ok 128 (fd_name f);
  fo_flags : u8 (fd_flags f);
  fo_type : u16 (fd_type_idx f);
  fo_regs : u16 (fd_reg_count f);
  fo_params : u16 (fd_param_count f);
  fo_instrs : array_ok (instr_ok (fd_reg_count f)) (fd_instrs f)
}.

Definition data_ok (d : TkirDataEntry) : Prop :=
  u8 (de_kind d) /\ u32 (zlen (de_bytes d)) /\ Forall byte (de_bytes d).

Definition import_ok (i : TkirImportEntry) : Prop :=
  name_ok 128 (im_name i) /\ name_ok 256 (im_module i) /\ u8 (im_kind i) /\ u16 (im_type_idx i).

Definition export_ok (e : TkirExportEntry) : Prop :=
  name_ok 128 (ex_name e) /\ u8 (ex_kind e) /\ u16 (ex_index e).

Record module_ok (m : TkirModule) : Prop := {
  mo_types : array_ok type_ok (m_types m);
  mo_funcs : array_ok func_ok (m_funcs m);
  mo_data : array_ok data_ok (m_data m);
  mo_imports : array_ok import_ok (m_imports m);
  mo_exports : array_ok export_ok (m_exports m)
}.

Lemma array_nil {A} (P : A -> Prop) : array_ok P [].
Proof. split; [done|constructor]. Qed.

Section Safe.
Context (buf : list Z) (Hbuf : Forall byte buf).
Abbreviation len := (zlen buf).

(** ** Readers that stay inside the buffer *)

Definition reads {A} (m : C A) (Q : A -> Prop) : Prop :=
  forall p, 0 <= p <= len -> wp m (fun a p' => p <= p' <= len /\ Q a) p.

(** [P] holds of the value, when there is one. *)
Definition succ {A B} (P : A -> Prop) (r : B + A) : Prop :=
  match r with inl _ => True | inr a => P a end.
Definition some {A} (P : A -> Prop) (o : option A) : Prop :=
  match o with None => True | Some a => P a end.

Lemma reads_conseq {A} (m : C A) (P Q : A -> Prop) :
  reads m P -> (forall a, P a -> Q a) -> reads m Q.
Proof.
  intros Hm H p Hp. eapply wp_conseq; [by apply Hm|]. intros a p' [? ?]. split; [done|auto].
Qed.

Lemma reads_bind {A B} (m : C A) (k : A -> C B) P Q :
  reads m P -> (forall a, P a -> reads (k a) Q) -> reads (bind m k) Q.
Proof.
  intros Hm Hk p Hp. eapply wp_seq; [by apply Hm|]. intros a p' [? Ha].
  eapply wp_conseq; [apply Hk; [done|lia]|]. intros b p2 [? ?]. split; [lia|done].
Qed.

Lemma reads_ret {A} (a : A) (Q : A -> Prop) : Q a -> reads (ret a) Q.
Proof. intros H p Hp. apply wp_ret. split; [lia|done]. Qed.

Lemma reads_fail {A} msg (Q : A -> Prop) : reads (fail msg) (succ Q).
Proof. by apply reads_ret. Qed.

Lemma reads_ok {A} (a : A) (Q : A -> Prop) : Q a -> reads (ok a) (succ Q).
Proof. intros. by apply reads_ret. Qed.

Lemma reads_ebind {A B} (m : E A) (k : A -> E B) P Q :
  reads m (succ P) -> (forall a, P a -> reads (k a) (succ Q)) ->
  reads (ebind m k) (succ Q).
Proof.
  intros Hm Hk. apply (reads_bind _ _ (succ P)); [done|].
  intros [e|a] Ha; [by apply reads_ret|auto].
Qed.

Lemma reads_need {A} msg (m : C (option A)) P :
  reads m (some P) -> reads (need msg m) (succ P).
Proof.
  intros Hm. apply (reads_bind _ _ (some P)); [done|].
  intros [a|] Ha; [by apply reads_ok|apply reads_fail].
Qed.

Lemma reads_if {A} (b : bool) (m1 m2 : C A) Q :
  (b = true -> reads m1 Q) -> (b = false -> reads m2 Q) -> reads (if b then m1 else m2) Q.
Proof. by destruct b; auto. Qed.

Lemma reads_collect {A} n (item : E A) P :
  reads item (succ P) ->
  reads (collect n item) (succ (fun l => length l = n /\ Forall P l)).
Proof.
  intros Hi. induction n as [|n IH]; simpl; [by apply reads_ok|].
  eapply reads_ebind; [done|]. intros a Ha. eapply reads_ebind; [done|].
  intros l [? Hl]. apply reads_ok. simpl. auto.
Qed.

(** A count that was read, and as many items. *)
Lemma reads_array {A} msg (cnt : C (option Z)) (item : E A) P :
  reads cnt (some u16) -> reads item (succ P) ->
  reads (try n <- need msg cnt; collect (Z.to_nat n) item) (succ (array_ok P)).
Proof.
  intros Hc Hi. eapply reads_ebind; [by apply reads_need|]. intros n Hn.
  eapply reads_conseq; [by apply reads_collect|]. intros [e|l]; [done|].
  intros [Hl ?]. split; [|done]. unfold u16 in Hn. unfold zlen. lia.
Qed.

(** ** The cursor *)

Lemma byte_at_byte i : 0 <= i < len -> byte (byte_at buf i).
Proof.
  intros Hi. rewrite Forall_forall in Hbuf. apply Hbuf. unfold byte_at, zlen in *.
  apply list_elem_of_In, nth_In. lia.
Qed.

Lemma lor_bound a b k : 0 <= k -> 0 <= a < 2 ^ k -> 0 <= b < 2 ^ k -> 0 <= Z.lor a b < 2 ^ k.
Proof.
  intros Hk Ha Hb. split; [apply Z.lor_nonneg; lia|].
  destruct (decide (Z.lor a b = 0)) as [->|Hn]; [lia|].
  assert (0 <= Z.lor a b) by (apply Z.lor_nonneg; lia).
  apply Z.log2_lt_pow2; [lia|]. rewrite Z.log2_lor by lia.
  assert (Hx : forall x, 0 <= x < 2 ^ k -> 0 < k -> Z.log2 x < k).
  { intros x ? Hk0. destruct (decide (x = 0)) as [->|]; [by rewrite Z.log2_nonpos|].
    apply Z.log2_lt_pow2; lia. }
  destruct (decide (k = 0)) as [->|]; [|apply Z.max_lub_lt; apply Hx; lia].
  assert (a = 0) by lia. assert (b = 0) by lia. subst. done.
Qed.

Lemma shift_bound a j k : byte a -> 0 <= j -> j + 8 <= k -> 0 <= Z.shiftl a j < 2 ^ k.
Proof.
  intros [? ?] ? ?. rewrite Z.shiftl_mul_pow2 by done.
  assert (2 ^ (j + 8) <= 2 ^ k) by (apply Z.pow_le_mono_r; lia).
  rewrite Z.pow_add_r in * by lia. pose proof (Z.pow_pos_nonneg 2 j). nia.
Qed.

Lemma byte_bound a k : byte a -> 8 <= k -> 0 <= a < 2 ^ k.
Proof. intros. rewrite <- (Z.shiftl_0_r a). by apply shift_bound. Qed.

Ltac rd_bytes :=
  repeat first [wp_step | match goal with |- wp (rd _ _) _ _ => apply wp_rd; [lia|] end].

Lemma reads_u8 : reads (cur_read_u8 buf) (some u8).
Proof.
  intros p Hp. unfold cur_read_u8. rd_bytes; zb; (split; [lia|]); [done|].
  apply byte_bound; [|done]. apply byte_at_byte. lia.
Qed.

Lemma reads_u16 : reads (cur_read_u16 buf) (some u16).
Proof.
  intros p Hp. unfold cur_read_u16. rd_bytes; zb; (split; [lia|]); [done|].
  apply lor_bound; [done|apply byte_bound; [|done]|apply shift_bound; [|done..]];
    apply byte_at_byte; lia.
Qed.

Lemma reads_u32 : reads (cur_read_u32 buf) (some u32).
Proof.
  intros p Hp. unfold cur_read_u32. rd_bytes; zb; (split; [lia|]); [done|].
  repeat apply lor_bound; try done;
    [apply byte_bound; [|done]|apply shift_bound; [|done..]..]; apply byte_at_byte; lia.
Qed.

Lemma slice_bytes p n : Forall byte (slice buf p n).
Proof. unfold slice. by apply Forall_take, Forall_drop. Qed.

Lemma reads_bytes n :
  0 <= n -> reads (cur_read_bytes buf n) (some (fun l => zlen l = n /\ Forall byte l)).
Proof.
  intros Hn p Hp. unfold cur_read_bytes. wp_step. wp_step. wp_step; zb.
  { wp_step. split; [lia|done]. }
  wp_step. apply wp_rd_range; [lia..|]. wp_step. wp_step. wp_step. split; [lia|].
  split; [apply zlen_slice; lia|apply slice_bytes].
Qed.

Lemma reads_str n : 1 <= n -> reads (cur_read_str buf n) (some (name_ok n)).
Proof.
  intros Hn. unfold cur_read_str. eapply reads_bind; [apply reads_u16|].
  intros [slen|] Hs; [|by apply reads_ret]. unfold u16, some in Hs. intros p Hp.
  wp_step. wp_step. wp_step; zb; [wp_step; split; [lia|done]|].
  set (copy := if slen <? n - 1 then slen else n - 1).
  assert (0 <= copy <= slen /\ copy < n) by (unfold copy; case_match; zb; lia).
  wp_step. apply wp_rd_range; [lia..|]. wp_step. wp_step. wp_step. split; [lia|].
  split; [rewrite zlen_slice; lia|apply slice_bytes].
Qed.

(** ** Sections *)

Ltac rd_go :=
  repeat first
    [ apply reads_fail
    | apply reads_array
    | eapply reads_ebind; [|intros ? ?]
    | apply reads_need
    | apply reads_u8 | apply reads_u16 | apply reads_u32
    | apply reads_str; lia
    | apply reads_if; intros ? ].

Lemma reads_type_entry : reads (parse_type_entry buf) (succ type_ok).
Proof.
  unfold parse_type_entry. eapply reads_ebind; [by apply reads_need, reads_u8|].
  intros kind _. apply reads_if; intros Hk; [apply reads_fail|]. zb.
  apply (reads_ebind _ _ (fun s => name_ok 128 s /\ (has_name kind = false -> s = []))).
  { apply reads_if; intros Hn; [|by apply reads_ok].
    eapply reads_need, reads_conseq; [by apply reads_str|].
    intros [s|]; simpl; [intros; split; [done|congruence]|done]. }
  intros name Hname.
  apply (reads_ebind _ _ (fun v => u16 v /\ (has_elem kind = false -> v = 0))).
  { apply reads_if; intros Hn; [|by apply reads_ok].
    eapply reads_need, reads_conseq; [by apply reads_u16|].
    intros [s|]; simpl; [intros; split; [done|congruence]|done]. }
  intros elem Helem.
  apply (reads_ebind _ _ (fun l => array_ok u16 l /\ (has_name kind = false -> l = []))).
  { apply reads_if; intros Hn; [|apply reads_ok; split; [apply array_nil|done]].
    eapply reads_conseq; [apply reads_array; [apply reads_u16|apply reads_need, reads_u16]|].
    intros [e|l]; [done|]. intros Hl. split; [exact Hl|]. unfold has_name. by rewrite Hn. }
  intros fs Hfs.
  apply (reads_ebind _ _ (fun l => array_ok u16 l /\ (has_name kind = false -> l = []))).
  { apply reads_if; intros Hn; [|by apply reads_ok].
    eapply reads_conseq; [apply reads_array; [apply reads_u16|apply reads_need, reads_u16]|].
    intros [e|l]; [done|]. intros Hl. split; [exact Hl|]. unfold has_name.
    by rewrite Hn, orb_true_r. }
  intros fs' Hfs'. apply reads_ok. by split.
Qed.

Lemma reads_type_section : reads (parse_type_section buf) (succ (array_ok type_ok)).
Proof. apply reads_array; [apply reads_u16|apply reads_type_entry]. Qed.

(** A function of the function section has no code yet. *)
Definition func_new (types : Z) (f : TkirFuncDef) : Prop :=
  func_ok f /\ fd_instrs f = [] /\ (0 < types -> fd_type_idx f < types).

Lemma reads_func_entry types : reads (parse_func_entry buf types) (succ (func_new types)).
Proof.
  unfold parse_func_entry. rd_go. apply reads_ok. split_and!; [|done|].
  - by split.
  - simpl. intros Ht. match goal with H : _ && _ = false |- _ =>
      apply andb_false_iff in H as [H|H]; zb; lia end.
Qed.

Lemma reads_func_section types :
  reads (parse_func_section buf types) (succ (array_ok (func_new types))).
Proof. apply reads_array; [apply reads_u16|apply reads_func_entry]. Qed.

Lemma reads_imm op : reads (parse_imm buf op) (succ (imm_ok op)).
Proof.
  unfold parse_imm, imm_ok, imm_bytes.
  repeat (apply reads_if; intros ?);
    try (eapply reads_ebind; [apply reads_need; first [apply reads_u32|apply reads_u16]|];
         intros v Hv).
  4: { eapply reads_ebind; [apply reads_need, reads_u16|]. intros n Hn.
    eapply reads_ebind; [apply reads_collect, reads_need, reads_u16|]. intros l [Hl Hl2].
    apply reads_ok. zb. subst op. simpl. split_and!; try done; [apply Hv..|].
    split; [|done]. unfold u16 in Hn. unfold zlen. lia. }
  all: apply reads_ok; simpl.
  all: repeat match goal with
    | H : (_ =? _) = _ |- _ => rewrite H; clear H
    | H : _ || _ = true |- _ => apply orb_prop in H as [H|H]; zb; subst op
    | H : _ || _ = false |- _ => apply orb_false_elim in H as [? ?]
    end; simpl.
  all: split_and!; try done; try apply Hv; zb; try congruence.
Qed.

Lemma reads_instr regs : reads (parse_instr buf regs) (succ (instr_ok regs)).
Proof.
  unfold parse_instr. eapply reads_ebind; [by apply reads_need, reads_u8|].
  intros op _. apply reads_if; intros Hop; [apply reads_fail|]. zb.
  do 3 (eapply reads_ebind; [apply reads_need, reads_u16|intros ? ?]).
  apply reads_if; intros Hr; [apply reads_fail|].
  eapply reads_ebind; [apply reads_imm|intros [imm args] ?]. apply reads_ok. split; simpl; try done.
  intros ?. apply andb_false_iff in Hr as [Hr|Hr]; zb; lia.
Qed.

(** A 16-bit word that is read moves the cursor. *)
Lemma wp_need_u16 msg p :
  0 <= p <= len ->
  wp (need msg (cur_read_u16 buf))
    (fun r p' => p <= p' <= len /\ succ (fun v => u16 v /\ p < p') r) p.
Proof.
  intros Hp. unfold need, fail, ok, cur_read_u16. rd_bytes; zb; (split; [lia|]); [done|].
  split; [|lia].
  apply lor_bound; [done|apply byte_bound; [|done]|apply shift_bound; [|done..]];
    apply byte_at_byte; lia.
Qed.

Lemma set_instrs_ok f l :
  func_ok f -> array_ok (instr_ok (fd_reg_count f)) l -> func_ok (set_instrs l f).
Proof. intros [] ?. by split. Qed.

Lemma wp_func_code funcs p :
  0 <= p <= len -> array_ok func_ok funcs ->
  wp (parse_func_code buf funcs)
    (fun r p' => p <= p' <= len /\ succ (fun fs => array_ok func_ok fs /\ p < p') r) p.
Proof.
  intros Hp [Hl Hf]. unfold parse_func_code, ebind at 1. wp_step.
  eapply wp_conseq; [by apply wp_need_u16|]. intros [e|idx] p1 [? H1]; [by wp_step|].
  destruct H1 as [Hidx Hlt].
  eapply wp_conseq; [apply (reads_ebind _ _ u16 (array_ok func_ok)); [|intros cnt Hcnt|lia]|].
  - apply reads_need, reads_u16.
  - apply reads_if; intros Hc; [apply reads_fail|]. zb. unfold u16 in *.
    destruct (lookup_lt_is_Some_2 funcs (Z.to_nat idx)) as [fn Hfn]; [unfold zlen in *; lia|].
    rewrite Hfn. pose proof (proj1 (Forall_lookup _ _) Hf _ _ Hfn) as Hfn'.
    eapply reads_ebind; [apply reads_collect, reads_instr|]. intros l [Hll Hli].
    apply reads_ok. split; [unfold zlen in *; rewrite length_insert; done|].
    apply Forall_insert; [done|]. apply set_instrs_ok; [done|]. split; [unfold zlen; lia|done].
  - intros [e|fs] p2 [? H2]; (split; [lia|]); [done|]. split; [done|lia].
Qed.

Lemma reads_code_section sec_end funcs :
  array_ok func_ok funcs -> reads (parse_code_section buf sec_end funcs) (succ (array_ok func_ok)).
Proof.
  intros Hf p Hp. unfold parse_code_section.
  apply (wp_iter (fun fs p' => p <= p' <= len /\ array_ok func_ok fs)
           (fun _ p' => Z.to_nat (len - p'))).
  { split; [lia|done]. }
  { unfold zlen in *. lia. }
  intros fs p1 [? Hfs]. wp_step. wp_step. wp_step; [|wp_step; split; [lia|done]].
  wp_step. eapply wp_conseq; [apply wp_func_code; [lia|done]|].
  intros [e|fs'] p2 [? H2]; wp_step; [split; [lia|done]|]. destruct H2. split; [split; [lia|done]|lia].
Qed.

Lemma reads_data_entry sec_end : sec_end <= len -> reads (parse_data_entry buf sec_end) (succ data_ok).
Proof.
  intros He. unfold parse_data_entry. eapply reads_ebind; [apply reads_need, reads_u8|].
  intros kind Hk. eapply reads_ebind; [apply reads_need, reads_u32|]. intros size Hs p Hp.
  wp_step. wp_step. wp_step; zb; [apply wp_ret; split; [lia|done]|].
  apply (reads_ebind _ _ (fun l => zlen l = size /\ Forall byte l)); [|intros l [Hl ?]|lia].
  - unfold u32 in Hs. apply reads_if; intros Hc; zb.
    + apply reads_need, reads_bytes. lia.
    + apply reads_ok. split; [rewrite zlen_nil; lia|constructor].
  - apply reads_ok. split_and!; simpl; [done| |done]. by rewrite Hl.
Qed.

Lemma reads_data_section sec_end :
  sec_end <= len -> reads (parse_data_section buf sec_end) (succ (array_ok data_ok)).
Proof. intros. apply reads_array; [apply reads_u16|by apply reads_data_entry]. Qed.

Lemma reads_import_section : reads (parse_import_section buf) (succ (array_ok import_ok)).
Proof.
  apply reads_array; [apply reads_u16|]. unfold parse_import_entry.
  do 2 (eapply reads_ebind; [apply reads_need, reads_str; lia|intros ? ?]).
  eapply reads_ebind; [apply reads_need, reads_u8|intros ? ?].
  eapply reads_ebind; [apply reads_need, reads_u16|intros ? ?]. by apply reads_ok.
Qed.

Lemma reads_export_section : reads (parse_export_section buf) (succ (array_ok export_ok)).
Proof.
  apply reads_array; [apply reads_u16|]. unfold parse_export_entry.
  eapply reads_ebind; [apply reads_need, reads_str; lia|intros ? ?].
  eapply reads_ebind; [apply reads_need, reads_u8|intros ? ?].
  eapply reads_ebind; [apply reads_need, reads_u16|intros ? ?]. by apply reads_ok.
Qed.

(** ** The module *)

Lemma wp_section_header p :
  0 <= p <= len ->
  wp (section_header buf)
    (fun r p' => p <= p' <= len /\ succ (fun h => p' <= h.2 <= len) r) p.
Proof.
  intros Hp. unfold section_header, ebind. wp_step.
  eapply wp_conseq; [apply (reads_need _ _ u8); [apply reads_u8|lia]|]. intros [e|tag] p1 [? _]; [by wp_step|].
  wp_step. eapply wp_conseq; [apply (reads_need _ _ u32); [apply reads_u32|lia]|].
  intros [e|sl] p2 [? Hs]; [wp_step; split; [lia|done]|]. simpl in Hs. unfold u32 in Hs.
  wp_step. wp_step. wp_step; zb; apply wp_ret; (split; [lia|]); [done|simpl; lia].
Qed.

Lemma reads_section tag sec_end out :
  sec_end <= len -> module_ok out -> reads (parse_section buf tag sec_end out) (succ module_ok).
Proof.
  intros He [? ? ? ? ?]. unfold parse_section. repeat (apply reads_if; intros _).
  - eapply reads_ebind; [apply reads_type_section|]. intros. by apply reads_ok.
  - eapply reads_ebind; [apply reads_func_section|]. intros fs [? Hfs]. apply reads_ok.
    split; try done. split; [done|]. eapply Forall_impl; [done|]. by intros f [? _].
  - eapply reads_ebind; [by apply reads_code_section|]. intros. by apply reads_ok.
  - eapply reads_ebind; [by apply reads_data_section|]. intros. by apply reads_ok.
  - eapply reads_ebind; [apply reads_import_section|]. intros. by apply reads_ok.
  - eapply reads_ebind; [apply reads_export_section|]. intros. by apply reads_ok.
  - by apply reads_ok.
Qed.

Definition decoded (r : option string * TkirModule) : Prop := module_ok r.2.

Lemma free_ok m : module_ok (tkir_module_free m).
Proof. split; apply array_nil. Qed.

Lemma reads_sections n out : module_ok out -> reads (parse_sections buf n out) decoded.
Proof.
  revert out. induction n as [|n IH]; intros out Ho; simpl; [by apply reads_ret|]. intros p Hp.
  wp_step. eapply wp_conseq; [by apply wp_section_header|].
  intros [e|[tag sec_end]] p1 [? Hh]; [wp_step; split; [lia|done]|]. simpl in Hh.
  wp_step. eapply wp_conseq; [apply (reads_section tag sec_end out); [lia|done|lia]|].
  intros [e|out'] p2 [? Ho']; [wp_step; split; [lia|apply free_ok]|].
  wp_step. wp_step. eapply wp_conseq; [apply IH; [done|lia]|]. intros r p3 [? ?]. split; [lia|done].
Qed.

(** The version of a header that is accepted. *)
Lemma reads_header :
  reads (parse_header buf)
    (succ (fun h => h.1.1.1 = TKIR_VERSION_MAJOR /\ u8 h.1.1.2 /\ u8 h.1.2 /\ u16 h.2)).
Proof.
  unfold parse_header. eapply reads_bind; [apply reads_u32|]. intros m _.
  apply reads_if; intros _; [apply reads_fail|].
  do 2 (eapply reads_ebind; [apply reads_need, reads_u8|intros ? ?]).
  apply reads_if; intros Hv; [apply reads_fail|]. zb.
  eapply reads_ebind; [apply reads_need, reads_u8|intros ? ?].
  eapply reads_ebind; [apply reads_need, reads_u16|intros ? ?]. by apply reads_ok.
Qed.

Lemma zero_ok : module_ok module_zero.
Proof. split; apply array_nil. Qed.

Lemma decode_safe : exists r, tkir_decode buf = Ok r /\ decoded r.
Proof.
  unfold tkir_decode. destruct (len <? 9) eqn:Hl; [by eexists|].
  assert (Hw : reads (decode_from_start buf) decoded).
  { unfold decode_from_start. eapply reads_bind; [apply reads_header|].
    intros [e|[[[vmaj vmin] fl] cnt]] H; [apply reads_ret, zero_ok|].
    apply reads_sections. split; apply array_nil. }
  specialize (Hw 0 (conj (Z.le_refl 0) (zlen_nonneg buf))). unfold wp in Hw.
  destruct (decode_from_start buf 0) as [[r p]| |]; [|done..]. exists r. by destruct Hw.
Qed.

End Safe.

(** * The binary IR reader: what it reads

    The format as a serializer of modules, and the proof that [tkir_decode]
    reads every well-formed module back from its bytes. *)

(** ** The format *)

Definition ser_array {A} (f : A -> list Z) (l : list A) : list Z :=
  le16 (zlen l) ++ concat (map f l).

Definition ser_str (s : list Z) : list Z := le16 (zlen s) ++ s.

Definition ser_type (t : TkirTypeEntry) : list Z :=
  [ty_kind t] ++
  (if has_name (ty_kind t) then ser_str (ty_name t) else []) ++
  (if has_elem (ty_kind t) then le16 (ty_elem_type_idx t) else []) ++
  (if has_name (ty_kind t) then ser_array le16 (ty_field_type_idxs t) else []).

Definition ser_func (f : TkirFuncDef) : list Z :=
  ser_str (fd_name f) ++ [fd_flags f] ++ le16 (fd_type_idx f) ++ le16 (fd_reg_count f) ++
  le16 (fd_param_count f).

Definition ser_imm (op imm : Z) (args : list Z) : list Z :=
  if imm_bytes op =? 4 then le32 imm
  else if imm_bytes op =? 2 then
    le16 imm ++ (if op =? TKIR_OP_CALL then ser_array le16 args else [])
  else [].

Definition ser_instr (i : TkirInstr) : list Z :=
  [i_opcode i] ++ le16 (i_dst i) ++ le16 (i_src i) ++ le16 (i_rhs i) ++
  ser_imm (i_opcode i) (i_imm i) (i_arg_regs i).

(** The code of every function, from the index [k] on. *)
Fixpoint ser_code (k : nat) (fs : list TkirFuncDef) : list Z :=
  match fs with
  | [] => []
  | f :: fs => le16 (Z.of_nat k) ++ ser_array ser_instr (fd_instrs f) ++ ser_code (S k) fs
  end.

Definition ser_data (d : TkirDataEntry) : list Z :=
  [de_kind d] ++ le32 (zlen (de_bytes d)) ++ de_bytes d.

Definition ser_import (i : TkirImportEntry) : list Z :=
  ser_str (im_name i) ++ ser_str (im_module i) ++ [im_kind i] ++ le16 (im_type_idx i).

Definition ser_export (e : TkirExportEntry) : list Z :=
  ser_str (ex_name e) ++ [ex_kind e] ++ le16 (ex_index e).

Definition ser_section (s : Z * list Z) : list Z := [s.1] ++ le32 (zlen s.2) ++ s.2.

Definition sections (m : TkirModule) : list (Z * list Z) :=
  [(TKIR_SEC_TYPE, ser_array ser_type (m_types m));
   (TKIR_SEC_FUNC, ser_array ser_func (m_funcs m));
   (TKIR_SEC_CODE, ser_code 0 (m_funcs m));
   (TKIR_SEC_DATA, ser_array ser_data (m_data m));
   (TKIR_SEC_IMPORT, ser_array ser_import (m_imports m));
   (TKIR_SEC_EXPORT, ser_array ser_export (m_exports m))].

Definition ser_module (m : TkirModule) : list Z :=
  le32 TKIR_MAGIC ++ [m_version_major m; m_version_minor m; m_header_flags m] ++ le16 6 ++
  concat (map ser_section (sections m)).

(** The modules that a file can hold. *)
Record file_ok (m : TkirModule) : Prop := {
  fm_module : module_ok m;
  fm_version : m_version_major m = TKIR_VERSION_MAJOR;
  fm_header : u8 (m_version_minor m) /\ u8 (m_header_flags m);
  fm_types : 0 < zlen (m_types m) ->
             Forall (fun f => fd_type_idx f < zlen (m_types m)) (m_funcs m);
  fm_sizes : Forall (fun s => zlen s.2 < 2 ^ 32) (sections m)
}.

(** ** Readers on the bytes they expect

    [sees e m bs a]: at the bytes [bs], which end by [e], [m] returns [a] and
    stops behind them. *)

Definition sees {A} (e : Z) (m : list Z -> C A) (bs : list Z) (a : A) : Prop :=
  forall pre post, zlen pre + zlen bs <= e ->
  m (pre ++ bs ++ post) (zlen pre) = Ok (a, zlen pre + zlen bs).

Section Sees.
Context (e : Z).

Lemma sees_bind {A B} (m : list Z -> C A) (k : list Z -> A -> C B) b1 b2 a b :
  sees e m b1 a -> sees e (fun buf => k buf a) b2 b ->
  sees e (fun buf => bind (m buf) (k buf)) (b1 ++ b2) b.
Proof.
  intros Hm Hk pre post He. rewrite zlen_app in He. pose proof (zlen_nonneg b2).
  unfold bind. rewrite <- app_assoc, (Hm pre) by lia.
  specialize (Hk (pre ++ b1) post). rewrite <- app_assoc, zlen_app in Hk.
  rewrite Hk by lia. rewrite zlen_app. do 2 f_equal. lia.
Qed.

Lemma sees_ret {A} (a : A) : sees e (fun _ => ret a) [] a.
Proof. intros pre post _. unfold ret. rewrite zlen_nil. do 2 f_equal. lia. Qed.

Lemma sees_eq {A} m bs bs' (a a' : A) : sees e m bs' a' -> bs = bs' -> a = a' -> sees e m bs a.
Proof. by intros ? -> ->. Qed.

Lemma sees_ebind {A B} (m : list Z -> E A) (k : list Z -> A -> E B) b1 b2 a b :
  sees e m b1 (inr a) -> sees e (fun buf => k buf a) b2 (inr b) ->
  sees e (fun buf => ebind (m buf) (k buf)) (b1 ++ b2) (inr b).
Proof.
  intros Hm Hk. unfold ebind.
  apply (sees_bind m (fun buf r => match r with inl e => ret (inl e) | inr a => k buf a end)
    b1 b2 (inr a)); done.
Qed.

(** The last step of a sequence. *)
Lemma sees_end {A B} (m : list Z -> E A) (f : A -> B) bs a :
  sees e m bs (inr a) -> sees e (fun buf => ebind (m buf) (fun a => ok (f a))) bs (inr (f a)).
Proof.
  intros Hm. rewrite <- (app_nil_r bs). apply (sees_ebind m (fun _ a => ok (f a)) bs [] a); [done|].
  apply sees_ret.
Qed.

Lemma sees_need {A} msg (m : list Z -> C (option A)) bs a :
  sees e m bs (Some a) -> sees e (fun buf => need msg (m buf)) bs (inr a).
Proof.
  intros Hm. rewrite <- (app_nil_r bs).
  apply (sees_bind m (fun _ r => match r with None => fail msg | Some a => ok a end) bs [] (Some a));
    [done|apply sees_ret].
Qed.

Lemma sees_collect_map {A B} (item : list Z -> E B) (f : A -> list Z) (g : A -> B) l :
  Forall (fun a => sees e item (f a) (inr (g a))) l ->
  sees e (fun buf => collect (length l) (item buf)) (concat (map f l)) (inr (map g l)).
Proof.
  induction 1 as [|a l Ha Hl IH]; simpl; [apply sees_ret|].
  apply (sees_ebind item (fun buf a => ebind (collect (length l) (item buf))
    (fun l => ok (a :: l))) _ _ (g a)); [done|].
  by apply (sees_end (fun buf => collect (length l) (item buf)) (cons (g a))).
Qed.

Lemma sees_collect {A} (item : list Z -> E A) (f : A -> list Z) l :
  Forall (fun a => sees e item (f a) (inr a)) l ->
  sees e (fun buf => collect (length l) (item buf)) (concat (map f l)) (inr l).
Proof. intros H. apply sees_collect_map in H. by rewrite map_id in H.
Qed.

(** ** The cursor *)

Lemma app_byte_at (pre bs post : list Z) i :
  0 <= i < zlen bs -> byte_at (pre ++ bs ++ post) (zlen pre + i) = byte_at bs i.
Proof.
  intros Hi. unfold byte_at, zlen in *. rewrite app_nth2 by lia. rewrite app_nth1 by lia.
  f_equal. lia.
Qed.

Lemma app_slice (pre bs post : list Z) : slice (pre ++ bs ++ post) (zlen pre) (zlen bs) = bs.
Proof.
  unfold slice, zlen. rewrite !Nat2Z.id, drop_app_length. by rewrite take_app_length.
Qed.

Lemma rd_at (pre bs post : list Z) i (s : Z) :
  0 <= i < zlen bs -> rd (pre ++ bs ++ post) (zlen pre + i) s = Ok (byte_at bs i, s).
Proof.
  intros Hi. unfold rd, ret. rewrite app_byte_at by done.
  pose proof (zlen_nonneg pre). pose proof (zlen_nonneg post). rewrite !zlen_app.
  destruct (0 <=? _) eqn:E1, (_ <? _) eqn:E2; zb; (done || lia).
Qed.

Lemma rd_at_0 (pre bs post : list Z) (s : Z) :
  0 < zlen bs -> rd (pre ++ bs ++ post) (zlen pre) s = Ok (byte_at bs 0, s).
Proof. intros. rewrite <- (rd_at pre bs post 0 s) by lia. by rewrite Z.add_0_r. Qed.

Lemma room_at (pre bs post : list Z) n :
  n <= zlen bs -> (zlen (pre ++ bs ++ post) <? zlen pre + n) = false.
Proof. intros. rewrite !zlen_app. pose proof (zlen_nonneg post). apply Z.ltb_ge. lia. Qed.

Lemma sees_u8 v : sees e cur_read_u8 [v] (Some v).
Proof.
  intros pre post _. unfold cur_read_u8, bind, get, put, ret. rewrite room_at by done.
  by rewrite rd_at_0.
Qed.

Lemma sees_u16 v : u16 v -> sees e cur_read_u16 (le16 v) (Some v).
Proof.
  intros Hv pre post _. unfold cur_read_u16, bind, get, put, ret. rewrite room_at by done.
  rewrite rd_at_0, !rd_at by done.
  do 3 f_equal. by apply le16_read.
Qed.

Lemma sees_u32 v : u32 v -> sees e cur_read_u32 (le32 v) (Some v).
Proof.
  intros Hv pre post _. unfold cur_read_u32, bind, get, put, ret. rewrite room_at by done.
  rewrite rd_at_0, !rd_at by done.
  do 3 f_equal. by apply le32_read.
Qed.

Lemma rd_range_at pre bs post (s : Z) :
  rd_range (pre ++ bs ++ post) (zlen pre) (zlen bs) s = Ok (bs, s).
Proof.
  unfold rd_range, ret. rewrite app_slice. pose proof (zlen_nonneg pre).
  pose proof (zlen_nonneg bs). pose proof (zlen_nonneg post).
  rewrite !(proj2 (Z.leb_le _ _)); [done|rewrite !zlen_app|..]; lia.
Qed.

Lemma sees_bytes bs : sees e (fun buf => cur_read_bytes buf (zlen bs)) bs (Some bs).
Proof.
  intros pre post _. unfold cur_read_bytes, bind, get, put, ret. rewrite room_at by done.
  by rewrite rd_range_at.
Qed.

Lemma sees_str n s :
  name_ok n s -> n <= 2 ^ 16 -> sees e (fun buf => cur_read_str buf n) (ser_str s) (Some s).
Proof.
  intros [Hl _] Hn. unfold cur_read_str.
  eapply (sees_bind cur_read_u16 (fun buf slen => match slen with None => ret None | Some slen => _ end)).
  { apply sees_u16. pose proof (zlen_nonneg s). split; lia. }
  intros pre post _. unfold bind, get, put, ret. rewrite room_at by done.
  replace (if zlen s <? n - 1 then zlen s else n - 1) with (zlen s);
    [by rewrite rd_range_at|]. case_match; zb; lia.
Qed.

Lemma sees_array_map {A B} msg (item : list Z -> E B) (f : A -> list Z) (g : A -> B) P l :
  array_ok P l -> (forall a, P a -> sees e item (f a) (inr (g a))) ->
  sees e (fun buf => ebind (need msg (cur_read_u16 buf))
                       (fun n => collect (Z.to_nat n) (item buf))) (ser_array f l) (inr (map g l)).
Proof.
  intros [Hl HP] Hi.
  apply (sees_ebind (fun buf => need msg (cur_read_u16 buf))
    (fun buf n => collect (Z.to_nat n) (item buf)) _ _ (zlen l)).
  - apply sees_need, sees_u16. pose proof (zlen_nonneg l). split; lia.
  - unfold zlen. rewrite Nat2Z.id. apply sees_collect_map. eapply Forall_impl; [done|auto].
Qed.

Lemma sees_array {A} msg (item : list Z -> E A) (f : A -> list Z) P l :
  array_ok P l -> (forall a, P a -> sees e item (f a) (inr a)) ->
  sees e (fun buf => ebind (need msg (cur_read_u16 buf))
                       (fun n => collect (Z.to_nat n) (item buf))) (ser_array f l) (inr l).
Proof.
  intros Hl Hi. rewrite <- (map_id l) at 2. by apply (sees_array_map _ _ _ (fun x => x) P).
Qed.

End Sees.

(** ** Entries *)

(** Step through a sequence of reads: the bytes of the first one, then the rest. *)
Ltac see :=
  lazymatch goal with
  | |- sees _ (fun buf => ebind (@?m buf) (@?k buf)) (?b1 ++ ?b2) (inr _) =>
      eapply (sees_ebind _ m k b1 b2); cbv beta
  | |- sees _ (fun buf => ebind (@?m buf) (fun a => ok _)) _ (inr _) =>
      eapply (sees_end _ m); cbv beta
  end.
Ltac proj :=
  cbn [ty_kind ty_name ty_elem_type_idx ty_field_type_idxs fd_name fd_flags fd_type_idx fd_reg_count
        fd_param_count fd_instrs i_opcode i_dst i_src i_rhs i_imm i_arg_regs de_kind de_bytes im_name
        im_module im_kind im_type_idx ex_name ex_kind ex_index] in *.

Ltac see_read := apply sees_need; first [by apply sees_u8 | by apply sees_u16 | by apply sees_u32
                                         | by apply sees_str].

Section Entries.
Context (e : Z).

Lemma sees_type t : type_ok t -> sees e parse_type_entry (ser_type t) (inr t).
Proof.
  destruct t as [k nm el fs]. intros [Hk [Hn Hn0] [He He0] [Hf Hf0]]. simpl in *.
  unfold parse_type_entry, ser_type. proj. see; [see_read|].
  destruct (_ || _) eqn:Hr; [apply orb_true_iff in Hr as [Hr|Hr]; zb; lia|].
  see.
  { destruct (has_name k) eqn:Hb; [see_read|]. rewrite Hn0 by done. apply sees_ret. }
  see.
  { destruct (has_elem k) eqn:Hb; [see_read|]. rewrite He0 by done. apply sees_ret. }
  rewrite <- (app_nil_l (if has_name k then _ else _)). destruct (k =? TKIR_TY_STRUCT) eqn:Hs.
  - rewrite app_nil_l, <- (app_nil_r (if has_name k then _ else _)). unfold has_name in *.
    rewrite Hs in *. rewrite orb_true_l. cbv iota. zb. subst k.
    see; [|apply (sees_ret e (inr _))].
    by eapply sees_array; [|intros; see_read].
  - see; [apply (sees_ret e (inr []))|]. unfold has_name in *. rewrite Hs in *. rewrite !orb_false_l in *.
    apply (sees_end e (fun buf => if k =? TKIR_TY_FN_PTR then _ else _)
      (fun fields => mkTkirTypeEntry k nm el fields)).
    destruct (k =? TKIR_TY_FN_PTR) eqn:Hp.
    + by eapply sees_array; [|intros; see_read].
    + rewrite Hf0 by done. apply sees_ret.
Qed.

Lemma sees_func types f :
  func_ok f -> (0 < types -> fd_type_idx f < types) ->
  sees e (fun buf => parse_func_entry buf types) (ser_func f) (inr (set_instrs [] f)).
Proof.
  destruct f as [nm fl ti rc pc is_]. intros [Hn Hf Ht Hr Hp _] Hty. simpl in *.
  unfold parse_func_entry, ser_func, set_instrs. proj.
  see; [see_read|]. see; [see_read|]. do 2 (see; [see_read|]).
  rewrite <- (app_nil_r (le16 pc)). see; [see_read|].
  destruct (_ && _) eqn:Hb; [zb; lia|]. apply sees_ret.
Qed.

Lemma sees_imm op imm args :
  imm_ok op (imm, args) ->
  sees e (fun buf => parse_imm buf op) (ser_imm op imm args) (inr (imm, args)).
Proof.
  intros (Hi & Ha & Hnil). simpl in *.
  assert (Hone : forall msg (m : list Z -> C (option Z)) bs, sees e m bs (Some imm) -> args = [] ->
    sees e (fun buf => ebind (need msg (m buf)) (fun v => ok (v, []))) bs (inr (imm, args))).
  { intros msg m bs Hm ->. apply (sees_end e (fun buf => need msg (m buf)) (fun v => (v, []))).
    by apply sees_need. }
  assert (Hlong : forall msg, imm_bytes op = 4 -> op <> TKIR_OP_CALL ->
    sees e (fun buf => ebind (need msg (cur_read_u32 buf)) (fun v => ok (v, []))) (ser_imm op imm args)
      (inr (imm, args))).
  { intros msg H4 Hc. unfold ser_imm. rewrite H4 in *. apply Hone; [by apply sees_u32|auto]. }
  assert (Hshort : forall msg, imm_bytes op = 2 -> op <> TKIR_OP_CALL ->
    sees e (fun buf => ebind (need msg (cur_read_u16 buf)) (fun v => ok (v, []))) (ser_imm op imm args)
      (inr (imm, args))).
  { intros msg H2 Hc. unfold ser_imm. rewrite H2 in *. rewrite (proj2 (Z.eqb_neq _ _) Hc).
    rewrite app_nil_r. apply Hone; [by apply sees_u16|auto]. }
  unfold parse_imm.
  destruct (op =? TKIR_OP_CONST_DATA) eqn:E1; [zb; subst op; by apply Hlong|].
  destruct (op =? TKIR_OP_ALLOCA) eqn:E2; [zb; subst op; by apply Hlong|].
  destruct (op =? TKIR_OP_BR) eqn:E3; [zb; subst op; by apply Hlong|].
  destruct (op =? TKIR_OP_BR_IF) eqn:E4; [zb; subst op; by apply Hlong|]. cbn [orb].
  destruct (op =? TKIR_OP_CALL) eqn:E5.
  { zb. subst op. change (ser_imm TKIR_OP_CALL imm args) with (le16 imm ++ ser_array le16 args).
    see; [apply sees_need; by apply sees_u16|].
    rewrite <- (app_nil_r (ser_array _ _)). unfold ser_array. rewrite <- app_assoc.
    see; [apply sees_need, sees_u16; destruct Ha; split; [apply zlen_nonneg|done]|].
    unfold zlen. rewrite Nat2Z.id.
    see; [apply sees_collect; destruct Ha as [_ Ha]; eapply Forall_impl; [exact Ha|]|apply sees_ret].
    intros. see_read. }
  destruct (op =? TKIR_OP_FIELD_GET) eqn:E6; [zb; subst op; by apply Hshort|].
  destruct (op =? TKIR_OP_FIELD_SET) eqn:E7; [zb; subst op; by apply Hshort|]. cbn [orb].
  destruct (op =? TKIR_OP_CAST) eqn:E8; [zb; subst op; by apply Hshort|].
  assert (H0 : imm_bytes op = 0).
  { unfold imm_bytes. by rewrite E1, E2, E3, E4, E5, E6, E7, E8. }
  unfold ser_imm. rewrite H0 in *. zb. rewrite Hnil by done.
  replace imm with 0 by lia. apply sees_ret.
Qed.

Lemma sees_instr regs i :
  instr_ok regs i -> sees e (fun buf => parse_instr buf regs) (ser_instr i) (inr i).
Proof.
  destruct i as [op d s r imm args]. intros [Ho (Hd & Hs & Hr) Hregs Hi]. simpl in *.
  unfold parse_instr, ser_instr. proj.
  see; [see_read|]. rewrite Ho. simpl negb. cbv iota. do 3 (see; [see_read|]).
  destruct (_ && _) eqn:Hb.
  { zb. specialize (Hregs ltac:(lia)).
    match goal with H : _ || _ = true |- _ => rewrite !orb_true_iff in H end.
    zb. rewrite ?Z.leb_le in *. lia. }
  apply (sees_end e (fun buf => parse_imm buf op)
    (fun x => mkTkirInstr op d s r x.1 x.2) (ser_imm op imm args) (imm, args)).
  by apply sees_imm.
Qed.

Lemma sees_import i : import_ok i -> sees e parse_import_entry (ser_import i) (inr i).
Proof.
  destruct i as [nm md k ti]. intros (? & ? & ? & ?). simpl in *.
  unfold parse_import_entry, ser_import. proj. do 2 (see; [see_read|]). see; [see_read|]. see. see_read.
Qed.

Lemma sees_export x : export_ok x -> sees e parse_export_entry (ser_export x) (inr x).
Proof.
  destruct x as [nm k i]. intros (? & ? & ?). simpl in *.
  unfold parse_export_entry, ser_export. proj. see; [see_read|]. see; [see_read|]. see. see_read.
Qed.

(** An entry of the data section lies inside the section. *)
Lemma sees_data d : data_ok d -> sees e (fun buf => parse_data_entry buf e) (ser_data d) (inr d).
Proof.
  destruct d as [k bs]. intros (? & Hl & ?). simpl in *. unfold parse_data_entry, ser_data. proj. see; [see_read|]. see; [see_read|].
  assert (Hrest : sees e (fun buf => ebind (if 0 <? zlen bs
    then need "data section: truncated payload" (cur_read_bytes buf (zlen bs)) else ok [])
    (fun bytes => ok (mkTkirDataEntry k bytes))) bs (inr (mkTkirDataEntry k bs))).
  { see. destruct (0 <? zlen bs) eqn:Hz; [by apply sees_need, sees_bytes|].
    zb. destruct bs as [|b bs]; [apply sees_ret|].
    rewrite zlen_cons in Hz. pose proof (zlen_nonneg bs). lia. }
  intros pre post He. unfold bind at 1, get at 1.
  destruct (e <? zlen pre + zlen bs) eqn:Hb; zb; [lia|]. by apply Hrest.
Qed.

End Entries.

(** ** Sections *)

(** The whole code section, from the function [length ds] on. *)
Lemma code_loop fs ds pre post fuel :
  (length fs < fuel)%nat -> zlen ds + zlen fs < 2 ^ 16 -> Forall func_ok fs ->
  iter fuel
    (fun funcs =>
       do pos <- get;
       if pos <? zlen pre + zlen (ser_code (length ds) fs) then
         do r <- parse_func_code (pre ++ ser_code (length ds) fs ++ post) funcs;
         match r with
         | inl e => ret (inr (inl e))
         | inr funcs => ret (inl funcs)
         end
       else ret (inr (inr funcs))) (ds ++ map (set_instrs []) fs) (zlen pre)
  = Ok (inr (ds ++ fs), zlen pre + zlen (ser_code (length ds) fs)).
Proof.
  revert ds pre fuel. induction fs as [|f fs IH]; intros ds pre fuel Hf Hn Hok;
    (destruct fuel as [|fuel]; [simpl in Hf; lia|]); cbn [iter]; unfold bind, get, ret.
  { change (zlen (ser_code (length ds) [])) with 0. rewrite !Z.add_0_r, Z.ltb_irrefl.
    simpl map. by rewrite !app_nil_r. }
  inversion Hok as [|? ? Hf1 Hf2]; subst. rewrite zlen_cons in Hn.
  pose proof (zlen_nonneg fs). pose proof (zlen_nonneg ds).
  set (here := le16 (Z.of_nat (length ds)) ++ ser_array ser_instr (fd_instrs f)).
  assert (Hcode : ser_code (length ds) (f :: fs) = here ++ ser_code (length (ds ++ [f])) fs).
  { unfold here. rewrite <- app_assoc. simpl. by rewrite length_app, Nat.add_1_r. }
  rewrite Hcode. set (rest := ser_code (length (ds ++ [f])) fs) in *.
  assert (Hlen : 4 <= zlen here).
  { unfold here, ser_array. rewrite !zlen_app, !le16_len.
    pose proof (zlen_nonneg (concat (map ser_instr (fd_instrs f)))). lia. }
  pose proof (zlen_nonneg rest). 
  assert (Hlt : (zlen pre <? zlen pre + zlen (here ++ rest)) = true)
    by (apply Z.ltb_lt; rewrite zlen_app; lia).
  rewrite Hlt.
  assert (Hstep : sees (zlen pre + zlen here)
    (fun buf => parse_func_code buf (ds ++ map (set_instrs []) (f :: fs))) here
    (inr ((ds ++ [f]) ++ map (set_instrs []) fs))).
  { unfold parse_func_code, here, ser_array.
    see.
    { apply sees_need, sees_u16. unfold u16, zlen in *. lia. }
    rewrite <- app_assoc. see.
    { destruct (fo_instrs _ Hf1). apply sees_need, sees_u16. split; [apply zlen_nonneg|done]. }
    rewrite (proj2 (Z.leb_gt _ _)).
    2:{ rewrite zlen_app. simpl. rewrite zlen_cons. unfold zlen. lia. }
    rewrite Nat2Z.id, lookup_app_r, Nat.sub_diag by done. simpl lookup. cbv iota.
    rewrite <- (app_nil_r (concat _)).
    see.
    { unfold zlen. rewrite Nat2Z.id. apply sees_collect.
      destruct (fo_instrs _ Hf1) as [_ Hi]. eapply Forall_impl; [exact Hi|].
      intros i. apply sees_instr. }
    eapply sees_eq; [apply sees_ret|done|]. do 2 f_equal.
    rewrite insert_app_r_alt, Nat.sub_diag by done.
    by destruct f. }
  pose proof (Hstep pre (rest ++ post) ltac:(lia)) as Hrun.
  assert (Hb : pre ++ here ++ rest ++ post = (pre ++ here) ++ rest ++ post) by by rewrite <- app_assoc.
  rewrite Hb in Hrun. rewrite <- (app_assoc here), Hb, Hrun. cbv beta iota.
  specialize (IH (ds ++ [f]) (pre ++ here) fuel ltac:(simpl in Hf; lia)
    ltac:(rewrite zlen_app; change (zlen [f]) with 1; lia) Hf2).
  fold rest in IH. rewrite <- (app_assoc ds [f] fs) in IH.
  assert (Hz : zlen pre + zlen (here ++ rest) = zlen (pre ++ here) + zlen rest)
    by (rewrite !zlen_app; lia).
  rewrite Hz, <- (zlen_app pre here). exact IH.
Qed.

(** What [parse_section] does at the body of a section. *)
Definition reads_body (s : Z * list Z) (m m' : TkirModule) : Prop :=
  forall pre post,
  parse_section (pre ++ s.2 ++ post) s.1 (zlen pre + zlen s.2) m (zlen pre)
  = Ok (inr m', zlen pre + zlen s.2).

(** A section that is an array of entries. *)
Lemma section_array {A} tag (parse : list Z -> Z -> E (list A)) (setm : list A -> TkirModule)
    body l m :
  (forall e, sees e (fun buf => parse buf e) body (inr l)) ->
  (forall buf e, parse_section buf tag e m = ebind (parse buf e) (fun x => ok (setm x))) ->
  reads_body (tag, body) m (setm l).
Proof.
  intros Hs Hp pre post. rewrite Hp. simpl.
  by apply (sees_end (zlen pre + zlen body) (fun buf => parse buf (zlen pre + zlen body)) setm body l).
Qed.

Lemma sections_step n s m m' pre post :
  u8 s.1 -> zlen s.2 < 2 ^ 32 -> reads_body s m m' ->
  parse_sections (pre ++ ser_section s ++ post) (S n) m (zlen pre)
  = parse_sections ((pre ++ ser_section s) ++ post) n m' (zlen (pre ++ ser_section s)).
Proof.
  intros Ht Hl Hs. destruct s as [tag body]. cbn [parse_sections fst snd] in *.
  set (hd := [tag] ++ le32 (zlen body)).
  assert (Hser : ser_section (tag, body) = hd ++ body).
  { unfold ser_section, hd. by rewrite <- app_assoc. }
  rewrite Hser.
  assert (Hhd : zlen hd = 5) by done.
  assert (Hh : section_header (pre ++ hd ++ body ++ post) (zlen pre)
    = Ok (inr (tag, zlen (pre ++ hd) + zlen body), zlen (pre ++ hd))).
  { unfold section_header, hd. rewrite <- app_assoc. unfold ebind, need, bind.
    pose proof (sees_u8 (zlen pre + 1) tag pre (le32 (zlen body) ++ body ++ post) ltac:(done)) as H1.
    rewrite H1. cbv beta iota. unfold ok, ret. cbv beta iota.
    pose proof (sees_u32 (zlen pre + 5) (zlen body) ltac:(split; [apply zlen_nonneg|done])
      (pre ++ [tag]) (body ++ post)) as H2.
    rewrite zlen_app, <- app_assoc in H2. change (zlen [tag]) with 1 in *.
    rewrite le32_len in H2. rewrite H2 by lia. unfold get. cbv beta iota.
    assert (Hlt : (zlen (pre ++ [tag] ++ le32 (zlen body) ++ body ++ post)
                   <? zlen pre + 1 + 4 + zlen body) = false).
    { apply Z.ltb_ge. rewrite !zlen_app, le32_len. change (zlen [tag]) with 1.
      pose proof (zlen_nonneg post). lia. }
    rewrite Hlt. rewrite !zlen_app, le32_len. change (zlen [tag]) with 1.
    do 2 f_equal; [|lia]. do 2 f_equal. lia. }
  assert (Hb1 : pre ++ (hd ++ body) ++ post = pre ++ hd ++ body ++ post)
    by by rewrite <- app_assoc.
  assert (Hb2 : (pre ++ hd ++ body) ++ post = pre ++ hd ++ body ++ post)
    by by rewrite <- !app_assoc.
  rewrite Hb1, Hb2. unfold bind at 1. rewrite Hh. cbv beta iota. unfold bind at 1.
  pose proof (Hs (pre ++ hd) post) as H3. rewrite <- app_assoc in H3.
  cbn [fst snd] in H3. rewrite H3.
  unfold bind at 1, put. by rewrite (app_assoc pre hd body), <- zlen_app.
Qed.

Lemma code_section fs m :
  array_ok func_ok fs -> m_funcs m = map (set_instrs []) fs ->
  reads_body (TKIR_SEC_CODE, ser_code 0 fs) m (set_funcs fs m).
Proof.
  intros [Hl Hf] Hm pre post. cbn [fst snd].
  assert (Hfuel : (length fs < S (length (pre ++ ser_code 0 fs ++ post)))%nat).
  { clear -fs. rewrite !length_app. enough (forall k, length fs <= length (ser_code k fs))%nat
      as H by (specialize (H 0%nat); lia).
    induction fs as [|f fs IH]; intros k; simpl; [lia|]. rewrite length_app. specialize (IH (S k)).
    lia. }
  pose proof (code_loop fs [] pre post _ Hfuel ltac:(by rewrite zlen_nil) Hf) as Hc.
  cbn [length app] in Hc.
  change (parse_section _ _ _ m) with
    (ebind (parse_code_section (pre ++ ser_code 0 fs ++ post) (zlen pre + zlen (ser_code 0 fs))
              (m_funcs m)) (fun x => ok (set_funcs x m))).
  unfold ebind, bind at 1, parse_code_section. rewrite Hm. rewrite Hc. done.
Qed.

(** Sections that lead from one module to another. *)
Fixpoint chain (m : TkirModule) (ss : list (Z * list Z)) (m' : TkirModule) : Prop :=
  match ss with
  | [] => m = m'
  | s :: ss => exists m1, u8 s.1 /\ zlen s.2 < 2 ^ 32 /\ reads_body s m m1 /\ chain m1 ss m'
  end.

Lemma sections_run ss m m' pre post :
  chain m ss m' ->
  exists p, parse_sections (pre ++ concat (map ser_section ss) ++ post) (length ss) m (zlen pre)
    = Ok (None, m', p).
Proof.
  revert m pre. induction ss as [|s ss IH]; intros m pre.
  - intros <-. by eexists.
  - intros (m1 & Ht & Hl & Hs & Hc). cbn [map concat length].
    rewrite <- app_assoc, (sections_step _ _ _ m1) by done. apply (IH m1), Hc.
Qed.

Lemma sections_chain m :
  file_ok m ->
  chain (mkTkirModule (m_version_major m) (m_version_minor m) (m_header_flags m) [] [] [] [] [])
    (sections m) m.
Proof.
  intros [Hm _ _ Hty Hsz]. destruct Hm as [Ht Hf Hd Hi Hx]. unfold sections in *.
  rewrite !Forall_cons in Hsz. destruct Hsz as (? & ? & ? & ? & ? & ? & _).
  exists (set_types (m_types m)
    (mkTkirModule (m_version_major m) (m_version_minor m) (m_header_flags m) [] [] [] [] [])).
  split_and!; [done..| |].
  { eapply (section_array _ (fun buf _ => parse_type_section buf) (fun x => set_types x _)); [|done].
    intros e. eapply sees_array; [done|]. intros. by apply sees_type. }
  exists (set_funcs (map (set_instrs []) (m_funcs m)) (set_types (m_types m)
    (mkTkirModule (m_version_major m) (m_version_minor m) (m_header_flags m) [] [] [] [] []))).
  split_and!; [done..| |].
  { eapply (section_array _ (fun buf _ => parse_func_section buf (zlen (m_types m)))
      (fun x => set_funcs x _)); [|done].
    intros e.
    apply (sees_array_map _ _ _ _ _
      (fun f => func_ok f /\ (0 < zlen (m_types m) -> fd_type_idx f < zlen (m_types m)))).
    - destruct Hf as [? Hf]. split; [done|]. apply Forall_and; split; [done|].
      apply Forall_forall. intros f Hin Hpos. specialize (Hty Hpos).
      rewrite Forall_forall in Hty. by apply Hty.
    - intros f [? ?]. by apply sees_func. }
  eexists. split_and!; [done..|by apply code_section|].
  eexists. split_and!; [done..| |].
  { eapply (section_array _ (fun buf e => parse_data_section buf e) (fun x => set_data x _)); [|done].
    intros e. eapply sees_array; [done|]. intros. by apply sees_data. }
  eexists. split_and!; [done..| |].
  { eapply (section_array _ (fun buf _ => parse_import_section buf) (fun x => set_imports x _)); [|done].
    intros e. eapply sees_array; [done|]. intros. by apply sees_import. }
  eexists. split_and!; [done..| |].
  { eapply (section_array _ (fun buf _ => parse_export_section buf) (fun x => set_exports x _)); [|done].
    intros e. eapply sees_array; [done|]. intros. by apply sees_export. }
  by destruct m.
Qed.

Lemma sees_header m k :
  file_ok m -> u16 k -> forall e,
  sees e parse_header
    (le32 TKIR_MAGIC ++ [m_version_major m] ++ [m_version_minor m] ++ [m_header_flags m] ++ le16 k)
    (inr (m_version_major m, m_version_minor m, m_header_flags m, k)).
Proof.
  intros [_ Hv [? ?] _ _] Hk e. unfold parse_header.
  eapply (sees_bind e cur_read_u32 (fun buf magic => if negb (bool_decide (magic = Some TKIR_MAGIC))
    then _ else _)); [by apply sees_u32|].
  rewrite bool_decide_true by done. cbn [negb].
  do 2 (see; [see_read|]). rewrite Hv. change (negb (TKIR_VERSION_MAJOR =? TKIR_VERSION_MAJOR)) with false.
  cbv iota. see; [see_read|]. see. see_read.
Qed.

Lemma decode_ser m : file_ok m -> tkir_decode (ser_module m) = Ok (None, m).
Proof.
  intros Hm. pose proof (sections_chain m Hm) as Hc.
  set (hd := le32 TKIR_MAGIC ++ [m_version_major m] ++ [m_version_minor m] ++ [m_header_flags m] ++
    le16 6).
  assert (Hser : ser_module m = [] ++ hd ++ concat (map ser_section (sections m)) ++ []).
  { rewrite app_nil_r. unfold ser_module, hd. by rewrite <- !app_assoc. }
  assert (H9 : (zlen (ser_module m) <? 9) = false).
  { apply Z.ltb_ge. rewrite Hser, !zlen_app. change (zlen hd) with 9.
    pose proof (zlen_nonneg (concat (map ser_section (sections m)))).
    rewrite zlen_nil. pose proof (zlen_nonneg (@nil Z)). lia. }
  pose proof (sees_header m 6 Hm ltac:(done) (zlen hd) []
    (concat (map ser_section (sections m)) ++ []) ltac:(rewrite zlen_nil; done)) as Hh.
  fold hd in Hh. change (zlen (@nil Z)) with 0 in Hh. rewrite Z.add_0_l in Hh. cbn [app] in Hh.
  unfold tkir_decode. rewrite H9, Hser. cbn [app]. unfold decode_from_start, bind. rewrite Hh.
  cbv beta iota. destruct (sections_run _ _ _ hd [] Hc) as [p Hp].
  change (Z.to_nat 6) with (length (sections m)). by rewrite Hp.
Qed.
