(* ===== verification/TkirEnc.v ===== *)
(** * The binary IR: [src/src/tkir.c], the encoder

    [emit_tkir] and everything under it: the tables, the prepasses over the
    declarations, the emission of expressions and statements, and the section
    writers.  Names are C strings without their terminator; reading a token
    outside the text, or an argument outside [args], is [Oob].  The parameters
    are the outcome of [realloc] and the conversion [(int64_t)strtod(s)]. *)

From Stdlib Require Import ZArith Lia String Ascii.
From stdpp Require Import base tactics list.
From S2P Require Import Prelude Diag Lexer Ast Parser TkirBuf Tkir.
Open Scope Z_scope.

Definition ENC_MAX_TYPES : Z := 256.
Definition ENC_MAX_DATA : Z := 1024.
Definition TKC_MAX_FUNCS : Z := 128.
Definition TKC_MAX_IMPORTS : Z := 32.
Definition TKC_MAX_PARAMS : Z := 16.
Definition NAME_BUF : Z := 128.
Definition ALIAS_BUF : Z := 64.

(** ** The encoder's state *)

(** Field names are stored by the code but never used. *)
Record EncTypeEntry := mkEncType {
  te_kind : Z;
  te_name : list Z;
  te_field_count : Z;
  te_field_type_idxs : list Z
}.

Record EncFunc := mkEncFunc {
  ef_name : list Z;
  ef_param_type_idxs : list Z;
  ef_ret_type_idx : Z;
  ef_flags : Z;
  ef_body : option Node
}.

Inductive EncDataEntry :=
  | DataStr (s : list Z)
  | DataI64 (v : Z)
  | DataF64 (bits : Z).

Record EncImportEntry := mkEncImport {
  ei_module : list Z;
  ei_symbol : list Z;
  ei_type_idx : Z
}.

(** [e_slots] is the array [type_entries]; the other tables hold the entries in
    use, their counts being their lengths. *)
Record Enc := mkEnc {
  e_slots : list EncTypeEntry;
  e_type_count : Z;
  e_funcs : list EncFunc;
  e_data : list EncDataEntry;
  e_imports : list EncImportEntry;
  e_reg : Z;
  e_code : TkirBuf;
  e_offsets : list Z
}.

Definition EM := M Enc.

Definition set_slots (x : list EncTypeEntry) (n : Z) (e : Enc) : Enc :=
  mkEnc x n (e_funcs e) (e_data e) (e_imports e) (e_reg e) (e_code e) (e_offsets e).
Definition set_efuncs (x : list EncFunc) (e : Enc) : Enc :=
  mkEnc (e_slots e) (e_type_count e) x (e_data e) (e_imports e) (e_reg e) (e_code e) (e_offsets e).
Definition set_edata (x : list EncDataEntry) (e : Enc) : Enc :=
  mkEnc (e_slots e) (e_type_count e) (e_funcs e) x (e_imports e) (e_reg e) (e_code e) (e_offsets e).
Definition set_eimports (x : list EncImportEntry) (e : Enc) : Enc :=
  mkEnc (e_slots e) (e_type_count e) (e_funcs e) (e_data e) x (e_reg e) (e_code e) (e_offsets e).
Definition set_reg (x : Z) (e : Enc) : Enc :=
  mkEnc (e_slots e) (e_type_count e) (e_funcs e) (e_data e) (e_imports e) x (e_code e) (e_offsets e).
Definition set_code (x : TkirBuf) (e : Enc) : Enc :=
  mkEnc (e_slots e) (e_type_count e) (e_funcs e) (e_data e) (e_imports e) (e_reg e) x (e_offsets e).
Definition set_offsets (x : list Z) (e : Enc) : Enc :=
  mkEnc (e_slots e) (e_type_count e) (e_funcs e) (e_data e) (e_imports e) (e_reg e) (e_code e) x.

(** [memset(&e, 0, sizeof e)] *)
Definition te_zero : EncTypeEntry := mkEncType 0 [] 0 (replicate (Z.to_nat TKC_MAX_PARAMS) 0).
Definition enc_init : Enc :=
  mkEnc (replicate (Z.to_nat ENC_MAX_TYPES) te_zero) 0 [] [] [] 0 tkir_buf_init [].

(** The index of the first element that satisfies [p]. *)
Fixpoint find_idx {A} (p : A -> bool) (l : list A) : option Z :=
  match l with
  | [] => None
  | x :: l => if p x then Some 0 else option_map Z.succ (find_idx p l)
  end.

(** [strtoll(s, NULL, 10)]: blanks, a sign, digits; the result is clamped. *)
Definition is_space (c : Z) : bool := (c =? 32) || ((9 <=? c) && (c <=? 13)).
Fixpoint skip_space (s : list Z) : list Z :=
  match s with c :: s' => if is_space c then skip_space s' else s | [] => [] end.
Fixpoint digits (acc : Z) (s : list Z) : Z :=
  match s with
  | c :: s => if (48 <=? c) && (c <=? 57) then digits (acc * 10 + (c - 48)) s else acc
  | [] => acc
  end.
Definition clamp_i64 (v : Z) : Z := Z.max (- 2 ^ 63) (Z.min v (2 ^ 63 - 1)).
Definition strtoll (s : list Z) : Z :=
  match skip_space s with
  | c :: s' => if c =? chr "-" then clamp_i64 (- digits 0 s')
               else if c =? chr "+" then clamp_i64 (digits 0 s')
               else clamp_i64 (digits 0 (c :: s'))
  | [] => 0
  end.

(** [enc_resolve_type_kind] *)
Definition name_is (names : list string) (s : list Z) : bool :=
  existsb (fun n => bytes_eqb s (bytes_of n)) names.

Definition enc_resolve_type_kind (name : list Z) : Z :=
  if name_is ["i64"; "I64"; "Int"]%string name then TKIR_TY_I64
  else if name_is ["f64"; "F64"; "Float"]%string name then TKIR_TY_F64
  else if name_is ["bool"; "Bool"]%string name then TKIR_TY_BOOL
  else if name_is ["str"; "Str"; "String"]%string name then TKIR_TY_STR
  else if name_is ["void"; "Void"]%string name then TKIR_TY_VOID
  else 0.

Section Encode.
Context (realloc : Z -> bool) (strtod_i64 : list Z -> Z) (src : list Z).

(** ** Tables *)

Definition enc_tok_text {S} (n : Node) (sz : Z) : M S (list Z) :=
  let len := if n_tok_len n <? sz - 1 then n_tok_len n else sz - 1 in
  do l <- rd_range src (n_tok_start n) len;
  ret (until_nul l).

(** [type_entries[0 .. type_count)] *)
Definition enc_types : EM (list EncTypeEntry) :=
  do e <- get;
  if (0 <=? e_type_count e) && (e_type_count e <=? ENC_MAX_TYPES)
  then ret (take (Z.to_nat (e_type_count e)) (e_slots e)) else oob.

(** A new entry at [type_count], which is known to be in the array. *)
Definition enc_add_type (te : EncTypeEntry) : EM Z :=
  do e <- get;
  let i := e_type_count e in
  do! put (set_slots (<[Z.to_nat i := te]> (e_slots e)) (i + 1) e);
  ret i.

(** [name[0] == '\0'] *)
Definition no_name (te : EncTypeEntry) : bool := bool_decide (te_name te = []).

Definition enc_ensure_scalar (kind : Z) : EM Z :=
  do ts <- enc_types;
  match find_idx (fun te => (te_kind te =? kind) && no_name te) ts with
  | Some i => ret i
  | None =>
      if ENC_MAX_TYPES <=? zlen ts then ret 0
      else
        do e <- get;
        let old := nth (Z.to_nat (e_type_count e)) (e_slots e) te_zero in
        enc_add_type (mkEncType kind [] 0 (te_field_type_idxs old))
  end.

Definition is_struct_named (name : list Z) (te : EncTypeEntry) : bool :=
  (te_kind te =? TKIR_TY_STRUCT) && bytes_eqb (te_name te) name.

Definition enc_type_idx_from_name (name : list Z) : EM Z :=
  let kind := enc_resolve_type_kind name in
  if negb (kind =? 0) then enc_ensure_scalar kind
  else
  do ts <- enc_types;
  match find_idx (is_struct_named name) ts with
  | Some i => ret i
  | None =>
      if ENC_MAX_TYPES <=? zlen ts then ret 0
      else
        do e <- get;
        let old := nth (Z.to_nat (e_type_count e)) (e_slots e) te_zero in
        enc_add_type (mkEncType TKIR_TY_STRUCT name 0 (te_field_type_idxs old))
  end.

Definition enc_type_idx_from_node (n : option Node) : EM Z :=
  match n with
  | None => enc_ensure_scalar TKIR_TY_VOID
  | Some n =>
      match n_kind n with
      | NODE_TYPE_IDENT | NODE_TYPE_EXPR =>
          do name <- enc_tok_text n NAME_BUF; enc_type_idx_from_name name
      | NODE_ARRAY_TYPE => enc_ensure_scalar TKIR_TY_ARRAY
      | NODE_FUNC_TYPE => enc_ensure_scalar TKIR_TY_FN_PTR
      | _ => enc_ensure_scalar TKIR_TY_VOID
      end
  end.

(** The constants: an equal one is reused; a full table gives index 0. *)
Definition add_data (same : EncDataEntry -> bool) (d : EncDataEntry) : EM Z :=
  do e <- get;
  match find_idx same (e_data e) with
  | Some i => ret i
  | None =>
      if ENC_MAX_DATA <=? zlen (e_data e) then ret 0
      else do! put (set_edata (e_data e ++ [d]) e); ret (zlen (e_data e))
  end.

Definition enc_add_str (s : list Z) : EM Z :=
  add_data (fun d => match d with DataStr s' => bytes_eqb s' s | _ => false end) (DataStr s).

Definition enc_add_i64 (v : Z) : EM Z :=
  add_data (fun d => match d with DataI64 v' => v' =? v | _ => false end) (DataI64 v).

(** ** Instructions *)

Definition enc_next_reg : EM Z :=
  do e <- get; do! put (set_reg (to_u16 (e_reg e + 1)) e); ret (e_reg e).

(** Writes to [e->code]. *)
Definition code_u8 (v : Z) : EM unit := modify (fun e => set_code (tkir_buf_u8 realloc v (e_code e)) e).
Definition code_u16 (v : Z) : EM unit :=
  modify (fun e => set_code (tkir_buf_u16 realloc v (e_code e)) e).

Definition enc_emit_rrr (op dest lhs rhs : Z) : EM unit :=
  do! code_u8 op; do! code_u16 dest; do! code_u16 lhs; code_u16 rhs.

Definition enc_emit_const_data (data_idx : Z) : EM Z :=
  do dest <- enc_next_reg;
  do! code_u8 TKIR_OP_CONST_DATA;
  do! code_u16 dest;
  do! code_u16 (to_u16 data_idx);
  ret dest.

(** [args] holds the registers of the first [TKC_MAX_PARAMS] arguments; [argc]
    registers are read from it. *)
Definition enc_emit_call (func_idx : Z) (args : list Z) (argc : Z) : EM Z :=
  do dest <- enc_next_reg;
  do! code_u8 TKIR_OP_CALL;
  do! code_u16 dest;
  do! code_u16 func_idx;
  do! code_u16 (to_u16 argc);
  if TKC_MAX_PARAMS <? argc then oob
  else do! each code_u16 args; ret dest.

Definition enc_emit_ret (src_reg : Z) : EM unit := do! code_u8 TKIR_OP_RET; code_u16 src_reg.
Definition enc_emit_ret_void : EM unit := do! code_u8 TKIR_OP_RET; code_u16 0.

(** ** Prepasses *)

(** The type of a field or a parameter: its second child. *)
Definition second_type (n : Node) : EM Z :=
  match n_children n with
  | _ :: t :: _ => enc_type_idx_from_node (Some t)
  | _ => enc_ensure_scalar TKIR_TY_I64
  end.

(** [te = &type_entries[slot]] *)
Definition get_slot (slot : Z) : EM EncTypeEntry :=
  do e <- get;
  match e_slots e !! Z.to_nat slot with Some te => ret te | None => oob end.
Definition set_slot (slot : Z) (te : EncTypeEntry) : EM unit :=
  modify (fun e => set_slots (<[Z.to_nat slot := te]> (e_slots e)) (e_type_count e) e).

(** A [NODE_FIELD] of the type declaration that fills the entry at [slot]. *)
Definition enc_field (slot : Z) (fld : Node) : EM unit :=
  do te <- get_slot slot;
  if TKC_MAX_PARAMS <=? te_field_count te then ret tt
  else
  match n_children fld with
  | [] => oob
  | c0 :: _ =>
      do _ <- enc_tok_text c0 NAME_BUF;
      do t <- second_type fld;
      do te <- get_slot slot;
      set_slot slot (mkEncType (te_kind te) (te_name te) (te_field_count te + 1)
                       (<[Z.to_nat (te_field_count te) := t]> (te_field_type_idxs te)))
  end.

Definition enc_type_child (slot : Z) (child : Node) : EM unit :=
  match n_kind child with
  | NODE_STMT_LIST =>
      each (fun fld => if has_kind NODE_FIELD fld then enc_field slot fld else ret tt)
        (n_children child)
  | NODE_FIELD => enc_field slot child
  | _ => ret tt
  end.

Definition enc_prepass_type (decl : Node) : EM unit :=
  if negb (has_kind NODE_TYPE_DECL decl) then ret tt
  else
  match n_children decl with
  | [] => ret tt
  | c0 :: rest =>
      do name <- enc_tok_text c0 NAME_BUF;
      do ts <- enc_types;
      if bool_decide (is_Some (find_idx (is_struct_named name) ts)) || (ENC_MAX_TYPES <=? zlen ts)
      then ret tt
      else
      let slot := zlen ts in
      do old <- get_slot slot;
      do! set_slot slot (mkEncType TKIR_TY_STRUCT name 0 (te_field_type_idxs old));
      do! each (enc_type_child slot) rest;
      modify (fun e => set_slots (e_slots e) (e_type_count e + 1) e)
  end.

Definition enc_prepass_types (ast : Node) : EM unit :=
  do _ <- enc_ensure_scalar TKIR_TY_I64;
  do _ <- enc_ensure_scalar TKIR_TY_F64;
  do _ <- enc_ensure_scalar TKIR_TY_BOOL;
  do _ <- enc_ensure_scalar TKIR_TY_STR;
  do _ <- enc_ensure_scalar TKIR_TY_VOID;
  each enc_prepass_type (n_children ast).

(** The parts of a function declaration after its name: the parameter types,
    the return specification and the body. *)
Record FuncParts := mkFuncParts {
  fp_params : list Z;
  fp_ret : option Node;
  fp_body : option Node
}.

Fixpoint enc_func_parts (cs : list Node) (fp : FuncParts) : EM FuncParts :=
  match cs with
  | [] => ret fp
  | child :: cs =>
      do fp <-
        (if has_kind NODE_PARAM child && (zlen (fp_params fp) <? TKC_MAX_PARAMS) then
           do t <- second_type child; ret (mkFuncParts (fp_params fp ++ [t]) (fp_ret fp) (fp_body fp))
         else if has_kind NODE_RETURN_SPEC child then
           ret (mkFuncParts (fp_params fp) (Some child) (fp_body fp))
         else if has_kind NODE_STMT_LIST child then
           ret (mkFuncParts (fp_params fp) (fp_ret fp) (Some child))
         else ret fp);
      enc_func_parts cs fp
  end.

Definition enc_prepass_func (decl : Node) : EM unit :=
  if negb (has_kind NODE_FUNC_DECL decl) then ret tt
  else
  do e <- get;
  if TKC_MAX_FUNCS <=? zlen (e_funcs e) then ret tt
  else
  match n_children decl with
  | [] => ret tt
  | c0 :: rest =>
      do name <- enc_tok_text c0 NAME_BUF;
      do fp <- enc_func_parts rest (mkFuncParts [] None None);
      do r <- match fp_ret fp with
              | Some rs =>
                  match n_children rs with
                  | t :: _ => enc_type_idx_from_node (Some t)
                  | [] => enc_ensure_scalar TKIR_TY_VOID
                  end
              | None => enc_ensure_scalar TKIR_TY_VOID
              end;
      let flags := match fp_body fp with None => TKIR_FN_EXTERN | Some _ => 0 end in
      let flags := if bytes_eqb name (bytes_of "main") then Z.lor flags TKIR_FN_EXPORTED
                   else flags in
      modify (fun e =>
        set_efuncs (e_funcs e ++ [mkEncFunc name (fp_params fp) r flags (fp_body fp)]) e)
  end.

Definition enc_prepass_funcs (ast : Node) : EM unit := each enc_prepass_func (n_children ast).

Definition enc_prepass_import (decl : Node) : EM unit :=
  if negb (has_kind NODE_IMPORT decl) then ret tt
  else
  do e <- get;
  if TKC_MAX_IMPORTS <=? zlen (e_imports e) then ret tt
  else
  do imp <- match n_children decl with
            | c0 :: c1 :: _ =>
                do symbol <- enc_tok_text c0 NAME_BUF;
                do module <- enc_tok_text c1 ALIAS_BUF;
                ret (mkEncImport module symbol 0)
            | [c0] =>
                do module <- enc_tok_text c0 ALIAS_BUF;
                ret (mkEncImport module module 0)
            | [] => ret (mkEncImport [] [] 0)
            end;
  modify (fun e => set_eimports (e_imports e ++ [imp]) e).

Definition enc_prepass_imports (ast : Node) : EM unit := each enc_prepass_import (n_children ast).

(** ** Expressions *)

Definition binary_op (k : TokenKind) : Z :=
  match k with
  | TK_PLUS => TKIR_OP_ADD
  | TK_MINUS => TKIR_OP_SUB
  | TK_STAR => TKIR_OP_MUL
  | TK_SLASH => TKIR_OP_DIV
  | TK_PERCENT => TKIR_OP_MOD
  | TK_LT => TKIR_OP_LT
  | TK_GT => TKIR_OP_GT
  | _ => TKIR_OP_ADD
  end.

(** The function a call names; 0 when there is none. *)
Definition call_target (name : list Z) : EM Z :=
  do e <- get;
  ret (match find_idx (fun f => bytes_eqb (ef_name f) name) (e_funcs e) with
       | Some i => to_u16 i
       | None => 0
       end).

Fixpoint enc_emit_expr (n : Node) : EM Z :=
  match n_kind n with
  | NODE_INT_LIT =>
      do buf <- enc_tok_text n NAME_BUF;
      do i <- enc_add_i64 (strtoll buf);
      enc_emit_const_data i
  | NODE_STR_LIT =>
      let slen := Z.max 0 (n_tok_len n - 2) in
      do s <- rd_range src (n_tok_start n + 1) slen;
      do i <- enc_add_str s;
      enc_emit_const_data i
  | NODE_BOOL_LIT =>
      do buf <- enc_tok_text n NAME_BUF;
      do i <- enc_add_i64 (if name_is ["true"; "TRUE"]%string buf then 1 else 0);
      enc_emit_const_data i
  | NODE_FLOAT_LIT =>
      do buf <- enc_tok_text n NAME_BUF;
      do i <- enc_add_i64 (strtod_i64 buf);
      enc_emit_const_data i
  | NODE_IDENT =>
      do dest <- enc_next_reg;
      do! code_u8 TKIR_OP_LOAD;
      do! code_u16 dest;
      do! code_u16 0;
      ret dest
  | NODE_BINARY_EXPR =>
      match n_children n with
      | a :: b :: _ =>
          do lhs <- enc_emit_expr a;
          do rhs <- enc_emit_expr b;
          do dest <- enc_next_reg;
          do! enc_emit_rrr (binary_op (n_op n)) dest lhs rhs;
          ret dest
      | _ => ret 0
      end
  | NODE_UNARY_EXPR =>
      match n_children n with
      | a :: _ =>
          do sr <- enc_emit_expr a;
          do dest <- enc_next_reg;
          do! code_u8 TKIR_OP_NEG;
          do! code_u16 dest;
          do! code_u16 sr;
          ret dest
      | _ => ret 0
      end
  | NODE_CALL_EXPR =>
      match n_children n with
      | callee :: args =>
          do fname <- enc_tok_text callee NAME_BUF;
          do fidx <- call_target fname;
          do regs <-
            (fix go (k : nat) (l : list Node) : EM (list Z) :=
               match k, l with
               | S k, a :: l => do r <- enc_emit_expr a; do rs <- go k l; ret (r :: rs)
               | _, _ => ret []
               end) (Z.to_nat TKC_MAX_PARAMS) args;
          enc_emit_call fidx regs (zlen args)
      | _ => ret 0
      end
  | NODE_FIELD_EXPR =>
      match n_children n with
      | a :: _ :: _ =>
          do base <- enc_emit_expr a;
          do dest <- enc_next_reg;
          do! enc_emit_rrr TKIR_OP_FIELD_GET dest base 0;
          ret dest
      | _ => ret 0
      end
  | NODE_CAST_EXPR =>
      match n_children n with
      | a :: t :: _ =>
          do sr <- enc_emit_expr a;
          do dest <- enc_next_reg;
          do! code_u8 TKIR_OP_CAST;
          do! code_u16 dest;
          do! code_u16 sr;
          do ti <- enc_type_idx_from_node (Some t);
          do! code_u16 (to_u16 ti);
          ret dest
      | _ => ret 0
      end
  | _ => ret 0
  end.

(** ** Statements *)

Fixpoint enc_emit_stmt (n : Node) : EM unit :=
  match n_kind n with
  | NODE_STMT_LIST =>
      (fix go (l : list Node) : EM unit :=
         match l with [] => ret tt | s :: l => do! enc_emit_stmt s; go l end) (n_children n)
  | NODE_RETURN_STMT =>
      match n_children n with
      | a :: _ => do r <- enc_emit_expr a; enc_emit_ret r
      | [] => enc_emit_ret_void
      end
  | NODE_BIND_STMT | NODE_MUT_BIND_STMT =>
      match n_children n with
      | _ :: _ :: _ =>
          do val <- enc_emit_expr (List.last (n_children n) n);
          do slot <- enc_next_reg;
          do! code_u8 TKIR_OP_ALLOCA;
          do! code_u16 slot;
          do t <- enc_ensure_scalar TKIR_TY_I64;
          do! code_u16 (to_u16 t);
          do! code_u8 TKIR_OP_STORE;
          do! code_u16 slot;
          code_u16 val
      | _ => ret tt
      end
  | NODE_ASSIGN_STMT =>
      match n_children n with
      | _ :: v :: _ =>
          do val <- enc_emit_expr v;
          do! code_u8 TKIR_OP_STORE;
          do! code_u16 0;
          code_u16 val
      | _ => ret tt
      end
  | NODE_IF_STMT =>
      match n_children n with
      | c :: t :: rest =>
          do cond <- enc_emit_expr c;
          do! enc_emit_rrr TKIR_OP_BR_IF cond 0 0;
          do! enc_emit_stmt t;
          match rest with
          | el :: _ => enc_emit_stmt el
          | [] => ret tt
          end
      | _ => ret tt
      end
  | NODE_LOOP_STMT =>
      do! code_u8 TKIR_OP_BR;
      do! code_u16 0;
      (fix go (l : list Node) : EM unit :=
         match l with [] => ret tt | s :: l => do! enc_emit_stmt s; go l end) (n_children n)
  | NODE_EXPR_STMT =>
      match n_children n with
      | a :: _ => do _ <- enc_emit_expr a; ret tt
      | [] => ret tt
      end
  | _ => ret tt
  end.

(** [e->code.data[i]] *)
Definition code_at (i : Z) : EM Z := do e <- get; rd (b_data (e_code e)) i.

Definition enc_emit_func_body (func_idx : Z) (fn : EncFunc) : EM unit :=
  match ef_body fn with
  | None => ret tt
  | Some body =>
      do off <- gets (fun e => b_len (e_code e));
      do! modify (fun e => set_offsets (<[Z.to_nat func_idx := to_u32 off]> (e_offsets e)) e);
      do! modify (set_reg 0);
      do! each (fun _ => do _ <- enc_next_reg; ret tt) (ef_param_type_idxs fn);
      do! enc_emit_stmt body;
      do len <- gets (fun e => b_len (e_code e));
      if len =? to_u32 off then enc_emit_ret_void
      else
        do c <- code_at (len - 3);
        if negb (c =? TKIR_OP_RET) then enc_emit_ret_void else ret tt
  end.

(** [for (i = 0; i < func_count; i++) enc_emit_func_body(&e, i);] *)
Fixpoint enc_emit_bodies (i : Z) (fs : list EncFunc) : EM unit :=
  match fs with
  | [] => ret tt
  | f :: fs => do! enc_emit_func_body i f; enc_emit_bodies (i + 1) fs
  end.

(** ** Section writers *)

Abbreviation w_u8 := (tkir_buf_u8 realloc).
Abbreviation w_u16 := (tkir_buf_u16 realloc).
Abbreviation w_u32 := (tkir_buf_u32 realloc).
Abbreviation w_i64 := (tkir_buf_i64 realloc).
Abbreviation w_bytes := (tkir_buf_bytes realloc).

(** [strlen], the length and the bytes. *)
Definition w_name (s : list Z) (b : TkirBuf) : TkirBuf := w_bytes s (w_u16 (to_u16 (zlen s)) b).

(** The tag, the length and the contents of a section. *)
Definition w_section (tag : Z) (sec out : TkirBuf) : TkirBuf :=
  w_bytes (b_data sec) (w_u32 (to_u32 (b_len sec)) (w_u8 tag out)).

Definition enc_write_header (out : TkirBuf) : TkirBuf :=
  let out := w_bytes (bytes_of "TKIR") out in
  let out := w_u8 TKIR_VERSION_MAJOR out in
  let out := w_u8 TKIR_VERSION_MINOR out in
  let out := w_u8 TKIR_FLAG_EXPORTS out in
  w_u16 6 out.

Definition w_type (sec : TkirBuf) (te : EncTypeEntry) : TkirBuf :=
  let sec := w_u8 (te_kind te) sec in
  if te_kind te =? TKIR_TY_STRUCT then
    let sec := w_name (te_name te) sec in
    let sec := w_u16 (to_u16 (te_field_count te)) sec in
    fold_left (fun sec t => w_u16 (to_u16 t) sec)
      (take (Z.to_nat (te_field_count te)) (te_field_type_idxs te)) sec
  else sec.

Definition enc_write_type_section (e : Enc) (out : TkirBuf) : TkirBuf :=
  let sec := w_u16 (to_u16 (e_type_count e)) tkir_buf_init in
  let sec := fold_left w_type (take (Z.to_nat (e_type_count e)) (e_slots e)) sec in
  w_section TKIR_SEC_TYPE sec out.

Definition w_func (e : Enc) (sec : TkirBuf) (fn : EncFunc) : TkirBuf :=
  let sec := w_name (ef_name fn) sec in
  let sec := w_u8 (ef_flags fn) sec in
  let sec := w_u16 (to_u16 (ef_ret_type_idx fn)) sec in
  let sec := w_u16 (e_reg e) sec in
  w_u16 (to_u16 (zlen (ef_param_type_idxs fn))) sec.

Definition enc_write_func_section (e : Enc) (out : TkirBuf) : TkirBuf :=
  let sec := w_u16 (to_u16 (zlen (e_funcs e))) tkir_buf_init in
  w_section TKIR_SEC_FUNC (fold_left (w_func e) (e_funcs e) sec) out.

(** The instructions without any framing. *)
Definition enc_write_code_section (e : Enc) (out : TkirBuf) : TkirBuf :=
  let out := w_u32 (to_u32 (b_len (e_code e))) (w_u8 TKIR_SEC_CODE out) in
  if 0 <? b_len (e_code e) then w_bytes (b_data (e_code e)) out else out.

Definition w_data (sec : TkirBuf) (d : EncDataEntry) : TkirBuf :=
  match d with
  | DataStr s => w_bytes s (w_u32 (to_u32 (zlen s)) (w_u8 TKIR_DATA_STR sec))
  | DataI64 v => w_i64 v (w_u32 8 (w_u8 TKIR_DATA_I64 sec))
  | DataF64 bits => w_i64 bits (w_u32 8 (w_u8 TKIR_DATA_F64 sec))
  end.

Definition enc_write_data_section (e : Enc) (out : TkirBuf) : TkirBuf :=
  let sec := w_u16 (to_u16 (zlen (e_data e))) tkir_buf_init in
  w_section TKIR_SEC_DATA (fold_left w_data (e_data e) sec) out.

Definition w_import (sec : TkirBuf) (imp : EncImportEntry) : TkirBuf :=
  let sec := w_name (ei_symbol imp) sec in
  let sec := w_name (ei_module imp) sec in
  w_u16 (to_u16 (ei_type_idx imp)) (w_u8 0 sec).

Definition enc_write_import_section (e : Enc) (out : TkirBuf) : TkirBuf :=
  let sec := w_u16 (to_u16 (zlen (e_imports e))) tkir_buf_init in
  w_section TKIR_SEC_IMPORT (fold_left w_import (e_imports e) sec) out.

Definition exported (fn : EncFunc) : bool := negb (Z.land (ef_flags fn) TKIR_FN_EXPORTED =? 0).

(** The exported functions from the index [i] on. *)
Fixpoint w_exports (i : Z) (fs : list EncFunc) (sec : TkirBuf) : TkirBuf :=
  match fs with
  | [] => sec
  | fn :: fs =>
      w_exports (i + 1) fs
        (if exported fn then w_u16 (to_u16 i) (w_u8 0 (w_name (ef_name fn) sec)) else sec)
  end.

Definition enc_write_export_section (e : Enc) (out : TkirBuf) : TkirBuf :=
  let ec := zlen (List.filter exported (e_funcs e)) in
  let sec := w_u16 (to_u16 ec) tkir_buf_init in
  w_section TKIR_SEC_EXPORT (w_exports 0 (e_funcs e) sec) out.

(** ** [emit_tkir] *)

(** The prepasses and the function bodies. *)
Definition enc_program (ast : Node) : EM unit :=
  do! enc_prepass_types ast;
  do! enc_prepass_funcs ast;
  do! enc_prepass_imports ast;
  do e <- get;
  do! modify (set_offsets (replicate (S (length (e_funcs e))) 0));
  enc_emit_bodies 0 (e_funcs e).

Definition enc_write (e : Enc) : TkirBuf :=
  let out := enc_write_header tkir_buf_init in
  let out := enc_write_type_section e out in
  let out := enc_write_func_section e out in
  let out := enc_write_code_section e out in
  let out := enc_write_data_section e out in
  let out := enc_write_import_section e out in
  enc_write_export_section e out.

(** [fopen_ok] and [fwrite_ok]: the outcome of the two calls.  The result is the
    return value, what the file holds after a complete write, and the
    diagnostics. *)
Definition emit_tkir (fopen_ok fwrite_ok : bool) (ast : Node) (d : Diags)
    : res (Z * option (list Z) * Diags) :=
  match enc_program ast enc_init with
  | Ok (_, e) =>
      let out := enc_write e in
      if negb fopen_ok then Ok (-1, None, diag_emit DIAG_ERROR E9020 0 0 0 false d)
      else if negb fwrite_ok then Ok (-1, None, d)
      else Ok (0, Some (b_data out), d)
  | Oob => Oob
  | NoFuel => NoFuel
  end.

End Encode.
