(* ===== verification/TkirEncFacts.v ===== *)
(** * The binary IR encoder: safety, the limits of its tables, and what it writes *)

From Stdlib Require Import ZArith Lia String Ascii.
From stdpp Require Import base tactics list.
From S2P Require Import Prelude Diag Lexer Ast Parser TkirBuf Tkir TkirEnc TkirFacts.
Open Scope Z_scope.

(** * The binary IR encoder: safety and the limits of its tables

    On a tree whose tokens lie in the text, whose fields have one child and
    whose calls have at most [TKC_MAX_PARAMS] arguments, the encoder ends
    without reading out of bounds and keeps every table within its array. *)

Section Find.
Context {A : Type} (p : A -> bool).

Lemma find_idx_some l i :
  find_idx p l = Some i ->
  0 <= i < zlen l /\ exists x, l !! Z.to_nat i = Some x /\ p x = true.
Proof.
  revert i. induction l as [|y l IH]; intros i; [done|]. cbn [find_idx]. rewrite zlen_cons.
  pose proof (zlen_nonneg l). destruct (p y) eqn:E.
  - intros [= <-]. split; [lia|]. by exists y.
  - destruct (find_idx p l) as [j|]; [|done]. intros [= <-].
    destruct (IH j eq_refl) as (? & x & Hx & ?). split; [lia|]. exists x. split; [|done].
    by rewrite Z2Nat.inj_succ by lia.
Qed.

Lemma find_idx_none l : find_idx p l = None -> forall x, x ∈ l -> p x = false.
Proof.
  induction l as [|y l IH]; cbn [find_idx]; intros H x Hx; [by apply not_elem_of_nil in Hx|].
  destruct (p y) eqn:E; [done|]. destruct (find_idx p l); [done|].
  apply elem_of_cons in Hx as [->|?]; [done|auto].
Qed.

Lemma find_idx_ex l x : x ∈ l -> p x = true -> exists i, find_idx p l = Some i.
Proof.
  intros Hx Hp. destruct (find_idx p l) eqn:E; [by eexists|].
  pose proof (find_idx_none l E x Hx). congruence.
Qed.

End Find.

(** ** The trees the encoder expects *)

Section Tree.
Context (src : list Z).

(** The number of children, where the encoder relies on it. *)
Definition arity_ok (n : Node) : bool :=
  match n_kind n with
  | NODE_CALL_EXPR => zlen (n_children n) <=? TKC_MAX_PARAMS + 1
  | NODE_FIELD => zlen (n_children n) =? 1
  | NODE_STR_LIT => 1 <=? n_tok_len n
  | _ => true
  end.

(** The children of a string literal are not visited. *)
Fixpoint tree_ok (n : Node) : bool :=
  span_in src n && arity_ok n && (has_kind NODE_STR_LIT n || forallb tree_ok (n_children n)).

Lemma tree_span n : tree_ok n = true -> span_in src n = true.
Proof. destruct n. simpl. intros H. by apply andb_prop in H as [[? _]%andb_prop _]. Qed.

Lemma tree_arity n : tree_ok n = true -> arity_ok n = true.
Proof. destruct n. simpl. intros H. by apply andb_prop in H as [[_ ?]%andb_prop _]. Qed.

Lemma tree_children n :
  tree_ok n = true -> n_kind n <> NODE_STR_LIT ->
  Forall (fun c => tree_ok c = true) (n_children n).
Proof.
  destruct n as [k st li co ts tl op cap cs]. simpl. intros H Hk. apply andb_prop in H as [_ H].
  apply orb_true_iff in H as [H|H].
  - unfold has_kind in H. by apply bool_decide_eq_true in H.
  - apply List.Forall_forall. intros c Hc. rewrite forallb_forall in H. auto.
Qed.

End Tree.

(** ** The invariant *)

Record slot_ok (te : EncTypeEntry) : Prop := {
  so_count : 0 <= te_field_count te <= TKC_MAX_PARAMS;
  so_fields : length (te_field_type_idxs te) = Z.to_nat TKC_MAX_PARAMS;
  so_name : zlen (te_name te) < NAME_BUF
}.

Record einv (src : list Z) (e : Enc) : Prop := {
  ei_slots : length (e_slots e) = Z.to_nat ENC_MAX_TYPES;
  ei_slot : Forall slot_ok (e_slots e);
  ei_types : 0 <= e_type_count e <= ENC_MAX_TYPES;
  ei_funcs : zlen (e_funcs e) <= TKC_MAX_FUNCS;
  ei_bodies : Forall (fun f => forall b, ef_body f = Some b -> tree_ok src b = true) (e_funcs e);
  ei_data : zlen (e_data e) <= ENC_MAX_DATA;
  ei_dup : NoDup (e_data e);
  ei_imports : zlen (e_imports e) <= TKC_MAX_IMPORTS;
  ei_reg : 0 <= e_reg e < 2 ^ 16;
  ei_code : buf_ok (e_code e)
}.

Lemma init_einv src : einv src enc_init.
Proof.
  split; try done.
  - change (Forall slot_ok (replicate (Z.to_nat ENC_MAX_TYPES) te_zero)).
    apply Forall_replicate. by split.
  - constructor.
  - by split; [|left].
Qed.

Section Safe.
Context (realloc : Z -> bool) (strtod_i64 : list Z -> Z) (src : list Z).
Context (Hr : forall n, realloc n = true).
Abbreviation einv := (einv src).
Abbreviation tree_ok := (tree_ok src).

(** A good state, with the functions of another, reached by writing nothing or
    at least the three bytes of the shortest instruction. *)
Definition step (e e' : Enc) : Prop :=
  b_len (e_code e') = b_len (e_code e) \/ b_len (e_code e) + 3 <= b_len (e_code e').

Definition next (e e' : Enc) : Prop := einv e' /\ e_funcs e' = e_funcs e /\ step e e'.

(** [m] runs from every good state to a good state, and leaves the functions; its
    result satisfies [Q]. *)
Definition runs {A} (m : EM A) (Q : A -> Enc -> Prop) : Prop :=
  forall e, einv e -> wp m (fun a e' => next e e' /\ Q a e') e.

Lemma next_same e e' : einv e' -> e_funcs e' = e_funcs e -> e_code e' = e_code e -> next e e'.
Proof. intros ? ? H. split_and!; [done..|]. left. by rewrite H. Qed.

Lemma next_refl e : einv e -> next e e.
Proof. intros. by apply next_same. Qed.

Lemma next_trans e1 e2 e3 : next e1 e2 -> next e2 e3 -> next e1 e3.
Proof.
  intros (? & ? & H1) (? & ? & H2). split_and!; [done|congruence|]. unfold step in *. lia.
Qed.

Hint Resolve next_refl : core.

Definition good {A} (m : EM A) : Prop := runs m (fun _ _ => True).

Lemma runs_bind {A B} (m : EM A) (k : A -> EM B) P Q :
  runs m P -> (forall a, runs (k a) Q) -> runs (bind m k) Q.
Proof.
  intros Hm Hk e He. eapply wp_seq; [by apply Hm|]. intros a e1 [H1 _].
  eapply wp_conseq; [apply Hk, H1|]. intros b e2 [? ?]. split; [by eapply next_trans|done].
Qed.

Lemma good_bind {A B} (m : EM A) (k : A -> EM B) :
  good m -> (forall a, good (k a)) -> good (bind m k).
Proof. apply runs_bind. Qed.

Lemma good_ret {A} (a : A) : good (ret a).
Proof. intros e He. apply wp_ret. auto. Qed.

Lemma good_if {A} (b : bool) (m1 m2 : EM A) :
  (b = true -> good m1) -> (b = false -> good m2) -> good (if b then m1 else m2).
Proof. by destruct b; auto. Qed.

Lemma good_each {A} (f : A -> EM unit) l :
  Forall (fun a => good (f a)) l -> good (each f l).
Proof.
  induction 1 as [|a l Ha Hl IH]; simpl; [apply good_ret|]. by apply good_bind.
Qed.

(** ** Tables *)

(** The text of a token is read inside the source; it fits its buffer. *)
Lemma wp_tok_text {S} n sz (Q : list Z -> S -> Prop) s :
  span_in src n = true -> 1 <= sz -> (forall l, zlen l < sz -> Q l s) ->
  wp (enc_tok_text src n sz) Q s.
Proof.
  intros Hs Hsz HQ. unfold span_in in Hs. zb. unfold enc_tok_text. wp_step.
  set (len := if n_tok_len n <? sz - 1 then n_tok_len n else sz - 1).
  assert (0 <= len <= n_tok_len n /\ len < sz) by (unfold len; case_match; zb; lia).
  unfold rd_range. rewrite !(proj2 (Z.leb_le _ _)) by lia. apply wp_ret, wp_ret, HQ.
  pose proof (until_nul_len (slice src (n_tok_start n) len)).
  rewrite zlen_slice in * by lia. lia.
Qed.

Lemma runs_tok_text {A} n sz (k : list Z -> EM A) Q :
  span_in src n = true -> 1 <= sz -> (forall l, zlen l < sz -> runs (k l) Q) ->
  runs (bind (enc_tok_text src n sz) k) Q.
Proof. intros Hs Hz Hk e He. wp_step. apply wp_tok_text; [done..|]. intros. by apply Hk. Qed.

Lemma wp_types (Q : list EncTypeEntry -> Enc -> Prop) e :
  einv e ->
  (forall ts, ts = take (Z.to_nat (e_type_count e)) (e_slots e) -> zlen ts = e_type_count e -> Q ts e) ->
  wp enc_types Q e.
Proof.
  intros [Hl _ [? ?] _ _ _ _ _ _ _] HQ. unfold enc_types. wp_step. wp_step.
  rewrite !(proj2 (Z.leb_le _ _)) by done. apply wp_ret, HQ; [done|].
  unfold zlen. rewrite length_take, Hl. lia.
Qed.

(** The entry at [type_count] while there is room. *)
Lemma wp_add_type te (Q : Z -> Enc -> Prop) e :
  einv e -> e_type_count e < ENC_MAX_TYPES -> slot_ok te ->
  (forall e', next e e' -> e_type_count e' = e_type_count e + 1 ->
     e_slots e' = <[Z.to_nat (e_type_count e) := te]> (e_slots e) -> Q (e_type_count e) e') ->
  wp (enc_add_type te) Q e.
Proof.
  intros [] Hc Hte HQ. unfold enc_add_type. wp_steps. apply HQ; [|done..].
  apply next_same; [|done..]. split; simpl; try done; [by rewrite length_insert|by apply Forall_insert|lia].
Qed.

Lemma slot_nth e i : einv e -> 0 <= i < ENC_MAX_TYPES -> slot_ok (nth (Z.to_nat i) (e_slots e) te_zero).
Proof.
  intros [Hl Hs _ _ _ _ _ _ _ _] Hi. rewrite Forall_forall in Hs. apply Hs.
  apply list_elem_of_In, nth_In. unfold ENC_MAX_TYPES in *. lia.
Qed.

(** An entry found in use, or a new one, or index 0. *)
Lemma runs_intern p te :
  (forall old, slot_ok old -> slot_ok (te old)) ->
  good (do ts <- enc_types;
        match find_idx p ts with
        | Some i => ret i
        | None =>
            if ENC_MAX_TYPES <=? zlen ts then ret 0
            else
              do e <- get;
              let old := nth (Z.to_nat (e_type_count e)) (e_slots e) te_zero in
              enc_add_type (te old)
        end).
Proof.
  intros Hte e He. wp_step. apply wp_types; [done|]. intros ts _ Hl.
  destruct (find_idx p ts); [apply wp_ret; auto|]. wp_step; [apply wp_ret; auto|]. zb.
  wp_step. wp_step. cbv zeta. pose proof (ei_types _ _ He).
  apply wp_add_type; [done|lia| |done]. apply Hte. apply slot_nth; [done|lia].
Qed.

Lemma good_ensure kind : good (enc_ensure_scalar kind).
Proof.
  apply (runs_intern _ (fun old => mkEncType kind [] 0 (te_field_type_idxs old))).
  intros old [? ? ?]. by split.
Qed.

Lemma good_from_name name : zlen name < NAME_BUF -> good (enc_type_idx_from_name name).
Proof.
  intros Hn. apply good_if; intros _; [apply good_ensure|].
  apply (runs_intern _ (fun old => mkEncType TKIR_TY_STRUCT name 0 (te_field_type_idxs old))).
  intros old [? ? ?]. by split.
Qed.

Lemma good_from_node n : span_in src n = true -> good (enc_type_idx_from_node src (Some n)).
Proof.
  intros Hs. unfold enc_type_idx_from_node. destruct (n_kind n); try apply good_ensure;
    (apply runs_tok_text; [done..|]; intros; by apply good_from_name).
Qed.

Lemma good_add_data same d :
  (forall d', same d' = false -> d' <> d) -> good (add_data same d).
Proof.
  intros Hd e He. unfold add_data. wp_step. wp_step.
  destruct (find_idx same (e_data e)) eqn:Ef; [apply wp_ret; auto|].
  wp_step; [apply wp_ret; auto|]. zb.
  wp_step. wp_step. wp_step. split; [|done]. apply next_same; [|done..]. destruct He. split; simpl; try done.
  - rewrite zlen_app. change (zlen [d]) with 1. lia.
  - apply NoDup_app. split_and!; [done| |apply NoDup_singleton].
    intros x Hx ->%list_elem_of_singleton. by apply (Hd d); [eapply find_idx_none|].
Qed.

Lemma good_add_str s : good (enc_add_str s).
Proof. apply good_add_data. intros d' Hd ->. by rewrite bytes_eqb_refl in Hd. Qed.

Lemma good_add_i64 v : good (enc_add_i64 v).
Proof. apply good_add_data. intros d' Hd ->. by rewrite Z.eqb_refl in Hd. Qed.

(** ** Instructions *)

Lemma good_next_reg : good enc_next_reg.
Proof.
  intros e He. unfold enc_next_reg. wp_steps. split; [|done]. apply next_same; [|done..]. destruct He. split; simpl; try done.
  apply Z.mod_pos_bound. done.
Qed.

Lemma set_code_einv b e : einv e -> buf_ok b -> einv (set_code b e).
Proof. intros [] ?. by split. Qed.

(** Commands that may write part of an instruction. *)
Definition mono {A} (m : EM A) : Prop :=
  forall e, einv e -> wp m (fun _ e' =>
    einv e' /\ e_funcs e' = e_funcs e /\ b_len (e_code e) <= b_len (e_code e')) e.

Lemma good_mono {A} (m : EM A) : good m -> mono m.
Proof.
  intros Hm e He. eapply wp_conseq; [by apply Hm|]. intros a e' [(? & ? & [?|?]) _];
    (split_and!; [done|done|lia]).
Qed.

Lemma mono_bind {A B} (m : EM A) (k : A -> EM B) :
  mono m -> (forall a, mono (k a)) -> mono (bind m k).
Proof.
  intros Hm Hk e He. eapply wp_seq; [by apply Hm|]. intros a e1 (? & ? & ?).
  eapply wp_conseq; [by apply Hk|]. intros b e2 (? & ? & ?). split_and!; [done|congruence|lia].
Qed.

Lemma mono_each {A} (f : A -> EM unit) l : (forall a, mono (f a)) -> mono (each f l).
Proof.
  intros Hf. induction l as [|a l IH]; simpl; [apply good_mono, good_ret|]. by apply mono_bind.
Qed.

(** A write to the code. *)
Lemma code_write l e :
  einv e ->
  einv (set_code (buf_write realloc l (e_code e)) e) /\
  b_len (buf_write realloc l (e_code e)) = b_len (e_code e) + zlen l.
Proof.
  intros He. split; [by apply set_code_einv, write_ok, He|].
  unfold b_len. rewrite write_app by (done || apply He). apply zlen_app.
Qed.

Lemma wp_u8 v (Q : unit -> Enc -> Prop) e :
  einv e ->
  (forall e', einv e' -> e_funcs e' = e_funcs e -> b_len (e_code e') = b_len (e_code e) + 1 ->
     Q tt e') ->
  wp (code_u8 realloc v) Q e.
Proof.
  intros He HQ. unfold code_u8. wp_steps. rewrite u8_write.
  destruct (code_write [v] e He). by apply HQ.
Qed.

Lemma wp_u16 v (Q : unit -> Enc -> Prop) e :
  einv e ->
  (forall e', einv e' -> e_funcs e' = e_funcs e -> b_len (e_code e') = b_len (e_code e) + 2 ->
     Q tt e') ->
  wp (code_u16 realloc v) Q e.
Proof.
  intros He HQ. unfold code_u16. wp_steps. destruct (code_write (le16 v) e He). by apply HQ.
Qed.

Lemma mono_u8 v : mono (code_u8 realloc v).
Proof. intros e He. apply wp_u8; [done|]. intros e' ? ? ?. split_and!; [done|done|lia]. Qed.

Lemma mono_u16 v : mono (code_u16 realloc v).
Proof. intros e He. apply wp_u16; [done|]. intros e' ? ? ?. split_and!; [done|done|lia]. Qed.

(** An instruction: its opcode, a first operand, and the rest. *)
Lemma good_op {A} op w (k : EM A) :
  mono k -> good (do! code_u8 realloc op; do! code_u16 realloc w; k).
Proof.
  intros Hk e He. wp_step. apply wp_u8; [done|]. intros e1 He1 Hf1 Hl1.
  wp_step. apply wp_u16; [done|]. intros e2 He2 Hf2 Hl2.
  eapply wp_conseq; [by apply Hk|]. intros a e3 (? & ? & ?).
  split; [|done]. split_and!; [done|congruence|right; lia].
Qed.

Lemma good_op1 op w : good (do! code_u8 realloc op; code_u16 realloc w).
Proof.
  intros e He. wp_step. apply wp_u8; [done|]. intros e1 He1 Hf1 Hl1.
  apply wp_u16; [done|]. intros e2 He2 Hf2 Hl2.
  split; [|done]. split_and!; [done|congruence|right; lia].
Qed.

Create HintDb enc.
Hint Resolve good_ret good_next_reg good_op1 good_ensure good_from_node good_add_str
  good_add_i64 mono_u8 mono_u16 : enc.

(** Step through a sequence of good commands. *)
Ltac enc_step :=
  first
    [ solve [auto with enc]
    | lazymatch goal with
      | |- good (bind (code_u8 _ _) _) => apply good_op
      | |- good (if _ then _ else _) => apply good_if; intros ?
      | |- good (bind _ _) => apply good_bind; [|intros ?]
      | |- mono (bind _ _) => apply mono_bind; [|intros ?]
      | |- mono (each _ _) => apply mono_each; intros ?
      | |- mono _ => apply good_mono
      end ].
Ltac enc_go := repeat enc_step.

Lemma good_rrr op d l r : good (enc_emit_rrr realloc op d l r).
Proof. unfold enc_emit_rrr. enc_go. Qed.

Lemma good_const i : good (enc_emit_const_data realloc i).
Proof. unfold enc_emit_const_data. enc_go. Qed.

Lemma good_call f args argc : argc <= TKC_MAX_PARAMS -> good (enc_emit_call realloc f args argc).
Proof.
  intros Ha. unfold enc_emit_call. rewrite (proj2 (Z.ltb_ge _ _)) by done.
  enc_go.
Qed.

Lemma good_ret_reg r : good (enc_emit_ret realloc r).
Proof. unfold enc_emit_ret. enc_go. Qed.
Lemma good_ret_void : good (enc_emit_ret_void realloc).
Proof. unfold enc_emit_ret_void. enc_go. Qed.

Hint Resolve good_rrr good_const good_call good_ret_reg good_ret_void : enc.

(** ** Expressions and statements *)

Lemma good_tok_text {A} n sz (k : list Z -> EM A) :
  tree_ok n = true -> 1 <= sz -> (forall l, zlen l < sz -> good (k l)) ->
  good (bind (enc_tok_text src n sz) k).
Proof. intros Ht. apply runs_tok_text. by apply tree_span. Qed.

Lemma good_target name : good (call_target name).
Proof. intros e He. unfold call_target. wp_steps. auto. Qed.

Lemma good_str_range {A} n (k : list Z -> EM A) :
  span_in src n = true -> 1 <= n_tok_len n -> (forall l, good (k l)) ->
  good (bind (rd_range src (n_tok_start n + 1) (Z.max 0 (n_tok_len n - 2))) k).
Proof.
  intros Hs Hl Hk e He. unfold span_in in Hs. zb. wp_step. unfold rd_range.
  rewrite !(proj2 (Z.leb_le _ _)) by lia. apply wp_ret. by apply Hk.
Qed.

Hint Resolve good_target : enc.

Lemma good_expr n : tree_ok n = true -> good (enc_emit_expr realloc strtod_i64 src n).
Proof.
  induction n as [n IH] using node_ind'. intros Ht. pose proof (tree_arity _ _ Ht) as Ha.
  pose proof (tree_span _ _ Ht) as Hs. pose proof (tree_children _ _ Ht) as Hc.
  destruct n as [k st li co ts tl op cap cs]. cbn [n_kind n_children] in *.
  unfold arity_ok in Ha. cbn [n_kind n_children n_tok_len] in Ha.
  destruct k; try apply good_ret; try specialize (Hc ltac:(done)); cbn [enc_emit_expr n_kind n_children].
  - (* binary *) destruct cs as [|a [|b cs]]; [apply good_ret..|].
    rewrite !Forall_cons in IH, Hc. destruct IH as (? & ? & _), Hc as (? & ? & _).
    enc_go.
  - (* unary *) destruct cs as [|a cs]; [apply good_ret|].
    rewrite !Forall_cons in IH, Hc. destruct IH as (? & _), Hc as (? & _). enc_go.
  - (* call *) destruct cs as [|c args]; [apply good_ret|].
    rewrite !Forall_cons in IH, Hc. destruct IH as (_ & IH), Hc as (Hcc & Hc).
    apply good_tok_text; [done|done|]. intros name _. apply good_bind; [apply good_target|].
    intros fidx. apply good_bind.
    + clear Ha Ht Hs. revert IH Hc. generalize (Z.to_nat TKC_MAX_PARAMS).
      induction args as [|a args IHa]; intros [|m] IH Hc; try apply good_ret.
      rewrite !Forall_cons in IH, Hc. destruct IH as (? & ?), Hc as (? & ?).
      apply good_bind; [auto|]. intros r. apply good_bind; [by apply IHa|]. intros; apply good_ret.
    + intros regs. apply good_call. zb. rewrite zlen_cons in Ha. lia.
  - (* cast *) destruct cs as [|a [|b cs]]; [apply good_ret..|].
    rewrite !Forall_cons in IH, Hc. destruct IH as (? & _), Hc as (? & Hb & _).
    apply tree_span in Hb. enc_go.
  - (* field *) destruct cs as [|a [|b cs]]; [apply good_ret..|].
    rewrite !Forall_cons in IH, Hc. destruct IH as (? & _), Hc as (? & ? & _). enc_go.
  - (* ident *) enc_go.
  - (* int *) apply good_tok_text; [done|done|]. intros. enc_go.
  - (* float *) apply good_tok_text; [done|done|]. intros. enc_go.
  - (* string *) zb.
    apply (good_str_range (mkNode NODE_STR_LIT st li co ts tl op cap cs)); [done..|].
    intros. enc_go.
  - (* bool *) apply good_tok_text; [done|done|]. intros. enc_go.
Qed.

Lemma good_go (f : Node -> EM unit) l :
  Forall (fun c => good (f c)) l ->
  good ((fix go (l : list Node) : EM unit :=
           match l with [] => ret tt | s :: l => do! f s; go l end) l).
Proof. induction 1; [apply good_ret|]. by apply good_bind. Qed.

Lemma last_ok (l : list Node) d :
  l <> [] -> Forall (fun c => tree_ok c = true) l -> tree_ok (List.last l d) = true.
Proof.
  intros Hl H. induction H as [|a l Ha Hf IH]; [done|]. destruct l as [|b l]; [done|]. by apply IH.
Qed.

Lemma good_stmt n : tree_ok n = true -> good (enc_emit_stmt realloc strtod_i64 src n).
Proof.
  induction n as [n IH] using node_ind'. intros Ht. pose proof (tree_children _ _ Ht) as Hc.
  pose proof good_expr as Hexpr.
  destruct n as [k st li co ts tl op cap cs]. cbn [n_kind n_children] in *.
  destruct k; try apply good_ret; specialize (Hc ltac:(done)); cbn [enc_emit_stmt n_kind n_children].
  - (* statement list *) apply good_go. apply Forall_forall. intros c Hin.
    rewrite !Forall_forall in IH, Hc. auto.
  - (* bind *) destruct cs as [|a [|b cs]]; [apply good_ret..|].
    apply good_bind; [apply Hexpr, last_ok; done|]. intros. enc_go.
  - (* mutable bind *) destruct cs as [|a [|b cs]]; [apply good_ret..|].
    apply good_bind; [apply Hexpr, last_ok; done|]. intros. enc_go.
  - (* assign *) destruct cs as [|a [|b cs]]; [apply good_ret..|].
    rewrite !Forall_cons in Hc. destruct Hc as (? & ? & _). enc_go.
  - (* return *) destruct cs as [|a cs]; [apply good_ret_void|].
    rewrite !Forall_cons in Hc. destruct Hc as (? & _). enc_go.
  - (* if *) destruct cs as [|a [|b cs]]; [apply good_ret..|].
    rewrite !Forall_cons in IH, Hc. destruct IH as (_ & ? & IH), Hc as (? & ? & Hc).
    apply good_bind; [auto|]. intros cond. apply good_bind; [apply good_rrr|]. intros _.
    apply good_bind; [auto|]. intros _. destruct cs as [|el cs]; [apply good_ret|].
    rewrite !Forall_cons in IH, Hc. destruct IH, Hc. auto.
  - (* loop *) apply good_op, good_mono, good_go. apply Forall_forall. intros c Hin. rewrite !Forall_forall in IH, Hc. auto.
  - (* expression *) destruct cs as [|a cs]; [apply good_ret|].
    rewrite !Forall_cons in Hc. destruct Hc as (? & _). enc_go.
Qed.

(** ** Prepasses *)

(** The first type is [i64], as the first prepass leaves it. *)
Definition has_i64 (e : Enc) : Prop :=
  1 <= e_type_count e /\
  exists te, e_slots e !! 0%nat = Some te /\ te_kind te = TKIR_TY_I64 /\ te_name te = [].

Lemma has_i64_add e e' te :
  has_i64 e -> e_type_count e' = e_type_count e + 1 ->
  e_slots e' = <[Z.to_nat (e_type_count e) := te]> (e_slots e) -> has_i64 e'.
Proof.
  intros [? H] Hc Hs. split; [lia|]. rewrite Hs, list_lookup_insert_ne by lia. done.
Qed.

Lemma wp_ensure kind e :
  einv e ->
  wp (enc_ensure_scalar kind) (fun _ e' => next e e' /\ (has_i64 e -> has_i64 e') /\
    (kind = TKIR_TY_I64 -> e_type_count e = 0 -> has_i64 e')) e.
Proof.
  intros He. unfold enc_ensure_scalar. wp_step. apply wp_types; [done|]. intros ts -> Hl.
  destruct (find_idx _ _) eqn:Ef.
  - apply wp_ret. split_and!; [auto|done|]. intros _ H0. rewrite H0 in Ef. done.
  - pose proof (ei_types _ _ He). wp_step.
    { apply wp_ret. zb. split_and!; [auto|done|]. unfold ENC_MAX_TYPES in *. lia. }
    zb. wp_step. wp_step. cbv zeta. rewrite Hl in *.
    pose proof (slot_nth e (e_type_count e) He ltac:(lia)) as [? ? ?].
    apply wp_add_type; [done|lia|by split|]. intros e' He' Hc Hs. split_and!; [done|..].
    + intros Hi. by eapply has_i64_add.
    + intros -> H0. split; [lia|]. rewrite Hs, H0. eexists. split.
      * apply list_lookup_insert_eq. rewrite (ei_slots _ _ He). unfold ENC_MAX_TYPES. lia.
      * done.
Qed.

(** [i64] is already there. *)
Lemma wp_ensure_i64 (Q : Z -> Enc -> Prop) e :
  einv e -> has_i64 e -> (forall i, Q i e) -> wp (enc_ensure_scalar TKIR_TY_I64) Q e.
Proof.
  intros He [Hc (te & Hte & Hk & Hn)] HQ. unfold enc_ensure_scalar. wp_step.
  apply wp_types; [done|]. intros ts Hts Hl.
  destruct (find_idx_ex (fun te => (te_kind te =? TKIR_TY_I64) && no_name te) ts te) as [i ->];
    [|unfold no_name; by rewrite Hk, Hn|by apply wp_ret].
  subst ts. apply list_elem_of_lookup_2 with 0%nat. rewrite lookup_take_lt by lia. done.
Qed.

(** Commands on a type declaration that is being filled at [slot]. *)
Definition fills (slot : Z) (m : EM unit) : Prop :=
  forall e, einv e -> has_i64 e -> e_type_count e = slot ->
  wp m (fun _ e' => einv e' /\ has_i64 e' /\ e_type_count e' = slot) e.

Lemma fills_ret slot : fills slot (ret tt).
Proof. intros e ? ? ?. by apply wp_ret. Qed.

Lemma fills_each {A} slot (f : A -> EM unit) l :
  Forall (fun a => fills slot (f a)) l -> fills slot (each f l).
Proof.
  induction 1 as [|a l Ha Hl IH]; simpl; [apply fills_ret|]. intros e H1 H2 H3.
  wp_step. eapply wp_conseq; [by apply Ha|]. intros _ e' (? & ? & ?). by apply IH.
Qed.

Lemma wp_get_slot slot (Q : EncTypeEntry -> Enc -> Prop) e :
  einv e -> 0 <= slot < ENC_MAX_TYPES ->
  (forall te, slot_ok te -> e_slots e !! Z.to_nat slot = Some te -> Q te e) ->
  wp (get_slot slot) Q e.
Proof.
  intros He Hs HQ. unfold get_slot. wp_step. wp_step.
  destruct (lookup_lt_is_Some_2 (e_slots e) (Z.to_nat slot)) as [te Hte].
  { rewrite (ei_slots _ _ He). unfold ENC_MAX_TYPES in *. lia. }
  rewrite Hte. apply wp_ret, HQ; [|done]. pose proof (ei_slot _ _ He) as H.
  rewrite Forall_lookup in H. eauto.
Qed.

Lemma wp_set_slot slot te (Q : unit -> Enc -> Prop) e :
  einv e -> has_i64 e -> 1 <= slot -> slot_ok te ->
  (forall e', einv e' -> has_i64 e' -> e_type_count e' = e_type_count e -> Q tt e') ->
  wp (set_slot slot te) Q e.
Proof.
  intros [] [Hc Hte] Hs Hok HQ. unfold set_slot. wp_steps. apply HQ; [|split; simpl|done].
  - split; simpl; try done; [by rewrite length_insert|by apply Forall_insert].
  - done.
  - by rewrite list_lookup_insert_ne by lia.
Qed.

Lemma fills_field slot fld :
  1 <= slot < ENC_MAX_TYPES -> n_kind fld = NODE_FIELD -> tree_ok fld = true ->
  fills slot (enc_field src slot fld).
Proof.
  intros Hs Hk Ht e He Hi Hc. pose proof (tree_arity _ _ Ht) as Ha.
  pose proof (tree_children _ _ Ht ltac:(by rewrite Hk)) as Hch.
  unfold arity_ok in Ha. rewrite Hk in Ha. zb.
  destruct (n_children fld) as [|c0 [|c1 cs]] eqn:Hcs;
    [discriminate Ha| |rewrite !zlen_cons in Ha; pose proof (zlen_nonneg cs); lia].
  rewrite Forall_cons in Hch. destruct Hch as [H0 _]. apply tree_span in H0.
  unfold enc_field, second_type. rewrite Hcs.
  wp_step. apply wp_get_slot; [done|lia|]. intros te [? Hf ?] Hte. wp_step; [by apply wp_ret|]. zb.
  wp_step. apply wp_tok_text; [done|done|]. intros _ _.
  wp_step. apply wp_ensure_i64; [done..|]. intros t.
  wp_step. apply wp_get_slot; [done|lia|]. intros te' _ Hte'.
  rewrite Hte in Hte'. injection Hte' as <-.
  apply wp_set_slot; [done|done|lia| |].
  - split; simpl; [lia|by rewrite length_insert|done].
  - intros. split_and!; [done|done|lia].
Qed.

Lemma fills_child slot child :
  1 <= slot < ENC_MAX_TYPES -> tree_ok child = true -> fills slot (enc_type_child src slot child).
Proof.
  intros Hs Ht. unfold enc_type_child.
  destruct (n_kind child) eqn:Hk; try apply fills_ret; [by apply fills_field|].
  apply fills_each. pose proof (tree_children _ _ Ht ltac:(by rewrite Hk)) as Hc.
  eapply Forall_impl; [exact Hc|]. intros fld Hf. unfold has_kind.
  destruct (bool_decide _) eqn:Hb; [|apply fills_ret]. apply bool_decide_eq_true in Hb.
  by apply fills_field.
Qed.

(** Commands that keep the first type. *)
Definition keeps (m : EM unit) : Prop :=
  forall e, einv e -> has_i64 e -> wp m (fun _ e' => einv e' /\ has_i64 e') e.

Lemma keeps_ret : keeps (ret tt).
Proof. intros e ? ?. by apply wp_ret. Qed.

Lemma keeps_each {A} (f : A -> EM unit) l :
  Forall (fun a => keeps (f a)) l -> keeps (each f l).
Proof.
  induction 1 as [|a l Ha Hl IH]; simpl; [apply keeps_ret|]. intros e H1 H2.
  wp_step. eapply wp_conseq; [by apply Ha|]. intros _ e' (? & ?). by apply IH.
Qed.

Lemma keeps_type decl : tree_ok decl = true -> keeps (enc_prepass_type src decl).
Proof.
  intros Ht. unfold enc_prepass_type, has_kind.
  destruct (bool_decide _) eqn:Hk; [|apply keeps_ret]. apply bool_decide_eq_true in Hk. cbn [negb].
  pose proof (tree_children _ _ Ht ltac:(by rewrite Hk)) as Hc.
  destruct (n_children decl) as [|c0 rest]; [apply keeps_ret|].
  rewrite Forall_cons in Hc. destruct Hc as [H0 Hrest]. intros e He Hi.
  wp_step. apply wp_tok_text; [by apply tree_span|done|]. intros name Hname.
  wp_step. apply wp_types; [done|]. intros ts _ Hl.
  wp_step; [by apply wp_ret|]. apply orb_false_elim in Heqb as [_ Hfull]. zb. cbv zeta.
  pose proof Hi as [Hge _]. rewrite Hl in *.
  wp_step. apply wp_get_slot; [done|lia|]. intros old [? ? ?] _.
  wp_step. apply wp_set_slot; [done|done|lia|by split|]. intros e1 He1 Hi1 Hc1.
  wp_step. eapply wp_conseq.
  { apply (fills_each (e_type_count e) (enc_type_child src (e_type_count e)) rest); try done.
    eapply Forall_impl; [exact Hrest|]. intros c ?. apply fills_child; [lia|done]. }
  intros _ e2 (He2 & Hi2 & Hc2). wp_steps. destruct He2, Hi2 as [? ?].
  split; [split; simpl; (done || lia)|split; simpl; (done || lia)].
Qed.

Lemma good_types ast :
  Forall (fun c => tree_ok c = true) (n_children ast) ->
  wp (enc_prepass_types src ast) (fun _ e => einv e /\ has_i64 e) enc_init.
Proof.
  intros Hc. unfold enc_prepass_types. wp_step.
  eapply wp_conseq; [apply (wp_ensure _ _ (init_einv src))|]. intros _ e1 ([H1 _] & _ & Hi1).
  specialize (Hi1 eq_refl eq_refl).
  do 4 (wp_step; eapply wp_conseq; [by apply wp_ensure|];
        let e := fresh "e" in let H := fresh in let Hi := fresh in
        intros _ e ([H _] & Hi & _); specialize (Hi ltac:(assumption))).
  apply keeps_each; [|done..]. eapply Forall_impl; [exact Hc|]. intros. by apply keeps_type.
Qed.

Lemma good_second n : tree_ok n = true -> n_kind n <> NODE_STR_LIT -> good (second_type src n).
Proof.
  intros Ht Hk. pose proof (tree_children _ _ Ht Hk) as Hc. unfold second_type.
  destruct (n_children n) as [|a [|b cs]]; [apply good_ensure..|].
  rewrite !Forall_cons in Hc. destruct Hc as (_ & ? & _). by apply good_from_node, tree_span.
Qed.

(** The return specification and the body that are found are children. *)
Definition parts_ok (fp : FuncParts) : Prop :=
  (forall n, fp_ret fp = Some n -> tree_ok n = true /\ n_kind n = NODE_RETURN_SPEC) /\
  (forall n, fp_body fp = Some n -> tree_ok n = true).

Lemma wp_parts cs fp e :
  Forall (fun c => tree_ok c = true) cs -> parts_ok fp -> einv e ->
  wp (enc_func_parts src cs fp) (fun fp e' => next e e' /\ parts_ok fp) e.
Proof.
  intros Hc. revert fp e. induction Hc as [|c cs Hc Hcs IH]; intros fp e [Hret Hb] He; simpl.
  { apply wp_ret. split; [auto|done]. }
  wp_step. unfold has_kind. wp_step.
  - apply andb_prop in Heqb as [E _]. apply bool_decide_eq_true in E. wp_step.
    eapply wp_conseq; [apply good_second; [done|by rewrite E|done]|]. intros t e1 [H1 _]. wp_step.
    eapply wp_conseq; [apply IH; [done|apply H1]|]. intros fp' e2 [? ?].
    split; [by eapply next_trans|done].
  - wp_step.
    + apply bool_decide_eq_true in Heqb0. wp_step.
      apply IH; [|done]. split; [|done]. by intros n [= <-].
    + wp_step; wp_step; apply IH; try done. split; [done|]. by intros n [= <-].
Qed.

Lemma wp_func decl e :
  tree_ok decl = true -> einv e -> wp (enc_prepass_func src decl) (fun _ e' => einv e') e.
Proof.
  intros Ht He. unfold enc_prepass_func, has_kind.
  destruct (bool_decide _) eqn:Hk; [|by apply wp_ret]. apply bool_decide_eq_true in Hk. cbn [negb].
  pose proof (tree_children _ _ Ht ltac:(by rewrite Hk)) as Hc.
  wp_step. wp_step. wp_step; [by apply wp_ret|]. zb.
  destruct (n_children decl) as [|c0 rest]; [by apply wp_ret|].
  rewrite Forall_cons in Hc. destruct Hc as [H0 Hrest].
  wp_step. apply wp_tok_text; [by apply tree_span|done|]. intros name _.
  wp_step. eapply wp_conseq; [apply wp_parts; [exact Hrest|by split|exact He]|].
  intros fp e1 [(H1 & Hf1 & _) [Hret Hb]]. wp_step.
  eapply (wp_conseq _ (fun _ e2 => next e1 e2)).
  { assert (Hg : good (match fp_ret fp with
              | Some rs =>
                  match n_children rs with
                  | t :: _ => enc_type_idx_from_node src (Some t)
                  | [] => enc_ensure_scalar TKIR_TY_VOID
                  end
              | None => enc_ensure_scalar TKIR_TY_VOID
              end)).
    { destruct (fp_ret fp) as [rs|]; [|apply good_ensure]. destruct (Hret rs eq_refl) as [Hrs Hrk].
      pose proof (tree_children _ _ Hrs ltac:(by rewrite Hrk)) as Hcs.
      destruct (n_children rs) as [|t cs]; [apply good_ensure|].
      rewrite Forall_cons in Hcs. destruct Hcs. by apply good_from_node, tree_span. }
    eapply wp_conseq; [by apply Hg|]. by intros ? ? [? _]. }
  intros r e2 (H2 & Hf2 & _). wp_steps. destruct H2. split; simpl; try done.
  - rewrite Hf2, Hf1, zlen_app. unfold zlen at 2. cbn [length]. lia.
  - apply Forall_app. split; [done|]. by constructor.
Qed.

Lemma wp_import decl e :
  tree_ok decl = true -> einv e -> wp (enc_prepass_import src decl) (fun _ e' => einv e') e.
Proof.
  intros Ht He. unfold enc_prepass_import, has_kind.
  destruct (bool_decide _) eqn:Hk; [|by apply wp_ret]. apply bool_decide_eq_true in Hk. cbn [negb].
  pose proof (tree_children _ _ Ht ltac:(by rewrite Hk)) as Hc.
  wp_step. wp_step. wp_step; [by apply wp_ret|]. zb.
  assert (Hend : forall imp : EncImportEntry,
    wp (modify (fun e => set_eimports (e_imports e ++ [imp]) e)) (fun _ e' => einv e') e).
  { intros imp. wp_step. destruct He. split; simpl; try done. rewrite zlen_app.
    change (zlen [imp]) with 1. lia. }
  wp_step. destruct (n_children decl) as [|c0 [|c1 cs]].
  - wp_step. apply Hend.
  - rewrite Forall_cons in Hc. destruct Hc as [? _]. wp_step.
    apply wp_tok_text; [by apply tree_span|done|]. intros. wp_step. apply Hend.
  - rewrite !Forall_cons in Hc. destruct Hc as (? & ? & _). wp_step.
    apply wp_tok_text; [by apply tree_span|done|]. intros. wp_step.
    apply wp_tok_text; [by apply tree_span|done|]. intros. wp_step. apply Hend.
Qed.

Lemma wp_each {A} (f : A -> EM unit) l e :
  Forall (fun a => forall e, einv e -> wp (f a) (fun _ e' => einv e') e) l -> einv e ->
  wp (each f l) (fun _ e' => einv e') e.
Proof.
  intros Hl. revert e. induction Hl as [|a l Ha Hl IH]; intros e He; simpl; [by apply wp_ret|].
  wp_step. eapply wp_conseq; [by apply Ha|]. intros u e1 He1. by apply IH.
Qed.


(** ** Function bodies *)

Lemma set_offsets_einv l e : einv e -> einv (set_offsets l e).
Proof. intros []. by split. Qed.

Lemma set_reg_0 e : einv e -> einv (set_reg 0 e).
Proof. intros []. by split. Qed.

Definition body_ok (f : EncFunc) : Prop := forall b, ef_body f = Some b -> tree_ok b = true.

(** The byte before the last two exists: a body that is not empty has an instruction. *)
Lemma wp_func_body i fn e :
  body_ok fn -> einv e ->
  wp (enc_emit_func_body realloc strtod_i64 src i fn) (fun _ e' => einv e') e.
Proof.
  intros Hb He. unfold enc_emit_func_body. destruct (ef_body fn) as [body|] eqn:Eb; [|by apply wp_ret].
  do 4 wp_step. wp_step. wp_step. wp_step.
  eapply wp_conseq; [apply good_each; [|by apply set_reg_0, set_offsets_einv]|].
  { apply Forall_forall. intros. enc_go. }
  intros u e1 [(He1 & _ & Hs1) _]. cbn beta. wp_step.
  eapply wp_conseq; [apply good_stmt; [by apply Hb|exact He1]|].
  intros u2 e2 [(He2 & _ & Hs2) _]. cbn beta. wp_step. wp_step.
  assert (Hret : wp (enc_emit_ret_void realloc) (fun _ e' => einv e') e2).
  { eapply wp_conseq; [by apply good_ret_void|]. by intros ? ? [[? _] _]. }
  wp_step; [exact Hret|]. zb. wp_step. unfold code_at. wp_step. wp_step.
  assert (to_u32 (b_len (e_code e)) = b_len (e_code e) \/ 2 ^ 32 <= b_len (e_code e)).
  { destruct (Z.lt_ge_cases (b_len (e_code e)) (2 ^ 32)); [left|by right].
    apply Z.mod_small. split; [apply zlen_nonneg|done]. }
  unfold step in *. cbn in Hs1. pose proof (zlen_nonneg (b_data (e_code e))).
  unfold b_len in *. apply wp_rd; [lia|]. by wp_step; [|apply wp_ret].
Qed.

Lemma wp_bodies i fs e :
  Forall body_ok fs -> einv e ->
  wp (enc_emit_bodies realloc strtod_i64 src i fs) (fun _ e' => einv e') e.
Proof.
  intros Hf. revert i e. induction Hf as [|f fs Hb Hf IH]; intros i e He; simpl; [by apply wp_ret|].
  wp_step. eapply wp_conseq; [by apply wp_func_body|]. intros u e1 He1. by apply IH.
Qed.

(** The prepasses and the bodies end with every table within its array. *)
Lemma wp_program ast :
  Forall (fun c => tree_ok c = true) (n_children ast) ->
  wp (enc_program realloc strtod_i64 src ast) (fun _ e => einv e) enc_init.
Proof.
  intros Hc. unfold enc_program.
  assert (Hall : forall f, (forall c e, tree_ok c = true -> einv e ->
      wp (f c) (fun _ e' => einv e') e) ->
    forall e, einv e -> wp (each f (n_children ast)) (fun _ e' => einv e') e).
  { intros f Hf e He. apply wp_each; [|done]. eapply Forall_impl; [exact Hc|]. auto. }
  wp_step. eapply wp_conseq; [by apply good_types|]. intros u e1 [He1 _]. cbn beta.
  wp_step. eapply wp_conseq; [apply Hall; [exact wp_func|done]|]. intros u2 e2 He2. cbn beta.
  wp_step. eapply wp_conseq; [apply Hall; [exact wp_import|done]|]. intros u3 e3 He3. cbn beta.
  wp_steps. apply wp_bodies; [|by apply set_offsets_einv].
  exact (ei_bodies _ _ He3).
Qed.

End Safe.

(** * The binary IR encoder: what it writes

    The bytes of [enc_write], section by section, in the words of the format
    the reader reads, and why the reader rejects every one of these files. *)

(** ** The tables as module entries *)

(** Unlike the reader's format, arrays and function pointers are a kind alone. *)
Definition enc_type_bytes (te : EncTypeEntry) : list Z :=
  [te_kind te] ++
  (if te_kind te =? TKIR_TY_STRUCT
   then ser_str (te_name te) ++
        ser_array le16 (take (Z.to_nat (te_field_count te)) (te_field_type_idxs te))
   else []).

Definition enc_type_entry (te : EncTypeEntry) : TkirTypeEntry :=
  if te_kind te =? TKIR_TY_STRUCT
  then mkTkirTypeEntry (te_kind te) (te_name te) 0
         (take (Z.to_nat (te_field_count te)) (te_field_type_idxs te))
  else mkTkirTypeEntry (te_kind te) [] 0 [].

(** The register count is the encoder's last one, whatever the function. *)
Definition enc_func_def (e : Enc) (f : EncFunc) : TkirFuncDef :=
  mkTkirFuncDef (ef_name f) (ef_flags f) (ef_ret_type_idx f) (e_reg e)
    (zlen (ef_param_type_idxs f)) [].

Definition enc_data_entry (d : EncDataEntry) : TkirDataEntry :=
  match d with
  | DataStr s => mkTkirDataEntry TKIR_DATA_STR s
  | DataI64 v => mkTkirDataEntry TKIR_DATA_I64 (le_bytes 8 (to_u64 v))
  | DataF64 bits => mkTkirDataEntry TKIR_DATA_F64 (le_bytes 8 (to_u64 bits))
  end.

Definition enc_import_entry (i : EncImportEntry) : TkirImportEntry :=
  mkTkirImportEntry (ei_symbol i) (ei_module i) 0 (ei_type_idx i).

Fixpoint enc_exports (i : Z) (fs : list EncFunc) : list TkirExportEntry :=
  match fs with
  | [] => []
  | f :: fs => (if exported f then [mkTkirExportEntry (ef_name f) 0 i] else []) ++
               enc_exports (i + 1) fs
  end.

Definition enc_types (e : Enc) : list EncTypeEntry := take (Z.to_nat (e_type_count e)) (e_slots e).

(** The sections, with the contents of the one for the code. *)
Definition enc_sections (e : Enc) (code : list Z) : list (Z * list Z) :=
  [(TKIR_SEC_TYPE, ser_array enc_type_bytes (enc_types e));
   (TKIR_SEC_FUNC, ser_array ser_func (map (enc_func_def e) (e_funcs e)));
   (TKIR_SEC_CODE, code);
   (TKIR_SEC_DATA, ser_array ser_data (map enc_data_entry (e_data e)));
   (TKIR_SEC_IMPORT, ser_array ser_import (map enc_import_entry (e_imports e)));
   (TKIR_SEC_EXPORT, ser_array ser_export (enc_exports 0 (e_funcs e)))].

(** The letters or the number in front, the version, the flags, the number of
    sections, and the sections, each with its tag and its length. *)
Definition enc_bytes (magic : list Z) (e : Enc) (code : list Z) : list Z :=
  magic ++ [TKIR_VERSION_MAJOR; TKIR_VERSION_MINOR; TKIR_FLAG_EXPORTS] ++ le16 6 ++
  concat (map ser_section (enc_sections e code)).

(** The instructions stand in their section as they are, without the index and the
    count of each function. *)
Definition enc_file (e : Enc) : list Z := enc_bytes (bytes_of "TKIR") e (b_data (e_code e)).

(** The module of the tables; its functions have no instructions. *)
Definition enc_module (e : Enc) : TkirModule :=
  mkTkirModule TKIR_VERSION_MAJOR TKIR_VERSION_MINOR TKIR_FLAG_EXPORTS
    (map enc_type_entry (enc_types e)) (map (enc_func_def e) (e_funcs e)) (map enc_data_entry (e_data e))
    (map enc_import_entry (e_imports e)) (enc_exports 0 (e_funcs e)).

(** An entry the reader would read back. *)
Lemma type_bytes_ser te :
  has_elem (te_kind te) = false -> enc_type_bytes te = ser_type (enc_type_entry te).
Proof.
  unfold has_elem. intros He. zb. unfold enc_type_bytes, enc_type_entry, ser_type.
  destruct (te_kind te =? TKIR_TY_STRUCT) eqn:Hk; cbn [ty_kind ty_name ty_elem_type_idx ty_field_type_idxs];
    unfold has_name, has_elem; rewrite Hk; zb; [by rewrite Hk|].
  rewrite !(proj2 (Z.eqb_neq _ _)) by done. done.
Qed.

Lemma array_map {A B} (f : B -> list Z) (g : A -> B) l :
  ser_array f (map g l) = ser_array (fun a => f (g a)) l.
Proof. unfold ser_array, zlen. by rewrite length_map, map_map. Qed.

(** In the format of the reader but for the number in front and the code. *)
Lemma enc_module_bytes e :
  Forall (fun te => has_elem (te_kind te) = false) (enc_types e) ->
  ser_module (enc_module e) = enc_bytes (le32 TKIR_MAGIC) e (ser_code 0 (m_funcs (enc_module e))).
Proof.
  intros Ht. unfold ser_module, enc_bytes, enc_sections, sections, enc_module.
  cbn [m_version_major m_version_minor m_header_flags m_types m_funcs m_data m_imports m_exports].
  assert (Ha : ser_array enc_type_bytes (enc_types e) = ser_array ser_type (map enc_type_entry (enc_types e))).
  { rewrite array_map. unfold ser_array. do 2 f_equal. apply map_ext_in. intros te Hin.
    apply type_bytes_ser. rewrite Forall_forall in Ht. by apply Ht, list_elem_of_In. }
  by rewrite Ha.
Qed.

(** An array or a function type is its kind alone. *)
Lemma elem_type_bytes te : has_elem (te_kind te) = true -> enc_type_bytes te = [te_kind te].
Proof.
  unfold has_elem, enc_type_bytes. intros He. destruct (te_kind te =? TKIR_TY_STRUCT) eqn:E; [|done].
  apply Z.eqb_eq in E. by rewrite E in He.
Qed.

(** ** The conversions before a write do not change it *)

Lemma land_mod v k n : 0 <= k -> k + 8 <= n -> Z.land (Z.shiftr (v mod 2 ^ n) k) 255 = Z.land (Z.shiftr v k) 255.
Proof.
  intros Hk Hn. apply Z.bits_inj'. intros i Hi. rewrite !bits_low, !Z.shiftr_spec by done.
  destruct (Z.ltb_spec i 8); [|done]. by rewrite Z.mod_pow2_bits_low by lia.
Qed.

Lemma land_mod0 v n : 8 <= n -> Z.land (v mod 2 ^ n) 255 = Z.land v 255.
Proof. intros. by rewrite <- (Z.shiftr_0_r (v mod _)), land_mod, Z.shiftr_0_r. Qed.

Lemma le16_u16 v : le16 (to_u16 v) = le16 v.
Proof. unfold le16, to_u16. by rewrite land_mod0, land_mod. Qed.

Lemma le32_u32 v : le32 (to_u32 v) = le32 v.
Proof. unfold le32, to_u32. by rewrite land_mod0, !land_mod. Qed.

(** ** Writers that append *)

Section Out.
Context (realloc : Z -> bool) (Hr : forall n, realloc n = true).

(** [b'] is [b] with the bytes [l] behind. *)
Definition wrote (b b' : TkirBuf) (l : list Z) : Prop :=
  buf_ok b' /\ b_data b' = b_data b ++ l.

Definition appends (w : TkirBuf -> TkirBuf) (l : list Z) : Prop :=
  forall b, buf_ok b -> wrote b (w b) l.

Lemma wrote_nil b : buf_ok b -> wrote b b [].
Proof. intros Hb. split; [done|]. by rewrite app_nil_r. Qed.

Lemma wrote_app w b b' l1 l2 : appends w l2 -> wrote b b' l1 -> wrote b (w b') (l1 ++ l2).
Proof. intros Hw [Hb E]. destruct (Hw b' Hb) as [? E2]. split; [done|]. by rewrite E2, E, app_assoc. Qed.

Lemma wrote_eq b b' l l' : wrote b b' l' -> l = l' -> wrote b b' l.
Proof. by intros ? ->. Qed.

Lemma app_write l : appends (buf_write realloc l) l.
Proof. intros b Hb. split; [by apply write_ok|by apply write_app]. Qed.

Lemma app_u8 v : appends (tkir_buf_u8 realloc v) [v].
Proof. intros b Hb. rewrite u8_write. by apply app_write. Qed.

Lemma app_le16 v : appends (tkir_buf_u16 realloc v) (le16 v).
Proof. apply app_write. Qed.

Lemma app_le32 v : appends (tkir_buf_u32 realloc v) (le32 v).
Proof. apply app_write. Qed.

Lemma app_u16 v : appends (tkir_buf_u16 realloc (to_u16 v)) (le16 v).
Proof. rewrite <- le16_u16. apply app_write. Qed.

Lemma app_u32 v : appends (tkir_buf_u32 realloc (to_u32 v)) (le32 v).
Proof. rewrite <- le32_u32. apply app_write. Qed.

Lemma app_i64 v : appends (tkir_buf_i64 realloc v) (le_bytes 8 (to_u64 v)).
Proof. apply app_write. Qed.

Lemma app_bytes l : appends (tkir_buf_bytes realloc l) l.
Proof. apply app_write. Qed.

Create HintDb wr.
Hint Resolve app_u8 app_u16 app_u32 app_i64 app_bytes | 0 : wr.
Hint Resolve app_le16 app_le32 | 1 : wr.

(** The writes of the goal, the last one first. *)
Ltac wrote :=
  intros ? ?; eapply wrote_eq;
  [ repeat first [ eapply wrote_app; [solve [eassumption | auto 2 with wr]|] | by apply wrote_nil ]
  | cbn [app]; rewrite ?app_nil_r, <- ?app_assoc; try reflexivity ].

Lemma app_fold {A} (w : TkirBuf -> A -> TkirBuf) (f : A -> list Z) l :
  (forall a, a ∈ l -> appends (fun b => w b a) (f a)) ->
  appends (fold_left w l) (concat (map f l)).
Proof.
  induction l as [|a l IH]; intros Hw b Hb; simpl; [by apply wrote_nil|].
  destruct (Hw a ltac:(apply elem_of_cons; by left) b Hb) as [Hb1 E1].
  destruct (IH (fun a' H => Hw a' (proj2 (elem_of_cons l a' a) (or_intror H))) _ Hb1) as [? E2].
  split; [done|]. by rewrite E2, E1, app_assoc.
Qed.

Lemma app_name s : appends (w_name realloc s) (ser_str s).
Proof. unfold w_name, ser_str. wrote. Qed.

Hint Resolve app_name | 0 : wr.

(** A section assembled in a buffer of its own. *)
Lemma app_section tag sec l :
  b_data sec = l -> appends (w_section realloc tag sec) (ser_section (tag, l)).
Proof. intros <-. unfold w_section, ser_section, b_len. wrote. Qed.

(** The count and the entries, in a new buffer. *)
Lemma array_data {A} (w : TkirBuf -> A -> TkirBuf) (f : A -> list Z) l n :
  n = zlen l -> (forall a, a ∈ l -> appends (fun b => w b a) (f a)) ->
  b_data (fold_left w l (tkir_buf_u16 realloc (to_u16 n) tkir_buf_init)) = ser_array f l.
Proof.
  intros -> Hw. destruct (app_u16 (zlen l) tkir_buf_init init_ok) as [Hb E].
  destruct (app_fold w f l Hw _ Hb) as [_ ->]. by rewrite E.
Qed.

Lemma app_type te : slot_ok te -> appends (fun b => w_type realloc b te) (enc_type_bytes te).
Proof.
  intros [Hc Hl _]. unfold w_type, enc_type_bytes. cbv zeta.
  destruct (te_kind te =? TKIR_TY_STRUCT); [|wrote].
  set (fs := take _ _). assert (Hn : te_field_count te = zlen fs).
  { unfold fs, zlen. rewrite length_take, Hl. lia. }
  assert (Hf : appends (fold_left (fun sec t => tkir_buf_u16 realloc (to_u16 t) sec) fs)
                 (concat (map le16 fs))) by (apply app_fold; intros; apply app_u16).
  rewrite Hn. unfold ser_array. wrote.
Qed.

Lemma app_func e f : appends (fun b => w_func realloc e b f) (ser_func (enc_func_def e f)).
Proof. unfold w_func, ser_func. cbv zeta. wrote. Qed.

Lemma app_data d : appends (fun b => w_data realloc b d) (ser_data (enc_data_entry d)).
Proof. unfold w_data, ser_data. destruct d as [s|v|v]; wrote. Qed.

Lemma app_import i : appends (fun b => w_import realloc b i) (ser_import (enc_import_entry i)).
Proof. unfold w_import, ser_import. cbv zeta. wrote. Qed.

Lemma app_exports i fs :
  appends (w_exports realloc i fs) (concat (map ser_export (enc_exports i fs))).
Proof.
  revert i. induction fs as [|f fs IH]; intros i; cbn [w_exports enc_exports]; [wrote|].
  rewrite map_app, concat_app. specialize (IH (i + 1)). destruct (exported f); [|wrote].
  unfold ser_export at 1. cbn [map concat ex_name ex_kind ex_index]. wrote.
Qed.

Lemma exports_count i fs : zlen (List.filter exported fs) = zlen (enc_exports i fs).
Proof.
  revert i. induction fs as [|f fs IH]; intros i; [done|]. cbn [List.filter enc_exports].
  rewrite zlen_app, <- (IH (i + 1)). destruct (exported f); [by rewrite zlen_cons|done].
Qed.

(** ** The file *)

Lemma app_types src e :
  einv src e -> appends (enc_write_type_section realloc e)
    (ser_section (TKIR_SEC_TYPE,
      ser_array enc_type_bytes (enc_types e))).
Proof.
  unfold enc_types. intros He. apply app_section, array_data.
  - unfold zlen. rewrite length_take, (ei_slots _ _ He). pose proof (ei_types _ _ He). lia.
  - intros te Hte. apply app_type. pose proof (ei_slot _ _ He) as Hs.
    rewrite Forall_forall in Hs. apply Hs. apply elem_of_take in Hte as (i & Hi & _).
    by eapply list_elem_of_lookup_2.
Qed.

Lemma app_funcs e :
  appends (enc_write_func_section realloc e)
    (ser_section (TKIR_SEC_FUNC, ser_array ser_func (map (enc_func_def e) (e_funcs e)))).
Proof. apply app_section. rewrite array_map. apply array_data; [done|]. intros. apply app_func. Qed.

Lemma app_code e :
  appends (enc_write_code_section realloc e) (ser_section (TKIR_SEC_CODE, b_data (e_code e))).
Proof.
  unfold enc_write_code_section, ser_section, b_len. cbv zeta.
  destruct (0 <? zlen (b_data (e_code e))) eqn:Hl; [wrote|]. zb. wrote.
  destruct (b_data (e_code e)) as [|c l]; [done|]. rewrite zlen_cons in Hl.
  pose proof (zlen_nonneg l). lia.
Qed.

Lemma app_datas e :
  appends (enc_write_data_section realloc e)
    (ser_section (TKIR_SEC_DATA, ser_array ser_data (map enc_data_entry (e_data e)))).
Proof. apply app_section. rewrite array_map. apply array_data; [done|]. intros. apply app_data. Qed.

Lemma app_imports e :
  appends (enc_write_import_section realloc e)
    (ser_section (TKIR_SEC_IMPORT, ser_array ser_import (map enc_import_entry (e_imports e)))).
Proof. apply app_section. rewrite array_map. apply array_data; [done|]. intros. apply app_import. Qed.

Lemma app_exportsec e :
  appends (enc_write_export_section realloc e)
    (ser_section (TKIR_SEC_EXPORT, ser_array ser_export (enc_exports 0 (e_funcs e)))).
Proof.
  apply app_section. unfold ser_array. rewrite <- (exports_count 0).
  destruct (app_u16 (zlen (List.filter exported (e_funcs e))) tkir_buf_init init_ok) as [Hb E].
  destruct (app_exports 0 (e_funcs e) _ Hb) as [_ ->]. by rewrite E.
Qed.

Lemma app_header :
  appends (enc_write_header realloc)
    (bytes_of "TKIR" ++ [TKIR_VERSION_MAJOR; TKIR_VERSION_MINOR; TKIR_FLAG_EXPORTS] ++ le16 6).
Proof. unfold enc_write_header. cbv zeta. wrote. Qed.

Lemma write_file src e : einv src e -> b_data (enc_write realloc e) = enc_file e.
Proof.
  intros He. pose proof (app_types src e He) as Ht.
  pose proof app_funcs. pose proof app_code. pose proof app_datas. pose proof app_imports.
  pose proof app_exportsec. pose proof app_header.
  assert (Ha : appends (fun b => enc_write_export_section realloc e
    (enc_write_import_section realloc e (enc_write_data_section realloc e
    (enc_write_code_section realloc e (enc_write_func_section realloc e
    (enc_write_type_section realloc e (enc_write_header realloc b))))))) (enc_file e)).
  { unfold enc_file, enc_bytes, enc_sections. cbn [map concat]. wrote. }
  exact (proj2 (Ha _ init_ok)).
Qed.

(** The reader reads the first four bytes as a number that is not its magic. *)
Lemma decode_file e :
  tkir_decode (enc_file e) =
  Ok (Some "invalid magic bytes (expected 'TKIR')"%string, module_zero).
Proof.
  unfold tkir_decode, enc_file, enc_bytes. generalize (concat (map ser_section (enc_sections e (b_data (e_code e))))). intros l.
  change (bytes_of "TKIR") with (le32 0x52494B54). rewrite (proj2 (Z.ltb_ge _ _)).
  2: { rewrite !zlen_app, le32_len, le16_len. pose proof (zlen_nonneg l).
       change (zlen [_; _; _]) with 3. lia. }
  generalize ([TKIR_VERSION_MAJOR; TKIR_VERSION_MINOR; TKIR_FLAG_EXPORTS] ++ le16 6 ++ l). intros k.
  unfold decode_from_start, parse_header, bind.
  pose proof (sees_u32 4 0x52494B54 ltac:(done) [] k ltac:(done)) as Hm.
  cbn [app] in Hm. change (zlen []) with 0 in Hm. rewrite Hm. done.
Qed.

End Out.
