(* ===== verification/TkirProps.v ===== *)
(** * The binary IR's theorems

    The reader: safety, validation, and the round trip with the format.  The
    encoder: safety and limits, the constants, how what it writes stands to the
    format, and that the reader rejects all of it. *)

From Stdlib Require Import ZArith Lia String Ascii.
From stdpp Require Import base tactics list.
From S2P Require Import Prelude Diag Lexer Ast Parser ParserProps TkirBuf Tkir TkirFacts TkirEnc.
From S2P Require Import TkirEncFacts.
Open Scope Z_scope.

(** ** Concrete inputs for the witnesses *)

Definition sample_module : TkirModule :=
  mkTkirModule 1 0 2
    [mkTkirTypeEntry TKIR_TY_I64 [] 0 [];
     mkTkirTypeEntry TKIR_TY_STRUCT (bytes_of "p") 0 [0; 0];
     mkTkirTypeEntry TKIR_TY_FN_PTR (bytes_of "cb") 0 [0]]
    [mkTkirFuncDef (bytes_of "main") 1 0 4 1
       [mkTkirInstr TKIR_OP_CONST_DATA 1 0 0 70000 [];
        mkTkirInstr TKIR_OP_CALL 2 0 0 0 [0; 1];
        mkTkirInstr TKIR_OP_RET 0 2 0 0 []]]
    [mkTkirDataEntry TKIR_DATA_STR (bytes_of "hi")]
    [mkTkirImportEntry (bytes_of "log") (bytes_of "std.log") 0 0]
    [mkTkirExportEntry (bytes_of "main") 0 0].

Definition alloc_ok (n : Z) : bool := true.
Definition no_strtod (s : list Z) : Z := 0.

(** A text whose tree the encoder expects. *)
Lemma sample_tree : Forall (fun c => tree_ok sample c = true) (n_children (ast_of sample)).
Proof. apply List.Forall_forall, forallb_forall. vm_compute. reflexivity. Qed.

Lemma sample_file : file_ok sample_module.
Proof.
  repeat first [split | constructor]; try done; try (vm_compute; done);
    repeat (constructor; [vm_compute; done|]); constructor.
Qed.

(** ** The reader *)

(** C11: the reader on any bytes: [tkir_decode] terminates without reading
    outside them, and what it leaves in the module, on success and on failure,
    satisfies everything that it validates: the opcodes, the registers of every
    instruction, the kinds of types, the sizes of names and of tables. *)
Theorem decode_total buf :
  Forall byte buf -> exists err m, tkir_decode buf = Ok (err, m) /\ module_ok m.
Proof. intros Hb. destruct (decode_safe buf Hb) as ([err m] & ? & ?). by exists err, m. Qed.

Lemma decode_total_witness :
  let buf := take 60 (ser_module sample_module) in
  Forall byte buf /\ exists err m, tkir_decode buf = Ok (err, m) /\ module_ok m.
Proof.
  intros buf. assert (H : Forall byte buf).
  { apply List.Forall_forall. intros x Hx.
    assert (Hall : forallb (fun b => (0 <=? b) && (b <? 256)) buf = true) by (vm_compute; done).
    rewrite forallb_forall in Hall. apply Hall in Hx. by zb. }
  split; [exact H|]. exact (decode_total buf H).
Defined.

(** C12: the round trip: a module that satisfies the validated conditions and
    fits the format is read back, unchanged and without an error, from its six
    sections. *)
Theorem decode_roundtrip m : file_ok m -> tkir_decode (ser_module m) = Ok (None, m).
Proof. apply decode_ser. Qed.

Lemma decode_roundtrip_witness :
  file_ok sample_module /\ tkir_decode (ser_module sample_module) = Ok (None, sample_module).
Proof. split; [exact sample_file|]. exact (decode_roundtrip sample_module sample_file). Defined.

(** ** The encoder *)

(** C13: the encoder is total on the trees it expects: while [realloc] succeeds,
    the prepasses and the function bodies end without an access out of bounds,
    the file is what the section writers make of the tables they leave, and
    every table is within its array, without two equal constants. *)
Theorem emit_tkir_safe realloc strtod_i64 src ast d :
  (forall n, realloc n = true) -> Forall (fun c => tree_ok src c = true) (n_children ast) ->
  exists e, emit_tkir realloc strtod_i64 src true true ast d =
              Ok (0, Some (b_data (enc_write realloc e)), d) /\
    einv src e /\ e_type_count e <= ENC_MAX_TYPES /\ zlen (e_funcs e) <= TKC_MAX_FUNCS /\
    zlen (e_data e) <= ENC_MAX_DATA /\ NoDup (e_data e) /\ zlen (e_imports e) <= TKC_MAX_IMPORTS.
Proof.
  intros Hr Ht. apply (wp_program realloc strtod_i64 src Hr) in Ht.
  destruct (wp_ok _ _ _ Ht) as (u & e & E & He). exists e. unfold emit_tkir. rewrite E.
  split; [done|]. split; [done|]. destruct He. split_and!; try done. lia.
Qed.

Lemma emit_tkir_safe_witness :
  (forall n, alloc_ok n = true) /\
  Forall (fun c => tree_ok sample c = true) (n_children (ast_of sample)) /\
  exists e, emit_tkir alloc_ok no_strtod sample true true (ast_of sample) diags_init =
              Ok (0, Some (b_data (enc_write alloc_ok e)), diags_init) /\
    einv sample e /\ e_type_count e <= ENC_MAX_TYPES /\ zlen (e_funcs e) <= TKC_MAX_FUNCS /\
    zlen (e_data e) <= ENC_MAX_DATA /\ NoDup (e_data e) /\ zlen (e_imports e) <= TKC_MAX_IMPORTS.
Proof.
  assert (Ha : forall n, alloc_ok n = true) by done. pose proof sample_tree as Ht.
  split; [exact Ha|]. split; [exact Ht|].
  exact (emit_tkir_safe alloc_ok no_strtod sample (ast_of sample) diags_init Ha Ht).
Defined.

(** C14: the file of the encoder is the letters TKIR, the version, the flags, the
    number of sections, and six sections, each with its tag and its length.  For a
    program without array and function types it is, but for two things, what the
    reader's format makes of the module of the encoder's tables, which the reader
    reads back when it fits the format: the letters, where the format has the number
    of the reader, and the code section, which is the bytes of the instructions, where
    the format has for each function its index, the number of its instructions and
    these.  An array or function type is written as its kind alone, which the format
    is not. *)
Theorem enc_write_format realloc strtod_i64 src ast d :
  (forall n, realloc n = true) -> Forall (fun c => tree_ok src c = true) (n_children ast) ->
  exists e, enc_program realloc strtod_i64 src ast enc_init = Ok (tt, e) /\
    emit_tkir realloc strtod_i64 src true true ast d
      = Ok (0, Some (enc_bytes (bytes_of "TKIR") e (b_data (e_code e))), d) /\
    (Forall (fun te => has_elem (te_kind te) = false) (enc_types e) ->
     ser_module (enc_module e) = enc_bytes (le32 TKIR_MAGIC) e (ser_code 0 (m_funcs (enc_module e))) /\
     (file_ok (enc_module e) ->
      tkir_decode (enc_bytes (le32 TKIR_MAGIC) e (ser_code 0 (m_funcs (enc_module e)))) = Ok (None, enc_module e))) /\
    Forall (fun te => has_elem (te_kind te) = true -> enc_type_bytes te = [te_kind te]) (enc_types e).
Proof.
  intros Hr Ht. apply (wp_program realloc strtod_i64 src Hr) in Ht.
  destruct (wp_ok _ _ _ Ht) as ([] & e & E & He). exists e. split; [done|]. unfold emit_tkir. rewrite E.
  split; [by rewrite (write_file realloc Hr src e He)|]. split.
  - intros Hel. pose proof (enc_module_bytes e Hel) as Hm. split; [done|]. intros Hf. rewrite <- Hm. by apply decode_ser.
  - apply Forall_forall. intros te _. apply elem_type_bytes.
Qed.

(** A program with a struct, a call, an import and constants. *)
Definition prog : list Z :=
  bytes_of "m=a;i=io:std.io;t=$p{x:i64;y:i64};f=g(a:i64;b:$p):i64{let s=io.println(" ++ [34] ++ bytes_of "hi" ++ [34] ++
  bytes_of ");<a+1};f=main():i64{<g(1;2)};".
Definition prog_enc : Enc := Eval vm_compute in
  match enc_program alloc_ok no_strtod prog (ast_of prog) enc_init with Ok (_, e) => e | _ => enc_init end.

Lemma prog_file : file_ok (enc_module prog_enc).
Proof.
  repeat first [split | constructor]; try done; try (vm_compute; done);
    repeat (constructor; [vm_compute; done|]); constructor.
Qed.

Lemma enc_write_format_witness :
  (forall n, alloc_ok n = true) /\ Forall (fun c => tree_ok prog c = true) (n_children (ast_of prog)) /\
  emit_tkir alloc_ok no_strtod prog true true (ast_of prog) diags_init
    = Ok (0, Some (enc_bytes (bytes_of "TKIR") prog_enc (b_data (e_code prog_enc))), diags_init) /\
  tkir_decode (enc_bytes (le32 TKIR_MAGIC) prog_enc (ser_code 0 (m_funcs (enc_module prog_enc)))) = Ok (None, enc_module prog_enc).
Proof.
  assert (Ha : forall n, alloc_ok n = true) by done.
  assert (Ht : Forall (fun c => tree_ok prog c = true) (n_children (ast_of prog))).
  { apply List.Forall_forall, forallb_forall. vm_compute. reflexivity. }
  split; [exact Ha|]. split; [exact Ht|].
  destruct (enc_write_format alloc_ok no_strtod prog (ast_of prog) diags_init Ha Ht) as (e & E & H1 & H2 & _).
  assert (He : e = prog_enc) by (vm_compute in E; injection E as E; symmetry; exact E). subst e. split; [exact H1|].
  apply H2; [|exact prog_file]. repeat (constructor; [reflexivity|]). constructor.
Defined.

(** With the number of the reader in front, the reader fails on the code of this file. *)
Lemma raw_code_rejected :
  exists m, tkir_decode (enc_bytes (le32 TKIR_MAGIC) prog_enc (b_data (e_code prog_enc)))
            = Ok (Some "code section: func_idx %u >= func_count %d"%string, m).
Proof. eexists. vm_compute. reflexivity. Qed.

(** C15: no file of the encoder can be read: whatever the program, the reader
    rejects the encoder's output at its first four bytes, which the encoder
    writes in the order of the letters and the reader takes as a little-endian
    number. *)
Theorem encoder_output_rejected realloc strtod_i64 src ast d :
  (forall n, realloc n = true) -> Forall (fun c => tree_ok src c = true) (n_children ast) ->
  exists out, emit_tkir realloc strtod_i64 src true true ast d = Ok (0, Some out, d) /\
    tkir_decode out = Ok (Some "invalid magic bytes (expected 'TKIR')"%string, module_zero).
Proof.
  intros Hr Ht. apply (wp_program realloc strtod_i64 src Hr) in Ht.
  destruct (wp_ok _ _ _ Ht) as (u & e & E & He). eexists. unfold emit_tkir. rewrite E.
  split; [done|]. rewrite (write_file realloc Hr src e He). apply decode_file.
Qed.

Lemma encoder_output_rejected_witness :
  (forall n, alloc_ok n = true) /\
  Forall (fun c => tree_ok sample c = true) (n_children (ast_of sample)) /\
  exists out, emit_tkir alloc_ok no_strtod sample true true (ast_of sample) diags_init =
                Ok (0, Some out, diags_init) /\
    tkir_decode out = Ok (Some "invalid magic bytes (expected 'TKIR')"%string, module_zero).
Proof.
  assert (Ha : forall n, alloc_ok n = true) by done. pose proof sample_tree as Ht.
  split; [exact Ha|]. split; [exact Ht|].
  exact (encoder_output_rejected alloc_ok no_strtod sample (ast_of sample) diags_init Ha Ht).
Defined.

(** Interning: the index that [enc_add_str] returns is that of the string,
    which is added when it is not there; only when the table is full is such a
    string given index 0, without an error. *)
Theorem enc_add_str_interns src s e :
  einv src e ->
  exists i e', enc_add_str s e = Ok (i, e') /\ einv src e' /\
    ((e_data e' !! Z.to_nat i = Some (DataStr s) /\
      (((DataStr s ∈ e_data e) /\ e' = e) \/
       ((DataStr s ∉ e_data e) /\ e_data e' = e_data e ++ [DataStr s]))) \/
     ((DataStr s ∉ e_data e) /\ zlen (e_data e) = ENC_MAX_DATA /\ i = 0 /\ e' = e)).
Proof.
  intros He. destruct (wp_ok _ _ _ (good_add_str src s e He)) as (i & e' & E & (He' & _ & _) & _).
  exists i, e'. split; [done|]. split; [done|]. pose proof (ei_data _ _ He) as Hmax.
  unfold enc_add_str, add_data, bind, get, put, ret in E. set (same := fun d => _) in E.
  assert (Hsame : forall d, same d = true <-> d = DataStr s).
  { intros [s'|v|v]; simpl; split; try done; [by intros ->%bytes_eqb_eq|].
    intros [= ->]. apply bytes_eqb_refl. }
  destruct (find_idx same (e_data e)) as [j|] eqn:Ef.
  { injection E as <- <-. destruct (find_idx_some _ _ _ Ef) as (_ & x & Hx & ->%Hsame).
    left. split; [done|]. left. split; [by eapply list_elem_of_lookup_2|done]. }
  assert (Hn : DataStr s ∉ e_data e).
  { intros Hin. pose proof (find_idx_none _ _ Ef _ Hin) as Hf. by rewrite (proj2 (Hsame _)) in Hf. }
  destruct (ENC_MAX_DATA <=? zlen (e_data e)) eqn:Hfull; zb; injection E as <- <-.
  - right. split_and!; [done|lia|done|done].
  - left. simpl. split; [|by right]. unfold zlen. by rewrite Nat2Z.id, list_lookup_middle.
Qed.

Lemma enc_add_str_interns_witness :
  einv [] enc_init /\
  exists i e', enc_add_str (bytes_of "hi") enc_init = Ok (i, e') /\ einv [] e' /\
    ((e_data e' !! Z.to_nat i = Some (DataStr (bytes_of "hi")) /\
      (((DataStr (bytes_of "hi") ∈ e_data enc_init) /\ e' = enc_init) \/
       ((DataStr (bytes_of "hi") ∉ e_data enc_init) /\
        e_data e' = e_data enc_init ++ [DataStr (bytes_of "hi")]))) \/
     ((DataStr (bytes_of "hi") ∉ e_data enc_init) /\ zlen (e_data enc_init) = ENC_MAX_DATA /\
      i = 0 /\ e' = enc_init)).
Proof.
  split; [exact (init_einv [])|].
  exact (enc_add_str_interns [] (bytes_of "hi") enc_init (init_einv [])).
Defined.

(** ** Opcodes *)

(** The reader accepts exactly the opcodes that have a name. *)
Theorem opcode_valid_named op : opcode_valid op = true <-> tkir_opcode_name op <> "UNKNOWN"%string.
Proof.
  assert (Hr : ~ (1 <= op <= 66) \/ op ∈ map Z.of_nat (seq 1 66)).
  { destruct (decide (1 <= op <= 66)); [right|by left].
    apply list_elem_of_In, in_map_iff. exists (Z.to_nat op). split; [lia|]. apply in_seq. lia. }
  destruct Hr as [Hr|Hr].
  - unfold opcode_valid, tkir_opcode_name, name_in.
    repeat match goal with |- context [op =? ?k] =>
      rewrite (proj2 (Z.eqb_neq op k)) by (unfold k; lia) end.
    split; [|done]. intros H. exfalso. apply Hr.
    repeat (apply orb_prop in H as [H|H]); zb; lia.
  - assert (Hall : forallb (fun op => eqb (opcode_valid op)
      (negb (String.eqb (tkir_opcode_name op) "UNKNOWN"))) (map Z.of_nat (seq 1 66)) = true)
      by (vm_compute; done).
    rewrite forallb_forall in Hall. apply list_elem_of_In in Hr. apply Hall, eqb_prop in Hr.
    rewrite Hr, negb_true_iff, String.eqb_neq. done.
Qed.

(** ** Checks that depend on the order of the sections *)

(** The index of a function's type is checked against the types read so far: a
    file with the functions first is accepted with an index out of range. *)
Definition late_types : list Z :=
  le32 TKIR_MAGIC ++ [1; 0; 0] ++ le16 2 ++
  ser_section (TKIR_SEC_FUNC, ser_array ser_func [mkTkirFuncDef (bytes_of "f") 0 9 0 0 []]) ++
  ser_section (TKIR_SEC_TYPE, ser_array ser_type [mkTkirTypeEntry TKIR_TY_I64 [] 0 []]).

Lemma late_types_accepted :
  exists m, tkir_decode late_types = Ok (None, m) /\
    map fd_type_idx (m_funcs m) = [9] /\ zlen (m_types m) = 1.
Proof. eexists. vm_compute. done. Qed.
