(* ===== verification/Encoding.v ===== *)
(** * The encodings of the runtime: [src/src/stdlib/encoding.c]

    UTF-8 validation, base32, base64, hexadecimal and percent-encoding.  A C
    string is the list of its characters, as numbers, without the terminator;
    an array that [malloc] gives is the list of its bytes, whose first contents
    are the parameter's; a write outside it is [Oob], and so is the return of a
    string without a terminator.  Sizes wrap at 64 bits as [uint64_t] does. *)

From Stdlib Require Import ZArith Lia String Ascii.
From stdpp Require Import base tactics list.
From S2P Require Import Prelude.
Open Scope Z_scope.

Definition u64 (v : Z) : Z := v mod 2 ^ 64.
Definition u32 (v : Z) : Z := v mod 2 ^ 32.

(** ** UTF-8 *)

(** The lead byte: the bits of the code point and the number of bytes that
    follow; [None] for a byte that leads nothing. *)
Definition utf8_lead (b : Z) : option (Z * Z) :=
  if b <? 0x80 then Some (b, 0)
  else if Z.land b 0xe0 =? 0xc0 then Some (Z.land b 0x1f, 1)
  else if Z.land b 0xf0 =? 0xe0 then Some (Z.land b 0x0f, 2)
  else if Z.land b 0xf8 =? 0xf0 then Some (Z.land b 0x07, 3)
  else None.

(** [n] continuation bytes from [p] on; [None] when one is missing or wrong. *)
Fixpoint utf8_conts (data : list Z) (n : nat) (p cp : Z) : M unit (option (Z * Z)) :=
  match n with
  | O => ret (Some (p, cp))
  | S n =>
      if zlen data <=? p then ret None
      else
        do c <- rd data p;
        if negb (Z.land c 0xc0 =? 0x80) then ret None
        else utf8_conts data n (p + 1) (u32 (Z.lor (Z.shiftl cp 6) (Z.land c 0x3f)))
  end.

(** The code points a lead with [extra] bytes may carry. *)
Definition utf8_range_ok (extra cp : Z) : bool :=
  negb ((extra =? 1) && (cp <? 0x80)) && negb ((extra =? 2) && (cp <? 0x800)) &&
  negb ((extra =? 3) && (cp <? 0x10000)) &&
  negb ((0xd800 <=? cp) && (cp <=? 0xdfff)) && negb (0x10ffff <? cp).

(** The loop; [inr] leaves with the result. *)
Definition utf8_validate_loop (data : list Z) : M unit bool :=
  iter (S (length data))
    (fun p =>
       if p <? zlen data then
         do b <- rd data p;
         let p := p + 1 in
         if b <? 0x80 then ret (inl p)
         else
         match utf8_lead b with
         | None => ret (inr false)
         | Some (cp, extra) =>
             do r <- utf8_conts data (Z.to_nat extra) p cp;
             match r with
             | None => ret (inr false)
             | Some (p, cp) => if utf8_range_ok extra cp then ret (inl p) else ret (inr false)
             end
         end
       else ret (inr true)) 0.

Definition encoding_utf8_validate (data : list Z) : res bool :=
  match utf8_validate_loop data tt with
  | Ok (b, _) => Ok b
  | Oob => Oob
  | NoFuel => NoFuel
  end.

(** The loop over the characters of a string. *)
Fixpoint rune_count_loop (s : list Z) (count : Z) : Z :=
  match s with
  | [] => count
  | c :: s => rune_count_loop s (if negb (Z.land c 0xc0 =? 0x80) then u64 (count + 1) else count)
  end.

Definition encoding_utf8_rune_count (s : option (list Z)) : Z :=
  match s with
  | None => 0
  | Some s => rune_count_loop s 0
  end.

(** ** Arrays *)

(** A computation that fills an array. *)
Definition Out (X : Type) : Type := M (list Z) X.

(** [out[i] = v] *)
Definition wr (i v : Z) : Out unit :=
  do out <- get;
  if (0 <=? i) && (i <? zlen out) then put (<[Z.to_nat i := v]> out) else oob.

(** [for (i = i0; i < i0 + n; i++) f(i);] *)
Fixpoint for_to {S} (n : nat) (i : Z) (f : Z -> M S unit) : M S unit :=
  match n with
  | O => ret tt
  | Datatypes.S n => do! f i; for_to n (i + 1) f
  end.

(** The string in an array. *)
Definition c_str (out : list Z) : res (list Z) :=
  if existsb (fun c => c =? 0) out then Ok (until_nul out) else Oob.

(** [ByteArray]: the first bytes of an array. *)
Definition c_bytes (out : list Z) (n : Z) : res (list Z) :=
  if (0 <=? n) && (n <=? zlen out) then Ok (take (Z.to_nat n) out) else Oob.

Section Alloc.
Context (malloc : Z -> option (list Z)).

(** A string in a new array of [n] characters; [None] is NULL. *)
Definition with_str (n : Z) (m : Out unit) : res (option (list Z)) :=
  match malloc n with
  | None => Ok None
  | Some out =>
      match m out with
      | Ok (_, out) => match c_str out with Ok s => Ok (Some s) | Oob => Oob | NoFuel => NoFuel end
      | Oob => Oob
      | NoFuel => NoFuel
      end
  end.

(** Bytes in a new array of [n], as many as the computation says; it may give
    them up. *)
Definition with_bytes (n : Z) (m : Out (option Z)) : res (option (list Z)) :=
  match malloc n with
  | None => Ok None
  | Some out =>
      match m out with
      | Ok (Some j, out) =>
          match c_bytes out j with Ok s => Ok (Some s) | Oob => Oob | NoFuel => NoFuel end
      | Ok (None, _) => Ok None
      | Oob => Oob
      | NoFuel => NoFuel
      end
  end.

(** ** Base32 *)

Definition B32_ALPHA : list Z := bytes_of "ABCDEFGHIJKLMNOPQRSTUVWXYZ234567".
Definition PAD_CHARS : list Z := [0; 1; 3; 4; 6].

(** [k] more bytes of the accumulator: the position, the accumulator and the
    number of bytes that are missing. *)
Fixpoint b32_load (data : list Z) (k : nat) (i acc pad : Z) : Out (Z * Z * Z) :=
  match k with
  | O => ret (i, acc, pad)
  | S k =>
      let acc := u64 (Z.shiftl acc 8) in
      if i <? zlen data then
        do b <- rd data i; b32_load data k (i + 1) (Z.lor acc b) pad
      else b32_load data k i acc (pad + 1)
  end.

(** [out[j+n] = B32_ALPHA[(acc >> s) & 0x1f]] *)
Definition b32_put (acc j n s : Z) : Out unit :=
  do c <- rd B32_ALPHA (Z.land (Z.shiftr acc s) 0x1f); wr (j + n) c.

Definition b32_encode_loop (data : list Z) : Out unit :=
  do j <- iter (S (length data))
    (fun '(i, j) =>
       if i <? zlen data then
         do '(i, acc, pad) <- b32_load data 5 i 0 0;
         do! b32_put acc j 0 35;
         do! b32_put acc j 1 30;
         do! b32_put acc j 2 25;
         do! b32_put acc j 3 20;
         do! b32_put acc j 4 15;
         do! b32_put acc j 5 10;
         do! b32_put acc j 6 5;
         do! b32_put acc j 7 0;
         do pc <- rd PAD_CHARS pad;
         do! for_to (Z.to_nat pc) 0 (fun n => wr (j + 7 - n) (chr "="));
         ret (inl (i, j + 8))
       else ret (inr j)) (0, 0);
  wr j 0.

Definition encoding_base32_encode (data : list Z) : res (option (list Z)) :=
  with_str (u64 (u64 (u64 (zlen data + 4) / 5 * 8) + 1))
    (if zlen data =? 0 then wr 0 0 else b32_encode_loop data).

Definition b32_char_val (c : Z) : Z :=
  if (chr "A" <=? c) && (c <=? chr "Z") then c - chr "A"
  else if (chr "a" <=? c) && (c <=? chr "z") then c - chr "a"
  else if (chr "2" <=? c) && (c <=? chr "7") then c - chr "2" + 26
  else -1.

(** The state of a decoder: the accumulator, the bits it holds that are not
    written yet, and the bytes written. *)
Record Unpack := mkUnpack { un_acc : Z; un_bits : Z; un_j : Z }.

(** The bits of [val] into the accumulator of [width] bits, and a byte out of
    it when there are eight. *)
Definition unpack (width w : Z) (val : Z) (u : Unpack) : Out Unpack :=
  let acc := Z.lor (Z.shiftl (un_acc u) w mod 2 ^ width) val in
  let bits := un_bits u + w in
  if 8 <=? bits then
    do! wr (un_j u) (Z.land (Z.shiftr acc (bits - 8)) 0xff);
    ret (mkUnpack acc (bits - 8) (un_j u + 1))
  else ret (mkUnpack acc bits (un_j u)).

(** The number of characters that are not padding; [None] for a bad one. *)
Fixpoint b32_count (s : list Z) : option Z :=
  match s with
  | [] => Some 0
  | c :: s =>
      if c =? chr "=" then b32_count s
      else if b32_char_val c =? -1 then None
      else option_map Z.succ (b32_count s)
  end.

Fixpoint b32_decode_loop (s : list Z) (u : Unpack) : Out Unpack :=
  match s with
  | [] => ret u
  | c :: s =>
      if c =? chr "=" then b32_decode_loop s u
      else do u <- unpack 64 5 (b32_char_val c) u; b32_decode_loop s u
  end.

(** [EncBytesResult]: [inl] is an error with its message; an empty result has
    no array. *)
Definition encoding_base32_decode (s : option (list Z)) : res (string + list Z) :=
  match s with
  | None => Ok (inl "invalid base32 input"%string)
  | Some [] => Ok (inr [])
  | Some s =>
      match b32_count s with
      | None => Ok (inl "invalid base32 input"%string)
      | Some n =>
          match with_bytes (u64 (n * 5 / 8 + 1))
                  (do u <- b32_decode_loop s (mkUnpack 0 0 0); ret (Some (un_j u))) with
          | Ok (Some out) => Ok (inr out)
          | Ok None => Ok (inl "allocation failure"%string)
          | Oob => Oob
          | NoFuel => NoFuel
          end
      end
  end.

(** ** Base64 *)

Definition B64_STD : list Z :=
  bytes_of "ABCDEFGHIJKLMNOPQRSTUVWXYZabcdefghijklmnopqrstuvwxyz0123456789+/".
Definition B64_URL : list Z :=
  bytes_of "ABCDEFGHIJKLMNOPQRSTUVWXYZabcdefghijklmnopqrstuvwxyz0123456789-_".

(** [out[j] = alpha[v & 0x3f]] *)
Definition b64_put (alpha : list Z) (j v : Z) : Out unit :=
  do c <- rd alpha (Z.land v 0x3f); wr j c.

(** The groups of three bytes; the positions behind them. *)
Definition b64_groups (data alpha : list Z) : Out (Z * Z) :=
  iter (S (length data))
    (fun '(i, j) =>
       if i + 2 <? zlen data then
         do a <- rd data i;
         do b <- rd data (i + 1);
         do c <- rd data (i + 2);
         do! b64_put alpha j (Z.shiftr a 2);
         do! b64_put alpha (j + 1) (Z.lor (Z.shiftl a 4) (Z.shiftr b 4));
         do! b64_put alpha (j + 2) (Z.lor (Z.shiftl b 2) (Z.shiftr c 6));
         do! b64_put alpha (j + 3) c;
         ret (inl (i + 3, j + 4))
       else ret (inr (i, j))) (0, 0).

(** One or two bytes at the end; the position behind. *)
Definition b64_tail (data alpha : list Z) (pad : bool) (i j : Z) : Out Z :=
  if i + 1 =? zlen data then
    do a <- rd data i;
    do! b64_put alpha j (Z.shiftr a 2);
    do! b64_put alpha (j + 1) (Z.shiftl a 4);
    if pad then do! wr (j + 2) (chr "="); do! wr (j + 3) (chr "="); ret (j + 4)
    else ret (j + 2)
  else if i + 2 =? zlen data then
    do a <- rd data i;
    do b <- rd data (i + 1);
    do! b64_put alpha j (Z.shiftr a 2);
    do! b64_put alpha (j + 1) (Z.lor (Z.shiftl a 4) (Z.shiftr b 4));
    do! b64_put alpha (j + 2) (Z.shiftl b 2);
    if pad then do! wr (j + 3) (chr "="); ret (j + 4) else ret (j + 3)
  else ret j.

Definition b64_encode_impl (data alpha : list Z) (pad : bool) : res (option (list Z)) :=
  with_str (u64 (u64 (u64 (zlen data + 2) / 3 * 4) + 1))
    (do '(i, j) <- b64_groups data alpha;
     do j <- b64_tail data alpha pad i j;
     wr j 0).

(** The table of the values of the characters; -1 for the others. *)
Definition b64_make_table (alpha : list Z) : list Z :=
  fold_left (fun table i => <[Z.to_nat (byte_at alpha (Z.of_nat i)) := Z.of_nat i]> table)
    (seq 0 64) (replicate 256 (-1)).

(** [while (data_len > 0 && s[data_len - 1] == '=') data_len--;] *)
Fixpoint strip_eq (s : list Z) (n : nat) : nat :=
  match n with
  | O => O
  | S n' => if byte_at s (Z.of_nat n') =? chr "=" then strip_eq s n' else n
  end.

Fixpoint b64_valid (table s : list Z) : Out bool :=
  match s with
  | [] => ret true
  | c :: s => do v <- rd table c; if v =? -1 then ret false else b64_valid table s
  end.

Fixpoint b64_decode_loop (table s : list Z) (u : Unpack) : Out Unpack :=
  match s with
  | [] => ret u
  | c :: s => do v <- rd table c; do u <- unpack 32 6 v u; b64_decode_loop table s u
  end.

(** A NULL array is [None], an error. *)
Definition b64_decode_impl (s : option (list Z)) (alpha : list Z) : res (option (list Z)) :=
  match s with
  | None => Ok None
  | Some s =>
      match malloc (256 * 4) with
      | None => Ok None
      | Some _ =>
          let table := b64_make_table alpha in
          let core := take (strip_eq s (length s)) s in
          match b64_valid table core [] with
          | Ok (false, _) => Ok None
          | Ok (true, _) =>
              with_bytes (u64 (u64 (zlen core * 6) / 8 + 1))
                (do u <- b64_decode_loop table core (mkUnpack 0 0 0); ret (Some (un_j u)))
          | Oob => Oob
          | NoFuel => NoFuel
          end
      end
  end.

Definition encoding_b64encode (data : list Z) : res (option (list Z)) :=
  if zlen data =? 0 then with_str 1 (wr 0 0) else b64_encode_impl data B64_STD true.
Definition encoding_b64decode (s : option (list Z)) : res (option (list Z)) :=
  b64_decode_impl s B64_STD.
Definition encoding_b64urlencode (data : list Z) : res (option (list Z)) :=
  if zlen data =? 0 then with_str 1 (wr 0 0) else b64_encode_impl data B64_URL false.
Definition encoding_b64urldecode (s : option (list Z)) : res (option (list Z)) :=
  b64_decode_impl s B64_URL.

(** ** Hexadecimal *)

Definition HEX_DIGITS : list Z := bytes_of "0123456789abcdef".

(** [out[j] = HEX_DIGITS[v & 0x0f]] *)
Definition hex_put (j v : Z) : Out unit := do c <- rd HEX_DIGITS (Z.land v 0x0f); wr j c.

Definition encoding_hexencode (data : list Z) : res (option (list Z)) :=
  with_str (u64 (u64 (zlen data * 2) + 1))
    (do! for_to (length data) 0 (fun i =>
       do b <- rd data i;
       do! hex_put (i * 2) (Z.shiftr b 4);
       hex_put (i * 2 + 1) b);
     wr (zlen data * 2) 0).

Definition hex_val (c : Z) : Z :=
  if (chr "0" <=? c) && (c <=? chr "9") then c - chr "0"
  else if (chr "a" <=? c) && (c <=? chr "f") then c - chr "a" + 10
  else if (chr "A" <=? c) && (c <=? chr "F") then c - chr "A" + 10
  else -1.

(** The pairs of digits from [i] on; [false] for one that is none. *)
Fixpoint hex_pairs (s : list Z) (n : nat) (i : Z) : Out bool :=
  match n with
  | O => ret true
  | S n =>
      do h <- rd s (i * 2);
      do l <- rd s (i * 2 + 1);
      let hi := hex_val h in
      let lo := hex_val l in
      if (hi =? -1) || (lo =? -1) then ret false
      else do! wr i (Z.land (Z.lor (Z.shiftl hi 4) lo) 0xff); hex_pairs s n (i + 1)
  end.

Definition encoding_hexdecode (s : option (list Z)) : res (option (list Z)) :=
  match s with
  | None => Ok None
  | Some s =>
      if negb (zlen s mod 2 =? 0) then Ok None
      else
        let out_len := zlen s / 2 in
        with_bytes (u64 (out_len + 1))
          (do b <- hex_pairs s (Z.to_nat out_len) 0; ret (if b then Some out_len else None))
  end.

(** ** Percent-encoding *)

Definition is_unreserved (c : Z) : bool :=
  ((chr "A" <=? c) && (c <=? chr "Z")) || ((chr "a" <=? c) && (c <=? chr "z")) ||
  ((chr "0" <=? c) && (c <=? chr "9")) ||
  (c =? chr "-") || (c =? chr ".") || (c =? chr "_") || (c =? chr "~").

Definition encoding_urlencode (s : option (list Z)) : res (option (list Z)) :=
  match s with
  | None => Ok None
  | Some s =>
      with_str (u64 (u64 (zlen s * 3) + 1))
        (do '(_, j) <- iter (S (length s))
           (fun '(i, j) =>
              if i <? zlen s then
                do c <- rd s i;
                if is_unreserved c then do! wr j c; ret (inl (i + 1, j + 1))
                else
                  do! wr j (chr "%");
                  do! hex_put (j + 1) (Z.shiftr c 4);
                  do! hex_put (j + 2) c;
                  ret (inl (i + 1, j + 3))
              else ret (inr (i, j))) (0, 0);
         wr j 0)
  end.

(** One step of the loop: the positions behind. *)
Definition urldecode_step (s : list Z) (i j : Z) : Out (Z * Z) :=
  do c <- rd s i;
  do esc <-
    (if (c =? chr "%") && (i + 2 <? zlen s) then
       do h <- rd s (i + 1);
       do l <- rd s (i + 2);
       let hi := hex_val h in
       let lo := hex_val l in
       ret (if negb (hi =? -1) && negb (lo =? -1) then Some (Z.lor (Z.shiftl hi 4) lo) else None)
     else ret None);
  match esc with
  | Some byte => if byte =? 0 then ret (i + 3, j) else do! wr j byte; ret (i + 3, j + 1)
  | None =>
      if c =? chr "+" then do! wr j (chr " "); ret (i + 1, j + 1)
      else do! wr j c; ret (i + 1, j + 1)
  end.

Definition encoding_urldecode (s : option (list Z)) : res (option (list Z)) :=
  match s with
  | None => Ok None
  | Some s =>
      with_str (u64 (zlen s + 1))
        (do j <- iter (S (length s))
           (fun '(i, j) =>
              if i <? zlen s then do ij <- urldecode_step s i j; ret (inl ij)
              else ret (inr j)) (0, 0);
         wr j 0)
  end.

End Alloc.

(** ** Examples *)

Definition malloc_aa (n : Z) : option (list Z) := Some (replicate (Z.to_nat n) 0xaa).

Example b64_foob :
  encoding_b64encode malloc_aa (bytes_of "foob") = Ok (Some (bytes_of "Zm9vYg==")).
Proof. vm_compute. reflexivity. Qed.
Example b32_foob :
  encoding_base32_encode malloc_aa (bytes_of "foob") = Ok (Some (bytes_of "MZXW6YQ=")).
Proof. vm_compute. reflexivity. Qed.
Example b64_back : encoding_b64decode malloc_aa (Some (bytes_of "Zm9vYg==")) = Ok (Some (bytes_of "foob")).
Proof. vm_compute. reflexivity. Qed.
Example b32_back : encoding_base32_decode malloc_aa (Some (bytes_of "MZXW6YQ=")) = Ok (inr (bytes_of "foob")).
Proof. vm_compute. reflexivity. Qed.
Example hex_foo : encoding_hexencode malloc_aa (bytes_of "foo") = Ok (Some (bytes_of "666f6f")).
Proof. vm_compute. reflexivity. Qed.
Example url_ab : encoding_urlencode malloc_aa (Some (bytes_of "a b+c")) = Ok (Some (bytes_of "a%20b%2bc")).
Proof. vm_compute. reflexivity. Qed.
Example url_back : encoding_urldecode malloc_aa (Some (bytes_of "a%20b%2Bc+%zz%00")) = Ok (Some (bytes_of "a b+c %zz")).
Proof. vm_compute. reflexivity. Qed.
Example utf8_euro : encoding_utf8_validate [0xe2; 0x82; 0xac; 0x41] = Ok true.
Proof. vm_compute. reflexivity. Qed.
