(* ===== verification/EncBase.v ===== *)
(** * Bits and digits; base64 and base32 as RFC 4648 has them *)

From Stdlib Require Import ZArith Lia String Ascii.
From stdpp Require Import base tactics list.
From S2P Require Import Prelude Encoding.
Open Scope Z_scope.

(** * Numbers as strings of bits, and arrays that fill up

    The vocabulary of the proofs on [Encoding]: the [n] low bits of a number,
    the most significant first; the numbers of a width that a string of bits
    spells; an array whose first cells are written. *)

(** ** Bits *)

Fixpoint bits (n : nat) (x : Z) : list bool :=
  match n with
  | O => []
  | S n => Z.testbit x (Z.of_nat n) :: bits n x
  end.

(** The bits of the words of a list. *)
Definition spell (w : nat) (l : list Z) : list bool := concat (map (bits w) l).

Lemma bits_length n x : length (bits n x) = n.
Proof. induction n; simpl; congruence. Qed.

Lemma spell_length w l : length (spell w l) = (w * length l)%nat.
Proof.
  induction l as [|x l IH]; [simpl; lia|]. unfold spell in *. simpl.
  rewrite length_app, bits_length, IH. lia.
Qed.

Lemma spell_app w l k : spell w (l ++ k) = spell w l ++ spell w k.
Proof. unfold spell. by rewrite map_app, concat_app. Qed.

Lemma spell_cons w x l : spell w (x :: l) = bits w x ++ spell w l.
Proof. done. Qed.

Lemma bits_ext n x y :
  (forall i, 0 <= i < Z.of_nat n -> Z.testbit x i = Z.testbit y i) -> bits n x = bits n y.
Proof.
  induction n as [|n IH]; intros H; [done|]. simpl. rewrite H by lia. f_equal. apply IH.
  intros. apply H. lia.
Qed.

Lemma bits_app m n x : bits (m + n) x = bits m (Z.shiftr x (Z.of_nat n)) ++ bits n x.
Proof.
  induction m as [|m IH]; [done|]. simpl. rewrite IH, Z.shiftr_spec by lia. do 2 f_equal. lia.
Qed.

(** A number of [n] bits is what its bits say. *)
Lemma bits_inj n x y :
  0 <= x < 2 ^ Z.of_nat n -> 0 <= y < 2 ^ Z.of_nat n -> bits n x = bits n y -> x = y.
Proof.
  intros Hx Hy H. apply Z.bits_inj'. intros i Hi.
  destruct (Z.lt_ge_cases i (Z.of_nat n)) as [Hl|Hl].
  - clear Hx Hy. revert i Hi Hl. induction n as [|n IH]; intros i Hi Hl; [lia|].
    simpl in H. injection H as H0 H1. destruct (decide (i = Z.of_nat n)) as [->|]; [done|].
    apply IH; [done|lia|lia].
  - assert (Hh : forall v, 0 <= v < 2 ^ Z.of_nat n -> Z.testbit v i = false).
    { intros v Hv. rewrite <- (Z.mod_small v (2 ^ Z.of_nat n)) by done.
      by apply Z.mod_pow2_bits_high; lia. }
    by rewrite !Hh.
Qed.

(** Words of one width are read off a string of bits in one way, whatever
    incomplete word is left. *)
Lemma spell_unique w (l k : list Z) r1 r2 :
  Forall (fun x => 0 <= x < 2 ^ Z.of_nat w) l -> Forall (fun x => 0 <= x < 2 ^ Z.of_nat w) k ->
  (length r1 < w)%nat -> (length r2 < w)%nat ->
  spell w l ++ r1 = spell w k ++ r2 -> l = k.
Proof.
  intros Hl Hk H1 H2. revert k Hk. induction Hl as [|x l Hx Hl IH]; intros k Hk H.
  - destruct Hk as [|y k]; [done|]. apply (f_equal length) in H. rewrite spell_cons in H.
    rewrite !length_app, bits_length in H. simpl in H. lia.
  - destruct Hk as [|y k Hy Hk].
    { apply (f_equal length) in H. rewrite spell_cons in H.
      rewrite !length_app, bits_length in H. simpl in H. lia. }
    rewrite !spell_cons, <- !app_assoc in H.
    apply app_inj_1 in H as [Hb Hr]; [|by rewrite !bits_length].
    f_equal; [by apply (bits_inj w)|auto].
Qed.

(** Masks, shifts and the wrap of the accumulator. *)
Lemma bits_land n x : bits n (Z.land x (Z.ones (Z.of_nat n))) = bits n x.
Proof.
  apply bits_ext. intros i Hi. rewrite Z.land_spec, Z.ones_spec_low by lia. apply andb_true_r.
Qed.

Lemma bits_mod n x k : Z.of_nat n <= k -> bits n (x mod 2 ^ k) = bits n x.
Proof. intros H. apply bits_ext. intros i Hi. by apply Z.mod_pow2_bits_low; lia. Qed.

Lemma shiftr_land_range x n : 0 <= n -> 0 <= Z.land x (Z.ones n) < 2 ^ n.
Proof. intros. rewrite Z.land_ones by done. apply Z.mod_pos_bound. lia. Qed.

(** [acc = (acc << w) | v] appends the bits of [v]. *)
Lemma bits_push r w k acc v :
  Z.of_nat (r + w) <= k -> 0 <= v < 2 ^ Z.of_nat w ->
  bits (r + w) (Z.lor (Z.shiftl acc (Z.of_nat w) mod 2 ^ k) v) = bits r acc ++ bits w v.
Proof.
  intros Hk Hv.
  assert (Hh : forall i, Z.of_nat w <= i -> Z.testbit v i = false).
  { intros i Hi. rewrite <- (Z.mod_small v (2 ^ Z.of_nat w)) by done.
    by apply Z.mod_pow2_bits_high; lia. }
  rewrite bits_app. f_equal; apply bits_ext; intros i Hi.
  - rewrite Z.shiftr_spec, Z.lor_spec, Z.mod_pow2_bits_low, Z.shiftl_spec, Hh, orb_false_r by lia.
    f_equal. lia.
  - rewrite Z.lor_spec, Z.mod_pow2_bits_low, Z.shiftl_spec_low by lia. done.
Qed.

(** ** Arrays that fill up *)

Definition filled (cap : Z) (l out : list Z) : Prop :=
  zlen out = cap /\ exists rest, out = l ++ rest.

Lemma filled_nil out : filled (zlen out) [] out.
Proof. split; [done|]. by exists out. Qed.

Lemma filled_len cap l out : filled cap l out -> zlen l <= cap.
Proof. intros [<- [rest ->]]. rewrite zlen_app. pose proof (zlen_nonneg rest). lia. Qed.

Lemma filled_put cap l out v :
  filled cap l out -> zlen l < cap -> filled cap (l ++ [v]) (<[Z.to_nat (zlen l) := v]> out).
Proof.
  intros [Hc [rest ->]] Hl. split; [unfold zlen in *; by rewrite length_insert|].
  destruct rest as [|x rest]; [rewrite zlen_app, zlen_nil in Hc; lia|].
  exists rest. unfold zlen. rewrite Nat2Z.id, <- (Nat.add_0_r (length l)) at 1.
  rewrite insert_app_r. by rewrite <- app_assoc.
Qed.

Lemma wp_wr cap l j v (Q : unit -> list Z -> Prop) out :
  filled cap l out -> j = zlen l -> j < cap ->
  (forall out', filled cap (l ++ [v]) out' -> Q tt out') -> wp (wr j v) Q out.
Proof.
  intros Hf -> Hj HQ. unfold wr. wp_step. wp_step. destruct Hf as [Hc Hr].
  pose proof (zlen_nonneg l). rewrite (proj2 (Z.leb_le _ _)), (proj2 (Z.ltb_lt _ _)) by lia. cbn [andb].
  wp_step. apply HQ, filled_put; [by split|done].
Qed.

(** A cell that is written again. *)
Lemma wp_wr_again cap l j v (Q : unit -> list Z -> Prop) out :
  filled cap l out -> 0 <= j < zlen l ->
  (forall out', filled cap (<[Z.to_nat j := v]> l) out' -> Q tt out') -> wp (wr j v) Q out.
Proof.
  intros Hf Hj HQ. pose proof (filled_len _ _ _ Hf). unfold wr. wp_step. wp_step.
  destruct Hf as [Hc [rest ->]]. rewrite (proj2 (Z.leb_le _ _)), (proj2 (Z.ltb_lt _ _)) by lia. cbn [andb].
  wp_step. apply HQ. split; [unfold zlen in *; by rewrite length_insert|]. exists rest.
  apply insert_app_l. unfold zlen in *. lia.
Qed.

(** A string is read back up to its terminator. *)
Lemma filled_str cap l out :
  filled cap (l ++ [0]) out -> Forall (fun c => c <> 0) l -> c_str out = Ok l.
Proof.
  intros [_ [rest ->]] Hl. unfold c_str. rewrite <- app_assoc. simpl.
  rewrite existsb_app. simpl. rewrite orb_true_r. f_equal.
  induction Hl as [|c l Hc Hl IH]; [done|]. simpl. rewrite (proj2 (Z.eqb_neq c 0)) by done. by rewrite IH.
Qed.

Lemma filled_bytes cap l out : filled cap l out -> c_bytes out (zlen l) = Ok l.
Proof.
  intros Hf. pose proof (filled_len _ _ _ Hf) as Hl. destruct Hf as [Hc [rest ->]].
  unfold c_bytes. pose proof (zlen_nonneg l). rewrite !(proj2 (Z.leb_le _ _)) by lia.
  f_equal. unfold zlen. by rewrite Nat2Z.id, take_app_length.
Qed.

(** What [malloc] does while there is memory: an array of the size asked for. *)
Definition malloc_ok (malloc : Z -> option (list Z)) : Prop :=
  forall n, 0 <= n -> exists out, malloc n = Some out /\ zlen out = n.

Lemma malloc_aa_ok : malloc_ok malloc_aa.
Proof. intros n Hn. eexists. split; [done|]. unfold zlen. rewrite length_replicate. lia. Qed.

Section Alloc.
Context (malloc : Z -> option (list Z)) (Hm : malloc_ok malloc).

Lemma with_str_ok n m (P : list Z -> Prop) :
  0 <= n ->
  (forall out, filled n [] out -> wp m (fun _ out =>
     exists l, filled n (l ++ [0]) out /\ Forall (fun c => c <> 0) l /\ P l) out) ->
  exists l, with_str malloc n m = Ok (Some l) /\ P l.
Proof.
  intros Hn Hw. unfold with_str. destruct (Hm n Hn) as (out & -> & <-).
  specialize (Hw out (filled_nil out)). unfold wp in Hw.
  destruct (m out) as [[u out']| |]; [|done..]. destruct Hw as (l & Hf & Hl & HP).
  exists l. by rewrite (filled_str _ _ _ Hf).
Qed.

Lemma with_bytes_ok n (m : Out (option Z)) (P : option (list Z) -> Prop) :
  0 <= n ->
  (forall out, filled n [] out -> wp m (fun r out =>
     match r with
     | Some j => exists l, j = zlen l /\ filled n l out /\ P (Some l)
     | None => P None
     end) out) ->
  exists o, with_bytes malloc n m = Ok o /\ P o.
Proof.
  intros Hn Hw. unfold with_bytes. destruct (Hm n Hn) as (out & -> & <-).
  specialize (Hw out (filled_nil out)). unfold wp in Hw.
  destruct (m out) as [[[j|] out']| |]; [|by eexists|done..].
  destruct Hw as (l & -> & Hf & HP). exists (Some l). by rewrite (filled_bytes _ _ _ Hf).
Qed.

End Alloc.

(** ** Loops *)

(** [for_to] with an invariant on the index. *)
Lemma wp_for_to {S} (I : Z -> S -> Prop) n i (f : Z -> M S unit) (Q : unit -> S -> Prop) s :
  I i s -> (forall k s, i <= k < i + Z.of_nat n -> I k s -> wp (f k) (fun _ s' => I (k + 1) s') s) ->
  (forall s, I (i + Z.of_nat n) s -> Q tt s) -> wp (for_to n i f) Q s.
Proof.
  revert i s. induction n as [|n IH]; intros i s Hi Hf HQ; simpl.
  - wp_step. apply HQ. by rewrite Z.add_0_r.
  - wp_step. eapply wp_conseq; [apply Hf; [lia|done]|]. intros [] s' Hs'. apply IH; [done|..].
    + intros k s2 Hk. apply Hf. lia.
    + intros s2 H2. apply HQ. replace (i + _) with (i + 1 + Z.of_nat n) by lia. done.
Qed.

(** The next byte of what is left to read. *)
Lemma zlen_snoc {X} (l : list X) x : zlen (l ++ [x]) = zlen l + 1.
Proof. rewrite zlen_app, zlen_cons, zlen_nil. lia. Qed.

Lemma zlen_map {X Y} (f : X -> Y) l : zlen (map f l) = zlen l.
Proof. unfold zlen. by rewrite length_map. Qed.

(** Lengths of explicit lists. *)
Ltac zlens := rewrite ?zlen_map, ?zlen_app, ?zlen_map, ?zlen_app, ?zlen_cons, ?zlen_nil; lia.

Lemma byte_at_mid (pre : list Z) x l : byte_at (pre ++ x :: l) (zlen pre) = x.
Proof. unfold byte_at, zlen. rewrite Nat2Z.id, app_nth2, Nat.sub_diag by lia. done. Qed.

Lemma wp_rd_mid {S} (pre : list Z) x l i (Q : Z -> S -> Prop) s :
  i = zlen pre -> Q x s -> wp (rd (pre ++ x :: l) i) Q s.
Proof.
  intros -> HQ. wp_step; [|by rewrite byte_at_mid].
  rewrite zlen_app, zlen_cons. pose proof (zlen_nonneg pre). pose proof (zlen_nonneg l). lia.
Qed.

(** * Base64 and base32

    The encoders compute what RFC 4648 says, and the decoders read off the bits
    that the characters spell. *)

Definition byte (v : Z) : Prop := 0 <= v < 2 ^ Z.of_nat 8.
Definition word (w : nat) (v : Z) : Prop := 0 <= v < 2 ^ Z.of_nat w.

(** ** RFC 4648

    The bits of the data, filled up with zeros to a multiple of [w], are read
    off in words of [w] bits, written in the alphabet, and the characters are
    filled up with [=] to a multiple of [block]. *)
Inductive rfc4648 (w block : nat) (alpha : list Z) (pad : bool) (data : list Z) : list Z -> Prop :=
  rfc4648_intro vals zeros pads :
    Forall (word w) vals ->
    spell w vals = spell 8 data ++ replicate zeros false -> (zeros < w)%nat ->
    (pads < block)%nat ->
    (if pad then ((length vals + pads) mod block = 0)%nat else pads = 0%nat) ->
    rfc4648 w block alpha pad data (map (byte_at alpha) vals ++ replicate pads (chr "=")).

(** The characters of an encoding are of the alphabet, or padding. *)
Lemma rfc_chars (P : Z -> Prop) w block alpha pad data out :
  zlen alpha = 2 ^ Z.of_nat w -> Forall P alpha -> P (chr "=") ->
  rfc4648 w block alpha pad data out -> Forall P out.
Proof.
  intros Ha HP Heq [vals zeros pads Hw _ _ _ _]. apply Forall_app. split.
  - apply List.Forall_map. eapply Forall_impl; [exact Hw|]. intros v [? ?].
    rewrite Forall_forall in HP. apply HP. unfold byte_at, zlen in *.
    apply list_elem_of_In, nth_In. lia.
  - by apply Forall_replicate.
Qed.

(** ** Pieces of bytes *)

Lemma bits_glue r w a v :
  word w v -> bits (r + w) (Z.lor (Z.shiftl a (Z.of_nat w)) v) = bits r a ++ bits w v.
Proof.
  intros Hv. rewrite bits_app. f_equal; apply bits_ext; intros i Hi.
  - rewrite Z.shiftr_spec, Z.lor_spec, Z.shiftl_spec by lia.
    rewrite <- (Z.mod_small v (2 ^ Z.of_nat w)), Z.mod_pow2_bits_high, orb_false_r by (done || lia).
    f_equal. lia.
  - by rewrite Z.lor_spec, Z.shiftl_spec_low by lia.
Qed.

Lemma shift_word v m n : word (m + n) v -> word m (Z.shiftr v (Z.of_nat n)).
Proof.
  unfold word. intros Hv. rewrite Z.shiftr_div_pow2 by lia.
  rewrite Nat2Z.inj_add, Z.pow_add_r in Hv by lia.
  split; [apply Z.div_pos; lia|]. apply Z.div_lt_upper_bound; lia.
Qed.

(** [bits 6 (x & 0x3f)] and the like. *)
Lemma bits6 x : bits 6 (Z.land x 0x3f) = bits 6 x.
Proof. apply (bits_land 6). Qed.

Lemma word6 x : word 6 (Z.land x 0x3f).
Proof. apply (shiftr_land_range x 6). lia. Qed.

Lemma bits_zeros r w a : bits (r + w) (Z.shiftl a (Z.of_nat w)) = bits r a ++ replicate w false.
Proof.
  rewrite <- (Z.lor_0_r (Z.shiftl _ _)), bits_glue by (split; [done|apply Z.pow_pos_nonneg; lia]).
  f_equal. clear. induction w as [|w IH]; [done|]. simpl. by rewrite Z.testbit_0_l, IH.
Qed.

(** The three ways to cut a byte. *)
Lemma cut62 a : bits 8 a = bits 6 (Z.shiftr a 2) ++ bits 2 a.
Proof. apply (bits_app 6 2). Qed.
Lemma cut44 a : bits 8 a = bits 4 (Z.shiftr a 4) ++ bits 4 a.
Proof. apply (bits_app 4 4). Qed.
Lemma cut26 a : bits 8 a = bits 2 (Z.shiftr a 6) ++ bits 6 a.
Proof. apply (bits_app 2 6). Qed.

(** The two ways to fill a word up with zeros, and to join two pieces. *)
Lemma fill24 a : bits 6 (Z.shiftl a 4) = bits 2 a ++ replicate 4 false.
Proof. apply (bits_zeros 2 4). Qed.
Lemma fill42 a : bits 6 (Z.shiftl a 2) = bits 4 a ++ replicate 2 false.
Proof. apply (bits_zeros 4 2). Qed.
Lemma join24 a b :
  byte b -> bits 6 (Z.lor (Z.shiftl a 4) (Z.shiftr b 4)) = bits 2 a ++ bits 4 (Z.shiftr b 4).
Proof. intros Hb. by apply (bits_glue 2 4), (shift_word b 4 4). Qed.
Lemma join42 a b :
  byte b -> bits 6 (Z.lor (Z.shiftl a 2) (Z.shiftr b 6)) = bits 4 a ++ bits 2 (Z.shiftr b 6).
Proof. intros Hb. by apply (bits_glue 4 2), (shift_word b 2 6). Qed.

Definition group1 (a : Z) : list Z := [Z.land (Z.shiftr a 2) 0x3f; Z.land (Z.shiftl a 4) 0x3f].
Definition group2 (a b : Z) : list Z :=
  [Z.land (Z.shiftr a 2) 0x3f; Z.land (Z.lor (Z.shiftl a 4) (Z.shiftr b 4)) 0x3f;
   Z.land (Z.shiftl b 2) 0x3f].
Definition group3 (a b c : Z) : list Z :=
  [Z.land (Z.shiftr a 2) 0x3f; Z.land (Z.lor (Z.shiftl a 4) (Z.shiftr b 4)) 0x3f;
   Z.land (Z.lor (Z.shiftl b 2) (Z.shiftr c 6)) 0x3f; Z.land c 0x3f].

Lemma group_words a b c :
  Forall (word 6) (group1 a) /\ Forall (word 6) (group2 a b) /\ Forall (word 6) (group3 a b c).
Proof. split_and!; repeat constructor; apply word6. Qed.

Ltac spells :=
  rewrite !spell_cons; change (spell _ []) with (@nil bool);
  rewrite ?bits6, ?join24, ?join42, ?fill24, ?fill42 by done;
  rewrite ?app_nil_r, <- ?app_assoc.

Lemma spell_group1 a : spell 6 (group1 a) = spell 8 [a] ++ replicate 4 false.
Proof. unfold group1. spells. by rewrite cut62, <- app_assoc. Qed.

Lemma spell_group2 a b :
  byte b -> spell 6 (group2 a b) = spell 8 [a; b] ++ replicate 2 false.
Proof. intros Hb. unfold group2. spells. by rewrite (cut62 a), (cut44 b), <- !app_assoc. Qed.

Lemma spell_group3 a b c :
  byte b -> byte c -> spell 6 (group3 a b c) = spell 8 [a; b; c].
Proof.
  intros Hb Hc. unfold group3. spells. by rewrite (cut62 a), (cut44 b), (cut26 c), <- !app_assoc.
Qed.

(** ** The base64 encoder *)

Section Enc64.
Context (alpha : list Z) (Halpha : zlen alpha = 64).

Lemma wp_b64_put cap vals j v (Q : unit -> list Z -> Prop) out :
  filled cap (map (byte_at alpha) vals) out -> j = zlen vals -> j < cap ->
  (forall out', filled cap (map (byte_at alpha) (vals ++ [Z.land v 0x3f])) out' -> Q tt out') ->
  wp (b64_put alpha j v) Q out.
Proof.
  intros Hf Hj Hc HQ. unfold b64_put. wp_step.
  pose proof (word6 v) as [H0 H1]. change (2 ^ Z.of_nat 6) with 64 in H1. apply wp_rd; [lia|].
  apply (wp_wr cap (map (byte_at alpha) vals)); [done| |done|].
  - subst. unfold zlen. by rewrite length_map.
  - intros out' Hf'. apply HQ. by rewrite map_app.
Qed.

(** The values written for the first [3 * k] bytes. *)
Definition enc64_inv (data : list Z) (cap : Z) (ij : Z * Z) (out : list Z) : Prop :=
  exists k pre rest vals, data = pre ++ rest /\ ij.1 = zlen pre /\ ij.2 = zlen vals /\
    zlen pre = 3 * k /\ zlen vals = 4 * k /\ Forall (word 6) vals /\ spell 6 vals = spell 8 pre /\
    filled cap (map (byte_at alpha) vals) out.

(** Write one value after another. *)
Ltac puts Hf :=
  wp_step; eapply wp_b64_put; [exact Hf|zlens|lia|];
  clear Hf; intros ? Hf; rewrite <- ?app_assoc in Hf; cbn [app] in Hf.

Lemma wp_b64_groups data cap out :
  Forall byte data -> filled cap [] out -> 4 * ((zlen data + 2) / 3) < cap ->
  wp (b64_groups data alpha)
    (fun ij out => enc64_inv data cap ij out /\ zlen data <= ij.1 + 2) out.
Proof.
  intros Hb Hf Hcap. unfold b64_groups.
  apply (wp_iter (enc64_inv data cap) (fun ij _ => Z.to_nat (zlen data - ij.1))).
  - exists 0, [], data, []. by split_and!.
  - cbn [fst]. unfold zlen. lia.
  - clear out Hf. intros [i j] out (k & pre & rest & vals & -> & Hi & Hj & H3 & H4 & Hw & Hs & Hf).
    cbn [fst snd] in *. subst i j. rewrite Forall_app in Hb. destruct Hb as [_ Hb].
    rewrite zlen_app in *. destruct (_ <? _) eqn:E; zb.
    2: { wp_step. split; [|cbn [fst]; lia]. exists k, pre, rest, vals. by split_and!. }
    destruct rest as [|a [|b [|c rest]]]; rewrite ?zlen_cons, ?zlen_nil in *; try lia.
    pose proof (zlen_nonneg rest). rewrite !Forall_cons in Hb. destruct Hb as (Ha & Hb & Hc & Hr).
    assert (k + 1 <= (zlen pre + (1 + (1 + (1 + zlen rest))) + 2) / 3)
      by (apply Z.div_le_lower_bound; lia).
    wp_step. apply wp_rd_mid; [done|].
    rewrite (cons_middle a pre), app_assoc. wp_step. apply wp_rd_mid; [by rewrite zlen_snoc|].
    rewrite (cons_middle b (pre ++ [a])), app_assoc. wp_step.
    apply wp_rd_mid; [rewrite !zlen_snoc; lia|].
    puts Hf. puts Hf. puts Hf. puts Hf. wp_step. split.
    + exists (k + 1), (pre ++ [a; b; c]), rest, (vals ++ group3 a b c).
      rewrite !spell_app, Hs, spell_group3 by done. rewrite !zlen_app.
      change (zlen (group3 a b c)) with 4. change (zlen [a; b; c]) with 3.
      split_and!; try done; try (cbn [fst snd]; lia).
      * by rewrite <- !app_assoc.
      * apply Forall_app. split; [done|]. apply group_words.
    + cbn [fst]. lia.
Qed.

(** The characters for the first bytes, and the last ones with their padding. *)
Lemma rfc_tail (pad : bool) pre vals last vs zeros pads :
  zlen vals mod 4 = 0 -> Forall (word 6) vals -> spell 6 vals = spell 8 pre ->
  Forall (word 6) vs -> spell 6 vs = spell 8 last ++ replicate zeros false ->
  (zeros < 6)%nat -> (pads < 4)%nat ->
  (if pad then ((length vs + pads) mod 4 = 0)%nat else pads = 0%nat) ->
  rfc4648 6 4 alpha pad (pre ++ last)
    (map (byte_at alpha) (vals ++ vs) ++ replicate pads (chr "=")).
Proof.
  intros H4 Hw Hs Hv Hl Hz Hp Hpad. apply (rfc4648_intro _ _ _ _ _ _ zeros); try done.
  - by apply Forall_app.
  - by rewrite !spell_app, Hs, Hl, app_assoc.
  - destruct pad; [|done]. rewrite length_app, <- Nat.add_assoc.
    assert (length vals mod 4 = 0)%nat as H.
    { apply Nat2Z.inj. rewrite Nat2Z.inj_mod. exact H4. }
    rewrite Nat.Div0.add_mod, H, Hpad. done.
Qed.

Ltac pads Hf :=
  wp_step; eapply wp_wr; [exact Hf|zlens|lia|];
  clear Hf; intros ? Hf; rewrite <- ?app_assoc in Hf; cbn [app] in Hf.

Lemma wp_b64_tail data cap pad i j out :
  Forall byte data -> enc64_inv data cap (i, j) out -> zlen data <= i + 2 ->
  4 * ((zlen data + 2) / 3) < cap ->
  wp (b64_tail data alpha pad i j)
    (fun j out => exists s, j = zlen s /\ zlen s < cap /\ filled cap s out /\ rfc4648 6 4 alpha pad data s) out.
Proof.
  intros Hb (k & pre & rest & vals & -> & Hi & Hj & H3 & H4 & Hw & Hs & Hf) Hl Hcap.
  cbn [fst snd] in *. subst i j. rewrite Forall_app in Hb. destruct Hb as [_ Hb].
  rewrite zlen_app in *. assert (Hm : zlen vals mod 4 = 0).
  { rewrite H4, Z.mul_comm. apply Z.mod_mul. lia. }
  unfold b64_tail. rewrite !zlen_app.
  destruct rest as [|a [|b [|c rest]]]; rewrite ?zlen_cons, ?zlen_nil in *;
    [| | |pose proof (zlen_nonneg rest); lia].
  - assert (k <= (zlen pre + 0 + 2) / 3) by (apply Z.div_le_lower_bound; lia).
    do 2 (destruct (_ =? _) eqn:?; zb; [lia|]). wp_step. exists (map (byte_at alpha) vals).
    split_and!; [by rewrite zlen_map|rewrite zlen_map; lia|done|].
    pose proof (rfc_tail pad pre vals [] [] 0 0 Hm Hw Hs) as R. cbn [replicate] in R.
    rewrite ?app_nil_r in R. rewrite app_nil_r. apply R; [done|done|lia|lia|by destruct pad].
  - assert (k + 1 <= (zlen pre + (1 + 0) + 2) / 3) by (apply Z.div_le_lower_bound; lia).
    destruct (_ =? _) eqn:?; zb; [|lia].
    wp_step. apply wp_rd_mid; [done|]. puts Hf. puts Hf.
    pose proof (fun n => rfc_tail pad pre vals [a] (group1 a) 4 n Hm Hw Hs
      (proj1 (group_words a a a)) (spell_group1 a) ltac:(lia)) as R. destruct pad.
    + pads Hf. pads Hf.
      wp_step. eexists. split_and!; [| |exact Hf|]; [zlens|zlens|].
      apply (R 2%nat); [lia|done].
    + wp_step. eexists. split_and!; [| |exact Hf|]; [zlens|zlens|].
      specialize (R 0%nat ltac:(lia) eq_refl). by rewrite app_nil_r in R.
  - assert (k + 1 <= (zlen pre + (1 + (1 + 0)) + 2) / 3) by (apply Z.div_le_lower_bound; lia).
    rewrite Forall_cons, Forall_singleton in Hb. destruct Hb as [_ Hb].
    destruct (_ =? _) eqn:?; zb; [lia|]. destruct (_ =? _) eqn:?; zb; [|lia].
    wp_step. apply wp_rd_mid; [done|].
    rewrite (cons_middle a pre), app_assoc. wp_step. apply wp_rd_mid; [by rewrite zlen_snoc|].
    rewrite <- app_assoc. cbn [app]. puts Hf. puts Hf. puts Hf.
    pose proof (fun n => rfc_tail pad pre vals [a; b] (group2 a b) 2 n Hm Hw Hs
      (proj1 (proj2 (group_words a b a))) (spell_group2 a b Hb) ltac:(lia)) as R. destruct pad.
    + pads Hf.
      wp_step. eexists. split_and!; [| |exact Hf|]; [zlens|zlens|].
      apply (R 1%nat); [lia|done].
    + wp_step. eexists. split_and!; [| |exact Hf|]; [zlens|zlens|].
      specialize (R 0%nat ltac:(lia) eq_refl). by rewrite app_nil_r in R.
Qed.

Lemma b64_encode_ok malloc data pad :
  malloc_ok malloc -> Forall (fun c => c <> 0) alpha -> Forall byte data -> zlen data < 2 ^ 61 ->
  exists out, b64_encode_impl malloc data alpha pad = Ok (Some out) /\
    rfc4648 6 4 alpha pad data out.
Proof.
  intros Hm Hz Hb Hn. pose proof (zlen_nonneg data) as H0.
  assert (Hd : 0 <= (zlen data + 2) / 3 <= zlen data + 2)
    by (split; [apply Z.div_pos; lia|apply Z.div_le_upper_bound; lia]).
  unfold b64_encode_impl, u64.
  rewrite (Z.mod_small (zlen data + 2)), (Z.mod_small (_ * 4)), Z.mod_small by lia.
  apply with_str_ok; [done|lia|]. intros out Hf. wp_step.
  eapply wp_conseq; [apply (wp_b64_groups _ _ _ Hb Hf); lia|]. intros [i j] out1 [Hinv Hi].
  cbn [fst] in Hi. wp_step. eapply wp_conseq; [apply (wp_b64_tail _ _ pad _ _ _ Hb Hinv Hi); lia|].
  cbn beta. intros j' out2 (s & -> & Hfit & Hs & R).
  assert (Hc : Forall (fun c => c <> 0) s) by by apply (rfc_chars _ 6 4 alpha pad data).
  eapply wp_wr; [exact Hs|done|lia|]. intros out3 Hf3. by exists s.
Qed.

End Enc64.
