(* ===== verification/EncDecode.v ===== *)
(** * Base32, base64, hexadecimal and percent-encoding *)

From Stdlib Require Import ZArith Lia String Ascii.
From stdpp Require Import base tactics list.
From S2P Require Import Prelude Encoding EncBase.
Open Scope Z_scope.

(** * The base32 encoder, and the base32 and base64 decoders *)

(** * The base32 encoder

    Five bytes at a time go through an accumulator of 40 bits; the characters
    that no byte reaches are overwritten by padding. *)

(** ** The accumulator *)

Lemma wp_b32_load data k pre rest acc pad (out : list Z) :
  Forall byte data -> data = pre ++ rest ->
  wp (b32_load data k (zlen pre) acc pad)
    (fun r out' => out' = out /\
       let c := take k rest in
       r.1.1 = zlen pre + zlen c /\ r.2 = pad + (Z.of_nat k - zlen c) /\
       forall n, (n + 8 * k <= 64)%nat ->
         bits (n + 8 * k) r.1.2 =
           bits n acc ++ spell 8 c ++ replicate (8 * (k - length c)) false) out.
Proof.
  intros Hb. revert pre rest acc pad.
  induction k as [|k IH]; intros pre rest acc pad Hd; cbn [b32_load].
  { wp_step. cbv zeta. change (take 0 rest) with (@nil Z). cbn [fst snd]. rewrite zlen_nil. split_and!; [done|lia|lia|]. intros n _.
    by rewrite Nat.add_0_r, app_nil_r. }
  destruct rest as [|b rest].
  - rewrite (proj2 (Z.ltb_ge _ _)) by (subst; rewrite app_nil_r; lia).
    eapply wp_conseq; [by apply IH|]. intros [[i acc'] pad'] out' (-> & Hi & Hp & Hs).
    rewrite take_nil in *. cbn [fst snd] in *. split_and!; [done|done|rewrite zlen_nil in *; lia|].
    intros n Hn. specialize (Hs (n + 8)%nat ltac:(lia)).
    replace (n + 8 * S k)%nat with (n + 8 + 8 * k)%nat by lia. rewrite Hs.
    unfold u64. rewrite <- (Z.lor_0_r (_ mod _)), (bits_push n 8) by lia.
    change (bits 8 0) with (replicate 8 false). rewrite <- app_assoc. f_equal. simpl length.
    change (spell 8 []) with (@nil bool). rewrite !Nat.sub_0_r, !app_nil_l, <- replicate_add.
    f_equal. lia.
  - subst data. rewrite Forall_app, Forall_cons in Hb. destruct Hb as (Hpre & Hbb & Hrest).
    rewrite (proj2 (Z.ltb_lt _ _)) by (rewrite zlen_app, zlen_cons; pose proof (zlen_nonneg rest); lia).
    wp_step. apply wp_rd_mid; [done|].
    rewrite <- (zlen_snoc pre b).
    eapply wp_conseq; [apply (IH (pre ++ [b]) rest); by rewrite <- app_assoc|].
    intros [[i acc'] pad'] out' (-> & Hi & Hp & Hs). cbn [fst snd take] in *.
    rewrite zlen_snoc, ?zlen_cons in *. split_and!; [done|lia|lia|].
    intros n Hn. specialize (Hs (n + 8)%nat ltac:(lia)).
    replace (n + 8 * S k)%nat with (n + 8 + 8 * k)%nat by lia. rewrite Hs.
    unfold u64. rewrite (bits_push n 8) by (done || lia).
    by rewrite spell_cons, <- !app_assoc.
Qed.

(** ** The eight values *)

Definition b32_vals (acc : Z) : list Z :=
  map (fun s => Z.land (Z.shiftr acc s) 0x1f) [35; 30; 25; 20; 15; 10; 5; 0].

Lemma b32_vals_words acc : Forall (word 5) (b32_vals acc).
Proof. repeat constructor; apply (shiftr_land_range _ 5); lia. Qed.

Lemma spell_b32_vals acc : spell 5 (b32_vals acc) = bits 40 acc.
Proof.
  rewrite (bits_app 5 35), (bits_app 5 30), (bits_app 5 25), (bits_app 5 20), (bits_app 5 15),
    (bits_app 5 10), (bits_app 5 5).
  unfold b32_vals. cbn [map]. rewrite !spell_cons. change (spell _ []) with (@nil bool).
  change 0x1f with (Z.ones (Z.of_nat 5)). by rewrite !bits_land, Z.shiftr_0_r, app_nil_r.
Qed.

(** The first values spell the first bits. *)
Lemma spell_take w n l : spell w (take n l) = take (w * n) (spell w l).
Proof.
  revert n. induction l as [|x l IH]; intros n; [unfold spell; cbn [map concat]; by rewrite !take_nil|].
  destruct n as [|n]; [by rewrite Nat.mul_0_r|]. cbn [take]. rewrite !spell_cons, IH.
  rewrite Nat.mul_succ_r, Nat.add_comm, <- take_take_drop.
  rewrite take_app_length', drop_app_length' by by rewrite bits_length. done.
Qed.

(** ** The loop *)

Lemma b32_alpha_len : zlen B32_ALPHA = 2 ^ Z.of_nat 5.
Proof. done. Qed.

Lemma b32_alpha_nonzero : Forall (fun c => c <> 0) B32_ALPHA.
Proof. repeat constructor; done. Qed.

(** The last characters give way to padding. *)
Lemma wp_b32_pads cap s cs j pc out :
  filled cap (s ++ cs) out -> j = zlen s -> length cs = 8%nat -> (pc < 8)%nat ->
  wp (for_to pc 0 (fun n => wr (j + 7 - n) (chr "=")))
    (fun _ out => filled cap (s ++ take (8 - pc) cs ++ replicate pc (chr "=")) out) out.
Proof.
  intros Hf -> Hl Hpc.
  apply (wp_for_to (fun n out => filled cap
    (s ++ take (8 - Z.to_nat n) cs ++ replicate (Z.to_nat n) (chr "=")) out)).
  - by rewrite (take_ge cs), app_nil_r by lia.
  - intros n out' Hn Hf'. pose proof (zlen_nonneg s).
    assert (Ht : length (take (8 - Z.to_nat n) cs) = (8 - Z.to_nat n)%nat)
      by (rewrite length_take; lia).
    eapply wp_wr_again; [exact Hf'| |].
    { rewrite !zlen_app. unfold zlen at 4 5. rewrite Ht, length_replicate. lia. }
    intros out2 Hf2. replace (Z.to_nat (zlen s + 7 - n)) with (length s + (7 - Z.to_nat n))%nat in Hf2
      by (unfold zlen; lia).
    rewrite insert_app_r, insert_app_l in Hf2 by lia.
    replace (Z.to_nat (n + 1)) with (S (Z.to_nat n)) by lia.
    replace (8 - Z.to_nat n)%nat with (S (7 - Z.to_nat n)) in Hf2 by lia.
    replace (8 - S (Z.to_nat n))%nat with (7 - Z.to_nat n)%nat by lia.
    destruct (lookup_lt_is_Some_2 cs (7 - Z.to_nat n)) as [x Hx]; [lia|].
    rewrite (take_S_r cs _ x Hx), insert_app_r_alt, <- app_assoc in Hf2
      by (rewrite length_take; lia).
    rewrite length_take, Nat.min_l, Nat.sub_diag in Hf2 by lia. exact Hf2.
  - intros out' Hf'. by rewrite Z.add_0_l, Nat2Z.id in Hf'.
Qed.

Lemma wp_b32_put cap s acc j n sh (Q : unit -> list Z -> Prop) out :
  filled cap s out -> j + n = zlen s -> j + n < cap ->
  (forall out', filled cap (s ++ [byte_at B32_ALPHA (Z.land (Z.shiftr acc sh) 0x1f)]) out' ->
     Q tt out') ->
  wp (b32_put acc j n sh) Q out.
Proof.
  intros Hf Hj Hc HQ. unfold b32_put. wp_step.
  pose proof (shiftr_land_range (Z.shiftr acc sh) 5 ltac:(lia)) as [H0 H1].
  apply wp_rd; [exact (conj H0 H1)|]. by apply (wp_wr cap s).
Qed.

(** Every group written, and the last one padded. *)
Definition b32_inv (data : list Z) (cap : Z) (ij : Z * Z) (out : list Z) : Prop :=
  exists k s pre rest, data = pre ++ rest /\ ij.1 = zlen pre /\ ij.2 = 8 * k /\ zlen s = 8 * k /\
    8 * k < cap /\ filled cap s out /\
    ((zlen pre = 5 * k /\ exists vals, s = map (byte_at B32_ALPHA) vals /\
        Forall (word 5) vals /\ spell 5 vals = spell 8 pre) \/
     (rest = [] /\ rfc4648 5 8 B32_ALPHA true data s)).

Lemma pad_chars p :
  0 <= p <= 4 ->
  exists pc, byte_at PAD_CHARS p = Z.of_nat pc /\ (pc < 8)%nat /\
    exists zeros, (zeros < 5 /\ 5 * (8 - pc) = 8 * (5 - Z.to_nat p) + zeros)%nat.
Proof.
  intros Hp. assert (H : p = 0 \/ p = 1 \/ p = 2 \/ p = 3 \/ p = 4) by lia.
  destruct H as [->|[->|[->|[->| ->]]]];
    [exists 0%nat|exists 1%nat|exists 3%nat|exists 4%nat|exists 6%nat]; (split_and!; [done|lia|]);
    [exists 0%nat|exists 3%nat|exists 1%nat|exists 4%nat|exists 2%nat]; cbn; lia.
Qed.

(** A group is an encoding of its bytes behind the ones before. *)
Lemma b32_group_rfc pre vals c acc pc zeros :
  zlen vals mod 8 = 0 -> Forall (word 5) vals -> spell 5 vals = spell 8 pre ->
  bits 40 acc = spell 8 c ++ replicate (8 * (5 - length c)) false -> (length c <= 5)%nat ->
  (pc < 8)%nat -> (zeros < 5)%nat -> (5 * (8 - pc) = 8 * length c + zeros)%nat ->
  rfc4648 5 8 B32_ALPHA true (pre ++ c)
    (map (byte_at B32_ALPHA) vals ++ map (byte_at B32_ALPHA) (take (8 - pc) (b32_vals acc)) ++
     replicate pc (chr "=")).
Proof.
  intros H8 Hw Hs Hacc Hc Hpc Hz Hbits. rewrite app_assoc, <- map_app.
  apply (rfc4648_intro _ _ _ _ _ _ zeros); try done.
  - apply Forall_app. split; [done|]. apply Forall_take, b32_vals_words.
  - rewrite !spell_app, Hs, spell_take, spell_b32_vals, Hacc, Hbits, <- app_assoc. f_equal.
    rewrite take_app_ge by (rewrite spell_length; lia). f_equal.
    rewrite spell_length, Nat.add_comm, Nat.add_sub, take_replicate. f_equal. lia.
  - rewrite length_app, length_take. change (length (b32_vals acc)) with 8%nat.
    replace (length vals + (8 - pc) `min` 8 + pc)%nat with (length vals + 1 * 8)%nat by lia.
    rewrite Nat.Div0.mod_add. apply Nat2Z.inj. rewrite Nat2Z.inj_mod. exact H8.
Qed.

Ltac puts32 Hf :=
  wp_step; eapply wp_b32_put; [exact Hf|zlens|lia|];
  clear Hf; intros ? Hf; rewrite <- ?app_assoc in Hf; cbn [app] in Hf.

Lemma wp_b32_step data cap ij out :
  Forall byte data -> (zlen data + 4) / 5 * 8 < cap -> b32_inv data cap ij out ->
  ij.1 < zlen data ->
  wp (do '(i, acc, pad) <- b32_load data 5 ij.1 0 0;
      do! b32_put acc ij.2 0 35; do! b32_put acc ij.2 1 30;
      do! b32_put acc ij.2 2 25; do! b32_put acc ij.2 3 20;
      do! b32_put acc ij.2 4 15; do! b32_put acc ij.2 5 10;
      do! b32_put acc ij.2 6 5; do! b32_put acc ij.2 7 0;
      do pc <- rd PAD_CHARS pad;
      do! for_to (Z.to_nat pc) 0 (fun n => wr (ij.2 + 7 - n) (chr "="));
      ret (@inl _ Z (i, ij.2 + 8)))
    (fun r out => match r with
                  | inl ij' => b32_inv data cap ij' out /\ ij.1 < ij'.1
                  | inr _ => False
                  end) out.
Proof.
  intros Hb Hcap (k & s & pre & rest & -> & Hi & Hj & Hsl & Hk & Hf & Hcase) Hlt.
  destruct ij as [i j]. cbn [fst snd] in *. subst i j. rewrite zlen_app in *.
  destruct Hcase as [(H5 & vals & -> & Hw & Hs)|[-> _]]; [|rewrite zlen_nil in Hlt; lia].
  assert (8 * k + 8 < cap).
  { assert (k + 1 <= (zlen pre + zlen rest + 4) / 5) by (apply Z.div_le_lower_bound; lia). lia. }
  wp_step. eapply wp_conseq; [by apply (wp_b32_load _ 5 pre rest)|].
  intros [[i acc] pad] out' (-> & Hi' & Hp & Hacc). cbv zeta in *. cbn [fst snd] in *.
  set (c := take 5 rest) in *.
  assert (Hbits40 : bits 40 acc = spell 8 c ++ replicate (8 * (5 - length c)) false)
    by exact (Hacc 0%nat ltac:(lia)).
  clear Hacc. rename Hbits40 into Hacc. rewrite zlen_map in Hsl.
  assert (Hcl : 0 < zlen c <= 5) by (unfold c, zlen in *; rewrite length_take; lia).
  puts32 Hf. puts32 Hf. puts32 Hf. puts32 Hf. puts32 Hf. puts32 Hf. puts32 Hf. puts32 Hf.
  destruct (pad_chars pad ltac:(lia)) as (pc & Epc & Hpc & zeros & Hz & Hbits).
  wp_step. apply wp_rd; [change (zlen PAD_CHARS) with 5; lia|]. rewrite Epc, Nat2Z.id.
  wp_step. eapply wp_conseq;
    [apply (wp_b32_pads cap (map (byte_at B32_ALPHA) vals)
              (map (byte_at B32_ALPHA) (b32_vals acc))); [exact Hf|by rewrite zlen_map|done|done]|].
  clear Hf. intros u out2 Hf. cbn beta. wp_step. cbn [fst]. split; [|lia].
  rewrite firstn_map in Hf.
  exists (k + 1), (map (byte_at B32_ALPHA) vals ++
    map (byte_at B32_ALPHA) (take (8 - pc) (b32_vals acc)) ++ replicate pc (chr "=")),
    (pre ++ c), (drop 5 rest).
  cbn [fst snd]. split_and!; try lia; try done.
  - unfold c. by rewrite <- app_assoc, take_drop.
  - rewrite zlen_app. lia.
  - rewrite !zlen_app, !zlen_map. unfold zlen at 2 3. rewrite length_take, length_replicate.
    change (length (b32_vals acc)) with 8%nat. lia.
  - destruct (decide (length c = 5%nat)) as [E5|].
    + left. assert (pc = 0%nat) as -> by (unfold zlen in *; lia). rewrite app_nil_r, <- map_app.
      split; [rewrite zlen_app; unfold zlen at 2; lia|]. eexists. split; [done|].
      rewrite take_ge by done. split; [apply Forall_app; split; [done|apply b32_vals_words]|].
      rewrite !spell_app, Hs, spell_b32_vals, Hacc. f_equal. rewrite E5. apply app_nil_r.
    + right. assert (Hr : (length rest <= 5)%nat) by (unfold c in *; rewrite length_take in *; lia).
      split; [by apply drop_ge|]. assert (Ec : rest = c) by (unfold c; by rewrite take_ge).
      rewrite Ec at 1. apply (b32_group_rfc pre vals c acc pc zeros); try done; [|unfold zlen in *; lia..].
      rewrite Hsl, Z.mul_comm. apply Z.mod_mul. lia.
Qed.

Lemma b32_encode_ok malloc data :
  malloc_ok malloc -> Forall byte data -> zlen data < 2 ^ 60 ->
  exists out, encoding_base32_encode malloc data = Ok (Some out) /\
    rfc4648 5 8 B32_ALPHA true data out.
Proof.
  intros Hm Hb Hn. pose proof (zlen_nonneg data) as H0.
  assert (Hd : 0 <= (zlen data + 4) / 5 <= zlen data + 4)
    by (split; [apply Z.div_pos; lia|apply Z.div_le_upper_bound; lia]).
  unfold encoding_base32_encode, u64.
  rewrite (Z.mod_small (zlen data + 4)), (Z.mod_small (_ * 8)), Z.mod_small by lia.
  apply with_str_ok; [done|lia|]. intros out Hf.
  assert (Hempty : rfc4648 5 8 B32_ALPHA true [] []).
  { apply (rfc4648_intro 5 8 B32_ALPHA true [] [] 0 0); try done; lia. }
  destruct (zlen data =? 0) eqn:E; zb.
  { apply (wp_wr _ _ _ _ _ _ Hf); [done|lia|]. intros out' Hf'. exists [].
    destruct data; [done|]. rewrite zlen_cons in E. pose proof (zlen_nonneg data). lia. }
  unfold b32_encode_loop. wp_step. set (cap := (zlen data + 4) / 5 * 8 + 1) in *.
  apply (wp_iter (b32_inv data cap) (fun ij _ => Z.to_nat (zlen data - ij.1))).
  - exists 0, [], [], data. split_and!; try done; [unfold cap; lia|]. left. split; [done|].
    by exists [].
  - cbn [fst]. unfold zlen. lia.
  - clear out Hf. intros [i j] out Hinv. destruct (i <? zlen data) eqn:Hi; zb.
    + eapply wp_conseq; [by apply (wp_b32_step data cap (i, j)); [|unfold cap; lia|..]|].
      intros [ij'|b] out' H; [|done]. destruct H as [? ?]. cbn [fst] in *. split; [done|lia].
    + wp_step. destruct Hinv as (k & s & pre & rest & -> & Hi' & Hj & Hsl & Hk & Hf & Hcase).
      cbn [fst snd] in *. subst i j. rewrite zlen_app in Hi.
      destruct rest; [|rewrite zlen_cons in Hi; pose proof (zlen_nonneg rest); lia].
      assert (R : rfc4648 5 8 B32_ALPHA true (pre ++ []) s).
      { destruct Hcase as [(H5 & vals & -> & Hw & Hs)|[_ ?]]; [|done].
        rewrite <- (app_nil_r (map _ _)). apply (rfc4648_intro _ _ _ _ _ _ 0 0); try done; try lia.
        - by rewrite app_nil_r, Hs, app_nil_r.
        - rewrite zlen_map in Hsl. apply Nat2Z.inj. rewrite Nat2Z.inj_mod, Nat.add_0_r.
          change (zlen vals mod 8 = 0). rewrite Hsl, Z.mul_comm. apply Z.mod_mul. lia. }
      apply (wp_wr _ _ _ _ _ _ Hf); [lia|lia|]. intros out' Hf'. exists s. split_and!; try done.
      by apply (rfc_chars _ 5 8 B32_ALPHA true (pre ++ [])); [done|apply b32_alpha_nonzero|..].
Qed.

(** * The base32 and base64 decoders

    They read off the bits their characters spell, eight at a time, and drop
    the bits that do not fill a byte; on an encoding that gives the data back. *)

(** [out] is what the words [vals] of [w] bits spell, in whole bytes. *)
Definition unspells (w : nat) (vals out : list Z) : Prop :=
  Forall byte out /\ exists rest, spell w vals = spell 8 out ++ rest /\ (length rest < 8)%nat.

(** There is one such list of bytes. *)
Lemma unspells_det w vals out1 out2 : unspells w vals out1 -> unspells w vals out2 -> out1 = out2.
Proof.
  intros (H1 & r1 & E1 & L1) (H2 & r2 & E2 & L2).
  apply (spell_unique 8 _ _ r1 r2); try done. by rewrite <- E1.
Qed.

(** ** The accumulator *)

Section Unpack.
Context (width : Z) (w : nat) (Hw : (0 < w <= 8)%nat) (Hwidth : Z.of_nat (7 + w) <= width).

(** After the words [vals]: the bytes written, and the bits that remain. *)
Definition unpacked (cap : Z) (vals : list Z) (u : Unpack) (out : list Z) : Prop :=
  exists bs r, filled cap bs out /\ un_j u = zlen bs /\ Forall byte bs /\
    un_bits u = Z.of_nat r /\ (r < 8)%nat /\
    spell w vals = spell 8 bs ++ bits r (un_acc u).

Lemma unpacked_nil cap out : filled cap [] out -> unpacked cap [] (mkUnpack 0 0 0) out.
Proof. clear Hw Hwidth. intros Hf. exists [], 0%nat. split_and!; try done; cbn; lia. Qed.

Lemma unpacked_unspells cap vals u out :
  unpacked cap vals u out -> exists bs, un_j u = zlen bs /\ filled cap bs out /\ unspells w vals bs.
Proof.
  intros (bs & r & Hf & Hj & Hb & _ & Hr & Hs). exists bs.
  split; [done|]. split; [done|]. split; [done|].
  exists (bits r (un_acc u)). by rewrite bits_length.
Qed.

Lemma wp_unpack cap vals v u (Q : Unpack -> list Z -> Prop) out :
  unpacked cap vals u out -> word w v -> Z.of_nat w * (zlen vals + 1) / 8 <= cap ->
  (forall u' out', unpacked cap (vals ++ [v]) u' out' -> Q u' out') ->
  wp (unpack width (Z.of_nat w) v u) Q out.
Proof.
  intros (bs & r & Hf & Hj & Hb & Hr & Hr8 & Hs) Hv Hcap HQ. unfold unpack. cbv zeta.
  set (acc := Z.lor _ v).
  assert (Hacc : bits (r + w) acc = bits r (un_acc u) ++ bits w v)
    by (apply bits_push; [lia|done]).
  assert (Hs' : spell w (vals ++ [v]) = spell 8 bs ++ bits (r + w) acc).
  { rewrite spell_app, Hs, Hacc, <- app_assoc. cbn. by rewrite app_nil_r. }
  wp_step; zb.
  - wp_step. replace (un_bits u + Z.of_nat w - 8) with (Z.of_nat (r + w - 8)) by lia.
    set (b := Z.land _ 0xff).
    assert (Hcut : bits (r + w) acc = bits 8 b ++ bits (r + w - 8) acc).
    { replace (r + w)%nat with (8 + (r + w - 8))%nat at 1 by lia. rewrite bits_app. f_equal.
      symmetry. apply (bits_land 8). }
    apply (f_equal length) in Hs as Hl. rewrite length_app, !spell_length, bits_length in Hl.
    assert (zlen bs + 1 <= Z.of_nat w * (zlen vals + 1) / 8).
    { apply Z.div_le_lower_bound; [lia|]. unfold zlen. nia. }
    eapply wp_wr; [exact Hf|done|lia|]. intros out' Hf'. wp_step. apply HQ.
    exists (bs ++ [b]), (r + w - 8)%nat. cbn [un_acc un_bits un_j].
    split_and!; [done|rewrite zlen_snoc; lia| |done|lia|].
    + apply Forall_app. split; [done|]. apply Forall_singleton.
      apply (shiftr_land_range _ 8). lia.
    + rewrite Hs', Hcut, spell_app, <- app_assoc. cbn [spell map concat]. 
      change (spell 8 [b]) with (bits 8 b ++ []). by rewrite app_nil_r.
  - wp_step. apply HQ. exists bs, (r + w)%nat. cbn [un_acc un_bits un_j].
    split_and!; try done; lia.
Qed.

End Unpack.

(** ** Base64 *)

Section Dec64.
Context (alpha : list Z).

(** The table agrees with the alphabet on every character. *)
Definition table_okb : bool :=
  forallb (fun n => let c := Z.of_nat n in
    let v := byte_at (b64_make_table alpha) c in
    if v =? -1 then negb (existsb (fun a => a =? c) alpha)
    else (0 <=? v) && (v <? 64) && (byte_at alpha v =? c)) (seq 0 256) &&
  forallb (fun n => byte_at (b64_make_table alpha) (byte_at alpha (Z.of_nat n)) =? Z.of_nat n)
    (seq 0 64) && (zlen (b64_make_table alpha) =? 256) && (zlen alpha =? 64) &&
  forallb (fun c => (1 <=? c) && (c <? 128) && negb (c =? chr "=")) alpha.

Context (Htable : table_okb = true).
Abbreviation table := (b64_make_table alpha).

Lemma table_parts :
  (forall c, 0 <= c < 256 ->
     (byte_at table c = -1 /\ c ∉ alpha) \/
     (word 6 (byte_at table c) /\ byte_at alpha (byte_at table c) = c)) /\
  (forall v, word 6 v -> byte_at table (byte_at alpha v) = v) /\
  zlen table = 256 /\ zlen alpha = 64 /\ Forall (fun c => 1 <= c < 128 /\ c <> chr "=") alpha.
Proof.
  unfold table_okb in Htable. apply andb_prop in Htable as [[[[H1 H2]%andb_prop H3]%andb_prop H4]%andb_prop H5].
  zb. split_and!; try done.
  - intros c Hc. rewrite forallb_forall in H1. specialize (H1 (Z.to_nat c)).
    rewrite Z2Nat.id in H1 by lia. cbv zeta in H1.
    specialize (H1 (proj2 (in_seq 256 0 (Z.to_nat c)) ltac:(lia))).
    destruct (byte_at table c =? -1) eqn:E; zb.
    + left. split; [done|]. intros Hin. apply Bool.not_true_iff_false in H1. apply H1.
      apply existsb_exists. exists c. split; [by apply list_elem_of_In|apply Z.eqb_refl].
    + right. unfold word. split; [|done]. by split.
  - intros v [? ?]. rewrite forallb_forall in H2. specialize (H2 (Z.to_nat v)).
    rewrite Z2Nat.id in H2 by lia. apply Z.eqb_eq, H2, in_seq.
    change (2 ^ Z.of_nat 6) with 64 in *. lia.
  - apply List.Forall_forall. intros c Hc. rewrite forallb_forall in H5. apply H5 in Hc. zb. done.
Qed.

Lemma wp_valid s (out : list Z) :
  Forall (fun c => 0 <= c < 256) s ->
  wp (b64_valid table s) (fun b out' => out' = out /\
    if b then exists vals, Forall (word 6) vals /\ s = map (byte_at alpha) vals
    else exists c, c ∈ s /\ c ∉ alpha) out.
Proof.
  destruct table_parts as (Ht & _ & Hl & _).
  induction 1 as [|c s Hc Hs IH]; cbn [b64_valid].
  { wp_step. split; [done|]. exists []. by split. }
  wp_step. apply wp_rd; [by rewrite Hl|]. destruct (Ht c Hc) as [[-> Hn]|[Hv Ha]].
  - rewrite Z.eqb_refl. wp_step. split; [done|]. exists c. split; [by left|done].
  - destruct (_ =? _) eqn:E; zb; [destruct Hv; lia|].
    eapply wp_conseq; [exact IH|]. intros b out' [-> H]. split; [done|]. destruct b.
    + destruct H as (vals & ? & ->). exists (byte_at table c :: vals). split; [by constructor|].
      simpl. by rewrite Ha.
    + destruct H as (x & ? & ?). exists x. split; [by right|done].
Qed.

Lemma wp_decode_loop cap done_ vals u out :
  Forall (word 6) vals -> unpacked 6 cap done_ u out ->
  6 * zlen (done_ ++ vals) / 8 <= cap ->
  wp (b64_decode_loop table (map (byte_at alpha) vals) u)
    (fun u' out' => unpacked 6 cap (done_ ++ vals) u' out') out.
Proof.
  destruct table_parts as (_ & Ht & Hl & Ha & Hc).
  intros Hv. revert done_ u out. induction Hv as [|v vals Hv Hvs IH]; intros done_ u out Hu Hcap.
  { cbn [map b64_decode_loop]. wp_step. by rewrite app_nil_r. }
  cbn [map b64_decode_loop]. wp_step.
  assert (Hin : byte_at alpha v ∈ alpha).
  { apply list_elem_of_In, nth_In. destruct Hv. change (2 ^ Z.of_nat 6) with 64 in *.
    unfold zlen in Ha. lia. }
  rewrite Forall_forall in Hc. apply Hc in Hin. apply wp_rd; [lia|]. rewrite (Ht v Hv).
  wp_step. apply (wp_unpack 32 6 ltac:(lia) ltac:(lia) cap done_ v u); try done.
  - etrans; [|exact Hcap]. apply Z.div_le_mono; [lia|]. rewrite zlen_app, zlen_cons.
    pose proof (zlen_nonneg vals). lia.
  - intros u' out' Hu'. replace (done_ ++ v :: vals) with ((done_ ++ [v]) ++ vals)
      by by rewrite <- app_assoc. apply IH; [done|]. by rewrite <- app_assoc.
Qed.

(** The padding at the end, and what is before it. *)
Lemma strip_spec s n :
  (n <= length s)%nat ->
  exists k, take n s = take (strip_eq s n) s ++ replicate k (chr "=") /\
    (strip_eq s n <= n)%nat /\
    forall l c, take (strip_eq s n) s = l ++ [c] -> c <> chr "=".
Proof.
  induction n as [|n IH]; intros Hn.
  { exists 0%nat. split_and!; [done|done|]. intros l c H. by destruct l. }
  cbn [strip_eq]. destruct (lookup_lt_is_Some_2 s n ltac:(lia)) as [x Hx].
  assert (Hb : byte_at s (Z.of_nat n) = x).
  { unfold byte_at. by rewrite Nat2Z.id, nth_lookup, Hx. }
  rewrite Hb. destruct (_ =? _) eqn:E; zb.
  - destruct (IH ltac:(lia)) as (k & Hk & Hle & Hlast). exists (S k). split_and!; [|lia|done].
    by rewrite (take_S_r _ _ x Hx), Hk, E, <- app_assoc, replicate_S_end.
  - exists 0%nat. split_and!; [by rewrite app_nil_r|done|].
    intros l c H. rewrite (take_S_r _ _ x Hx) in H. by apply app_inj_2 in H as [_ [= <-]].
Qed.

(** What the decoder makes of the characters before the padding. *)
Definition decodes64 (core : list Z) (o : option (list Z)) : Prop :=
  match o with
  | Some out => exists vals, Forall (word 6) vals /\ core = map (byte_at alpha) vals /\
                  unspells 6 vals out
  | None => exists c, c ∈ core /\ c ∉ alpha
  end.

Lemma b64_decode_ok malloc s :
  malloc_ok malloc -> Forall (fun c => 0 <= c < 256) s -> zlen s < 2 ^ 61 ->
  exists core k o, s = core ++ replicate k (chr "=") /\
    (forall l c, core = l ++ [c] -> c <> chr "=") /\
    b64_decode_impl malloc (Some s) alpha = Ok o /\ decodes64 core o.
Proof.
  intros Hm Hs Hn. destruct (strip_spec s (length s) ltac:(done)) as (k & Hk & Hle & Hlast).
  rewrite take_ge in Hk by done. set (core := take _ s) in *.
  assert (Hc : Forall (fun c => 0 <= c < 256) core) by by apply Forall_take.
  unfold b64_decode_impl. destruct (Hm (256 * 4) ltac:(lia)) as (tab & -> & _). cbv zeta.
  fold core. exists core, k. pose proof (wp_valid core [] Hc) as Hv. unfold wp in Hv.
  destruct (b64_valid table core []) as [[[|] out0]| |]; [|exists None; by destruct Hv|done..].
  destruct Hv as (_ & vals & Hw & Hv).
  assert (Hl : 0 <= zlen core <= zlen s) by (unfold core, zlen; rewrite length_take; lia).
  assert (Hd : 0 <= zlen core * 6 / 8 <= zlen core * 6)
    by (split; [apply Z.div_pos; lia|apply Z.div_le_upper_bound; lia]).
  unfold u64. rewrite (Z.mod_small (zlen core * 6)), Z.mod_small by lia.
  destruct (with_bytes_ok malloc Hm (zlen core * 6 / 8 + 1)
    (do u <- b64_decode_loop table core (mkUnpack 0 0 0); ret (Some (un_j u)))
    (decodes64 core)) as (o & E & Ho); [lia| |by exists o].
  intros out Hf. wp_step.
  replace (b64_decode_loop table core (mkUnpack 0 0 0))
    with (b64_decode_loop table (map (byte_at alpha) vals) (mkUnpack 0 0 0)) by by rewrite <- Hv.
  eapply wp_conseq; [apply (wp_decode_loop (zlen core * 6 / 8 + 1) [] vals); [done|by apply unpacked_nil|]|].
  { rewrite Hv, zlen_map, Z.mul_comm. cbn [app]. lia. }
  intros u out' Hu. wp_step. destruct (unpacked_unspells _ _ _ _ _ Hu) as (bs & -> & Hfb & Hun).
  exists bs. split; [done|]. split; [done|]. by exists vals.
Qed.

End Dec64.

Lemma std_table : table_okb B64_STD = true.
Proof. vm_compute. reflexivity. Qed.
Lemma url_table : table_okb B64_URL = true.
Proof. vm_compute. reflexivity. Qed.

(** ** Base32 *)

Definition not_pad (c : Z) : bool := negb (c =? chr "=").

Lemma not_pad_eq c : not_pad c = negb (c =? chr "=").
Proof. done. Qed.

Lemma b32_count_spec s :
  match b32_count s with
  | Some n => n = zlen (List.filter not_pad s) /\
              Forall (fun c => word 5 (b32_char_val c)) (List.filter not_pad s)
  | None => exists c, c ∈ List.filter not_pad s /\ b32_char_val c = -1
  end.
Proof.
  induction s as [|c s IH]; cbn [b32_count List.filter]; [done|].
  rewrite !not_pad_eq.
  destruct (c =? chr "="); cbn [negb]; [exact IH|].
  destruct (b32_char_val c =? -1) eqn:E; zb.
  { exists c. split; [by left|done]. }
  assert (Hw : word 5 (b32_char_val c)).
  { revert E. unfold b32_char_val, word. repeat case_match; zb; intros; cbn; lia. }
  destruct (b32_count s) as [n|]; cbn [option_map].
  - destruct IH as [-> ?]. split; [rewrite zlen_cons; lia|by constructor].
  - destruct IH as (x & ? & ?). exists x. split; [by right|done].
Qed.

Lemma wp_b32_decode_loop cap s done_ u out :
  Forall (fun c => word 5 (b32_char_val c)) (List.filter not_pad s) ->
  unpacked 5 cap done_ u out ->
  5 * zlen (done_ ++ map b32_char_val (List.filter not_pad s)) / 8 <= cap ->
  wp (b32_decode_loop s u)
    (fun u' out' => unpacked 5 cap (done_ ++ map b32_char_val (List.filter not_pad s)) u' out') out.
Proof.
  revert done_ u out. induction s as [|c s IH]; intros done_ u out Hv Hu Hcap.
  { cbn [List.filter map b32_decode_loop]. wp_step. by rewrite app_nil_r. }
  cbn [List.filter b32_decode_loop] in *. rewrite not_pad_eq in Hv, Hcap |- *.
  destruct (c =? chr "="); cbn [negb map] in *; [by apply IH|].
  rewrite Forall_cons in Hv. destruct Hv as [Hv Hvs].
  wp_step. apply (wp_unpack 64 5 ltac:(lia) ltac:(lia) cap done_ (b32_char_val c) u); try done.
  - etrans; [|exact Hcap]. apply Z.div_le_mono; [lia|]. rewrite zlen_app, zlen_cons.
    pose proof (zlen_nonneg (map b32_char_val (List.filter not_pad s))). lia.
  - intros u' out' Hu'. rewrite cons_middle, app_assoc in Hcap |- *. by apply IH.
Qed.

(** What the decoder makes of the characters that are not padding. *)
Definition decodes32 (core : list Z) (r : string + list Z) : Prop :=
  match r with
  | inr out => Forall (fun c => word 5 (b32_char_val c)) core /\
               unspells 5 (map b32_char_val core) out
  | inl e => e = "invalid base32 input"%string /\ exists c, c ∈ core /\ b32_char_val c = -1
  end.

Lemma filter_zlen (p : Z -> bool) s : 0 <= zlen (List.filter p s) <= zlen s.
Proof. unfold zlen. pose proof (List.filter_length_le p s). lia. Qed.

Lemma b32_decode_ok malloc s :
  malloc_ok malloc -> zlen s < 2 ^ 60 ->
  exists r, encoding_base32_decode malloc (Some s) = Ok r /\ decodes32 (List.filter not_pad s) r.
Proof.
  intros Hm Hn. destruct s as [|c0 s0].
  { exists (inr []). split; [done|]. split; [constructor|]. split; [constructor|].
    exists []. split; [done|]. cbn. lia. }
  set (s := c0 :: s0) in *.
  change (exists r, match b32_count s with
    | None => Ok (inl "invalid base32 input"%string)
    | Some n =>
      match with_bytes malloc (u64 (n * 5 / 8 + 1))
              (do u <- b32_decode_loop s (mkUnpack 0 0 0); ret (Some (un_j u))) with
      | Ok (Some out) => Ok (inr out)
      | Ok None => Ok (inl "allocation failure"%string)
      | Oob => Oob
      | NoFuel => NoFuel
      end
    end = Ok r /\ decodes32 (List.filter not_pad s) r).
  pose proof (b32_count_spec s) as Hc. destruct (b32_count s) as [n|].
  2: { eexists. by split. }
  destruct Hc as [-> Hw]. pose proof (filter_zlen not_pad s) as Hl.
  set (core := List.filter not_pad s) in *.
  assert (Hd : 0 <= zlen core * 5 / 8 <= zlen core * 5)
    by (split; [apply Z.div_pos; lia|apply Z.div_le_upper_bound; lia]).
  unfold u64. rewrite Z.mod_small by lia.
  destruct (with_bytes_ok malloc Hm (zlen core * 5 / 8 + 1)
    (do u <- b32_decode_loop s (mkUnpack 0 0 0); ret (Some (un_j u)))
    (fun o => match o with Some out => decodes32 core (inr out) | None => False end))
    as (o & -> & Ho); [lia| |destruct o as [out|]; [by exists (inr out)|done]].
  intros out Hf. wp_step.
  eapply wp_conseq;
    [apply (wp_b32_decode_loop (zlen core * 5 / 8 + 1) s []); [done|by apply unpacked_nil|]|].
  { cbn [app]. fold core. rewrite zlen_map, Z.mul_comm. lia. }
  intros u out' Hu. wp_step. destruct (unpacked_unspells _ _ _ _ _ Hu) as (bs & -> & Hfb & Hun).
  exists bs. split; [done|]. split; [done|]. by split.
Qed.

(** ** Decoding an encoding *)

Lemma strip_unique (p : Z) l1 l2 k1 k2 :
  l1 ++ replicate k1 p = l2 ++ replicate k2 p ->
  (forall l c, l1 = l ++ [c] -> c <> p) -> (forall l c, l2 = l ++ [c] -> c <> p) -> l1 = l2.
Proof.
  revert k2. induction k1 as [|k1 IH]; intros k2 H H1 H2.
  - destruct k2 as [|k2]; [by rewrite !app_nil_r in H|].
    rewrite app_nil_r, replicate_S_end, app_assoc in H. by destruct (H1 _ _ H).
  - destruct k2 as [|k2].
    { rewrite app_nil_r, replicate_S_end, app_assoc in H. by destruct (H2 _ _ (eq_sym H)). }
    rewrite !replicate_S_end, !app_assoc in H. apply app_inj_2 in H as [H _]; [|done].
    by apply (IH k2).
Qed.

(** The data is what the values of its encoding spell. *)
Lemma spelled_unspells w vals data zeros :
  Forall byte data -> (w <= 8)%nat -> (zeros < w)%nat ->
  spell w vals = spell 8 data ++ replicate zeros false -> unspells w vals data.
Proof.
  intros Hb Hw Hz Hs. split; [done|]. eexists. split; [exact Hs|]. rewrite length_replicate. lia.
Qed.

Lemma map_inv {X Y} (f : X -> Y) (g : Y -> X) l :
  Forall (fun x => g (f x) = x) l -> map g (map f l) = l.
Proof. induction 1 as [|x l Hx Hl IH]; [done|]. simpl. by rewrite Hx, IH. Qed.

Lemma b64_decode_rfc alpha malloc pad data out :
  table_okb alpha = true -> malloc_ok malloc -> Forall byte data -> zlen out < 2 ^ 61 ->
  rfc4648 6 4 alpha pad data out -> b64_decode_impl malloc (Some out) alpha = Ok (Some data).
Proof.
  intros Ht Hm Hb Hn R. destruct (table_parts alpha Ht) as (_ & Hinv & _ & Hl & Hc).
  assert (Hout : Forall (fun c => 0 <= c < 256) out).
  { apply (rfc_chars _ 6 4 alpha pad data); [done| |lia|done].
    eapply Forall_impl; [exact Hc|]. intros c H; cbn beta in *; lia. }
  destruct (b64_decode_ok alpha Ht malloc out Hm Hout Hn) as (core & k & o & Hk & Hlast & E & Ho).
  destruct R as [vals zeros pads Hw Hs Hz _ _].
  assert (Hin : Forall (fun c => c ∈ alpha /\ c <> chr "=") (map (byte_at alpha) vals)).
  { apply List.Forall_map. eapply Forall_impl; [exact Hw|]. intros v [? ?].
    change (2 ^ Z.of_nat 6) with 64 in *.
    assert (Hv : byte_at alpha v ∈ alpha)
      by (apply list_elem_of_In, nth_In; unfold zlen in Hl; lia).
    split; [done|]. rewrite Forall_forall in Hc. by apply Hc. }
  apply (strip_unique _ _ _ _ _) in Hk; [|intros l c El|exact Hlast].
  2: { rewrite El, Forall_app, Forall_singleton in Hin. by destruct Hin as (_ & _ & ?). }
  rewrite E. do 2 f_equal. subst core. destruct o as [out'|].
  - destruct Ho as (vals' & Hw' & Hmap & Hu).
    assert (vals = vals') as <-.
    { apply (f_equal (map (byte_at (b64_make_table alpha)))) in Hmap.
      rewrite !map_inv in Hmap; [done|..]; (eapply Forall_impl; [eassumption|auto]). }
    f_equal. apply (unspells_det 6 vals); [done|]. by apply (spelled_unspells _ _ _ zeros); [|lia|..].
  - destruct Ho as (c & Hc1 & Hc2). rewrite Forall_forall in Hin. by destruct (Hin c Hc1).
Qed.

Lemma b32_alpha_inv v : word 5 v -> b32_char_val (byte_at B32_ALPHA v) = v /\ byte_at B32_ALPHA v <> chr "=".
Proof.
  intros [H0 H1]. change (2 ^ Z.of_nat 5) with 32 in H1.
  assert (Hall : forallb (fun n => (b32_char_val (byte_at B32_ALPHA (Z.of_nat n)) =? Z.of_nat n) &&
    negb (byte_at B32_ALPHA (Z.of_nat n) =? chr "=")) (seq 0 32) = true) by (vm_compute; done).
  rewrite forallb_forall in Hall. specialize (Hall (Z.to_nat v)). rewrite Z2Nat.id in Hall by done.
  specialize (Hall (proj2 (in_seq 32 0 (Z.to_nat v)) ltac:(lia))). zb. done.
Qed.

Lemma filter_pads vals pads :
  Forall (word 5) vals ->
  List.filter not_pad (map (byte_at B32_ALPHA) vals ++ replicate pads (chr "=")) =
  map (byte_at B32_ALPHA) vals.
Proof.
  intros Hw. rewrite List.filter_app.
  assert (Hp : List.filter not_pad (replicate pads (chr "=")) = []) by (induction pads; done).
  rewrite Hp, app_nil_r. induction Hw as [|v vals Hv Hw IH]; [done|]. cbn [map List.filter].
  rewrite not_pad_eq, (proj2 (Z.eqb_neq _ _)), IH; [done|]. by apply b32_alpha_inv.
Qed.

Lemma b32_decode_rfc malloc data out :
  malloc_ok malloc -> Forall byte data -> zlen out < 2 ^ 60 ->
  rfc4648 5 8 B32_ALPHA true data out -> encoding_base32_decode malloc (Some out) = Ok (inr data).
Proof.
  intros Hm Hb Hn R. destruct (b32_decode_ok malloc out Hm Hn) as (r & E & Hr). rewrite E. f_equal.
  destruct R as [vals zeros pads Hw Hs Hz _ _]. rewrite filter_pads in Hr by done.
  assert (Hmap : map b32_char_val (map (byte_at B32_ALPHA) vals) = vals).
  { apply map_inv. eapply Forall_impl; [exact Hw|]. intros v Hv. by apply b32_alpha_inv. }
  destruct r as [e|out'].
  - destruct Hr as (_ & c & Hc & Hv). apply list_elem_of_In, in_map_iff in Hc as (v & <- & Hin).
    rewrite Forall_forall in Hw. apply list_elem_of_In, Hw in Hin.
    destruct (b32_alpha_inv v Hin) as [E2 _]. rewrite E2 in Hv. destruct Hin. lia.
  - destruct Hr as [_ Hu]. rewrite Hmap in Hu. f_equal.
    apply (unspells_det 5 vals); [done|]. by apply (spelled_unspells _ _ _ zeros); [|lia|..].
Qed.

(** * Hexadecimal and percent-encoding

    Each function of the code against a structural definition of the same
    encoding, and the round trips. *)

(** The digit of the low four bits. *)
Definition hex_digit (v : Z) : Z := byte_at HEX_DIGITS (Z.land v 0x0f).

Definition hex_byte (b : Z) : list Z := [hex_digit (Z.shiftr b 4); hex_digit b].

Fixpoint unhex (s : list Z) : option (list Z) :=
  match s with
  | [] => Some []
  | [_] => None
  | h :: l :: s =>
      if (hex_val h =? -1) || (hex_val l =? -1) then None
      else option_map (cons (hex_val h * 16 + hex_val l)) (unhex s)
  end.

Definition url_char (c : Z) : list Z :=
  if is_unreserved c then [c] else chr "%" :: hex_byte c.

Fixpoint unurl (s : list Z) : list Z :=
  match s with
  | [] => []
  | c :: s1 =>
      let plain := (if c =? chr "+" then chr " " else c) :: unurl s1 in
      match s1 with
      | h :: l :: s =>
          if (c =? chr "%") && negb (hex_val h =? -1) && negb (hex_val l =? -1) then
            if hex_val h * 16 + hex_val l =? 0 then unurl s
            else hex_val h * 16 + hex_val l :: unurl s
          else plain
      | _ => plain
      end
  end.

(** ** Digits *)

(** A property of all bytes is a computation. *)
Lemma byte_all (p : Z -> bool) :
  forallb (fun n => p (Z.of_nat n)) (seq 0 256) = true -> forall b, byte b -> p b = true.
Proof.
  intros H b [H0 H1]. change (2 ^ Z.of_nat 8) with 256 in H1. rewrite forallb_forall in H.
  specialize (H (Z.to_nat b)). rewrite Z2Nat.id in H by done. apply H, in_seq. lia.
Qed.

Lemma hex_val_range c : hex_val c = -1 \/ 0 <= hex_val c < 16.
Proof. unfold hex_val. repeat case_match; zb; lia. Qed.

Lemma hex_byte_vals b :
  byte b ->
  hex_val (hex_digit (Z.shiftr b 4)) <> -1 /\ hex_val (hex_digit b) <> -1 /\
  hex_val (hex_digit (Z.shiftr b 4)) * 16 + hex_val (hex_digit b) = b.
Proof.
  intros Hb. assert (H : negb (hex_val (hex_digit (Z.shiftr b 4)) =? -1) &&
    negb (hex_val (hex_digit b) =? -1) &&
    (hex_val (hex_digit (Z.shiftr b 4)) * 16 + hex_val (hex_digit b) =? b) = true)
    by by apply (byte_all (fun b => negb (hex_val (hex_digit (Z.shiftr b 4)) =? -1) &&
    negb (hex_val (hex_digit b) =? -1) &&
    (hex_val (hex_digit (Z.shiftr b 4)) * 16 + hex_val (hex_digit b) =? b))).
  zb. done.
Qed.

Lemma hex_digit_nonzero v : hex_digit v <> 0.
Proof.
  unfold hex_digit. pose proof (shiftr_land_range v 4 ltac:(lia)) as H.
  change (Z.ones 4) with 0x0f in H. change (2 ^ 4) with 16 in H.
  set (x := Z.land v 0x0f) in *. assert (Hx : byte x) by (unfold byte; cbn; lia).
  assert (Hall : (16 <=? x) || negb (byte_at HEX_DIGITS x =? 0) = true)
    by by apply (byte_all (fun x => (16 <=? x) || negb (byte_at HEX_DIGITS x =? 0))).
  apply orb_prop in Hall as [Hall|Hall]; zb; lia.
Qed.

(** [(hi << 4) | lo] *)
Lemma nibbles hi lo :
  0 <= hi < 16 -> 0 <= lo < 16 ->
  Z.lor (Z.shiftl hi 4) lo = hi * 16 + lo /\ Z.land (hi * 16 + lo) 0xff = hi * 16 + lo.
Proof.
  intros Hh Hl.
  assert (Hland : Z.land (Z.shiftl hi 4) lo = 0).
  { apply Z.bits_inj'. intros n Hn. rewrite Z.land_spec, Z.bits_0.
    destruct (Z.lt_ge_cases n 4).
    - by rewrite Z.shiftl_spec_low.
    - rewrite <- (Z.mod_small lo (2 ^ 4)), Z.mod_pow2_bits_high by lia. apply andb_false_r. }
  pose proof (Z.add_lor_land (Z.shiftl hi 4) lo) as Ha. rewrite Hland, Z.add_0_r in Ha.
  rewrite Z.shiftl_mul_pow2 in * by lia. change (2 ^ 4) with 16 in *. split; [done|].
  change 0xff with (Z.ones 8). rewrite Z.land_ones by lia. apply Z.mod_small. lia.
Qed.

Lemma wp_hex_put cap s j v (Q : unit -> list Z -> Prop) out :
  filled cap s out -> j = zlen s -> j < cap ->
  (forall out', filled cap (s ++ [hex_digit v]) out' -> Q tt out') -> wp (hex_put j v) Q out.
Proof.
  intros Hf Hj Hc HQ. unfold hex_put. wp_step.
  pose proof (shiftr_land_range v 4 ltac:(lia)) as H.
  apply wp_rd; [exact H|]. by apply (wp_wr cap s).
Qed.

(** ** Hexadecimal *)

Definition hex_text (data : list Z) : list Z := concat (map hex_byte data).

Lemma hex_text_len data : zlen (hex_text data) = 2 * zlen data.
Proof.
  unfold hex_text. induction data as [|b data IH]; [done|]. cbn [map concat].
  rewrite zlen_app, IH, zlen_cons. change (zlen (hex_byte b)) with 2. lia.
Qed.

Lemma hex_text_app d1 d2 : hex_text (d1 ++ d2) = hex_text d1 ++ hex_text d2.
Proof. unfold hex_text. by rewrite map_app, concat_app. Qed.

Lemma hex_text_nonzero data : Forall (fun c => c <> 0) (hex_text data).
Proof.
  induction data as [|b data IH]; [constructor|]. unfold hex_text. cbn [map concat].
  apply Forall_app. split; [|done]. repeat constructor; apply hex_digit_nonzero.
Qed.

Lemma hexencode_ok malloc data :
  malloc_ok malloc -> zlen data < 2 ^ 61 ->
  encoding_hexencode malloc data = Ok (Some (hex_text data)).
Proof.
  intros Hm Hn. pose proof (zlen_nonneg data). unfold encoding_hexencode, u64.
  rewrite (Z.mod_small (zlen data * 2)), Z.mod_small by lia.
  destruct (with_str_ok malloc Hm (zlen data * 2 + 1)
    (do! for_to (length data) 0 (fun i => do b <- rd data i;
       do! hex_put (i * 2) (Z.shiftr b 4); hex_put (i * 2 + 1) b); wr (zlen data * 2) 0)
    (fun s => s = hex_text data)) as (s & E & ->); [lia| |done].
  intros out Hf. wp_step.
  apply (wp_for_to (fun i out => filled (zlen data * 2 + 1) (hex_text (take (Z.to_nat i) data)) out)).
  - done.
  - clear out Hf. intros i out Hi Hf.
    destruct (lookup_lt_is_Some_2 data (Z.to_nat i)) as [b Hb]; [lia|].
    assert (Eb : byte_at data i = b) by (unfold byte_at; by rewrite nth_lookup, Hb).
    assert (Hl : zlen (hex_text (take (Z.to_nat i) data)) = i * 2).
    { rewrite hex_text_len. unfold zlen. rewrite length_take. lia. }
    wp_step. apply wp_rd; [unfold zlen; lia|]. rewrite Eb.
    wp_step. eapply wp_hex_put; [exact Hf|done|unfold zlen in *; lia|]. clear out Hf. intros out Hf.
    eapply wp_hex_put; [exact Hf|zlens|unfold zlen in *; lia|]. clear out Hf. intros out Hf.
    replace (Z.to_nat (i + 1)) with (S (Z.to_nat i)) by lia.
    rewrite (take_S_r _ _ b Hb), hex_text_app. by rewrite <- app_assoc in Hf.
  - clear out Hf. intros out Hf. rewrite Z.add_0_l, Nat2Z.id, take_ge in Hf by done.
    eapply wp_wr; [exact Hf|rewrite hex_text_len; lia|lia|]. intros out' Hf'.
    exists (hex_text data). split_and!; [done|apply hex_text_nonzero|done].
Qed.

(** Lists by pairs. *)
Lemma pairs_ind (P : list Z -> Prop) :
  P [] -> (forall x, P [x]) -> (forall x y l, P l -> P (x :: y :: l)) -> forall l, P l.
Proof.
  intros H0 H1 H2. enough (forall l, P l /\ forall x, P (x :: l)) as H by (intros l; apply H).
  induction l as [|y l [IH1 IH2]]; [by split|]. split; [apply IH2|]. intros x. by apply H2.
Qed.

Lemma unhex_odd s : zlen s mod 2 <> 0 -> unhex s = None.
Proof.
  induction s as [|x|h l s IH] using pairs_ind; [done|done|]. intros H. cbn [unhex].
  rewrite IH; [by case_match|]. contradict H. rewrite !zlen_cons.
  replace (1 + (1 + zlen s)) with (zlen s + 1 * 2) by lia. by rewrite Z.mod_add by lia.
Qed.

Lemma unhex_len s l : unhex s = Some l -> zlen s = zlen l * 2.
Proof.
  revert l. induction s as [|x|h l s IH] using pairs_ind; intros k H; [by injection H as <-|done|].
  cbn [unhex] in H. case_match; [done|]. destruct (unhex s) as [k'|]; [|done]. injection H as <-.
  rewrite !zlen_cons, (IH k' eq_refl). lia.
Qed.

Lemma wp_hex_pairs cap pre s done_ out :
  zlen (pre ++ s) mod 2 = 0 -> zlen pre = 2 * zlen done_ -> filled cap done_ out ->
  zlen (pre ++ s) / 2 <= cap ->
  wp (hex_pairs (pre ++ s) (length s / 2) (zlen done_))
    (fun b out' => match unhex s with
                   | Some l => b = true /\ filled cap (done_ ++ l) out'
                   | None => b = false
                   end) out.
Proof.
  revert pre done_ out. induction s as [|x|h l s IH] using pairs_ind; intros pre done_ out He Hp Hf Hc.
  - change (length [] / 2)%nat with 0%nat. cbn [hex_pairs unhex]. wp_step. by rewrite app_nil_r.
  - exfalso. rewrite zlen_app, Hp in He. change (zlen [x]) with 1 in He.
    rewrite Z.add_comm, Z.mul_comm, Z.mod_add in He by lia. done.
  - replace (length (h :: l :: s) / 2)%nat with (S (length s / 2)).
    2: { change (length (h :: l :: s)) with (1 * 2 + length s)%nat. by rewrite Nat.div_add_l by lia. }
    cbn [hex_pairs unhex]. wp_step. apply wp_rd_mid; [lia|]. rewrite cons_middle, app_assoc.
    wp_step. apply wp_rd_mid; [zlens|]. cbv zeta.
    destruct ((hex_val h =? -1) || (hex_val l =? -1)) eqn:E; [by wp_step|]. zb.
    destruct (hex_val_range h) as [?|Hh]; [done|]. destruct (hex_val_range l) as [?|Hl]; [done|].
    destruct (nibbles _ _ Hh Hl) as [-> ->].
    assert (zlen done_ + 1 <= zlen (pre ++ h :: l :: s) / 2).
    { apply Z.div_le_lower_bound; [lia|]. rewrite zlen_app, !zlen_cons.
      pose proof (zlen_nonneg s). lia. }
    wp_step. eapply wp_wr; [exact Hf|done|lia|]. intros out' Hf'.
    rewrite <- (zlen_snoc done_ (hex_val h * 16 + hex_val l)).
    replace ((pre ++ [h]) ++ l :: s) with ((pre ++ [h; l]) ++ s) by by rewrite <- !app_assoc.
    assert (Hlist : pre ++ h :: l :: s = (pre ++ [h; l]) ++ s) by by rewrite <- app_assoc.
    rewrite Hlist in He, Hc.
    eapply wp_conseq; [apply (IH (pre ++ [h; l]) _ _ He); [zlens|exact Hf'|exact Hc]|].
    intros b out2 H2. destruct (unhex s) as [l'|]; cbn [option_map]; [|done].
    by rewrite <- app_assoc in H2.
Qed.

Lemma hexdecode_ok malloc s :
  malloc_ok malloc -> zlen s < 2 ^ 61 -> encoding_hexdecode malloc (Some s) = Ok (unhex s).
Proof.
  intros Hm Hn. pose proof (zlen_nonneg s). unfold encoding_hexdecode.
  destruct (zlen s mod 2 =? 0) eqn:E; zb; cbn [negb]; [|by rewrite unhex_odd].
  assert (Hd : 0 <= zlen s / 2 <= zlen s)
    by (split; [apply Z.div_pos; lia|apply Z.div_le_upper_bound; lia]).
  cbv zeta. unfold u64. rewrite Z.mod_small by lia.
  destruct (with_bytes_ok malloc Hm (zlen s / 2 + 1)
    (do b <- hex_pairs s (Z.to_nat (zlen s / 2)) 0; ret (if b then Some (zlen s / 2) else None))
    (fun o => o = unhex s)) as (o & Eo & ->); [lia| |done].
  intros out Hf. wp_step.
  assert (Ed : Z.to_nat (zlen s / 2) = (length s / 2)%nat).
  { unfold zlen. change 2 with (Z.of_nat 2). by rewrite <- Nat2Z.inj_div, Nat2Z.id. }
  rewrite Ed. eapply wp_conseq; [apply (wp_hex_pairs (zlen s / 2 + 1) [] s [] out E); [done|exact Hf|cbn [app]; lia]|].
  intros b out' H'. wp_step. destruct (unhex s) as [l|] eqn:Eu; [|by rewrite H'].
  destruct H' as [-> Hf']. exists l. split_and!; [|done|done].
  rewrite (unhex_len _ _ Eu). apply Z.div_mul. lia.
Qed.

Lemma unhex_text data : Forall byte data -> unhex (hex_text data) = Some data.
Proof.
  induction 1 as [|b data Hb Hd IH]; [done|]. unfold hex_text in *. cbn [map concat app hex_byte unhex].
  destruct (hex_byte_vals b Hb) as (H1 & H2 & H3).
  rewrite !(proj2 (Z.eqb_neq _ _)) by done. cbn [orb]. by rewrite IH, H3.
Qed.

(** ** Percent-encoding *)

Definition url_text (s : list Z) : list Z := concat (map url_char s).

Lemma url_char_len c : 1 <= zlen (url_char c) <= 3.
Proof. unfold url_char, zlen. case_match; simpl; lia. Qed.

Lemma url_text_len s : zlen (url_text s) <= 3 * zlen s.
Proof.
  unfold url_text. induction s as [|c s IH]; [done|]. cbn [map concat].
  rewrite zlen_app, zlen_cons. pose proof (url_char_len c). lia.
Qed.

Lemma url_text_nonzero s : Forall (fun c => c <> 0) s -> Forall (fun c => c <> 0) (url_text s).
Proof.
  induction 1 as [|c s Hc Hs IH]; [constructor|]. unfold url_text. cbn [map concat].
  apply Forall_app. split; [|done]. unfold url_char. case_match; repeat constructor; try done;
    apply hex_digit_nonzero.
Qed.

Lemma urlencode_ok malloc s :
  malloc_ok malloc -> Forall (fun c => c <> 0) s -> zlen s < 2 ^ 61 ->
  encoding_urlencode malloc (Some s) = Ok (Some (url_text s)).
Proof.
  intros Hm Hs Hn. pose proof (zlen_nonneg s). unfold encoding_urlencode, u64.
  rewrite (Z.mod_small (zlen s * 3)), Z.mod_small by lia.
  edestruct (with_str_ok malloc Hm (zlen s * 3 + 1)) with (P := fun t => t = url_text s)
    as (t & E & ->); [lia| |exact E].
  intros out Hf. wp_step. set (cap := zlen s * 3 + 1) in *.
  apply (wp_iter (fun ij out => exists pre rest, s = pre ++ rest /\ ij.1 = zlen pre /\
    ij.2 = zlen (url_text pre) /\ filled cap (url_text pre) out)
    (fun ij _ => Z.to_nat (zlen s - ij.1))).
  - exists [], s. by split_and!.
  - cbn [fst]. unfold zlen. lia.
  - clear out Hf. intros [i j] out (pre & rest & Hp & Hi & Hj & Hf). cbn [fst snd] in *. subst i j.
    pose proof (url_text_len pre) as Hpl.
    assert (Hsl : zlen s = zlen pre + zlen rest) by (by rewrite Hp, zlen_app).
    destruct rest as [|c rest].
    + rewrite (proj2 (Z.ltb_ge _ _)) by (rewrite Hsl, zlen_nil; lia).
      rewrite app_nil_r in Hp. subst pre. wp_step. eapply wp_wr; [exact Hf|done|unfold cap; lia|].
      intros out' Hf'. exists (url_text s). split_and!; [done|by apply url_text_nonzero|done].
    + rewrite zlen_cons in Hsl. pose proof (zlen_nonneg rest).
      rewrite (proj2 (Z.ltb_lt _ _)) by lia.
      assert (Hsnoc : url_text (pre ++ [c]) = url_text pre ++ url_char c).
      { unfold url_text. rewrite map_app, concat_app. cbn. by rewrite app_nil_r. }
      assert (Hend : forall out', filled cap (url_text pre ++ url_char c) out' ->
        (exists pre' rest', s = pre' ++ rest' /\ zlen pre + 1 = zlen pre' /\
          zlen (url_text pre) + zlen (url_char c) = zlen (url_text pre') /\
          filled cap (url_text pre') out') /\
        (Z.to_nat (zlen s - (zlen pre + 1)) < Z.to_nat (zlen s - zlen pre))%nat).
      { intros out' Hf'. split; [|lia]. exists (pre ++ [c]), rest. rewrite Hsnoc, zlen_snoc, zlen_app.
        split_and!; try done. by rewrite <- app_assoc. }
      wp_step. rewrite Hp. apply wp_rd_mid; [done|]. rewrite <- Hp. cbn [fst snd].
      unfold url_char in Hend. destruct (is_unreserved c).
      * wp_step. eapply wp_wr; [exact Hf|done|unfold cap; lia|]. intros out' Hf'. wp_step. by apply Hend.
      * wp_step. eapply wp_wr; [exact Hf|done|unfold cap; lia|]. clear out Hf. intros out Hf.
        wp_step. eapply wp_hex_put; [exact Hf|zlens|unfold cap; lia|]. clear out Hf. intros out Hf.
        wp_step. eapply wp_hex_put; [exact Hf|zlens|unfold cap; lia|]. clear out Hf. intros out Hf.
        wp_step. apply Hend. by rewrite <- !app_assoc in Hf.
Qed.

(** What a step of the decoder writes is what the definition has there. *)
Lemma wp_urldecode_step s pre rest done_ out :
  s = pre ++ rest -> rest <> [] -> Forall (fun c => c <> 0) s ->
  filled (zlen s + 1) done_ out -> zlen done_ <= zlen pre ->
  wp (urldecode_step s (zlen pre) (zlen done_))
    (fun ij out' => exists pre' rest' em, s = pre' ++ rest' /\ ij = (zlen pre', zlen (done_ ++ em)) /\
       zlen pre < zlen pre' /\ zlen (done_ ++ em) <= zlen pre' /\
       filled (zlen s + 1) (done_ ++ em) out' /\ Forall (fun c => c <> 0) em /\
       unurl rest = em ++ unurl rest') out.
Proof.
  intros -> Hne Hs Hf Hle. rewrite Forall_app in Hs. destruct Hs as [_ Hs].
  destruct rest as [|c s1]; [done|]. clear Hne. apply Forall_cons in Hs as [Hc Hs].
  assert (Hlen : zlen (pre ++ c :: s1) = zlen pre + 1 + zlen s1) by zlens.
  pose proof (zlen_nonneg s1). unfold urldecode_step. wp_step. apply wp_rd_mid; [done|].
  (* a character that is itself *)
  assert (Hplain : unurl (c :: s1) = (if c =? chr "+" then chr " " else c) :: unurl s1 ->
    wp (if c =? chr "+" then do! wr (zlen done_) (chr " "); ret (zlen pre + 1, zlen done_ + 1)
        else do! wr (zlen done_) c; ret (zlen pre + 1, zlen done_ + 1))
      (fun ij out' => exists pre' rest' em, pre ++ c :: s1 = pre' ++ rest' /\
         ij = (zlen pre', zlen (done_ ++ em)) /\
         zlen pre < zlen pre' /\ zlen (done_ ++ em) <= zlen pre' /\
         filled (zlen (pre ++ c :: s1) + 1) (done_ ++ em) out' /\ Forall (fun c => c <> 0) em /\
         unurl (c :: s1) = em ++ unurl rest') out).
  { intros E. assert (Hend : forall v out', v <> 0 -> v = (if c =? chr "+" then chr " " else c) ->
      filled (zlen (pre ++ c :: s1) + 1) (done_ ++ [v]) out' ->
      exists pre' rest' em, pre ++ c :: s1 = pre' ++ rest' /\
         (zlen pre + 1, zlen done_ + 1) = (zlen pre', zlen (done_ ++ em)) /\
         zlen pre < zlen pre' /\ zlen (done_ ++ em) <= zlen pre' /\
         filled (zlen (pre ++ c :: s1) + 1) (done_ ++ em) out' /\ Forall (fun c => c <> 0) em /\
         unurl (c :: s1) = em ++ unurl rest').
    { intros v out' Hv -> Hf'. exists (pre ++ [c]), s1, [if c =? chr "+" then chr " " else c].
      rewrite E, !zlen_snoc. split_and!; try done; try lia; [by rewrite <- app_assoc|].
      by constructor. }
    destruct (c =? chr "+") eqn:Ep; wp_step;
      (eapply wp_wr; [exact Hf|done|lia|]; intros out' Hf'; wp_step; refine (Hend _ out' _ eq_refl Hf'); done). }
  (* the two digits behind a percent sign *)
  wp_step. destruct ((c =? chr "%") && (zlen pre + 2 <? zlen (pre ++ c :: s1))) eqn:Epc.
  - apply andb_prop in Epc as [Epc E2]. zb. destruct s1 as [|h [|l s2]];
      [rewrite Hlen, zlen_nil in E2; lia|rewrite Hlen, zlen_cons, zlen_nil in E2; lia|].
    replace (pre ++ c :: h :: l :: s2) with ((pre ++ [c]) ++ h :: l :: s2) at 1 by by rewrite <- app_assoc.
    wp_step. apply wp_rd_mid; [zlens|].
    replace (pre ++ c :: h :: l :: s2) with ((pre ++ [c; h]) ++ l :: s2) at 1 by by rewrite <- app_assoc.
    wp_step. apply wp_rd_mid; [zlens|]. wp_step.
    destruct (negb (hex_val h =? -1) && negb (hex_val l =? -1)) eqn:Ehl.
    + assert (Eu : unurl (c :: h :: l :: s2) =
        if hex_val h * 16 + hex_val l =? 0 then unurl s2 else hex_val h * 16 + hex_val l :: unurl s2).
      { cbn [unurl]. by rewrite <- andb_assoc, Ehl, Epc. }
      zb. destruct (hex_val_range h) as [?|Hh]; [done|]. destruct (hex_val_range l) as [?|Hl]; [done|].
      destruct (nibbles _ _ Hh Hl) as [-> _]. destruct (_ =? 0) eqn:E0; zb; wp_step.
      * exists (pre ++ [c; h; l]), s2, []. rewrite app_nil_r, zlen_app. change (zlen [c; h; l]) with 3.
        split_and!; try done; try lia. by rewrite <- app_assoc.
      * eapply wp_wr; [exact Hf|done|lia|]. intros out' Hf'. wp_step.
        exists (pre ++ [c; h; l]), s2, [hex_val h * 16 + hex_val l].
        rewrite zlen_app, zlen_snoc. change (zlen [c; h; l]) with 3.
        split_and!; try done; try lia; [by rewrite <- app_assoc|by constructor].
    + apply Hplain. cbn [unurl]. by rewrite <- andb_assoc, Ehl, andb_false_r.
  - wp_step. apply Hplain. cbn [unurl]. destruct s1 as [|h [|l s2]]; try done.
    rewrite Hlen, !zlen_cons in Epc. pose proof (zlen_nonneg s2).
    rewrite (proj2 (Z.ltb_lt _ _)), andb_true_r in Epc by lia. by rewrite Epc.
Qed.

Lemma urldecode_ok malloc s :
  malloc_ok malloc -> Forall (fun c => c <> 0) s -> zlen s < 2 ^ 61 ->
  encoding_urldecode malloc (Some s) = Ok (Some (unurl s)).
Proof.
  intros Hm Hs Hn. pose proof (zlen_nonneg s). unfold encoding_urldecode, u64.
  rewrite Z.mod_small by lia.
  edestruct (with_str_ok malloc Hm (zlen s + 1)) with (P := fun t => t = unurl s)
    as (t & E & ->); [lia| |exact E].
  intros out Hf. wp_step.
  apply (wp_iter (fun ij out => exists pre rest done_, s = pre ++ rest /\
      ij = (zlen pre, zlen done_) /\ zlen done_ <= zlen pre /\ filled (zlen s + 1) done_ out /\
      Forall (fun c => c <> 0) done_ /\ unurl s = done_ ++ unurl rest)
    (fun ij _ => Z.to_nat (zlen s - ij.1))).
  - exists [], s, []. by split_and!.
  - cbn [fst]. unfold zlen. lia.
  - clear out Hf. intros [i j] out (pre & rest & done_ & Hp & [= -> ->] & Hle & Hf & Hz & Hu).
    assert (Hsl : zlen s = zlen pre + zlen rest) by (by rewrite Hp, zlen_app).
    destruct rest as [|c rest].
    + rewrite (proj2 (Z.ltb_ge _ _)) by (rewrite Hsl, zlen_nil; lia). wp_step.
      cbn [unurl] in Hu. rewrite app_nil_r in Hu.
      eapply wp_wr; [exact Hf|done|rewrite zlen_nil in Hsl; lia|].
      intros out' Hf'. exists done_. by split_and!.
    + rewrite zlen_cons in Hsl. pose proof (zlen_nonneg rest).
      rewrite (proj2 (Z.ltb_lt _ _)) by lia. wp_step.
      eapply wp_conseq; [apply (wp_urldecode_step s pre (c :: rest)); try done|].
      intros ij out' (pre' & rest' & em & Hp' & -> & Hlt & Hle' & Hf' & Hz' & Hu'). wp_step.
      cbn [fst]. split.
      * exists pre', rest', (done_ ++ em). split_and!; try done; [by apply Forall_app|].
        by rewrite Hu, Hu', app_assoc.
      * assert (zlen pre' <= zlen s) by (rewrite Hp', zlen_app; pose proof (zlen_nonneg rest'); lia).
        lia.
Qed.

Lemma unurl_text s : Forall (fun c => 0 < c < 256) s -> unurl (url_text s) = s.
Proof.
  induction 1 as [|c s Hc Hs IH]; [done|]. unfold url_text in *. cbn [map concat]. unfold url_char at 1.
  destruct (is_unreserved c) eqn:Eu.
  - assert (Hp : (c =? chr "%") = false /\ (c =? chr "+") = false).
    { unfold is_unreserved in Eu. split; apply Z.eqb_neq; intros ->; by vm_compute in Eu. }
    destruct Hp as [H1 H2]. cbn [app unurl]. rewrite H1, H2, IH. cbn [andb]. by repeat case_match.
  - unfold hex_byte. cbn [app unurl].
    destruct (hex_byte_vals c) as (H1 & H2 & H3); [unfold byte; cbn; lia|].
    rewrite !(proj2 (Z.eqb_neq _ (-1))) by done. rewrite Z.eqb_refl. cbn [negb andb].
    rewrite H3, (proj2 (Z.eqb_neq _ _)) by lia. by rewrite IH.
Qed.
