(* ===== verification/EncUtf8.v ===== *)
(** * UTF-8

    The validation accepts the concatenations of the encodings of Unicode
    scalar values, as RFC 3629 defines them, and nothing else.  A text is valid
    exactly when the parts between its ASCII characters are. *)

From Stdlib Require Import ZArith Lia String Ascii.
From stdpp Require Import base tactics list.
From S2P Require Import Prelude Encoding EncBase EncDecode.
Open Scope Z_scope.

(** ** RFC 3629 *)

Definition scalar (cp : Z) : Prop := 0 <= cp < 0x110000 /\ ~ (0xd800 <= cp < 0xe000).

Definition utf8_enc (cp : Z) : list Z :=
  if cp <? 0x80 then [cp]
  else if cp <? 0x800 then [0xc0 + cp / 64; 0x80 + cp mod 64]
  else if cp <? 0x10000 then [0xe0 + cp / 4096; 0x80 + cp / 64 mod 64; 0x80 + cp mod 64]
  else [0xf0 + cp / 262144; 0x80 + cp / 4096 mod 64; 0x80 + cp / 64 mod 64; 0x80 + cp mod 64].

Definition utf8_text (cps : list Z) : list Z := concat (map utf8_enc cps).

Definition utf8_valid (data : list Z) : Prop :=
  exists cps, Forall scalar cps /\ data = utf8_text cps.

(** ** One code point *)

Definition lead_ref (b : Z) : option (Z * Z) :=
  if b <? 0x80 then Some (b, 0)
  else if b <? 0xc0 then None
  else if b <? 0xe0 then Some (b - 0xc0, 1)
  else if b <? 0xf0 then Some (b - 0xe0, 2)
  else if b <? 0xf8 then Some (b - 0xf0, 3)
  else None.

Definition is_cont (c : Z) : bool := (0x80 <=? c) && (c <? 0xc0).

Fixpoint conts (n : nat) (r : list Z) (cp : Z) : option (Z * list Z) :=
  match n with
  | O => Some (cp, r)
  | S n =>
      match r with
      | c :: r => if is_cont c then conts n r (cp * 64 + (c - 0x80)) else None
      | [] => None
      end
  end.

Definition utf8_step (r : list Z) : option (Z * list Z) :=
  match r with
  | [] => None
  | b :: r =>
      match lead_ref b with
      | None => None
      | Some (cp, extra) =>
          match conts (Z.to_nat extra) r cp with
          | None => None
          | Some (cp, r) => if utf8_range_ok extra cp then Some (cp, r) else None
          end
      end
  end.

Lemma lead_eq b : byte b -> utf8_lead b = lead_ref b.
Proof.
  intros Hb. pose proof (byte_all (fun b =>
    match utf8_lead b, lead_ref b with
    | Some (x, e), Some (x', e') => (x =? x') && (e =? e')
    | None, None => true
    | _, _ => false
    end) ltac:(vm_compute; reflexivity) b Hb) as H. cbn beta in H.
  destruct (utf8_lead b) as [[x e]|], (lead_ref b) as [[x' e']|]; try done. zb. by subst.
Qed.

Lemma cont_eq c :
  byte c -> (Z.land c 0xc0 =? 0x80) = is_cont c /\ (is_cont c = true -> Z.land c 0x3f = c - 0x80).
Proof.
  intros Hc. pose proof (byte_all (fun c => Bool.eqb (Z.land c 0xc0 =? 0x80) (is_cont c) &&
    (negb (is_cont c) || (Z.land c 0x3f =? c - 0x80))) ltac:(vm_compute; reflexivity) c Hc) as H.
  cbn beta in H.
  apply andb_prop in H as [H1%eqb_prop H2]. split; [done|]. intros Hi. rewrite Hi in H2. by apply Z.eqb_eq.
Qed.

(** [(cp << 6) | x] *)
Lemma push6 cp x : 0 <= cp < 2 ^ 24 -> 0 <= x < 64 -> u32 (Z.lor (Z.shiftl cp 6) x) = cp * 64 + x.
Proof.
  intros Hc Hx.
  assert (Hland : Z.land (Z.shiftl cp 6) x = 0).
  { apply Z.bits_inj'. intros n Hn. rewrite Z.land_spec, Z.bits_0.
    destruct (Z.lt_ge_cases n 6).
    - by rewrite Z.shiftl_spec_low.
    - rewrite <- (Z.mod_small x (2 ^ 6)), Z.mod_pow2_bits_high by lia. apply andb_false_r. }
  pose proof (Z.add_lor_land (Z.shiftl cp 6) x) as Ha. rewrite Hland, Z.add_0_r in Ha.
  rewrite Z.shiftl_mul_pow2 in * by lia. rewrite Ha. apply Z.mod_small. lia.
Qed.

Lemma is_cont_add x : 0 <= x < 64 -> is_cont (0x80 + x) = true.
Proof. intros. unfold is_cont. rewrite (proj2 (Z.leb_le _ _)), (proj2 (Z.ltb_lt _ _)) by lia. done. Qed.

Lemma scalar_range cp : scalar cp <-> (0 <= cp < 0xd800 \/ 0xe000 <= cp < 0x110000).
Proof. unfold scalar. lia. Qed.

Lemma range_ok_intro e cp :
  0 <= cp < 0xd800 \/ 0xe000 <= cp < 0x110000 ->
  (e = 1 -> 0x80 <= cp) -> (e = 2 -> 0x800 <= cp) -> (e = 3 -> 0x10000 <= cp) ->
  utf8_range_ok e cp = true.
Proof.
  intros Hs H1 H2 H3. unfold utf8_range_ok. rewrite !andb_true_iff, !negb_true_iff.
  split_and!; [| | | |by apply Z.ltb_ge; lia];
    match goal with |- ?a && ?b = false => destruct a eqn:?, b eqn:? end; zb; (done || lia).
Qed.

Lemma range_ok_inv e cp :
  utf8_range_ok e cp = true ->
  (e = 1 -> 0x80 <= cp) /\ (e = 2 -> 0x800 <= cp) /\ (e = 3 -> 0x10000 <= cp) /\
  ~ (0xd800 <= cp < 0xe000) /\ cp < 0x110000.
Proof.
  unfold utf8_range_ok. rewrite !andb_true_iff, !negb_true_iff, !andb_false_iff.
  rewrite !Z.eqb_neq, !Z.ltb_ge, !Z.leb_gt. lia.
Qed.

Lemma split64 q x : 0 <= x < 64 -> (q * 64 + x) / 64 = q /\ (q * 64 + x) mod 64 = x.
Proof. intros Hx. rewrite Z.add_comm, Z.div_add, Z.mod_add, Z.div_small, Z.mod_small by lia. lia. Qed.

(** A step behind a lead byte. *)
Lemma step_lead k v e l r :
  lead_ref (k + v) = Some (v, e) ->
  utf8_step ((k + v :: l) ++ r) =
    match conts (Z.to_nat e) (l ++ r) v with
    | None => None
    | Some (cp, r) => if utf8_range_ok e cp then Some (cp, r) else None
    end.
Proof. intros E. cbn [utf8_step app]. by rewrite E. Qed.

(** The decoding of an encoding. *)
Lemma utf8_step_enc cp r : scalar cp -> utf8_step (utf8_enc cp ++ r) = Some (cp, r).
Proof.
  intros Hs%scalar_range. unfold utf8_enc.
  pose proof (Z.mod_pos_bound cp 64 ltac:(lia)).
  pose proof (Z.mod_pos_bound (cp / 64) 64 ltac:(lia)).
  pose proof (Z.mod_pos_bound (cp / 4096) 64 ltac:(lia)).
  pose proof (Z.div_mod cp 64 ltac:(lia)). pose proof (Z.div_mod (cp / 64) 64 ltac:(lia)).
  pose proof (Z.div_mod (cp / 4096) 64 ltac:(lia)).
  assert (E1 : cp / 64 / 64 = cp / 4096) by (rewrite Z.div_div; [done|lia..]).
  assert (E2 : cp / 4096 / 64 = cp / 262144) by (rewrite Z.div_div; [done|lia..]).
  rewrite E1, E2 in *.
  pose proof (fun e => range_ok_intro e cp Hs) as Hok.
  destruct (cp <? 0x80) eqn:?; zb.
  { cbn [app utf8_step]. unfold lead_ref. rewrite (proj2 (Z.ltb_lt _ _)) by done.
    cbn [Z.to_nat conts]. change (Z.to_nat 0) with 0%nat. cbn [conts]. rewrite Hok by lia; done. }
  destruct (cp <? 0x800) eqn:?; zb; [|destruct (cp <? 0x10000) eqn:?; zb].
  - rewrite (step_lead 0xc0 (cp / 64) 1);[|].
    + change (Z.to_nat 1) with 1%nat. cbn [app conts]. rewrite is_cont_add by done.
      replace (cp / 64 * 64 + (0x80 + cp mod 64 - 0x80)) with cp by lia. rewrite Hok by lia; done.
    + unfold lead_ref. rewrite (proj2 (Z.ltb_ge _ 0x80)), (proj2 (Z.ltb_ge _ 0xc0)),
        (proj2 (Z.ltb_lt _ 0xe0)) by lia. do 2 f_equal. lia.
  - rewrite (step_lead 0xe0 (cp / 4096) 2);[|].
    + change (Z.to_nat 2) with 2%nat. cbn [app conts]. rewrite !is_cont_add by done.
      replace ((cp / 4096 * 64 + (0x80 + cp / 64 mod 64 - 0x80)) * 64 + (0x80 + cp mod 64 - 0x80))
        with cp by lia. rewrite Hok by lia; done.
    + unfold lead_ref. rewrite (proj2 (Z.ltb_ge _ 0x80)), (proj2 (Z.ltb_ge _ 0xc0)),
        (proj2 (Z.ltb_ge _ 0xe0)), (proj2 (Z.ltb_lt _ 0xf0)) by lia. do 2 f_equal. lia.
  - rewrite (step_lead 0xf0 (cp / 262144) 3);[|].
    + change (Z.to_nat 3) with 3%nat. cbn [app conts]. rewrite !is_cont_add by done.
      replace (((cp / 262144 * 64 + (0x80 + cp / 4096 mod 64 - 0x80)) * 64 +
        (0x80 + cp / 64 mod 64 - 0x80)) * 64 + (0x80 + cp mod 64 - 0x80)) with cp by lia.
      rewrite Hok by lia; done.
    + unfold lead_ref. rewrite (proj2 (Z.ltb_ge _ 0x80)), (proj2 (Z.ltb_ge _ 0xc0)),
        (proj2 (Z.ltb_ge _ 0xe0)), (proj2 (Z.ltb_ge _ 0xf0)), (proj2 (Z.ltb_lt _ 0xf8)) by lia.
      do 2 f_equal. lia.
Qed.

(** The text of what is decoded. *)
Lemma utf8_step_inv r cp r' :
  Forall byte r -> utf8_step r = Some (cp, r') -> scalar cp /\ r = utf8_enc cp ++ r'.
Proof.
  intros Hb H. destruct r as [|b r]; [done|]. apply Forall_cons in Hb as [Hb _].
  unfold byte in Hb. change (2 ^ Z.of_nat 8) with 256 in Hb. cbn [utf8_step] in H.
  pose proof range_ok_inv as Hok.
  unfold lead_ref in H.
  destruct (b <? 0x80) eqn:?; zb.
  { cbn [conts] in H. change (Z.to_nat 0) with 0%nat in H. cbn [conts] in H.
    destruct (utf8_range_ok 0 b) eqn:E; [|done]. injection H as <- <-. split; [unfold scalar; lia|].
    unfold utf8_enc. by rewrite (proj2 (Z.ltb_lt _ _)). }
  destruct (b <? 0xc0) eqn:?; [done|]. zb.
  pose proof split64 as Hdiv.
  destruct (b <? 0xe0) eqn:?; zb; [|destruct (b <? 0xf0) eqn:?; zb; [|destruct (b <? 0xf8) eqn:?; [|done]]];
    zb.
  - change (Z.to_nat 1) with 1%nat in H. destruct r as [|c1 r]; cbn [conts] in H; [done|].
    destruct (is_cont c1) eqn:E1; [|done]. unfold is_cont in E1. zb.
    destruct (utf8_range_ok _ _) eqn:E; [|done]. injection H as Ecp <-. apply Hok in E. rewrite Ecp in E.
    destruct (Hdiv (b - 0xc0) (c1 - 0x80) ltac:(lia)) as [D1 D2]. rewrite Ecp in *.
    split; [unfold scalar; lia|]. unfold utf8_enc.
    rewrite (proj2 (Z.ltb_ge _ 0x80)), (proj2 (Z.ltb_lt _ 0x800)) by lia.
    cbn [app]. rewrite D1, D2. do 2 f_equal; [lia|f_equal; lia].
  - change (Z.to_nat 2) with 2%nat in H. destruct r as [|c1 [|c2 r]]; cbn [conts] in H;
      [done|by destruct (is_cont c1)|].
    destruct (is_cont c1) eqn:E1; [|done]. destruct (is_cont c2) eqn:E2; [|done].
    unfold is_cont in E1, E2. zb.
    destruct (utf8_range_ok _ _) eqn:E; [|done]. injection H as Ecp <-. apply Hok in E. rewrite Ecp in E.
    destruct (Hdiv (b - 0xe0) (c1 - 0x80) ltac:(lia)) as [D1 D2].
    destruct (Hdiv ((b - 0xe0) * 64 + (c1 - 0x80)) (c2 - 0x80) ltac:(lia)) as [D3 D4].
    rewrite Ecp in *. assert (D5 : cp / 4096 = b - 0xe0).
    { change 4096 with (64 * 64). rewrite <- Z.div_div by lia. by rewrite D3. }
    split; [unfold scalar; lia|]. unfold utf8_enc.
    rewrite (proj2 (Z.ltb_ge _ 0x80)), (proj2 (Z.ltb_ge _ 0x800)), (proj2 (Z.ltb_lt _ 0x10000)) by lia.
    cbn [app]. rewrite D5, D3, D2, D4. f_equal; [lia|]. f_equal; [lia|]. f_equal. lia.
  - change (Z.to_nat 3) with 3%nat in H. destruct r as [|c1 [|c2 [|c3 r]]]; cbn [conts] in H;
      [done|by destruct (is_cont c1)|by destruct (is_cont c1), (is_cont c2)|].
    destruct (is_cont c1) eqn:E1; [|done]. destruct (is_cont c2) eqn:E2; [|done].
    destruct (is_cont c3) eqn:E3; [|done]. unfold is_cont in E1, E2, E3. zb.
    destruct (utf8_range_ok _ _) eqn:E; [|done]. injection H as Ecp <-. apply Hok in E. rewrite Ecp in E.
    destruct (Hdiv (b - 0xf0) (c1 - 0x80) ltac:(lia)) as [D1 D2].
    destruct (Hdiv ((b - 0xf0) * 64 + (c1 - 0x80)) (c2 - 0x80) ltac:(lia)) as [D3 D4].
    destruct (Hdiv (((b - 0xf0) * 64 + (c1 - 0x80)) * 64 + (c2 - 0x80)) (c3 - 0x80) ltac:(lia)) as [D5 D6].
    rewrite Ecp in *. assert (D7 : cp / 4096 = (b - 0xf0) * 64 + (c1 - 0x80)).
    { change 4096 with (64 * 64). rewrite <- Z.div_div by lia. by rewrite D5. }
    assert (D8 : cp / 262144 = b - 0xf0).
    { change 262144 with (64 * 64 * 64). rewrite <- !Z.div_div by lia. by rewrite D5, D3. }
    split; [unfold scalar; lia|]. unfold utf8_enc.
    rewrite (proj2 (Z.ltb_ge _ 0x80)), (proj2 (Z.ltb_ge _ 0x800)), (proj2 (Z.ltb_ge _ 0x10000)) by lia.
    cbn [app]. rewrite D8, D7, D2, D5, D4, D6. f_equal; [lia|]. f_equal; [lia|]. f_equal; [lia|].
    f_equal. lia.
Qed.

(** A step moves between a valid text and a valid rest. *)
Lemma utf8_valid_step r :
  Forall byte r -> r <> [] ->
  match utf8_step r with
  | Some (_, r') => utf8_valid r <-> utf8_valid r'
  | None => ~ utf8_valid r
  end.
Proof.
  intros Hb Hne.
  assert (Hv : utf8_valid r -> exists cp r', utf8_step r = Some (cp, r') /\ utf8_valid r').
  { intros (cps & Hs & ->). destruct Hs as [|cp cps Hcp Hs]; [done|].
    exists cp, (utf8_text cps). split; [|by exists cps]. unfold utf8_text. cbn [map concat].
    by apply utf8_step_enc. }
  destruct (utf8_step r) as [[cp r']|] eqn:E.
  - split.
    + intros (? & ? & [= <- <-] & ?)%Hv. done.
    + intros (cps & Hs & ->). destruct (utf8_step_inv _ _ _ Hb E) as [Hcp ->].
      exists (cp :: cps). split; [by constructor|done].
  - by intros (? & ? & ? & ?)%Hv.
Qed.

(** ** The code *)

Lemma wp_conts data n pre r cp (s : unit) :
  data = pre ++ r -> Forall byte r -> (n <= 3)%nat -> 0 <= cp < 2 ^ (24 - 6 * Z.of_nat n + 6) ->
  wp (utf8_conts data n (zlen pre) cp)
    (fun o _ => match conts n r cp with
                | Some (cp', r') => exists pre', o = Some (zlen pre', cp') /\ data = pre' ++ r' /\
                                      zlen pre <= zlen pre'
                | None => o = None
                end) s.
Proof.
  revert pre r cp. induction n as [|n IH]; intros pre r cp -> Hb Hn Hcp; cbn [utf8_conts conts].
  { wp_step. exists pre. split_and!; [done|done|lia]. }
  destruct r as [|c r].
  - rewrite (proj2 (Z.leb_le _ _)) by (rewrite app_nil_r; lia). by wp_step.
  - rewrite (proj2 (Z.leb_gt _ _)) by (rewrite zlen_app, zlen_cons; pose proof (zlen_nonneg r); lia).
    apply Forall_cons in Hb as [Hc Hb].
    wp_step. apply wp_rd_mid; [done|]. destruct (cont_eq c Hc) as [-> Hand]. destruct (is_cont c) eqn:Ec; cbn [negb]; [|by wp_step].
    rewrite Hand by done. unfold is_cont in Ec. zb.
    assert (Hp : 0 <= cp < 2 ^ 24).
    { split; [lia|]. eapply Z.lt_le_trans; [apply Hcp|]. apply Z.pow_le_mono_r; lia. }
    rewrite push6 by lia. rewrite <- (zlen_snoc pre c).
    eapply wp_conseq; [apply (IH (pre ++ [c]) r)|]; [by rewrite <- app_assoc|done|lia| |].
    { replace (24 - 6 * Z.of_nat n + 6) with (24 - 6 * Z.of_nat (S n) + 6 + 6) by lia.
      rewrite Z.pow_add_r by lia. lia. }
    cbn beta. intros o u Ho. destruct (conts n r _) as [[cp' r']|]; [|done].
    destruct Ho as (pre' & -> & E & ?). exists pre'. split_and!; [done|done|].
    rewrite zlen_snoc in *. lia.
Qed.

Lemma wp_validate_step data p (s : unit) pre r :
  Forall byte data -> data = pre ++ r -> p = zlen pre -> r <> [] ->
  wp (do b <- rd data p;
      let p := p + 1 in
      if b <? 0x80 then ret (inl p)
      else
      match utf8_lead b with
      | None => ret (inr false)
      | Some (cp, extra) =>
          do o <- utf8_conts data (Z.to_nat extra) p cp;
          match o with
          | None => ret (inr false)
          | Some (p, cp) => if utf8_range_ok extra cp then ret (inl p) else ret (inr false)
          end
      end)
    (fun o _ => match utf8_step r with
                | Some (_, r') => exists pre', o = inl (zlen pre') /\ data = pre' ++ r' /\
                                    zlen pre < zlen pre'
                | None => o = inr false
                end) s.
Proof.
  intros Hb -> -> Hne. destruct r as [|b r]; [done|]. rewrite Forall_app, Forall_cons in Hb.
  destruct Hb as (_ & Hb & Hr). wp_step. apply wp_rd_mid; [done|]. cbn [utf8_step].
  rewrite lead_eq by done. destruct (b <? 0x80) eqn:E0.
  - unfold lead_ref. rewrite E0. zb. cbn [conts]. change (Z.to_nat 0) with 0%nat. cbn [conts].
    destruct Hb as [Hb _]. rewrite (range_ok_intro 0 b) by lia. wp_step.
    exists (pre ++ [b]). rewrite zlen_snoc. split_and!; [done|by rewrite <- app_assoc|lia].
  - assert (Hl : forall cp extra, lead_ref b = Some (cp, extra) -> 0 <= extra <= 3 /\
      0 <= cp < 2 ^ (24 - 6 * extra + 6)).
    { intros cp extra. destruct Hb as [? ?]. change (2 ^ Z.of_nat 8) with 256 in *.
      unfold lead_ref. repeat case_match; intros [= <- <-]; zb; (split; [lia|]); cbn; lia. }
    destruct (lead_ref b) as [[cp extra]|]; [|by wp_step]. destruct (Hl cp extra eq_refl) as [He Hcp].
    wp_step. rewrite <- (zlen_snoc pre b).
    eapply wp_conseq; [apply (wp_conts _ (Z.to_nat extra) (pre ++ [b]) r);
      [by rewrite <- app_assoc|done|lia|by rewrite Z2Nat.id by lia]|].
    intros o u H. destruct (conts _ r cp) as [[cp' r']|]; [|by subst; wp_step].
    destruct H as (pre' & -> & E & Hle). destruct (utf8_range_ok extra cp'); wp_step; [|done].
    exists pre'. split_and!; [done|done|]. rewrite zlen_snoc in Hle. lia.
Qed.

Lemma utf8_validate_ok data :
  Forall byte data ->
  exists b, encoding_utf8_validate data = Ok b /\ (b = true <-> utf8_valid data).
Proof.
  intros Hb. unfold encoding_utf8_validate.
  assert (Hw : wp (utf8_validate_loop data) (fun b _ => b = true <-> utf8_valid data) tt).
  { apply (wp_iter (fun p _ => exists pre r, data = pre ++ r /\ p = zlen pre /\
      (utf8_valid data <-> utf8_valid r)) (fun p _ => Z.to_nat (zlen data - p))).
    - exists [], data. by split_and!.
    - unfold zlen. lia.
    - intros p u (pre & r & Hp & -> & Hv). destruct (zlen pre <? zlen data) eqn:E; zb.
      + assert (Hne : r <> []) by (intros ->; rewrite app_nil_r in Hp; subst; lia).
        assert (Hbr : Forall byte r) by (rewrite Hp in Hb; by apply Forall_app in Hb as [_ ?]).
        eapply wp_conseq; [by apply (wp_validate_step data _ u pre r Hb Hp)|].
        intros o u' Ho. pose proof (utf8_valid_step r Hbr Hne) as Hst.
        destruct (utf8_step r) as [[cp r']|].
        * destruct Ho as (pre' & -> & E' & Hlt). split.
          { exists pre', r'. split_and!; [done|done|]. by rewrite Hv. }
          rewrite E', zlen_app in *. pose proof (zlen_nonneg r'). lia.
        * subst o. rewrite Hv. by split.
      + wp_step. assert (r = []) as ->.
        { destruct r as [|c r]; [done|]. rewrite Hp, zlen_app, zlen_cons in E.
          pose proof (zlen_nonneg r). lia. }
        split; [|done]. intros _. apply Hv. by exists []. }
  unfold wp in Hw. destruct (utf8_validate_loop data tt) as [[b []]| |]; [by exists b|done..].
Qed.

(** ** Counting *)

Lemma rune_count_enc cp s n :
  scalar cp ->
  rune_count_loop (utf8_enc cp ++ s) n = rune_count_loop s (u64 (n + 1)).
Proof.
  intros Hs%scalar_range.
  assert (Hhead : forall c t, byte c -> is_cont c = false ->
    rune_count_loop (c :: t) n = rune_count_loop t (u64 (n + 1))).
  { intros c t Hc Hn. cbn [rune_count_loop]. destruct (cont_eq c Hc) as [-> _]. by rewrite Hn. }
  assert (Hcont : forall x t m, 0 <= x < 64 ->
    rune_count_loop (0x80 + x :: t) m = rune_count_loop t m).
  { intros x t m Hx. cbn [rune_count_loop]. destruct (cont_eq (0x80 + x)) as [-> _].
    - unfold byte. cbn. lia.
    - by rewrite is_cont_add. }
  assert (Hlead : forall k q, 0xc0 <= k + q < 256 -> byte (k + q) /\ is_cont (k + q) = false).
  { intros k q Hq. split; [unfold byte; cbn; lia|]. unfold is_cont.
    by rewrite (proj2 (Z.ltb_ge _ 0xc0)), andb_false_r by lia. }
  assert (Hq : 0 <= cp / 64 /\ 0 <= cp / 4096 /\ 0 <= cp / 262144)
    by (split_and!; apply Z.div_pos; lia).
  pose proof (Z.mod_pos_bound cp 64 ltac:(lia)).
  pose proof (Z.mod_pos_bound (cp / 64) 64 ltac:(lia)).
  pose proof (Z.mod_pos_bound (cp / 4096) 64 ltac:(lia)).
  unfold utf8_enc. repeat case_match; zb; cbn [app].
  - apply Hhead; [unfold byte; cbn; lia|]. unfold is_cont.
    by rewrite (proj2 (Z.leb_gt _ _)).
  - assert (cp / 64 < 32) by (apply Z.div_lt_upper_bound; lia).
    destruct (Hlead 0xc0 (cp / 64)); [lia|]. by rewrite Hhead, Hcont.
  - assert (cp / 4096 < 16) by (apply Z.div_lt_upper_bound; lia).
    destruct (Hlead 0xe0 (cp / 4096)); [lia|]. by rewrite Hhead, !Hcont.
  - assert (cp / 262144 < 8) by (apply Z.div_lt_upper_bound; lia).
    destruct (Hlead 0xf0 (cp / 262144)); [lia|]. by rewrite Hhead, !Hcont.
Qed.

Lemma rune_count_text cps n :
  Forall (fun cp => cp <> 0 /\ scalar cp) cps -> 0 <= n -> n + zlen cps < 2 ^ 64 ->
  rune_count_loop (utf8_text cps) n = n + zlen cps.
Proof.
  intros H. revert n. induction H as [|cp cps [_ Hcp] Hs IH]; intros n Hn Hl.
  - cbn. unfold zlen. cbn. lia.
  - rewrite zlen_cons in *. pose proof (zlen_nonneg cps). unfold utf8_text in *. cbn [map concat].
    rewrite rune_count_enc by done. unfold u64. rewrite Z.mod_small by lia. rewrite IH; lia.
Qed.

(** ** ASCII characters in a text *)

Definition ascii_char (c : Z) : bool := (0 <=? c) && (c <? 128).
Definition ascii (l : list Z) : Prop := forallb ascii_char l = true.

Lemma utf8_valid_app s r : utf8_valid s -> utf8_valid r -> utf8_valid (s ++ r).
Proof.
  intros (cs & Hs & ->) (cr & Hr & ->). exists (cs ++ cr). split; [by apply Forall_app|].
  unfold utf8_text. by rewrite map_app, concat_app.
Qed.

Lemma utf8_valid_char c : ascii_char c = true -> utf8_valid [c].
Proof.
  unfold ascii_char. intros Hc. zb. exists [c]. split; [constructor; [unfold scalar; lia|constructor]|].
  unfold utf8_text, utf8_enc. cbn [map concat]. by rewrite (proj2 (Z.ltb_lt _ _)) by lia.
Qed.

(** An encoding is one ASCII character, or has none. *)
Lemma utf8_enc_ascii cp : scalar cp -> utf8_enc cp = [cp] \/ Forall (fun b => ascii_char b = false) (utf8_enc cp).
Proof.
  intros [Hr _]. unfold utf8_enc. destruct (cp <? 0x80) eqn:E1; [by left|right]. zb.
  assert (H : forall k n, 128 <= k -> 0 <= n -> ascii_char (k + n) = false).
  { intros k n Hk Hn. unfold ascii_char. rewrite (proj2 (Z.ltb_ge _ _)) by lia. apply andb_false_r. }
  assert (Hd : forall n, 0 < n -> 0 <= cp / n) by (intros; apply Z.div_pos; lia).
  destruct (cp <? 0x800); [|destruct (cp <? 0x10000)]; repeat (constructor; [apply H; first [lia|apply Hd; lia|apply Z.mod_pos_bound; lia]|]); constructor.
Qed.

(** A text is cut at any ASCII character. *)
Lemma utf8_valid_cut c s r : ascii_char c = true -> utf8_valid (s ++ c :: r) <-> utf8_valid s /\ utf8_valid r.
Proof.
  intros Hc. split.
  2:{ intros [Hs Hr]. apply utf8_valid_app; [done|]. by apply (utf8_valid_app [c]); [apply utf8_valid_char|]. }
  intros (cps & Hcps & E). revert s E. induction Hcps as [|cp cps Hcp Hcps IH]; intros s E; [by destruct s|].
  unfold utf8_text in E. cbn [map concat] in E. fold (utf8_text cps) in E.
  destruct (utf8_enc_ascii cp Hcp) as [Hen|Hen].
  - rewrite Hen in E. destruct s as [|x s]; cbn [app] in E; injection E as <- E.
    + split; [by exists []|]. by exists cps.
    + destruct (IH s E) as [Hs Hr]. split; [|done]. apply (utf8_valid_app [x]); [|done]. exists [x].
      split; [by constructor|]. unfold utf8_text. cbn [map concat]. by rewrite Hen.
  - symmetry in E. apply app_eq_app in E as (k & [[E1 E2]|[E1 E2]]).
    + destruct k as [|x k].
      * rewrite app_nil_r in E1. subst s. cbn [app] in E2. destruct (IH [] E2) as [_ Hr]. split; [|done].
        exists [cp]. split; [by constructor|]. unfold utf8_text. cbn [map concat]. by rewrite app_nil_r.
      * injection E2 as <- E2. rewrite E1 in Hen. apply Forall_app in Hen as [_ Hen]. apply Forall_cons in Hen as [Hen _]. congruence.
    + destruct (IH k (eq_sym E2)) as [Hs Hr]. split; [|done]. rewrite E1. apply utf8_valid_app; [|done].
      exists [cp]. split; [by constructor|]. unfold utf8_text. cbn [map concat]. by rewrite app_nil_r.
Qed.

Lemma utf8_valid_ascii a r : ascii a -> utf8_valid (a ++ r) <-> utf8_valid r.
Proof.
  unfold ascii. induction a as [|c a IH]; [done|]. intros [Hc Ha]%andb_prop.
  rewrite <- (IH Ha), (utf8_valid_cut c [] (a ++ r) Hc). split; [by intros []|]. intros. split; [by exists []|done].
Qed.

Lemma utf8_valid_cut_ascii s a r : ascii a -> a <> [] -> utf8_valid (s ++ a ++ r) <-> utf8_valid s /\ utf8_valid r.
Proof.
  destruct a as [|c a]; [done|]. intros [Hc Ha]%andb_prop _. cbn [app]. rewrite (utf8_valid_cut c) by done.
  by rewrite (utf8_valid_ascii a).
Qed.
