(* ===== verification/EncProps.v ===== *)
(** * The encodings' theorems

    While [malloc] succeeds: every function of [encoding.c] ends, writes only
    inside its array, returns a terminated string or an array of the length it
    says, and computes the encoding or decoding it is named after. *)

From Stdlib Require Import ZArith Lia String Ascii.
From stdpp Require Import base tactics list.
From S2P Require Import Prelude Encoding EncBase EncDecode EncUtf8.
Open Scope Z_scope.

(** ** Sizes and the empty input *)

Lemma rfc_len w block alpha pad data out :
  (5 <= w)%nat -> (block <= 8)%nat -> rfc4648 w block alpha pad data out ->
  zlen out <= 2 * zlen data + 2 * Z.of_nat w + 8.
Proof.
  intros Hw Hb [vals zeros pads _ Hs Hz Hp _]. apply (f_equal length) in Hs.
  rewrite length_app, !spell_length, length_replicate in Hs.
  rewrite zlen_app, zlen_map. unfold zlen. rewrite length_replicate. nia.
Qed.

Lemma rfc_empty w block alpha pad :
  (0 < w)%nat -> (0 < block)%nat -> rfc4648 w block alpha pad [] [].
Proof.
  intros Hw Hb. apply (rfc4648_intro w block alpha pad [] [] 0 0); try done.
  destruct pad; [|done]. apply Nat.Div0.mod_0_l.
Qed.

Lemma with_str_empty malloc : malloc_ok malloc -> with_str malloc 1 (wr 0 0) = Ok (Some []).
Proof.
  intros Hm. destruct (with_str_ok malloc Hm 1 (wr 0 0) (fun s => s = [])) as (s & E & ->);
    [done| |done].
  intros out Hf. apply (wp_wr _ _ _ _ _ _ Hf); [done|done|]. intros out' Hf'. by exists [].
Qed.

Lemma b64_chars alpha : table_okb alpha = true -> zlen alpha = 64 /\ Forall (fun c => c <> 0) alpha.
Proof.
  intros Ht. destruct (table_parts alpha Ht) as (_ & _ & _ & Hl & Hc). split; [done|].
  eapply Forall_impl; [exact Hc|]. intros c H. cbn beta in *. lia.
Qed.

Lemma b64_any_encode alpha malloc data pad :
  table_okb alpha = true -> malloc_ok malloc -> Forall byte data -> zlen data < 2 ^ 58 ->
  exists out, (if zlen data =? 0 then with_str malloc 1 (wr 0 0)
               else b64_encode_impl malloc data alpha pad) = Ok (Some out) /\
    rfc4648 6 4 alpha pad data out.
Proof.
  intros Ht Hm Hb Hn. destruct (b64_chars alpha Ht) as [Hl Hz].
  destruct (zlen data =? 0) eqn:E; zb; [|apply b64_encode_ok; try done; lia].
  exists []. split; [by apply with_str_empty|].
  destruct data; [apply rfc_empty; lia|]. rewrite zlen_cons in E. pose proof (zlen_nonneg data). lia.
Qed.

(** Bytes, by computation. *)
Lemma bytes_ok l : forallb (fun b => (0 <=? b) && (b <? 256)) l = true -> Forall byte l.
Proof.
  intros H. apply List.Forall_forall. intros b Hb. rewrite forallb_forall in H. apply H in Hb.
  zb. by split.
Qed.

Lemma foob_bytes : Forall byte (bytes_of "foob").
Proof. by apply bytes_ok. Qed.

(** ** Base64 *)

(** The base64 encoders compute the base64 and the base64url encoding of
    RFC 4648, the first with padding and the second without, for data of any
    length, in the arrays they allocate. *)
Theorem b64_encode_rfc malloc data :
  malloc_ok malloc -> Forall byte data -> zlen data < 2 ^ 58 ->
  (exists out, encoding_b64encode malloc data = Ok (Some out) /\
     rfc4648 6 4 B64_STD true data out) /\
  (exists out, encoding_b64urlencode malloc data = Ok (Some out) /\
     rfc4648 6 4 B64_URL false data out).
Proof.
  intros Hm Hb Hn. split.
  - exact (b64_any_encode B64_STD malloc data true std_table Hm Hb Hn).
  - exact (b64_any_encode B64_URL malloc data false url_table Hm Hb Hn).
Qed.

Lemma b64_encode_rfc_witness :
  malloc_ok malloc_aa /\ Forall byte (bytes_of "foob") /\ zlen (bytes_of "foob") < 2 ^ 58 /\
  (exists out, encoding_b64encode malloc_aa (bytes_of "foob") = Ok (Some out) /\
     rfc4648 6 4 B64_STD true (bytes_of "foob") out) /\
  (exists out, encoding_b64urlencode malloc_aa (bytes_of "foob") = Ok (Some out) /\
     rfc4648 6 4 B64_URL false (bytes_of "foob") out).
Proof.
  split; [exact malloc_aa_ok|]. split; [exact foob_bytes|]. split; [reflexivity|].
  exact (b64_encode_rfc malloc_aa (bytes_of "foob") malloc_aa_ok foob_bytes eq_refl).
Defined.

(** Decoding what was encoded gives the data back, in both alphabets. *)
Theorem b64_roundtrip malloc data :
  malloc_ok malloc -> Forall byte data -> zlen data < 2 ^ 58 ->
  (exists out, encoding_b64encode malloc data = Ok (Some out) /\
     encoding_b64decode malloc (Some out) = Ok (Some data)) /\
  (exists out, encoding_b64urlencode malloc data = Ok (Some out) /\
     encoding_b64urldecode malloc (Some out) = Ok (Some data)).
Proof.
  intros Hm Hb Hn. split.
  - destruct (b64_any_encode B64_STD malloc data true std_table Hm Hb Hn) as (out & E & R).
    exists out. split; [exact E|]. pose proof (rfc_len 6 4 _ _ _ _ ltac:(lia) ltac:(lia) R).
    apply (b64_decode_rfc B64_STD malloc true data out std_table Hm Hb); [lia|exact R].
  - destruct (b64_any_encode B64_URL malloc data false url_table Hm Hb Hn) as (out & E & R).
    exists out. split; [exact E|]. pose proof (rfc_len 6 4 _ _ _ _ ltac:(lia) ltac:(lia) R).
    apply (b64_decode_rfc B64_URL malloc false data out url_table Hm Hb); [lia|exact R].
Qed.

Lemma b64_roundtrip_witness :
  malloc_ok malloc_aa /\ Forall byte (bytes_of "foob") /\ zlen (bytes_of "foob") < 2 ^ 58 /\
  (exists out, encoding_b64encode malloc_aa (bytes_of "foob") = Ok (Some out) /\
     encoding_b64decode malloc_aa (Some out) = Ok (Some (bytes_of "foob"))) /\
  (exists out, encoding_b64urlencode malloc_aa (bytes_of "foob") = Ok (Some out) /\
     encoding_b64urldecode malloc_aa (Some out) = Ok (Some (bytes_of "foob"))).
Proof.
  split; [exact malloc_aa_ok|]. split; [exact foob_bytes|]. split; [reflexivity|].
  exact (b64_roundtrip malloc_aa (bytes_of "foob") malloc_aa_ok foob_bytes eq_refl).
Defined.

(** The base64 decoder on any string: without the padding at its end, it
    either has a character that is not of the alphabet, and the result is an
    error, or it is the text of values whose bits, but for fewer than eight at
    the end, are those of the result. *)
Theorem b64_decode_any malloc s :
  malloc_ok malloc -> Forall (fun c => 0 <= c < 256) s -> zlen s < 2 ^ 61 ->
  exists core k o, s = core ++ replicate k (chr "=") /\
    (forall l c, core = l ++ [c] -> c <> chr "=") /\
    encoding_b64decode malloc (Some s) = Ok o /\
    match o with
    | Some out => exists vals, Forall (word 6) vals /\ core = map (byte_at B64_STD) vals /\
                    unspells 6 vals out
    | None => exists c, c ∈ core /\ c ∉ B64_STD
    end.
Proof. apply (b64_decode_ok B64_STD std_table). Qed.

Lemma b64_decode_any_witness :
  let s := bytes_of "Zm9v*mFy" in
  malloc_ok malloc_aa /\ Forall (fun c => 0 <= c < 256) s /\ zlen s < 2 ^ 61 /\
  exists core k o, s = core ++ replicate k (chr "=") /\
    (forall l c, core = l ++ [c] -> c <> chr "=") /\
    encoding_b64decode malloc_aa (Some s) = Ok o /\
    match o with
    | Some out => exists vals, Forall (word 6) vals /\ core = map (byte_at B64_STD) vals /\
                    unspells 6 vals out
    | None => exists c, c ∈ core /\ c ∉ B64_STD
    end.
Proof.
  intros s. assert (Hs : Forall (fun c => 0 <= c < 256) s) by (apply (bytes_ok s); reflexivity).
  split; [exact malloc_aa_ok|]. split; [exact Hs|]. split; [reflexivity|].
  exact (b64_decode_any malloc_aa s malloc_aa_ok Hs eq_refl).
Defined.

(** ** Base32 *)

(** The base32 encoder computes the base32 encoding of RFC 4648, and
    decoding it gives the data back. *)
Theorem base32_roundtrip malloc data :
  malloc_ok malloc -> Forall byte data -> zlen data < 2 ^ 58 ->
  exists out, encoding_base32_encode malloc data = Ok (Some out) /\
    rfc4648 5 8 B32_ALPHA true data out /\
    encoding_base32_decode malloc (Some out) = Ok (inr data).
Proof.
  intros Hm Hb Hn. destruct (b32_encode_ok malloc data Hm Hb ltac:(lia)) as (out & E & R).
  exists out. split; [done|]. split; [done|].
  pose proof (rfc_len 5 8 _ _ _ _ ltac:(lia) ltac:(lia) R). apply b32_decode_rfc; try done. lia.
Qed.

Lemma base32_roundtrip_witness :
  malloc_ok malloc_aa /\ Forall byte (bytes_of "foob") /\ zlen (bytes_of "foob") < 2 ^ 58 /\
  exists out, encoding_base32_encode malloc_aa (bytes_of "foob") = Ok (Some out) /\
    rfc4648 5 8 B32_ALPHA true (bytes_of "foob") out /\
    encoding_base32_decode malloc_aa (Some out) = Ok (inr (bytes_of "foob")).
Proof.
  split; [exact malloc_aa_ok|]. split; [exact foob_bytes|]. split; [reflexivity|].
  exact (base32_roundtrip malloc_aa (bytes_of "foob") malloc_aa_ok foob_bytes eq_refl).
Defined.

(** The base32 decoder on any string: padding counts nowhere; a character
    outside the alphabet, whose letters may be small, is an error; otherwise
    the result is what the characters spell, in whole bytes. *)
Theorem base32_decode_any malloc s :
  malloc_ok malloc -> zlen s < 2 ^ 60 ->
  exists r, encoding_base32_decode malloc (Some s) = Ok r /\
    let core := List.filter not_pad s in
    match r with
    | inr out => Forall (fun c => word 5 (b32_char_val c)) core /\
                 unspells 5 (map b32_char_val core) out
    | inl e => e = "invalid base32 input"%string /\ exists c, c ∈ core /\ b32_char_val c = -1
    end.
Proof. apply b32_decode_ok. Qed.

Lemma base32_decode_any_witness :
  let s := bytes_of "mzxw=6ytb" in
  malloc_ok malloc_aa /\ zlen s < 2 ^ 60 /\
  exists r, encoding_base32_decode malloc_aa (Some s) = Ok r /\
    let core := List.filter not_pad s in
    match r with
    | inr out => Forall (fun c => word 5 (b32_char_val c)) core /\
                 unspells 5 (map b32_char_val core) out
    | inl e => e = "invalid base32 input"%string /\ exists c, c ∈ core /\ b32_char_val c = -1
    end.
Proof.
  intros s. split; [exact malloc_aa_ok|]. split; [reflexivity|].
  exact (base32_decode_any malloc_aa s malloc_aa_ok eq_refl).
Defined.

(** ** Hexadecimal and percent-encoding *)

(** The hexadecimal encoder writes two digits for each byte; the decoder
    reads back all pairs of digits, large or small, and nothing else; decoding
    what was encoded gives the data back. *)
Theorem hex_roundtrip malloc data s :
  malloc_ok malloc -> Forall byte data -> zlen data < 2 ^ 58 -> zlen s < 2 ^ 61 ->
  encoding_hexdecode malloc (Some s) = Ok (unhex s) /\
  exists out, encoding_hexencode malloc data = Ok (Some out) /\ zlen out = 2 * zlen data /\
    encoding_hexdecode malloc (Some out) = Ok (Some data).
Proof.
  intros Hm Hb Hn Hs. split; [by apply hexdecode_ok|]. exists (hex_text data).
  pose proof (hex_text_len data). rewrite hexdecode_ok, unhex_text by (done || lia).
  split_and!; [apply hexencode_ok; [done|lia]|done|done].
Qed.

Lemma hex_roundtrip_witness :
  malloc_ok malloc_aa /\ Forall byte (bytes_of "foob") /\ zlen (bytes_of "foob") < 2 ^ 58 /\
  zlen (bytes_of "0aF") < 2 ^ 61 /\
  encoding_hexdecode malloc_aa (Some (bytes_of "0aF")) = Ok (unhex (bytes_of "0aF")) /\
  exists out, encoding_hexencode malloc_aa (bytes_of "foob") = Ok (Some out) /\
    zlen out = 2 * zlen (bytes_of "foob") /\
    encoding_hexdecode malloc_aa (Some out) = Ok (Some (bytes_of "foob")).
Proof.
  split; [exact malloc_aa_ok|]. split; [exact foob_bytes|]. split; [reflexivity|].
  split; [reflexivity|].
  exact (hex_roundtrip malloc_aa (bytes_of "foob") (bytes_of "0aF") malloc_aa_ok foob_bytes
    eq_refl eq_refl).
Defined.

(** Percent-encoding: the decoder on any string is its structural
    definition, which drops an encoded NUL and leaves incomplete escapes alone;
    decoding what was encoded gives the string back. *)
Theorem url_roundtrip malloc s :
  malloc_ok malloc -> Forall (fun c => 0 < c < 256) s -> zlen s < 2 ^ 58 ->
  encoding_urldecode malloc (Some s) = Ok (Some (unurl s)) /\
  exists out, encoding_urlencode malloc (Some s) = Ok (Some out) /\
    encoding_urldecode malloc (Some out) = Ok (Some s).
Proof.
  intros Hm Hs Hn. assert (Hz : Forall (fun c => c <> 0) s).
  { eapply Forall_impl; [exact Hs|]. intros c H. cbn beta in *. lia. }
  split; [apply urldecode_ok; [done|done|lia]|]. exists (url_text s).
  split; [apply urlencode_ok; [done|done|lia]|]. pose proof (url_text_len s).
  rewrite urldecode_ok, unurl_text; [done|done|done|by apply url_text_nonzero|lia].
Qed.

Lemma url_roundtrip_witness :
  let s := bytes_of "a b%00+%4" in
  malloc_ok malloc_aa /\ Forall (fun c => 0 < c < 256) s /\ zlen s < 2 ^ 58 /\
  encoding_urldecode malloc_aa (Some s) = Ok (Some (unurl s)) /\
  exists out, encoding_urlencode malloc_aa (Some s) = Ok (Some out) /\
    encoding_urldecode malloc_aa (Some out) = Ok (Some s).
Proof.
  intros s. assert (Hs : Forall (fun c => 0 < c < 256) s).
  { apply List.Forall_forall. intros c Hc.
    assert (H : forallb (fun c => (0 <? c) && (c <? 256)) s = true) by (vm_compute; done).
    rewrite forallb_forall in H. apply H in Hc. by zb. }
  split; [exact malloc_aa_ok|]. split; [exact Hs|]. split; [reflexivity|].
  exact (url_roundtrip malloc_aa s malloc_aa_ok Hs eq_refl).
Defined.

(** ** UTF-8 *)

(** C25: the validation ends on any bytes, reads nothing outside them, and
    accepts exactly the sequences of encoded Unicode scalar values of RFC 3629:
    no overlong forms, no surrogates, nothing above U+10FFFF, nothing cut off. *)
Theorem utf8_validate_valid data :
  Forall byte data ->
  exists b, encoding_utf8_validate data = Ok b /\ (b = true <-> utf8_valid data).
Proof. apply utf8_validate_ok. Qed.

Lemma utf8_validate_valid_witness :
  let data := [0xed; 0xa0; 0x80; 0x41] in
  Forall byte data /\
  exists b, encoding_utf8_validate data = Ok b /\ (b = true <-> utf8_valid data).
Proof.
  intros data. assert (Hb : Forall byte data) by by apply bytes_ok.
  split; [exact Hb|]. exact (utf8_validate_valid data Hb).
Defined.

(** On the encoding of scalar values the rune count is their number. *)
Theorem utf8_rune_count_valid cps :
  Forall (fun cp => cp <> 0 /\ scalar cp) cps -> zlen cps < 2 ^ 64 ->
  encoding_utf8_rune_count (Some (concat (map utf8_enc cps))) = zlen cps.
Proof. intros H Hl. exact (rune_count_text cps 0 H ltac:(lia) Hl). Qed.

Lemma utf8_rune_count_valid_witness :
  Forall (fun cp => cp <> 0 /\ scalar cp) [0x41; 0xe9; 0x20ac; 0x1f600] /\
  encoding_utf8_rune_count (Some (concat (map utf8_enc [0x41; 0xe9; 0x20ac; 0x1f600]))) =
    zlen [0x41; 0xe9; 0x20ac; 0x1f600].
Proof.
  assert (H : Forall (fun cp => cp <> 0 /\ scalar cp) [0x41; 0xe9; 0x20ac; 0x1f600])
    by (repeat (apply Forall_cons; split; [unfold scalar; lia|]); constructor).
  split; [exact H|]. exact (utf8_rune_count_valid [0x41; 0xe9; 0x20ac; 0x1f600] H ltac:(vm_compute; reflexivity)).
Defined.
