(* ===== verification/Arena.v ===== *)
(** * The arena: [src/src/arena.c]

    A chain of blocks, the newest first; an allocation takes the next bytes of
    the newest block, or of a new one.  A pointer is the number of its block,
    counted from the oldest, and an offset.  [malloc] is a parameter: the first
    contents of an array, or [None].  Signed overflow, a null head and a write
    outside a block are [Oob]. *)

From Stdlib Require Import ZArith Lia String Ascii.
From stdpp Require Import base tactics list.
From S2P Require Import Prelude.
Open Scope Z_scope.

Definition TKC_ARENA_BLOCK_SIZE : Z := 65536.
Definition TKC_ARENA_ALIGN : Z := 8.
(** [sizeof(ArenaBlock)] and [sizeof(Arena)] *)
Definition SIZEOF_BLOCK : Z := 24.
Definition SIZEOF_ARENA : Z := 8.

Record ArenaBlock := mkBlock { bk_data : list Z; bk_cap : Z; bk_used : Z }.

(** The chain from [head] on. *)
Definition Arena : Type := list ArenaBlock.

Record ptr := mkPtr { p_block : Z; p_off : Z }.

Section Arena.
Context (malloc : Z -> option (list Z)).

Definition block_new (min_cap : Z) : option ArenaBlock :=
  let cap := if TKC_ARENA_BLOCK_SIZE <? min_cap then min_cap else TKC_ARENA_BLOCK_SIZE in
  match malloc SIZEOF_BLOCK with
  | None => None
  | Some _ =>
      match malloc cap with
      | None => None
      | Some data => Some (mkBlock data cap 0)
      end
  end.

Definition arena_init : option Arena :=
  match malloc SIZEOF_ARENA with
  | None => None
  | Some _ => option_map (fun b => [b]) (block_new TKC_ARENA_BLOCK_SIZE)
  end.

(** [(size + ALIGN - 1) & ~(ALIGN - 1)] *)
Definition align_up (size : Z) : Z :=
  Z.land (size + TKC_ARENA_ALIGN - 1) (Z.lnot (TKC_ARENA_ALIGN - 1)).

(** [memset(data + off, 0, n)] *)
Definition zero_fill (off n : Z) (data : list Z) : res (list Z) :=
  if (0 <=? off) && (0 <=? n) && (off + n <=? zlen data)
  then Ok (take (Z.to_nat off) data ++ replicate (Z.to_nat n) 0 ++ drop (Z.to_nat (off + n)) data)
  else Oob.

(** The bytes of the newest block. *)
Definition arena_take (size aligned : Z) (arena : Arena) : res (option ptr * Arena) :=
  match arena with
  | [] => Oob
  | b :: older =>
      match zero_fill (bk_used b) size (bk_data b) with
      | Ok data => Ok (Some (mkPtr (zlen older) (bk_used b)),
                       mkBlock data (bk_cap b) (bk_used b + aligned) :: older)
      | Oob => Oob
      | NoFuel => NoFuel
      end
  end.

Definition arena_alloc (arena : Arena) (size : Z) : res (option ptr * Arena) :=
  let size := if size <=? 0 then 1 else size in
  if negb (int_ok (size + TKC_ARENA_ALIGN)) then Oob
  else
  let aligned := align_up size in
  match arena with
  | [] => Oob
  | b :: _ =>
      if negb (int_ok (bk_used b + aligned)) then Oob
      else if bk_cap b <? bk_used b + aligned then
        match block_new aligned with
        | None => Ok (None, arena)
        | Some nb => arena_take size aligned (nb :: arena)
        end
      else arena_take size aligned arena
  end.

(** The blocks in the order in which they are freed, by number. *)
Fixpoint arena_free (arena : Arena) : list Z :=
  match arena with
  | [] => []
  | _ :: next => zlen next :: arena_free next
  end.

End Arena.

(** ** What clients see *)

(** An allocation: where, and how many bytes. *)
Record region := mkRegion { rg_ptr : ptr; rg_size : Z }.

Definition block_at (arena : Arena) (n : Z) : option ArenaBlock :=
  if (0 <=? n) && (n <? zlen arena) then arena !! Z.to_nat (zlen arena - 1 - n) else None.

(** The bytes of a region. *)
Definition contents (arena : Arena) (r : region) : option (list Z) :=
  option_map (fun b => slice (bk_data b) (p_off (rg_ptr r)) (rg_size r))
    (block_at arena (p_block (rg_ptr r))).

(** A client writes bytes to a region. *)
Definition overwrite (data : list Z) (off : Z) (bytes : list Z) : list Z :=
  take (Z.to_nat off) data ++ bytes ++ drop (Z.to_nat (off + zlen bytes)) data.
Definition store (arena : Arena) (r : region) (bytes : list Z) : Arena :=
  alter (fun b => mkBlock (overwrite (bk_data b) (p_off (rg_ptr r)) bytes) (bk_cap b) (bk_used b))
    (Z.to_nat (zlen arena - 1 - p_block (rg_ptr r))) arena.

(** Different blocks, or one behind the other. *)
Definition disjoint (r1 r2 : region) : Prop :=
  p_block (rg_ptr r1) <> p_block (rg_ptr r2) \/
  p_off (rg_ptr r1) + rg_size r1 <= p_off (rg_ptr r2) \/
  p_off (rg_ptr r2) + rg_size r2 <= p_off (rg_ptr r1).
