(* ===== verification/ArenaProps.v ===== *)
(** * What the arena promises

    On every state that calls of the allocator and writes of its clients can
    reach: an allocation ends without overflow, its region is aligned, zeroed,
    inside its block and apart from every live region, and it changes none of
    them; a write to one region is not seen in another. *)

From Stdlib Require Import ZArith Lia String Ascii.
From stdpp Require Import base tactics list.
From S2P Require Import Prelude Arena.
Open Scope Z_scope.

(** The largest size: with it no sum of [arena_alloc] leaves [int]. *)
Definition MAX_ALLOC : Z := 2 ^ 30 - 8.

(** What [malloc] gives has the size asked for. *)
Definition malloc_sized (malloc : Z -> option (list Z)) : Prop :=
  forall n d, 0 <= n -> malloc n = Some d -> zlen d = n.

(** ** Reachable states, with the live regions *)

Inductive reach : Arena -> list region -> Prop :=
  | reach_init malloc a :
      malloc_sized malloc -> arena_init malloc = Some a -> reach a []
  | reach_alloc malloc a rs size p a' :
      reach a rs -> malloc_sized malloc -> size <= MAX_ALLOC ->
      arena_alloc malloc a size = Ok (Some p, a') ->
      reach a' (mkRegion p (Z.max 1 size) :: rs)
  | reach_null malloc a rs size a' :
      reach a rs -> malloc_sized malloc -> size <= MAX_ALLOC ->
      arena_alloc malloc a size = Ok (None, a') -> reach a' rs
  | reach_write a rs r bytes :
      reach a rs -> r ∈ rs -> zlen bytes = rg_size r -> reach (store a r bytes) rs.

(** ** The invariant *)

Definition block_ok (b : ArenaBlock) : Prop :=
  0 <= bk_used b <= bk_cap b /\ bk_cap b <= MAX_ALLOC /\ zlen (bk_data b) = bk_cap b /\
  bk_used b mod 8 = 0.

Definition live (a : Arena) (r : region) : Prop :=
  exists b, block_at a (p_block (rg_ptr r)) = Some b /\
    0 <= p_off (rg_ptr r) /\ p_off (rg_ptr r) mod 8 = 0 /\ 0 < rg_size r /\
    p_off (rg_ptr r) + rg_size r <= bk_used b.

Definition apart (rs : list region) : Prop :=
  forall i j r1 r2, rs !! i = Some r1 -> rs !! j = Some r2 -> i <> j -> disjoint r1 r2.

Definition arena_ok (a : Arena) (rs : list region) : Prop :=
  a <> [] /\ Forall block_ok a /\ Forall (live a) rs /\ apart rs.

(** ** Arithmetic and lists *)

Lemma align_up_spec size :
  0 < size -> size <= align_up size < size + 8 /\ align_up size mod 8 = 0.
Proof.
  intros H. unfold align_up, TKC_ARENA_ALIGN. replace (8 - 1) with (Z.ones 3) by done.
  rewrite <- Z.ldiff_land, Z.ldiff_ones_r, Z.shiftl_mul_pow2, Z.shiftr_div_pow2 by lia.
  change (2 ^ 3) with 8. pose proof (Z.div_mod (size + 8 - 1) 8 ltac:(lia)).
  pose proof (Z.mod_pos_bound (size + 8 - 1) 8 ltac:(lia)).
  rewrite Z_mod_mult. lia.
Qed.

Lemma align_up_max size : size <= MAX_ALLOC -> align_up (Z.max 1 size) <= MAX_ALLOC.
Proof.
  intros H. destruct (align_up_spec (Z.max 1 size) ltac:(lia)) as [? Hm].
  apply Z.div_exact in Hm; [|lia]. unfold MAX_ALLOC in *. lia.
Qed.

(** [memset] is a write of zeroes. *)
Lemma zero_fill_overwrite off n data :
  0 <= off -> 0 <= n -> off + n <= zlen data ->
  zero_fill off n data = Ok (overwrite data off (replicate (Z.to_nat n) 0)).
Proof.
  intros. unfold zero_fill, overwrite, zlen at 2. rewrite length_replicate, Z2Nat.id by lia.
  rewrite (proj2 (Z.leb_le 0 off)), (proj2 (Z.leb_le 0 n)), (proj2 (Z.leb_le _ _)) by lia. done.
Qed.

Section Overwrite.
Context (data bytes : list Z) (off : Z).
Hypothesis Hoff : 0 <= off.
Hypothesis Hin : off + zlen bytes <= zlen data.

Lemma overwrite_len : zlen (overwrite data off bytes) = zlen data.
Proof.
  unfold overwrite, zlen in *. rewrite !length_app, length_take, length_drop. lia.
Qed.

Lemma overwrite_same : slice (overwrite data off bytes) off (zlen bytes) = bytes.
Proof.
  unfold slice, overwrite, zlen in *.
  rewrite drop_app_length' by (rewrite length_take; lia). rewrite Nat2Z.id.
  by rewrite take_app_length.
Qed.

Lemma overwrite_other o n :
  0 <= o -> 0 <= n -> o + n <= zlen data -> o + n <= off \/ off + zlen bytes <= o ->
  slice (overwrite data off bytes) o n = slice data o n.
Proof.
  intros Ho Hn Hl [H|H]; unfold slice, overwrite, zlen in *; apply list_eq; intros i;
    rewrite !lookup_take, !lookup_drop; destruct (decide _) as [Hi|]; [|done| |done].
  - rewrite lookup_app_l by (rewrite length_take; lia). rewrite lookup_take. by rewrite decide_True by lia.
  - rewrite lookup_app_r by (rewrite length_take; lia).
    rewrite lookup_app_r by (rewrite length_take; lia). rewrite lookup_drop, length_take. f_equal. lia.
Qed.
End Overwrite.

(** ** Blocks by number *)

Lemma block_at_range a n b : block_at a n = Some b -> 0 <= n < zlen a.
Proof. unfold block_at. case_match; [|done]. zb. lia. Qed.

Lemma block_at_in a n b : block_at a n = Some b -> b ∈ a.
Proof. unfold block_at. case_match; [|done]. apply list_elem_of_lookup_2. Qed.

Lemma block_at_eq a n : 0 <= n < zlen a -> block_at a n = a !! Z.to_nat (zlen a - 1 - n).
Proof.
  intros. unfold block_at.
  by rewrite (proj2 (Z.leb_le _ _)), (proj2 (Z.ltb_lt _ _)) by lia.
Qed.

Lemma block_at_head b older : block_at (b :: older) (zlen older) = Some b.
Proof.
  pose proof (zlen_nonneg older). rewrite block_at_eq; rewrite zlen_cons; [|lia].
  by replace (Z.to_nat _) with O by lia.
Qed.

Lemma block_at_older b older n :
  0 <= n < zlen older -> block_at (b :: older) n = block_at older n.
Proof.
  intros. rewrite !block_at_eq by (rewrite ?zlen_cons; lia). rewrite zlen_cons.
  by replace (Z.to_nat (1 + zlen older - 1 - n)) with (S (Z.to_nat (zlen older - 1 - n))) by lia.
Qed.

Definition over_block (off : Z) (bytes : list Z) (b : ArenaBlock) : ArenaBlock :=
  mkBlock (overwrite (bk_data b) off bytes) (bk_cap b) (bk_used b).

Lemma store_len a r bytes : zlen (store a r bytes) = zlen a.
Proof. unfold store, Arena, zlen. by rewrite length_alter. Qed.

Lemma store_at a r bytes n :
  0 <= n < zlen a -> 0 <= p_block (rg_ptr r) < zlen a ->
  block_at (store a r bytes) n =
    (if n =? p_block (rg_ptr r) then over_block (p_off (rg_ptr r)) bytes <$> block_at a n
     else block_at a n).
Proof.
  intros Hn Hr. rewrite !block_at_eq by (rewrite ?store_len; lia).
  rewrite store_len. unfold store, Arena in *. case_match; zb.
  - subst. by rewrite list_lookup_alter_eq.
  - rewrite list_lookup_alter_ne by lia. done.
Qed.

Lemma contents_some a r :
  live a r -> exists b, block_at a (p_block (rg_ptr r)) = Some b /\
    contents a r = Some (slice (bk_data b) (p_off (rg_ptr r)) (rg_size r)).
Proof. intros (b & E & _). exists b. unfold contents. by rewrite E. Qed.

Lemma disjoint_sym r1 r2 : disjoint r1 r2 -> disjoint r2 r1.
Proof. unfold disjoint. intros [H|[H|H]]; auto. Qed.

Lemma apart_cons r rs : Forall (disjoint r) rs -> apart rs -> apart (r :: rs).
Proof.
  intros Hr H [|i] [|j] r1 r2 H1 H2 Hne; simplify_eq/=.
  - by apply (Forall_lookup_1 _ _ _ _ Hr H2).
  - apply disjoint_sym. by apply (Forall_lookup_1 _ _ _ _ Hr H1).
  - eapply H; eauto.
Qed.

(** ** A write to a live region *)

(** What stays of a region. *)
Definition kept (a a' : Arena) (r : region) : Prop := live a' r /\ contents a' r = contents a r.

Section Store.
Context (a : Arena) (rs : list region) (r : region) (bytes : list Z).
Hypothesis Ha : Forall block_ok a.
Hypothesis Hr : live a r.
Hypothesis Hb : zlen bytes = rg_size r.

Let range : 0 <= p_block (rg_ptr r) < zlen a.
Proof. destruct Hr as (b & E & _). by apply block_at_range in E. Qed.

Lemma store_blocks : Forall block_ok (store a r bytes).
Proof.
  destruct Hr as (b & E & Ho & _ & Hs & Hu).
  apply Forall_lookup_2. intros i b' Hi. unfold store, Arena in *.
  destruct (decide (i = Z.to_nat (zlen a - 1 - p_block (rg_ptr r)))) as [->|Hne].
  - rewrite list_lookup_alter_eq in Hi. rewrite block_at_eq in E by apply range.
    rewrite E in Hi. simplify_eq/=.
    pose proof (Forall_lookup_1 _ _ _ _ Ha E) as (? & ? & ? & ?).
    unfold block_ok. cbn. rewrite overwrite_len by lia. done.
  - rewrite list_lookup_alter_ne in Hi by done. exact (Forall_lookup_1 _ _ _ _ Ha Hi).
Qed.

Lemma store_same : live (store a r bytes) r /\ contents (store a r bytes) r = Some bytes.
Proof.
  destruct Hr as (b & E & Ho & Hal & Hs & Hu).
  assert (E' : block_at (store a r bytes) (p_block (rg_ptr r)) =
               Some (over_block (p_off (rg_ptr r)) bytes b)).
  { rewrite store_at by apply range. by rewrite Z.eqb_refl, E. }
  pose proof (proj1 (Forall_forall _ _) Ha _ (block_at_in _ _ _ E)) as (? & ? & ? & ?).
  split; [exists (over_block (p_off (rg_ptr r)) bytes b); done|].
  unfold contents. rewrite E'. cbn. rewrite <- Hb, overwrite_same by lia. done.
Qed.

Lemma store_kept r' : live a r' -> disjoint r r' -> kept a (store a r bytes) r'.
Proof.
  destruct Hr as (b & E & Ho & Hal & Hs & Hu).
  intros (b' & E' & Ho' & Hal' & Hs' & Hu') Hd. pose proof (block_at_range _ _ _ E').
  assert (Es := store_at a r bytes _ H range). unfold kept, contents, live. rewrite Es, E'.
  case_match; zb; [|split; [by exists b'|done]]. cbn.
  assert (b' = b) by congruence. subst b'.
  split; [by exists (over_block (p_off (rg_ptr r)) bytes b)|].
  pose proof (proj1 (Forall_forall _ _) Ha _ (block_at_in _ _ _ E)) as (? & ? & ? & ?).
  rewrite overwrite_other; try lia; [done|].
  destruct Hd as [Hd|[Hd|Hd]]; [congruence|lia|lia].
Qed.

Lemma store_live r' : live a r' -> live (store a r bytes) r'.
Proof.
  intros (b' & E' & H'). pose proof (block_at_range _ _ _ E').
  unfold live. rewrite (store_at _ _ _ _ H range), E'. case_match; cbn; eauto.
Qed.

Lemma store_ok : arena_ok a rs -> arena_ok (store a r bytes) rs.
Proof.
  intros (Hne & _ & Hl & Hd). split_and!; [|apply store_blocks| |done].
  - intros E. pose proof (store_len a r bytes). rewrite E in *. destruct a; done.
  - eapply Forall_impl; [exact Hl|]. apply store_live.
Qed.
End Store.

(** ** An allocation *)

(** Room for the region, then zeroes in it. *)
Section Take.
Context (b : ArenaBlock) (older : Arena) (rs : list region) (size aligned : Z).
Hypothesis Hok : arena_ok (b :: older) rs.
Hypothesis Hs : 0 < size <= aligned.
Hypothesis Hal : aligned mod 8 = 0.
Hypothesis Hroom : bk_used b + aligned <= bk_cap b.

Let grown : Arena := mkBlock (bk_data b) (bk_cap b) (bk_used b + aligned) :: older.
Let new : region := mkRegion (mkPtr (zlen older) (bk_used b)) size.

Lemma grown_kept r : live (b :: older) r -> kept (b :: older) grown r.
Proof.
  intros (b' & E & H). pose proof (block_at_range _ _ _ E) as Hr. rewrite zlen_cons in Hr.
  unfold kept, contents, live. rewrite E. unfold grown.
  destruct (decide (p_block (rg_ptr r) = zlen older)) as [Hz|Hz].
  - rewrite Hz in *. rewrite block_at_head in *. simplify_eq. cbn.
    split; [|done]. eexists. split; [done|]. cbn. lia.
  - rewrite block_at_older in * by lia. rewrite E. split; [by exists b'|done].
Qed.

Lemma new_live : live grown new.
Proof.
  destruct Hok as (_ & Hb & _). apply Forall_cons in Hb as [(? & ? & ? & ?) _].
  exists (mkBlock (bk_data b) (bk_cap b) (bk_used b + aligned)). cbn.
  split; [apply block_at_head|]. lia.
Qed.

Lemma new_disjoint : Forall (disjoint new) rs.
Proof.
  destruct Hok as (_ & _ & Hl & _). eapply Forall_impl; [exact Hl|].
  intros r (b' & E & H). unfold disjoint. cbn.
  destruct (decide (zlen older = p_block (rg_ptr r))) as [Hz|Hz]; [|by left].
  rewrite <- Hz, block_at_head in E. simplify_eq. lia.
Qed.

Lemma grown_ok : arena_ok grown (new :: rs).
Proof.
  destruct Hok as (_ & Hb & Hl & Hd). apply Forall_cons in Hb as [(? & ? & ? & ?) Hb].
  split_and!; [done| | |].
  - constructor; [|done]. unfold block_ok. cbn. split_and!; try lia.
    rewrite Z.add_mod, Hal, H2 by lia. done.
  - constructor; [apply new_live|]. eapply Forall_impl; [exact Hl|]. apply grown_kept.
  - apply apart_cons; [apply new_disjoint|done].
Qed.

Lemma arena_take_ok :
  exists a', arena_take size aligned (b :: older) = Ok (Some (rg_ptr new), a') /\
    arena_ok a' (new :: rs) /\ contents a' new = Some (replicate (Z.to_nat size) 0) /\
    Forall (kept (b :: older) a') rs.
Proof.
  pose proof grown_ok as Hg. pose proof new_live as Hn.
  assert (Hz : zlen (replicate (Z.to_nat size) 0) = rg_size new)
    by (unfold zlen; rewrite length_replicate; cbn; lia).
  exists (store grown new (replicate (Z.to_nat size) 0)). split_and!.
  - destruct Hok as (_ & Hb & _). apply Forall_cons in Hb as [(? & ? & ? & ?) _].
    unfold arena_take. rewrite zero_fill_overwrite by lia. unfold store, grown.
    rewrite zlen_cons. cbn [rg_ptr new p_block p_off].
    replace (Z.to_nat (1 + zlen older - 1 - zlen older)) with O by lia. done.
  - apply store_ok; [apply Hg|done|done|done].
  - apply store_same; [apply Hg|done|done].
  - apply Forall_forall. intros r Hr. destruct Hok as (_ & _ & Hl & _).
    pose proof (proj1 (Forall_forall _ _) Hl r Hr) as Hlr.
    destruct (grown_kept r Hlr) as [Hg1 Hg2].
    pose proof (proj1 (Forall_forall _ _) new_disjoint r Hr) as Hd.
    destruct (store_kept _ _ _ (proj1 (proj2 Hg)) Hn Hz r Hg1 Hd) as [H1 H2].
    split; [done|]. by rewrite H2.
Qed.
End Take.

(** A new block in front moves nothing. *)
Lemma push_kept nb a r : live a r -> kept a (nb :: a) r.
Proof.
  intros (b & E & H). pose proof (block_at_range _ _ _ E). unfold kept, contents, live.
  rewrite block_at_older, E by lia. split; [by exists b|done].
Qed.

Lemma push_ok nb a rs : block_ok nb -> arena_ok a rs -> arena_ok (nb :: a) rs.
Proof.
  intros Hn (_ & Hb & Hl & Hd). split_and!; [done|by constructor| |done].
  eapply Forall_impl; [exact Hl|]. apply push_kept.
Qed.

Section Alloc.
Context (malloc : Z -> option (list Z)).
Hypothesis Hm : malloc_sized malloc.

Lemma block_new_ok min_cap b :
  min_cap <= MAX_ALLOC -> block_new malloc min_cap = Some b ->
  block_ok b /\ bk_used b = 0 /\ min_cap <= bk_cap b.
Proof.
  unfold block_new, block_ok, TKC_ARENA_BLOCK_SIZE, MAX_ALLOC. intros Hc H.
  destruct (malloc SIZEOF_BLOCK); [|done].
  destruct (65536 <? min_cap) eqn:?; zb;
    (destruct (malloc _) as [d|] eqn:E in H; [|done]);
    (apply Hm in E; [|lia]); injection H as <-; cbn; split_and!; try done; lia.
Qed.

Lemma arena_init_ok a : arena_init malloc = Some a -> arena_ok a [].
Proof.
  unfold arena_init. case_match; [|done].
  destruct (block_new malloc TKC_ARENA_BLOCK_SIZE) as [b|] eqn:E; [|done].
  intros. simplify_eq/=.
  apply block_new_ok in E as [? _]; [|done]. split_and!; [done|by apply Forall_singleton|done|].
  intros i j r1 r2 H1. done.
Qed.

Lemma arena_alloc_ok a rs size :
  arena_ok a rs -> size <= MAX_ALLOC ->
  (arena_alloc malloc a size = Ok (None, a) /\ exists n, malloc n = None) \/
  exists p a', arena_alloc malloc a size = Ok (Some p, a') /\
    arena_ok a' (mkRegion p (Z.max 1 size) :: rs) /\
    contents a' (mkRegion p (Z.max 1 size)) = Some (replicate (Z.to_nat (Z.max 1 size)) 0) /\
    Forall (kept a a') rs.
Proof.
  intros Ha Hs. unfold arena_alloc.
  replace (if size <=? 0 then 1 else size) with (Z.max 1 size) by (case_match; zb; lia).
  pose proof (align_up_spec (Z.max 1 size) ltac:(lia)) as [Hl Hal].
  pose proof (align_up_max size Hs) as Hmax.
  assert (Hint : forall v, 0 <= v < 2 ^ 31 -> int_ok v = true).
  { intros v Hv. unfold int_ok. rewrite (proj2 (Z.leb_le _ _)), (proj2 (Z.ltb_lt _ _)) by lia. done. }
  unfold MAX_ALLOC, TKC_ARENA_ALIGN in *. rewrite Hint by lia. cbn [negb].
  destruct a as [|b older]; [by destruct Ha|].
  assert (block_ok b) as (? & ? & ? & ?) by (destruct Ha as (_ & Hb & _); by apply Forall_cons in Hb as [? _]).
  unfold MAX_ALLOC in *. rewrite Hint by lia. cbn [negb].
  set (sz := Z.max 1 size) in *.
  destruct (bk_cap b <? _) eqn:Hc; zb.
  - destruct (block_new malloc (align_up sz)) as [nb|] eqn:E.
    + right. apply block_new_ok in E as (Hnb & Hu & Hcap); [|exact Hmax].
      destruct (arena_take_ok nb (b :: older) rs sz (align_up sz)) as (a' & E & ? & ? & Hk);
        [by apply push_ok|lia|done|lia|].
      rewrite E. eexists _, a'. split_and!; [done|done|done|].
      apply Forall_forall. intros r Hr. destruct (proj1 (Forall_forall _ _) Hk r Hr) as [? Hc'].
      split; [done|]. rewrite Hc'. apply push_kept.
      destruct Ha as (_ & _ & Hlive & _). exact (proj1 (Forall_forall _ _) Hlive r Hr).
    + left. split; [done|]. unfold block_new in E. repeat case_match; eauto; done.
  - right. destruct (arena_take_ok b older rs sz (align_up sz)) as (a' & E & ? & ? & Hk);
      [done|lia|done|lia|].
    rewrite E. eexists _, a'. done.
Qed.
End Alloc.

Lemma reach_ok a rs : reach a rs -> arena_ok a rs.
Proof.
  induction 1 as [malloc a Hm E|malloc a rs size p a' _ IH Hm Hs E|malloc a rs size a' _ IH Hm Hs E
                 |a rs r bytes _ IH Hr Hb].
  - by eapply arena_init_ok.
  - destruct (arena_alloc_ok malloc Hm a rs size IH Hs) as [[E' _]|(q & b & E' & ? & _)];
      rewrite E in E'; by simplify_eq.
  - destruct (arena_alloc_ok malloc Hm a rs size IH Hs) as [[E' _]|(q & b & E' & _)];
      rewrite E in E'; by simplify_eq.
  - apply store_ok; [apply IH| |done|done].
    destruct IH as (_ & _ & Hl & _). exact (proj1 (Forall_forall _ _) Hl r Hr).
Qed.

(** [arena_free] frees the blocks of the chain, each once. *)
Lemma arena_free_blocks a : NoDup (arena_free a) /\ forall n, n ∈ arena_free a <-> 0 <= n < zlen a.
Proof.
  induction a as [|b a [Hd Hi]]; cbn [arena_free].
  - split; [constructor|]. intros n. change (zlen []) with 0. split; [by intros ?%elem_of_nil|lia].
  - split.
    + constructor; [|done]. rewrite Hi. lia.
    + intros n. rewrite elem_of_cons, Hi, zlen_cons. pose proof (zlen_nonneg a). lia.
Qed.

(** ** The theorems *)

(** C27: in every reachable state an allocation of at most [MAX_ALLOC] bytes
    ends without overflow or stray access: when [malloc] fails with [NULL] and
    the arena as it was; else with a region that is aligned, inside its block,
    zeroed and disjoint from every live one, all of which keep their bytes. *)
Theorem arena_alloc_fresh malloc a rs size :
  reach a rs -> malloc_sized malloc -> size <= MAX_ALLOC ->
  (arena_alloc malloc a size = Ok (None, a) /\ exists n, malloc n = None) \/
  exists p a', let r := mkRegion p (Z.max 1 size) in
    arena_alloc malloc a size = Ok (Some p, a') /\ p_off p mod 8 = 0 /\ live a' r /\
    contents a' r = Some (replicate (Z.to_nat (Z.max 1 size)) 0) /\
    Forall (disjoint r) rs /\ Forall (kept a a') rs.
Proof.
  intros Hr%reach_ok Hm Hs.
  destruct (arena_alloc_ok malloc Hm a rs size Hr Hs) as [H|(p & a' & E & Hok & Hz & Hk)]; [by left|right].
  exists p, a'. destruct Hok as (_ & _ & Hl & Hd). apply Forall_cons in Hl as [Hl _].
  split_and!; [done| |done|done| |done].
  - destruct Hl as (b & _ & _ & H & _). exact H.
  - apply Forall_lookup_2. intros i r Hi. exact (Hd O (S i) _ _ eq_refl Hi ltac:(lia)).
Qed.

Definition malloc_zero (n : Z) : option (list Z) := Some (replicate (Z.to_nat n) 0).

Lemma malloc_zero_sized : malloc_sized malloc_zero.
Proof.
  intros n d Hn [= <-].
  unfold zlen. rewrite length_replicate. lia.
Qed.

Definition arena0 : Arena := [mkBlock (replicate (Z.to_nat 65536) 0) 65536 0].

Lemma arena0_reach : reach arena0 [].
Proof. by eapply reach_init; [apply malloc_zero_sized|]. Qed.

Lemma arena_alloc_fresh_witness :
  reach arena0 [] /\ malloc_sized malloc_zero /\ 13 <= MAX_ALLOC /\
  ((arena_alloc malloc_zero arena0 13 = Ok (None, arena0) /\ exists n, malloc_zero n = None) \/
   exists p a', let r := mkRegion p 13 in
    arena_alloc malloc_zero arena0 13 = Ok (Some p, a') /\ p_off p mod 8 = 0 /\ live a' r /\
    contents a' r = Some (replicate (Z.to_nat 13) 0) /\
    Forall (disjoint r) [] /\ Forall (kept arena0 a') []).
Proof.
  assert (H : 13 <= MAX_ALLOC) by (unfold MAX_ALLOC; lia).
  split; [exact arena0_reach|]. split; [exact malloc_zero_sized|]. split; [exact H|].
  exact (arena_alloc_fresh malloc_zero arena0 [] 13 arena0_reach malloc_zero_sized H).
Defined.

(** In every reachable state what a client writes to its region is there,
    and no other live region changes. *)
Theorem arena_write_apart a rs i j r1 r2 bytes :
  reach a rs -> rs !! i = Some r1 -> rs !! j = Some r2 -> i <> j -> zlen bytes = rg_size r1 ->
  contents (store a r1 bytes) r1 = Some bytes /\
  is_Some (contents a r2) /\ contents (store a r1 bytes) r2 = contents a r2.
Proof.
  intros (_ & Hb & Hl & Hd)%reach_ok H1 H2 Hij Hn.
  pose proof (Forall_lookup_1 _ _ _ _ Hl H1) as L1. pose proof (Forall_lookup_1 _ _ _ _ Hl H2) as L2.
  split_and!.
  - by apply store_same.
  - destruct (contents_some _ _ L2) as (b & _ & E). by rewrite E.
  - by apply store_kept; [| | | |apply (Hd i j)].
Qed.

Example arena_two :
  match arena_alloc malloc_zero arena0 13 with
  | Ok (Some p, a) =>
      match arena_alloc malloc_zero a 5, arena_alloc malloc_zero a 65536 with
      | Ok (Some q, _), Ok (Some r, _) => (p, q, r)
      | _, _ => (p, p, p)
      end
  | _ => (mkPtr 9 9, mkPtr 9 9, mkPtr 9 9)
  end = (mkPtr 0 0, mkPtr 0 16, mkPtr 1 0).
Proof. vm_compute. reflexivity. Qed.


(** Two allocations. *)
Lemma two_regions : exists a p q, reach a [mkRegion q 5; mkRegion p 13].
Proof.
  assert (Hs : 13 <= MAX_ALLOC /\ 5 <= MAX_ALLOC) by (unfold MAX_ALLOC; lia).
  destruct (arena_alloc_ok malloc_zero malloc_zero_sized arena0 [] 13 (reach_ok _ _ arena0_reach))
    as [(_ & n & E)|(p & a1 & E1 & Ok1 & _)]; [lia|done|].
  pose proof (reach_alloc _ _ _ _ _ _ arena0_reach malloc_zero_sized (proj1 Hs) E1) as H1.
  destruct (arena_alloc_ok malloc_zero malloc_zero_sized a1 _ 5 Ok1)
    as [(_ & n & E)|(q & a2 & E2 & _)]; [lia|done|].
  pose proof (reach_alloc _ _ _ _ _ _ H1 malloc_zero_sized (proj2 Hs) E2) as H2.
  exists a2, p, q. exact H2.
Qed.

Lemma arena_write_apart_witness :
  exists a p q, let r1 := mkRegion q 5 in let r2 := mkRegion p 13 in
    reach a [r1; r2] /\ contents (store a r1 [1; 2; 3; 4; 5]) r1 = Some [1; 2; 3; 4; 5] /\
    is_Some (contents a r2) /\ contents (store a r1 [1; 2; 3; 4; 5]) r2 = contents a r2.
Proof.
  destruct two_regions as (a & p & q & H). exists a, p, q. split; [exact H|].
  exact (arena_write_apart a _ 0 1 _ _ [1; 2; 3; 4; 5] H eq_refl eq_refl ltac:(lia) eq_refl).
Defined.
