(* ===== verification/CStr.v ===== *)
(** * Strings and ranges of arrays, as the C library sees them

    [strlen], [strstr], [strchr], [memchr] and the loops that skip characters, on
    an array and a position; the string at a position ends at the next zero,
    and none before the end of the array is undefined behaviour. *)

From Stdlib Require Import ZArith Lia String Ascii.
From stdpp Require Import base tactics list.
From S2P Require Import Prelude.
Open Scope Z_scope.

(** ** On lists *)

Fixpoint starts_with (w l : list Z) : bool :=
  match w, l with
  | [], _ => true
  | c :: w, d :: l => (c =? d) && starts_with w l
  | _, [] => false
  end.

(** The first occurrence of [w]. *)
Fixpoint find_sub (w l : list Z) : option Z :=
  if starts_with w l then Some 0
  else match l with
       | [] => None
       | _ :: l => option_map (Z.add 1) (find_sub w l)
       end.

(** The first character [c]. *)
Fixpoint index (c : Z) (l : list Z) : option Z :=
  match l with
  | [] => None
  | d :: l => if d =? c then Some 0 else option_map (Z.add 1) (index c l)
  end.

(** The first characters that satisfy [f], and what is left. *)
Fixpoint drop_while (f : Z -> bool) (l : list Z) : list Z :=
  match l with
  | [] => []
  | c :: l' => if f c then drop_while f l' else l
  end.

(** ** On arrays *)

(** The string at [p]. *)
Definition cstr {S} (buf : list Z) (p : Z) : M S (list Z) :=
  let l := drop (Z.to_nat p) buf in
  if (0 <=? p) && existsb (Z.eqb 0) l then ret (until_nul l) else oob.

Definition strlen {S} (buf : list Z) (p : Z) : M S Z := do s <- cstr buf p; ret (zlen s).

Definition strstr {S} (buf : list Z) (p : Z) (w : list Z) : M S (option Z) :=
  do s <- cstr buf p; ret (option_map (Z.add p) (find_sub w s)).

(** [c] is not 0. *)
Definition strchr {S} (buf : list Z) (p c : Z) : M S (option Z) :=
  do s <- cstr buf p; ret (option_map (Z.add p) (index c s)).

Definition memchr {S} (buf : list Z) (p c n : Z) : M S (option Z) :=
  do s <- rd_range buf p n; ret (option_map (Z.add p) (index c s)).

(** [strncmp(buf + p, w, strlen(w)) == 0] *)
Definition strncmp_eq {S} (buf : list Z) (p : Z) (w : list Z) : M S bool :=
  do s <- cstr buf p; ret (starts_with w s).

(** [while (p < end && f( *p)) p++;] *)
Definition skip_while {S} (buf : list Z) (f : Z -> bool) (p end_ : Z) : M S Z :=
  iter (Datatypes.S (Z.to_nat (end_ - p)))
    (fun p =>
       if p <? end_ then
         do c <- rd buf p;
         ret (if f c then inl (p + 1) else inr p)
       else ret (inr p)) p.

(** [(int)v] *)
Definition to_int (v : Z) : Z := (v + 2 ^ 31) mod 2 ^ 32 - 2 ^ 31.

(** [snprintf] into a buffer of [size] characters. *)
Definition printed (size : Z) (s : list Z) : list Z := take (Z.to_nat (size - 1)) s.

(** Behind the last point. *)
Fixpoint last_seg_from (seg p : list Z) : list Z :=
  match p with
  | [] => seg
  | c :: p => if c =? chr "." then last_seg_from p p else last_seg_from seg p
  end.
Definition last_seg (p : list Z) : list Z := last_seg_from p p.

(** ** Commands that leave the state *)

Definition runs {S A} (m : M S A) (v : A) : Prop := forall s, m s = Ok (v, s).

Section Runs.
Context {S : Type}.

Lemma runs_ret {A} (v : A) : runs (S := S) (ret v) v.
Proof. by intros s. Qed.

Lemma runs_seq {A B} (m : M S A) (k : A -> M S B) v w :
  runs m v -> runs (k v) w -> runs (bind m k) w.
Proof. intros Hm Hk s. unfold bind. rewrite Hm. apply Hk. Qed.

Lemma runs_iter_next {A B} f (body : A -> M S (A + B)) a a' v :
  runs (body a) (inl a') -> runs (iter f body a') v -> runs (iter (Datatypes.S f) body a) v.
Proof. intros Hb Hi. simpl. eapply runs_seq; [exact Hb|exact Hi]. Qed.

Lemma runs_iter_stop {A B} f (body : A -> M S (A + B)) a v :
  runs (body a) (inr v) -> runs (iter (Datatypes.S f) body a) v.
Proof. intros Hb. simpl. eapply runs_seq; [exact Hb|apply runs_ret]. Qed.

Lemma runs_wp {A} (m : M S A) v (Q : A -> S -> Prop) s : runs m v -> Q v s -> wp m Q s.
Proof. intros H HQ. unfold wp. by rewrite H. Qed.
End Runs.

(** ** A text inside an array

    [at_ buf e p l]: from [p] to the end [e] of a range the array holds [l], a
    text without zeros. *)

Section At.
Context (buf : list Z) {S : Type}.

Record at_ (e p : Z) (l : list Z) : Prop := {
  at_low : 0 <= p;
  at_end : p + zlen l = e;
  at_high : e <= zlen buf;
  at_text : slice buf p (zlen l) = l;
  at_chars : Forall (fun c => c <> 0) l
}.

Lemma at_pos e p l : at_ e p l -> p = e - zlen l.
Proof. intros H. pose proof (at_end _ _ _ H). lia. Qed.

Lemma at_empty e p l : at_ e p l -> (p <? e) = negb (bool_decide (l = [])).
Proof.
  intros H. pose proof (at_end _ _ _ H). destruct l as [|c l].
  - rewrite zlen_nil in *. rewrite bool_decide_true by done. apply Z.ltb_ge. lia.
  - rewrite zlen_cons in *. pose proof (zlen_nonneg l). rewrite bool_decide_false by done.
    apply Z.ltb_lt. lia.
Qed.

Lemma at_lt e p c l : at_ e p (c :: l) -> (p <? e) = true.
Proof. intros H. by rewrite (at_empty _ _ _ H). Qed.

Lemma at_app e p k l : at_ e p (k ++ l) -> at_ e (p + zlen k) l.
Proof.
  intros [H1 H2 H3 H4 H5]. rewrite zlen_app in *.
  pose proof (zlen_nonneg k). pose proof (zlen_nonneg l).
  rewrite slice_app in H4 by lia. apply app_inj_1 in H4 as [_ H4].
  - apply Forall_app in H5 as [_ H5]. split; [lia|lia|lia|done|done].
  - apply Nat2Z.inj. change (zlen (slice buf p (zlen k)) = zlen k). rewrite zlen_slice; lia.
Qed.

Lemma at_prefix e p k l : at_ e p (k ++ l) -> at_ (p + zlen k) p k.
Proof.
  intros [H1 H2 H3 H4 H5]. rewrite zlen_app in *.
  pose proof (zlen_nonneg k). pose proof (zlen_nonneg l).
  rewrite slice_app in H4 by lia. apply app_inj_1 in H4 as [H4 _].
  - apply Forall_app in H5 as [H5 _]. split; [lia|lia|lia|done|done].
  - apply Nat2Z.inj. change (zlen (slice buf p (zlen k)) = zlen k). rewrite zlen_slice; lia.
Qed.

Lemma at_next e p c l : at_ e p (c :: l) -> at_ e (p + 1) l.
Proof. intros H. exact (at_app e p [c] l H). Qed.

(** A suffix, by the length that is left. *)
Lemma at_suffix e p l l' : at_ e p l -> suffix l' l -> at_ e (e - zlen l') l'.
Proof.
  intros H [k ->]. pose proof (at_end _ _ _ H) as He. rewrite zlen_app in He.
  replace (e - zlen l') with (p + zlen k) by lia. by apply at_app.
Qed.

Lemma at_range e p l : at_ e p l -> slice buf p (e - p) = l.
Proof. intros H. rewrite (at_pos _ _ _ H). replace (e - (e - zlen l)) with (zlen l) by lia.
  rewrite <- (at_pos _ _ _ H). apply (at_text _ _ _ H). Qed.

Lemma runs_rd e p c l : at_ e p (c :: l) -> runs (S := S) (rd buf p) c.
Proof.
  intros H s. pose proof (at_prefix e p [c] l H) as [H1 H2 H3 H4 _].
  rewrite zlen_cons, zlen_nil in *. unfold rd.
  rewrite (proj2 (Z.leb_le _ _)), (proj2 (Z.ltb_lt _ _)) by lia. cbn.
  change (1 + 0) with 1 in H4. rewrite slice_1 in H4 by lia. injection H4 as ->. done.
Qed.

Lemma runs_rd_range e p k l : at_ e p (k ++ l) -> runs (S := S) (rd_range buf p (zlen k)) k.
Proof.
  intros H s. destruct (at_prefix e p k l H) as [H1 H2 H3 H4 _]. pose proof (zlen_nonneg k).
  unfold rd_range. rewrite !(proj2 (Z.leb_le _ _)) by lia. cbn. by rewrite H4.
Qed.

Lemma runs_rd_all e p l : at_ e p l -> runs (S := S) (rd_range buf p (e - p)) l.
Proof.
  intros H. pose proof (at_end _ _ _ H). replace (e - p) with (zlen l) by lia.
  apply (runs_rd_range e p l []). by rewrite app_nil_r.
Qed.

Lemma drop_while_suffix f l : suffix (drop_while f l) l.
Proof. induction l as [|c l IH]; simpl; [done|]. case_match; [by apply suffix_cons_r|done]. Qed.

Lemma runs_skip_while f e p l :
  at_ e p l -> runs (S := S) (skip_while buf f p e) (e - zlen (drop_while f l)).
Proof.
  unfold skip_while. assert (Hf : at_ e p l -> (length l < Datatypes.S (Z.to_nat (e - p)))%nat).
  { intros H. pose proof (at_end _ _ _ H). unfold zlen in *. lia. }
  intros H. specialize (Hf H). revert Hf. generalize (Datatypes.S (Z.to_nat (e - p))) as fuel.
  intros fuel. revert fuel p H.
  induction l as [|c l IH]; intros fuel p H Hf; (destruct fuel as [|fuel]; [simpl in Hf; lia|]).
  - apply runs_iter_stop. rewrite (at_empty _ _ _ H). cbn. rewrite (at_pos _ _ _ H). apply runs_ret.
  - cbn [drop_while]. destruct (f c) eqn:Ef.
    + eapply runs_iter_next; [|apply IH; [by eapply at_next|simpl in Hf; lia]].
      * rewrite (at_lt _ _ _ _ H). eapply runs_seq; [by eapply runs_rd|]. rewrite Ef. apply runs_ret.
    + apply runs_iter_stop. rewrite (at_lt _ _ _ _ H).
      eapply runs_seq; [by eapply runs_rd|]. rewrite Ef, (at_pos _ _ _ H). apply runs_ret.
Qed.
End At.
