(* ===== verification/ModName.v ===== *)
(** * Module names: the helpers of [src/src/names.c]

    C strings are the lists of their characters, as numbers, without the
    terminator. *)

From Stdlib Require Import ZArith Lia String Ascii.
From stdpp Require Import base tactics list.
From S2P Require Import Prelude.
Open Scope Z_scope.

Definition TKC_MAX_PATH : Z := 512.

(** [tolower] of the C locale. *)
Definition tolower (c : Z) : Z := if (chr "A" <=? c) && (c <=? chr "Z") then c + 32 else c.

Definition is_digit (c : Z) : bool := (chr "0" <=? c) && (c <=? chr "9").

(** ** Versions *)

(** The loop of [validate_version]; the empty list is at the terminator. *)
Fixpoint version_parts (v : list Z) (parts digits : Z) : option Z :=
  match v with
  | [] => if digits =? 0 then None else Some (parts + 1)
  | c :: v =>
      if is_digit c then version_parts v parts (digits + 1)
      else if c =? chr "." then
        if digits =? 0 then None else version_parts v (parts + 1) 0
      else None
  end.

Definition validate_version (v : option (list Z)) : bool :=
  match v with
  | None | Some [] => false
  | Some v =>
      match version_parts v 0 0 with
      | None => false
      | Some parts => (parts =? 2) || (parts =? 3)
      end
  end.

(** The number before the first point; signed overflow is [Oob]. *)
Fixpoint major_loop (v : list Z) (maj : Z) : res Z :=
  match v with
  | [] => Ok maj
  | c :: v =>
      if c =? chr "." then Ok maj
      else if negb (is_digit c) then Ok (-1)
      else if int_ok (maj * 10 + (c - chr "0")) then major_loop v (maj * 10 + (c - chr "0"))
      else Oob
  end.

Definition version_major (v : option (list Z)) : res Z :=
  match v with
  | None => Ok (-1)
  | Some v => major_loop v 0
  end.

(** ** Known modules *)

Definition s_known_modules : list (list Z) := map bytes_of
  ["json"; "str"; "http"; "file"; "env"; "log"; "time"; "process";
   "db"; "crypto"; "encrypt"; "auth"; "ws"; "sse"; "router"; "template";
   "csv"; "math"; "llm"; "tool"; "chart"; "html"; "dashboard"; "svg";
   "canvas"; "image"; "dataframe"; "analytics"; "ml"; "toon"; "yaml";
   "i18n"; "encoding"; "gpu"; "net"; "sys"; "std"; "fmt"; "zip";
   "xlsx"; "pdf"]%string.

Definition is_known_module (seg : list Z) : bool :=
  if (zlen seg <=? 0) || (128 <=? zlen seg) then false
  else existsb (bytes_eqb (map tolower seg)) s_known_modules.

(** ** Distances *)

(** The cells of a row from the second on: [pd] is above to the left, [prev]
    begins above, [left] is the cell before. *)
Fixpoint lev_cells (ca : Z) (b : list Z) (pd : Z) (prev : list Z) (left : Z) : list Z :=
  match b, prev with
  | cb :: b, pu :: prev =>
      let cost := if ca =? tolower cb then 0 else 1 in
      let del := pu + 1 in
      let ins := left + 1 in
      let sub := pd + cost in
      let mn := if del <? ins then del else ins in
      let v := if mn <? sub then mn else sub in
      v :: lev_cells ca b pu prev v
  | _, _ => []
  end.

(** The row of the [i]th character. *)
Definition lev_row (i ca : Z) (b prev : list Z) : list Z :=
  match prev with
  | [] => []
  | p0 :: prev => i :: lev_cells (tolower ca) b p0 prev i
  end.

Fixpoint lev_rows (a b : list Z) (i : Z) (prev : list Z) : list Z :=
  match a with
  | [] => prev
  | ca :: a => lev_rows a b (i + 1) (lev_row i ca b prev)
  end.

Definition levenshtein (a b : list Z) : Z :=
  let la := zlen a in
  let lb := zlen b in
  if la =? 0 then lb
  else if lb =? 0 then la
  else if 128 <? lb + 1 then 99
  else byte_at (lev_rows a b 1 (map Z.of_nat (seq 0 (S (length b))))) lb.

(** The nearest of a list, below a distance. *)
Fixpoint closest (seg : list Z) (names : list (list Z)) (best_dist : Z) (best : option (list Z))
    : option (list Z) :=
  match names with
  | [] => best
  | n :: names =>
      let d := levenshtein seg n in
      if d <? best_dist then closest seg names d (Some n) else closest seg names best_dist best
  end.

Definition find_closest_module (seg : list Z) : option (list Z) := closest seg s_known_modules 3 None.

(** ** Paths *)

Definition dots_to_slashes (s : list Z) : list Z :=
  map (fun c => if c =? chr "." then chr "/" else c) s.

(** A segment of a path, and whether it changed. *)
Definition normalise_segment (seg : list Z) : list Z * bool :=
  if is_known_module seg && negb (bytes_eqb seg (map tolower seg))
  then (map tolower seg, true) else (seg, false).

(** The loop; [seg] is the segment read so far. *)
Fixpoint normalise_loop (seg p : list Z) : list Z * bool :=
  match p with
  | [] => normalise_segment seg
  | c :: p =>
      if c =? chr "." then
        let '(seg, ch) := normalise_segment seg in
        let '(p, ch') := normalise_loop [] p in
        (seg ++ c :: p, ch || ch')
      else normalise_loop (seg ++ [c]) p
  end.

Definition normalise_module_path (mpath : list Z) : list Z * bool := normalise_loop [] mpath.

Example lev_ex : levenshtein (bytes_of "Htpp") (bytes_of "http") = 1.
Proof. vm_compute. reflexivity. Qed.
Example closest_ex : find_closest_module (bytes_of "jsn") = Some (bytes_of "json").
Proof. vm_compute. reflexivity. Qed.
Example normalise_ex :
  normalise_module_path (bytes_of "STD.Http.Mine") = (bytes_of "std.http.Mine", true).
Proof. vm_compute. reflexivity. Qed.
