(* ===== verification/ModNameProps.v ===== *)
(** * What the module-name helpers compute

    [levenshtein] is the least cost of an edit script, [validate_version] is a
    grammar, and [normalise_module_path] a projection. *)

From Stdlib Require Import ZArith Lia String Ascii.
From stdpp Require Import base tactics list.
From S2P Require Import Prelude ModName.
Open Scope Z_scope.

(** ** Edit scripts *)

(** [edit a b n]: a script of cost [n] turns [a] into [b], up to case. *)
Inductive edit : list Z -> list Z -> Z -> Prop :=
  | edit_nil : edit [] [] 0
  | edit_del a b x n : edit a b n -> edit (x :: a) b (n + 1)
  | edit_ins a b y n : edit a b n -> edit a (y :: b) (n + 1)
  | edit_keep a b x y n : tolower x = tolower y -> edit a b n -> edit (x :: a) (y :: b) n
  | edit_sub a b x y n : edit a b n -> edit (x :: a) (y :: b) (n + 1).

(** The least cost, as a recursive function. *)
Fixpoint dist (a : list Z) : list Z -> Z :=
  fix go (b : list Z) : Z :=
    match a, b with
    | [], _ => zlen b
    | _, [] => zlen a
    | x :: a', y :: b' =>
        Z.min (Z.min (dist a' b + 1) (go b' + 1))
          (dist a' b' + if tolower x =? tolower y then 0 else 1)
    end.

Lemma dist_nil_l b : dist [] b = zlen b.
Proof. by destruct b. Qed.

Lemma dist_nil_r a : dist a [] = zlen a.
Proof. by destruct a. Qed.

Lemma dist_cons x a y b :
  dist (x :: a) (y :: b) =
    Z.min (Z.min (dist a (y :: b) + 1) (dist (x :: a) b + 1))
      (dist a b + if tolower x =? tolower y then 0 else 1).
Proof. done. Qed.

Lemma dist_edit a : forall b, edit a b (dist a b).
Proof.
  induction a as [|x a IHa].
  - induction b as [|y b IHb]; [constructor|]. rewrite dist_nil_l, zlen_cons, Z.add_comm in *.
    by constructor.
  - induction b as [|y b IHb].
    + specialize (IHa []). rewrite dist_nil_r in *. rewrite zlen_cons, Z.add_comm. by constructor.
    + rewrite dist_cons.
      destruct (Z.min_spec (Z.min (dist a (y :: b) + 1) (dist (x :: a) b + 1))
                  (dist a b + if tolower x =? tolower y then 0 else 1)) as [[_ ->]|[_ ->]].
      * destruct (Z.min_spec (dist a (y :: b) + 1) (dist (x :: a) b + 1)) as [[_ ->]|[_ ->]];
          by constructor.
      * case_match; zb; [rewrite Z.add_0_r|]; by constructor.
Qed.

(** Adding a character changes the cost by one at most. *)
Lemma dist_del x a : forall b, dist (x :: a) b <= dist a b + 1.
Proof. intros [|y b]; [rewrite !dist_nil_r, zlen_cons; lia|rewrite dist_cons; lia]. Qed.

Lemma dist_ins a y b : dist a (y :: b) <= dist a b + 1.
Proof. destruct a as [|x a]; [rewrite !dist_nil_l, zlen_cons; lia|rewrite dist_cons; lia]. Qed.

Lemma dist_least a b n : edit a b n -> dist a b <= n.
Proof.
  induction 1 as [|a b x n _ IH|a b y n _ IH|a b x y n E _ IH|a b x y n _ IH]; [done| | | |].
  - pose proof (dist_del x a b). lia.
  - pose proof (dist_ins a y b). lia.
  - rewrite dist_cons, (proj2 (Z.eqb_eq _ _) E). lia.
  - rewrite dist_cons. case_match; lia.
Qed.

(** Scripts read from the other end. *)
Lemma edit_cost a b n m : edit a b n -> n = m -> edit a b m.
Proof. by intros ? <-. Qed.

(** A suffix on both sides. *)
Lemma edit_app a b n sa sb m : edit a b n -> edit sa sb m -> edit (a ++ sa) (b ++ sb) (n + m).
Proof.
  intros H Hs. induction H; cbn [app].
  - done.
  - eapply edit_cost; [by apply edit_del|lia].
  - eapply edit_cost; [by apply edit_ins|lia].
  - by apply edit_keep.
  - eapply edit_cost; [by apply edit_sub|lia].
Qed.

Lemma edit_rev a b n : edit a b n -> edit (rev a) (rev b) n.
Proof.
  induction 1 as [|a b x n _ IH|a b y n _ IH|a b x y n E _ IH|a b x y n _ IH]; cbn [rev].
  - constructor.
  - rewrite <- (app_nil_r (rev b)). apply edit_app; [done|]. apply (edit_del [] [] x 0). constructor.
  - rewrite <- (app_nil_r (rev a)). apply edit_app; [done|]. apply (edit_ins [] [] y 0). constructor.
  - rewrite <- (Z.add_0_r n). apply edit_app; [done|]. apply edit_keep; [done|constructor].
  - apply edit_app; [done|]. apply (edit_sub [] [] x y 0). constructor.
Qed.

(** ** The rows of the table *)

(** The costs of [ra] against the prefixes of [b] behind [rb], both reversed. *)
Fixpoint costs (ra rb b : list Z) : list Z :=
  dist ra rb :: match b with [] => [] | y :: b => costs ra (y :: rb) b end.

Lemma lev_cells_costs x ra b : forall rb,
  lev_cells (tolower x) b (dist ra rb) (tl (costs ra rb b)) (dist (x :: ra) rb) =
    tl (costs (x :: ra) rb b).
Proof.
  induction b as [|y b IH]; intros rb; [done|].
  change (tl (costs ra rb (y :: b))) with (costs ra (y :: rb) b).
  change (tl (costs (x :: ra) rb (y :: b))) with (costs (x :: ra) (y :: rb) b).
  assert (Hc : forall r s, costs r s b = dist r s :: tl (costs r s b)) by (intros; by destruct b).
  rewrite (Hc ra), (Hc (x :: ra)). cbn [lev_cells].
  match goal with |- ?v :: _ = _ => replace v with (dist (x :: ra) (y :: rb)) end.
  - by rewrite IH.
  - rewrite dist_cons. repeat case_match; zb; lia.
Qed.

Lemma lev_row_costs x ra b :
  lev_row (zlen (x :: ra)) x b (costs ra [] b) = costs (x :: ra) [] b.
Proof.
  assert (Hc : forall r s, costs r s b = dist r s :: tl (costs r s b)) by (intros; by destruct b).
  unfold lev_row. rewrite (Hc ra), (Hc (x :: ra)), <- (dist_nil_r (x :: ra)), lev_cells_costs. done.
Qed.

Lemma lev_rows_costs a b : forall ra,
  lev_rows a b (zlen ra + 1) (costs ra [] b) = costs (rev a ++ ra) [] b.
Proof.
  induction a as [|x a IH]; intros ra; cbn [lev_rows rev]; [done|].
  replace (zlen ra + 1) with (zlen (x :: ra)) by (rewrite zlen_cons; lia).
  rewrite lev_row_costs, IH, <- app_assoc. done.
Qed.

Lemma costs_start b : forall rb,
  costs [] rb b = map Z.of_nat (seq (length rb) (S (length b))).
Proof.
  induction b as [|y b IH]; intros rb; cbn [costs]; rewrite dist_nil_l; [done|].
  rewrite IH. done.
Qed.

Lemma costs_last ra b : forall rb, byte_at (costs ra rb b) (zlen b) = dist ra (rev b ++ rb).
Proof.
  unfold byte_at, zlen. rewrite Nat2Z.id. induction b as [|y b IH]; intros rb; [done|].
  cbn [length rev costs nth]. rewrite IH, <- app_assoc. done.
Qed.

Lemma levenshtein_dist a b : zlen b < 128 -> levenshtein a b = dist (rev a) (rev b).
Proof.
  intros Hb. assert (Hr : forall l : list Z, zlen (rev l) = zlen l)
    by (intros; unfold zlen; by rewrite length_rev).
  assert (Hz : forall l : list Z, zlen l = 0 -> l = []) by (intros [|]; [done|unfold zlen; simpl; lia]).
  unfold levenshtein. destruct (zlen a =? 0) eqn:Ea; zb.
  { rewrite (Hz _ Ea). cbn [rev]. by rewrite dist_nil_l, Hr. }
  destruct (zlen b =? 0) eqn:Eb; zb.
  { rewrite (Hz _ Eb). cbn [rev]. by rewrite dist_nil_r, Hr. }
  rewrite (proj2 (Z.ltb_ge _ _)) by lia.
  pose proof (costs_start b []) as E. cbn [length] in E. rewrite <- E.
  pose proof (lev_rows_costs a b []) as E2. change (zlen [] + 1) with 1 in E2.
  rewrite E2, costs_last, !app_nil_r. done.
Qed.

(** ** Versions *)

(** Numbers and points. *)
Definition digits (p : list Z) : Prop := p <> [] /\ Forall (fun c => is_digit c = true) p.

Fixpoint dotted (ps : list (list Z)) : list Z :=
  match ps with
  | [] => []
  | [p] => p
  | p :: ps => p ++ chr "." :: dotted ps
  end.

Lemma version_digits p v parts n :
  Forall (fun c => is_digit c = true) p ->
  version_parts (p ++ v) parts n = version_parts v parts (n + zlen p).
Proof.
  intros H. revert n. induction H as [|c p Hc _ IH]; intros n; cbn [app version_parts].
  - by rewrite zlen_nil, Z.add_0_r.
  - rewrite Hc, IH, zlen_cons. f_equal. lia.
Qed.

Lemma version_dotted ps n parts k :
  Forall digits ps -> ps <> [] -> 0 <= n -> zlen ps = k ->
  version_parts (dotted ps) parts n = Some (parts + k).
Proof.
  intros H Hne Hn <-. revert n parts Hn Hne.
  induction H as [|p ps [Hp Hd] Hps IH]; intros n parts Hn Hne; [done|].
  assert (0 < zlen p) by (destruct p; [done|rewrite zlen_cons; pose proof (zlen_nonneg p); lia]).
  rewrite zlen_cons. destruct ps as [|q ps].
  - cbn [dotted]. rewrite <- (app_nil_r p), version_digits by done. cbn [version_parts].
    rewrite (proj2 (Z.eqb_neq _ _)) by lia. by rewrite zlen_nil.
  - change (dotted (p :: q :: ps)) with (p ++ 46 :: dotted (q :: ps)).
    rewrite version_digits by done. cbn [version_parts].
    change (is_digit 46) with false. cbv iota. rewrite Z.eqb_refl, (proj2 (Z.eqb_neq _ _)) by lia.
    rewrite (IH 0 (parts + 1)) by (done || lia). f_equal. lia.
Qed.

(** What the loop accepts from [n] digits on. *)
Lemma version_parts_inv v parts n k :
  version_parts v parts n = Some k -> 0 <= n ->
  exists p ps, v = dotted (p :: ps) /\ Forall (fun c => is_digit c = true) p /\
    (n = 0 -> p <> []) /\ Forall digits ps /\ k = parts + 1 + zlen ps.
Proof.
  revert parts n. induction v as [|c v IH]; intros parts n; cbn [version_parts].
  - destruct (n =? 0) eqn:E; [done|]. zb. intros [= <-] Hn. exists [], []. change (zlen []) with 0.
    split_and!; [done|constructor|by intros ->|constructor|lia].
  - destruct (is_digit c) eqn:Ec.
    + intros H Hn. apply IH in H as (p & ps & -> & Hp & _ & Hps & ->); [|lia].
      exists (c :: p), ps. split_and!; [by destruct ps|by constructor|done|done|done].
    + destruct (c =? 46) eqn:E; [|done]. zb. subst c.
      destruct (n =? 0) eqn:E0; [done|]. zb. intros H Hn.
      apply IH in H as (p & ps & -> & Hp & Hne & Hps & ->); [|lia].
      exists [], (p :: ps). rewrite zlen_cons.
      split_and!; [done|constructor|by intros ->|constructor; [split; auto|done]|lia].
Qed.

Lemma validate_version_ok v :
  validate_version (Some v) = true <->
  exists ps, (length ps = 2%nat \/ length ps = 3%nat) /\ Forall digits ps /\ v = dotted ps.
Proof.
  unfold validate_version. split.
  - destruct v as [|c v]; [done|]. destruct (version_parts _ 0 0) as [k|] eqn:E; [|done].
    intros Hk. apply version_parts_inv in E as (p & ps & Ev & Hp & Hne & Hps & ->); [|done].
    exists (p :: ps). split_and!; [|constructor; [split; auto|done]|done].
    apply orb_true_iff in Hk as [Hk|Hk]; zb; unfold zlen in Hk; simpl; lia.
  - intros (ps & Hl & Hd & ->).
    assert (Hne : ps <> []) by (destruct ps; [simpl in Hl; lia|done]).
    rewrite (version_dotted ps 0 0 (zlen ps)) by done.
    destruct (dotted ps) eqn:E.
    + destruct Hd as [|p ps [Hp _] _]; [done|]. destruct ps; cbn [dotted] in E; by destruct p.
    + unfold zlen. destruct Hl as [-> | ->]; done.
Qed.

(** ** Normal paths *)

Lemma tolower_idem c : tolower (tolower c) = tolower c.
Proof. unfold tolower. repeat case_match; zb; try lia. Qed.

Lemma tolower_dot c : tolower c = chr "." <-> c = chr ".".
Proof. unfold tolower. case_match; zb; lia. Qed.

Lemma map_tolower_idem l : map tolower (map tolower l) = map tolower l.
Proof. rewrite map_map. apply map_ext, tolower_idem. Qed.

Definition no_dot (l : list Z) : Prop := Forall (fun c => c <> chr ".") l.

Lemma normalise_segment_ok seg s c :
  normalise_segment seg = (s, c) ->
  map tolower s = map tolower seg /\ normalise_segment s = (s, false) /\
  (c = true <-> s <> seg) /\ (no_dot seg -> no_dot s).
Proof.
  unfold normalise_segment. case_match eqn:E; intros [= <- <-].
  - apply andb_prop in E as [_ E]. apply negb_true_iff in E. split_and!.
    + apply map_tolower_idem.
    + by rewrite map_tolower_idem, bytes_eqb_refl, andb_false_r.
    + split; [|done]. intros _ Hs. rewrite <- Hs, bytes_eqb_refl in E at 1. done.
    + intros H. apply List.Forall_map. eapply Forall_impl; [exact H|].
      intros c Hc. cbn beta. by rewrite tolower_dot.
  - by rewrite E.
Qed.

Lemma normalise_loop_seg s t v :
  no_dot s -> normalise_loop t (s ++ v) = normalise_loop (t ++ s) v.
Proof.
  intros H. revert t. induction H as [|c s Hc _ IH]; intros t; cbn [app normalise_loop].
  - by rewrite app_nil_r.
  - rewrite (proj2 (Z.eqb_neq _ _)) by done. by rewrite IH, <- app_assoc.
Qed.

Lemma normalise_loop_ok p : forall seg q c,
  no_dot seg -> normalise_loop seg p = (q, c) ->
  map tolower q = map tolower (seg ++ p) /\ normalise_loop [] q = (q, false) /\
  (c = true <-> q <> seg ++ p).
Proof.
  induction p as [|x p IH]; intros seg q c Hseg; cbn [normalise_loop].
  - intros H. destruct (normalise_segment_ok _ _ _ H) as (Hm & Hi & Hc & Hd).
    rewrite app_nil_r. split_and!; [done| |exact Hc].
    rewrite <- (app_nil_r q) at 1. by rewrite normalise_loop_seg by auto.
  - destruct (x =? 46) eqn:E; zb.
    + subst x. destruct (normalise_segment seg) as [s c1] eqn:E1.
      destruct (normalise_loop [] p) as [p' c2] eqn:E2. intros [= <- <-].
      destruct (normalise_segment_ok _ _ _ E1) as (Hm & Hi & Hc & Hd).
      destruct (IH [] p' c2 ltac:(constructor) E2) as (Hm2 & Hi2 & Hc2). cbn [app] in *.
      split_and!.
      * rewrite !map_app. cbn [map]. by rewrite Hm, Hm2.
      * rewrite normalise_loop_seg by auto. cbn [app normalise_loop].
        rewrite Z.eqb_refl, Hi, Hi2. done.
      * split; intros H.
        { intros Heq. apply app_inj_1 in Heq as [Hs Hp].
          - simplify_eq. apply orb_true_iff in H as [H|H]; [by apply Hc in H|by apply Hc2 in H].
          - rewrite <- (length_map tolower s), Hm. by rewrite length_map. }
        destruct c1, c2; try done. exfalso. apply H. f_equal.
        -- apply dec_stable. intros Hn. by apply Hc in Hn.
        -- f_equal. apply dec_stable. intros Hn. by apply Hc2 in Hn.
    + intros H. apply IH in H; [by rewrite <- app_assoc in H|].
      apply Forall_app. split; [done|]. by constructor.
Qed.

(** ** The theorems *)

(** [levenshtein] is the least cost of an edit script, upper and lower case
    being the same. *)
Theorem levenshtein_least a b :
  zlen b < 128 ->
  edit a b (levenshtein a b) /\ forall n, edit a b n -> levenshtein a b <= n.
Proof.
  intros Hb. rewrite levenshtein_dist by done. split.
  - rewrite <- (rev_involutive a), <- (rev_involutive b) at 1. apply edit_rev, dist_edit.
  - intros n H. apply dist_least. by apply edit_rev.
Qed.

Lemma levenshtein_least_witness :
  zlen (bytes_of "json") < 128 /\
  edit (bytes_of "JSN") (bytes_of "json") (levenshtein (bytes_of "JSN") (bytes_of "json")) /\
  forall n, edit (bytes_of "JSN") (bytes_of "json") n ->
    levenshtein (bytes_of "JSN") (bytes_of "json") <= n.
Proof.
  assert (H : zlen (bytes_of "json") < 128) by (vm_compute; reflexivity).
  split; [exact H|]. exact (levenshtein_least (bytes_of "JSN") (bytes_of "json") H).
Defined.

(** A version is accepted exactly when it is two or three numbers with
    points between them. *)
Theorem validate_version_grammar v :
  validate_version (Some v) = true <->
  exists ps, (length ps = 2%nat \/ length ps = 3%nat) /\ Forall digits ps /\ v = dotted ps.
Proof. exact (validate_version_ok v). Qed.

(** Normalising a path changes only case, says whether it changed
    anything, and has nothing to do a second time. *)
Theorem normalise_normal p :
  let (q, c) := normalise_module_path p in
  map tolower q = map tolower p /\ normalise_module_path q = (q, false) /\ (c = true <-> q <> p).
Proof.
  unfold normalise_module_path. destruct (normalise_loop [] p) as [q c] eqn:E.
  exact (normalise_loop_ok p [] q c (Forall_nil_2 _) E).
Qed.
