(* ===== verification/StdDeps.v ===== *)
(** * The modules a program links: [src/src/stdlib_deps.c]

    The table of library modules with what each depends on, and the closure of
    the imports of a program under it, in the buffer of 2048 characters that the
    code keeps it in, separated by spaces.  The columns of source files and
    linker flags are left out. *)

From Stdlib Require Import ZArith Lia String Ascii.
From stdpp Require Import base tactics list.
From S2P Require Import Prelude.
Open Scope Z_scope.

Record StdlibModule := mkModule { sm_module : list Z; sm_deps : list Z }.

Definition no_deps : string := EmptyString.

Definition stdlib_table : list StdlibModule :=
  map (fun '(m, d) => mkModule (bytes_of m) (bytes_of d))
  [("io", no_deps); ("str", "crypto time encoding"); ("encoding", no_deps); ("env", no_deps); ("file", no_deps);
    ("path", no_deps); ("args", no_deps); ("process", no_deps); ("crypto", "str"); ("csv", no_deps); ("fmt", no_deps);
    ("template", no_deps); ("math", no_deps); ("json", no_deps); ("toon", "file"); ("yaml", "file str");
    ("i18n", "collections str"); ("time", no_deps); ("test", no_deps); ("log", "time"); ("ws", no_deps);
    ("sse", no_deps); ("net", no_deps); ("sys", no_deps); ("image", no_deps); ("canvas", no_deps); ("chart", no_deps);
    ("html", no_deps); ("svg", no_deps); ("llm", no_deps); ("llmtool", "llm"); ("ml", no_deps);
    ("encrypt", "crypto encoding str"); ("auth", "encoding crypto str");
    ("dataframe", "csv str"); ("analytics", "dataframe csv str math"); ("router", "ws");
    ("dashboard", "chart html router");
      ("http", "encoding log str crypto ws router net yaml toon i18n html svg canvas chart dashboard dataframe template toml file auth encrypt llm ml task");
    ("toml", no_deps); ("md", no_deps); ("zip", no_deps); ("xlsx", "zip"); ("pdf", no_deps); ("ocr", no_deps); ("db", no_deps);
    ("collections", no_deps); ("xml", no_deps); ("soap", no_deps); ("vecstore", no_deps); ("securemem", no_deps);
    ("tls", no_deps); ("keychain", no_deps); ("infer", no_deps); ("mlx", no_deps); ("mdns", no_deps); ("mem", no_deps);
    ("os", no_deps); ("stack", no_deps); ("queue", no_deps); ("set", no_deps); ("vec", no_deps); ("array", no_deps);
    ("task", no_deps); ("clipboard", no_deps); ("fs", no_deps); ("string", no_deps)]%string.

Definition find_module (name : list Z) : option StdlibModule :=
  List.find (fun m => bytes_eqb (sm_module m) name) stdlib_table.

Definition stdlib_module_registered (name : list Z) : bool :=
  match name with
  | [] => false
  | _ => match find_module name with Some _ => true | None => false end
  end.

(** The words of a list separated by spaces; [w] is the word read so far. *)
Definition word_end (w : list Z) (ws : list (list Z)) : list (list Z) :=
  match w with [] => ws | _ => w :: ws end.
Fixpoint words_from (w s : list Z) : list (list Z) :=
  match s with
  | [] => word_end w []
  | c :: s => if c =? chr " " then word_end w (words_from [] s) else words_from (w ++ [c]) s
  end.
Definition words (s : list Z) : list (list Z) := words_from [] s.

Definition word_in_list (list word : list Z) : bool := existsb (bytes_eqb word) (words list).

Definition NEEDED_SIZE : Z := 2048.
Definition DEPS_SIZE : Z := 512.

(** [snprintf(needed + cur, sizeof needed - cur, ...)] *)
Definition append_text (needed text : list Z) : list Z :=
  needed ++ take (Z.to_nat (NEEDED_SIZE - zlen needed - 1)) text.

(** With a space in front of the word, but for the first. *)
Definition add_word (needed word : list Z) : list Z :=
  append_text needed (match needed with [] => word | _ => chr " " :: word end).

(** The dependencies of a module that are missing; whether there was one. *)
Fixpoint add_deps (deps : list (list Z)) (needed : list Z) (changed : bool) : list Z * bool :=
  match deps with
  | [] => (needed, changed)
  | dep :: deps =>
      if word_in_list needed dep then add_deps deps needed changed
      else add_deps deps (append_text needed (chr " " :: dep)) true
  end.

(** One round over the modules of the snapshot. *)
Fixpoint closure_round (toks : list (list Z)) (needed : list Z) (changed : bool) : list Z * bool :=
  match toks with
  | [] => (needed, changed)
  | tok :: toks =>
      match find_module tok with
      | None => closure_round toks needed changed
      | Some m =>
          let '(needed, changed) :=
            add_deps (words (take (Z.to_nat (DEPS_SIZE - 1)) (sm_deps m))) needed changed in
          closure_round toks needed changed
      end
  end.

(** [while (changed)] *)
Fixpoint stdlib_closure (fuel : nat) (needed : list Z) : res (list Z) :=
  match fuel with
  | O => NoFuel
  | S fuel =>
      let '(needed, changed) :=
        closure_round (words (take (Z.to_nat (NEEDED_SIZE - 1)) needed)) needed false in
      if changed then stdlib_closure fuel needed else Ok needed
  end.

Definition glue_deps : list (list Z) := map bytes_of
  ["str"; "io"; "collections"; "http"; "env"; "log"; "router";
   "file"; "path"; "args"; "toml"; "md"; "crypto"; "math";
   "time"; "net"; "sys"; "json"; "toon"; "yaml"; "i18n"; "ws"]%string.
Definition core_modules : list (list Z) := map bytes_of ["str"; "collections"; "args"]%string.

(** [path + 4] of the paths that start with [std.] *)
Definition std_mod (path : list Z) : option (list Z) :=
  if bytes_eqb (take 4 path) (bytes_of "std.") then Some (drop 4 path) else None.

(** The words that are not there yet. *)
Definition add_missing (needed word : list Z) : list Z :=
  if word_in_list needed word then needed else add_word needed word.
Definition add_imports (paths : list (list Z)) (needed : list Z) : list Z :=
  fold_left (fun needed path =>
    match std_mod path with Some m => add_missing needed m | None => needed end) paths needed.

(** The modules of [resolve_stdlib_deps] and of
    [resolve_stdlib_deps_imports_only]; a full buffer can make the loop endless. *)
Definition deps_needed (fuel : nat) (paths : list (list Z)) : res (list Z) :=
  stdlib_closure fuel (add_imports paths (fold_left add_word glue_deps [])).

Definition deps_needed_imports_only (fuel : nat) (paths : list (list Z)) : res (list Z) :=
  match stdlib_closure fuel (add_imports paths []) with
  | Ok needed => stdlib_closure fuel (fold_left add_missing core_modules needed)
  | r => r
  end.

Example deps_xlsx :
  match deps_needed_imports_only 10 [bytes_of "std.xlsx"; bytes_of "mine"] with
  | Ok n => n = bytes_of "xlsx zip str collections args crypto time encoding"
  | _ => False
  end.
Proof. vm_compute. reflexivity. Qed.
