(* ===== verification/StdDepsProps.v ===== *)
(** * What the closure of the dependencies computes

    While the buffer has room, the loop ends with exactly the modules that the
    imports require; on a full buffer it may never end. *)

From Stdlib Require Import ZArith Lia String Ascii.
From stdpp Require Import base tactics list sets.
From S2P Require Import Prelude StdDeps.
Open Scope Z_scope.

(** ** Words *)

Definition is_word (w : list Z) : Prop := w <> [] /\ Forall (fun c => c <> chr " ") w.

(** A word and the space before it. *)
Definition cost (w : list Z) : Z := 1 + zlen w.

Lemma words_from_word w u s :
  Forall (fun c => c <> chr " ") u -> words_from w (u ++ s) = words_from (w ++ u) s.
Proof.
  intros H. revert w. induction H as [|c u Hc _ IH]; intros w; cbn [app words_from].
  - by rewrite app_nil_r.
  - rewrite (proj2 (Z.eqb_neq _ _)) by done. by rewrite IH, <- app_assoc.
Qed.

Lemma word_end_app w ws : word_end w ws = word_end w [] ++ ws.
Proof. by destruct w. Qed.

Lemma words_from_space w s t :
  words_from w (s ++ chr " " :: t) = words_from w s ++ words t.
Proof.
  revert w. induction s as [|c s IH]; intros w; cbn [app words_from].
  - rewrite Z.eqb_refl. apply word_end_app.
  - case_match; [|done]. rewrite IH. by destruct w.
Qed.

Lemma words_word w : is_word w -> words w = [w].
Proof.
  intros [Hne H]. pose proof (words_from_word [] w [] H) as E. rewrite app_nil_r in E.
  unfold words. rewrite E. cbn. by destruct w.
Qed.

Lemma words_snoc s w : is_word w -> words (s ++ chr " " :: w) = words s ++ [w].
Proof. intros Hw. unfold words at 1. rewrite words_from_space. by rewrite (words_word w Hw). Qed.

Lemma words_are_words s : forall w, Forall (fun c => c <> chr " ") w -> Forall is_word (words_from w s).
Proof.
  assert (He : forall w ws, Forall (fun c => c <> 32) w -> Forall is_word ws ->
            Forall is_word (word_end w ws)).
  { intros [|c w] ws Hw Hs; [done|]. constructor; [by split|done]. }
  induction s as [|c s IH]; intros w Hw; cbn [words_from].
  - apply He; [done|constructor].
  - case_match; zb.
    + apply He; [done|]. apply IH. constructor.
    + apply IH. apply Forall_app. split; [done|]. by constructor.
Qed.

Lemma word_in_list_elem s w : word_in_list s w = true <-> w ∈ words s.
Proof.
  unfold word_in_list. rewrite existsb_exists. split.
  - intros (x & Hx & E). apply bytes_eqb_eq in E as ->. by apply list_elem_of_In.
  - intros H. exists w. split; [by apply list_elem_of_In|apply bytes_eqb_refl].
Qed.

Lemma word_in_list_false s w : word_in_list s w = false <-> w ∉ words s.
Proof. rewrite <- word_in_list_elem. by destruct (word_in_list s w). Qed.

(** ** What a program requires *)

Definition deps_of (w : list Z) : list (list Z) :=
  match find_module w with Some m => words (sm_deps m) | None => [] end.

(** The least set with the seeds that is closed under dependencies. *)
Inductive required (seeds : list (list Z)) : list Z -> Prop :=
  | required_seed w : w ∈ seeds -> required seeds w
  | required_dep w d : required seeds w -> d ∈ deps_of w -> required seeds d.

(** Every word that occurs as a dependency, once. *)
Definition all_deps : list (list Z) :=
  Eval vm_compute in remove_dups (concat (map (fun m => words (sm_deps m)) stdlib_table)).

Definition total (ws : list (list Z)) : Z := foldr (fun w n => cost w + n) 0 ws.

(** The room the dependencies that are missing may still take. *)
Definition missing (needed : list Z) : Z :=
  total (filter (fun w => word_in_list needed w = false) all_deps).

Lemma deps_in_all w d : d ∈ deps_of w -> d ∈ all_deps.
Proof.
  unfold deps_of, find_module. destruct (List.find _ _) as [m|] eqn:E; [|by intros ?%elem_of_nil].
  apply find_some in E as [Hm _]. intros Hd.
  assert (Ha : forallb (fun m => forallb (fun d => existsb (bytes_eqb d) all_deps)
             (words (sm_deps m))) stdlib_table = true) by (vm_compute; reflexivity).
  rewrite forallb_forall in Ha. specialize (Ha m Hm). rewrite forallb_forall in Ha.
  specialize (Ha d (proj1 (list_elem_of_In _ _) Hd)).
  apply existsb_exists in Ha as (x & Hx & Ex). apply bytes_eqb_eq in Ex as ->.
  by apply list_elem_of_In.
Qed.

Lemma all_deps_words : Forall is_word all_deps.
Proof.
  apply List.Forall_forall. intros w Hw.
  assert (Ha : forallb (fun w => match words w with [w'] => bytes_eqb w w' | _ => false end)
            all_deps = true) by (vm_compute; reflexivity).
  rewrite forallb_forall in Ha. specialize (Ha w Hw).
  pose proof (words_are_words w [] ltac:(constructor)) as H. fold (words w) in H.
  destruct (words w) as [|w' [|]]; try done. apply bytes_eqb_eq in Ha as ->.
  by apply Forall_cons in H as [? _].
Qed.

Lemma deps_no_cut m :
  m ∈ stdlib_table -> take (Z.to_nat (DEPS_SIZE - 1)) (sm_deps m) = sm_deps m.
Proof.
  intros Hm. assert (Ha : forallb (fun m => zlen (sm_deps m) <? DEPS_SIZE) stdlib_table = true)
    by (vm_compute; reflexivity).
  rewrite forallb_forall in Ha. specialize (Ha m (proj1 (list_elem_of_In _ _) Hm)). zb.
  apply take_ge. unfold zlen, DEPS_SIZE in *. lia.
Qed.

(** ** Growth of the buffer *)

(** What the buffer may come to hold is less than [lim]. *)
Definition room (lim : Z) (needed : list Z) : Prop := zlen needed + missing needed < lim.

Lemma total_cons w ws : total (w :: ws) = 1 + zlen w + total ws.
Proof. unfold total. cbn. unfold cost. lia. Qed.

Lemma total_nonneg ws : 0 <= total ws.
Proof.
  induction ws as [|w ws IH]; [done|]. rewrite total_cons. pose proof (zlen_nonneg w). lia.
Qed.

Section Missing.
Context (n n' d : list Z).
Hypothesis Hn : d ∉ words n.
Hypothesis Hn' : words n' = words n ++ [d].

Lemma still_missing w : word_in_list n' w = false -> word_in_list n w = false.
Proof. rewrite !word_in_list_false, Hn', not_elem_of_app. by intros [? _]. Qed.

Lemma missing_le l :
  total (filter (fun w => word_in_list n' w = false) l) <=
  total (filter (fun w => word_in_list n w = false) l).
Proof.
  induction l as [|w l IH]; [done|]. rewrite !filter_cons. unfold cost in *.
  pose proof (zlen_nonneg w).
  destruct (decide (word_in_list n' w = false)) as [E|E];
    destruct (decide (word_in_list n w = false)) as [E'|E']; rewrite ?total_cons; try lia.
  by apply still_missing in E.
Qed.

Lemma missing_lt l :
  d ∈ l ->
  total (filter (fun w => word_in_list n' w = false) l) + cost d <=
  total (filter (fun w => word_in_list n w = false) l).
Proof.
  induction l as [|w l IH]; [by intros ?%elem_of_nil|]. intros Hd. rewrite !filter_cons.
  pose proof (missing_le l). pose proof (zlen_nonneg w).
  destruct (decide (w = d)) as [->|Hw].
  - rewrite decide_False.
    + rewrite decide_True by (by apply word_in_list_false). rewrite total_cons. unfold cost. lia.
    + intros E. apply word_in_list_false in E. apply E. rewrite Hn'. apply elem_of_app. right. by apply list_elem_of_singleton.
  - apply elem_of_cons in Hd as [|Hd]; [done|]. specialize (IH Hd).
    destruct (decide (word_in_list n' w = false)) as [E|E];
      destruct (decide (word_in_list n w = false)) as [E'|E']; rewrite ?total_cons; try lia.
    by apply still_missing in E.
Qed.
End Missing.

Section Growth.
Context (lim : Z) (Hlim : lim <= NEEDED_SIZE).
Abbreviation room := (room lim).

(** A step from one content of the buffer to another; the words satisfy [P]. *)
Record grown (P : list Z -> Prop) (n n' : list Z) (changed : bool) : Prop := {
  g_words : words n ⊆ words n';
  g_in : Forall P (words n) -> Forall P (words n');
  g_room : room n -> room n';
  g_missing : if changed then missing n' < missing n else n' = n
}.

Lemma grown_refl P n : grown P n n false.
Proof. split; done. Qed.

Lemma grown_trans P n1 n2 n3 c1 c2 :
  grown P n1 n2 c1 -> grown P n2 n3 c2 -> grown P n1 n3 (c1 || c2).
Proof.
  intros [W1 I1 R1 M1] [W2 I2 R2 M2]. split; [by etrans|auto|auto|].
  destruct c1, c2; cbn [orb]; subst; try lia; done.
Qed.

Lemma append_grown P n d :
  room n -> d ∈ all_deps -> d ∉ words n -> P d ->
  grown P n (append_text n (chr " " :: d)) true /\ d ∈ words (append_text n (chr " " :: d)).
Proof.
  intros Hr Ha Hn Hp.
  pose proof (proj1 (Forall_forall _ _) all_deps_words d Ha) as Hw.
  assert (Hc : cost d <= missing n).
  { unfold missing. revert Ha. generalize all_deps. intros l.
    pose proof (missing_lt n (n ++ 32 :: d) d Hn (words_snoc n d Hw) l) as H. intros Hl.
    specialize (H Hl). pose proof (total_nonneg (filter (fun w => word_in_list (n ++ 32 :: d) w = false) l)).
    lia. }
  assert (E : append_text n (32 :: d) = n ++ 32 :: d).
  { unfold append_text. rewrite take_ge; [done|]. unfold StdDepsProps.room, cost, zlen, NEEDED_SIZE in *. simpl. lia. }
  rewrite E. pose proof (words_snoc n d Hw) as Es.
  pose proof (missing_lt n (n ++ 32 :: d) d Hn Es all_deps Ha) as Hm.
  fold (missing n) in Hm. fold (missing (n ++ 32 :: d)) in Hm.
  split; [split|].
  - rewrite Es. intros x Hx. apply elem_of_app. by left.
  - rewrite Es. intros H. apply Forall_app. by repeat constructor.
  - intros _. unfold StdDepsProps.room in *. rewrite zlen_app, zlen_cons. unfold cost in *. lia.
  - unfold cost in *. pose proof (zlen_nonneg d). lia.
  - rewrite Es. apply elem_of_app. right. by apply list_elem_of_singleton.
Qed.

Lemma add_deps_ok P ds : forall n c,
  room n -> Forall (fun d => d ∈ all_deps /\ P d) ds ->
  exists n' c', add_deps ds n c = (n', c || c') /\ grown P n n' c' /\ ds ⊆ words n'.
Proof.
  induction ds as [|d ds IH]; intros n c Hr Hds; cbn [add_deps].
  - exists n, false. rewrite orb_false_r. split_and!; [done|apply grown_refl|by intros x ?%elem_of_nil].
  - apply Forall_cons in Hds as [[Ha Hp] Hds]. destruct (word_in_list n d) eqn:E.
    + destruct (IH n c Hr Hds) as (n' & c' & E' & G & Hin). exists n', c'.
      split_and!; [done|done|]. apply word_in_list_elem in E. destruct G as [W _ _ _].
      intros x [->|Hx]%elem_of_cons; [by apply W|by apply Hin].
    + apply word_in_list_false in E. destruct (append_grown P n d Hr Ha E Hp) as [G1 Hd].
      destruct (IH _ true (g_room _ _ _ _ G1 Hr) Hds) as (n' & c' & E' & G & Hin).
      exists n', true. rewrite E'. split_and!; [by rewrite orb_true_r|exact (grown_trans _ _ _ _ _ _ G1 G)|].
      destruct G as [W _ _ _]. intros x [->|Hx]%elem_of_cons; [by apply W|by apply Hin].
Qed.

Lemma closure_round_ok P toks : forall n c,
  room n -> (forall w d, P w -> d ∈ deps_of w -> P d) -> Forall P toks ->
  exists n' c', closure_round toks n c = (n', c || c') /\ grown P n n' c' /\
    forall w d, w ∈ toks -> d ∈ deps_of w -> d ∈ words n'.
Proof.
  induction toks as [|t toks IH]; intros n c Hr Hcl HP; cbn [closure_round].
  - exists n, false. rewrite orb_false_r. split_and!; [done|apply grown_refl|by intros w d ?%elem_of_nil].
  - apply Forall_cons in HP as [Ht HP]. destruct (find_module t) as [m|] eqn:Em.
    + assert (Hd : deps_of t = words (sm_deps m)) by (unfold deps_of; by rewrite Em).
      assert (Hin : m ∈ stdlib_table) by (apply list_elem_of_In; by apply find_some in Em as [? _]).
      rewrite deps_no_cut, <- Hd by done.
      destruct (add_deps_ok P (deps_of t) n c Hr) as (n1 & c1 & E1 & G1 & H1).
      { apply Forall_forall. intros d Hdt. split; [by eapply deps_in_all|by eapply Hcl]. }
      rewrite E1.
      destruct (IH n1 (c || c1) (g_room _ _ _ _ G1 Hr) Hcl HP) as (n' & c' & E' & G & Hall).
      exists n', (c1 || c'). rewrite E'.
      split_and!; [by rewrite orb_assoc|exact (grown_trans _ _ _ _ _ _ G1 G)|].
      intros w d Hw Hdw. apply elem_of_cons in Hw as [->|Hw]; [|by eapply Hall].
      destruct G as [W _ _ _]. apply W. by apply H1.
    + destruct (IH n c Hr Hcl HP) as (n' & c' & E' & G & Hall). exists n', c'. rewrite E'.
      split_and!; [done|done|]. intros w d Hw Hdw.
      apply elem_of_cons in Hw as [->|Hw]; [|by eapply Hall].
      unfold deps_of in Hdw. rewrite Em in Hdw. by apply elem_of_nil in Hdw.
Qed.

Lemma closure_ok P fuel : forall n,
  room n -> (forall w d, P w -> d ∈ deps_of w -> P d) -> Forall P (words n) ->
  (Z.to_nat (missing n) < fuel)%nat ->
  exists n', stdlib_closure fuel n = Ok n' /\ room n' /\ words n ⊆ words n' /\
    Forall P (words n') /\ forall w d, w ∈ words n' -> d ∈ deps_of w -> d ∈ words n'.
Proof.
  induction fuel as [|fuel IH]; intros n Hr Hcl HP Hf; [lia|]. cbn [stdlib_closure].
  pose proof (total_nonneg (filter (fun w => word_in_list n w = false) all_deps)) as Hm.
  fold (missing n) in Hm.
  rewrite take_ge by (unfold StdDepsProps.room, zlen, NEEDED_SIZE in *; lia).
  destruct (closure_round_ok P (words n) n false Hr Hcl HP) as (n1 & c1 & -> & G & Hall).
  destruct G as [W I R M]. cbn [orb]. destruct c1.
  - pose proof (total_nonneg (filter (fun w => word_in_list n1 w = false) all_deps)) as Hm1.
    fold (missing n1) in Hm1.
    destruct (IH n1 (R Hr) Hcl (I HP) ltac:(lia)) as (n' & E & Hr' & W' & H').
    exists n'. split_and!; [done|done|by etrans|apply H'|apply H'].
  - subst n1. exists n. split_and!; [done|done|done|done|]. intros w d Hw. by apply Hall.
Qed.
End Growth.

(** ** The seeds *)

Lemma append_word n w :
  is_word w -> zlen n + cost w < NEEDED_SIZE ->
  words (add_word n w) = words n ++ [w] /\ zlen (add_word n w) <= zlen n + cost w.
Proof.
  intros Hw Hc. unfold add_word, append_text. rewrite take_ge.
  - destruct n as [|c n]; cbn [app].
    + rewrite words_word by done. unfold cost. rewrite zlen_nil. split; [done|lia].
    + change (c :: n ++ 32 :: w) with ((c :: n) ++ 32 :: w).
      rewrite (words_snoc (c :: n) w Hw). rewrite zlen_app, (zlen_cons 32).
      unfold cost. split; [done|lia].
  - unfold cost, NEEDED_SIZE, zlen in *. destruct n; simpl in *; lia.
Qed.

(** Words that are added unless they are there. *)
Definition adds (n : list Z) (ws : list (list Z)) (n' : list Z) : Prop :=
  (forall w, w ∈ words n' <-> w ∈ words n \/ w ∈ ws) /\ zlen n' <= zlen n + total ws.

Lemma add_missing_ok n w :
  is_word w -> zlen n + cost w < NEEDED_SIZE -> adds n [w] (add_missing n w).
Proof.
  intros Hw Hc. unfold adds, add_missing. rewrite total_cons. unfold cost in *.
  change (total []) with 0. pose proof (zlen_nonneg w). destruct (word_in_list n w) eqn:E.
  - apply word_in_list_elem in E. split; [|lia]. intros x. split; [by left|].
    intros [?| ->%list_elem_of_singleton]; done.
  - destruct (append_word n w Hw) as [-> Hl]; [unfold cost; lia|]. unfold cost in Hl.
    split; [|lia]. intros x. by rewrite elem_of_app.
Qed.

Lemma adds_nil n : adds n [] n.
Proof. split; [|change (total []) with 0; lia]. intros w. rewrite elem_of_nil. tauto. Qed.

Lemma adds_cons n w ws n1 n2 : adds n [w] n1 -> adds n1 ws n2 -> adds n (w :: ws) n2.
Proof.
  intros [H1 L1] [H2 L2]. rewrite total_cons in L1. change (total []) with 0 in L1. split.
  - intros x. rewrite H2, H1, !elem_of_cons, elem_of_nil. tauto.
  - rewrite total_cons. lia.
Qed.

Lemma fold_missing_ok ws : forall n,
  Forall is_word ws -> zlen n + total ws < NEEDED_SIZE -> adds n ws (fold_left add_missing ws n).
Proof.
  induction ws as [|w ws IH]; intros n Hw Hl; cbn [fold_left]; [apply adds_nil|].
  apply Forall_cons in Hw as [Hw Hws]. rewrite total_cons in Hl.
  pose proof (total_nonneg ws). pose proof (zlen_nonneg w).
  assert (H1 : adds n [w] (add_missing n w)) by (apply add_missing_ok; [done|unfold cost; lia]).
  eapply adds_cons; [exact H1|]. apply IH; [done|].
  destruct H1 as [_ L]. rewrite total_cons in L. change (total []) with 0 in L. lia.
Qed.

(** The imports of library modules. *)
Definition std_mods (paths : list (list Z)) : list (list Z) := omap std_mod paths.

Lemma add_imports_fold paths n :
  add_imports paths n = fold_left add_missing (std_mods paths) n.
Proof.
  unfold add_imports, std_mods. revert n. induction paths as [|p paths IH]; intros n; [done|].
  cbn [fold_left omap list_omap]. rewrite IH. by destruct (std_mod p).
Qed.

Lemma missing_total n : missing n <= total all_deps.
Proof.
  unfold missing. generalize all_deps. intros l. induction l as [|w l IH]; [done|].
  rewrite filter_cons, total_cons. pose proof (zlen_nonneg w).
  case_decide; rewrite ?total_cons; lia.
Qed.

Lemma total_all : total all_deps = 169.
Proof. vm_compute. reflexivity. Qed.

(** The loop from a buffer with the seeds. *)
Lemma closure_required seeds n fuel :
  (forall w, w ∈ words n <-> w ∈ seeds) -> zlen n + 169 < NEEDED_SIZE -> (169 < fuel)%nat ->
  exists n', stdlib_closure fuel n = Ok n' /\ zlen n' <= zlen n + 169 /\
    forall w, w ∈ words n' <-> required seeds w.
Proof.
  intros Hs Hl Hf. pose proof (missing_total n) as Hm. rewrite total_all in Hm.
  destruct (closure_ok (zlen n + 170) ltac:(lia) (required seeds) fuel n)
    as (n' & E & Hr & W & HP & Hc).
  - unfold room. lia.
  - intros w d Hw Hd. by eapply required_dep.
  - apply Forall_forall. intros w Hw. apply required_seed. by apply Hs.
  - lia.
  - exists n'. split_and!; [done| |].
    + pose proof (total_nonneg (filter (fun w => word_in_list n' w = false) all_deps)) as Hn.
      fold (missing n') in Hn. unfold room in Hr. lia.
    + intros w. split; [by apply (proj1 (Forall_forall _ _) HP)|].
      induction 1 as [w Hw|w d _ IH Hd]; [apply W; by apply Hs|by eapply Hc].
Qed.

(** Seeds of seeds. *)
Lemma required_more s1 s2 s3 :
  (forall w, w ∈ s3 <-> required s1 w \/ w ∈ s2) ->
  forall w, required s3 w <-> required (s1 ++ s2) w.
Proof.
  intros H. assert (Hl : forall w, required s1 w -> required (s1 ++ s2) w).
  { induction 1 as [w Hw|w d _ IH Hd]; [apply required_seed; apply elem_of_app; by left|].
    by eapply required_dep. }
  intros w. split.
  - induction 1 as [w Hw|w d _ IH Hd]; [|by eapply required_dep].
    apply H in Hw as [Hw|Hw]; [by apply Hl|]. apply required_seed, elem_of_app. by right.
  - induction 1 as [w Hw|w d _ IH Hd]; [|by eapply required_dep].
    apply required_seed, H. apply elem_of_app in Hw as [Hw|Hw]; [left; by apply required_seed|by right].
Qed.

Lemma glue_seeds :
  words (fold_left add_word glue_deps []) = glue_deps /\
  zlen (fold_left add_word glue_deps []) = 109.
Proof. split; vm_compute; reflexivity. Qed.

Lemma core_words : Forall is_word core_modules /\ total core_modules = 21.
Proof.
  split; [|vm_compute; reflexivity].
  repeat (apply Forall_cons; split; [split; [done|repeat (apply Forall_cons; split; [done|]); constructor]|]).
  constructor.
Qed.

(** ** The theorems *)

(** For imports whose names take less than 1600 characters, both resolvers
    end, with exactly the modules required by the imports and those that are
    always linked. *)
Theorem deps_needed_required paths fuel :
  Forall is_word (std_mods paths) -> total (std_mods paths) < 1600 -> (169 < fuel)%nat ->
  (exists n, deps_needed fuel paths = Ok n /\
     forall w, w ∈ words n <-> required (glue_deps ++ std_mods paths) w) /\
  exists n, deps_needed_imports_only fuel paths = Ok n /\
    forall w, w ∈ words n <-> required (std_mods paths ++ core_modules) w.
Proof.
  intros Hw Ht Hf. destruct glue_seeds as [Eg Lg]. destruct core_words as [Hcw Hct].
  unfold deps_needed, deps_needed_imports_only. rewrite !add_imports_fold. split.
  - revert Eg Lg. generalize (fold_left add_word glue_deps []) as g. generalize glue_deps as gs.
    intros gs g Eg Lg.
    destruct (fold_missing_ok (std_mods paths) g Hw) as [H L]; [unfold NEEDED_SIZE; lia|].
    destruct (closure_required (gs ++ std_mods paths) (fold_left add_missing (std_mods paths) g) fuel)
      as (n & E & _ & R); [|unfold NEEDED_SIZE; lia|exact Hf|exists n; exact (conj E R)].
    intros w. rewrite H, Eg, elem_of_app. done.
  - destruct (fold_missing_ok (std_mods paths) [] Hw) as [H L]; [unfold NEEDED_SIZE, zlen; simpl; lia|].
    change (zlen []) with 0 in L.
    destruct (closure_required (std_mods paths) (fold_left add_missing (std_mods paths) []) fuel)
      as (n & E & Ln & R); [|unfold NEEDED_SIZE; lia|done|].
    { intros w. rewrite H. change (words []) with (@nil (list Z)). rewrite elem_of_nil. tauto. }
    rewrite E.
    destruct (fold_missing_ok core_modules n Hcw) as [H2 L2]; [unfold NEEDED_SIZE; lia|].
    destruct (closure_required (words (fold_left add_missing core_modules n))
      (fold_left add_missing core_modules n) fuel) as (n2 & E2 & _ & R2);
      [done|unfold NEEDED_SIZE; lia|done|].
    exists n2. split; [done|]. intros w. rewrite R2. apply required_more.
    intros x. rewrite H2, R. done.
Qed.

Lemma deps_needed_required_witness :
  let paths := [bytes_of "std.xlsx"; bytes_of "mine"; bytes_of "std.http"] in
  Forall is_word (std_mods paths) /\ total (std_mods paths) < 1600 /\
  (exists n, deps_needed 170 paths = Ok n /\
     forall w, w ∈ words n <-> required (glue_deps ++ std_mods paths) w) /\
  exists n, deps_needed_imports_only 170 paths = Ok n /\
    forall w, w ∈ words n <-> required (std_mods paths ++ core_modules) w.
Proof.
  intros paths.
  assert (Hw : Forall is_word (std_mods paths)).
  { repeat (apply Forall_cons; split; [split; [done|repeat (apply Forall_cons; split; [done|]); constructor]|]).
    constructor. }
  assert (Ht : total (std_mods paths) < 1600) by (vm_compute; reflexivity).
  split; [exact Hw|]. split; [exact Ht|].
  exact (deps_needed_required paths 170 Hw Ht ltac:(lia)).
Defined.

(** A buffer that is full before a dependency is in it: no fuel is enough. *)
Definition full_needed : list Z :=
  bytes_of "xlsx" ++ chr " " :: replicate 2042 (chr "a").

Lemma closure_stuck fuel : stdlib_closure fuel full_needed = NoFuel.
Proof.
  induction fuel as [|fuel IH]; [done|]. cbn [stdlib_closure].
  assert (E : closure_round (words (take (Z.to_nat (NEEDED_SIZE - 1)) full_needed)) full_needed false
              = (full_needed, true)) by (vm_compute; reflexivity).
  rewrite E. exact IH.
Qed.
