(* ===== verification/Imports.v ===== *)
(** * Imports: [resolve_imports] of [src/src/names.c]

    The imports of a tree, each looked for in the table of the library and in
    the interface files of the search directories.  Which files can be opened
    and what a directory holds are parameters. *)

From Stdlib Require Import ZArith Lia String Ascii.
From stdpp Require Import base tactics list.
From S2P Require Import Prelude CStr Diag Lexer Ast Parser ModName StdDeps.
Open Scope Z_scope.

Definition E2030 : Z := 2030.
Definition E2031 : Z := 2031.
Definition E2035 : Z := 2035.
Definition E2037 : Z := 2037.
Definition W2038 : Z := 2038.
Definition E9010 : Z := 9010.

Record ImportEntry := mkImport {
  ie_alias : list Z;
  ie_path : list Z;
  ie_version : option (list Z);
  ie_resolved : bool
}.

(** The symbol table, the stack of modules in flight, [err], and the
    diagnostics. *)
Record ImState := mkIm {
  im_entries : list ImportEntry;
  im_inf : list (list Z);
  im_err : bool;
  im_diags : Diags
}.

Definition IM (A : Type) : Type := M ImState A.

Definition im_fail : IM unit :=
  modify (fun s => mkIm (im_entries s) (im_inf s) true (im_diags s)).
Definition im_emit (sev : DiagSeverity) (code off line col : Z) (fix_ : bool) : IM unit :=
  modify (fun s => mkIm (im_entries s) (im_inf s) (im_err s)
                     (diag_emit sev code off line col fix_ (im_diags s))).
Definition st_push (e : ImportEntry) : IM unit :=
  modify (fun s => mkIm (im_entries s ++ [e]) (im_inf s) (im_err s) (im_diags s)).

Section Imports.
Context (src : list Z).
(** [fopen] succeeds; the entries of a directory, when it can be opened. *)
Context (file_exists : list Z -> bool) (readdir : list Z -> option (list (list Z))).
(** [TKC_STDLIB_DIR], and the directories of [-I]. *)
Context (stdlib_dir : list Z) (search_paths : list (list Z)).
Context (max_imports_in_flight max_avail_modules : Z).

(** The effective list: at least the current directory. *)
Definition sp_list : list (list Z) :=
  match search_paths with [] => [bytes_of "."] | _ => search_paths end.

Definition span_dup (start len : Z) : IM (list Z) :=
  do s <- rd_range src start len; ret (until_nul s).

(** The segments joined with points; [None] when the buffer is too small. *)
Fixpoint path_loop (segs : list Node) (first : bool) (buf : list Z) (buf_sz : Z)
    : IM (option (list Z)) :=
  match segs with
  | [] => ret (Some buf)
  | seg :: segs =>
      if negb first && (buf_sz <=? zlen buf + 1) then ret None
      else
        let buf := if first then buf else buf ++ [chr "."] in
        if buf_sz <=? zlen buf + n_tok_len seg then ret None
        else
          do t <- rd_range src (n_tok_start seg) (n_tok_len seg);
          path_loop segs false (buf ++ t) buf_sz
  end.
Definition node_path_str (mp : Node) (buf_sz : Z) : IM (option (list Z)) :=
  path_loop (n_children mp) true [] buf_sz.

(** ** Files *)

Definition tki_exists (sp rel : list Z) : bool :=
  let full := sp ++ chr "/" :: rel ++ bytes_of ".tki" in
  let dotrel := map (fun c => if c =? chr "/" then chr "." else c) (printed TKC_MAX_PATH rel) in
  let full' := sp ++ chr "/" :: dotrel ++ bytes_of ".tki" in
  ((zlen full <? TKC_MAX_PATH * 2) && file_exists full) ||
  ((zlen full' <? TKC_MAX_PATH * 2) && file_exists full').

Definition std_module_exists (tail : list Z) : bool :=
  match tail with
  | [] => false
  | _ =>
      stdlib_module_registered tail ||
      file_exists (printed (TKC_MAX_PATH * 2)
                     (stdlib_dir ++ bytes_of "/../../stdlib/" ++ tail ++ bytes_of ".tki")) ||
      existsb (fun sp => tki_exists sp tail) sp_list
  end.

(** Only the diagnostic: the text goes into a message. *)
Definition build_avail_list (sp : list Z) : IM unit :=
  match readdir sp with
  | None => ret tt
  | Some es =>
      let is_tki e := (4 <? zlen e) && bytes_eqb (drop (length e - 4) e) (bytes_of ".tki") in
      let n := Z.min (Z.max 0 max_avail_modules) (zlen (filter (fun e => is_tki e = true) es)) in
      when (max_avail_modules <=? n) (im_emit DIAG_ERROR E9010 0 0 0 false)
  end.

(** ** The modules in flight *)

Definition ifl_has (p : list Z) : IM bool := gets (fun s => existsb (bytes_eqb p) (im_inf s)).
Definition ifl_push (p : list Z) : IM unit :=
  do inf <- gets im_inf;
  if max_imports_in_flight <=? zlen inf then im_emit DIAG_ERROR E9010 0 0 0 false
  else modify (fun s => mkIm (im_entries s) (im_inf s ++ [p]) (im_err s) (im_diags s)).
Definition ifl_pop : IM unit :=
  modify (fun s => mkIm (im_entries s) (take (length (im_inf s) - 1) (im_inf s)) (im_err s) (im_diags s)).

(** ** One import *)

Definition emit_at (n : Node) (sev : DiagSeverity) (code : Z) (fix_ : bool) : IM unit :=
  im_emit sev code (n_start n) (n_line n) (n_col n) fix_.

(** The version: the text of the third child between its quotes. *)
Definition import_version (d : Node) : IM (option (list Z)) :=
  match n_children d with
  | _ :: _ :: vn :: _ =>
      if has_kind NODE_STR_LIT vn && (0 <? n_tok_len vn - 2) then
        do ver <- span_dup (n_tok_start vn + 1) (n_tok_len vn - 2);
        if validate_version (Some ver) then ret (Some ver)
        else do! emit_at vn DIAG_ERROR E2035 false; do! im_fail; ret None
      else ret None
  | _ => ret None
  end.

Definition major {S} (v : option (list Z)) : M S Z :=
  match version_major v with Ok z => ret z | Oob => oob | NoFuel => no_fuel end.

(** The same module with another major version before. *)
Definition check_conflicts (d : Node) (mpath ver : list Z) : IM unit :=
  do new_maj <- major (Some ver);
  do es <- gets im_entries;
  each (fun e =>
    match ie_version e with
    | Some v =>
        if bytes_eqb (ie_path e) mpath then
          do old_maj <- major (Some v);
          when ((0 <=? old_maj) && (0 <=? new_maj) && negb (old_maj =? new_maj))
            (do! emit_at d DIAG_ERROR E2037 false; im_fail)
        else ret tt
    | None => ret tt
    end) es.

(** The files of a module that is not of the library. *)
Definition module_found (mpath : list Z) (ver : option (list Z)) : bool :=
  let fpath := dots_to_slashes (printed TKC_MAX_PATH mpath) in
  existsb (fun sp =>
    match ver with
    | Some v => tki_exists sp (printed (TKC_MAX_PATH * 2) (fpath ++ chr "." :: v))
    | None => false
    end || tki_exists sp fpath) sp_list.

Definition resolve_std (d : Node) (alias mpath : list Z) (ver : option (list Z)) : IM unit :=
  let tail := if byte_at mpath 3 =? chr "." then Some (drop 4 mpath) else None in
  match tail with
  | None => st_push (mkImport alias mpath ver true)
  | Some tail =>
      if std_module_exists tail then st_push (mkImport alias mpath ver true)
      else
        do! emit_at d DIAG_ERROR E2030
              (match find_closest_module tail with
               | Some s => negb (bytes_eqb s tail)
               | None => false
               end);
        do! im_fail;
        st_push (mkImport alias mpath ver false)
  end.

Definition resolve_file (d : Node) (alias mpath : list Z) (ver : option (list Z)) : IM unit :=
  do circular <- ifl_has mpath;
  if circular then
    do! emit_at d DIAG_ERROR E2031 false; do! im_fail; st_push (mkImport alias mpath ver false)
  else
    do! ifl_push mpath;
    do! (if module_found mpath ver then st_push (mkImport alias mpath ver true)
         else
           do! build_avail_list (hd [] sp_list);
           do! emit_at d DIAG_ERROR E2030 (if find_closest_module (last_seg mpath) is Some _ then true else false);
           do! im_fail;
           st_push (mkImport alias mpath ver false));
    ifl_pop.

Definition is_std (mpath : list Z) : bool :=
  bytes_eqb (take 4 mpath) (bytes_of "std.") || bytes_eqb mpath (bytes_of "std").

Definition resolve_import (d : Node) : IM unit :=
  match n_children d with
  | an :: pn :: _ =>
      if negb (has_kind NODE_IMPORT d) then ret tt
      else
      do pbuf <- node_path_str pn TKC_MAX_PATH;
      match pbuf with
      | None => im_fail
      | Some pbuf =>
          do alias <- span_dup (n_tok_start an) (n_tok_len an);
          let '(mpath, changed) := normalise_module_path (until_nul pbuf) in
          do! when changed (emit_at d DIAG_WARNING W2038 true);
          do ver <- import_version d;
          do! match ver with Some ver => check_conflicts d mpath ver | None => ret tt end;
          if is_std mpath then resolve_std d alias mpath ver else resolve_file d alias mpath ver
      end
  | _ => ret tt
  end.

(** The table and the diagnostics; [true] is the result 0. *)
Definition resolve_imports (ast : Node) (diags : Diags) : res (bool * list ImportEntry * Diags) :=
  match each resolve_import (n_children ast) (mkIm [] [] false diags) with
  | Ok (_, s) => Ok (negb (im_err s), im_entries s, im_diags s)
  | Oob => Oob
  | NoFuel => NoFuel
  end.

End Imports.
