(* ===== verification/ImportsProps.v ===== *)
(** * What the import pass computes

    Its symbol table is a function of the imports alone, one entry for each; it
    succeeds exactly when every import is fine; and the test for circular
    imports never fires. *)

From Stdlib Require Import ZArith Lia String Ascii.
From stdpp Require Import base tactics list.
From S2P Require Import Prelude CStr Diag Lexer Ast Parser ModName StdDeps Imports.
Open Scope Z_scope.

Section Spec.
Context (src : list Z) (file_exists : list Z -> bool).
Context (stdlib_dir : list Z) (search_paths : list (list Z)).

(** The text of a node; the segments of a path with points between them. *)
Definition text (n : Node) : list Z := slice src (n_tok_start n) (n_tok_len n).
Fixpoint joined (segs : list Node) : list Z :=
  match segs with
  | [] => []
  | [seg] => text seg
  | seg :: segs => text seg ++ chr "." :: joined segs
  end.

(** The text between the quotes of the third child. *)
Definition version_text (d : Node) : option (list Z) :=
  match n_children d with
  | _ :: _ :: vn :: _ =>
      if has_kind NODE_STR_LIT vn && (0 <? n_tok_len vn - 2)
      then Some (until_nul (slice src (n_tok_start vn + 1) (n_tok_len vn - 2))) else None
  | _ => None
  end.
Definition version_of (d : Node) : option (list Z) :=
  match version_text d with
  | Some v => if validate_version (Some v) then Some v else None
  | None => None
  end.
Definition malformed (d : Node) : bool :=
  match version_text d with Some v => negb (validate_version (Some v)) | None => false end.

(** A module exists: [std] itself, a module of the library, or a file of a
    search directory. *)
Definition module_exists (path : list Z) (ver : option (list Z)) : bool :=
  if is_std path then
    negb (byte_at path 3 =? chr ".") || std_module_exists file_exists stdlib_dir search_paths (drop 4 path)
  else module_found file_exists search_paths path ver.

Definition path_of (pn : Node) : list Z := fst (normalise_module_path (until_nul (joined (n_children pn)))).

Definition entry_of (d : Node) : option ImportEntry :=
  match n_children d with
  | an :: pn :: _ =>
      if has_kind NODE_IMPORT d && (zlen (joined (n_children pn)) <? TKC_MAX_PATH) then
        Some (mkImport (until_nul (text an)) (path_of pn) (version_of d)
                (module_exists (path_of pn) (version_of d)))
      else None
  | _ => None
  end.

Definition is_import (d : Node) : bool := has_kind NODE_IMPORT d && (2 <=? zlen (n_children d)).

Definition maj (v : list Z) : Z := match version_major (Some v) with Ok z => z | _ => -1 end.

(** The same module with another major version. *)
Definition conflict (e1 e2 : ImportEntry) : bool :=
  match ie_version e1, ie_version e2 with
  | Some v1, Some v2 =>
      bytes_eqb (ie_path e1) (ie_path e2) &&
      ((0 <=? maj v1) && (0 <=? maj v2) && negb (maj v1 =? maj v2))
  | _, _ => false
  end.

(** An import that is no error behind the entries [es]. *)
Definition fine (es : list ImportEntry) (d : Node) : bool :=
  negb (is_import d) ||
  match entry_of d with
  | None => false
  | Some e => negb (malformed d) && negb (existsb (fun e' => conflict e' e) es) && ie_resolved e
  end.

(** What the pass needs of an import: texts inside the source, and a major
    version that fits [int]. *)
Definition import_ok (d : Node) : Prop :=
  is_import d = true ->
  match n_children d with
  | an :: pn :: rest =>
      span_in src an = true /\ Forall (fun seg => span_in src seg = true) (n_children pn) /\
      Forall (fun vn => span_in src vn = true) (take 1 rest)
  | _ => True
  end /\ forall v, version_of d = Some v -> exists m, version_major (Some v) = Ok m.
End Spec.

(** ** One step of the pass *)

(** The limit on modules in flight. *)
Class Limit := limit : Z.

(** From [s] to [s']: the entries [es] are added, [err] is set when [bad], the
    diagnostics [l] are emitted; none is E2031, an error is among them when
    [bad], and otherwise none when a module can be in flight. *)
Record goes {lim : Limit} (es : list ImportEntry) (bad : bool) (s s' : ImState) : Prop := {
  go_inf : im_inf s' = im_inf s;
  go_entries : im_entries s' = im_entries s ++ es;
  go_err : im_err s' = im_err s || bad;
  go_diags : exists l, im_diags s' = emitted l (im_diags s) /\
    Forall (fun e => d_code e <> E2031) l /\ (bad = true -> Exists is_error l) /\
    (0 < limit -> bad = false -> Forall (fun e => ~ is_error e) l)
}.

Section Goes.
Context {lim : Limit}.

Lemma goes_refl s : goes [] false s s.
Proof.
  split; [done|by rewrite app_nil_r|by rewrite orb_false_r|].
  exists []. split_and!; [done|constructor|done|constructor].
Qed.

Lemma goes_trans es1 b1 es2 b2 s1 s2 s3 :
  goes es1 b1 s1 s2 -> goes es2 b2 s2 s3 -> goes (es1 ++ es2) (b1 || b2) s1 s3.
Proof.
  intros [I1 E1 R1 (l1 & D1 & F1 & X1 & N1)] [I2 E2 R2 (l2 & D2 & F2 & X2 & N2)]. split.
  - by rewrite I2.
  - by rewrite E2, E1, app_assoc.
  - by rewrite R2, R1, orb_assoc.
  - exists (l1 ++ l2). rewrite emitted_app, <- D1, <- D2. split_and!; [done|by apply Forall_app| |].
    + intros Hb. apply Exists_app. destruct b1; [left|right]; auto.
    + intros Hl [? ?]%orb_false_elim. apply Forall_app. auto.
Qed.

Definition does {A} (m : IM A) (es : list ImportEntry) (bad : bool) (Q : A -> Prop) (s : ImState) : Prop :=
  wp m (fun a s' => goes es bad s s' /\ Q a) s.

Lemma does_ret {A} (a : A) (Q : A -> Prop) s : Q a -> does (ret a) [] false Q s.
Proof. intros. apply wp_ret. split; [apply goes_refl|done]. Qed.

Lemma does_bind {A B} (m : IM A) (k : A -> IM B) es1 b1 es2 b2 P Q s :
  does m es1 b1 P s ->
  (forall a s', goes es1 b1 s s' -> P a -> does (k a) es2 b2 Q s') ->
  does (bind m k) (es1 ++ es2) (b1 || b2) Q s.
Proof.
  intros Hm Hk. eapply wp_seq; [exact Hm|]. intros a s' [G Hp]. cbn beta.
  eapply wp_conseq; [by apply (Hk a s')|]. intros b s'' [G' Hq]. cbn beta.
  split; [by eapply goes_trans|done].
Qed.

Lemma does_eq {A} (m : IM A) es bad es' bad' (Q Q' : A -> Prop) s :
  does m es bad Q s -> es = es' -> bad = bad' -> (forall a, Q a -> Q' a) -> does m es' bad' Q' s.
Proof. intros H <- <- HQ. eapply wp_conseq; [exact H|]. intros a s' [? ?]. cbn beta. auto. Qed.

Lemma does_push e s : does (st_push e) [e] false (fun _ => True) s.
Proof.
  unfold does, st_push. wp_step. split; [|done]. split; cbn; [done|done|by rewrite orb_false_r|].
  exists []. split_and!; [done|constructor|done|constructor].
Qed.

(** A warning. *)
Lemma does_emit code off line col f s :
  code <> E2031 -> does (im_emit DIAG_WARNING code off line col f) [] false (fun _ => True) s.
Proof.
  intros Hc. unfold does, im_emit. wp_step. split; [|done].
  split; cbn; [done|by rewrite app_nil_r|by rewrite orb_false_r|].
  eexists [_]. split_and!; [done|by repeat constructor|done|by repeat constructor].
Qed.

(** A report without [err]. *)
Definition noisy (s s' : ImState) : Prop :=
  im_inf s' = im_inf s /\ im_entries s' = im_entries s /\ im_err s' = im_err s /\
  exists l, im_diags s' = emitted l (im_diags s) /\ Forall (fun e => d_code e <> E2031) l.

Lemma noisy_emit sev code off line col f s :
  code <> E2031 -> wp (im_emit sev code off line col f) (fun _ s' => noisy s s') s.
Proof. intros. unfold im_emit. wp_step. split_and!; cbn; [done..|]. eexists [_]. by repeat constructor. Qed.

Lemma noisy_refl s : noisy s s.
Proof. split_and!; [done..|]. by exists []. Qed.

Lemma noisy_goes es s s1 s2 : noisy s s1 -> goes es true s1 s2 -> goes es true s s2.
Proof.
  intros (I1 & E1 & R1 & l1 & D1 & F1) [I2 E2 R2 (l2 & D2 & F2 & X2 & _)]. split.
  - by rewrite I2.
  - by rewrite E2, E1.
  - by rewrite R2, R1.
  - exists (l1 ++ l2). rewrite emitted_app, <- D1. split_and!; [done|by apply Forall_app| |done].
    intros Hb. apply Exists_app. auto.
Qed.

(** An error and [err]. *)
Lemma does_error n code f s :
  code <> E2031 ->
  does (do! emit_at n DIAG_ERROR code f; im_fail) [] true (fun _ => True) s.
Proof.
  intros Hc. unfold does, emit_at, im_emit, im_fail. wp_step. wp_step. wp_step. split; [|done].
  split; cbn; [done|by rewrite app_nil_r|by rewrite orb_true_r|].
  eexists [_]. split_and!; [done|by repeat constructor| |done]. intros _. by constructor.
Qed.

(** An error, [err], and what follows. *)
Lemma does_error_then {A} n code f (k : IM A) es Q s :
  code <> E2031 -> (forall s', goes [] true s s' -> does k es false Q s') ->
  does (do! emit_at n DIAG_ERROR code f; do! im_fail; k) es true Q s.
Proof.
  intros Hc Hk. apply (does_eq (do! (do! emit_at n DIAG_ERROR code f; im_fail); k) es true _ _ Q).
  - apply (does_bind _ _ [] true es false (fun _ => True)); [by apply does_error|]. auto.
  - done.
  - done.
  - done.
Qed.

Lemma does_rd src p n (Q : list Z -> Prop) s :
  0 <= p -> 0 <= n -> p + n <= zlen src -> Q (slice src p n) ->
  does (rd_range src p n) [] false Q s.
Proof. intros. apply wp_rd_range; [done..|]. split; [apply goes_refl|done]. Qed.

End Goes.

Section Pass.
Context (src : list Z).
Context (file_exists : list Z -> bool) (readdir : list Z -> option (list (list Z))).
Context (stdlib_dir : list Z) (search_paths : list (list Z)).
Context (max_imports_in_flight max_avail_modules : Z).
#[local] Instance pass_limit : Limit := max_imports_in_flight.
Abbreviation exists_ := (module_exists file_exists stdlib_dir search_paths).

Lemma does_span_dup start len s :
  0 <= start -> 0 <= len -> start + len <= zlen src ->
  does (span_dup src start len) [] false (fun t => t = until_nul (slice src start len)) s.
Proof.
  intros. unfold span_dup, does. wp_step. apply wp_rd_range; [done..|]. wp_step.
  split; [apply goes_refl|done].
Qed.

Lemma joined_cons seg seg' segs :
  joined src (seg :: seg' :: segs) = text src seg ++ chr "." :: joined src (seg' :: segs).
Proof. done. Qed.

(** The rest of the path behind [buf]. *)
Definition tail_of (first : bool) (segs : list Node) : list Z :=
  match segs with
  | [] => []
  | _ => (if first then [] else [chr "."]) ++ joined src segs
  end.

Lemma tail_of_cons first seg segs :
  tail_of first (seg :: segs) = (if first then [] else [chr "."]) ++ text src seg ++ tail_of false segs.
Proof. unfold tail_of. destruct segs; cbn [joined]; [by rewrite app_nil_r|]. done. Qed.

Lemma does_path_loop sz segs : forall first buf s,
  Forall (fun seg => span_in src seg = true) segs -> zlen buf < sz ->
  does (path_loop src segs first buf sz) [] false
    (fun r => r = let p := buf ++ tail_of first segs in if zlen p <? sz then Some p else None) s.
Proof.
  induction segs as [|seg segs IH]; intros first buf s Hs Hb; cbn [path_loop].
  - apply does_ret. cbn. rewrite app_nil_r. by rewrite (proj2 (Z.ltb_lt _ _)).
  - apply Forall_cons in Hs as [Hseg Hs]. unfold span_in in Hseg. zb.
    rewrite tail_of_cons.
    assert (Ht : zlen (text src seg) = n_tok_len seg) by (apply zlen_slice; lia).
    pose proof (zlen_nonneg (tail_of false segs)).
    set (buf' := if first then buf else buf ++ [46]).
    assert (Hbuf : buf ++ (if first then [] else [46]) = buf')
      by (unfold buf'; destruct first; [apply app_nil_r|done]).
    rewrite app_assoc, Hbuf.
    assert (Hl : zlen buf' = zlen buf + if first then 0 else 1).
    { unfold buf'. destruct first; [lia|]. by rewrite zlen_app. }
    assert (Hn : forall p, sz <= zlen buf' + n_tok_len seg ->
              (if zlen (buf' ++ text src seg ++ p) <? sz then Some (buf' ++ text src seg ++ p) else None) = None).
    { intros p Hp. rewrite (proj2 (Z.ltb_ge _ _)); [done|]. rewrite !zlen_app. pose proof (zlen_nonneg p). lia. }
    destruct (negb first && _) eqn:E1; zb.
    { apply does_ret. rewrite Hn; [done|]. destruct first; [done|lia]. }
    destruct (sz <=? zlen buf' + n_tok_len seg) eqn:E2; zb.
    { apply does_ret. by rewrite Hn. }
    apply (does_bind _ _ [] false [] false (fun t => t = text src seg)).
    + by apply does_rd.
    + intros t s' _ ->. eapply does_eq.
      * apply (IH false (buf' ++ text src seg)); [done|]. rewrite zlen_app. lia.
      * done.
      * done.
      * intros r ->. by rewrite <- app_assoc.
Qed.
Lemma does_path pn s :
  Forall (fun seg => span_in src seg = true) (n_children pn) ->
  does (node_path_str src pn TKC_MAX_PATH) [] false
    (fun r => r = let p := joined src (n_children pn) in
                  if zlen p <? TKC_MAX_PATH then Some p else None) s.
Proof.
  intros H. eapply does_eq; [by apply (does_path_loop TKC_MAX_PATH _ true [])|done|done|].
  intros r ->. by destruct (n_children pn).
Qed.

Lemma does_version d s :
  is_import d = true -> import_ok src d ->
  does (import_version src d) [] (malformed src d) (fun r => r = version_of src d) s.
Proof.
  intros Hi Hd. destruct (Hd Hi) as [Hc _]. unfold import_version, malformed, version_of, version_text.
  destruct (n_children d) as [|an [|pn [|vn rest]]]; try by apply does_ret.
  destruct (has_kind NODE_STR_LIT vn && _) eqn:E; [|by apply does_ret].
  apply andb_prop in E as [_ E]. zb. destruct Hc as (_ & _ & Hv). apply Forall_cons in Hv as [Hv _].
  unfold span_in in Hv. zb.
  apply (does_bind _ _ [] false [] _ (fun t => t = until_nul (slice src (n_tok_start vn + 1) (n_tok_len vn - 2)))).
  { apply does_span_dup; lia. }
  intros v s' _ ->. case_match; [by apply does_ret|].
  apply does_error_then; [done|]. intros. by apply does_ret.
Qed.

Definition majors (es : list ImportEntry) : Prop :=
  Forall (fun e => forall v, ie_version e = Some v -> exists m, version_major (Some v) = Ok m) es.

Lemma does_major v m s : version_major v = Ok m -> does (major v) [] false (fun r => r = m) s.
Proof. intros H. unfold major. rewrite H. by apply does_ret. Qed.

Lemma does_conflicts d mpath ver alias r s :
  majors (im_entries s) -> (exists m, version_major (Some ver) = Ok m) ->
  does (check_conflicts d mpath ver) []
    (existsb (fun e' => conflict e' (mkImport alias mpath (Some ver) r)) (im_entries s)) (fun _ => True) s.
Proof.
  intros Hes [m Hm]. unfold check_conflicts.
  apply (does_bind _ _ [] false [] _ (fun r => r = m)); [by apply does_major|]. intros ? s1 G ->.
  apply (does_bind _ _ [] false [] _ (fun es => es = im_entries s)).
  { unfold does. wp_step. split; [apply goes_refl|]. rewrite (go_entries _ _ _ _ G). apply app_nil_r. }
  intros ? s2 _ ->. clear G s1. revert s2. induction Hes as [|e es He _ IH]; intros s2; cbn [each existsb].
  - by apply does_ret.
  - apply (does_bind _ _ [] _ [] _ (fun _ => True)); [|intros; apply IH].
    unfold conflict at 1. cbn [ie_version ie_path]. destruct (ie_version e) as [v|] eqn:Ev; [|by apply does_ret].
    destruct (bytes_eqb (ie_path e) mpath); [rewrite andb_true_l|by apply does_ret].
    destruct (He v eq_refl) as [m' Hm'].
    apply (does_bind _ _ [] false [] _ (fun r => r = m')); [by apply does_major|]. intros ? s3 _ ->.
    unfold maj. rewrite Hm, Hm'. unfold when.
    match goal with |- does (if ?b then _ else _) _ ?c _ _ =>
      change c with b; destruct b; [by apply does_error|by apply does_ret] end.
Qed.

Lemma byte_3_std mpath : is_std mpath = true -> byte_at mpath 3 <> chr "." -> mpath = bytes_of "std".
Proof.
  unfold is_std. intros [H|H]%orb_true_iff Hb; apply bytes_eqb_eq in H; [|done].
  exfalso. apply Hb. destruct mpath as [|a [|b [|c [|x mpath]]]]; try done. by injection H as -> -> -> ->.
Qed.

Lemma does_std d alias mpath ver s :
  is_std mpath = true ->
  does (resolve_std file_exists stdlib_dir search_paths d alias mpath ver)
    [mkImport alias mpath ver (exists_ mpath ver)] (negb (exists_ mpath ver)) (fun _ => True) s.
Proof.
  intros Hstd. unfold resolve_std, module_exists. rewrite Hstd.
  destruct (byte_at mpath 3 =? 46) eqn:E; cbn [negb orb]; [|by apply does_push].
  destruct (std_module_exists _ _ _ _); [by apply does_push|].
  apply does_error_then; [done|]. intros. apply does_push.
Qed.

Lemma does_file d alias mpath ver s :
  is_std mpath = false -> im_inf s = [] ->
  does (resolve_file file_exists readdir search_paths max_imports_in_flight max_avail_modules
          d alias mpath ver)
    [mkImport alias mpath ver (exists_ mpath ver)] (negb (exists_ mpath ver)) (fun _ => True) s.
Proof.
  intros Hstd Hinf. unfold resolve_file, module_exists. rewrite Hstd.
  unfold does. apply wp_bind. unfold ifl_has. apply wp_gets. rewrite Hinf. cbn [existsb].
  apply wp_bind. unfold ifl_push. apply wp_bind, wp_gets. rewrite Hinf. change (zlen []) with 0.
  set (found := module_found _ _ _ _).
  assert (Hin : forall s1, does
    (if found then st_push (mkImport alias mpath ver true)
     else
       do! build_avail_list readdir max_avail_modules (hd [] (sp_list search_paths));
       do! emit_at d DIAG_ERROR E2030 (if find_closest_module (last_seg mpath) is Some _ then true else false);
       do! im_fail; st_push (mkImport alias mpath ver false))
    [mkImport alias mpath ver found] (negb found) (fun _ => True) s1).
  { intros s1. destruct found; [apply does_push|].
    unfold does. eapply (wp_seq _ _ (fun _ s2 => noisy s1 s2)).
    - unfold build_avail_list. case_match; [|by apply wp_ret, noisy_refl]. unfold when.
      case_match; [by apply noisy_emit|by apply wp_ret, noisy_refl].
    - intros _ s2 N. eapply wp_conseq.
      + apply (does_error_then _ _ _ _ [mkImport alias mpath ver false] (fun _ => True)); [done|]. intros. apply does_push.
      + intros ? s3 [G _]. split; [|done]. by eapply noisy_goes. }
  assert (Hpop : forall s1 s2 l1, (length (im_inf s1) <= 1)%nat -> im_entries s1 = im_entries s ->
    im_err s1 = im_err s -> im_diags s1 = emitted l1 (im_diags s) -> Forall (fun e => d_code e <> E2031) l1 ->
    (0 < limit -> l1 = []) ->
    goes [mkImport alias mpath ver found] (negb found) s1 s2 ->
    goes [mkImport alias mpath ver found] (negb found) s
      (mkIm (im_entries s2) (take (length (im_inf s2) - 1) (im_inf s2)) (im_err s2) (im_diags s2))).
  { intros s1 s2 l1 Hn He Hr Hl1 Hc1 Hq [I E R (l & D & F & X & N)]. split; cbn.
    - rewrite I, Hinf. destruct (im_inf s1) as [|? [|]]; [done|done|simpl in Hn; lia].
    - by rewrite E, He.
    - by rewrite R, Hr.
    - exists (l1 ++ l). rewrite emitted_app, <- Hl1. split_and!; [done|by apply Forall_app| |].
      + intros Hb. apply Exists_app. right. auto.
      + intros Hlim Hb. rewrite Hq by done. auto. }
  unfold limit, pass_limit in Hpop. destruct (max_imports_in_flight <=? 0) eqn:Hlim; zb.
  - unfold im_emit. apply wp_modify. eapply wp_seq; [apply Hin|]. intros _ s2 [G _].
    unfold ifl_pop. apply wp_modify. split; [|done]. eapply (Hpop _ _ [_]); [..|exact G]; cbn; try done.
    + rewrite Hinf. simpl. lia.
    + by repeat constructor.
    + lia.
  - apply wp_modify. eapply wp_seq; [apply Hin|]. intros _ s2 [G _].
    unfold ifl_pop. apply wp_modify. split; [|done]. eapply (Hpop _ _ []); [..|exact G]; cbn; try done.
    rewrite Hinf. simpl. lia.
Qed.
Abbreviation entry := (entry_of src file_exists stdlib_dir search_paths).
Abbreviation fine_ := (fine src file_exists stdlib_dir search_paths).
Abbreviation resolve :=
  (resolve_import src file_exists readdir stdlib_dir search_paths max_imports_in_flight max_avail_modules).

Definition opt_list {A} (o : option A) : list A := match o with Some a => [a] | None => [] end.

(** The path does not fit its buffer: the one failure without a diagnostic. *)
Definition too_long (d : Node) : bool :=
  is_import d && match entry d with Some _ => false | None => true end.

(** What an import does to the state. *)
Record imported (d : Node) (s s' : ImState) : Prop := {
  id_inf : im_inf s' = im_inf s;
  id_entries : im_entries s' = im_entries s ++ opt_list (entry d);
  id_err : im_err s' = im_err s || negb (fine_ (im_entries s) d);
  id_diags : exists l, im_diags s' = emitted l (im_diags s) /\
    Forall (fun e => d_code e <> E2031) l /\
    (fine_ (im_entries s) d = false -> too_long d = true \/ Exists is_error l) /\
    (0 < max_imports_in_flight -> fine_ (im_entries s) d = true -> Forall (fun e => ~ is_error e) l)
}.

Lemma imported_goes d s s' :
  goes (opt_list (entry d)) (negb (fine_ (im_entries s) d)) s s' -> imported d s s'.
Proof.
  intros [I E R (l & D & F & X & N)]. split; [done..|]. exists l. split_and!; [done|done| |].
  - intros H. right. apply X. by rewrite H.
  - intros Hl H. apply N; [done|]. by rewrite H.
Qed.

Lemma no_import d : is_import d = false -> entry d = None /\ forall s, wp (resolve d) (fun _ s' => s' = s) s.
Proof.
  unfold is_import, entry_of, resolve_import. intros E.
  destruct (n_children d) as [|an [|pn rest]]; [done|done|].
  rewrite !zlen_cons in E. pose proof (zlen_nonneg rest).
  rewrite (proj2 (Z.leb_le 2 _)), andb_true_r in E by lia. by rewrite E.
Qed.

(** The part of the pass behind the path. *)
Lemma does_rest d an pn rest e s :
  n_children d = an :: pn :: rest -> is_import d = true -> import_ok src d ->
  im_inf s = [] -> majors (im_entries s) -> entry d = Some e ->
  let mpath := path_of src pn in
  let changed := snd (normalise_module_path (until_nul (joined src (n_children pn)))) in
  does (do alias <- span_dup src (n_tok_start an) (n_tok_len an);
        do! when changed (emit_at d DIAG_WARNING W2038 true);
        do ver <- import_version src d;
        do! match ver with Some ver => check_conflicts d mpath ver | None => ret tt end;
        if is_std mpath then resolve_std file_exists stdlib_dir search_paths d alias mpath ver
        else resolve_file file_exists readdir search_paths max_imports_in_flight max_avail_modules
               d alias mpath ver)
    [e] (negb (fine_ (im_entries s) d)) (fun _ => True) s.
Proof.
  intros Hch Hi Hd Hinf Hes He mpath changed. pose proof (Hd Hi) as [Hc Hv]. rewrite Hch in Hc.
  destruct Hc as (Ha & _ & _). unfold span_in in Ha. zb.
  assert (Ee : e = mkImport (until_nul (text src an)) mpath (version_of src d)
                    (exists_ mpath (version_of src d))).
  { unfold entry_of in He. rewrite Hch in He. destruct (_ && _) in He; [|done]. by injection He as <-. }
  eapply does_eq; [| |  |intros ? H'; exact H'].
  - eapply does_bind; [apply does_span_dup; lia|]. intros alias s1 G1 ->.
    eapply does_bind.
    { assert (Hw : does (when changed (emit_at d DIAG_WARNING W2038 true)) [] false (fun _ => True) s1).
      { unfold when. case_match; [by apply does_emit|by apply does_ret]. }
      exact Hw. }
    intros _ s2 G2 _. eapply does_bind; [by apply does_version|]. intros ver s3 G3 ->.
    assert (Es : im_entries s3 = im_entries s).
    { rewrite (go_entries _ _ _ _ G3), (go_entries _ _ _ _ G2), (go_entries _ _ _ _ G1).
      by rewrite !app_nil_r. }
    assert (Is : im_inf s3 = []).
    { by rewrite (go_inf _ _ _ _ G3), (go_inf _ _ _ _ G2), (go_inf _ _ _ _ G1). }
    eapply (does_bind _ _ [] (existsb (fun e' => conflict e' e) (im_entries s)) _ _ (fun _ => True)).
    { destruct (version_of src d) as [ver|] eqn:Ever.
      - rewrite Ee, <- Es. apply does_conflicts; [by rewrite Es|by apply Hv].
      - eapply does_eq; [by apply (does_ret tt (fun _ => True))|done| |done]. rewrite Ee.
        symmetry. clear. induction (im_entries s) as [|e' es IH]; [done|]. cbn [existsb].
        rewrite IH, orb_false_r. unfold conflict. cbn [ie_version]. by destruct (ie_version e'). }
    intros _ s4 G4 _. destruct (is_std mpath) eqn:Estd; [by apply does_std|].
    apply does_file; [done|]. by rewrite (go_inf _ _ _ _ G4).
  - cbn [app]. by rewrite Ee.
  - unfold fine. rewrite Hi, He, Ee. cbn [negb orb ie_resolved]. rewrite !negb_andb, !negb_involutive.
    by rewrite orb_assoc.
Qed.

Lemma resolve_import_ok d s :
  import_ok src d -> im_inf s = [] -> majors (im_entries s) ->
  wp (resolve d) (fun _ s' => imported d s s') s.
Proof.
  intros Hd Hinf Hes. destruct (is_import d) eqn:Ei.
  - assert (Hk : has_kind NODE_IMPORT d = true) by (unfold is_import in Ei; by apply andb_prop in Ei as [? _]).
    destruct (n_children d) as [|an [|pn rest]] eqn:Ech.
    1,2: (unfold is_import in Ei; rewrite Ech in Ei; apply andb_prop in Ei as [_ Ei]; done).
    pose proof (Hd Ei) as [Hc _]. rewrite Ech in Hc. destruct Hc as (_ & Hsegs & _).
    unfold resolve_import. rewrite Ech, Hk. cbn [negb].
    eapply wp_seq; [by apply does_path|]. intros r s1 [G1 ->]. cbn zeta.
    assert (Es : im_entries s1 = im_entries s) by (rewrite (go_entries _ _ _ _ G1); apply app_nil_r).
    destruct (entry d) as [e|] eqn:Ee.
    + assert (El : (zlen (joined src (n_children pn)) <? TKC_MAX_PATH) = true).
      { unfold entry_of in Ee. rewrite Ech, Hk in Ee. by destruct (_ <? _). }
      rewrite El. pose proof (does_rest d an pn rest e s1 Ech Ei Hd) as Hr.
      unfold path_of in Hr. destruct (normalise_module_path _) as [mpath changed] eqn:En. cbn [fst snd] in Hr.
      rewrite Es in Hr. specialize (Hr ltac:(by rewrite (go_inf _ _ _ _ G1)) Hes Ee).
      eapply wp_conseq; [exact Hr|]. intros _ s2 [G2 _]. apply imported_goes. rewrite Ee.
      apply (goes_trans _ _ _ _ _ _ _ G1 G2).
    + assert (El : (zlen (joined src (n_children pn)) <? TKC_MAX_PATH) = false).
      { unfold entry_of in Ee. rewrite Ech, Hk in Ee. by destruct (_ <? _). }
      rewrite El. unfold im_fail. apply wp_modify.
      assert (Hf : fine_ (im_entries s) d = false) by (unfold fine; by rewrite Ei, Ee).
      destruct G1 as [I1 _ R1 (l & D1 & F1 & _)]. split; cbn.
      * done.
      * by rewrite Ee, Es, app_nil_r.
      * by rewrite Hf, orb_true_r.
      * exists l. split_and!; [done|done| |by rewrite Hf]. intros _. left. unfold too_long. by rewrite Ei, Ee.
  - destruct (no_import d Ei) as [Ee Hw]. eapply wp_conseq; [apply Hw|]. intros _ s' ->.
    assert (Hf : fine_ (im_entries s) d = true) by (unfold fine; by rewrite Ei).
    split; [done|by rewrite Ee, app_nil_r|by rewrite Hf, orb_false_r|].
    exists []. split_and!; [done|constructor|by rewrite Hf|constructor].
Qed.
(** ** The whole pass *)

Definition good_import (d : Node) : Prop :=
  is_import d = true ->
  malformed src d = false /\ exists e, entry d = Some e /\ ie_resolved e = true.

Definition no_conflict (es : list ImportEntry) : Prop :=
  ForallOrdPairs (fun e1 e2 => conflict e1 e2 = false) es.

(** Every import of the list is fine behind those before it. *)
Fixpoint all_fine (ds : list Node) (es : list ImportEntry) : bool :=
  match ds with
  | [] => true
  | d :: ds => fine_ es d && all_fine ds (es ++ opt_list (entry d))
  end.

Lemma conflicts_none es e :
  existsb (fun e' => conflict e' e) es = false <-> Forall (fun e' => conflict e' e = false) es.
Proof.
  induction es as [|e' es IH]; cbn [existsb].
  - split; [constructor|done].
  - rewrite orb_false_iff, IH, Forall_cons. done.
Qed.

Lemma fine_spec es d :
  fine_ es d = true <-> good_import d /\ Forall (fun e => Forall (fun e' => conflict e' e = false) es) (opt_list (entry d)).
Proof.
  unfold fine, good_import. destruct (is_import d) eqn:Ei; cbn [negb orb].
  - destruct (entry d) as [e|]; cbn [opt_list].
    + rewrite !andb_true_iff, !negb_true_iff, conflicts_none, Forall_singleton. split.
      * intros [[Hm Hc] Hr]. split; [|done]. intros _. split; [done|]. by exists e.
      * intros [H Hc]. destruct (H eq_refl) as (Hm & e' & [= <-] & Hr). done.
    + split; [done|]. intros [H _]. destruct (H eq_refl) as (_ & e & ? & _). done.
  - destruct (no_import d Ei) as [-> _]. split; [|done]. intros _. split; [done|constructor].
Qed.

Lemma pairs_app es fs :
  no_conflict (es ++ fs) <->
  no_conflict es /\ no_conflict fs /\ Forall (fun f => Forall (fun e => conflict e f = false) es) fs.
Proof.
  unfold no_conflict. induction es as [|e es IH]; cbn [app].
  - split; [|tauto]. intros H. split_and!; [constructor|done|]. apply Forall_forall. constructor.
  - split.
    + intros H. inversion H as [|? ? He Hs]; subst. apply IH in Hs as (H1 & H2 & H3).
      apply Forall_app in He as [He1 He2]. split_and!; [by constructor|done|].
      apply Forall_forall. intros f Hf. constructor; [exact (proj1 (Forall_forall _ _) He2 f Hf)|].
      exact (proj1 (Forall_forall _ _) H3 f Hf).
    + intros (H1 & H2 & H3). inversion H1 as [|? ? He Hs]; subst. constructor.
      * apply Forall_app. split; [done|]. eapply Forall_impl; [exact H3|]. by intros f [? _]%Forall_cons.
      * apply IH. split_and!; [done|done|]. eapply Forall_impl; [exact H3|]. by intros f [_ ?]%Forall_cons.
Qed.

Lemma all_fine_spec ds : forall es,
  no_conflict es ->
  all_fine ds es = true <->
  Forall good_import ds /\ no_conflict (es ++ omap entry ds).
Proof.
  induction ds as [|d ds IH]; intros es Hes; cbn [all_fine omap list_omap].
  - rewrite app_nil_r. split; [|done]. by split; [constructor|].
  - assert (Ho : (match entry d with Some y => y :: omap entry ds | None => omap entry ds end)
                 = opt_list (entry d) ++ omap entry ds) by by destruct (entry d).
    rewrite Ho, andb_true_iff, fine_spec, Forall_cons.
    assert (Hone : no_conflict (opt_list (entry d))).
    { destruct (entry d); [|constructor]. constructor; constructor. }
    split.
    + intros [[Hg Hc] Hf]. rewrite (IH (es ++ opt_list (entry d))), <- app_assoc in Hf; [tauto|].
      by apply pairs_app.
    + intros [[Hg Hds] Hp]. rewrite app_assoc in Hp.
      pose proof (proj1 (pairs_app _ _) Hp) as [Hp' _].
      pose proof (proj1 (pairs_app _ _) Hp') as (_ & _ & Hc).
      split; [done|]. by apply IH.
Qed.

Lemma majors_entry d : import_ok src d -> majors (opt_list (entry d)).
Proof.
  intros Hd. unfold majors. destruct (entry d) as [e|] eqn:E; [|constructor].
  apply Forall_singleton. intros v Hv. destruct (is_import d) eqn:Ei.
  - destruct (Hd Ei) as [_ Hm]. apply Hm. unfold entry_of in E.
    destruct (n_children d) as [|an [|pn rest]]; [done|done|]. destruct (_ && _) in E; [|done].
    by injection E as <-.
  - destruct (no_import d Ei) as [? _]. congruence.
Qed.

Lemma resolve_imports_loop ds : forall s,
  Forall (import_ok src) ds -> im_inf s = [] -> majors (im_entries s) ->
  wp (each resolve ds) (fun _ s' =>
    im_entries s' = im_entries s ++ omap entry ds /\
    im_err s' = im_err s || negb (all_fine ds (im_entries s)) /\
    exists l, im_diags s' = emitted l (im_diags s) /\ Forall (fun e => d_code e <> E2031) l /\
      (all_fine ds (im_entries s) = false -> Exists (fun d => too_long d = true) ds \/ Exists is_error l) /\
      (0 < max_imports_in_flight -> all_fine ds (im_entries s) = true -> Forall (fun e => ~ is_error e) l)) s.
Proof.
  induction ds as [|d ds IH]; intros s Hds Hinf Hes; cbn [each all_fine omap list_omap].
  - apply wp_ret. rewrite app_nil_r, orb_false_r. split_and!; [done|done|].
    exists []. split_and!; [done|constructor|done|constructor].
  - apply Forall_cons in Hds as [Hd Hds]. eapply wp_seq; [by apply resolve_import_ok|].
    intros _ s1 [I1 E1 R1 (l1 & D1 & F1 & X1 & N1)]. eapply wp_conseq.
    + apply IH; [done|by rewrite I1|]. rewrite E1. apply Forall_app. split; [done|by apply majors_entry].
    + intros _ s2 (E2 & R2 & l2 & D2 & F2 & X2 & N2). rewrite E1 in *. split_and!.
      * rewrite E2, <- app_assoc. by destruct (entry d).
      * rewrite R2, R1, negb_andb. by rewrite orb_assoc.
      * exists (l1 ++ l2). rewrite emitted_app, <- D1. split_and!; [done|by apply Forall_app| |].
        -- intros [H|H]%andb_false_iff.
           ++ destruct (X1 H); [left; by constructor|right; apply Exists_app; by left].
           ++ destruct (X2 H); [left; by constructor|right; apply Exists_app; by right].
        -- intros Hl [H1 H2]%andb_prop. apply Forall_app. auto.
Qed.
End Pass.

(** ** The theorems *)

Section Theorems.
Context (src : list Z).
Context (file_exists : list Z -> bool) (readdir : list Z -> option (list (list Z))).
Context (stdlib_dir : list Z) (search_paths : list (list Z)).
Context (max_imports_in_flight max_avail_modules : Z).

(** C33: on imports whose texts are in the source and whose major versions fit
    [int], the pass ends; its table has the entry of every import whose path
    fits its buffer, in their order, and it succeeds exactly when every import
    has a well-formed version and a module that exists, and no module is
    imported with two major versions. *)
Theorem resolve_imports_result ast diags :
  Forall (import_ok src) (n_children ast) ->
  exists b diags',
    resolve_imports src file_exists readdir stdlib_dir search_paths max_imports_in_flight
      max_avail_modules ast diags
    = Ok (b, omap (entry_of src file_exists stdlib_dir search_paths) (n_children ast), diags') /\
    (b = true <->
       Forall (good_import src file_exists stdlib_dir search_paths) (n_children ast) /\
       no_conflict (omap (entry_of src file_exists stdlib_dir search_paths) (n_children ast))).
Proof.
  intros H. unfold resolve_imports.
  destruct (wp_ok _ _ _ (resolve_imports_loop src file_exists readdir stdlib_dir search_paths
    max_imports_in_flight max_avail_modules _ (mkIm [] [] false diags) H eq_refl ltac:(constructor)))
    as (? & s & -> & E & R & _).
  cbn in E, R. rewrite E, R. eexists _, _. split; [done|]. rewrite negb_involutive.
  apply (all_fine_spec src file_exists readdir stdlib_dir search_paths max_imports_in_flight
           max_avail_modules). constructor.
Qed.

(** No import is ever reported as circular; and a failure of the pass is
    reported as an error, unless a path does not fit its buffer. *)
Theorem resolve_imports_reports ast diags b es diags' :
  Forall (import_ok src) (n_children ast) -> s_suppress diags = false ->
  resolve_imports src file_exists readdir stdlib_dir search_paths max_imports_in_flight
    max_avail_modules ast diags = Ok (b, es, diags') ->
  (exists l, diags' = emitted l diags /\ Forall (fun e => d_code e <> E2031) l) /\
  (b = false ->
   Forall (fun d => too_long src file_exists stdlib_dir search_paths d = false) (n_children ast) ->
   s_error_count diags < s_error_count diags').
Proof.
  intros H Hs. unfold resolve_imports.
  destruct (wp_ok _ _ _ (resolve_imports_loop src file_exists readdir stdlib_dir search_paths
    max_imports_in_flight max_avail_modules _ (mkIm [] [] false diags) H eq_refl ltac:(constructor)))
    as (? & s & -> & _ & R & l & D & F & X & _).
  intros [= <- _ <-]. cbn in R, D, X. rewrite R, negb_involutive, D. split; [by exists l|].
  intros Hb Ht. destruct (X Hb) as [Hx|Hx].
  - apply Exists_exists in Hx as (d & Hd & Hx).
    pose proof (proj1 (Forall_forall _ _) Ht d Hd). congruence.
  - by apply emitted_errors.
Qed.
End Theorems.

(** A program with an import of the library and one of a file, with a version. *)
Definition imports_text : list Z :=
  bytes_of "m=a;i=io:std.io;i=x:My.mod " ++ [34] ++ bytes_of "1.2" ++ [34] ++ bytes_of ";i=y:STD.jsn;".
Definition imports_ast : Node := Eval vm_compute in ast_of imports_text.
Definition only_mod (path : list Z) : bool := bytes_eqb path (bytes_of "./My/mod.1.2.tki").

Example imports_run :
  match resolve_imports imports_text only_mod (fun _ => None) [] [] 64 64 imports_ast diags_init with
  | Ok (b, es, d) =>
      (b, map (fun e => (ie_path e, ie_resolved e)) es, map d_code (s_stream d)) =
      (false, [(bytes_of "std.io", true); (bytes_of "My.mod", true); (bytes_of "std.jsn", false)],
       [W2038; E2030])
  | _ => False
  end.
Proof. vm_compute. reflexivity. Qed.

Lemma imports_ast_ok : Forall (import_ok imports_text) (n_children imports_ast).
Proof.
  repeat apply Forall_cons_2; [..|apply Forall_nil_2]; intros _; vm_compute n_children.
  all: split; [repeat split; repeat apply Forall_cons_2; try apply Forall_nil_2; vm_compute; reflexivity|].
  all: intros v Hv; vm_compute in Hv; simplify_eq; eexists; vm_compute; reflexivity.
Qed.

Lemma resolve_imports_result_witness :
  Forall (import_ok imports_text) (n_children imports_ast) /\
  exists b diags',
    resolve_imports imports_text only_mod (fun _ => None) [] [] 64 64 imports_ast diags_init
    = Ok (b, omap (entry_of imports_text only_mod [] []) (n_children imports_ast), diags') /\
    (b = true <->
       Forall (good_import imports_text only_mod [] []) (n_children imports_ast) /\
       no_conflict (omap (entry_of imports_text only_mod [] []) (n_children imports_ast))).
Proof.
  split; [exact imports_ast_ok|].
  exact (resolve_imports_result imports_text only_mod (fun _ => None) [] [] 64 64 imports_ast
           diags_init imports_ast_ok).
Defined.

Lemma resolve_imports_reports_witness :
  exists b es diags',
    resolve_imports imports_text only_mod (fun _ => None) [] [] 64 64 imports_ast diags_init
      = Ok (b, es, diags') /\
    (exists l, diags' = emitted l diags_init /\ Forall (fun e => d_code e <> E2031) l) /\
    (b = false ->
     Forall (fun d => too_long imports_text only_mod [] [] d = false) (n_children imports_ast) ->
     s_error_count diags_init < s_error_count diags').
Proof.
  destruct (resolve_imports imports_text only_mod (fun _ => None) [] [] 64 64 imports_ast diags_init)
    as [[[b es] d]| |] eqn:E; [|vm_compute in E; discriminate|vm_compute in E; discriminate].
  exists b, es, d. split; [reflexivity|].
  exact (resolve_imports_reports imports_text only_mod (fun _ => None) [] [] 64 64 imports_ast
           diags_init b es d imports_ast_ok eq_refl E).
Defined.

(** A major version that does not fit [int]. *)
Example major_overflow : version_major (Some (bytes_of "9999999999.0")) = Oob.
Proof. vm_compute. reflexivity. Qed.
