(* ===== verification/Resolve.v ===== *)
(** * Name resolution: [resolve_node] and the passes of [src/src/names.c]

    The chain of scopes is a list, the innermost first; the scopes of a subtree
    are dropped behind it, as nothing points to them then.  The module scope is
    the last of the chain. *)

From Stdlib Require Import ZArith Lia String Ascii.
From stdpp Require Import base tactics list.
From S2P Require Import Prelude Diag Lexer Ast Parser ModName.
Open Scope Z_scope.

Definition E3011 : Z := 3011.
Definition E3012 : Z := 3012.
Definition E4033 : Z := 4033.
Definition W3013 : Z := 3013.
Definition MAX_NAME_ERRORS : Z := 20.
Definition MAX_CLOSURE_CAPTURES : Z := 64.

Inductive DeclKind :=
  | DECL_FUNC | DECL_TYPE | DECL_CONST | DECL_PARAM | DECL_LET | DECL_MUT
  | DECL_PREDEFINED | DECL_IMPORT_ALIAS | DECL_CLOSURE_PARAM.

#[global] Instance DeclKind_eq_dec : EqDecision DeclKind.
Proof. solve_decision. Defined.

Record Decl := mkDecl { dc_name : list Z; dc_kind : DeclKind; dc_def : option Node }.

(** The declarations from [head] on. *)
Definition Scope : Type := list Decl.

Record CaptureInfo := mkCapture { ci_node : Node; ci_names : list (list Z) }.

(** The scopes, [s_name_error_count], [had_error], the captures with the
    capacity of their array, and the diagnostics. *)
Record RState := mkR {
  rs_scopes : list Scope;
  rs_errors : Z;
  rs_had : bool;
  rs_captures : list CaptureInfo;
  rs_capture_cap : Z;
  rs_diags : Diags
}.

Definition RM (A : Type) : Type := M RState A.

Definition set_scopes (f : list Scope -> list Scope) : RM unit :=
  modify (fun s => mkR (f (rs_scopes s)) (rs_errors s) (rs_had s) (rs_captures s) (rs_capture_cap s)
                     (rs_diags s)).
Definition set_had : RM unit :=
  modify (fun s => mkR (rs_scopes s) (rs_errors s) true (rs_captures s) (rs_capture_cap s) (rs_diags s)).
Definition rs_emit (sev : DiagSeverity) (code : Z) (n : Node) (fix_ : bool) : RM unit :=
  modify (fun s => mkR (rs_scopes s) (rs_errors s) (rs_had s) (rs_captures s) (rs_capture_cap s)
                     (diag_emit sev code (n_start n) (n_line n) (n_col n) fix_ (rs_diags s))).

(** One more error; it is reported up to the limit. *)
Definition name_error (code : Z) (n : Node) (fix_ : bool) : RM unit :=
  do! modify (fun s => mkR (rs_scopes s) (rs_errors s + 1) (rs_had s) (rs_captures s)
                         (rs_capture_cap s) (rs_diags s));
  do s <- get;
  when (rs_errors s <=? MAX_NAME_ERRORS) (rs_emit DIAG_ERROR code n fix_).

(** ** Scopes *)

Fixpoint scope_lookup_local (s : Scope) (name : list Z) : option Decl :=
  match s with
  | [] => None
  | d :: s => if bytes_eqb (dc_name d) name then Some d else scope_lookup_local s name
  end.

(** The declaration, and the number of scopes inside the one that holds it. *)
Fixpoint scope_lookup_at (depth : nat) (sc : list Scope) (name : list Z) : option (nat * Decl) :=
  match sc with
  | [] => None
  | s :: sc =>
      match scope_lookup_local s name with
      | Some d => Some (depth, d)
      | None => scope_lookup_at (S depth) sc name
      end
  end.
Definition scope_lookup (sc : list Scope) (name : list Z) : option Decl :=
  option_map snd (scope_lookup_at 0 sc name).

(** [existing->kind = kind; existing->def_node = def_node;] *)
Fixpoint scope_replace (s : Scope) (name : list Z) (kind : DeclKind) (def : option Node) : Scope :=
  match s with
  | [] => []
  | d :: s =>
      if bytes_eqb (dc_name d) name then mkDecl (dc_name d) kind def :: s
      else d :: scope_replace s name kind def
  end.

(** The innermost scope. *)
Definition top_scope : RM Scope :=
  do s <- get; match rs_scopes s with [] => oob | top :: _ => ret top end.
Definition set_top (top : Scope) : RM unit := set_scopes (fun sc => top :: tl sc).

Definition declare (d : Decl) : RM unit := do top <- top_scope; set_top (d :: top).

(** A computation inside a new scope. *)
Definition in_scope (m : RM unit) : RM unit :=
  do! set_scopes (fun sc => [] :: sc); do! m; set_scopes (fun sc => tl sc).

Definition kind_in (k : DeclKind) (ks : list DeclKind) : bool := bool_decide (k ∈ ks).

Section Resolve.
Context (src : list Z).

Definition name_of (n : Node) : RM (list Z) := rd_range src (n_tok_start n) (n_tok_len n).

(** [false] for a duplicate. *)
Definition scope_insert (n : Node) (kind : DeclKind) (def : Node) : RM bool :=
  do name <- name_of n;
  do top <- top_scope;
  match scope_lookup_local top name with
  | Some existing =>
      if kind_in kind [DECL_LET; DECL_MUT] || kind_in (dc_kind existing) [DECL_PREDEFINED] then
        do! set_top (scope_replace top name kind (Some def)); ret true
      else do! name_error E3012 n false; ret false
  | None => do! declare (mkDecl name kind (Some def)); ret true
  end.

Definition warn_enclosing_shadow (bname : Node) : RM unit :=
  do s <- get;
  match rs_scopes s with
  | top :: ((_ :: _) as parent) =>
      if (n_tok_len bname <=? 0) || (200 <? n_tok_len bname) then ret tt
      else
        do name <- name_of bname;
        match scope_lookup_local top name, scope_lookup parent name with
        | None, Some outer =>
            when (kind_in (dc_kind outer) [DECL_LET; DECL_MUT; DECL_PARAM; DECL_CLOSURE_PARAM])
              (rs_emit DIAG_WARNING W3013 bname false)
        | _, _ => ret tt
        end
  | _ => ret tt
  end.

(** ** Identifiers *)

Definition foreign_keywords : list (list Z) := map bytes_of
  ["def"; "return"; "func"; "function"; "fn"; "printf"; "console"; "var"; "const"; "null";
   "None"]%string.
Definition foreign_keyword_fix (name : list Z) : bool := existsb (bytes_eqb name) foreign_keywords.

(** Some name is nearer than four edits. *)
Definition near_name (nbuf : list Z) (sc : list Scope) : bool :=
  existsb (fun d => levenshtein nbuf (until_nul (dc_name d)) <? 4) (concat sc).

Definition resolve_ident (node : Node) : RM unit :=
  do name <- name_of node;
  do s <- get;
  match scope_lookup (rs_scopes s) name with
  | Some found =>
      if kind_in (dc_kind found) [DECL_TYPE] && has_kind NODE_IDENT node then
        do! name_error E4033 node true; set_had
      else ret tt
  | None =>
      let nbuf := until_nul (take 200 name) in
      do! name_error E3011 node (foreign_keyword_fix nbuf || near_name nbuf (rs_scopes s));
      do! declare (mkDecl name DECL_PREDEFINED None);
      set_had
  end.

(** ** Captures *)

(** [memcmp(captured, name, len) == 0] *)
Definition captured_eq (captured name : list Z) : bool :=
  bytes_eqb (take (length name) (captured ++ [0])) name.

(** [sc] is the chain from the scope of the closure on. *)
Fixpoint collect_captures (sc : list Scope) (node : Node) : M (list (list Z)) unit :=
  match n_kind node with
  | NODE_IDENT | NODE_TYPE_IDENT =>
      do name <- rd_range src (n_tok_start node) (n_tok_len node);
      match scope_lookup_at 0 sc name with
      | None => ret tt
      | Some (depth, decl) =>
          if bool_decide (depth = 0%nat) || bool_decide (S depth = length sc) then ret tt
          else if kind_in (dc_kind decl) [DECL_FUNC; DECL_TYPE; DECL_IMPORT_ALIAS; DECL_PREDEFINED]
          then ret tt
          else
            do names <- get;
            if existsb (fun c => captured_eq c name) names then ret tt
            else when (zlen names <? MAX_CLOSURE_CAPTURES) (put (names ++ [name]))
      end
  | NODE_FIELD_EXPR =>
      match n_children node with base :: _ => collect_captures sc base | [] => ret tt end
  | _ => each (fun c => collect_captures sc c) (n_children node)
  end.

(** A run on a state of its own. *)
Definition run_in {S T A} (m : M S A) (s : S) : M T S :=
  match m s with
  | Ok (_, s) => ret s
  | Oob => oob
  | NoFuel => no_fuel
  end.

Definition nameenv_add_capture (closure : Node) (names : list (list Z)) : RM unit :=
  match names with
  | [] => ret tt
  | _ =>
      modify (fun s =>
        let cap := if rs_capture_cap s <=? zlen (rs_captures s)
                   then (if rs_capture_cap s =? 0 then 8 else rs_capture_cap s * 2)
                   else rs_capture_cap s in
        mkR (rs_scopes s) (rs_errors s) (rs_had s) (rs_captures s ++ [mkCapture closure names]) cap
          (rs_diags s))
  end.

Definition is_param (n : Node) : bool := has_kind NODE_PARAM n.

(** ** The tree *)

(** The children of a function or a closure: parameters are declared, and their
    types and the other children resolved. *)
Definition resolve_parts (resolve_node : Node -> RM unit) (kind : DeclKind) (parts : list Node) : RM unit :=
  each (fun p =>
    match n_kind p with
    | NODE_PARAM =>
        match n_children p with
        | [] => ret tt
        | pname :: rest =>
            do! (if has_kind NODE_IDENT pname || has_kind NODE_TYPE_IDENT pname
                 then do _ <- scope_insert pname kind p; ret tt else ret tt);
            match rest with t :: _ => resolve_node t | [] => ret tt end
        end
    | _ => resolve_node p
    end) parts.

Definition resolve_func (resolve_node : Node -> RM unit) (node : Node) : RM unit :=
  in_scope (resolve_parts resolve_node DECL_PARAM (n_children node)).

Definition resolve_closure (resolve_node : Node -> RM unit) (node : Node) : RM unit :=
  in_scope (
    do! resolve_parts resolve_node DECL_CLOSURE_PARAM (n_children node);
    do s <- get;
    do names <- run_in (each (fun c => if is_param c then ret tt else collect_captures (rs_scopes s) c)
                          (n_children node)) [];
    nameenv_add_capture node names).

(** A name bound by a statement; a duplicate is an error. *)
Definition bind_name (bname : Node) (kind : DeclKind) (def : Node) : RM unit :=
  do ok <- scope_insert bname kind def; when (negb ok) set_had.

Fixpoint resolve_node (node : Node) : RM unit :=
  match n_kind node with
  | NODE_IDENT => resolve_ident node
  | NODE_TYPE_IDENT => if tk_eqb (n_op node) TK_DOT then ret tt else resolve_ident node
  | NODE_FIELD_EXPR =>
      match n_children node with base :: _ => resolve_node base | [] => ret tt end
  | NODE_FUNC_DECL => resolve_func resolve_node node
  | NODE_CLOSURE => resolve_closure resolve_node node
  | NODE_BIND_STMT | NODE_MUT_BIND_STMT =>
      match n_children node with
      | [] => ret tt
      | bname :: rest =>
          do! each (fun c => resolve_node c) rest;
          do! warn_enclosing_shadow bname;
          bind_name bname (if has_kind NODE_MUT_BIND_STMT node then DECL_MUT else DECL_LET) node
      end
  | NODE_STMT_LIST | NODE_SCOPE_STMT =>
      in_scope (each (fun c => resolve_node c) (n_children node))
  | NODE_MATCH_ARM =>
      in_scope (
        match n_children node with
        | _ :: bname :: rest =>
            do! when (has_kind NODE_IDENT bname) (bind_name bname DECL_LET node);
            match rest with body :: _ => resolve_node body | [] => ret tt end
        | _ => ret tt
        end)
  | NODE_LOOP_STMT =>
      in_scope (
        match n_children node with
        | init :: rest =>
            match n_kind init with
            | NODE_LOOP_INIT =>
                do! match n_children init with _ :: e :: _ => resolve_node e | _ => ret tt end;
                do! match n_children init with
                    | vname :: _ =>
                        when (tk_eqb (n_op init) TK_KW_LET || tk_eqb (n_op init) TK_KW_MUT)
                          (do! warn_enclosing_shadow vname; bind_name vname DECL_MUT init)
                    | [] => ret tt
                    end;
                each (fun c => resolve_node c) rest
            | _ => do! resolve_node init; each (fun c => resolve_node c) rest
            end
        | [] => ret tt
        end)
  | _ => each (fun c => resolve_node c) (n_children node)
  end.

(** ** The passes of [resolve_names] *)

(** A predefined name: whatever the scope holds already. *)
Definition seed_predefined (name : list Z) : RM unit :=
  declare (mkDecl (until_nul name) DECL_PREDEFINED None).

(** A field with a [$] before its name is a variant. *)
Definition seed_variant (fld : Node) : RM unit :=
  if negb (has_kind NODE_FIELD fld) || (n_tok_start fld <=? 0) then ret tt
  else
    do c <- rd src (n_tok_start fld - 1);
    when (c =? chr "$")
      (let vlen := if n_tok_len fld <? 127 then n_tok_len fld else 127 in
       do vname <- rd_range src (n_tok_start fld) vlen;
       seed_predefined vname).

Definition decl_kind (k : NodeKind) : option DeclKind :=
  match k with
  | NODE_FUNC_DECL => Some DECL_FUNC
  | NODE_TYPE_DECL => Some DECL_TYPE
  | NODE_CONST_DECL => Some DECL_CONST
  | _ => None
  end.

(** The first pass on a declaration. *)
Definition register_decl (d : Node) : RM unit :=
  match decl_kind (n_kind d), n_children d with
  | Some dk, name_node :: parts =>
      do _ <- scope_insert name_node dk d;
      when (kind_in dk [DECL_TYPE])
        (each (fun p =>
           match n_kind p with
           | NODE_STMT_LIST => each seed_variant (n_children p)
           | _ => seed_variant p
           end) parts)
  | _, _ => ret tt
  end.

(** Both passes. *)
Definition resolve_passes (ast : Node) : RM unit :=
  do! each register_decl (n_children ast);
  each (fun d => match n_kind d with
                 | NODE_MODULE | NODE_IMPORT => ret tt
                 | _ => resolve_node d
                 end) (n_children ast).

End Resolve.

Definition predefined : list (list Z) := map bytes_of
  ["true"; "false"; "bool"; "i64"; "u64"; "f64"; "str"; "void"; "ok"; "err"; "none"]%string.

(** The module scope with the predefined names. *)
Definition predefined_scope : Scope :=
  fold_left (fun s name => mkDecl name DECL_PREDEFINED None :: s) predefined [].

Definition rs_start (mscope : Scope) (d : Diags) : RState := mkR [mscope] 0 false [] 0 d.

(** The passes from a module scope: the result of [resolve_names] ([true] for 0)
    and the state. *)
Definition resolve_module (src : list Z) (mscope : Scope) (ast : Node) (d : Diags)
    : res (bool * RState) :=
  match resolve_passes src ast (rs_start mscope d) with
  | Ok (_, s) => Ok (negb (rs_had s), s)
  | Oob => Oob
  | NoFuel => NoFuel
  end.

Definition resolve_text (t : string) : option (bool * list Z * list (list (list Z))) :=
  match resolve_module (bytes_of t) predefined_scope (ast_of (bytes_of t)) diags_init with
  | Ok (b, s) => Some (b, map d_code (s_stream (rs_diags s)), map ci_names (rs_captures s))
  | _ => None
  end.

Example resolve_ok : resolve_text "m=a;f=g(x:i64):i64{let y=x+1;<h(y)};f=h(z:i64):i64{<g(z)};" = Some (true, [], []).
Proof. vm_compute. reflexivity. Qed.
Example resolve_bad : resolve_text "m=a;f=g(x:i64):i64{let x=x+q;<q};" = Some (false, [E3011; W3013], []).
Proof. vm_compute. reflexivity. Qed.
Example resolve_shadow : resolve_text "m=a;f=g(x:i64):i64{if(true){let x=2;};<x};" = Some (true, [W3013], []).
Proof. vm_compute. reflexivity. Qed.

(** The name [n] is not captured behind [num], of which it is a prefix. *)
Example capture_prefix :
  resolve_text "m=a;f=g(num:i64;n:i64):i64{let h=fn(z:i64):i64{<z+num+n};<h(n)};"
  = Some (true, [], [[bytes_of "num"]]).
Proof. vm_compute. reflexivity. Qed.
