(* ===== verification/ResolveSpec.v ===== *)
(** * Lexical scoping of toke, on finite maps

    A scope is a map from names to kinds; [G] is what the enclosing scopes
    declare and [L] the innermost one.  [scoping n G L] is [L] behind the node,
    or [None] when a name in it is not declared, is declared twice, or is a type
    in the place of a value. *)

From Stdlib Require Import ZArith Lia String Ascii.
From stdpp Require Import base tactics list gmap.
From S2P Require Import Prelude Lexer Ast Parser Resolve.
Open Scope Z_scope.

Abbreviation names := (gmap (list Z) DeclKind).

(** What a part of a program does to the innermost scope. *)
Definition Sem : Type := names -> names -> option names.

Definition done_ : Sem := fun _ L => Some L.
Definition seq_ (f g : Sem) : Sem := fun G L => f G L ≫= g G.
Definition block_ (f : Sem) : Sem := fun G L => f (L ∪ G) ∅ ≫= fun _ => Some L.

Section All.
Context {A : Type} (f : A -> Sem).

Fixpoint all_ (l : list A) : Sem :=
  match l with
  | [] => done_
  | a :: l => seq_ (f a) (all_ l)
  end.
End All.

Section Scoping.
Context (src : list Z).

Definition text (n : Node) : list Z := slice src (n_tok_start n) (n_tok_len n).

(** A value must be declared, and not as a type. *)
Definition value_ (n : Node) : Sem := fun G L =>
  match (L ∪ G) !! text n with
  | Some k => if decide (k = DECL_TYPE) then None else Some L
  | None => None
  end.
Definition type_ (n : Node) : Sem := fun G L =>
  match (L ∪ G) !! text n with Some _ => Some L | None => None end.

(** [let] may declare a name again, and any declaration a predefined one. *)
Definition bind_ (k : DeclKind) (n : Node) : Sem := fun _ L =>
  match L !! text n with
  | None => Some (<[text n := k]> L)
  | Some k' =>
      if decide (k = DECL_LET \/ k = DECL_MUT \/ k' = DECL_PREDEFINED)
      then Some (<[text n := k]> L) else None
  end.

Definition is_name (n : Node) : bool := has_kind NODE_IDENT n || has_kind NODE_TYPE_IDENT n.

Definition parts_ (rec : Node -> Sem) (k : DeclKind) (parts : list Node) : Sem :=
  all_ (fun p =>
    match n_kind p, n_children p with
    | NODE_PARAM, [] => done_
    | NODE_PARAM, [pname] => if is_name pname then bind_ k pname else done_
    | NODE_PARAM, pname :: t :: _ => seq_ (if is_name pname then bind_ k pname else done_) (rec t)
    | _, _ => rec p
    end) parts.

Fixpoint scoping (n : Node) : Sem :=
  match n_kind n, n_children n with
  | NODE_IDENT, _ => value_ n
  | NODE_TYPE_IDENT, _ => if tk_eqb (n_op n) TK_DOT then done_ else type_ n
  | NODE_FIELD_EXPR, base :: _ => scoping base
  | NODE_FIELD_EXPR, [] => done_
  | NODE_FUNC_DECL, parts => block_ (parts_ scoping DECL_PARAM parts)
  | NODE_CLOSURE, parts => block_ (parts_ scoping DECL_CLOSURE_PARAM parts)
  | NODE_BIND_STMT, bname :: rest => seq_ (all_ scoping rest) (bind_ DECL_LET bname)
  | NODE_MUT_BIND_STMT, bname :: rest => seq_ (all_ scoping rest) (bind_ DECL_MUT bname)
  | (NODE_STMT_LIST | NODE_SCOPE_STMT), cs => block_ (all_ scoping cs)
  | NODE_MATCH_ARM, _ :: bname :: body =>
      block_ (seq_ (if has_kind NODE_IDENT bname then bind_ DECL_LET bname else done_)
                (match body with b :: _ => scoping b | [] => done_ end))
  | NODE_MATCH_ARM, _ => done_
  | NODE_LOOP_STMT, init :: rest =>
      match n_kind init with
      | NODE_LOOP_INIT =>
          block_ (seq_ (match n_children init with _ :: e :: _ => scoping e | _ => done_ end)
                 (seq_ (match n_children init with
                        | v :: _ =>
                            if tk_eqb (n_op init) TK_KW_LET || tk_eqb (n_op init) TK_KW_MUT
                            then bind_ DECL_MUT v else done_
                        | [] => done_
                        end)
                 (all_ scoping rest)))
      | _ => block_ (all_ scoping (init :: rest))
      end
  | _, cs => all_ scoping cs
  end.

(** A predefined name hides whatever the scope holds. *)
Definition seed_ (name : list Z) : Sem := fun _ L => Some (<[name := DECL_PREDEFINED]> L).

(** A field with a [$] before its name; names are cut behind 127 bytes. *)
Definition variant_ (fld : Node) : Sem :=
  if has_kind NODE_FIELD fld && (0 <? n_tok_start fld) &&
     (byte_at src (n_tok_start fld - 1) =? chr "$")
  then seed_ (until_nul (slice src (n_tok_start fld) (Z.min (n_tok_len fld) 127))) else done_.

Definition register_ (d : Node) : Sem :=
  match decl_kind (n_kind d), n_children d with
  | Some dk, name_node :: parts =>
      seq_ (bind_ dk name_node)
        (if decide (dk = DECL_TYPE) then
           all_ (fun p => match n_kind p with
                          | NODE_STMT_LIST => all_ variant_ (n_children p)
                          | _ => variant_ p
                          end) parts
         else done_)
  | _, _ => done_
  end.

(** A program: all its declarations first, then what they contain. *)
Definition program_ (ast : Node) : Sem :=
  seq_ (all_ register_ (n_children ast))
    (all_ (fun d => match n_kind d with
                    | NODE_MODULE | NODE_IMPORT => done_
                    | _ => scoping d
                    end) (n_children ast)).

(** Every node of the tree has its text in the source. *)
Fixpoint spans (n : Node) : bool := span_in src n && forallb spans (n_children n).

Lemma spans_node n : spans n = true -> span_in src n = true.
Proof. destruct n. simpl. intros H. by apply andb_prop in H as [? _]. Qed.

Lemma spans_children n : spans n = true -> Forall (fun c => spans c = true) (n_children n).
Proof.
  destruct n. simpl. intros H. apply andb_prop in H as [_ H].
  apply List.Forall_forall. intros c Hc. rewrite forallb_forall in H. auto.
Qed.
End Scoping.
