(* ===== verification/ResolveFacts.v ===== *)
(** * The resolver implements the scoping of the language

    Scopes as maps, and where the declarations they name are. *)

From Stdlib Require Import ZArith Lia String Ascii.
From stdpp Require Import base tactics list gmap.
From S2P Require Import Prelude Diag Lexer Ast Parser ModName Resolve ResolveSpec.
Open Scope Z_scope.

(** * The resolver implements the scoping of the language

    The chain of scopes is related to the maps of [ResolveSpec] by lookup, and
    each command to what it does to them. *)

(** ** Scopes as maps *)

Fixpoint abs (s : Scope) : names :=
  match s with
  | [] => ∅
  | d :: s => <[dc_name d := dc_kind d]> (abs s)
  end.
Fixpoint abs_chain (sc : list Scope) : names :=
  match sc with
  | [] => ∅
  | s :: sc => abs s ∪ abs_chain sc
  end.

Lemma abs_lookup s name : abs s !! name = dc_kind <$> scope_lookup_local s name.
Proof.
  induction s as [|d s IH]; cbn; [apply lookup_empty|].
  destruct (bytes_eqb (dc_name d) name) eqn:E.
  - apply bytes_eqb_eq in E as <-. by rewrite lookup_insert_eq.
  - rewrite lookup_insert_ne, IH; [done|]. intros <-. by rewrite bytes_eqb_refl in E.
Qed.

Lemma lookup_at_depth sc name : forall k,
  scope_lookup_at k sc name = prod_map (plus k) id <$> scope_lookup_at 0 sc name.
Proof.
  induction sc as [|s sc IH]; intros k; [done|]. cbn [scope_lookup_at].
  destruct (scope_lookup_local s name); cbn; [by rewrite Nat.add_0_r|].
  rewrite (IH (S k)), (IH 1%nat), <- option_fmap_compose.
  apply option_fmap_ext. intros [d x]. unfold compose, prod_map, id. cbn. f_equal. lia.
Qed.

Lemma scope_lookup_cons s sc name :
  scope_lookup (s :: sc) name =
    match scope_lookup_local s name with Some d => Some d | None => scope_lookup sc name end.
Proof.
  unfold scope_lookup. cbn [scope_lookup_at]. destruct (scope_lookup_local s name); [done|].
  rewrite lookup_at_depth. by destruct (scope_lookup_at 0 sc name) as [[]|].
Qed.

Lemma abs_chain_lookup sc name : abs_chain sc !! name = dc_kind <$> scope_lookup sc name.
Proof.
  induction sc as [|s sc IH]; cbn [abs_chain]; [apply lookup_empty|].
  rewrite scope_lookup_cons. destruct (scope_lookup_local s name) as [d|] eqn:E.
  - erewrite lookup_union_Some_l; [|by rewrite abs_lookup, E]. done.
  - rewrite lookup_union_r; [done|]. by rewrite abs_lookup, E.
Qed.

Lemma scope_lookup_name s name d : scope_lookup_local s name = Some d -> dc_name d = name.
Proof.
  induction s as [|d' s IH]; cbn; [done|]. case_match; [|done]. intros [= <-]. by apply bytes_eqb_eq.
Qed.

Lemma abs_replace s name k def d :
  scope_lookup_local s name = Some d -> abs (scope_replace s name k def) = <[name := k]> (abs s).
Proof.
  induction s as [|d' s IH]; cbn; [done|]. destruct (bytes_eqb (dc_name d') name) eqn:E.
  - intros _. apply bytes_eqb_eq in E as <-. cbn. by rewrite insert_insert_eq.
  - intros H. cbn. rewrite (IH H), insert_insert_ne; [done|].
    intros Eq. subst name. by rewrite bytes_eqb_refl in E.
Qed.

(** ** Moves of the state *)

Definition reported (n : Z) : Z := Z.min n MAX_NAME_ERRORS.

(** From [s] to [s'], whatever the tree: only the innermost scope changes,
    nothing is forgotten, and the errors are reported up to the limit. *)
Record moves (s s' : RState) : Prop := {
  mv_scopes : exists top top' rest, rs_scopes s = top :: rest /\ rs_scopes s' = top' :: rest;
  mv_errors : rs_errors s <= rs_errors s';
  mv_had : rs_had s = true -> rs_had s' = true;
  mv_clean : rs_errors s' = rs_errors s -> rs_had s' = rs_had s;
  mv_captures : rs_captures s `prefix_of` rs_captures s';
  mv_cap : zlen (rs_captures s) <= rs_capture_cap s -> zlen (rs_captures s') <= rs_capture_cap s';
  mv_diags : exists l, rs_diags s' = emitted l (rs_diags s) /\
    zlen (filter is_error l) = reported (rs_errors s') - reported (rs_errors s)
}.

Lemma moves_trans s1 s2 s3 : moves s1 s2 -> moves s2 s3 -> moves s1 s3.
Proof.
  intros [(t1 & t2 & r & E1 & E2) ? H1 C1 P1 K1 (l1 & D1 & N1)]
         [(t2' & t3 & r' & E2' & E3) ? H2 C2 P2 K2 (l2 & D2 & N2)]. split.
  - rewrite E2 in E2'. simplify_eq. by exists t1, t3, r'.
  - lia.
  - auto.
  - intros E. rewrite C2, C1 by lia. done.
  - by etrans.
  - auto.
  - exists (l1 ++ l2). rewrite emitted_app, <- D1, filter_app, zlen_app. split; [done|lia].
Qed.

(** A state with an innermost scope. *)
Definition open_ (s : RState) : Prop := rs_scopes s <> [].

Lemma moves_refl s : open_ s -> moves s s.
Proof.
  intros H. split; [|lia|done|done|done|done|].
  - unfold open_ in H. destruct (rs_scopes s) as [|t r]; [done|]. by exists t, t, r.
  - exists []. rewrite Z.sub_diag. done.
Qed.

Lemma moves_open s s' : moves s s' -> open_ s'.
Proof. intros [(? & ? & ? & _ & E) _ _ _ _ _ _]. unfold open_. by rewrite E. Qed.

(** The maps of a state. *)
Definition inner (s : RState) : names := match rs_scopes s with [] => ∅ | t :: _ => abs t end.
Definition outer (s : RState) : names := abs_chain (tl (rs_scopes s)).

Lemma moves_outer s s' : moves s s' -> outer s' = outer s.
Proof. intros [(? & ? & ? & E & E') _ _ _ _ _ _]. unfold outer. by rewrite E, E'. Qed.

Lemma visible s name : (inner s ∪ outer s) !! name = dc_kind <$> scope_lookup (rs_scopes s) name.
Proof.
  rewrite <- abs_chain_lookup. unfold inner, outer. destruct (rs_scopes s); [|done].
  by rewrite map_empty_union.
Qed.

(** ** Commands and what they mean *)

Definition agrees (r : option names) (s s' : RState) : Prop :=
  match r with
  | Some L => rs_errors s' = rs_errors s /\ inner s' = L
  | None => rs_errors s < rs_errors s'
  end.

Definition implements (m : RM unit) (f : Sem) : Prop :=
  forall s, open_ s -> wp m (fun _ s' => moves s s' /\ agrees (f (outer s) (inner s)) s s') s.

Lemma implements_ret : implements (ret tt) done_.
Proof. intros s Ho. apply wp_ret. split; [by apply moves_refl|]. by split. Qed.

Lemma implements_seq m k f g :
  implements m f -> implements k g -> implements (bind m (fun _ => k)) (seq_ f g).
Proof.
  intros Hm Hk s Ho. eapply wp_seq; [by apply Hm|]. intros _ s1 [M1 A1]. cbn beta in *.
  eapply wp_conseq; [apply Hk; by eapply moves_open|]. intros _ s2 [M2 A2]. cbn beta in *.
  split; [by eapply moves_trans|]. rewrite (moves_outer _ _ M1) in A2. unfold seq_.
  destruct (f (outer s) (inner s)) as [L1|]; cbn [agrees mbind option_bind] in *.
  - destruct A1 as [E1 <-]. unfold agrees in *.
    destruct (g _ _); [destruct A2; split; [lia|done]|lia].
  - pose proof (mv_errors _ _ M2). lia.
Qed.

Lemma implements_each {A} (f : A -> RM unit) (g : A -> Sem) l :
  Forall (fun a => implements (f a) (g a)) l -> implements (each f l) (all_ g l).
Proof.
  induction 1 as [|a l Ha _ IH]; cbn [each all_]; [apply implements_ret|].
  by apply implements_seq.
Qed.

Lemma implements_ext m f g : (forall G L, f G L = g G L) -> implements m f -> implements m g.
Proof. intros E H s Ho. rewrite <- E. by apply H. Qed.

Lemma implements_scope m f : implements m f -> implements (in_scope m) (block_ f).
Proof.
  intros Hm s Ho. unfold in_scope, set_scopes. wp_step. wp_step. cbn.
  set (s0 := mkR ([] :: rs_scopes s) _ _ _ _ _).
  eapply wp_seq; [by apply (Hm s0)|]. intros _ s1 [M A]. cbn beta. wp_step.
  destruct M as [(t1 & t2 & r & E1 & E2) ? ? ? ? ? ?].
  change ([] :: rs_scopes s = t1 :: r) in E1. injection E1 as <- <-. set (s2 := mkR _ _ _ _ _ _).
  assert (Es : rs_scopes s2 = rs_scopes s) by (unfold s2; cbn; by rewrite E2).
  split.
  - split; try done. unfold open_ in Ho. rewrite Es. destruct (rs_scopes s) as [|t r]; [done|].
    by exists t, t, r.
  - assert (Ei : inner s2 = inner s) by (unfold inner; by rewrite Es).
    unfold block_. assert (Eo : outer s0 = inner s ∪ outer s).
    { unfold outer, inner, open_ in *. cbn. by destruct (rs_scopes s). }
    assert (En : inner s0 = ∅) by done. rewrite Eo, En in A.
    destruct (f (inner s ∪ outer s) ∅); cbn [agrees mbind option_bind] in *; [|done].
    destruct A as [A _]. by split.
Qed.

(** ** The elementary commands *)

(** Setting [had_error] behind an error. *)
Lemma moves_had s s1 s2 :
  moves s s1 -> rs_errors s < rs_errors s1 ->
  s2 = mkR (rs_scopes s1) (rs_errors s1) true (rs_captures s1) (rs_capture_cap s1) (rs_diags s1) ->
  moves s s2.
Proof. intros [? ? ? ? ? ? ?] He ->. split; cbn; try done. lia. Qed.

(** Changing the innermost scope. *)
Lemma moves_top s s' top top' rest :
  rs_scopes s = top :: rest ->
  s' = mkR (top' :: rest) (rs_errors s) (rs_had s) (rs_captures s) (rs_capture_cap s) (rs_diags s) ->
  moves s s'.
Proof.
  intros E ->. split; cbn; try done; [by exists top, top', rest|].
  exists []. by rewrite Z.sub_diag.
Qed.

Lemma moves_emit s l :
  open_ s -> filter is_error l = [] ->
  moves s (mkR (rs_scopes s) (rs_errors s) (rs_had s) (rs_captures s) (rs_capture_cap s)
             (emitted l (rs_diags s))).
Proof.
  intros Ho Hl. split; cbn; try done.
  - unfold open_ in Ho. destruct (rs_scopes s) as [|t r]; [done|]. by exists t, t, r.
  - exists l. rewrite Hl, Z.sub_diag. done.
Qed.

Lemma wp_name_error code n f s :
  open_ s ->
  wp (name_error code n f) (fun _ s' =>
    moves s s' /\ rs_errors s' = rs_errors s + 1 /\ rs_scopes s' = rs_scopes s) s.
Proof.
  intros Ho. assert (Hs : exists t r, rs_scopes s = t :: r)
    by (unfold open_ in Ho; destruct (rs_scopes s); [done|eauto]).
  destruct Hs as (t & r & Es).
  unfold name_error, rs_emit. wp_step. wp_step. wp_step. wp_step. cbn [rs_errors].
  apply wp_when; intros Hb; zb; [wp_step|]; cbn; (split; [|done]); split; cbn; try done; try lia;
    try (by exists t, t, r).
  - eexists [_]. split; [done|]. replace (zlen _) with 1 by done. unfold reported. lia.
  - exists []. split; [done|]. replace (zlen _) with 0 by done. unfold reported. lia.
Qed.

Lemma wp_declare d s :
  open_ s ->
  wp (declare d) (fun _ s' => moves s s' /\ rs_errors s' = rs_errors s /\
    inner s' = <[dc_name d := dc_kind d]> (inner s)) s.
Proof.
  intros Ho. unfold open_ in Ho. unfold declare, top_scope, set_top, set_scopes, inner.
  destruct (rs_scopes s) as [|t r] eqn:E; [done|]. wp_step. wp_step. wp_step. rewrite E. wp_step. wp_step.
  rewrite E. cbn. split; [by eapply moves_top|done].
Qed.

Section Commands.
Context (src : list Z).

Lemma wp_name n (Q : list Z -> RState -> Prop) s :
  span_in src n = true -> Q (text src n) s -> wp (name_of src n) Q s.
Proof. intros H HQ. unfold span_in in H. zb. unfold name_of. by apply wp_rd_range. Qed.

Lemma kind_in_spec k ks : kind_in k ks = true <-> k ∈ ks.
Proof. apply bool_decide_eq_true. Qed.

Lemma wp_insert n kind def s :
  span_in src n = true -> open_ s ->
  wp (scope_insert src n kind def) (fun ok s' =>
    moves s s' /\ agrees (bind_ src kind n (outer s) (inner s)) s s' /\
    (ok = false -> rs_errors s < rs_errors s')) s.
Proof.
  intros Hn Ho. unfold scope_insert, bind_. wp_step. apply wp_name; [done|].
  unfold top_scope, open_ in *. destruct (rs_scopes s) as [|t r] eqn:E; [done|].
  wp_step. wp_step. wp_step. rewrite E. wp_step.
  assert (Ei : inner s !! text src n = dc_kind <$> scope_lookup_local t (text src n)).
  { unfold inner. rewrite E. apply abs_lookup. }
  assert (Et : inner s = abs t) by (unfold inner; by rewrite E).
  rewrite Ei. destruct (scope_lookup_local t (text src n)) as [d|] eqn:El; cbn [fmap option_fmap option_map].
  - assert (Hk : kind_in kind [DECL_LET; DECL_MUT] || kind_in (dc_kind d) [DECL_PREDEFINED] = true <->
              kind = DECL_LET \/ kind = DECL_MUT \/ dc_kind d = DECL_PREDEFINED).
    { rewrite orb_true_iff, !kind_in_spec. rewrite !elem_of_cons, !elem_of_nil. tauto. }
    destruct (_ || _).
    + rewrite decide_True by (by apply Hk). unfold set_top, set_scopes. wp_step. wp_step. wp_step.
      rewrite E. cbn [tl]. split_and!; [by eapply moves_top| |done].
      split; [done|]. unfold inner. cbn. rewrite E. by eapply abs_replace.
    + rewrite decide_False by (intros H; apply Hk in H; done).
      wp_step. eapply wp_conseq; [apply wp_name_error; unfold open_; by rewrite E|].
      intros _ s' (M & He & _). cbn beta. wp_step. split; [done|]. cbn. lia.
  - wp_step. eapply wp_conseq; [apply wp_declare; unfold open_; by rewrite E|].
    intros _ s' (M & He & Hi). cbn beta. wp_step. split; [done|]. split; [|done]. by split.
Qed.

Lemma implements_insert n kind def :
  span_in src n = true -> implements (do _ <- scope_insert src n kind def; ret tt) (bind_ src kind n).
Proof.
  intros Hn s Ho. wp_step. eapply wp_conseq; [by apply wp_insert|].
  intros ok s' (M & A & _). cbn beta. by wp_step.
Qed.

Lemma implements_bind n kind def :
  span_in src n = true -> implements (bind_name src n kind def) (bind_ src kind n).
Proof.
  intros Hn s Ho. unfold bind_name. wp_step. eapply wp_conseq; [by apply wp_insert|].
  intros ok s' (M & A & Hf). cbn beta. apply wp_when; intros Hb; [|done].
  apply negb_true_iff in Hb. specialize (Hf Hb). unfold set_had. wp_step.
  split; [by eapply moves_had|]. destruct (bind_ _ _ _ _ _); [|done].
  destruct A as [A _]. lia.
Qed.

Lemma implements_warn n : span_in src n = true -> implements (warn_enclosing_shadow src n) done_.
Proof.
  intros Hn s Ho. pose proof (implements_ret s Ho) as Hr.
  unfold warn_enclosing_shadow. wp_step. wp_step.
  destruct (rs_scopes s) as [|t [|p r]]; [exact Hr|exact Hr|].
  destruct (_ || _); [exact Hr|]. wp_step. apply wp_name; [done|].
  destruct (scope_lookup_local t _); [exact Hr|]. destruct (scope_lookup _ _); [|exact Hr].
  apply wp_when; intros Hb; [|exact Hr]. unfold rs_emit. wp_step.
  split; [by apply (moves_emit s [_])|done].
Qed.

Lemma implements_ident n :
  span_in src n = true ->
  implements (resolve_ident src n) (if has_kind NODE_IDENT n then value_ src n else type_ src n).
Proof.
  intros Hn s Ho. unfold resolve_ident. wp_step. apply wp_name; [done|]. wp_step. wp_step.
  assert (Hv : (inner s ∪ outer s) !! text src n = dc_kind <$> scope_lookup (rs_scopes s) (text src n))
    by apply visible.
  assert (Ha : (if has_kind NODE_IDENT n then value_ src n else type_ src n) (outer s) (inner s) =
    match scope_lookup (rs_scopes s) (text src n) with
    | None => None
    | Some d => if kind_in (dc_kind d) [DECL_TYPE] && has_kind NODE_IDENT n then None else Some (inner s)
    end).
  { destruct (has_kind NODE_IDENT n); unfold value_, type_; rewrite Hv;
      (destruct (scope_lookup _ _) as [d|]; cbn [fmap option_fmap option_map]; [|done]).
    - rewrite andb_true_r. unfold kind_in. case_decide as Hd.
      + rewrite Hd. done.
      + rewrite bool_decide_eq_false_2; [done|]. by intros ?%list_elem_of_singleton.
    - by rewrite andb_false_r. }
  rewrite Ha. clear Ha. destruct (scope_lookup _ _) as [d|].
  - destruct (_ && _).
    + wp_step. eapply wp_conseq; [by apply wp_name_error|]. intros _ s1 (M & E & _). cbn beta.
      unfold set_had. wp_step. split; [eapply moves_had; [exact M|lia|done]|]. cbn. lia.
    + wp_step. split; [by apply moves_refl|]. by split.
  - wp_step. eapply wp_conseq; [by apply wp_name_error|]. intros _ s1 (M & E & _). cbn beta.
    wp_step. eapply wp_conseq; [apply wp_declare; by eapply moves_open|].
    intros _ s2 (M2 & E2 & _). cbn beta. unfold set_had. wp_step.
    split; [eapply moves_had; [exact (moves_trans _ _ _ M M2)|lia|done]|]. cbn. lia.
Qed.

(** ** Captures *)

(** The identifiers that the collection visits. *)
Fixpoint uses (n : Node) : list (list Z) :=
  match n_kind n, n_children n with
  | (NODE_IDENT | NODE_TYPE_IDENT), _ => [text src n]
  | NODE_FIELD_EXPR, base :: _ => uses base
  | NODE_FIELD_EXPR, [] => []
  | _, cs => concat (map uses cs)
  end.

(** A variable of an enclosing scope that is not the module's. *)
Definition captured_var (sc : list Scope) (u : list Z) : bool :=
  match scope_lookup_at 0 sc u with
  | Some (depth, d) =>
      negb (bool_decide (depth = 0%nat)) && negb (bool_decide (S depth = length sc)) &&
      negb (kind_in (dc_kind d) [DECL_FUNC; DECL_TYPE; DECL_IMPORT_ALIAS; DECL_PREDEFINED])
  | None => false
  end.

Definition capture (sc : list Scope) (names : list (list Z)) (u : list Z) : list (list Z) :=
  if captured_var sc u && negb (existsb (fun c => captured_eq c u) names) &&
     (zlen names <? MAX_CLOSURE_CAPTURES)
  then names ++ [u] else names.

Lemma wp_each_fold {A B S} (f : A -> M S unit) (g : A -> list B) (h : S -> B -> S) l :
  Forall (fun a => forall s, wp (f a) (fun _ s' => s' = fold_left h (g a) s) s) l ->
  forall s, wp (each f l) (fun _ s' => s' = fold_left h (concat (map g l)) s) s.
Proof.
  induction 1 as [|a l Ha _ IH]; intros s; cbn [each map concat]; [by apply wp_ret|].
  eapply wp_seq; [apply Ha|]. intros _ s1 ->. cbn beta. rewrite fold_left_app. apply IH.
Qed.

Lemma collect_fold sc n :
  spans src n = true ->
  forall names, wp (collect_captures src sc n)
    (fun _ out => out = fold_left (capture sc) (uses n) names) names.
Proof.
  induction n as [n IH] using node_ind'. intros Hn.
  assert (Hc : Forall (fun c => forall names, wp (collect_captures src sc c)
            (fun _ out => out = fold_left (capture sc) (uses c) names) names) (n_children n)).
  { pose proof (spans_children _ _ Hn) as Hs. rewrite Forall_forall in *. auto. }
  assert (Hid : forall names, wp (
      do name <- rd_range src (n_tok_start n) (n_tok_len n);
      match scope_lookup_at 0 sc name with
      | None => ret tt
      | Some (depth, decl) =>
          if bool_decide (depth = 0%nat) || bool_decide (S depth = length sc) then ret tt
          else if kind_in (dc_kind decl) [DECL_FUNC; DECL_TYPE; DECL_IMPORT_ALIAS; DECL_PREDEFINED]
          then ret tt
          else
            do names <- get;
            if existsb (fun c => captured_eq c name) names then ret tt
            else when (zlen names <? MAX_CLOSURE_CAPTURES) (put (names ++ [name]))
      end) (fun _ out => out = capture sc names (text src n)) names).
  { intros names. wp_step. apply spans_node in Hn. unfold span_in in Hn. zb. apply wp_rd_range; [done..|].
    fold (text src n). unfold capture, captured_var.
    destruct (scope_lookup_at 0 sc (text src n)) as [[k d]|]; [|by apply wp_ret].
    destruct (bool_decide (k = 0%nat)); [by apply wp_ret|].
    destruct (bool_decide (S k = length sc)); [by apply wp_ret|]. cbn [negb orb andb].
    destruct (kind_in _ _); [by apply wp_ret|]. cbn [negb andb]. wp_step. wp_step.
    destruct (existsb _ _); [by apply wp_ret|]. cbn [negb andb].
    apply wp_when; intros ->; [by apply wp_put|done]. }
  pose proof (wp_each_fold _ uses (capture sc) _ Hc) as Hall.
  destruct n as [k st li co ts tl op cap cs]. cbn [n_children] in *.
  destruct k; try exact Hall; try exact Hid.
  intros names. destruct cs as [|base cs]; [by apply wp_ret|].
  apply Forall_cons in Hc as [Hb _]. apply Hb.
Qed.

(** Running the collection over the body of a closure. *)
Lemma implements_captures node parts :
  Forall (fun c => spans src c = true) parts ->
  implements (do s <- get;
    do names <- run_in (each (fun c => if is_param c then ret tt else collect_captures src (rs_scopes s) c)
                          parts) [];
    nameenv_add_capture node names) done_.
Proof.
  intros Hp s Ho. wp_step. wp_step. wp_step.
  assert (He : forall names, wp (each (fun c => if is_param c then ret tt
      else collect_captures src (rs_scopes s) c) parts) (fun _ _ => True) names).
  { clear Ho. induction Hp as [|c parts Hc _ IH]; intros names; cbn [each]; [by apply wp_ret|].
    apply (wp_seq _ _ (fun _ _ => True)); [|intros; apply IH]. destruct (is_param c); [by apply wp_ret|].
    eapply wp_conseq; [by apply collect_fold|done]. }
  specialize (He []). apply wp_ok in He as (u & names & E & _). unfold run_in. rewrite E. wp_step.
  unfold nameenv_add_capture. destruct names as [|x names]; [by apply implements_ret|]. wp_step.
  split; [|done]. split; cbn; try done.
  - unfold open_ in Ho. destruct (rs_scopes s) as [|t r]; [done|]. by exists t, t, r.
  - by apply prefix_app_r.
  - intros Hcap. rewrite zlen_app, zlen_cons, zlen_nil.
    repeat case_match; zb; pose proof (zlen_nonneg (rs_captures s)); lia.
  - exists []. by rewrite Z.sub_diag.
Qed.

(** ** The tree *)

Definition node_ok (n : Node) : Prop := implements (resolve_node src n) (scoping src n).

Lemma seq_done f G L : seq_ f done_ G L = f G L.
Proof. unfold seq_, done_. by destruct (f G L). Qed.

Lemma implements_parts kind parts :
  Forall (fun c => spans src c = true) parts ->
  Forall (fun c => node_ok c /\ Forall node_ok (n_children c)) parts ->
  implements (resolve_parts src (resolve_node src) kind parts) (parts_ src (scoping src) kind parts).
Proof.
  intros Hs Ho. apply implements_each. rewrite Forall_forall in *. intros p Hp.
  specialize (Hs p Hp). destruct (Ho p Hp) as [Hn Hc]. pose proof (spans_children _ _ Hs) as Hsc.
  destruct (n_kind p) eqn:Ek; try exact Hn.
  destruct (n_children p) as [|pname rest]; [apply implements_ret|].
  apply Forall_cons in Hsc as [Hpn _]. apply spans_node in Hpn.
  assert (Hb : implements (if has_kind NODE_IDENT pname || has_kind NODE_TYPE_IDENT pname
                 then do _ <- scope_insert src pname kind p; ret tt else ret tt)
               (if is_name pname then bind_ src kind pname else done_)).
  { unfold is_name. destruct (_ || _); [by apply implements_insert|apply implements_ret]. }
  destruct rest as [|t rest].
  - eapply implements_ext; [|apply implements_seq; [exact Hb|apply implements_ret]].
    intros G L. apply seq_done.
  - apply implements_seq; [exact Hb|]. apply Forall_cons in Hc as [_ Hc].
    by apply Forall_cons in Hc as [? _].
Qed.

Section Statements.
Context (n bname : Node) (rest : list Node).

Lemma implements_let k :
  span_in src bname = true -> Forall node_ok rest ->
  implements (do! each (fun c => resolve_node src c) rest;
              do! warn_enclosing_shadow src bname; bind_name src bname k n)
    (seq_ (all_ (scoping src) rest) (bind_ src k bname)).
Proof.
  intros Hb Hr. apply implements_seq; [by apply implements_each|].
  apply (implements_ext _ (seq_ done_ (bind_ src k bname))); [done|].
  apply implements_seq; [by apply implements_warn|by apply implements_bind].
Qed.

Lemma implements_arm :
  span_in src bname = true -> Forall node_ok rest ->
  implements (in_scope (
      do! when (has_kind NODE_IDENT bname) (bind_name src bname DECL_LET n);
      match rest with body :: _ => resolve_node src body | [] => ret tt end))
    (block_ (seq_ (if has_kind NODE_IDENT bname then bind_ src DECL_LET bname else done_)
               (match rest with b :: _ => scoping src b | [] => done_ end))).
Proof.
  intros Hb Hr. apply implements_scope, implements_seq.
  - unfold when. destruct (has_kind _ _); [by apply implements_bind|apply implements_ret].
  - destruct Hr; [apply implements_ret|done].
Qed.

Lemma implements_init (init : Node) :
  spans src init = true -> Forall node_ok (n_children init) -> Forall node_ok rest ->
  implements (
      do! match n_children init with _ :: e :: _ => resolve_node src e | _ => ret tt end;
      do! match n_children init with
          | vname :: _ =>
              when (tk_eqb (n_op init) TK_KW_LET || tk_eqb (n_op init) TK_KW_MUT)
                (do! warn_enclosing_shadow src vname; bind_name src vname DECL_MUT init)
          | [] => ret tt
          end;
      each (fun c => resolve_node src c) rest)
    (seq_ (match n_children init with _ :: e :: _ => scoping src e | _ => done_ end)
      (seq_ (match n_children init with
             | v :: _ =>
                 if tk_eqb (n_op init) TK_KW_LET || tk_eqb (n_op init) TK_KW_MUT
                 then bind_ src DECL_MUT v else done_
             | [] => done_
             end)
        (all_ (scoping src) rest))).
Proof.
  intros Hs Hi Hr. pose proof (spans_children _ _ Hs) as Hc. apply implements_seq.
  - destruct Hi as [|v es _ [|e es' He _]]; [apply implements_ret|apply implements_ret|done].
  - apply implements_seq; [|by apply implements_each].
    destruct Hc as [|v es Hv _]; [apply implements_ret|]. apply spans_node in Hv.
    unfold when. destruct (_ || _); [|apply implements_ret].
    apply (implements_ext _ (seq_ done_ (bind_ src DECL_MUT v))); [done|].
    apply implements_seq; [by apply implements_warn|by apply implements_bind].
Qed.
End Statements.

(** Every node and every child of a node. *)
Lemma implements_node n : spans src n = true -> node_ok n /\ Forall node_ok (n_children n).
Proof.
  induction n as [n IH] using node_ind'. intros Hn. pose proof (spans_children _ _ Hn) as Hs.
  assert (Hcc : Forall (fun c => node_ok c /\ Forall node_ok (n_children c)) (n_children n))
    by (rewrite Forall_forall in *; auto).
  assert (Hc : Forall node_ok (n_children n)) by (eapply Forall_impl; [exact Hcc|]; by intros c [? _]).
  split; [|exact Hc]. clear IH. unfold node_ok.
  assert (Hall : implements (each (fun c => resolve_node src c) (n_children n))
                   (all_ (scoping src) (n_children n))) by by apply implements_each.
  assert (Hspan : span_in src n = true) by by apply spans_node.
  pose proof (implements_ident n Hspan) as Hid.
  pose proof (fun k => implements_parts k _ Hs Hcc) as Hparts.
  destruct n as [k st li co ts tl op cap cs]. cbn [n_children] in *.
  destruct k; try exact Hall; try exact Hid; cbn [resolve_node scoping n_kind n_children n_op].
  - (* function *) by apply implements_scope.
  - (* block *) by apply implements_scope.
  - (* let *)
    destruct cs as [|bname rest]; [exact Hall|]. apply Forall_cons in Hs as [Hb _].
    apply Forall_cons in Hc as [_ Hc]. apply spans_node in Hb. by apply implements_let.
  - (* let mut *)
    destruct cs as [|bname rest]; [exact Hall|]. apply Forall_cons in Hs as [Hb _].
    apply Forall_cons in Hc as [_ Hc]. apply spans_node in Hb. by apply implements_let.
  - (* loop *)
    destruct cs as [|init rest].
    { by apply (implements_ext _ (block_ done_)), implements_scope, implements_ret. }
    assert (Hblock : implements (in_scope (do! resolve_node src init; each (fun c => resolve_node src c) rest))
              (block_ (all_ (scoping src) (init :: rest)))) by by apply implements_scope.
    destruct (n_kind init); try exact Hblock. apply implements_scope.
    apply Forall_cons in Hs as [Hi _]. apply Forall_cons in Hcc as [[_ Hic] _].
    apply Forall_cons in Hc as [_ Hc]. by apply implements_init.
  - (* field *) destruct cs; [apply implements_ret|]. by apply Forall_cons in Hc as [? _].
  - (* type *) destruct (tk_eqb op TK_DOT); [apply implements_ret|exact Hid].
  - (* arm *)
    destruct cs as [|label [|bname rest]];
      [by apply (implements_ext _ (block_ done_)), implements_scope, implements_ret..|].
    apply Forall_cons in Hs as [_ Hs]. apply Forall_cons in Hs as [Hb _]. apply spans_node in Hb.
    apply Forall_cons in Hc as [_ Hc]. apply Forall_cons in Hc as [_ Hc]. by apply implements_arm.
  - (* closure *)
    apply implements_scope. eapply implements_ext; [apply seq_done|].
    apply implements_seq; [apply Hparts|by apply implements_captures].
  - (* scope *) by apply implements_scope.
Qed.
(** ** The passes *)

Lemma implements_variant fld : span_in src fld = true -> implements (seed_variant src fld) (variant_ src fld).
Proof.
  intros Hs. unfold span_in in Hs. zb. unfold seed_variant, variant_.
  destruct (has_kind NODE_FIELD fld); cbn [negb orb andb]; [|apply implements_ret].
  destruct (n_tok_start fld <=? 0) eqn:E; zb.
  { rewrite (proj2 (Z.ltb_ge 0 (n_tok_start fld))) by lia. apply implements_ret. }
  rewrite (proj2 (Z.ltb_lt 0 (n_tok_start fld))) by lia. cbn [andb]. intros s Ho. wp_step. wp_step.
  apply wp_when; intros Hd; rewrite Hd; [|by apply implements_ret]. cbv zeta. wp_step.
  replace (if n_tok_len fld <? 127 then n_tok_len fld else 127) with (Z.min (n_tok_len fld) 127)
    by (case_match; zb; lia).
  apply wp_rd_range; [lia..|]. unfold seed_predefined.
  eapply wp_conseq; [by apply wp_declare|]. intros _ s' (M & Er & Hi). by split.
Qed.

Lemma implements_register d : spans src d = true -> implements (register_decl src d) (register_ src d).
Proof.
  intros Hd. pose proof (spans_children _ _ Hd) as Hc. unfold register_decl, register_.
  destruct (decl_kind (n_kind d)) as [dk|]; [|apply implements_ret].
  destruct Hc as [|name_node parts Hn Hp]; [apply implements_ret|].
  assert (Ht : implements (when (kind_in dk [DECL_TYPE])
      (each (fun p => match n_kind p with
                      | NODE_STMT_LIST => each (seed_variant src) (n_children p)
                      | _ => seed_variant src p
                      end) parts))
    (if decide (dk = DECL_TYPE) then
       all_ (fun p => match n_kind p with
                      | NODE_STMT_LIST => all_ (variant_ src) (n_children p)
                      | _ => variant_ src p
                      end) parts
     else done_)).
  { unfold when, kind_in. case_decide as Hk.
    - rewrite bool_decide_eq_true_2 by (apply elem_of_cons; by left). apply implements_each.
      eapply Forall_impl; [exact Hp|]. intros p Hs. cbn beta.
      pose proof (implements_variant p (spans_node _ _ Hs)) as Hv.
      destruct (n_kind p); try exact Hv. apply implements_each.
      eapply Forall_impl; [exact (spans_children _ _ Hs)|]. intros c H. by apply implements_variant, spans_node.
    - rewrite bool_decide_eq_false_2 by (by intros ?%list_elem_of_singleton). apply implements_ret. }
  intros s Ho.
  pose proof (implements_seq _ _ _ _ (implements_insert name_node dk d (spans_node _ _ Hn)) Ht s Ho) as H.
  revert H. unfold wp, bind. by destruct (scope_insert _ _ _ _ _) as [[]| |].
Qed.

Lemma implements_passes ast : spans src ast = true -> implements (resolve_passes src ast) (program_ src ast).
Proof.
  intros Ha. pose proof (spans_children _ _ Ha) as Hc. apply implements_seq; apply implements_each.
  - eapply Forall_impl; [exact Hc|]. apply implements_register.
  - eapply Forall_impl; [exact Hc|]. intros d Hd. pose proof (proj1 (implements_node d Hd)) as Hn.
    destruct (n_kind d); try exact Hn; apply implements_ret.
Qed.
End Commands.

(** A run of the passes. *)
Lemma resolve_run src mscope ast d :
  spans src ast = true ->
  exists s, resolve_module src mscope ast d = Ok (negb (rs_had s), s) /\ moves (rs_start mscope d) s /\
    agrees (program_ src ast ∅ (abs mscope)) (rs_start mscope d) s.
Proof.
  intros Ha. pose proof (implements_passes src ast Ha (rs_start mscope d) ltac:(done)) as H.
  apply wp_ok in H as (u & s & E & M & A). exists s. unfold resolve_module. rewrite E. done.
Qed.

(** No error, exactly when the program is well scoped. *)
Lemma module_run src mscope ast d :
  spans src ast = true ->
  exists s, resolve_module src mscope ast d = Ok (negb (rs_had s), s) /\
    (rs_errors s = 0 <-> is_Some (program_ src ast ∅ (abs mscope))).
Proof.
  intros Ha. destruct (resolve_run src mscope ast d Ha) as (s & E & M & A). exists s. split; [exact E|].
  destruct (program_ src ast ∅ (abs mscope)) as [L|]; cbn [agrees] in A; cbn in A.
  - destruct A as [He _]. split; [by eexists|done].
  - split; [lia|]. by intros [? ?].
Qed.

(** * Where the declarations of the resolver are

    The nodes that the scopes name are nodes of the program. *)

Section Defs.
Context (src : list Z) (K : Node -> Prop).
Context (K_child : forall n c, K n -> c ∈ n_children n -> K c).

Definition scope_in (s : Scope) : Prop := Forall (fun d => forall def, dc_def d = Some def -> K def) s.
Definition chain_in (s : RState) : Prop := Forall scope_in (rs_scopes s).

(** All but the diagnostics. *)
Definition blind (s : RState) := (rs_scopes s, rs_errors s, rs_had s, rs_captures s, rs_capture_cap s).

(** Two runs that differ in the diagnostics differ in them only, and what the
    scopes name stays in [K]. *)
Definition both {A} (x y : res (A * RState)) : Prop :=
  match x, y with
  | Ok (a, s1), Ok (b, s2) => a = b /\ blind s1 = blind s2 /\ chain_in s1
  | Oob, Oob | NoFuel, NoFuel => True
  | _, _ => False
  end.
Definition keeps {A} (m : RM A) : Prop := forall s1 s2, blind s1 = blind s2 -> chain_in s1 -> both (m s1) (m s2).

Lemma keeps_done {A} (a : A) : keeps (ret a).
Proof. by intros s1 s2 E H. Qed.

Lemma keeps_bind {A B} (m : RM A) (k : A -> RM B) : keeps m -> (forall a, keeps (k a)) -> keeps (bind m k).
Proof.
  intros Hm Hk s1 s2 E H. specialize (Hm s1 s2 E H). unfold bind.
  destruct (m s1) as [[a s1']| |], (m s2) as [[b s2']| |]; try done. destruct Hm as (<- & E' & H').
  by apply (Hk a).
Qed.

Lemma keeps_get {A} (k : RState -> RM A) :
  (forall s, keeps (k s)) -> (forall s1 s2, blind s1 = blind s2 -> k s1 = k s2) -> keeps (bind get k).
Proof. intros Hk He s1 s2 E H. unfold bind, get. rewrite <- (He s1 s2 E). by apply Hk. Qed.

(** A command that does not touch the scopes. *)
Lemma keeps_modify f :
  (forall s, rs_scopes (f s) = rs_scopes s) ->
  (forall s1 s2, blind s1 = blind s2 -> blind (f s1) = blind (f s2)) -> keeps (modify f).
Proof.
  intros Hs Hb s1 s2 E H. cbn. split; [done|]. split; [by apply Hb|]. unfold chain_in. by rewrite Hs.
Qed.
Ltac blinds := intros [] []; unfold blind; cbn; intros [= -> -> -> -> ->].
Ltac local_ := apply keeps_modify; [done|by blinds].

Lemma keeps_when (b : bool) m : keeps m -> keeps (when b m).
Proof. destruct b; [done|]. intros _. apply keeps_done. Qed.

Lemma keeps_iter {A} (f : A -> RM unit) l : (forall a, a ∈ l -> keeps (f a)) -> keeps (each f l).
Proof.
  induction l as [|a l IH]; intros H; cbn [each]; [apply keeps_done|].
  apply keeps_bind; [apply H; left|intros _]. apply IH. intros. apply H. by right.
Qed.

Lemma keeps_had : keeps set_had.
Proof. local_. Qed.

Lemma keeps_emit sev code n f : keeps (rs_emit sev code n f).
Proof. local_. Qed.

Lemma keeps_error code n f : keeps (name_error code n f).
Proof.
  unfold name_error. apply keeps_bind; [local_|intros _].
  apply keeps_get; [intros s; apply keeps_when, keeps_emit|by blinds].
Qed.

Lemma keeps_read p l : keeps (rd_range src p l).
Proof. intros s1 s2 E H. unfold rd_range. by case_match. Qed.

Lemma keeps_rd p : keeps (rd src p).
Proof. intros s1 s2 E H. unfold rd. by case_match. Qed.

Lemma keeps_scopes f :
  (forall s, Forall scope_in s -> Forall scope_in (f s)) -> keeps (set_scopes f).
Proof.
  intros Hf s1 s2 E H. unfold chain_in in H. apply Hf in H. split; [done|]. split; [|done].
  unfold blind in *. cbn. injection E as -> -> -> -> ->. done.
Qed.

Lemma keeps_set_top top : scope_in top -> keeps (set_top top).
Proof. intros Ht. apply keeps_scopes. intros s H. constructor; [done|]. destruct H; [constructor|done]. Qed.

(** What is read from the innermost scope is in. *)
Lemma keeps_top {A} (k : Scope -> RM A) : (forall top, scope_in top -> keeps (k top)) -> keeps (bind top_scope k).
Proof.
  intros Hk s1 s2 E H. pose proof H as H0. unfold top_scope, bind, get. unfold chain_in in H.
  replace (rs_scopes s2) with (rs_scopes s1) by by injection E.
  destruct (rs_scopes s1) as [|top rest]; [done|]. apply Forall_cons in H as [Ht _].
  by apply (Hk top Ht).
Qed.

Lemma keeps_declare d : (forall def, dc_def d = Some def -> K def) -> keeps (declare d).
Proof. intros Hd. apply keeps_top. intros top Ht. apply keeps_set_top. by constructor. Qed.

Lemma keeps_in_scope m : keeps m -> keeps (in_scope m).
Proof.
  intros Hm. unfold in_scope. apply keeps_bind; [|intros _; apply keeps_bind; [done|intros _]].
  - apply keeps_scopes. intros s H. constructor; [constructor|done].
  - apply keeps_scopes. intros s H. destruct H; [constructor|done].
Qed.

Lemma scope_replace_in s name kind def : K def -> scope_in s -> scope_in (scope_replace s name kind (Some def)).
Proof.
  intros Hd. induction 1 as [|d s Hs Hf IH]; cbn; [constructor|]. destruct (bytes_eqb _ _).
  - by constructor; [intros ? [= <-]|].
  - by constructor.
Qed.

Lemma keeps_insert n kind def : K def -> keeps (scope_insert src n kind def).
Proof.
  intros Hd. apply keeps_bind; [apply keeps_read|intros name]. apply keeps_top. intros top Ht.
  destruct (scope_lookup_local top name) as [ex|].
  - destruct (_ || _).
    + apply keeps_bind; [by apply keeps_set_top, scope_replace_in|intros _; apply keeps_done].
    + apply keeps_bind; [apply keeps_error|intros _; apply keeps_done].
  - apply keeps_bind; [apply keeps_declare; by intros ? [= <-]|intros _; apply keeps_done].
Qed.

Lemma keeps_bind_name n kind def : K def -> keeps (bind_name src n kind def).
Proof.
  intros Hd. apply keeps_bind; [by apply keeps_insert|intros ok]. apply keeps_when, keeps_had.
Qed.

Lemma keeps_warn n : keeps (warn_enclosing_shadow src n).
Proof.
  unfold warn_enclosing_shadow. apply keeps_get; [intros s|by blinds].
  destruct (rs_scopes s) as [|t [|p r]]; try apply keeps_done.
  destruct (_ || _); [apply keeps_done|]. apply keeps_bind; [apply keeps_read|intros name].
  destruct (scope_lookup_local t name); [apply keeps_done|]. destruct (scope_lookup _ name); [|apply keeps_done].
  apply keeps_when, keeps_emit.
Qed.

Lemma keeps_ident n : keeps (resolve_ident src n).
Proof.
  unfold resolve_ident. apply keeps_bind; [apply keeps_read|intros name].
  apply keeps_get; [intros s|by blinds]. destruct (scope_lookup _ name).
  - destruct (_ && _); [|apply keeps_done]. apply keeps_bind; [apply keeps_error|intros _; apply keeps_had].
  - apply keeps_bind; [apply keeps_error|intros _]. apply keeps_bind; [by apply keeps_declare|intros _; apply keeps_had].
Qed.

Lemma keeps_parts f kind l : (forall n, n ∈ l -> K n /\ keeps (f n)) ->
  (forall n c, n ∈ l -> c ∈ n_children n -> keeps (f c)) -> keeps (resolve_parts src f kind l).
Proof.
  intros Hl Hc. apply keeps_iter. intros p Hp. destruct (Hl p Hp) as [Hk Hf]. specialize (Hc p).
  destruct (n_kind p); try done. destruct (n_children p) as [|pname rest]; [apply keeps_done|].
  apply keeps_bind; [|intros _; destruct rest; [apply keeps_done|apply Hc; [done|right; left]]].
  destruct (_ || _); [|apply keeps_done]. apply keeps_bind; [by apply keeps_insert|intros _; apply keeps_done].
Qed.

Lemma keeps_run {A} (m : M (list (list Z)) A) s0 (k : list (list Z) -> RM unit) :
  (forall x, keeps (k x)) -> keeps (bind (run_in m s0) k).
Proof.
  intros Hk. apply keeps_bind; [|done]. intros s1 s2 E H. unfold run_in. by destruct (m s0) as [[? ?]| |].
Qed.

Lemma keeps_capture c names : keeps (nameenv_add_capture c names).
Proof. destruct names; [apply keeps_done|]. local_. Qed.

(** The nodes below a node, one or two levels. *)
Definition near (P : Node -> Prop) (n : Node) : Prop :=
  Forall (fun c => P c /\ Forall P (n_children c)) (n_children n).

Lemma node_near (P : Node -> Prop) :
  (forall n, near P n -> P n) -> forall n, P n.
Proof.
  intros H n. assert (HP : P n /\ near P n); [|tauto]. induction n as [n IH] using node_ind'.
  assert (Hn : near P n).
  { unfold near. eapply Forall_impl; [exact IH|]. intros c [Hc Hnc]. split; [done|].
    eapply Forall_impl; [exact Hnc|]. by intros d [? _]. }
  split; [by apply H|done].
Qed.

Lemma keeps_node n : K n -> keeps (resolve_node src n).
Proof.
  revert n. apply (node_near (fun n => K n -> keeps (resolve_node src n))). intros n Hn HK.
  assert (Hc : forall c, c ∈ n_children n -> K c /\ keeps (resolve_node src c)).
  { intros c Hc. assert (K c) by (by apply (K_child n)). split; [done|].
    unfold near in Hn. rewrite Forall_forall in Hn. by apply (Hn c Hc). }
  assert (Hd : forall c d, c ∈ n_children n -> d ∈ n_children c -> keeps (resolve_node src d)).
  { intros c d Hi Hj. unfold near in Hn. rewrite Forall_forall in Hn. destruct (Hn c Hi) as [_ Hcd].
    rewrite Forall_forall in Hcd. apply Hcd; [done|]. by apply (K_child c); [apply Hc|]. }
  assert (Hall : forall l, (forall c, c ∈ l -> c ∈ n_children n) -> keeps (each (fun c => resolve_node src c) l)).
  { intros l Hl. apply keeps_iter. intros c Hi. by apply Hc, Hl. }
  clear Hn. destruct n as [k st ln col ts tl op cap cs]. cbn [n_children] in *. cbn [resolve_node n_kind].
  set (me := mkNode _ _ _ _ _ _ _ _ _) in *. change (n_children me) with cs.
  assert (Hparts : forall kind, keeps (resolve_parts src (resolve_node src) kind cs)).
  { intros kind. apply keeps_parts; [done|]. intros p c Hp. by apply Hd. }
  assert (Hbind : forall kind, keeps match cs with
     | [] => ret tt
     | bname :: rest =>
         do! each (fun c => resolve_node src c) rest;
         do! warn_enclosing_shadow src bname; bind_name src bname kind me end).
  { intros kind. destruct cs as [|bname rest]; [apply keeps_done|].
    apply keeps_bind; [apply Hall; by right|intros _]. apply keeps_bind; [apply keeps_warn|intros _].
    by apply keeps_bind_name. }
  destruct k; try (by apply Hall); try apply keeps_ident; try apply Hbind.
  - by apply keeps_in_scope.
  - by apply keeps_in_scope, Hall.
  - apply keeps_in_scope. destruct cs as [|init rest]; [apply keeps_done|].
    assert (Hrest : keeps (each (fun c => resolve_node src c) rest)) by (apply Hall; by right).
    assert (Hinit : K init /\ keeps (resolve_node src init)) by (apply Hc; left).
    assert (Hin : forall d, d ∈ n_children init -> keeps (resolve_node src d)) by (intros d Hdi; apply (Hd init d); [left|done]).
    destruct (n_kind init); try (by apply keeps_bind; [apply Hinit|intros _]).
    apply keeps_bind; [|intros _; apply keeps_bind; [|by intros _]].
    + destruct (n_children init) as [|v [|e es]]; try apply keeps_done. apply Hin. right. left.
    + destruct (n_children init) as [|v vs]; [apply keeps_done|]. apply keeps_when.
      apply keeps_bind; [apply keeps_warn|intros _]. apply keeps_bind_name, Hinit.
  - destruct cs as [|b bs]; [apply keeps_done|]. apply Hc. left.
  - destruct (tk_eqb _ _); [apply keeps_done|apply keeps_ident].
  - apply keeps_in_scope. destruct cs as [|a [|bname rest]]; try apply keeps_done.
    apply keeps_bind; [by apply keeps_when, keeps_bind_name|intros _].
    destruct rest as [|body bs]; [apply keeps_done|]. apply Hc. right. right. left.
  - apply keeps_in_scope. apply keeps_bind; [done|intros _]. apply keeps_get; [intros s|by blinds].
    apply keeps_run. intros names. apply keeps_capture.
  - by apply keeps_in_scope, Hall.
Qed.

Lemma keeps_seed name : keeps (seed_predefined name).
Proof. by apply keeps_declare. Qed.

Lemma keeps_variant f : keeps (seed_variant src f).
Proof.
  unfold seed_variant. destruct (_ || _); [apply keeps_done|]. apply keeps_bind; [apply keeps_rd|intros c].
  apply keeps_when, keeps_bind; [apply keeps_read|intros ?; apply keeps_seed].
Qed.

Lemma keeps_register d : K d -> keeps (register_decl src d).
Proof.
  intros Hd. unfold register_decl. destruct (decl_kind _) as [dk|]; [|apply keeps_done].
  destruct (n_children d) as [|nn parts]; [apply keeps_done|].
  apply keeps_bind; [by apply keeps_insert|intros _]. apply keeps_when, keeps_iter. intros p _.
  destruct (n_kind p); try apply keeps_variant. apply keeps_iter. intros f _. apply keeps_variant.
Qed.

Lemma keeps_passes ast : K ast -> keeps (resolve_passes src ast).
Proof.
  intros Ha. unfold resolve_passes. apply keeps_bind; [|intros _]; apply keeps_iter; intros d Hd;
    apply (K_child ast) in Hd; try done; [by apply keeps_register|].
  destruct (n_kind d); try apply keeps_done; by apply keeps_node.
Qed.
End Defs.
