(* ===== verification/ResolveProps.v ===== *)
(** * What name resolution shows

    The theorems on [resolve_names]'s passes and on the captures of closures. *)

From Stdlib Require Import ZArith Lia String Ascii.
From stdpp Require Import base tactics list gmap.
From S2P Require Import Prelude Diag Lexer Ast Parser ModName Resolve ResolveSpec ResolveFacts.
Open Scope Z_scope.

(** C35: on a tree whose texts are in the source the passes end, and they find no
    error exactly when the program is well scoped; then they leave the module
    scope of the specification, and otherwise at least one error. *)
Theorem resolve_scoping src mscope ast d :
  spans src ast = true ->
  exists b s, resolve_module src mscope ast d = Ok (b, s) /\
    (rs_errors s = 0 <-> is_Some (program_ src ast ∅ (abs mscope))) /\
    (forall L, program_ src ast ∅ (abs mscope) = Some L -> b = true /\ inner s = L) /\
    (b = false -> 0 < rs_errors s).
Proof.
  intros Ha. destruct (resolve_run src mscope ast d Ha) as (s & E & M & A).
  exists (negb (rs_had s)), s. pose proof (mv_errors _ _ M) as Hm. pose proof (mv_clean _ _ M) as Hc.
  cbn in Hm, Hc. split; [exact E|]. destruct (program_ src ast ∅ (abs mscope)) as [L|]; cbn [agrees] in A.
  - destruct A as [He Hi]. cbn in He. rewrite (Hc He). split_and!; [done| |done].
    intros L' [= <-]. done.
  - cbn in A. split_and!; [|done|intros _; done]. split; [lia|]. by intros [? ?].
Qed.

Definition scope_text : list Z :=
  bytes_of "m=a;f=g(x:i64;num:i64):i64{let y=x+1;let h=fn(z:i64):i64{<z+num};<h(y)+q};".
Definition scope_ast : Node := Eval vm_compute in ast_of scope_text.

Lemma scope_spans : spans scope_text scope_ast = true.
Proof. vm_compute. reflexivity. Qed.

Lemma resolve_scoping_witness :
  spans scope_text scope_ast = true /\
  exists b s, resolve_module scope_text predefined_scope scope_ast diags_init = Ok (b, s) /\
    (rs_errors s = 0 <-> is_Some (program_ scope_text scope_ast ∅ (abs predefined_scope))) /\
    (forall L, program_ scope_text scope_ast ∅ (abs predefined_scope) = Some L ->
       b = true /\ inner s = L) /\
    (b = false -> 0 < rs_errors s).
Proof.
  split; [exact scope_spans|].
  exact (resolve_scoping scope_text predefined_scope scope_ast diags_init scope_spans).
Defined.

(** The errors are reported up to the limit of twenty, so that the driver's
    test, a result below 0 or an error counted, fires exactly on the programs that
    are not well scoped. *)
Theorem resolve_reported src mscope ast d :
  spans src ast = true -> s_suppress d = false -> s_error_count d = 0 ->
  exists b s, resolve_module src mscope ast d = Ok (b, s) /\
    s_error_count (rs_diags s) = Z.min (rs_errors s) MAX_NAME_ERRORS /\
    (b = false \/ 0 < s_error_count (rs_diags s) <-> program_ src ast ∅ (abs mscope) = None).
Proof.
  intros Ha Hs Hz. destruct (resolve_run src mscope ast d Ha) as (s & E & M & A).
  exists (negb (rs_had s)), s. split; [exact E|].
  destruct (mv_diags _ _ M) as (l & El & Hl). cbn in El, Hl.
  assert (Hn : s_error_count (rs_diags s) = reported (rs_errors s)).
  { rewrite El, emitted_count, Hl by done. unfold reported, MAX_NAME_ERRORS. lia. }
  split; [exact Hn|]. rewrite Hn. unfold reported, MAX_NAME_ERRORS.
  pose proof (mv_clean _ _ M) as Hc. cbn in Hc.
  destruct (program_ src ast ∅ (abs mscope)) as [L|]; cbn [agrees] in A.
  - destruct A as [He _]. cbn in He. rewrite (Hc He). split; [|done]. intros [?|?]; [done|lia].
  - cbn in A. split; [done|]. intros _. right. lia.
Qed.

Lemma resolve_reported_witness :
  spans scope_text scope_ast = true /\ s_suppress diags_init = false /\ s_error_count diags_init = 0 /\
  exists b s, resolve_module scope_text predefined_scope scope_ast diags_init = Ok (b, s) /\
    s_error_count (rs_diags s) = Z.min (rs_errors s) MAX_NAME_ERRORS /\
    (b = false \/ 0 < s_error_count (rs_diags s) <->
     program_ scope_text scope_ast ∅ (abs predefined_scope) = None).
Proof.
  split; [exact scope_spans|]. split; [reflexivity|]. split; [reflexivity|].
  exact (resolve_reported scope_text predefined_scope scope_ast diags_init scope_spans eq_refl eq_refl).
Defined.

(** ** Captures *)

Lemma captured_eq_prefix c u : captured_eq c u = true <-> u `prefix_of` c ++ [0].
Proof.
  unfold captured_eq. rewrite bytes_eqb_eq. split.
  - intros <-. apply prefix_take.
  - intros [k ->]. by rewrite take_app_length.
Qed.

(** What holds of the names collected so far from [us]. *)
Definition collected (sc : list Scope) (us out : list (list Z)) : Prop :=
  NoDup out /\ zlen out <= MAX_CLOSURE_CAPTURES /\
  (forall u, u ∈ out -> u ∈ us /\ captured_var sc u = true) /\
  (forall u, u ∈ us -> captured_var sc u = true ->
     zlen out = MAX_CLOSURE_CAPTURES \/ exists c, c ∈ out /\ u `prefix_of` c ++ [0]).

Lemma capture_grows sc names u : exists k, capture sc names u = names ++ k.
Proof. unfold capture. case_match; [by eexists|]. exists []. by rewrite app_nil_r. Qed.

Lemma capture_collected sc us out u :
  collected sc us out -> collected sc (us ++ [u]) (capture sc out u).
Proof.
  intros (Hd & Hl & Hin & Hall). unfold collected, capture.
  destruct (captured_var sc u) eqn:Ev; cbn [andb].
  2:{ split_and!; [done|done| |].
      - intros x Hx. destruct (Hin x Hx). split; [apply elem_of_app; by left|done].
      - intros x [Hx|Hx]%elem_of_app Hv; [by apply Hall|]. apply list_elem_of_singleton in Hx as ->. congruence. }
  destruct (existsb _ out) eqn:Ee; cbn [negb andb].
  { apply existsb_exists in Ee as (c & Hc & Ec). split_and!; [done|done| |].
    - intros x Hx. destruct (Hin x Hx). split; [apply elem_of_app; by left|done].
    - intros x [Hx|Hx]%elem_of_app Hv; [by apply Hall|]. apply list_elem_of_singleton in Hx as ->.
      right. exists c. split; [by apply list_elem_of_In|by apply captured_eq_prefix]. }
  assert (Hnew : u ∉ out).
  { intros Hu. assert (existsb (fun c => captured_eq c u) out = true); [|congruence].
    apply existsb_exists. exists u. split; [by apply list_elem_of_In|].
    apply captured_eq_prefix. by eexists. }
  destruct (zlen out <? MAX_CLOSURE_CAPTURES) eqn:El; zb.
  - split_and!.
    + apply NoDup_app. split_and!; [done| |apply NoDup_singleton].
      intros x Hx ->%list_elem_of_singleton. done.
    + rewrite zlen_app, zlen_cons, zlen_nil. lia.
    + intros x [Hx|Hx]%elem_of_app.
      * destruct (Hin x Hx). split; [apply elem_of_app; by left|done].
      * apply list_elem_of_singleton in Hx as ->. split; [|done]. apply elem_of_app. right. by apply list_elem_of_singleton.
    + intros x [Hx|Hx]%elem_of_app Hv.
      * destruct (Hall x Hx Hv) as [Hz|(c & Hc & Hp)]; [lia|]. right. exists c.
        split; [apply elem_of_app; by left|done].
      * apply list_elem_of_singleton in Hx as ->. right. exists u.
        split; [apply elem_of_app; right; by apply list_elem_of_singleton|by eexists].
  - split_and!; [done|done| |].
    + intros x Hx. destruct (Hin x Hx). split; [apply elem_of_app; by left|done].
    + intros x _ _. left. lia.
Qed.

Lemma fold_collected sc us : forall vs out,
  collected sc vs out -> collected sc (vs ++ us) (fold_left (capture sc) us out).
Proof.
  induction us as [|u us IH]; intros vs out H; cbn [fold_left]; [by rewrite app_nil_r|].
  replace (vs ++ u :: us) with ((vs ++ [u]) ++ us) by by rewrite <- app_assoc.
  by apply IH, capture_collected.
Qed.

(** The names collected for a closure are variables of the scopes between
    its own and the module's that its body uses, each once and at most 64; a
    variable that is used and not among them starts with the same letters as one
    that is, when there is room. *)
Theorem captures_collected src sc body :
  spans src body = true ->
  exists out, collect_captures src sc body [] = Ok (tt, out) /\
    NoDup out /\ zlen out <= MAX_CLOSURE_CAPTURES /\
    (forall u, u ∈ out -> u ∈ uses src body /\ captured_var sc u = true) /\
    (forall u, u ∈ uses src body -> captured_var sc u = true ->
       zlen out = MAX_CLOSURE_CAPTURES \/ exists c, c ∈ out /\ u `prefix_of` c ++ [0]).
Proof.
  intros Hb. destruct (wp_ok _ _ _ (collect_fold src sc body Hb [])) as ([] & out & E & ->).
  eexists. split; [exact E|]. apply (fold_collected sc (uses src body) [] []).
  unfold collected. change (zlen []) with 0. split_and!; [constructor|done| |].
  - by intros u ?%elem_of_nil.
  - by intros u ?%elem_of_nil.
Qed.

Definition capture_scopes : list Scope :=
  [[]; [mkDecl (bytes_of "num") DECL_PARAM None; mkDecl (bytes_of "x") DECL_PARAM None]; predefined_scope].

Lemma captures_collected_witness :
  spans scope_text scope_ast = true /\
  exists out, collect_captures scope_text capture_scopes scope_ast [] = Ok (tt, out) /\
    NoDup out /\ zlen out <= MAX_CLOSURE_CAPTURES /\
    (forall u, u ∈ out -> u ∈ uses scope_text scope_ast /\ captured_var capture_scopes u = true) /\
    (forall u, u ∈ uses scope_text scope_ast -> captured_var capture_scopes u = true ->
       zlen out = MAX_CLOSURE_CAPTURES \/ exists c, c ∈ out /\ u `prefix_of` c ++ [0]).
Proof.
  split; [exact scope_spans|].
  exact (captures_collected scope_text capture_scopes scope_ast scope_spans).
Defined.
