(* ===== verification/Iface.v ===== *)
(** * Interface files: the reader of [src/src/names.c]

    [tki_record_exports] walks the [exports] array of an interface file, JSON
    text in an array that ends with a zero, and records its types and functions
    in the [NameEnv].  Positions are offsets in the array; NULL is [None]. *)

From Stdlib Require Import ZArith Lia String Ascii.
From stdpp Require Import base tactics list.
From S2P Require Import Prelude CStr.
Open Scope Z_scope.

Definition TKC_MAX_TKI_FIELDS : Z := 64.
Definition TKC_MAX_TKI_PARAMS : Z := 64.

(** A type and its fields, each a name and a type. *)
Record ImportedType := mkIType {
  it_name : list Z;
  it_is_sum : bool;
  it_fields : list (list Z * list Z)
}.

(** [if_params] is [None] when the record declares no parameters. *)
Record ImportedFunc := mkIFunc {
  if_alias : list Z;
  if_fn : list Z;
  if_member : list Z;
  if_ret : list Z;
  if_params : option (list (list Z))
}.

(** The interface part of [NameEnv], with the capacities of its arrays. *)
Record NameEnv := mkEnv {
  ne_itypes : list ImportedType;
  ne_itype_cap : Z;
  ne_ifuncs : list ImportedFunc;
  ne_ifunc_cap : Z
}.

Definition env_init : NameEnv := mkEnv [] 0 [] 0.

Definition quote : Z := 34.
Definition is_open (c : Z) : bool := (c =? chr "{") || (c =? chr "[").
Definition is_close (c : Z) : bool := (c =? chr "}") || (c =? chr "]").
Definition is_blank (c : Z) : bool := (c =? 32) || (c =? 9).
(** Space, tab, newline, carriage return and comma. *)
Definition is_gap (c : Z) : bool := is_blank c || (c =? 10) || (c =? 13) || (c =? chr ",").
Definition is_bare (c : Z) : bool := negb ((c =? chr ",") || is_close c).

Section Buffer.
Context {S : Type} (buf : list Z).

(** One character inside brackets: the position behind the value, or go on. *)
Definition scan_step (end_ : Z) (pd : Z * Z) : M S (Z * Z + option Z) :=
  let '(p, depth) := pd in
  if p <? end_ then
    do c <- rd buf p;
    if c =? quote then
      do q <- memchr buf (p + 1) quote (end_ - p - 1);
      match q with
      | None => ret (inr None)
      | Some q => ret (inl (q + 1, depth))
      end
    else if is_open c then
      if int_ok (depth + 1) then ret (inl (p + 1, depth + 1)) else oob
    else if is_close c then
      if depth - 1 =? 0 then ret (inr (Some (p + 1))) else ret (inl (p + 1, depth - 1))
    else ret (inl (p + 1, depth))
  else ret (inr None).

Definition tki_scan_value (p end_ : Z) : M S (option Z) :=
  if end_ <=? p then ret None
  else
    do c <- rd buf p;
    if c =? quote then
      do q <- memchr buf (p + 1) quote (end_ - p - 1);
      ret (option_map (fun q => q + 1) q)
    else if is_open c then
      iter (Datatypes.S (Z.to_nat (end_ - p))) (scan_step end_) (p, 0)
    else
      do q <- skip_while buf is_bare p end_;
      ret (Some q).

(** One member of an object: its value, when the key is [key]. *)
Definition key_step (end_ : Z) (key : list Z) (p : Z) : M S (Z + option Z) :=
  if p <? end_ then
    do p <- skip_while buf is_gap p end_;
    if end_ <=? p then ret (inr None)
    else
      do c <- rd buf p;
      if c =? chr "}" then ret (inr None)
      else if negb (c =? quote) then ret (inr None)
      else
        let k1 := p + 1 in
        do k2 <- memchr buf k1 quote (end_ - k1);
        match k2 with
        | None => ret (inr None)
        | Some k2 =>
            do p <- skip_while buf is_blank (k2 + 1) end_;
            if end_ <=? p then ret (inr None)
            else
              do c <- rd buf p;
              if negb (c =? chr ":") then ret (inr None)
              else
                do p <- skip_while buf is_blank (p + 1) end_;
                do k <- (if k2 - k1 =? zlen key then rd_range buf k1 (k2 - k1) else ret []);
                if (k2 - k1 =? zlen key) && bytes_eqb k key then ret (inr (Some p))
                else
                  do p <- tki_scan_value p end_;
                  match p with
                  | None => ret (inr None)
                  | Some p => ret (inl p)
                  end
        end
  else ret (inr None).

Definition tki_obj_key (obj end_ : Z) (key : list Z) : M S (option Z) :=
  if end_ <=? obj then ret None
  else
    do c <- rd buf obj;
    if negb (c =? chr "{") then ret None
    else iter (Datatypes.S (Z.to_nat (end_ - obj))) (key_step end_ key) (obj + 1).

(** The characters between the quotes, at most [outsz - 1]. *)
Definition tki_str_value (p : option Z) (end_ outsz : Z) : M S (option (list Z)) :=
  match p with
  | None => ret None
  | Some p =>
      do p <- skip_while buf is_blank p end_;
      if end_ <=? p then ret None
      else
        do c <- rd buf p;
        if negb (c =? quote) then ret None
        else
          let q1 := p + 1 in
          do q2 <- memchr buf q1 quote (end_ - q1);
          match q2 with
          | None => ret None
          | Some q2 =>
              let len := to_int (q2 - q1) in
              let len := if outsz <=? len then outsz - 1 else len in
              do s <- rd_range buf q1 len;
              ret (Some (until_nul s))
          end
  end.

(** ** The lists of a record *)

(** A parameter, a string. *)
Definition param_step (pe : Z) (pt : Z * list (list Z))
    : M S (Z * list (list Z) + list (list Z)) :=
  let '(pp, pbuf) := pt in
  if (pp <? pe) && (zlen pbuf <? TKC_MAX_TKI_PARAMS) then
    do pp <- skip_while buf is_gap pp pe;
    if pe <=? pp then ret (inr pbuf)
    else
      do c <- rd buf pp;
      if negb (c =? quote) then ret (inr pbuf)
      else
        do t <- tki_str_value (Some pp) pe 128;
        match t with
        | None => ret (inr pbuf)
        | Some t =>
            do pp <- tki_scan_value pp pe;
            match pp with
            | None => ret (inr (pbuf ++ [t]))
            | Some pp => ret (inl (pp, pbuf ++ [t]))
            end
        end
  else ret (inr pbuf).

(** The opening bracket of an array at a value, and the position behind it. *)
Definition array_at (v : option Z) (end_ : Z) : M S (option (Z * Z)) :=
  match v with
  | None => ret None
  | Some v =>
      if v <? end_ then
        do c <- rd buf v;
        if c =? chr "[" then
          do e <- tki_scan_value v end_;
          ret (option_map (fun e => (v, e)) e)
        else ret None
      else ret None
  end.

Definition record_params (rec end_ : Z) : M S (option (list (list Z))) :=
  do pa <- tki_obj_key rec end_ (bytes_of "params");
  do a <- array_at pa end_;
  match a with
  | None => ret None
  | Some (pa, pe) =>
      do ps <- iter (Datatypes.S (Z.to_nat (pe - pa))) (param_step pe) (pa + 1, []);
      ret (Some ps)
  end.

(** A field, an object; without its [$]. *)
Definition bare_name (fn : list Z) : list Z :=
  match fn with
  | c :: rest => if c =? chr "$" then rest else fn
  | [] => fn
  end.

Definition field_step (fe : Z) (ft : Z * list (list Z * list Z))
    : M S (Z * list (list Z * list Z) + list (list Z * list Z)) :=
  let '(fp, fs) := ft in
  if (fp <? fe) && (zlen fs <? TKC_MAX_TKI_FIELDS) then
    do fp <- skip_while buf is_gap fp fe;
    if fe <=? fp then ret (inr fs)
    else
      do c <- rd buf fp;
      if negb (c =? chr "{") then ret (inr fs)
      else
        do fend <- tki_scan_value fp fe;
        match fend with
        | None => ret (inr fs)
        | Some fend =>
            do nv <- tki_obj_key fp fend (bytes_of "name");
            do fn <- tki_str_value nv fend 128;
            match fn with
            | None => ret (inl (fend, fs))
            | Some fn =>
                do tv <- tki_obj_key fp fend (bytes_of "type");
                do t <- tki_str_value tv fend 128;
                ret (inl (fend, fs ++ [(bare_name fn, default [] t)]))
            end
        end
  else ret (inr fs).

Definition record_fields (rec end_ : Z) : M S (list (list Z * list Z)) :=
  do fa <- tki_obj_key rec end_ (bytes_of "fields");
  do a <- array_at fa end_;
  match a with
  | None => ret []
  | Some (fa, fe) => iter (Datatypes.S (Z.to_nat (fe - fa))) (field_step fe) (fa + 1, [])
  end.

Definition record_is_sum (rec end_ : Z) : M S bool :=
  do sv <- tki_obj_key rec end_ (bytes_of "is_sum");
  match sv with
  | None => ret false
  | Some sv => if sv <? end_ then strncmp_eq buf sv (bytes_of "true") else ret false
  end.

(** The spelling of the result; nothing for a record with an error type. *)
Definition record_ret (rec end_ : Z) : M S (list Z) :=
  do ev <- tki_obj_key rec end_ (bytes_of "error");
  match ev with
  | Some _ => ret []
  | None =>
      do rv <- tki_obj_key rec end_ (bytes_of "return");
      do r <- tki_str_value rv end_ 128;
      ret (default [] r)
  end.

End Buffer.

(** ** The tables *)

(** The first declaration of a name wins. *)
Definition nameenv_add_itype (it : ImportedType) : M NameEnv unit :=
  modify (fun e =>
    if existsb (fun t => bytes_eqb (it_name t) (it_name it)) (ne_itypes e) then e
    else
      let cap := if ne_itype_cap e <=? zlen (ne_itypes e)
                 then (if ne_itype_cap e =? 0 then 16 else ne_itype_cap e * 2)
                 else ne_itype_cap e in
      mkEnv (ne_itypes e ++ [it]) cap (ne_ifuncs e) (ne_ifunc_cap e)).

Definition nameenv_add_ifunc (alias fn r : list Z) (ptypes : option (list (list Z))) : M NameEnv unit :=
  modify (fun e =>
    let cap := if ne_ifunc_cap e <=? zlen (ne_ifuncs e)
               then (if ne_ifunc_cap e =? 0 then 32 else ne_ifunc_cap e * 2)
               else ne_ifunc_cap e in
    mkEnv (ne_itypes e) (ne_itype_cap e)
      (ne_ifuncs e ++ [mkIFunc alias fn (last_seg fn) r ptypes]) cap).

(** One record of the array. *)
Definition tki_record (alias : option (list Z)) (buf : list Z) (rec end_ : Z) : M NameEnv unit :=
  do kv <- tki_obj_key buf rec end_ (bytes_of "kind");
  do kind <- tki_str_value buf kv end_ 32;
  match kind with
  | None => ret tt
  | Some kind =>
      do nv <- tki_obj_key buf rec end_ (bytes_of "name");
      do name <- tki_str_value buf nv end_ 128;
      match name with
      | None => ret tt
      | Some name =>
          if bytes_eqb kind (bytes_of "func") then
            match alias with
            | None => ret tt
            | Some alias =>
                do r <- record_ret buf rec end_;
                do ps <- record_params buf rec end_;
                nameenv_add_ifunc alias name r ps
            end
          else if bytes_eqb kind (bytes_of "type") then
            do s <- record_is_sum buf rec end_;
            do fs <- record_fields buf rec end_;
            nameenv_add_itype (mkIType name s fs)
          else ret tt
      end
  end.

Definition export_step (alias : option (list Z)) (buf : list Z) (bufend p : Z)
    : M NameEnv (Z + unit) :=
  if p <? bufend then
    do p <- skip_while buf is_gap p bufend;
    if bufend <=? p then ret (inr tt)
    else
      do c <- rd buf p;
      if c =? chr "]" then ret (inr tt)
      else if negb (c =? chr "{") then ret (inr tt)
      else
        do end_ <- tki_scan_value buf p bufend;
        match end_ with
        | None => ret (inr tt)
        | Some end_ => do! tki_record alias buf p end_; ret (inl end_)
        end
  else ret (inr tt).

Definition tki_record_exports (alias : option (list Z)) (buf : list Z) : M NameEnv unit :=
  do bufend <- strlen buf 0;
  do ex <- strstr buf 0 (quote :: bytes_of "exports" ++ [quote]);
  match ex with
  | None => ret tt
  | Some ex =>
      do arr <- memchr buf ex (chr "[") (bufend - ex);
      match arr with
      | None => ret tt
      | Some arr =>
          iter (Datatypes.S (Z.to_nat (bufend - arr))) (export_step alias buf bufend) (arr + 1)
      end
  end.

(** ** Queries *)

Definition imported_type_lookup (e : NameEnv) (name : list Z) : option ImportedType :=
  find (fun t => bytes_eqb (it_name t) name) (ne_itypes e).

(** The exact spelling first, then the one behind the last point. *)
Definition imported_func_ret (e : NameEnv) (alias fn : list Z) : option (list Z) :=
  let hit key f := bytes_eqb (if_alias f) alias && bytes_eqb (key f) fn in
  let r f := match if_ret f with [] => None | r => Some r end in
  match find (hit if_fn) (ne_ifuncs e) with
  | Some f => r f
  | None => match find (hit if_member) (ne_ifuncs e) with
            | Some f => r f
            | None => None
            end
  end.

Definition imported_func_lookup (e : NameEnv) (alias member : list Z) : option ImportedFunc :=
  find (fun f => bytes_eqb (if_alias f) alias && bytes_eqb (if_member f) member) (ne_ifuncs e).

Definition imported_alias_has_funcs (e : NameEnv) (alias : list Z) : bool :=
  existsb (fun f => bytes_eqb (if_alias f) alias) (ne_ifuncs e).
