(* ===== verification/IfaceFacts.v ===== *)
(** * The reader of interface files on lists, and that positions implement it *)

From Stdlib Require Import ZArith Lia String Ascii.
From stdpp Require Import base tactics list.
From S2P Require Import Prelude CStr Iface.
Open Scope Z_scope.

(** * What the reader of interface files computes

    The same walk on lists instead of an array and positions: a position is the
    text from there to the end of the range.  [entries] is the records of a file
    that declare something, in order; reading adds them to the tables. *)

(** ** Values *)

(** What stands before the next quote, and behind it. *)
Fixpoint split_quote (l : list Z) : option (list Z * list Z) :=
  match l with
  | [] => None
  | c :: l =>
      if c =? quote then Some ([], l)
      else match split_quote l with
           | Some (s, l) => Some (c :: s, l)
           | None => None
           end
  end.

(** Behind the bracket that closes [d] open ones; [str]: inside a string. *)
Fixpoint scan_in (d : Z) (str : bool) (l : list Z) : option (list Z) :=
  match l with
  | [] => None
  | c :: l =>
      if c =? quote then scan_in d (negb str) l
      else if str then scan_in d true l
      else if is_open c then scan_in (d + 1) false l
      else if is_close c then (if d - 1 =? 0 then Some l else scan_in (d - 1) false l)
      else scan_in d false l
  end.

(** Behind the value at the head. *)
Definition scan_value (l : list Z) : option (list Z) :=
  match l with
  | [] => None
  | c :: l' =>
      if c =? quote then option_map snd (split_quote l')
      else if is_open c then scan_in 0 false l
      else Some (drop_while is_bare l)
  end.

(** The value and what is behind it. *)
Definition split_value (l : list Z) : option (list Z * list Z) :=
  match scan_value l with
  | Some l' => Some (take (length l - length l') l, l')
  | None => None
  end.

Definition str_value (outsz : Z) (l : list Z) : option (list Z) :=
  match drop_while is_blank l with
  | c :: l => if c =? quote then option_map (fun p => printed outsz (fst p)) (split_quote l) else None
  | [] => None
  end.

(** ** Loops

    A step goes on with a shorter text or ends; the fuel is one more than the
    length of the text. *)

Fixpoint walk {A B} (step : A -> A + B) (d : B) (fuel : nat) (a : A) : B :=
  match fuel with
  | O => d
  | S fuel => match step a with inl a => walk step d fuel a | inr b => b end
  end.

(** ** Members *)

(** One member: the text from its value on, when its key is [key]. *)
Definition key_next (key l : list Z) : list Z + option (list Z) :=
  match drop_while is_gap l with
  | c :: l =>
      if c =? quote then
        match split_quote l with
        | Some (k, l) =>
            match drop_while is_blank l with
            | c :: l =>
                if c =? chr ":" then
                  let l := drop_while is_blank l in
                  if bytes_eqb k key then inr (Some l)
                  else match scan_value l with Some l => inl l | None => inr None end
                else inr None
            | [] => inr None
            end
        | None => inr None
        end
      else inr None
  | [] => inr None
  end.

Definition obj_key (key l : list Z) : option (list Z) :=
  match l with
  | c :: l' => if c =? chr "{" then walk (key_next key) None (S (length l)) l' else None
  | [] => None
  end.

Definition key_str (outsz : Z) (key l : list Z) : option (list Z) :=
  match obj_key key l with Some v => str_value outsz v | None => None end.

(** What is between the brackets of an array, from behind the opening one to
    behind the closing one. *)
Definition array_of (v : option (list Z)) : option (list Z) :=
  match v with
  | Some (c :: l) =>
      if c =? chr "[" then option_map (fun p => tl (fst p)) (split_value (c :: l)) else None
  | _ => None
  end.

(** ** Lists *)

(** A string is one parameter. *)
Definition param_next (la : list Z * list (list Z)) : list Z * list (list Z) + list (list Z) :=
  let '(l, acc) := la in
  if zlen acc <? TKC_MAX_TKI_PARAMS then
    match drop_while is_gap l with
    | c :: l =>
        if c =? quote then
          match str_value 128 (c :: l), scan_value (c :: l) with
          | Some t, Some l => inl (l, acc ++ [t])
          | _, _ => inr acc
          end
        else inr acc
    | [] => inr acc
    end
  else inr acc.

(** The field an object declares. *)
Definition field_of (o : list Z) : option (list Z * list Z) :=
  match key_str 128 (bytes_of "name") o with
  | Some fn => Some (bare_name fn, default [] (key_str 128 (bytes_of "type") o))
  | None => None
  end.

Definition field_next (la : list Z * list (list Z * list Z))
    : list Z * list (list Z * list Z) + list (list Z * list Z) :=
  let '(l, acc) := la in
  if zlen acc <? TKC_MAX_TKI_FIELDS then
    match drop_while is_gap l with
    | c :: l =>
        if c =? chr "{" then
          match split_value (c :: l) with
          | Some (o, l) => inl (l, acc ++ option_list (field_of o))
          | None => inr acc
          end
        else inr acc
    | [] => inr acc
    end
  else inr acc.

Definition list_of {A} (next : list Z * list A -> list Z * list A + list A) (l : list Z) : list A :=
  walk next [] (S (length l)) (l, []).

Definition rec_params (o : list Z) : option (list (list Z)) :=
  option_map (list_of param_next) (array_of (obj_key (bytes_of "params") o)).
Definition rec_fields (o : list Z) : list (list Z * list Z) :=
  default [] (option_map (list_of field_next) (array_of (obj_key (bytes_of "fields") o))).
Definition rec_is_sum (o : list Z) : bool :=
  match obj_key (bytes_of "is_sum") o with Some v => starts_with (bytes_of "true") v | None => false end.
Definition rec_ret (o : list Z) : list Z :=
  match obj_key (bytes_of "error") o with
  | Some _ => []
  | None => default [] (key_str 128 (bytes_of "return") o)
  end.

(** ** Records *)

Inductive Entry :=
  | EType (t : ImportedType)
  | EFunc (f : ImportedFunc).

(** What one record declares. *)
Definition entry_of (alias : option (list Z)) (o : list Z) : option Entry :=
  match key_str 32 (bytes_of "kind") o, key_str 128 (bytes_of "name") o with
  | Some kind, Some name =>
      if bytes_eqb kind (bytes_of "func") then
        match alias with
        | Some alias => Some (EFunc (mkIFunc alias name (last_seg name) (rec_ret o) (rec_params o)))
        | None => None
        end
      else if bytes_eqb kind (bytes_of "type") then
        Some (EType (mkIType name (rec_is_sum o) (rec_fields o)))
      else None
  | _, _ => None
  end.

(** The objects of the array, up to the first value of another kind. *)
Definition object_next (la : list Z * list (list Z)) : list Z * list (list Z) + list (list Z) :=
  let '(l, acc) := la in
  match drop_while is_gap l with
  | c :: l =>
      if c =? chr "{" then
        match split_value (c :: l) with
        | Some (o, l) => inl (l, acc ++ [o])
        | None => inr acc
        end
      else inr acc
  | [] => inr acc
  end.

(** Behind the first bracket behind the first ["exports"]. *)
Definition exports_text (s : list Z) : option (list Z) :=
  match find_sub (quote :: bytes_of "exports" ++ [quote]) s with
  | Some i =>
      let s := drop (Z.to_nat i) s in
      option_map (fun j => drop (S (Z.to_nat j)) s) (index (chr "[") s)
  | None => None
  end.

Definition objects (s : list Z) : list (list Z) :=
  match exports_text s with Some l => list_of object_next l | None => [] end.

Definition entries (alias : option (list Z)) (s : list Z) : list Entry :=
  omap (entry_of alias) (objects s).

(** ** Tables *)

Definition grown (first cap n : Z) : Z :=
  if cap <=? n then (if cap =? 0 then first else cap * 2) else cap.

Definition add_entry (e : NameEnv) (x : Entry) : NameEnv :=
  match x with
  | EType t =>
      if existsb (fun t' => bytes_eqb (it_name t') (it_name t)) (ne_itypes e) then e
      else mkEnv (ne_itypes e ++ [t]) (grown 16 (ne_itype_cap e) (zlen (ne_itypes e)))
             (ne_ifuncs e) (ne_ifunc_cap e)
  | EFunc f =>
      mkEnv (ne_itypes e) (ne_itype_cap e) (ne_ifuncs e ++ [f])
        (grown 32 (ne_ifunc_cap e) (zlen (ne_ifuncs e)))
  end.

Definition add_entries (xs : list Entry) (e : NameEnv) : NameEnv := fold_left add_entry xs e.

(** * The reader computes its specification

    Each function of [Iface] on positions gives the position, or the value, that
    its counterpart on lists gives on the text of the range. *)

(** The position of a suffix of a range that ends at [e]. *)
Definition posn (e : Z) (l : list Z) : Z := e - zlen l.

(** ** Suffixes *)

Lemma split_quote_spec l :
  match split_quote l with
  | Some (s, l') => l = s ++ quote :: l' /\ (quote ∉ s) /\ index quote l = Some (zlen s)
  | None => index quote l = None /\ quote ∉ l
  end.
Proof.
  induction l as [|c l IH]; cbn [split_quote index]; [split; [done|apply not_elem_of_nil]|].
  destruct (c =? quote) eqn:E.
  - apply Z.eqb_eq in E as ->. split_and!; [done|apply not_elem_of_nil|done].
  - apply Z.eqb_neq in E. destruct (split_quote l) as [[s l']|].
    + destruct IH as (-> & Hs & ->). split_and!; [done| |].
      * rewrite not_elem_of_cons. done.
      * cbn. by rewrite zlen_cons.
    + destruct IH as [-> Hs]. split; [done|]. rewrite not_elem_of_cons. done.
Qed.

Lemma split_quote_app s l : quote ∉ s -> split_quote (s ++ quote :: l) = Some (s, l).
Proof.
  induction s as [|c s IH]; cbn [split_quote app]; [done|].
  rewrite not_elem_of_cons. intros [Hc Hs]. rewrite IH by done.
  by rewrite (proj2 (Z.eqb_neq _ _)) by done.
Qed.

Lemma scan_in_str d l :
  scan_in d true l = match split_quote l with Some (_, l) => scan_in d false l | None => None end.
Proof.
  induction l as [|c l IH]; [done|]. cbn [scan_in split_quote]. destruct (c =? quote); [done|].
  rewrite IH. by destruct (split_quote l) as [[s l']|].
Qed.

(** What the scan of a bracket leaves stands behind a closing one. *)
Lemma scan_in_split d b l l' :
  scan_in d b l = Some l' -> exists k c, is_close c = true /\ l = k ++ c :: l'.
Proof.
  revert d b. induction l as [|c l IH]; intros d b; [done|]. cbn [scan_in].
  assert (Hn : forall d b, scan_in d b l = Some l' ->
                exists k c0, is_close c0 = true /\ c :: l = k ++ c0 :: l').
  { intros d' b' H. apply IH in H as (k & c' & Hc & ->). by exists (c :: k), c'. }
  destruct (c =? quote); [apply Hn|]. destruct b; [apply Hn|].
  destruct (is_open c); [apply Hn|]. destruct (is_close c) eqn:E; [|apply Hn].
  destruct (d - 1 =? 0); [|apply Hn]. intros [= ->]. by exists [], c.
Qed.

Lemma scan_in_suffix d b l l' : scan_in d b l = Some l' -> suffix l' l.
Proof.
  intros (k & c & _ & ->)%scan_in_split. exists (k ++ [c]). by rewrite <- app_assoc.
Qed.

Lemma scan_value_suffix l l' : scan_value l = Some l' -> suffix l' l.
Proof.
  destruct l as [|c l]; [done|]. unfold scan_value. destruct (c =? quote).
  - pose proof (split_quote_spec l) as H. destruct (split_quote l) as [[s k]|]; [|done].
    intros [= ->]. destruct H as [-> _]. apply suffix_cons_r, suffix_app_r, suffix_cons_r. done.
  - destruct (is_open c); [apply scan_in_suffix|]. intros [= <-]. apply (drop_while_suffix is_bare (c :: l)).
Qed.

(** A value that begins with a bracket is not empty and ends with a closing one. *)
Lemma split_value_open c l o l' :
  is_open c = true -> split_value (c :: l) = Some (o, l') ->
  c :: l = o ++ l' /\ exists k e, is_close e = true /\ o = c :: k ++ [e].
Proof.
  intros Hc. unfold split_value, scan_value.
  assert (Hq : (c =? quote) = false).
  { apply Z.eqb_neq. intros ->. done. }
  rewrite Hq, Hc. destruct (scan_in 0 false (c :: l)) as [r|] eqn:E; [|done].
  intros [= <- <-]. cbn [scan_in] in E. rewrite Hq, Hc in E.
  apply scan_in_split in E as (k & e & He & ->).
  change (S (length (k ++ e :: r))) with (length (c :: k ++ e :: r)).
  replace (c :: k ++ e :: r) with ((c :: k ++ [e]) ++ r) by (simpl; by rewrite <- app_assoc).
  rewrite (length_app (c :: k ++ [e]) r), Nat.add_sub, take_app_length. split; [done|]. by exists k, e.
Qed.

Lemma drop_while_spec f l : exists k, l = k ++ drop_while f l /\ Forall (fun c => f c = true) k.
Proof.
  induction l as [|c l (k & E & Hk)]; [by exists []|]. cbn [drop_while]. destruct (f c) eqn:Ef.
  - exists (c :: k). split; [simpl; by rewrite <- E|]. by constructor.
  - by exists [].
Qed.

(** ** Values *)

Section Facts.
Context (buf : list Z) {S : Type}.
Implicit Types (e p : Z) (l : list Z).

Lemma at_quote e p s l : at_ buf e p (quote :: s ++ quote :: l) -> at_ buf e (posn e l) l.
Proof. intros H. apply (at_suffix _ _ _ _ _ H). exists (quote :: s ++ [quote]). simpl. by rewrite <- app_assoc. Qed.

Lemma runs_memchr e p c l :
  at_ buf e p l -> runs (S := S) (memchr buf p c (e - p)) (option_map (Z.add p) (index c l)).
Proof.
  intros H. unfold memchr. eapply runs_seq; [by apply runs_rd_all|]. apply runs_ret.
Qed.

(** The closing quote, from behind the opening one on. *)
Lemma runs_close e p l :
  at_ buf e p (quote :: l) ->
  runs (S := S) (memchr buf (p + 1) quote (e - p - 1))
    (option_map (fun sl => posn e (snd sl) - 1) (split_quote l)).
Proof.
  intros H. apply at_next in H. replace (e - p - 1) with (e - (p + 1)) by lia.
  pose proof (runs_memchr _ _ quote _ H) as Hm. pose proof (split_quote_spec l) as Hs.
  destruct (split_quote l) as [[s l']|]; cbn.
  - destruct Hs as (-> & _ & Hi). rewrite Hi in Hm. cbn in Hm. unfold posn.
    pose proof (at_end _ _ _ _ H) as He. rewrite zlen_app, zlen_cons in He.
    replace (e - zlen l' - 1) with (p + 1 + zlen s) by lia. done.
  - destruct Hs as [Hi _]. by rewrite Hi in Hm.
Qed.

Lemma runs_scan e fuel d p l :
  at_ buf e p l -> (length l < fuel)%nat -> 0 < d -> d + zlen l < 2 ^ 31 ->
  runs (S := S) (iter fuel (scan_step buf e) (p, d)) (option_map (posn e) (scan_in d false l)).
Proof.
  revert d p l. induction fuel as [|fuel IH]; intros d p l H Hf Hd Hb; [lia|].
  destruct l as [|c l].
  - apply runs_iter_stop. unfold scan_step. rewrite (at_empty _ _ _ _ H). apply runs_ret.
  - simpl in Hf. rewrite zlen_cons in Hb. pose proof (zlen_nonneg l).
    pose proof (runs_rd _ (S := S) _ _ _ _ H) as Hr. pose proof (at_next _ _ _ _ _ H) as Hn.
    cbn [scan_in]. destruct (c =? quote) eqn:Eq.
    + apply Z.eqb_eq in Eq as ->. cbn [negb]. rewrite scan_in_str.
      pose proof (runs_close _ _ _ H) as Hc. pose proof (split_quote_spec l) as Hs.
      destruct (split_quote l) as [[s l']|]; cbn in Hc.
      * destruct Hs as (-> & _). rewrite zlen_app, zlen_cons, length_app in *. simpl in Hf.
        pose proof (zlen_nonneg s). eapply runs_iter_next.
        -- unfold scan_step. rewrite (at_lt _ _ _ _ _ H). eapply runs_seq; [exact Hr|].
           eapply runs_seq; [exact Hc|]. apply runs_ret.
        -- replace (posn e l' - 1 + 1) with (posn e l') by lia.
           apply IH; [by eapply at_quote|lia|lia|lia].
      * apply runs_iter_stop. unfold scan_step. rewrite (at_lt _ _ _ _ _ H).
        eapply runs_seq; [exact Hr|]. eapply runs_seq; [exact Hc|]. apply runs_ret.
    + assert (Hstep : forall r, runs (S := S) (if is_open c then
          if int_ok (d + 1) then ret (inl (p + 1, d + 1)) else oob
        else if is_close c then
          if d - 1 =? 0 then ret (inr (Some (p + 1))) else ret (inl (p + 1, d - 1))
        else ret (inl (p + 1, d))) r -> runs (S := S) (scan_step buf e (p, d)) r).
      { intros r Hx. unfold scan_step. rewrite (at_lt _ _ _ _ _ H).
        eapply runs_seq; [exact Hr|]. by rewrite Eq. }
      assert (Hi : int_ok (d + 1) = true).
      { unfold int_ok. apply andb_true_iff. split; [apply Z.leb_le|apply Z.ltb_lt]; lia. }
      destruct (is_open c).
      { eapply runs_iter_next; [apply Hstep; rewrite Hi; apply runs_ret|]. apply IH; [done|lia|lia|lia]. }
      destruct (is_close c).
      { destruct (d - 1 =? 0) eqn:E1; zb.
        - apply runs_iter_stop. apply Hstep. cbn. unfold posn. rewrite <- (at_pos _ _ _ _ Hn). apply runs_ret.
        - eapply runs_iter_next; [apply Hstep; apply runs_ret|]. apply IH; [done|lia|lia|lia]. }
      eapply runs_iter_next; [apply Hstep; apply runs_ret|]. apply IH; [done|lia|lia|lia].
Qed.

Lemma runs_scan_value e p l :
  at_ buf e p l -> zlen l < 2 ^ 31 ->
  runs (S := S) (tki_scan_value buf p e) (option_map (posn e) (scan_value l)).
Proof.
  intros H Hb. unfold tki_scan_value. rewrite Z.leb_antisym, (at_empty _ _ _ _ H), negb_involutive.
  destruct l as [|c l]; [apply runs_ret|]. rewrite bool_decide_false by done.
  eapply runs_seq; [by eapply runs_rd|]. unfold scan_value. destruct (c =? quote) eqn:Eq.
  - apply Z.eqb_eq in Eq as ->. eapply runs_seq; [by apply runs_close|].
    destruct (split_quote l) as [[s l']|]; [|apply runs_ret]. cbn.
    replace (posn e l' - 1 + 1) with (posn e l') by lia. apply runs_ret.
  - pose proof (at_end _ _ _ _ H) as He. unfold zlen in He. simpl in He.
    rewrite zlen_cons in Hb. pose proof (zlen_nonneg l).
    destruct (is_open c) eqn:Eo.
    + eapply runs_iter_next.
      * unfold scan_step. rewrite (at_lt _ _ _ _ _ H).
        eapply runs_seq; [by eapply runs_rd|]. rewrite Eq, Eo. apply runs_ret.
      * cbn [scan_in]. rewrite Eq, Eo. apply runs_scan; [by eapply at_next|lia|lia|lia].
    + eapply runs_seq; [by apply runs_skip_while|]. apply runs_ret.
Qed.

(** ** Loops *)

(** A loop on positions follows one on texts: [f] and [g] give the position of a
    state and of a result, [I] is kept and [mu] goes down. *)
Lemma runs_walk {A A' B B'} (step : A -> A + B) (body : A' -> M S (A' + B'))
    (f : A -> A') (g : B -> B') (I : A -> Prop) (mu : A -> nat) d fuel fuel' a :
  (forall a, I a ->
     runs (body (f a)) (match step a with inl a => inl (f a) | inr b => inr (g b) end) /\
     (forall a', step a = inl a' -> I a' /\ (mu a' < mu a)%nat)) ->
  I a -> (mu a < fuel)%nat -> (mu a < fuel')%nat ->
  runs (iter fuel' body (f a)) (g (walk step d fuel a)).
Proof.
  intros Hs. revert fuel' a. induction fuel as [|fuel IH]; intros [|fuel'] a Ha Hf Hf'; try lia.
  destruct (Hs a Ha) as [Hr Hn]. cbn [walk]. destruct (step a) as [a'|b].
  - destruct (Hn a' eq_refl) as [Ha' Hm]. eapply runs_iter_next; [exact Hr|]. apply IH; [done|lia|lia].
  - by apply runs_iter_stop.
Qed.

(** A text inside the array, below 2^31 characters, up to [e]. *)
Definition inside (e : Z) (l : list Z) : Prop := at_ buf e (posn e l) l /\ zlen l < 2 ^ 31.

Lemma inside_at e p l : inside e l -> p = posn e l -> at_ buf e p l.
Proof. by intros [H _] ->. Qed.

Lemma inside_len e l : inside e l -> zlen l < 2 ^ 31.
Proof. by intros [_ H]. Qed.

Lemma inside_suffix e l l' : inside e l -> suffix l' l -> inside e l'.
Proof.
  intros [H Hb] Hs. split; [by eapply at_suffix|]. apply suffix_length in Hs. unfold zlen in *. lia.
Qed.

Lemma at_inside e p l : at_ buf e p l -> zlen l < 2 ^ 31 -> inside e l.
Proof. intros H Hb. split; [|done]. by eapply at_suffix. Qed.

Lemma inside_next e c l : inside e (c :: l) -> posn e (c :: l) + 1 = posn e l.
Proof. intros _. unfold posn. rewrite zlen_cons. lia. Qed.

Lemma inside_stop e l : inside e l -> (e <=? posn e l) = bool_decide (l = []).
Proof. intros [H _]. by rewrite Z.leb_antisym, (at_empty _ _ _ _ H), negb_involutive. Qed.

Lemma inside_skip f e l :
  inside e l -> runs (S := S) (skip_while buf f (posn e l) e) (posn e (drop_while f l)) /\
  inside e (drop_while f l).
Proof.
  intros H. split; [by apply runs_skip_while, inside_at|].
  eapply inside_suffix; [exact H|apply drop_while_suffix].
Qed.

Lemma inside_rd e c l : inside e (c :: l) -> runs (S := S) (rd buf (posn e (c :: l))) c.
Proof. intros [H _]. by eapply runs_rd. Qed.

Lemma inside_value e l :
  inside e l -> runs (S := S) (tki_scan_value buf (posn e l) e) (option_map (posn e) (scan_value l)).
Proof. intros [H Hb]. by apply runs_scan_value. Qed.

(** The string behind an opening quote. *)
Lemma inside_close e l :
  inside e (quote :: l) ->
  runs (S := S) (memchr buf (posn e l) quote (e - posn e l))
    (option_map (fun sl => posn e (snd sl) - 1) (split_quote l)).
Proof.
  intros H. pose proof (runs_close _ _ _ (proj1 H)) as Hc. rewrite (inside_next _ _ _ H) in Hc.
  unfold posn in *. rewrite zlen_cons in Hc. by replace (e - (e - zlen l)) with (e - (e - (1 + zlen l)) - 1) by lia.
Qed.

Lemma inside_text e l s l' :
  inside e (quote :: l) -> split_quote l = Some (s, l') ->
  posn e l' - 1 - posn e l = zlen s /\ inside e l' /\ zlen s < 2 ^ 31 /\ Forall (fun c => c <> 0) s /\
  forall n, runs (S := S) (rd_range buf (posn e l) (zlen (take n s))) (take n s).
Proof.
  intros H E. pose proof (split_quote_spec l) as Hs. rewrite E in Hs. destruct Hs as (-> & _ & _).
  pose proof (inside_len _ _ H) as Hl. rewrite zlen_cons, zlen_app, zlen_cons in Hl.
  pose proof (zlen_nonneg s). pose proof (zlen_nonneg l').
  assert (Hn : inside e (s ++ quote :: l')).
  { apply (inside_suffix _ _ _ H). by apply suffix_cons_r. }
  split_and!.
  - unfold posn. rewrite zlen_app, zlen_cons. lia.
  - apply (inside_suffix _ _ _ Hn). apply suffix_app_r, suffix_cons_r. done.
  - lia.
  - pose proof (at_chars _ _ _ _ (proj1 Hn)) as Hf. by apply Forall_app in Hf as [? _].
  - intros n. destruct Hn as [Hn _]. rewrite <- (take_drop n s) in Hn at 2.
    rewrite <- app_assoc in Hn. by eapply runs_rd_range.
Qed.

(** ** Members *)

Lemma suffix_length_le {A} (l l' : list A) : suffix l' l -> (length l' <= length l)%nat.
Proof. apply suffix_length. Qed.

Lemma key_next_suffix key l r :
  key_next key l = inl r \/ key_next key l = inr (Some r) -> suffix r l /\ (length r < length l)%nat.
Proof.
  unfold key_next. pose proof (drop_while_suffix is_gap l) as H1.
  destruct (drop_while is_gap l) as [|c l1]; [by intros [?|?]|].
  destruct (c =? quote); [|by intros [?|?]]. pose proof (split_quote_spec l1) as H2.
  destruct (split_quote l1) as [[k l2]|]; [|by intros [?|?]]. destruct H2 as (-> & _).
  pose proof (drop_while_suffix is_blank l2) as H3.
  destruct (drop_while is_blank l2) as [|c' l3]; [by intros [?|?]|].
  destruct (c' =? chr ":"); [|by intros [?|?]]. pose proof (drop_while_suffix is_blank l3) as H4.
  assert (H : suffix (drop_while is_blank l3) l /\ (length (drop_while is_blank l3) < length l)%nat).
  { apply suffix_length_le in H4 as H4'. apply suffix_length_le in H3 as H3'. apply suffix_length_le in H1 as H1'.
    simpl in H1', H3'. rewrite length_app in H1'. simpl in H1'. split; [|lia].
    etrans; [exact H4|]. etrans; [|exact H1]. apply suffix_cons_r, suffix_app_r, suffix_cons_r.
    etrans; [|exact H3]. by apply suffix_cons_r. }
  destruct (bytes_eqb k key).
  - intros [?|[= <-]]; [done|exact H].
  - destruct (scan_value _) as [l4|] eqn:E; [|by intros [?|?]]. intros [[= <-]|?]; [|done].
    apply scan_value_suffix in E. destruct H as [H Hl]. apply suffix_length_le in E as El.
    split; [by etrans|lia].
Qed.

Lemma runs_key_step e key l :
  inside e l ->
  runs (S := S) (key_step buf e key (posn e l))
    (match key_next key l with inl l => inl (posn e l) | inr r => inr (option_map (posn e) r) end).
Proof.
  intros H. unfold key_step, key_next. rewrite (at_empty _ _ _ _ (proj1 H)).
  destruct (inside_skip is_gap _ _ H) as [R1 H1].
  destruct l as [|c0 l0]; [apply runs_ret|]. rewrite bool_decide_false by done. cbn [negb].
  eapply runs_seq; [exact R1|]. rewrite (inside_stop _ _ H1).
  destruct (drop_while is_gap (c0 :: l0)) as [|c l1]; [apply runs_ret|].
  rewrite bool_decide_false by done. eapply runs_seq; [by apply inside_rd|].
  destruct (c =? quote) eqn:Eq.
  2:{ destruct (c =? chr "}"); apply runs_ret. }
  apply Z.eqb_eq in Eq as ->. cbn [negb]. change (quote =? chr "}") with false. cbn zeta iota.
  rewrite (inside_next _ _ _ H1). eapply runs_seq; [by apply inside_close|].
  pose proof (inside_text e l1) as Ht. destruct (split_quote l1) as [[k l2]|]; [|apply runs_ret].
  destruct (Ht k l2 H1 eq_refl) as (Hk & H2 & _ & _ & Rk). cbn [option_map snd].
  rewrite Z.sub_add, Hk. destruct (inside_skip is_blank _ _ H2) as [R2 H3].
  eapply runs_seq; [exact R2|]. rewrite (inside_stop _ _ H3).
  destruct (drop_while is_blank l2) as [|c' l3]; [apply runs_ret|].
  rewrite bool_decide_false by done. eapply runs_seq; [by apply inside_rd|].
  destruct (c' =? chr ":"); [|apply runs_ret]. cbn [negb]. rewrite (inside_next _ _ _ H3).
  assert (H4 : inside e l3) by (apply (inside_suffix _ _ _ H3), suffix_cons_r; done).
  destruct (inside_skip is_blank _ _ H4) as [R4 H5]. eapply runs_seq; [exact R4|].
  specialize (Rk (length k)). rewrite take_ge in Rk by lia.
  eapply (runs_seq _ _ (if zlen k =? zlen key then k else [])).
  { destruct (zlen k =? zlen key); [exact Rk|apply runs_ret]. }
  assert (Hcmp : (zlen k =? zlen key) && bytes_eqb (if zlen k =? zlen key then k else []) key
                 = bytes_eqb k key).
  { destruct (zlen k =? zlen key) eqn:El; [done|]. symmetry. apply not_true_iff_false.
    rewrite bytes_eqb_eq. intros ->. by rewrite Z.eqb_refl in El. }
  rewrite Hcmp. destruct (bytes_eqb k key); [apply runs_ret|].
  eapply runs_seq; [by apply inside_value|].
  destruct (scan_value _) as [l4|]; apply runs_ret.
Qed.

Lemma runs_obj_key e key l :
  inside e l ->
  runs (S := S) (tki_obj_key buf (posn e l) e key) (option_map (posn e) (obj_key key l)).
Proof.
  intros H. unfold tki_obj_key, obj_key. rewrite (inside_stop _ _ H).
  destruct l as [|c l]; [apply runs_ret|]. rewrite bool_decide_false by done.
  eapply runs_seq; [by apply inside_rd|]. destruct (c =? chr "{"); [|apply runs_ret]. cbn [negb].
  rewrite (inside_next _ _ _ H). pose proof (at_end _ _ _ _ (proj1 H)) as He.
  apply (runs_walk (key_next key) (key_step buf e key) (posn e) (option_map (posn e))
           (inside e) (fun l => length l)).
  - intros a Ha. split; [by apply runs_key_step|]. intros a' E.
    destruct (key_next_suffix key a a') as [Hs Hl]; [by left|]. split; [by eapply inside_suffix|done].
  - apply (inside_suffix _ _ _ H). by apply suffix_cons_r.
  - simpl. lia.
  - unfold zlen in He. simpl in He. lia.
Qed.

Lemma obj_key_suffix key l r : obj_key key l = Some r -> suffix r l.
Proof.
  destruct l as [|c l]; [done|]. unfold obj_key. destruct (c =? chr "{"); [|done].
  generalize (Datatypes.S (length (c :: l))) as fuel. intros fuel H. apply suffix_cons_r.
  revert l H. induction fuel as [|fuel IH]; intros l; cbn [walk]; [done|].
  pose proof (key_next_suffix key l) as Hn. destruct (key_next key l) as [l'|[r'|]]; [| |done].
  - intros H. etrans; [by apply IH|]. apply Hn. by left.
  - intros [= ->]. apply Hn. by right.
Qed.

Lemma inside_obj_key e key l r : inside e l -> obj_key key l = Some r -> inside e r.
Proof. intros H E. eapply inside_suffix; [exact H|by eapply obj_key_suffix]. Qed.

(** ** Strings *)

Lemma until_nul_id l : Forall (fun c => c <> 0) l -> until_nul l = l.
Proof.
  induction 1 as [|c l Hc _ IH]; [done|]. cbn [until_nul]. rewrite (proj2 (Z.eqb_neq _ _)) by done.
  by rewrite IH.
Qed.

Lemma to_int_id v : int_ok v = true -> to_int v = v.
Proof.
  unfold int_ok, to_int. intros [?%Z.leb_le ?%Z.ltb_lt]%andb_prop. rewrite Z.mod_small; lia.
Qed.

Lemma runs_str_value e n v :
  (forall l, v = Some l -> inside e l) -> 1 < n < 2 ^ 31 ->
  runs (S := S) (tki_str_value buf (option_map (posn e) v) e n)
    (match v with Some l => str_value n l | None => None end).
Proof.
  intros Hv Hn. destruct v as [l|]; [|apply runs_ret]. specialize (Hv l eq_refl). cbn [option_map].
  unfold tki_str_value, str_value. destruct (inside_skip is_blank _ _ Hv) as [R H].
  eapply runs_seq; [exact R|]. rewrite (inside_stop _ _ H).
  destruct (drop_while is_blank l) as [|c l1]; [apply runs_ret|].
  rewrite bool_decide_false by done. eapply runs_seq; [by apply inside_rd|].
  destruct (c =? quote) eqn:Eq; [|apply runs_ret]. apply Z.eqb_eq in Eq as ->. cbn [negb]. cbn zeta.
  rewrite (inside_next _ _ _ H). eapply runs_seq; [by apply inside_close|].
  pose proof (inside_text e l1) as Ht. destruct (split_quote l1) as [[s l2]|]; [|apply runs_ret].
  destruct (Ht s l2 H eq_refl) as (Hk & _ & Hb & Hz & R2). cbn [option_map snd fst].
  rewrite Hk. pose proof (zlen_nonneg s).
  rewrite to_int_id.
  2:{ unfold int_ok. apply andb_true_iff. split; [apply Z.leb_le|apply Z.ltb_lt]; lia. }
  eapply runs_seq.
  - replace (if n <=? zlen s then n - 1 else zlen s) with (zlen (take (Z.to_nat (n - 1)) s)); [apply R2|].
    unfold zlen in *. rewrite length_take. case_match eqn:E; zb; lia.
  - rewrite until_nul_id by by apply Forall_take. apply runs_ret.
Qed.

Lemma runs_key_str e n key l :
  inside e l -> 1 < n < 2 ^ 31 ->
  runs (S := S) (do v <- tki_obj_key buf (posn e l) e key; tki_str_value buf v e n) (key_str n key l).
Proof.
  intros H Hn. eapply runs_seq; [by apply runs_obj_key|]. unfold key_str.
  apply runs_str_value; [|done]. intros r. by apply inside_obj_key.
Qed.

(** ** Records *)

(** A bracketed value is a range of its own. *)
Lemma inside_split e c l o l' :
  inside e (c :: l) -> is_open c = true -> split_value (c :: l) = Some (o, l') ->
  inside (posn e l') o /\ posn (posn e l') o = posn e (c :: l) /\ inside e l' /\
  (length l' < length (c :: l))%nat /\
  runs (S := S) (tki_scan_value buf (posn e (c :: l)) e) (Some (posn e l')).
Proof.
  intros H Ho E. destruct (split_value_open _ _ _ _ Ho E) as (Ea & k & b & _ & Eo).
  pose proof (inside_value _ _ H) as Hr.
  assert (Hsc : scan_value (c :: l) = Some l').
  { unfold split_value in E. destruct (scan_value (c :: l)); [|done]. by injection E as _ ->. }
  rewrite Hsc in Hr. rewrite Ea in *. destruct H as [H Hb].
  pose proof (zlen_nonneg l') as Hl'. pose proof (zlen_app o l') as Hz.
  assert (Hp : posn (posn e l') o = posn e (o ++ l')) by (unfold posn; lia).
  split_and!; [|exact Hp| | |exact Hr].
  - split; [|lia]. rewrite Hp. apply at_prefix in H.
    replace (posn e (o ++ l') + zlen o) with (posn e l') in H by (unfold posn; lia). done.
  - split; [|pose proof (zlen_nonneg o); lia]. by eapply at_suffix; [|apply suffix_app_r].
  - rewrite Eo. simpl. rewrite length_app. lia.
Qed.

Lemma open_brace : is_open (chr "{") = true.
Proof. done. Qed.
Lemma open_bracket : is_open (chr "[") = true.
Proof. done. Qed.

(** A loop over an array that is the value of a key; [body] may depend on the end
    of the array, and [empty] is the result when there is none. *)
Lemma runs_array {A B} (step : list Z * list A -> list Z * list A + list A)
    (body : Z -> Z * list A -> M S (Z * list A + list A)) (empty : B) (full : list A -> B) e v :
  (forall e l acc, inside e l ->
     runs (body e (posn e l, acc))
       (match step (l, acc) with inl (l, acc) => inl (posn e l, acc) | inr acc => inr acc end) /\
     (forall l' acc', step (l, acc) = inl (l', acc') -> inside e l' /\ (length l' < length l)%nat)) ->
  (forall l, v = Some l -> inside e l) ->
  runs (do a <- array_at buf (option_map (posn e) v) e;
        match a with
        | None => ret empty
        | Some (a, e) =>
            do r <- iter (Datatypes.S (Z.to_nat (e - a))) (body e) (a + 1, []); ret (full r)
        end)
    (default empty (option_map (fun l => full (list_of step l)) (array_of v))).
Proof.
  intros Hs Hv. destruct v as [l|]; [|eapply runs_seq; apply runs_ret].
  specialize (Hv l eq_refl). cbn [option_map].
  assert (Hlt : (posn e l <? e) = negb (bool_decide (l = []))) by apply (at_empty _ _ _ _ (proj1 Hv)).
  unfold array_at, array_of. rewrite Hlt.
  destruct l as [|c l]; [eapply runs_seq; apply runs_ret|].
  rewrite bool_decide_false by done. cbn [negb]. destruct (c =? chr "[") eqn:Ec.
  2:{ eapply (runs_seq _ _ None); [|apply runs_ret]. eapply runs_seq; [by apply inside_rd|].
      rewrite Ec. apply runs_ret. }
  apply Z.eqb_eq in Ec as ->. pose proof (inside_value _ _ Hv) as Hsv.
  destruct (split_value (chr "[" :: l)) as [[o l']|] eqn:Es.
  - destruct (inside_split _ _ _ _ _ Hv open_bracket Es) as (Ho & Hp & Hl & Hlen & Hr).
    eapply runs_seq.
    { eapply runs_seq; [by apply inside_rd|]. cbn. eapply runs_seq; [exact Hr|]. apply runs_ret. }
    cbn [option_map fst default].
    destruct (split_value_open _ _ _ _ open_bracket Es) as (_ & k & b & _ & ->). cbn [tl].
    set (e' := posn e l') in *. rewrite <- Hp, (inside_next _ _ _ Ho).
    pose proof (at_end _ _ _ _ (proj1 Ho)) as He. rewrite zlen_cons in He. unfold zlen in He.
    eapply runs_seq; [|apply runs_ret]. unfold list_of.
    apply (runs_walk step (body e') (fun la => (posn e' (fst la), snd la)) (fun r => r)
             (fun la => inside e' (fst la)) (fun la => length (fst la)) []
             (Datatypes.S (length (k ++ [b]))) _ (k ++ [b], [])); cbn [fst].
    + intros [a acc] Ha. destruct (Hs e' a acc Ha) as [R N]. cbn [fst snd] in *. split.
      * destruct (step (a, acc)) as [[a' acc']|]; exact R.
      * intros [a' acc'] E. exact (N a' acc' E).
    + apply (inside_suffix _ _ _ Ho). by apply suffix_cons_r.
    + lia.
    + lia.
  - eapply (runs_seq _ _ None); [|apply runs_ret]. eapply runs_seq; [by apply inside_rd|]. cbn.
    unfold split_value in Es. destruct (scan_value (chr "[" :: l)); [done|].
    eapply runs_seq; [exact Hsv|]. apply runs_ret.
Qed.

Lemma str_value_quote n l :
  str_value n (quote :: l) = option_map (fun sl => printed n (fst sl)) (split_quote l).
Proof. done. Qed.

Lemma runs_param_step e l acc :
  inside e l ->
  runs (S := S) (param_step buf e (posn e l, acc))
    (match param_next (l, acc) with inl (l, acc) => inl (posn e l, acc) | inr acc => inr acc end) /\
  (forall l' acc', param_next (l, acc) = inl (l', acc') -> inside e l' /\ (length l' < length l)%nat).
Proof.
  intros H. unfold param_step, param_next. rewrite (at_empty _ _ _ _ (proj1 H)).
  destruct (inside_skip is_gap _ _ H) as [R1 H1]. pose proof (drop_while_suffix is_gap l) as Hs.
  apply suffix_length_le in Hs.
  destruct l as [|c0 l0].
  { split; [|done || (intros ? ?; by destruct (zlen acc <? _))]. cbn. destruct (zlen acc <? _); apply runs_ret. }
  rewrite bool_decide_false by done. cbn [negb andb].
  destruct (zlen acc <? TKC_MAX_TKI_PARAMS); [|split; [apply runs_ret|done]].
  destruct (drop_while is_gap (c0 :: l0)) as [|c l1].
  { split; [|done]. eapply runs_seq; [exact R1|]. rewrite (inside_stop _ _ H1). apply runs_ret. }
  destruct (c =? quote) eqn:Eq.
  2:{ split; [|done]. eapply runs_seq; [exact R1|]. rewrite (inside_stop _ _ H1).
      rewrite bool_decide_false by done. eapply runs_seq; [by apply inside_rd|]. rewrite Eq. apply runs_ret. }
  apply Z.eqb_eq in Eq as ->.
  pose proof (runs_str_value e 128 (Some (quote :: l1)) ltac:(by intros ? [= <-]) ltac:(lia)) as Rt.
  pose proof (inside_value _ _ H1) as Rv. cbn [option_map] in Rt.
  assert (Hv : scan_value (quote :: l1) = option_map snd (split_quote l1)) by done.
  pose proof (inside_text e l1) as Ht. rewrite str_value_quote in *. split.
  - eapply runs_seq; [exact R1|]. rewrite (inside_stop _ _ H1).
    rewrite bool_decide_false by done. eapply runs_seq; [by apply inside_rd|].
    rewrite Z.eqb_refl. cbn [negb]. eapply runs_seq; [exact Rt|]. rewrite Hv in *.
    destruct (split_quote l1) as [[s l2]|]; [|apply runs_ret]. cbn [option_map snd fst] in *.
    eapply runs_seq; [exact Rv|]. apply runs_ret.
  - intros l' acc'. rewrite Hv. destruct (split_quote l1) as [[s l2]|] eqn:E; [|done].
    destruct (Ht s l2 H1 eq_refl) as (_ & H2 & _). cbn. intros [= <- <-]. split; [done|].
    pose proof (split_quote_spec l1) as Hq. rewrite E in Hq. destruct Hq as (-> & _).
    simpl in Hs. rewrite length_app in Hs. simpl in *. lia.
Qed.

Lemma bind_runs {A B} (m : M S A) (k : A -> M S B) v s : runs m v -> bind m k s = k v s.
Proof. intros H. unfold bind. by rewrite H. Qed.

(** The string under a key, and what is done with it. *)
Lemma bind_key_str {B} e n key l (k : option (list Z) -> M S B) s :
  inside e l -> 1 < n < 2 ^ 31 ->
  (do v <- tki_obj_key buf (posn e l) e key; do x <- tki_str_value buf v e n; k x) s
  = k (key_str n key l) s.
Proof.
  intros H Hn. rewrite (bind_runs _ _ _ _ (runs_obj_key e key l H)).
  apply bind_runs. unfold key_str. apply runs_str_value; [|done]. intros r. by apply inside_obj_key.
Qed.

Lemma runs_field_step e l acc :
  inside e l ->
  runs (S := S) (field_step buf e (posn e l, acc))
    (match field_next (l, acc) with inl (l, acc) => inl (posn e l, acc) | inr acc => inr acc end) /\
  (forall l' acc', field_next (l, acc) = inl (l', acc') -> inside e l' /\ (length l' < length l)%nat).
Proof.
  intros H. unfold field_step, field_next. rewrite (at_empty _ _ _ _ (proj1 H)).
  destruct (inside_skip is_gap _ _ H) as [R1 H1]. pose proof (drop_while_suffix is_gap l) as Hs.
  apply suffix_length_le in Hs.
  destruct l as [|c0 l0].
  { split; [|intros ? ?; by destruct (zlen acc <? _)]. cbn. destruct (zlen acc <? _); apply runs_ret. }
  rewrite bool_decide_false by done. cbn [negb andb].
  destruct (zlen acc <? TKC_MAX_TKI_FIELDS); [|split; [apply runs_ret|done]].
  destruct (drop_while is_gap (c0 :: l0)) as [|c l1].
  { split; [|done]. eapply runs_seq; [exact R1|]. rewrite (inside_stop _ _ H1). apply runs_ret. }
  destruct (c =? chr "{") eqn:Eq.
  2:{ split; [|done]. eapply runs_seq; [exact R1|]. rewrite (inside_stop _ _ H1).
      rewrite bool_decide_false by done. eapply runs_seq; [by apply inside_rd|]. rewrite Eq. apply runs_ret. }
  apply Z.eqb_eq in Eq as ->. pose proof (inside_value _ _ H1) as Rv.
  destruct (split_value (chr "{" :: l1)) as [[o l2]|] eqn:Es.
  - destruct (inside_split _ _ _ _ _ H1 open_brace Es) as (Ho & Hp & H2 & Hl & Rs).
    split; [|intros ? ? [= <- <-]; split; [done|lia]]. rewrite <- Hp in *.
    eapply runs_seq; [exact R1|]. rewrite Hp, (inside_stop _ _ H1), <- Hp.
    rewrite bool_decide_false by done.
    eapply runs_seq; [rewrite Hp; by apply inside_rd|]. cbn.
    eapply runs_seq; [exact Rs|]. intros s. rewrite bind_key_str by (done || lia). unfold field_of.
    destruct (key_str 128 _ o) as [fn|]; [|by rewrite app_nil_r].
    by rewrite bind_key_str by (done || lia).
  - split; [|done]. eapply runs_seq; [exact R1|]. rewrite (inside_stop _ _ H1).
    rewrite bool_decide_false by done. eapply runs_seq; [by apply inside_rd|]. cbn.
    unfold split_value in Es. destruct (scan_value (chr "{" :: l1)); [done|].
    eapply runs_seq; [exact Rv|]. apply runs_ret.
Qed.

Lemma runs_record_params e l :
  inside e l -> runs (S := S) (record_params buf (posn e l) e) (rec_params l).
Proof.
  intros H. unfold record_params, rec_params. eapply runs_seq; [by apply runs_obj_key|].
  pose proof (runs_array param_next (param_step buf) None Some e (obj_key (bytes_of "params") l)
                (fun e l acc => runs_param_step e l acc) (fun r => inside_obj_key e _ l r H)) as Hr.
  destruct (array_of _); exact Hr.
Qed.

Lemma bind_ret {A} (m : M S A) s : bind m ret s = m s.
Proof. unfold bind, ret. by destruct (m s) as [[a s']| |]. Qed.

Lemma runs_record_fields e l :
  inside e l -> runs (S := S) (record_fields buf (posn e l) e) (rec_fields l).
Proof.
  intros H. unfold record_fields, rec_fields. eapply runs_seq; [by apply runs_obj_key|].
  pose proof (runs_array field_next (field_step buf) [] (fun r => r) e (obj_key (bytes_of "fields") l)
                (fun e l acc => runs_field_step e l acc) (fun r => inside_obj_key e _ l r H)) as Hr.
  intros s. specialize (Hr s). revert Hr. unfold bind at 1 3.
  destruct (array_at _ _ _ s) as [[[[a e']|] s']| |]; [|done..]. by rewrite bind_ret.
Qed.

Lemma runs_record_ret e l :
  inside e l -> runs (S := S) (record_ret buf (posn e l) e) (rec_ret l).
Proof.
  intros H. unfold record_ret, rec_ret. eapply runs_seq; [by apply runs_obj_key|].
  destruct (obj_key (bytes_of "error") l); [apply runs_ret|]. intros s. cbn [option_map].
  by rewrite bind_key_str by (done || lia).
Qed.
End Facts.

(** ** Strings of the whole array *)

Definition terminated (buf : list Z) : Prop := existsb (Z.eqb 0) buf = true.

Lemma until_nul_split buf :
  terminated buf -> exists k, buf = until_nul buf ++ 0 :: k /\ Forall (fun c => c <> 0) (until_nul buf).
Proof.
  unfold terminated. induction buf as [|c buf IH]; [done|]. cbn [existsb until_nul].
  destruct (c =? 0) eqn:E.
  - apply Z.eqb_eq in E as ->. intros _. by exists buf.
  - apply Z.eqb_neq in E. rewrite (proj2 (Z.eqb_neq 0 c)) by done. cbn.
    intros (k & Ek & Hk)%IH. exists k. rewrite Ek at 1. split; [done|]. by constructor.
Qed.

Lemma until_nul_app l k : Forall (fun c => c <> 0) l -> until_nul (l ++ k) = l ++ until_nul k.
Proof.
  induction 1 as [|c l Hc _ IH]; [done|]. cbn [until_nul app]. rewrite (proj2 (Z.eqb_neq _ _)) by done.
  by rewrite IH.
Qed.

Lemma cstr_zero {S} buf : terminated buf -> runs (S := S) (cstr buf 0) (until_nul buf).
Proof. intros H s. unfold cstr. change (drop (Z.to_nat 0) buf) with buf. by rewrite H. Qed.

Lemma inside_cstr buf :
  terminated buf -> zlen buf < 2 ^ 31 -> inside buf (zlen (until_nul buf)) (until_nul buf).
Proof.
  intros H Hb. destruct (until_nul_split buf H) as (k & E & Hk).
  pose proof (until_nul_len buf). split; [|lia]. unfold posn. rewrite Z.sub_diag.
  split; [lia|lia|lia| |done]. unfold slice. change (drop (Z.to_nat 0) buf) with buf.
  unfold zlen. rewrite Nat2Z.id. rewrite E at 2. by rewrite take_app_length.
Qed.

(** The string at the suffix of a range. *)
Lemma runs_cstr {S} buf l :
  terminated buf -> zlen buf < 2 ^ 31 -> suffix l (until_nul buf) ->
  runs (S := S) (cstr buf (posn (zlen (until_nul buf)) l)) l.
Proof.
  intros H Hb [k E] s. destruct (until_nul_split buf H) as (r & Eb & Hk).
  rewrite E in *. apply Forall_app in Hk as [_ Hl]. unfold cstr, posn. rewrite zlen_app.
  pose proof (zlen_nonneg k). replace (zlen k + zlen l - zlen l) with (zlen k) by lia.
  rewrite (proj2 (Z.leb_le _ _)) by done. rewrite Eb, <- app_assoc. unfold zlen.
  rewrite Nat2Z.id, drop_app_length, existsb_app. cbn [existsb]. rewrite orb_true_r. cbn [andb].
  rewrite until_nul_app by done. cbn. by rewrite app_nil_r.
Qed.

Lemma starts_with_app w l r c : c ∈ l -> c ∉ w -> starts_with w (l ++ r) = starts_with w l.
Proof.
  revert l. induction w as [|d w IH]; intros [|x l]; cbn [starts_with app]; try done.
  { intros H _. by apply not_elem_of_nil in H. }
  rewrite not_elem_of_cons. intros [<-|Hl]%elem_of_cons [Hd Hw].
  - by rewrite (proj2 (Z.eqb_neq _ _)) by done.
  - by rewrite IH.
Qed.

Lemma starts_with_len w l : starts_with w l = true -> zlen w <= zlen l.
Proof.
  revert l. induction w as [|c w IH]; intros [|d l]; cbn [starts_with]; try done.
  intros [_ H]%andb_prop. rewrite !zlen_cons. specialize (IH l H). lia.
Qed.

Lemma find_sub_end w l i : find_sub w l = Some i -> 0 <= i /\ i + zlen w <= zlen l.
Proof.
  revert i. induction l as [|c l IH]; intros i; cbn [find_sub]; case_match eqn:E; try done;
    try (intros [= <-]; apply starts_with_len in E; lia).
  destruct (find_sub w l) as [j|]; [|done]. intros [= <-]. specialize (IH j eq_refl).
  rewrite zlen_cons. lia.
Qed.

Lemma find_sub_bound w l i : find_sub w l = Some i -> 0 <= i <= zlen l.
Proof.
  revert i. induction l as [|c l IH]; intros i; cbn [find_sub]; case_match; try done.
  - intros [= <-]. pose proof (zlen_nonneg (@nil Z)). lia.
  - intros [= <-]. pose proof (zlen_nonneg (c :: l)). lia.
  - destruct (find_sub w l) as [j|]; [|done]. intros [= <-]. specialize (IH j eq_refl).
    rewrite zlen_cons. lia.
Qed.

Lemma index_split c l j : index c l = Some j -> exists k r, l = k ++ c :: r /\ zlen k = j.
Proof.
  revert j. induction l as [|d l IH]; intros j; cbn [index]; [done|]. destruct (d =? c) eqn:E.
  - apply Z.eqb_eq in E as ->. intros [= <-]. by exists [], l.
  - destruct (index c l) as [i|]; [|done]. intros [= <-].
    destruct (IH i eq_refl) as (k & r & -> & Hk). exists (d :: k), r. rewrite zlen_cons, Hk. done.
Qed.

Section File.
Context (alias : option (list Z)) (buf : list Z).
Hypothesis (Hterm : terminated buf) (Hlen : zlen buf < 2 ^ 31).

Abbreviation bufend := (zlen (until_nul buf)).

Lemma runs_record_is_sum {S} o r k b :
  inside buf (posn bufend r) o -> suffix (o ++ r) (until_nul buf) -> o = k ++ [b] -> is_close b = true ->
  runs (S := S) (record_is_sum buf (posn (posn bufend r) o) (posn bufend r)) (rec_is_sum o).
Proof.
  intros H Hs Ho Hb. unfold record_is_sum, rec_is_sum.
  eapply runs_seq; [by apply runs_obj_key|].
  destruct (obj_key (bytes_of "is_sum") o) as [v|] eqn:E; [|apply runs_ret]. cbn [option_map].
  pose proof (inside_obj_key _ _ _ _ _ H E) as Hv. apply obj_key_suffix in E.
  rewrite (at_empty _ _ _ _ (proj1 Hv)).
  destruct v as [|c v]; [apply runs_ret|]. rewrite bool_decide_false by done. cbn [negb].
  assert (Hp : posn (posn bufend r) (c :: v) = posn bufend ((c :: v) ++ r)).
  { unfold posn. rewrite zlen_app. lia. }
  rewrite Hp. unfold strncmp_eq. eapply runs_seq.
  { apply runs_cstr; [done|done|]. etrans; [|exact Hs]. destruct E as [k' ->].
    rewrite <- app_assoc. by apply suffix_app_r. }
  rewrite (starts_with_app _ _ _ b); [apply runs_ret| |].
  - rewrite Ho in E. destruct E as [k' E].
    destruct (exists_last (l := c :: v)) as (v' & b' & Ev); [done|]. rewrite Ev, app_assoc in E.
    apply app_inj_tail in E as [_ ->]. rewrite Ev. apply elem_of_app. right. by apply list_elem_of_singleton.
  - intros Hin. assert (Hf : forallb (fun c => negb (is_close c)) (bytes_of "true") = true) by done.
    rewrite forallb_forall in Hf. apply list_elem_of_In, Hf in Hin. by rewrite Hb in Hin.
Qed.

Definition record_at (o r : list Z) : Prop :=
  inside buf (posn bufend r) o /\ suffix (o ++ r) (until_nul buf) /\
  exists k b, o = k ++ [b] /\ is_close b = true.

Lemma tki_record_ok o r env :
  record_at o r ->
  tki_record alias buf (posn (posn bufend r) o) (posn bufend r) env
  = Ok (tt, add_entries (option_list (entry_of alias o)) env).
Proof.
  intros (H & Hs & k & b & Ho & Hb). unfold tki_record, entry_of.
  rewrite bind_key_str by (done || lia).
  destruct (key_str 32 (bytes_of "kind") o) as [kind|]; [|done].
  rewrite bind_key_str by (done || lia).
  destruct (key_str 128 (bytes_of "name") o) as [name|]; [|done].
  destruct (bytes_eqb kind (bytes_of "func")).
  - destruct alias as [a|]; [|done].
    rewrite (bind_runs _ _ _ _ (runs_record_ret buf _ o H)),
      (bind_runs _ _ _ _ (runs_record_params buf _ o H)). done.
  - destruct (bytes_eqb kind (bytes_of "type")); [|done].
    rewrite (bind_runs _ _ _ _ (runs_record_is_sum o r k b H Hs Ho Hb)),
      (bind_runs _ _ _ _ (runs_record_fields buf _ o H)).
    unfold nameenv_add_itype, modify, add_entries, grown. cbn. by case_match.
Qed.

Lemma export_loop fuel fuel' l acc env :
  inside buf bufend l -> suffix l (until_nul buf) ->
  (length l < fuel)%nat -> (length l < fuel')%nat ->
  iter fuel' (export_step alias buf bufend) (posn bufend l) (add_entries (omap (entry_of alias) acc) env)
  = Ok (tt, add_entries (omap (entry_of alias) (walk object_next [] fuel (l, acc))) env).
Proof.
  revert fuel' l acc. induction fuel as [|fuel IH]; intros [|fuel'] l acc H Hs Hf Hf'; try lia.
  cbn [iter walk]. unfold bind at 1. unfold export_step, object_next.
  rewrite (at_empty _ _ _ _ (proj1 H)).
  destruct l as [|c0 l0]; [done|]. rewrite bool_decide_false by done. cbn [negb].
  destruct (inside_skip buf (S := NameEnv) is_gap _ _ H) as [R1 H1].
  pose proof (drop_while_suffix is_gap (c0 :: l0)) as Hd. rewrite (bind_runs _ _ _ _ R1).
  rewrite (inside_stop _ _ _ H1).
  destruct (drop_while is_gap (c0 :: l0)) as [|c l1]; [done|].
  rewrite bool_decide_false by done. rewrite (bind_runs _ _ _ _ (inside_rd _ _ _ _ H1)).
  destruct (c =? chr "{") eqn:Eq; [|by destruct (c =? chr "]")].
  apply Z.eqb_eq in Eq as ->. cbn [negb]. change (chr "{" =? chr "]") with false. cbv iota.
  destruct (split_value (chr "{" :: l1)) as [[o l2]|] eqn:Es.
  - destruct (inside_split buf (S := NameEnv) _ _ _ _ _ H1 open_brace Es) as (Ho & Hp & H2 & Hl & Rs).
    destruct (split_value_open _ _ _ _ open_brace Es) as (Ea & k & b & Hb & Eo).
    rewrite (bind_runs _ _ _ _ Rs). unfold bind. rewrite <- Hp, tki_record_ok.
    2:{ split_and!; [done|rewrite <- Ea; by etrans|]. exists (chr "{" :: k), b. by rewrite Eo. }
    cbn. apply suffix_length_le in Hd as Hdl. unfold add_entries at 1. rewrite <- fold_left_app.
    replace (omap (entry_of alias) acc ++ option_list (entry_of alias o))
      with (omap (entry_of alias) (acc ++ [o])) by (rewrite omap_app; simpl; by case_match).
    apply IH; [done| |lia|lia]. etrans; [|exact Hs]. etrans; [|exact Hd].
    rewrite Ea. by apply suffix_app_r.
  - pose proof (inside_value buf (S := NameEnv) _ _ H1) as Rv. unfold split_value in Es.
    destruct (scan_value (chr "{" :: l1)); [done|]. by rewrite (bind_runs _ _ _ _ Rv).
Qed.

(** The whole file. *)
Lemma tki_record_exports_ok env :
  tki_record_exports alias buf env = Ok (tt, add_entries (entries alias (until_nul buf)) env).
Proof.
  set (s := until_nul buf). pose proof (inside_cstr buf Hterm Hlen) as H. fold s in H.
  unfold tki_record_exports, strlen, strstr, entries, objects, exports_text.
  rewrite (bind_runs _ _ (zlen s) _).
  2:{ eapply runs_seq; [by apply cstr_zero|apply runs_ret]. }
  rewrite (bind_runs _ _ (find_sub (quote :: bytes_of "exports" ++ [quote]) s) _).
  2:{ eapply runs_seq; [by apply cstr_zero|]. fold s. destruct (find_sub _ s); apply runs_ret. }
  destruct (find_sub _ s) as [i|] eqn:Ei; [|done].
  pose proof (find_sub_bound _ _ _ Ei) as Hi.
  assert (H1 : inside buf (zlen s) (drop (Z.to_nat i) s)).
  { apply (inside_suffix _ _ _ _ H). exists (take (Z.to_nat i) s). by rewrite take_drop. }
  assert (Hp : i = posn (zlen s) (drop (Z.to_nat i) s)).
  { unfold posn, zlen in *. rewrite length_drop. lia. }
  rewrite Hp at 1 2. rewrite (bind_runs _ _ _ _ (runs_memchr buf _ _ _ _ (proj1 H1))), <- Hp.
  destruct (index (chr "[") (drop (Z.to_nat i) s)) as [j|] eqn:Ej; [|done].
  destruct (index_split _ _ _ Ej) as (k & r & Er & Hj). rewrite Er in *. cbn [option_map].
  subst j.
  assert (H2 : inside buf (zlen s) r).
  { apply (inside_suffix _ _ _ _ H1). apply suffix_app_r, suffix_cons_r. done. }
  replace (i + zlen k + 1) with (posn (zlen s) r).
  2:{ rewrite Hp. unfold posn. rewrite zlen_app, zlen_cons. lia. }
  replace (drop _ _) with r.
  2:{ unfold zlen. rewrite Nat2Z.id. rewrite (app_assoc k [chr "["] r : k ++ chr "[" :: r = _).
      rewrite drop_app_length'; [done|]. rewrite length_app. simpl. lia. }
  apply (export_loop _ _ r [] env H2).
  - etrans; [|exact (ex_intro _ (take (Z.to_nat i) s) (eq_sym (take_drop (Z.to_nat i) s)))].
    rewrite Er. apply suffix_app_r, suffix_cons_r. done.
  - lia.
  - pose proof (at_end _ _ _ _ (proj1 H1)) as He. rewrite zlen_app, zlen_cons in He.
    unfold posn in Hp. rewrite zlen_app, zlen_cons in Hp. unfold zlen in *. lia.
Qed.
End File.
