(* ===== verification/IfaceJson.v ===== *)
(** * JSON and the reader of interface files

    The JSON texts of a value, with any white space, and what the reader finds in
    them: a member, a string, the lists of a record, the records of a file.  A string
    is held as it is spelled, with its escapes but none of a quote, at which the
    reader ends a string; only blanks stand around a colon. *)

From Stdlib Require Import ZArith Lia String Ascii.
From stdpp Require Import base tactics list.
From S2P Require Import Prelude CStr Iface IfaceFacts.
Open Scope Z_scope.

#[warnings="-register-all"]
Inductive Json :=
  | JStr (s : list Z)
  | JLit (s : list Z)
  | JArr (l : list Json)
  | JObj (m : list (list Z * Json)).

(** A character of a string; of [true], [false], [null] or a number. *)
Definition plain_char (c : Z) : bool := (32 <=? c) && negb (c =? quote) && negb (c =? chr "\").
Definition lit_char (c : Z) : bool :=
  ((chr "a" <=? c) && (c <=? chr "z")) || ((chr "0" <=? c) && (c <=? chr "9")) ||
  (c =? chr "+") || (c =? chr "-") || (c =? chr ".") || (c =? chr "E").
Definition white_char (c : Z) : bool := is_blank c || (c =? 10) || (c =? 13).

Definition hex_char (c : Z) : bool :=
  ((chr "0" <=? c) && (c <=? chr "9")) || ((chr "a" <=? c) && (c <=? chr "f")) || ((chr "A" <=? c) && (c <=? chr "F")).
Definition escapes (c : Z) : bool := existsb (Z.eqb c) (bytes_of "\/bfnrt").

(** No escape is needed. *)
Definition plain (s : list Z) : Prop := forallb plain_char s = true.

(** The spelling of a string without an escaped quote. *)
Inductive spelled : list Z -> Prop :=
  | pl_end : spelled []
  | pl_char c s : plain_char c = true -> spelled s -> spelled (c :: s)
  | pl_escape e s : escapes e = true -> spelled s -> spelled (chr "\" :: e :: s)
  | pl_code d s : forallb hex_char d = true -> length d = 4%nat -> spelled s -> spelled (chr "\" :: chr "u" :: d ++ s).
Definition white (s : list Z) : Prop := forallb white_char s = true.
Definition blank (s : list Z) : Prop := forallb is_blank s = true.

Definition quoted (s : list Z) : list Z := quote :: s ++ [quote].

Inductive jtext : Json -> list Z -> Prop :=
  | jt_str s : spelled s -> jtext (JStr s) (quoted s)
  | jt_lit s : s <> [] -> forallb lit_char s = true -> jtext (JLit s) s
  | jt_arr l b : jitems l b -> jtext (JArr l) (chr "[" :: b ++ [chr "]"])
  | jt_obj m b : jmembers m b -> jtext (JObj m) (chr "{" :: b ++ [chr "}"])
with jitems : list Json -> list Z -> Prop :=
  | ji_none w : white w -> jitems [] w
  | ji_last w1 v t w2 : white w1 -> white w2 -> jtext v t -> jitems [v] (w1 ++ t ++ w2)
  | ji_more w1 v t w2 v' l b :
      white w1 -> white w2 -> jtext v t -> jitems (v' :: l) b ->
      jitems (v :: v' :: l) (w1 ++ t ++ w2 ++ chr "," :: b)
with jmembers : list (list Z * Json) -> list Z -> Prop :=
  | jm_none w : white w -> jmembers [] w
  | jm_last w1 k b1 b2 v t w2 :
      white w1 -> white w2 -> spelled k -> blank b1 -> blank b2 -> jtext v t ->
      jmembers [(k, v)] (w1 ++ quoted k ++ b1 ++ chr ":" :: b2 ++ t ++ w2)
  | jm_more w1 k b1 b2 v t w2 kv m b :
      white w1 -> white w2 -> spelled k -> blank b1 -> blank b2 -> jtext v t -> jmembers (kv :: m) b ->
      jmembers ((k, v) :: kv :: m) (w1 ++ quoted k ++ b1 ++ chr ":" :: b2 ++ t ++ w2 ++ chr "," :: b).

Scheme jtext_mut := Induction for jtext Sort Prop
  with jitems_mut := Induction for jitems Sort Prop
  with jmembers_mut := Induction for jmembers Sort Prop.
Combined Scheme json_ind from jtext_mut, jitems_mut, jmembers_mut.

(** ** Characters *)

(** The same as a function. *)
Fixpoint spelling (s : list Z) : bool :=
  match s with
  | [] => true
  | c :: s =>
      if c =? chr "\" then
        match s with
        | e :: s =>
            if e =? chr "u" then
              match s with
              | x1 :: x2 :: x3 :: x4 :: s => forallb hex_char [x1; x2; x3; x4] && spelling s
              | _ => false
              end
            else escapes e && spelling s
        | [] => false
        end
      else plain_char c && spelling s
  end.

Lemma spelling_spelled s : spelling s = true -> spelled s.
Proof.
  remember (length s) as n eqn:Hn. revert s Hn. induction n as [n IH] using lt_wf_ind. intros [|c s] ->; [constructor|].
  cbn [spelling length] in *. destruct (c =? chr "\") eqn:E1; zb.
  2:{ intros [Hc Hs]%andb_prop. apply pl_char; [done|]. by apply (IH (length s)); [lia|done|]. }
  destruct s as [|e s]; [done|]. destruct (e =? chr "u") eqn:E2; zb; subst.
  - destruct s as [|x1 [|x2 [|x3 [|x4 s]]]]; try done. intros [Hd Hs]%andb_prop.
    apply (pl_code [x1; x2; x3; x4]); [done|done|]. by apply (IH (length s)); [cbn [length]; lia|done|].
  - intros [He Hs]%andb_prop. apply pl_escape; [done|]. by apply (IH (length s)); [cbn [length]; lia|done|].
Qed.

Ltac chars := unfold plain_char, lit_char, white_char, is_gap, is_blank, is_bare, is_open, is_close, quote in *; lia.

Lemma plain_spelled s : plain s -> spelled s.
Proof.
  unfold plain. induction s as [|c s IH]; [constructor|]. cbn [forallb]. intros [Hc Hs]%andb_prop. apply pl_char; [done|by apply IH].
Qed.

(** What holds of the characters of a spelling. *)
Lemma spelled_all (P : Z -> Prop) s :
  (forall c, plain_char c = true \/ c = chr "\" \/ c = chr "u" \/ escapes c = true \/ hex_char c = true -> P c) ->
  spelled s -> Forall P s.
Proof.
  intros HP. induction 1 as [|c s Hc Hs IH|e s He Hs IH|d s Hd Hl Hs IH].
  - constructor.
  - constructor; [by apply HP; left|done].
  - constructor; [by apply HP; right; left|]. constructor; [by apply HP; do 3 right; left|done].
  - constructor; [by apply HP; right; left|]. constructor; [by apply HP; do 2 right; left|].
    apply Forall_app. split; [|done]. apply List.Forall_forall. intros c Hc. rewrite forallb_forall in Hd.
    apply HP. do 4 right. by apply Hd.
Qed.

Lemma escapes_in c : escapes c = true -> c ∈ bytes_of "\/bfnrt".
Proof. unfold escapes. intros (x & Hx & ->%Z.eqb_eq)%existsb_exists. by apply list_elem_of_In. Qed.

Lemma spelled_chars s : spelled s -> Forall (fun c => c <> quote /\ c <> 0) s.
Proof.
  apply spelled_all. intros c [Hc|[->|[->|[Hc%escapes_in|Hc]]]]; [|done|done| |].
  - unfold plain_char, quote in *. lia.
  - repeat (apply elem_of_cons in Hc as [->|Hc]; [done|]). by apply not_elem_of_nil in Hc.
  - unfold hex_char, quote in *. lia.
Qed.

Lemma spelled_quote s : spelled s -> quote ∉ s.
Proof. intros H Hin. pose proof (spelled_chars s H) as Hs. rewrite Forall_forall in Hs. by apply Hs in Hin as []. Qed.

Lemma spelled_nonzero s : spelled s -> Forall (fun c => c <> 0) s.
Proof. intros H. eapply Forall_impl; [by apply spelled_chars|]. by intros c []. Qed.

(** ** Scanning *)

(** A character that is no quote and no bracket. *)
Definition mid_char (c : Z) : bool := negb (c =? quote) && negb (is_open c) && negb (is_close c).

Lemma scan_mid d s r : forallb mid_char s = true -> scan_in d false (s ++ r) = scan_in d false r.
Proof.
  induction s as [|c s IH]; cbn [forallb app scan_in]; [done|]. unfold mid_char at 1.
  intros [[[?%negb_true_iff ?%negb_true_iff]%andb_prop ?%negb_true_iff]%andb_prop Hs]%andb_prop.
  by rewrite H, H0, H1, IH.
Qed.

Lemma forallb_impl {A} (f g : A -> bool) l :
  (forall x, f x = true -> g x = true) -> forallb f l = true -> forallb g l = true.
Proof. intros H. rewrite !forallb_forall. auto. Qed.

Lemma white_mid c : white_char c = true -> mid_char c = true.
Proof. unfold mid_char. chars. Qed.
Lemma lit_mid c : lit_char c = true -> mid_char c = true.
Proof. unfold mid_char. chars. Qed.
Lemma blank_mid c : is_blank c = true -> mid_char c = true.
Proof. unfold mid_char. chars. Qed.

Lemma scan_white d s r : white s -> scan_in d false (s ++ r) = scan_in d false r.
Proof. intros H. apply scan_mid. by apply (forallb_impl white_char), H; first apply white_mid. Qed.
Lemma scan_blank d s r : blank s -> scan_in d false (s ++ r) = scan_in d false r.
Proof. intros H. apply scan_mid. by apply (forallb_impl is_blank), H; first apply blank_mid. Qed.

Lemma quoted_app s r : quoted s ++ r = quote :: s ++ quote :: r.
Proof. unfold quoted. simpl. by rewrite <- app_assoc. Qed.

Lemma scan_quoted d s r : spelled s -> scan_in d false (quoted s ++ r) = scan_in d false r.
Proof.
  intros H%spelled_quote. rewrite quoted_app. cbn [scan_in]. rewrite Z.eqb_refl. cbn [negb].
  by rewrite scan_in_str, split_quote_app.
Qed.

Lemma scan_open d c r : is_open c = true -> scan_in d false (c :: r) = scan_in (d + 1) false r.
Proof.
  intros H. cbn [scan_in]. rewrite H. rewrite (proj2 (Z.eqb_neq c quote)); [done|]. by intros ->.
Qed.

Lemma scan_close d c r :
  is_close c = true -> scan_in d false (c :: r) = if d - 1 =? 0 then Some r else scan_in (d - 1) false r.
Proof.
  intros H. cbn [scan_in]. assert (Ho : is_open c = false) by chars. rewrite H, Ho.
  rewrite (proj2 (Z.eqb_neq c quote)); [done|]. by intros ->.
Qed.

Lemma scan_char d c r : mid_char c = true -> scan_in d false (c :: r) = scan_in d false r.
Proof. intros H. apply (scan_mid d [c] r). cbn [forallb]. by rewrite H. Qed.

(** Texts are balanced. *)
Lemma scan_json :
  (forall v t, jtext v t -> forall d r, 0 < d -> scan_in d false (t ++ r) = scan_in d false r) /\
  (forall l b, jitems l b -> forall d r, 0 < d -> scan_in d false (b ++ r) = scan_in d false r) /\
  (forall m b, jmembers m b -> forall d r, 0 < d -> scan_in d false (b ++ r) = scan_in d false r).
Proof.
  apply json_ind; intros.
  - by apply scan_quoted.
  - apply scan_mid. by apply (forallb_impl lit_char); first apply lit_mid.
  - cbn [app]. rewrite scan_open, <- app_assoc, H by (done || lia). cbn [app].
    rewrite scan_close by done. replace (d + 1 - 1) with d by lia.
    by rewrite (proj2 (Z.eqb_neq _ _)) by lia.
  - cbn [app]. rewrite scan_open, <- app_assoc, H by (done || lia). cbn [app].
    rewrite scan_close by done. replace (d + 1 - 1) with d by lia.
    by rewrite (proj2 (Z.eqb_neq _ _)) by lia.
  - by apply scan_white.
  - by rewrite <- !app_assoc, scan_white, H, scan_white.
  - rewrite <- !app_assoc, scan_white, H, scan_white by done. cbn [app].
    by rewrite scan_char, H0 by done.
  - by apply scan_white.
  - rewrite <- !app_assoc, scan_white, scan_quoted, scan_blank by done. cbn [app].
    by rewrite scan_char, <- !app_assoc, scan_blank, H, scan_white by done.
  - rewrite <- !app_assoc, scan_white, scan_quoted, scan_blank by done. cbn [app].
    rewrite scan_char, <- !app_assoc, scan_blank, H, scan_white by done. cbn [app].
    by rewrite scan_char, H0 by done.
Qed.

Lemma scan_brackets c e b r :
  is_open c = true -> is_close e = true ->
  (forall d r, 0 < d -> scan_in d false (b ++ r) = scan_in d false r) ->
  scan_value (c :: b ++ e :: r) = Some r.
Proof.
  intros Hc He Hb. unfold scan_value. rewrite Hc, scan_open, Hb, scan_close by (done || lia).
  rewrite (proj2 (Z.eqb_neq c quote)); [done|]. by intros ->.
Qed.

(** What follows a value: white space, then a comma or a closing bracket. *)
Definition follow (r : list Z) : Prop :=
  exists w c r', r = w ++ c :: r' /\ white w /\ (c =? chr ",") || is_close c = true.

Lemma drop_while_all f w r : forallb f w = true -> drop_while f (w ++ r) = drop_while f r.
Proof.
  induction w as [|c w IH]; cbn [forallb app drop_while]; [done|].
  intros [-> Hw]%andb_prop. by apply IH.
Qed.

Lemma drop_while_stop f c r : f c = false -> drop_while f (c :: r) = c :: r.
Proof. cbn [drop_while]. by intros ->. Qed.

Lemma gap_white w r : white w -> drop_while is_gap (w ++ r) = drop_while is_gap r.
Proof. intros H. apply drop_while_all. apply (forallb_impl white_char); [|done]. intros c. chars. Qed.

(** A value is passed; behind a literal the white space is passed as well. *)
Lemma scan_value_json v t r :
  jtext v t -> follow r ->
  exists r', scan_value (t ++ r) = Some r' /\ suffix r' r /\
    drop_while is_gap r' = drop_while is_gap r /\ (match v with JLit _ => True | _ => r' = r end).
Proof.
  intros Ht (w & c & r1 & -> & Hw & Hc). destruct scan_json as (_ & Hi & Hm).
  destruct Ht as [s Hs|s Hn Hs|l b Hb|m b Hb].
  - exists (w ++ c :: r1). rewrite quoted_app. unfold scan_value. rewrite Z.eqb_refl.
    by rewrite split_quote_app by by apply spelled_quote.
  - exists (c :: r1). split_and!; [|by apply suffix_app_r|by rewrite gap_white|done].
    assert (E : drop_while is_bare (s ++ w ++ c :: r1) = c :: r1).
    { rewrite !drop_while_all.
      - apply drop_while_stop. revert Hc. chars.
      - apply (forallb_impl white_char); [|done]. intros x. chars.
      - apply (forallb_impl lit_char); [|done]. intros x. chars. }
    destruct s as [|a s]; [done|]. cbn [forallb] in Hs. apply andb_prop in Hs as [Ha _].
    unfold scan_value. cbn [app] in *. rewrite E.
    assert (Hq : (a =? quote) = false) by chars. assert (Ho : is_open a = false) by chars.
    by rewrite Hq, Ho.
  - exists (w ++ c :: r1). cbn [app]. rewrite <- app_assoc. cbn [app].
    rewrite scan_brackets; [done..|]. by eapply Hi.
  - exists (w ++ c :: r1). cbn [app]. rewrite <- app_assoc. cbn [app].
    rewrite scan_brackets; [done..|]. by eapply Hm.
Qed.

(** ** Members *)

Fixpoint jget (key : list Z) (m : list (list Z * Json)) : option Json :=
  match m with
  | [] => None
  | (k, v) :: m => if bytes_eqb k key then Some v else jget key m
  end.

(** A text begins with a character that is neither a blank nor a comma. *)
Lemma jtext_head v t : jtext v t -> exists c t', t = c :: t' /\ is_gap c = false /\ is_blank c = false.
Proof.
  destruct 1 as [s Hs|s Hn Hs|l b Hb|m b Hb]; try by eexists _, _.
  destruct s as [|c s]; [done|]. exists c, s. cbn [forallb] in Hs. apply andb_prop in Hs as [Hc _].
  split; [done|]. chars.
Qed.

(** What stands behind the value [v] in front of the others. *)
Lemma rest_last e w r :
  white w -> is_close e = true ->
  follow (w ++ e :: r) /\ drop_while is_gap (w ++ e :: r) = drop_while is_gap ([] ++ e :: r).
Proof.
  intros Hw He. split; [|by rewrite gap_white]. exists w, e, r. rewrite He, orb_true_r. done.
Qed.

Lemma rest_more w b x :
  white w ->
  follow (w ++ chr "," :: b ++ x) /\
  drop_while is_gap (w ++ chr "," :: b ++ x) = drop_while is_gap (b ++ x).
Proof. intros Hw. split; [by exists w, (chr ","), (b ++ x)|]. by rewrite gap_white. Qed.

Lemma members_next k v m b r :
  jmembers ((k, v) :: m) b ->
  exists w b1 b2 t rest b',
    b ++ chr "}" :: r = w ++ quoted k ++ b1 ++ chr ":" :: b2 ++ t ++ rest /\
    white w /\ spelled k /\ blank b1 /\ blank b2 /\ jtext v t /\ follow rest /\ jmembers m b' /\
    drop_while is_gap rest = drop_while is_gap (b' ++ chr "}" :: r).
Proof.
  inversion 1 as [|w1 ? b1 b2 ? t w2 ? ? ? ? ? Ht|w1 ? b1 b2 ? t w2 kv m' b0 ? ? ? ? ? Ht Hb]; subst.
  - destruct (rest_last (chr "}") w2 r) as [Hf Hd]; [done..|].
    exists w1, b1, b2, t, (w2 ++ chr "}" :: r), []. split_and!; try done; [|by constructor].
    by rewrite <- !app_assoc; simpl; rewrite <- !app_assoc.
  - destruct (rest_more w2 b0 (chr "}" :: r)) as [Hf Hd]; [done|].
    exists w1, b1, b2, t, (w2 ++ chr "," :: b0 ++ chr "}" :: r), b0. split_and!; try done.
    by rewrite <- !app_assoc; simpl; rewrite <- !app_assoc.
Qed.

Lemma items_next v l b r :
  jitems (v :: l) b ->
  exists w t rest b',
    b ++ chr "]" :: r = w ++ t ++ rest /\ white w /\ jtext v t /\ follow rest /\ jitems l b' /\
    drop_while is_gap rest = drop_while is_gap (b' ++ chr "]" :: r).
Proof.
  inversion 1 as [|w1 ? t w2 ? ? Ht|w1 ? t w2 v' l' b0 ? ? Ht Hb]; subst.
  - destruct (rest_last (chr "]") w2 r) as [Hf Hd]; [done..|].
    exists w1, t, (w2 ++ chr "]" :: r), []. split_and!; try done; [|by constructor].
    by rewrite <- !app_assoc.
  - destruct (rest_more w2 b0 (chr "]" :: r)) as [Hf Hd]; [done|].
    exists w1, t, (w2 ++ chr "," :: b0 ++ chr "]" :: r), b0. split_and!; try done.
    by rewrite <- !app_assoc; simpl.
Qed.

Lemma no_members b r : jmembers [] b -> drop_while is_gap (b ++ chr "}" :: r) = chr "}" :: r.
Proof. inversion 1. by rewrite gap_white. Qed.

Lemma no_items b r : jitems [] b -> drop_while is_gap (b ++ chr "]" :: r) = chr "]" :: r.
Proof. inversion 1. by rewrite gap_white. Qed.

Lemma key_next_member key w k b1 b2 v t rest x :
  white w -> spelled k -> blank b1 -> blank b2 -> jtext v t ->
  drop_while is_gap x = drop_while is_gap (w ++ quoted k ++ b1 ++ chr ":" :: b2 ++ t ++ rest) ->
  key_next key x = if bytes_eqb k key then inr (Some (t ++ rest))
                   else match scan_value (t ++ rest) with Some l => inl l | None => inr None end.
Proof.
  intros Hw Hk Hb1 Hb2 Ht Hx. unfold key_next. rewrite Hx, gap_white by done.
  rewrite quoted_app. rewrite (drop_while_stop is_gap quote) by done. rewrite Z.eqb_refl.
  rewrite split_quote_app by by apply spelled_quote.
  rewrite (drop_while_all is_blank b1) by done. rewrite drop_while_stop by done.
  rewrite Z.eqb_refl. rewrite (drop_while_all is_blank b2) by done.
  destruct (jtext_head v t Ht) as (c & t' & -> & _ & Hc). cbn [app].
  by rewrite drop_while_stop by done.
Qed.

Lemma walk_members key m : forall b x fuel r,
  jmembers m b -> drop_while is_gap x = drop_while is_gap (b ++ chr "}" :: r) -> (length m < fuel)%nat ->
  match jget key m with
  | Some v => exists t rest, walk (key_next key) None fuel x = Some (t ++ rest) /\ jtext v t /\ follow rest
  | None => walk (key_next key) None fuel x = None
  end.
Proof.
  induction m as [|[k v] m IH]; intros b x fuel r Hm Hx Hf; (destruct fuel as [|fuel]; [simpl in Hf; lia|]).
  - cbn [jget walk]. unfold key_next. by rewrite Hx, no_members by done.
  - destruct (members_next _ _ _ _ r Hm) as (w & b1 & b2 & t & rest & b' & E & Hw & Hk & Hb1 & Hb2 & Ht & Hr & Hm' & Hd).
    rewrite E in Hx. cbn [jget walk]. rewrite (key_next_member key w k b1 b2 v t rest x) by done.
    destruct (bytes_eqb k key); [by exists t, rest|].
    destruct (scan_value_json v t rest Ht Hr) as (r' & -> & _ & Hg & _).
    apply (IH b' r' fuel r Hm'); [by rewrite Hg|simpl in Hf; lia].
Qed.

Lemma json_len :
  (forall v t, jtext v t -> (0 < length t)%nat) /\
  (forall l b, jitems l b -> (length l <= length b)%nat) /\
  (forall m b, jmembers m b -> (length m <= length b)%nat).
Proof.
  apply json_ind; intros; simpl; repeat (rewrite length_app; simpl); simpl in *; try lia.
  destruct s; [done|simpl; lia].
Qed.

(** No character of a text is 0. *)
Lemma chars_nonzero f s : f 0 = false -> forallb f s = true -> Forall (fun c => c <> 0) s.
Proof.
  intros Hf Hs. apply Forall_forall. intros c Hc. rewrite forallb_forall in Hs.
  apply list_elem_of_In, Hs in Hc. congruence.
Qed.

Lemma json_nonzero :
  (forall v t, jtext v t -> Forall (fun c => c <> 0) t) /\
  (forall l b, jitems l b -> Forall (fun c => c <> 0) b) /\
  (forall m b, jmembers m b -> Forall (fun c => c <> 0) b).
Proof.
  apply json_ind; intros; unfold quoted;
    repeat first [ assumption | by apply spelled_nonzero | by apply (chars_nonzero lit_char)
      | by apply (chars_nonzero white_char) | by apply (chars_nonzero is_blank)
      | (apply Forall_app; split) | (apply Forall_cons; split; [done|]) | by constructor ].
Qed.

(** The value of a key in an object: its text, and what follows. *)
Lemma obj_key_json key m t r :
  jtext (JObj m) t ->
  match jget key m with
  | Some v => exists t' rest, obj_key key (t ++ r) = Some (t' ++ rest) /\ jtext v t' /\ follow rest
  | None => obj_key key (t ++ r) = None
  end.
Proof.
  inversion 1 as [| | |m' b Hb]; subst. cbn [app]. rewrite <- app_assoc. cbn [app obj_key].
  rewrite Z.eqb_refl. apply (walk_members key m b _ _ r Hb); [done|].
  destruct json_len as (_ & _ & Hl). apply Hl in Hb. simpl. rewrite length_app. lia.
Qed.

(** ** Strings, lists and records of a value *)

Definition jstr (n : Z) (v : option Json) : option (list Z) :=
  match v with Some (JStr s) => Some (printed n s) | _ => None end.

Lemma str_value_json n v t r : jtext v t -> str_value n (t ++ r) = jstr n (Some v).
Proof.
  unfold str_value. destruct 1 as [s Hs|s Hn Hs|l b Hb|m b Hb]; try done.
  - rewrite quoted_app, drop_while_stop, Z.eqb_refl by done. by rewrite split_quote_app by by apply spelled_quote.
  - destruct s as [|c s]; [done|]. cbn [forallb] in Hs. apply andb_prop in Hs as [Hc _].
    cbn [app]. rewrite drop_while_stop by chars. assert (Hq : (c =? quote) = false) by chars. by rewrite Hq.
Qed.

Lemma key_str_json n key m t r :
  jtext (JObj m) t -> key_str n key (t ++ r) = jstr n (jget key m).
Proof.
  intros Ht. unfold key_str. pose proof (obj_key_json key m t r Ht) as H.
  destruct (jget key m) as [v|]; [|by rewrite H].
  destruct H as (t' & rest & -> & Hv & _). by apply str_value_json.
Qed.

Lemma item_head v t w rest x :
  white w -> jtext v t -> drop_while is_gap x = drop_while is_gap (w ++ t ++ rest) ->
  drop_while is_gap x = t ++ rest.
Proof.
  intros Hw Ht ->. rewrite gap_white by done. destruct (jtext_head v t Ht) as (c & t' & -> & Hc & _).
  cbn [app]. by rewrite drop_while_stop.
Qed.

(** A loop over the items of an array: [pick] is what an item adds, [None] ends
    the loop; at most [n] are taken. *)
Section Items.
Context {A : Type} (next : list Z * list A -> list Z * list A + list A) (pick : Json -> option (list A)) (n : Z).

Fixpoint lead (l : list Json) : list A :=
  match l with
  | v :: l => match pick v with Some xs => xs ++ lead l | None => [] end
  | [] => []
  end.

Hypothesis (Hpick : forall v xs, pick v = Some xs -> (length xs <= 1)%nat).
Hypothesis (Hend : forall x acc r, drop_while is_gap x = chr "]" :: r -> next (x, acc) = inr acc).
Hypothesis (Hnext : forall v t rest x acc,
  jtext v t -> drop_while is_gap x = t ++ rest ->
  next (x, acc) = if zlen acc <? n
                  then match pick v with Some xs => inl (rest, acc ++ xs) | None => inr acc end
                  else inr acc).

Lemma walk_items l : forall b x acc fuel r,
  jitems l b -> drop_while is_gap x = drop_while is_gap (b ++ chr "]" :: r) ->
  (length l < fuel)%nat -> zlen acc <= n ->
  walk next [] fuel (x, acc) = take (Z.to_nat n) (acc ++ lead l).
Proof using Hpick Hend Hnext.
  induction l as [|v l IH]; intros b x acc fuel r Hl Hx Hf Ha; (destruct fuel as [|fuel]; [simpl in Hf; lia|]).
  - cbn [walk lead]. rewrite no_items in Hx by done. rewrite (Hend _ _ _ Hx), app_nil_r.
    rewrite take_ge; [done|]. unfold zlen in Ha. lia.
  - destruct (items_next _ _ _ r Hl) as (w & t & rest & b' & E & Hw & Ht & Hr & Hl' & Hd).
  rewrite E in Hx. apply (item_head v t w rest) in Hx; [|done..]. cbn [walk lead].
    rewrite (Hnext v t rest x acc Ht Hx). destruct (zlen acc <? n) eqn:En; zb.
    + destruct (pick v) as [xs|] eqn:Ep.
      * rewrite app_assoc. apply (IH b' rest (acc ++ xs) fuel r Hl' Hd); [simpl in Hf; lia|].
        apply Hpick in Ep. rewrite zlen_app. unfold zlen in *. lia.
      * rewrite app_nil_r, take_ge; [done|]. unfold zlen in Ha. lia.
    + rewrite take_app_le by (unfold zlen in *; lia). rewrite take_ge; [done|]. unfold zlen in Ha. lia.
Qed.

Lemma list_of_items l b :
  0 <= n -> jitems l b -> list_of next (b ++ [chr "]"]) = take (Z.to_nat n) (lead l).
Proof using Hpick Hend Hnext.
  intros Hn Hb. unfold list_of. apply (walk_items l b _ [] _ [] Hb); [done| |by rewrite zlen_nil].
  destruct json_len as (_ & Hl & _). apply Hl in Hb. rewrite length_app. simpl. lia.
Qed.
End Items.

Definition pick_param (v : Json) : option (list (list Z)) :=
  match v with JStr s => Some [printed 128 s] | _ => None end.

Definition jfield (m : list (list Z * Json)) : option (list Z * list Z) :=
  match jstr 128 (jget (bytes_of "name") m) with
  | Some fn => Some (bare_name fn, default [] (jstr 128 (jget (bytes_of "type") m)))
  | None => None
  end.
Definition pick_field (v : Json) : option (list (list Z * list Z)) :=
  match v with JObj m => Some (option_list (jfield m)) | _ => None end.

(** The first character tells the kind of a value. *)
Lemma jtext_first v t :
  jtext v t -> exists c t', t = c :: t' /\
    (c =? quote) = (match v with JStr _ => true | _ => false end) /\
    (c =? chr "{") = (match v with JObj _ => true | _ => false end) /\
    (c =? chr "[") = (match v with JArr _ => true | _ => false end).
Proof.
  destruct 1 as [s Hs|s Hn Hs|l b Hb|m b Hb]; try by eexists _, _.
  destruct s as [|c s]; [done|]. exists c, s. cbn [forallb] in Hs. apply andb_prop in Hs as [Hc _].
  split; [done|]. chars.
Qed.

Lemma split_json c e b r :
  is_open c = true -> is_close e = true ->
  (forall d r, 0 < d -> scan_in d false (b ++ r) = scan_in d false r) ->
  split_value (c :: b ++ e :: r) = Some (c :: b ++ [e], r).
Proof.
  intros Hc He Hb. unfold split_value. rewrite scan_brackets by done.
  replace (c :: b ++ e :: r) with ((c :: b ++ [e]) ++ r) by (simpl; by rewrite <- app_assoc).
  by rewrite length_app, Nat.add_sub, take_app_length.
Qed.

Lemma split_obj m t r : jtext (JObj m) t -> split_value (t ++ r) = Some (t, r).
Proof.
  inversion 1; subst. cbn [app]. rewrite <- app_assoc. cbn [app].
  apply split_json; [done..|]. destruct scan_json as (_ & _ & Hm). by eapply Hm.
Qed.

Lemma list_params l b :
  jitems l b -> list_of param_next (b ++ [chr "]"]) = take 64 (lead pick_param l).
Proof.
  apply (list_of_items param_next pick_param TKC_MAX_TKI_PARAMS); [| | |done].
  - intros [] xs; try done. by intros [= <-].
  - intros x acc r Hx. unfold param_next. rewrite Hx. by case_match.
  - intros v t rest x acc Ht Hx. unfold param_next. rewrite Hx. destruct (zlen acc <? _); [|done].
    pose proof (jtext_first v t Ht) as (c & t' & -> & Hc & _). cbn [app]. rewrite Hc.
    pose proof (str_value_json 128 v _ rest Ht) as Hs. cbn [app] in Hs. rewrite Hs.
    destruct v as [s| | |]; try done. inversion Ht as [? Hp Hq| | |]; subst. cbn [jstr pick_param].
    change (scan_value (quote :: (s ++ [quote]) ++ rest)) with (option_map snd (split_quote ((s ++ [quote]) ++ rest))).
    rewrite <- app_assoc. cbn [app]. by rewrite split_quote_app by by apply spelled_quote.
Qed.

Lemma field_of_json m t : jtext (JObj m) t -> field_of t = jfield m.
Proof.
  intros Ht. unfold field_of, jfield. rewrite <- (app_nil_r t).
  by rewrite !(key_str_json _ _ m t []) by done.
Qed.

Lemma list_fields l b :
  jitems l b -> list_of field_next (b ++ [chr "]"]) = take 64 (lead pick_field l).
Proof.
  apply (list_of_items field_next pick_field TKC_MAX_TKI_FIELDS); [| | |done].
  - intros [] xs; try done. intros [= <-]. destruct (jfield m); simpl; lia.
  - intros x acc r Hx. unfold field_next. rewrite Hx. by case_match.
  - intros v t rest x acc Ht Hx. unfold field_next. rewrite Hx. destruct (zlen acc <? _); [|done].
    pose proof (jtext_first v t Ht) as (c & t' & E & _ & Hc & _). rewrite E. cbn [app]. rewrite Hc.
    destruct v as [| | |m]; try done. cbn [pick_field]. rewrite app_comm_cons, <- E.
    rewrite (split_obj m t rest Ht). by rewrite (field_of_json m t Ht).
Qed.

(** ** Records *)

Definition jparams (m : list (list Z * Json)) : option (list (list Z)) :=
  match jget (bytes_of "params") m with
  | Some (JArr l) => Some (take 64 (lead pick_param l))
  | _ => None
  end.
Definition jfields (m : list (list Z * Json)) : list (list Z * list Z) :=
  match jget (bytes_of "fields") m with Some (JArr l) => take 64 (lead pick_field l) | _ => [] end.
Definition jis_sum (m : list (list Z * Json)) : bool :=
  match jget (bytes_of "is_sum") m with Some (JLit s) => starts_with (bytes_of "true") s | _ => false end.
Definition jret (m : list (list Z * Json)) : list Z :=
  match jget (bytes_of "error") m with
  | Some _ => []
  | None => default [] (jstr 128 (jget (bytes_of "return") m))
  end.

(** What a record declares. *)
Definition jentry (alias : option (list Z)) (m : list (list Z * Json)) : option Entry :=
  match jstr 32 (jget (bytes_of "kind") m), jstr 128 (jget (bytes_of "name") m) with
  | Some kind, Some name =>
      if bytes_eqb kind (bytes_of "func") then
        option_map (fun a => EFunc (mkIFunc a name (last_seg name) (jret m) (jparams m))) alias
      else if bytes_eqb kind (bytes_of "type") then Some (EType (mkIType name (jis_sum m) (jfields m)))
      else None
  | _, _ => None
  end.

Lemma array_of_json v t r :
  jtext v t ->
  match v with
  | JArr l => exists b, jitems l b /\ array_of (Some (t ++ r)) = Some (b ++ [chr "]"])
  | _ => array_of (Some (t ++ r)) = None
  end.
Proof.
  intros Ht. pose proof (jtext_first v t Ht) as (c & t' & E & _ & _ & Hc).
  destruct v as [s|s|l|m]; [| |inversion Ht as [| |? b Hb|]|]; subst.
  - unfold array_of. cbn [app]. by rewrite Hc.
  - unfold array_of. cbn [app]. by rewrite Hc.
  - exists b. split; [done|]. cbn [app]. rewrite <- app_assoc. cbn [app]. unfold array_of.
    rewrite Z.eqb_refl, split_json; [done..|]. destruct scan_json as (_ & Hi & _). by eapply Hi.
  - unfold array_of. cbn [app]. by rewrite Hc.
Qed.

(** The loop over an array under a key. *)
Lemma key_list_json {A} (next : list Z * list A -> list Z * list A + list A) (pick : Json -> option (list A)) key m t :
  (forall l b, jitems l b -> list_of next (b ++ [chr "]"]) = take 64 (lead pick l)) ->
  jtext (JObj m) t ->
  option_map (list_of next) (array_of (obj_key key t))
  = match jget key m with Some (JArr l) => Some (take 64 (lead pick l)) | _ => None end.
Proof.
  intros Hl Ht. pose proof (obj_key_json key m t [] Ht) as H. rewrite app_nil_r in H.
  destruct (jget key m) as [v|]; [|by rewrite H]. destruct H as (t' & rest & -> & Hv & _).
  pose proof (array_of_json v t' rest Hv) as Ha.
  destruct v as [s|s|l|m']; [by rewrite Ha| | |by rewrite Ha]; [by rewrite Ha|].
  destruct Ha as (b & Hb & ->). cbn [option_map]. by rewrite (Hl l b Hb).
Qed.

Lemma is_sum_json m t : jtext (JObj m) t -> rec_is_sum t = jis_sum m.
Proof.
  intros Ht. unfold rec_is_sum, jis_sum. pose proof (obj_key_json (bytes_of "is_sum") m t [] Ht) as H.
  rewrite app_nil_r in H. destruct (jget (bytes_of "is_sum") m) as [v|]; [|by rewrite H].
  destruct H as (t' & rest & -> & Hv & w & c & r & -> & Hw & Hc).
  destruct Hv as [s Hs|s Hn Hs|l b Hb|m' b Hb]; try done.
  assert (Ha : forall x k, forallb lit_char k = true -> lit_char x = false -> x ∉ k).
  { intros x k Hk Hx Hin. rewrite forallb_forall in Hk. apply list_elem_of_In, Hk in Hin. congruence. }
  assert (Hx : exists x y, w ++ c :: r = x :: y /\ lit_char x = false).
  { destruct w as [|x w]; [exists c, r; split; [done|]; revert Hc; chars|].
    cbn [forallb] in Hw. apply andb_prop in Hw as [Hx _]. exists x, (w ++ c :: r). split; [done|]. chars. }
  destruct Hx as (x & y & -> & Hx).
  assert (Hw' : x ∉ bytes_of "true") by by apply Ha.
  generalize (bytes_of "true") Hw'. clear -Hx. intros k. revert k.
  induction s as [|a s IH]; intros [|d k]; cbn [starts_with app]; try done.
  - rewrite not_elem_of_cons. intros [Hd _]. by rewrite (proj2 (Z.eqb_neq _ _)) by done.
  - rewrite not_elem_of_cons. intros [_ Hk]. by rewrite IH.
Qed.

Lemma entry_of_json alias m t : jtext (JObj m) t -> entry_of alias t = jentry alias m.
Proof.
  intros Ht. unfold entry_of, jentry.
  assert (Hk : forall n key, key_str n key t = jstr n (jget key m)).
  { intros n key. rewrite <- (app_nil_r t). by apply key_str_json. }
  rewrite !Hk, (is_sum_json m t Ht). unfold rec_params, rec_fields, jparams, jfields.
  rewrite (key_list_json _ _ _ m t list_params Ht), (key_list_json _ _ _ m t list_fields Ht).
  assert (Hr : rec_ret t = jret m).
  { unfold rec_ret, jret. pose proof (obj_key_json (bytes_of "error") m t [] Ht) as H.
    rewrite app_nil_r in H. destruct (jget (bytes_of "error") m) as [v|].
    - by destruct H as (t' & rest & -> & _).
    - by rewrite H, Hk. }
  rewrite Hr. destruct (jstr 32 _) as [kind|]; [|done]. destruct (jstr 128 _) as [name|]; [|done].
  destruct (bytes_eqb kind (bytes_of "func")); [by destruct alias|].
  destruct (bytes_eqb kind (bytes_of "type")); [|done].
  by destruct (jget (bytes_of "fields") m) as [[]|].
Qed.

(** ** Files *)

(** The objects at the head of an array. *)
Fixpoint lead_objs (l : list Json) : list (list (list Z * Json)) :=
  match l with JObj m :: l => m :: lead_objs l | _ => [] end.

Lemma walk_objects alias l : forall b x acc fuel r,
  jitems l b -> drop_while is_gap x = drop_while is_gap (b ++ chr "]" :: r) -> (length l < fuel)%nat ->
  omap (entry_of alias) (walk object_next [] fuel (x, acc))
  = omap (entry_of alias) acc ++ omap (jentry alias) (lead_objs l).
Proof.
  induction l as [|v l IH]; intros b x acc fuel r Hl Hx Hf; (destruct fuel as [|fuel]; [simpl in Hf; lia|]).
  - rewrite no_items in Hx by done. cbn [walk]. unfold object_next. rewrite Hx. simpl. by rewrite app_nil_r.
  - destruct (items_next _ _ _ r Hl) as (w & t & rest & b' & E & Hw & Ht & Hr & Hl' & Hd).
    rewrite E in Hx. apply (item_head v t w rest) in Hx; [|done..]. cbn [walk]. unfold object_next at 1.
    rewrite Hx. pose proof (jtext_first v t Ht) as (c & t' & Et & _ & Hc & _). rewrite Et. cbn [app].
    rewrite Hc. destruct v as [s|s|l0|m]; try by rewrite app_nil_r.
    rewrite app_comm_cons, <- Et, (split_obj m t rest Ht).
    rewrite (IH b' rest (acc ++ [t]) fuel r Hl' Hd) by (simpl in Hf; lia).
    rewrite omap_app, <- app_assoc. f_equal. cbn [lead_objs]. simpl.
    rewrite (entry_of_json alias m t Ht). by destruct (jentry alias m).
Qed.

(** The first occurrence is at or before a given one. *)
Lemma starts_with_here w r : starts_with w (w ++ r) = true.
Proof. induction w as [|c w IH]; [done|]. cbn [starts_with app]. by rewrite Z.eqb_refl. Qed.

Lemma find_sub_in w a r : exists i, find_sub w (a ++ w ++ r) = Some i /\ 0 <= i <= zlen a.
Proof.
  induction a as [|c a (i & E & Hi)].
  - exists 0. split; [|done]. cbn [app].
    pose proof (starts_with_here w r) as H. destruct (w ++ r); cbn [find_sub]; by rewrite H.
  - cbn [app find_sub]. destruct (starts_with w (c :: a ++ w ++ r)).
    + exists 0. split; [done|]. pose proof (zlen_nonneg (c :: a)). lia.
    + rewrite E. exists (1 + i). rewrite zlen_cons. split; [done|]. lia.
Qed.

Definition exports : list Z := bytes_of "exports".

(** A member that is passed: a string, without an opening bracket. *)
Definition passed (kv : list Z * Json) : Prop :=
  (chr "[" ∉ fst kv) /\ match snd kv with JStr s => chr "[" ∉ s | _ => False end.

Lemma no_bracket f k : forallb f k = true -> f (chr "[") = false -> chr "[" ∉ k.
Proof.
  intros Hk Hf Hin. rewrite forallb_forall in Hk. apply list_elem_of_In, Hk in Hin. congruence.
Qed.

Lemma white_bracket k : white k -> chr "[" ∉ k.
Proof. intros H. by apply (no_bracket white_char). Qed.
Lemma blank_bracket k : blank k -> chr "[" ∉ k.
Proof. intros H. by apply (no_bracket is_blank). Qed.

Lemma quoted_bracket s : chr "[" ∉ s -> chr "[" ∉ quoted s.
Proof.
  intros H. unfold quoted. rewrite not_elem_of_cons, not_elem_of_app, list_elem_of_singleton. done.
Qed.

Lemma members_exports before l after : forall b r,
  jmembers (before ++ (exports, JArr l) :: after) b -> Forall passed before ->
  exists pre b1 b2 bi rest,
    b ++ chr "}" :: r = pre ++ quoted exports ++ b1 ++ chr ":" :: b2 ++ chr "[" :: bi ++ chr "]" :: rest /\
    (chr "[" ∉ pre) /\ blank b1 /\ blank b2 /\ jitems l bi.
Proof.
  induction before as [|[k v] before IH]; intros b r Hm Hp.
  - destruct (members_next _ _ _ _ r Hm) as (w & b1 & b2 & t & rest & b' & -> & Hw & Hk & Hb1 & Hb2 & Ht & _).
    inversion Ht as [| |? bi Hbi|]; subst. exists w, b1, b2, bi, rest. split_and!; try done.
    + cbn [app]. by rewrite <- app_assoc.
    + by apply white_bracket.
  - apply Forall_cons in Hp as [[Hk1 Hv] Hp]. cbn [fst snd app] in *. destruct v as [s| | |]; try done.
    inversion Hm as [|? ? ? ? ? ? ? ? ? ? ? ? ? E|w1 ? c1 c2 ? t w2 kv m b0 Hw1 Hw2 Hk Hc1 Hc2 Ht Hb0 E];
      subst; [by destruct before|].
    assert (Hm' : jmembers (before ++ (exports, JArr l) :: after) b0) by congruence.
    destruct (IH b0 r Hm' Hp) as (pre & b1 & b2 & bi & rest & Eb & Hpre & Hrest).
    inversion Ht; subst. exists (w1 ++ quoted k ++ c1 ++ chr ":" :: c2 ++ quoted s ++ w2 ++ chr "," :: pre), b1, b2, bi, rest.
    split_and!; try apply Hrest.
    + repeat (progress (rewrite <- ?app_assoc; cbn [app])). by rewrite Eb.
    + apply white_bracket in Hw1, Hw2. apply blank_bracket in Hc1, Hc2. apply quoted_bracket in Hk1, Hv.
      rewrite !not_elem_of_app, !not_elem_of_cons, !not_elem_of_app, !not_elem_of_cons. done.
Qed.

Lemma index_app c k r : c ∉ k -> index c (k ++ c :: r) = Some (zlen k).
Proof.
  induction k as [|d k IH]; cbn [app index]; [by rewrite Z.eqb_refl|].
  rewrite not_elem_of_cons. intros [Hd Hk]. rewrite (proj2 (Z.eqb_neq _ _)) by congruence.
  rewrite IH by done. cbn [option_map]. by rewrite zlen_cons.
Qed.

(** The text in front of the key [exports]: an earlier bracket is not taken for that
    of the array, either because there is none, or because the key is not spelled
    earlier. *)
Definition clear (head : list Z) : Prop :=
  (chr "[" ∉ head) \/ find_sub (quoted exports) (head ++ quoted exports) = Some (zlen head).

Lemma starts_with_long w x r : (length w <= length x)%nat -> starts_with w (x ++ r) = starts_with w x.
Proof.
  revert x. induction w as [|c w IH]; intros [|d x] H; cbn [length] in H; cbn [starts_with app]; (done || lia || idtac).
  destruct (c =? d); [|done]. apply IH. lia.
Qed.

Lemma find_sub_app w x r i : find_sub w x = Some i -> find_sub w (x ++ r) = Some i.
Proof.
  revert i. induction x as [|c x IH]; intros i.
  - destruct w as [|d w]; [|done]. by destruct r.
  - intros H. pose proof (find_sub_end _ _ _ H) as Hl.
    assert (Hs : starts_with w (c :: x ++ r) = starts_with w (c :: x)) by (apply (starts_with_long w (c :: x) r); unfold zlen in *; lia).
    cbn [find_sub app] in *. rewrite Hs. destruct (starts_with w (c :: x)); [done|].
    destruct (find_sub w x) as [k|]; [|done]. by rewrite (IH k).
Qed.

(** The records of an array under the key [exports], whatever stands in front of it
    and behind. *)
Lemma entries_array alias head b1 b2 l t tail :
  clear head -> blank b1 -> blank b2 -> jtext (JArr l) t ->
  entries alias (head ++ quoted exports ++ b1 ++ chr ":" :: b2 ++ t ++ tail) = omap (jentry alias) (lead_objs l).
Proof.
  intros Hc H1 H2 Ht. inversion Ht as [| |? bi Hi|]; subst. set (c := b1 ++ chr ":" :: b2).
  replace (head ++ _) with (head ++ quoted exports ++ c ++ chr "[" :: bi ++ chr "]" :: tail).
  2:{ unfold c. repeat (progress (rewrite <- ?app_assoc; cbn [app])). done. }
  unfold entries, objects, exports_text. fold exports. fold (quoted exports).
  assert (Hf : exists i, find_sub (quoted exports) (head ++ quoted exports ++ c ++ chr "[" :: bi ++ chr "]" :: tail) = Some i /\
            0 <= i <= zlen head /\ (chr "[" ∉ drop (Z.to_nat i) head)).
  { destruct Hc as [Hb|Hfirst].
    - destruct (find_sub_in (quoted exports) head (c ++ chr "[" :: bi ++ chr "]" :: tail)) as (i & Ei & Hi').
      exists i. split_and!; [done|lia|lia|]. intros Hin. apply Hb. rewrite <- (take_drop (Z.to_nat i) head). apply elem_of_app. by right.
    - exists (zlen head). pose proof (zlen_nonneg head). split_and!; [|lia|lia|].
      + rewrite app_assoc. by apply find_sub_app.
      + unfold zlen. rewrite Nat2Z.id, drop_all. apply not_elem_of_nil. }
  destruct Hf as (i & Ei & Hi' & Hb). rewrite Ei, drop_app_le by (unfold zlen in *; lia).
  rewrite (app_assoc (quoted exports)), app_assoc, index_app; cycle 1.
  { apply blank_bracket in H1, H2. rewrite !not_elem_of_app. split_and!; [done|by apply quoted_bracket, (no_bracket lit_char)|].
    unfold c. by rewrite not_elem_of_app, not_elem_of_cons. }
  set (k := drop (Z.to_nat i) head ++ quoted exports ++ c). cbn [option_map].
  replace (drop _ _) with (bi ++ chr "]" :: tail).
  2:{ unfold zlen. rewrite Nat2Z.id. rewrite (app_assoc k [chr "["] (bi ++ _) : k ++ chr "[" :: bi ++ _ = _).
      rewrite drop_app_length'; [done|]. rewrite length_app. simpl. lia. }
  unfold list_of. rewrite (walk_objects alias l bi _ [] _ tail Hi); [done..|].
  destruct json_len as (_ & Hl & _). apply Hl in Hi. rewrite length_app. lia.
Qed.

(** A file of a JSON object, with strings without a bracket in front of [exports]. *)
Lemma entries_json alias before l after w t tail :
  white w -> jtext (JObj (before ++ (exports, JArr l) :: after)) t -> Forall passed before ->
  entries alias (w ++ t ++ tail) = omap (jentry alias) (lead_objs l).
Proof.
  intros Hw Ht Hp. inversion Ht as [| | |m b Hb]; subst. cbn [app]. rewrite <- app_assoc. cbn [app].
  destruct (members_exports before l after b tail Hb Hp) as (pre & b1 & b2 & bi & rest & E & Hpre & H1 & H2 & Hi).
  rewrite E, <- (entries_array alias (w ++ chr "{" :: pre) b1 b2 l (chr "[" :: bi ++ [chr "]"]) rest); [|left|done|done|by constructor].
  - f_equal. repeat (progress (rewrite <- ?app_assoc; cbn [app])). done.
  - apply white_bracket in Hw. by rewrite not_elem_of_app, not_elem_of_cons.
Qed.
