(* ===== verification/Ir.v ===== *)
(** * Interface files: the writer, [src/src/ir.c]

    [emit_interface] walks the declarations at the top of a tree and writes their
    names and types as JSON.  The stream is the list of the bytes written. *)

From Stdlib Require Import ZArith Lia String Ascii.
From stdpp Require Import base tactics list.
From S2P Require Import Prelude CStr Diag Lexer Ast Parser.
Open Scope Z_scope.

Definition E9001 : Z := 9001.
Definition MAX_FIELD_NODES : Z := 64.

Definition OM (A : Type) : Type := M (list Z) A.

(** A literal of the code: an apostrophe stands for a quote, a bar for a newline. *)
Definition lit (s : string) : list Z :=
  map (fun c => if c =? chr "'" then 34 else if c =? chr "|" then 10 else c) (bytes_of s).

Definition fputs (s : list Z) : OM unit := modify (fun o => o ++ s).

(** ** Strings *)

Definition hex_digit (d : Z) : Z := if d <? 10 then chr "0" + d else chr "a" + (d - 10).

Definition json_char (c : Z) : list Z :=
  if c =? 34 then lit "\'"
  else if c =? chr "\" then lit "\\"
  else if c =? 10 then lit "\n"
  else if c =? 13 then lit "\r"
  else if c =? 9 then lit "\t"
  else if c <? 32 then lit "\u00" ++ [hex_digit (c / 16); hex_digit (c mod 16)]
  else [c].

Fixpoint json_str (s : list Z) : OM unit :=
  match s with
  | [] => ret tt
  | c :: s => do! fputs (json_char c); json_str s
  end.

Section Writer.
Context (src : list Z).

Definition tok_copy (n : Node) (size : Z) : OM (list Z) :=
  let len := if n_tok_len n <? size - 1 then n_tok_len n else size - 1 in
  do s <- rd_range src (n_tok_start n) len;
  ret (until_nul s).

(** ** The module path *)

(** The identifiers with points between them; a character behind the buffer is
    never written. *)
Fixpoint path_parts (size : Z) (ids : list Node) (buf : list Z) : OM (list Z) :=
  match ids with
  | [] => ret buf
  | id :: ids =>
      if zlen buf <? size - 1 then
        let buf := if (0 <? zlen buf) && (zlen buf <? size - 2) then buf ++ [chr "."] else buf in
        let len := if n_tok_len id <? size - 1 - zlen buf then n_tok_len id else size - 1 - zlen buf in
        do s <- rd_range src (n_tok_start id) len;
        if zlen buf + len <? size then path_parts size ids (buf ++ s) else oob
      else ret buf
  end.

Definition collect_module_path (ast : Node) (size : Z) : OM (list Z) :=
  match find (has_kind NODE_MODULE_PATH)
          (concat (map n_children (List.filter (has_kind NODE_MODULE) (n_children ast)))) with
  | Some mp => do b <- path_parts size (n_children mp) []; ret (until_nul b)
  | None => ret []
  end.

(** ** Types *)

Fixpoint render_type_node (n : Node) (size : Z) : OM (list Z) :=
  if size <=? 1 then ret []
  else
    match n_kind n with
    | NODE_ARRAY_TYPE =>
        do e <- match n_children n with e :: _ => render_type_node e 128 | [] => ret [] end;
        ret (printed size (chr "[" :: e ++ [chr "]"]))
    | NODE_MAP_TYPE =>
        do k <- match n_children n with k :: _ => render_type_node k 128 | [] => ret [] end;
        do v <- match n_children n with _ :: v :: _ => render_type_node v 128 | _ => ret [] end;
        ret (printed size (chr "[" :: k ++ chr ":" :: v ++ [chr "]"]))
    | NODE_PTR_TYPE =>
        do e <- match n_children n with e :: _ => render_type_node e 128 | [] => ret [] end;
        ret (printed size (chr "*" :: e))
    | _ =>
        do t <- tok_copy n 128;
        ret (printed size (match t with c :: t' => if c =? chr "$" then t' else t | [] => t end))
    end.

(** ** Functions *)

Definition put_string (s : list Z) : OM unit := do! fputs [34]; do! json_str s; fputs [34].

(** A parameter is written when it has a type. *)
Fixpoint put_params (chs : list Node) (first : bool) : OM unit :=
  match chs with
  | [] => ret tt
  | c :: chs =>
      match n_kind c, n_children c with
      | NODE_PARAM, _ :: t :: _ =>
          do s <- render_type_node t 128;
          do! (if first then ret tt else fputs (lit ", "));
          do! put_string s;
          put_params chs false
      | _, _ => put_params chs first
      end
  end.

(** The first result with a type: the type, and that of the error. *)
Fixpoint return_spec (chs : list Node) : option (Node * option Node) :=
  match chs with
  | [] => None
  | c :: chs =>
      match n_kind c, n_children c with
      | NODE_RETURN_SPEC, t :: rest => Some (t, head rest)
      | _, _ => return_spec chs
      end
  end.

Definition put_func (top name : Node) (rest : list Node) (first : bool) : OM unit :=
  do nbuf <- tok_copy name 128;
  do! (if first then ret tt else fputs (lit ","));
  do! fputs (lit "|    {'kind': 'func', 'name': '");
  do! json_str nbuf;
  do! fputs (lit "', ");
  do! (if existsb (has_kind NODE_STMT_LIST) (n_children top) then ret tt
       else fputs (lit "'extern': true, "));
  do! fputs (lit "'params': [");
  do! put_params rest true;
  do! fputs (lit "], 'return': '");
  do tbuf <- match return_spec rest with
             | Some (t, _) => render_type_node t 128
             | None => ret (bytes_of "void")
             end;
  do! json_str tbuf;
  do! fputs (lit "'");
  do! match return_spec rest with
      | Some (_, Some e) =>
          do ebuf <- render_type_node e 256;
          do! fputs (lit ", 'error': '");
          do! json_str ebuf;
          fputs (lit "'")
      | _ => ret tt
      end;
  fputs (lit "}").

(** ** Types *)

Fixpoint fields_below (chs : list Node) (acc : list Node) : list Node :=
  match chs with
  | [] => acc
  | c :: chs =>
      if zlen acc <? MAX_FIELD_NODES then
        fields_below chs (if has_kind NODE_FIELD c then acc ++ [c] else acc)
      else acc
  end.

(** The fields, at most 64. *)
Fixpoint field_nodes (chs : list Node) (acc : list Node) : list Node :=
  match chs with
  | [] => acc
  | c :: chs =>
      if zlen acc <? MAX_FIELD_NODES then
        field_nodes chs
          (match n_kind c with
           | NODE_FIELD => acc ++ [c]
           | NODE_STMT_LIST => fields_below (n_children c) acc
           | _ => acc
           end)
      else acc
  end.

(** A [$] before the name. *)
Definition is_variant (f : Node) : OM bool :=
  if 0 <? n_tok_start f then do c <- rd src (n_tok_start f - 1); ret (c =? chr "$") else ret false.

Fixpoint any_variant (fs : list Node) : OM bool :=
  match fs with
  | [] => ret false
  | f :: fs => do v <- is_variant f; if v then ret true else any_variant fs
  end.

Fixpoint put_fields (is_sum : bool) (fs : list Node) (first : bool) : OM unit :=
  match fs with
  | [] => ret tt
  | f :: fs =>
      do fn <- tok_copy f 128;
      do ft <- match n_children f with t :: _ => render_type_node t 128 | [] => ret (bytes_of "i64") end;
      do! (if first then ret tt else fputs (lit ", "));
      do! fputs (lit "{'name': '");
      do v <- (if is_sum then is_variant f else ret false);
      do! (if v : bool then fputs (lit "$") else ret tt);
      do! json_str fn;
      do! fputs (lit "', 'type': '");
      do! json_str ft;
      do! fputs (lit "'}");
      put_fields is_sum fs false
  end.

Definition put_type (name : Node) (rest : list Node) (first : bool) : OM unit :=
  do nbuf <- tok_copy name 128;
  do! (if first then ret tt else fputs (lit ","));
  let fs := field_nodes rest [] in
  do is_sum <- any_variant fs;
  do! fputs (lit "|    {'kind': 'type', 'name': '");
  do! json_str nbuf;
  do! fputs (if is_sum : bool then lit "', 'is_sum': true, 'fields': [" else lit "', 'fields': [");
  do! put_fields is_sum fs true;
  fputs (lit "]}").

Definition put_const (name : Node) (rest : list Node) (first : bool) : OM unit :=
  do nbuf <- tok_copy name 128;
  do! (if first then ret tt else fputs (lit ","));
  do! fputs (lit "|    {'kind': 'const', 'name': '");
  do! json_str nbuf;
  do! fputs (lit "', 'type': '");
  do ty <- match rest with
           | t :: _ => if has_kind NODE_TYPE_EXPR t then tok_copy t 128 else ret (bytes_of "unknown")
           | [] => ret (bytes_of "unknown")
           end;
  do! json_str ty;
  fputs (lit "'}").

(** ** The file *)

(** The declarations; the result is [first]. *)
Fixpoint put_decls (tops : list Node) (first : bool) : OM bool :=
  match tops with
  | [] => ret first
  | top :: tops =>
      match n_kind top, n_children top with
      | NODE_FUNC_DECL, name :: rest => do! put_func top name rest first; put_decls tops false
      | NODE_TYPE_DECL, name :: rest => do! put_type name rest first; put_decls tops false
      | NODE_CONST_DECL, name :: rest => do! put_const name rest first; put_decls tops false
      | _, _ => put_decls tops first
      end
  end.

Definition put_interface (ast : Node) : OM unit :=
  do mpath <- collect_module_path ast 256;
  do! fputs (lit "{|  'schema_version': '1.0',|  'module': '");
  do! json_str mpath;
  do! fputs (lit "',|  'version': '1.0.0',|  'exports': [");
  do first <- put_decls (n_children ast) true;
  do! (if first : bool then ret tt else fputs (lit "|  "));
  fputs (lit "]|}|").

(** [fopen] and [fclose] succeed or not.  The result ([true] for 0), the file,
    when one was opened, and the diagnostics. *)
Definition emit_interface (opens closes : bool) (ast : Node) (d : Diags)
    : res (bool * option (list Z) * Diags) :=
  let failed := diag_emit DIAG_ERROR E9001 0 0 0 false d in
  if opens then
    match put_interface ast [] with
    | Ok (_, text) => if closes then Ok (true, Some text, d) else Ok (false, Some text, failed)
    | Oob => Oob
    | NoFuel => NoFuel
    end
  else Ok (false, None, failed).

End Writer.

(** The hash of a file; 0 when it cannot be opened. *)
Definition interface_hash (file : option (list Z)) : Z :=
  match file with
  | None => 0
  | Some bytes =>
      fold_left (fun h c => Z.lxor ((Z.shiftl h 5 mod 2 ^ 32 + h) mod 2 ^ 32) c) bytes 5381
  end.

Definition interface_text (t : string) : option (list Z) :=
  match emit_interface (bytes_of t) true true (ast_of (bytes_of t)) diags_init with
  | Ok (true, text, _) => text
  | _ => None
  end.

Example emit_ex :
  interface_text "m=a.b;t=$p{x:i64;ys:@($str)};f=g(q:$p;k:@($str:i64)):i64!$err{<q.x};"
  = Some (lit "{|  'schema_version': '1.0',|  'module': 'a.b',|  'version': '1.0.0',|  'exports': [|    {'kind': 'type', 'name': 'p', 'fields': [{'name': 'x', 'type': 'i64'}, {'name': 'ys', 'type': '[str]'}]},|    {'kind': 'func', 'name': 'g', 'params': ['p', '[str:i64]'], 'return': 'i64', 'error': 'err'}|  ]|}|").
Proof. vm_compute. reflexivity. Qed.
