(* ===== verification/IrFacts.v ===== *)
(** * What the writer of interface files writes

    The JSON document of a tree, and its text as [emit_interface] prints it; what
    the declarations of a tree export. *)

From Stdlib Require Import ZArith Lia String Ascii.
From stdpp Require Import base tactics list.
From S2P Require Import Prelude CStr Diag Lexer Ast Parser Iface IfaceFacts IfaceJson Ir.
Open Scope Z_scope.

(** ** Printed values *)

Fixpoint join (ts : list (list Z)) : list Z :=
  match ts with
  | [] => []
  | [t] => t
  | t :: ts => t ++ lit ", " ++ join ts
  end.

Fixpoint pr (v : Json) : list Z :=
  match v with
  | JStr s => quoted s
  | JLit s => s
  | JArr l => chr "[" :: join (map pr l) ++ [chr "]"]
  | JObj m => chr "{" :: join (map (fun kv => quoted (fst kv) ++ lit ": " ++ pr (snd kv)) m) ++ [chr "}"]
  end.

(** No escape is needed. *)
Fixpoint json_ok (v : Json) : bool :=
  match v with
  | JStr s => forallb plain_char s
  | JLit s => negb (bool_decide (s = [])) && forallb lit_char s
  | JArr l => forallb json_ok l
  | JObj m => forallb (fun kv => forallb plain_char (fst kv) && json_ok (snd kv)) m
  end.

Section JsonInd.
Context (P : Json -> Prop).
Context (Hstr : forall s, P (JStr s)) (Hlit : forall s, P (JLit s)).
Context (Harr : forall l, Forall P l -> P (JArr l)).
Context (Hobj : forall m, Forall (fun kv => P (snd kv)) m -> P (JObj m)).

Fixpoint json_rose (v : Json) : P v :=
  match v with
  | JStr s => Hstr s
  | JLit s => Hlit s
  | JArr l => Harr l ((fix go l : Forall P l :=
                         match l with
                         | [] => Forall_nil_2 _
                         | v :: l => Forall_cons_2 _ _ _ (json_rose v) (go l)
                         end) l)
  | JObj m => Hobj m ((fix go m : Forall (fun kv => P (snd kv)) m :=
                         match m with
                         | [] => Forall_nil_2 _
                         | kv :: m => Forall_cons_2 _ _ _ (json_rose (snd kv)) (go m)
                         end) m)
  end.
End JsonInd.

(** White space in front of a list. *)
Lemma items_white w l b : white w -> l <> [] -> jitems l b -> jitems l (w ++ b).
Proof.
  intros Hw Hl H. inversion H; subst; [done| |]; rewrite app_assoc.
  - apply ji_last; try done. unfold white in *. by rewrite forallb_app, Hw.
  - apply ji_more; try done. unfold white in *. by rewrite forallb_app, Hw.
Qed.

Lemma members_white w m b : white w -> m <> [] -> jmembers m b -> jmembers m (w ++ b).
Proof.
  intros Hw Hm H. inversion H; subst; [done| |]; rewrite app_assoc.
  - apply jm_last; try done. unfold white in *. by rewrite forallb_app, Hw.
  - apply jm_more; try done. unfold white in *. by rewrite forallb_app, Hw.
Qed.

Lemma items_join l : Forall (fun v => jtext v (pr v)) l -> jitems l (join (map pr l)).
Proof.
  induction 1 as [|v l Hv _ IH]; [by constructor|]. destruct l as [|v' l].
  - change (join (map pr [v])) with (pr v). rewrite <- (app_nil_r (pr v)). by apply (ji_last []).
  - change (join (map pr (v :: v' :: l))) with ([] ++ pr v ++ [] ++ chr "," :: [32] ++ join (map pr (v' :: l))).
    apply ji_more; [done..|]. by apply items_white.
Qed.

Lemma members_join m :
  Forall (fun kv => spelled (fst kv) /\ jtext (snd kv) (pr (snd kv))) m ->
  jmembers m (join (map (fun kv => quoted (fst kv) ++ lit ": " ++ pr (snd kv)) m)).
Proof.
  induction 1 as [|[k v] m [Hk Hv] _ IH]; [by constructor|]. cbn [fst snd] in *.
  destruct m as [|[k' v'] m].
  - change (join _) with (quoted k ++ [] ++ chr ":" :: [32] ++ pr v).
    rewrite <- (app_nil_r (pr v)). by apply (jm_last []).
  - assert (E : join (map (fun kv => quoted (fst kv) ++ lit ": " ++ pr (snd kv)) ((k, v) :: (k', v') :: m))
      = [] ++ quoted k ++ [] ++ chr ":" :: [32] ++ pr v ++ [] ++ chr "," ::
        ([32] ++ join (map (fun kv => quoted (fst kv) ++ lit ": " ++ pr (snd kv)) ((k', v') :: m)))).
    { cbn [join map fst snd]. by rewrite <- !app_assoc. }
    rewrite E. apply jm_more; try done. by apply members_white.
Qed.

(** The strings are spelled without an escaped quote. *)
Fixpoint json_spelled (v : Json) : bool :=
  match v with
  | JStr s => spelling s
  | JLit s => negb (bool_decide (s = [])) && forallb lit_char s
  | JArr l => forallb json_spelled l
  | JObj m => forallb (fun kv => spelling (fst kv) && json_spelled (snd kv)) m
  end.

Lemma plain_spelling s : forallb plain_char s = true -> spelling s = true.
Proof.
  induction s as [|c s IH]; [done|]. cbn [forallb spelling]. intros [Hc Hs]%andb_prop. rewrite Hc, (IH Hs).
  destruct (c =? chr "\") eqn:E; [|done]. apply Z.eqb_eq in E. by subst.
Qed.

Lemma json_ok_spelled v : json_ok v = true -> json_spelled v = true.
Proof.
  induction v as [s|s|l IH|m IH] using json_rose; cbn [json_ok json_spelled]; [apply plain_spelling|done| |];
    rewrite !forallb_forall; rewrite Forall_forall in IH; intros H x Hx; pose proof (H x Hx) as Hok; apply list_elem_of_In in Hx.
  - by apply IH.
  - apply andb_prop in Hok as [Hk Hv]. by rewrite (plain_spelling _ Hk), (IH x Hx Hv).
Qed.

Lemma pr_spelled v : json_spelled v = true -> jtext v (pr v).
Proof.
  induction v as [s|s|l IH|m IH] using json_rose; cbn [json_spelled pr]; intros H.
  - by constructor; apply spelling_spelled.
  - apply andb_prop in H as [Hn H]. apply negb_true_iff, bool_decide_eq_false in Hn. by constructor.
  - constructor. apply items_join. rewrite forallb_forall in H. rewrite Forall_forall in *.
    intros v Hv. apply IH; [done|]. by apply H, list_elem_of_In.
  - constructor. apply members_join. rewrite forallb_forall in H. rewrite Forall_forall in *.
    intros kv Hv. apply list_elem_of_In in Hv as Hi. apply H, andb_prop in Hi as [Hk Hok].
    split; [by apply spelling_spelled|]. by apply IH.
Qed.

Lemma pr_json v : json_ok v = true -> jtext v (pr v).
Proof. intros H. by apply pr_spelled, json_ok_spelled. Qed.

(** ** Commands that append *)

Definition emits {A} (m : OM A) (p : list Z) (v : A) : Prop := forall o, m o = Ok (v, o ++ p).

Lemma emits_ret {A} (v : A) : emits (ret v) [] v.
Proof. intros o. by rewrite app_nil_r. Qed.

Lemma emits_runs {A} (m : OM A) v : runs m v -> emits m [] v.
Proof. intros H o. by rewrite H, app_nil_r. Qed.

Lemma emits_bind {A B} (m : OM A) (k : A -> OM B) p q v w :
  emits m p v -> emits (k v) q w -> emits (bind m k) (p ++ q) w.
Proof. intros Hm Hk o. unfold bind. by rewrite Hm, Hk, app_assoc. Qed.

(** A command that appends nothing. *)
Lemma emits_pure {A B} (m : OM A) (k : A -> OM B) q v w :
  emits m [] v -> emits (k v) q w -> emits (bind m k) q w.
Proof. intros Hm Hk. exact (emits_bind m k [] q v w Hm Hk). Qed.

Lemma emits_fputs s : emits (fputs s) s tt.
Proof. by intros o. Qed.

Lemma emits_eq {A} (m : OM A) p q v : emits m p v -> p = q -> emits m q v.
Proof. by intros H ->. Qed.

Lemma emits_if {A} (b : bool) (m n : OM A) p q v :
  emits m p v -> emits n q v -> emits (if b then m else n) (if b then p else q) v.
Proof. by destruct b. Qed.

Lemma json_char_plain c : plain_char c = true -> json_char c = [c].
Proof.
  unfold plain_char, quote. intros [[H1 H2]%andb_prop H3]%andb_prop. unfold json_char.
  rewrite (proj2 (Z.eqb_neq c 34)), (proj2 (Z.eqb_neq c _)), (proj2 (Z.eqb_neq c 10)),
    (proj2 (Z.eqb_neq c 13)), (proj2 (Z.eqb_neq c 9)), (proj2 (Z.ltb_ge c 32)) by lia. done.
Qed.

Lemma emits_json_str s : plain s -> emits (json_str s) s tt.
Proof.
  induction s as [|c s IH]; [intros _; apply emits_ret|]. unfold plain. cbn [forallb].
  intros [Hc Hs]%andb_prop. cbn [json_str]. apply (emits_bind _ _ [c] s tt); [|by apply IH].
  rewrite json_char_plain by done. apply emits_fputs.
Qed.

Lemma emits_put_string s : plain s -> emits (put_string s) (quoted s) tt.
Proof.
  intros H. unfold put_string. apply (emits_bind _ _ [34] (s ++ [34]) tt); [apply emits_fputs|].
  eapply emits_bind; [by apply emits_json_str|apply emits_fputs].
Qed.

(** ** What a tree exports *)

Section Tree.
Context (src : list Z).

(** The text of a node, cut to the buffers of 128 characters. *)
Definition tok_text (n : Node) : list Z := printed 128 (slice src (n_tok_start n) (n_tok_len n)).

Definition bare_type (t : list Z) : list Z :=
  match t with c :: t' => if c =? chr "$" then t' else t | [] => t end.

(** The spelling of a type, cut to [size - 1] characters. *)
Fixpoint type_text (n : Node) (size : Z) : list Z :=
  match n_kind n with
  | NODE_ARRAY_TYPE =>
      printed size (chr "[" :: match n_children n with e :: _ => type_text e 128 | [] => [] end ++ [chr "]"])
  | NODE_MAP_TYPE =>
      printed size (chr "[" :: match n_children n with k :: _ => type_text k 128 | [] => [] end ++
                    chr ":" :: match n_children n with _ :: v :: _ => type_text v 128 | _ => [] end ++ [chr "]"])
  | NODE_PTR_TYPE =>
      printed size (chr "*" :: match n_children n with e :: _ => type_text e 128 | [] => [] end)
  | _ => printed size (bare_type (tok_text n))
  end.

(** The text of a node is in the source and needs no escape. *)
Definition tok_ok (n : Node) : bool :=
  span_in src n && forallb plain_char (slice src (n_tok_start n) (n_tok_len n)).

Fixpoint type_ok (n : Node) : bool :=
  match n_kind n with
  | NODE_ARRAY_TYPE | NODE_PTR_TYPE => match n_children n with e :: _ => type_ok e | [] => true end
  | NODE_MAP_TYPE =>
      match n_children n with k :: _ => type_ok k | [] => true end &&
      match n_children n with _ :: v :: _ => type_ok v | _ => true end
  | _ => tok_ok n
  end.

Definition param_type (c : Node) : option Node :=
  match n_kind c, n_children c with NODE_PARAM, _ :: t :: _ => Some t | _, _ => None end.

Definition extern_ (top : Node) : bool := negb (existsb (has_kind NODE_STMT_LIST) (n_children top)).
Definition ret_text (rest : list Node) : list Z :=
  match return_spec rest with Some (t, _) => type_text t 128 | None => bytes_of "void" end.
Definition err_type (rest : list Node) : option Node :=
  match return_spec rest with Some (_, e) => e | None => None end.

Definition func_json (top name : Node) (rest : list Node) : list (list Z * Json) :=
  [(bytes_of "kind", JStr (bytes_of "func")); (bytes_of "name", JStr (tok_text name))] ++
  (if extern_ top then [(bytes_of "extern", JLit (bytes_of "true"))] else []) ++
  [(bytes_of "params", JArr (map (fun t => JStr (type_text t 128)) (omap param_type rest)));
   (bytes_of "return", JStr (ret_text rest))] ++
  match err_type rest with Some e => [(bytes_of "error", JStr (type_text e 256))] | None => [] end.

Definition variant (f : Node) : bool := (0 <? n_tok_start f) && (byte_at src (n_tok_start f - 1) =? chr "$").
Definition sum_type (fs : list Node) : bool := existsb variant fs.
Definition field_type (f : Node) : list Z :=
  match n_children f with t :: _ => type_text t 128 | [] => bytes_of "i64" end.
Definition field_name (sum : bool) (f : Node) : list Z :=
  (if sum && variant f then [chr "$"] else []) ++ tok_text f.

Definition type_json (name : Node) (rest : list Node) : list (list Z * Json) :=
  let fs := field_nodes rest [] in
  [(bytes_of "kind", JStr (bytes_of "type")); (bytes_of "name", JStr (tok_text name))] ++
  (if sum_type fs then [(bytes_of "is_sum", JLit (bytes_of "true"))] else []) ++
  [(bytes_of "fields", JArr (map (fun f => JObj
      [(bytes_of "name", JStr (field_name (sum_type fs) f)); (bytes_of "type", JStr (field_type f))]) fs))].

Definition const_json (name : Node) (rest : list Node) : list (list Z * Json) :=
  [(bytes_of "kind", JStr (bytes_of "const")); (bytes_of "name", JStr (tok_text name));
   (bytes_of "type", JStr (match rest with
                           | t :: _ => if has_kind NODE_TYPE_EXPR t then tok_text t else bytes_of "unknown"
                           | [] => bytes_of "unknown"
                           end))].

Definition decl_json (top : Node) : option (list (list Z * Json)) :=
  match n_kind top, n_children top with
  | NODE_FUNC_DECL, name :: rest => Some (func_json top name rest)
  | NODE_TYPE_DECL, name :: rest => Some (type_json name rest)
  | NODE_CONST_DECL, name :: rest => Some (const_json name rest)
  | _, _ => None
  end.

(** What the writer needs of a declaration: texts of names and types in the
    source, and a character before a field. *)
Definition field_ok (f : Node) : bool :=
  tok_ok f && match n_children f with t :: _ => type_ok t | [] => true end.

Definition decl_ok (top : Node) : bool :=
  match n_kind top, n_children top with
  | NODE_FUNC_DECL, name :: rest =>
      tok_ok name && forallb type_ok (omap param_type rest) &&
      match return_spec rest with
      | Some (t, e) => type_ok t && match e with Some e => type_ok e | None => true end
      | None => true
      end
  | NODE_TYPE_DECL, name :: rest => tok_ok name && forallb field_ok (field_nodes rest [])
  | NODE_CONST_DECL, name :: rest =>
      tok_ok name && match rest with t :: _ => if has_kind NODE_TYPE_EXPR t then tok_ok t else true | [] => true end
  | _, _ => true
  end.

(** ** Texts *)

Lemma plain_app a b : plain (a ++ b) <-> plain a /\ plain b.
Proof. unfold plain. by rewrite forallb_app, andb_true_iff. Qed.

Lemma plain_printed n s : plain s -> plain (printed n s).
Proof.
  unfold printed. intros H. rewrite <- (take_drop (Z.to_nat (n - 1)) s) in H.
  by apply plain_app in H as [? _].
Qed.

Lemma plain_nonzero s : plain s -> Forall (fun c => c <> 0) s.
Proof.
  unfold plain. rewrite forallb_forall, Forall_forall. intros H c Hc.
  apply list_elem_of_In, H in Hc. intros ->. done.
Qed.

Lemma tok_text_plain n : tok_ok n = true -> plain (tok_text n).
Proof. intros [_ H]%andb_prop. by apply plain_printed. Qed.

Lemma bare_type_plain t : plain t -> plain (bare_type t).
Proof.
  intros H. destruct t as [|c t]; [done|]. cbn [bare_type]. case_match; [|done].
  unfold plain in *. cbn [forallb] in H. by apply andb_prop in H as [_ ?].
Qed.

Lemma type_text_plain n size : type_ok n = true -> plain (type_text n size).
Proof.
  revert size. induction n as [n IH] using node_ind'. rewrite Forall_forall in IH.
  intros size H. assert (Htok : tok_ok n = true -> plain (printed size (bare_type (tok_text n)))).
  { intros Ht. by apply plain_printed, bare_type_plain, tok_text_plain. }
  destruct n as [k st ln co ts tl op cap cs]. cbn [type_ok type_text n_kind n_children] in *.
  assert (He : forall c l, cs = c :: l -> type_ok c = true -> plain (type_text c 128)).
  { intros c l -> Hc. apply IH; [apply elem_of_cons; by left|done]. }
  destruct k; try by apply Htok.
  - apply plain_printed. change (chr "[" :: ?x) with ([chr "["] ++ x).
    apply plain_app. split; [done|]. apply plain_app. split; [|done].
    destruct cs as [|c l]; [done|]. by apply (He c l).
  - apply plain_printed. change (chr "*" :: ?x) with ([chr "*"] ++ x).
    apply plain_app. split; [done|]. destruct cs as [|c l]; [done|]. by apply (He c l).
  - apply andb_prop in H as [H1 H2]. apply plain_printed.
    apply (plain_app [chr "["]). split; [done|]. apply plain_app. split.
    { destruct cs as [|c l]; [done|]. by apply (He c l). }
    apply (plain_app [chr ":"]). split; [done|]. apply plain_app. split; [|done].
    destruct cs as [|c [|c' l]]; [done..|].
    apply IH; [apply elem_of_cons; right; apply elem_of_cons; by left|done].
Qed.

(** ** The writer *)

Lemma span_bounds n : span_in src n = true -> 0 <= n_tok_start n /\ 0 <= n_tok_len n /\ n_tok_start n + n_tok_len n <= zlen src.
Proof. unfold span_in. intros [[?%Z.leb_le ?%Z.leb_le]%andb_prop ?%Z.leb_le]%andb_prop. done. Qed.

Lemma slice_cut start len k : 0 <= k -> slice src start (if len <? k then len else k) = take (Z.to_nat k) (slice src start len).
Proof.
  intros Hk. unfold slice. rewrite take_take. f_equal. case_match; zb; lia.
Qed.

Lemma runs_range start len :
  0 <= start -> 0 <= len -> start + len <= zlen src -> runs (S := list Z) (rd_range src start len) (slice src start len).
Proof. intros ??? s. unfold rd_range. by rewrite !(proj2 (Z.leb_le _ _)) by lia. Qed.

Lemma emits_tok n : tok_ok n = true -> emits (tok_copy src n 128) [] (tok_text n).
Proof.
  intros H. pose proof (tok_text_plain n H) as Hp. apply andb_prop in H as [Hs _].
  apply span_bounds in Hs as (H1 & H2 & H3). unfold tok_copy. cbn zeta.
  change (128 - 1) with 127. eapply emits_pure.
  - apply emits_runs, runs_range; destruct (n_tok_len n <? 127) eqn:?; zb; lia.
  - rewrite slice_cut by lia. fold (printed 128 (slice src (n_tok_start n) (n_tok_len n))). fold (tok_text n).
    rewrite until_nul_id by by apply plain_nonzero. apply emits_ret.
Qed.

Lemma emits_render n size :
  type_ok n = true -> 1 < size -> emits (render_type_node src n size) [] (type_text n size).
Proof.
  revert size. induction n as [n IH] using node_ind'. rewrite Forall_forall in IH.
  intros size H Hsz. destruct n as [k st ln co ts tl op cap cs].
  cbn [render_type_node type_ok type_text n_kind n_children] in *.
  rewrite (proj2 (Z.leb_gt _ _)) by lia.
  set (n := mkNode k st ln co ts tl op cap cs) in *.
  assert (Htok : tok_ok n = true -> emits (do t <- tok_copy src n 128;
      ret (printed size (match t with c :: t' => if c =? chr "$" then t' else t | [] => t end)))
      [] (printed size (bare_type (tok_text n)))).
  { intros Ht. eapply emits_pure; [by apply emits_tok|]. unfold bare_type. apply emits_ret. }
  assert (He : forall c l, cs = c :: l -> type_ok c = true -> emits (render_type_node src c 128) [] (type_text c 128)).
  { intros c l -> Hc. apply IH; [apply elem_of_cons; by left|done|lia]. }
  destruct k; try by apply Htok.
  - eapply (emits_pure _ _ _ (match cs with e :: _ => type_text e 128 | [] => [] end)); [|apply emits_ret].
    destruct cs as [|c l]; [apply emits_ret|]. by apply (He c l).
  - eapply (emits_pure _ _ _ (match cs with e :: _ => type_text e 128 | [] => [] end)); [|apply emits_ret].
    destruct cs as [|c l]; [apply emits_ret|]. by apply (He c l).
  - apply andb_prop in H as [Ha Hb].
    eapply (emits_pure _ _ _ (match cs with e :: _ => type_text e 128 | [] => [] end)).
    { destruct cs as [|c l]; [apply emits_ret|]. by apply (He c l). }
    eapply (emits_pure _ _ _ (match cs with _ :: e :: _ => type_text e 128 | _ => [] end)); [|apply emits_ret].
    destruct cs as [|c [|c' l]]; [apply emits_ret..|].
    apply IH; [apply elem_of_cons; right; apply elem_of_cons; by left|done|lia].
Qed.

(** Texts with separators between them. *)
Fixpoint seps (first : bool) (ts : list (list Z)) : list Z :=
  match ts with
  | [] => []
  | t :: ts => (if first then [] else lit ", ") ++ t ++ seps false ts
  end.

Lemma seps_join ts : seps true ts = join ts.
Proof.
  destruct ts as [|t ts]; [done|]. cbn [seps]. cbn [app]. revert t.
  induction ts as [|t' ts IH]; intros t; [cbn; by rewrite app_nil_r|].
  cbn [seps join]. f_equal. f_equal. apply IH.
Qed.

Lemma emits_sep (first : bool) s : emits (if first then ret tt else fputs s) (if first then [] else s) tt.
Proof. destruct first; [apply emits_ret|apply emits_fputs]. Qed.

Lemma emits_params chs first :
  forallb type_ok (omap param_type chs) = true ->
  emits (put_params src chs first)
    (seps first (map (fun t => quoted (type_text t 128)) (omap param_type chs))) tt.
Proof.
  revert first. induction chs as [|c chs IH]; intros first; [intros _; apply emits_ret|].
  assert (Hskip : param_type c = None ->
    forallb type_ok (omap param_type (c :: chs)) = true ->
    emits (put_params src chs first) (seps first (map (fun t => quoted (type_text t 128)) (omap param_type (c :: chs)))) tt).
  { intros Hc. simpl. rewrite Hc. apply IH. }
  cbn [put_params]. unfold param_type in Hskip at 1.
  destruct (n_kind c) eqn:Ek; try by apply Hskip.
  destruct (n_children c) as [|x [|t cs]] eqn:Ec; try by apply Hskip.
  simpl. assert (Hp : param_type c = Some t) by (unfold param_type; by rewrite Ek, Ec).
  rewrite Hp. cbn [forallb map seps]. intros [Ht Hr]%andb_prop.
  eapply emits_pure; [by apply emits_render|].
  eapply emits_bind; [apply emits_sep|]. eapply emits_bind; [by apply emits_put_string, type_text_plain|].
  by apply IH.
Qed.

(** One declaration, in its place. *)
Definition decl_text (first : bool) (m : list (list Z * Json)) : list Z :=
  (if first then [] else lit ",") ++ lit "|    " ++ pr (JObj m).

Lemma join_app ts us : ts <> [] -> us <> [] -> join (ts ++ us) = join ts ++ lit ", " ++ join us.
Proof.
  intros Ht Hu. induction ts as [|t ts IH]; [done|]. destruct ts as [|t' ts].
  - destruct us; [done|]. done.
  - cbn [app]. change (join (t :: t' :: ts ++ us)) with (t ++ lit ", " ++ join ((t' :: ts) ++ us)).
    rewrite IH by done. change (join (t :: t' :: ts)) with (t ++ lit ", " ++ join (t' :: ts)).
    by rewrite <- !app_assoc.
Qed.

(** Both sides of an equation of texts with all their pieces in one list. *)
Ltac flat :=
  cbn [pr map fst snd join app negb]; rewrite ?map_map;
  repeat (progress (rewrite <- ?app_assoc, ?quoted_app; cbn [app])); reflexivity.

Lemma emits_func top name rest first :
  n_kind top = NODE_FUNC_DECL -> n_children top = name :: rest -> decl_ok top = true ->
  emits (put_func src top name rest first) (decl_text first (func_json top name rest)) tt.
Proof.
  intros Ek Ec. unfold decl_ok. rewrite Ek, Ec. intros [[Hn Hp]%andb_prop Hr]%andb_prop.
  unfold put_func. eapply emits_eq.
  - eapply emits_pure; [by apply emits_tok|]. eapply emits_bind; [apply emits_sep|].
    eapply emits_bind; [apply emits_fputs|]. eapply emits_bind; [by apply emits_json_str, tok_text_plain|].
    eapply emits_bind; [apply emits_fputs|]. eapply emits_bind; [apply emits_sep|].
    eapply emits_bind; [apply emits_fputs|]. eapply emits_bind; [by apply emits_params|].
    eapply emits_bind; [apply emits_fputs|].
    eapply (emits_pure _ _ _ (ret_text rest)).
    { unfold ret_text. destruct (return_spec rest) as [[t e]|]; [|apply emits_ret].
      apply andb_prop in Hr as [Ht _]. by apply emits_render. }
    eapply emits_bind; [apply emits_json_str|].
    { unfold ret_text. destruct (return_spec rest) as [[t e]|]; [|done].
      apply andb_prop in Hr as [Ht _]. by apply type_text_plain. }
    eapply emits_bind; [apply emits_fputs|].
    eapply (emits_bind _ _ (match err_type rest with Some e => lit ", 'error': '" ++ type_text e 256 ++ lit "'" | None => [] end)); [|apply emits_fputs].
    unfold err_type. destruct (return_spec rest) as [[t [e|]]|]; try apply emits_ret.
    apply andb_prop in Hr as [_ He]. eapply emits_pure; [by apply emits_render|].
    eapply emits_bind; [apply emits_fputs|]. eapply emits_bind; [by apply emits_json_str, type_text_plain|].
    apply emits_fputs.
  - unfold decl_text, func_json, extern_. rewrite seps_join.
    destruct (existsb (has_kind NODE_STMT_LIST) (n_children top)), (err_type rest) as [e|]; by flat.
Qed.

Lemma emits_variant f : field_ok f = true -> emits (is_variant src f) [] (variant f).
Proof.
  intros [[Hs _]%andb_prop _]%andb_prop. apply span_bounds in Hs as (H1 & H2 & H3).
  unfold is_variant, variant. destruct (0 <? n_tok_start f) eqn:E; zb; [|apply emits_ret].
  eapply (emits_pure _ _ _ (byte_at src (n_tok_start f - 1))); [|apply emits_ret]. apply emits_runs.
  intros s. unfold rd. by rewrite (proj2 (Z.leb_le _ _)), (proj2 (Z.ltb_lt _ _)) by lia.
Qed.

Lemma emits_any_variant fs :
  forallb field_ok fs = true -> emits (any_variant src fs) [] (sum_type fs).
Proof.
  induction fs as [|f fs IH]; [intros _; apply emits_ret|]. cbn [forallb]. intros [Hf Hr]%andb_prop.
  cbn [any_variant sum_type existsb]. eapply emits_pure; [by apply emits_variant|].
  destruct (variant f); [apply emits_ret|]. by apply IH.
Qed.

Definition field_json (sum : bool) (f : Node) : Json :=
  JObj [(bytes_of "name", JStr (field_name sum f)); (bytes_of "type", JStr (field_type f))].

Lemma field_type_plain f : field_ok f = true -> plain (field_type f).
Proof.
  intros [_ H]%andb_prop. unfold field_type. destruct (n_children f); [done|]. by apply type_text_plain.
Qed.

Lemma emits_fields sum fs first :
  forallb field_ok fs = true ->
  emits (put_fields src sum fs first) (seps first (map (fun f => pr (field_json sum f)) fs)) tt.
Proof.
  revert first. induction fs as [|f fs IH]; intros first; [intros _; apply emits_ret|].
  cbn [forallb map seps put_fields]. intros [Hf Hr]%andb_prop. pose proof (field_type_plain f Hf) as Hp.
  pose proof (emits_variant f Hf) as Hv. apply andb_prop in Hf as [Hf Ht].
  eapply emits_eq.
  - eapply emits_pure; [by apply emits_tok|].
    eapply (emits_pure _ _ _ (field_type f)).
    { unfold field_type. destruct (n_children f); [apply emits_ret|]. by apply emits_render. }
    eapply emits_bind; [apply emits_sep|]. eapply emits_bind; [apply emits_fputs|].
    eapply (emits_pure _ _ _ (sum && variant f)).
    { destruct sum; [exact Hv|apply emits_ret]. }
    eapply (emits_bind _ _ (if sum && variant f then [chr "$"] else [])).
    { destruct (sum && variant f); [apply emits_fputs|apply emits_ret]. }
    eapply emits_bind; [by apply emits_json_str, tok_text_plain|]. eapply emits_bind; [apply emits_fputs|].
    eapply emits_bind; [by apply emits_json_str|]. eapply emits_bind; [apply emits_fputs|]. by apply IH.
  - unfold field_json, field_name. by flat.
Qed.

Lemma emits_type top name rest first :
  n_kind top = NODE_TYPE_DECL -> n_children top = name :: rest -> decl_ok top = true ->
  emits (put_type src name rest first) (decl_text first (type_json name rest)) tt.
Proof.
  intros Ek Ec. unfold decl_ok. rewrite Ek, Ec. intros [Hn Hf]%andb_prop.
  unfold put_type. eapply emits_eq.
  - eapply emits_pure; [by apply emits_tok|]. eapply emits_bind; [apply emits_sep|]. cbn zeta.
    eapply emits_pure; [by apply emits_any_variant|]. eapply emits_bind; [apply emits_fputs|].
    eapply emits_bind; [by apply emits_json_str, tok_text_plain|]. eapply emits_bind; [apply emits_fputs|].
    eapply emits_bind; [by apply emits_fields|]. apply emits_fputs.
  - unfold decl_text, type_json. rewrite seps_join.
    fold (field_json (sum_type (field_nodes rest []))).
    destruct (sum_type (field_nodes rest [])); by flat.
Qed.

Lemma emits_const top name rest first :
  n_kind top = NODE_CONST_DECL -> n_children top = name :: rest -> decl_ok top = true ->
  emits (put_const src name rest first) (decl_text first (const_json name rest)) tt.
Proof.
  intros Ek Ec. unfold decl_ok. rewrite Ek, Ec. intros [Hn Ht]%andb_prop.
  unfold put_const, const_json. set (ty := match rest with t :: _ => if has_kind NODE_TYPE_EXPR t then tok_text t else _ | [] => _ end).
  assert (Hty : plain ty).
  { unfold ty. destruct rest as [|t l]; [done|]. destruct (has_kind NODE_TYPE_EXPR t); [|done]. by apply tok_text_plain. }
  eapply emits_eq.
  - eapply emits_pure; [by apply emits_tok|]. eapply emits_bind; [apply emits_sep|].
    eapply emits_bind; [apply emits_fputs|]. eapply emits_bind; [by apply emits_json_str, tok_text_plain|].
    eapply emits_bind; [apply emits_fputs|]. eapply (emits_pure _ _ _ ty).
    { unfold ty. destruct rest as [|t l]; [apply emits_ret|].
      destruct (has_kind NODE_TYPE_EXPR t); [by apply emits_tok|apply emits_ret]. }
    eapply emits_bind; [by apply emits_json_str|]. apply emits_fputs.
  - unfold decl_text. by flat.
Qed.

(** ** The declarations *)

Fixpoint decls_text (first : bool) (ms : list (list (list Z * Json))) : list Z :=
  match ms with
  | [] => []
  | m :: ms => decl_text first m ++ decls_text false ms
  end.

Lemma emits_decls tops first :
  forallb decl_ok tops = true ->
  emits (put_decls src tops first) (decls_text first (omap decl_json tops))
    (first && bool_decide (omap decl_json tops = [])).
Proof.
  revert first. induction tops as [|top tops IH]; intros first.
  { intros _. simpl. rewrite andb_true_r. apply emits_ret. }
  cbn [forallb]. intros [Ht Hr]%andb_prop.
  assert (Hone : forall m c, decl_json top = Some m -> emits c (decl_text first m) tt ->
    emits (do! c; put_decls src tops false) (decls_text first (omap decl_json (top :: tops)))
      (first && bool_decide (omap decl_json (top :: tops) = []))).
  { intros m c Hm Hc. simpl. rewrite Hm. cbn [decls_text]. rewrite bool_decide_false, andb_false_r by done.
    eapply emits_bind; [exact Hc|]. by apply (IH false). }
  assert (Hnone : decl_json top = None -> emits (put_decls src tops first)
    (decls_text first (omap decl_json (top :: tops))) (first && bool_decide (omap decl_json (top :: tops) = []))).
  { intros Hm. simpl. rewrite Hm. by apply IH. }
  cbn [put_decls]. unfold decl_json in Hone at 1, Hnone at 1.
  destruct (n_kind top) eqn:Ek; try by apply Hnone.
  - destruct (n_children top) as [|name rest] eqn:Ec; [by apply Hnone|].
    eapply Hone; [done|]. by apply (emits_func top).
  - destruct (n_children top) as [|name rest] eqn:Ec; [by apply Hnone|].
    eapply Hone; [done|]. by apply (emits_type top).
  - destruct (n_children top) as [|name rest] eqn:Ec; [by apply Hnone|].
    eapply Hone; [done|]. by apply (emits_const top).
Qed.

(** ** The module path *)

Fixpoint path_text (size : Z) (ids : list Node) (buf : list Z) : list Z :=
  match ids with
  | [] => buf
  | id :: ids =>
      if zlen buf <? size - 1 then
        let buf := if (0 <? zlen buf) && (zlen buf <? size - 2) then buf ++ [chr "."] else buf in
        path_text size ids (buf ++ take (Z.to_nat (size - 1 - zlen buf)) (slice src (n_tok_start id) (n_tok_len id)))
      else buf
  end.

(** A segment: no escape and no bracket. *)
Definition seg_ok (id : Node) : bool :=
  tok_ok id && forallb (fun c => negb (c =? chr "[")) (slice src (n_tok_start id) (n_tok_len id)).

Lemma emits_path size ids buf :
  1 < size -> zlen buf < size -> forallb seg_ok ids = true ->
  emits (path_parts src size ids buf) [] (path_text size ids buf).
Proof.
  intros Hsz. revert buf. induction ids as [|id ids IH]; intros buf Hb; [intros _; apply emits_ret|].
  cbn [forallb path_parts path_text]. intros [[Ht _]%andb_prop Hr]%andb_prop.
  apply andb_prop in Ht as [Hs _]. apply span_bounds in Hs as (H1 & H2 & H3).
  destruct (zlen buf <? size - 1) eqn:E; [|apply emits_ret]. zb. cbn zeta.
  set (buf' := if _ && _ then _ else buf).
  assert (Hb' : zlen buf' < size).
  { unfold buf'. case_match eqn:Ed; zb; rewrite ?zlen_app, ?zlen_cons; change (zlen []) with 0; lia. }
  set (len := if n_tok_len id <? _ then _ else _).
  assert (Hl : 0 <= len <= n_tok_len id /\ zlen buf' + len < size).
  { unfold len. destruct (n_tok_len id <? size - 1 - zlen buf') eqn:?; zb; lia. }
  eapply emits_pure; [apply emits_runs, runs_range; lia|].
  rewrite (proj2 (Z.ltb_lt _ _)) by lia. unfold len. rewrite slice_cut by lia. apply IH; [|done].
  rewrite zlen_app. unfold zlen at 2. rewrite length_take.
  unfold slice. rewrite length_take, length_drop. unfold zlen in *. lia.
Qed.

Lemma path_text_chars (f : Z -> bool) size ids : forall buf,
  f (chr ".") = true -> forallb f buf = true ->
  forallb (fun id => forallb f (slice src (n_tok_start id) (n_tok_len id))) ids = true ->
  forallb f (path_text size ids buf) = true.
Proof.
  induction ids as [|id ids IH]; intros buf Hd Hb; cbn [forallb path_text]; [done|].
  intros [Ht Hr]%andb_prop. case_match; [|done]. apply IH; [done| |done]. rewrite forallb_app.
  apply andb_true_iff. split.
  - case_match; [|done]. rewrite forallb_app, Hb. cbn [forallb]. by rewrite Hd.
  - set (t := slice _ _ _) in *. set (k := Z.to_nat _). rewrite <- (take_drop k t), forallb_app in Ht.
    by apply andb_prop in Ht as [? _].
Qed.

Definition module_path (ast : Node) : option Node :=
  find (has_kind NODE_MODULE_PATH)
    (concat (map n_children (List.filter (has_kind NODE_MODULE) (n_children ast)))).
Definition module_text (ast : Node) : list Z :=
  match module_path ast with Some mp => path_text 256 (n_children mp) [] | None => [] end.

(** What the writer needs of a tree. *)
Definition iface_ok (ast : Node) : bool :=
  forallb decl_ok (n_children ast) &&
  match module_path ast with Some mp => forallb seg_ok (n_children mp) | None => true end.

Lemma module_text_ok ast : iface_ok ast = true -> plain (module_text ast) /\ chr "[" ∉ module_text ast.
Proof.
  intros [_ H]%andb_prop. unfold module_text. destruct (module_path ast) as [mp|].
  2:{ split; [done|]. apply not_elem_of_nil. }
  split.
  - apply path_text_chars; [done..|]. revert H. apply forallb_impl. intros id [[_ ?]%andb_prop _]%andb_prop. done.
  - apply (no_bracket (fun c => negb (c =? chr "["))); [|done].
    apply path_text_chars; [done..|]. revert H. apply forallb_impl. intros id [_ ?]%andb_prop. done.
Qed.

Lemma emits_module_path ast :
  iface_ok ast = true -> emits (collect_module_path src ast 256) [] (module_text ast).
Proof.
  intros H. pose proof (module_text_ok ast H) as [Hp _]. apply andb_prop in H as [_ H].
  unfold collect_module_path, module_text in *. fold (module_path ast).
  destruct (module_path ast) as [mp|]; [|apply emits_ret].
  eapply emits_pure; [by apply emits_path|]. rewrite until_nul_id by by apply plain_nonzero. apply emits_ret.
Qed.

(** ** The file *)

Definition members_of (ast : Node) : list (list (list Z * Json)) := omap decl_json (n_children ast).

Definition file_text (ast : Node) : list Z :=
  lit "{|  'schema_version': '1.0',|  'module': '" ++ module_text ast ++
  lit "',|  'version': '1.0.0',|  'exports': [" ++ decls_text true (members_of ast) ++
  (if bool_decide (members_of ast = []) then [] else lit "|  ") ++ lit "]|}|".

Lemma emits_interface ast :
  iface_ok ast = true -> emits (put_interface src ast) (file_text ast) tt.
Proof.
  intros H. unfold put_interface. eapply emits_eq.
  - eapply emits_pure; [by apply emits_module_path|]. eapply emits_bind; [apply emits_fputs|].
    eapply emits_bind; [by apply emits_json_str, module_text_ok|]. eapply emits_bind; [apply emits_fputs|].
    eapply emits_bind.
    { apply emits_decls. by apply andb_prop in H as [? _]. }
    eapply emits_bind; [apply emits_sep|]. apply emits_fputs.
  - done.
Qed.

(** The file is a JSON object. *)
Lemma decls_items ms w :
  Forall (fun m => json_ok (JObj m) = true) ms -> white w ->
  jitems (map JObj ms) (decls_text true ms ++ if bool_decide (ms = []) then [] else w).
Proof.
  intros Hms Hw. destruct Hms as [|m ms Hm Hms]; [by constructor|].
  rewrite bool_decide_false by done. cbn [decls_text decl_text app map].
  revert m Hm. induction Hms as [|m' ms Hm' _ IH]; intros m Hm.
  - cbn [decls_text map]. rewrite app_nil_r, <- app_assoc.
    apply ji_last; [done..|]. by apply pr_json.
  - cbn [decls_text map decl_text].
    replace (((lit "|    " ++ pr (JObj m)) ++ _) ++ w) with (lit "|    " ++ pr (JObj m) ++ [] ++ chr "," ::
      ((lit "|    " ++ pr (JObj m')) ++ decls_text false ms) ++ w).
    2:{ unfold decl_text. repeat (progress (rewrite <- ?app_assoc; cbn [app])). done. }
    apply ji_more; [done..|by apply pr_json|]. by apply IH.
Qed.

Definition doc (ast : Node) : list (list Z * Json) :=
  [(bytes_of "schema_version", JStr (bytes_of "1.0")); (bytes_of "module", JStr (module_text ast));
   (bytes_of "version", JStr (bytes_of "1.0.0"))] ++ [(exports, JArr (map JObj (members_of ast)))].

Lemma func_json_ok top name rest :
  n_kind top = NODE_FUNC_DECL -> n_children top = name :: rest -> decl_ok top = true ->
  json_ok (JObj (func_json top name rest)) = true.
Proof.
  intros Ek Ec. unfold decl_ok. rewrite Ek, Ec. intros [[Hn Hp]%andb_prop Hr]%andb_prop.
  apply tok_text_plain in Hn. unfold plain in Hn.
  assert (Hret : plain (ret_text rest)).
  { unfold ret_text. destruct (return_spec rest) as [[t e]|]; [|done].
    apply andb_prop in Hr as [Ht _]. by apply type_text_plain. }
  assert (Herr : forall e, err_type rest = Some e -> plain (type_text e 256)).
  { unfold err_type. destruct (return_spec rest) as [[t [e|]]|]; try done. intros ? [= <-].
    apply andb_prop in Hr as [_ He]. by apply type_text_plain. }
  assert (Hps : forallb json_ok (map (fun t => JStr (type_text t 128)) (omap param_type rest)) = true).
  { rewrite forallb_forall in *. intros v (t & <- & Ht)%in_map_iff. by apply type_text_plain, Hp. }
  unfold func_json. cbn [json_ok]. rewrite !forallb_app. cbn [forallb fst snd json_ok].
  rewrite Hn, Hps, Hret. destruct (extern_ top), (err_type rest) as [e|]; cbn [forallb fst snd json_ok];
    rewrite ?Herr by done; done.
Qed.

Lemma type_json_ok top name rest :
  n_kind top = NODE_TYPE_DECL -> n_children top = name :: rest -> decl_ok top = true ->
  json_ok (JObj (type_json name rest)) = true.
Proof.
  intros Ek Ec. unfold decl_ok. rewrite Ek, Ec. intros [Hn Hf]%andb_prop.
  apply tok_text_plain in Hn. unfold plain in Hn. unfold type_json.
  set (fs := field_nodes rest []) in *. set (sum := sum_type fs).
  assert (Hfs : forallb json_ok (map (field_json sum) fs) = true).
  { rewrite forallb_forall in *. intros v (f & <- & Hi)%in_map_iff. apply Hf in Hi.
    pose proof (field_type_plain f Hi) as Ht. unfold plain in Ht.
    apply andb_prop in Hi as [Hi _]. apply tok_text_plain in Hi. unfold plain in Hi.
    unfold field_json, field_name. cbn [json_ok forallb fst snd]. rewrite forallb_app, Ht, Hi.
    by destruct (sum && variant f). }
  cbn [json_ok]. rewrite !forallb_app. cbn [forallb fst snd json_ok]. rewrite Hn.
  unfold field_json in Hfs. rewrite Hfs. by destruct sum.
Qed.

Lemma const_json_ok top name rest :
  n_kind top = NODE_CONST_DECL -> n_children top = name :: rest -> decl_ok top = true ->
  json_ok (JObj (const_json name rest)) = true.
Proof.
  intros Ek Ec. unfold decl_ok. rewrite Ek, Ec. intros [Hn Ht]%andb_prop.
  apply tok_text_plain in Hn. unfold plain in Hn. unfold const_json.
  cbn [json_ok forallb fst snd]. rewrite Hn. destruct rest as [|t l]; [done|].
  destruct (has_kind NODE_TYPE_EXPR t); [|done]. apply tok_text_plain in Ht. unfold plain in Ht. by rewrite Ht.
Qed.

Lemma members_ok ast : iface_ok ast = true -> Forall (fun m => json_ok (JObj m) = true) (members_of ast).
Proof.
  intros [H _]%andb_prop. rewrite forallb_forall in H. apply Forall_forall. intros m Hm.
  apply list_elem_of_omap in Hm as (top & Hin & Hm). apply list_elem_of_In, H in Hin.
  unfold decl_json in Hm. destruct (n_kind top) eqn:Ek; try done;
    (destruct (n_children top) as [|name rest] eqn:Ec; [done|]; injection Hm as <-).
  - by apply func_json_ok.
  - by apply (type_json_ok top).
  - by apply (const_json_ok top).
Qed.

Lemma file_json ast :
  iface_ok ast = true -> exists t, file_text ast = [] ++ t ++ [10] /\ jtext (JObj (doc ast)) t.
Proof.
  intros H. pose proof (module_text_ok ast H) as [Hp _]. pose proof (members_ok ast H) as Hm.
  pose proof (decls_items (members_of ast) (lit "|  ") Hm ltac:(done)) as Hi.
  set (body := decls_text true (members_of ast) ++ _) in Hi.
  exists (chr "{" :: (lit "|  " ++ quoted (bytes_of "schema_version") ++ [] ++ chr ":" :: [32] ++ quoted (bytes_of "1.0") ++ [] ++ chr "," ::
    (lit "|  " ++ quoted (bytes_of "module") ++ [] ++ chr ":" :: [32] ++ quoted (module_text ast) ++ [] ++ chr "," ::
    (lit "|  " ++ quoted (bytes_of "version") ++ [] ++ chr ":" :: [32] ++ quoted (bytes_of "1.0.0") ++ [] ++ chr "," ::
    (lit "|  " ++ quoted exports ++ [] ++ chr ":" :: [32] ++ (chr "[" :: body ++ [chr "]"]) ++ lit "|")))) ++ [chr "}"]).
  split.
  - unfold file_text, body. repeat (progress (rewrite <- ?app_assoc, ?quoted_app; cbn [app])). done.
  - constructor. repeat (apply jm_more; [done|done|by apply plain_spelled|done|done|by constructor; apply plain_spelled|]).
    apply jm_last; [done|done|by apply plain_spelled|done|done|by constructor].
Qed.

(** ** What the reader finds in it *)

(** The name of a variant has a [$], which the reader takes away. *)
Definition decl_entry (alias : list Z) (top : Node) : option Entry :=
  match n_kind top, n_children top with
  | NODE_FUNC_DECL, name :: rest =>
      Some (EFunc (mkIFunc alias (tok_text name) (last_seg (tok_text name))
        (match err_type rest with Some _ => [] | None => ret_text rest end)
        (Some (take 64 (map (fun t => type_text t 128) (omap param_type rest))))))
  | NODE_TYPE_DECL, name :: rest =>
      let fs := field_nodes rest [] in
      Some (EType (mkIType (tok_text name) (sum_type fs)
        (map (fun f => (bare_name (printed 128 (field_name (sum_type fs) f)), field_type f)) fs)))
  | _, _ => None
  end.

Definition exported (alias : list Z) (ast : Node) : list Entry := omap (decl_entry alias) (n_children ast).

Lemma printed_printed n s : printed n (printed n s) = printed n s.
Proof. unfold printed. by rewrite take_take, Nat.min_id. Qed.

Lemma printed_type n size : printed size (type_text n size) = type_text n size.
Proof. destruct n as [k st ln co ts tl op cap cs]. cbn [type_text n_kind]. by destruct k; rewrite printed_printed. Qed.

Lemma fields_below_len chs acc : zlen acc <= 64 -> zlen (fields_below chs acc) <= 64.
Proof.
  revert acc. induction chs as [|c chs IH]; intros acc Ha; cbn [fields_below]; [done|].
  unfold MAX_FIELD_NODES. destruct (zlen acc <? 64) eqn:E; [|done]. zb. apply IH.
  case_match; rewrite ?zlen_app, ?zlen_cons; change (zlen []) with 0; lia.
Qed.

Lemma field_nodes_len chs acc : zlen acc <= 64 -> zlen (field_nodes chs acc) <= 64.
Proof.
  revert acc. induction chs as [|c chs IH]; intros acc Ha; cbn [field_nodes]; [done|].
  unfold MAX_FIELD_NODES. destruct (zlen acc <? 64) eqn:E; [|done]. zb. apply IH.
  destruct (n_kind c); try lia; [|by apply fields_below_len].
  rewrite zlen_app, zlen_cons. change (zlen []) with 0. lia.
Qed.

Lemma lead_params ts :
  lead pick_param (map (fun t => JStr (type_text t 128)) ts) = map (fun t => type_text t 128) ts.
Proof.
  induction ts as [|t ts IH]; [done|]. cbn [map lead pick_param app]. by rewrite IH, printed_type.
Qed.

Lemma field_type_printed f : printed 128 (field_type f) = field_type f.
Proof. unfold field_type. destruct (n_children f); [done|]. apply printed_type. Qed.

Lemma lead_fields sum fs :
  lead pick_field (map (field_json sum) fs)
  = map (fun f => (bare_name (printed 128 (field_name sum f)), field_type f)) fs.
Proof.
  induction fs as [|f fs IH]; [done|]. cbn [map lead pick_field field_json]. rewrite IH.
  unfold jfield. cbn [jstr].
  change (jget (bytes_of "name") _) with (Some (JStr (field_name sum f))).
  change (jget (bytes_of "type") _) with (Some (JStr (field_type f))). cbn [jstr].
  by rewrite field_type_printed.
Qed.

Lemma ret_text_printed rest : printed 128 (ret_text rest) = ret_text rest.
Proof. unfold ret_text. destruct (return_spec rest) as [[t e]|]; [apply printed_type|done]. Qed.

Lemma jentry_func alias top name rest :
  n_kind top = NODE_FUNC_DECL -> n_children top = name :: rest ->
  jentry (Some alias) (func_json top name rest) = decl_entry alias top.
Proof.
  intros Ek Ec. unfold decl_entry. rewrite Ek, Ec. unfold jentry.
  assert (Hk : jget (bytes_of "kind") (func_json top name rest) = Some (JStr (bytes_of "func"))) by done.
  assert (Hn : jget (bytes_of "name") (func_json top name rest) = Some (JStr (tok_text name))) by done.
  assert (Hp : jget (bytes_of "params") (func_json top name rest)
               = Some (JArr (map (fun t => JStr (type_text t 128)) (omap param_type rest)))).
  { unfold func_json. by destruct (extern_ top). }
  assert (Hr : jget (bytes_of "return") (func_json top name rest) = Some (JStr (ret_text rest))).
  { unfold func_json. by destruct (extern_ top). }
  assert (He : jget (bytes_of "error") (func_json top name rest)
               = option_map (fun e => JStr (type_text e 256)) (err_type rest)).
  { unfold func_json. by destruct (extern_ top), (err_type rest). }
  unfold jret, jparams. rewrite Hk, Hn, Hp, Hr, He. cbn [jstr].
  change (bytes_eqb (printed 32 (bytes_of "func")) (bytes_of "func")) with true. cbn [option_map default].
  rewrite lead_params, ret_text_printed. unfold tok_text. rewrite printed_printed.
  by destruct (err_type rest).
Qed.

Lemma jentry_type alias top name rest :
  n_kind top = NODE_TYPE_DECL -> n_children top = name :: rest ->
  jentry alias (type_json name rest) = decl_entry [] top.
Proof.
  intros Ek Ec. unfold decl_entry. rewrite Ek, Ec. unfold jentry, jis_sum, jfields, type_json.
  set (fs := field_nodes rest []). set (sum := sum_type fs). fold (field_json sum).
  set (m := _ ++ _).
  assert (Hk : jget (bytes_of "kind") m = Some (JStr (bytes_of "type"))) by done.
  assert (Hn : jget (bytes_of "name") m = Some (JStr (tok_text name))) by done.
  assert (Hs : jget (bytes_of "is_sum") m = if sum then Some (JLit (bytes_of "true")) else None).
  { unfold m. by destruct sum. }
  assert (Hf : jget (bytes_of "fields") m = Some (JArr (map (field_json sum) fs))).
  { unfold m. by destruct sum. }
  rewrite Hk, Hn, Hs, Hf. cbn [jstr].
  change (bytes_eqb (printed 32 (bytes_of "type")) (bytes_of "func")) with false.
  change (bytes_eqb (printed 32 (bytes_of "type")) (bytes_of "type")) with true. cbv iota.
  rewrite lead_fields, take_ge.
  - unfold tok_text. rewrite printed_printed. by destruct sum.
  - rewrite length_map. pose proof (field_nodes_len rest [] ltac:(done)). unfold zlen in *. fold fs in H. lia.
Qed.

Lemma omap_step {A B} (f : A -> option B) x l : omap f (x :: l) = option_list (f x) ++ omap f l.
Proof. simpl. by destruct (f x). Qed.

Lemma entries_members alias ast :
  omap (jentry (Some alias)) (members_of ast) = exported alias ast.
Proof.
  unfold members_of, exported. induction (n_children ast) as [|top tops IH]; [done|].
  assert (Hstep : (match decl_json top with Some m => jentry (Some alias) m | None => None end) = decl_entry alias top).
  { unfold decl_json. destruct (n_kind top) eqn:Ek; try (unfold decl_entry; by rewrite Ek).
    - destruct (n_children top) as [|name rest] eqn:Ec; [unfold decl_entry; by rewrite Ek, Ec|].
      by apply jentry_func.
    - destruct (n_children top) as [|name rest] eqn:Ec; [unfold decl_entry; by rewrite Ek, Ec|].
      rewrite (jentry_type _ top) by done. unfold decl_entry. by rewrite Ek, Ec.
    - unfold decl_entry. rewrite Ek. by destruct (n_children top). }
  rewrite !omap_step, <- Hstep, <- IH. destruct (decl_json top) as [m|]; [|done].
  apply omap_step.
Qed.

Lemma lead_objs_map ms : lead_objs (map JObj ms) = ms.
Proof. induction ms as [|m ms IH]; [done|]. cbn [map lead_objs]. by rewrite IH. Qed.

Lemma exported_entries alias ast :
  iface_ok ast = true -> entries (Some alias) (file_text ast) = exported alias ast.
Proof.
  intros H. destruct (file_json ast H) as (t & -> & Ht).
  rewrite (entries_json (Some alias) _ (map JObj (members_of ast)) [] [] t [10] ltac:(done) Ht).
  - by rewrite lead_objs_map, entries_members.
  - pose proof (module_text_ok ast H) as [_ Hm].
    repeat (apply Forall_cons; split); [..|by constructor]; (split; [by apply (no_bracket (fun c => negb (c =? chr "[")))|]);
      cbn [snd]; try done; by apply (no_bracket (fun c => negb (c =? chr "["))).
Qed.

Lemma file_nonzero ast : iface_ok ast = true -> Forall (fun c => c <> 0) (file_text ast).
Proof.
  intros H. destruct (file_json ast H) as (t & -> & Ht). destruct json_nonzero as (Hj & _).
  cbn [app]. apply Forall_app. split; [by eapply Hj|]. by repeat constructor.
Qed.
End Tree.
