(* ===== verification/Names.v ===== *)
(** * [resolve_names] of [src/src/names.c]

    The module scope of a compilation: predefined names, aliases of imports, and
    what the interface files of the imports add; then the passes of [Resolve].
    The contents of files are a parameter. *)

From Stdlib Require Import ZArith Lia String Ascii.
From stdpp Require Import base tactics list.
From S2P Require Import Prelude CStr Diag Lexer Ast Parser ModName Imports Resolve Iface.
Open Scope Z_scope.

(** The module scope and the interface part of the [NameEnv]. *)
Record SeedState := mkSeed { sd_scope : Scope; sd_env : NameEnv }.

Definition SM (A : Type) : Type := M SeedState A.

Definition sd_declare (name : list Z) (k : DeclKind) : SM unit :=
  modify (fun s => mkSeed (mkDecl name k None :: sd_scope s) (sd_env s)).
(** [seed_predefined] on the module scope. *)
Definition seed (name : list Z) : SM unit := sd_declare name DECL_PREDEFINED.

(** A command on the [NameEnv]. *)
Definition on_env {A} (m : M NameEnv A) : SM A :=
  fun s => match m (sd_env s) with
           | Ok (a, e) => Ok (a, mkSeed (sd_scope s) e)
           | Oob => Oob
           | NoFuel => NoFuel
           end.

Definition key (s : string) : list Z := quote :: bytes_of s ++ [quote].

(** [p && ( !next || p < next)] *)
Definition before (p next : option Z) : bool :=
  match p, next with
  | Some p, Some n => p <? n
  | Some _, None => true
  | None, _ => false
  end.

Section Buffer.
Context (buf : list Z).

(** The string behind a key: between the two quotes behind the six characters
    of [p], at most 127 characters. *)
Definition string_behind (p : Z) : SM (option (list Z * Z * Z)) :=
  do q1 <- strchr buf (p + 6) quote;
  match q1 with
  | None => ret None
  | Some q1 =>
      do q2 <- strchr buf (q1 + 1) quote;
      match q2 with
      | None => ret None
      | Some q2 =>
          let len := to_int (q2 - q1 - 1) in
          let len := if 128 <=? len then 127 else len in
          do s <- rd_range buf (q1 + 1) len;
          ret (Some (until_nul s, q1, q2))
      end
  end.

(** One variant of a sum type. *)
Definition variant_step (fe fp2 : Z) : SM (Z + unit) :=
  if fp2 <? fe then
    do vnk <- strstr buf fp2 (key "name");
    match vnk with
    | None => ret (inr tt)
    | Some vnk =>
        if fe <=? vnk then ret (inr tt)
        else
          do v <- string_behind vnk;
          match v with
          | None => ret (inr tt)
          | Some (vname, vq1, vq2) =>
              if (fe <=? vq1) || (fe <? vq2) then ret (inr tt)
              else do! seed (bare_name vname); ret (inl (vq2 + 1))
          end
    end
  else ret (inr tt).

(** The variants of the record at [tp], when it is that of a sum type. *)
Definition seed_variants (tp : Z) (next_k : option Z) : SM unit :=
  do sum_check <- strstr buf tp (key "is_sum");
  match sum_check with
  | None => ret tt
  | Some sc =>
      if before sum_check next_k then
        do farr <- strstr buf sc (key "fields");
        match farr with
        | None => ret tt
        | Some fr =>
            if before farr next_k then
              do fa <- strchr buf fr (chr "[");
              match fa with
              | None => ret tt
              | Some fa =>
                  do fe <- strchr buf fa (chr "]");
                  match fe with
                  | None => ret tt
                  | Some fe => iter (S (Z.to_nat (fe - fa))) (variant_step fe) (fa + 1)
                  end
              end
            else ret tt
        end
      else ret tt
  end.

(** One record: a type is seeded with its variants. *)
Definition type_step (tp : Z) : SM (Z + unit) :=
  do tp <- strstr buf tp (key "kind");
  match tp with
  | None => ret (inr tt)
  | Some tp =>
      do tk_type <- strstr buf tp (key "type");
      do next_k <- strstr buf (tp + 6) (key "kind");
      let next := default (tp + 6) next_k in
      match tk_type with
      | None => ret (inl next)
      | Some ty =>
          if match next_k with Some n => n <? ty | None => false end then ret (inl next)
          else
            do tnk <- strstr buf tp (key "name");
            match tnk with
            | None => ret (inl (tp + 6))
            | Some nm =>
                if match next_k with Some n => n <? nm | None => false end then ret (inl (tp + 6))
                else
                  do t <- string_behind nm;
                  match t with
                  | None => ret (inr tt)
                  | Some (tname, _, _) =>
                      do! seed tname;
                      do! seed_variants tp next_k;
                      ret (inl next)
                  end
            end
      end
  end.

Definition buf_loop {A B} (body : A -> SM (A + B)) (a : A) : SM B := iter (S (length buf)) body a.

Definition seed_types : SM unit := buf_loop type_step 0.

(** ** Modules of the library *)

(** One record: the name of a type. *)
Definition std_type_step (typ : Z) : SM (Z + unit) :=
  do typ <- strstr buf typ (key "kind");
  match typ with
  | None => ret (inr tt)
  | Some typ =>
      do next_k2 <- strstr buf (typ + 6) (key "kind");
      do is_type <- strstr buf typ (key "type");
      do! (if before is_type next_k2 then
             do nmk <- strstr buf typ (key "name");
             match nmk with
             | None => ret tt
             | Some nm =>
                 if before nmk next_k2 then
                   do t <- string_behind nm;
                   match t with Some (tnm, _, _) => seed tnm | None => ret tt end
                 else ret tt
             end
           else ret tt);
      ret (inl (default (typ + 6) next_k2))
  end.

Definition MAX_SUB_NS : Z := 16.

(** One name: its prefix, when it is neither the alias nor the module. *)
Definition sub_ns_step (alias mod_tail : list Z) (cs : Z * list (list Z))
    : SM (Z * list (list Z) + list (list Z)) :=
  let '(cursor, sub_ns) := cs in
  do cursor <- strstr buf cursor (key "name");
  match cursor with
  | None => ret (inr sub_ns)
  | Some cursor =>
      do q1 <- strchr buf (cursor + 6) quote;
      match q1 with
      | None => ret (inr sub_ns)
      | Some q1 =>
          let q1 := q1 + 1 in
          do q2 <- strchr buf q1 quote;
          match q2 with
          | None => ret (inr sub_ns)
          | Some q2 =>
              do dot <- memchr buf q1 (chr ".") (to_int (q2 - q1));
              match dot with
              | None => ret (inl (q2 + 1, sub_ns))
              | Some dot =>
                  let plen := to_int (dot - q1) in
                  if (0 <? plen) && (plen <? 64) then
                    do p <- rd_range buf q1 plen;
                    if negb (bytes_eqb p alias) && negb (bytes_eqb p mod_tail) &&
                       negb (existsb (bytes_eqb p) sub_ns) && (zlen sub_ns <? MAX_SUB_NS)
                    then ret (inl (q2 + 1, sub_ns ++ [p]))
                    else ret (inl (q2 + 1, sub_ns))
                  else ret (inl (q2 + 1, sub_ns))
              end
          end
      end
  end.

Definition seed_std (alias mod_tail : list Z) : SM unit :=
  do! buf_loop std_type_step 0;
  do subs <- buf_loop (sub_ns_step alias mod_tail) (0, []);
  each (fun s =>
    do st <- get;
    match scope_lookup [sd_scope st] s with
    | Some _ => ret tt
    | None => sd_declare s DECL_IMPORT_ALIAS
    end) subs.

End Buffer.

(** ** Files *)

Definition TKI_MAX : Z := 64 * 1024.

Section Files.
(** What a file holds, when it can be opened; the directory of the library and
    the directories of [-I]. *)
Context (read_file : list Z -> option (list Z)) (stdlib_dir : list Z) (search_paths : list (list Z)).

(** [strncpy] into 256 characters leaves no terminator behind 251. *)
Definition tki_names (path : list Z) : SM (list Z * list Z) :=
  if zlen path <? 251 then
    ret (path ++ bytes_of ".tki", dots_to_slashes path ++ bytes_of ".tki")
  else oob.

(** The first of the names that can be opened. *)
Fixpoint first_file (names : list (list Z)) : option (list Z) :=
  match names with
  | [] => None
  | n :: names => match read_file n with Some f => Some f | None => first_file names end
  end.

Definition tki_file (rel slash : list Z) : option (list Z) :=
  first_file (rel :: slash ::
    concat (map (fun sp => [printed 512 (sp ++ chr "/" :: rel); printed 512 (sp ++ chr "/" :: slash)])
              search_paths)).

(** [k] on the buffer of a file that is neither empty nor too long. *)
Definition with_file (f : option (list Z)) (k : list Z -> SM unit) : SM unit :=
  match f with
  | Some f => if (zlen f <=? 0) || (TKI_MAX <? zlen f) then ret tt else k (f ++ [0])
  | None => ret tt
  end.

Definition load_user (ie : ImportEntry) : SM unit :=
  if ie_resolved ie then
    do '(rel, slash) <- tki_names (ie_path ie);
    with_file (tki_file rel slash) (fun buf =>
      do! on_env (tki_record_exports (Some (ie_alias ie)) buf);
      seed_types buf)
  else ret tt.

Definition std_file (path : list Z) : option (list Z) :=
  read_file (printed (TKC_MAX_PATH * 2)
    (stdlib_dir ++ bytes_of "/../../stdlib/" ++ drop 4 path ++ bytes_of ".tki")).

Definition load_std (ie : ImportEntry) : SM unit :=
  if ie_resolved ie && starts_with (bytes_of "std.") (ie_path ie) then
    with_file (std_file (ie_path ie)) (fun buf =>
      do! on_env (tki_record_exports (Some (ie_alias ie)) buf);
      seed_std buf (ie_alias ie) (drop 4 (ie_path ie)))
  else ret tt.

Definition seed_alias (ie : ImportEntry) : SM unit :=
  if ie_resolved ie then sd_declare (ie_alias ie) DECL_IMPORT_ALIAS else ret tt.

Definition seed_module (symtab : list ImportEntry) : SM unit :=
  do! each seed_alias symtab;
  do! each load_user symtab;
  each load_std symtab.

(** The result ([true] for 0), the state of the resolver and the interfaces. *)
Definition resolve_names (src : list Z) (ast : Node) (symtab : list ImportEntry) (d : Diags)
    : res (bool * RState * NameEnv) :=
  match seed_module symtab (mkSeed predefined_scope env_init) with
  | Ok (_, s) =>
      match resolve_module src (sd_scope s) ast d with
      | Ok (b, r) => Ok (b, r, sd_env s)
      | Oob => Oob
      | NoFuel => NoFuel
      end
  | Oob => Oob
  | NoFuel => NoFuel
  end.
End Files.
