(* ===== verification/NamesFacts.v ===== *)
(** * The module scope of [resolve_names]

    On any interface files the scans end inside their buffers; they only add
    predefined names and aliases. *)

From Stdlib Require Import ZArith Lia String Ascii.
From stdpp Require Import base tactics list.
From S2P Require Import Prelude CStr Diag Lexer Ast Parser ModName Imports Resolve Iface.
From S2P Require Import IfaceFacts Names.
Open Scope Z_scope.

(** From [s] to [s']: names without a definition are added in front. *)
Definition grows (s s' : SeedState) : Prop :=
  sd_env s' = sd_env s /\
  exists l, sd_scope s' = l ++ sd_scope s /\
    Forall (fun d => dc_def d = None /\ (dc_kind d = DECL_PREDEFINED \/ dc_kind d = DECL_IMPORT_ALIAS)) l.

Lemma grows_refl s : grows s s.
Proof. split; [done|]. by exists []. Qed.

Lemma grows_trans s1 s2 s3 : grows s1 s2 -> grows s2 s3 -> grows s1 s3.
Proof.
  intros [E1 (l1 & S1 & F1)] [E2 (l2 & S2 & F2)]. split; [by rewrite E2|].
  exists (l2 ++ l1). rewrite S2, S1, app_assoc. split; [done|]. by apply Forall_app.
Qed.

#[global] Instance grows_preorder : PreOrder grows.
Proof. split; [exact grows_refl|exact grows_trans]. Qed.

(** Commands that only add names. *)
Definition adds {A} (m : SM A) (P : A -> Prop) : Prop := forall s, wp m (fun a s' => grows s s' /\ P a) s.

Lemma adds_ret {A} (a : A) (P : A -> Prop) : P a -> adds (ret a) P.
Proof. intros H s. apply wp_ret. split; [done|exact H]. Qed.

Lemma adds_bind {A B} (m : SM A) (k : A -> SM B) P Q :
  adds m P -> (forall a, P a -> adds (k a) Q) -> adds (bind m k) Q.
Proof.
  intros Hm Hk s. eapply wp_seq; [apply Hm|]. intros a s1 [H1 Ha].
  eapply wp_conseq; [by apply Hk|]. intros b s2 [H2 Hb]. split; [by etrans|done].
Qed.

Lemma adds_conseq {A} (m : SM A) (P Q : A -> Prop) : adds m P -> (forall a, P a -> Q a) -> adds m Q.
Proof. intros Hm H s. eapply wp_conseq; [apply Hm|]. intros a s' [Hg Ha]. split; [done|by apply H]. Qed.

Lemma adds_seed name : adds (seed name) (fun _ => True).
Proof.
  intros s. apply wp_modify. split; [|done]. split; [done|]. exists [mkDecl name DECL_PREDEFINED None].
  split; [done|]. constructor; [|done]. cbn. auto.
Qed.

Lemma adds_alias name : adds (sd_declare name DECL_IMPORT_ALIAS) (fun _ => True).
Proof.
  intros s. apply wp_modify. split; [|done]. split; [done|]. exists [mkDecl name DECL_IMPORT_ALIAS None].
  split; [done|]. constructor; [|done]. cbn. auto.
Qed.

(** A loop whose state stays in [I] and gets smaller. *)
Lemma adds_iter {A B} (I : A -> Prop) (mu : A -> nat) (body : A -> SM (A + B)) fuel a :
  (forall a, I a -> adds (body a) (fun r => match r with inl a' => I a' /\ (mu a' < mu a)%nat | inr _ => True end)) ->
  I a -> (mu a < fuel)%nat -> adds (iter fuel body a) (fun _ => True).
Proof.
  intros Hb HI Hf s. apply (wp_iter (fun a s' => I a /\ grows s s') (fun a _ => mu a)).
  - by split.
  - done.
  - intros a1 s1 [H1 G1]. eapply wp_conseq; [by apply Hb|]. intros r s2 [G2 Hr]. destruct r as [a2|b].
    + destruct Hr as [H2 Hm]. split; [split; [done|by etrans]|done].
    + split; [by etrans|done].
Qed.

Section Buffer.
Context (buf : list Z).
Hypothesis (Hterm : terminated buf) (Hlen : zlen buf < 2 ^ 31).

Abbreviation n := (zlen (until_nul buf)).

Lemma adds_cstr p : 0 <= p <= n -> adds (cstr buf p) (fun s => zlen s = n - p).
Proof.
  intros Hp s. set (l := drop (Z.to_nat p) (until_nul buf)).
  assert (Hl : zlen l = n - p) by (unfold l, zlen in *; rewrite length_drop; lia).
  assert (E : p = posn n l) by (unfold posn; lia). rewrite E.
  eapply (runs_wp _ l).
  - apply runs_cstr; [done|done|]. exists (take (Z.to_nat p) (until_nul buf)). unfold l. by rewrite take_drop.
  - split; [done|]. unfold posn. lia.
Qed.

Lemma adds_strstr p w :
  0 <= p <= n -> adds (strstr buf p w) (fun r => match r with Some q => p <= q /\ q + zlen w <= n | None => True end).
Proof.
  intros Hp. unfold strstr. eapply adds_bind; [by apply adds_cstr|cbn beta]. intros s Hs. apply adds_ret.
  destruct (find_sub w s) as [i|] eqn:E; [|done]. cbn [option_map]. apply find_sub_end in E. lia.
Qed.

Lemma adds_strchr p c :
  0 <= p <= n -> adds (strchr buf p c) (fun r => match r with Some q => p <= q < n | None => True end).
Proof.
  intros Hp. unfold strchr. eapply adds_bind; [by apply adds_cstr|cbn beta]. intros s Hs. apply adds_ret.
  destruct (index c s) as [i|] eqn:E; [|done]. cbn [option_map]. apply index_split in E as (k & r & -> & <-).
  rewrite zlen_app, zlen_cons in Hs. pose proof (zlen_nonneg k). pose proof (zlen_nonneg r). lia.
Qed.

Lemma adds_range p len : 0 <= p -> 0 <= len -> p + len <= n -> adds (rd_range buf p len) (fun _ => True).
Proof.
  intros ??? s. pose proof (until_nul_len buf). apply wp_rd_range; [done|done|lia|done].
Qed.

Lemma adds_string p :
  0 <= p -> p + 6 <= n ->
  adds (string_behind buf p)
    (fun r => match r with Some (_, q1, q2) => p + 6 <= q1 /\ q1 < q2 < n | None => True end).
Proof.
  intros H1 H2. pose proof (until_nul_len buf). unfold string_behind.
  eapply adds_bind; [apply adds_strchr; lia|cbn beta]. intros [q1|] Hq1; [|by apply adds_ret].
  eapply adds_bind; [apply adds_strchr; lia|cbn beta]. intros [q2|] Hq2; [|by apply adds_ret]. cbn zeta.
  rewrite to_int_id.
  2:{ unfold int_ok. apply andb_true_iff. split; [apply Z.leb_le|apply Z.ltb_lt]; lia. }
  eapply adds_bind.
  - apply adds_range; [lia| |]; destruct (128 <=? q2 - q1 - 1) eqn:?; zb; lia.
  - intros s _. apply adds_ret. lia.
Qed.

Lemma adds_variant fe a :
  0 <= a <= n ->
  adds (variant_step buf fe a)
    (fun r => match r with inl a' => 0 <= a' <= n /\ (Z.to_nat (fe - a') < Z.to_nat (fe - a))%nat | inr _ => True end).
Proof.
  intros Ha. unfold variant_step. destruct (a <? fe) eqn:E; [|by apply adds_ret]. zb.
  eapply adds_bind; [by apply adds_strstr|cbn beta]. intros [v|] Hv; [|by apply adds_ret].
  change (zlen (key "name")) with 6 in Hv.
  destruct (fe <=? v); [by apply adds_ret|].
  eapply adds_bind; [apply adds_string; lia|cbn beta]. intros [[[vn q1] q2]|] Hq; [|by apply adds_ret].
  destruct ((fe <=? q1) || (fe <? q2)) eqn:Eb; [by apply adds_ret|]. zb.
  eapply adds_bind; [apply adds_seed|cbn beta]. intros _ _. apply adds_ret. lia.
Qed.

Lemma adds_variants tp next :
  0 <= tp <= n -> adds (seed_variants buf tp next) (fun _ => True).
Proof.
  intros Ht. unfold seed_variants. eapply adds_bind; [by apply adds_strstr|cbn beta].
  change (zlen (key "is_sum")) with 8. intros [sc|] Hsc; [|by apply adds_ret].
  destruct (before _ _); [|by apply adds_ret].
  eapply adds_bind; [apply adds_strstr; lia|cbn beta]. change (zlen (key "fields")) with 8.
  intros [fr|] Hfr; [|by apply adds_ret]. destruct (before _ _); [|by apply adds_ret].
  eapply adds_bind; [apply adds_strchr; lia|cbn beta]. intros [fa|] Hfa; [|by apply adds_ret].
  eapply adds_bind; [apply adds_strchr; lia|cbn beta]. intros [fe|] Hfe; [|by apply adds_ret].
  apply (adds_iter (fun a => 0 <= a <= n) (fun a => Z.to_nat (fe - a))); [|lia|lia].
  intros a Ha. by apply adds_variant.
Qed.

(** A loop over the buffer moves on. *)
Definition moved (p : Z) {B} (r : Z + B) : Prop :=
  match r with inl p' => 0 <= p' <= n /\ (Z.to_nat (n - p') < Z.to_nat (n - p))%nat | inr _ => True end.

Lemma adds_type p : 0 <= p <= n -> adds (type_step buf p) (moved p).
Proof.
  intros Hp. unfold type_step. eapply adds_bind; [by apply adds_strstr|cbn beta].
  change (zlen (key "kind")) with 6. intros [tp|] Ht; [|by apply adds_ret].
  eapply adds_bind; [apply adds_strstr; lia|cbn beta]. intros ty _.
  eapply adds_bind; [apply adds_strstr; lia|cbn beta]. change (zlen (key "kind")) with 6. intros nk Hnk.
  assert (Hnext : moved p (B := unit) (inl (default (tp + 6) nk))).
  { unfold moved. destruct nk as [k|]; cbn; lia. }
  cbn zeta. destruct ty as [ty|]; [|by apply adds_ret].
  destruct (match nk with Some k => k <? ty | None => false end); [by apply adds_ret|].
  eapply adds_bind; [apply adds_strstr; lia|cbn beta]. change (zlen (key "name")) with 6.
  intros [nm|] Hnm; [|apply adds_ret; cbn; lia].
  destruct (match nk with Some k => k <? nm | None => false end); [apply adds_ret; cbn; lia|].
  eapply adds_bind; [apply adds_string; lia|cbn beta]. intros [[[t q1] q2]|] _; [|by apply adds_ret].
  eapply adds_bind; [apply adds_seed|cbn beta]. intros _ _.
  eapply adds_bind; [apply adds_variants; lia|cbn beta]. intros _ _. by apply adds_ret.
Qed.

Lemma adds_loop {B} (body : Z -> SM (Z + B)) :
  (forall p, 0 <= p <= n -> adds (body p) (moved p)) -> adds (buf_loop buf body 0) (fun _ => True).
Proof.
  intros Hb. pose proof (until_nul_len buf). pose proof (zlen_nonneg (until_nul buf)). unfold buf_loop.
  apply (adds_iter (fun p => 0 <= p <= n) (fun p => Z.to_nat (n - p))); [exact Hb|lia|].
  unfold zlen in *. lia.
Qed.

Lemma adds_seed_types : adds (seed_types buf) (fun _ => True).
Proof. apply adds_loop. exact adds_type. Qed.

Lemma adds_std_type p : 0 <= p <= n -> adds (std_type_step buf p) (moved p).
Proof.
  intros Hp. unfold std_type_step. eapply adds_bind; [by apply adds_strstr|cbn beta].
  change (zlen (key "kind")) with 6. intros [tp|] Ht; [|by apply adds_ret].
  eapply adds_bind; [apply adds_strstr; lia|cbn beta]. change (zlen (key "kind")) with 6. intros nk Hnk.
  eapply adds_bind; [apply adds_strstr; lia|cbn beta]. intros ty _.
  eapply (adds_bind _ _ (fun _ => True)).
  - destruct (before ty nk); [|by apply adds_ret].
    eapply adds_bind; [apply adds_strstr; lia|cbn beta]. change (zlen (key "name")) with 6.
    intros [nm|] Hnm; [|by apply adds_ret]. destruct (before _ _); [|by apply adds_ret].
    eapply adds_bind; [apply adds_string; lia|cbn beta]. intros [[[t q1] q2]|] _; [apply adds_seed|by apply adds_ret].
  - intros _ _. apply adds_ret. unfold moved. destruct nk as [k|]; cbn; lia.
Qed.

Lemma adds_memchr p c len :
  0 <= p -> 0 <= len -> p + len <= n ->
  adds (memchr buf p c len) (fun r => match r with Some q => p <= q < p + len | None => True end).
Proof.
  intros ??? s. pose proof (until_nul_len buf). unfold memchr. apply wp_bind.
  apply wp_rd_range; [done|done|lia|]. apply wp_ret. split; [done|].
  destruct (index c _) as [i|] eqn:E; [|done]. cbn [option_map]. apply index_split in E as (k & r & E & <-).
  apply (f_equal zlen) in E. rewrite zlen_slice, zlen_app, zlen_cons in E by lia.
  pose proof (zlen_nonneg k). pose proof (zlen_nonneg r). lia.
Qed.

Lemma adds_sub_ns alias tail cs :
  0 <= fst cs <= n ->
  adds (sub_ns_step buf alias tail cs)
    (fun r => match r with
              | inl cs' => 0 <= fst cs' <= n /\ (Z.to_nat (n - fst cs') < Z.to_nat (n - fst cs))%nat
              | inr _ => True
              end).
Proof.
  destruct cs as [c subs]. cbn [fst]. intros Hc. pose proof (until_nul_len buf). unfold sub_ns_step.
  eapply adds_bind; [by apply adds_strstr|cbn beta]. change (zlen (key "name")) with 6.
  intros [k|] Hk; [|by apply adds_ret].
  eapply adds_bind; [apply adds_strchr; lia|cbn beta]. intros [q1|] Hq1; [|by apply adds_ret]. cbn zeta.
  eapply adds_bind; [apply adds_strchr; lia|cbn beta]. intros [q2|] Hq2; [|by apply adds_ret].
  assert (Hint : forall v, 0 <= v <= n -> int_ok v = true).
  { intros v Hv. unfold int_ok. apply andb_true_iff. split; [apply Z.leb_le|apply Z.ltb_lt]; lia. }
  rewrite to_int_id by (apply Hint; lia).
  eapply adds_bind; [apply adds_memchr; lia|cbn beta]. intros [dot|] Hdot; [|apply adds_ret; cbn; lia].
  rewrite to_int_id by (apply Hint; lia).
  destruct ((0 <? dot - (q1 + 1)) && (dot - (q1 + 1) <? 64)) eqn:E; [|apply adds_ret; cbn; lia]. zb.
  eapply adds_bind; [apply adds_range; lia|cbn beta]. intros p _. case_match; apply adds_ret; cbn; lia.
Qed.

Lemma adds_each {A} (f : A -> SM unit) l :
  (forall a, adds (f a) (fun _ => True)) -> adds (each f l) (fun _ => True).
Proof.
  intros Hf. induction l as [|a l IH]; [by apply adds_ret|]. cbn [each].
  eapply adds_bind; [apply Hf|cbn beta]. intros _ _. exact IH.
Qed.

Lemma adds_seed_std alias tail : adds (seed_std buf alias tail) (fun _ => True).
Proof.
  unfold seed_std. pose proof (until_nul_len buf). pose proof (zlen_nonneg (until_nul buf)).
  eapply adds_bind; [apply adds_loop, adds_std_type|cbn beta]. intros _ _.
  eapply (adds_bind _ _ (fun _ => True)).
  - apply (adds_iter (fun cs => 0 <= fst cs <= n) (fun cs => Z.to_nat (n - fst cs))).
    + intros cs Hcs. by apply adds_sub_ns.
    + cbn. lia.
    + cbn. unfold zlen in *. lia.
  - intros subs _. apply adds_each. intros s. eapply (adds_bind _ _ (fun _ => True)).
    + intros st. apply wp_get. done.
    + intros st _. case_match; [by apply adds_ret|apply adds_alias].
Qed.
End Buffer.

(** ** Imports *)

(** What the interface file of an import declares. *)
Definition file_entries (alias : list Z) (f : option (list Z)) : list Entry :=
  match f with
  | Some f => if (zlen f <=? 0) || (TKI_MAX <? zlen f) then [] else entries (Some alias) (until_nul f)
  | None => []
  end.

Definition alias_decl (ie : ImportEntry) : option Decl :=
  if ie_resolved ie then Some (mkDecl (ie_alias ie) DECL_IMPORT_ALIAS None) else None.

(** From [s] to [s'] the entries [xs] are recorded and names are added. *)
Definition loads (xs : list Entry) (s s' : SeedState) : Prop :=
  sd_env s' = add_entries xs (sd_env s) /\
  exists l, sd_scope s' = l ++ sd_scope s /\
    Forall (fun d => dc_def d = None /\ (dc_kind d = DECL_PREDEFINED \/ dc_kind d = DECL_IMPORT_ALIAS)) l.

Lemma loads_refl s : loads [] s s.
Proof. split; [done|]. by exists []. Qed.

Lemma loads_trans xs ys s1 s2 s3 : loads xs s1 s2 -> loads ys s2 s3 -> loads (xs ++ ys) s1 s3.
Proof.
  intros [E1 (l1 & S1 & F1)] [E2 (l2 & S2 & F2)]. split.
  - rewrite E2, E1. unfold add_entries. by rewrite fold_left_app.
  - exists (l2 ++ l1). rewrite S2, S1, app_assoc. split; [done|]. by apply Forall_app.
Qed.

Lemma loads_grows s s' : grows s s' -> loads [] s s'.
Proof. intros [E H]. by split. Qed.

Lemma file_terminated f : terminated (f ++ [0]).
Proof. unfold terminated. rewrite existsb_app. cbn. by rewrite orb_true_r. Qed.

Lemma until_nul_file f : until_nul (f ++ [0]) = until_nul f.
Proof. induction f as [|c f IH]; [done|]. cbn [app until_nul]. by rewrite IH. Qed.

Lemma with_file_loads alias f k s :
  (forall buf, terminated buf -> zlen buf < 2 ^ 31 -> adds (k buf) (fun _ => True)) ->
  wp (with_file f (fun buf => do! on_env (tki_record_exports (Some alias) buf); k buf))
     (fun _ s' => loads (file_entries alias f) s s') s.
Proof.
  intros Hk. unfold with_file, file_entries. destruct f as [f|]; [|apply wp_ret, loads_refl].
  destruct ((zlen f <=? 0) || (TKI_MAX <? zlen f)) eqn:E; [apply wp_ret, loads_refl|].
  apply orb_false_elim in E as [_ E%Z.ltb_ge]. unfold TKI_MAX in E.
  assert (Hb : zlen (f ++ [0]) < 2 ^ 31) by (rewrite zlen_app, zlen_cons; change (zlen []) with 0; lia).
  pose proof (file_terminated f) as Ht. apply wp_bind. unfold wp, on_env.
  rewrite (tki_record_exports_ok (Some alias) _ Ht Hb), until_nul_file.
  pose proof (Hk _ Ht Hb (mkSeed (sd_scope s) (add_entries (entries (Some alias) (until_nul f)) (sd_env s)))) as Hw.
  unfold wp in Hw. destruct (k (f ++ [0]) _) as [[u s']| |]; [|done..]. destruct Hw as [[He Hs] _].
  cbn in He, Hs. by split.
Qed.

Lemma each_loads (f : ImportEntry -> SM unit) (xs : ImportEntry -> list Entry) l :
  (forall ie s, ie ∈ l -> wp (f ie) (fun _ s' => loads (xs ie) s s') s) ->
  forall s, wp (each f l) (fun _ s' => loads (concat (map xs l)) s s') s.
Proof.
  induction l as [|ie l IH]; intros Hf s; [apply wp_ret, loads_refl|]. cbn [each map concat].
  eapply wp_seq; [apply Hf, elem_of_cons; by left|]. intros u s1 H1. cbn beta in H1.
  eapply wp_conseq; [apply IH|].
  - intros ie' s' Hin. apply Hf, elem_of_cons. by right.
  - intros ? s2 H2. cbn beta in *. by eapply loads_trans.
Qed.

Section Imports.
Context (read_file : list Z -> option (list Z)) (stdlib_dir : list Z) (search_paths : list (list Z)).

Definition user_entries (ie : ImportEntry) : list Entry :=
  if ie_resolved ie then
    file_entries (ie_alias ie)
      (tki_file read_file search_paths (ie_path ie ++ bytes_of ".tki")
         (dots_to_slashes (ie_path ie) ++ bytes_of ".tki"))
  else [].

Definition std_entries (ie : ImportEntry) : list Entry :=
  if ie_resolved ie && starts_with (bytes_of "std.") (ie_path ie) then
    file_entries (ie_alias ie) (std_file read_file stdlib_dir (ie_path ie))
  else [].

(** A path that fits the buffer of 256 characters with its ending. *)
Definition path_fits (ie : ImportEntry) : Prop := ie_resolved ie = true -> zlen (ie_path ie) < 251.

Lemma load_user_loads ie s :
  path_fits ie -> wp (load_user read_file search_paths ie) (fun _ s' => loads (user_entries ie) s s') s.
Proof.
  intros Hp. unfold load_user, user_entries. destruct (ie_resolved ie) eqn:E; [|apply wp_ret, loads_refl].
  unfold tki_names. rewrite (proj2 (Z.ltb_lt _ _)) by by apply Hp. apply wp_bind, wp_ret.
  apply with_file_loads. intros buf H1 H2. by apply adds_seed_types.
Qed.

Lemma load_std_loads ie s :
  wp (load_std read_file stdlib_dir ie) (fun _ s' => loads (std_entries ie) s s') s.
Proof.
  unfold load_std, std_entries. destruct (_ && _); [|apply wp_ret, loads_refl].
  apply with_file_loads. intros buf H1 H2. by apply adds_seed_std.
Qed.

Lemma aliases_declared symtab s :
  wp (each seed_alias symtab)
     (fun _ s' => s' = mkSeed (rev (omap alias_decl symtab) ++ sd_scope s) (sd_env s)) s.
Proof.
  revert s. induction symtab as [|ie symtab IH]; intros s; [by destruct s|]. cbn [each].
  unfold seed_alias at 1. simpl. unfold alias_decl at 1. destruct (ie_resolved ie); cbn [option_list].
  - apply wp_bind, wp_modify. eapply wp_conseq; [apply IH|]. intros ? s' ->. cbn.
    by rewrite <- app_assoc.
  - apply wp_bind, wp_ret. apply IH.
Qed.

(** All the imports. *)
Lemma seed_module_loads symtab s :
  Forall path_fits symtab ->
  wp (seed_module read_file stdlib_dir search_paths symtab)
     (fun _ s' => loads (concat (map user_entries symtab) ++ concat (map std_entries symtab))
                    (mkSeed (rev (omap alias_decl symtab) ++ sd_scope s) (sd_env s)) s') s.
Proof.
  intros Hp. unfold seed_module. eapply wp_seq; [apply aliases_declared|]. intros u s1 ->.
  rewrite Forall_forall in Hp. eapply wp_seq.
  - apply (each_loads _ user_entries). intros ie s' Hin. by apply load_user_loads, Hp.
  - intros ? s2 H2. cbn beta in *. eapply wp_conseq.
    + apply (each_loads _ std_entries). intros ie s' _. apply load_std_loads.
    + intros ? s3 H3. cbn beta in *. by eapply loads_trans.
Qed.
End Imports.
