(* ===== verification/IfaceProps.v ===== *)
(** * What interface files and the module scope show

    The reader on any bytes, on a JSON array of exports and what its conditions leave
    out, and on what the writer writes; the module scope that [resolve_names] starts
    from. *)

From Stdlib Require Import ZArith Lia String Ascii.
From stdpp Require Import base tactics list gmap.
From S2P Require Import Prelude CStr Diag Lexer Ast Parser ModName Imports Resolve ResolveSpec.
From S2P Require Import ResolveFacts Iface IfaceFacts IfaceJson Ir IrFacts Names NamesFacts.
Open Scope Z_scope.

(** On any terminated array the reader ends inside it; it adds the entries
    of the text, the same for any tables, in order, a type only when its name is
    new. *)
Theorem exports_recorded alias buf env :
  terminated buf -> zlen buf < 2 ^ 31 ->
  tki_record_exports alias buf env = Ok (tt, add_entries (entries alias (until_nul buf)) env).
Proof. intros Ht Hl. by apply tki_record_exports_ok. Qed.

Definition broken_file : list Z := lit "{'exports': [{'kind': 'type', 'name': 'p', 'fields': [{'name': 'x', " ++ [0].

Lemma exports_recorded_witness :
  terminated broken_file /\ zlen broken_file < 2 ^ 31 /\
  tki_record_exports None broken_file env_init
  = Ok (tt, add_entries (entries None (until_nul broken_file)) env_init).
Proof.
  split; [reflexivity|]. split; [reflexivity|].
  exact (exports_recorded None broken_file env_init eq_refl eq_refl).
Defined.

(** C17: on a file in which a JSON array stands under the key [exports], whatever is
    in front of the key and behind the array, the reader records the objects at the
    head of the array, up to the first item that is none: kinds, names, parameters,
    results and fields are those of the JSON value, with the strings as they are
    spelled and cut to their arrays, and of a list the first 64 items.  The
    conditions: the key is not spelled earlier, or no opening bracket is; and in the
    array no string has an escaped quote, and only blanks stand around a colon. *)
Theorem exports_json alias head b1 b2 l t tail env :
  clear head -> blank b1 -> blank b2 -> jtext (JArr l) t ->
  forallb (fun c => negb (c =? 0)) (head ++ tail) = true ->
  zlen (head ++ quoted exports ++ b1 ++ chr ":" :: b2 ++ t ++ tail) < 2 ^ 31 - 1 ->
  tki_record_exports alias ((head ++ quoted exports ++ b1 ++ chr ":" :: b2 ++ t ++ tail) ++ [0]) env
  = Ok (tt, add_entries (omap (jentry alias) (lead_objs l)) env).
Proof.
  intros Hc H1 H2 Ht Hz Hl. rewrite forallb_app in Hz. apply andb_prop in Hz as [Hzh Hzt]. rewrite tki_record_exports_ok.
  - rewrite until_nul_file, until_nul_id; [by rewrite (entries_array alias head b1 b2 l)|].
    repeat first [apply Forall_app; split | apply Forall_cons; split; [done|]];
      try by apply (chars_nonzero (fun c => negb (c =? 0))).
    + by apply (chars_nonzero is_blank).
    + by apply (chars_nonzero is_blank).
    + destruct json_nonzero as (Hj & _). by eapply Hj.
  - apply file_terminated.
  - rewrite zlen_app, zlen_cons. change (zlen []) with 0. lia.
Qed.

(** The head of a file with imports, in an array, and an escaped quote in a note. *)
Definition sample_head : list Z :=
  lit "{|  'module': 'std.db',|  'generated': 'entries tagged \'gen\'',|  'imports': [|    {|      'alias': 'ws'|    }|  ],|  ".
Definition sample_exports : list Json :=
  [JObj [(bytes_of "kind", JStr (bytes_of "type")); (bytes_of "name", JStr (bytes_of "row")); (bytes_of "opaque", JLit (bytes_of "true"));
         (bytes_of "fields", JArr [JObj [(bytes_of "name", JStr (bytes_of "$id")); (bytes_of "type", JStr (bytes_of "[u64]"))]])];
   JObj [(bytes_of "name", JStr (bytes_of "row.str")); (bytes_of "note", JStr (bytes_of "a \u2014 b\\")); (bytes_of "kind", JStr (bytes_of "func"));
         (bytes_of "params", JArr [JStr (bytes_of "[str]")]); (bytes_of "return", JStr (bytes_of "u64"))];
   JStr (bytes_of "end"); JObj []].

Example sample_entries : omap (jentry (Some (bytes_of "db"))) (lead_objs sample_exports) =
  [EType (mkIType (bytes_of "row") false [(bytes_of "id", bytes_of "[u64]")]);
   EFunc (mkIFunc (bytes_of "db") (bytes_of "row.str") (bytes_of "str") (bytes_of "u64") (Some [bytes_of "[str]"]))].
Proof. reflexivity. Qed.

Lemma exports_json_witness :
  let t := pr (JArr sample_exports) in
  clear sample_head /\ jtext (JArr sample_exports) t /\
  tki_record_exports (Some (bytes_of "db")) ((sample_head ++ quoted exports ++ [] ++ chr ":" :: [32] ++ t ++ lit "|}|") ++ [0]) env_init
  = Ok (tt, add_entries (omap (jentry (Some (bytes_of "db"))) (lead_objs sample_exports)) env_init).
Proof.
  assert (Ht : jtext (JArr sample_exports) (pr (JArr sample_exports))) by (apply pr_spelled; vm_compute; reflexivity).
  assert (Hc : clear sample_head) by (right; vm_compute; reflexivity).
  split; [exact Hc|]. split; [exact Ht|].
  exact (exports_json (Some (bytes_of "db")) sample_head [] [32] sample_exports (pr (JArr sample_exports)) (lit "|}|") env_init
           Hc eq_refl eq_refl Ht eq_refl eq_refl).
Defined.

(** What the conditions leave out.  A quote that is escaped ends a string: here the
    bracket behind the first record is in a string for the reader, and all records
    are lost, as are the last three of [stdlib/template.tki]. *)
Example escaped_quote_loses : entries (Some (bytes_of "tpl")) (lit
  "{'exports': [ {'kind': 'func', 'name': 'tpl.escape', 'note': 'HTML-escape \' as &quot;'}, {'kind': 'func', 'name': 'tpl.load', 'params': []} ]}") = [].
Proof. vm_compute. reflexivity. Qed.

(** Two of them leave the brackets as they are, but the members behind are lost. *)
Example escaped_name_lost : entries (Some (bytes_of "tpl")) (lit
  "{'exports': [ {'note': 'the \'x\' form', 'kind': 'func', 'name': 'tpl.a'}, {'kind': 'func', 'name': 'tpl.b'} ]}")
  = [EFunc (mkIFunc (bytes_of "tpl") (bytes_of "tpl.b") (bytes_of "b") [] None)].
Proof. vm_compute. reflexivity. Qed.

(** A string [exports] in front of the key and of another array: that array is read. *)
Example earlier_exports : entries (Some (bytes_of "m")) (lit
  "{'note': 'exports', 'imports': [ {'kind': 'func', 'name': 'x'} ], 'exports': [ {'kind': 'func', 'name': 'y'} ]}")
  = [EFunc (mkIFunc (bytes_of "m") (bytes_of "x") (bytes_of "x") [] None)].
Proof. vm_compute. reflexivity. Qed.

(** A line between a key and its colon hides the member. *)
Example line_in_member : entries (Some (bytes_of "m")) (lit "{'exports': [ {'kind': 'func', 'name'|: 'y'}, {'kind': 'func', 'name': 'z'} ]}")
  = [EFunc (mkIFunc (bytes_of "m") (bytes_of "z") (bytes_of "z") [] None)].
Proof. vm_compute. reflexivity. Qed.

(** C39: [emit_interface] on a tree whose names and types need no escape writes a
    file from which the reader records exactly what the tree exports, and reports
    nothing. *)
Theorem interface_roundtrip src ast alias d env :
  iface_ok src ast = true ->
  exists text, emit_interface src true true ast d = Ok (true, Some text, d) /\
    (zlen text < 2 ^ 31 - 1 ->
     tki_record_exports (Some alias) (text ++ [0]) env = Ok (tt, add_entries (exported src alias ast) env)).
Proof.
  intros H. exists (file_text src ast). split.
  - unfold emit_interface. by rewrite (emits_interface src ast H []).
  - intros Hl. rewrite tki_record_exports_ok.
    + rewrite until_nul_file, until_nul_id by by apply file_nonzero. by rewrite exported_entries.
    + apply file_terminated.
    + rewrite zlen_app, zlen_cons. change (zlen []) with 0. lia.
Qed.

Definition shapes_text : list Z :=
  bytes_of "m=b.shapes;t=$shape{$poly:@(i64);$dot:i64};t=$p{x:i64;ys:@($str:$p)};f=area(s:$shape;k:i64):f64!$err{<1.0};".
Definition shapes_ast : Node := Eval vm_compute in ast_of shapes_text.

Lemma interface_roundtrip_witness :
  iface_ok shapes_text shapes_ast = true /\
  exists text, emit_interface shapes_text true true shapes_ast diags_init = Ok (true, Some text, diags_init) /\
    (zlen text < 2 ^ 31 - 1 ->
     tki_record_exports (Some (bytes_of "s")) (text ++ [0]) env_init
     = Ok (tt, add_entries (exported shapes_text (bytes_of "s") shapes_ast) env_init)).
Proof.
  assert (H : iface_ok shapes_text shapes_ast = true) by (vm_compute; reflexivity).
  split; [exact H|]. exact (interface_roundtrip shapes_text shapes_ast (bytes_of "s") diags_init env_init H).
Defined.

(** ** The module scope *)

Definition aliases (symtab : list ImportEntry) : Scope := rev (omap alias_decl symtab).

(** C40: with any interface files [resolve_names] ends.  The passes start from the
    predefined names, the aliases of the resolved imports and further names
    without a definition; the tables hold what the files declare; and there is an
    error exactly when the program is not well scoped there. *)
Theorem resolve_names_result read_file stdlib_dir search_paths src ast symtab d :
  spans src ast = true -> Forall path_fits symtab ->
  exists added b s,
    let sc := added ++ aliases symtab ++ predefined_scope in
    resolve_names read_file stdlib_dir search_paths src ast symtab d
    = Ok (b, s, add_entries (concat (map (user_entries read_file search_paths) symtab) ++
                             concat (map (std_entries read_file stdlib_dir) symtab)) env_init) /\
    Forall (fun x => dc_def x = None) added /\
    resolve_module src sc ast d = Ok (b, s) /\
    (rs_errors s = 0 <-> is_Some (program_ src ast ∅ (abs sc))).
Proof.
  intros Ha Hp.
  pose proof (seed_module_loads read_file stdlib_dir search_paths symtab (mkSeed predefined_scope env_init) Hp) as Hs.
  apply wp_ok in Hs as (u & st & Es & He & added & Hsc & Hf). cbn [sd_scope sd_env] in He, Hsc.
  destruct (module_run src (sd_scope st) ast d Ha) as (s & E & Herr).
  exists added, (negb (rs_had s)), s. cbn zeta. unfold aliases. rewrite <- Hsc. split_and!.
  - unfold resolve_names. by rewrite Es, E, He.
  - eapply Forall_impl; [exact Hf|]. by intros x [? _].
  - exact E.
  - exact Herr.
Qed.

(** A program that imports the module of [shapes_text]. *)
Definition shapes_file : list Z :=
  Eval vm_compute in match emit_interface shapes_text true true shapes_ast diags_init with
                     | Ok (_, Some t, _) => t
                     | _ => []
                     end.
Definition shapes_files (p : list Z) : option (list Z) :=
  if bytes_eqb p (bytes_of "b.shapes.tki") then Some shapes_file else None.
Definition shapes_imports : list ImportEntry := [mkImport (bytes_of "s") (bytes_of "b.shapes") None true].
Definition client_text : list Z := bytes_of "m=a;i=s:b.shapes;f=g(q:$p):i64{<s.area($poly(q.x);1)};".
Definition client_ast : Node := Eval vm_compute in ast_of client_text.

Lemma resolve_names_result_witness :
  spans client_text client_ast = true /\ Forall path_fits shapes_imports /\
  exists added b s,
    let sc := added ++ aliases shapes_imports ++ predefined_scope in
    resolve_names shapes_files [] [] client_text client_ast shapes_imports diags_init
    = Ok (b, s, add_entries (concat (map (user_entries shapes_files []) shapes_imports) ++
                             concat (map (std_entries shapes_files []) shapes_imports)) env_init) /\
    Forall (fun x => dc_def x = None) added /\
    resolve_module client_text sc client_ast diags_init = Ok (b, s) /\
    (rs_errors s = 0 <-> is_Some (program_ client_text client_ast ∅ (abs sc))).
Proof.
  assert (Ha : spans client_text client_ast = true) by (vm_compute; reflexivity).
  assert (Hp : Forall path_fits shapes_imports) by (repeat constructor).
  split; [exact Ha|]. split; [exact Hp|].
  exact (resolve_names_result shapes_files [] [] client_text client_ast shapes_imports diags_init Ha Hp).
Defined.

(** The diagnostics of a client of [b.shapes]. *)
Definition client_codes (t : string) : option (list Z) :=
  match resolve_names shapes_files [] [] (bytes_of t) (ast_of (bytes_of t)) shapes_imports diags_init with
  | Ok (_, s, _) => Some (map d_code (s_stream (rs_diags s)))
  | _ => None
  end.

Example variant_first : client_codes "m=a;i=s:b.shapes;f=g():$shape{<$poly(1)};" = Some [].
Proof. vm_compute. reflexivity. Qed.

(** The list of variants is cut at the first closing bracket, here that of the
    type of [$poly]: the second variant is unknown. *)
Example variants_cut : client_codes "m=a;i=s:b.shapes;f=g():$shape{<$dot(1)};" = Some [E3011].
Proof. vm_compute. reflexivity. Qed.

(** A module path of 251 characters or more is copied without its terminator. *)
Lemma long_path_unterminated path s : 251 <= zlen path -> tki_names path s = Oob.
Proof. intros H. unfold tki_names. by rewrite (proj2 (Z.ltb_ge _ _)). Qed.
