(* ===== verification/Types.v ===== *)
(** * Types of the checker: [src/src/types.c], data and resolution

    Types, their equality, the conversions of type annotations and interface
    spellings to types, and the context of the walk.  A node is named by the
    tree it is in (0 is the program, others are trees of interpolated text) and
    its path there, as the code compares and annotates nodes by their address. *)

From Stdlib Require Import ZArith Lia String Ascii.
From stdpp Require Import base tactics list gmap.
From S2P Require Import Prelude CStr Diag Lexer Ast Parser ModName Resolve Iface.
Open Scope Z_scope.

Definition E2010 : Z := 2010.
Definition E3020 : Z := 3020.
Definition E4010 : Z := 4010.
Definition E4011 : Z := 4011.
Definition E4025 : Z := 4025.
Definition E4026 : Z := 4026.
Definition E4027 : Z := 4027.
Definition E4031 : Z := 4031.
Definition E4032 : Z := 4032.
Definition E4035 : Z := 4035.
Definition E4043 : Z := 4043.
Definition E4070 : Z := 4070.
Definition E4071 : Z := 4071.
Definition E5001 : Z := 5001.
Definition E5002 : Z := 5002.
Definition W1001 : Z := 1001.
Definition W5001 : Z := 5001.

Inductive TypeKind :=
  | TY_VOID | TY_BOOL | TY_I64 | TY_U64 | TY_F64 | TY_STR | TY_I8 | TY_I16 | TY_I32
  | TY_U8 | TY_U16 | TY_U32 | TY_F32 | TY_STRUCT | TY_ARRAY | TY_FUNC | TY_ERROR_TYPE
  | TY_PTR | TY_MAP | TY_UNKNOWN.

#[global] Instance TypeKind_eq_dec : EqDecision TypeKind.
Proof. solve_decision. Defined.

(** [Type]: the fields are names with types; the value type of a map is the
    type of its one field, which has no name. *)
#[warnings="-register-all"]
Inductive Ty := mkTy {
  ty_kind : TypeKind;
  ty_name : option (list Z);
  ty_elem : option Ty;
  ty_fields : list (option (list Z) * Ty)
}.

Definition mk_type (k : TypeKind) : Ty := mkTy k None None [].
Definition is_kind (k : TypeKind) (t : Ty) : bool := bool_decide (ty_kind t = k).
Definition kind_of (ks : list TypeKind) (t : Ty) : bool := bool_decide (ty_kind t ∈ ks).
Definition unknown (t : Ty) : bool := is_kind TY_UNKNOWN t.
Definition opt_unknown (t : option Ty) : bool := match t with Some t => unknown t | None => false end.

(** ** Equality and coercion *)

Definition opaque_handle_type (t : Ty) : bool :=
  is_kind TY_STRUCT t && bool_decide (ty_fields t = [])
  && match ty_name t with Some (c :: _) => true | _ => false end.

Definition scalar_int_type : Ty -> bool :=
  kind_of [TY_I64; TY_U64; TY_I8; TY_I16; TY_I32; TY_U8; TY_U16; TY_U32; TY_BOOL].

(** [field_count > 0 ? field_types[0] : NULL] *)
Definition map_value (t : Ty) : option Ty := option_map snd (head (ty_fields t)).

(** The operands are never one object: every inference allocates its type. *)
Fixpoint types_equal (a b : Ty) : bool :=
  if (opaque_handle_type a && scalar_int_type b) || (opaque_handle_type b && scalar_int_type a)
  then true
  else if negb (bool_decide (ty_kind a = ty_kind b)) then false
  else
    let elems := match ty_elem a, ty_elem b with
                 | Some x, Some y => types_equal x y
                 | _, _ => false
                 end in
    match ty_kind a with
    | TY_STRUCT =>
        match ty_name a, ty_name b with Some x, Some y => bytes_eqb x y | _, _ => false end
    | TY_PTR => elems
    | TY_MAP =>
        if opt_unknown (ty_elem a) || opt_unknown (ty_elem b) then true
        else if negb elems then false
        else
          match ty_fields a, map_value b with
          | [], None => true
          | (_, x) :: _, Some y => if unknown x || unknown y then true else types_equal x y
          | _, _ => false
          end
    | TY_ARRAY | TY_FUNC | TY_ERROR_TYPE =>
        if opt_unknown (ty_elem a) || opt_unknown (ty_elem b) then true else elems
    | _ => true
    end.

Definition int_widens_to (from to : Ty) : bool :=
  is_kind TY_I64 to && kind_of [TY_U64; TY_BOOL] from.

Definition types_compat (from to : Ty) : bool := types_equal from to || int_widens_to from to.

Definition is_numeric : Ty -> bool :=
  kind_of [TY_I64; TY_U64; TY_F64; TY_I8; TY_I16; TY_I32; TY_U8; TY_U16; TY_U32; TY_F32].
Definition is_integer : Ty -> bool :=
  kind_of [TY_I64; TY_U64; TY_I8; TY_I16; TY_I32; TY_U8; TY_U16; TY_U32].

Fixpoint contains_ptr (t : Ty) : bool :=
  is_kind TY_PTR t || match ty_elem t with Some e => contains_ptr e | None => false end.

(** ** The context of the walk *)

Definition NodeId : Type := Z * list nat.
Definition NRef : Type := NodeId * Node.
Definition child_id (id : NodeId) (i : nat) : NodeId := (id.1, id.2 ++ [i]).

(** A declaration of the module scope, and its node in the program. *)
Record TDecl := mkTDecl { td_name : list Z; td_kind : DeclKind; td_def : option NRef }.

(** A name, as a range of the source, and the depth of its scope. *)
Record BindDepth := mkBind { bd_start : Z; bd_len : Z; bd_depth : Z }.

Definition MAX_BIND_DEPTH : Z := 256.
Definition MAX_TYPE_ERRORS : Z := 20.
Definition TKC_MAX_TYPE_REPORTED : Z := 512.
Definition MAX_BIND_INFER_DEPTH : Z := 8.

(** [Ctx] with the [arena_depth] of the [TypeEnv], the [rtype] of each node, the
    number of the next tree, and the diagnostics.  [cx_binds] is the array, of
    which the first [cx_bind_count] entries are in use. *)
Record Ctx := mkCtx {
  cx_fn_ret : option Ty;
  cx_had_error : bool;
  cx_fn_node : option NRef;
  cx_scope_depth : Z;
  cx_binds : list BindDepth;
  cx_bind_count : Z;
  cx_fn_error_count : Z;
  cx_bind_infer_depth : Z;
  cx_reported : list NodeId;
  cx_arena_depth : Z;
  cx_rtypes : gmap NodeId Ty;
  cx_trees : Z;
  cx_diags : Diags
}.

Definition TM (A : Type) : Type := M Ctx A.

Definition set_fn (r : option Ty) (n : option NRef) (s : Ctx) : Ctx :=
  mkCtx r (cx_had_error s) n (cx_scope_depth s) (cx_binds s) (cx_bind_count s)
    (cx_fn_error_count s) (cx_bind_infer_depth s) (cx_reported s) (cx_arena_depth s)
    (cx_rtypes s) (cx_trees s) (cx_diags s).
Definition set_had (s : Ctx) : Ctx :=
  mkCtx (cx_fn_ret s) true (cx_fn_node s) (cx_scope_depth s) (cx_binds s) (cx_bind_count s)
    (cx_fn_error_count s) (cx_bind_infer_depth s) (cx_reported s) (cx_arena_depth s)
    (cx_rtypes s) (cx_trees s) (cx_diags s).
(** [scope_depth] and [bind_count] *)
Definition set_scope (depth count : Z) (s : Ctx) : Ctx :=
  mkCtx (cx_fn_ret s) (cx_had_error s) (cx_fn_node s) depth (cx_binds s) count
    (cx_fn_error_count s) (cx_bind_infer_depth s) (cx_reported s) (cx_arena_depth s)
    (cx_rtypes s) (cx_trees s) (cx_diags s).
Definition set_binds (b : list BindDepth) (count : Z) (s : Ctx) : Ctx :=
  mkCtx (cx_fn_ret s) (cx_had_error s) (cx_fn_node s) (cx_scope_depth s) b count
    (cx_fn_error_count s) (cx_bind_infer_depth s) (cx_reported s) (cx_arena_depth s)
    (cx_rtypes s) (cx_trees s) (cx_diags s).
Definition set_fn_errors (n : Z) (s : Ctx) : Ctx :=
  mkCtx (cx_fn_ret s) (cx_had_error s) (cx_fn_node s) (cx_scope_depth s) (cx_binds s)
    (cx_bind_count s) n (cx_bind_infer_depth s) (cx_reported s) (cx_arena_depth s)
    (cx_rtypes s) (cx_trees s) (cx_diags s).
Definition add_infer_depth (n : Z) (s : Ctx) : Ctx :=
  mkCtx (cx_fn_ret s) (cx_had_error s) (cx_fn_node s) (cx_scope_depth s) (cx_binds s)
    (cx_bind_count s) (cx_fn_error_count s) (cx_bind_infer_depth s + n) (cx_reported s)
    (cx_arena_depth s) (cx_rtypes s) (cx_trees s) (cx_diags s).
Definition add_reported (id : NodeId) (s : Ctx) : Ctx :=
  mkCtx (cx_fn_ret s) (cx_had_error s) (cx_fn_node s) (cx_scope_depth s) (cx_binds s)
    (cx_bind_count s) (cx_fn_error_count s) (cx_bind_infer_depth s) (cx_reported s ++ [id])
    (cx_arena_depth s) (cx_rtypes s) (cx_trees s) (cx_diags s).
Definition add_arena_depth (n : Z) (s : Ctx) : Ctx :=
  mkCtx (cx_fn_ret s) (cx_had_error s) (cx_fn_node s) (cx_scope_depth s) (cx_binds s)
    (cx_bind_count s) (cx_fn_error_count s) (cx_bind_infer_depth s) (cx_reported s)
    (cx_arena_depth s + n) (cx_rtypes s) (cx_trees s) (cx_diags s).
Definition set_rtype (id : NodeId) (t : Ty) (s : Ctx) : Ctx :=
  mkCtx (cx_fn_ret s) (cx_had_error s) (cx_fn_node s) (cx_scope_depth s) (cx_binds s)
    (cx_bind_count s) (cx_fn_error_count s) (cx_bind_infer_depth s) (cx_reported s)
    (cx_arena_depth s) (<[id := t]> (cx_rtypes s)) (cx_trees s) (cx_diags s).
Definition set_tree (n : Z) (d : Diags) (s : Ctx) : Ctx :=
  mkCtx (cx_fn_ret s) (cx_had_error s) (cx_fn_node s) (cx_scope_depth s) (cx_binds s)
    (cx_bind_count s) (cx_fn_error_count s) (cx_bind_infer_depth s) (cx_reported s)
    (cx_arena_depth s) (cx_rtypes s) n d.

(** ** Reports *)

Definition tc_emit (sev : DiagSeverity) (code : Z) (n : Node) (fix_ : bool) : TM unit :=
  modify (fun s => set_tree (cx_trees s)
    (diag_emit sev code (n_start n) (n_line n) (n_col n) fix_ (cx_diags s)) s).

Definition tc_first_report (id : NodeId) : TM bool :=
  do s <- get;
  if bool_decide (id ∈ cx_reported s) then ret false
  else do! when (zlen (cx_reported s) <? TKC_MAX_TYPE_REPORTED) (modify (add_reported id)); ret true.

Definition tc_can_emit : TM bool :=
  do! modify (fun s => set_fn_errors (cx_fn_error_count s + 1) (set_had s));
  do s <- get;
  ret (cx_fn_error_count s <=? MAX_TYPE_ERRORS).

(** [if (tc_can_emit(cx)) diag_emit(DIAG_ERROR, ...)] *)
Definition tc_error (code : Z) (n : Node) (fix_ : bool) : TM unit :=
  do ok <- tc_can_emit; when ok (tc_emit DIAG_ERROR code n fix_).

(** [if (tc_first_report(cx, n) && tc_can_emit(cx)) diag_emit(DIAG_ERROR, ...)] *)
Definition tc_error_once (code : Z) (id : NodeId) (n : Node) (fix_ : bool) : TM unit :=
  do first <- tc_first_report id; when first (tc_error code n fix_).

(** A type mismatch; every caller offers a fix. *)
Definition emit_mm (n : Node) : TM unit := tc_error E4031 n true.

Section Source.
Context (src : list Z).

(** [TOKSTR] into a buffer of [size] characters. *)
Definition tokstr (size : Z) (n : Node) : TM (list Z) :=
  let l := if n_tok_len n <? size - 1 then n_tok_len n else size - 1 in
  do b <- rd_range src (n_tok_start n) l;
  ret (until_nul b).

(** ** Bindings and parameters *)

Definition record_bind_depth (name : Node) (depth : Z) : TM unit :=
  modify (fun s =>
    let count := cx_bind_count s in
    if MAX_BIND_DEPTH <=? count then s
    else
      let b := mkBind (n_tok_start name) (n_tok_len name) depth in
      set_binds (take (Z.to_nat count) (cx_binds s) ++ b :: drop (Z.to_nat count + 1) (cx_binds s))
        (count + 1) s).

(** [memcmp(src + start, name, strlen(name)) == 0] *)
Definition same_text (start : Z) (name : list Z) : TM bool :=
  do b <- rd_range src start (zlen name); ret (bytes_eqb b name).

Fixpoint last_bind (bs : list BindDepth) (name : list Z) : TM Z :=
  match bs with
  | [] => ret (-1)
  | b :: bs =>
      if bd_len b =? zlen name then
        do same <- same_text (bd_start b) name;
        if (same : bool) then ret (bd_depth b) else last_bind bs name
      else last_bind bs name
  end.

Definition lookup_bind_depth (name : list Z) : TM Z :=
  do s <- get; last_bind (rev (take (Z.to_nat (cx_bind_count s)) (cx_binds s))) name.

(** The node's first child spells [name]. *)
Definition named (name : list Z) (n : Node) : TM bool :=
  match n_children n with
  | c :: _ => if n_tok_len c =? zlen name then same_text (n_tok_start c) name else ret false
  | [] => ret false
  end.

Fixpoint param_named (name : list Z) (cs : list Node) : TM bool :=
  match cs with
  | [] => ret false
  | c :: cs =>
      do hit <- (if has_kind NODE_PARAM c then named name c else ret false);
      if (hit : bool) then ret true else param_named name cs
  end.

Definition is_param (name : list Z) : TM bool :=
  do s <- get;
  match cx_fn_node s with
  | Some (_, fn) => param_named name (n_children fn)
  | None => ret false
  end.

Section Children.
Context {A B : Type} (f : nat -> Node -> B -> TM B) (g : nat -> Node -> TM (option A)).

(** [for (i = ...; i < child_count; i++) b = f(i, children[i], b);] *)
Fixpoint fold_children (i : nat) (l : list Node) (b : B) : TM B :=
  match l with
  | [] => ret b
  | c :: l => do b <- f i c b; fold_children (S i) l b
  end.

(** The first child for which [g] finds something. *)
Fixpoint first_child (i : nat) (l : list Node) : TM (option A) :=
  match l with
  | [] => ret None
  | c :: l =>
      do r <- g i c;
      match r with Some _ => ret r | None => first_child (S i) l end
  end.
End Children.

Definition is_bind (n : Node) : bool := has_kind NODE_BIND_STMT n || has_kind NODE_MUT_BIND_STMT n.

(** The kind of the binding that wins: one that is mutable before one that is not. *)
Definition better_bind (best r : option NodeKind) : option NodeKind :=
  match r, best with
  | None, _ => best
  | Some _, None => r
  | Some (NODE_MUT_BIND_STMT | NODE_LOOP_INIT), Some NODE_BIND_STMT => r
  | Some _, Some _ => best
  end.

Fixpoint find_binding_kind (name : list Z) (root : Node) : TM (option NodeKind) :=
  do b1 <- (if is_bind root then named name root else ret false);
  let best := if (b1 : bool) then Some (n_kind root) else None in
  do b2 <- (if negb (bool_decide (best = Some NODE_MUT_BIND_STMT)) && has_kind NODE_LOOP_INIT root
            then named name root else ret false);
  let best := if (b2 : bool) then Some NODE_LOOP_INIT else best in
  fold_children (fun _ c best => do r <- find_binding_kind name c; ret (better_bind best r))
    0 (n_children root) best.

Fixpoint find_binding_node (name : list Z) (id : NodeId) (root : Node) : TM (option NRef) :=
  do hit <- (if is_bind root || has_kind NODE_LOOP_INIT root then named name root else ret false);
  if (hit : bool) then ret (Some (id, root))
  else first_child (fun i c => find_binding_node name (child_id id i) c) 0 (n_children root).

(** ** Types of interfaces *)

Definition scalar_names : list (list Z * TypeKind) :=
  map (fun p => (bytes_of p.1, p.2))
    [("void", TY_VOID); ("bool", TY_BOOL); ("i64", TY_I64); ("u64", TY_U64); ("f64", TY_F64);
     ("str", TY_STR); ("i8", TY_I8); ("i16", TY_I16); ("i32", TY_I32); ("u8", TY_U8);
     ("u16", TY_U16); ("u32", TY_U32); ("f32", TY_F32); ("Byte", TY_U8)]%string.

Definition find_scalar (table : list (list Z * TypeKind)) (s : list Z) : option Ty :=
  option_map (fun p => mk_type p.2) (find (fun p => bytes_eqb p.1 s) table).

Definition tki_scalar_type (s : list Z) : option Ty :=
  find_scalar ((bytes_of "byte", TY_U8) :: scalar_names) s.

Definition has_char (c : Z) (s : list Z) : bool := existsb (Z.eqb c) s.

(** A spelling that may name a type of an interface. *)
Definition plain_spelling (sp : list Z) : bool :=
  match sp with
  | [] => false
  | c :: _ => negb ((c =? chr "[") || (c =? chr "@") || has_char (chr "!") sp || has_char (chr ".") sp)
  end.

(** [room] is 4 less the depth. *)
Fixpoint imported_struct_type (env : NameEnv) (room : nat) (tname : list Z) : option Ty :=
  match tname, imported_type_lookup env tname with
  | [], _ | _, None => None
  | _, Some it =>
      if it_is_sum it then None
      else
        let field_type sp :=
          match tki_scalar_type sp with
          | Some t => t
          | None =>
              match room with
              | O => mk_type TY_UNKNOWN
              | S room =>
                  if plain_spelling sp then
                    match imported_struct_type env room sp with
                    | Some t => t
                    | None => mk_type TY_UNKNOWN
                    end
                  else mk_type TY_UNKNOWN
              end
          end in
        Some (mkTy TY_STRUCT (Some (it_name it)) None
                (map (fun f => (Some f.1, field_type f.2)) (it_fields it)))
  end.

(** ** Types of annotations *)

Fixpoint tc_lookup (scope : list TDecl) (name : list Z) : option TDecl :=
  match scope with
  | [] => None
  | d :: scope => if bytes_eqb (td_name d) name then Some d else tc_lookup scope name
  end.

Definition MAX_STRUCT_FIELDS : nat := 64.

(** The fields of a type declaration, the first 64 of them. *)
Definition decl_fields (decl : Node) : list Node :=
  take MAX_STRUCT_FIELDS (concat (map (fun c =>
    match n_kind c with
    | NODE_FIELD => [c]
    | NODE_STMT_LIST => filter (fun f => n_kind f = NODE_FIELD) (n_children c)
    | _ => []
    end) (drop 1 (n_children decl)))).

Context (scope : list TDecl) (env : NameEnv).

(** The type a local declaration describes. *)
Definition resolve_decl (resolve_type : Node -> TM Ty) (decl : Node) : TM Ty :=
  do name <- match n_children decl with
             | nn :: _ => do s <- tokstr 128 nn; ret (Some s)
             | [] => ret None
             end;
  do fields <- (fix go (fs : list Node) : TM (list (option (list Z) * Ty)) :=
    match fs with
    | [] => ret []
    | f :: fs =>
        do fnb <- tokstr 128 f;
        do t <- match n_children f with
                | c :: _ => resolve_type c
                | [] => ret (mk_type TY_UNKNOWN)
                end;
        do l <- go fs;
        ret ((Some fnb, t) :: l)
    end) (decl_fields decl);
  ret (mkTy TY_STRUCT name None fields).

Definition resolve_name (resolve_type : Node -> TM Ty) (nb : list Z) : TM Ty :=
  match find_scalar scalar_names nb with
  | Some t => ret t
  | None =>
      if bytes_eqb nb (bytes_of "none") then ret (mkTy TY_STRUCT (Some nb) None [])
      else
        let imported := default (mk_type TY_UNKNOWN) (imported_struct_type env 4 nb) in
        match tc_lookup scope nb with
        | Some d =>
            match td_def d with
            | Some (_, def) =>
                if has_kind NODE_TYPE_DECL def then resolve_decl resolve_type def else ret imported
            | None => ret imported
            end
        | None => ret imported
        end
  end.

(** The type of the first child, when there is one. *)
Definition resolve_first (resolve_type : Node -> TM Ty) (cs : list Node) : TM (option Ty) :=
  match cs with
  | c :: _ => do t <- resolve_type c; ret (Some t)
  | [] => ret None
  end.

Definition resolve_step (resolve_type : Node -> TM Ty) (n : Node) : TM Ty :=
  do nb <- tokstr 128 n;
  match n_kind n with
  | NODE_PTR_TYPE =>
      do e <- resolve_first resolve_type (n_children n); ret (mkTy TY_PTR None e [])
  | NODE_ARRAY_TYPE =>
      do e <- resolve_first resolve_type (n_children n); ret (mkTy TY_ARRAY None e [])
  | NODE_MAP_TYPE =>
      do k <- resolve_first resolve_type (n_children n);
      do v <- resolve_first resolve_type (drop 1 (n_children n));
      ret (mkTy TY_MAP None k match v with Some v => [(None, v)] | None => [] end)
  | _ => resolve_name resolve_type nb
  end.

(** A type that contains itself through its fields never resolves. *)
Fixpoint resolve_type (fuel : nat) (n : Node) : TM Ty :=
  match fuel with
  | O => no_fuel
  | S f => resolve_step (resolve_type f) n
  end.

Definition resolve_return_spec (resolve_type : Node -> TM Ty) (rspec : Node) : TM Ty :=
  match n_children rspec with
  | [] => ret (mk_type TY_VOID)
  | [s] => resolve_type s
  | s :: e :: _ =>
      do success <- resolve_type s;
      do err <- resolve_type e;
      ret (mkTy TY_ERROR_TYPE (ty_name err) (Some success) (ty_fields err))
  end.

End Source.
