(* ===== verification/Infer.v ===== *)
(** * Type inference: [infer] and [type_check] of [src/src/types.c]

    One definition per rule of [infer_impl], over the recursive calls; [infer]
    ties them with fuel, since the type of a name is that of the initialiser of
    its binding, wherever that is.  What [llvm.c] knows of the runtime library is
    an interface. *)

From Stdlib Require Import ZArith Lia String Ascii.
From stdpp Require Import base tactics list gmap.
From S2P Require Import Prelude CStr Diag Lexer Ast Parser ModName Resolve Iface Types.
Open Scope Z_scope.

(** The three queries of the checker to [llvm.c]: the symbol of a member of a
    module of the library, its number of parameters (below 0 when unknown), and
    whether it ignores its only one. *)
Class Runtime := {
  stdlib_symbol_for : list Z -> list Z -> option (list Z);
  stdlib_glue_arity : list Z -> Z;
  stdlib_glue_ignores_only_arg : list Z -> bool
}.

Definition pure_kinds : list NodeKind :=
  [NODE_BINARY_EXPR; NODE_UNARY_EXPR; NODE_INT_LIT; NODE_FLOAT_LIT; NODE_STR_LIT; NODE_BOOL_LIT;
   NODE_IDENT; NODE_FIELD_EXPR; NODE_INDEX_EXPR; NODE_CAST_EXPR; NODE_ARRAY_LIT; NODE_MAP_LIT;
   NODE_STRUCT_LIT].
Definition tail_fix_is_certain (expr : Node) : bool := bool_decide (n_kind expr ∈ pure_kinds).

Definition match_arms_all_pure (m : Node) : bool :=
  let arms := filter (fun a => n_kind a = NODE_MATCH_ARM /\ n_children a <> []) (n_children m) in
  forallb (fun a => match last (n_children a) with
                    | Some body => tail_fix_is_certain body
                    | None => false
                    end) arms
  && negb (bool_decide (arms = [])).

(** ** Modelled signatures of the library *)

Record StdStrSig := mkSig {
  sg_module : list Z; sg_fn : list Z; sg_str_params : Z; sg_ret : TypeKind }.

Definition s_std_str_sigs : list StdStrSig :=
  map (fun p => let '(m, f, ps, r) := p in mkSig (bytes_of m) (bytes_of f) ps r)
    [("std.io", "print", 1, TY_UNKNOWN); ("std.io", "println", 1, TY_UNKNOWN);
     ("std.io", "eprint", 1, TY_UNKNOWN); ("std.io", "eprintln", 1, TY_UNKNOWN);
     ("std.str", "contains", 3, TY_BOOL); ("std.str", "eq", 3, TY_BOOL);
     ("std.str", "gt", 3, TY_BOOL); ("std.str", "lt", 3, TY_BOOL);
     ("std.str", "ge", 3, TY_BOOL); ("std.str", "le", 3, TY_BOOL);
     ("std.str", "startswith", 3, TY_BOOL); ("std.str", "endswith", 3, TY_BOOL)]%string.

(** The alias and the member of a call [alias.member(...)]. *)
Definition member_call (call : Node) : option (Node * Node) :=
  match n_children call with
  | callee :: _ =>
      match n_kind callee, n_children callee with
      | NODE_FIELD_EXPR, a :: m :: _ => if has_kind NODE_IDENT a then Some (a, m) else None
      | _, _ => None
      end
  | [] => None
  end.

Section Check.
Context {rt : Runtime} (src : list Z) (scope : list TDecl) (env : NameEnv) (root : Node).

(** The segments of a module path joined with points, in a buffer of [size]. *)
Fixpoint join_path (size : Z) (buf : list Z) (segs : list Node) : TM (option (list Z)) :=
  match segs with
  | [] => ret (match buf with [] => None | _ => Some buf end)
  | seg :: segs =>
      do sb <- tokstr src 128 seg;
      let used := zlen buf in
      let need := zlen sb + (if 0 <? used then 1 else 0) in
      if size <=? used + need + 1 then ret None
      else join_path size (buf ++ (if 0 <? used then [chr "."] else []) ++ sb) segs
  end.

Definition import_module_path (alias : list Z) : TM (option (list Z)) :=
  do r <- first_child (fun _ imp =>
    match n_kind imp, n_children imp with
    | NODE_IMPORT, an :: pn :: _ =>
        if has_kind NODE_MODULE_PATH pn then
          do ab <- tokstr src 128 an;
          if bytes_eqb ab alias then
            do p <- join_path 256 [] (n_children pn); ret (Some p)
          else ret None
        else ret None
    | _, _ => ret None
    end) 0 (n_children root);
  ret (match r with Some p => p | None => None end).

Definition std_sig_for (call : Node) : TM (option StdStrSig) :=
  match member_call call with
  | None => ret None
  | Some (a, m) =>
      do alias <- tokstr src 128 a;
      do method <- tokstr src 128 m;
      do mpath <- import_module_path alias;
      match mpath with
      | None => ret None
      | Some mpath =>
          ret (find (fun s => bytes_eqb (sg_module s) mpath && bytes_eqb (sg_fn s) method) s_std_str_sigs)
      end
  end.

(** The [rtype] of a node; the null pointer and an unknown type alike tell nothing. *)
Definition known_rtype (id : NodeId) : TM Ty :=
  do s <- get; ret (default (mk_type TY_UNKNOWN) (cx_rtypes s !! id)).

(** The type of the argument of a modelled call, as far as it is known. *)
Definition std_arg_type (id : NodeId) (arg : Node) : TM Ty :=
  do at0 <- known_rtype id;
  do at1 <- (if unknown at0 && has_kind NODE_CALL_EXPR arg then
               do asig <- std_sig_for arg;
               match asig with
               | Some sg => ret (if bool_decide (sg_ret sg = TY_UNKNOWN) then at0 else mk_type (sg_ret sg))
               | None => ret at0
               end
             else ret at0);
  match n_kind arg, n_children arg with
  | NODE_FIELD_EXPR, _ :: m :: _ =>
      if unknown at1 then
        do fnm <- tokstr src 128 m;
        do bt <- known_rtype (child_id id 0);
        ret (if bytes_eqb fnm (bytes_of "len") && negb (is_kind TY_STRUCT bt)
             then mk_type TY_U64 else at1)
      else ret at1
  | _, _ => ret at1
  end.

(** The arguments from [a] on; the shift is undefined from 32 on. *)
Fixpoint std_args (id : NodeId) (mask : Z) (a : nat) (args : list Node) : TM unit :=
  match args with
  | [] => ret tt
  | arg :: args =>
      if 32 <=? Z.of_nat a - 1 then oob
      else if Z.testbit mask (Z.of_nat a - 1) then
        do at_ <- std_arg_type (child_id id a) arg;
        if unknown at_ || is_kind TY_STR at_ then std_args id mask (S a) args
        else
          do ok <- tc_can_emit;
          if negb ok then ret tt
          else
            do! tc_emit DIAG_ERROR E4031 arg
                  (kind_of [TY_I64; TY_U64; TY_F64; TY_BOOL; TY_I8; TY_I16; TY_I32; TY_U8; TY_U16] at_);
            std_args id mask (S a) args
      else std_args id mask (S a) args
  end.

Definition check_std_str_args (id : NodeId) (call : Node) : TM unit :=
  do sig <- std_sig_for call;
  match sig with
  | None => ret tt
  | Some sig => std_args id (sg_str_params sig) 1 (drop 1 (n_children call))
  end.

(** ** Calls of imported members *)

Definition is_std (mpath : list Z) : bool := starts_with (bytes_of "std.") mpath.

(** The arity, below 0 when it is not known, and the symbol. *)
Definition tki_glue_arity_for (mpath member : list Z) : Z * option (list Z) :=
  if negb (is_std mpath) then (-1, None)
  else match stdlib_symbol_for mpath member with
       | None => (-1, None)
       | Some sym => (stdlib_glue_arity sym, Some sym)
       end.

(** The error a call of [member] of [mpath] with [actual] arguments deserves. *)
Definition tki_call_error (alias mpath member : list Z) (actual : Z) : option Z :=
  let '(abi, sym) := tki_glue_arity_for mpath member in
  if 0 <=? abi then
    let dummy_param := (actual =? 0) && (abi =? 1) &&
      match sym with Some s => stdlib_glue_ignores_only_arg s | None => false end in
    if negb (actual =? abi) && negb dummy_param then Some E4026 else None
  else
    let have_iface := imported_alias_has_funcs env alias in
    let f := if have_iface then imported_func_lookup env alias member else None in
    match sym, f with
    | Some _, None => if is_std mpath then Some E4027 else None
    | _, _ =>
        if is_std mpath || negb have_iface then None
        else match f with
             | None => Some E4027
             | Some f =>
                 match if_params f with
                 | None => None
                 | Some ps => if actual =? zlen ps then None else Some E4026
                 end
             end
    end.

Definition check_tki_call (call : Node) : TM unit :=
  match member_call call with
  | None => ret tt
  | Some (a, m) =>
      do alias <- tokstr src 128 a;
      do member <- tokstr src 128 m;
      do mpath <- import_module_path alias;
      match mpath with
      | None => ret tt
      | Some mpath =>
          let other := match tc_lookup scope alias with
                       | Some d => negb (bool_decide (td_kind d = DECL_IMPORT_ALIAS))
                       | None => false
                       end in
          if (other : bool) then ret tt
          else match tki_call_error alias mpath member (zlen (n_children call) - 1) with
               | None => ret tt
               | Some code => tc_error code call true
               end
      end
  end.

(** ** The rules *)

Section Rules.
Context (resolve : Node -> TM Ty) (infer : NodeId -> Node -> TM Ty).

Definition infer_child (id : NodeId) (n : Node) (i : nat) : TM Ty :=
  match n_children n !! i with
  | Some c => infer (child_id id i) c
  | None => ret (mk_type TY_UNKNOWN)
  end.

(** [for (i = from; i < child_count; i++) infer(cx, children[i]);] *)
Definition infer_from (id : NodeId) (n : Node) (from : nat) : TM unit :=
  fold_children (fun i c _ => do _ <- infer (child_id id i) c; ret tt) from
    (drop from (n_children n)) tt.

(** A computation in a deeper scope: the depth and the bindings are restored. *)
Definition in_block {A} (m : TM A) : TM A :=
  do s <- get;
  do! modify (set_scope (cx_scope_depth s + 1) (cx_bind_count s));
  do r <- m;
  do! modify (fun s' => set_scope (cx_scope_depth s' - 1) (cx_bind_count s) s');
  ret r.

(** *** Interpolated text *)

(** From inside a parenthesis: where it closes, and the depth there. *)
Fixpoint close_paren (j depth : Z) (instr : bool) (prev : Z) (l : list Z) : Z * Z :=
  match l with
  | [] => (j, depth)
  | c :: l =>
      if instr then close_paren (j + 1) depth (negb ((c =? 34) && negb (prev =? 92))) c l
      else if c =? 34 then close_paren (j + 1) depth true c l
      else if c =? chr "(" then close_paren (j + 1) (depth + 1) false c l
      else if c =? chr ")" then
        if depth - 1 =? 0 then (j, 0) else close_paren (j + 1) (depth - 1) false c l
      else close_paren (j + 1) depth false c l
  end.

Definition shift_tok_offsets (delta : Z) (anchor n : Node) : Node :=
  interp_reloc delta (n_line anchor) (n_tok_start anchor) (n_col anchor) n.

(** Lex and parse the text of a segment in its wrapper; a tree of its own. *)
Definition reparse (seg : list Z) : TM (option (Z * Node)) := fun s =>
  let wrap := interp_wrapper seg in
  match lex_inner wrap (zlen seg + 32) (cx_diags s) with
  | Oob => Oob
  | NoFuel => NoFuel
  | Ok (None, d) => Ok (None, set_tree (cx_trees s) d s)
  | Ok (Some ts, d) =>
      match parse ts wrap PROFILE_DEFAULT d with
      | Oob => Oob
      | NoFuel => NoFuel
      | Ok (root, p) =>
          Ok (option_map (pair (cx_trees s)) (interp_unwrap root),
              set_tree (cx_trees s + 1) (p_diags p) s)
      end
  end.

(** A local without annotation that is bound to an array or a map literal. *)
Definition composite_local (expr : Node) : TM bool :=
  do nb <- tokstr src 128 expr;
  do s <- get;
  do r <- match cx_fn_node s with
          | Some (id, fn) => find_binding_node src nb id fn
          | None => ret None
          end;
  match r with
  | Some (bid, bn) =>
      match n_children bn with
      | _ :: init :: _ =>
          if is_bind bn && (has_kind NODE_ARRAY_LIT init || has_kind NODE_MAP_LIT init) then
            do it <- infer (child_id bid 1) init; ret (kind_of [TY_ARRAY; TY_MAP] it)
          else ret false
      | _ => ret false
      end
  | None => ret false
  end.

Definition check_interp_expr (strnode : Node) (tree : Z) (expr : Node) : TM unit :=
  do t <- infer (tree, []) expr;
  do composite <- (if kind_of [TY_ARRAY; TY_MAP; TY_STRUCT] t then ret true
                   else if has_kind NODE_IDENT expr then composite_local expr else ret false);
  when composite (do! tc_emit DIAG_ERROR E4032 strnode true; modify set_had).

(** One position of the literal's text. *)
Definition interp_check_step (strnode : Node) (raw : list Z) (i : Z) : TM (Z + unit) :=
  if i + 1 <? zlen raw then
    if negb ((byte_at raw i =? 92) && (byte_at raw (i + 1) =? chr "(")) then ret (inl (i + 1))
    else
      let '(j, depth) := close_paren (i + 2) 1 false (chr "(") (drop (Z.to_nat (i + 2)) raw) in
      if negb (depth =? 0) then ret (inr tt)
      else
        let elen := j - (i + 2) in
        if elen <=? 0 then ret (inl (j + 1))
        else
          do r <- reparse (slice raw (i + 2) elen);
          do! match r with
              | Some (tree, e) =>
                  let delta := n_tok_start strnode + i + 2 - INTERP_WRAP_LEN in
                  check_interp_expr strnode tree (shift_tok_offsets delta strnode e)
              | None => ret tt
              end;
          ret (inl (j + 1))
  else ret (inr tt).

Definition check_interp_composites (strnode : Node) : TM unit :=
  let tl := n_tok_len strnode in
  if (tl <=? 3) || (1024 <=? tl) then ret tt
  else
    do raw <- rd_range src (n_tok_start strnode) tl;
    iter (S (Z.to_nat tl)) (interp_check_step strnode raw) 0.

(** *** Literals *)

(** The name of an initialised field must be one of the struct's. *)
Definition check_field_init (st : Ty) (is_sum_lit : bool) (id : NodeId) (fi : Node) : TM unit :=
  if is_sum_lit || negb (is_kind TY_STRUCT st) || (n_tok_len fi <=? 0) then ret tt
  else
    do fnb <- tokstr src 128 fi;
    if bool_decide (fnb = []) || existsb (fun f => bool_decide (f.1 = Some fnb)) (ty_fields st)
       || bool_decide (ty_fields st = [])
    then ret tt
    else tc_error_once E4025 id fi true.

(** The type is that of an imported sum type. *)
Definition sum_type (st : Ty) : bool :=
  is_kind TY_STRUCT st &&
  match ty_name st with
  | Some name => match imported_type_lookup env name with Some it => it_is_sum it | None => false end
  | None => false
  end.

Definition infer_struct_lit (id : NodeId) (node : Node) : TM Ty :=
  do st <- resolve node;
  let is_sum_lit := sum_type st in
  do! fold_children (fun i fi _ =>
        if has_kind NODE_FIELD_INIT fi then
          do! match n_children fi with
              | v :: _ => do _ <- infer (child_id (child_id id i) 0) v; ret tt
              | [] => ret tt
              end;
          check_field_init st is_sum_lit (child_id id i) fi
        else ret tt) 0 (n_children node) tt;
  ret st.

(** The first element gives the type; the others are not visited. *)
Definition infer_array_lit (id : NodeId) (node : Node) : TM Ty :=
  do e <- infer_child id node 0; ret (mkTy TY_ARRAY None (Some e) []).

Definition clash (a b : Ty) : bool := negb (unknown b) && negb (unknown a) && negb (types_equal a b).

Definition infer_map_lit (id : NodeId) (node : Node) : TM Ty :=
  do kv <- fold_children (fun i entry kv =>
    if has_kind NODE_MAP_ENTRY entry then
      do ek <- infer_child (child_id id i) entry 0;
      do ev <- infer_child (child_id id i) entry 1;
      match kv with
      | None => ret (Some (ek, ev))
      | Some (kt, vt) =>
          do! when (clash kt ek) (tc_error E4043 entry true);
          do! when (clash vt ev) (tc_error E4043 entry true);
          ret kv
      end
    else ret kv) 0 (n_children node) None;
  let '(kt, vt) := default (mk_type TY_UNKNOWN, mk_type TY_UNKNOWN) kv in
  ret (mkTy TY_MAP None (Some kt) [(None, vt)]).

(** *** Names *)

Definition call_decl_ret_type (call : Node) : TM (option Ty) :=
  match member_call call with
  | Some (a, m) =>
      do ab <- tokstr src 128 a;
      do mb <- tokstr src 128 m;
      ret (match imported_func_ret env ab mb with
           | Some r => if has_char (chr "!") r then None else imported_struct_type env 4 r
           | None => None
           end)
  | None =>
      match n_children call with
      | [] => ret None
      | callee :: _ =>
          do nb <- tokstr src 128 callee;
          match tc_lookup scope nb with
          | Some (mkTDecl _ _ (Some (_, fn))) =>
              if has_kind NODE_FUNC_DECL fn then
                match find (fun c => has_kind NODE_RETURN_SPEC c && negb (bool_decide (n_children c = [])))
                        (n_children fn) with
                | Some spec => do t <- resolve_return_spec resolve spec; ret (Some t)
                | None => ret None
                end
              else ret None
          | _ => ret None
          end
      end
  end.

Definition valued (t : Ty) : option Ty := if kind_of [TY_UNKNOWN; TY_VOID] t then None else Some t.

(** The type of the binding [bn] without annotation, from its initialiser. *)
Definition bind_init_type (id : NodeId) (bn : Node) : TM (option Ty) :=
  match n_children bn with
  | _ :: init :: _ =>
      match n_kind init with
      | NODE_CALL_EXPR =>
          do r <- call_decl_ret_type init;
          ret (match r with Some t => valued t | None => None end)
      | NODE_IDENT =>
          do s <- get;
          if MAX_BIND_INFER_DEPTH <=? cx_bind_infer_depth s then ret None
          else
            do! modify (add_infer_depth 1);
            do it <- infer (child_id id 1) init;
            do! modify (add_infer_depth (-1));
            ret (valued it)
      | NODE_STRUCT_LIT | NODE_FIELD_EXPR | NODE_MAP_LIT =>
          do it <- infer (child_id id 1) init;
          ret (if kind_of [TY_MAP; TY_STRUCT] it then Some it else None)
      | _ => ret None
      end
  | _ => ret None
  end.

(** The type of a binding: its annotation, or from its initialiser. *)
Definition binding_type (id : NodeId) (bn : Node) : TM (option Ty) :=
  match n_children bn with
  | _ :: ann :: _ :: _ => do t <- resolve ann; ret (Some t)
  | _ :: _ :: _ => do it <- bind_init_type id bn; ret (Some (default (mk_type TY_UNKNOWN) it))
  | _ => ret None
  end.

(** The type of a parameter of the function. *)
Fixpoint param_type (nb : list Z) (cs : list Node) : TM (option Ty) :=
  match cs with
  | [] => ret None
  | pc :: cs =>
      match n_kind pc, n_children pc with
      | NODE_PARAM, pname :: rest =>
          do pn <- tokstr src 128 pname;
          match rest with
          | t :: _ => if bytes_eqb pn nb then do t <- resolve t; ret (Some t) else param_type nb cs
          | [] => param_type nb cs
          end
      | _, _ => param_type nb cs
      end
  end.

(** The type of a name of the function: a parameter, or the first binding. *)
Definition local_type (nb : list Z) : TM (option Ty) :=
  do s <- get;
  match cx_fn_node s with
  | None => ret None
  | Some (fid, fn) =>
      do p <- param_type nb (n_children fn);
      match p with
      | Some _ => ret p
      | None =>
          do r <- find_binding_node src nb fid fn;
          match r with
          | Some (bid, bn) => if is_bind bn then binding_type bid bn else ret None
          | None => ret None
          end
      end
  end.

(** The type of a declaration of the module. *)
Definition def_type (id : NodeId) (def : Node) : TM Ty :=
  do b <- (if is_bind def then binding_type id def else ret None);
  match b with
  | Some t => ret t
  | None =>
      match n_kind def, n_children def with
      | NODE_PARAM, _ :: t :: _ => resolve t
      | NODE_FUNC_DECL, _ => ret (mk_type TY_FUNC)
      | _, _ => ret (mk_type TY_UNKNOWN)
      end
  end.

Definition infer_ident (node : Node) : TM Ty :=
  do nb <- tokstr src 128 node;
  match tc_lookup scope nb with
  | Some (mkTDecl _ _ (Some (id, def))) => def_type id def
  | _ => do t <- local_type nb; ret (default (mk_type TY_UNKNOWN) t)
  end.

(** *** Operators *)

Definition infer_unary (id : NodeId) (node : Node) : TM Ty :=
  do op <- infer_child id node 0;
  if tk_eqb (n_op node) TK_MINUS
     && negb (kind_of [TY_UNKNOWN; TY_I64; TY_F64; TY_I8; TY_I16; TY_I32; TY_F32] op)
  then do! tc_error E4031 node true; ret (mk_type TY_UNKNOWN)
  else if tk_eqb (n_op node) TK_TILDE && negb (unknown op) && negb (is_integer op)
  then do! tc_error E4031 node true; ret (mk_type TY_UNKNOWN)
  else ret op.

Definition mismatch (node : Node) (t : TypeKind) : TM Ty := do! emit_mm node; ret (mk_type t).

Definition is_lit (node : Node) (i : nat) : bool :=
  match n_children node !! i with Some c => has_kind NODE_INT_LIT c | None => false end.

Definition op_in (node : Node) (ops : list TokenKind) : bool := bool_decide (n_op node ∈ ops).

Definition infer_logic (node : Node) (l r : Ty) : TM Ty :=
  if negb (is_kind TY_BOOL l) || negb (is_kind TY_BOOL r) then mismatch node TY_BOOL
  else ret (mk_type TY_BOOL).

Definition infer_bitwise (node : Node) (l r : Ty) : TM Ty :=
  if negb (is_integer l) || negb (is_integer r) || negb (types_equal l r) then mismatch node TY_UNKNOWN
  else ret l.

Definition infer_modulo (node : Node) (l r : Ty) : TM Ty :=
  let l_flt := is_numeric l && negb (is_integer l) in
  let r_flt := is_numeric r && negb (is_integer r) in
  let l_lit := is_lit node 0 in
  let r_lit := is_lit node 1 in
  if is_integer l && is_integer r then
    if negb (types_equal l r) && xorb l_lit r_lit then ret (if l_lit then r else l)
    else if types_equal l r then ret l
    else mismatch node TY_UNKNOWN
  else if l_flt && r_flt && types_equal l r then ret l
  else mismatch node TY_UNKNOWN.

Definition ARITH : list TokenKind := [TK_PLUS; TK_MINUS; TK_STAR; TK_SLASH].
Definition CMP : list TokenKind := [TK_LT; TK_GT; TK_EQ; TK_LE; TK_GE; TK_NE].
Definition LOGIC : list TokenKind := [TK_AND; TK_OR].
Definition BITWISE : list TokenKind := [TK_AMP; TK_PIPE; TK_CARET; TK_SHL; TK_SHR].

Definition infer_arith_cmp (node : Node) (arith cmp : bool) (l r : Ty) : TM Ty :=
  let plus := tk_eqb (n_op node) TK_PLUS in
  let ints := is_integer l && is_integer r && negb (types_equal l r) in
  let l_lit := is_lit node 0 in
  let r_lit := is_lit node 1 in
  if plus && is_kind TY_STR l && is_kind TY_STR r then mismatch node TY_UNKNOWN
  else if ints && xorb l_lit r_lit then
    ret (if cmp then mk_type TY_BOOL else if l_lit then r else l)
  else if plus && is_kind TY_ARRAY l && is_kind TY_ARRAY r then
    if types_equal l r then
      ret (match ty_elem l with Some e => if unknown e then r else l | None => r end)
    else mismatch node TY_UNKNOWN
  else if ints && (int_widens_to l r || int_widens_to r l) then
    ret (if cmp then mk_type TY_BOOL else if int_widens_to l r then r else l)
  else if (arith && (negb (is_numeric l) || negb (types_equal l r))) || (cmp && negb (types_equal l r))
  then mismatch node (if cmp then TY_BOOL else TY_UNKNOWN)
  else ret (if cmp then mk_type TY_BOOL else l).

(** The types of the operands decide. *)
Definition infer_operands (node : Node) (l r : Ty) : TM Ty :=
  let plus := tk_eqb (n_op node) TK_PLUS in
  if plus && ((is_kind TY_STR l && unknown r) || (unknown l && is_kind TY_STR r))
  then mismatch node TY_UNKNOWN
  else if unknown l || unknown r then ret (mk_type TY_UNKNOWN)
  else if plus && xorb (is_kind TY_ARRAY l) (is_kind TY_ARRAY r) then mismatch node TY_UNKNOWN
  else if op_in node LOGIC then infer_logic node l r
  else if op_in node BITWISE then infer_bitwise node l r
  else if op_in node [TK_PERCENT] then infer_modulo node l r
  else if op_in node ARITH || op_in node CMP then
    infer_arith_cmp node (op_in node ARITH) (op_in node CMP) l r
  else ret l.

Definition infer_binary (id : NodeId) (node : Node) : TM Ty :=
  do l <- infer_child id node 0;
  do r <- infer_child id node 1;
  infer_operands node l r.

(** *** Calls, casts, access *)

Definition params (fn : Node) : list Node := filter (fun c => n_kind c = NODE_PARAM) (n_children fn).

(** The declared type of the results, [void] without one. *)
Definition declared_ret (fn : Node) : TM Ty :=
  match find (fun c => has_kind NODE_RETURN_SPEC c && negb (bool_decide (n_children c = [])))
          (n_children fn) with
  | Some spec => resolve_return_spec resolve spec
  | None => ret (mk_type TY_VOID)
  end.

(** The arguments from [ai] on against the parameters. *)
Fixpoint check_args (id : NodeId) (ai : nat) (ps args : list Node) : TM unit :=
  match ps, args with
  | p :: ps, arg :: args =>
      do at_ <- infer (child_id id ai) arg;
      do pt <- match n_children p with
               | _ :: t :: _ => resolve t
               | _ => ret (mk_type TY_UNKNOWN)
               end;
      do! when (negb (unknown at_) && negb (unknown pt) && negb (types_compat at_ pt)) (emit_mm arg);
      check_args id (S ai) ps args
  | _, _ => ret tt
  end.

Definition infer_call (id : NodeId) (node : Node) : TM Ty :=
  match n_children node with
  | [] => ret (mk_type TY_UNKNOWN)
  | callee :: args =>
      do nb <- tokstr src 128 callee;
      let fn := match tc_lookup scope nb with
                | Some (mkTDecl _ _ (Some (_, def))) =>
                    if has_kind NODE_FUNC_DECL def then Some def else None
                | _ => None
                end in
      match fn with
      | None =>
          do! infer_from id node 1;
          do! check_std_str_args id node;
          do! check_tki_call node;
          ret (mk_type TY_UNKNOWN)
      | Some fn =>
          if negb (zlen args =? zlen (params fn)) then
            do! tc_error E4026 node true;
            do! infer_from id node 1;
            declared_ret fn
          else
            do! check_args id 1 (params fn) args;
            declared_ret fn
      end
  end.

Definition lossy_cast (from to : Ty) : bool :=
  (is_kind TY_F64 from && kind_of [TY_I64; TY_U64] to)
  || (is_kind TY_I64 from && is_kind TY_U64 to) || (is_kind TY_U64 from && is_kind TY_I64 to).

Definition infer_cast (id : NodeId) (node : Node) : TM Ty :=
  match n_children node with
  | _ :: to :: _ =>
      do src_t <- infer_child id node 0;
      do dst_t <- resolve to;
      do! when (lossy_cast src_t dst_t) (tc_emit DIAG_WARNING W1001 node true);
      ret dst_t
  | _ => ret (mk_type TY_UNKNOWN)
  end.

Definition infer_propagate (id : NodeId) (node : Node) : TM Ty :=
  do inner <- infer_child id node 0;
  do s <- get;
  let fallible := match cx_fn_ret s with Some r => is_kind TY_ERROR_TYPE r | None => false end in
  if negb fallible || negb (kind_of [TY_UNKNOWN; TY_ERROR_TYPE] inner) then
    do! tc_error E3020 node true; ret (mk_type TY_UNKNOWN)
  else
    ret (if is_kind TY_ERROR_TYPE inner then default (mk_type TY_UNKNOWN) (ty_elem inner)
         else mk_type TY_UNKNOWN).

Definition imported_name (t : Ty) : bool :=
  match ty_name t with
  | Some name => match imported_type_lookup env name with Some _ => true | None => false end
  | None => false
  end.

Definition type_error (node : Node) : TM Ty :=
  do! tc_error E4031 node true; ret (mk_type TY_UNKNOWN).

Definition infer_index (id : NodeId) (node : Node) : TM Ty :=
  do base <- infer_child id node 0;
  do idx <- infer_child id node 1;
  if is_kind TY_MAP base then
    if match ty_elem base with Some kt => clash kt idx | None => false end then type_error node
    else ret (default (mk_type TY_UNKNOWN) (map_value base))
  else if is_kind TY_STRUCT base && imported_name base then ret (mk_type TY_UNKNOWN)
  else if negb (kind_of [TY_UNKNOWN; TY_ARRAY] base) then type_error node
  else if unknown base then ret (mk_type TY_UNKNOWN)
  else if negb (unknown idx || is_integer idx) then type_error node
  else ret (default (mk_type TY_UNKNOWN) (ty_elem base)).

Definition field_of (t : Ty) (fname : list Z) : option Ty :=
  option_map snd (find (fun f => bool_decide (f.1 = Some fname)) (ty_fields t)).

Definition field_error (code : Z) (id : NodeId) (node : Node) (fix_ : bool) : TM Ty :=
  do! tc_error_once code id node fix_; ret (mk_type TY_UNKNOWN).

(** A field of a value. *)
Definition infer_field_of (id : NodeId) (node : Node) (base : Ty) (fname : list Z) : TM Ty :=
  if kind_of [TY_ARRAY; TY_MAP; TY_STR] base && bytes_eqb fname (bytes_of "len") then ret (mk_type TY_U64)
  else if is_kind TY_MAP base && bytes_eqb fname (bytes_of "keys") then
    ret (mkTy TY_ARRAY None (Some (default (mk_type TY_UNKNOWN) (ty_elem base))) [])
  else if is_kind TY_MAP base then field_error E4035 id node false
  else if negb (is_kind TY_STRUCT base) then ret (mk_type TY_UNKNOWN)
  else match field_of base fname with
       | Some t => ret t
       | None => field_error E4025 id node true
       end.

Definition infer_field (id : NodeId) (node : Node) : TM Ty :=
  do base <- infer_child id node 0;
  match n_children node with
  | b :: f :: _ =>
      do fname <- tokstr src 128 f;
      if has_kind NODE_TYPE_IDENT b then
        do _ <- tokstr src 128 b;
        do t <- resolve b;
        if is_kind TY_STRUCT t then field_error E4033 id node true
        else infer_field_of id node base fname
      else infer_field_of id node base fname
  | _ => ret (mk_type TY_UNKNOWN)
  end.

(** *** Statements *)

Definition void : TM Ty := ret (mk_type TY_VOID).

(** [from] must be usable where [to] is declared. *)
Definition flows (from to : Ty) : bool := unknown from || unknown to || types_compat from to.

Definition infer_bind (id : NodeId) (node : Node) : TM Ty :=
  do! match n_children node with
      | _ :: ann :: init :: _ =>
          do ann <- resolve ann;
          do init <- infer (child_id id 2) init;
          when (negb (flows init ann)) (emit_mm node)
      | _ :: init :: _ => do _ <- infer (child_id id 1) init; ret tt
      | _ => ret tt
      end;
  do! match n_children node with
      | name :: _ => do s <- get; record_bind_depth name (cx_scope_depth s)
      | [] => ret tt
      end;
  void.

(** [name] spells a parameter of the function. *)
Fixpoint spells_param (name : list Z) (cs : list Node) : TM bool :=
  match cs with
  | [] => ret false
  | c :: cs =>
      match n_kind c, n_children c with
      | NODE_PARAM, pname :: _ =>
          do pn <- tokstr src 128 pname;
          if bytes_eqb pn name then ret true else spells_param name cs
      | _, _ => spells_param name cs
      end
  end.

(** The target of an assignment is an immutable name of the function. *)
Definition immutable_target (node : Node) : TM bool :=
  do s <- get;
  match n_children node, cx_fn_node s with
  | target :: _, Some (_, fn) =>
      if has_kind NODE_IDENT target then
        do nb <- tokstr src 256 target;
        do p <- spells_param nb (n_children fn);
        if (p : bool) then ret true
        else do bk <- find_binding_kind src nb fn; ret (bool_decide (bk = Some NODE_BIND_STMT))
      else ret false
  | _, _ => ret false
  end.

Definition infer_assign (id : NodeId) (node : Node) : TM Ty :=
  do immutable <- immutable_target node;
  if (immutable : bool) then do! tc_error E4070 node true; void
  else
    do lhs <- infer_child id node 0;
    do rhs <- infer_child id node 1;
    do! when (negb (flows rhs lhs)) (emit_mm node);
    void.

(** The declared result admits a value of type [val]. *)
Definition returns_ok (fn_ret val : Ty) : bool :=
  flows val fn_ret
  || is_kind TY_ERROR_TYPE fn_ret &&
     (match ty_elem fn_ret with Some e => types_compat val e | None => false end
      || is_kind TY_STRUCT val &&
         match ty_name fn_ret, ty_name val with Some x, Some y => bytes_eqb x y | _, _ => false end).

(** A returned name that a nested block binds, of a type kept by value: a
    warning. *)
Definition check_escape (node : Node) (val : Ty) : TM unit :=
  match n_children node with
  | v :: _ =>
      if has_kind NODE_IDENT v then
        do rnb <- tokstr src 128 v;
        do p <- is_param src rnb;
        if (p : bool) then ret tt
        else
          do bd <- lookup_bind_depth src rnb;
          when ((0 <? bd) && negb (kind_of [TY_STR; TY_ARRAY; TY_STRUCT; TY_UNKNOWN] val))
            (tc_emit DIAG_WARNING W5001 node true)
      else ret tt
  | [] => ret tt
  end.

Definition infer_return (id : NodeId) (node : Node) : TM Ty :=
  let has_value := negb (bool_decide (n_children node = [])) in
  do val <- (if has_value then infer_child id node 0 else void);
  do s <- get;
  do! match cx_fn_ret s with
      | Some r =>
          if is_kind TY_VOID r && has_value && negb (kind_of [TY_UNKNOWN; TY_VOID] val)
          then tc_error E4031 node true
          else when (negb (returns_ok r val)) (emit_mm node)
      | None => ret tt
      end;
  do! check_escape node val;
  void.

(** What the arms of a match have shown: their type, the booleans, and the tags. *)
Record Arms := mkArms {
  ar_type : option Ty; ar_true : bool; ar_false : bool; ar_tags : list (list Z) }.
Definition MAX_ARM_TAGS : Z := 64.

Definition match_arm (id : NodeId) (scr : Ty) (i : nat) (arm : Node) (a : Arms) : TM Arms :=
  if negb (has_kind NODE_MATCH_ARM arm) then ret a
  else
    do a <- match n_children arm with
            | pat :: _ =>
                do a <- (if is_kind TY_BOOL scr && has_kind NODE_BOOL_LIT pat then
                           do pb <- tokstr src 8 pat;
                           ret (if bytes_eqb pb (bytes_of "true")
                                then mkArms (ar_type a) true (ar_false a) (ar_tags a)
                                else mkArms (ar_type a) (ar_true a) true (ar_tags a))
                         else ret a);
                if has_kind NODE_TYPE_IDENT pat then
                  do tb <- tokstr src 128 pat;
                  ret (if zlen (ar_tags a) <? MAX_ARM_TAGS
                       then mkArms (ar_type a) (ar_true a) (ar_false a) (ar_tags a ++ [tb]) else a)
                else ret a
            | [] => ret a
            end;
    do at_ <- match n_children arm with
              | _ :: _ :: _ => infer_child (child_id id i) arm 1
              | _ => void
              end;
    match ar_type a with
    | None => ret (mkArms (Some at_) (ar_true a) (ar_false a) (ar_tags a))
    | Some t => do! when (clash t at_) (tc_error E4011 arm true); ret a
    end.

(** Every field of the type of the scrutinee is the tag of an arm. *)
Definition covered (scr : Ty) (tags : list (list Z)) : bool :=
  forallb (fun f => match f.1 with Some n => existsb (bytes_eqb n) tags | None => true end)
    (ty_fields scr).

Definition infer_match (id : NodeId) (node : Node) : TM Ty :=
  match n_children node with
  | [] => void
  | _ :: arms =>
      do scr <- infer_child id node 0;
      do a <- fold_children (match_arm id scr) 1 arms (mkArms None false false []);
      do! when (is_kind TY_BOOL scr && negb (ar_true a)) (tc_error E4010 node true);
      do! when (is_kind TY_BOOL scr && negb (ar_false a)) (tc_error E4010 node true);
      do! when (is_kind TY_STRUCT scr && negb (covered scr (ar_tags a))) (tc_error E4010 node true);
      ret (default (mk_type TY_VOID) (ar_type a))
  end.

(** An assignment in an arena must not be to a declaration of the module. *)
Definition check_arena_stmt (c : Node) : TM unit :=
  match n_kind c, n_children c with
  | NODE_ASSIGN_STMT, ln :: _ =>
      if has_kind NODE_IDENT ln then
        do nb <- tokstr src 128 ln;
        match tc_lookup scope nb with
        | Some (mkTDecl _ _ (Some _)) => tc_error E5001 c false
        | _ => ret tt
        end
      else ret tt
  | _, _ => ret tt
  end.

Definition infer_arena (id : NodeId) (node : Node) : TM Ty :=
  do! in_block (
    do! modify (add_arena_depth 1);
    do! fold_children (fun i c _ =>
          do! check_arena_stmt c; do _ <- infer (child_id id i) c; ret tt) 0 (n_children node) tt;
    modify (add_arena_depth (-1)));
  void.

(** The type of the results: of the last specification, [void] without one. *)
Definition func_ret (node : Node) : TM Ty :=
  fold_children (fun _ c r =>
    if has_kind NODE_RETURN_SPEC c && negb (bool_decide (n_children c = []))
    then resolve_return_spec resolve c else ret r) 0 (n_children node) (mk_type TY_VOID).

(** Pointers are for functions without a body. *)
Definition check_pointers (node : Node) (r : Ty) : TM unit :=
  if existsb (has_kind NODE_STMT_LIST) (n_children node) then
    do! each (fun c =>
      match n_kind c, n_children c with
      | NODE_PARAM, _ :: t :: _ =>
          do pt <- resolve t; when (contains_ptr pt) (tc_error E2010 c false)
      | _, _ => ret tt
      end) (n_children node);
    when (contains_ptr r) (tc_error E2010 node false)
  else ret tt.

Definition infer_func (id : NodeId) (node : Node) : TM Ty :=
  do r <- func_ret node;
  do! check_pointers node r;
  do s <- get;
  do! modify (fun s => set_fn_errors 0 (set_scope 0 0 (set_fn (Some r) (Some (id, node)) s)));
  do! infer_from id node 0;
  do! modify (fun s' => set_fn_errors (cx_fn_error_count s)
        (set_scope (cx_scope_depth s) (cx_bind_count s) (set_fn (cx_fn_ret s) (cx_fn_node s) s')));
  void.

(** *** Statement lists *)

Definition is_fn_body (fn : option NRef) (id : NodeId) : bool :=
  match fn with
  | Some (fid, fn) =>
      existsb (fun i => bool_decide (id = child_id fid i)) (seq 0 (length (n_children fn)))
  | None => false
  end.

(** The tail of a body is a value that is dropped; whether the fix is certain. *)
Definition dropped_tail (tail : Node) (tail_ty : Ty) : option bool :=
  let known := negb (kind_of [TY_VOID; TY_UNKNOWN] tail_ty) in
  match n_kind tail, n_children tail with
  | NODE_EXPR_STMT, expr :: _ =>
      if has_kind NODE_MATCH_STMT expr then
        if known || match_arms_all_pure expr then Some false else None
      else if known || tail_fix_is_certain expr then Some (tail_fix_is_certain expr) else None
  | NODE_IF_STMT, _ :: _ :: _ :: _ => if known then Some false else None
  | NODE_MATCH_STMT, _ => if known || match_arms_all_pure tail then Some false else None
  | _, _ => None
  end.

Definition check_tail_expr (id : NodeId) (tail : Node) (tail_ty : Ty) : TM unit :=
  do s <- get;
  match cx_fn_ret s with
  | Some r =>
      if kind_of [TY_VOID; TY_UNKNOWN] r then ret tt
      else match dropped_tail tail tail_ty with
           | Some fix_ => tc_error_once E4071 id tail fix_
           | None => ret tt
           end
  | None => ret tt
  end.

(** The statements from [i] on: the type of the last one, the last one, and
    whether it returns; what is behind a return is not visited. *)
Fixpoint infer_stmts (id : NodeId) (i : nat) (cs : list Node) (last : Ty * option (nat * Node))
    : TM (Ty * option (nat * Node) * bool) :=
  match cs with
  | [] => ret (last, false)
  | c :: cs =>
      do t <- infer (child_id id i) c;
      if has_kind NODE_RETURN_STMT c then
        do! match cs with c' :: _ => tc_error E5002 c' false | [] => ret tt end;
        ret (t, Some (i, c), true)
      else infer_stmts id (S i) cs (t, Some (i, c))
  end.

Definition infer_stmt_list (id : NodeId) (node : Node) : TM Ty :=
  do '(last, tail, saw_return) <- infer_stmts id 0 (n_children node) (mk_type TY_VOID, None);
  do s <- get;
  do! match tail with
      | Some (i, t) =>
          when (negb saw_return && is_fn_body (cx_fn_node s) id) (check_tail_expr (child_id id i) t last)
      | None => ret tt
      end;
  ret last.

Definition infer_if (id : NodeId) (node : Node) : TM Ty :=
  do _ <- infer_child id node 0;
  in_block (
    match drop 1 (n_children node) with
    | [] => void
    | t :: rest =>
        do then_ty <- infer (child_id id 1) t;
        do! fold_children (fun i c _ => do _ <- infer (child_id id i) c; ret tt) 2 rest tt;
        ret then_ty
    end).

Definition infer_loop (id : NodeId) (node : Node) : TM Ty :=
  do! in_block (infer_from id node 0); void.

Definition infer_impl (id : NodeId) (node : Node) : TM Ty :=
  match n_kind node with
  | NODE_INT_LIT => ret (mk_type TY_I64)
  | NODE_FLOAT_LIT => ret (mk_type TY_F64)
  | NODE_STR_LIT => do! check_interp_composites node; ret (mk_type TY_STR)
  | NODE_BOOL_LIT => ret (mk_type TY_BOOL)
  | NODE_STRUCT_LIT => infer_struct_lit id node
  | NODE_ARRAY_LIT => infer_array_lit id node
  | NODE_MAP_LIT => infer_map_lit id node
  | NODE_IDENT => infer_ident node
  | NODE_UNARY_EXPR => infer_unary id node
  | NODE_BINARY_EXPR => infer_binary id node
  | NODE_CALL_EXPR => infer_call id node
  | NODE_CAST_EXPR => infer_cast id node
  | NODE_PROPAGATE_EXPR => infer_propagate id node
  | NODE_INDEX_EXPR => infer_index id node
  | NODE_FIELD_EXPR => infer_field id node
  | NODE_BIND_STMT | NODE_MUT_BIND_STMT => infer_bind id node
  | NODE_ASSIGN_STMT => infer_assign id node
  | NODE_RETURN_STMT => infer_return id node
  | NODE_MATCH_STMT => infer_match id node
  | NODE_ARENA_STMT => infer_arena id node
  | NODE_FUNC_DECL => infer_func id node
  | NODE_STMT_LIST => infer_stmt_list id node
  | NODE_IF_STMT => infer_if id node
  | NODE_LOOP_STMT => infer_loop id node
  | NODE_SCOPE_STMT => do! infer_from id node 0; void
  | NODE_SPAWN_EXPR =>
      do! match n_children node with [] => ret tt | _ => do _ <- infer_child id node 0; ret tt end;
      ret (mk_type TY_I64)
  | _ => fold_children (fun i c _ => infer (child_id id i) c) 0 (n_children node) (mk_type TY_VOID)
  end.

(** [infer]: the type is kept with the node. *)
Definition infer_memo (id : NodeId) (node : Node) : TM Ty :=
  do t <- infer_impl id node; do! modify (set_rtype id t); ret t.

End Rules.

Fixpoint infer (fuel : nat) (id : NodeId) (node : Node) : TM Ty :=
  match fuel with
  | O => no_fuel
  | S f => infer_memo (resolve_type src scope env f) (infer f) id node
  end.

Definition ctx_init (d : Diags) : Ctx := mkCtx None false None 0 [] 0 0 0 [] 0 ∅ 1 d.

(** The result of [type_check] ([true] for 0) and the context it leaves. *)
Definition type_check (fuel : nat) (d : Diags) : res (bool * Ctx) :=
  match fold_children (fun i c _ => do _ <- infer fuel (0, [i]) c; ret tt) 0 (n_children root) tt
          (ctx_init d) with
  | Ok (_, s) => Ok (negb (cx_had_error s), s)
  | Oob => Oob
  | NoFuel => NoFuel
  end.

End Check.

(** ** The pass behind [resolve_names] *)

Fixpoint node_eqb (a b : Node) : bool :=
  bool_decide (n_kind a = n_kind b) && (n_start a =? n_start b) && (n_line a =? n_line b)
  && (n_col a =? n_col b) && (n_tok_start a =? n_tok_start b) && (n_tok_len a =? n_tok_len b)
  && bool_decide (n_op a = n_op b) && (n_child_cap a =? n_child_cap b)
  && (fix go (l k : list Node) : bool :=
        match l, k with
        | [], [] => true
        | x :: l, y :: k => node_eqb x y && go l k
        | _, _ => false
        end) (n_children a) (n_children b).

(** The path to a node; two nodes of a program differ at least in position. *)
Fixpoint node_path (d n : Node) : option (list nat) :=
  if node_eqb d n then Some []
  else (fix go (i : nat) (l : list Node) : option (list nat) :=
          match l with
          | [] => None
          | c :: l => match node_path d c with Some p => Some (i :: p) | None => go (S i) l end
          end) 0%nat (n_children n).

(** The module scope of the resolver, with the places of the declarations. *)
Definition tdecls (ast : Node) (sc : Scope) : list TDecl :=
  map (fun d => mkTDecl (dc_name d) (dc_kind d)
         (option_map (fun def => ((0, default [] (node_path def ast)), def)) (dc_def d))) sc.

Definition no_runtime : Runtime :=
  {| stdlib_symbol_for := fun _ _ => None;
     stdlib_glue_arity := fun _ => -1;
     stdlib_glue_ignores_only_arg := fun _ => false |}.

(** Name resolution without interfaces, then type checking: the result and the
    codes of all diagnostics. *)
Definition check_text (fuel : nat) (t : string) : option (bool * list Z) :=
  let src := bytes_of t in
  let ast := ast_of src in
  match resolve_module src predefined_scope ast diags_init with
  | Ok (_, r) =>
      match type_check (rt := no_runtime) src (tdecls ast (List.last (rs_scopes r) [])) env_init ast
              fuel (rs_diags r) with
      | Ok (b, s) => Some (b, map d_code (s_stream (cx_diags s)))
      | _ => None
      end
  | _ => None
  end.
