(* ===== verification/TypeSpec.v ===== *)
(** * Typing rules of toke

    What [type_check] accepts, without its reports, counters and warnings.  A
    judgement of the rules is [T fr r id n t r']: in the frame [fr] the node [n] at
    [id] has type [t], and annotating it and the nodes visited for it takes the
    annotations [r] to [r'].  [rule] is one step over the judgement of the nodes
    visited; [typed] closes it under a bound of the height.  [resolves] is the
    same for type annotations. *)

From Stdlib Require Import ZArith Lia String Ascii.
From stdpp Require Import base tactics list gmap.
From S2P Require Import Prelude CStr Diag Lexer Ast Parser ModName Resolve Iface Types Infer.
Open Scope Z_scope.

(** ** Equality of types *)

(** [consistent a b]: equal but for what is unknown inside of a composite; a
    record without fields is an integer too. *)
#[warnings="-register-all"]
Inductive consistent : Ty -> Ty -> Prop :=
  | con_handle_l a b : opaque_handle_type a = true -> scalar_int_type b = true -> consistent a b
  | con_handle_r a b : scalar_int_type a = true -> opaque_handle_type b = true -> consistent a b
  | con_scalar a b :
      ty_kind a = ty_kind b ->
      kind_of [TY_STRUCT; TY_PTR; TY_MAP; TY_ARRAY; TY_FUNC; TY_ERROR_TYPE] a = false ->
      consistent a b
  | con_struct a b n :
      ty_kind a = TY_STRUCT -> ty_kind b = TY_STRUCT -> ty_name a = Some n -> ty_name b = Some n ->
      consistent a b
  | con_elem_unknown a b :
      ty_kind a = ty_kind b -> kind_of [TY_MAP; TY_ARRAY; TY_FUNC; TY_ERROR_TYPE] a = true ->
      opt_unknown (ty_elem a) = true \/ opt_unknown (ty_elem b) = true -> consistent a b
  | con_elem a b x y :
      ty_kind a = ty_kind b -> kind_of [TY_PTR; TY_ARRAY; TY_FUNC; TY_ERROR_TYPE] a = true ->
      ty_elem a = Some x -> ty_elem b = Some y -> consistent x y -> consistent a b
  | con_map a b x y :
      ty_kind a = TY_MAP -> ty_kind b = TY_MAP -> ty_elem a = Some x -> ty_elem b = Some y ->
      consistent x y -> option_Forall2 value_consistent (map_value a) (map_value b) ->
      consistent a b
with value_consistent : Ty -> Ty -> Prop :=
  | vc_unknown x y : unknown x = true \/ unknown y = true -> value_consistent x y
  | vc_consistent x y : consistent x y -> value_consistent x y.

(** ** Operators *)

Definition unary_ok (op : TokenKind) (t : Ty) : Prop :=
  unknown t = true
  \/ (op = TK_MINUS -> kind_of [TY_I64; TY_F64; TY_I8; TY_I16; TY_I32; TY_F32] t = true)
     /\ (op = TK_TILDE -> is_integer t = true).

(** The operand of two kinds of integers that gives its type: the one that is
    not a literal, or else the [i64] the other widens to. *)
Definition int_join (llit rlit : bool) (l r : Ty) : option Ty :=
  if xorb llit rlit then Some (if llit then r else l)
  else if int_widens_to l r then Some r
  else if int_widens_to r l then Some l
  else None.

Definition floats (l r : Ty) : bool :=
  is_numeric l && negb (is_integer l) && is_numeric r && negb (is_integer r).

(** Two operands of known types.  [llit] and [rlit]: an integer literal. *)
Inductive binop (llit rlit : bool) (l r : Ty) : TokenKind -> Ty -> Prop :=
  | bo_logic op :
      op ∈ LOGIC -> is_kind TY_BOOL l = true -> is_kind TY_BOOL r = true ->
      binop llit rlit l r op (mk_type TY_BOOL)
  | bo_bits op :
      op ∈ BITWISE -> is_integer l = true -> is_integer r = true -> consistent l r ->
      binop llit rlit l r op l
  | bo_mod_same :
      is_integer l = true /\ is_integer r = true \/ floats l r = true -> consistent l r ->
      binop llit rlit l r TK_PERCENT l
  | bo_mod_lit :
      is_integer l = true -> is_integer r = true -> ~ consistent l r -> xorb llit rlit = true ->
      binop llit rlit l r TK_PERCENT (if llit then r else l)
  | bo_arith op :
      op ∈ ARITH -> is_numeric l = true -> consistent l r -> binop llit rlit l r op l
  | bo_arith_int op t :
      op ∈ ARITH -> is_integer l = true -> is_integer r = true -> ~ consistent l r ->
      int_join llit rlit l r = Some t -> binop llit rlit l r op t
  | bo_concat t :
      is_kind TY_ARRAY l = true -> is_kind TY_ARRAY r = true -> consistent l r ->
      t = match ty_elem l with Some e => if unknown e then r else l | None => r end ->
      binop llit rlit l r TK_PLUS t
  | bo_cmp op :
      op ∈ CMP -> consistent l r -> binop llit rlit l r op (mk_type TY_BOOL)
  | bo_cmp_int op t :
      op ∈ CMP -> is_integer l = true -> is_integer r = true -> ~ consistent l r ->
      int_join llit rlit l r = Some t -> binop llit rlit l r op (mk_type TY_BOOL)
  | bo_other op :
      op ∉ LOGIC -> op ∉ BITWISE -> op <> TK_PERCENT -> op ∉ ARITH -> op ∉ CMP ->
      binop llit rlit l r op l.

(** Operands that may be unknown: only a string is not added to those. *)
Definition binary (op : TokenKind) (llit rlit : bool) (l r t : Ty) : Prop :=
  if unknown l || unknown r
  then t = mk_type TY_UNKNOWN /\ (op = TK_PLUS -> is_kind TY_STR l = false /\ is_kind TY_STR r = false)
  else binop llit rlit l r op t.

(** ** Access *)

Definition indexed (env : NameEnv) (base idx t : Ty) : Prop :=
  match ty_kind base with
  | TY_MAP =>
      (forall k, ty_elem base = Some k -> clash k idx = false)
      /\ t = default (mk_type TY_UNKNOWN) (map_value base)
  | TY_STRUCT => imported_name env base = true /\ t = mk_type TY_UNKNOWN
  | TY_UNKNOWN => t = mk_type TY_UNKNOWN
  | TY_ARRAY =>
      unknown idx || is_integer idx = true /\ t = default (mk_type TY_UNKNOWN) (ty_elem base)
  | _ => False
  end.

Definition len : list Z := bytes_of "len".
Definition keys : list Z := bytes_of "keys".

Definition member (base : Ty) (f : list Z) (t : Ty) : Prop :=
  match ty_kind base with
  | TY_ARRAY | TY_STR => t = mk_type (if bytes_eqb f len then TY_U64 else TY_UNKNOWN)
  | TY_MAP =>
      f = len /\ t = mk_type TY_U64
      \/ f = keys /\ t = mkTy TY_ARRAY None (Some (default (mk_type TY_UNKNOWN) (ty_elem base))) []
  | TY_STRUCT => field_of base f = Some t
  | _ => t = mk_type TY_UNKNOWN
  end.

Section Rules.
Context {rt : Runtime} (src : list Z) (scope : list TDecl) (env : NameEnv) (root : Node).

(** The text of a token, as far as a buffer of [size] holds it. *)
Definition lexeme (size : Z) (n : Node) : list Z :=
  until_nul (slice src (n_tok_start n) (if n_tok_len n <? size - 1 then n_tok_len n else size - 1)).
Abbreviation name := (lexeme 128).
Definition text (n : Node) : list Z := slice src (n_tok_start n) (n_tok_len n).

(** ** Annotations *)

Section Resolves.
Context (RT : Node -> Ty -> Prop).

Definition field_resolves (f : Node) (e : option (list Z) * Ty) : Prop :=
  e.1 = Some (name f)
  /\ match n_children f with c :: _ => RT c e.2 | [] => e.2 = mk_type TY_UNKNOWN end.

(** The declaration of a type of this program. *)
Definition type_decl (x : list Z) : option Node :=
  match tc_lookup scope x with
  | Some (mkTDecl _ _ (Some (_, decl))) => if has_kind NODE_TYPE_DECL decl then Some decl else None
  | _ => None
  end.

Definition name_resolves (x : list Z) (t : Ty) : Prop :=
  match find_scalar scalar_names x, type_decl x with
  | Some s, _ => t = s
  | None, Some decl =>
      if bytes_eqb x (bytes_of "none") then t = mkTy TY_STRUCT (Some x) None []
      else exists fields, Forall2 field_resolves (decl_fields decl) fields
           /\ t = mkTy TY_STRUCT (option_map name (head (n_children decl))) None fields
  | None, None =>
      if bytes_eqb x (bytes_of "none") then t = mkTy TY_STRUCT (Some x) None []
      else t = default (mk_type TY_UNKNOWN) (imported_struct_type env 4 x)
  end.

Definition resolve_rule (n : Node) (t : Ty) : Prop :=
  match n_kind n with
  | NODE_PTR_TYPE =>
      exists e, option_Forall2 RT (n_children n !! 0%nat) e /\ t = mkTy TY_PTR None e []
  | NODE_ARRAY_TYPE =>
      exists e, option_Forall2 RT (n_children n !! 0%nat) e /\ t = mkTy TY_ARRAY None e []
  | NODE_MAP_TYPE =>
      exists k v, option_Forall2 RT (n_children n !! 0%nat) k
        /\ option_Forall2 RT (n_children n !! 1%nat) v
        /\ t = mkTy TY_MAP None k match v with Some v => [(None, v)] | None => [] end
  | _ => name_resolves (name n) t
  end.

(** The results of a function, [T] or [T!E]. *)
Definition result_resolves (spec : Node) (t : Ty) : Prop :=
  match n_children spec with
  | [] => t = mk_type TY_VOID
  | [s] => RT s t
  | s :: e :: _ =>
      exists ok err, RT s ok /\ RT e err
        /\ t = mkTy TY_ERROR_TYPE (ty_name err) (Some ok) (ty_fields err)
  end.
End Resolves.

Fixpoint resolves (h : nat) (n : Node) (t : Ty) : Prop :=
  match h with
  | O => False
  | S h => resolve_rule (resolves h) n t
  end.

(** ** The library *)

Fixpoint join_names (size : Z) (buf : list Z) (segs : list Node) : option (list Z) :=
  match segs with
  | [] => match buf with [] => None | _ => Some buf end
  | seg :: segs =>
      let sb := name seg in
      let dot := if 0 <? zlen buf then [chr "."] else [] in
      if size <=? zlen buf + (zlen sb + zlen dot) + 1 then None
      else join_names size (buf ++ dot ++ sb) segs
  end.

(** The module an alias stands for, by the first import of the alias. *)
Definition imports_as (alias : list Z) (imp : Node) : bool :=
  match n_kind imp, n_children imp with
  | NODE_IMPORT, an :: pn :: _ => has_kind NODE_MODULE_PATH pn && bytes_eqb (name an) alias
  | _, _ => false
  end.
Definition import_path (imp : Node) : option (list Z) :=
  match n_children imp with _ :: pn :: _ => join_names 256 [] (n_children pn) | _ => None end.
Definition module_of (alias : list Z) : option (list Z) :=
  find (imports_as alias) (n_children root) ≫= import_path.

Definition std_sig (call : Node) : option StdStrSig :=
  '(a, m) ← member_call call; mpath ← module_of (name a);
  find (fun s => bytes_eqb (sg_module s) mpath && bytes_eqb (sg_fn s) (name m)) s_std_str_sigs.

(** What the annotations tell of the argument at [id]. *)
Definition known_type (r : gmap NodeId Ty) (id : NodeId) : Ty := default (mk_type TY_UNKNOWN) (r !! id).

Definition arg_type (r : gmap NodeId Ty) (id : NodeId) (arg : Node) : Ty :=
  let t := known_type r id in
  if negb (unknown t) then t
  else
    match n_kind arg, n_children arg with
    | NODE_CALL_EXPR, _ =>
        match std_sig arg with
        | Some sg => if bool_decide (sg_ret sg = TY_UNKNOWN) then t else mk_type (sg_ret sg)
        | None => t
        end
    | NODE_FIELD_EXPR, _ :: m :: _ =>
        if bytes_eqb (name m) len && negb (is_kind TY_STRUCT (known_type r (child_id id 0)))
        then mk_type TY_U64 else t
    | _, _ => t
    end.

(** The argument number [a] of a modelled call with the string parameters [mask]
    is not known to be anything else, if it must be a string. *)
Definition std_arg_ok (r : gmap NodeId Ty) (id : NodeId) (mask : Z) (a : nat) (arg : Node) : Prop :=
  (a < 32)%nat
  /\ (Z.testbit mask (Z.of_nat a) = true ->
      let t := arg_type r (child_id id (S a)) arg in unknown t || is_kind TY_STR t = true).

Definition std_args_ok (r : gmap NodeId Ty) (id : NodeId) (call : Node) : Prop :=
  forall sg, std_sig call = Some sg ->
  forall a arg, n_children call !! S a = Some arg -> std_arg_ok r id (sg_str_params sg) a arg.

(** A call of a member of an imported module agrees with what is known of it. *)
Definition tki_ok (call : Node) : Prop :=
  forall a m mpath, member_call call = Some (a, m) -> module_of (name a) = Some mpath ->
    (forall d, tc_lookup scope (name a) = Some d -> td_kind d = DECL_IMPORT_ALIAS) ->
    tki_call_error env (name a) mpath (name m) (zlen (n_children call) - 1) = None.

(** ** Names and expressions *)

(** The function, the type of its results, and the depth of [bind_init_type]. *)
Record Frame := mkFrame { fr_ret : option Ty; fr_fn : option NRef; fr_depth : Z }.
Definition deeper (fr : Frame) : Frame := mkFrame (fr_ret fr) (fr_fn fr) (fr_depth fr + 1).

Abbreviation Ann := (gmap NodeId Ty).

(** The declaration of a name in the module. *)
Definition declared (x : list Z) : option NRef :=
  match tc_lookup scope x with Some d => td_def d | None => None end.

(** The declaration of the parameter [x] that has a type, and this type. *)
Definition param_annotation (x : list Z) (fn : Node) : option Node :=
  find (fun p => match n_children p with pn :: _ :: _ => bytes_eqb (name pn) x | _ => false end)
    (params fn)
  ≫= fun p => n_children p !! 1%nat.

(** The name is bound by this node. *)
Definition binds (x : list Z) (n : Node) : bool :=
  match n_children n with c :: _ => bytes_eqb (text c) x | [] => false end.
Definition is_binding (n : Node) : bool := is_bind n || has_kind NODE_LOOP_INIT n.

Fixpoint first_binding (x : list Z) (id : NodeId) (n : Node) : option NRef :=
  if is_binding n && binds x n then Some (id, n)
  else (fix go (i : nat) (l : list Node) : option NRef :=
          match l with
          | [] => None
          | c :: l => match first_binding x (child_id id i) c with
                      | Some r => Some r
                      | None => go (S i) l
                      end
          end) 0%nat (n_children n).

(** The nodes of a tree. *)
Fixpoint subnodes (n : Node) : list Node := n :: concat (map subnodes (n_children n)).

(** An immutable name: a parameter, or only ever bound by [let]. *)
Definition immutable (x : list Z) (fn : Node) : Prop :=
  (exists p pn, p ∈ params fn /\ n_children p !! 0%nat = Some pn /\ name pn = x)
  \/ (exists b, b ∈ subnodes fn /\ n_kind b = NODE_BIND_STMT /\ binds x b = true)
     /\ forall b, b ∈ subnodes fn -> is_binding b = true -> binds x b = true -> n_kind b = NODE_BIND_STMT.

(** The function a call names. *)
Definition callee_fn (callee : Node) : option Node :=
  '(_, fn) ← declared (name callee); if has_kind NODE_FUNC_DECL fn then Some fn else None.

Definition ret_spec (fn : Node) : option Node :=
  find (fun c => has_kind NODE_RETURN_SPEC c && negb (bool_decide (n_children c = []))) (n_children fn).

Section Step.
Context (RT : Node -> Ty -> Prop) (T : Frame -> Ann -> NodeId -> Node -> Ty -> Ann -> Prop).

(** The declared type of the results. *)
Definition ret_type (fn : Node) (t : Ty) : Prop :=
  match ret_spec fn with Some spec => result_resolves RT spec t | None => t = mk_type TY_VOID end.

Section Frame.
Context (fr : Frame).

(** The [i]th child, unknown when there is none. *)
Definition child (id : NodeId) (n : Node) (i : nat) (r : Ann) (t : Ty) (r' : Ann) : Prop :=
  match n_children n !! i with
  | Some c => T fr r (child_id id i) c t r'
  | None => t = mk_type TY_UNKNOWN /\ r' = r
  end.

(** Children one after the other, from the [i]th on; the type of the last one. *)
Inductive visit (id : NodeId) : nat -> list Node -> Ty -> Ann -> Ty -> Ann -> Prop :=
  | visit_nil i t r : visit id i [] t r t r
  | visit_cons i c cs t0 r t1 r1 t r' :
      T fr r (child_id id i) c t1 r1 -> visit id (S i) cs t1 r1 t r' ->
      visit id i (c :: cs) t0 r t r'.

Definition visit_all (id : NodeId) (i : nat) (cs : list Node) (r r' : Ann) : Prop :=
  exists t, visit id i cs (mk_type TY_VOID) r t r'.

(** The type of the results a call expression declares, for a binding. *)
Definition call_type (call : Node) (o : option Ty) : Prop :=
  match member_call call with
  | Some (a, m) =>
      o = match imported_func_ret env (name a) (name m) with
          | Some x => if has_char (chr "!") x then None else imported_struct_type env 4 x
          | None => None
          end
  | None =>
      match n_children call with
      | callee :: _ =>
          match callee_fn callee with
          | Some fn => match ret_spec fn with
                       | Some spec => exists t, result_resolves RT spec t /\ o = Some t
                       | None => o = None
                       end
          | None => o = None
          end
      | [] => o = None
      end
  end.

(** The type an initialiser gives to a binding without annotation. *)
Definition init_type (id : NodeId) (init : Node) (r : Ann) (o : option Ty) (r' : Ann) : Prop :=
  match n_kind init with
  | NODE_CALL_EXPR => exists c, call_type init c /\ o = (c ≫= valued) /\ r' = r
  | NODE_IDENT =>
      if MAX_BIND_INFER_DEPTH <=? fr_depth fr then o = None /\ r' = r
      else exists t, T (deeper fr) r (child_id id 1) init t r' /\ o = valued t
  | NODE_STRUCT_LIT | NODE_FIELD_EXPR | NODE_MAP_LIT =>
      exists t, T fr r (child_id id 1) init t r' /\ o = (if kind_of [TY_MAP; TY_STRUCT] t then Some t else None)
  | _ => o = None /\ r' = r
  end.

Definition binding_rule (id : NodeId) (bn : Node) (r : Ann) (o : option Ty) (r' : Ann) : Prop :=
  match n_children bn with
  | _ :: ann :: _ :: _ => exists t, RT ann t /\ o = Some t /\ r' = r
  | _ :: init :: _ => exists i, init_type id init r i r' /\ o = Some (default (mk_type TY_UNKNOWN) i)
  | _ => o = None /\ r' = r
  end.

(** A name of the function: a parameter with a type, or the first binding. *)
Definition local_rule (x : list Z) (r : Ann) (o : option Ty) (r' : Ann) : Prop :=
  match fr_fn fr with
  | None => o = None /\ r' = r
  | Some (fid, fn) =>
      match param_annotation x fn with
      | Some ann => exists t, RT ann t /\ o = Some t /\ r' = r
      | None =>
          match first_binding x fid fn with
          | Some (bid, bn) => if is_bind bn then binding_rule bid bn r o r' else o = None /\ r' = r
          | None => o = None /\ r' = r
          end
      end
  end.

(** A declaration of the module. *)
Definition def_rule (id : NodeId) (def : Node) (r : Ann) (t : Ty) (r' : Ann) : Prop :=
  exists o, (if is_bind def then binding_rule id def r o r' else o = None /\ r' = r)
    /\ match o with
       | Some t' => t = t'
       | None =>
           match n_kind def, n_children def with
           | NODE_PARAM, _ :: ann :: _ => RT ann t
           | NODE_FUNC_DECL, _ => t = mk_type TY_FUNC
           | _, _ => t = mk_type TY_UNKNOWN
           end
       end.

Definition name_rule (x : list Z) (r : Ann) (t : Ty) (r' : Ann) : Prop :=
  match declared x with
  | Some (id, def) => def_rule id def r t r'
  | None => exists o, local_rule x r o r' /\ t = default (mk_type TY_UNKNOWN) o
  end.

(** The initialisers of a struct literal name fields of the struct. *)
Definition init_ok (st : Ty) (fi : Node) : Prop :=
  sum_type env st = true \/ is_kind TY_STRUCT st = false \/ n_tok_len fi <= 0 \/ name fi = [] \/ ty_fields st = []
  \/ exists t, (Some (name fi), t) ∈ ty_fields st.

Inductive inits (st : Ty) (id : NodeId) : nat -> list Node -> Ann -> Ann -> Prop :=
  | inits_nil i r : inits st id i [] r r
  | inits_other i c cs r r' :
      n_kind c <> NODE_FIELD_INIT -> inits st id (S i) cs r r' -> inits st id i (c :: cs) r r'
  | inits_field i c cs r r1 r' :
      n_kind c = NODE_FIELD_INIT ->
      match n_children c with
      | v :: _ => exists t, T fr r (child_id (child_id id i) 0) v t r1
      | [] => r1 = r
      end ->
      init_ok st c -> inits st id (S i) cs r1 r' -> inits st id i (c :: cs) r r'.

(** The entries of a map literal agree with the first one. *)
Inductive entries (id : NodeId) : nat -> list Node -> option (Ty * Ty) -> Ann -> option (Ty * Ty) -> Ann -> Prop :=
  | entries_nil i kv r : entries id i [] kv r kv r
  | entries_other i c cs kv r kv' r' :
      n_kind c <> NODE_MAP_ENTRY -> entries id (S i) cs kv r kv' r' -> entries id i (c :: cs) kv r kv' r'
  | entries_entry i c cs kv r k r1 v r2 kv' r' :
      n_kind c = NODE_MAP_ENTRY -> child (child_id id i) c 0 r k r1 -> child (child_id id i) c 1 r1 v r2 ->
      match kv with Some (kt, vt) => clash kt k = false /\ clash vt v = false | None => True end ->
      entries id (S i) cs (Some (default (k, v) kv)) r2 kv' r' -> entries id i (c :: cs) kv r kv' r'.

Definition map_lit_rule (id : NodeId) (n : Node) (r : Ann) (t : Ty) (r' : Ann) : Prop :=
  exists kv, entries id 0 (n_children n) None r kv r'
    /\ t = let '(k, v) := default (mk_type TY_UNKNOWN, mk_type TY_UNKNOWN) kv in
           mkTy TY_MAP None (Some k) [(None, v)].

(** Arguments against parameters. *)
Inductive args_ok (id : NodeId) : nat -> list Node -> list Node -> Ann -> Ann -> Prop :=
  | args_nil i r : args_ok id i [] [] r r
  | args_cons i p ps a args r t pt r1 r' :
      T fr r (child_id id i) a t r1 ->
      match n_children p !! 1%nat with Some ann => RT ann pt | None => pt = mk_type TY_UNKNOWN end ->
      flows t pt = true -> args_ok id (S i) ps args r1 r' -> args_ok id i (p :: ps) (a :: args) r r'.

Definition call_rule (id : NodeId) (n : Node) (r : Ann) (t : Ty) (r' : Ann) : Prop :=
  match n_children n with
  | [] => t = mk_type TY_UNKNOWN /\ r' = r
  | callee :: args =>
      match callee_fn callee with
      | Some fn => args_ok id 1 (params fn) args r r' /\ ret_type fn t
      | None => visit_all id 1 args r r' /\ std_args_ok r' id n /\ tki_ok n /\ t = mk_type TY_UNKNOWN
      end
  end.

Definition cast_rule (id : NodeId) (n : Node) (r : Ann) (t : Ty) (r' : Ann) : Prop :=
  match n_children n with
  | v :: to :: _ => RT to t /\ exists from, T fr r (child_id id 0) v from r'
  | _ => t = mk_type TY_UNKNOWN /\ r' = r
  end.

(** [e!] in a function that may fail. *)
Definition propagate_rule (id : NodeId) (n : Node) (r : Ann) (t : Ty) (r' : Ann) : Prop :=
  exists e ret, child id n 0 r e r' /\ fr_ret fr = Some ret /\ ty_kind ret = TY_ERROR_TYPE
    /\ (ty_kind e = TY_UNKNOWN /\ t = mk_type TY_UNKNOWN
        \/ ty_kind e = TY_ERROR_TYPE /\ t = default (mk_type TY_UNKNOWN) (ty_elem e)).

Definition field_rule (id : NodeId) (n : Node) (r : Ann) (t : Ty) (r' : Ann) : Prop :=
  exists base, child id n 0 r base r'
    /\ match n_children n with
       | b :: f :: _ =>
           member base (name f) t
           /\ (n_kind b = NODE_TYPE_IDENT -> exists t', RT b t' /\ is_kind TY_STRUCT t' = false)
       | _ => t = mk_type TY_UNKNOWN
       end.

(** ** Statements *)

Definition bind_rule (id : NodeId) (n : Node) (r r' : Ann) : Prop :=
  match n_children n with
  | _ :: ann :: init :: _ =>
      exists t ti, RT ann t /\ T fr r (child_id id 2) init ti r' /\ flows ti t = true
  | _ :: init :: _ => exists ti, T fr r (child_id id 1) init ti r'
  | _ => r' = r
  end.

Definition assign_rule (id : NodeId) (n : Node) (r r' : Ann) : Prop :=
  (forall target fid fn, n_children n !! 0%nat = Some target -> n_kind target = NODE_IDENT ->
     fr_fn fr = Some (fid, fn) -> ~ immutable (lexeme 256 target) fn)
  /\ exists lhs r1 rhs, child id n 0 r lhs r1 /\ child id n 1 r1 rhs r' /\ flows rhs lhs = true.

(** A value may be returned where the declared type of the results admits it;
    nothing is returned where there is none. *)
Definition return_rule (id : NodeId) (n : Node) (r r' : Ann) : Prop :=
  exists v,
    match n_children n with [] => v = mk_type TY_VOID /\ r' = r | c :: _ => T fr r (child_id id 0) c v r' end
    /\ forall ret, fr_ret fr = Some ret ->
       returns_ok ret v = true
       /\ (ty_kind ret = TY_VOID -> n_children n <> [] -> kind_of [TY_UNKNOWN; TY_VOID] v = true).

Definition arm_true (scr : Ty) (arm : Node) (x : list Z) : Prop :=
  n_kind arm = NODE_MATCH_ARM /\ is_kind TY_BOOL scr = true
  /\ exists p, n_children arm !! 0%nat = Some p /\ n_kind p = NODE_BOOL_LIT /\ lexeme 8 p = x.

Definition arm_tags (arms : list Node) : list (list Z) :=
  omap (fun arm => if has_kind NODE_MATCH_ARM arm
                   then p ← n_children arm !! 0%nat;
                        if has_kind NODE_TYPE_IDENT p then Some (name p) else None
                   else None) arms.

(** The arms: the second child of each is of the type of the first arm. *)
Inductive arms_ok (id : NodeId) : nat -> list Node -> option Ty -> Ann -> option Ty -> Ann -> Prop :=
  | arms_nil i t r : arms_ok id i [] t r t r
  | arms_other i c cs t r t' r' :
      n_kind c <> NODE_MATCH_ARM -> arms_ok id (S i) cs t r t' r' -> arms_ok id i (c :: cs) t r t' r'
  | arms_arm i c cs t r u r1 t' r' :
      n_kind c = NODE_MATCH_ARM ->
      match n_children c !! 1%nat with
      | Some b => T fr r (child_id (child_id id i) 1) b u r1
      | None => u = mk_type TY_VOID /\ r1 = r
      end ->
      match t with Some t => clash t u = false | None => True end ->
      arms_ok id (S i) cs (Some (default u t)) r1 t' r' -> arms_ok id i (c :: cs) t r t' r'.

(** A match covers both booleans, and all fields of a struct. *)
Definition match_rule (id : NodeId) (n : Node) (r : Ann) (t : Ty) (r' : Ann) : Prop :=
  match n_children n with
  | [] => t = mk_type TY_VOID /\ r' = r
  | s :: arms =>
      exists scr r1 o, T fr r (child_id id 0) s scr r1 /\ arms_ok id 1 arms None r1 o r'
      /\ (is_kind TY_BOOL scr = true ->
          Exists (fun a => arm_true scr a (bytes_of "true")) arms
          /\ Exists (fun a => exists x, arm_true scr a x /\ x <> bytes_of "true") arms)
      /\ (is_kind TY_STRUCT scr = true ->
          covered scr (take (Z.to_nat MAX_ARM_TAGS) (arm_tags arms)) = true)
      /\ t = default (mk_type TY_VOID) o
  end.

(** In an arena the names of the module are not assigned to. *)
Definition arena_rule (id : NodeId) (n : Node) (r r' : Ann) : Prop :=
  visit_all id 0 (n_children n) r r'
  /\ Forall (fun c => forall ln, n_kind c = NODE_ASSIGN_STMT -> n_children c !! 0%nat = Some ln ->
               n_kind ln = NODE_IDENT -> declared (name ln) = None) (n_children n).

(** Statements: nothing is behind a return. *)
Inductive stmts (id : NodeId) : nat -> list Node -> Ty * option (nat * Node) -> Ann ->
    Ty * option (nat * Node) * bool -> Ann -> Prop :=
  | stmts_nil i l r : stmts id i [] l r (l, false) r
  | stmts_return i c l r t r' :
      n_kind c = NODE_RETURN_STMT -> T fr r (child_id id i) c t r' ->
      stmts id i [c] l r (t, Some (i, c), true) r'
  | stmts_cons i c cs l r t r1 l' r' :
      n_kind c <> NODE_RETURN_STMT -> T fr r (child_id id i) c t r1 ->
      stmts id (S i) cs (t, Some (i, c)) r1 l' r' -> stmts id i (c :: cs) l r l' r'.

(** The body of a function that has results does not end in a value. *)
Definition stmt_list_rule (id : NodeId) (n : Node) (r : Ann) (t : Ty) (r' : Ann) : Prop :=
  exists tail ret, stmts id 0 (n_children n) (mk_type TY_VOID, None) r (t, tail, ret) r'
    /\ forall i tl res, ret = false -> tail = Some (i, tl) -> is_fn_body (fr_fn fr) id = true ->
       fr_ret fr = Some res -> kind_of [TY_VOID; TY_UNKNOWN] res = false -> dropped_tail tl t = None.

Definition if_rule (id : NodeId) (n : Node) (r : Ann) (t : Ty) (r' : Ann) : Prop :=
  exists c r1, child id n 0 r c r1
    /\ match n_children n with
       | _ :: th :: rest => exists r2, T fr r1 (child_id id 1) th t r2 /\ visit_all id 2 rest r2 r'
       | _ => t = mk_type TY_VOID /\ r' = r1
       end.
End Frame.

(** ** Functions *)

(** The declared results: each specification resolves, and the last one counts. *)
Definition ret_specs (n : Node) : list Node :=
  filter (fun c => n_kind c = NODE_RETURN_SPEC /\ n_children c <> []) (n_children n).
Definition results (n : Node) (t : Ty) : Prop :=
  exists ts, Forall2 (result_resolves RT) (ret_specs n) ts /\ t = List.last ts (mk_type TY_VOID).

(** A function with a body has no pointers in its signature. *)
Definition pointers_ok (n : Node) (ret : Ty) : Prop :=
  existsb (has_kind NODE_STMT_LIST) (n_children n) = true ->
  contains_ptr ret = false
  /\ Forall (fun p => match n_children p !! 1%nat with
                      | Some ann => exists t, RT ann t /\ contains_ptr t = false
                      | None => True
                      end) (params n).

(** The children are typed in the frame of the function. *)
Definition func_rule (fr : Frame) (id : NodeId) (n : Node) (r r' : Ann) : Prop :=
  exists ret, results n ret /\ pointers_ok n ret
    /\ visit_all (mkFrame (Some ret) (Some (id, n)) (fr_depth fr)) id 0 (n_children n) r r'.

Definition rule (fr : Frame) (r : Ann) (id : NodeId) (n : Node) (t : Ty) (r' : Ann) : Prop :=
  match n_kind n with
  | NODE_INT_LIT => t = mk_type TY_I64 /\ r' = r
  | NODE_FLOAT_LIT => t = mk_type TY_F64 /\ r' = r
  | NODE_BOOL_LIT => t = mk_type TY_BOOL /\ r' = r
  | NODE_STR_LIT => t = mk_type TY_STR /\ r' = r
  | NODE_STRUCT_LIT => RT n t /\ inits fr t id 0 (n_children n) r r'
  | NODE_ARRAY_LIT => exists e, child fr id n 0 r e r' /\ t = mkTy TY_ARRAY None (Some e) []
  | NODE_MAP_LIT => map_lit_rule fr id n r t r'
  | NODE_IDENT => name_rule fr (name n) r t r'
  | NODE_UNARY_EXPR => child fr id n 0 r t r' /\ unary_ok (n_op n) t
  | NODE_BINARY_EXPR =>
      exists a r1 b, child fr id n 0 r a r1 /\ child fr id n 1 r1 b r'
        /\ binary (n_op n) (is_lit n 0) (is_lit n 1) a b t
  | NODE_CALL_EXPR => call_rule fr id n r t r'
  | NODE_CAST_EXPR => cast_rule fr id n r t r'
  | NODE_PROPAGATE_EXPR => propagate_rule fr id n r t r'
  | NODE_INDEX_EXPR =>
      exists b r1 i, child fr id n 0 r b r1 /\ child fr id n 1 r1 i r' /\ indexed env b i t
  | NODE_FIELD_EXPR => field_rule fr id n r t r'
  | NODE_BIND_STMT | NODE_MUT_BIND_STMT => t = mk_type TY_VOID /\ bind_rule fr id n r r'
  | NODE_ASSIGN_STMT => t = mk_type TY_VOID /\ assign_rule fr id n r r'
  | NODE_RETURN_STMT => t = mk_type TY_VOID /\ return_rule fr id n r r'
  | NODE_MATCH_STMT => match_rule fr id n r t r'
  | NODE_ARENA_STMT => t = mk_type TY_VOID /\ arena_rule fr id n r r'
  | NODE_FUNC_DECL => t = mk_type TY_VOID /\ func_rule fr id n r r'
  | NODE_STMT_LIST => stmt_list_rule fr id n r t r'
  | NODE_IF_STMT => if_rule fr id n r t r'
  | NODE_LOOP_STMT | NODE_SCOPE_STMT => t = mk_type TY_VOID /\ visit_all fr id 0 (n_children n) r r'
  | NODE_SPAWN_EXPR => t = mk_type TY_I64 /\ exists e, child fr id n 0 r e r'
  | _ => visit fr id 0 (n_children n) (mk_type TY_VOID) r t r'
  end.
End Step.

(** A derivation of height at most [h]; its last step annotates the node. *)
Fixpoint typed (h : nat) (fr : Frame) (r : Ann) (id : NodeId) (n : Node) (t : Ty) (r' : Ann) : Prop :=
  match h with
  | O => False
  | S h => exists r1, rule (resolves h) (typed h) fr r id n t r1 /\ r' = <[id := t]> r1
  end.

(** All declarations of the program are typed, and annotated by [r]. *)
Definition well_typed (h : nat) (r : Ann) : Prop :=
  visit_all (typed h) (mkFrame None None 0) (0, []) 0 (n_children root) ∅ r.

End Rules.
