(* ===== verification/TypeFacts.v ===== *)
(** * Equality of types, and the type checker's commands as relations *)

From Stdlib Require Import ZArith Lia String Ascii.
From stdpp Require Import base tactics list gmap.
From S2P Require Import Prelude Iface Types Infer TypeSpec CStr Diag Lexer Ast Parser.
From S2P Require Import ModName Resolve ResolveSpec.
Open Scope Z_scope.

(** * Equality of types

    [types_equal] decides [consistent]: it is symmetric, and reflexive on the
    types that annotations describe, but not transitive. *)

(** Induction on the parts of a type that equality looks at. *)
Section TyInd.
Context (P : Ty -> Prop).
Context (H : forall t, (forall e, ty_elem t = Some e -> P e) -> (forall v, map_value t = Some v -> P v) -> P t).

Fixpoint ty_ind' (t : Ty) : P t.
Proof.
  apply H; destruct t as [k n [e|] [|[nm v] fs]]; cbn; intros ? [= <-]; apply ty_ind'.
Defined.
End TyInd.

Lemma kind_of_spec ks t : kind_of ks t = true <-> ty_kind t ∈ ks.
Proof. unfold kind_of. by rewrite bool_decide_eq_true. Qed.

Lemma is_kind_spec k t : is_kind k t = true <-> ty_kind t = k.
Proof. unfold is_kind. by rewrite bool_decide_eq_true. Qed.

Lemma handle_kind t : opaque_handle_type t = true -> ty_kind t = TY_STRUCT.
Proof. unfold opaque_handle_type. intros H. apply andb_prop in H as [[H _]%andb_prop _]. by apply is_kind_spec. Qed.

(** One step of [types_equal]. *)
Lemma types_equal_eq a b :
  types_equal a b =
  if (opaque_handle_type a && scalar_int_type b) || (opaque_handle_type b && scalar_int_type a)
  then true
  else if negb (bool_decide (ty_kind a = ty_kind b)) then false
  else
    let elems := match ty_elem a, ty_elem b with Some x, Some y => types_equal x y | _, _ => false end in
    match ty_kind a with
    | TY_STRUCT =>
        match ty_name a, ty_name b with Some x, Some y => bytes_eqb x y | _, _ => false end
    | TY_PTR => elems
    | TY_MAP =>
        if opt_unknown (ty_elem a) || opt_unknown (ty_elem b) then true
        else if negb elems then false
        else match map_value a, map_value b with
             | None, None => true
             | Some x, Some y => if unknown x || unknown y then true else types_equal x y
             | _, _ => false
             end
    | TY_ARRAY | TY_FUNC | TY_ERROR_TYPE =>
        if opt_unknown (ty_elem a) || opt_unknown (ty_elem b) then true else elems
    | _ => true
    end.
Proof. destruct a as [k n e [|[nm v] fs]], b; reflexivity. Qed.

Lemma types_equal_sound a : forall b, types_equal a b = true -> consistent a b.
Proof.
  induction a as [a He Hv] using ty_ind'. intros b. rewrite types_equal_eq.
  destruct (opaque_handle_type a && scalar_int_type b) eqn:E1.
  { intros _. apply andb_prop in E1 as [? ?]. by apply con_handle_l. }
  destruct (opaque_handle_type b && scalar_int_type a) eqn:E2.
  { intros _. apply andb_prop in E2 as [? ?]. by apply con_handle_r. }
  cbn [orb]. case_bool_decide as Ek; [|done]. cbn [negb].
  assert (Hel : forall x y, ty_elem a = Some x -> ty_elem b = Some y -> types_equal x y = true ->
            kind_of [TY_PTR; TY_ARRAY; TY_FUNC; TY_ERROR_TYPE] a = true -> consistent a b).
  { intros x y Ex Ey Eq Hk. by eapply con_elem; eauto. }
  assert (Hun : opt_unknown (ty_elem a) || opt_unknown (ty_elem b) = true ->
            kind_of [TY_MAP; TY_ARRAY; TY_FUNC; TY_ERROR_TYPE] a = true -> consistent a b).
  { intros Hu Hk. apply con_elem_unknown; [done..|]. by apply orb_prop in Hu. }
  assert (Hsc : kind_of [TY_STRUCT; TY_PTR; TY_MAP; TY_ARRAY; TY_FUNC; TY_ERROR_TYPE] a = false -> consistent a b)
    by (by apply con_scalar).
  unfold kind_of in *. cbv zeta. destruct (ty_kind a) eqn:Ka; try (intros _; by apply Hsc).
  all: destruct (opt_unknown (ty_elem a) || opt_unknown (ty_elem b)) eqn:Eu; try (intros _; by apply Hun).
  all: destruct (ty_elem a) as [x|] eqn:Ex, (ty_elem b) as [y|] eqn:Ey; cbn [negb]; try done.
  all: try (intros Eq; by eapply Hel).
  all: try (destruct (ty_name a) as [m|] eqn:En, (ty_name b) as [m'|] eqn:En'; try done;
            intros ->%bytes_eqb_eq; by eapply con_struct).
  destruct (types_equal x y) eqn:Exy; [|done]. cbn [negb]. intros Hmv.
  eapply con_map; [done|by rewrite <- Ek|done..| |].
  - by eapply He.
  - destruct (map_value a) as [u|] eqn:Eva, (map_value b) as [v|]; try done; constructor.
    destruct (unknown u || unknown v) eqn:Euv; [by apply vc_unknown, orb_prop|].
    apply vc_consistent. by eapply Hv.
Qed.

Lemma types_equal_complete a : forall b, consistent a b -> types_equal a b = true.
Proof.
  induction a as [a He Hv] using ty_ind'. intros b C. rewrite types_equal_eq.
  destruct (_ || _) eqn:E0; [done|].
  destruct C as [a b H1 H2|a b H1 H2|a b Ek Hk|a b m Ka Kb Na Nb|a b Ek Hk Hu|a b x y Ek Hk Ex Ey C|a b x y Ka Kb Ex Ey C Cv].
  - by rewrite H1, H2 in E0.
  - by rewrite H1, H2, orb_true_r in E0.
  - rewrite bool_decide_true by done. unfold kind_of in Hk. cbn. by destruct (ty_kind a).
  - by rewrite Ka, Kb, Na, Nb, bytes_eqb_refl.
  - rewrite bool_decide_true by done. cbn.
    rewrite (proj2 (orb_true_iff _ _)) by done. unfold kind_of in Hk. by destruct (ty_kind a).
  - rewrite bool_decide_true by done. cbn. rewrite Ex, Ey, (He _ Ex _ C). unfold kind_of in Hk.
    destruct (ty_kind a); try done; by case_match.
  - rewrite Ka, Kb. cbn. rewrite Ex, Ey, (He _ Ex _ C). cbn. destruct (unknown x || unknown y); [done|].
    inversion Cv as [u v Hc Eu Ev|Eu Ev]; [|done].
    destruct Hc as [? ? [->| ->]|? ? Hc]; [done|by rewrite orb_true_r|].
    by rewrite (Hv _ (eq_sym Eu) _ Hc), Tauto.if_same.
Qed.

Lemma types_equal_spec a b : types_equal a b = true <-> consistent a b.
Proof. split; [apply types_equal_sound|apply types_equal_complete]. Qed.

Lemma not_types_equal a b : types_equal a b = false <-> ~ consistent a b.
Proof. rewrite <- types_equal_spec. by destruct (types_equal a b). Qed.

#[global] Instance consistent_dec a b : Decision (consistent a b).
Proof. destruct (types_equal a b) eqn:E; [left; by apply types_equal_spec|right; by apply not_types_equal]. Defined.

Lemma value_consistent_sym_of (x y : Ty) :
  (consistent x y -> consistent y x) -> value_consistent x y -> value_consistent y x.
Proof.
  intros IH C. inversion C; subst; [apply vc_unknown; tauto|by apply vc_consistent, IH].
Qed.

Lemma consistent_sym_of a : forall b, consistent a b -> consistent b a.
Proof.
  induction a as [a He Hv] using ty_ind'. intros b C.
  destruct C as [a b H1 H2|a b H1 H2|a b Ek Hk|a b m Ka Kb Na Nb|a b Ek Hk Hu|a b x y Ek Hk Ex Ey C|a b x y Ka Kb Ex Ey C Cv].
  - by apply con_handle_r.
  - by apply con_handle_l.
  - apply con_scalar; [done|]. unfold kind_of in *. by rewrite <- Ek.
  - by eapply con_struct.
  - apply con_elem_unknown; [done| |tauto]. unfold kind_of in *. by rewrite <- Ek.
  - eapply con_elem; [done| |done..|by eapply He]. unfold kind_of in *. by rewrite <- Ek.
  - eapply con_map; [done..|by eapply He|].
    destruct (map_value a) as [u|] eqn:Eu; inversion Cv; subst; constructor.
    apply value_consistent_sym_of; [|done]. by apply Hv.
Qed.

#[global] Instance consistent_sym : Symmetric consistent.
Proof. intros a b. apply consistent_sym_of. Qed.

(** A type annotations describe: every composite has its parts, structs a name. *)
#[warnings="-register-all"]
Inductive complete : Ty -> Prop :=
  complete_intro t :
    (kind_of [TY_PTR; TY_MAP; TY_ARRAY; TY_FUNC; TY_ERROR_TYPE] t = true -> ty_elem t <> None) ->
    (ty_kind t = TY_STRUCT -> ty_name t <> None) ->
    (forall e, ty_elem t = Some e -> complete e) ->
    (forall v, map_value t = Some v -> ty_kind t = TY_MAP -> complete v) ->
    complete t.

Lemma consistent_refl t : complete t -> consistent t t.
Proof.
  induction t as [t He Hv] using ty_ind'. intros Hc. inversion Hc as [t' Hel Hn Hce Hcv]; subst t'.
  destruct (kind_of [TY_STRUCT; TY_PTR; TY_MAP; TY_ARRAY; TY_FUNC; TY_ERROR_TYPE] t) eqn:Ek;
    [|by apply con_scalar].
  assert (Hp : kind_of [TY_PTR; TY_MAP; TY_ARRAY; TY_FUNC; TY_ERROR_TYPE] t = true ->
               exists x, ty_elem t = Some x /\ consistent x x).
  { intros H. destruct (ty_elem t) as [x|] eqn:Ex; [|by apply Hel in H]. exists x. split; [done|]. apply He; [done|by apply Hce]. }
  destruct (ty_kind t) eqn:Kt; try (unfold kind_of in Ek; rewrite Kt in Ek; done).
  1: { destruct (ty_name t) as [m|] eqn:En; [by eapply con_struct|by destruct Hn]. }
  all: destruct Hp as (x & Ex & Cx); [by unfold kind_of; rewrite Kt|].
  5: { eapply con_map; [done..|]. destruct (map_value t) as [v|] eqn:Ev; constructor.
       apply vc_consistent. apply Hv; [done|by apply Hcv]. }
  all: eapply con_elem; [done| |done..]; unfold kind_of; by rewrite Kt.
Qed.

(** What is unknown makes two different types equal to a third. *)
Example consistent_not_transitive :
  let arr t := mkTy TY_ARRAY None (Some t) [] in
  consistent (arr (mk_type TY_I64)) (arr (mk_type TY_UNKNOWN))
  /\ consistent (arr (mk_type TY_UNKNOWN)) (arr (mk_type TY_STR))
  /\ ~ consistent (arr (mk_type TY_I64)) (arr (mk_type TY_STR)).
Proof. cbn zeta. rewrite <- !types_equal_spec. by vm_compute. Qed.

(** The values of maps are not compared when a type of keys is unknown. *)
Example map_values_skipped :
  let map_ k v := mkTy TY_MAP None (Some (mk_type k)) [(None, mk_type v)] in
  types_equal (map_ TY_UNKNOWN TY_I64) (map_ TY_STR TY_STR) = true.
Proof. vm_compute. reflexivity. Qed.

(** The type of functions is not equal to itself. *)
Example func_not_equal : types_equal (mk_type TY_FUNC) (mk_type TY_FUNC) = false.
Proof. vm_compute. reflexivity. Qed.

(** * Reasoning about the commands of the type checker

    [purely m P]: [m] changes nothing and gives exactly the results in [P].
    [denotes m R]: the runs of [m] that find no error are those of the relation [R]
    between the annotations before and behind, in the frame of the function; no
    run changes the frame, the depths, or forgets an error.  One lemma for each
    way to compose commands. *)

(** ** Nodes whose text is in the source, without interpolation *)

Fixpoint fits (src : list Z) (n : Node) : bool :=
  span_in src n && (negb (has_kind NODE_STR_LIT n) || no_interp (TypeSpec.text src n))
  && forallb (fits src) (n_children n).

Lemma fits_span src n : fits src n = true -> span_in src n = true.
Proof. destruct n. simpl. intros H. by apply andb_prop in H as [[? _]%andb_prop _]. Qed.

Lemma fits_str src n :
  fits src n = true -> n_kind n = NODE_STR_LIT -> no_interp (TypeSpec.text src n) = true.
Proof.
  destruct n. simpl. intros H ->. apply andb_prop in H as [[_ H]%andb_prop _]. exact H.
Qed.

Lemma fits_children src n : fits src n = true -> Forall (fun c => fits src c = true) (n_children n).
Proof.
  destruct n. simpl. intros H. apply andb_prop in H as [_ H].
  apply List.Forall_forall. intros c Hc. rewrite forallb_forall in H. auto.
Qed.

Lemma fits_child src n i c : fits src n = true -> n_children n !! i = Some c -> fits src c = true.
Proof. intros H E. by eapply Forall_lookup_1 in E; [|by apply fits_children]. Qed.

(** ** Commands that only read *)

Record purely {A} (m : TM A) (P : A -> Prop) : Prop := {
  pure_sound s a s' : m s = Ok (a, s') -> s' = s /\ P a;
  pure_complete s a : P a -> m s = Ok (a, s)
}.

Lemma purely_conseq {A} (m : TM A) (P Q : A -> Prop) :
  purely m P -> (forall a, P a <-> Q a) -> purely m Q.
Proof. intros [H1 H2] H. split; intros; [|by apply H2, H]. apply H1 in H0 as [? ?]. split; [done|by apply H]. Qed.

Lemma purely_ret {A} (a : A) : purely (ret a) (fun b => b = a).
Proof. split; [by intros s b s' [= -> ->]|by intros s b ->]. Qed.

Lemma purely_bind {A B} (m : TM A) (k : A -> TM B) P K :
  purely m P -> (forall a, P a -> purely (k a) (K a)) ->
  purely (bind m k) (fun b => exists a, P a /\ K a b).
Proof.
  intros [H1 H2] Hk. split.
  - intros s b s' E. unfold bind in E. destruct (m s) as [[a s1]| |] eqn:Em; try done.
    apply H1 in Em as [-> Ha]. apply (pure_sound _ _ (Hk a Ha)) in E as [-> ?]. eauto.
  - intros s b (a & Ha & Hb). unfold bind. rewrite (H2 s a Ha). by apply (pure_complete _ _ (Hk a Ha)).
Qed.

(** The result is known. *)
Lemma purely_then {A B} (m : TM A) (k : A -> TM B) a P :
  purely m (fun b => b = a) -> purely (k a) P -> purely (bind m k) P.
Proof.
  intros Hm Hk. eapply purely_conseq; [apply (purely_bind _ _ _ (fun _ => P) Hm); by intros ? ->|].
  intros b. split; [by intros (? & _ & ?)|eauto].
Qed.

Lemma purely_map {A B} (m : TM A) (f : A -> B) P :
  purely m P -> purely (do a <- m; ret (f a)) (fun b => exists a, P a /\ b = f a).
Proof. intros H. apply (purely_bind _ _ _ (fun a b => b = f a) H). intros a _. apply purely_ret. Qed.

Lemma purely_range src p n :
  0 <= p -> 0 <= n -> p + n <= zlen src -> purely (rd_range src p n) (fun b => b = slice src p n).
Proof.
  intros. unfold rd_range. rewrite !(proj2 (Z.leb_le _ _)) by done. apply purely_ret.
Qed.

Lemma purely_tokstr src size n :
  0 < size -> span_in src n = true -> purely (tokstr src size n) (fun b => b = lexeme src size n).
Proof.
  intros Hz Hs. unfold span_in in Hs. zb. unfold tokstr, lexeme.
  destruct (n_tok_len n <? size - 1) eqn:E; zb;
    (eapply purely_then; [apply purely_range; lia|apply purely_ret]).
Qed.

(** ** The state of the walk *)

Definition fr_of (s : Ctx) : Frame := mkFrame (cx_fn_ret s) (cx_fn_node s) (cx_bind_infer_depth s).

Section Walk.
Context (src : list Z).
(** The diagnostics before the pass. *)
Context (start : Diags).

Record tc_inv (s : Ctx) : Prop := {
  ti_reported : cx_had_error s = false -> cx_reported s = [];
  ti_fn id fn : cx_fn_node s = Some (id, fn) -> fits src fn = true;
  ti_count : 0 <= cx_fn_error_count s;
  ti_first : 0 < cx_fn_error_count s -> cx_had_error s = true;
  ti_errors : s_suppress start = false -> cx_had_error s = true ->
    s_error_count start < s_error_count (cx_diags s);
  ti_clean : cx_had_error s = false -> s_error_count (cx_diags s) = s_error_count start;
  ti_suppress : s_suppress (cx_diags s) = s_suppress start;
  ti_binds : Forall (fun b => 0 <= bd_start b /\ 0 <= bd_len b /\ bd_start b + bd_len b <= zlen src) (cx_binds s)
}.

Record tc_keeps (s s' : Ctx) : Prop := {
  tk_frame : fr_of s' = fr_of s;
  tk_scope : cx_scope_depth s' = cx_scope_depth s;
  tk_arena : cx_arena_depth s' = cx_arena_depth s;
  tk_had : cx_had_error s = true -> cx_had_error s' = true;
  tk_inv : tc_inv s'
}.

Lemma tc_keeps_refl s : tc_inv s -> tc_keeps s s.
Proof. by split. Qed.

Lemma tc_keeps_trans s1 s2 s3 : tc_keeps s1 s2 -> tc_keeps s2 s3 -> tc_keeps s1 s3.
Proof. intros [] []. split; congruence || auto. Qed.

Lemma clean_before s s' : tc_keeps s s' -> cx_had_error s' = false -> cx_had_error s = false.
Proof. intros K H. destruct (cx_had_error s) eqn:E; [|done]. by rewrite (tk_had _ _ K E) in H. Qed.

Definition Rel (A : Type) : Type := Frame -> gmap NodeId Ty -> A -> gmap NodeId Ty -> Prop.

Record denotes {A} (m : TM A) (R : Rel A) : Prop := {
  den_keeps s a s' : tc_inv s -> m s = Ok (a, s') -> tc_keeps s s';
  den_sound s a s' : tc_inv s -> m s = Ok (a, s') -> cx_had_error s' = false ->
    R (fr_of s) (cx_rtypes s) a (cx_rtypes s');
  den_complete s a r : tc_inv s -> cx_had_error s = false -> R (fr_of s) (cx_rtypes s) a r ->
    exists s', m s = Ok (a, s') /\ cx_had_error s' = false /\ cx_rtypes s' = r
}.

Lemma denotes_conseq {A} (m : TM A) (R Q : Rel A) :
  denotes m R -> (forall fr r a r', R fr r a r' <-> Q fr r a r') -> denotes m Q.
Proof.
  intros [H1 H2 H3] H. split; [done| |].
  - intros. apply H. eauto.
  - intros. eapply H3; [done..|]. by apply H.
Qed.

Lemma denotes_pure {A} (m : TM A) P : purely m P -> denotes m (fun _ r a r' => P a /\ r' = r).
Proof.
  intros [H1 H2]. split.
  - intros s a s' Hi E. apply H1 in E as [-> _]. by apply tc_keeps_refl.
  - intros s a s' Hi E _. by apply H1 in E as [-> ?].
  - intros s a r Hi Hc [HP ->]. eauto.
Qed.

Lemma denotes_ret {A} (a : A) : denotes (ret a) (fun _ r b r' => b = a /\ r' = r).
Proof. apply (denotes_pure _ (fun b => b = a)), purely_ret. Qed.

Lemma denotes_bind {A B} (m : TM A) (k : A -> TM B) R K :
  denotes m R -> (forall a, denotes (k a) (K a)) ->
  denotes (bind m k) (fun fr r b r' => exists a r1, R fr r a r1 /\ K a fr r1 b r').
Proof.
  intros [H1 H2 H3] Hk.
  assert (Hb : forall s b s', bind m k s = Ok (b, s') -> exists a s1, m s = Ok (a, s1) /\ k a s1 = Ok (b, s')).
  { intros s b s' E. unfold bind in E. destruct (m s) as [[a s1]| |]; try done. eauto. }
  split.
  - intros s b s' Hi (a & s1 & E1 & E2)%Hb. pose proof (H1 _ _ _ Hi E1) as K1.
    eapply tc_keeps_trans; [exact K1|]. eapply (den_keeps _ _ (Hk a)); [apply K1|exact E2].
  - intros s b s' Hi (a & s1 & E1 & E2)%Hb Hc. pose proof (H1 _ _ _ Hi E1) as K1.
    pose proof (den_keeps _ _ (Hk a) _ _ _ (tk_inv _ _ K1) E2) as K2.
    exists a, (cx_rtypes s1). split; [eapply H2; eauto using clean_before|].
    rewrite <- (tk_frame _ _ K1). eapply (den_sound _ _ (Hk a)); [apply K1|done..].
  - intros s b r Hi Hc (a & r1 & HR & HK). destruct (H3 _ _ _ Hi Hc HR) as (s1 & E1 & Hc1 & <-).
    pose proof (H1 _ _ _ Hi E1) as K1. rewrite <- (tk_frame _ _ K1) in HK.
    destruct (den_complete _ _ (Hk a) _ _ _ (tk_inv _ _ K1) Hc1 HK) as (s' & E2 & Hc2 & Hr).
    exists s'. split; [|done]. unfold bind. by rewrite E1.
Qed.

(** Behind a command that only reads. *)
Lemma denotes_read {A B} (m : TM A) (k : A -> TM B) P K :
  purely m P -> (forall a, P a -> denotes (k a) (K a)) ->
  denotes (bind m k) (fun fr r b r' => exists a, P a /\ K a fr r b r').
Proof.
  intros [H1 H2] Hk.
  assert (Hb : forall s b s', bind m k s = Ok (b, s') -> exists a, P a /\ k a s = Ok (b, s')).
  { intros s b s' E. unfold bind in E. destruct (m s) as [[a s1]| |] eqn:Em; try done.
    apply H1 in Em as [-> ?]. eauto. }
  split.
  - intros s b s' Hi (a & Ha & E)%Hb. by eapply (den_keeps _ _ (Hk a Ha)).
  - intros s b s' Hi (a & Ha & E)%Hb Hc. exists a. split; [done|]. by eapply (den_sound _ _ (Hk a Ha)).
  - intros s b r Hi Hc (a & Ha & HK). unfold bind. rewrite (H2 s a Ha).
    by eapply (den_complete _ _ (Hk a Ha)).
Qed.

Lemma denotes_then {A B} (m : TM A) (k : A -> TM B) a R :
  purely m (fun b => b = a) -> denotes (k a) R -> denotes (bind m k) R.
Proof.
  intros Hm Hk. eapply denotes_conseq; [apply (denotes_read _ _ _ (fun _ => R) Hm); by intros ? ->|].
  intros. split; [by intros (? & _ & ?)|eauto].
Qed.

(** A command on the state whose relation depends on the frame alone. *)
Lemma denotes_get {A} (k : Ctx -> TM A) (K : Frame -> Rel A) :
  (forall s, tc_inv s -> denotes (k s) (K (fr_of s))) ->
  denotes (bind get k) (fun fr => K fr fr).
Proof.
  intros Hk. split; intros s; intros.
  - by eapply (den_keeps _ _ (Hk s ltac:(done))).
  - by eapply (den_sound _ _ (Hk s ltac:(done))).
  - by eapply (den_complete _ _ (Hk s ltac:(done))).
Qed.

Definition never {A} : Rel A := fun _ _ _ _ => False.

(** A report of an error; [l] is what has been reported on. *)
Definition with_reported (l : list NodeId) (s : Ctx) : Ctx :=
  mkCtx (cx_fn_ret s) (cx_had_error s) (cx_fn_node s) (cx_scope_depth s) (cx_binds s) (cx_bind_count s)
    (cx_fn_error_count s) (cx_bind_infer_depth s) l (cx_arena_depth s) (cx_rtypes s) (cx_trees s)
    (cx_diags s).

Lemma tc_error_reported code n f l s :
  tc_inv s ->
  exists s', tc_error code n f (with_reported l s) = Ok (tt, s') /\ tc_keeps s s' /\ cx_had_error s' = true.
Proof.
  intros [H1 H2 H3 H4 H5 H6 H7 H8]. unfold tc_error, tc_can_emit, bind, modify, get, ret, when. cbn.
  destruct (cx_fn_error_count s + 1 <=? MAX_TYPE_ERRORS) eqn:E; unfold MAX_TYPE_ERRORS in E; zb;
    (eexists; split; [reflexivity|]; split; [|done]; split; try done; split; cbn; try done; [lia|..]).
  - unfold diag_emit. rewrite emit_diag_errors. cbn. rewrite H7. intros Hs _. rewrite Hs.
    destruct (cx_had_error s) eqn:Eh; [specialize (H5 Hs eq_refl); lia|specialize (H6 eq_refl); lia].
  - unfold diag_emit. by rewrite emit_diag_suppress.
  - intros Hs _. apply H5; [done|]. apply H4. lia.
Qed.

Lemma denotes_fails {A} (m : TM A) :
  (forall s, tc_inv s -> exists a s', m s = Ok (a, s') /\ tc_keeps s s' /\ cx_had_error s' = true) ->
  denotes m never.
Proof.
  intros H. split; intros s a s' Hi E; intros.
  - destruct (H s Hi) as (b & s1 & E1 & K & _). congruence.
  - destruct (H s Hi) as (b & s1 & E1 & K & Hh). congruence.
  - done.
Qed.

Lemma error_reported code n f s :
  tc_inv s -> exists s', tc_error code n f s = Ok (tt, s') /\ tc_keeps s s' /\ cx_had_error s' = true.
Proof.
  intros Hi. destruct (tc_error_reported code n f (cx_reported s) s Hi) as (s' & ?). exists s'. by destruct s.
Qed.

Lemma error_once_reported code id n f s :
  tc_inv s -> exists s', tc_error_once code id n f s = Ok (tt, s') /\ tc_keeps s s' /\ cx_had_error s' = true.
Proof.
  intros Hi. unfold tc_error_once, tc_first_report, bind, get, ret.
  case_bool_decide as Hin.
  - exists s. split; [done|]. split; [by apply tc_keeps_refl|]. destruct (cx_had_error s) eqn:E; [done|].
    rewrite (ti_reported _ Hi E) in Hin. by apply elem_of_nil in Hin.
  - unfold when. destruct (zlen (cx_reported s) <? _); cbn.
    + exact (tc_error_reported code n f _ s Hi).
    + by apply error_reported.
Qed.

Lemma denotes_error code n f : denotes (tc_error code n f) never.
Proof. apply denotes_fails. intros s Hi. exists tt. by apply error_reported. Qed.

Lemma denotes_error_once code id n f : denotes (tc_error_once code id n f) never.
Proof. apply denotes_fails. intros s Hi. exists tt. by apply error_once_reported. Qed.

(** An error in front of any result. *)
Lemma denotes_error_then {A} (m : TM unit) (k : TM A) R :
  denotes m never -> denotes k R -> denotes (do! m; k) never.
Proof.
  intros Hm Hk. eapply denotes_conseq; [exact (denotes_bind _ _ _ (fun _ => R) Hm (fun _ => Hk))|].
  intros. split; [by intros (? & ? & [] & _)|done].
Qed.

Lemma denotes_if {A} (b : bool) (m1 m2 : TM A) R1 R2 :
  denotes m1 R1 -> denotes m2 R2 ->
  denotes (if b then m1 else m2) (fun fr r a r' => if b then R1 fr r a r' else R2 fr r a r').
Proof. intros. by destruct b. Qed.

(** Commands that are, in each state, one of the relation. *)
Lemma denotes_state {A} (m : TM A) R :
  (forall s, tc_inv s -> exists m', m s = m' s /\ denotes m' R) -> denotes m R.
Proof.
  intros H. split.
  - intros s a s' Hi E. destruct (H s Hi) as (m' & Em & Hd). rewrite Em in E. by eapply (den_keeps _ _ Hd).
  - intros s a s' Hi E Hc. destruct (H s Hi) as (m' & Em & Hd). rewrite Em in E. by eapply (den_sound _ _ Hd).
  - intros s a r Hi Hc HR. destruct (H s Hi) as (m' & Em & Hd). rewrite Em. by eapply (den_complete _ _ Hd).
Qed.

(** An error that ends the command when there have been too many. *)
Lemma error_or_stop code n f (k : TM unit) s :
  let m := do ok <- tc_can_emit; if negb ok then ret tt else do! tc_emit DIAG_ERROR code n f; k in
  m s = (do! tc_error code n f; k) s \/ m s = (do! tc_error code n f; ret tt) s.
Proof.
  unfold tc_error, tc_can_emit, bind, modify, get, ret, when. cbn.
  destruct (cx_fn_error_count s + 1 <=? MAX_TYPE_ERRORS) eqn:E; [left|right]; done.
Qed.

Lemma denotes_error_or_stop code n f (k : TM unit) R :
  denotes k R ->
  denotes (do ok <- tc_can_emit; if negb ok then ret tt else do! tc_emit DIAG_ERROR code n f; k) never.
Proof.
  intros Hk. apply denotes_state. intros s _.
  destruct (error_or_stop code n f k s) as [E|E]; rewrite E; eexists; (split; [reflexivity|]);
    eapply denotes_error_then; [apply denotes_error|exact Hk|apply denotes_error|apply denotes_ret].
Qed.

(** A command that gives the one answer in [P], or an error when there is none. *)
Abbreviation answers m P := (denotes m (fun _ r t r' => P t /\ r' = r)).

Lemma answers_ret {A} (a : A) (P : A -> Prop) : (forall b, P b <-> b = a) -> answers (ret a) P.
Proof. intros H. eapply denotes_conseq; [apply denotes_ret|]. intros. cbn. by rewrite H. Qed.

Lemma answers_error {A} code n f (a : A) (P : A -> Prop) :
  (forall b, ~ P b) -> answers (do! tc_error code n f; ret a) P.
Proof.
  intros H. eapply denotes_conseq; [eapply denotes_error_then; [apply denotes_error|apply denotes_ret]|].
  intros fr r b r'. unfold never. split; [done|]. intros [? _]. by apply (H b).
Qed.

Lemma answers_error_once {A} code id n f (a : A) (P : A -> Prop) :
  (forall b, ~ P b) -> answers (do! tc_error_once code id n f; ret a) P.
Proof.
  intros H. eapply denotes_conseq; [eapply denotes_error_then; [apply denotes_error_once|apply denotes_ret]|].
  intros fr r b r'. unfold never. split; [done|]. intros [? _]. by apply (H b).
Qed.

(** An error unless [b] is false. *)
Lemma denotes_when_error (b : bool) (m : TM unit) :
  denotes m never -> denotes (when b m) (fun _ r _ r' => b = false /\ r' = r).
Proof.
  intros H. destruct b.
  - eapply denotes_conseq; [exact H|]. intros. split; [done|]. by intros [? _].
  - eapply denotes_conseq; [apply denotes_ret|]. intros ? ? [] ?. split; by intros [_ ->].
Qed.

(** A change of the state that the relations do not see. *)
Lemma denotes_modify (f : Ctx -> Ctx) :
  (forall s, tc_inv s -> tc_keeps s (f s) /\ cx_had_error (f s) = cx_had_error s
                        /\ cx_rtypes (f s) = cx_rtypes s) ->
  denotes (modify f) (fun _ r _ r' => r' = r).
Proof.
  intros H. split.
  - intros s a s' Hi [= _ <-]. apply H, Hi.
  - intros s a s' Hi [= _ <-] _. apply H, Hi.
  - intros s [] r Hi Hc ->. exists (f s). destruct (H s Hi) as (_ & Hh & Hr). split; [done|]. by rewrite Hh.
Qed.

Lemma denotes_warning code n f : denotes (tc_emit DIAG_WARNING code n f) (fun _ r _ r' => r' = r).
Proof.
  apply denotes_modify. intros s [H1 H2 H3 H4 H5 H6 H7 H8]. split_and!; [|done..]. split; try done.
  split; cbn; try done; unfold diag_emit; rewrite ?emit_diag_errors, ?emit_diag_suppress; cbn; [..|done];
    rewrite Z.add_0_r; auto.
Qed.

Lemma denotes_skip (b : bool) (m : TM unit) :
  denotes m (fun _ r _ r' => r' = r) -> denotes (when b m) (fun _ r _ r' => r' = r).
Proof.
  intros H. destruct b; [done|].
  eapply denotes_conseq; [apply denotes_ret|]. intros ? ? [] ?. split; [by intros [_ ->]|by intros ->].
Qed.

Lemma denotes_record name :
  span_in src name = true ->
  denotes (do s <- get; record_bind_depth name (cx_scope_depth s)) (fun _ r _ r' => r' = r).
Proof.
  intros Hn. unfold span_in in Hn. zb.
  apply (denotes_get _ (fun _ _ r _ r' => r' = r)). intros s _. apply denotes_modify. intros s' Hi.
  cbv beta zeta.
  case_match; [split_and!; [by apply tc_keeps_refl|done..]|]. destruct Hi.
  split_and!; [|done..]. split; try done. split; try done. cbn.
  apply Forall_app. split; [by apply Forall_take|]. constructor; [by cbn|by apply Forall_drop].
Qed.

(** ** Nodes *)

Lemma denotes_memo id (m : TM Ty) R :
  denotes m R ->
  denotes (do t <- m; do! modify (set_rtype id t); ret t)
    (fun fr r t r' => exists r1, R fr r t r1 /\ r' = <[id := t]> r1).
Proof.
  intros [H1 H2 H3].
  assert (Hb : forall s a s', (do t <- m; do! modify (set_rtype id t); ret t) s = Ok (a, s') ->
    exists s1, m s = Ok (a, s1) /\ s' = set_rtype id a s1).
  { intros s a s' E. unfold bind, modify, ret in E. destruct (m s) as [[b s1]| |]; try done. injection E as <- <-. eauto. }
  split.
  - intros s a s' Hi (s1 & E & ->)%Hb. destruct (H1 _ _ _ Hi E) as [? ? ? ? []]. by split.
  - intros s a s' Hi (s1 & E & ->)%Hb Hc. eauto.
  - intros s a r Hi Hc (r1 & HR & ->). destruct (H3 _ _ _ Hi Hc HR) as (s1 & E & Hc1 & <-).
    exists (set_rtype id a s1). unfold bind, modify, ret. by rewrite E.
Qed.

(** A command that only reads, the annotations included. *)
Lemma denotes_reads {A} (m : TM A) (f : gmap NodeId Ty -> A) :
  (forall s, m s = Ok (f (cx_rtypes s), s)) -> denotes m (fun _ r a r' => a = f r /\ r' = r).
Proof.
  intros H. split.
  - intros s a s' Hi. rewrite H. intros [= _ <-]. by apply tc_keeps_refl.
  - intros s a s' Hi. rewrite H. by intros [= <- <-].
  - intros s a r Hi Hc [-> ->]. eauto.
Qed.

(** A bracket: [f] before, [g] with what [f] started from behind. *)
Lemma denotes_bracket {A B} (f : Ctx -> Ctx) (g : Ctx -> Ctx -> Ctx) (h : Frame -> Frame) (p : A -> B)
    (m : TM A) R :
  (forall s, tc_inv s -> tc_inv (f s) /\ fr_of (f s) = h (fr_of s)
     /\ cx_had_error (f s) = cx_had_error s /\ cx_rtypes (f s) = cx_rtypes s) ->
  (forall s s1, tc_inv s -> tc_keeps (f s) s1 ->
     tc_keeps s (g s s1) /\ cx_had_error (g s s1) = cx_had_error s1 /\ cx_rtypes (g s s1) = cx_rtypes s1) ->
  denotes m R ->
  denotes (do s <- get; do! modify f; do a <- m; do! modify (g s); ret (p a))
    (fun fr r b r' => exists a, R (h fr) r a r' /\ b = p a).
Proof.
  intros Hf Hg [H1 H2 H3].
  assert (Hb : forall s b s', (do s <- get; do! modify f; do a <- m; do! modify (g s); ret (p a)) s = Ok (b, s') ->
    exists a s1, m (f s) = Ok (a, s1) /\ s' = g s s1 /\ b = p a).
  { intros s b s' E. unfold bind, modify, get, ret in E. destruct (m (f s)) as [[a s1]| |]; try done.
    injection E as <- <-. eauto. }
  split.
  - intros s b s' Hi (a & s1 & E & -> & _)%Hb. destruct (Hf s Hi) as (Hi' & _). by apply Hg; [|eapply H1].
  - intros s b s' Hi (a & s1 & E & -> & ->)%Hb Hc. destruct (Hf s Hi) as (Hi' & Efr & Eh & Er).
    destruct (Hg s s1 Hi (H1 _ _ _ Hi' E)) as (_ & Eh1 & ->). rewrite <- Efr, <- Er. exists a.
    split; [|done]. eapply H2; [done..|]. by rewrite <- Eh1.
  - intros s b r Hi Hc (a & HR & ->). destruct (Hf s Hi) as (Hi' & Efr & Eh & Er). rewrite <- Efr, <- Er in HR.
    destruct (H3 _ _ _ Hi' ltac:(by rewrite Eh) HR) as (s1 & E & Hc1 & <-).
    destruct (Hg s s1 Hi (H1 _ _ _ Hi' E)) as (_ & Eh1 & Er1). exists (g s s1).
    split; [|by rewrite Eh1]. unfold bind, modify, get, ret. by rewrite E.
Qed.

(** A bracket that the frame does not see. *)
Lemma denotes_between (f g : Ctx -> Ctx) (m : TM unit) (R : Rel unit) :
  (forall s, tc_inv s -> tc_inv (f s) /\ fr_of (f s) = fr_of s
     /\ cx_had_error (f s) = cx_had_error s /\ cx_rtypes (f s) = cx_rtypes s) ->
  (forall s s1, tc_inv s -> tc_keeps (f s) s1 ->
     tc_keeps s (g s1) /\ cx_had_error (g s1) = cx_had_error s1 /\ cx_rtypes (g s1) = cx_rtypes s1) ->
  denotes m R -> denotes (do! modify f; do! m; modify g) R.
Proof.
  intros Hf Hg Hm. apply denotes_state. intros s _.
  exists (do s <- get; do! modify f; do u <- m; do! modify g; ret u). split.
  - unfold bind, modify, get, ret. by destruct (m (f s)) as [[[] ?]| |].
  - eapply denotes_conseq; [exact (denotes_bracket f (fun _ => g) (fun fr => fr) (fun u => u) m R Hf Hg Hm)|].
    intros fr r a r'. split; [by intros (? & ? & ->)|eauto].
Qed.

Lemma denotes_in_block {A} (m : TM A) R : denotes m R -> denotes (in_block m) R.
Proof.
  intros Hm. eapply denotes_conseq.
  - refine (denotes_bracket (fun s => set_scope (cx_scope_depth s + 1) (cx_bind_count s) s)
           (fun s s' => set_scope (cx_scope_depth s' - 1) (cx_bind_count s) s') id id m R _ _ Hm).
    + intros s []. by split_and!.
    + intros s s1 Hi [? Hs ? ? []]. split_and!; [|done..]. split; try done. cbn in *. lia.
  - intros fr r a r'. unfold id. split; [by intros (? & ? & ->)|eauto].
Qed.

(** One level deeper in the inference of bindings. *)
Lemma denotes_deeper {A B} (m : TM A) (p : A -> B) R :
  denotes m R ->
  denotes (do! modify (add_infer_depth 1); do a <- m; do! modify (add_infer_depth (-1)); ret (p a))
    (fun fr r b r' => exists a, R (deeper fr) r a r' /\ b = p a).
Proof.
  intros Hm.
  refine (denotes_bracket (add_infer_depth 1) (fun _ => add_infer_depth (-1)) deeper p m R _ _ Hm).
  - intros s []. by split_and!.
  - intros s s1 Hi [Hf ? ? ? []]. split_and!; [|done..]. split; try done. unfold fr_of in *. cbn in *.
    injection Hf as -> -> Hd. f_equal. lia.
Qed.

(** The body of a function [fn] with results [t]. *)
Lemma denotes_function {A B} (t : Ty) id fn (m : TM A) (p : A -> B) R :
  fits src fn = true -> denotes m R ->
  denotes (do s <- get;
           do! modify (fun s => set_fn_errors 0 (set_scope 0 0 (set_fn (Some t) (Some (id, fn)) s)));
           do a <- m;
           do! modify (fun s' => set_fn_errors (cx_fn_error_count s)
                 (set_scope (cx_scope_depth s) (cx_bind_count s) (set_fn (cx_fn_ret s) (cx_fn_node s) s')));
           ret (p a))
    (fun fr r b r' => exists a, R (mkFrame (Some t) (Some (id, fn)) (fr_depth fr)) r a r' /\ b = p a).
Proof.
  intros Hfn Hm.
  refine (denotes_bracket _ (fun s s' => set_fn_errors (cx_fn_error_count s)
            (set_scope (cx_scope_depth s) (cx_bind_count s) (set_fn (cx_fn_ret s) (cx_fn_node s) s')))
            (fun fr => mkFrame (Some t) (Some (id, fn)) (fr_depth fr)) p m R _ _ Hm).
  - intros s []. split_and!; try done. split; cbn; try done. by intros ? ? [= _ <-].
  - intros s s1 Hi [Hf Hs Ha Hh [H1 H2 H3 H4 H5 H6 H7 H8]]. destruct Hi as [I1 I2 I3 I4 I5 I6 I7 I8].
    split_and!; [|done..]. split; cbn in *; try done.
    + unfold fr_of in *. cbn in *. injection Hf as _ _ Hd. by rewrite Hd.
    + split; cbn; try done. intros Hc. apply Hh, I4, Hc.
Qed.

End Walk.
