(* ===== verification/TypeLookup.v ===== *)
(** * What the type checker looks up, and its table of binary operators *)

From Stdlib Require Import ZArith Lia String Ascii.
From stdpp Require Import base tactics list gmap.
From S2P Require Import Prelude CStr Diag Lexer Ast Parser ModName Resolve Iface Types.
From S2P Require Import Infer TypeSpec TypeFacts.
Open Scope Z_scope.

(** * What the type checker looks up

    Annotations, modules of aliases, bindings and parameters: on nodes whose texts
    are in the source the lookups of [Types] and [Infer] are those of [TypeSpec]. *)

Section Lookup.
Context {rt : Runtime} (src : list Z) (scope : list TDecl) (env : NameEnv) (root : Node).
Context (Hscope : Forall (fun d => forall id def, td_def d = Some (id, def) -> fits src def = true) scope).
Context (Hroot : fits src root = true).
Abbreviation fit n := (fits src n = true).

Lemma purely_name n : fit n -> purely (tokstr src 128 n) (fun b => b = lexeme src 128 n).
Proof. intros H. apply purely_tokstr; [lia|by apply fits_span]. Qed.

Lemma tc_lookup_fits x d id def : tc_lookup scope x = Some d -> td_def d = Some (id, def) -> fit def.
Proof.
  clear Hroot. induction Hscope as [|d' l Hd Hl IH]; [done|]. cbn. case_match; [|by apply IH].
  intros [= <-]. apply Hd.
Qed.

(** ** Annotations *)

Lemma purely_fields (T : Node -> TM Ty) RT fs :
  (forall n, fit n -> purely (T n) (RT n)) -> Forall (fun n => fit n) fs ->
  purely ((fix go (fs : list Node) : TM (list (option (list Z) * Ty)) :=
    match fs with
    | [] => ret []
    | f :: fs =>
        do fnb <- tokstr src 128 f;
        do t <- match n_children f with c :: _ => T c | [] => ret (mk_type TY_UNKNOWN) end;
        do l <- go fs;
        ret ((Some fnb, t) :: l)
    end) fs) (Forall2 (field_resolves src RT) fs).
Proof.
  intros HT. induction 1 as [|f fs Hf Hfs IH].
  { eapply purely_conseq; [apply purely_ret|]. intros l. split; [by intros ->|by inversion 1]. }
  eapply purely_then; [by apply purely_name|].
  assert (Ht : purely (match n_children f with c :: _ => T c | [] => ret (mk_type TY_UNKNOWN) end)
                 (fun t => match n_children f with c :: _ => RT c t | [] => t = mk_type TY_UNKNOWN end)).
  { pose proof (fits_children _ _ Hf) as Hc. destruct Hc as [|c cs Hc _]; [apply purely_ret|by apply HT]. }
  eapply purely_conseq; [eapply purely_bind; [exact Ht|intros t _; exact (purely_map _ _ _ IH)]|].
  intros l. cbn beta. split.
  - intros (t & Htt & l' & Hl & ->). by constructor.
  - inversion 1 as [|? [nm t] ? l' [Hnm Htt] Hl]; subst. cbn in Hnm, Htt. subst nm. eauto.
Qed.

Lemma decl_fields_fits decl : fit decl -> Forall (fun n => fit n) (decl_fields decl).
Proof.
  intros H. unfold decl_fields. apply Forall_take, Forall_concat, Forall_fmap.
  apply Forall_drop. eapply Forall_impl; [by apply fits_children|]. intros c Hc. cbn.
  case_match; auto. apply Forall_forall. intros f [_ Hf]%list_elem_of_filter.
  pose proof (fits_children _ _ Hc) as Hcc. rewrite Forall_forall in Hcc. auto.
Qed.

Lemma purely_head (T : Node -> TM Ty) RT cs :
  (forall n, fit n -> purely (T n) (RT n)) -> Forall (fun n => fit n) cs ->
  purely (resolve_first T cs) (option_Forall2 RT (cs !! 0%nat)).
Proof.
  intros HT H. unfold resolve_first. destruct H as [|c cs Hc _].
  - eapply purely_conseq; [apply purely_ret|]. intros o. rewrite lookup_nil.
    split; [intros ->; constructor|by inversion 1].
  - eapply purely_conseq; [exact (purely_map _ _ _ (HT c Hc))|]. intros o.
    change ((c :: cs) !! 0%nat) with (Some c). cbn beta.
    split; [intros (t & ? & ->); by constructor|inversion 1; subst; eauto].
Qed.

Lemma purely_return_spec (T : Node -> TM Ty) RT spec :
  (forall n, fit n -> purely (T n) (RT n)) -> fit spec ->
  purely (resolve_return_spec T spec) (result_resolves RT spec).
Proof.
  intros HT H. apply fits_children in H. unfold resolve_return_spec, result_resolves.
  destruct H as [|s cs Hs H]; [apply purely_ret|]. destruct H as [|e cs He _]; [by apply HT|].
  eapply purely_conseq; [eapply purely_bind; [exact (HT s Hs)|intros ok _;
                         exact (purely_map _ _ _ (HT e He))]|].
  intros t. cbn beta. split; intros (? & ? & ? & ? & ->); eauto 6.
Qed.

Lemma purely_resolve_name (T : Node -> TM Ty) RT x :
  (forall n, fit n -> purely (T n) (RT n)) ->
  purely (resolve_name src scope env T x) (name_resolves src scope env RT x).
Proof.
  intros HT. unfold resolve_name, name_resolves, type_decl.
  destruct (find_scalar scalar_names x) as [t|]; [apply purely_ret|].
  destruct (bytes_eqb x (bytes_of "none")).
  { case_match; apply purely_ret. }
  destruct (tc_lookup scope x) as [[nm dk [[id decl]|]]|] eqn:El; cbn [td_def]; try apply purely_ret.
  destruct (has_kind NODE_TYPE_DECL decl); [|apply purely_ret].
  pose proof (tc_lookup_fits _ _ _ _ El eq_refl) as Hd. unfold resolve_decl.
  pose proof (purely_fields T RT _ HT (decl_fields_fits _ Hd)) as Hf.
  eapply purely_then with (a := option_map (lexeme src 128) (head (n_children decl))).
  { apply fits_children in Hd. destruct Hd as [|nn cs Hn _]; [apply purely_ret|].
    eapply purely_then; [by apply purely_name|apply purely_ret]. }
  eapply purely_map in Hf. exact Hf.
Qed.

Lemma purely_resolve h n :
  fit n -> purely (resolve_type src scope env h n) (resolves src scope env h n).
Proof.
  revert n. induction h as [|h IH]; intros n Hn; [by split|]. cbn [resolve_type resolves].
  pose proof (fits_children _ _ Hn) as Hc. unfold resolve_step, resolve_rule.
  eapply purely_then; [by apply purely_name|].
  pose proof (purely_head _ _ _ IH Hc) as H0.
  pose proof (purely_head _ _ _ IH (Forall_drop _ 1 _ Hc)) as H1. rewrite lookup_drop in H1.
  destruct (n_kind n); try by apply purely_resolve_name.
  - exact (purely_map _ _ _ H0).
  - exact (purely_map _ _ _ H0).
  - eapply purely_conseq; [eapply purely_bind; [exact H0|intros k _; exact (purely_map _ _ _ H1)]|].
    intros t. cbn beta. split; intros (? & ? & ? & ? & ->); eauto 6.
Qed.

(** ** Modules *)

Lemma purely_join size : forall segs buf,
  Forall (fun n => fit n) segs ->
  purely (join_path src size buf segs) (fun o => o = join_names src size buf segs).
Proof.
  induction segs as [|seg segs IH]; intros buf H; cbn [join_path join_names].
  { apply purely_ret. }
  apply Forall_cons in H as [Hs H]. eapply purely_then; [by apply purely_name|].
  destruct (0 <? zlen buf) eqn:E; cbn [app];
    (replace (zlen [chr "."]) with 1 by done || replace (zlen (@nil Z)) with 0 by done);
    (destruct (size <=? _); [apply purely_ret|by apply IH]).
Qed.

Lemma purely_module alias :
  purely (import_module_path src root alias) (fun o => o = module_of src root alias).
Proof.
  unfold import_module_path, module_of.
  set (g := fun (_ : nat) imp => _ : TM (option (option (list Z)))).
  assert (Hg : forall i imp, fit imp ->
    purely (g i imp) (fun r => r = if imports_as src alias imp then Some (import_path src imp) else None)).
  { intros i imp H. apply fits_children in H. unfold g, imports_as, import_path.
    destruct (n_kind imp); try apply purely_ret.
    destruct H as [|an cs Han H]; [apply purely_ret|]. destruct H as [|pn cs Hpn _]; [apply purely_ret|].
    destruct (has_kind NODE_MODULE_PATH pn); [|apply purely_ret]. cbn [andb].
    eapply purely_then; [by apply purely_name|]. destruct (bytes_eqb _ alias); [|apply purely_ret].
    eapply purely_then; [apply purely_join, (fits_children _ _ Hpn)|apply purely_ret]. }
  assert (H : forall cs i, Forall (fun n => fit n) cs ->
    purely (first_child g i cs)
      (fun r => r = option_map (import_path src) (find (imports_as src alias) cs))).
  { induction cs as [|c cs IH]; intros i H; cbn [first_child find]; [apply purely_ret|].
    apply Forall_cons in H as [Hc H]. eapply purely_then; [by apply Hg|].
    destruct (imports_as src alias c); [apply purely_ret|by apply IH]. }
  eapply purely_then; [apply H, (fits_children _ _ Hroot)|].
  destruct (find _ _) as [imp|]; apply purely_ret.
Qed.

Lemma member_call_fits call a m :
  fit call -> member_call call = Some (a, m) -> fit a /\ fit m.
Proof.
  intros H. unfold member_call. apply fits_children in H. destruct H as [|callee cs Hc _]; [done|].
  apply fits_children in Hc. destruct (n_kind callee); try done.
  destruct Hc as [|x xs Hx Hc]; [done|]. destruct Hc as [|y ys Hy _]; [done|].
  case_match; [|done]. by intros [= <- <-].
Qed.

Lemma purely_std_sig call :
  fit call -> purely (std_sig_for src root call) (fun o => o = std_sig src root call).
Proof.
  intros H. unfold std_sig_for, std_sig. destruct (member_call call) as [[a m]|] eqn:E; [|apply purely_ret].
  destruct (member_call_fits _ _ _ H E) as [Ha Hm].
  eapply purely_then; [by apply purely_name|]. eapply purely_then; [by apply purely_name|].
  eapply purely_then; [apply purely_module|]. cbn [mbind option_bind].
  destruct (module_of _ _ _); apply purely_ret.
Qed.

(** ** Bindings *)

Lemma purely_named x n : fit n -> purely (named src x n) (fun b => b = binds src x n).
Proof.
  intros H. unfold named, binds. apply fits_children in H. destruct H as [|c cs Hc _]; [apply purely_ret|].
  apply fits_span in Hc. unfold span_in in Hc. zb. unfold TypeSpec.text.
  destruct (n_tok_len c =? zlen x) eqn:E; zb.
  - unfold same_text. rewrite <- E. eapply purely_then; [apply purely_range; lia|apply purely_ret].
  - eapply purely_conseq; [apply purely_ret|]. intros b.
    assert (Hne : bytes_eqb (slice src (n_tok_start c) (n_tok_len c)) x = false); [|by rewrite Hne].
    apply not_true_iff_false. rewrite bytes_eqb_eq. intros <-. rewrite zlen_slice in E by lia. done.
Qed.

Lemma purely_find_node x : forall n id,
  fit n -> purely (find_binding_node src x id n) (fun o => o = first_binding src x id n).
Proof.
  induction n as [n IH] using node_ind'. intros id Hn.
  assert (Hcs : forall cs i, Forall (fun c => fit c) cs ->
            Forall (fun c => forall id, fit c -> purely (find_binding_node src x id c) (fun o => o = first_binding src x id c)) cs ->
            purely (first_child (fun i c => find_binding_node src x (child_id id i) c) i cs)
              (fun o => o = (fix go (i : nat) (l : list Node) : option NRef :=
                 match l with
                 | [] => None
                 | c :: l => match first_binding src x (child_id id i) c with Some r => Some r | None => go (S i) l end
                 end) i cs)).
  { induction cs as [|c cs IHc]; intros i Hf Hi; cbn [first_child]; [apply purely_ret|].
    apply Forall_cons in Hf as [Hc Hf]. apply Forall_cons in Hi as [Hic Hi].
    eapply purely_then; [by apply Hic|]. cbn. case_match; [apply purely_ret|by apply IHc]. }
  pose proof (purely_named x n Hn) as Hnm. specialize (Hcs (n_children n) 0%nat (fits_children _ _ Hn) IH).
  clear IH. destruct n as [k st ln col ts tl op cap cs]. cbn [find_binding_node first_binding].
  change (is_bind (mkNode k st ln col ts tl op cap cs) || has_kind NODE_LOOP_INIT (mkNode k st ln col ts tl op cap cs))
    with (is_binding (mkNode k st ln col ts tl op cap cs)).
  destruct (is_binding _) eqn:Eb; cbn [andb].
  - eapply purely_then; [exact Hnm|]. case_match; [apply purely_ret|exact Hcs].
  - eapply purely_then; [apply purely_ret|exact Hcs].
Qed.

(** The nodes that bind a name. *)
Definition bindings (x : list Z) (n : Node) : list Node :=
  List.filter (fun b => is_binding b && binds src x b) (subnodes n).

Definition kind_agrees (r : option NodeKind) (l : list Node) : Prop :=
  match r with
  | None => l = []
  | Some NODE_BIND_STMT => l <> [] /\ Forall (fun b => n_kind b = NODE_BIND_STMT) l
  | Some (NODE_MUT_BIND_STMT | NODE_LOOP_INIT) => Exists (fun b => n_kind b <> NODE_BIND_STMT) l
  | Some _ => False
  end.

Lemma better_agrees best r l1 l2 :
  kind_agrees best l1 -> kind_agrees r l2 -> kind_agrees (better_bind best r) (l1 ++ l2).
Proof.
  intros H1 H2. destruct r as [r|]; [|cbn in H2; subst; by rewrite app_nil_r].
  destruct best as [b|]; cbn in H1; [|subst; by destruct r].
  destruct b, r; cbn in *; try done; rewrite ?Exists_app, ?Forall_app; try tauto.
  destruct H1 as [Hn H1], H2 as [_ H2]. split; [|done]. by intros [? _]%app_eq_nil.
Qed.

(** The kind a node itself binds the name with, and the one that wins. *)
Definition own_kind (x : list Z) (n : Node) : option NodeKind :=
  if is_binding n && binds src x n then Some (n_kind n) else None.
Fixpoint binding_kind (x : list Z) (n : Node) : option NodeKind :=
  fold_left (fun best c => better_bind best (binding_kind x c)) (n_children n) (own_kind x n).

Lemma purely_find_kind x : forall n,
  fit n -> purely (find_binding_kind src x n) (fun r => r = binding_kind x n).
Proof.
  induction n as [n IH] using node_ind'. intros Hn.
  assert (Hcs : forall cs i best,
     Forall (fun c => fit c) cs ->
     Forall (fun c => fit c -> purely (find_binding_kind src x c) (fun r => r = binding_kind x c)) cs ->
     purely (fold_children (fun _ c best => do r <- find_binding_kind src x c; ret (better_bind best r)) i cs best)
       (fun r => r = fold_left (fun best c => better_bind best (binding_kind x c)) cs best)).
  { induction cs as [|c cs IHc]; intros i best Hf Hi; cbn [fold_children fold_left]; [apply purely_ret|].
    apply Forall_cons in Hf as [Hc Hf]. apply Forall_cons in Hi as [Hic Hi].
    eapply purely_then; [|by apply IHc]. eapply purely_then; [by apply Hic|apply purely_ret]. }
  pose proof (purely_named x n Hn) as Hnm.
  specialize (Hcs (n_children n) 0%nat (own_kind x n) (fits_children _ _ Hn) IH). clear IH.
  assert (Hk : is_bind n = true -> n_kind n = NODE_BIND_STMT \/ n_kind n = NODE_MUT_BIND_STMT).
  { unfold is_bind, has_kind. intros H. by apply orb_prop in H as [?%bool_decide_eq_true|?%bool_decide_eq_true]; auto. }
  unfold own_kind, is_binding in Hcs. destruct n as [k st ln col ts tl op cap cs].
  cbn [find_binding_kind binding_kind]. unfold own_kind, is_binding.
  destruct (is_bind _) eqn:Eb; cbn [orb] in *.
  - eapply purely_then; [exact Hnm|]. destruct (Hk eq_refl) as [Ek|Ek]; cbn in Ek; subst k; cbn in *;
      destruct (binds _ _ _); cbn in *; (eapply purely_then; [apply purely_ret|exact Hcs]).
  - eapply purely_then; [apply purely_ret|]. cbn [n_kind] in *. rewrite bool_decide_false by done. cbn [negb andb].
    destruct (has_kind NODE_LOOP_INIT _) eqn:El; cbn [andb] in *.
    + eapply purely_then; [exact Hnm|]. unfold has_kind in El. apply bool_decide_eq_true in El. cbn in El. subst k.
      exact Hcs.
    + eapply purely_then; [apply purely_ret|exact Hcs].
Qed.

Lemma binding_kind_agrees x : forall n, kind_agrees (binding_kind x n) (bindings x n).
Proof.
  induction n as [n IH] using node_ind'.
  assert (Hcs : forall cs best l, kind_agrees best l ->
            Forall (fun c => kind_agrees (binding_kind x c) (bindings x c)) cs ->
            kind_agrees (fold_left (fun best c => better_bind best (binding_kind x c)) cs best)
              (l ++ concat (map (bindings x) cs))).
  { induction cs as [|c cs IHc]; intros best l Hb H; cbn [fold_left map concat]; [by rewrite app_nil_r|].
    apply Forall_cons in H as [Hc H]. rewrite app_assoc. apply IHc; [by apply better_agrees|done]. }
  assert (Hown : kind_agrees (own_kind x n) (if is_binding n && binds src x n then [n] else [])).
  { unfold own_kind, is_binding, is_bind, has_kind. destruct (n_kind n) eqn:E; cbn; try done;
      destruct (binds src x n); cbn; try done; [split; [done|by constructor]|..];
      constructor; by rewrite E. }
  specialize (Hcs (n_children n) _ _ Hown IH).
  assert (Hb : bindings x n = (if is_binding n && binds src x n then [n] else []) ++ concat (map (bindings x) (n_children n))).
  { unfold bindings at 1. destruct n as [k st ln col ts tl op cap cs]. cbn [subnodes List.filter n_children].
    assert (Hm : forall cs, List.filter (fun b => is_binding b && binds src x b) (concat (map subnodes cs))
                 = concat (map (bindings x) cs)).
    { induction cs0 as [|c cs0 IHc]; [done|]. cbn [map concat]. rewrite List.filter_app. by rewrite IHc. }
    rewrite Hm. by case_match. }
  rewrite Hb. destruct n. exact Hcs.
Qed.

(** A name of the function is immutable as the checker sees it. *)
Lemma binding_kind_immutable x n :
  binding_kind x n = Some NODE_BIND_STMT <->
  (exists b, b ∈ subnodes n /\ n_kind b = NODE_BIND_STMT /\ binds src x b = true)
  /\ forall b, b ∈ subnodes n -> is_binding b = true -> binds src x b = true -> n_kind b = NODE_BIND_STMT.
Proof.
  pose proof (binding_kind_agrees x n) as H.
  assert (Hin : forall b, b ∈ bindings x n <-> b ∈ subnodes n /\ is_binding b = true /\ binds src x b = true).
  { intros b. unfold bindings. rewrite !list_elem_of_In, filter_In, andb_true_iff. done. }
  split.
  - intros E. rewrite E in H. destruct H as [Hne Hall]. rewrite Forall_forall in Hall. split.
    + destruct (bindings x n) as [|b l] eqn:El; [done|].
      assert (Hb : b ∈ b :: l) by by left. exists b. destruct (proj1 (Hin b) Hb) as (? & ? & ?).
      split_and!; [done|by apply Hall|done].
    + intros b Hs Hb Hx. apply Hall. by apply Hin.
  - intros [(b & Hs & Hk & Hx) Hall].
    assert (Hb : b ∈ bindings x n).
    { apply Hin. split_and!; [done| |done]. unfold is_binding, is_bind, has_kind. by rewrite Hk. }
    destruct (binding_kind x n) as [k|] eqn:E; cbn in H; [|rewrite H in Hb; by apply elem_of_nil in Hb].
    assert (Hno : ~ Exists (fun b => n_kind b <> NODE_BIND_STMT) (bindings x n)).
    { intros (b' & Hb' & Hne)%Exists_exists. apply Hne. apply Hin in Hb' as (? & ? & ?). by apply Hall. }
    by destruct k.
Qed.

End Lookup.

(** * Binary operators

    The decisions of [infer_binary] against the table of [TypeSpec]: for each class
    of operators the rules that apply to it, and that each way through the code
    ends in their type, or in an error where there is none. *)

(** ** Kinds *)

Lemma kind_of_apart ks1 ks2 t :
  kind_of ks1 t = true -> forallb (fun k => negb (bool_decide (k ∈ ks2))) ks1 = true -> kind_of ks2 t = false.
Proof.
  unfold kind_of. intros H%bool_decide_eq_true Hf. rewrite forallb_forall in Hf.
  apply list_elem_of_In in H. specialize (Hf _ H). by apply negb_true_iff in Hf.
Qed.

Lemma kind_of_within ks1 ks2 t :
  kind_of ks1 t = true -> forallb (fun k => bool_decide (k ∈ ks2)) ks1 = true -> kind_of ks2 t = true.
Proof.
  unfold kind_of. intros H%bool_decide_eq_true Hf. rewrite forallb_forall in Hf.
  apply list_elem_of_In in H. by specialize (Hf _ H).
Qed.

Lemma is_kind_of k t : is_kind k t = kind_of [k] t.
Proof. unfold is_kind, kind_of. apply bool_decide_ext. by rewrite list_elem_of_singleton. Qed.

Lemma integer_numeric t : is_integer t = true -> is_numeric t = true.
Proof. intros H. by apply (kind_of_within _ _ _ H). Qed.

Lemma array_not_numeric t : is_kind TY_ARRAY t = true -> is_numeric t = false /\ is_integer t = false.
Proof. rewrite is_kind_of. intros H. split; by apply (kind_of_apart _ _ _ H). Qed.

Lemma str_not_numeric t :
  is_kind TY_STR t = true -> is_numeric t = false /\ is_integer t = false /\ is_kind TY_ARRAY t = false.
Proof. rewrite !is_kind_of. intros H. split_and!; by apply (kind_of_apart _ _ _ H). Qed.

Lemma consistent_array a b : consistent a b -> is_kind TY_ARRAY a = is_kind TY_ARRAY b.
Proof.
  assert (Ho : forall t, opaque_handle_type t = true -> is_kind TY_ARRAY t = false).
  { intros t H. unfold opaque_handle_type in H. apply andb_prop in H as [[H _]%andb_prop _].
    rewrite is_kind_of. rewrite is_kind_of in H. by apply (kind_of_apart _ _ _ H). }
  assert (Hs : forall t, scalar_int_type t = true -> is_kind TY_ARRAY t = false).
  { intros t H. rewrite is_kind_of. by apply (kind_of_apart _ _ _ H). }
  intros H. inversion H; subst; try (apply bool_decide_ext; split; congruence).
  - by rewrite (Ho a), (Hs b).
  - by rewrite (Hs a), (Ho b).
Qed.

(** ** The rules of a class of operators *)

(** An operator is in no two classes. *)
Ltac apart := match goal with
  | H1 : ?x ∈ _, H2 : ?x ∈ _ |- _ =>
      exfalso; repeat (apply elem_of_cons in H1 as [->|H1]); try (by apply elem_of_nil in H1);
      by apply (proj2 (bool_decide_eq_true _)) in H2
  | H1 : ?x ∈ _, H2 : ?x ∉ _ |- _ => by destruct (H2 H1)
  | H2 : ?c ∈ _ |- _ => exfalso; by apply (proj2 (bool_decide_eq_true _)) in H2
  | H2 : ?c ∉ _ |- _ => destruct H2; by apply (proj1 (bool_decide_eq_true _))
  end.

Lemma arith_not_cmp op : op ∈ ARITH -> op ∉ CMP.
Proof. intros H1 H2. apart. Qed.

Section Classes.
Context (ll rl : bool) (l r : Ty).

Lemma binop_logic op t :
  op ∈ LOGIC -> binop ll rl l r op t <-> is_kind TY_BOOL l = true /\ is_kind TY_BOOL r = true /\ t = mk_type TY_BOOL.
Proof.
  intros Ho. split; [inversion 1; subst; try done; apart|intros (? & ? & ->); by constructor].
Qed.

Lemma binop_bits op t :
  op ∈ BITWISE -> binop ll rl l r op t <->
  is_integer l = true /\ is_integer r = true /\ consistent l r /\ t = l.
Proof.
  intros Ho. split; [inversion 1; subst; try done; apart|intros (? & ? & ? & ->); by constructor].
Qed.

Lemma binop_mod t :
  binop ll rl l r TK_PERCENT t <->
  (is_integer l = true /\ is_integer r = true \/ floats l r = true) /\ consistent l r /\ t = l
  \/ is_integer l = true /\ is_integer r = true /\ ~ consistent l r /\ xorb ll rl = true /\ t = (if ll then r else l).
Proof.
  split.
  - inversion 1; subst; try apart; try done; [by left|by right].
  - intros [(? & ? & ->)|(? & ? & ? & ? & ->)]; by constructor.
Qed.

Lemma binop_arith op t :
  op ∈ ARITH -> binop ll rl l r op t <->
  is_numeric l = true /\ consistent l r /\ t = l
  \/ is_integer l = true /\ is_integer r = true /\ ~ consistent l r /\ int_join ll rl l r = Some t
  \/ op = TK_PLUS /\ is_kind TY_ARRAY l = true /\ is_kind TY_ARRAY r = true /\ consistent l r
     /\ t = match ty_elem l with Some e => if unknown e then r else l | None => r end.
Proof.
  intros Ho. split.
  - inversion 1; subst; try apart; try tauto.
  - intros [(? & ? & ->)|[(? & ? & ? & ?)|(-> & ? & ? & ? & Ht)]];
      [by apply bo_arith|by apply bo_arith_int|by apply bo_concat].
Qed.

Lemma binop_cmp op t :
  op ∈ CMP -> binop ll rl l r op t <->
  t = mk_type TY_BOOL /\ (consistent l r \/ is_integer l = true /\ is_integer r = true /\ ~ consistent l r
                          /\ exists t', int_join ll rl l r = Some t').
Proof.
  intros Ho. split.
  - inversion 1; subst; try apart; try done; (split; [done|]); [by left|right; eauto].
  - intros [-> [?|(? & ? & ? & t' & ?)]]; [by apply bo_cmp|by eapply bo_cmp_int].
Qed.

Lemma binop_other op t :
  op ∉ LOGIC -> op ∉ BITWISE -> op <> TK_PERCENT -> op ∉ ARITH -> op ∉ CMP ->
  binop ll rl l r op t <-> t = l.
Proof.
  intros. split; [inversion 1; subst; try done; apart|intros ->; by constructor].
Qed.
End Classes.

(** ** The commands *)

Section Commands.
Context (src : list Z) (start : Diags) (n : Node) (l r : Ty).
Abbreviation gives m P := (denotes src start m (fun _ r t r' => P t /\ r' = r)).
Abbreviation ll := (is_lit n 0).
Abbreviation rl := (is_lit n 1).

Lemma mismatch_none k P : (forall t, ~ P t) -> gives (mismatch n k) P.
Proof. apply answers_error. Qed.

Lemma logic_gives op : op ∈ LOGIC -> gives (infer_logic n l r) (binop ll rl l r op).
Proof.
  intros Ho. unfold infer_logic. destruct (is_kind TY_BOOL l) eqn:El; cbn [negb orb].
  - destruct (is_kind TY_BOOL r) eqn:Er; cbn [negb].
    + apply answers_ret. intros t. rewrite binop_logic by done. tauto.
    + apply mismatch_none. intros t. rewrite binop_logic by done. intros (_ & ? & _). congruence.
  - apply mismatch_none. intros t. rewrite binop_logic by done. intros (? & _). congruence.
Qed.

Lemma equal_decides : types_equal l r = true /\ consistent l r \/ types_equal l r = false /\ ~ consistent l r.
Proof. rewrite <- types_equal_spec. destruct (types_equal l r); auto. Qed.

Lemma bits_gives op : op ∈ BITWISE -> gives (infer_bitwise n l r) (binop ll rl l r op).
Proof.
  intros Ho. unfold infer_bitwise.
  destruct (is_integer l) eqn:El; cbn [negb orb];
    [|apply mismatch_none; intros t; rewrite binop_bits by done; intros (? & _); congruence].
  destruct (is_integer r) eqn:Er; cbn [negb orb];
    [|apply mismatch_none; intros t; rewrite binop_bits by done; intros (_ & ? & _); congruence].
  destruct equal_decides as [[-> Hc]|[-> Hc]]; cbn [negb].
  - apply answers_ret. intros t. rewrite binop_bits by done. tauto.
  - apply mismatch_none. intros t. rewrite binop_bits by done. tauto.
Qed.

Lemma mod_gives : gives (infer_modulo n l r) (binop ll rl l r TK_PERCENT).
Proof.
  unfold infer_modulo. destruct (is_integer l && is_integer r) eqn:Ei.
  - apply andb_prop in Ei as [El Er]. destruct equal_decides as [[-> Hc]|[-> Hc]]; cbn [negb andb].
    + apply answers_ret. intros t. rewrite binop_mod. tauto.
    + destruct (xorb ll rl) eqn:Ex.
      * apply answers_ret. intros t. rewrite binop_mod. tauto.
      * apply mismatch_none. intros t. rewrite binop_mod. intros [(_ & ? & _)|(_ & _ & _ & ? & _)]; [tauto|congruence].
  - assert (Hn : ~ (is_integer l = true /\ is_integer r = true)).
    { intros [El Er]. by rewrite El, Er in Ei. }
    replace (is_numeric l && negb (is_integer l) && (is_numeric r && negb (is_integer r)) && types_equal l r)
      with (floats l r && types_equal l r) by (unfold floats; by rewrite !andb_assoc).
    destruct (floats l r) eqn:Ef; cbn [andb].
    + destruct equal_decides as [[-> Hc]|[-> Hc]].
      * apply answers_ret. intros t. rewrite binop_mod. tauto.
      * apply mismatch_none. intros t. rewrite binop_mod. tauto.
    + apply mismatch_none. intros t. rewrite binop_mod. intros [([?|?] & _)|?]; [tauto|congruence|tauto].
Qed.

Lemma arith_gives op :
  op ∈ ARITH -> n_op n = op -> gives (infer_arith_cmp n true false l r) (binop ll rl l r op).
Proof.
  intros Ho En. unfold infer_arith_cmp. rewrite En. unfold tk_eqb. cbn [andb orb]. rewrite orb_false_r.
  pose proof (array_not_numeric l) as Ha. pose proof (integer_numeric l) as Hi.
  destruct (bool_decide _ && is_kind TY_STR l && is_kind TY_STR r) eqn:Es.
  { apply andb_prop in Es as [[_ Es]%andb_prop _]. apply str_not_numeric in Es as (E1 & E2 & E3).
    apply mismatch_none. intros t. rewrite binop_arith, E1, E2, E3 by done. intuition congruence. }
  destruct equal_decides as [[-> Hc]|[-> Hc]]; cbn [negb]; rewrite ?andb_false_r, ?andb_true_r, ?orb_false_r, ?orb_true_r; cbn [andb].
  - case_bool_decide as Ep; cbn [andb].
    + destruct (is_kind TY_ARRAY l) eqn:El; cbn [andb].
      * destruct (Ha eq_refl) as [E1 E2]. rewrite <- (consistent_array _ _ Hc), El.
        apply answers_ret. intros t. rewrite binop_arith, E1, E2 by done.
        rewrite <- (consistent_array _ _ Hc). intuition congruence.
      * destruct (is_numeric l) eqn:En'; cbn [negb].
        -- apply answers_ret. intros t. rewrite binop_arith, El, En' by done. intuition congruence.
        -- apply mismatch_none. intros t. rewrite binop_arith, El, En' by done. intuition congruence.
    + destruct (is_numeric l) eqn:En'; cbn [negb].
      * apply answers_ret. intros t. rewrite binop_arith, En' by done. intuition congruence.
      * apply mismatch_none. intros t. rewrite binop_arith, En' by done. intuition congruence.
  - destruct (is_integer l && is_integer r) eqn:Ei; cbn [andb].
    + apply andb_prop in Ei as [El Er].
      assert (Hj : forall t, binop ll rl l r op t <-> int_join ll rl l r = Some t).
      { intros t. rewrite binop_arith by done. intuition congruence. }
      destruct (is_kind TY_ARRAY l) eqn:Ea; [destruct (Ha eq_refl); congruence|].
      rewrite andb_false_r. cbn [andb]. unfold int_join in Hj.
      destruct (xorb ll rl); [apply answers_ret; intros t; rewrite Hj; intuition congruence|].
      destruct (int_widens_to l r); cbn [orb]; [apply answers_ret; intros t; rewrite Hj; intuition congruence|].
      destruct (int_widens_to r l); [apply answers_ret; intros t; rewrite Hj; intuition congruence|].
      apply mismatch_none. intros t. by rewrite Hj.
    + assert (Hno : forall t, ~ binop ll rl l r op t).
      { intros t. rewrite binop_arith by done. apply andb_false_iff in Ei. intuition congruence. }
      destruct (_ && is_kind TY_ARRAY r); by apply mismatch_none.
Qed.

Lemma cmp_gives op :
  op ∈ CMP -> n_op n = op -> gives (infer_arith_cmp n false true l r) (binop ll rl l r op).
Proof.
  intros Ho En. unfold infer_arith_cmp. rewrite En. unfold tk_eqb.
  rewrite (bool_decide_false (op = TK_PLUS)) by (intros ->; apart). cbn [andb orb].
  assert (Hb : forall t, binop ll rl l r op t <-> _) by (intros t; exact (binop_cmp ll rl l r op t Ho)).
  destruct equal_decides as [[-> Hc]|[-> Hc]]; cbn [negb]; rewrite ?andb_false_r, ?andb_true_r; cbn [andb].
  - apply answers_ret. intros t. rewrite Hb. tauto.
  - destruct (is_integer l && is_integer r) eqn:Ei; cbn [andb].
    + apply andb_prop in Ei as [El Er]. rewrite El, Er in Hb. unfold int_join in Hb.
      destruct (xorb ll rl) eqn:Ex; [|destruct (int_widens_to l r) eqn:Ew; cbn [orb];
        [|destruct (int_widens_to r l) eqn:Ew']].
      1-3: apply answers_ret; intros t; rewrite Hb; split; [tauto|intros ->; split; [done|right; eauto 6]].
      apply mismatch_none. intros t. rewrite Hb. intros [_ [?|(_ & _ & _ & t' & ?)]]; [tauto|done].
    + apply mismatch_none. intros t. rewrite Hb. apply andb_false_iff in Ei. intuition congruence.
Qed.

Lemma known_gives :
  gives (if tk_eqb (n_op n) TK_PLUS && xorb (is_kind TY_ARRAY l) (is_kind TY_ARRAY r) then mismatch n TY_UNKNOWN
         else if op_in n LOGIC then infer_logic n l r
         else if op_in n BITWISE then infer_bitwise n l r
         else if op_in n [TK_PERCENT] then infer_modulo n l r
         else if op_in n ARITH || op_in n CMP then infer_arith_cmp n (op_in n ARITH) (op_in n CMP) l r
         else ret l)
    (binop ll rl l r (n_op n)).
Proof.
  destruct (_ && xorb _ _) eqn:Ex.
  { apply andb_prop in Ex as [Ep%bool_decide_eq_true Ex]. rewrite Ep.
    apply mismatch_none. intros t. rewrite binop_arith by (apply (bool_decide_eq_true _); done).
    assert (Hc : ~ consistent l r). { intros Hc%consistent_array. rewrite Hc, xorb_nilpotent in Ex. done. }
    assert (Hi : ~ (is_integer l = true /\ is_integer r = true)).
    { intros [Hl Hr]. destruct (is_kind TY_ARRAY l) eqn:E1; [apply array_not_numeric in E1; intuition congruence|].
      destruct (is_kind TY_ARRAY r) eqn:E2; [apply array_not_numeric in E2; intuition congruence|done]. }
    tauto. }
  unfold op_in. case_bool_decide as E1; [by apply logic_gives|].
  case_bool_decide as E2; [by apply bits_gives|].
  case_bool_decide as E3; [apply list_elem_of_singleton in E3; rewrite E3; apply mod_gives|].
  case_bool_decide as E4; cbn [orb].
  { rewrite bool_decide_false by by apply arith_not_cmp. by apply arith_gives. }
  case_bool_decide as E5; [by apply cmp_gives|].
  rewrite list_elem_of_singleton in E3. apply answers_ret. intros t. by apply binop_other.
Qed.

Lemma binary_gives : gives (infer_operands n l r) (binary (n_op n) ll rl l r).
Proof.
  unfold infer_operands, binary.
  destruct (tk_eqb (n_op n) TK_PLUS) eqn:Ep; cbn [andb].
  2:{ apply bool_decide_eq_false in Ep. destruct (unknown l || unknown r) eqn:Eu.
      - apply answers_ret. intros t. split; [tauto|]. intros ->. split; [done|]. by intros ?.
      - pose proof known_gives as H. unfold tk_eqb in H. rewrite bool_decide_false in H by done. exact H. }
  pose proof known_gives as H. rewrite Ep in H. apply bool_decide_eq_true in Ep.
  assert (Hs : forall t, is_kind TY_STR t && unknown t = false).
  { intros t. unfold unknown, is_kind. by destruct (ty_kind t). }
  pose proof (Hs l) as Hl. pose proof (Hs r) as Hr. destruct (unknown l || unknown r) eqn:Eu.
  - destruct (is_kind TY_STR l && unknown r || unknown l && is_kind TY_STR r) eqn:Es.
    + apply mismatch_none. intros t [_ Hn]. destruct (Hn Ep) as [E1 E2]. by rewrite E1, E2, andb_false_r in Es.
    + apply answers_ret. intros t. split; [tauto|]. intros ->. split; [done|]. intros _.
      destruct (unknown l), (unknown r), (is_kind TY_STR l), (is_kind TY_STR r); done.
  - apply orb_false_iff in Eu as [-> ->]. rewrite andb_false_r. cbn [andb orb]. exact H.
Qed.
End Commands.
