(* ===== verification/TypeRules.v ===== *)
(** * The rules of inference are the typing rules

    Every rule of [Infer] finds no error exactly where the rule of [TypeSpec] holds,
    when the calls it makes do so. *)

From Stdlib Require Import ZArith Lia String Ascii.
From stdpp Require Import base tactics list gmap.
From S2P Require Import Prelude CStr Diag Lexer Ast Parser ModName Resolve Iface Types.
From S2P Require Import Infer TypeSpec TypeFacts TypeLookup.
Open Scope Z_scope.

Section Rules.
Context {rt : Runtime} (src : list Z) (scope : list TDecl) (env : NameEnv) (root : Node).
Context (Hscope : Forall (fun d => forall id def, td_def d = Some (id, def) -> fits src def = true) scope).
Context (Hroot : fits src root = true) (start : Diags).
Abbreviation fit n := (fits src n = true).
Abbreviation dn := (denotes src start).
Abbreviation name := (lexeme src 128).

Context (rs : Node -> TM Ty) (inf : NodeId -> Node -> TM Ty).
Context (RT : Node -> Ty -> Prop) (T : Frame -> gmap NodeId Ty -> NodeId -> Node -> Ty -> gmap NodeId Ty -> Prop).
Context (HRT : forall n, fit n -> purely (rs n) (RT n)).
Context (HT : forall id n, fit n -> dn (inf id n) (fun fr r t r' => T fr r id n t r')).

(** ** Children *)

Lemma denotes_child id n i :
  fit n -> dn (infer_child inf id n i) (fun fr r t r' => child T fr id n i r t r').
Proof.
  intros Hn. unfold infer_child, child. destruct (n_children n !! i) as [c|] eqn:E.
  - apply HT. by eapply fits_child.
  - apply denotes_ret.
Qed.

Lemma denotes_visit id : forall cs i t0,
  Forall (fun c => fit c) cs ->
  dn (fold_children (fun i c _ => inf (child_id id i) c) i cs t0)
     (fun fr r t r' => visit T fr id i cs t0 r t r').
Proof.
  induction cs as [|c cs IH]; intros i t0 H; cbn [fold_children].
  - eapply denotes_conseq; [apply denotes_ret|]. intros fr r t r'.
    split; [intros [-> ->]; constructor|by inversion 1].
  - apply Forall_cons in H as [Hc H].
    eapply denotes_conseq; [apply denotes_bind; [by apply HT|intros t1; by apply IH]|].
    intros fr r t r'. cbn beta. split; [intros (t1 & r1 & ? & ?); by econstructor|inversion 1; eauto].
Qed.

Lemma visit_first fr id i cs t0 t0' r t r' :
  visit T fr id i cs t0 r t r' -> exists t', visit T fr id i cs t0' r t' r'.
Proof. destruct 1; eexists; [constructor|by econstructor]. Qed.

Lemma denotes_all id cs i u :
  Forall (fun c => fit c) cs ->
  dn (fold_children (fun i c _ => do _ <- inf (child_id id i) c; ret tt) i cs u)
     (fun fr r _ r' => visit_all T fr id i cs r r').
Proof.
  revert i u. induction cs as [|c cs IH]; intros i u H; cbn [fold_children].
  - eapply denotes_conseq; [apply denotes_ret|]. intros fr r [] r'. destruct u.
    split; [intros [_ ->]; by eexists; constructor|intros (t & H'); by inversion H'].
  - apply Forall_cons in H as [Hc H].
    eapply denotes_conseq; [apply denotes_bind; [apply denotes_bind; [by apply HT|intros t1; apply denotes_ret]|
                            intros ?; by apply IH]|].
    intros fr r [] r'. cbn beta. split.
    + intros ([] & r1 & (t1 & r2 & H1 & _ & ->) & (t & H2)).
      destruct (visit_first _ _ _ _ _ t1 _ _ _ H2) as (t' & H'). exists t'. by econstructor.
    + intros (t & H'). inversion H' as [|? ? ? ? ? t1 r1 ? ? H1 H2]; subst.
      exists tt, r1. split; [by exists t1, r1|]. by eapply visit_first.
Qed.

Lemma denotes_from id n k :
  fit n -> dn (infer_from inf id n k) (fun fr r _ r' => visit_all T fr id k (drop k (n_children n)) r r').
Proof. intros H. apply denotes_all, Forall_drop, (fits_children _ _ H). Qed.

(** ** Literals *)

Lemma interp_check_end strnode raw j s :
  zlen raw <= j + 1 -> interp_check_step src inf strnode raw j s = Ok (inr tt, s).
Proof. intros H. unfold interp_check_step. by rewrite (proj2 (Z.ltb_ge _ _)) by lia. Qed.

Lemma plain_literal n s :
  fit n -> n_kind n = NODE_STR_LIT -> check_interp_composites src inf n s = Ok (tt, s).
Proof.
  intros Hn Hk. pose proof (fits_str _ _ Hn Hk) as Hp. pose proof (fits_span _ _ Hn) as Hs.
  unfold span_in in Hs. zb. unfold check_interp_composites.
  destruct (_ || _); [done|]. unfold rd_range. rewrite !(proj2 (Z.leb_le _ _)) by done. cbn [andb].
  unfold bind, ret. fold (TypeSpec.text src n). set (raw := TypeSpec.text src n) in *.
  assert (Hz : zlen raw = n_tok_len n) by (unfold raw, TypeSpec.text; by apply zlen_slice).
  rewrite <- Hz. clearbody raw. clear Hz.
  assert (Hi : forall fuel i, 0 <= i -> zlen raw <= i + Z.of_nat fuel -> (0 < fuel)%nat ->
            iter fuel (interp_check_step src inf n raw) i s = Ok (tt, s)).
  { induction fuel as [|fuel IH]; intros i Hi Hf Hpos; [lia|]. cbn [iter]. unfold bind, interp_check_step.
    destruct (i + 1 <? zlen raw) eqn:E; [|done]. zb. rewrite no_interp_at by done. cbn [negb].
    apply IH; lia. }
  apply Hi; lia.
Qed.

Lemma denotes_str n :
  fit n -> n_kind n = NODE_STR_LIT ->
  dn (do! check_interp_composites src inf n; ret (mk_type TY_STR)) (fun _ r t r' => t = mk_type TY_STR /\ r' = r).
Proof.
  intros Hn Hk. eapply denotes_then with (a := tt); [|apply denotes_ret].
  split; [intros s [] s' E|intros s [] _]; rewrite plain_literal in * by done; by simplify_eq.
Qed.

(** A check that passes, and one that fails. *)
Lemma denotes_yes (P : gmap NodeId Ty -> Prop) :
  (forall r, P r) -> dn (ret tt) (fun _ r _ r' => P r /\ r' = r).
Proof.
  intros HP. eapply denotes_conseq; [apply denotes_ret|]. intros ? r [] ?. pose proof (HP r). tauto.
Qed.

Lemma denotes_no (P : Prop) (m : TM unit) : dn m never -> ~ P -> dn m (fun _ r _ r' => P /\ r' = r).
Proof. intros Hm HP. eapply denotes_conseq; [exact Hm|]. intros. unfold never. tauto. Qed.

Lemma init_ok_check st id fi :
  fit fi ->
  dn (check_field_init src st (sum_type env st) id fi) (fun _ r _ r' => init_ok src env st fi /\ r' = r).
Proof.
  intros Hf. unfold check_field_init, init_ok.
  destruct (sum_type env st) eqn:Es; cbn [orb]; [apply denotes_yes; tauto|].
  destruct (is_kind TY_STRUCT st) eqn:Ek; cbn [andb negb].
  2:{ apply denotes_yes. tauto. }
  destruct (n_tok_len fi <=? 0) eqn:El; zb; [apply denotes_yes; tauto|].
  eapply denotes_then; [by apply purely_name|].
  assert (Hex : existsb (fun f => bool_decide (f.1 = Some (name fi))) (ty_fields st) = true <->
                exists t, (Some (name fi), t) ∈ ty_fields st).
  { rewrite existsb_exists. split.
    - intros ([x t] & Hin & E%bool_decide_eq_true). cbn in E. subst. exists t. by apply list_elem_of_In.
    - intros (t & Hin). exists (Some (name fi), t). split; [by apply list_elem_of_In|by apply bool_decide_eq_true]. }
  case_bool_decide as E1; [apply denotes_yes; tauto|].
  destruct (existsb _ _) eqn:E2; cbn [orb]; [apply denotes_yes; tauto|].
  case_bool_decide as E3; [apply denotes_yes; tauto|].
  apply denotes_no; [apply denotes_error_once|].
  intros [H|[H|[H|[H|[H|H]]]]]; try done; [lia|]. apply Hex in H. congruence.
Qed.

Lemma denotes_inits st id cs :
  Forall (fun c => fit c) cs -> forall i u,
  dn (fold_children (fun i fi _ =>
        if has_kind NODE_FIELD_INIT fi then
          do! match n_children fi with
              | v :: _ => do _ <- inf (child_id (child_id id i) 0) v; ret tt
              | [] => ret tt
              end;
          check_field_init src st (sum_type env st) (child_id id i) fi
        else ret tt) i cs u)
     (fun fr r _ r' => inits src env T fr st id i cs r r').
Proof.
  induction 1 as [|c cs Hc H IH]; intros i u; cbn [fold_children].
  { eapply denotes_conseq; [apply denotes_ret|]. intros fr r [] r'. destruct u.
    split; [intros [_ ->]; constructor|by inversion 1]. }
  destruct (has_kind NODE_FIELD_INIT c) eqn:Ek;
    [apply bool_decide_eq_true in Ek|apply bool_decide_eq_false in Ek].
  - eapply denotes_conseq.
    { eapply denotes_bind; [|intros ?; apply IH].
      eapply denotes_bind with (R := fun fr r _ r1 => match n_children c with
        | v :: _ => exists t, T fr r (child_id (child_id id i) 0) v t r1 | [] => r1 = r end).
      - pose proof (fits_children _ _ Hc) as Hcc. destruct Hcc as [|v vs Hv _].
        + eapply denotes_conseq; [apply denotes_ret|]. intros ? ? [] ?. tauto.
        + eapply denotes_conseq; [apply denotes_bind; [by apply HT|intros ?; apply denotes_ret]|].
          intros ? ? [] ?. split; [intros (t & r1 & ? & _ & ->); by exists t|intros (t & ?); by exists t, r'].
      - intros ?. by apply init_ok_check. }
    intros fr r [] r'. cbn beta. split.
    + intros ([] & r1 & ([] & r2 & H1 & H2 & ->) & H3). by eapply inits_field.
    + inversion 1 as [| |? ? ? ? r1 ? ? H1 H2 H3]; subst; [done|]. exists tt, r1. split; [|done]. by exists tt, r1.
  - eapply denotes_then; [apply purely_ret|]. eapply denotes_conseq; [apply IH|].
    intros fr r [] r'. split; [by apply inits_other|by inversion 1].
Qed.

Lemma denotes_struct_lit id n :
  fit n -> dn (infer_struct_lit src env rs inf id n)
    (fun fr r t r' => RT n t /\ inits src env T fr t id 0 (n_children n) r r').
Proof.
  intros Hn. unfold infer_struct_lit. eapply denotes_conseq.
  { eapply denotes_read; [by apply HRT|]. intros st _.
    eapply denotes_bind; [apply denotes_inits, (fits_children _ _ Hn)|intros ?; apply denotes_ret]. }
  intros fr r t r'. cbn beta. split.
  - intros (st & Hst & [] & r1 & Hi & -> & ->). done.
  - intros [Hst Hi]. exists t. split; [done|]. by exists tt, r'.
Qed.

Lemma denotes_array_lit id n :
  fit n -> dn (infer_array_lit inf id n)
    (fun fr r t r' => exists e, child T fr id n 0 r e r' /\ t = mkTy TY_ARRAY None (Some e) []).
Proof.
  intros Hn. eapply denotes_conseq; [apply denotes_bind; [by apply denotes_child|intros ?; apply denotes_ret]|].
  intros fr r t r'. cbn beta. split; [intros (e & r1 & ? & -> & ->); eauto|intros (e & ? & ->); by exists e, r'].
Qed.

Lemma denotes_entries id cs :
  Forall (fun c => fit c) cs -> forall i kv,
  dn (fold_children (fun i entry kv =>
        if has_kind NODE_MAP_ENTRY entry then
          do ek <- infer_child inf (child_id id i) entry 0;
          do ev <- infer_child inf (child_id id i) entry 1;
          match kv with
          | None => ret (Some (ek, ev))
          | Some (kt, vt) =>
              do! when (clash kt ek) (tc_error E4043 entry true);
              do! when (clash vt ev) (tc_error E4043 entry true);
              ret kv
          end
        else ret kv) i cs kv)
     (fun fr r kv' r' => entries T fr id i cs kv r kv' r').
Proof.
  induction 1 as [|c cs Hc H IH]; intros i kv; cbn [fold_children].
  { eapply denotes_conseq; [apply denotes_ret|]. intros fr r kv' r'.
    split; [intros [-> ->]; constructor|by inversion 1]. }
  destruct (has_kind NODE_MAP_ENTRY c) eqn:Ek;
    [apply bool_decide_eq_true in Ek|apply bool_decide_eq_false in Ek].
  2:{ eapply denotes_then; [apply purely_ret|]. eapply denotes_conseq; [apply IH|].
      intros fr r kv' r'. split; [by apply entries_other|by inversion 1]. }
  assert (Hm : forall ek ev, dn (match kv with
                 | None => ret (Some (ek, ev))
                 | Some (kt, vt) =>
                     do! when (clash kt ek) (tc_error E4043 c true);
                     do! when (clash vt ev) (tc_error E4043 c true);
                     ret kv
                 end)
            (fun _ r kv' r' => (match kv with Some (kt, vt) => clash kt ek = false /\ clash vt ev = false | None => True end)
                               /\ kv' = Some (default (ek, ev) kv) /\ r' = r)).
  { intros ek ev. destruct kv as [[kt vt]|].
    - eapply denotes_conseq.
      { eapply denotes_bind; [apply denotes_when_error, denotes_error|intros ?].
        eapply denotes_bind; [apply denotes_when_error, denotes_error|intros ?; apply denotes_ret]. }
      intros fr r kv' r'. cbn beta. split.
      + by intros (? & ? & [? ->] & ? & ? & [? ->] & -> & ->).
      + intros ([? ?] & -> & ->). exists tt, r. split; [done|]. by exists tt, r.
    - eapply denotes_conseq; [apply denotes_ret|]. intros ? ? ? ?. cbn. tauto. }
  eapply denotes_conseq.
  { eapply denotes_bind; [|intros kv'; apply IH].
    eapply denotes_bind; [by apply denotes_child|intros ek].
    eapply denotes_bind; [by apply denotes_child|intros ev; apply Hm]. }
  intros fr r kv' r'. cbn beta. split.
  - intros (? & r3 & (k & r1 & H1 & v & r2 & H2 & H3 & -> & ->) & H4). by eapply entries_entry.
  - inversion 1 as [| |? ? ? ? ? k r1 v r2 ? ? ? H1 H2 H3 H4]; subst; [done|].
    exists (Some (default (k, v) kv)), r2. split; [|done]. exists k, r1. split; [done|]. by exists v, r2.
Qed.

Lemma denotes_map_lit id n :
  fit n -> dn (infer_map_lit inf id n) (fun fr r t r' => map_lit_rule T fr id n r t r').
Proof.
  intros Hn. eapply denotes_conseq.
  { apply denotes_bind with (K := fun kv _ r t r' =>
      t = (let '(k, v) := default (mk_type TY_UNKNOWN, mk_type TY_UNKNOWN) kv in
           mkTy TY_MAP None (Some k) [(None, v)]) /\ r' = r).
    - apply denotes_entries, (fits_children _ _ Hn).
    - intros kv. destruct (default _ kv). apply denotes_ret. }
  intros fr r t r'. cbn beta. unfold map_lit_rule.
  split; [intros (kv & r1 & ? & -> & ->); eauto|intros (kv & ? & ->); by exists kv, r'].
Qed.

(** ** Names *)

Lemma has_kind_spec k n : has_kind k n = true <-> n_kind n = k.
Proof. unfold has_kind. by rewrite bool_decide_eq_true. Qed.

Lemma declared_fits x id def : declared scope x = Some (id, def) -> fit def.
Proof.
  unfold declared. destruct (tc_lookup scope x) as [d|] eqn:E; [|done]. intros Hd.
  by eapply tc_lookup_fits.
Qed.

Lemma callee_fits callee fn : callee_fn src scope callee = Some fn -> fit fn /\ n_kind fn = NODE_FUNC_DECL.
Proof.
  unfold callee_fn. destruct (declared scope (name callee)) as [[id def]|] eqn:E; [|done]. cbn.
  destruct (has_kind NODE_FUNC_DECL def) eqn:Ek; [|done]. intros [= <-].
  split; [by eapply declared_fits|by apply has_kind_spec].
Qed.

Lemma ret_spec_fits fn spec : fit fn -> ret_spec fn = Some spec -> fit spec.
Proof.
  intros Hf H. unfold ret_spec in H. apply find_some in H as [H _]. apply list_elem_of_In in H.
  pose proof (fits_children _ _ Hf) as Hc. rewrite Forall_forall in Hc. auto.
Qed.

Lemma purely_call_type call :
  fit call -> purely (call_decl_ret_type src scope env rs call) (call_type src scope env RT call).
Proof.
  intros Hf. unfold call_decl_ret_type, call_type. destruct (member_call call) as [[a m]|] eqn:E.
  { destruct (member_call_fits _ _ _ _ Hf E). eapply purely_then; [by apply purely_name|].
    eapply purely_then; [by apply purely_name|]. apply purely_ret. }
  pose proof (fits_children _ _ Hf) as Hc. destruct Hc as [|callee cs Hc _]; [apply purely_ret|].
  eapply purely_then; [by apply purely_name|].
  pose proof (callee_fits callee) as Hcal. unfold callee_fn, declared in *.
  destruct (tc_lookup scope (name callee)) as [[nm dk [[id fn]|]]|]; cbn in *; try apply purely_ret.
  destruct (has_kind NODE_FUNC_DECL fn) eqn:Ek; [|apply purely_ret].
  destruct (Hcal fn eq_refl) as [Hfn _]. fold (ret_spec fn).
  destruct (ret_spec fn) as [spec|] eqn:Es; [|apply purely_ret].
  exact (purely_map _ _ _ (purely_return_spec src rs RT spec HRT (ret_spec_fits _ _ Hfn Es))).
Qed.

Lemma denotes_init id bn n0 init cs :
  fit bn -> n_children bn = n0 :: init :: cs ->
  dn (bind_init_type src scope env rs inf id bn) (fun fr r o r' => init_type src scope env RT T fr id init r o r').
Proof.
  intros Hf Ec. unfold bind_init_type, init_type. rewrite Ec.
  assert (Hin : fit init) by (eapply (fits_child _ _ 1); [exact Hf|by rewrite Ec]).
  destruct (n_kind init); try (apply (denotes_pure _ _ _ (fun o => o = None)), purely_ret).
  1: { eapply denotes_conseq; [apply denotes_pure, (purely_map _ _ _ (purely_call_type init Hin))|].
       intros fr r o r'. cbn beta. split; [intros ((c & ? & ->) & ->); eauto|intros (c & ? & -> & ->); eauto]. }
  2: { apply (denotes_get _ _ _ (fun fr0 fr r o r' => if MAX_BIND_INFER_DEPTH <=? fr_depth fr0 then o = None /\ r' = r
         else exists t, T (deeper fr) r (child_id id 1) init t r' /\ o = valued t)).
       intros s _. change (cx_bind_infer_depth s) with (fr_depth (fr_of s)).
       destruct (MAX_BIND_INFER_DEPTH <=? _); [apply denotes_ret|].
       exact (denotes_deeper src start _ valued (fun fr r t r' => T fr r (child_id id 1) init t r') (HT _ _ Hin)). }
  all: eapply denotes_conseq; [apply denotes_bind; [by apply HT|intros ?; apply denotes_ret]|].
  all: intros fr r o r'; cbn beta; split; [intros (t & r1 & ? & -> & ->); eauto|intros (t & ? & ->); by exists t, r'].
Qed.

Lemma denotes_binding id bn :
  fit bn -> dn (binding_type src scope env rs inf id bn)
    (fun fr r o r' => binding_rule src scope env RT T fr id bn r o r').
Proof.
  intros Hf. unfold binding_type, binding_rule. pose proof (fits_children _ _ Hf) as Hc.
  destruct (n_children bn) as [|n0 [|x cs]] eqn:Ec; try (apply (denotes_pure _ _ _ (fun o => o = None)), purely_ret).
  apply Forall_cons in Hc as [_ Hc]. apply Forall_cons in Hc as [Hx _].
  destruct cs as [|y cs].
  - eapply denotes_conseq; [apply denotes_bind; [by eapply denotes_init|intros ?; apply denotes_ret]|].
    intros fr r o r'. cbn beta. split; [intros (i & r1 & ? & -> & ->); eauto|intros (i & ? & ->); by exists i, r'].
  - eapply denotes_conseq; [apply denotes_pure, (purely_map _ _ _ (HRT x Hx))|].
    intros fr r o r'. cbn beta. split; [intros ((t & ? & ->) & ->); eauto|intros (t & ? & -> & ->); eauto].
Qed.

Lemma purely_param_type x cs :
  Forall (fun c => fit c) cs ->
  purely (param_type src rs x cs)
    (fun o => match find (fun p => match n_children p with pn :: _ :: _ => bytes_eqb (name pn) x | _ => false end)
                     (filter (fun c => n_kind c = NODE_PARAM) cs)
                   ≫= fun p => n_children p !! 1%nat with
              | Some ann => exists t, RT ann t /\ o = Some t
              | None => o = None
              end).
Proof.
  induction 1 as [|c cs Hc H IH]; cbn [param_type]; [apply purely_ret|]. rewrite filter_cons.
  case_decide as Ek; [rewrite Ek|by destruct (n_kind c)].
  pose proof (fits_children _ _ Hc) as Hcc. cbn [find].
  destruct (n_children c) as [|pn rest] eqn:Ec; [exact IH|]. apply Forall_cons in Hcc as [Hpn Hr].
  eapply purely_then; [by apply purely_name|]. destruct rest as [|t rest]; [exact IH|].
  destruct (bytes_eqb (name pn) x) eqn:Ex; [|exact IH]. cbn [mbind option_bind]. rewrite Ec.
  apply Forall_cons in Hr as [Ht _]. exact (purely_map _ _ _ (HRT t Ht)).
Qed.

Lemma first_binding_fits x : forall n id bid bn,
  fit n -> first_binding src x id n = Some (bid, bn) -> fit bn.
Proof.
  induction n as [n IH] using node_ind'. intros id bid bn Hn.
  assert (Hgo : forall cs i, Forall (fun c => fit c) cs ->
     Forall (fun c => forall id bid bn, fit c -> first_binding src x id c = Some (bid, bn) -> fit bn) cs ->
     (fix go (i : nat) (l : list Node) : option NRef :=
        match l with
        | [] => None
        | c :: l => match first_binding src x (child_id id i) c with Some r => Some r | None => go (S i) l end
        end) i cs = Some (bid, bn) -> fit bn).
  { induction cs as [|c cs IHc]; intros i Hf Hi; [done|]. apply Forall_cons in Hf as [Hc Hf].
    apply Forall_cons in Hi as [Hic Hi]. destruct (first_binding src x (child_id id i) c) as [[b' n']|] eqn:E.
    - intros [= -> ->]. by eapply Hic.
    - by apply IHc. }
  specialize (Hgo (n_children n) 0%nat (fits_children _ _ Hn) IH).
  destruct n as [k st ln col ts tl op cap cs]. cbn [first_binding].
  destruct (is_binding _ && _); [by intros [= _ <-]|exact Hgo].
Qed.

Lemma denotes_local x :
  dn (local_type src scope env rs inf x) (fun fr r o r' => local_rule src scope env RT T fr x r o r').
Proof.
  apply (denotes_get _ _ _ (fun fr0 fr r o r' =>
    match fr_fn fr0 with
    | None => o = None /\ r' = r
    | Some (fid, fn) =>
        match param_annotation src x fn with
        | Some ann => exists t, RT ann t /\ o = Some t /\ r' = r
        | None =>
            match first_binding src x fid fn with
            | Some (bid, bn) =>
                if is_bind bn then binding_rule src scope env RT T fr bid bn r o r' else o = None /\ r' = r
            | None => o = None /\ r' = r
            end
        end
    end)).
  intros s Hi. cbn [fr_of fr_fn]. destruct (cx_fn_node s) as [[fid fn]|] eqn:Ef; [|apply denotes_ret].
  pose proof (ti_fn _ _ _ Hi _ _ Ef) as Hfn.
  pose proof (purely_param_type x (n_children fn) (fits_children _ _ Hfn)) as Hp.
  fold (params fn) in Hp. fold (param_annotation src x fn) in Hp.
  assert (Hb : dn (do r <- find_binding_node src x fid fn;
                   match r with
                   | Some (bid, bn) => if is_bind bn then binding_type src scope env rs inf bid bn else ret None
                   | None => ret None
                   end)
              (fun fr r o r' => match first_binding src x fid fn with
                 | Some (bid, bn) =>
                     if is_bind bn then binding_rule src scope env RT T fr bid bn r o r' else o = None /\ r' = r
                 | None => o = None /\ r' = r
                 end)).
  { eapply denotes_then; [by apply purely_find_node|].
    destruct (first_binding src x fid fn) as [[bid bn]|] eqn:Eb; [|apply denotes_ret].
    destruct (is_bind bn); [|apply denotes_ret]. apply denotes_binding. by eapply first_binding_fits. }
  destruct (param_annotation src x fn) as [ann|].
  - eapply denotes_conseq.
    { apply denotes_read with (K := fun o _ r b r' => b = o /\ r' = r); [exact Hp|].
      intros o (t & _ & ->). apply denotes_ret. }
    intros fr r o r'. cbn beta. split.
    + intros (o' & (t & ? & ->) & -> & ->). eauto.
    + intros (t & ? & -> & ->). eauto 6.
  - eapply denotes_then; [exact Hp|]. exact Hb.
Qed.

Lemma denotes_def id def :
  fit def -> dn (def_type src scope env rs inf id def) (fun fr r t r' => def_rule src scope env RT T fr id def r t r').
Proof.
  intros Hf. unfold def_type, def_rule. eapply denotes_conseq.
  { eapply denotes_bind with (R := fun fr r o r' =>
      if is_bind def then binding_rule src scope env RT T fr id def r o r' else o = None /\ r' = r).
    - destruct (is_bind def); [by apply denotes_binding|apply denotes_ret].
    - intros o. instantiate (1 := fun o _ r t r' => match o with
        | Some t' => t = t'
        | None => match n_kind def, n_children def with
                  | NODE_PARAM, _ :: ann :: _ => RT ann t
                  | NODE_FUNC_DECL, _ => t = mk_type TY_FUNC
                  | _, _ => t = mk_type TY_UNKNOWN
                  end
        end /\ r' = r). cbn beta. destruct o as [t|]; [apply denotes_ret|].
      pose proof (fits_children _ _ Hf) as Hc.
      destruct (n_kind def); try (by apply denotes_ret).
      destruct Hc as [|n0 cs _ Hc]; [apply denotes_ret|]. destruct Hc as [|ann cs Ha _]; [apply denotes_ret|].
      apply denotes_pure. by apply HRT. }
  intros fr r t r'. cbn beta. split.
  - intros (o & r1 & ? & ? & ->). eauto.
  - intros (o & ? & ?). exists o, r'. eauto.
Qed.

Lemma denotes_ident n :
  fit n -> dn (infer_ident src scope env rs inf n) (fun fr r t r' => name_rule src scope env RT T fr (name n) r t r').
Proof.
  intros Hf. eapply denotes_then; [by apply purely_name|]. unfold name_rule.
  pose proof (declared_fits (name n)) as Hd. unfold declared in *.
  assert (Hl : dn (do t <- local_type src scope env rs inf (name n); ret (default (mk_type TY_UNKNOWN) t))
    (fun fr r t r' => exists o, local_rule src scope env RT T fr (name n) r o r' /\ t = default (mk_type TY_UNKNOWN) o)).
  { eapply denotes_conseq; [apply denotes_bind; [apply denotes_local|intros ?; apply denotes_ret]|].
    intros fr r t r'. cbn beta. split; [intros (o & r1 & ? & -> & ->); eauto|intros (o & ? & ->); by exists o, r']. }
  destruct (tc_lookup scope (name n)) as [[nm dk [[id def]|]]|]; [|exact Hl|exact Hl].
  apply denotes_def. by apply (Hd id).
Qed.

(** ** Operators *)

Lemma denotes_unary id n :
  fit n -> dn (infer_unary inf id n) (fun fr r t r' => child T fr id n 0 r t r' /\ unary_ok (n_op n) t).
Proof.
  intros Hn. eapply denotes_conseq.
  { apply denotes_bind with (K := fun op _ r t r' => (unary_ok (n_op n) op /\ t = op) /\ r' = r);
      [by apply denotes_child|]. intros op. unfold unary_ok.
    assert (Hk : kind_of [TY_UNKNOWN; TY_I64; TY_F64; TY_I8; TY_I16; TY_I32; TY_F32] op
                 = unknown op || kind_of [TY_I64; TY_F64; TY_I8; TY_I16; TY_I32; TY_F32] op).
    { unfold unknown, is_kind, kind_of. by destruct (ty_kind op). }
    rewrite Hk. clear Hk. unfold tk_eqb. destruct (unknown op) eqn:Eu; cbn [orb negb].
    { rewrite !andb_false_r. apply answers_ret. intros t. tauto. }
    assert (Hok : forall P : Prop, P -> dn (ret op) (fun _ r t r' => (((false = true \/ P) /\ t = op) /\ r' = r))).
    { intros P HP. apply answers_ret. intros t. tauto. }
    rewrite andb_true_r. case_bool_decide as E1; cbn [andb].
    - destruct (kind_of _ op) eqn:Ek; cbn [negb].
      + rewrite E1. by apply Hok.
      + apply answers_error. intros t [[?|[H _]] _]; [done|]. by apply H in E1.
    - case_bool_decide as E2; cbn [andb].
      + destruct (is_integer op) eqn:Ei; cbn [negb].
        * by apply Hok.
        * apply answers_error. intros t [[?|[_ H]] _]; [done|]. by apply H in E2.
      + by apply Hok. }
  intros fr r t r'. cbn beta. split; [by intros (op & r1 & ? & [? ->] & ->)|intros [? ?]; by exists t, r'].
Qed.

Lemma denotes_binary id n :
  fit n -> dn (infer_binary inf id n)
    (fun fr r t r' => exists a r1 b, child T fr id n 0 r a r1 /\ child T fr id n 1 r1 b r'
       /\ binary (n_op n) (is_lit n 0) (is_lit n 1) a b t).
Proof.
  intros Hn. eapply denotes_conseq.
  { eapply denotes_bind; [by apply denotes_child|intros a].
    eapply denotes_bind; [by apply denotes_child|intros b; apply binary_gives]. }
  intros fr r t r'. cbn beta. split.
  - intros (a & r1 & ? & b & r2 & ? & ? & ->). by exists a, r1, b.
  - intros (a & r1 & b & ? & ? & ?). exists a, r1. split; [done|]. by exists b, r'.
Qed.

(** ** Calls *)

Lemma purely_declared_ret fn : fit fn -> purely (declared_ret rs fn) (ret_type RT fn).
Proof.
  intros Hf. unfold declared_ret, ret_type. pose proof (ret_spec_fits fn) as Hs.
  fold (ret_spec fn). destruct (ret_spec fn) as [spec|]; [|apply purely_ret].
  apply (purely_return_spec src); [done|by apply Hs].
Qed.

Lemma denotes_check_args id : forall ps args i,
  Forall (fun p => fit p) ps -> Forall (fun a => fit a) args -> length args = length ps ->
  dn (check_args rs inf id i ps args) (fun fr r _ r' => args_ok RT T fr id i ps args r r').
Proof.
  induction ps as [|p ps IH]; intros [|a args] i Hps Ha Hl; try done; cbn [check_args].
  { eapply denotes_conseq; [apply denotes_ret|]. intros fr r [] r'.
    split; [intros [_ ->]; constructor|by inversion 1]. }
  apply Forall_cons in Hps as [Hp Hps]. apply Forall_cons in Ha as [Ha Has]. injection Hl as Hl.
  eapply denotes_conseq.
  { eapply denotes_bind; [by apply HT|intros t].
    eapply denotes_read with (P := fun pt => match n_children p !! 1%nat with Some ann => RT ann pt | None => pt = mk_type TY_UNKNOWN end).
    - pose proof (fits_children _ _ Hp) as Hc. destruct Hc as [|x cs _ Hc]; [apply purely_ret|].
      destruct Hc as [|ann cs Hann _]; [apply purely_ret|by apply HRT].
    - intros pt _. eapply denotes_bind; [apply denotes_when_error, denotes_error|intros ?; by apply IH]. }
  intros fr r [] r'. cbn beta.
  assert (Hfl : forall t pt, negb (unknown t) && negb (unknown pt) && negb (types_compat t pt) = false <-> flows t pt = true).
  { intros t pt. unfold flows. by destruct (unknown t), (unknown pt), (types_compat t pt). }
  split.
  - intros (t & r1 & ? & pt & ? & [] & r2 & [H%Hfl ->] & ?). by eapply args_cons.
  - inversion 1 as [|? ? ? ? ? ? t pt r1 ? H1 H2 H3 H4]; subst.
    exists t, r1. split; [done|]. exists pt. split; [done|]. exists tt, r1. by rewrite Hfl.
Qed.

Lemma known_reads id s : known_rtype id s = Ok (known_type (cx_rtypes s) id, s).
Proof. done. Qed.

Lemma arg_type_reads id arg s : fit arg -> std_arg_type src root id arg s = Ok (arg_type src root (cx_rtypes s) id arg, s).
Proof.
  intros Hf. unfold std_arg_type, arg_type. unfold bind at 1. rewrite known_reads.
  set (t := known_type (cx_rtypes s) id).
  destruct (unknown t) eqn:Eu; cbn [andb negb].
  2:{ unfold bind, ret. pose proof (fits_children _ _ Hf) as Hc. destruct (n_kind arg); try done.
      destruct Hc as [|b cs _ Hc]; [done|]. destruct Hc as [|m cs _ _]; [done|]. by rewrite Eu. }
  unfold has_kind. case_bool_decide as Ek.
  { rewrite Ek. unfold bind.
    rewrite (pure_complete _ _ (purely_std_sig src root Hroot arg Hf) s _ eq_refl).
    by destruct (std_sig src root arg). }
  unfold bind at 1. unfold ret at 1. pose proof (fits_children _ _ Hf) as Hc.
  destruct (n_kind arg); try done. destruct Hc as [|b cs _ Hc]; [done|]. destruct Hc as [|m cs Hm _]; [done|].
  rewrite Eu. unfold bind, ret. rewrite (pure_complete _ _ (purely_name src m Hm) s _ eq_refl). by rewrite known_reads.
Qed.

Lemma denotes_std_args id mask : forall args a,
  Forall (fun c => fit c) args ->
  dn (std_args src root id mask (S a) args)
     (fun _ r _ r' => (forall k arg, args !! k = Some arg -> std_arg_ok src root r id mask (a + k) arg) /\ r' = r).
Proof.
  induction args as [|arg args IH]; intros a H; cbn [std_args].
  { eapply denotes_conseq; [apply denotes_ret|]. intros fr r [] r'. split; [by intros [_ ->]|tauto]. }
  apply Forall_cons in H as [Ha H]. replace (Z.of_nat (S a) - 1) with (Z.of_nat a) by lia.
  specialize (IH (S a) H). set (rest := fun r => forall k arg, args !! k = Some arg -> std_arg_ok src root r id mask (S a + k) arg).
  assert (Hk : forall r, (forall k arg', (arg :: args) !! k = Some arg' -> std_arg_ok src root r id mask (a + k) arg')
                         <-> std_arg_ok src root r id mask a arg /\ rest r).
  { intros r. unfold rest. split.
    - intros Hall. split; [specialize (Hall 0%nat arg eq_refl); by rewrite Nat.add_0_r in Hall|].
      intros k arg' Hk. replace (S a + k)%nat with (a + S k)%nat by lia. by apply Hall.
    - intros [H1 H2] [|k] arg' Hk; [injection Hk as <-; by rewrite Nat.add_0_r|].
      replace (a + S k)%nat with (S a + k)%nat by lia. by apply H2. }
  unfold std_arg_ok in Hk at 2. destruct (32 <=? Z.of_nat a) eqn:E32; zb.
  { split; [done..|]. intros s [] r _ _ [[? _]%Hk _]. lia. }
  destruct (Z.testbit mask (Z.of_nat a)) eqn:Et.
  - eapply denotes_conseq.
    { apply denotes_bind with (K := fun t _ r _ r' => unknown t || is_kind TY_STR t = true /\ rest r /\ r' = r);
        [apply denotes_reads with (f := fun r => arg_type src root r (child_id id (S a)) arg); intros s;
         by apply arg_type_reads|intros t].
      destruct (unknown t || is_kind TY_STR t).
      - eapply denotes_conseq; [exact IH|]. tauto.
      - eapply denotes_conseq; [eapply denotes_error_or_stop; exact IH|]. intros ? ? ? ?. split; [done|by intros [? _]]. }
    intros fr r u r'. cbn beta. rewrite Hk. split.
    + intros (t & r1 & [-> ->] & ? & ? & ->). split; [|done]. split; [|done]. split; [lia|done].
    + intros [[[_ Ht] ?] ->]. eexists _, r. split; [done|]. split; [by apply Ht|done].
  - eapply denotes_conseq; [exact IH|]. intros fr r u r'. cbn beta. rewrite Hk. split; [|tauto].
    intros [? ->]. split; [|done]. split; [|done]. split; [lia|done].
Qed.

Lemma denotes_std_check id call :
  fit call ->
  dn (check_std_str_args src root id call) (fun _ r _ r' => std_args_ok src root r id call /\ r' = r).
Proof.
  intros Hf. unfold check_std_str_args. eapply denotes_then; [by apply purely_std_sig|]. unfold std_args_ok.
  destruct (std_sig src root call) as [sg|]; [|by apply denotes_yes].
  eapply denotes_conseq; [apply denotes_std_args, Forall_drop, (fits_children _ _ Hf)|].
  intros fr r u r'. cbn beta. split; intros [H ->]; (split; [|done]).
  - intros ? [= <-] a arg Ha. apply (H a). by rewrite lookup_drop.
  - intros k arg Hk. rewrite lookup_drop in Hk. by apply H.
Qed.

Lemma denotes_tki_check call :
  fit call -> dn (check_tki_call src scope env root call) (fun _ r _ r' => tki_ok src scope env root call /\ r' = r).
Proof.
  intros Hf. unfold check_tki_call, tki_ok.
  destruct (member_call call) as [[a m]|] eqn:Em; [|by apply denotes_yes].
  destruct (member_call_fits _ _ _ _ Hf Em) as [Ha Hm].
  eapply denotes_then; [by apply purely_name|]. eapply denotes_then; [by apply purely_name|].
  eapply denotes_then; [by apply purely_module|].
  destruct (module_of src root (name a)) as [mpath|] eqn:Emp; [|apply denotes_yes; intros; congruence].
  destruct (match tc_lookup scope (name a) with Some d => _ | None => false end) eqn:Eo.
  - apply denotes_yes. intros ? ? ? ? [= <- <-] _ Hd. destruct (tc_lookup scope (name a)) as [d|]; [|done].
    by rewrite (Hd d eq_refl) in Eo.
  - assert (Hd : forall d, tc_lookup scope (name a) = Some d -> td_kind d = DECL_IMPORT_ALIAS).
    { intros d Ed. rewrite Ed in Eo. by apply negb_false_iff, bool_decide_eq_true in Eo. }
    destruct (tki_call_error env (name a) mpath (name m) _) as [code|] eqn:Ee.
    + apply denotes_no; [apply denotes_error|]. intros H.
      specialize (H a m mpath eq_refl Emp Hd). congruence.
    + apply denotes_yes. intros ? ? ? ? [= <- <-] E' _. congruence.
Qed.

Lemma params_fits fn : fit fn -> Forall (fun p => fit p) (params fn).
Proof.
  intros H. apply Forall_forall. intros p [_ Hp]%list_elem_of_filter.
  pose proof (fits_children _ _ H) as Hc. rewrite Forall_forall in Hc. auto.
Qed.

Lemma denotes_call id n :
  fit n -> dn (infer_call src scope env root rs inf id n) (fun fr r t r' => call_rule src scope env root RT T fr id n r t r').
Proof.
  intros Hn. unfold infer_call, call_rule. pose proof (fits_children _ _ Hn) as Hc.
  destruct (n_children n) as [|callee args] eqn:Ec; [apply denotes_ret|].
  apply Forall_cons in Hc as [Hcal Hargs]. eapply denotes_then; [by apply purely_name|].
  assert (Hfn : callee_fn src scope callee = match tc_lookup scope (name callee) with
     | Some (mkTDecl _ _ (Some (_, def))) => if has_kind NODE_FUNC_DECL def then Some def else None
     | _ => None end).
  { unfold callee_fn, declared. by destruct (tc_lookup scope (name callee)) as [[? ? [[? ?]|]]|]. }
  rewrite <- Hfn. pose proof (callee_fits callee) as Hcf. destruct (callee_fn src scope callee) as [fn|].
  - destruct (Hcf fn eq_refl) as [Hff _]. clear Hcf Hfn.
    pose proof (params_fits fn Hff) as Hps.
    destruct (zlen args =? zlen (params fn)) eqn:El; cbn [negb].
    + zb. eapply denotes_conseq.
      { eapply denotes_bind; [apply denotes_check_args; [done..|unfold zlen in El; lia]|intros ?].
        by apply denotes_pure, purely_declared_ret. }
      intros fr r t r'. cbn beta. split; [by intros (? & r1 & ? & ? & ->)|intros [? ?]; by exists tt, r'].
    + zb. eapply denotes_conseq.
      { eapply denotes_error_then; [apply denotes_error|].
        eapply denotes_bind; [by apply denotes_from|intros ?; by apply denotes_pure, purely_declared_ret]. }
      intros fr r t r'. split; [done|]. intros [Ha _]. apply El.
      assert (length args = length (params fn)); [|unfold zlen; lia].
      clear - Ha. induction Ha; cbn; lia.
  - eapply denotes_conseq.
    { eapply denotes_bind; [by apply denotes_from|intros ?].
      eapply denotes_bind; [by apply denotes_std_check|intros ?].
      eapply denotes_bind; [by apply denotes_tki_check|intros ?; apply denotes_ret]. }
    intros fr r t r'. rewrite Ec. cbn [drop]. split.
    + by intros (? & r1 & ? & ? & r2 & [? ->] & ? & r3 & [? ->] & -> & ->).
    + intros (? & ? & ? & ->). exists tt, r'. split; [done|]. exists tt, r'. split; [done|]. by exists tt, r'.
Qed.

Lemma denotes_cast id n :
  fit n -> dn (infer_cast rs inf id n) (fun fr r t r' => cast_rule RT T fr id n r t r').
Proof.
  intros Hn. unfold infer_cast, cast_rule. pose proof (fits_children _ _ Hn) as Hc.
  pose proof (denotes_child id n 0 Hn) as Hch. unfold child in Hch.
  destruct (n_children n) as [|v cs]; [apply denotes_ret|]. destruct cs as [|to cs]; [apply denotes_ret|].
  apply Forall_cons in Hc as [_ Hc]. apply Forall_cons in Hc as [Hto _].
  eapply denotes_conseq.
  { eapply denotes_bind; [exact Hch|intros from].
    eapply denotes_read; [by apply HRT|intros t _].
    eapply denotes_bind; [apply denotes_skip, denotes_warning|intros ?; apply denotes_ret]. }
  intros fr r t r'. cbn. split.
  - intros (from & r1 & ? & t' & ? & ? & ? & -> & -> & ->). eauto.
  - intros (? & from & ?). exists from, r'. split; [done|]. exists t. split; [done|]. by exists tt, r'.
Qed.

Lemma denotes_propagate id n :
  fit n -> dn (infer_propagate inf id n) (fun fr r t r' => propagate_rule T fr id n r t r').
Proof.
  intros Hn. eapply denotes_conseq.
  { eapply denotes_bind; [by apply denotes_child|intros e].
    apply (denotes_get _ _ _ (fun fr0 _ r t r' => (exists ret, fr_ret fr0 = Some ret /\ ty_kind ret = TY_ERROR_TYPE
       /\ (ty_kind e = TY_UNKNOWN /\ t = mk_type TY_UNKNOWN
           \/ ty_kind e = TY_ERROR_TYPE /\ t = default (mk_type TY_UNKNOWN) (ty_elem e))) /\ r' = r)).
    intros s _. cbn [fr_of fr_ret]. destruct (cx_fn_ret s) as [ret|]; cbn [negb orb];
      [|apply answers_error; by intros ? (? & ? & _)].
    unfold is_kind at 1. case_bool_decide as Er; cbn [negb orb];
      [|apply answers_error; intros ? (? & [= <-] & ? & _); done].
    unfold kind_of. case_bool_decide as Ee; cbn [negb].
    - apply answers_ret. unfold is_kind. intros t. split.
      + intros (? & [= <-] & _ & [[Hk ->]|[Hk ->]]); by rewrite Hk.
      + intros ->. exists ret. split; [done|]. split; [done|].
        apply elem_of_cons in Ee as [Ee|Ee]; [left; by rewrite Ee|].
        apply list_elem_of_singleton in Ee. right. by rewrite Ee.
    - apply answers_error. intros t (? & _ & _ & [[Hk _]|[Hk _]]); apply Ee; rewrite Hk; by apply (bool_decide_eq_true _). }
  intros fr r t r'. cbn beta. unfold propagate_rule. split.
  - intros (e & r1 & ? & (ret & ? & ? & ?) & ->). by exists e, ret.
  - intros (e & ret & ? & ? & ? & ?). exists e, r'. split; [done|]. split; [by exists ret|done].
Qed.

(** ** Access *)

(** Decide which of two kinds is meant. *)
Ltac eval_kinds := repeat match goal with
  | |- context [@bool_decide ?P ?d] =>
      let v := eval vm_compute in (@bool_decide P d) in
      lazymatch v with true => idtac | false => idtac end; change (@bool_decide P d) with v
  end; cbn [negb andb orb].

Lemma answers_type_error n P : (forall t, ~ P t) -> dn (type_error n) (fun _ r t r' => P t /\ r' = r).
Proof. apply answers_error. Qed.

Lemma denotes_index id n :
  fit n -> dn (infer_index env inf id n)
    (fun fr r t r' => exists b r1 i, child T fr id n 0 r b r1 /\ child T fr id n 1 r1 i r' /\ indexed env b i t).
Proof.
  intros Hn. eapply denotes_conseq.
  { eapply denotes_bind; [by apply denotes_child|intros b].
    apply denotes_bind with (K := fun i _ r t r' => indexed env b i t /\ r' = r); [by apply denotes_child|intros i].
    unfold indexed, is_kind, kind_of, unknown. unfold is_kind.
    destruct (ty_kind b) eqn:Ek; eval_kinds;
      try (apply answers_type_error; tauto); try by apply answers_ret.
    - destruct (imported_name env b); cbn.
      + apply answers_ret. tauto.
      + apply answers_type_error. by intros t [? _].
    - destruct (bool_decide (ty_kind i = TY_UNKNOWN) || is_integer i) eqn:Ei; cbn [negb].
      + apply answers_ret. tauto.
      + apply answers_type_error. by intros t [? _].
    - destruct (ty_elem b) as [k|]; [|apply answers_ret; intros t; split; [tauto|intros ->; split; [done|done]]].
      destruct (clash k i) eqn:Ec.
      + apply answers_type_error. intros t [H _]. specialize (H k eq_refl). congruence.
      + apply answers_ret. intros t. split; [tauto|]. intros ->. split; [by intros ? [= <-]|done]. }
  intros fr r t r'. cbn beta. split.
  - intros (b & r1 & ? & i & r2 & ? & ? & ->). by exists b, r1, i.
  - intros (b & r1 & i & ? & ? & ?). exists b, r1. split; [done|]. by exists i, r'.
Qed.

Lemma denotes_field_of id n base f :
  dn (infer_field_of id n base f) (fun _ r t r' => member base f t /\ r' = r).
Proof.
  unfold infer_field_of, member, is_kind, kind_of. fold len keys.
  destruct (ty_kind base); eval_kinds; try by apply answers_ret.
  - by destruct (bytes_eqb f len); apply answers_ret.
  - destruct (field_of base f) as [t0|].
    + apply answers_ret. intros t. split; [by intros [= ->]|by intros ->].
    + by apply answers_error_once.
  - by destruct (bytes_eqb f len); apply answers_ret.
  - destruct (bytes_eqb f len) eqn:El; [|destruct (bytes_eqb f keys) eqn:Ek].
    + apply bytes_eqb_eq in El. subst. apply answers_ret. intros t. split; [by intros [[_ ->]|[? _]]|tauto].
    + apply bytes_eqb_eq in Ek. subst. apply answers_ret. intros t. split; [by intros [[? _]|[_ ->]]|tauto].
    + apply answers_error_once. intros t [[-> _]|[-> _]]; done.
Qed.

Lemma denotes_field id n :
  fit n -> dn (infer_field src rs inf id n) (fun fr r t r' => field_rule src RT T fr id n r t r').
Proof.
  intros Hn. eapply denotes_conseq.
  { apply denotes_bind with (K := fun base _ r t r' => match n_children n with
      | b :: f :: _ => member base (name f) t
          /\ (n_kind b = NODE_TYPE_IDENT -> exists t', RT b t' /\ is_kind TY_STRUCT t' = false)
      | _ => t = mk_type TY_UNKNOWN end /\ r' = r); [by apply denotes_child|intros base].
    pose proof (fits_children _ _ Hn) as Hc. destruct (n_children n) as [|b cs]; [apply denotes_ret|].
    destruct cs as [|f cs]; [apply denotes_ret|].
    apply Forall_cons in Hc as [Hb Hc]. apply Forall_cons in Hc as [Hf _].
    eapply denotes_then; [by apply purely_name|].
    destruct (has_kind NODE_TYPE_IDENT b) eqn:Ek;
      [apply bool_decide_eq_true in Ek|apply bool_decide_eq_false in Ek].
    - eapply denotes_then; [by apply purely_name|]. eapply denotes_conseq.
      { apply denotes_read with (K := fun t' _ r t r' => (is_kind TY_STRUCT t' = false /\ member base (name f) t) /\ r' = r);
          [by apply HRT|]. intros t' _. destruct (is_kind TY_STRUCT t') eqn:Es.
        - apply answers_error_once. by intros t [? _].
        - eapply denotes_conseq; [apply denotes_field_of|]. tauto. }
      intros fr r t r'. cbn beta. split.
      + intros (t' & ? & [? ?] & ->). eauto 6.
      + intros [[? H] ->]. destruct (H Ek) as (t' & ? & ?). by exists t'.
    - eapply denotes_conseq; [apply denotes_field_of|]. tauto. }
  intros fr r t r'. cbn beta. unfold field_rule. split.
  - intros (base & r1 & ? & ? & ->). by exists base.
  - intros (base & ? & ?). by exists base, r'.
Qed.

End Rules.
