(* ===== verification/TypeStmt.v ===== *)
(** * The rules of statements and of the walk

    As [TypeRules], for statements, functions and lists of statements; then one
    step of [infer] is one step of [typed], and so is the walk. *)

From Stdlib Require Import ZArith Lia String Ascii.
From stdpp Require Import base tactics list gmap.
From S2P Require Import Prelude CStr Diag Lexer Ast Parser ModName Resolve Iface Types.
From S2P Require Import Infer TypeSpec TypeFacts TypeLookup TypeRules.
Open Scope Z_scope.

Section Statements.
Context {rt : Runtime} (src : list Z) (scope : list TDecl) (env : NameEnv) (root : Node).
Context (Hscope : Forall (fun d => forall id def, td_def d = Some (id, def) -> fits src def = true) scope).
Context (Hroot : fits src root = true) (start : Diags).
Abbreviation fit n := (fits src n = true).
Abbreviation dn := (denotes src start).
Abbreviation name := (lexeme src 128).

Context (rs : Node -> TM Ty) (inf : NodeId -> Node -> TM Ty).
Context (RT : Node -> Ty -> Prop) (T : Frame -> gmap NodeId Ty -> NodeId -> Node -> Ty -> gmap NodeId Ty -> Prop).
Context (HRT : forall n, fit n -> purely (rs n) (RT n)).
Context (HT : forall id n, fit n -> dn (inf id n) (fun fr r t r' => T fr r id n t r')).
Abbreviation denotes_child := (TypeRules.denotes_child src start inf T HT).
Abbreviation denotes_all := (TypeRules.denotes_all src start inf T HT).
Abbreviation denotes_from := (TypeRules.denotes_from src start inf T HT).

(** ** Bindings and assignments *)

(** A statement is [void]. *)
Lemma denotes_stmt (m : TM unit) (R : Frame -> gmap NodeId Ty -> gmap NodeId Ty -> Prop) :
  dn m (fun fr r _ r' => R fr r r') -> dn (do! m; void) (fun fr r t r' => t = mk_type TY_VOID /\ R fr r r').
Proof.
  intros H. eapply denotes_conseq; [apply denotes_bind; [exact H|intros ?; apply denotes_ret]|].
  intros fr r t r'. cbn beta. split; [by intros (? & ? & ? & -> & ->)|].
  intros [-> ?]. by exists tt, r'.
Qed.

Lemma denotes_bind_stmt id n :
  fit n -> dn (infer_bind rs inf id n) (fun fr r t r' => t = mk_type TY_VOID /\ bind_rule RT T fr id n r r').
Proof.
  intros Hn. unfold infer_bind, bind_rule. pose proof (fits_children _ _ Hn) as Hc.
  assert (Hrec : dn (match n_children n with
                     | x :: _ => do s <- get; record_bind_depth x (cx_scope_depth s)
                     | [] => ret tt end) (fun _ r _ r' => r' = r)).
  { destruct Hc as [|x cs Hx _]; [eapply denotes_conseq; [apply denotes_ret|]|by apply denotes_record, fits_span].
    intros ? ? [] ?. tauto. }
  assert (Hmain : dn (match n_children n with
      | _ :: ann :: init :: _ =>
          do ann <- rs ann;
          do init <- inf (child_id id 2) init;
          when (negb (flows init ann)) (emit_mm n)
      | _ :: init :: _ => do _ <- inf (child_id id 1) init; ret tt
      | _ => ret tt
      end) (fun fr r _ r' => bind_rule RT T fr id n r r')).
  { unfold bind_rule. destruct (n_children n) as [|x [|y cs]] eqn:Ec;
      try (eapply denotes_conseq; [apply denotes_ret|]; intros ? ? [] ?; tauto).
    apply Forall_cons in Hc as [_ Hc]. apply Forall_cons in Hc as [Hy Hc].
    destruct cs as [|z cs].
    - eapply denotes_conseq; [apply denotes_bind; [by apply HT|intros ?; apply denotes_ret]|].
      intros fr r [] r'. cbn beta. split; [intros (t & r1 & ? & _ & ->); eauto|intros (t & ?); by exists t, r'].
    - apply Forall_cons in Hc as [Hz _]. eapply denotes_conseq.
      { eapply denotes_read; [by apply HRT|intros t _].
        eapply denotes_bind; [by apply HT|intros ti; apply denotes_when_error, denotes_error]. }
      intros fr r [] r'. cbn beta. split.
      + intros (t & ? & ti & r1 & ? & ?%negb_false_iff & ->). eauto 6.
      + intros (t & ti & ? & ? & Hf). exists t. split; [done|]. exists ti, r'. by rewrite Hf. }
  eapply denotes_conseq.
  { eapply denotes_bind; [exact Hmain|intros ?]. eapply denotes_bind; [exact Hrec|intros ?; apply denotes_ret]. }
  intros fr r t r'. cbn beta. split.
  - by intros (? & r1 & ? & ? & ? & -> & -> & ->).
  - intros [-> ?]. exists tt, r'. split; [done|]. by exists tt, r'.
Qed.

(** A parameter of the function is spelled so. *)
Definition spelled (x : list Z) (c : Node) : bool :=
  has_kind NODE_PARAM c && match n_children c with pn :: _ => bytes_eqb (name pn) x | [] => false end.

Lemma purely_spells x cs :
  Forall (fun c => fit c) cs -> purely (spells_param src x cs) (fun b => b = existsb (spelled x) cs).
Proof.
  induction 1 as [|c cs Hc H IH]; cbn [spells_param existsb]; [apply purely_ret|].
  unfold spelled at 1, has_kind. case_bool_decide as Ek; [rewrite Ek|by destruct (n_kind c)].
  pose proof (fits_children _ _ Hc) as Hcc. destruct Hcc as [|pn rest Hpn _]; [exact IH|].
  eapply purely_then; [by apply purely_name|].
  cbn [andb]. destruct (bytes_eqb (name pn) x); [apply purely_ret|exact IH].
Qed.

Lemma spelled_spec x fn :
  existsb (spelled x) (n_children fn) = true <->
  exists p pn, p ∈ params fn /\ n_children p !! 0%nat = Some pn /\ name pn = x.
Proof.
  rewrite existsb_exists. unfold spelled, has_kind, params. split.
  - intros (p & Hp & [Hk%bool_decide_eq_true Hx]%andb_prop).
    destruct (n_children p) as [|pn cs] eqn:Ec; [done|]. apply bytes_eqb_eq in Hx.
    exists p, pn. rewrite Ec. split; [|done]. apply list_elem_of_filter. by rewrite list_elem_of_In.
  - intros (p & pn & [Hk Hp]%list_elem_of_filter & Ec & Hx). exists p. split; [by apply list_elem_of_In|].
    rewrite bool_decide_true by done. destruct (n_children p); [done|]. injection Ec as ->. by apply bytes_eqb_eq.
Qed.

(** The target of an assignment is an immutable name. *)
Definition immutable_at (fr : Frame) (n : Node) : Prop :=
  exists target fid fn, n_children n !! 0%nat = Some target /\ n_kind target = NODE_IDENT
    /\ fr_fn fr = Some (fid, fn) /\ immutable src (lexeme src 256 target) fn.

Lemma denotes_immutable n :
  fit n -> dn (immutable_target src n) (fun fr r b r' => (b = true <-> immutable_at fr n) /\ r' = r).
Proof.
  intros Hn. apply (denotes_get _ _ _ (fun fr0 _ r b r' => (b = true <-> immutable_at fr0 n) /\ r' = r)).
  intros s Hi. pose proof (fits_children _ _ Hn) as Hc.
  assert (Hno : ~ immutable_at (fr_of s) n -> dn (ret false) (fun _ r b r' => (b = true <-> immutable_at (fr_of s) n) /\ r' = r)).
  { intros H. apply answers_ret. intros []; intuition congruence. }
  unfold immutable_at in *. cbn [fr_of fr_fn] in *.
  destruct (n_children n) as [|target cs]; [apply Hno; by intros (? & ? & ? & ? & _)|].
  destruct (cx_fn_node s) as [[fid fn]|] eqn:Ef; [|apply Hno; by intros (? & ? & ? & _ & _ & ? & _)].
  destruct (has_kind NODE_IDENT target) eqn:Ek;
    [apply bool_decide_eq_true in Ek|apply bool_decide_eq_false in Ek;
     apply Hno; by intros (? & ? & ? & [= <-] & ? & _)].
  apply Forall_cons in Hc as [Ht _]. pose proof (ti_fn _ _ _ Hi _ _ Ef) as Hfn.
  eapply denotes_then; [apply purely_tokstr; [lia|by apply fits_span]|].
  set (x := lexeme src 256 target) in *.
  eapply denotes_then; [by apply purely_spells, fits_children|].
  assert (Hx : (exists t fid' fn', Some target = Some t /\ n_kind t = NODE_IDENT /\ Some (fid, fn) = Some (fid', fn')
             /\ immutable src (lexeme src 256 t) fn') <-> immutable src x fn).
  { split; [by intros (? & ? & ? & [= <-] & _ & [= <- <-] & ?)|intros ?; by exists target, fid, fn]. }
  change ((target :: cs) !! 0%nat) with (Some target).
  assert (Hdec : forall b0, (b0 = true <-> immutable src x fn) -> forall b, (b = true <-> immutable src x fn) <-> b = b0).
  { intros [] Hb []; intuition congruence. }
  assert (Him : existsb (spelled x) (n_children fn) = true \/ binding_kind src x fn = Some NODE_BIND_STMT
                <-> immutable src x fn).
  { unfold immutable. by rewrite spelled_spec, binding_kind_immutable. }
  destruct (existsb (spelled x) (n_children fn)).
  - apply answers_ret. intros b. rewrite Hx. apply Hdec. rewrite <- Him. tauto.
  - eapply denotes_then; [by apply purely_find_kind|]. apply answers_ret. intros b. rewrite Hx. apply Hdec.
    rewrite bool_decide_eq_true, <- Him. intuition congruence.
Qed.

Lemma denotes_assign id n :
  fit n -> dn (infer_assign src inf id n) (fun fr r t r' => t = mk_type TY_VOID /\ assign_rule src T fr id n r r').
Proof.
  intros Hn. eapply denotes_conseq.
  { apply denotes_bind with (K := fun b fr r t r' => b = false /\ t = mk_type TY_VOID /\
      exists lhs r1 rhs, child T fr id n 0 r lhs r1 /\ child T fr id n 1 r1 rhs r' /\ flows rhs lhs = true);
      [by apply denotes_immutable|intros []].
    - eapply denotes_conseq; [eapply denotes_error_then; [apply denotes_error|apply denotes_ret]|].
      intros. split; [done|by intros [? _]].
    - eapply denotes_conseq.
      { eapply denotes_bind; [by apply denotes_child|intros lhs].
        eapply denotes_bind; [by apply denotes_child|intros rhs].
        eapply denotes_bind; [apply denotes_when_error, denotes_error|intros ?; apply denotes_ret]. }
      intros fr r t r'. cbn beta. split.
      + intros (lhs & r1 & ? & rhs & r2 & ? & ? & ? & [?%negb_false_iff ->] & -> & ->). split_and!; [done..|].
        by exists lhs, r1, rhs.
      + intros (_ & -> & lhs & r1 & rhs & ? & ? & Hf). exists lhs, r1. split; [done|]. exists rhs, r'.
        split; [done|]. exists tt, r'. by rewrite Hf. }
  intros fr r t r'. cbn beta. unfold assign_rule, immutable_at. split.
  - intros ([] & r1 & [Hb ->] & ? & -> & ?); [done|]. split; [done|]. split; [|done].
    intros target fid fn ? ? ? ?. assert (false = true); [|done]. apply Hb. by exists target, fid, fn.
  - intros (-> & Hno & ?). exists false, r. split; [|done]. split; [|done]. split; [done|].
    intros (target & fid & fn & ? & ? & ? & ?). by destruct (Hno target fid fn).
Qed.

(** ** Returns *)

Lemma named_reads x n s : fit n -> named src x n s = Ok (binds src x n, s).
Proof. intros H. exact (pure_complete _ _ (purely_named src x n H) s _ eq_refl). Qed.

Lemma param_named_reads x cs : Forall (fun c => fit c) cs -> exists b, forall s, param_named src x cs s = Ok (b, s).
Proof.
  induction 1 as [|c cs Hc H [b IH]]; [by exists false|]. cbn [param_named].
  destruct (has_kind NODE_PARAM c); [|by exists b]. unfold bind.
  destruct (binds src x c) eqn:E; [exists true|exists b]; intros s; by rewrite named_reads, E.
Qed.

Lemma last_bind_reads x bs :
  Forall (fun b => 0 <= bd_start b /\ 0 <= bd_len b /\ bd_start b + bd_len b <= zlen src) bs ->
  exists d, forall s, last_bind src bs x s = Ok (d, s).
Proof.
  induction 1 as [|b bs (H1 & H2 & H3) H [d IH]]; [by exists (-1)|]. cbn [last_bind].
  destruct (bd_len b =? zlen x) eqn:E; zb; [|by exists d]. unfold bind, same_text, rd_range.
  rewrite E in H2, H3. rewrite !(proj2 (Z.leb_le _ _)) by done. cbn [andb]. unfold bind, ret.
  destruct (bytes_eqb _ x); [by exists (bd_depth b)|by exists d].
Qed.

Lemma denotes_escape n v : fit n -> dn (check_escape src n v) (fun _ r _ r' => r' = r).
Proof.
  intros Hn. unfold check_escape. pose proof (fits_children _ _ Hn) as Hc.
  assert (Hskip : dn (ret tt) (fun _ r _ r' => r' = r)).
  { eapply denotes_conseq; [apply denotes_ret|]. intros ? ? [] ?. tauto. }
  destruct Hc as [|x cs Hx _]; [done|]. destruct (has_kind NODE_IDENT x); [|done].
  eapply denotes_then; [by apply purely_name|]. set (nb := name x).
  apply denotes_state. intros s Hi.
  assert (Hp : exists b, is_param src nb s = Ok (b, s)).
  { unfold is_param, bind, get. destruct (cx_fn_node s) as [[fid fn]|] eqn:Ef; [|by exists false].
    destruct (param_named_reads nb (n_children fn)) as [b Hb]; [|by exists b].
    by eapply fits_children, ti_fn. }
  destruct Hp as [p Hp].
  assert (Hd : exists d, lookup_bind_depth src nb s = Ok (d, s)).
  { unfold lookup_bind_depth, bind, get. edestruct last_bind_reads as [d Hd]; [|exists d; apply Hd].
    apply Forall_rev, Forall_take, (ti_binds _ _ _ Hi). }
  destruct Hd as [d Hd].
  exists (when (negb p && ((0 <? d) && negb (kind_of [TY_STR; TY_ARRAY; TY_STRUCT; TY_UNKNOWN] v)))
           (tc_emit DIAG_WARNING W5001 n true)).
  split; [|apply denotes_skip, denotes_warning].
  unfold bind. rewrite Hp. destruct p; [done|]. by rewrite Hd.
Qed.

(** The value may be returned. *)
Definition admits (n : Node) (v : Ty) (fr : Frame) : Prop :=
  forall ret, fr_ret fr = Some ret ->
    returns_ok ret v = true
    /\ (ty_kind ret = TY_VOID -> n_children n <> [] -> kind_of [TY_UNKNOWN; TY_VOID] v = true).

Lemma denotes_admits n v s :
  dn (match cx_fn_ret s with
      | Some r =>
          if is_kind TY_VOID r && negb (bool_decide (n_children n = [])) && negb (kind_of [TY_UNKNOWN; TY_VOID] v)
          then tc_error E4031 n true
          else when (negb (returns_ok r v)) (emit_mm n)
      | None => ret tt
      end) (fun _ r _ r' => admits n v (fr_of s) /\ r' = r).
Proof.
  unfold admits. cbn [fr_of fr_ret]. destruct (cx_fn_ret s) as [rt0|]; [|by apply denotes_yes].
  unfold is_kind. destruct (bool_decide (ty_kind rt0 = TY_VOID) && _ && _) eqn:E.
  - apply andb_prop in E as [[E1%bool_decide_eq_true E2]%andb_prop E3].
    apply denotes_no; [apply denotes_error|]. intros H. destruct (H rt0 eq_refl) as [_ H'].
    apply negb_true_iff in E2, E3. apply bool_decide_eq_false in E2. rewrite (H' E1 E2) in E3. done.
  - eapply denotes_conseq; [apply denotes_when_error, denotes_error|]. intros fr r u r'. cbn beta.
    rewrite negb_false_iff. split; intros [H ->]; (split; [|done]); [|by apply H].
    intros ? [= <-]. split; [done|]. intros H1 H2. apply andb_false_iff in E as [E|E]; [|by apply negb_false_iff].
    rewrite !bool_decide_true, bool_decide_false in E by done. done.
Qed.

Lemma denotes_return id n :
  fit n -> dn (infer_return src inf id n) (fun fr r t r' => t = mk_type TY_VOID /\ return_rule T fr id n r r').
Proof.
  intros Hn. unfold infer_return, return_rule. eapply denotes_conseq.
  { apply denotes_bind with
      (R := fun fr r v r' => match n_children n with [] => v = mk_type TY_VOID /\ r' = r
                             | c :: _ => T fr r (child_id id 0) c v r' end)
      (K := fun v fr r t r' => admits n v fr /\ t = mk_type TY_VOID /\ r' = r).
    - pose proof (denotes_child id n 0 Hn) as Hch. unfold child in Hch.
      destruct (n_children n) as [|c cs] eqn:Ec; [apply denotes_ret|exact Hch].
    - intros v. apply (denotes_get _ _ _ (fun fr0 _ r t r' => admits n v fr0 /\ t = mk_type TY_VOID /\ r' = r)).
      intros s _. eapply denotes_conseq.
      { eapply denotes_bind; [apply denotes_admits|intros ?].
        eapply denotes_bind; [by apply denotes_escape|intros ?; apply denotes_ret]. }
      intros fr r t r'. cbn beta. split; [by intros (? & ? & [? ->] & ? & ? & -> & -> & ->)|].
      intros (? & -> & ->). exists tt, r. split; [done|]. by exists tt, r. }
  intros fr r t r'. cbn beta. split.
  - intros (v & r1 & ? & ? & -> & ->). split; [done|]. by exists v.
  - intros (-> & v & ? & ?). by exists v, r'.
Qed.

(** ** Matches *)

Section Match.
Context (scr : Ty).

Definition shows (tr : bool) (arm : Node) : bool :=
  has_kind NODE_MATCH_ARM arm && is_kind TY_BOOL scr &&
  match n_children arm with
  | p :: _ => has_kind NODE_BOOL_LIT p && eqb (bytes_eqb (lexeme src 8 p) (bytes_of "true")) tr
  | [] => false
  end.

Definition add_tag (tags : list (list Z)) (x : list Z) : list (list Z) :=
  if zlen tags <? MAX_ARM_TAGS then tags ++ [x] else tags.

(** What the code keeps of arms, their type apart. *)
Definition seen (t : option Ty) (a : Arms) (cs : list Node) : Arms :=
  mkArms t (ar_true a || existsb (shows true) cs) (ar_false a || existsb (shows false) cs)
    (fold_left add_tag (arm_tags src cs) (ar_tags a)).

Lemma denotes_pattern arm a :
  fit arm -> has_kind NODE_MATCH_ARM arm = true ->
  purely (match n_children arm with
            | pat :: _ =>
                do a <- (if is_kind TY_BOOL scr && has_kind NODE_BOOL_LIT pat then
                           do pb <- tokstr src 8 pat;
                           ret (if bytes_eqb pb (bytes_of "true")
                                then mkArms (ar_type a) true (ar_false a) (ar_tags a)
                                else mkArms (ar_type a) (ar_true a) true (ar_tags a))
                         else ret a);
                if has_kind NODE_TYPE_IDENT pat then
                  do tb <- tokstr src 128 pat;
                  ret (if zlen (ar_tags a) <? MAX_ARM_TAGS
                       then mkArms (ar_type a) (ar_true a) (ar_false a) (ar_tags a ++ [tb]) else a)
                else ret a
            | [] => ret a
            end) (fun b => b = seen (ar_type a) a [arm]).
Proof.
  intros Hf Hk. unfold seen, shows, arm_tags. cbn [existsb omap list_omap]. rewrite Hk, !orb_false_r. cbn [andb].
  pose proof (fits_children _ _ Hf) as Hc. destruct Hc as [|p cs Hp _].
  { rewrite !andb_false_r, !orb_false_r. destruct a. apply purely_ret. }
  change ((p :: cs) !! 0%nat) with (Some p). cbn [mbind option_bind].
  eapply purely_then with (a := mkArms (ar_type a)
    (ar_true a || is_kind TY_BOOL scr && (has_kind NODE_BOOL_LIT p && eqb (bytes_eqb (lexeme src 8 p) (bytes_of "true")) true))
    (ar_false a || is_kind TY_BOOL scr && (has_kind NODE_BOOL_LIT p && eqb (bytes_eqb (lexeme src 8 p) (bytes_of "true")) false))
    (ar_tags a)).
  - destruct (is_kind TY_BOOL scr), (has_kind NODE_BOOL_LIT p); cbn [andb];
      try (rewrite !orb_false_r; destruct a; apply purely_ret).
    eapply purely_then; [apply purely_tokstr; [lia|by apply fits_span]|].
    destruct (bytes_eqb (lexeme src 8 p) (bytes_of "true")); cbn [eqb];
      rewrite orb_true_r, orb_false_r; apply purely_ret.
  - destruct (has_kind NODE_TYPE_IDENT p); [|apply purely_ret].
    eapply purely_then; [by apply purely_name|]. cbn [fold_left ar_tags ar_type ar_true ar_false]. unfold add_tag.
    destruct (_ <? _); apply purely_ret.
Qed.

Lemma seen_cons t t' a c cs : seen t (seen t' a [c]) cs = seen t a (c :: cs).
Proof.
  unfold seen. cbn [ar_true ar_false ar_tags existsb]. rewrite !orb_false_r, <- !orb_assoc. f_equal.
  rewrite <- fold_left_app. f_equal. unfold arm_tags. by rewrite <- omap_app.
Qed.

Lemma denotes_arm id i c a :
  fit c -> has_kind NODE_MATCH_ARM c = true ->
  dn (match_arm src inf id scr i c a)
    (fun fr r a' r' => exists u, match n_children c !! 1%nat with
        | Some b => T fr r (child_id (child_id id i) 1) b u r'
        | None => u = mk_type TY_VOID /\ r' = r
        end
      /\ match ar_type a with Some t => clash t u = false | None => True end
      /\ a' = seen (Some (default u (ar_type a))) a [c]).
Proof.
  intros Hf Hk. unfold match_arm. rewrite Hk. cbn [negb].
  eapply denotes_then; [by apply denotes_pattern|].
  assert (Hu : dn (match n_children c with
                   | _ :: _ :: _ => infer_child inf (child_id id i) c 1
                   | _ => void
                   end) (fun fr r u r' => match n_children c !! 1%nat with
                         | Some b => T fr r (child_id (child_id id i) 1) b u r'
                         | None => u = mk_type TY_VOID /\ r' = r end)).
  { pose proof (denotes_child (child_id id i) c 1 Hf) as Hch. unfold child in Hch.
    destruct (n_children c) as [|x [|y cs]]; [apply denotes_ret|apply denotes_ret|exact Hch]. }
  eapply denotes_conseq.
  { apply denotes_bind with (K := fun u _ r a' r' =>
      (match ar_type a with Some t => clash t u = false | None => True end
       /\ a' = seen (Some (default u (ar_type a))) a [c]) /\ r' = r); [exact Hu|intros u].
    unfold seen. cbn [ar_type ar_true ar_false ar_tags]. destruct (ar_type a) as [t|]; cbn [default].
    - destruct (clash t u) eqn:Ec; cbn [when].
      + eapply denotes_conseq; [eapply denotes_error_then; [apply denotes_error|apply denotes_ret]|].
        intros. split; [done|by intros [[? _] _]].
      + eapply denotes_then; [apply purely_ret|]. apply answers_ret. tauto.
    - apply answers_ret. tauto. }
  intros fr r a' r'. cbn beta. split.
  - intros (u & r1 & ? & [? ->] & ->). by exists u.
  - intros (u & ? & ? & ->). by exists u, r'.
Qed.
Lemma denotes_arms id : forall cs i a,
  Forall (fun c => fit c) cs ->
  dn (fold_children (match_arm src inf id scr) i cs a)
    (fun fr r a' r' => exists t, arms_ok T fr id i cs (ar_type a) r t r' /\ a' = seen t a cs).
Proof.
  induction cs as [|c cs IH]; intros i a H; cbn [fold_children].
  { eapply denotes_conseq; [apply denotes_ret|]. intros fr r a' r'.
    assert (Ha : seen (ar_type a) a [] = a) by (unfold seen; cbn; rewrite !orb_false_r; by destruct a).
    split; [intros [-> ->]; exists (ar_type a); split; [constructor|done]|].
    intros (t & H' & ->). inversion H'; subst. by rewrite Ha. }
  apply Forall_cons in H as [Hc H]. destruct (has_kind NODE_MATCH_ARM c) eqn:Ek.
  - eapply denotes_conseq; [apply denotes_bind; [by apply denotes_arm|intros ?; by apply IH]|].
    apply bool_decide_eq_true in Ek. intros fr r a' r'. cbn beta. split.
    + intros (a1 & r1 & (u & Hu & Hcl & ->) & t & Ht & ->). rewrite seen_cons. exists t. split; [|done].
      by eapply arms_arm.
    + intros (t & H' & ->). inversion H' as [| |? ? ? ? ? u r1 ? ? H1 H2 H3 H4]; subst; [done|].
      exists (seen (Some (default u (ar_type a))) a [c]), r1. split; [by exists u|].
      exists t. by rewrite seen_cons.
  - eapply denotes_then with (a := a).
    { unfold match_arm. rewrite Ek. apply purely_ret. }
    eapply denotes_conseq; [by apply IH|]. intros fr r a' r'.
    assert (Ha : forall t, seen t a (c :: cs) = seen t a cs).
    { intros t. unfold seen, shows, arm_tags. cbn [existsb omap list_omap]. by rewrite Ek. }
    apply bool_decide_eq_false in Ek. split.
    + intros (t & Ht & ->). exists t. rewrite Ha. split; [by apply arms_other|done].
    + intros (t & Ht & ->). exists t. rewrite Ha. split; [by inversion Ht|done].
Qed.

Lemma shows_spec tr cs :
  is_kind TY_BOOL scr = true -> existsb (shows tr) cs = true <->
  Exists (fun a => exists x, arm_true src scr a x /\ (x = bytes_of "true" <-> tr = true)) cs.
Proof.
  intros Hs. rewrite existsb_exists, Exists_exists. unfold shows, arm_true. split; intros (c & Hin & H); exists c;
    (split; [by apply list_elem_of_In|]); rewrite Hs in *; cbn [andb] in *.
  - apply andb_prop in H as [[H1%bool_decide_eq_true _]%andb_prop H].
    destruct (n_children c) as [|p ps]; [done|]. apply andb_prop in H as [H2%bool_decide_eq_true H3%eqb_prop].
    exists (lexeme src 8 p). split; [split; [done|]; split; [done|]; by exists p|].
    rewrite <- H3. symmetry. apply bytes_eqb_eq.
  - destruct H as (x & (H1 & _ & p & H2 & H3 & <-) & H4). unfold has_kind. rewrite bool_decide_true by done.
    destruct (n_children c); [done|]. injection H2 as ->. rewrite bool_decide_true by done. cbn [andb].
    rewrite <- bytes_eqb_eq in H4. destruct (bytes_eqb _ _), tr; try done; exfalso; intuition congruence.
Qed.
End Match.

Lemma add_tags l : forall acc, zlen acc <= MAX_ARM_TAGS -> fold_left add_tag l acc = take (Z.to_nat MAX_ARM_TAGS) (acc ++ l).
Proof.
  induction l as [|x l IH]; intros acc Ha; cbn [fold_left].
  - rewrite app_nil_r, take_ge; [done|]. unfold zlen in Ha. lia.
  - unfold add_tag at 2. destruct (zlen acc <? MAX_ARM_TAGS) eqn:E; zb.
    + rewrite IH by (unfold zlen in *; rewrite length_app; cbn; lia). by rewrite <- app_assoc.
    + rewrite IH by done. assert (El : Z.to_nat MAX_ARM_TAGS = length acc) by (unfold zlen in *; lia).
      by rewrite El, !take_app_length.
Qed.

Lemma add_tags0 l : fold_left add_tag l [] = take (Z.to_nat MAX_ARM_TAGS) l.
Proof. by apply (add_tags l []). Qed.

Lemma denotes_match id n :
  fit n -> dn (infer_match src inf id n) (fun fr r t r' => match_rule src T fr id n r t r').
Proof.
  intros Hn. unfold infer_match, match_rule. pose proof (fits_children _ _ Hn) as Hc.
  pose proof (denotes_child id n 0 Hn) as Hch. unfold child in Hch.
  destruct (n_children n) as [|s0 arms]; [apply denotes_ret|]. apply Forall_cons in Hc as [_ Hc].
  eapply denotes_conseq.
  { eapply denotes_bind; [exact Hch|intros scr].
    eapply denotes_bind; [by apply denotes_arms|intros a].
    eapply denotes_bind; [apply denotes_when_error, denotes_error|intros ?].
    eapply denotes_bind; [apply denotes_when_error, denotes_error|intros ?].
    eapply denotes_bind; [apply denotes_when_error, denotes_error|intros ?; apply denotes_ret]. }
  intros fr r t r'. cbn beta.
  assert (Hand : forall b c, b && negb c = false <-> (b = true -> c = true)).
  { intros [] []; cbn; intuition congruence. }
  assert (Ht : forall scr, is_kind TY_BOOL scr = true -> existsb (shows scr true) arms = true <->
             Exists (fun a => arm_true src scr a (bytes_of "true")) arms).
  { intros scr Hs. rewrite shows_spec by done. rewrite !Exists_exists.
    split; intros (c & Hin & H); exists c; (split; [done|]).
    - destruct H as (x & ? & Hx). rewrite (proj2 Hx eq_refl) in *. done.
    - by exists (bytes_of "true"). }
  assert (Hf : forall scr, is_kind TY_BOOL scr = true -> existsb (shows scr false) arms = true <->
             Exists (fun a => exists x, arm_true src scr a x /\ x <> bytes_of "true") arms).
  { intros scr Hs. rewrite shows_spec by done. rewrite !Exists_exists.
    split; intros (c & Hin & x & ? & Hx); exists c; (split; [done|]); exists x; (split; [done|]).
    - intros E. by apply Hx in E.
    - split; [by intros ?|done]. }
  split.
  - intros (scr & r1 & Hs & a & r2 & (o & Ho & ->) & ? & ? & [Hb1 ->] & ? & ? & [Hb2 ->] & ? & ? & [Hst ->] & -> & ->).
    unfold seen in *. cbn [ar_true ar_false ar_tags ar_type orb] in *.
    exists scr, r1, o. rewrite Hand in Hb1, Hb2, Hst. split_and!; [done|done| | |done].
    + intros Hk. rewrite <- Ht, <- Hf by done. auto.
    + intros Hk. rewrite <- add_tags0. auto.
  - intros (scr & r1 & o & Hs & Ho & Hb & Hst & ->).
    exists scr, r1. split; [done|]. exists (seen scr o (mkArms None false false []) arms), r'.
    split; [by exists o|]. unfold seen. cbn [ar_true ar_false ar_tags ar_type orb].
    exists tt, r'. split; [split; [|done]; apply Hand; intros Hk; apply Ht, Hb; done|].
    exists tt, r'. split; [split; [|done]; apply Hand; intros Hk; apply Hf, Hb; done|].
    exists tt, r'. split; [split; [|done]; apply Hand; intros Hk; rewrite add_tags0; by apply Hst|done].
Qed.

(** ** Blocks *)

Lemma denotes_arena_stmt c :
  fit c ->
  dn (check_arena_stmt src scope c) (fun _ r _ r' => (forall ln, n_kind c = NODE_ASSIGN_STMT ->
        n_children c !! 0%nat = Some ln -> n_kind ln = NODE_IDENT -> declared scope (name ln) = None) /\ r' = r).
Proof.
  intros Hf. unfold check_arena_stmt. pose proof (fits_children _ _ Hf) as Hc.
  destruct (n_kind c); try (apply denotes_yes; intros; congruence).
  destruct Hc as [|ln cs Hln _]; [by apply denotes_yes|].
  destruct (has_kind NODE_IDENT ln) eqn:Ek;
    [apply bool_decide_eq_true in Ek|apply bool_decide_eq_false in Ek; apply denotes_yes; by intros ? ? _ [= <-] ?].
  eapply denotes_then; [by apply purely_name|]. unfold declared.
  destruct (tc_lookup scope (name ln)) as [[nm dk [d|]]|] eqn:El.
  - apply denotes_no; [apply denotes_error|]. intros H. specialize (H ln eq_refl eq_refl Ek).
    by rewrite El in H.
  - apply denotes_yes. intros ? ? _ [= <-] _. by rewrite El.
  - apply denotes_yes. intros ? ? _ [= <-] _. by rewrite El.
Qed.

Lemma denotes_all_checked (chk : Node -> TM unit) (P : Node -> Prop) id :
  (forall c, fit c -> dn (chk c) (fun _ r _ r' => P c /\ r' = r)) -> forall cs i u,
  Forall (fun c => fit c) cs ->
  dn (fold_children (fun i c _ => do! chk c; do _ <- inf (child_id id i) c; ret tt) i cs u)
     (fun fr r _ r' => visit_all T fr id i cs r r' /\ Forall P cs).
Proof.
  intros Hchk. induction cs as [|c cs IH]; intros i u H; cbn [fold_children].
  - eapply denotes_conseq; [apply denotes_ret|]. intros fr r [] r'. destruct u.
    split; [intros [_ ->]; split; [by eexists; constructor|done]|intros [(t & H') _]; by inversion H'].
  - apply Forall_cons in H as [Hc H].
    eapply denotes_conseq.
    { eapply denotes_bind; [|intros ?; by apply IH].
      eapply denotes_bind; [by apply Hchk|intros ?].
      eapply denotes_bind; [by apply HT|intros t; apply denotes_ret]. }
    intros fr r [] r'. cbn beta. rewrite Forall_cons. split.
    + intros ([] & r1 & ([] & ? & [? ->] & t1 & r2 & H1 & _ & ->) & (t & H2) & ?). split; [|done].
      destruct (visit_first _ _ _ _ _ _ t1 _ _ _ H2) as (t' & H'). exists t'. by econstructor.
    + intros [(t & H') [? ?]]. inversion H' as [|? ? ? ? ? t1 r1 ? ? Hv Hvs]; subst.
      exists tt, r1. split; [exists tt, r; split; [done|]; by exists t1, r1|].
      split; [|done]. by eapply visit_first.
Qed.

Lemma denotes_arena id n :
  fit n -> dn (infer_arena src scope inf id n) (fun fr r t r' => t = mk_type TY_VOID /\ arena_rule src scope T fr id n r r').
Proof.
  intros Hn. apply denotes_stmt, denotes_in_block. apply denotes_between.
  - intros s []. by split_and!.
  - intros s s1 Hi [? ? Ha ? []]. split_and!; [|done..]. split; try done. cbn in *. lia.
  - apply denotes_all_checked, fits_children; [exact denotes_arena_stmt|done].
Qed.

Lemma denotes_loop id n :
  fit n -> dn (infer_loop inf id n) (fun fr r t r' => t = mk_type TY_VOID /\ visit_all T fr id 0 (n_children n) r r').
Proof. intros Hn. apply denotes_stmt, denotes_in_block. by apply (denotes_from id n 0). Qed.

Lemma denotes_if_stmt id n :
  fit n -> dn (infer_if inf id n) (fun fr r t r' => if_rule T fr id n r t r').
Proof.
  intros Hn. eapply denotes_conseq.
  { apply denotes_bind with (K := fun _ fr r t r' => match n_children n with
       | _ :: th :: rest => exists r2, T fr r (child_id id 1) th t r2 /\ visit_all T fr id 2 rest r2 r'
       | _ => t = mk_type TY_VOID /\ r' = r end); [by apply denotes_child|intros c].
    apply denotes_in_block. pose proof (fits_children _ _ Hn) as Hc.
    destruct (n_children n) as [|c0 [|th rest]]; cbn [drop]; try apply denotes_ret.
    apply Forall_cons in Hc as [_ Hc]. apply Forall_cons in Hc as [Hth Hr].
    eapply denotes_conseq.
    { eapply denotes_bind; [by apply HT|intros t].
      eapply denotes_bind; [by apply denotes_all|intros ?; apply denotes_ret]. }
    intros fr r t r'. cbn beta. split; [by intros (? & r1 & ? & ? & r2 & ? & -> & ->); eauto|].
    intros (r2 & ? & ?). exists t, r2. split; [done|]. by exists tt, r'. }
  intros fr r t r'. cbn beta. unfold if_rule. split; [intros (c & r1 & ? & ?)|intros (c & r1 & ? & ?)]; by exists c, r1.
Qed.

(** ** Lists of statements *)

Lemma denotes_stmts id : forall cs i l,
  Forall (fun c => fit c) cs ->
  dn (infer_stmts inf id i cs l) (fun fr r l' r' => stmts T fr id i cs l r l' r').
Proof.
  induction cs as [|c cs IH]; intros i l H; cbn [infer_stmts].
  { eapply denotes_conseq; [apply denotes_ret|]. intros fr r l' r'. split; [intros [-> ->]; constructor|by inversion 1]. }
  apply Forall_cons in H as [Hc H].
  destruct (has_kind NODE_RETURN_STMT c) eqn:Ek; [apply bool_decide_eq_true in Ek|apply bool_decide_eq_false in Ek].
  - eapply denotes_conseq.
    { apply denotes_bind with (K := fun t _ r l' r' => (cs = [] /\ l' = (t, Some (i, c), true)) /\ r' = r);
        [by apply HT|intros t]. destruct cs as [|c' cs].
      - eapply denotes_then; [apply purely_ret|]. apply answers_ret. tauto.
      - apply answers_error. by intros ? [? _]. }
    intros fr r l' r'. cbn beta. split.
    + intros (t & r1 & ? & [-> ->] & ->). by apply stmts_return.
    + inversion 1; subst; [|done]. by exists t, r'.
  - eapply denotes_conseq; [apply denotes_bind; [by apply HT|intros t; by apply IH]|].
    intros fr r l' r'. cbn beta. split.
    + intros (t & r1 & ? & ?). by eapply stmts_cons.
    + inversion 1; subst; [done|]. eauto.
Qed.

(** [fr0] and [fr] are one frame, read twice. *)
Definition tail_ok (id : NodeId) (t : Ty) (tail : option (nat * Node)) (ret : bool) (fr0 fr : Frame) : Prop :=
  forall i tl res, ret = false -> tail = Some (i, tl) -> is_fn_body (fr_fn fr0) id = true ->
    fr_ret fr = Some res -> kind_of [TY_VOID; TY_UNKNOWN] res = false -> dropped_tail tl t = None.

Lemma denotes_tail id t tail saw s :
  dn (match tail with
      | Some (i, tl) => when (negb saw && is_fn_body (cx_fn_node s) id) (check_tail_expr (child_id id i) tl t)
      | None => ret tt
      end) (fun fr r _ r' => tail_ok id t tail saw (fr_of s) fr /\ r' = r).
Proof.
  assert (Hyes : forall P : Frame -> Prop, (forall fr, P fr) -> dn (ret tt) (fun fr r _ r' => P fr /\ r' = r)).
  { intros P HP. eapply denotes_conseq; [apply denotes_ret|]. intros fr ? [] ?. pose proof (HP fr). tauto. }
  unfold tail_ok. cbn [fr_of fr_fn]. destruct tail as [[i tl]|]; [|by apply Hyes].
  destruct saw; cbn [negb andb when]; [by apply Hyes|].
  destruct (is_fn_body (cx_fn_node s) id); cbn [when]; [|by apply Hyes].
  apply (denotes_get _ _ _ (fun fr _ r _ r' => (forall (i0 : nat) tl0 res, false = false -> Some (i, tl) = Some (i0, tl0) ->
    true = true -> fr_ret fr = Some res -> kind_of [TY_VOID; TY_UNKNOWN] res = false -> dropped_tail tl0 t = None) /\ r' = r)).
  intros s' _. cbn [fr_of fr_ret]. destruct (cx_fn_ret s') as [res|]; [|by apply denotes_yes].
  destruct (kind_of _ res) eqn:Ek; [apply denotes_yes; intros; congruence|].
  destruct (dropped_tail tl t) eqn:Ed.
  - apply denotes_no; [apply denotes_error_once|]. intros H. specialize (H i tl res eq_refl eq_refl eq_refl eq_refl Ek).
    congruence.
  - apply denotes_yes. by intros ? ? ? ? _ [= <- <-] _ [= <-] _.
Qed.

Lemma denotes_stmt_list id n :
  fit n -> dn (infer_stmt_list inf id n) (fun fr r t r' => stmt_list_rule T fr id n r t r').
Proof.
  intros Hn. eapply denotes_conseq.
  { eapply denotes_bind; [by apply denotes_stmts, fits_children|]. intros [[last tail] saw].
    instantiate (1 := fun p fr r t r' => (tail_ok id p.1.1 p.1.2 p.2 fr fr /\ t = p.1.1) /\ r' = r). cbn beta.
    apply (denotes_get _ _ _ (fun fr0 fr r t r' => (tail_ok id last tail saw fr0 fr /\ t = last) /\ r' = r)).
    intros s _. eapply denotes_conseq; [eapply denotes_bind; [apply denotes_tail|intros ?; apply denotes_ret]|].
    intros fr r t r'. cbn beta. split; [by intros (? & ? & [? ->] & -> & ->)|intros [[? ->] ->]; by exists tt, r]. }
  intros fr r t r'. cbn beta. unfold stmt_list_rule, tail_ok. split.
  - intros ([[last tail] saw] & r1 & ? & [? ->] & ->). by exists tail, saw.
  - intros (tail & saw & ? & ?). by exists (t, tail, saw), r'.
Qed.

(** ** Functions *)

Lemma purely_results cs : forall i t0,
  Forall (fun c => fit c) cs ->
  purely (fold_children (fun _ c r =>
    if has_kind NODE_RETURN_SPEC c && negb (bool_decide (n_children c = []))
    then resolve_return_spec rs c else ret r) i cs t0)
    (fun t => exists ts, Forall2 (result_resolves RT)
         (filter (fun c => n_kind c = NODE_RETURN_SPEC /\ n_children c <> []) cs) ts /\ t = List.last ts t0).
Proof.
  induction cs as [|c cs IH]; intros i t0 H; cbn [fold_children].
  { eapply purely_conseq; [apply purely_ret|]. intros t. split; [intros ->; by exists []|].
    intros (ts & Hts & ->). by inversion Hts. }
  apply Forall_cons in H as [Hc H]. rewrite filter_cons. unfold has_kind.
  destruct (bool_decide (n_kind c = NODE_RETURN_SPEC) && negb (bool_decide (n_children c = []))) eqn:E.
  - apply andb_prop in E as [E1%bool_decide_eq_true E2%negb_true_iff%bool_decide_eq_false].
    rewrite decide_True by done. eapply purely_conseq.
    { eapply purely_bind; [by apply (purely_return_spec src _ RT)|intros t _; by apply IH]. }
    intros t. cbn beta.
    assert (Hl : forall (x : Ty) ts d, List.last (x :: ts) d = List.last ts x).
    { intros x ts. revert x. induction ts as [|y ts IHt]; intros x d; [done|].
      change (List.last (y :: ts) d = List.last (y :: ts) x). by rewrite !IHt. }
    split.
    + intros (t1 & ? & ts & ? & ->). exists (t1 :: ts). rewrite Hl. split; [by constructor|done].
    + intros (ts & Hts & ->). inversion Hts as [|? t1 ? ts' ? ?]; subst. exists t1. split; [done|].
      exists ts'. by rewrite Hl.
  - rewrite decide_False; [eapply purely_then; [apply purely_ret|by apply IH]|].
    intros [E1 E2]. by rewrite bool_decide_true, bool_decide_false in E by done.
Qed.

Lemma denotes_pointer_params cs :
  Forall (fun c => fit c) cs ->
  dn (each (fun c => match n_kind c, n_children c with
      | NODE_PARAM, _ :: t :: _ => do pt <- rs t; when (contains_ptr pt) (tc_error E2010 c false)
      | _, _ => ret tt end) cs)
    (fun _ r _ r' => Forall (fun p => match n_children p !! 1%nat with
                      | Some ann => exists t, RT ann t /\ contains_ptr t = false
                      | None => True end) (filter (fun c => n_kind c = NODE_PARAM) cs) /\ r' = r).
Proof.
  induction 1 as [|c cs Hc H IH]; cbn [each]; [by apply denotes_yes|].
  rewrite filter_cons. case_decide as Ek.
  2:{ eapply denotes_then with (a := tt); [|exact IH]. destruct (n_kind c); try done; apply purely_ret. }
  rewrite Ek. eapply denotes_conseq.
  { apply denotes_bind with (R := fun _ r _ r' => match n_children c !! 1%nat with
      | Some ann => exists t, RT ann t /\ contains_ptr t = false | None => True end /\ r' = r);
      [|intros ?; exact IH].
    pose proof (fits_children _ _ Hc) as Hcc. destruct (n_children c) as [|x [|t ts]]; [by apply denotes_yes..|].
    apply Forall_cons in Hcc as [_ Hcc]. apply Forall_cons in Hcc as [Ht _].
    eapply denotes_conseq; [apply denotes_read; [by apply HRT|intros pt _; apply denotes_when_error, denotes_error]|].
    intros fr r u r'. cbn. split; [intros (pt & ? & ? & ->); eauto|intros [(pt & ? & ?) ->]; by exists pt]. }
  intros fr r u r'. cbn beta. rewrite Forall_cons. split.
  - by intros (? & ? & [? ->] & ? & ->).
  - intros [[? ?] ->]. by exists tt, r.
Qed.

Lemma denotes_pointers n t :
  fit n -> dn (check_pointers rs n t) (fun _ r _ r' => pointers_ok RT n t /\ r' = r).
Proof.
  intros Hn. unfold check_pointers, pointers_ok. destruct (existsb _ (n_children n)); [|by apply denotes_yes].
  eapply denotes_conseq.
  { eapply denotes_bind; [by apply denotes_pointer_params, fits_children|intros ?].
    apply denotes_when_error, denotes_error. }
  intros fr r u r'. cbn beta. split; [by intros (? & ? & [? ->] & ? & ->)|].
  intros [H ->]. destruct (H eq_refl). by exists tt, r.
Qed.

Lemma denotes_func id n :
  fit n -> dn (infer_func rs inf id n) (fun fr r t r' => t = mk_type TY_VOID /\ func_rule RT T fr id n r r').
Proof.
  intros Hn. eapply denotes_conseq.
  { eapply denotes_read; [by apply (purely_results (n_children n) 0), fits_children|intros t _].
    eapply denotes_bind; [by apply denotes_pointers|intros ?].
    exact (denotes_function src start t id n _ (fun _ => mk_type TY_VOID) _ Hn (denotes_from id n 0 Hn)). }
  intros fr r t r'. cbn beta. unfold func_rule, results. split.
  - intros (rt0 & (ts & ? & ->) & ? & ? & [? ->] & ? & ? & ->). split; [done|]. eexists. eauto.
  - intros (-> & rt0 & ? & ? & ?). exists rt0. split; [done|]. exists tt, r. split; [done|]. by exists tt.
Qed.

(** ** One step *)

Lemma denotes_spawn id n :
  fit n ->
  dn (do! match n_children n with [] => ret tt | _ => do _ <- infer_child inf id n 0; ret tt end; ret (mk_type TY_I64))
     (fun fr r t r' => t = mk_type TY_I64 /\ exists e, child T fr id n 0 r e r').
Proof.
  intros Hn. pose proof (denotes_child id n 0 Hn) as Hch. unfold child in *.
  eapply denotes_conseq.
  { apply denotes_bind with (R := fun fr r _ r' => exists e, match n_children n !! 0%nat with
        | Some c => T fr r (child_id id 0) c e r' | None => e = mk_type TY_UNKNOWN /\ r' = r end);
      [|intros ?; apply denotes_ret].
    destruct (n_children n) as [|c cs].
    - eapply denotes_conseq; [apply denotes_ret|]. intros ? ? [] ?. split; [intros [_ ->]; by eexists|by intros (? & _ & ->)].
    - eapply denotes_conseq; [apply denotes_bind; [exact Hch|intros ?; apply denotes_ret]|].
      intros fr r [] r'. cbn beta. split; [intros (e & r1 & ? & _ & ->); by exists e|intros (e & ?); by exists e, r']. }
  intros fr r t r'. cbn beta. split; [by intros (? & ? & ? & -> & ->)|intros [-> ?]; by exists tt, r'].
Qed.

Lemma denotes_step id n :
  fit n ->
  dn (infer_impl src scope env root rs inf id n) (fun fr r t r' => rule src scope env root RT T fr r id n t r').
Proof.
  intros Hn. unfold infer_impl, rule. destruct (n_kind n) eqn:Ek; try apply denotes_ret;
    try (by apply TypeRules.denotes_visit, fits_children).
  - by apply denotes_func.
  - by apply denotes_stmt_list.
  - by apply denotes_bind_stmt.
  - by apply denotes_bind_stmt.
  - by apply denotes_assign.
  - by apply denotes_return.
  - by apply denotes_if_stmt.
  - by apply denotes_loop.
  - by apply denotes_arena.
  - by apply denotes_match.
  - by apply denotes_binary.
  - by apply denotes_unary.
  - by apply denotes_call.
  - by apply denotes_cast.
  - by apply denotes_propagate.
  - by apply denotes_index.
  - by apply denotes_field.
  - by apply denotes_ident.
  - by apply denotes_str.
  - by apply denotes_array_lit.
  - by apply denotes_struct_lit.
  - by apply denotes_map_lit.
  - by apply denotes_stmt, (denotes_from id n 0).
  - by apply denotes_spawn.
Qed.

End Statements.

(** ** The walk *)

Section Walk.
Context {rt : Runtime} (src : list Z) (scope : list TDecl) (env : NameEnv) (root : Node).
Context (Hscope : Forall (fun d => forall id def, td_def d = Some (id, def) -> fits src def = true) scope).
Context (Hroot : fits src root = true) (start : Diags).

(** [infer] with [h] calls one in another finds no error exactly where there is
    a derivation of at most this height. *)
Lemma denotes_infer h : forall id n,
  fits src n = true ->
  denotes src start (infer src scope env root h id n)
    (fun fr r t r' => typed src scope env root h fr r id n t r').
Proof.
  induction h as [|h IH]; intros id n Hn; [by split|]. cbn [infer typed].
  apply denotes_memo, denotes_step; try done. intros c Hc. by apply purely_resolve.
Qed.

Lemma denotes_program h :
  denotes src start
    (fold_children (fun i c _ => do _ <- infer src scope env root h (0, [i]) c; ret tt) 0 (n_children root) tt)
    (fun fr r _ r' => visit_all (typed src scope env root h) fr (0, []) 0 (n_children root) r r').
Proof.
  exact (TypeRules.denotes_all src start _ _ (denotes_infer h) (0, []) (n_children root) 0 tt (fits_children _ _ Hroot)).
Qed.
End Walk.
