(* ===== verification/TypeTotal.v ===== *)
(** * When the type checker ends *)

From Stdlib Require Import ZArith Lia String Ascii.
From stdpp Require Import base tactics list gmap.
From S2P Require Import Prelude CStr Diag Lexer Ast Parser ModName Resolve Iface Types.
From S2P Require Import Infer TypeSpec TypeFacts TypeLookup TypeRules TypeStmt.
Open Scope Z_scope.

(** * When the type checker ends: one node

    The walk calls itself on the children of a node, and for a name on the
    initialiser of its binding, wherever that is.  Here is what a rule needs to
    end: that the nodes below end, the annotations, and for a name the initialiser.

    [halts fr m]: in the frame [fr] the command [m] ends with a result.
    [reads m]: it gives one result and changes nothing. *)

(** ** Commands *)

Definition reads {A} (m : TM A) : Prop := exists a, purely m (fun b => b = a).

Lemma reads_value {A} (a : A) : reads (ret a).
Proof. exists a. apply purely_ret. Qed.

Lemma reads_seq {A B} (m : TM A) (k : A -> TM B) : reads m -> (forall a, reads (k a)) -> reads (bind m k).
Proof. intros [a Ha] Hk. destruct (Hk a) as [b Hb]. exists b. by eapply purely_then. Qed.

Lemma reads_then {A B} (m : TM A) a (k : A -> TM B) : purely m (fun b => b = a) -> reads (k a) -> reads (bind m k).
Proof. intros Hm [b Hb]. exists b. by eapply purely_then. Qed.

Section Halts.
Context (src : list Z) (start : Diags).

Definition halts {A} (fr : Frame) (m : TM A) : Prop :=
  forall s, tc_inv src start s -> fr_of s = fr -> exists a s', m s = Ok (a, s') /\ tc_keeps src start s s'.

Lemma halts_ret {A} fr (a : A) : halts fr (ret a).
Proof. intros s Hi Hf. exists a, s. split; [done|by apply tc_keeps_refl]. Qed.

Lemma halts_bind {A B} fr (m : TM A) (k : A -> TM B) :
  halts fr m -> (forall a, halts fr (k a)) -> halts fr (bind m k).
Proof.
  intros Hm Hk s Hi Hf. destruct (Hm s Hi Hf) as (a & s1 & E & K1).
  destruct (Hk a s1 (tk_inv _ _ _ _ K1)) as (b & s2 & E2 & K2); [by rewrite (tk_frame _ _ _ _ K1)|].
  exists b, s2. split; [unfold bind; by rewrite E|]. by eapply tc_keeps_trans.
Qed.

Lemma halts_get {A} fr (k : Ctx -> TM A) :
  (forall s, tc_inv src start s -> fr_of s = fr -> halts fr (k s)) -> halts fr (bind get k).
Proof. intros Hk s Hi Hf. exact (Hk s Hi Hf s Hi Hf). Qed.

Lemma halts_reads {A} fr (m : TM A) : reads m -> halts fr m.
Proof.
  intros [a Ha] s Hi Hf. exists a, s. split; [by apply (pure_complete _ _ Ha)|by apply tc_keeps_refl].
Qed.

(** A command that reads the state as well. *)
Lemma halts_state {A} fr (m : TM A) :
  (forall s, tc_inv src start s -> exists a, m s = Ok (a, s)) -> halts fr m.
Proof. intros H s Hi Hf. destruct (H s Hi) as [a Ha]. exists a, s. split; [done|by apply tc_keeps_refl]. Qed.

(** A command of [TypeFacts] that has a result. *)
Lemma halts_denotes {A} fr (m : TM A) R :
  denotes src start m R -> (forall s, tc_inv src start s -> exists a s', m s = Ok (a, s')) -> halts fr m.
Proof.
  intros Hd H s Hi _. destruct (H s Hi) as (a & s' & E). exists a, s'. split; [done|].
  exact (den_keeps _ _ _ _ Hd _ _ _ Hi E).
Qed.

Lemma halts_cases {A} fr (m : TM A) :
  (forall s, tc_inv src start s -> exists m', m s = m' s /\ halts fr m') -> halts fr m.
Proof. intros H s Hi Hf. destruct (H s Hi) as (m' & E & Hm). rewrite E. by apply Hm. Qed.

Lemma halts_when fr (b : bool) m : halts fr m -> halts fr (when b m).
Proof. destruct b; [done|]. intros _. apply halts_ret. Qed.

Lemma halts_error fr code n f : halts fr (tc_error code n f).
Proof.
  apply (halts_denotes _ _ _ (denotes_error src start code n f)). intros s Hi.
  destruct (error_reported src start code n f s Hi) as (s' & ? & _). by exists tt, s'.
Qed.

Lemma halts_error_once fr code id n f : halts fr (tc_error_once code id n f).
Proof.
  apply (halts_denotes _ _ _ (denotes_error_once src start code id n f)). intros s Hi.
  destruct (error_once_reported src start code id n f s Hi) as (s' & ? & _). by exists tt, s'.
Qed.

Lemma halts_error_or_stop fr code n f (k : TM unit) :
  halts fr k ->
  halts fr (do ok <- tc_can_emit; if negb ok then ret tt else do! tc_emit DIAG_ERROR code n f; k).
Proof.
  intros Hk. apply halts_cases. intros s _.
  destruct (error_or_stop code n f k s) as [E|E]; rewrite E; eexists; (split; [reflexivity|]);
    (apply halts_bind; [apply halts_error|intros ?]); [done|apply halts_ret].
Qed.

Lemma halts_warning fr code n f : halts fr (tc_emit DIAG_WARNING code n f).
Proof. apply (halts_denotes _ _ _ (denotes_warning src start code n f)). intros s _. by eexists _, _. Qed.

Lemma halts_record fr x :
  span_in src x = true -> halts fr (do s <- get; record_bind_depth x (cx_scope_depth s)).
Proof. intros Hx. apply (halts_denotes _ _ _ (denotes_record src start x Hx)). intros s _. by eexists _, _. Qed.

Lemma halts_memo fr id (m : TM Ty) : halts fr m -> halts fr (do t <- m; do! modify (set_rtype id t); ret t).
Proof.
  intros Hm. apply halts_bind; [done|]. intros t. apply halts_bind; [|intros ?; apply halts_ret].
  intros s [] _. exists tt, (set_rtype id t s). split; [done|]. by split.
Qed.

Lemma halts_fold {A} fr (f : nat -> Node -> A -> TM A) cs : forall i a,
  (forall i c a, c ∈ cs -> halts fr (f i c a)) -> halts fr (fold_children f i cs a).
Proof.
  induction cs as [|c cs IH]; intros i a H; cbn [fold_children]; [apply halts_ret|].
  apply halts_bind; [apply H; left|]. intros b. apply IH. intros. apply H. by right.
Qed.

(** A bracket; the command in it runs in another frame. *)
Lemma halts_bracket {A B} fr fr1 (f : Ctx -> Ctx) (g : Ctx -> Ctx -> Ctx) (m : TM A) (p : A -> B) :
  (forall s, tc_inv src start s -> fr_of s = fr -> tc_inv src start (f s) /\ fr_of (f s) = fr1) ->
  (forall s s1, tc_inv src start s -> tc_keeps src start (f s) s1 -> tc_keeps src start s (g s s1)) ->
  halts fr1 m -> halts fr (do s <- get; do! modify f; do a <- m; do! modify (g s); ret (p a)).
Proof.
  intros Hf Hg Hm s Hi E. destruct (Hf s Hi E) as [Hi1 E1].
  destruct (Hm _ Hi1 E1) as (a & s1 & Em & K). exists (p a), (g s s1).
  split; [|by apply Hg]. unfold bind, get, modify, ret. by rewrite Em.
Qed.

Lemma halts_in_block {A} fr (m : TM A) : halts fr m -> halts fr (in_block m).
Proof.
  apply (halts_bracket fr fr (fun s => set_scope (cx_scope_depth s + 1) (cx_bind_count s) s)
           (fun s s' => set_scope (cx_scope_depth s' - 1) (cx_bind_count s) s') m (fun a => a)).
  - by intros s [].
  - intros s s1 Hi [? Hs ? ? []]. split; try done. cbn in *. lia.
Qed.

Lemma halts_deeper {A B} fr (m : TM A) (p : A -> B) :
  halts (deeper fr) m ->
  halts fr (do! modify (add_infer_depth 1); do a <- m; do! modify (add_infer_depth (-1)); ret (p a)).
Proof.
  intros Hm. refine (halts_bracket fr (deeper fr) (add_infer_depth 1) (fun _ => add_infer_depth (-1)) m p _ _ Hm).
  - by intros s [] <-.
  - intros s s1 Hi [Hf ? ? ? []]. split; try done. unfold fr_of in *. cbn in *.
    injection Hf as -> -> Hd. f_equal. lia.
Qed.

Lemma halts_function {A B} fr (t : Ty) id fn (m : TM A) (p : A -> B) :
  fits src fn = true -> halts (mkFrame (Some t) (Some (id, fn)) (fr_depth fr)) m ->
  halts fr (do s <- get;
           do! modify (fun s => set_fn_errors 0 (set_scope 0 0 (set_fn (Some t) (Some (id, fn)) s)));
           do a <- m;
           do! modify (fun s' => set_fn_errors (cx_fn_error_count s)
                 (set_scope (cx_scope_depth s) (cx_bind_count s) (set_fn (cx_fn_ret s) (cx_fn_node s) s')));
           ret (p a)).
Proof.
  intros Hfn Hm.
  refine (halts_bracket fr _ _ (fun s s' => set_fn_errors (cx_fn_error_count s)
            (set_scope (cx_scope_depth s) (cx_bind_count s) (set_fn (cx_fn_ret s) (cx_fn_node s) s'))) m p _ _ Hm).
  - intros s [] <-. split; [|done]. split; cbn; try done. by intros ? ? [= _ <-].
  - intros s s1 [] [Hf Hs Ha Hh []]. split; cbn in *; try done.
    + unfold fr_of in *. cbn in *. injection Hf as _ _ Hd. by rewrite Hd.
    + split; cbn; try done. intros Hc. by apply Hh, ti_first.
Qed.
End Halts.

(** ** Nodes below a node *)

Definition below (n c : Node) : Prop := exists d, d ∈ n_children n /\ c ∈ subnodes d.

Lemma subnodes_self n : n ∈ subnodes n.
Proof. destruct n. left. Qed.

Lemma subnodes_cons n m : m ∈ subnodes n <-> m = n \/ below n m.
Proof.
  assert (H : subnodes n = n :: concat (map subnodes (n_children n))) by by destruct n.
  rewrite H, elem_of_cons. apply or_iff_compat_l. unfold below. rewrite list_elem_of_In, in_concat. split.
  - intros (l & Hl & Hm). apply in_map_iff in Hl as (d & <- & Hd). exists d. by rewrite !list_elem_of_In.
  - intros (d & Hd & Hm). exists (subnodes d). rewrite !list_elem_of_In in *. split; [by apply in_map|done].
Qed.

Lemma below_child n c : c ∈ n_children n -> below n c.
Proof. intros H. exists c. split; [done|apply subnodes_self]. Qed.

Lemma below_nth n i c : n_children n !! i = Some c -> below n c.
Proof. intros H. apply below_child. by eapply list_elem_of_lookup_2. Qed.

Lemma below_grandchild n d c : d ∈ n_children n -> c ∈ n_children d -> below n c.
Proof. intros Hd Hc. exists d. split; [done|]. apply subnodes_cons. right. by apply below_child. Qed.

(** ** One node *)

Section Node.
Context {rt : Runtime} (src : list Z) (scope : list TDecl) (env : NameEnv) (root : Node) (start : Diags).
Context (Hroot : fits src root = true).
Context (rs : Node -> TM Ty) (inf : NodeId -> Node -> TM Ty) (fr : Frame).
(** The nodes it resolves as annotations, and the declarations. *)
Context (ok : Node -> Prop).
Context (ok_fits : forall n, ok n -> fits src n = true).
Context (ok_child : forall n c, ok n -> c ∈ n_children n -> ok c).
Context (ok_calls : forall n, ok n -> n_kind n = NODE_CALL_EXPR -> (length (n_children n) <= 33)%nat).
Context (ok_reads : forall n, ok n -> reads (rs n)).
Context (ok_scope : forall x id def, declared scope x = Some (id, def) -> ok def).
Abbreviation hl := (halts src start fr).

Context (n : Node) (Hn : ok n) (Hinf : forall id c, below n c -> hl (inf id c)).

Lemma ok_children : Forall ok (n_children n).
Proof. apply Forall_forall. intros c. by apply ok_child. Qed.

Lemma reads_tokstr size c : 0 < size -> fits src c = true -> reads (tokstr src size c).
Proof. intros Hs Hc. eexists. apply purely_tokstr; [done|]. by apply fits_span. Qed.

Lemma inf_child id c : c ∈ n_children n -> hl (inf id c).
Proof. intros. by apply Hinf, below_child. Qed.

Lemma halts_child id i : hl (infer_child inf id n i).
Proof.
  unfold infer_child. destruct (n_children n !! i) as [c|] eqn:E; [|apply halts_ret].
  by apply Hinf, (below_nth n i).
Qed.

Lemma halts_walk id cs i u : (forall c, c ∈ cs -> below n c) ->
  hl (fold_children (fun i c _ => do _ <- inf (child_id id i) c; ret tt) i cs u).
Proof.
  intros H. apply halts_fold. intros j c a Hc. apply halts_bind; [by apply Hinf, H|intros ?; apply halts_ret].
Qed.

Lemma halts_from id k : hl (infer_from inf id n k).
Proof.
  apply halts_walk. intros c Hc. apply below_child. rewrite <- (take_drop k (n_children n)). apply elem_of_app. by right.
Qed.

(** Reads, errors, branches and sequences. *)
Ltac step := lazymatch goal with
  | |- hl (ret _) => apply halts_ret
  | |- hl void => apply halts_ret
  | |- hl (bind get _) => apply halts_get; let s := fresh "s" in let Hs := fresh "Hs" in let Ef := fresh "Ef" in intros s Hs Ef
  | |- hl (bind _ _) => apply halts_bind; [|intros ?]
  | |- hl (when _ _) => apply halts_when
  | |- hl (tc_error _ _ _) => apply halts_error
  | |- hl (emit_mm _) => apply halts_error
  | |- hl (tc_error_once _ _ _ _) => apply halts_error_once
  | |- hl (tc_emit _ _ _ _) => apply halts_warning
  | |- hl (infer_child _ _ n _) => apply halts_child
  | |- hl (infer_from _ _ n _) => apply halts_from
  | |- hl (rs _) => apply halts_reads, ok_reads; try assumption
  | |- hl (tokstr _ _ _) => apply halts_reads, reads_tokstr; [lia|try (assumption || (apply ok_fits; assumption))]
  end.
Ltac steps := repeat step.
Ltac branch := match goal with |- hl (if ?b then _ else _) => destruct b end.

Lemma halts_str : n_kind n = NODE_STR_LIT -> hl (do! check_interp_composites src inf n; ret (mk_type TY_STR)).
Proof.
  intros Hk. apply halts_bind; [|intros ?; apply halts_ret]. apply halts_state. intros s _. exists tt.
  by apply plain_literal; [apply ok_fits|].
Qed.

Lemma halts_field_init st b id fi : ok fi -> hl (check_field_init src st b id fi).
Proof.
  intros Hf. unfold check_field_init. destruct (_ || (n_tok_len fi <=? 0)); steps.
  branch; steps.
Qed.

Lemma halts_struct_lit id : hl (infer_struct_lit src env rs inf id n).
Proof.
  unfold infer_struct_lit. steps. apply halts_fold. intros i fi u Hfi.
  destruct (has_kind NODE_FIELD_INIT fi); steps.
  - destruct (n_children fi) as [|v vs] eqn:E; steps. apply Hinf, (below_grandchild n fi); [done|]. rewrite E. left.
  - apply halts_field_init. by apply (ok_child n).
Qed.

Lemma halts_array_lit id : hl (infer_array_lit inf id n).
Proof. unfold infer_array_lit. steps. Qed.

Lemma halts_entry_child id i entry : entry ∈ n_children n -> hl (infer_child inf id entry i).
Proof.
  intros He. unfold infer_child. destruct (n_children entry !! i) as [c|] eqn:E; steps.
  apply Hinf, (below_grandchild n entry); [done|]. by eapply list_elem_of_lookup_2.
Qed.

Lemma halts_map_lit id : hl (infer_map_lit inf id n).
Proof.
  unfold infer_map_lit. apply halts_bind; [|intros kv; destruct (default _ kv); steps].
  apply halts_fold. intros i entry kv He. destruct (has_kind NODE_MAP_ENTRY entry); steps;
    try by apply halts_entry_child. destruct kv as [[kt vt]|]; steps.
Qed.

Lemma halts_unary id : hl (infer_unary inf id n).
Proof. unfold infer_unary. steps. repeat (case_match; steps). Qed.

Lemma halts_binary id : hl (infer_binary inf id n).
Proof.
  unfold infer_binary, infer_operands, infer_logic, infer_bitwise, infer_modulo, infer_arith_cmp, mismatch, emit_mm.
  steps. cbv zeta. repeat (branch; steps).
Qed.

Lemma halts_cast id : hl (infer_cast rs inf id n).
Proof.
  unfold infer_cast. pose proof ok_children as Hc. destruct (n_children n) as [|v [|to cs]]; steps.
  inversion Hc as [|? ? ? Hc']. by inversion Hc'.
Qed.

Lemma halts_propagate id : hl (infer_propagate inf id n).
Proof.
  unfold infer_propagate. steps. branch; steps.
Qed.

Lemma halts_index id : hl (infer_index env inf id n).
Proof.
  unfold infer_index, type_error. steps. repeat (branch; steps).
Qed.

Lemma halts_field_of id base fname : hl (infer_field_of id n base fname).
Proof.
  unfold infer_field_of, field_error. repeat (branch; steps). destruct (field_of _ _); steps.
Qed.

Lemma halts_field id : hl (infer_field src rs inf id n).
Proof.
  unfold infer_field. pose proof ok_children as Hc. steps.
  destruct (n_children n) as [|b [|f cs]]; steps.
  - apply ok_fits. by apply Forall_cons in Hc as [_ [? _]%Forall_cons].
  - apply Forall_cons in Hc as [Hb _]. branch; steps; try apply halts_field_of; try done.
    branch; [|apply halts_field_of]. unfold field_error. steps.
Qed.

(** ** Calls *)

Lemma spec_ok fn spec : ok fn -> ret_spec fn = Some spec -> ok spec.
Proof.
  intros Hf H. unfold ret_spec in H. apply find_some in H as [H _]. apply list_elem_of_In in H.
  by apply (ok_child fn).
Qed.

Lemma reads_return_spec spec : ok spec -> reads (resolve_return_spec rs spec).
Proof.
  intros Hs. unfold resolve_return_spec.
  assert (Hc : forall c, c ∈ n_children spec -> reads (rs c)) by (intros; by apply ok_reads, (ok_child spec)).
  destruct (n_children spec) as [|s [|e cs]]; [apply reads_value|apply Hc; left|].
  apply reads_seq; [apply Hc; left|intros t]. apply reads_seq; [apply Hc; right; left|intros t'].
  apply reads_value.
Qed.

Lemma reads_declared_ret fn : ok fn -> reads (declared_ret rs fn).
Proof.
  intros Hf. unfold declared_ret. fold (ret_spec fn). destruct (ret_spec fn) as [spec|] eqn:E; [|apply reads_value].
  by apply reads_return_spec, (spec_ok fn).
Qed.

Lemma halts_check_args id : forall ps args i,
  Forall ok ps -> (forall a, a ∈ args -> below n a) -> hl (check_args rs inf id i ps args).
Proof.
  induction ps as [|p ps IH]; intros [|a args] i Hp Ha; cbn [check_args]; steps.
  - apply Hinf, Ha. left.
  - apply Forall_cons in Hp as [Hp _]. destruct (n_children p) as [|x [|t cs]] eqn:E; steps.
    apply (ok_child p); [done|]. rewrite E. right. left.
  - apply IH; [by apply Forall_cons in Hp as [_ ?]|]. intros. apply Ha. by right.
Qed.

Lemma halts_std_args id mask : forall args a,
  Forall ok args -> (a + length args <= 32)%nat -> hl (std_args src root id mask (S a) args).
Proof.
  induction args as [|arg args IH]; intros a H Hl; cbn [std_args length] in *; steps.
  apply Forall_cons in H as [Ha H]. rewrite (proj2 (Z.leb_gt _ _)) by lia.
  assert (Hr : hl (std_args src root id mask (S (S a)) args)) by (apply IH; [done|lia]).
  branch; [|done]. apply halts_bind.
  - apply halts_state. intros s _. eexists. apply arg_type_reads; [done|by apply ok_fits].
  - intros t. branch; [done|]. by apply halts_error_or_stop.
Qed.

Lemma halts_std_check id :
  n_kind n = NODE_CALL_EXPR -> hl (check_std_str_args src root id n).
Proof.
  intros Hk. unfold check_std_str_args. apply halts_bind.
  - apply halts_reads. eexists. apply purely_std_sig; [done|by apply ok_fits].
  - intros [sg|]; steps. apply halts_std_args; [by apply Forall_drop, ok_children|].
    pose proof (ok_calls n Hn Hk). rewrite length_drop. lia.
Qed.

Lemma halts_tki_check : hl (check_tki_call src scope env root n).
Proof.
  unfold check_tki_call. destruct (member_call n) as [[a m]|] eqn:E; steps.
  1-2: destruct (member_call_fits src n a m (ok_fits _ Hn) E) as [? ?]; assumption.
  - apply halts_reads. eexists. by apply purely_module.
  - destruct (_ : option (list Z)) as [mpath|]; steps. branch; steps. destruct (tki_call_error _ _ _ _ _); steps.
Qed.

Lemma halts_call id : n_kind n = NODE_CALL_EXPR -> hl (infer_call src scope env root rs inf id n).
Proof.
  intros Hk. unfold infer_call. pose proof ok_children as Hc. pose proof (halts_std_check id Hk) as Hstd.
  pose proof halts_tki_check as Htki. pose proof (halts_from id 1) as Hfrom.
  assert (Hargs : forall a, a ∈ drop 1 (n_children n) -> below n a).
  { intros a Ha. apply below_child. rewrite <- (take_drop 1 (n_children n)). apply elem_of_app. by right. }
  destruct (n_children n) as [|callee args]; [steps|]. apply Forall_cons in Hc as [Hcal _]. steps.
  assert (H : forall fn, ok fn -> hl (if negb (zlen args =? zlen (params fn)) then
        do! tc_error E4026 n true; do! infer_from inf id n 1; declared_ret rs fn
      else do! check_args rs inf id 1 (params fn) args; declared_ret rs fn)).
  { intros fn Hfn. branch; steps; try (by apply halts_reads, reads_declared_ret).
    apply halts_check_args; [|done]. apply Forall_forall. intros p [_ Hp]%list_elem_of_filter. by apply (ok_child fn). }
  destruct (tc_lookup scope a) as [[nm dk [[did def]|]]|] eqn:E; steps; try done.
  destruct (has_kind NODE_FUNC_DECL def); steps; try done. apply H, (ok_scope a did). unfold declared. by rewrite E.
Qed.

(** ** Statements *)

Lemma halts_bind_stmt id : hl (infer_bind rs inf id n).
Proof.
  unfold infer_bind. pose proof ok_children as Hc. pose proof inf_child as Hi.
  destruct (n_children n) as [|x cs]; [steps|]. apply Forall_cons in Hc as [Hx Hc].
  assert (Hrec : hl (do s <- get; record_bind_depth x (cx_scope_depth s))).
  { by apply halts_record, fits_span, ok_fits. }
  destruct cs as [|y cs]; [|apply Forall_cons in Hc as [Hy _]; destruct cs as [|z cs]];
    (apply halts_bind; [steps; apply Hi; set_solver|intros ?]);
    (apply halts_bind; [exact Hrec|intros ?; steps]).
Qed.

Lemma fn_fits s fid fn : tc_inv src start s -> cx_fn_node s = Some (fid, fn) -> fits src fn = true.
Proof. intros Hi E. exact (ti_fn _ _ _ Hi _ _ E). Qed.

Lemma halts_assign id : hl (infer_assign src inf id n).
Proof.
  unfold infer_assign. apply halts_bind; [|intros []; steps].
  apply (halts_denotes _ _ _ _ _ (denotes_immutable src start n (ok_fits _ Hn))). intros s Hi.
  unfold immutable_target, bind at 1, get. pose proof ok_children as Hc. destruct (n_children n) as [|t cs]; [by eexists _, _|].
  apply Forall_cons in Hc as [Ht _]. destruct (cx_fn_node s) as [[fid fn]|] eqn:Ef; [|by eexists _, _].
  pose proof (fn_fits _ _ _ Hi Ef) as Hfn.
  destruct (has_kind NODE_IDENT t); [|by eexists _, _].
  assert (Hr : reads (do nb <- tokstr src 256 t; do p <- spells_param src nb (n_children fn);
           if (p : bool) then ret true
           else do bk <- find_binding_kind src nb fn; ret (bool_decide (bk = Some NODE_BIND_STMT)))).
  { apply reads_seq; [apply reads_tokstr; [lia|by apply ok_fits]|intros nb].
    apply reads_seq; [eexists; by apply purely_spells, fits_children|intros []; [apply reads_value|]].
    apply reads_seq; [eexists; by apply purely_find_kind|intros ?; apply reads_value]. }
  destruct Hr as [b Hb]. exists b, s. by apply (pure_complete _ _ Hb).
Qed.

Lemma halts_escape v : hl (check_escape src n v).
Proof.
  unfold check_escape. pose proof ok_children as Hc. destruct (n_children n) as [|x cs]; steps. branch; steps.
  - apply ok_fits. by apply Forall_cons in Hc as [? _].
  - apply halts_state. intros s Hi. unfold is_param, bind, get.
    destruct (cx_fn_node s) as [[fid fn]|] eqn:Ef; [|by exists false].
    destruct (param_named_reads src a (n_children fn)) as [b Hb]; [by eapply fits_children, fn_fits|by exists b].
  - branch; steps. apply halts_state. intros s Hi. unfold lookup_bind_depth, bind, get.
    edestruct (last_bind_reads src a) as [d Hd]; [|exists d; apply Hd].
    apply Forall_rev, Forall_take, (ti_binds _ _ _ Hi).
Qed.

Lemma halts_return id : hl (infer_return src inf id n).
Proof.
  unfold infer_return. apply halts_bind; [branch; steps|intros v]. steps; [|apply halts_escape].
  destruct (cx_fn_ret _); [|steps]. branch; steps.
Qed.

Lemma halts_match id : hl (infer_match src inf id n).
Proof.
  unfold infer_match. pose proof ok_children as Hc. pose proof below_grandchild as Hb.
  destruct (n_children n) as [|s0 arms] eqn:En; steps. apply halts_fold. intros i arm b Harm.
  assert (Hin : arm ∈ n_children n) by (rewrite En; by right).
  apply Forall_cons in Hc as [_ Hc]. rewrite Forall_forall in Hc. specialize (Hc arm Harm).
  unfold match_arm. destruct (has_kind NODE_MATCH_ARM arm) eqn:Ek; cbn [negb]; steps.
  - apply halts_reads. eexists. by apply denotes_pattern; [apply ok_fits|].
  - destruct (n_children arm) as [|x [|y cs]]; steps. by apply halts_entry_child.
  - destruct (ar_type _); steps.
Qed.

Lemma halts_arena id : hl (infer_arena src scope inf id n).
Proof.
  unfold infer_arena. steps. apply halts_in_block.
  assert (Hm : hl (fold_children (fun i c _ => do! check_arena_stmt src scope c; do _ <- inf (child_id id i) c; ret tt)
                     0 (n_children n) tt)).
  { apply halts_fold. intros i c u Hc. pose proof (ok_child n c Hn Hc) as Hok. steps; [|by apply inf_child].
    unfold check_arena_stmt. pose proof (ok_fits c Hok) as Hf. apply fits_children in Hf.
    destruct (n_kind c); steps. destruct (n_children c) as [|ln cs]; steps. branch; steps.
    - by apply Forall_cons in Hf as [? _].
    - destruct (tc_lookup scope _) as [[nm dk [d|]]|]; steps. }
  apply halts_cases. intros s _.
  exists (do s <- get; do! modify (add_arena_depth 1);
          do u <- fold_children (fun i c _ => do! check_arena_stmt src scope c; do _ <- inf (child_id id i) c; ret tt)
                     0 (n_children n) tt; do! modify (add_arena_depth (-1)); ret u).
  split; [unfold bind, modify, get, ret; by destruct (fold_children _ _ _ _ _) as [[[] ?]| |]|].
  refine (halts_bracket src start fr fr _ (fun _ => add_arena_depth (-1)) _ (fun u => u) _ _ Hm).
  - by intros s' [] <-.
  - intros s' s1 Hi [? ? Ha ? []]. split; try done. cbn in *. lia.
Qed.

Lemma halts_loop id : hl (infer_loop inf id n).
Proof. unfold infer_loop. steps. apply halts_in_block. steps. Qed.

Lemma halts_if id : hl (infer_if inf id n).
Proof.
  unfold infer_if. steps. apply halts_in_block. pose proof inf_child as Hi. pose proof below_child as Hb.
  specialize (Hb n). destruct (n_children n) as [|c0 [|th rest]]; cbn [drop]; steps.
  - apply Hi. set_solver.
  - apply halts_walk. intros c Hc. apply Hb. set_solver.
Qed.

Lemma halts_stmts id : forall cs i l, (forall c, c ∈ cs -> below n c) -> hl (infer_stmts inf id i cs l).
Proof.
  induction cs as [|c cs IH]; intros i l H; cbn [infer_stmts]; steps; [apply Hinf, H; left|].
  branch; [destruct cs; steps|]. apply IH. intros. apply H. by right.
Qed.

Lemma halts_stmt_list id : hl (infer_stmt_list inf id n).
Proof.
  unfold infer_stmt_list. apply halts_bind; [apply halts_stmts; intros; by apply below_child|].
  intros [[last tail] saw]. steps. destruct tail as [[i tl]|]; steps. unfold check_tail_expr. steps.
  destruct (cx_fn_ret _); steps. branch; steps. destruct (dropped_tail tl last); steps.
Qed.

Lemma halts_spawn id :
  hl (do! match n_children n with [] => ret tt | _ => do _ <- infer_child inf id n 0; ret tt end; ret (mk_type TY_I64)).
Proof. steps. destruct (n_children n); steps. Qed.

(** ** Functions *)

Lemma reads_func_ret cs : forall i t, Forall ok cs -> reads (fold_children (fun _ c r =>
    if has_kind NODE_RETURN_SPEC c && negb (bool_decide (n_children c = []))
    then resolve_return_spec rs c else ret r) i cs t).
Proof.
  induction cs as [|c cs IH]; intros i t H; cbn [fold_children]; [apply reads_value|].
  apply Forall_cons in H as [Hc H]. apply reads_seq; [|intros; by apply IH].
  destruct (_ && _); [by apply reads_return_spec|apply reads_value].
Qed.

Lemma halts_pointers t : hl (check_pointers rs n t).
Proof.
  unfold check_pointers. branch; steps. pose proof ok_children as H. revert H.
  generalize (n_children n). induction l as [|c cs IH]; intros H; cbn [each]; steps;
    apply Forall_cons in H as [Hc H]; [|by apply IH].
  destruct (n_kind c); steps. pose proof (ok_child c) as Hch. destruct (n_children c) as [|x [|ann ts]]; steps.
  apply Hch; [done|]. right. left.
Qed.

Lemma halts_func id :
  (forall t i c, c ∈ n_children n ->
     halts src start (mkFrame (Some t) (Some (id, n)) (fr_depth fr)) (inf (child_id id i) c)) ->
  hl (infer_func rs inf id n).
Proof.
  intros Hbody. unfold infer_func, func_ret.
  apply halts_bind; [apply halts_reads, reads_func_ret, ok_children|intros t].
  apply halts_bind; [apply halts_pointers|intros _].
  refine (halts_function src start fr t id n (infer_from inf id n 0) (fun _ => mk_type TY_VOID) (ok_fits n Hn) _).
  apply halts_fold. intros i c u Hc. apply halts_bind; [by apply Hbody|intros ?; apply halts_ret].
Qed.

(** ** Names *)

Lemma reads_call_type call : ok call -> reads (call_decl_ret_type src scope env rs call).
Proof.
  intros Hc. unfold call_decl_ret_type. destruct (member_call call) as [[a m]|] eqn:E.
  { destruct (member_call_fits src call a m (ok_fits _ Hc) E) as [Ha Hm].
    apply reads_seq; [by apply reads_tokstr|intros ?]. apply reads_seq; [by apply reads_tokstr|intros ?].
    apply reads_value. }
  pose proof (ok_child call) as Hch. destruct (n_children call) as [|callee cs]; [apply reads_value|].
  apply reads_seq; [apply reads_tokstr; [lia|]; apply ok_fits, Hch; [done|left]|intros x].
  destruct (tc_lookup scope x) as [[nm dk [[id fn]|]]|] eqn:El; try apply reads_value.
  destruct (has_kind NODE_FUNC_DECL fn); [|apply reads_value]. fold (ret_spec fn).
  destruct (ret_spec fn) as [spec|] eqn:Es; [|apply reads_value].
  apply reads_seq; [|intros ?; apply reads_value]. apply reads_return_spec, (spec_ok fn); [|done].
  apply (ok_scope x id). unfold declared. by rewrite El.
Qed.

(** What the initialiser of a binding without annotation asks for. *)
Definition init_halts (bid : NodeId) (bn : Node) : Prop :=
  forall x init, n_children bn = [x; init] ->
  match n_kind init with
  | NODE_IDENT => fr_depth fr < MAX_BIND_INFER_DEPTH -> halts src start (deeper fr) (inf (child_id bid 1) init)
  | NODE_STRUCT_LIT | NODE_FIELD_EXPR | NODE_MAP_LIT => hl (inf (child_id bid 1) init)
  | _ => True
  end.

Lemma halts_binding bid bn : ok bn -> init_halts bid bn -> hl (binding_type src scope env rs inf bid bn).
Proof.
  intros Hb Hi. unfold binding_type, init_halts in *. pose proof (ok_child bn) as Hch.
  destruct (n_children bn) as [|x [|init [|z cs]]] eqn:Ec; steps; [|apply Hch; [done|right; left]].
  specialize (Hi x init eq_refl). unfold bind_init_type. rewrite Ec.
  destruct (n_kind init); steps; try exact Hi.
  - apply halts_reads, reads_call_type, Hch; [done|right; left].
  - rewrite <- Ef in Hi. cbn [fr_of fr_depth] in Hi.
    destruct (MAX_BIND_INFER_DEPTH <=? cx_bind_infer_depth s) eqn:E; [by apply halts_ret|]. zb.
    apply (halts_deeper src start fr). rewrite <- Ef. by apply Hi.
Qed.

Lemma reads_param_type x cs : Forall ok cs -> reads (param_type src rs x cs).
Proof.
  induction 1 as [|c cs Hc H IH]; cbn [param_type]; [apply reads_value|]. destruct (n_kind c); try done.
  pose proof (ok_child c) as Hch. destruct (n_children c) as [|pn rest]; [done|].
  apply reads_seq; [apply reads_tokstr; [lia|]; apply ok_fits, Hch; [done|left]|intros y].
  destruct rest as [|t ts]; [done|]. destruct (bytes_eqb y x); [|done].
  apply reads_seq; [|intros ?; apply reads_value]. apply ok_reads, Hch; [done|right; left].
Qed.

Lemma halts_read {A B} (m : TM A) a (k : A -> TM B) :
  purely m (fun b => b = a) -> hl (k a) -> hl (bind m k).
Proof.
  intros Hm Hk. apply halts_cases. intros s _. exists (k a). split; [|done].
  unfold bind. by rewrite (pure_complete _ _ Hm s a eq_refl).
Qed.

Lemma halts_ident :
  (forall x did def, declared scope x = Some (did, def) -> is_bind def = false) ->
  (forall fid fn, fr_fn fr = Some (fid, fn) -> ok fn) ->
  (forall fid fn bid bn, fr_fn fr = Some (fid, fn) -> first_binding src (lexeme src 128 n) fid fn = Some (bid, bn) ->
     is_bind bn = true -> ok bn /\ init_halts bid bn) ->
  hl (infer_ident src scope env rs inf n).
Proof.
  intros Hdecl Hfn Hbn. unfold infer_ident.
  eapply halts_read; [apply purely_tokstr; [lia|]; by apply fits_span, ok_fits|].
  set (x := lexeme src 128 n) in *. pose proof (Hdecl x) as Hd. pose proof (ok_scope x) as Hs. unfold declared in Hd, Hs.
  assert (Hl : hl (local_type src scope env rs inf x)).
  { unfold local_type. steps. rewrite <- Ef in Hfn, Hbn. cbn in Hfn, Hbn.
    destruct (cx_fn_node s) as [[fid fn]|]; steps; specialize (Hfn fid fn eq_refl).
    - apply halts_reads, reads_param_type, Forall_forall. intros c. by apply ok_child.
    - destruct a; [by steps|]. eapply halts_read; [apply purely_find_node; by apply ok_fits|].
      destruct (first_binding src x fid fn) as [[bid bn]|] eqn:E; steps. destruct (is_bind bn) eqn:Eb; steps.
      pose proof (Hbn fid fn bid bn eq_refl E Eb) as [? ?]. by apply halts_binding. }
  destruct (tc_lookup scope x) as [[nm dk [[did def]|]]|]; cbn in *; [|by steps..].
  specialize (Hd did def eq_refl). specialize (Hs did def eq_refl). unfold def_type. rewrite Hd. steps.
  destruct a; steps. destruct (n_kind def); steps. pose proof (ok_child def) as Hch.
  destruct (n_children def) as [|y [|t cs]]; steps. apply Hch; [done|]. right. left.
Qed.
(** The names it may stand for. *)
Definition name_halts : Prop :=
  (forall x did def, declared scope x = Some (did, def) -> is_bind def = false)
  /\ (forall fid fn, fr_fn fr = Some (fid, fn) -> ok fn)
  /\ (forall fid fn bid bn, fr_fn fr = Some (fid, fn) -> first_binding src (lexeme src 128 n) fid fn = Some (bid, bn) ->
       is_bind bn = true -> ok bn /\ init_halts bid bn).

Lemma halts_step id :
  n_kind n <> NODE_FUNC_DECL -> (n_kind n = NODE_IDENT -> name_halts) ->
  hl (infer_impl src scope env root rs inf id n).
Proof.
  intros Hk Hx. assert (Hvisit : hl (fold_children (fun i c _ => inf (child_id id i) c) 0 (n_children n) (mk_type TY_VOID))).
  { apply halts_fold. intros i c _ Hc. by apply inf_child. }
  unfold infer_impl. destruct (n_kind n) eqn:Ek; try done; try exact Hvisit; try (by steps).
  - apply halts_stmt_list.
  - apply halts_bind_stmt.
  - apply halts_bind_stmt.
  - apply halts_assign.
  - apply halts_return.
  - apply halts_if.
  - apply halts_loop.
  - apply halts_arena.
  - apply halts_match.
  - apply halts_binary.
  - apply halts_unary.
  - by apply halts_call.
  - apply halts_cast.
  - apply halts_propagate.
  - apply halts_index.
  - apply halts_field.
  - destruct (Hx eq_refl) as (? & ? & ?). by apply halts_ident.
  - by apply halts_str.
  - apply halts_array_lit.
  - apply halts_struct_lit.
  - apply halts_map_lit.
  - apply halts_spawn.
Qed.
End Node.

(** * When the type checker ends: orders

    A type resolves when the types its fields name come behind it in an order; a
    local name when those of its initialiser do.  An initialiser that is a name
    needs no order, for there the code counts to 8.  The fuel follows from the
    lengths of the orders and the height of the tree. *)

(** ** Ranks and heights *)

(** How many names there are from [x] on; 0 when it is not in the order. *)
Fixpoint rank (l : list (list Z)) (x : list Z) : nat :=
  match l with
  | [] => O
  | y :: l' => if bytes_eqb y x then length l else rank l' x
  end.

Lemma rank_le l x : (rank l x <= length l)%nat.
Proof. induction l as [|y l IH]; cbn; [done|]. destruct (bytes_eqb y x); lia. Qed.

Fixpoint height (n : Node) : nat := S (list_max (map height (n_children n))).

Lemma height_pos n : (0 < height n)%nat.
Proof. destruct n. cbn. lia. Qed.

Lemma list_max_in x l : x ∈ l -> (x <= list_max l)%nat.
Proof.
  intros H. pose proof (proj1 (list_max_le l (list_max l)) (le_n _)) as Hl.
  rewrite Forall_forall in Hl. by apply Hl.
Qed.

Lemma height_child n c : c ∈ n_children n -> (height c < height n)%nat.
Proof.
  intros H. destruct n as [k st ln col ts tl op cap cs]. cbn [height n_children] in *.
  assert (height c <= list_max (map height cs))%nat; [|lia].
  apply list_max_in, list_elem_of_In, in_map, list_elem_of_In, H.
Qed.

Lemma height_subnode n : forall m, m ∈ subnodes n -> (height m <= height n)%nat.
Proof.
  induction n as [n IH] using node_ind'. intros m [->|(c & Hc & Hm)]%subnodes_cons; [done|].
  rewrite Forall_forall in IH. apply (IH c Hc) in Hm. apply height_child in Hc. lia.
Qed.

Lemma height_below n c : below n c -> (height c < height n)%nat.
Proof. intros (d & Hd & Hc). apply height_child in Hd. apply height_subnode in Hc. lia. Qed.

Lemma subnodes_trans n : forall m, m ∈ subnodes n -> forall c, c ∈ subnodes m -> c ∈ subnodes n.
Proof.
  induction n as [n IH] using node_ind'. intros m [->|(d & Hd & Hm)]%subnodes_cons c Hc; [done|].
  rewrite Forall_forall in IH. apply subnodes_cons. right. exists d. split; [done|]. by apply (IH d Hd m).
Qed.

Lemma below_trans n m c : below n m -> c ∈ subnodes m -> below n c.
Proof. intros (d & Hd & Hm) Hc. exists d. split; [done|]. by apply (subnodes_trans d m). Qed.

Lemma below_subnodes n m c : m ∈ subnodes n -> below m c -> below n c.
Proof.
  intros [->|H]%subnodes_cons Hc; [done|]. apply (below_trans n m c H). apply subnodes_cons. by right.
Qed.

(** ** Orders *)

(** An order of the types, and one for the names of each function. *)
Record Order := mkOrder { o_types : list (list Z); o_locals : list (list (list Z)) }.

Section Order.
Context (src : list Z) (scope : list TDecl) (root : Node) (o : Order).

Definition definitions : list Node := omap (fun d => option_map snd (td_def d)) scope.
Definition nodes : list Node := concat (map subnodes (root :: definitions)).

(** The declared types a node names come behind [r]. *)
Definition names_behind (r : nat) (n : Node) : bool :=
  forallb (fun m => match type_decl scope (lexeme src 128 m) with
                    | Some _ => bool_decide (rank (o_types o) (lexeme src 128 m) < r)%nat
                    | None => true
                    end) (subnodes n).

(** The types of the fields of a type come behind it. *)
Definition types_ordered : bool :=
  forallb (fun d => match type_decl scope (td_name d) with
    | Some decl =>
        forallb (fun f => match n_children f with
                          | c :: _ => names_behind (rank (o_types o) (td_name d)) c
                          | [] => true
                          end) (decl_fields decl)
    | None => true
    end) scope.

(** The names in an expression come behind [r]. *)
Definition locals_behind (l : list (list Z)) (r : nat) (n : Node) : bool :=
  forallb (fun m => negb (has_kind NODE_IDENT m) || bool_decide (rank l (lexeme src 128 m) < r)%nat) (subnodes n).

(** The initialisers a binding is typed by, without annotation and without count. *)
Definition inits : list NodeKind := [NODE_STRUCT_LIT; NODE_FIELD_EXPR; NODE_MAP_LIT].

(** The names in such an initialiser come behind the name it initialises. *)
Definition locals_ordered (fn : Node) (l : list (list Z)) : bool :=
  forallb (fun bn => match n_children bn with
    | [x; init] =>
        negb (is_bind bn && bool_decide (n_kind init ∈ inits)) || locals_behind l (rank l (text src x)) init
    | _ => true
    end) (subnodes fn).

Definition no_function (n : Node) : bool := forallb (fun m => negb (has_kind NODE_FUNC_DECL m)) (subnodes n).

(** The orders are right, calls have at most 32 arguments, the module declares no
    variables, and there are no functions in its declarations. *)
Definition ordered : bool :=
  types_ordered
  && forallb (fun fn => negb (has_kind NODE_FUNC_DECL fn) || existsb (locals_ordered fn) (o_locals o)) (n_children root)
  && forallb (fun n => negb (has_kind NODE_CALL_EXPR n) || bool_decide (length (n_children n) <= 33)%nat) nodes
  && forallb (fun d => negb (is_bind d)) definitions
  && forallb (fun d => forallb no_function (n_children d)) (n_children root).

(** The fuel: the height of the tree for each step through a name. *)
Definition heights : nat := list_max (map height (root :: definitions)).
Definition types_fuel : nat := heights + S (length (o_types o)) * heights.
Definition ranks : nat := S (list_max (map length (o_locals o))).
Definition check_fuel : nat := heights + 9 * ranks * heights + types_fuel.

(** ** The nodes of a program *)

Definition ok (n : Node) : Prop := n ∈ nodes.

Lemma ok_spec n : ok n <-> exists t, (t = root \/ t ∈ definitions) /\ n ∈ subnodes t.
Proof.
  unfold ok, nodes. rewrite list_elem_of_In, in_concat. split.
  - intros (l & (t & <- & Ht)%in_map_iff & Hn). exists t.
    split; [by apply list_elem_of_In, elem_of_cons in Ht|by apply list_elem_of_In].
  - intros (t & Ht & Hn). exists (subnodes t). split; [|by apply list_elem_of_In].
    apply in_map, list_elem_of_In, elem_of_cons. exact Ht.
Qed.

Lemma ok_child n c : ok n -> c ∈ n_children n -> ok c.
Proof.
  rewrite !ok_spec. intros (t & Ht & Hn) Hc. exists t. split; [done|]. apply (subnodes_trans t n Hn).
  apply subnodes_cons. right. by apply below_child.
Qed.

Lemma ok_below n c : ok n -> below n c -> ok c.
Proof.
  rewrite !ok_spec. intros (t & Ht & Hn) Hc. exists t. split; [done|]. apply (subnodes_trans t n Hn).
  apply subnodes_cons. by right.
Qed.

Lemma ok_declared x id def : declared scope x = Some (id, def) -> ok def /\ def ∈ definitions.
Proof.
  intros H. assert (Hd : def ∈ definitions); [|split; [apply ok_spec; exists def; split; [by right|apply subnodes_self]|done]].
  unfold declared in H. unfold definitions. induction scope as [|d l IH]; [done|]. cbn in *.
  destruct (bytes_eqb (td_name d) x).
  - rewrite H. cbn. left.
  - apply IH in H. destruct (option_map snd (td_def d)); [by right|done].
Qed.

Lemma ok_height n : ok n -> (height n <= heights)%nat.
Proof.
  rewrite ok_spec. intros (t & Ht & Hn). apply height_subnode in Hn. etrans; [exact Hn|].
  apply list_max_in, list_elem_of_In, in_map, list_elem_of_In, elem_of_cons. exact Ht.
Qed.
Lemma names_child r n c : names_behind r n = true -> c ∈ n_children n -> names_behind r c = true.
Proof.
  unfold names_behind. rewrite !forallb_forall. intros H Hc m Hm. apply H.
  apply list_elem_of_In, subnodes_cons. right. exists c. split; [done|]. by apply list_elem_of_In.
Qed.

Lemma names_weaken r r' n : (r <= r')%nat -> names_behind r n = true -> names_behind r' n = true.
Proof.
  unfold names_behind. rewrite !forallb_forall. intros Hr H m Hm. specialize (H m Hm).
  destruct (type_decl _ _); [|done]. apply bool_decide_eq_true in H. apply bool_decide_eq_true. lia.
Qed.

Lemma names_all n : names_behind (S (length (o_types o))) n = true.
Proof.
  apply forallb_forall. intros m _. destruct (type_decl _ _); [|done]. apply bool_decide_eq_true.
  pose proof (rank_le (o_types o) (lexeme src 128 m)). lia.
Qed.

Lemma decl_field_below decl f : f ∈ decl_fields decl -> below decl f.
Proof.
  unfold decl_fields. set (l0 := concat _). intros H0.
  assert (H : f ∈ l0) by (rewrite <- (take_drop MAX_STRUCT_FIELDS l0); apply elem_of_app; by left). clear H0. subst l0.
  apply list_elem_of_In, in_concat in H as (l & (c & <- & Hc)%in_map_iff & Hf).
  assert (Hd : c ∈ n_children decl).
  { apply list_elem_of_In. rewrite <- (take_drop 1 (n_children decl)). apply in_app_iff. by right. }
  exists c. split; [done|]. apply list_elem_of_In in Hf. destruct (n_kind c); try by apply elem_of_nil in Hf.
  - apply list_elem_of_singleton in Hf as ->. apply subnodes_self.
  - apply list_elem_of_filter in Hf as [_ Hf]. apply subnodes_cons. right. by apply below_child.
Qed.

(** ** Annotations *)

Context (env : NameEnv).
Context (Hscope : Forall (fun d => forall id def, td_def d = Some (id, def) -> fits src def = true) scope).
Context (Hroot : fits src root = true).

Lemma fits_subnode n : fits src n = true -> forall m, m ∈ subnodes n -> fits src m = true.
Proof.
  induction n as [n IH] using node_ind'. intros H m [->|(c & Hc & Hm)]%subnodes_cons; [done|].
  apply fits_children in H. rewrite Forall_forall in IH, H. apply (IH c Hc); [by apply H|done].
Qed.

Lemma ok_fits n : ok n -> fits src n = true.
Proof.
  rewrite ok_spec. intros (t & Ht & Hn). refine (fits_subnode t _ n Hn). destruct Ht as [->|Ht]; [done|].
  unfold definitions in Ht. apply list_elem_of_omap in Ht as (d & Hd & E).
  rewrite Forall_forall in Hscope. destruct (td_def d) as [[id def]|] eqn:Ed; [|done]. injection E as <-.
  by apply (Hscope d Hd id).
Qed.

Lemma reads_fields (T : Node -> TM Ty) fs :
  Forall (fun f => fits src f = true /\ match n_children f with c :: _ => reads (T c) | [] => True end) fs ->
  reads ((fix go (fs : list Node) : TM (list (option (list Z) * Ty)) :=
    match fs with
    | [] => ret []
    | f :: fs =>
        do fnb <- tokstr src 128 f;
        do t <- match n_children f with c :: _ => T c | [] => ret (mk_type TY_UNKNOWN) end;
        do l <- go fs;
        ret ((Some fnb, t) :: l)
    end) fs).
Proof.
  induction 1 as [|f fs [Hf Ht] H IH]; [apply reads_value|].
  apply reads_seq; [apply reads_tokstr; [lia|done]|intros x].
  apply reads_seq; [destruct (n_children f); [apply reads_value|done]|intros t].
  apply reads_seq; [exact IH|intros ?; apply reads_value].
Qed.

Lemma reads_first (T : Node -> TM Ty) cs :
  match cs with c :: _ => reads (T c) | [] => True end -> reads (resolve_first T cs).
Proof.
  destruct cs; intros H; cbn; [apply reads_value|]. apply reads_seq; [done|intros ?; apply reads_value].
Qed.

Lemma reads_decl (T : Node -> TM Ty) decl :
  ok decl -> (forall f c cs, f ∈ decl_fields decl -> n_children f = c :: cs -> reads (T c)) ->
  reads (resolve_decl src T decl).
Proof.
  intros Hd HT. unfold resolve_decl. apply reads_seq.
  - pose proof (ok_child decl) as Hc. destruct (n_children decl) as [|nn cs]; [apply reads_value|].
    apply reads_seq; [|intros ?; apply reads_value]. apply reads_tokstr; [lia|]. apply ok_fits, Hc; [done|left].
  - intros nm. apply reads_seq; [|intros ?; apply reads_value]. apply reads_fields, Forall_forall. intros f Hf.
    split; [by apply ok_fits, (ok_below decl), decl_field_below|].
    specialize (HT f). destruct (n_children f) as [|c cs]; [done|]. by apply (HT c cs).
Qed.

Lemma types_behind x decl f c cs :
  types_ordered = true -> type_decl scope x = Some decl -> f ∈ decl_fields decl -> n_children f = c :: cs ->
  names_behind (rank (o_types o) x) c = true.
Proof.
  intros Hord Hd Hf Ec.
  assert (Hx : exists d, d ∈ scope /\ td_name d = x).
  { unfold type_decl in Hd. clear - Hd. induction scope as [|d l IH]; [done|]. cbn in Hd.
    destruct (bytes_eqb (td_name d) x) eqn:E.
    - exists d. split; [left|by apply bytes_eqb_eq].
    - destruct (IH Hd) as (d' & ? & ?). exists d'. split; [by right|done]. }
  destruct Hx as (d & Hin & <-). unfold types_ordered in Hord. rewrite forallb_forall in Hord.
  specialize (Hord d). rewrite Hd, forallb_forall in Hord. specialize (Hord (proj1 (list_elem_of_In _ _) Hin) f).
  rewrite Ec in Hord. by apply Hord, list_elem_of_In.
Qed.

(** A node that names types behind [k] only resolves. *)
Lemma reads_resolve : types_ordered = true -> forall f n k,
  ok n -> names_behind k n = true -> (height n + k * heights <= f)%nat ->
  reads (resolve_type src scope env f n).
Proof.
  intros Hord. induction f as [|f IH]; intros n k Hn Hk Hf; [pose proof (height_pos n); lia|].
  cbn [resolve_type]. unfold resolve_step.
  eapply reads_then; [apply purely_tokstr; [lia|]; by apply fits_span, ok_fits|].
  assert (Hc : forall c, c ∈ n_children n -> reads (resolve_type src scope env f c)).
  { intros c Hc. apply (IH c k); [by apply (ok_child n)|by apply (names_child k n)|].
    apply height_child in Hc. lia. }
  assert (Hname : reads (resolve_name src scope env (resolve_type src scope env f) (lexeme src 128 n))).
  { set (x := lexeme src 128 n). unfold resolve_name.
    destruct (find_scalar _ _); [apply reads_value|]. destruct (bytes_eqb x _); [apply reads_value|].
    destruct (tc_lookup scope x) as [[nm dk [[id def]|]]|] eqn:El; try apply reads_value.
    cbn [td_def]. destruct (has_kind NODE_TYPE_DECL def) eqn:Ek; [|apply reads_value].
    assert (Ed : type_decl scope x = Some def) by (unfold type_decl; by rewrite El, Ek).
    destruct (ok_declared x id def) as [Hdef _]; [unfold declared; by rewrite El|].
    assert (Hr : (rank (o_types o) x < k)%nat).
    { unfold names_behind in Hk. rewrite forallb_forall in Hk. specialize (Hk n).
      fold x in Hk. rewrite Ed in Hk. apply bool_decide_eq_true in Hk; [done|]. apply list_elem_of_In, subnodes_self. }
    apply reads_decl; [done|]. intros fd c cs Hfd Ec.
    assert (Hokc : ok c).
    { apply (ok_child fd); [|rewrite Ec; left]. apply (ok_below def); [done|]. by apply decl_field_below. }
    apply (IH c (rank (o_types o) x)); [done|by apply (types_behind x def fd c cs)|].
    apply ok_height in Hokc. pose proof (height_pos n). nia. }
  assert (Hfirst : forall l, (forall c, c ∈ l -> c ∈ n_children n) -> reads (resolve_first (resolve_type src scope env f) l)).
  { intros [|c l] Hl; apply reads_first; [done|]. apply Hc, Hl. left. }
  destruct (n_kind n); try exact Hname.
  1-2: apply reads_seq; [by apply Hfirst|intros ?; apply reads_value].
  apply reads_seq; [by apply Hfirst|intros ?]. apply reads_seq; [|intros ?; apply reads_value].
  apply Hfirst. intros c Hd. rewrite <- (take_drop 1 (n_children n)). apply elem_of_app. by right.
Qed.

Lemma reads_annotation : types_ordered = true -> forall f n, ok n -> (types_fuel <= f)%nat ->
  reads (resolve_type src scope env f n).
Proof.
  intros Hord f n Hn Hf. apply (reads_resolve Hord f n (S (length (o_types o)))); [done|apply names_all|].
  apply ok_height in Hn. unfold types_fuel in Hf. lia.
Qed.

(** ** The walk *)

Context {rt : Runtime} (start : Diags).
Context (Hord : ordered = true).

Lemma ord_types : types_ordered = true.
Proof. unfold ordered in Hord. by repeat apply andb_prop in Hord as [Hord _]. Qed.

Lemma ord_locals fn :
  fn ∈ n_children root -> n_kind fn = NODE_FUNC_DECL -> exists l, l ∈ o_locals o /\ locals_ordered fn l = true.
Proof.
  unfold ordered in Hord. apply andb_prop in Hord as [[[[_ H]%andb_prop _]%andb_prop _]%andb_prop _].
  intros Hf Hk. rewrite forallb_forall in H. specialize (H fn (proj1 (list_elem_of_In _ _) Hf)).
  unfold has_kind in H. rewrite bool_decide_true in H by done. apply existsb_exists in H as (l & Hl & H).
  exists l. by rewrite list_elem_of_In.
Qed.

Lemma ord_calls n : ok n -> n_kind n = NODE_CALL_EXPR -> (length (n_children n) <= 33)%nat.
Proof.
  unfold ordered in Hord. apply andb_prop in Hord as [[[_ H]%andb_prop _]%andb_prop _].
  intros Hn Hk. rewrite forallb_forall in H. specialize (H n (proj1 (list_elem_of_In _ _) Hn)).
  unfold has_kind in H. rewrite bool_decide_true in H by done. by apply bool_decide_eq_true in H.
Qed.

Lemma ord_defs x id def : declared scope x = Some (id, def) -> is_bind def = false.
Proof.
  unfold ordered in Hord. apply andb_prop in Hord as [[_ H]%andb_prop _].
  intros [_ Hd]%ok_declared. rewrite forallb_forall in H.
  by apply negb_true_iff, H, list_elem_of_In.
Qed.

Lemma ord_flat d c : d ∈ n_children root -> below d c -> n_kind c <> NODE_FUNC_DECL.
Proof.
  unfold ordered in Hord. apply andb_prop in Hord as [_ H]. intros Hd (e & He & Hc) Hk.
  rewrite forallb_forall in H. specialize (H d (proj1 (list_elem_of_In _ _) Hd)).
  rewrite forallb_forall in H. specialize (H e (proj1 (list_elem_of_In _ _) He)).
  unfold no_function in H. rewrite forallb_forall in H. specialize (H c (proj1 (list_elem_of_In _ _) Hc)).
  unfold has_kind in H. by rewrite bool_decide_true in H.
Qed.

(** A node of the frame's function that names locals behind [k] only. *)
Record within (fr : Frame) (k : nat) (n : Node) : Prop := {
  wi_ok : ok n;
  wi_flat : forall m, m ∈ subnodes n -> n_kind m <> NODE_FUNC_DECL;
  wi_depth : 0 <= fr_depth fr <= 8;
  wi_local fid fn : fr_fn fr = Some (fid, fn) ->
    fn ∈ n_children root
    /\ exists l, l ∈ o_locals o /\ locals_ordered fn l = true /\ locals_behind l k n = true
}.

Definition need (fr : Frame) (k : nat) (n : Node) : nat :=
  (height n + (k + Z.to_nat (8 - fr_depth fr) * ranks) * heights + types_fuel)%nat.

Lemma need_least fr k n : (height n + types_fuel <= need fr k n)%nat.
Proof. unfold need. set (m := (_ * heights)%nat). lia. Qed.

Lemma need_below fr k n c : below n c -> (need fr k c < need fr k n)%nat.
Proof. intros H%height_below. unfold need. set (m := (_ * heights)%nat). lia. Qed.

Lemma within_below fr k n c : within fr k n -> below n c -> within fr k c.
Proof.
  intros [H1 H2 H3 H4] Hc. split; [by apply (ok_below n)| |done|].
  - intros m Hm. apply H2, subnodes_cons. right. by apply (below_trans n c).
  - intros fid fn E. destruct (H4 fid fn E) as (? & l & ? & ? & Hl). split; [done|]. exists l. split_and!; [done..|].
    unfold locals_behind in *. rewrite forallb_forall in *. intros m Hm. apply Hl, list_elem_of_In, subnodes_cons.
    right. apply (below_trans n c); [done|by apply list_elem_of_In].
Qed.

Lemma locals_all l n : l ∈ o_locals o -> locals_behind l ranks n = true.
Proof.
  intros Hl. apply forallb_forall. intros m _. apply orb_true_iff. right. apply bool_decide_eq_true.
  pose proof (rank_le l (lexeme src 128 m)).
  assert (length l <= list_max (map length (o_locals o)))%nat; [|unfold ranks; lia].
  by apply list_max_in, list_elem_of_In, in_map, list_elem_of_In.
Qed.

Lemma first_binding_spec x : forall n id bid bn,
  first_binding src x id n = Some (bid, bn) -> bn ∈ subnodes n /\ binds src x bn = true.
Proof.
  induction n as [n IH] using node_ind'. intros id bid bn.
  assert (Hcs : forall cs i, Forall (fun c => forall id bid bn,
            first_binding src x id c = Some (bid, bn) -> bn ∈ subnodes c /\ binds src x bn = true) cs ->
     (fix go (i : nat) (l : list Node) : option NRef := match l with
        | [] => None
        | c :: l => match first_binding src x (child_id id i) c with Some r => Some r | None => go (S i) l end
        end) i cs = Some (bid, bn) -> (exists c, c ∈ cs /\ bn ∈ subnodes c) /\ binds src x bn = true).
  { induction cs as [|c cs IHc]; intros i H; [done|]. apply Forall_cons in H as [Hc H].
    destruct (first_binding src x (child_id id i) c) as [[b' n']|] eqn:E.
    - intros [= -> ->]. destruct (Hc _ _ _ E) as [? ?]. split; [|done]. exists c. split; [left|done].
    - intros E'. destruct (IHc _ H E') as [(c' & ? & ?) ?]. split; [|done]. exists c'. split; [by right|done]. }
  specialize (Hcs (n_children n) 0%nat IH). clear IH. rewrite subnodes_cons. destruct n as [k st ln col ts tl op cap cs].
  cbn [first_binding n_children] in *. destruct (_ && _) eqn:E.
  - intros [= <- <-]. apply andb_prop in E as [_ E]. auto.
  - intros H. destruct (Hcs H) as [(c & ? & ?) ?]. split; [|done]. right. by exists c.
Qed.

(** The initialiser of a binding is within its frame, and needs less. *)
Lemma init_within fr k n fid fn bid bn x init :
  within fr k n -> n_kind n = NODE_IDENT -> fr_fn fr = Some (fid, fn) ->
  first_binding src (lexeme src 128 n) fid fn = Some (bid, bn) -> is_bind bn = true ->
  n_children bn = [x; init] ->
  (n_kind init = NODE_IDENT -> fr_depth fr < MAX_BIND_INFER_DEPTH ->
     within (deeper fr) ranks init /\ (need (deeper fr) ranks init < need fr k n)%nat)
  /\ (n_kind init ∈ inits -> exists k', within fr k' init /\ (need fr k' init < need fr k n)%nat).
Proof.
  intros [Hn Hflat Hd Hl] Hk Ef Ebn Hb Ec. destruct (Hl fid fn Ef) as (Hfn & l & Hin & Hlo & Hlb).
  apply first_binding_spec in Ebn as [Hsub Hx].
  assert (Hroot' : ok root) by (apply ok_spec; exists root; split; [by left|apply subnodes_self]).
  assert (Hbelow : below fn init).
  { apply (below_subnodes fn bn); [done|]. apply below_child. rewrite Ec. right. left. }
  assert (Hi : ok init) by (apply (ok_below fn); [by apply (ok_child root)|done]).
  assert (Hif : forall m, m ∈ subnodes init -> n_kind m <> NODE_FUNC_DECL).
  { intros m Hm. apply (ord_flat fn); [done|]. by apply (below_trans fn init). }
  assert (Hrank : (rank l (lexeme src 128 n) < k)%nat).
  { unfold locals_behind in Hlb. rewrite forallb_forall in Hlb.
    specialize (Hlb n (proj1 (list_elem_of_In _ _) (subnodes_self n))). unfold has_kind in Hlb.
    rewrite bool_decide_true in Hlb by done. by apply bool_decide_eq_true in Hlb. }
  pose proof (ok_height _ Hi) as Hh. pose proof (height_pos n).
  unfold binds in Hx. rewrite Ec in Hx. apply bytes_eqb_eq in Hx. split.
  - intros _ Hlt. unfold MAX_BIND_INFER_DEPTH in Hlt. split.
    + split; [done|done|cbn; lia|]. cbn. intros fid' fn' E. rewrite Ef in E. injection E as <- <-.
      split; [done|]. exists l. split_and!; [done..|]. by apply locals_all.
    + unfold need. cbn [deeper fr_depth].
      replace (Z.to_nat (8 - fr_depth fr)) with (S (Z.to_nat (8 - (fr_depth fr + 1)))) by lia.
      assert (1 * heights <= k * heights)%nat by (apply Nat.mul_le_mono_r; lia). lia.
  - intros Hki. exists (rank l (lexeme src 128 n)). split.
    2:{ unfold need. assert (S (rank l (lexeme src 128 n)) * heights <= k * heights)%nat; [|lia].
        apply Nat.mul_le_mono_r. lia. }
    split; [done..|]. intros fid' fn' E. rewrite Ef in E. injection E as <- <-.
    split; [done|]. exists l. split_and!; [done..|].
    unfold locals_ordered in Hlo. rewrite forallb_forall in Hlo.
    specialize (Hlo bn (proj1 (list_elem_of_In _ _) Hsub)). rewrite Ec, Hb, bool_decide_true in Hlo by done.
    by rewrite Hx in Hlo.
Qed.

Lemma halts_infer F : forall fr k id n,
  within fr k n -> (need fr k n <= F)%nat -> halts src start fr (infer src scope env root F id n).
Proof.
  induction F as [|F IH]; intros fr k id n Hw HF; [pose proof (height_pos n); pose proof (need_least fr k n); lia|].
  cbn [infer]. apply halts_memo. pose proof Hw as [Hn Hflat Hd Hl].
  pose proof (height_pos n) as Hh.
  apply (halts_step src scope env root start Hroot _ _ fr ok ok_fits ok_child ord_calls); try done.
  - intros m Hm. apply (reads_annotation ord_types); [done|]. pose proof (need_least fr k n). lia.
  - intros x did def E. by apply (ok_declared x did).
  - intros id' c Hc. apply (IH fr k); [by apply (within_below fr k n)|]. apply (need_below fr k) in Hc. lia.
  - apply Hflat, subnodes_self.
  - intros Hk. split_and!; [apply ord_defs| |].
    + intros fid fn E. destruct (Hl fid fn E) as [Hfn _]. apply (ok_child root); [|done].
      apply ok_spec. exists root. split; [by left|apply subnodes_self].
    + intros fid fn bid bn E Eb Hb. split.
      { apply first_binding_spec in Eb as [Hs _]. destruct (Hl fid fn E) as [Hfn _]. apply ok_spec. exists root.
        split; [by left|]. apply (subnodes_trans root fn); [apply subnodes_cons; right; by apply below_child|done]. }
      intros x init Ec. destruct (init_within fr k n fid fn bid bn x init Hw Hk E Eb Hb Ec) as [H1 H2].
      assert (Hin : n_kind init ∈ inits -> halts src start fr (infer src scope env root F (child_id bid 1) init)).
      { intros Hi. destruct (H2 Hi) as (k' & ? & ?). apply (IH fr k'); [done|lia]. }
      destruct (n_kind init); try done; try (apply Hin; by apply (bool_decide_eq_true _)).
      intros Hlt. destruct (H1 eq_refl Hlt) as [? ?]. apply (IH _ ranks); [done|lia].
Qed.

(** A declaration of the program. *)
Lemma halts_declaration F id c :
  c ∈ n_children root -> (check_fuel <= F)%nat ->
  halts src start (mkFrame None None 0) (infer src scope env root F id c).
Proof.
  intros Hc HF. assert (Hr : ok root) by (apply ok_spec; exists root; split; [by left|apply subnodes_self]).
  pose proof (ok_child root c Hr Hc) as Hok. pose proof (ok_height c Hok) as Hh.
  pose proof (height_pos c). unfold check_fuel in HF.
  destruct (decide (n_kind c = NODE_FUNC_DECL)) as [Hk|Hk].
  - destruct F as [|F]; [lia|]. cbn [infer]. apply halts_memo. unfold infer_impl. rewrite Hk.
    assert (Hrs : forall m, ok m -> reads (resolve_type src scope env F m)).
    { intros m Hm. apply (reads_annotation ord_types); [done|]. lia. }
    apply (halts_func src start _ _ _ ok ok_fits ok_child Hrs c Hok).
    intros t i d Hd. apply (halts_infer F _ ranks).
    + split; [by apply (ok_child c)| |cbn; lia|].
      * intros m Hm. apply (ord_flat c); [done|]. by exists d.
      * cbn. intros fid fn [= _ <-]. split; [done|]. destruct (ord_locals c Hc Hk) as (l & ? & ?).
        exists l. split_and!; [done..|]. by apply locals_all.
    + apply height_child in Hd. unfold need. cbn [fr_depth]. change (Z.to_nat (8 - 0)) with 8%nat. lia.
  - apply (halts_infer F _ 0).
    + split; [done| |cbn; lia|done]. intros m [->|Hm]%subnodes_cons; [done|]. by apply (ord_flat c).
    + unfold need. cbn [fr_depth]. change (Z.to_nat (8 - 0)) with 8%nat. lia.
Qed.

Lemma halts_program F :
  (check_fuel <= F)%nat ->
  halts src start (mkFrame None None 0)
    (fold_children (fun i c _ => do _ <- infer src scope env root F (0, [i]) c; ret tt) 0 (n_children root) tt).
Proof.
  intros HF. apply halts_fold. intros i c _ Hc. apply halts_bind; [by apply halts_declaration|intros ?; apply halts_ret].
Qed.
End Order.
