(* ===== verification/TypeProps.v ===== *)
(** * What type checking guarantees

    The pass accepts exactly the programs the typing rules derive, its result and
    its reports agree, and its equality of types is consistency; each theorem with
    a program it applies to. *)

From Stdlib Require Import ZArith Lia String Ascii.
From stdpp Require Import base tactics list gmap.
From S2P Require Import Prelude CStr Diag Lexer Ast Parser ModName Resolve Iface Types.
From S2P Require Import Infer TypeSpec TypeFacts TypeStmt TypeTotal.
Open Scope Z_scope.

(** The declarations of the module scope are in the source. *)
Definition scope_fits (src : list Z) (scope : list TDecl) : bool :=
  forallb (fun d => match td_def d with Some (_, def) => fits src def | None => true end) scope.

Lemma scope_fits_all src scope :
  scope_fits src scope = true ->
  Forall (fun d => forall id def, td_def d = Some (id, def) -> fits src def = true) scope.
Proof.
  unfold scope_fits. rewrite forallb_forall. intros H. apply Forall_forall. intros d Hd id def E.
  apply list_elem_of_In in Hd. specialize (H d Hd). by rewrite E in H.
Qed.

Section Program.
Context {rt : Runtime} (src : list Z) (scope : list TDecl) (env : NameEnv) (root : Node).
Context (Hscope : scope_fits src scope = true) (Hroot : fits src root = true).

Lemma ctx_init_inv d : tc_inv src d (ctx_init d).
Proof. by split. Qed.

(** What a run does not change. *)
Lemma type_check_keeps fuel d b s :
  type_check src scope env root fuel d = Ok (b, s) ->
  tc_keeps src d (ctx_init d) s /\ b = negb (cx_had_error s).
Proof.
  unfold type_check. destruct (fold_children _ _ _ _ _) as [[u s1]| |] eqn:E; [|done..].
  intros [= <- <-]. split; [|done].
  exact (den_keeps _ _ _ _ (denotes_program src scope env root (scope_fits_all _ _ Hscope) Hroot d fuel)
           _ _ _ (ctx_init_inv d) E).
Qed.

(** With fuel as the order says, it returns. *)
Lemma checks o fuel d :
  ordered src scope root o = true -> (check_fuel scope root o <= fuel)%nat ->
  exists b s, type_check src scope env root fuel d = Ok (b, s).
Proof.
  intros Ho Hf. destruct (halts_program src scope root o env (scope_fits_all _ _ Hscope) Hroot d Ho fuel Hf
    (ctx_init d) (ctx_init_inv d) eq_refl) as (u & s & E & _).
  exists (negb (cx_had_error s)), s. unfold type_check. by rewrite E.
Qed.
End Program.

(** C16: The pass accepts exactly the programs the typing rules derive.  For a tree
    whose texts are in the source and whose strings are plain, with any module
    scope of such nodes, any interfaces and any runtime library: [type_check]
    within [fuel] nested calls returns 0 and has annotated the nodes with [r] if
    and only if there is a derivation of at most that height, for each
    declaration in order, that annotates them so. *)
Theorem type_check_typed {rt : Runtime} src scope env root fuel d r :
  scope_fits src scope = true -> fits src root = true ->
  (exists s, type_check src scope env root fuel d = Ok (true, s) /\ cx_rtypes s = r)
  <-> well_typed src scope env root fuel r.
Proof.
  intros Hs Hr. pose proof (denotes_program src scope env root (scope_fits_all _ _ Hs) Hr d fuel) as [_ Hd Hc].
  unfold type_check, well_typed. split.
  - intros (s & E & <-). destruct (fold_children _ _ _ _ _) as [[[] s1]| |] eqn:Ef; [|done..].
    injection E as Eh ->. apply negb_true_iff in Eh. exact (Hd _ _ _ (ctx_init_inv src d) Ef Eh).
  - intros H. destruct (Hc (ctx_init d) tt r (ctx_init_inv src d) eq_refl H) as (s & -> & Eh & <-).
    exists s. by rewrite Eh.
Qed.

(** C31: The result of the pass and its reports agree.  When a run on such a tree
    ends, it returns -1 exactly if the number of errors grew (0 leaves it as it
    was), unless reports are suppressed, and in any case the function, the depth
    of the scopes, of the arenas and of the inference of bindings are back where
    they started. *)
Theorem type_check_reports {rt : Runtime} src scope env root fuel d b s :
  scope_fits src scope = true -> fits src root = true -> s_suppress d = false ->
  type_check src scope env root fuel d = Ok (b, s) ->
  (b = false <-> s_error_count d < s_error_count (cx_diags s))
  /\ cx_fn_node s = None /\ cx_fn_ret s = None /\ cx_scope_depth s = 0
  /\ cx_arena_depth s = 0 /\ cx_bind_infer_depth s = 0.
Proof.
  intros Hs Hr Hq E. destruct (type_check_keeps src scope env root Hs Hr _ _ _ _ E) as [K ->].
  destruct K as [Hf Hsc Ha _ [_ _ _ _ He Hc _ _]]. unfold fr_of in Hf. injection Hf as Hf1 Hf2 Hf3.
  split; [|by split_and!]. rewrite negb_false_iff. split; [by apply He|].
  intros Hlt. destruct (cx_had_error s) eqn:Eh; [done|]. specialize (Hc eq_refl). lia.
Qed.

(** C26: The pass ends, and decides the typing rules.  When the types of a program
    and the initialisers its functions' locals are typed by follow an order [o]
    (an initialiser that is a name needs none), its calls have at most 32
    arguments, the module declares no variables and functions are on the top
    level, [type_check] returns from [check_fuel] nested calls on: 0 exactly if
    there is a derivation of that height.  Without an order of the types it need
    not ([recursive_type_diverges]). *)
Theorem type_check_total {rt : Runtime} src scope env root o fuel d :
  scope_fits src scope = true -> fits src root = true -> ordered src scope root o = true ->
  (check_fuel scope root o <= fuel)%nat ->
  exists b s, type_check src scope env root fuel d = Ok (b, s)
    /\ (b = true <-> exists r, well_typed src scope env root fuel r).
Proof.
  intros Hs Hr Ho Hf. destruct (checks src scope env root Hs Hr o fuel d Ho Hf) as (b & s & E).
  pose proof (denotes_program src scope env root (scope_fits_all _ _ Hs) Hr d fuel) as [_ Hd Hc].
  exists b, s. split; [done|]. unfold type_check in E.
  destruct (fold_children _ _ _ _ _) as [[[] s1]| |] eqn:Ef; [|done..]. injection E as <- ->. rewrite negb_true_iff. split.
  - intros Hh. exists (cx_rtypes s). exact (Hd _ _ _ (ctx_init_inv src d) Ef Hh).
  - intros [r H]. destruct (Hc (ctx_init d) tt r (ctx_init_inv src d) eq_refl H) as (s' & E' & Hh & _).
    rewrite Ef in E'. injection E' as <-. exact Hh.
Qed.

(** Equality of types is consistency: [types_equal] holds of two types exactly
    if they agree but for what is unknown inside of a composite, a record without
    fields taken for an integer too; it is symmetric, and it holds of a type and
    itself when its composites have all their parts, unlike those of functions. *)
Theorem types_equal_consistent a b :
  (types_equal a b = true <-> consistent a b) /\ types_equal a b = types_equal b a
  /\ (complete a -> types_equal a a = true).
Proof.
  split; [apply types_equal_spec|]. split.
  - apply eq_true_iff_eq. rewrite !types_equal_spec. split; by intros ?%symmetry.
  - intros ?. by apply types_equal_spec, consistent_refl.
Qed.

(** ** Programs *)

(** The module scope of a program without imports. *)
Definition scope_of (src : list Z) : list TDecl :=
  match resolve_module src predefined_scope (ast_of src) diags_init with
  | Ok (_, r) => tdecls (ast_of src) (List.last (rs_scopes r) [])
  | _ => []
  end.

Definition demo : list Z :=
  bytes_of "m=a;t=$p{x:i64;y:str};f=h(q:$p;n:i64):i64{let z=q.x;if(z<n){<n};<z+1};f=k(a:@(i64)):u64{<a.len};".
Abbreviation demo_run :=
  (type_check (rt := no_runtime) demo (scope_of demo) env_init (ast_of demo) 30 diags_init).

(** What a run shows: the result, the codes, the annotations. *)
Definition accepted (x : res (bool * Ctx)) : bool := match x with Ok (b, _) => b | _ => false end.
Definition types_of (x : res (bool * Ctx)) : gmap NodeId Ty := match x with Ok (_, s) => cx_rtypes s | _ => ∅ end.
Definition codes_of (x : res (bool * Ctx)) : list Z :=
  match x with Ok (_, s) => map d_code (s_stream (cx_diags s)) | _ => [] end.

Lemma accepted_types x : accepted x = true -> exists s, x = Ok (true, s) /\ cx_rtypes s = types_of x.
Proof. destruct x as [[[] s]| |]; try done. by exists s. Qed.

Lemma type_check_typed_witness :
  well_typed (rt := no_runtime) demo (scope_of demo) env_init (ast_of demo) 30 (types_of demo_run)
  /\ option_map ty_kind (types_of demo_run !! (0, [3; 3; 0; 0]%nat)) = Some TY_U64.
Proof.
  split; [|vm_compute; reflexivity].
  apply (type_check_typed (rt := no_runtime) demo (scope_of demo) env_init (ast_of demo) 30 diags_init);
    [vm_compute; reflexivity..|].
  assert (Ha : accepted demo_run = true) by (vm_compute; reflexivity).
  exact (accepted_types _ Ha).
Defined.

(** A result that is no string, and a field that is not declared. *)
Definition wrong : list Z :=
  bytes_of "m=a;t=$p{x:i64};f=h(q:$p):str{let z=q.w;<q.x};".
Abbreviation wrong_run :=
  (type_check (rt := no_runtime) wrong (scope_of wrong) env_init (ast_of wrong) 30 diags_init).


Definition final (x : res (bool * Ctx)) : bool * Ctx :=
  match x with Ok p => p | _ => (true, ctx_init diags_init) end.

Lemma final_ok x : codes_of x <> [] -> x = Ok (final x).
Proof. by destruct x. Qed.

Lemma type_check_reports_witness :
  codes_of wrong_run = [E4025; E4031]
  /\ s_error_count diags_init < s_error_count (cx_diags (final wrong_run).2).
Proof.
  split; [vm_compute; reflexivity|].
  apply (type_check_reports (rt := no_runtime) wrong (scope_of wrong) env_init (ast_of wrong) 30 diags_init (final wrong_run).1);
    [vm_compute; reflexivity..| |vm_compute; reflexivity].
  assert (Hc : codes_of wrong_run <> []) by (vm_compute; discriminate).
  rewrite <- surjective_pairing. exact (final_ok _ Hc).
Defined.

(** A type in another, locals typed by their initialisers, and two names that
    stand for each other. *)
Definition knot : list Z :=
  bytes_of "m=a;t=$r{at:$p};t=$p{x:i64};f=g(q:$r):i64{let z=q.at;let y=z.x;let b=c;let c=b;<y};".
Definition knot_order : Order :=
  mkOrder (map bytes_of ["r"; "p"]%string) [map bytes_of ["y"; "z"; "q"]%string].
Abbreviation knot_fuel := (check_fuel (scope_of knot) (ast_of knot) knot_order).

Lemma type_check_total_witness :
  exists b s, type_check (rt := no_runtime) knot (scope_of knot) env_init (ast_of knot) knot_fuel diags_init = Ok (b, s)
    /\ (b = true <-> exists r, well_typed (rt := no_runtime) knot (scope_of knot) env_init (ast_of knot) knot_fuel r).
Proof.
  apply (type_check_total (rt := no_runtime) knot (scope_of knot) env_init (ast_of knot) knot_order knot_fuel diags_init);
    [vm_compute; reflexivity..|apply le_n].
Defined.

Lemma types_equal_consistent_witness :
  let t := mkTy TY_MAP None (Some (mk_type TY_STR)) [(None, mk_type TY_I64)] in types_equal t t = true.
Proof.
  cbv zeta. apply (types_equal_consistent _ (mk_type TY_VOID)).
  constructor; cbn; try discriminate; try (intros ? [= <-]); try (intros _); constructor; discriminate.
Defined.

(** ** Behaviour worth knowing *)

(** The bodies of the arms of a match are not visited: the second child of an arm
    is the name it binds. *)
Example match_bodies_unchecked :
  check_text 40 "m=a;f=g(e:bool):i64{mt e {$ok:v <1+true;$err:w <2};<1};" = Some (false, [E4010; E4010])
  /\ check_text 40 "m=a;f=g(e:bool):i64{let z=1+true;<1};" = Some (false, [E4031]).
Proof. split; vm_compute; reflexivity. Qed.

(** A name of the module hides the parameter of this name. *)
Example module_name_hides_parameter :
  check_text 40 "m=a;f=h(x:i64):i64{<x};f=g(h:i64):i64{<h+1};" = Some (false, [E4031])
  /\ check_text 40 "m=a;f=h(x:i64):i64{<x};f=g(k:i64):i64{<k+1};" = Some (true, []).
Proof. split; vm_compute; reflexivity. Qed.

(** A return in a closure is checked against the function around it. *)
Example closure_return :
  check_text 40 "m=a;f=g(x:str):str{let h=fn(z:i64):i64{<1};<x};" = Some (false, [E4031]).
Proof. vm_compute. reflexivity. Qed.

(** Elements behind the first are not visited. *)
Example array_elements_unchecked :
  check_text 40 "m=a;f=g():i64{let z=@(1;1+true);<1};" = Some (true, [])
  /\ check_text 40 "m=a;f=g():i64{let z=@(1+true;1);<1};" = Some (false, [E4031]).
Proof. split; vm_compute; reflexivity. Qed.

(** A boolean is taken for an integer, but not the other way round. *)
Example bool_widens :
  check_text 40 "m=a;f=g(b:bool):i64{<b};" = Some (true, [])
  /\ check_text 40 "m=a;f=g(b:i64):bool{<b};" = Some (false, [E4031]).
Proof. split; vm_compute; reflexivity. Qed.

(** A type that contains itself has no type: its annotation is resolved for ever. *)
Definition recursive : list Z := bytes_of "m=a;t=$n{v:i64;next:$n};".


Definition recursive_decl : Node := Eval vm_compute in
  default (ast_of recursive) (type_decl (scope_of recursive) (bytes_of "n")).

Lemma recursive_type_diverges h : forall n t,
  n_kind n = NODE_TYPE_IDENT -> lexeme recursive 128 n = bytes_of "n" ->
  ~ resolves recursive (scope_of recursive) env_init h n t.
Proof.
  induction h as [|h IH]; intros n t Hk Hn; [by intros []|]. cbn [resolves]. unfold resolve_rule. rewrite Hk, Hn.
  unfold name_resolves. replace (find_scalar scalar_names (bytes_of "n")) with (@None Ty) by (vm_compute; reflexivity).
  assert (Ed : type_decl (scope_of recursive) (bytes_of "n") = Some recursive_decl) by (vm_compute; reflexivity).
  rewrite Ed. replace (bytes_eqb (bytes_of "n") (bytes_of "none")) with false by (vm_compute; reflexivity).
  intros (fields & H & _). unfold recursive_decl, decl_fields in H. cbn in H.
  inversion H as [|? ? ? ? _ H2]; subst. inversion H2 as [|? e ? ? [_ H3] _]; subst.
  apply (IH _ e.2) in H3; [done|reflexivity|vm_compute; reflexivity].
Qed.
