(* ===== verification/Driver.v ===== *)
(** * The driver: the front end of [src/src/main.c]

    [front_end] is the sequence of passes on a source file that [process_file]
    and [link_multi_module] share: after every pass the driver stops when the pass
    failed or an error was reported.  [link_multi_module] runs it on several files,
    the interface of each written before the next one is read.  Which files can
    be opened is a [Files]: what is not under [src/] are the operations of the file
    system, the generator of code and the linker, which are parameters. *)

From Stdlib Require Import ZArith Lia String Ascii.
From stdpp Require Import base tactics list gmap.
From S2P Require Import Prelude CStr Diag Lexer Ast Parser ModName Imports Resolve Iface Names Ir.
From S2P Require Import Types Infer.
Open Scope Z_scope.

(** ** One file *)

(** Which files can be opened, what they hold, the entries of a directory. *)
Record Files := mkFiles {
  fs_exists : list Z -> bool;
  fs_read : list Z -> option (list Z);
  fs_readdir : list Z -> option (list (list Z))
}.

(** [-I], [TKC_STDLIB_DIR], the limits and the profile. *)
Record Options := mkOptions {
  op_search_paths : list (list Z);
  op_stdlib_dir : list Z;
  op_max_imports_in_flight : Z;
  op_max_avail_modules : Z;
  op_profile : Profile
}.

(** What the passes leave: the tree, the symbol table, the module scope, the
    interfaces, and the types of the nodes. *)
Record Compiled := mkCompiled {
  fc_ast : Node;
  fc_symtab : list ImportEntry;
  fc_scope : list TDecl;
  fc_env : NameEnv;
  fc_rtypes : gmap NodeId Ty
}.

(** The file goes on, or the driver leaves with [ECOMPILE]. *)
Definition unless {A} (failed : bool) (d : Diags) (k : res (option A * Diags)) : res (option A * Diags) :=
  if failed || (0 <? s_error_count d) then Ok (None, d) else k.

Section FrontEnd.
Context {rt : Runtime} (fs : Files) (o : Options) (fuel : nat) (src : list Z).

Definition type_pass (ast : Node) (st : list ImportEntry) (scope : Scope) (ne : NameEnv) (d : Diags)
    : res (option Compiled * Diags) :=
  let sc := tdecls ast scope in
  match type_check src sc ne ast fuel d with
  | Ok (b, c) => unless (negb b) (cx_diags c) (Ok (Some (mkCompiled ast st sc ne (cx_rtypes c)), cx_diags c))
  | Oob => Oob
  | NoFuel => NoFuel
  end.

Definition name_pass (ast : Node) (st : list ImportEntry) (d : Diags) : res (option Compiled * Diags) :=
  match resolve_names (fs_read fs) (op_stdlib_dir o) (op_search_paths o) src ast st d with
  | Ok (b, r, ne) =>
      unless (negb b) (rs_diags r) (type_pass ast st (List.last (rs_scopes r) []) ne (rs_diags r))
  | Oob => Oob
  | NoFuel => NoFuel
  end.

Definition import_pass (ast : Node) (d : Diags) : res (option Compiled * Diags) :=
  match resolve_imports src (fs_exists fs) (fs_readdir fs) (op_stdlib_dir o) (op_search_paths o)
          (op_max_imports_in_flight o) (op_max_avail_modules o) ast d with
  | Ok (b, st, d') => unless (negb b) d' (name_pass ast st d')
  | Oob => Oob
  | NoFuel => NoFuel
  end.

Definition parse_pass (toks : list Token) (d : Diags) : res (option Compiled * Diags) :=
  match parse toks src (op_profile o) d with
  | Ok (Some ast, p) => unless false (p_diags p) (import_pass ast (p_diags p))
  | Ok (None, p) => Ok (None, p_diags p)
  | Oob => Oob
  | NoFuel => NoFuel
  end.

(** [None]: the driver leaves with [ECOMPILE]. *)
Definition front_end (d : Diags) : res (option Compiled * Diags) :=
  match lex src (zlen src) (zlen src + 16) (op_profile o) d with
  | Ok (tc, l) => unless (tc <? 0) (l_diags l) (parse_pass (take (Z.to_nat tc) (l_out l)) (l_diags l))
  | Oob => Oob
  | NoFuel => NoFuel
  end.
End FrontEnd.

(** ** Several files *)

Definition EUSAGE : Z := 3.
Definition ECOMPILE : Z := 1.
Definition EINTERNAL : Z := 2.
Definition PATH_BUF : Z := 280.
Definition MAX_MERGED : Z := 256.

(** The operation of the file system that [emit_interface] ends in: the file that
    was opened for writing holds what was written, and no other file changes. *)
Class FileSystem := {
  put : list Z -> list Z -> Files -> Files;
  put_read p text fs q : fs_read (put p text fs) q = if bytes_eqb q p then Some text else fs_read fs q;
  put_exists p text fs q : fs_exists (put p text fs) q = bytes_eqb q p || fs_exists fs q
}.

Section ModuleName.
Context (src : list Z).

(** The loop over the segments: [buf] holds [pos] characters. *)
Fixpoint name_segments (size : Z) (ids : list Node) (buf : list Z) : res (list Z) :=
  match ids with
  | [] => Ok buf
  | id :: ids =>
      if size - 1 <=? zlen buf then Ok buf
      else
        let buf := if (0 <? zlen buf) && (zlen buf <? size - 2) then buf ++ [chr "."] else buf in
        let len := if n_tok_len id <? size - 1 - zlen buf then n_tok_len id else size - 1 - zlen buf in
        match rd_range src (n_tok_start id) len tt with
        | Ok (s, _) => name_segments size ids (buf ++ s)
        | Oob => Oob
        | NoFuel => NoFuel
        end
  end.

(** The first path below a module declaration. *)
Definition module_path (ast : Node) : option Node :=
  head (filter (fun mp => has_kind NODE_MODULE_PATH mp = true)
          (concat (map n_children (filter (fun m => has_kind NODE_MODULE m = true) (n_children ast))))).

(** The string in [buf], when there is a declaration. *)
Definition extract_module_name (ast : Node) (size : Z) : res (option (list Z)) :=
  match module_path ast with
  | None => Ok None
  | Some mp =>
      match name_segments size (n_children mp) [] with
      | Ok buf => Ok (Some (until_nul buf))
      | Oob => Oob
      | NoFuel => NoFuel
      end
  end.

(** A function declaration of the name [main]: at most 63 characters are looked at. *)
Definition is_main (fn : Node) : res bool :=
  match n_children fn with
  | name :: _ =>
      if has_kind NODE_FUNC_DECL fn then
        match rd_range src (n_tok_start name) (if n_tok_len name <? 63 then n_tok_len name else 63) tt with
        | Ok (s, _) => Ok (bytes_eqb (until_nul s) (bytes_of "main"))
        | Oob => Oob
        | NoFuel => NoFuel
        end
      else Ok false
  | [] => Ok false
  end.

Fixpoint any_main (fns : list Node) : res bool :=
  match fns with
  | [] => Ok false
  | fn :: fns => match is_main fn with Ok false => any_main fns | r => r end
  end.

(** The declarations, those of a module in its place. *)
Definition has_main (ast : Node) : res bool :=
  any_main (concat (map (fun ch => if has_kind NODE_MODULE ch then n_children ch else [ch]) (n_children ast))).
End ModuleName.

(** The files with the interfaces so far, [has_main], the imports of all files. *)
Record LinkState := mkLink {
  lk_files : Files;
  lk_main : bool;
  lk_merged : list (list Z * bool)
}.

Section Link.
Context {rt : Runtime} {sys : FileSystem} (o : Options) (tdir : list Z) (fuel : nat).
(** [fopen] of the interface and [fclose] succeed; what the file holds when the
    latter does not; [emit_llvm_ir] and [compile_binary] succeed. *)
Context (opens closes : list Z -> bool) (torn : list Z -> list Z).
Context (emit_llvm_ir : list Z -> Compiled -> bool) (compile_binary : list (list Z * bool) -> bool).

Definition link_options : Options :=
  mkOptions (take 64 (op_search_paths o) ++ [tdir]) (op_stdlib_dir o) (op_max_imports_in_flight o)
    (op_max_avail_modules o) (op_profile o).

(** The interface of a module, written into the shared directory; the result of
    [emit_interface] is not looked at. *)
Definition publish (fs : Files) (src : list Z) (c : Compiled) : res Files :=
  match extract_module_name src (fc_ast c) 256 with
  | Ok (Some ((_ :: _) as name)) =>
      let tki := printed PATH_BUF (tdir ++ chr "/" :: name ++ bytes_of ".tki") in
      match emit_interface src (opens tki) (closes tki) (fc_ast c) diags_init with
      | Ok (b, Some text, _) => Ok (put tki (if b : bool then text else torn text) fs)
      | Ok (_, None, _) => Ok fs
      | Oob => Oob
      | NoFuel => NoFuel
      end
  | Ok _ => Ok fs
  | Oob => Oob
  | NoFuel => NoFuel
  end.

Definition merge (merged : list (list Z * bool)) (st : list ImportEntry) : list (list Z * bool) :=
  merged ++ take (Z.to_nat (MAX_MERGED - zlen merged)) (map (fun e => (ie_path e, ie_resolved e)) st).

(** One file: the state behind it, or the code the driver leaves with. *)
Definition link_file (s : LinkState) (path : list Z) : res (LinkState + Z) :=
  match fs_read (lk_files s) path with
  | None => Ok (inr EUSAGE)
  | Some src =>
      match front_end (lk_files s) link_options fuel src diags_init with
      | Ok (None, _) => Ok (inr ECOMPILE)
      | Ok (Some c, _) =>
          match publish (lk_files s) src c, (if lk_main s then Ok true else has_main src (fc_ast c)) with
          | Ok fs, Ok main =>
              if emit_llvm_ir src c then Ok (inl (mkLink fs main (merge (lk_merged s) (fc_symtab c))))
              else Ok (inr EINTERNAL)
          | NoFuel, _ | Ok _, NoFuel => NoFuel
          | Oob, _ | Ok _, Oob => Oob
          end
      | Oob => Oob
      | NoFuel => NoFuel
      end
  end.

Fixpoint link_files (s : LinkState) (files : list (list Z)) : res (LinkState + Z) :=
  match files with
  | [] => Ok (inl s)
  | f :: files =>
      match link_file s f with
      | Ok (inl s) => link_files s files
      | r => r
      end
  end.

(** The exit code. *)
Definition link_multi_module (fs : Files) (files : list (list Z)) : res Z :=
  match link_files (mkLink fs false []) files with
  | Ok (inr rc) => Ok rc
  | Ok (inl s) =>
      if negb (lk_main s) then Ok ECOMPILE
      else if compile_binary (lk_merged s) then Ok 0 else Ok EINTERNAL
  | Oob => Oob
  | NoFuel => NoFuel
  end.
End Link.
