(* ===== verification/FrontFacts.v ===== *)
(** * The passes of the driver, one after the other

    The trees of the grammar are in the source. *)

From Stdlib Require Import ZArith Lia String Ascii.
From stdpp Require Import base tactics list gmap.
From S2P Require Import Prelude Diag Lexer LexSpec Ast Parser Grammar ParserBase ResolveSpec Types.
From S2P Require Import Infer TypeSpec TypeFacts CStr LexerFacts LexerCorrect LexProps ParserExpr ParserProps ModName.
From S2P Require Import Imports ImportsProps Resolve ResolveFacts Iface IfaceFacts Names NamesFacts TypeStmt TypeTotal.
From S2P Require Import TypeProps Driver.
Open Scope Z_scope.

(** * Trees of the grammar are in the source

    Every node of a program of the grammar has its text in the source, and a
    string has no children when nothing is interpolated in it: what name
    resolution and type checking ask of a tree. *)

(** The strings of a token list are plain. *)
Definition plain_tokens (src : list Z) (toks : list Token) : Prop :=
  Forall (fun t => t_kind t = TK_STR_LIT -> no_interp (slice src (t_start t) (t_len t)) = true) toks.

Section Fits.
Context (toks : list Token) (src : list Z).
Context (Hok : toks_ok toks src) (Hplain : plain_tokens src toks).
Abbreviation fit n := (fits src n = true).
Abbreviation tk := (Grammar.tk toks).

Lemma fits_ch n c : fit (ch n (Some c)) <-> fit n /\ fit c.
Proof.
  destruct n as [k st ln col ts tl op cap cs]. cbn [ch fits n_children]. unfold span_in, has_kind, TypeSpec.text.
  cbn [n_kind n_tok_start n_tok_len]. rewrite forallb_app. cbn [forallb].
  rewrite !andb_true_iff. tauto.
Qed.

Lemma fits_op op n : fit (set_op op n) <-> fit n.
Proof. by destruct n. Qed.

Lemma token_span i : span_in src (mk NODE_PROGRAM (tk i)) = true.
Proof.
  destruct Hok as [_ H]. unfold Grammar.tk, span_in. cbn.
  destruct (nth_in_or_default (Z.to_nat i) toks (mkToken TK_EOF 0 0 0 0)) as [Hin| ->].
  - rewrite Forall_forall in H. apply list_elem_of_In, H in Hin as [? ?]. 
    rewrite !andb_true_iff, !Z.leb_le. lia.
  - pose proof (zlen_nonneg src). cbn. rewrite !andb_true_iff, !Z.leb_le. lia.
Qed.

Lemma fits_mk k i : k <> NODE_STR_LIT -> fit (mk k (tk i)).
Proof.
  intros Hk. cbn [fits mk]. unfold has_kind. cbn [n_kind]. rewrite bool_decide_false by done.
  pose proof (token_span i) as H. unfold span_in in *. cbn in *. by rewrite H.
Qed.

Lemma fits_string i : Grammar.kd toks i = TK_STR_LIT -> no_interp (Grammar.text toks src i) = true.
Proof.
  intros Hk. unfold Grammar.kd, Grammar.text, Grammar.tk in *.
  destruct (nth_in_or_default (Z.to_nat i) toks (mkToken TK_EOF 0 0 0 0)) as [Hin|E]; [|by rewrite E in Hk].
  unfold plain_tokens in Hplain. rewrite Forall_forall in Hplain. by apply list_elem_of_In, Hplain in Hin.
Qed.

Lemma fits_plain i : Grammar.kd toks i = TK_STR_LIT -> fit (mk NODE_STR_LIT (tk i)).
Proof.
  intros Hk. cbn [fits mk]. unfold has_kind, TypeSpec.text. cbn [n_kind n_tok_start n_tok_len].
  pose proof (fits_string i Hk) as H1. unfold Grammar.text in H1. rewrite H1.
  pose proof (token_span i) as H. unfold span_in in *. cbn in *. by rewrite H.
Qed.

(** The node a nonterminal extends. *)
Fixpoint carried (X : nonterm) : Prop :=
  match X with
  | NT_items X n0 => fit n0 /\ carried X
  | NT_until _ X n0 => fit n0 /\ carried X
  | NT_entries _ n0 | NT_param n0 | NT_params n0 | NT_params1 n0 | NT_init _ n0 | NT_inits _ n0
  | NT_init_list _ n0 | NT_step n0 | NT_arm_rest n0 | NT_field n0 | NT_fields n0 | NT_path_rest n0
  | NT_clauses n0 | NT_ann n0 => fit n0
  | NT_stmts ref => exists i, ref = tk i
  | _ => True
  end.

Hint Resolve fits_mk : core.

Lemma fits_node2 n a b : fit n -> fit a -> fit b -> fit (node2 n a b).
Proof. intros. unfold node2. by rewrite !fits_ch. Qed.

Ltac fit_ := lazymatch goal with
  | |- fit (ch _ (Some _)) => apply fits_ch; split
  | |- fit (node2 _ _ _) => apply fits_node2
  | |- fit (set_op _ _) => apply fits_op
  | |- fit (mk (if ?b then _ else _) _) => destruct b
  | |- fit (mk _ _) => apply fits_mk; discriminate
  | |- fit (if ?b then _ else _) => destruct b
  | |- _ /\ _ => split
  | |- exists i, tk ?j = tk i => by exists j
  | |- True => exact I
  end.

(** The hypotheses for the phrases inside give what their nonterminals carry. *)
Ltac fits_all := repeat (first
  [ assumption
  | fit_
  | match goal with
    | H : _ -> fits src ?n = true |- fits src ?n = true => apply H
    | H : fits src ?n = true /\ _ |- fits src ?n = true => apply H
    | H : _ /\ ?P |- ?P => apply H
    | |- carried (Grammar.below ?lv) => destruct lv
    end ]).

Lemma G_fits sc X i j n : G toks src sc X i j n -> carried X -> fit n.
Proof.
  induction 1; cbn [carried] in *; intros Hc; try by fits_all.
  - by apply fits_mk.
  - match goal with H : _ -> n = _ |- _ => rewrite H by by apply fits_string end. by apply fits_plain.
  - destruct Hc as [i0 ->]. by apply fits_mk.
Qed.

(** ** Declarations *)

Lemma type_name_fits lower i j t : g_type_name toks lower i j t -> exists k, t = tk k.
Proof. destruct 1; by eexists. Qed.

Lemma version_fits n i j x : g_version toks n i j x -> fit n -> fit x.
Proof. destruct 1; intros; [done|]. apply fits_ch. split; [done|by apply fits_plain]. Qed.

Lemma body_fits sc t n i j x : (exists k, t = tk k) -> g_body toks src sc t n i j x -> fit n -> fit x.
Proof.
  intros Ht [|? ? b _ Hb _] Hn; [done|]. apply fits_ch. split; [done|]. by apply (G_fits _ _ _ _ _ Hb).
Qed.

Lemma rest_fits sc lower cp t i k n : g_rest toks src sc lower cp t i k n -> (exists i0, t = tk i0) -> fit n.
Proof.
  intros [? ? ? ? p _ Hp _|? ? ? ? ? p x _ _ _ Hp Hv _|? ? ? nt ? ? f _ Hnt _ Hf _ _|? ? ? ? ? ? x r y _ _ _ Hx _ _ Hr Hb _];
    intros Ht; destruct (Ht) as [w E].
  - apply G_fits in Hp; [|exact I]. subst. by fits_all.
  - apply G_fits in Hp; [|exact I]. apply (version_fits _ _ _ _ Hv). subst. by fits_all.
  - apply G_fits in Hf; [|exact I]. apply type_name_fits in Hnt as [k' ->]. subst. by fits_all.
  - apply G_fits in Hr; [|exact I]. apply (body_fits _ _ _ _ _ _ Ht Hb). apply fits_ch. split; [|done].
    apply (G_fits _ _ _ _ _ Hx). cbn [carried]. subst. by fits_all.
Qed.

Lemma decl_fits profile sc cp i k n : g_decl toks src profile sc cp i k n -> fit n.
Proof.
  intros [? ? ? ? _ H|? ? ? ? _ _ _ H|? ? ? ? l t _ _ Hl _ Ht _|? ? ? _ H].
  - apply (rest_fits _ _ _ _ _ _ _ H). by eexists.
  - apply (rest_fits _ _ _ _ _ _ _ H). by eexists.
  - apply G_fits in Hl; [|exact I]. apply G_fits in Ht; [|exact I]. by fits_all.
  - by apply (G_fits _ _ _ _ _ H).
Qed.

(** A program of plain strings is in its source. *)
Lemma program_fits profile root : g_program toks src profile root -> fit root.
Proof.
  intros (i & j & m & ph & Hm & Hds & _). apply decl_fits in Hm.
  assert (H0 : fit (ch (mk NODE_PROGRAM (tk 0)) (Some m))) by by fits_all.
  revert H0. induction Hds as [|? ? ? ? ? ? ? IH _ Hd]; intros H0; [done|].
  apply decl_fits in Hd. apply fits_ch. split; [by apply IH|done].
Qed.
End Fits.

Lemma fits_spans src n : fits src n = true -> spans src n = true.
Proof.
  induction n as [n IH] using node_ind'. intros H. pose proof (fits_span _ _ H) as Hs.
  apply fits_children in H. destruct n as [k st ln col ts tl op cap cs]. cbn [spans n_children] in *.
  rewrite Hs. cbn [andb]. apply forallb_forall. intros c Hc. rewrite List.Forall_forall in IH, H. auto.
Qed.

(** * The passes of the driver, one after the other

    What each pass of [front_end] does to a compilation without errors so far. *)

(** No error so far, and errors are reported. *)
Definition clean (d : Diags) : Prop := s_suppress d = false /\ s_error_count d = 0.

Lemma emitted_suppress l d : s_suppress (emitted l d) = s_suppress d.
Proof. revert d. induction l as [|e l IH]; intros d; [done|]. cbn. by rewrite IH, emit_diag_suppress. Qed.

Lemma emitted_clean l d : clean d -> Forall (fun e => ~ is_error e) l -> clean (emitted l d).
Proof.
  intros [Hs Hc] Hl. split; [by rewrite emitted_suppress|]. rewrite emitted_count, Hc by done.
  assert (E : filter is_error l = []); [|by rewrite E].
  induction Hl as [|e l He Hl IH]; [done|]. by rewrite filter_cons, decide_False.
Qed.

Section Pass.
Context {A : Type} (k : res (option A * Diags)).

Lemma unless_clean d : clean d -> unless false d k = k.
Proof. intros [_ H]. unfold unless. by rewrite H. Qed.

Lemma unless_stop failed d : failed = true \/ 0 < s_error_count d -> unless failed d k = Ok (None, d).
Proof. unfold unless. intros [->|H]; [done|]. apply Z.ltb_lt in H as ->. by rewrite orb_true_r. Qed.
End Pass.

Section Front.
Context {rt : Runtime} (fs : Files) (o : Options) (fuel : nat) (src : list Z).
Abbreviation profile := (op_profile o).

(** The tree of a text of the language. *)
Definition derives (root : Node) : Prop :=
  exists ts e, lexes src profile 0 ts /\ t_kind e = TK_EOF /\ t_start e = zlen src /\
    g_program (ts ++ [e]) src profile root.

Definition stops (x : res (option Compiled * Diags)) : Prop :=
  exists d, x = Ok (None, d) /\ 0 < s_error_count d.

(** ** Lexing and parsing *)

Lemma parses :
  plain_tokens src (lexed src profile) ->
  stops (front_end fs o fuel src diags_init) /\
    (forall root d, parse_source src profile diags_init = Ok (Some (Some root, d)) -> ~ clean (p_diags d)) \/
  exists root d, parse_source src profile diags_init = Ok (Some (Some root, d)) /\ clean (p_diags d) /\
    derives root /\ fits src root = true /\
    front_end fs o fuel src diags_init = import_pass fs o fuel src root (p_diags d).
Proof.
  intros Hplain. unfold front_end. pose proof (zlen_nonneg src).
  destruct (lex_runs src (zlen src + 16) profile diags_init ltac:(lia)) as (rc & l & E & Hrc & Hs & He & H0 & Hbad & Hgood).
  cbn [s_suppress diags_init] in Hs, He. rewrite E. destruct (decide (rc = -1)) as [->|Hne].
  { left. rewrite unless_stop by (left; done). split.
    - exists (l_diags l). split; [done|]. specialize (Hbad eq_refl).
      change (s_error_count diags_init) with 0 in He. lia.
    - intros root d Ep. unfold parse_source in Ep. by rewrite E in Ep. }
  destruct (parse_source_run src profile diags_init rc l E Hne ltac:(lia)) as [Hp Hok].
  destruct (lex_toks_ok src (zlen src + 16) profile diags_init rc l ltac:(lia) E Hne) as [-> _].
  rewrite (Hgood Hne) in He. change (s_error_count diags_init) with 0 in He.
  assert (Hcl : clean (l_diags l)) by (split; [done|lia]).
  replace (rc <? 0) with false by (symmetry; apply Z.ltb_ge; lia). rewrite unless_clean by done.
  unfold parse_pass. destruct (parse_ok false (l_out l) src profile (l_diags l) Hok ltac:(done)) as (root & p & Ep & P).
  rewrite Ep in Hp |- *. destruct (dr_on _ _ _ _ (fr_diags _ _ _ _ (pd_fr _ _ _ _ _ _ _ P)) Hs) as [Hs' Hc].
  pose proof (fr_errs _ _ _ _ (pd_fr _ _ _ _ _ _ _ P)) as Hpe. cbn in Hc, Hpe. destruct (Z.eq_dec (s_error_count (p_diags p)) 0) as [Hz|Hz].
  2: { left. rewrite unless_stop by (right; lia). split.
       - exists (p_diags p). split; [done|lia].
       - intros root' p' Ep'. rewrite Hp in Ep'. injection Ep' as <- <-. by intros [_ ?]. }
  assert (Hcp : clean (p_diags p)) by by split.
  assert (Hg : g_program (l_out l) src profile root) by (apply (pd_clean _ _ _ _ _ _ _ P); lia).
  right. exists root, p. rewrite unless_clean by done. split_and!; [done|done| | |done].
  - destruct (lex_success src (zlen src + 16) profile diags_init rc l ltac:(lia) E Hne) as (l0 & Hi & -> & _ & Hl0 & Hpos & Hn).
    exists (l_out l0), (eof_token l0). split_and!; [by eapply inv_lexes|done..].
  - eapply program_fits; [exact Hok| |exact Hg]. unfold lexed in Hplain. by rewrite E in Hplain.
Qed.

(** ** Imports *)

Definition symtab_of (root : Node) : list ImportEntry :=
  omap (ImportsProps.entry_of src (fs_exists fs) (op_stdlib_dir o) (op_search_paths o)) (n_children root).

(** Every import has a well-formed version and a module that exists, and no
    module is imported with two major versions. *)
Definition imports_good (root : Node) : Prop :=
  Forall (good_import src (fs_exists fs) (op_stdlib_dir o) (op_search_paths o)) (n_children root) /\
  no_conflict (symtab_of root).

(** The limits of the code on imports: major versions fit [int], and paths the
    buffer of [node_path_str]; a module can be in flight. *)
Definition imports_fit (root : Node) : Prop :=
  Forall (import_ok src) (n_children root) /\
  Forall (fun d => too_long src (fs_exists fs) (op_stdlib_dir o) (op_search_paths o) d = false) (n_children root) /\
  0 < op_max_imports_in_flight o.

Lemma import_pass_ok root d :
  clean d -> imports_fit root ->
  (~ imports_good root /\ stops (import_pass fs o fuel src root d)) \/
  (imports_good root /\ exists d', clean d' /\
     import_pass fs o fuel src root d = name_pass fs o fuel src root (symtab_of root) d').
Proof.
  intros Hd (Hok & Hlong & Hlim). unfold import_pass, resolve_imports.
  destruct (wp_ok _ _ _ (resolve_imports_loop src (fs_exists fs) (fs_readdir fs) (op_stdlib_dir o) (op_search_paths o)
    (op_max_imports_in_flight o) (op_max_avail_modules o) _ (mkIm [] [] false d) Hok eq_refl ltac:(constructor)))
    as (u & s & -> & E & R & l & D & _ & X & N).
  cbn in E, R, D, X, N. rewrite R, negb_involutive.
  pose proof (all_fine_spec src (fs_exists fs) (fs_readdir fs) (op_stdlib_dir o) (op_search_paths o)
    (op_max_imports_in_flight o) (op_max_avail_modules o) (n_children root) [] ltac:(constructor)) as Hf.
  destruct (all_fine _ _ _ _ _ _) eqn:Ef.
  - right. split; [by apply Hf|]. exists (im_diags s). rewrite D, E.
    assert (Hc : clean (emitted l d)) by (apply emitted_clean; auto). split; [done|].
    cbn [negb app]. by rewrite unless_clean.
  - left. split; [by intros ?%Hf|]. exists (im_diags s). rewrite unless_stop by by left. split; [done|].
    destruct (X eq_refl) as [Hx|Hx].
    + apply Exists_exists in Hx as (c & Hc & Hx). rewrite Forall_forall in Hlong. specialize (Hlong c Hc). congruence.
    + rewrite D. destruct Hd as [Hs <-]. by apply emitted_errors.
Qed.

(** ** Names *)

(** The module scope that the imports make, and the tables of their files. *)
Definition module_scope (st : list ImportEntry) : Scope :=
  match seed_module (fs_read fs) (op_stdlib_dir o) (op_search_paths o) st (mkSeed predefined_scope env_init) with
  | Ok (_, s) => sd_scope s
  | _ => []
  end.
Definition module_env (st : list ImportEntry) : NameEnv :=
  add_entries (concat (map (user_entries (fs_read fs) (op_search_paths o)) st) ++
               concat (map (std_entries (fs_read fs) (op_stdlib_dir o)) st)) env_init.

(** What the program means to the scoping rules. *)
Definition scoping_of (root : Node) : option names := program_ src root ∅ (abs (module_scope (symtab_of root))).

(** The module scope behind the resolver, whatever was reported before. *)
Definition final_scope (root : Node) : list TDecl :=
  match resolve_module src (module_scope (symtab_of root)) root diags_init with
  | Ok (_, r) => tdecls root (List.last (rs_scopes r) [])
  | _ => []
  end.

Lemma module_scope_ok st :
  Forall path_fits st ->
  exists s, seed_module (fs_read fs) (op_stdlib_dir o) (op_search_paths o) st (mkSeed predefined_scope env_init) = Ok (tt, s) /\
    sd_scope s = module_scope st /\ sd_env s = module_env st /\
    exists added, module_scope st = added ++ rev (omap alias_decl st) ++ predefined_scope /\
      Forall (fun d => dc_def d = None) (module_scope st).
Proof.
  intros Hp. pose proof (seed_module_loads (fs_read fs) (op_stdlib_dir o) (op_search_paths o) st
    (mkSeed predefined_scope env_init) Hp) as H.
  apply wp_ok in H as ([] & s & E & He & added & Hs & Hf). exists s. unfold module_scope. rewrite E.
  split_and!; [done|done|exact He|]. exists added. rewrite Hs. split; [done|]. apply Forall_app. split.
  - eapply Forall_impl; [exact Hf|]. by intros x [? _].
  - apply Forall_app. split; [|by repeat constructor]. apply Forall_rev, Forall_forall. intros x Hx.
    apply list_elem_of_omap in Hx as (ie & _ & Hx). unfold alias_decl in Hx. case_match; by simplify_eq.
Qed.

Lemma subnodes_closed root n c : n ∈ subnodes root -> c ∈ n_children n -> c ∈ subnodes root.
Proof.
  intros Hn Hc. apply (subnodes_trans root n Hn). apply subnodes_cons. right. exists c.
  split; [done|apply subnodes_self].
Qed.

(** The scope behind the resolver does not depend on what was reported, and names
    nodes of the program. *)
Lemma resolver_scope root d b r :
  Forall (fun x => dc_def x = None) (module_scope (symtab_of root)) ->
  resolve_module src (module_scope (symtab_of root)) root d = Ok (b, r) ->
  tdecls root (List.last (rs_scopes r) []) = final_scope root /\
  Forall (fun x => forall def, dc_def x = Some def -> def ∈ subnodes root) (List.last (rs_scopes r) []).
Proof.
  intros Hn E. unfold final_scope, resolve_module in *.
  assert (H0 : chain_in (fun n => n ∈ subnodes root) (rs_start (module_scope (symtab_of root)) d)).
  { constructor; [|constructor]. eapply Forall_impl; [exact Hn|]. intros x Hx def Hd. congruence. }
  pose proof (keeps_passes src _ (subnodes_closed root) root (subnodes_self root)
    (rs_start (module_scope (symtab_of root)) d) (rs_start (module_scope (symtab_of root)) diags_init) eq_refl H0) as H.
  unfold both in H. destruct (resolve_passes src root (rs_start _ d)) as [[u s1]| |]; [|done..].
  destruct (resolve_passes src root (rs_start _ diags_init)) as [[u' s2]| |]; [|done..].
  injection E as _ ->. destruct H as (_ & Hb & Hc). unfold blind in Hb. injection Hb as Hb _ _ _ _. rewrite <- Hb.
  split; [done|]. unfold chain_in in Hc.
  assert (Hl : forall sc, Forall (scope_in (fun n => n ∈ subnodes root)) sc -> scope_in (fun n => n ∈ subnodes root) (List.last sc [])).
  { intros sc. induction 1 as [|x sc Hx Hs IH]; [constructor|]. by destruct sc. }
  exact (Hl _ Hc).
Qed.

Lemma name_pass_ok root d :
  clean d -> fits src root = true -> Forall path_fits (symtab_of root) ->
  (scoping_of root = None /\ stops (name_pass fs o fuel src root (symtab_of root) d)) \/
  (is_Some (scoping_of root) /\ exists sc d', clean d' /\ tdecls root sc = final_scope root /\
     scope_fits src (final_scope root) = true /\
     name_pass fs o fuel src root (symtab_of root) d =
       type_pass fuel src root (symtab_of root) sc (module_env (symtab_of root)) d').
Proof.
  intros [Hs Hc] Hr Hp. unfold name_pass, resolve_names.
  destruct (module_scope_ok _ Hp) as (st & -> & Hsc & He & added & _ & Hn). rewrite Hsc, He.
  destruct (resolve_run src (module_scope (symtab_of root)) root d (fits_spans _ _ Hr)) as (s & E & M & A).
  rewrite E. destruct (mv_diags _ _ M) as (l & El & Hl). cbn in El, Hl.
  assert (Hcount : s_error_count (rs_diags s) = reported (rs_errors s)).
  { rewrite El, emitted_count, Hl by done. unfold reported, MAX_NAME_ERRORS. lia. }
  fold (scoping_of root) in A. destruct (scoping_of root) as [L|]; cbn [agrees] in A; cbn in A.
  - right. split; [by eexists|]. destruct A as [A _]. pose proof (mv_clean _ _ M A) as Hh. cbn in Hh.
    assert (Hcl : clean (rs_diags s)).
    { split; [rewrite El; by rewrite emitted_suppress|]. rewrite Hcount, A. unfold reported, MAX_NAME_ERRORS. lia. }
    destruct (resolver_scope root d _ s Hn E) as [Hfin Hdef].
    exists (List.last (rs_scopes s) []), (rs_diags s). rewrite <- Hfin. split_and!; [done|done| |].
    + unfold scope_fits, tdecls. apply forallb_forall. intros x (y & <- & Hy)%in_map_iff. cbn.
      rewrite Forall_forall in Hdef. apply list_elem_of_In in Hy. specialize (Hdef y Hy).
      destruct (dc_def y) as [def|]; [|done]. cbn. apply (fits_subnode src root Hr). auto.
    + rewrite Hh. cbn [negb]. by rewrite unless_clean.
  - left. split; [done|]. assert (0 < s_error_count (rs_diags s)).
    { rewrite Hcount. unfold reported, MAX_NAME_ERRORS. lia. }
    rewrite unless_stop by by right. by exists (rs_diags s).
Qed.

(** ** Types *)

Lemma type_pass_ok root st sc ne d :
  clean d -> fits src root = true -> scope_fits src (tdecls root sc) = true ->
  (exists b c, type_check src (tdecls root sc) ne root fuel d = Ok (b, c)) ->
  ((~ exists r, well_typed src (tdecls root sc) ne root fuel r) /\ stops (type_pass fuel src root st sc ne d)) \/
  (exists r d', well_typed src (tdecls root sc) ne root fuel r /\ clean d' /\
     type_pass fuel src root st sc ne d = Ok (Some (mkCompiled root st (tdecls root sc) ne r), d')).
Proof.
  intros [Hs Hz] Hr Hsc (b & c & E). unfold type_pass. rewrite E.
  destruct (type_check_keeps src _ ne root Hsc Hr fuel d b c E) as [K ->].
  destruct (tk_inv _ _ _ _ K) as [_ _ _ _ He Hc Hsup _].
  pose proof (denotes_program src _ ne root (scope_fits_all _ _ Hsc) Hr d fuel) as [_ Hd Hcm].
  unfold type_check in E. destruct (fold_children _ _ _ _ _) as [[[] s1]| |] eqn:Ef; [|done..].
  injection E as Eh ->. destruct (cx_had_error c) eqn:Hh.
  - left. specialize (He Hs eq_refl). split.
    + intros [r H]. destruct (Hcm (ctx_init d) tt r (ctx_init_inv src d) eq_refl H) as (s & Es & Hf & _).
      rewrite Ef in Es. injection Es as <-. congruence.
    + exists (cx_diags c). rewrite unless_stop by by left. split; [done|lia].
  - right. exists (cx_rtypes c), (cx_diags c). split; [exact (Hd _ _ _ (ctx_init_inv src d) Ef Hh)|].
    assert (Hcl : clean (cx_diags c)) by (split; [by rewrite Hsup|by rewrite Hc]).
    split; [done|]. cbn [negb]. by rewrite unless_clean.
Qed.

(** ** All of them *)

(** What the rules demand of a tree, with the types of its nodes. *)
Record accepted_as (root : Node) (r : gmap NodeId Ty) : Prop := {
  ac_imports : imports_good root;
  ac_scoped : is_Some (scoping_of root);
  ac_typed : well_typed src (final_scope root) (module_env (symtab_of root)) root fuel r
}.

Definition compiled_of (root : Node) (r : gmap NodeId Ty) : Compiled :=
  mkCompiled root (symtab_of root) (final_scope root) (module_env (symtab_of root)) r.

(** The limits of the code on a tree. *)
Definition within (root : Node) : Prop := imports_fit root /\ Forall path_fits (symtab_of root).

Lemma fc_of root d c d' : import_pass fs o fuel src root d = Ok (Some c, d') -> fc_ast c = root.
Proof.
  unfold import_pass, name_pass, type_pass, unless. repeat case_match; try done. by intros [= <- _].
Qed.

Lemma tree_passes root d :
  clean d -> fits src root = true -> within root ->
  (forall d' sc, clean d' -> tdecls root sc = final_scope root -> scope_fits src (final_scope root) = true ->
     import_pass fs o fuel src root d = type_pass fuel src root (symtab_of root) sc (module_env (symtab_of root)) d' ->
     exists b c, type_check src (final_scope root) (module_env (symtab_of root)) root fuel d' = Ok (b, c)) ->
  ((~ exists r, accepted_as root r) /\ stops (import_pass fs o fuel src root d)) \/
  (exists r d', accepted_as root r /\ clean d' /\
     import_pass fs o fuel src root d = Ok (Some (compiled_of root r), d')).
Proof.
  intros Hd Hr [Hi Hp] Hends.
  destruct (import_pass_ok root d Hd Hi) as [[Hn Hx]|(Hg & d1 & Hd1 & E1)].
  { left. split; [|done]. by intros [r [? _ _]]. }
  destruct (name_pass_ok root d1 Hd1 Hr Hp) as [[Hn Hx]|(Hsc & sc & d2 & Hd2 & Hfin & Hfit & E2)].
  { left. rewrite E1. split; [|done]. intros [r [_ [? ?] _]]. congruence. }
  rewrite E1, E2 in *. specialize (Hends d2 sc Hd2 Hfin Hfit eq_refl). rewrite <- Hfin in Hfit, Hends.
  destruct (type_pass_ok root (symtab_of root) sc (module_env (symtab_of root)) d2 Hd2 Hr Hfit Hends)
    as [[Hn Hx]|(r & d3 & Ht & Hd3 & ->)].
  - left. split; [|done]. intros [r [_ _ ?]]. apply Hn. exists r. by rewrite Hfin.
  - right. exists r, d3. split; [by split; rewrite <- ?Hfin|]. split; [done|]. unfold compiled_of. by rewrite Hfin.
Qed.
End Front.
