(* ===== verification/FrontProps.v ===== *)
(** * What the driver accepts

    The passes of [front_end] together: a file that is compiled is a program of
    the grammar whose imports exist, whose names are declared and whose types the
    rules derive; and every file within the limits of the code is compiled or
    rejected with an error. *)

From Stdlib Require Import ZArith Lia String Ascii.
From stdpp Require Import base tactics list gmap.
From S2P Require Import Prelude Diag Lexer LexSpec Ast Parser Grammar ParserProps Imports ImportsProps.
From S2P Require Import Resolve Names NamesFacts Types Infer TypeSpec TypeFacts TypeStmt TypeTotal TypeProps.
From S2P Require Import IfaceProps FrontFacts Driver.
Open Scope Z_scope.

(** C20: soundness of the front end.  When [front_end] returns a tree for a text
    whose strings are plain, no error was reported; the text is lexically well
    formed and its tokens are a program of the grammar, with this tree; every
    import of it exists in the version it asks for; the program is well scoped in
    the module scope the imports make; the typing rules derive the types of its
    nodes there; and the other results are those that belong to the tree.  The
    tree is within the limits of the import pass and its buffers. *)
Theorem front_end_sound {rt : Runtime} fs o fuel src c d :
  plain_tokens src (lexed src (op_profile o)) -> within fs o src (fc_ast c) ->
  front_end fs o fuel src diags_init = Ok (Some c, d) ->
  derives o src (fc_ast c) /\ accepted_as fs o fuel src (fc_ast c) (fc_rtypes c) /\
  c = compiled_of fs o src (fc_ast c) (fc_rtypes c) /\ s_error_count d = 0.
Proof.
  intros Hplain Hw E. destruct (parses fs o fuel src Hplain) as [[(d' & E' & _) _]|(root & p & _ & Hd & Hder & Hfit & E')].
  { by rewrite E' in E. }
  rewrite E' in E. pose proof (fc_of _ _ _ _ _ _ _ _ E) as Hc. rewrite Hc in Hw |- *.
  destruct (tree_passes fs o fuel src root (p_diags p) Hd Hfit Hw) as [[_ (d' & E1 & _)]|(r & d' & Ha & Hd' & E1)].
  - intros d' sc _ Hfin _ E1. rewrite E1 in E. unfold type_pass in E. rewrite Hfin in E.
    destruct (type_check _ _ _ _ _ _) as [[b x]| |]; [by exists b, x|done..].
  - by rewrite E1 in E.
  - rewrite E1 in E. injection E as <- <-. split_and!; [done|exact Ha|done|apply Hd'].
Qed.

(** C22: the front end ends with a verdict.  For any text whose strings are plain,
    [front_end] returns: a tree, with no error reported, or none, with an error
    reported; and it returns a tree exactly when the text parses without an error
    to a tree that the rules for imports, names and types accept.  Required is
    that the tree is within the limits of the code, that its types follow an
    order, and fuel as the order says. *)
Theorem front_end_total {rt : Runtime} fs o fuel src :
  plain_tokens src (lexed src (op_profile o)) ->
  (forall root p, parse_source src (op_profile o) diags_init = Ok (Some (Some root, p)) -> clean (p_diags p) ->
     within fs o src root /\ exists ord, ordered src (final_scope fs o src root) root ord = true /\
       (check_fuel (final_scope fs o src root) root ord <= fuel)%nat) ->
  exists out d, front_end fs o fuel src diags_init = Ok (out, d) /\
    match out with Some _ => s_error_count d = 0 | None => 0 < s_error_count d end /\
    (is_Some out <-> exists root p r,
       parse_source src (op_profile o) diags_init = Ok (Some (Some root, p)) /\ clean (p_diags p) /\
       accepted_as fs o fuel src root r).
Proof.
  intros Hplain Hlim.
  destruct (parses fs o fuel src Hplain) as [[(d & E & Hd) Hno]|(root & p & Ep & Hd & _ & Hfit & E)].
  { exists None, d. split_and!; [done|done|]. split; [by intros [? ?]|]. intros (root & p & r & Ep & Hp & _).
    by apply Hno in Ep. }
  destruct (Hlim root p Ep Hd) as (Hw & ord & Ho & Hf). rewrite E.
  destruct (tree_passes fs o fuel src root (p_diags p) Hd Hfit Hw) as [[Hn (d & E1 & Hc)]|(r & d & Ha & Hc & E1)].
  - intros d' sc Hd' _ Hs _. by apply (checks src (final_scope fs o src root) _ root Hs Hfit ord).
  - exists None, d. split_and!; [done|done|]. split; [by intros [? ?]|]. intros (root' & p' & r & Ep' & _ & Ha).
    rewrite Ep in Ep'. injection Ep' as <- <-. destruct Hn. by exists r.
  - exists (Some (compiled_of fs o src root r)), d. split_and!; [done|apply Hc|]. split; [|by eexists].
    intros _. by exists root, p, r.
Qed.

(** ** A program of two files *)

(** The directory with the interface of [b.shapes], and the program that uses it. *)
Definition shapes_dir : Files :=
  mkFiles (fun p => bytes_eqb p (bytes_of "./b.shapes.tki")) shapes_files (fun _ => None).
Definition plain_options : Options := mkOptions [] [] 64 64 PROFILE_DEFAULT.

Definition plain_tokensb (src : list Z) (toks : list Token) : bool :=
  forallb (fun t => negb (tk_eqb (t_kind t) TK_STR_LIT) || no_interp (slice src (t_start t) (t_len t))) toks.

Lemma plain_tokensb_ok src toks : plain_tokensb src toks = true -> plain_tokens src toks.
Proof.
  unfold plain_tokensb, plain_tokens. rewrite forallb_forall. intros H. apply Forall_forall. intros t Ht E.
  apply list_elem_of_In, H in Ht. rewrite E in Ht. exact Ht.
Qed.

Abbreviation client_run := (front_end (rt := no_runtime) shapes_dir plain_options 40 client_text diags_init).

Definition verdict (x : res (option Compiled * Diags)) : option (bool * list Z) :=
  match x with
  | Ok (out, d) => Some (if out is Some _ then true else false, map d_code (s_stream d))
  | _ => None
  end.

Example client_verdict : verdict client_run = Some (true, []).
Proof. vm_compute. reflexivity. Qed.

Lemma client_plain : plain_tokens client_text (lexed client_text PROFILE_DEFAULT).
Proof. apply plain_tokensb_ok. vm_compute. reflexivity. Qed.

Lemma client_within : within shapes_dir plain_options client_text client_ast.
Proof.
  split; [split; [|split; [|reflexivity]]|].
  - repeat apply Forall_cons_2; [..|apply Forall_nil_2]; intros H; vm_compute in H; try discriminate.
    vm_compute n_children. split.
    + repeat split; repeat apply Forall_cons_2; try apply Forall_nil_2; vm_compute; reflexivity.
    + intros v Hv. vm_compute in Hv. discriminate.
  - repeat apply Forall_cons_2; [..|apply Forall_nil_2]; vm_compute; reflexivity.
  - assert (E : symtab_of shapes_dir plain_options client_text client_ast = shapes_imports) by (vm_compute; reflexivity).
    rewrite E. repeat constructor.
Qed.

Lemma front_end_sound_witness :
  exists c d, client_run = Ok (Some c, d) /\ fc_ast c = client_ast /\
    derives plain_options client_text (fc_ast c) /\
    accepted_as (rt := no_runtime) shapes_dir plain_options 40 client_text (fc_ast c) (fc_rtypes c) /\
    c = compiled_of shapes_dir plain_options client_text (fc_ast c) (fc_rtypes c) /\ s_error_count d = 0.
Proof.
  assert (Hv : match client_run with Ok (Some c, _) => fc_ast c = client_ast | _ => False end)
    by (vm_compute; reflexivity).
  destruct client_run as [[[c|] d]| |] eqn:E; try contradiction. exists c, d. split; [reflexivity|]. split; [exact Hv|].
  apply (front_end_sound (rt := no_runtime) shapes_dir plain_options 40 client_text c d client_plain); [|exact E].
  rewrite Hv. exact client_within.
Defined.

Definition client_order : Order := mkOrder [] [[bytes_of "q"]].

Lemma front_end_total_witness :
  let fuel := check_fuel (final_scope shapes_dir plain_options client_text client_ast) client_ast client_order in
  exists out d, front_end (rt := no_runtime) shapes_dir plain_options fuel client_text diags_init = Ok (out, d) /\
    match out with Some _ => s_error_count d = 0 | None => 0 < s_error_count d end /\
    (is_Some out <-> exists root p r,
       parse_source client_text PROFILE_DEFAULT diags_init = Ok (Some (Some root, p)) /\ clean (p_diags p) /\
       accepted_as (rt := no_runtime) shapes_dir plain_options fuel client_text root r).
Proof.
  intros fuel. apply (front_end_total (rt := no_runtime) shapes_dir plain_options fuel client_text client_plain).
  intros root p Ep _.
  assert (Hr : match parse_source client_text PROFILE_DEFAULT diags_init with
               | Ok (Some (Some r, _)) => r = client_ast | _ => False end) by (vm_compute; reflexivity).
  change (op_profile plain_options) with PROFILE_DEFAULT in Ep. rewrite Ep in Hr. rewrite Hr.
  split; [exact client_within|]. exists client_order. split; [vm_compute; reflexivity|apply le_n].
Defined.

(** A clash of names, a module that is not there, a result of another type, and
    a text that ends too early. *)
Example client_rejected :
  map (fun t => verdict (front_end (rt := no_runtime) shapes_dir plain_options 40 (bytes_of t) diags_init))
    ["m=a;i=s:b.shapes;f=g(q:$p):i64{<s.area($poly(q.x);1)};f=g():i64{<1};";
     "m=a;i=s:b.shape;f=g(q:i64):i64{<q};";
     "m=a;i=s:b.shapes;f=g(q:str):str{let z=s.area($poly(1);1);<1};";
     "m=a;f=g(q:str):str{<q"]%string
  = [Some (false, [3012]); Some (false, [2030]); Some (false, [4031]); Some (false, [2004; 2004])].
Proof. vm_compute. reflexivity. Qed.
