(* ===== verification/LinkProps.v ===== *)
(** * Separate compilation

    [link_multi_module] compiles its files one after the other, each with the
    interfaces of those before it. *)

From Stdlib Require Import ZArith Lia String Ascii.
From stdpp Require Import base tactics list gmap.
From S2P Require Import Prelude CStr Diag Lexer Ast Parser ModName Imports Resolve Iface.
From S2P Require Import IfaceFacts Ir IrFacts Names NamesFacts IfaceProps Types Infer Driver.
Open Scope Z_scope.

(** A file that was compiled: the files there were, its text, and the result. *)
Record CompiledFile := mkFile { cf_files : Files; cf_text : list Z; cf_result : Compiled }.

Section Link.
Context {rt : Runtime} {sys : FileSystem} (o : Options) (tdir : list Z) (fuel : nat).
Context (opens closes : list Z -> bool) (torn : list Z -> list Z).
Context (emit_llvm_ir : list Z -> Compiled -> bool) (compile_binary : list (list Z * bool) -> bool).
Abbreviation publish := (publish tdir opens closes torn).
Abbreviation link_file := (link_file o tdir fuel opens closes torn emit_llvm_ir).
Abbreviation link_files := (link_files o tdir fuel opens closes torn emit_llvm_ir).
Abbreviation link_multi_module := (link_multi_module o tdir fuel opens closes torn emit_llvm_ir compile_binary).
Abbreviation main_of f := (has_main (cf_text f) (fc_ast (cf_result f))).

(** Every file was read, accepted by the front end, published and translated, each
    in the files its predecessors left. *)
Inductive compiled : Files -> list (list Z) -> list CompiledFile -> Prop :=
| compiled_nil fs : compiled fs [] []
| compiled_cons fs p ps src c d fs' cs :
    fs_read fs p = Some src ->
    front_end fs (link_options o tdir) fuel src diags_init = Ok (Some c, d) ->
    publish fs src c = Ok fs' -> emit_llvm_ir src c = true ->
    compiled fs' ps cs -> compiled fs (p :: ps) (mkFile fs src c :: cs).

(** A file with [main], and none in those before it. *)
Definition main_in (cs : list CompiledFile) : Prop :=
  exists pre f post, cs = pre ++ f :: post /\ Forall (fun f => main_of f = Ok false) pre /\ main_of f = Ok true.

Definition merged_of (cs : list CompiledFile) (merged : list (list Z * bool)) : list (list Z * bool) :=
  fold_left merge (map (fun f => fc_symtab (cf_result f)) cs) merged.

(** No file has it yet, or those so far do not. *)
Definition main_after (main : bool) (cs : list CompiledFile) (main' : bool) : Prop :=
  if main then main' = true
  else if main' then main_in cs else Forall (fun f => main_of f = Ok false) cs.

Lemma main_after_cons main f cs main' :
  main_after main (f :: cs) main' <->
  exists m, (if main then Ok true else main_of f) = Ok m /\ main_after m cs main'.
Proof.
  unfold main_after. destruct main.
  - split; [intros ->; by exists true|]. by intros (m & [= <-] & ?).
  - split.
    + destruct main'.
      * intros (pre & g & post & E & Hpre & Hg). destruct pre as [|g' pre]; cbn in E; simplify_eq.
        -- by exists true.
        -- apply Forall_cons in Hpre as [H1 H2]. exists false. split; [done|]. by exists pre, g, post.
      * intros [H1 H2]%Forall_cons. by exists false.
    + intros ([] & Hm & H).
      * subst main'. exists [], f, cs. by repeat split.
      * destruct main'; [|by constructor]. destruct H as (pre & g & post & -> & Hpre & Hg).
        exists (f :: pre), g, post. split_and!; [done|by constructor|done].
Qed.

Lemma link_file_compiled s p s' :
  link_file s p = Ok (inl s') ->
  exists src c d, fs_read (lk_files s) p = Some src /\
    front_end (lk_files s) (link_options o tdir) fuel src diags_init = Ok (Some c, d) /\
    publish (lk_files s) src c = Ok (lk_files s') /\ emit_llvm_ir src c = true /\
    (if lk_main s then Ok true else has_main src (fc_ast c)) = Ok (lk_main s') /\
    lk_merged s' = merge (lk_merged s) (fc_symtab c).
Proof.
  unfold Driver.link_file. destruct (fs_read _ _) as [src|]; [|done].
  destruct (front_end _ _ _ _ _) as [[[c|] d]| |] eqn:Ef; [|done..].
  destruct (Driver.publish _ _ _ _ _ _ _) as [fs'| |] eqn:Ep; [|done..].
  destruct (if lk_main s then _ else _) as [m| |] eqn:Em; [|done..].
  destruct (emit_llvm_ir src c) eqn:Ee; [|done]. intros [= <-]. by exists src, c, d.
Qed.

Lemma link_file_complete fs p src c d fs' m m' merged :
  fs_read fs p = Some src -> front_end fs (link_options o tdir) fuel src diags_init = Ok (Some c, d) ->
  publish fs src c = Ok fs' -> emit_llvm_ir src c = true ->
  (if m : bool then Ok true else has_main src (fc_ast c)) = Ok m' ->
  link_file (mkLink fs m merged) p = Ok (inl (mkLink fs' m' (merge merged (fc_symtab c)))).
Proof. unfold Driver.link_file. cbn. by intros -> -> -> -> ->. Qed.

Lemma link_files_compiled ps : forall s s',
  link_files s ps = Ok (inl s') ->
  exists cs, compiled (lk_files s) ps cs /\ main_after (lk_main s) cs (lk_main s') /\
    lk_merged s' = merged_of cs (lk_merged s).
Proof.
  induction ps as [|p ps IH]; intros s s'; cbn [Driver.link_files].
  - intros [= <-]. exists []. split_and!; [constructor| |done]. unfold main_after. by destruct (lk_main s); [|constructor].
  - destruct (Driver.link_file _ _ _ _ _ _ _ s p) as [[s1|]| |] eqn:E; [|done..]. intros Hr.
    apply link_file_compiled in E as (src & c & d & Hs & Hf & Hp & He & Hm & Hg).
    apply IH in Hr as (cs & Hc & Hmain & Hmerged). exists (mkFile (lk_files s) src c :: cs). split_and!.
    + by econstructor.
    + apply main_after_cons. by exists (lk_main s1).
    + by rewrite Hmerged, Hg.
Qed.

Lemma link_files_complete fs ps cs :
  compiled fs ps cs -> forall m m' merged, main_after m cs m' ->
  exists fs', link_files (mkLink fs m merged) ps = Ok (inl (mkLink fs' m' (merged_of cs merged))).
Proof.
  induction 1 as [fs|fs p ps src c d fs' cs Hs Hf Hp He Hc IH]; intros m m' merged Hm; cbn [Driver.link_files].
  - exists fs. f_equal. f_equal. unfold main_after in Hm. destruct m; [by subst|].
    destruct m'; [|done]. by destruct Hm as ([] & ? & ? & ? & _).
  - apply main_after_cons in Hm as (m1 & Hm1 & Hm). cbn in Hm1.
    rewrite (link_file_complete _ _ _ _ _ _ _ _ merged Hs Hf Hp He Hm1). by apply IH.
Qed.

(** The codes it leaves with are no 0. *)
Lemma link_files_code ps : forall s rc, link_files s ps = Ok (inr rc) -> rc <> 0.
Proof.
  induction ps as [|p ps IH]; intros s rc; cbn [Driver.link_files]; [done|].
  destruct (Driver.link_file _ _ _ _ _ _ _ s p) as [[s1|rc']| |] eqn:E; [|clear IH| |]; try done; [by apply IH|].
  intros [= <-]. revert E. unfold Driver.link_file. repeat case_match; intros [=]; by subst.
Qed.
End Link.

(** C23: linking several files.  [link_multi_module] returns 0 exactly when its
    files, in the given order, were all read, accepted by the front end in the
    directory that holds the interfaces of the files before them, published and
    translated, one of them declares [main] (and those before it were searched in
    vain), and the linker succeeds on the union of their imports. *)
Theorem link_multi_module_ok {rt : Runtime} {sys : FileSystem} o tdir fuel opens closes torn emit_llvm_ir
    compile_binary fs files :
  link_multi_module o tdir fuel opens closes torn emit_llvm_ir compile_binary fs files = Ok 0 <->
  exists cs, compiled o tdir fuel opens closes torn emit_llvm_ir fs files cs /\ main_in cs /\
    compile_binary (merged_of cs []) = true.
Proof.
  unfold link_multi_module. split.
  - destruct (link_files _ _ _ _ _ _ _ _ _) as [[s|rc]| |] eqn:E; [| |done..].
    + apply link_files_compiled in E as (cs & Hc & Hm & Hg). destruct (lk_main s); [|done]. cbn.
      rewrite Hg. cbn. destruct (compile_binary _) eqn:Eb; [|done]. intros _. by exists cs.
    + intros [= ->]. by apply link_files_code in E.
  - intros (cs & Hc & Hm & Hb).
    destruct (link_files_complete o tdir fuel opens closes torn emit_llvm_ir fs files cs Hc false true [] Hm) as (fs' & ->).
    cbn. by rewrite Hb.
Qed.

(** ** What later files see *)

Section Visible.
Context {rt : Runtime} {sys : FileSystem} (o : Options) (tdir : list Z) (fuel : nat).
Context (opens closes : list Z -> bool) (torn : list Z -> list Z).
Context (emit_llvm_ir : list Z -> Compiled -> bool).
Abbreviation compiled := (compiled o tdir fuel opens closes torn emit_llvm_ir).
Abbreviation publish := (publish tdir opens closes torn).

(** The file that a module of this name is published in. *)
Definition interface_path (name : list Z) : list Z := printed PATH_BUF (tdir ++ chr "/" :: name ++ bytes_of ".tki").

(** The name of the module of a file. *)
Definition named (src : list Z) (ast : Node) (name : list Z) : Prop :=
  extract_module_name src ast 256 = Ok (Some name) /\ name <> [].

Lemma publish_other fs src c fs' q :
  publish fs src c = Ok fs' -> (forall name, named src (fc_ast c) name -> q <> interface_path name) ->
  fs_read fs' q = fs_read fs q.
Proof.
  unfold Driver.publish. destruct (extract_module_name _ _ _) as [[[|x name]|]| |] eqn:E; try done; try by intros [= <-].
  intros H Hq. assert (Hn : named src (fc_ast c) (x :: name)) by done. specialize (Hq _ Hn).
  destruct (emit_interface _ _ _ _ _) as [[[b [text|]] ?]| |]; [| |done..]; injection H as <-; [|done].
  rewrite put_read. destruct (bytes_eqb q _) eqn:Eq; [|done]. apply bytes_eqb_eq in Eq. done.
Qed.

Lemma publish_text fs src c name :
  named src (fc_ast c) name -> iface_ok src (fc_ast c) = true ->
  opens (interface_path name) = true -> closes (interface_path name) = true ->
  publish fs src c = Ok (put (interface_path name) (file_text src (fc_ast c)) fs).
Proof.
  unfold Driver.publish. intros [-> Hn] Hok Ho Hc. destruct name as [|x name]; [done|]. cbv zeta.
  fold (interface_path (x :: name)). rewrite Ho, Hc. unfold emit_interface.
  by rewrite (emits_interface src (fc_ast c) Hok []).
Qed.

Lemma publish_own fs src c fs' name :
  publish fs src c = Ok fs' -> named src (fc_ast c) name -> iface_ok src (fc_ast c) = true ->
  opens (interface_path name) = true -> closes (interface_path name) = true ->
  fs_read fs' (interface_path name) = Some (file_text src (fc_ast c)).
Proof.
  intros H Hn Hok Ho Hc. rewrite (publish_text _ _ _ _ Hn Hok Ho Hc) in H. injection H as <-.
  by rewrite put_read, bytes_eqb_refl.
Qed.

(** The file stays as long as no module of the name is published again. *)
Lemma compiled_reads fs ps cs q text :
  compiled fs ps cs -> fs_read fs q = Some text ->
  Forall (fun f => forall name, named (cf_text f) (fc_ast (cf_result f)) name -> q <> interface_path name) cs ->
  Forall (fun f => fs_read (cf_files f) q = Some text) cs.
Proof.
  induction 1 as [|fs p ps src c d fs' cs Hs Hf Hp He Hc IH]; intros Hq Hn; [constructor|].
  apply Forall_cons in Hn as [H1 H2]. constructor; [done|]. apply IH; [|done].
  cbn in H1. by rewrite (publish_other _ _ _ _ _ Hp H1).
Qed.

Lemma compiled_app fs ps cs1 f cs2 :
  compiled fs ps (cs1 ++ f :: cs2) -> exists fs' ps', publish (cf_files f) (cf_text f) (cf_result f) = Ok fs' /\
    compiled fs' ps' cs2.
Proof.
  revert fs ps. induction cs1 as [|g cs1 IH]; intros fs ps H; inversion H; subst; [|by eapply IH]. cbn. by eexists _, _.
Qed.

(** The entries of a written interface. *)
Lemma file_entries_text src ast alias :
  iface_ok src ast = true -> zlen (file_text src ast) <= TKI_MAX ->
  file_entries alias (Some (file_text src ast)) = exported src alias ast.
Proof.
  intros Hok Hl. unfold file_entries. rewrite until_nul_id by by apply file_nonzero.
  rewrite <- (exported_entries src alias ast Hok).
  replace (zlen (file_text src ast) <=? 0) with false; [|].
  - replace (TKI_MAX <? zlen (file_text src ast)) with false; [done|]. symmetry. by apply Z.ltb_ge.
  - symmetry. apply Z.leb_gt. unfold file_text.
    match goal with |- 0 < zlen (?a ++ _) => remember a as h eqn:Eh end.
    rewrite zlen_app. assert (0 < zlen h) by (rewrite Eh; vm_compute; reflexivity).
    match goal with |- 0 < _ + zlen ?x => pose proof (zlen_nonneg x) end. lia.
Qed.

(** Where the reader looks before the shared directory. *)
Definition before_tdir (name : list Z) : list (list Z) :=
  let rel := name ++ bytes_of ".tki" in
  let slash := dots_to_slashes name ++ bytes_of ".tki" in
  rel :: slash :: concat (map (fun sp => [printed 512 (sp ++ chr "/" :: rel); printed 512 (sp ++ chr "/" :: slash)])
                            (take 64 (op_search_paths o))).

Lemma first_file_app read l1 l2 :
  Forall (fun q => read q = None) l1 -> first_file read (l1 ++ l2) = first_file read l2.
Proof. induction 1 as [|q l1 Hq H IH]; [done|]. cbn. by rewrite Hq. Qed.

Lemma tki_file_shared fs name text :
  Forall (fun q => fs_read fs q = None) (before_tdir name) ->
  fs_read fs (interface_path name) = Some text ->
  zlen (tdir ++ chr "/" :: name ++ bytes_of ".tki") < PATH_BUF ->
  tki_file (fs_read fs) (op_search_paths (link_options o tdir)) (name ++ bytes_of ".tki")
    (dots_to_slashes name ++ bytes_of ".tki") = Some text.
Proof.
  intros Hb Ht Hl. unfold tki_file, link_options. cbn [op_search_paths].
  rewrite map_app, concat_app. change (?a :: ?b :: ?x ++ ?y) with ((a :: b :: x) ++ y).
  rewrite first_file_app by exact Hb. cbn [map concat app first_file].
  unfold interface_path, printed, PATH_BUF in *. 
  rewrite take_ge in Ht by (unfold zlen in Hl; lia). rewrite take_ge by (unfold zlen in Hl; lia). by rewrite Ht.
Qed.

(** The tables of a file are those of its imports. *)
Lemma front_end_env fs o' src d c d' :
  front_end fs o' fuel src d = Ok (Some c, d') -> Forall path_fits (fc_symtab c) ->
  fc_env c = add_entries (concat (map (user_entries (fs_read fs) (op_search_paths o')) (fc_symtab c)) ++
                          concat (map (std_entries (fs_read fs) (op_stdlib_dir o')) (fc_symtab c))) env_init.
Proof.
  unfold front_end, parse_pass, import_pass, name_pass, type_pass, unless.
  repeat (case_match; try done). intros [= <- _]. cbn [fc_symtab fc_env]. intros Hp.
  match goal with H : resolve_names _ _ _ _ _ _ _ = _ |- _ => rename H into E end.
  unfold resolve_names in E.
  match goal with |- context [user_entries ?r ?s] =>
    pose proof (seed_module_loads r (op_stdlib_dir o') s _ (mkSeed predefined_scope env_init) Hp) as Hw end.
  apply wp_ok in Hw as (u & st & Es & He & _). rewrite Es in E.
  destruct (resolve_module _ _ _ _) as [[? ?]| |]; [|done..]. injection E as _ _ <-. exact He.
Qed.

Lemma compiled_front fs ps cs f :
  compiled fs ps cs -> f ∈ cs ->
  exists d, front_end (cf_files f) (link_options o tdir) fuel (cf_text f) diags_init = Ok (Some (cf_result f), d).
Proof.
  induction 1 as [|fs p ps src c d fs' cs Hs Hf Hp He Hc IH]; intros Hin; [by apply elem_of_nil in Hin|].
  apply elem_of_cons in Hin as [->|Hin]; [by exists d|auto].
Qed.
End Visible.

(** C36: separate compilation.  When [link_multi_module] has compiled its files, let
    [f] be one of them whose module has the name [name], whose names and types
    need no escape and whose interface was written and fits the buffers.  Then in
    every later file, the tables of the imports hold, for a resolved import of
    [name], exactly what the tree of [f] exports, under the alias of the import:
    provided no other file of this name lies where the reader looks first, and no
    file behind [f] publishes a module of this name. *)
Theorem link_interfaces {rt : Runtime} {sys : FileSystem} o tdir fuel opens closes torn emit_llvm_ir
    fs files pre f post name g ie :
  compiled o tdir fuel opens closes torn emit_llvm_ir fs files (pre ++ f :: post) ->
  named (cf_text f) (fc_ast (cf_result f)) name -> iface_ok (cf_text f) (fc_ast (cf_result f)) = true ->
  opens (interface_path tdir name) = true -> closes (interface_path tdir name) = true ->
  zlen (tdir ++ chr "/" :: name ++ bytes_of ".tki") < PATH_BUF ->
  zlen (file_text (cf_text f) (fc_ast (cf_result f))) <= TKI_MAX ->
  Forall (fun h => forall n, named (cf_text h) (fc_ast (cf_result h)) n -> interface_path tdir name <> interface_path tdir n) post ->
  g ∈ post -> Forall path_fits (fc_symtab (cf_result g)) ->
  ie ∈ fc_symtab (cf_result g) -> ie_resolved ie = true -> ie_path ie = name ->
  Forall (fun q => fs_read (cf_files g) q = None) (before_tdir o name) ->
  let entries := user_entries (fs_read (cf_files g)) (op_search_paths (link_options o tdir)) in
  fc_env (cf_result g) =
    add_entries (concat (map entries (fc_symtab (cf_result g))) ++
                 concat (map (std_entries (fs_read (cf_files g)) (op_stdlib_dir o)) (fc_symtab (cf_result g)))) env_init /\
  entries ie = exported (cf_text f) (ie_alias ie) (fc_ast (cf_result f)).
Proof.
  intros Hc Hn Hok Ho Hcl Hl Ht Hpost Hg Hfits Hie Hr Hpath Hb entries. split.
  - destruct (compiled_front o tdir fuel opens closes torn emit_llvm_ir _ _ _ g Hc) as (d & E).
    { apply elem_of_app. right. by right. }
    exact (front_end_env fuel _ _ _ _ _ _ E Hfits).
  - destruct (compiled_app o tdir fuel opens closes torn emit_llvm_ir _ _ _ _ _ Hc) as (fs' & ps' & Hp & Hc').
    pose proof (publish_own tdir opens closes torn _ _ _ _ name Hp Hn Hok Ho Hcl) as Hread.
    pose proof (compiled_reads o tdir fuel opens closes torn emit_llvm_ir _ _ _ _ _ Hc' Hread Hpost) as Hall.
    rewrite Forall_forall in Hall. specialize (Hall g Hg). cbn beta in Hall.
    unfold entries, user_entries. rewrite Hr, Hpath, (tki_file_shared o tdir _ _ _ Hb Hall Hl).
    by apply file_entries_text.
Qed.

(** ** Two files *)

(** The files with one more. *)
Definition overlay (p text : list Z) (fs : Files) : Files :=
  mkFiles (fun q => bytes_eqb q p || fs_exists fs q) (fun q => if bytes_eqb q p then Some text else fs_read fs q)
    (fs_readdir fs).
Definition overlay_system : FileSystem := {| put := overlay; put_read _ _ _ _ := eq_refl; put_exists _ _ _ _ := eq_refl |}.

Definition lib_path : list Z := bytes_of "shapes.tk".
Definition app_path : list Z := bytes_of "app.tk".
Definition app_text : list Z := bytes_of "m=a;i=s:b.shapes;f=main():i64{let z=s.area($poly(1);2);<1};".
Definition two_files : Files :=
  mkFiles (fun _ => false)
    (fun p => if bytes_eqb p lib_path then Some shapes_text else if bytes_eqb p app_path then Some app_text else None)
    (fun _ => None).
Definition dir : list Z := bytes_of "/tmp/d".
Definition link_opts : Options := mkOptions [] [] 64 64 PROFILE_DEFAULT.
Definition yes : list Z -> bool := fun _ => true.

Definition result (x : res (option Compiled * Diags)) : Compiled :=
  match x with Ok (Some c, _) => c | _ => mkCompiled (mk NODE_PROGRAM (mkToken TK_EOF 0 0 0 0)) [] [] env_init ∅ end.
Definition compiles (x : res (option Compiled * Diags)) : bool := match x with Ok (Some _, _) => true | _ => false end.
Lemma result_ok x : compiles x = true -> exists d, x = Ok (Some (result x), d).
Proof. destruct x as [[[c|] d]| |]; try done. by exists d. Qed.

Abbreviation lib_result :=
  (result (front_end (rt := no_runtime) two_files (link_options link_opts dir) 60 shapes_text diags_init)).
Abbreviation files' :=
  (put (FileSystem := overlay_system) (interface_path dir (bytes_of "b.shapes")) (file_text shapes_text (fc_ast lib_result)) two_files).
Abbreviation app_result :=
  (result (front_end (rt := no_runtime) files' (link_options link_opts dir) 60 app_text diags_init)).

Example two_files_link :
  link_multi_module (rt := no_runtime) (sys := overlay_system) link_opts dir 60 yes yes id (fun _ _ => true) (fun _ => true)
    two_files [lib_path; app_path] = Ok 0.
Proof. vm_compute. reflexivity. Qed.

Example wrong_order :
  link_multi_module (rt := no_runtime) (sys := overlay_system) link_opts dir 60 yes yes id (fun _ _ => true) (fun _ => true)
    two_files [app_path; lib_path] = Ok ECOMPILE.
Proof. vm_compute. reflexivity. Qed.

Lemma two_files_compiled :
  compiled (rt := no_runtime) (sys := overlay_system) link_opts dir 60 yes yes id (fun _ _ => true) two_files
    [lib_path; app_path] [mkFile two_files shapes_text lib_result; mkFile files' app_text app_result].
Proof.
  assert (H1 : compiles (front_end (rt := no_runtime) two_files (link_options link_opts dir) 60 shapes_text diags_init) = true)
    by (vm_compute; reflexivity).
  assert (H2 : compiles (front_end (rt := no_runtime) files' (link_options link_opts dir) 60 app_text diags_init) = true)
    by (vm_compute; reflexivity).
  apply result_ok in H1 as [d1 H1], H2 as [d2 H2].
  eapply (compiled_cons (sys := overlay_system)); [reflexivity|exact H1| |reflexivity|].
  - apply (publish_text (sys := overlay_system)); [split; [vm_compute; reflexivity|done]|vm_compute; reflexivity|done..].
  - eapply (compiled_cons (sys := overlay_system)); [reflexivity|exact H2| |reflexivity|apply compiled_nil].
    apply (publish_text (sys := overlay_system)) with (name := bytes_of "a");
      [split; [vm_compute; reflexivity|done]|vm_compute; reflexivity|done..].
Qed.

Definition shapes_import : ImportEntry := mkImport (bytes_of "s") (bytes_of "b.shapes") None true.

Abbreviation lib_file := (mkFile two_files shapes_text lib_result).
Abbreviation app_file := (mkFile files' app_text app_result).

Lemma named_once {A} (x : res (option A)) a b : x = Ok (Some a) -> x = Ok (Some b) -> a = b.
Proof. congruence. Qed.

Lemma app_elsewhere n :
  named app_text (fc_ast app_result) n -> interface_path dir (bytes_of "b.shapes") <> interface_path dir n.
Proof.
  intros [Hn _] E.
  assert (Ha : extract_module_name app_text (fc_ast app_result) 256 = Ok (Some (bytes_of "a"))) by (vm_compute; reflexivity).
  pose proof (named_once _ _ _ Hn Ha) as En. clear Hn Ha. subst n. vm_compute in E. discriminate.
Qed.

Lemma link_interfaces_witness :
  user_entries (fs_read (cf_files app_file)) (op_search_paths (link_options link_opts dir)) shapes_import
    = exported (cf_text lib_file) (ie_alias shapes_import) (fc_ast (cf_result lib_file))
  /\ length (exported shapes_text (bytes_of "s") (fc_ast lib_result)) = 3%nat.
Proof.
  split; [|vm_compute; reflexivity].
  assert (Hs : fc_symtab app_result = [shapes_import]) by (vm_compute; reflexivity).
  refine (proj2 (link_interfaces (rt := no_runtime) (sys := overlay_system) link_opts dir 60 yes yes id (fun _ _ => true)
    two_files [lib_path; app_path] [] lib_file [app_file] (bytes_of "b.shapes") app_file shapes_import
    two_files_compiled _ _ _ _ _ _ _ _ _ _ _ _ _)).
  - split; [vm_compute; reflexivity|done].
  - vm_compute. reflexivity.
  - done.
  - done.
  - vm_compute. reflexivity.
  - vm_compute. discriminate.
  - constructor; [exact app_elsewhere|constructor].
  - by apply list_elem_of_singleton.
  - cbn [cf_result]. rewrite Hs. by repeat constructor.
  - cbn [cf_result]. rewrite Hs. by apply list_elem_of_singleton.
  - done.
  - done.
  - cbn [cf_files]. repeat apply Forall_cons_2; [..|apply Forall_nil_2]; vm_compute; reflexivity.
Defined.
