(* ===== verification/Heap.v ===== *)
(** * The heap of the runtime library

    The containers of [src/src/stdlib/] live behind handles: 64-bit numbers that
    are the addresses of C structs, 0 for none.  A struct and the block its [data]
    field points to are one object here, since no other pointer to the block
    exists.  Whether an allocation succeeds is a parameter, by the number of the
    call, and so is what a fresh block holds. *)

From Stdlib Require Import ZArith Lia String Ascii.
From stdpp Require Import base tactics list gmap.
From S2P Require Import Prelude.
Open Scope Z_scope.

(** What fits [int64_t]. *)
Definition i64_ok (v : Z) : bool := (- 2 ^ 63 <=? v) && (v <? 2 ^ 63).

(** A computation in [int64_t]; overflow is undefined. *)
Definition i64 {S} (v : Z) : M S Z := if i64_ok v then ret v else oob.

(** The same for [int]. *)
Definition i32 {S} (v : Z) : M S Z := if int_ok v then ret v else oob.

(** The words of a block of [n * sizeof(int64_t)] bytes, a [size_t]. *)
Definition block_words (n : Z) : nat := Z.to_nat ((n * 8) mod 2 ^ 64 / 8).

(** ** Objects *)

(** [DynArr], and [Set]: the block, the length and the capacity. *)
Record DynArr := mkDyn { da_data : list Z; da_len : Z; da_cap : Z }.

(** [Queue]. *)
Record Queue := mkQueue { qu_data : list Z; qu_cap : Z; qu_head : Z; qu_len : Z }.

(** [TkMapImpl]: two words for an entry, key and value, one for a hash; the table of
    slots holds indices of entries, or -1. *)
Record TkMapImpl := mkMap {
  tm_entries : list Z;
  tm_len : Z;
  tm_cap : Z;
  tm_kind : Z;
  tm_nslots : Z;
  tm_slots : list Z;
  tm_hashes : list Z
}.

(** A backing block [rc | cap | len | data]. *)
Record TkArr := mkArr { ta_rc : Z; ta_cap : Z; ta_len : Z; ta_data : list Z }.

Inductive Obj :=
  | ODyn (a : DynArr)
  | OSet (s : DynArr)
  | OQueue (q : Queue)
  | OMap (m : TkMapImpl)
  | OArr (a : TkArr)
  | OStr (s : list Z).

(** The objects by their addresses, the next address, and the number of calls of
    the allocator. *)
Record Mem := mkMem { mm_objs : gmap Z Obj; mm_next : Z; mm_calls : nat }.

Definition MM (A : Type) : Type := M Mem A.

Definition mem_init : Mem := mkMem ∅ 4096 0.

(** The allocator: does its [n]th call succeed, and what is in a fresh block. *)
Class Allocator := { malloc_ok : nat -> bool; junk : nat -> Z }.

Definition uninit `{Allocator} (n : nat) : list Z := map junk (seq 0 n).

Section Heap.
Context `{Allocator}.

(** A call of [malloc], [calloc] or [realloc]. *)
Definition allocates : MM bool := fun m =>
  Ok (malloc_ok (mm_calls m), mkMem (mm_objs m) (mm_next m) (S (mm_calls m))).

(** The address of a new object. *)
Definition new_obj (o : Obj) : MM Z := fun m =>
  Ok (mm_next m, mkMem (<[mm_next m := o]> (mm_objs m)) (mm_next m + 1) (mm_calls m)).

Definition ld (h : Z) : MM Obj := fun m =>
  match mm_objs m !! h with Some o => Ok (o, m) | None => Oob end.

Definition st (h : Z) (o : Obj) : MM unit := fun m =>
  Ok (tt, mkMem (<[h := o]> (mm_objs m)) (mm_next m) (mm_calls m)).

(** [realloc] to [n] words: the old ones, and what happens to be behind them. *)
Definition resized (data : list Z) (n : Z) : list Z :=
  take (block_words n) data ++ uninit (block_words n - length data).

(** [data[i]], and [data[i] = v]. *)
Definition rd_word {S} (data : list Z) (i : Z) : M S Z :=
  if (0 <=? i) && (i <? zlen data) then ret (byte_at data i) else oob.
Definition wr_word {S} (data : list Z) (i v : Z) : M S (list Z) :=
  if (0 <=? i) && (i <? zlen data) then ret (<[Z.to_nat i := v]> data) else oob.

End Heap.

(** ** What holds of a heap *)

(** Addresses are positive and below the next one. *)
Definition mem_ok (m : Mem) : Prop := 0 < mm_next m /\ forall h o, mm_objs m !! h = Some o -> 0 < h < mm_next m.

Definition at_ (m : Mem) (h : Z) (o : Obj) : Prop := mm_objs m !! h = Some o.

(** No object but that at [h] changes. *)
Definition only (h : Z) (m m' : Mem) : Prop :=
  mm_next m <= mm_next m' /\
  forall h', h' <> h -> h' < mm_next m -> mm_objs m' !! h' = mm_objs m !! h'.

Lemma mem_init_ok : mem_ok mem_init.
Proof. split; [done|]. intros h o E. cbn in E. by rewrite lookup_empty in E. Qed.

Lemma only_refl h m : only h m m.
Proof. by split. Qed.

Lemma only_trans h m1 m2 m3 : only h m1 m2 -> only h m2 m3 -> only h m1 m3.
Proof. intros [? H1] [? H2]. split; [lia|]. intros h' ? ?. rewrite H2, H1 by (done || lia). done. Qed.

Section Wp.
Context `{Allocator}.

Lemma wp_i64 {S} v (Q : Z -> S -> Prop) s : - 2 ^ 63 <= v < 2 ^ 63 -> Q v s -> wp (i64 v) Q s.
Proof. intros [H1 H2] HQ. unfold i64, i64_ok. rewrite (proj2 (Z.leb_le _ _) H1), (proj2 (Z.ltb_lt _ _) H2). done. Qed.

Lemma wp_i32 {S} v (Q : Z -> S -> Prop) s : - 2 ^ 31 <= v < 2 ^ 31 -> Q v s -> wp (i32 v) Q s.
Proof. intros [H1 H2] HQ. unfold i32, int_ok. rewrite (proj2 (Z.leb_le _ _) H1), (proj2 (Z.ltb_lt _ _) H2). done. Qed.

Lemma wp_ld h o (Q : Obj -> Mem -> Prop) m : at_ m h o -> Q o m -> wp (ld h) Q m.
Proof. unfold at_, wp, ld. by intros ->. Qed.

Lemma wp_rd_word {S} data i (Q : Z -> S -> Prop) s : 0 <= i < zlen data -> Q (byte_at data i) s -> wp (rd_word data i) Q s.
Proof. intros [H1 H2] HQ. unfold rd_word. by rewrite (proj2 (Z.leb_le _ _) H1), (proj2 (Z.ltb_lt _ _) H2). Qed.

Lemma wp_wr_word {S} data i v (Q : list Z -> S -> Prop) s :
  0 <= i < zlen data -> Q (<[Z.to_nat i := v]> data) s -> wp (wr_word data i v) Q s.
Proof. intros [H1 H2] HQ. unfold wr_word. by rewrite (proj2 (Z.leb_le _ _) H1), (proj2 (Z.ltb_lt _ _) H2). Qed.

(** A store keeps the heap well-formed and changes one object. *)
Lemma wp_st h o0 o (Q : unit -> Mem -> Prop) m :
  mem_ok m -> at_ m h o0 ->
  (forall m', mem_ok m' -> at_ m' h o -> only h m m' -> Q tt m') -> wp (st h o) Q m.
Proof.
  intros [Hn Hm] Ho HQ. apply HQ.
  - split; [done|]. intros h' o'. cbn. destruct (decide (h = h')) as [->|Hne]; [intros _; by apply (Hm _ _ Ho)|].
    rewrite lookup_insert_ne by done. apply Hm.
  - unfold at_. cbn. by rewrite lookup_insert_eq.
  - split; [cbn; lia|]. intros h' Hne _. cbn. by rewrite lookup_insert_ne.
Qed.

(** A new object is at a fresh address. *)
Lemma wp_new_calls o (Q : Z -> Mem -> Prop) m :
  mem_ok m ->
  (forall h m', mm_calls m' = mm_calls m -> h = mm_next m -> 0 < h -> mem_ok m' -> at_ m' h o -> only h m m' ->
     mm_objs m !! h = None -> Q h m') ->
  wp (new_obj o) Q m.
Proof.
  intros [Hn Hm] HQ.
  assert (Hf : mm_objs m !! mm_next m = None).
  { destruct (mm_objs m !! mm_next m) as [o'|] eqn:E; [|done]. apply Hm in E. lia. }
  apply HQ; [done|done|done| | | |done].
  - split; [cbn; lia|]. intros h' o'. cbn. destruct (decide (mm_next m = h')) as [<-|Hne]; [intros _; lia|].
    rewrite lookup_insert_ne by done. intros E%Hm. lia.
  - unfold at_. cbn. by rewrite lookup_insert_eq.
  - split; [cbn; lia|]. intros h' Hne _. cbn. by rewrite lookup_insert_ne.
Qed.

Lemma wp_new o (Q : Z -> Mem -> Prop) m :
  mem_ok m ->
  (forall h m', h = mm_next m -> 0 < h -> mem_ok m' -> at_ m' h o -> only h m m' -> mm_objs m !! h = None -> Q h m') ->
  wp (new_obj o) Q m.
Proof. intros Hm HQ. apply wp_new_calls; [done|]. intros h m' _. apply HQ. Qed.

(** A call of the allocator changes no object. *)
Lemma wp_allocates_calls (Q : bool -> Mem -> Prop) m :
  (forall m', mm_objs m' = mm_objs m -> mm_next m' = mm_next m -> mm_calls m' = S (mm_calls m) ->
     Q (malloc_ok (mm_calls m)) m') ->
  wp allocates Q m.
Proof. intros HQ. by apply HQ. Qed.

Lemma wp_allocates (Q : bool -> Mem -> Prop) m :
  (forall m', mm_objs m' = mm_objs m -> mm_next m' = mm_next m -> Q (malloc_ok (mm_calls m)) m') ->
  wp allocates Q m.
Proof. intros HQ. apply wp_allocates_calls. intros m' E1 E2 _. by apply HQ. Qed.

Lemma same_ok m m' : mm_objs m' = mm_objs m -> mm_next m' = mm_next m -> mem_ok m -> mem_ok m'.
Proof. intros E1 E2 [? ?]. split; [lia|]. rewrite E1, E2. done. Qed.

Lemma same_only h m m' : mm_objs m' = mm_objs m -> mm_next m' = mm_next m -> only h m m'.
Proof. intros E1 E2. split; [lia|]. by rewrite E1. Qed.
End Wp.

(** ** Words of blocks *)

Lemma zlen_insert {A} (l : list A) i v : zlen (<[i := v]> l) = zlen l.
Proof. unfold zlen. by rewrite length_insert. Qed.

Lemma block_words_small n : 0 <= n < 2 ^ 60 -> block_words n = Z.to_nat n.
Proof. intros. unfold block_words. rewrite Z.mod_small by lia. by rewrite Z.div_mul. Qed.

Lemma zlen_resized `{Allocator} data n : zlen data <= n < 2 ^ 60 -> zlen (resized data n) = n.
Proof.
  intros. pose proof (zlen_nonneg data). unfold resized, uninit. rewrite block_words_small by lia.
  unfold zlen in *. rewrite length_app, length_take, length_map, length_seq. lia.
Qed.

Lemma take_resized `{Allocator} data n k :
  zlen data <= n < 2 ^ 60 -> (k <= length data)%nat -> take k (resized data n) = take k data.
Proof.
  intros. pose proof (zlen_nonneg data). unfold resized. rewrite block_words_small by lia. unfold zlen in *.
  rewrite take_app_le by (rewrite length_take; lia). rewrite take_take. f_equal. lia.
Qed.
