(* ===== verification/TkArray.v ===== *)
(** * Arrays of the runtime: [src/src/stdlib/tk_array.h] and the array functions
    of [src/src/stdlib/collections_glue.c]

    A value array is a block with a header of three words; its handle points
    behind the header.  Functions of the language that are passed to [map],
    [filter] and [reduce] are computations on the heap; [qsort] and the comparison
    it calls are parameters. *)

From Stdlib Require Import ZArith Lia String Ascii.
From stdpp Require Import base tactics list gmap.
From S2P Require Import Prelude Heap.
Open Scope Z_scope.

Definition TK_ARR_HDR : Z := 3.

Section Arrays.
Context `{Allocator}.

Definition ld_arr (h : Z) : MM TkArr :=
  do o <- ld h; match o with OArr a => ret a | _ => oob end.

(** ** [tk_array.h] *)

Definition tk_arr_len (h : Z) : MM Z :=
  if h =? 0 then ret 0 else do a <- ld_arr h; ret (ta_len a).

Definition tk_arr_setlen (h n : Z) : MM unit :=
  do a <- ld_arr h; st h (OArr (mkArr (ta_rc a) (ta_cap a) n (ta_data a))).

(** The handle, 0 when [malloc] fails. *)
Definition tk_arr_alloc (cap len : Z) : MM Z :=
  let cap := if cap <? len then len else cap in
  let cap := if cap <? 0 then 0 else cap in
  do ok <- allocates;
  if ok : bool then
    let words := block_words (cap + TK_ARR_HDR) in
    if (words <? 3)%nat then oob else new_obj (OArr (mkArr 1 cap len (uninit (words - 3))))
  else ret 0.

(** [p[i] = v] and [memcpy(p + i, src + j, n * sizeof(int64_t))] on the block of a
    handle. *)
Definition arr_set (h i v : Z) : MM unit :=
  do a <- ld_arr h; do d <- wr_word (ta_data a) i v; st h (OArr (mkArr (ta_rc a) (ta_cap a) (ta_len a) d)).
Definition arr_get (h i : Z) : MM Z := do a <- ld_arr h; rd_word (ta_data a) i.
Definition arr_copy (h : Z) (src : list Z) (j n : Z) : MM unit :=
  do s <- rd_range src j n;
  do a <- ld_arr h;
  if n <=? zlen (ta_data a) then
    st h (OArr (mkArr (ta_rc a) (ta_cap a) (ta_len a) (s ++ drop (Z.to_nat n) (ta_data a))))
  else oob.

(** ** [collections_glue.c] *)

Definition tk_array_retain (h : Z) : MM unit :=
  if h =? 0 then ret tt
  else do a <- ld_arr h; do rc <- i64 (ta_rc a + 1); st h (OArr (mkArr rc (ta_cap a) (ta_len a) (ta_data a))).

(** The elements of the block behind a handle. *)
Definition arr_words (h : Z) : MM (list Z) := do a <- ld_arr h; ret (ta_data a).

Definition tk_array_append_w (arr elem : Z) : MM Z :=
  do len <- tk_arr_len arr;
  do n <- i64 (len + 1);
  do h <- tk_arr_alloc n n;
  if h =? 0 then ret arr
  else
    do! when (0 <? len) (do src <- arr_words arr; arr_copy h src 0 len);
    do! arr_set h len elem;
    ret h.

Definition tk_array_append_inplace_w (arr elem : Z) : MM Z :=
  if arr =? 0 then
    do h <- tk_arr_alloc 1 1;
    do! when (negb (h =? 0)) (arr_set h 0 elem);
    ret h
  else
    do a <- ld_arr arr;
    let len := ta_len a in
    let cap := ta_cap a in
    if len <? cap then
      do! arr_set arr len elem;
      do n <- i64 (len + 1);
      do! tk_arr_setlen arr n;
      ret arr
    else
      do ncap <- (if 0 <? cap then i64 (cap * 2) else ret 1);
      do n <- i64 (len + 1);
      do h <- tk_arr_alloc ncap n;
      if h =? 0 then ret arr
      else
        do! when (0 <? len) (arr_copy h (ta_data a) 0 len);
        do! arr_set h len elem;
        ret h.

Definition tk_array_newarray_w : MM Z := tk_arr_alloc 0 0.
Definition tk_array_newstrarray_w : MM Z := tk_arr_alloc 0 0.
Definition tk_array_strarrayappend_w (arr s : Z) : MM Z := tk_array_append_w arr s.
Definition tk_array_arrayappend_w (arr elem : Z) : MM Z := tk_array_append_w arr elem.
Definition tk_array_appendarray_w (arr arr2 : Z) : MM Z := ret arr.
Definition tk_array_list_w (arr : Z) : MM Z := ret arr.

(** [for (i = 0; i < n; i++)] *)
Definition for_ (n : Z) (f : Z -> MM unit) : MM unit := each f (map Z.of_nat (seq 0 (Z.to_nat n))).

Definition tk_arr_map (arr : Z) (f : Z -> MM Z) : MM Z :=
  do a <- ld_arr arr;
  let len := ta_len a in
  do h <- tk_arr_alloc len len;
  if h =? 0 then ret arr
  else
    do! for_ len (fun i => do x <- arr_get arr i; do y <- f x; arr_set h i y);
    ret h.

(** [n] elements of [out] so far. *)
Fixpoint filter_loop (arr h : Z) (f : Z -> MM Z) (is_ : list Z) (n : Z) : MM Z :=
  match is_ with
  | [] => ret n
  | i :: is_ =>
      do x <- arr_get arr i;
      do y <- f x;
      if negb (y =? 0) then
        do x <- arr_get arr i; do! arr_set h n x; filter_loop arr h f is_ (n + 1)
      else filter_loop arr h f is_ n
  end.

Definition tk_arr_filter (arr : Z) (f : Z -> MM Z) : MM Z :=
  do a <- ld_arr arr;
  let len := ta_len a in
  do h <- tk_arr_alloc len len;
  if h =? 0 then ret arr
  else
    do n <- filter_loop arr h f (map Z.of_nat (seq 0 (Z.to_nat len))) 0;
    do! tk_arr_setlen h n;
    ret h.

Fixpoint reduce_loop (arr : Z) (f : Z -> Z -> MM Z) (is_ : list Z) (acc : Z) : MM Z :=
  match is_ with
  | [] => ret acc
  | i :: is_ => do x <- arr_get arr i; do acc <- f acc x; reduce_loop arr f is_ acc
  end.

Definition tk_arr_reduce (arr init : Z) (f : Z -> Z -> MM Z) : MM Z :=
  do a <- ld_arr arr;
  reduce_loop arr f (map Z.of_nat (seq 0 (Z.to_nat (ta_len a)))) init.

(** The comparison that [qsort] gets. *)
Definition tk_arr_sort_qsort_cmp (cmp : Z -> Z -> Z) (va vb : Z) : Z :=
  let r := cmp va vb in Z.b2z (0 <? r) - Z.b2z (r <? 0).

Definition tk_arr_sort (qsort : (Z -> Z -> Z) -> list Z -> list Z) (arr : Z) (cmp : Z -> Z -> Z) : MM Z :=
  do a <- ld_arr arr;
  let len := ta_len a in
  do h <- tk_arr_alloc len len;
  if h =? 0 then ret arr
  else
    do! when (0 <? len) (arr_copy h (ta_data a) 0 len);
    do b <- ld_arr h;
    do s <- rd_range (ta_data b) 0 len;
    do! arr_copy h (qsort (tk_arr_sort_qsort_cmp cmp) s) 0 len;
    ret h.

Definition tk_array_get_w (arr idx : Z) : MM Z :=
  if arr =? 0 then ret 0
  else
    do a <- ld_arr arr;
    if (idx <? 0) || (ta_len a <=? idx) then ret 0 else rd_word (ta_data a) idx.

Definition tk_array_length_w (arr : Z) : MM Z := if arr =? 0 then ret 0 else do a <- ld_arr arr; ret (ta_len a).
Definition tk_array_len_w (arr : Z) : MM Z := tk_array_length_w arr.
Definition tk_array_new_w : MM Z := tk_arr_alloc 0 0.
Definition tk_array_push_w (arr elem : Z) : MM Z := tk_array_append_w arr elem.

Definition tk_array_pop_w (arr : Z) : MM Z :=
  if arr =? 0 then ret 0
  else
    do a <- ld_arr arr;
    let len := ta_len a in
    if len <=? 0 then ret arr
    else
      do h <- tk_arr_alloc (len - 1) (len - 1);
      if h =? 0 then ret arr
      else do! when (0 <? len - 1) (arr_copy h (ta_data a) 0 (len - 1)); ret h.

Definition tk_sort_ints_w (arr : Z) : MM Z := ret arr.
Definition tk_sort_strs_w (arr : Z) : MM Z := ret arr.
Definition tk_collections_newarray_w : MM Z := tk_arr_alloc 0 0.
Definition tk_collections_append_w (arr item : Z) : MM Z := tk_array_append_w arr item.
Definition tk_collections_push_w (arr item : Z) : MM Z := tk_array_append_w arr item.
Definition tk_arr_push_w (arr item : Z) : MM Z := tk_array_append_w arr item.

Definition tk_arr_slice_w (arr start end_ : Z) : MM Z :=
  do len <- tk_arr_len arr;
  let start := if start <? 0 then 0 else start in
  let end_ := if len <? end_ then len else end_ in
  let start := if len <? start then len else start in
  do n <- i64 (end_ - start);
  let n := if n <? 0 then 0 else n in
  do h <- tk_arr_alloc n n;
  if h =? 0 then ret 0
  else do! when (0 <? n) (do src <- arr_words arr; arr_copy h src start n); ret h.
Definition tk_array_slice_w (arr start end_ : Z) : MM Z := tk_arr_slice_w arr start end_.

(** The first index from [i] on whose element passes a test. *)
Fixpoint index_loop (arr : Z) (p : Z -> MM bool) (is_ : list Z) : MM Z :=
  match is_ with
  | [] => ret (-1)
  | i :: is_ => do x <- arr_get arr i; do b <- p x; if b : bool then ret i else index_loop arr p is_
  end.

Definition tk_arr_indexof_w (arr v : Z) : MM Z :=
  if arr =? 0 then ret (-1)
  else do len <- tk_arr_len arr; index_loop arr (fun x => ret (x =? v)) (map Z.of_nat (seq 0 (Z.to_nat len))).

(** The string at an address. *)
Definition ld_str (h : Z) : MM (list Z) := do o <- ld h; match o with OStr s => ret s | _ => oob end.

Definition tk_arr_indexofstr_w (arr s : Z) : MM Z :=
  if (arr =? 0) || (s =? 0) then ret (-1)
  else
    do len <- tk_arr_len arr;
    index_loop arr (fun x =>
      if x =? 0 then ret false
      else do cand <- ld_str x; do needle <- ld_str s; ret (bytes_eqb cand needle))
      (map Z.of_nat (seq 0 (Z.to_nat len))).

Definition tk_arr_find_w (arr v : Z) : MM Z := tk_arr_indexof_w arr v.
Definition tk_arr_findstr_w (arr s : Z) : MM Z := tk_arr_indexofstr_w arr s.
Definition tk_arr_contains_w (arr v : Z) : MM Z := do i <- tk_arr_indexof_w arr v; ret (Z.b2z (0 <=? i)).
Definition tk_arr_containsstr_w (arr s : Z) : MM Z := do i <- tk_arr_indexofstr_w arr s; ret (Z.b2z (0 <=? i)).
Definition tk_array_contains_w (arr v : Z) : MM Z := tk_arr_contains_w arr v.
Definition tk_array_indexof_w (arr v : Z) : MM Z := tk_arr_indexof_w arr v.
Definition tk_array_find_w (arr v : Z) : MM Z := tk_arr_find_w arr v.

(** [tk_array_concat] of [tk_runtime.c]. *)
Definition tk_array_concat (a b : Z) : MM Z :=
  do la <- tk_arr_len a;
  do lb <- tk_arr_len b;
  do total <- i64 (la + lb);
  do h <- tk_arr_alloc total total;
  if h =? 0 then ret 0
  else
    do! for_ la (fun i => do x <- arr_get a i; arr_set h i x);
    do! for_ lb (fun i => do x <- arr_get b i; arr_set h (la + i) x);
    ret h.

End Arrays.
