(* ===== verification/Collections.v ===== *)
(** * Stacks, queues, sets and vectors: [src/src/stdlib/collections.c]

    Handles are 0 or the address of a [DynArr], [Queue] or [Set] on the heap. *)

From Stdlib Require Import ZArith Lia String Ascii.
From stdpp Require Import base tactics list gmap.
From S2P Require Import Prelude Heap TkArray.
Open Scope Z_scope.

Definition INIT_CAP : Z := 16.

Section Collections.
Context `{Allocator}.

(** C's [%]; the divisor 0 is undefined. *)
Definition c_rem {S} (a b : Z) : M S Z := if b =? 0 then oob else ret (Z.rem a b).

(** [memmove] inside a block. *)
Definition memmove {S} (data : list Z) (dst src n : Z) : M S (list Z) :=
  do s <- rd_range data src n;
  if (0 <=? dst) && (dst + n <=? zlen data) then
    ret (take (Z.to_nat dst) data ++ s ++ drop (Z.to_nat (dst + n)) data)
  else oob.

(** ** [DynArr] *)

Definition ld_dyn (h : Z) : MM DynArr := do o <- ld h; match o with ODyn a => ret a | _ => oob end.

Definition dynarr_new : MM Z :=
  do ok <- allocates;
  if negb ok then ret 0
  else
    do ok <- allocates;
    if negb ok then ret 0 else new_obj (ODyn (mkDyn (uninit (block_words INIT_CAP)) 0 INIT_CAP)).

(** [while (nc < need) nc *= 2;] *)
Definition double_cap (nc need : Z) : MM Z :=
  iter (S (Z.to_nat (need - nc))) (fun nc =>
    if nc <? need then do nc <- i64 (nc * 2); ret (inl nc) else ret (inr nc)) nc.

(** A failed [realloc] leaves the array as it is. *)
Definition dynarr_ensure (h need : Z) : MM unit :=
  do a <- ld_dyn h;
  if need <=? da_cap a then ret tt
  else
    do nc <- double_cap (da_cap a) need;
    do ok <- allocates;
    if negb ok then ret tt else st h (ODyn (mkDyn (resized (da_data a) nc) (da_len a) nc)).

Definition dynarr_push (h val : Z) : MM unit :=
  do a <- ld_dyn h;
  do need <- i64 (da_len a + 1);
  do! dynarr_ensure h need;
  do a <- ld_dyn h;
  do d <- wr_word (da_data a) (da_len a) val;
  st h (ODyn (mkDyn d (da_len a + 1) (da_cap a))).

(** ** [$stack] *)

Definition tk_stack_new : MM Z := dynarr_new.

Definition tk_stack_push (sh val : Z) : MM Z :=
  if sh =? 0 then ret sh else do! dynarr_push sh val; ret sh.

Definition tk_stack_pop (sh : Z) : MM Z :=
  if sh =? 0 then ret 0
  else
    do s <- ld_dyn sh;
    if da_len s =? 0 then ret 0
    else
      do! st sh (ODyn (mkDyn (da_data s) (da_len s - 1) (da_cap s)));
      rd_word (da_data s) (da_len s - 1).

Definition tk_stack_peek (sh : Z) : MM Z :=
  if sh =? 0 then ret 0
  else do s <- ld_dyn sh; if da_len s =? 0 then ret 0 else rd_word (da_data s) (da_len s - 1).

Definition tk_stack_len (sh : Z) : MM Z := if sh =? 0 then ret 0 else do s <- ld_dyn sh; ret (da_len s).

Definition tk_stack_empty (sh : Z) : MM Z :=
  if sh =? 0 then ret 1 else do s <- ld_dyn sh; ret (if da_len s =? 0 then 1 else 0).

(** ** [$queue] *)

Definition ld_queue (h : Z) : MM Queue := do o <- ld h; match o with OQueue q => ret q | _ => oob end.

Definition queue_alloc : MM Z :=
  do ok <- allocates;
  if negb ok then ret 0
  else
    do ok <- allocates;
    if negb ok then ret 0 else new_obj (OQueue (mkQueue (uninit (block_words INIT_CAP)) INIT_CAP 0 0)).

(** [nd[i] = q->data[(q->head + i) % q->cap]] for the indices [is_]. *)
Fixpoint linearise (q : Queue) (is_ : list Z) (nd : list Z) : MM (list Z) :=
  match is_ with
  | [] => ret nd
  | i :: is_ =>
      do j <- c_rem (qu_head q + i) (qu_cap q);
      do x <- rd_word (qu_data q) j;
      do nd <- wr_word nd i x;
      linearise q is_ nd
  end.

Definition queue_grow (h : Z) : MM unit :=
  do q <- ld_queue h;
  do nc <- i64 (qu_cap q * 2);
  do ok <- allocates;
  if negb ok then ret tt
  else
    do nd <- linearise q (map Z.of_nat (seq 0 (Z.to_nat (qu_len q)))) (uninit (block_words nc));
    st h (OQueue (mkQueue nd nc 0 (qu_len q))).

Definition tk_queue_new : MM Z := queue_alloc.

Definition tk_queue_push (qh val : Z) : MM Z :=
  if qh =? 0 then ret qh
  else
    do q <- ld_queue qh;
    do! when (qu_len q =? qu_cap q) (queue_grow qh);
    do q <- ld_queue qh;
    do tail <- c_rem (qu_head q + qu_len q) (qu_cap q);
    do d <- wr_word (qu_data q) tail val;
    do! st qh (OQueue (mkQueue d (qu_cap q) (qu_head q) (qu_len q + 1)));
    ret qh.

Definition tk_queue_pop (qh : Z) : MM Z :=
  if qh =? 0 then ret 0
  else
    do q <- ld_queue qh;
    if qu_len q =? 0 then ret 0
    else
      do val <- rd_word (qu_data q) (qu_head q);
      do head <- c_rem (qu_head q + 1) (qu_cap q);
      do! st qh (OQueue (mkQueue (qu_data q) (qu_cap q) head (qu_len q - 1)));
      ret val.

Definition tk_queue_peek (qh : Z) : MM Z :=
  if qh =? 0 then ret 0
  else do q <- ld_queue qh; if qu_len q =? 0 then ret 0 else rd_word (qu_data q) (qu_head q).

Definition tk_queue_len (qh : Z) : MM Z := if qh =? 0 then ret 0 else do q <- ld_queue qh; ret (qu_len q).

(** ** [$set] *)

Definition ld_set (h : Z) : MM DynArr := do o <- ld h; match o with OSet s => ret s | _ => oob end.

Definition set_alloc : MM Z :=
  do ok <- allocates;
  if negb ok then ret 0
  else
    do ok <- allocates;
    if negb ok then ret 0 else new_obj (OSet (mkDyn (uninit (block_words INIT_CAP)) 0 INIT_CAP)).

(** The index, and [*found]. *)
Definition set_bsearch (s : DynArr) (val : Z) : MM (Z * bool) :=
  iter (S (Z.to_nat (da_len s))) (fun '(lo, hi) =>
    if lo <? hi then
      let mid := lo + Z.quot (hi - lo) 2 in
      do x <- rd_word (da_data s) mid;
      if x <? val then ret (inl (mid + 1, hi))
      else if val <? x then ret (inl (lo, mid))
      else ret (inr (mid, true))
    else ret (inr (lo, false))) (0, da_len s).

Definition tk_set_new : MM Z := set_alloc.

(** Room for one more; [false] when [realloc] fails. *)
Definition set_room (sh : Z) : MM bool :=
  do s <- ld_set sh;
  if da_len s =? da_cap s then
    do nc <- i64 (da_cap s * 2);
    do ok <- allocates;
    if negb ok then ret false
    else do! st sh (OSet (mkDyn (resized (da_data s) nc) (da_len s) nc)); ret true
  else ret true.

Definition tk_set_add (sh val : Z) : MM Z :=
  if sh =? 0 then ret sh
  else
    do s <- ld_set sh;
    do '(idx, found) <- set_bsearch s val;
    if found : bool then ret sh
    else
      do room <- set_room sh;
      if negb room then ret sh
      else
        do s <- ld_set sh;
        do d <- (if idx <? da_len s then memmove (da_data s) (idx + 1) idx (da_len s - idx) else ret (da_data s));
        do d <- wr_word d idx val;
        do! st sh (OSet (mkDyn d (da_len s + 1) (da_cap s)));
        ret sh.

Definition tk_set_has (sh val : Z) : MM Z :=
  if sh =? 0 then ret 0
  else do s <- ld_set sh; do '(_, found) <- set_bsearch s val; ret (if found : bool then 1 else 0).

Definition tk_set_remove (sh val : Z) : MM Z :=
  if sh =? 0 then ret sh
  else
    do s <- ld_set sh;
    do '(idx, found) <- set_bsearch s val;
    if negb found then ret sh
    else
      do d <- (if idx <? da_len s - 1 then memmove (da_data s) idx (idx + 1) (da_len s - idx - 1)
               else ret (da_data s));
      do! st sh (OSet (mkDyn d (da_len s - 1) (da_cap s)));
      ret sh.

Definition tk_set_len (sh : Z) : MM Z := if sh =? 0 then ret 0 else do s <- ld_set sh; ret (da_len s).

(** ** [$vec] *)

Definition tk_vec_new : MM Z := dynarr_new.

Definition tk_vec_push (vh val : Z) : MM Z :=
  if vh =? 0 then ret vh else do! dynarr_push vh val; ret vh.

Definition tk_vec_pop (vh : Z) : MM Z :=
  if vh =? 0 then ret 0
  else
    do v <- ld_dyn vh;
    if da_len v =? 0 then ret 0
    else
      do! st vh (ODyn (mkDyn (da_data v) (da_len v - 1) (da_cap v)));
      rd_word (da_data v) (da_len v - 1).

Definition tk_vec_get (vh idx : Z) : MM Z :=
  if vh =? 0 then ret 0
  else
    do v <- ld_dyn vh;
    if (idx <? 0) || (da_len v <=? idx) then ret 0 else rd_word (da_data v) idx.

Definition tk_vec_set (vh idx val : Z) : MM Z :=
  if vh =? 0 then ret vh
  else
    do v <- ld_dyn vh;
    if (idx <? 0) || (da_len v <=? idx) then ret vh
    else
      do d <- wr_word (da_data v) idx val;
      do! st vh (ODyn (mkDyn d (da_len v) (da_cap v)));
      ret vh.

Definition tk_vec_len (vh : Z) : MM Z := if vh =? 0 then ret 0 else do v <- ld_dyn vh; ret (da_len v).

Definition tk_vec_tovec (arr : Z) : MM Z :=
  do v <- dynarr_new;
  if v =? 0 then ret 0
  else
    do! when (negb (arr =? 0)) (
      do a <- ld_arr arr;
      for_ (ta_len a) (fun i => do x <- arr_get arr i; dynarr_push v x));
    ret v.

Definition tk_vec_toarray (vh : Z) : MM Z :=
  do n <- tk_vec_len vh;
  do h <- tk_arr_alloc n n;
  if h =? 0 then ret 0
  else
    do! for_ n (fun i => do v <- ld_dyn vh; do x <- rd_word (da_data v) i; arr_set h i x);
    ret h.

(** ** The wrappers of [collections_glue.c] *)

Definition tk_stack_new_w := tk_stack_new.
Definition tk_stack_push_w := tk_stack_push.
Definition tk_stack_pop_w := tk_stack_pop.
Definition tk_stack_peek_w := tk_stack_peek.
Definition tk_stack_len_w := tk_stack_len.
Definition tk_stack_empty_w := tk_stack_empty.
Definition tk_queue_new_w := tk_queue_new.
Definition tk_queue_push_w := tk_queue_push.
Definition tk_queue_pop_w := tk_queue_pop.
Definition tk_queue_peek_w := tk_queue_peek.
Definition tk_queue_len_w := tk_queue_len.
Definition tk_set_new_w := tk_set_new.
Definition tk_set_add_w := tk_set_add.
Definition tk_set_has_w := tk_set_has.
Definition tk_set_remove_w := tk_set_remove.
Definition tk_set_len_w := tk_set_len.
Definition tk_vec_new_w := tk_vec_new.
Definition tk_vec_push_w := tk_vec_push.
Definition tk_vec_pop_w := tk_vec_pop.
Definition tk_vec_get_w := tk_vec_get.
Definition tk_vec_set_w := tk_vec_set.
Definition tk_vec_len_w := tk_vec_len.
Definition tk_vec_tovec_w := tk_vec_tovec.
Definition tk_vec_toarray_w := tk_vec_toarray.
End Collections.
