(* ===== verification/TkMap.v ===== *)
(** * Hash maps: the [tk_map_] functions of [src/src/stdlib/collections_glue.c]

    An open-addressing table of slots over the entries in the order of insertion.
    The keys of a map are addresses of strings or integers, by the tag it was
    created with.  [exit(1)] is the answer [None]. *)

From Stdlib Require Import ZArith Lia String Ascii.
From stdpp Require Import base tactics list gmap.
From S2P Require Import Prelude Heap TkArray.
Open Scope Z_scope.

Definition TK_MAP_KEY_STR : Z := 0.
Definition TK_MAP_KEY_INT : Z := 1.
Definition TK_MAP_MIN_SLOTS : Z := 16.
Definition TK_MAP_MIN_CAP : Z := 8.

(** [uint64_t] *)
Definition u64 (v : Z) : Z := v mod 2 ^ 64.

(** ** Hashes *)

(** [tk_map_hash_str] of the bytes before the terminator, and of NULL. *)
Definition fnv_basis : Z := 1469598103934665603.
Definition tk_map_hash_str (s : list Z) : Z := fold_left (fun h c => u64 (Z.lxor h c * 1099511628211)) s fnv_basis.

Definition tk_map_hash_int (k : Z) : Z :=
  let z := u64 (u64 k + 0x9e3779b97f4a7c15) in
  let z := u64 (Z.lxor z (Z.shiftr z 30) * 0xbf58476d1ce4e5b9) in
  let z := u64 (Z.lxor z (Z.shiftr z 27) * 0x94d049bb133111eb) in
  Z.lxor z (Z.shiftr z 31).

Section Maps.
Context `{Allocator}.

Definition ld_map (h : Z) : MM TkMapImpl := do o <- ld h; match o with OMap m => ret m | _ => oob end.

Definition tk_map_hash (m : TkMapImpl) (key : Z) : MM Z :=
  if tm_kind m =? TK_MAP_KEY_INT then ret (tk_map_hash_int key)
  else if key =? 0 then ret fnv_basis
  else do s <- ld_str key; ret (tk_map_hash_str s).

Definition tk_map_key_eq (m : TkMapImpl) (a b : Z) : MM bool :=
  if tm_kind m =? TK_MAP_KEY_INT then ret (a =? b)
  else if (a =? 0) || (b =? 0) then ret (a =? b)
  else do sa <- ld_str a; do sb <- ld_str b; ret (bytes_eqb sa sb).

(** [false]: the process exits with RT006. *)
Definition tk_map_check_key (m : TkMapImpl) (key : Z) : bool :=
  negb ((tm_kind m =? TK_MAP_KEY_STR) && ((key <? 0) || ((0 <? key) && (key <? 4096)))).

(** ** The table *)

Definition slot_mask (nslots : Z) : Z := u64 (nslots - 1).
Definition next_slot (i mask : Z) : Z := Z.land (u64 (i + 1)) mask.

(** The entry of a key with the hash [h], or -1. *)
Definition tk_map_find (m : TkMapImpl) (key h : Z) : MM Z :=
  if tm_nslots m =? 0 then ret (-1)
  else
    let mask := slot_mask (tm_nslots m) in
    iter (S (Z.to_nat (tm_nslots m))) (fun i =>
      do e <- rd_word (tm_slots m) i;
      if e <? 0 then ret (inr (-1))
      else
        do he <- rd_word (tm_hashes m) e;
        do eq <- (if he =? h then do k <- rd_word (tm_entries m) (2 * e); tk_map_key_eq m k key else ret false);
        if eq : bool then ret (inr e) else ret (inl (next_slot i mask))) (Z.land h mask).

Definition tk_map_slot_insert (nslots : Z) (hashes slots : list Z) (e : Z) : MM (list Z) :=
  let mask := slot_mask nslots in
  do h <- rd_word hashes e;
  iter (S (Z.to_nat nslots)) (fun i =>
    do x <- rd_word slots i;
    if 0 <=? x then ret (inl (next_slot i mask))
    else do slots <- wr_word slots i e; ret (inr slots)) (Z.land h mask).

(** [for (e = 0; e < len; e++) tk_map_slot_insert(m, e);] *)
Fixpoint insert_all (nslots : Z) (hashes slots : list Z) (es : list Z) : MM (list Z) :=
  match es with
  | [] => ret slots
  | e :: es => do slots <- tk_map_slot_insert nslots hashes slots e; insert_all nslots hashes slots es
  end.

(** [None] when [malloc] fails. *)
Definition tk_map_rehash (m : TkMapImpl) (nslots : Z) : MM (option TkMapImpl) :=
  do ok <- allocates;
  if negb ok then ret None
  else
    let ns := repeat (-1) (Z.to_nat ((nslots * 4) mod 2 ^ 64 / 4)) in
    do slots <- insert_all nslots (tm_hashes m) ns (map Z.of_nat (seq 0 (Z.to_nat (tm_len m))));
    ret (Some (mkMap (tm_entries m) (tm_len m) (tm_cap m) (tm_kind m) nslots slots (tm_hashes m))).

Definition tk_map_new_kind (kind : Z) : MM Z :=
  do ok <- allocates;
  if negb ok then ret 0 else new_obj (OMap (mkMap [] 0 0 kind 0 [] [])).
Definition tk_map_new : MM Z := tk_map_new_kind TK_MAP_KEY_STR.
Definition tk_map_new_int : MM Z := tk_map_new_kind TK_MAP_KEY_INT.

(** ** Insertion *)

(** Room for an entry and a hash; the struct as it then is, and [false] when a
    [realloc] fails. *)
Definition map_grow (m : TkMapImpl) : MM (TkMapImpl * bool) :=
  if tm_cap m <=? tm_len m then
    do nc <- (if tm_cap m =? 0 then ret TK_MAP_MIN_CAP else i32 (tm_cap m * 2));
    do ok <- allocates;
    if negb ok then ret (m, false)
    else
      let ne := resized (tm_entries m) (nc * 2) in
      do ok <- allocates;
      if negb ok then
        ret (mkMap ne (tm_len m) (tm_cap m) (tm_kind m) (tm_nslots m) (tm_slots m) (tm_hashes m), false)
      else
        ret (mkMap ne (tm_len m) nc (tm_kind m) (tm_nslots m) (tm_slots m) (resized (tm_hashes m) nc), true)
  else ret (m, true).

(** Keep the load at or below 0.7. *)
Definition map_load (m : TkMapImpl) : MM (TkMapImpl * bool) :=
  do n <- i32 (tm_len m + 1);
  do need <- i64 (n * 10);
  do have <- i64 (tm_nslots m * 7);
  if have <? need then
    do ns <- (if tm_nslots m =? 0 then ret TK_MAP_MIN_SLOTS else i64 (tm_nslots m * 2));
    do r <- tk_map_rehash m ns;
    match r with Some m => ret (m, true) | None => ret (m, false) end
  else ret (m, true).

(** [Some tt]: returned. *)
Definition tk_map_put (h key val : Z) : MM (option unit) :=
  if h =? 0 then ret (Some tt)
  else
    do m <- ld_map h;
    if negb (tk_map_check_key m key) then ret None
    else
      do hk <- tk_map_hash m key;
      do e <- tk_map_find m key hk;
      if 0 <=? e then
        do d <- wr_word (tm_entries m) (2 * e + 1) val;
        do! st h (OMap (mkMap d (tm_len m) (tm_cap m) (tm_kind m) (tm_nslots m) (tm_slots m) (tm_hashes m)));
        ret (Some tt)
      else
        do '(m, ok) <- map_grow m;
        do! st h (OMap m);
        if negb ok then ret (Some tt)
        else
          do '(m, ok) <- map_load m;
          do! st h (OMap m);
          if negb ok then ret (Some tt)
          else
            let e := tm_len m in
            do d <- wr_word (tm_entries m) (2 * e) key;
            do d <- wr_word d (2 * e + 1) val;
            do hs <- wr_word (tm_hashes m) e hk;
            do n <- i32 (tm_len m + 1);
            do slots <- tk_map_slot_insert (tm_nslots m) hs (tm_slots m) e;
            do! st h (OMap (mkMap d n (tm_cap m) (tm_kind m) (tm_nslots m) slots hs));
            ret (Some tt).

(** ** Lookup *)

(** The entry of a key in the map at [h], or -1. *)
Definition map_entry (h key : Z) : MM (option (TkMapImpl * Z)) :=
  do m <- ld_map h;
  if negb (tk_map_check_key m key) then ret None
  else do hk <- tk_map_hash m key; do e <- tk_map_find m key hk; ret (Some (m, e)).

Definition tk_map_getor_w (h key def : Z) : MM (option Z) :=
  if h =? 0 then ret (Some def)
  else
    do r <- map_entry h key;
    match r with
    | None => ret None
    | Some (m, e) => if 0 <=? e then do v <- rd_word (tm_entries m) (2 * e + 1); ret (Some v) else ret (Some def)
    end.

Definition tk_map_get (h key : Z) : MM (option Z) :=
  if h =? 0 then ret (Some 0)
  else
    do r <- map_entry h key;
    match r with
    | None => ret None
    | Some (m, e) => if 0 <=? e then do v <- rd_word (tm_entries m) (2 * e + 1); ret (Some v) else ret (Some 0)
    end.

Definition tk_map_contains_w (h key : Z) : MM (option Z) :=
  if h =? 0 then ret (Some 0)
  else do r <- map_entry h key; match r with None => ret None | Some (_, e) => ret (Some (Z.b2z (0 <=? e))) end.

Definition tk_map_len_w (h : Z) : MM Z := if h =? 0 then ret 0 else do m <- ld_map h; ret (tm_len m).

Definition tk_map_keys_w (h : Z) : MM Z :=
  if h =? 0 then ret 0
  else
    do m <- ld_map h;
    do a <- tk_arr_alloc (tm_len m) (tm_len m);
    if a =? 0 then ret 0
    else do! for_ (tm_len m) (fun i => do k <- rd_word (tm_entries m) (2 * i); arr_set a i k); ret a.

(** ** Copies *)

(** [(double)len > 0.7 * (double)ns], where [ns] is a power of two: the double
    nearest to 0.7 is 0x16666666666666 / 2^53, and the product is exact. *)
Definition over_load (len ns : Z) : bool := 0x16666666666666 * ns <? len * 2 ^ 53.

Definition clone_slots (len : Z) : MM Z :=
  iter (S (Z.to_nat (2 * len))) (fun ns =>
    if over_load len ns then do ns <- i64 (ns * 2); ret (inl ns) else ret (inr ns)) TK_MAP_MIN_SLOTS.

(** 0 when an allocation fails; what it had allocated is freed. *)
Definition tk_map_clone (src : TkMapImpl) : MM Z :=
  do ok <- allocates;
  if negb ok then ret 0
  else if 0 <? tm_len src then
    let cap := if TK_MAP_MIN_CAP <? tm_len src then tm_len src else TK_MAP_MIN_CAP in
    do ok1 <- allocates;
    do ok2 <- allocates;
    if negb (ok1 && ok2) then ret 0
    else
      do es <- rd_range (tm_entries src) 0 (2 * tm_len src);
      do hs <- rd_range (tm_hashes src) 0 (tm_len src);
      let es := es ++ drop (length es) (uninit (block_words (2 * cap))) in
      let hs := hs ++ drop (length hs) (uninit (block_words cap)) in
      do ns <- clone_slots (tm_len src);
      do r <- tk_map_rehash (mkMap es (tm_len src) cap (tm_kind src) 0 [] hs) ns;
      match r with None => ret 0 | Some m => new_obj (OMap m) end
  else new_obj (OMap (mkMap [] 0 0 (tm_kind src) 0 [] [])).

Definition tk_map_set_w (h key val : Z) : MM (option Z) :=
  if h =? 0 then ret (Some h)
  else
    do src <- ld_map h;
    do cp <- tk_map_clone src;
    if cp =? 0 then ret (Some h)
    else do r <- tk_map_put cp key val; match r with None => ret None | Some _ => ret (Some cp) end.

Definition tk_map_set_inplace_w (h key val : Z) : MM (option Z) :=
  do r <- tk_map_put h key val; match r with None => ret None | Some _ => ret (Some h) end.

Definition tk_map_put_w (h key val : Z) : MM (option Z) :=
  if h =? 0 then ret (Some 0)
  else do r <- tk_map_put h key val; match r with None => ret None | Some _ => ret (Some 0) end.
Definition tk_map_getint_w (h key : Z) : MM (option Z) := if h =? 0 then ret (Some 0) else tk_map_get h key.
Definition tk_map_setint_w (h key val : Z) : MM (option Z) := tk_map_put_w h key val.
End Maps.
