(* ===== verification/Containers.v ===== *)
(** * What a container promises

    The interface between a container of the runtime and the data it stands for:
    each call on the handle answers as the operation on the abstract value does,
    and touches no other object.  Any sequence of calls then does so too. *)

From Stdlib Require Import ZArith Lia String Ascii.
From stdpp Require Import base tactics list gmap.
From S2P Require Import Prelude Heap.
Open Scope Z_scope.

(** Every allocation succeeds. *)
Class Plenty `{Allocator} := plenty : forall n, malloc_ok n = true.

(** The number of elements up to which no size of a [DynArr] or [Queue] leaves 64 bits. *)
Definition MAX_SIZE : Z := 2 ^ 58.

(** The operations and what they promise while the size is below [ct_max].  An
    operation on the abstract value gives the new one, and the answer: [None] is
    the handle. *)
Class Container `{Allocator} (Op A : Type) := {
  ct_new : MM Z;
  ct_exec : Z -> Op -> MM Z;
  ct_empty : A;
  ct_spec : Op -> A -> A * option Z;
  ct_size : A -> Z;
  ct_max : Z;
  ct_rep : Mem -> Obj -> A -> Prop;
  ct_pre : Mem -> Op -> Prop;
  ct_size_empty : ct_size ct_empty = 0;
  ct_grows op a : ct_size (fst (ct_spec op a)) <= ct_size a + 1;
  ct_new_ok m :
    Plenty -> mem_ok m ->
    wp ct_new (fun h m' => exists o, 0 < h /\ mm_objs m !! h = None /\ mem_ok m' /\ at_ m' h o /\ only h m m' /\
                                   ct_rep m' o ct_empty) m;
  ct_exec_ok m h o a op :
    Plenty -> mem_ok m -> at_ m h o -> ct_rep m o a -> ct_pre m op -> ct_size a < ct_max ->
    wp (ct_exec h op) (fun r m' => exists o', mem_ok m' /\ at_ m' h o' /\ only h m m' /\
                                     ct_rep m' o' (fst (ct_spec op a)) /\ r = default h (snd (ct_spec op a))) m;
  ct_pre_stable m m' h op :
    mem_ok m -> (forall o, at_ m h o -> exists a, ct_rep m o a) -> only h m m' -> ct_pre m op -> ct_pre m' op
}.

Section Traces.
Context `{Container Op A} (Hp : Plenty).

(** Calls one after the other, and their answers. *)
Fixpoint calls (h : Z) (ops : list Op) : MM (list Z) :=
  match ops with
  | [] => ret []
  | op :: ops => do r <- ct_exec h op; do rs <- calls h ops; ret (r :: rs)
  end.

Fixpoint answers (a : A) (ops : list Op) : list (option Z) :=
  match ops with
  | [] => []
  | op :: ops => snd (ct_spec op a) :: answers (fst (ct_spec op a)) ops
  end.

Definition final (a : A) (ops : list Op) : A := fold_left (fun a op => fst (ct_spec op a)) ops a.

Lemma calls_ok ops : forall m h o a,
  mem_ok m -> at_ m h o -> ct_rep m o a -> Forall (ct_pre m) ops -> ct_size a + zlen ops <= ct_max ->
  wp (calls h ops) (fun rs m' => exists o', mem_ok m' /\ at_ m' h o' /\ only h m m' /\
    ct_rep m' o' (final a ops) /\ rs = map (default h) (answers a ops)) m.
Proof.
  induction ops as [|op ops IH]; intros m h o a Hm Ho Hr Hpre Hs; cbn [calls answers map].
  - apply wp_ret. exists o. split_and!; [done|done|apply only_refl|done|done].
  - apply Forall_cons in Hpre as [Hpre Hpres]. rewrite zlen_cons in Hs. pose proof (zlen_nonneg ops).
    eapply wp_seq; [eapply ct_exec_ok; [done..|lia]|]. intros r m1 (o1 & Hm1 & Ho1 & Hon & Hr1 & ->).
    cbn beta. pose proof (ct_grows op a). eapply wp_seq.
    + eapply IH; [done|exact Ho1|exact Hr1| |lia]. eapply Forall_impl; [exact Hpres|].
      intros op' Hop'. eapply ct_pre_stable; [exact Hm| |exact Hon|exact Hop'].
      intros o' Ho'. unfold at_ in *. rewrite Ho in Ho'. injection Ho' as <-. by exists a.
    + intros rs m2 (o2 & Hm2 & Ho2 & Hon2 & Hr2 & ->). cbn beta. apply wp_ret. exists o2.
      split_and!; [done|done|by eapply only_trans|done|done].
Qed.

(** From a new container. *)
Lemma new_calls_ok ops m :
  mem_ok m -> Forall (ct_pre m) ops -> zlen ops <= ct_max ->
  wp (do h <- ct_new; do rs <- calls h ops; ret (h, rs)) (fun '(h, rs) m' =>
    rs = map (default h) (answers ct_empty ops) /\ mem_ok m' /\ only h m m' /\ mm_objs m !! h = None /\
    exists o, at_ m' h o /\ ct_rep m' o (final ct_empty ops)) m.
Proof.
  intros Hm Hpre Hs. eapply wp_seq; [by apply ct_new_ok|].
  intros h m1 (o & Hh & Hf & Hm1 & Ho & Hon & Hr). cbn beta. eapply wp_seq.
  - eapply (calls_ok ops m1 h o ct_empty Hm1 Ho Hr); [|rewrite ct_size_empty; lia].
    eapply Forall_impl; [exact Hpre|]. intros op Hop. eapply ct_pre_stable; [exact Hm| |exact Hon|exact Hop].
    intros o' Ho'. unfold at_ in Ho'. by rewrite Hf in Ho'.
  - intros rs m2 (o2 & Hm2 & Ho2 & Hon2 & Hr2 & ->). cbn beta. apply wp_ret.
    split_and!; [done|done|by eapply only_trans|done|by exists o2].
Qed.
End Traces.
