(* ===== verification/SeqFacts.v ===== *)
(** * Stacks, vectors, queues and sets as their abstract values *)

From Stdlib Require Import ZArith Lia String Ascii.
From stdpp Require Import base tactics list gmap sorting.
From S2P Require Import Prelude Heap TkArray Collections Containers.
Open Scope Z_scope.

(** * Stacks, vectors and queues are lists *)

(** * Stacks and vectors are lists

    A [DynArr] holds the elements of a list; its capacity covers them and doubles. *)

(** The array is full up to [l]; the growth of a full array stays below 2^60. *)
Record dyn_rep (a : DynArr) (l : list Z) : Prop := {
  dr_len : da_len a = zlen l;
  dr_cap : da_cap a = zlen (da_data a);
  dr_fits : zlen l <= da_cap a;
  dr_bound : INIT_CAP <= da_cap a <= 2 ^ 59;
  dr_data : take (length l) (da_data a) = l
}.

Lemma dyn_rep_lookup a l i :
  dyn_rep a l -> 0 <= i < zlen l -> byte_at (da_data a) i = byte_at l i.
Proof.
  intros H Hi. unfold byte_at. rewrite <- (dr_data _ _ H) at 1. rewrite !nth_lookup, lookup_take, decide_True; [done|].
  unfold zlen in Hi. lia.
Qed.

Section Facts.
Context `{Allocator} (Hp : Plenty).

Lemma dynarr_new_ok m :
  mem_ok m ->
  wp dynarr_new (fun h m' => exists a, 0 < h /\ mm_objs m !! h = None /\ mem_ok m' /\ at_ m' h (ODyn a) /\ only h m m' /\
                               dyn_rep a []) m.
Proof.
  intros Hm. unfold dynarr_new. apply wp_bind, wp_allocates. intros m1 E1 N1. rewrite (Hp _). cbn [negb].
  apply wp_bind, wp_allocates. intros m2 E2 N2. rewrite (Hp _). cbn [negb].
  assert (E : mm_objs m2 = mm_objs m) by congruence. assert (N : mm_next m2 = mm_next m) by congruence.
  apply wp_new; [by eapply same_ok|]. intros h m' _ Hh Hm' Ho Hon Hf. eexists. rewrite E in Hf.
  split_and!; [done|done|done|exact Ho|by eapply only_trans; [apply same_only|]|].
  split; cbn; [done|done|done|done|]. done.
Qed.

Lemma double_cap_ok nc need (m : Mem) :
  0 < nc -> nc < need -> need <= 2 * nc -> need < 2 ^ 62 -> wp (double_cap nc need) (fun r m' => r = 2 * nc /\ m' = m) m.
Proof.
  intros. unfold double_cap. replace (S (Z.to_nat (need - nc))) with (S (S (pred (Z.to_nat (need - nc))))) by lia.
  cbn [iter]. rewrite (proj2 (Z.ltb_lt nc need)) by done. apply wp_bind, wp_bind, wp_i64; [lia|]. apply wp_ret.
  cbv beta iota. rewrite (proj2 (Z.ltb_ge (nc * 2) need)) by lia. apply wp_bind, wp_ret. apply wp_ret. split; [lia|done].
Qed.

(** Room for one more element. *)
Lemma dynarr_ensure_ok m h a l :
  mem_ok m -> at_ m h (ODyn a) -> dyn_rep a l -> zlen l < MAX_SIZE ->
  wp (dynarr_ensure h (zlen l + 1)) (fun _ m' => exists a', mem_ok m' /\ at_ m' h (ODyn a') /\ only h m m' /\
    dyn_rep a' l /\ zlen l < da_cap a') m.
Proof.
  intros Hm Ho Hr Hs. unfold dynarr_ensure, ld_dyn. apply wp_bind, wp_bind. eapply wp_ld; [exact Ho|]. apply wp_ret.
  destruct (zlen l + 1 <=? da_cap a) eqn:E; zb.
  { apply wp_ret. exists a. split_and!; [done|done|apply only_refl|done|lia]. }
  destruct Hr as [Hl Hc Hf Hb Hd]. unfold MAX_SIZE, INIT_CAP in *.
  eapply wp_seq; [apply double_cap_ok; lia|]. intros nc m0 [-> ->]. cbn beta.
  apply wp_bind, wp_allocates. intros m1 E1 N1. rewrite (Hp _). cbn [negb].
  eapply wp_st; [by eapply same_ok|unfold at_; rewrite E1; exact Ho|]. intros m' Hm' Ho' Hon. eexists.
  split_and!; [done|exact Ho'|by eapply only_trans; [apply same_only|]| |cbn; lia].
  assert (Hz : zlen (resized (da_data a) (2 * da_cap a)) = 2 * da_cap a) by (apply zlen_resized; lia).
  split; cbn; [done|done|lia|unfold INIT_CAP; lia|]. rewrite take_resized; [done|lia|]. unfold zlen in *. lia.
Qed.

Lemma insert_end (d l : list Z) v :
  take (length l) d = l -> (length l < length d)%nat -> take (length (l ++ [v])) (<[length l := v]> d) = l ++ [v].
Proof.
  intros Hd Hl. rewrite length_app. cbn [length]. rewrite Nat.add_1_r.
  rewrite (take_S_r _ _ v) by by rewrite list_lookup_insert_eq. by rewrite take_insert_ge, Hd by lia.
Qed.

Lemma dynarr_push_ok m h a l v :
  mem_ok m -> at_ m h (ODyn a) -> dyn_rep a l -> zlen l < MAX_SIZE ->
  wp (dynarr_push h v) (fun _ m' => exists a', mem_ok m' /\ at_ m' h (ODyn a') /\ only h m m' /\ dyn_rep a' (l ++ [v])) m.
Proof.
  intros Hm Ho Hr Hs. unfold dynarr_push, ld_dyn at 1. pose proof (zlen_nonneg l). unfold MAX_SIZE in *.
  apply wp_bind, wp_bind. eapply wp_ld; [exact Ho|]. apply wp_ret. rewrite (dr_len _ _ Hr).
  apply wp_bind, wp_i64; [lia|]. eapply wp_seq; [by apply (dynarr_ensure_ok m h a l)|].
  intros _ m1 (a1 & Hm1 & Ho1 & Hon & [Hl Hc Hf Hb Hd] & Hlt). cbn beta. unfold ld_dyn.
  apply wp_bind, wp_bind. eapply wp_ld; [exact Ho1|]. apply wp_ret.
  apply wp_bind, wp_wr_word; [lia|]. eapply wp_st; [done|exact Ho1|]. intros m' Hm' Ho' Hon'. eexists.
  split_and!; [done|exact Ho'|by eapply only_trans|].
  replace (Z.to_nat (da_len a1)) with (length l) by (rewrite Hl; unfold zlen; lia).
  split; cbn; rewrite ?zlen_insert, ?zlen_app; change (zlen [v]) with 1; [lia|lia|lia|lia|].
  apply insert_end; [done|]. unfold zlen in *. lia.
Qed.

(** One element less. *)
Lemma dyn_rep_pop a l : dyn_rep a l -> l <> [] -> dyn_rep (mkDyn (da_data a) (da_len a - 1) (da_cap a)) (take (length l - 1) l).
Proof.
  intros [Hl Hc Hf Hb Hd] Hne. assert (0 < length l)%nat by (destruct l; [done|cbn; lia]).
  split; cbn; [unfold zlen in *; rewrite length_take; lia|done|unfold zlen in *; rewrite length_take; lia|done|].
  replace (take (length l - 1) l) with (take (length l - 1) (take (length l) (da_data a))) by by rewrite Hd.
  rewrite !take_take. f_equal. rewrite length_take. unfold zlen in *. lia.
Qed.

Lemma last_take l : l <> [] -> take (length l - 1) l ++ [byte_at l (zlen l - 1)] = l.
Proof.
  intros Hne. destruct (exists_last Hne) as (k & x & ->). rewrite length_app, zlen_app. cbn [length]. change (zlen [x]) with 1.
  replace (length k + 1 - 1)%nat with (length k) by lia. rewrite take_app_length. f_equal.
  unfold byte_at, zlen. replace (Z.to_nat (Z.of_nat (length k) + 1 - 1)) with (length k) by lia.
  by rewrite nth_middle.
Qed.

(** ** Vectors *)

Inductive VecOp := VPush (v : Z) | VPop | VGet (i : Z) | VSet (i v : Z) | VLen.

Definition vec_exec (h : Z) (op : VecOp) : MM Z :=
  match op with
  | VPush v => tk_vec_push h v
  | VPop => tk_vec_pop h
  | VGet i => tk_vec_get h i
  | VSet i v => tk_vec_set h i v
  | VLen => tk_vec_len h
  end.

(** On the list of the elements; a read outside gives 0 and a write outside nothing. *)
Definition vec_spec (op : VecOp) (l : list Z) : list Z * option Z :=
  match op with
  | VPush v => (l ++ [v], None)
  | VPop => (take (length l - 1) l, Some (default 0 (last l)))
  | VGet i => (l, Some (if 0 <=? i then default 0 (l !! Z.to_nat i) else 0))
  | VSet i v => (if 0 <=? i then <[Z.to_nat i := v]> l else l, None)
  | VLen => (l, Some (zlen l))
  end.

Definition vec_obj (m : Mem) (o : Obj) (l : list Z) : Prop := exists a, o = ODyn a /\ dyn_rep a l.

Lemma ld_dyn_ok m h a (Q : DynArr -> Mem -> Prop) : at_ m h (ODyn a) -> Q a m -> wp (ld_dyn h) Q m.
Proof. intros Ho HQ. unfold ld_dyn. apply wp_bind. eapply wp_ld; [exact Ho|]. by apply wp_ret. Qed.

Lemma byte_at_lookup l i : 0 <= i < zlen l -> l !! Z.to_nat i = Some (byte_at l i).
Proof.
  intros Hi. unfold byte_at. rewrite nth_lookup. destruct (l !! Z.to_nat i) eqn:E; [done|].
  apply lookup_ge_None in E. unfold zlen in Hi. lia.
Qed.

Lemma last_byte_at l : l <> [] -> last l = Some (byte_at l (zlen l - 1)).
Proof. intros Hne. rewrite <- (last_take l Hne) at 1. by rewrite last_snoc. Qed.

Lemma dyn_rep_insert a l i v :
  dyn_rep a l -> 0 <= i < zlen l -> dyn_rep (mkDyn (<[Z.to_nat i := v]> (da_data a)) (da_len a) (da_cap a)) (<[Z.to_nat i := v]> l).
Proof.
  intros [Hl Hc Hf Hb Hd] Hi. split; cbn; rewrite ?zlen_insert; [done..|].
  rewrite length_insert, take_insert_lt by (unfold zlen in Hi; lia). by rewrite Hd.
Qed.

Lemma dyn_get_ok m h a l i :
  at_ m h (ODyn a) -> dyn_rep a l ->
  wp (if (i <? 0) || (da_len a <=? i) then ret 0 else rd_word (da_data a) i)
     (fun r m' => r = (if 0 <=? i then default 0 (l !! Z.to_nat i) else 0) /\ m' = m) m.
Proof.
  intros Ho Hr. rewrite (dr_len _ _ Hr). destruct (i <? 0) eqn:E1; zb; cbn [orb].
  { apply wp_ret. by rewrite (proj2 (Z.leb_gt 0 i)) by lia. }
  rewrite (proj2 (Z.leb_le 0 i)) by done. destruct (zlen l <=? i) eqn:E2; zb.
  - apply wp_ret. rewrite lookup_ge_None_2; [done|]. unfold zlen in E2. lia.
  - apply wp_rd_word. { rewrite <- (dr_cap _ _ Hr). pose proof (dr_fits _ _ Hr). lia. }
    rewrite (dyn_rep_lookup a l) by (done || lia). rewrite byte_at_lookup by lia. done.
Qed.

Lemma dyn_pop_ok m h a l :
  mem_ok m -> at_ m h (ODyn a) -> dyn_rep a l ->
  wp (if da_len a =? 0 then ret 0
      else do! st h (ODyn (mkDyn (da_data a) (da_len a - 1) (da_cap a))); rd_word (da_data a) (da_len a - 1))
     (fun r m' => exists a', mem_ok m' /\ at_ m' h (ODyn a') /\ only h m m' /\ dyn_rep a' (take (length l - 1) l) /\
        r = default 0 (last l)) m.
Proof.
  intros Hm Ho Hr. rewrite (dr_len _ _ Hr). destruct (zlen l =? 0) eqn:E; zb.
  - destruct l; [|rewrite zlen_cons in E; pose proof (zlen_nonneg l); lia]. apply wp_ret. exists a.
    split_and!; [done|done|apply only_refl|done|done].
  - assert (Hne : l <> []) by by intros ->. pose proof (zlen_nonneg l). rewrite <- (dr_len _ _ Hr).
    apply wp_bind. eapply wp_st; [done|exact Ho|]. intros m' Hm' Ho' Hon. rewrite (dr_len _ _ Hr).
    apply wp_rd_word. { rewrite <- (dr_cap _ _ Hr). pose proof (dr_fits _ _ Hr). lia. }
    eexists. split_and!; [done|exact Ho'|done| |].
    + by apply dyn_rep_pop.
    + rewrite (dyn_rep_lookup a l) by (done || lia). by rewrite last_byte_at.
Qed.

Lemma vec_exec_ok m h o l op :
  mem_ok m -> at_ m h o -> vec_obj m o l -> True -> zlen l < MAX_SIZE ->
  wp (vec_exec h op) (fun r m' => exists o', mem_ok m' /\ at_ m' h o' /\ only h m m' /\
    vec_obj m' o' (fst (vec_spec op l)) /\ r = default h (snd (vec_spec op l))) m.
Proof.
  intros Hm Ho (a & -> & Hr) _ Hs. assert (Hh : (h =? 0) = false) by (apply Z.eqb_neq; apply Hm in Ho; lia).
  destruct op as [v| |i|i v|]; cbn [vec_exec vec_spec fst snd default];
    unfold tk_vec_push, tk_vec_pop, tk_vec_get, tk_vec_set, tk_vec_len; rewrite Hh.
  - eapply wp_seq; [by apply (dynarr_push_ok m h a l)|]. intros _ m' (a' & ? & ? & ? & ?). cbn beta. apply wp_ret.
    exists (ODyn a'). split_and!; [done..|by exists a'|done].
  - apply wp_bind. eapply ld_dyn_ok; [exact Ho|]. eapply wp_conseq; [by apply dyn_pop_ok|].
    intros r m' (a' & ? & ? & ? & ? & ->). exists (ODyn a'). split_and!; [done..|by exists a'|done].
  - apply wp_bind. eapply ld_dyn_ok; [exact Ho|]. eapply wp_conseq; [by eapply dyn_get_ok|].
    intros r m' [-> ->]. exists (ODyn a). split_and!; [done|done|apply only_refl|by exists a|done].
  - apply wp_bind. eapply ld_dyn_ok; [exact Ho|]. rewrite (dr_len _ _ Hr).
    destruct ((i <? 0) || (zlen l <=? i)) eqn:E.
    + apply wp_ret. exists (ODyn a). split_and!; [done|done|apply only_refl| |done]. exists a. split; [done|].
      destruct (0 <=? i) eqn:E0; zb; [|done]. apply orb_true_iff in E as [E|E]; zb; [lia|].
      rewrite list_insert_ge by (unfold zlen in E; lia). done.
    + zb. rewrite (proj2 (Z.leb_le 0 i)) by done.
      apply wp_bind, wp_wr_word. { rewrite <- (dr_cap _ _ Hr). pose proof (dr_fits _ _ Hr). lia. }
      apply wp_bind. eapply wp_st; [done|exact Ho|]. intros m' Hm' Ho' Hon. apply wp_ret. eexists.
      split_and!; [done|exact Ho'|done| |done]. eexists. split; [done|]. rewrite <- (dr_len _ _ Hr).
      apply dyn_rep_insert; [done|lia].
  - apply wp_bind. eapply ld_dyn_ok; [exact Ho|]. apply wp_ret. exists (ODyn a).
    split_and!; [done|done|apply only_refl|by exists a|]. cbn. apply Hr.
Qed.

(** ** Stacks *)

Inductive StackOp := SPush (v : Z) | SPop | SPeek | SLen | SEmpty.

Definition stack_exec (h : Z) (op : StackOp) : MM Z :=
  match op with
  | SPush v => tk_stack_push h v
  | SPop => tk_stack_pop h
  | SPeek => tk_stack_peek h
  | SLen => tk_stack_len h
  | SEmpty => tk_stack_empty h
  end.

(** On a list whose head is the top; an empty stack answers 0. *)
Definition stack_spec (op : StackOp) (l : list Z) : list Z * option Z :=
  match op with
  | SPush v => (v :: l, None)
  | SPop => (tl l, Some (hd 0 l))
  | SPeek => (l, Some (hd 0 l))
  | SLen => (l, Some (zlen l))
  | SEmpty => (l, Some (match l with [] => 1 | _ => 0 end))
  end.

Definition stack_obj (m : Mem) (o : Obj) (l : list Z) : Prop := exists a, o = ODyn a /\ dyn_rep a (rev l).

Lemma hd_last l : hd 0 l = default 0 (last (rev l)).
Proof. destruct l as [|x l]; [done|]. cbn [rev hd]. by rewrite last_snoc. Qed.

Lemma take_rev (l : list Z) : take (length (rev l) - 1) (rev l) = rev (tl l).
Proof.
  destruct l as [|x l]; [done|]. cbn [rev tl]. rewrite length_app. cbn [length].
  replace (length (rev l) + 1 - 1)%nat with (length (rev l)) by lia. apply take_app_length.
Qed.

Lemma zlen_rev (l : list Z) : zlen (rev l) = zlen l.
Proof. unfold zlen. by rewrite length_rev. Qed.

Lemma stack_exec_ok m h o l op :
  mem_ok m -> at_ m h o -> stack_obj m o l -> True -> zlen l < MAX_SIZE ->
  wp (stack_exec h op) (fun r m' => exists o', mem_ok m' /\ at_ m' h o' /\ only h m m' /\
    stack_obj m' o' (fst (stack_spec op l)) /\ r = default h (snd (stack_spec op l))) m.
Proof.
  intros Hm Ho (a & -> & Hr) _ Hs. assert (Hh : (h =? 0) = false) by (apply Z.eqb_neq; apply Hm in Ho; lia).
  destruct op as [v| | | |]; cbn [stack_exec stack_spec fst snd default];
    unfold tk_stack_push, tk_stack_pop, tk_stack_peek, tk_stack_len, tk_stack_empty; rewrite Hh.
  - eapply wp_seq; [apply (dynarr_push_ok m h a (rev l)); [done..|by rewrite zlen_rev]|].
    intros _ m' (a' & ? & ? & ? & ?). cbn beta. apply wp_ret. exists (ODyn a'). split_and!; [done..|by exists a'|done].
  - apply wp_bind. eapply ld_dyn_ok; [exact Ho|]. eapply wp_conseq; [by apply dyn_pop_ok|].
    intros r m' (a' & ? & ? & ? & Hr' & ->). rewrite take_rev in Hr'. exists (ODyn a').
    split_and!; [done..|by exists a'|symmetry; apply hd_last].
  - apply wp_bind. eapply ld_dyn_ok; [exact Ho|]. rewrite (dr_len _ _ Hr).
    assert (Hres : forall r, r = default 0 (last (rev l)) -> exists o', mem_ok m /\ at_ m h o' /\ only h m m /\
      stack_obj m o' l /\ r = hd 0 l).
    { intros r ->. exists (ODyn a). split_and!; [done|done|apply only_refl|by exists a|symmetry; apply hd_last]. }
    destruct (zlen (rev l) =? 0) eqn:E; zb.
    + apply wp_ret, Hres. destruct (rev l) as [|x k]; [done|]. rewrite zlen_cons in E. pose proof (zlen_nonneg k). lia.
    + assert (Hne : rev l <> []) by (intros E'; by rewrite E' in E). pose proof (zlen_nonneg (rev l)).
      apply wp_rd_word. { rewrite <- (dr_cap _ _ Hr). pose proof (dr_fits _ _ Hr). lia. }
      apply Hres. rewrite (dyn_rep_lookup a (rev l)) by (done || lia). by rewrite last_byte_at.
  - apply wp_bind. eapply ld_dyn_ok; [exact Ho|]. apply wp_ret. exists (ODyn a).
    split_and!; [done|done|apply only_refl|by exists a|]. cbn. rewrite (dr_len _ _ Hr). apply zlen_rev.
  - apply wp_bind. eapply ld_dyn_ok; [exact Ho|]. apply wp_ret. exists (ODyn a).
    split_and!; [done|done|apply only_refl|by exists a|]. cbn. rewrite (dr_len _ _ Hr), zlen_rev.
    destruct l as [|x k]; [done|]. rewrite zlen_cons. pose proof (zlen_nonneg k). by rewrite (proj2 (Z.eqb_neq _ _)) by lia.
Qed.
End Facts.

(** ** The interface *)

Section Instances.
Context `{Allocator}.

#[export, program] Instance vec_container : Container VecOp (list Z) := {|
  ct_new := tk_vec_new; ct_exec := vec_exec; ct_empty := []; ct_spec := vec_spec; ct_size := zlen; ct_max := MAX_SIZE;
  ct_rep := vec_obj; ct_pre _ _ := True
|}.
Next Obligation. done. Qed.
Next Obligation.
  intros op l. pose proof (zlen_nonneg l). destruct op; cbn; rewrite ?zlen_app; try lia.
  - change (zlen [v]) with 1. lia.
  - unfold zlen. rewrite length_take. lia.
  - destruct (0 <=? i); rewrite ?zlen_insert; lia.
Qed.
Next Obligation.
  intros m Hp Hm. eapply wp_conseq; [by apply dynarr_new_ok|]. intros h m' (a & ? & ? & ? & ? & ? & ?).
  exists (ODyn a). split_and!; [done..|by exists a].
Qed.
Next Obligation. intros m h o a op Hp. apply (vec_exec_ok Hp). Qed.
Next Obligation. done. Qed.

#[export, program] Instance stack_container : Container StackOp (list Z) := {|
  ct_new := tk_stack_new; ct_exec := stack_exec; ct_empty := []; ct_spec := stack_spec; ct_size := zlen; ct_max := MAX_SIZE;
  ct_rep := stack_obj; ct_pre _ _ := True
|}.
Next Obligation. done. Qed.
Next Obligation.
  intros op l. pose proof (zlen_nonneg l). destruct op; cbn; rewrite ?zlen_cons; try lia.
  destruct l; cbn; rewrite ?zlen_cons; lia.
Qed.
Next Obligation.
  intros m Hp Hm. eapply wp_conseq; [by apply dynarr_new_ok|]. intros h m' (a & ? & ? & ? & ? & ? & ?).
  exists (ODyn a). split_and!; [done..|by exists a].
Qed.
Next Obligation. intros m h o a op Hp. apply (stack_exec_ok Hp). Qed.
Next Obligation. done. Qed.
End Instances.

(** * Queues are first-in, first-out

    A [Queue] holds the elements of a list in a ring, from [head] on. *)

(** Element [i] of [l] is at [(head + i) % cap]. *)
Record queue_rep (q : Queue) (l : list Z) : Prop := {
  qr_len : qu_len q = zlen l;
  qr_cap : qu_cap q = zlen (qu_data q);
  qr_fits : zlen l <= qu_cap q;
  qr_bound : INIT_CAP <= qu_cap q <= 2 ^ 59;
  qr_head : 0 <= qu_head q < qu_cap q;
  qr_data i : 0 <= i < zlen l -> byte_at (qu_data q) ((qu_head q + i) mod qu_cap q) = byte_at l i
}.

(** ** The ring *)

Lemma ring_index h i c : 0 <= h < c -> 0 <= i <= c -> (h + i) mod c = if h + i <? c then h + i else h + i - c.
Proof.
  intros. destruct (h + i <? c) eqn:E; zb; [apply Z.mod_small; lia|].
  symmetry. apply (Z.mod_unique_pos _ _ 1); lia.
Qed.

Lemma byte_at_insert (d : list Z) i v j :
  0 <= i < zlen d -> 0 <= j -> byte_at (<[Z.to_nat i := v]> d) j = if j =? i then v else byte_at d j.
Proof.
  intros Hi Hj. unfold byte_at. rewrite !nth_lookup. destruct (j =? i) eqn:E; zb.
  - subst. rewrite list_lookup_insert_eq; [done|]. unfold zlen in Hi. lia.
  - rewrite list_lookup_insert_ne; [done|]. lia.
Qed.

Lemma byte_at_app_l (l k : list Z) i : 0 <= i < zlen l -> byte_at (l ++ k) i = byte_at l i.
Proof. intros. unfold byte_at. rewrite app_nth1; [done|]. unfold zlen in *. lia. Qed.

Lemma byte_at_snoc (l : list Z) v : byte_at (l ++ [v]) (zlen l) = v.
Proof. unfold byte_at, zlen. rewrite Nat2Z.id. apply nth_middle. Qed.

Lemma wp_c_rem {S} a b (Q : Z -> S -> Prop) s : 0 <= a -> 0 < b -> Q (a mod b) s -> wp (c_rem a b) Q s.
Proof.
  intros Ha Hb HQ. unfold c_rem. rewrite (proj2 (Z.eqb_neq b 0)) by lia. apply wp_ret.
  by rewrite Z.rem_mod_nonneg.
Qed.

Section Facts.
Context `{Allocator} (Hp : Plenty).

Lemma ld_queue_ok m h q (Q : Queue -> Mem -> Prop) : at_ m h (OQueue q) -> Q q m -> wp (ld_queue h) Q m.
Proof. intros Ho HQ. unfold ld_queue. apply wp_bind. eapply wp_ld; [exact Ho|]. by apply wp_ret. Qed.

Lemma queue_alloc_ok m :
  mem_ok m ->
  wp queue_alloc (fun h m' => exists q, 0 < h /\ mm_objs m !! h = None /\ mem_ok m' /\ at_ m' h (OQueue q) /\ only h m m' /\
                                queue_rep q []) m.
Proof.
  intros Hm. unfold queue_alloc. apply wp_bind, wp_allocates. intros m1 E1 N1. rewrite (Hp _). cbn [negb].
  apply wp_bind, wp_allocates. intros m2 E2 N2. rewrite (Hp _). cbn [negb].
  assert (E : mm_objs m2 = mm_objs m) by congruence. assert (N : mm_next m2 = mm_next m) by congruence.
  apply wp_new; [by eapply same_ok|]. intros h m' _ Hh Hm' Ho Hon Hf. eexists. rewrite E in Hf.
  split_and!; [done|done|done|exact Ho|by eapply only_trans; [apply same_only|]|].
  split; cbn; [done|done|done|done|done|]. unfold zlen. cbn. lia.
Qed.

(** The copying loop of [queue_grow]. *)
Lemma linearise_ok q l (Hr : queue_rep q l) n : forall k nd (m : Mem),
  (k + n = length l)%nat -> zlen l <= zlen nd ->
  wp (linearise q (map Z.of_nat (seq k n)) nd) (fun r m' => m' = m /\ zlen r = zlen nd /\
    forall i, 0 <= i < zlen nd -> byte_at r i = if (Z.of_nat k <=? i) && (i <? zlen l) then byte_at l i else byte_at nd i) m.
Proof.
  destruct Hr as [Hl Hc Hf Hb Hh Hd]. unfold zlen. induction n as [|n IH]; intros k nd m Hk Hn; cbn [seq map linearise].
  - apply wp_ret. split_and!; [done|done|]. intros i Hi.
    destruct (Z.of_nat k <=? i) eqn:E1; zb; [|done]. rewrite (proj2 (Z.ltb_ge i _)) by lia. done.
  - unfold zlen in *. apply wp_bind, wp_c_rem; [lia|lia|].
    assert (0 <= (qu_head q + Z.of_nat k) mod qu_cap q < qu_cap q) by (apply Z.mod_pos_bound; lia).
    apply wp_bind, wp_rd_word; [unfold zlen; lia|]. rewrite Hd by lia.
    apply wp_bind, wp_wr_word; [unfold zlen; lia|]. eapply wp_conseq; [apply IH; rewrite ?length_insert; lia|].
    cbn beta. intros r m' (-> & Hz & Hi). rewrite length_insert in *. split_and!; [done|done|]. intros i Hi'.
    rewrite Hi, byte_at_insert by (unfold zlen; lia).
    destruct (Z.of_nat (S k) <=? i) eqn:E1, (Z.of_nat k <=? i) eqn:E2, (i <? Z.of_nat (length l)) eqn:E3, (i =? Z.of_nat k) eqn:E4;
      zb; cbn [andb]; try lia; try done; by subst.
Qed.

Lemma zlen_uninit n : 0 <= n < 2 ^ 60 -> zlen (uninit (block_words n)) = n.
Proof. intros. unfold uninit, zlen. rewrite block_words_small, length_map, length_seq by done. lia. Qed.

(** Room for one more element. *)
Lemma queue_grow_ok m h q l :
  mem_ok m -> at_ m h (OQueue q) -> queue_rep q l -> zlen l < MAX_SIZE ->
  wp (when (qu_len q =? qu_cap q) (queue_grow h)) (fun _ m' => exists q', mem_ok m' /\ at_ m' h (OQueue q') /\ only h m m' /\
    queue_rep q' l /\ zlen l < qu_cap q') m.
Proof.
  intros Hm Ho Hr Hs. unfold when, queue_grow. pose proof Hr as [Hl Hc Hf Hb Hh Hd].
  destruct (qu_len q =? qu_cap q) eqn:E; zb.
  2: { apply wp_ret. exists q. split_and!; [done|done|apply only_refl|done|lia]. }
  unfold MAX_SIZE, INIT_CAP in *. apply wp_bind. eapply ld_queue_ok; [exact Ho|]. apply wp_bind, wp_i64; [lia|].
  apply wp_bind, wp_allocates. intros m1 E1 N1. rewrite (Hp _). cbn [negb].
  assert (Hz : zlen (uninit (block_words (qu_cap q * 2))) = qu_cap q * 2) by (apply zlen_uninit; lia).
  eapply wp_seq.
  { rewrite Hl. unfold zlen at 1. rewrite Nat2Z.id. eapply (linearise_ok q l Hr (length l) 0); lia. }
  cbn beta. intros nd m2 (-> & Hn & Hi).
  eapply wp_st; [by eapply same_ok|unfold at_; rewrite E1; exact Ho|]. intros m' Hm' Ho' Hon. eexists.
  split_and!; [done|exact Ho'|by eapply only_trans; [apply same_only|]| |cbn; lia].
  split; cbn [qu_len qu_cap qu_data qu_head]; [done|lia|lia|unfold INIT_CAP; lia|lia|]. intros i Hi'. rewrite Z.mod_small, Hi by lia.
  rewrite (proj2 (Z.leb_le _ _)), (proj2 (Z.ltb_lt _ _)) by lia. done.
Qed.

Lemma queue_rep_push q l v :
  queue_rep q l -> zlen l < qu_cap q ->
  queue_rep (mkQueue (<[Z.to_nat ((qu_head q + qu_len q) mod qu_cap q) := v]> (qu_data q)) (qu_cap q) (qu_head q) (qu_len q + 1))
    (l ++ [v]).
Proof.
  intros [Hl Hc Hf Hb Hh Hd] Hlt. pose proof (zlen_nonneg l).
  split; cbn [qu_len qu_cap qu_data qu_head]; rewrite ?zlen_insert, ?zlen_app; change (zlen [v]) with 1; [lia..|]. intros i Hi.
  assert (0 <= (qu_head q + qu_len q) mod qu_cap q < qu_cap q) by (apply Z.mod_pos_bound; lia).
  assert (0 <= (qu_head q + i) mod qu_cap q < qu_cap q) by (apply Z.mod_pos_bound; lia).
  rewrite byte_at_insert by lia. destruct (decide (i = zlen l)) as [->|Hne].
  - by rewrite Hl, Z.eqb_refl, byte_at_snoc.
  - rewrite byte_at_app_l, Hd by lia. rewrite (proj2 (Z.eqb_neq _ _)); [done|]. rewrite Hl, !ring_index by lia.
    destruct (qu_head q + i <? qu_cap q) eqn:E1, (qu_head q + zlen l <? qu_cap q) eqn:E2; zb; lia.
Qed.

Lemma queue_rep_pop q x l :
  queue_rep q (x :: l) -> queue_rep (mkQueue (qu_data q) (qu_cap q) ((qu_head q + 1) mod qu_cap q) (qu_len q - 1)) l.
Proof.
  intros [Hl Hc Hf Hb Hh Hd]. rewrite zlen_cons in *. unfold INIT_CAP in *. pose proof (zlen_nonneg l).
  assert (0 <= (qu_head q + 1) mod qu_cap q < qu_cap q) by (apply Z.mod_pos_bound; lia).
  split; cbn [qu_len qu_cap qu_data qu_head]; [lia|done|lia|done|done|]. intros i Hi.
  rewrite Zplus_mod_idemp_l, <- Z.add_assoc, Hd by lia. unfold byte_at.
  by replace (Z.to_nat (1 + i)) with (S (Z.to_nat i)) by lia.
Qed.

Lemma queue_rep_head q x l : queue_rep q (x :: l) -> byte_at (qu_data q) (qu_head q) = x.
Proof.
  intros [Hl Hc Hf Hb Hh Hd]. rewrite zlen_cons in *. pose proof (zlen_nonneg l).
  specialize (Hd 0). rewrite Z.add_0_r, Z.mod_small in Hd by lia. apply Hd. lia.
Qed.

Inductive QueueOp := QPush (v : Z) | QPop | QPeek | QLen.

Definition queue_exec (h : Z) (op : QueueOp) : MM Z :=
  match op with
  | QPush v => tk_queue_push h v
  | QPop => tk_queue_pop h
  | QPeek => tk_queue_peek h
  | QLen => tk_queue_len h
  end.

(** On the list of what is waiting; an empty queue answers 0. *)
Definition queue_spec (op : QueueOp) (l : list Z) : list Z * option Z :=
  match op with
  | QPush v => (l ++ [v], None)
  | QPop => (tl l, Some (hd 0 l))
  | QPeek => (l, Some (hd 0 l))
  | QLen => (l, Some (zlen l))
  end.

Definition queue_obj (m : Mem) (o : Obj) (l : list Z) : Prop := exists q, o = OQueue q /\ queue_rep q l.

Lemma queue_exec_ok m h o l op :
  mem_ok m -> at_ m h o -> queue_obj m o l -> True -> zlen l < MAX_SIZE ->
  wp (queue_exec h op) (fun r m' => exists o', mem_ok m' /\ at_ m' h o' /\ only h m m' /\
    queue_obj m' o' (fst (queue_spec op l)) /\ r = default h (snd (queue_spec op l))) m.
Proof.
  intros Hm Ho (q & -> & Hr) _ Hs. assert (Hh : (h =? 0) = false) by (apply Z.eqb_neq; apply Hm in Ho; lia).
  assert (Hstay : forall r : Z, exists o', mem_ok m /\ at_ m h o' /\ only h m m /\ queue_obj m o' l /\ r = r).
  { intros r. exists (OQueue q). split_and!; [done|done|apply only_refl|by exists q|done]. }
  assert (Hzero : (qu_len q =? 0) = match l with [] => true | _ => false end).
  { rewrite (qr_len _ _ Hr). destruct l as [|x k]; [done|]. rewrite zlen_cons. pose proof (zlen_nonneg k). apply Z.eqb_neq. lia. }
  pose proof (qr_cap _ _ Hr). pose proof (qr_head _ _ Hr).
  destruct op as [v| | |]; cbn [queue_exec queue_spec fst snd default];
    unfold tk_queue_push, tk_queue_pop, tk_queue_peek, tk_queue_len; rewrite Hh;
    (apply wp_bind; eapply ld_queue_ok; [exact Ho|]).
  - eapply wp_seq; [by apply (queue_grow_ok m h q l)|]. intros _ m1 (q1 & Hm1 & Ho1 & Hon & Hr1 & Hlt). cbn beta.
    apply wp_bind. eapply ld_queue_ok; [exact Ho1|]. pose proof (zlen_nonneg l).
    pose proof (qr_cap _ _ Hr1). pose proof (qr_head _ _ Hr1). pose proof (qr_len _ _ Hr1).
    apply wp_bind, wp_c_rem; [lia|lia|].
    assert (0 <= (qu_head q1 + qu_len q1) mod qu_cap q1 < qu_cap q1) by (apply Z.mod_pos_bound; lia).
    apply wp_bind, wp_wr_word; [lia|]. apply wp_bind. eapply wp_st; [done|exact Ho1|]. intros m' Hm' Ho' Hon'.
    apply wp_ret. eexists. split_and!; [done|exact Ho'|by eapply only_trans| |done].
    eexists. split; [done|]. by apply queue_rep_push.
  - rewrite Hzero. destruct l as [|x k]; [by apply wp_ret, Hstay|].
    apply wp_bind, wp_rd_word; [lia|]. rewrite (queue_rep_head _ _ _ Hr). apply wp_bind, wp_c_rem; [lia|lia|].
    apply wp_bind. eapply wp_st; [done|exact Ho|]. intros m' Hm' Ho' Hon. apply wp_ret. eexists.
    split_and!; [done|exact Ho'|done| |done]. eexists. split; [done|]. by eapply queue_rep_pop.
  - rewrite Hzero. destruct l as [|x k]; [by apply wp_ret, Hstay|].
    apply wp_rd_word; [lia|]. rewrite (queue_rep_head _ _ _ Hr). by apply Hstay.
  - apply wp_ret. rewrite (qr_len _ _ Hr). by apply Hstay.
Qed.
End Facts.

Section Instance_.
Context `{Allocator}.

#[export, program] Instance queue_container : Container QueueOp (list Z) := {|
  ct_new := tk_queue_new; ct_exec := queue_exec; ct_empty := []; ct_spec := queue_spec; ct_size := zlen; ct_max := MAX_SIZE;
  ct_rep := queue_obj; ct_pre _ _ := True
|}.
Next Obligation. done. Qed.
Next Obligation.
  intros op l. pose proof (zlen_nonneg l). destruct op; cbn; rewrite ?zlen_app; try lia.
  - change (zlen [v]) with 1. lia.
  - destruct l; cbn; rewrite ?zlen_cons; lia.
Qed.
Next Obligation.
  intros m Hp Hm. eapply wp_conseq; [by apply queue_alloc_ok|]. intros h m' (q & ? & ? & ? & ? & ? & ?).
  exists (OQueue q). split_and!; [done..|by exists q].
Qed.
Next Obligation. intros m h o a op Hp. apply (queue_exec_ok Hp). Qed.
Next Obligation. done. Qed.
End Instance_.

(** * Sets are finite sets

    A [Set] holds its elements in ascending order, once each; membership is a
    binary search, insertion and removal shift what is behind. *)

(** Where the search ends. *)
Definition split_at (v : Z) (l : list Z) (idx : Z) (found : bool) : Prop :=
  exists l1 l2, l = l1 ++ (if found then v :: l2 else l2) /\ zlen l1 = idx /\ Forall (fun x => x < v) l1 /\ Forall (Z.lt v) l2.

Definition set_obj (m : Mem) (o : Obj) (X : gset Z) : Prop :=
  exists s l, o = OSet s /\ dyn_rep s l /\ StronglySorted Z.lt l /\ X = list_to_set l.

(** ** Lists in order *)

Lemma sorted_around l1 x l2 :
  StronglySorted Z.lt (l1 ++ x :: l2) -> Forall (fun y => y < x) l1 /\ Forall (Z.lt x) l2.
Proof.
  rewrite StronglySorted_app, StronglySorted_cons. intros (H1 & _ & H2 & _). split; [|done].
  apply Forall_forall. intros y Hy. apply H1; [done|]. left.
Qed.

Lemma sorted_insert l1 l2 v :
  StronglySorted Z.lt (l1 ++ l2) -> Forall (fun x => x < v) l1 -> Forall (Z.lt v) l2 -> StronglySorted Z.lt (l1 ++ v :: l2).
Proof.
  rewrite !StronglySorted_app, StronglySorted_cons, !Forall_forall. intros (H1 & H2 & H3) Hl1 Hl2.
  split_and!; [|done|done|done]. intros x y Hx [->|Hy]%elem_of_cons; auto.
Qed.

Lemma sorted_remove l1 l2 v : StronglySorted Z.lt (l1 ++ v :: l2) -> StronglySorted Z.lt (l1 ++ l2).
Proof. rewrite !StronglySorted_app, StronglySorted_cons. intros (H1 & H2 & H3 & H4). split_and!; [|done|done]. set_solver. Qed.

Lemma sorted_nodup l : StronglySorted Z.lt l -> NoDup l.
Proof.
  induction l as [|x l IH]; [constructor|]. rewrite StronglySorted_cons, Forall_forall. intros [H1 H2].
  constructor; [|by apply IH]. intros Hx%H1. lia.
Qed.

Lemma split_not_in v l idx : split_at v l idx false -> v ∉ (list_to_set l : gset Z).
Proof.
  intros (l1 & l2 & -> & _ & H1 & H2). rewrite Forall_forall in H1, H2. rewrite elem_of_list_to_set, elem_of_app.
  intros [Hx%H1|Hx%H2]; lia.
Qed.

Lemma split_in v l idx : split_at v l idx true -> v ∈ (list_to_set l : gset Z).
Proof. intros (l1 & l2 & -> & _). set_solver. Qed.

(** ** The block *)

Lemma dyn_rep_split a l : dyn_rep a l -> da_data a = l ++ drop (length l) (da_data a).
Proof. intros H. rewrite <- (take_drop (length l) (da_data a)) at 1. by rewrite (dr_data _ _ H). Qed.

Lemma dyn_rep_new a l k d :
  dyn_rep a l -> zlen d = zlen (da_data a) -> zlen k <= da_cap a -> take (length k) d = k ->
  dyn_rep (mkDyn d (zlen k) (da_cap a)) k.
Proof. intros [Hl Hc Hf Hb Hd] Hz Hk Ht. split; cbn; [done|lia|done|done|done]. Qed.

Lemma insert_middle {A} (l1 k : list A) y v : <[length l1 := v]> (l1 ++ y :: k) = l1 ++ v :: k.
Proof. induction l1 as [|x l1 IH]; [done|]. cbn. by f_equal. Qed.

Lemma insert_shift (l1 l2 : list Z) x rest v :
  <[length l1 := v]> (take (S (length l1)) (l1 ++ l2 ++ x :: rest) ++ l2 ++ rest) = l1 ++ v :: l2 ++ rest.
Proof.
  assert (exists y k, l2 ++ x :: rest = y :: k) as (y & k & ->) by (destruct l2; cbn; eauto).
  replace (S (length l1)) with (length l1 + 1)%nat by lia. rewrite take_app_add. cbn [take firstn].
  rewrite <- app_assoc. apply insert_middle.
Qed.

Lemma wp_memmove {S} d dst src n (Q : list Z -> S -> Prop) s :
  0 <= dst -> 0 <= src -> 0 <= n -> src + n <= zlen d -> dst + n <= zlen d ->
  Q (take (Z.to_nat dst) d ++ slice d src n ++ drop (Z.to_nat (dst + n)) d) s -> wp (memmove d dst src n) Q s.
Proof.
  intros ????? HQ. unfold memmove. apply wp_bind, wp_rd_range; [done..|].
  by rewrite (proj2 (Z.leb_le 0 dst)), (proj2 (Z.leb_le _ _)) by done.
Qed.

(** Two commands through one specification. *)
Lemma wp_seq2 {S A B C} (m : M S A) (k : A -> M S B) (f : B -> M S C) P Q s :
  wp (bind m k) P s -> (forall b s', P b s' -> wp (f b) Q s') -> wp (bind m (fun a => bind (k a) f)) Q s.
Proof. unfold wp, bind. destruct (m s) as [[a s']| |]; [|done..]. destruct (k a s') as [[b s'']| |]; [|done..]. intros HP HQ. by apply HQ. Qed.

Lemma slice_app3 (a b c : list Z) : slice (a ++ b ++ c) (zlen a) (zlen b) = b.
Proof. unfold slice, zlen. rewrite !Nat2Z.id, drop_app_length. apply take_app_length. Qed.

Section Facts.
Context `{Allocator} (Hp : Plenty).

Lemma ld_set_ok m h a (Q : DynArr -> Mem -> Prop) : at_ m h (OSet a) -> Q a m -> wp (ld_set h) Q m.
Proof. intros Ho HQ. unfold ld_set. apply wp_bind. eapply wp_ld; [exact Ho|]. by apply wp_ret. Qed.

Lemma set_alloc_ok m :
  mem_ok m ->
  wp set_alloc (fun h m' => exists o, 0 < h /\ mm_objs m !! h = None /\ mem_ok m' /\ at_ m' h o /\ only h m m' /\
                              set_obj m' o ∅) m.
Proof.
  intros Hm. unfold set_alloc. apply wp_bind, wp_allocates. intros m1 E1 N1. rewrite (Hp _). cbn [negb].
  apply wp_bind, wp_allocates. intros m2 E2 N2. rewrite (Hp _). cbn [negb].
  assert (E : mm_objs m2 = mm_objs m) by congruence. assert (N : mm_next m2 = mm_next m) by congruence.
  apply wp_new; [by eapply same_ok|]. intros h m' _ Hh Hm' Ho Hon Hf. eexists. rewrite E in Hf.
  split_and!; [done|done|done|exact Ho|by eapply only_trans; [apply same_only|]|].
  eexists _, []. split_and!; [done| |constructor|done]. by split.
Qed.

(** The search finds the value, or where it belongs, within its fuel. *)
Lemma set_bsearch_ok s l v (m : Mem) :
  dyn_rep s l -> StronglySorted Z.lt l ->
  wp (set_bsearch s v) (fun '(idx, found) m' => m' = m /\ split_at v l idx found) m.
Proof.
  intros Hr Hs. unfold set_bsearch. pose proof (zlen_nonneg l). rewrite (dr_len _ _ Hr).
  pose proof (dr_cap _ _ Hr). pose proof (dr_fits _ _ Hr).
  apply (wp_iter (fun '(lo, hi) m' => m' = m /\ 0 <= lo <= hi /\ hi <= zlen l /\
    Forall (fun x => x < v) (take (Z.to_nat lo) l) /\ Forall (Z.lt v) (drop (Z.to_nat hi) l))
    (fun '(lo, hi) _ => Z.to_nat (hi - lo))).
  - split_and!; [done|lia|lia|lia|constructor|]. rewrite drop_ge; [constructor|]. unfold zlen. lia.
  - lia.
  - intros [lo hi] m' (-> & Hlo & Hhi & HF1 & HF2). destruct (lo <? hi) eqn:E; zb.
    + rewrite Z.quot_div_nonneg by lia. set (mid := lo + (hi - lo) / 2).
      assert (Hmid : lo <= mid < hi) by (subst mid; pose proof (Z.div_mod (hi - lo) 2); pose proof (Z.mod_pos_bound (hi - lo) 2); lia).
      clearbody mid. apply wp_bind, wp_rd_word; [lia|]. rewrite (dyn_rep_lookup s l) by (done || lia).
      pose proof (byte_at_lookup l mid ltac:(lia)) as Hx. set (x := byte_at l mid) in *. clearbody x.
      assert (Hsp := take_drop_middle _ _ _ Hx). assert (Hs' := Hs). rewrite <- Hsp in Hs'.
      apply sorted_around in Hs' as [Ha1 Ha2].
      assert (Hd : drop (Z.to_nat mid) l = x :: drop (S (Z.to_nat mid)) l) by (by apply drop_S).
      assert (Ht : take (S (Z.to_nat mid)) l = take (Z.to_nat mid) l ++ [x]) by by apply take_S_r.
      destruct (x <? v) eqn:E1; zb; [|destruct (v <? x) eqn:E2; zb]; apply wp_ret.
      * split; [|lia]. replace (Z.to_nat (mid + 1)) with (S (Z.to_nat mid)) by lia. split_and!; [done|lia|lia|lia| |done].
        rewrite Ht. apply Forall_app. split; [|by constructor]. eapply Forall_impl; [exact Ha1|]. cbn. lia.
      * split; [|lia]. split_and!; [done|lia|lia|lia|done|]. rewrite Hd. constructor; [done|].
        eapply Forall_impl; [exact Ha2|]. cbn. lia.
      * split; [done|]. assert (x = v) as -> by lia. eexists _, _. split; [by symmetry|].
        split_and!; [|done|done]. unfold zlen in *. rewrite length_take. lia.
    + apply wp_ret. split; [done|]. assert (hi = lo) as -> by lia. exists (take (Z.to_nat lo) l), (drop (Z.to_nat lo) l).
      split_and!; [by rewrite take_drop| |done|done]. unfold zlen in *. rewrite length_take. lia.
Qed.

Lemma set_room_ok m h s l :
  mem_ok m -> at_ m h (OSet s) -> dyn_rep s l -> zlen l < MAX_SIZE ->
  wp (set_room h) (fun b m' => b = true /\ exists s', mem_ok m' /\ at_ m' h (OSet s') /\ only h m m' /\
    dyn_rep s' l /\ zlen l < da_cap s') m.
Proof.
  intros Hm Ho Hr Hs. unfold set_room. apply wp_bind. eapply ld_set_ok; [exact Ho|].
  pose proof Hr as [Hl Hc Hf Hb Hd]. destruct (da_len s =? da_cap s) eqn:E; zb.
  2: { apply wp_ret. split; [done|]. exists s. split_and!; [done|done|apply only_refl|done|lia]. }
  unfold MAX_SIZE, INIT_CAP in *. apply wp_bind, wp_i64; [lia|].
  apply wp_bind, wp_allocates. intros m1 E1 N1. rewrite (Hp _). cbn [negb]. apply wp_bind.
  eapply wp_st; [by eapply same_ok|unfold at_; rewrite E1; exact Ho|]. intros m' Hm' Ho' Hon. apply wp_ret. split; [done|].
  eexists. split_and!; [done|exact Ho'|by eapply only_trans; [apply same_only|]| |cbn; lia].
  split; cbn; [done|rewrite zlen_resized; lia|lia|unfold INIT_CAP; lia|].
  rewrite take_resized; [done|lia|]. unfold zlen in *. lia.
Qed.

(** ** Operations *)

Inductive SetOp := SetAdd (v : Z) | SetHas (v : Z) | SetRemove (v : Z) | SetLen.

Definition set_exec (h : Z) (op : SetOp) : MM Z :=
  match op with
  | SetAdd v => tk_set_add h v
  | SetHas v => tk_set_has h v
  | SetRemove v => tk_set_remove h v
  | SetLen => tk_set_len h
  end.

Definition set_spec (op : SetOp) (X : gset Z) : gset Z * option Z :=
  match op with
  | SetAdd v => ({[v]} ∪ X, None)
  | SetHas v => (X, Some (if decide (v ∈ X) then 1 else 0))
  | SetRemove v => (X ∖ {[v]}, None)
  | SetLen => (X, Some (Z.of_nat (size X)))
  end.

Lemma set_size l : StronglySorted Z.lt l -> Z.of_nat (size (list_to_set l : gset Z)) = zlen l.
Proof. intros Hs. unfold zlen. f_equal. by apply size_list_to_set, sorted_nodup. Qed.

(** The shift of an insertion. *)
Lemma set_insert_ok s l1 l2 v (m : Mem) :
  dyn_rep s (l1 ++ l2) -> zlen (l1 ++ l2) < da_cap s ->
  wp (do d <- (if zlen l1 <? da_len s then memmove (da_data s) (zlen l1 + 1) (zlen l1) (da_len s - zlen l1) else ret (da_data s));
      wr_word d (zlen l1) v)
     (fun d m' => m' = m /\ dyn_rep (mkDyn d (da_len s + 1) (da_cap s)) (l1 ++ v :: l2)) m.
Proof.
  intros Hr Hlt. pose proof (dyn_rep_split _ _ Hr) as Hd. pose proof (dr_cap _ _ Hr) as Hc.
  pose proof (zlen_nonneg l1). pose proof (zlen_nonneg l2). rewrite zlen_app in Hlt.
  remember (drop (length (l1 ++ l2)) (da_data s)) as rest eqn:Erest. clear Erest.
  rewrite <- app_assoc in Hd. assert (Hz : zlen (da_data s) = zlen l1 + zlen l2 + zlen rest) by (rewrite Hd, !zlen_app; lia).
  destruct rest as [|x rest]; [rewrite zlen_nil in Hz; lia|]. rewrite zlen_cons in Hz. rewrite (dr_len _ _ Hr).
  assert (HI : forall r, r = l1 ++ v :: l2 ++ rest ->
    dyn_rep (mkDyn r (zlen (l1 ++ l2) + 1) (da_cap s)) (l1 ++ v :: l2)).
  { intros r ->. replace (zlen (l1 ++ l2) + 1) with (zlen (l1 ++ v :: l2)) by (rewrite !zlen_app, zlen_cons; lia).
    eapply dyn_rep_new; [exact Hr|rewrite !zlen_app, zlen_cons, zlen_app; lia|rewrite !zlen_app, zlen_cons; lia|].
    replace (l1 ++ v :: l2 ++ rest) with ((l1 ++ v :: l2) ++ rest) by by rewrite <- app_assoc. apply take_app_length. }
  assert (HIdx : Z.to_nat (zlen l1) = length l1) by (unfold zlen; lia).
  rewrite zlen_app in *. destruct (zlen l1 <? zlen l1 + zlen l2) eqn:E; zb; cbn [negb].
  - apply wp_bind, wp_memmove; rewrite ?zlen_app; try lia.
    replace (zlen l1 + zlen l2 - zlen l1) with (zlen l2) by lia.
    replace (drop (Z.to_nat (zlen l1 + 1 + zlen l2)) (da_data s)) with rest.
    2: { rewrite Hd. replace (Z.to_nat (zlen l1 + 1 + zlen l2)) with (length (l1 ++ l2) + 1)%nat by (rewrite length_app; unfold zlen; lia).
         rewrite app_assoc, drop_app_add. done. }
    replace (slice (da_data s) (zlen l1) (zlen l2)) with l2 by (rewrite Hd; symmetry; apply slice_app3).
    replace (Z.to_nat (zlen l1 + 1)) with (S (length l1)) by lia.
    apply wp_wr_word.
    { rewrite !zlen_app. unfold zlen in *. rewrite length_take. lia. }
    split; [done|]. apply HI. rewrite HIdx, Hd. apply insert_shift.
  - apply wp_bind, wp_ret, wp_wr_word; [lia|]. split; [done|]. apply HI.
    destruct l2; [|rewrite zlen_cons in *; pose proof (zlen_nonneg l2); lia]. rewrite HIdx, Hd. apply insert_middle.
Qed.

(** The shift of a removal. *)
Lemma set_delete_ok s l1 l2 v (m : Mem) :
  dyn_rep s (l1 ++ v :: l2) ->
  wp (if zlen l1 <? da_len s - 1 then memmove (da_data s) (zlen l1) (zlen l1 + 1) (da_len s - zlen l1 - 1)
      else ret (da_data s))
     (fun d m' => m' = m /\ dyn_rep (mkDyn d (da_len s - 1) (da_cap s)) (l1 ++ l2)) m.
Proof.
  intros Hr. pose proof (dyn_rep_split _ _ Hr) as Hd. pose proof (dr_cap _ _ Hr) as Hc. pose proof (dr_fits _ _ Hr) as Hf.
  pose proof (zlen_nonneg l1). pose proof (zlen_nonneg l2).
  remember (drop (length (l1 ++ v :: l2)) (da_data s)) as rest eqn:Erest. clear Erest.
  rewrite <- app_assoc in Hd. cbn [app] in Hd.
  assert (Hz : zlen (da_data s) = zlen l1 + 1 + zlen l2 + zlen rest) by (rewrite Hd, !zlen_app, zlen_cons, zlen_app; lia).
  assert (Hk : zlen (l1 ++ v :: l2) = zlen l1 + 1 + zlen l2) by (rewrite zlen_app, zlen_cons; lia).
  pose proof (zlen_nonneg rest). rewrite (dr_len _ _ Hr), Hk in *.
  assert (HI : forall r k, r = l1 ++ l2 ++ k -> zlen r = zlen (da_data s) ->
    dyn_rep (mkDyn r (zlen l1 + 1 + zlen l2 - 1) (da_cap s)) (l1 ++ l2)).
  { intros r k -> Hzr. replace (zlen l1 + 1 + zlen l2 - 1) with (zlen (l1 ++ l2)) by (rewrite zlen_app; lia).
    eapply dyn_rep_new; [exact Hr|done|rewrite zlen_app; lia|].
    rewrite app_assoc. apply take_app_length. }
  destruct (zlen l1 <? zlen l1 + 1 + zlen l2 - 1) eqn:E; zb.
  - apply wp_memmove; try lia. split; [done|].
    replace (zlen l1 + 1 + zlen l2 - zlen l1 - 1) with (zlen l2) by lia.
    assert (Ht : take (Z.to_nat (zlen l1)) (da_data s) = l1) by (rewrite Hd; unfold zlen; rewrite Nat2Z.id; apply take_app_length).
    assert (Hs : slice (da_data s) (zlen l1 + 1) (zlen l2) = l2).
    { rewrite Hd. replace (l1 ++ v :: l2 ++ rest) with ((l1 ++ [v]) ++ l2 ++ rest) by by rewrite <- app_assoc.
      replace (zlen l1 + 1) with (zlen (l1 ++ [v])) by (by rewrite zlen_app). apply slice_app3. }
    rewrite Ht, Hs. eapply HI; [done|]. rewrite !zlen_app. unfold zlen in *. rewrite length_drop. lia.
  - assert (l2 = []) as -> by (destruct l2; [done|]; rewrite zlen_cons in *; pose proof (zlen_nonneg l2); lia).
    apply wp_ret. split; [done|]. eapply HI; [|done]. rewrite Hd. done.
Qed.

Lemma set_exec_ok m h o X op :
  mem_ok m -> at_ m h o -> set_obj m o X -> True -> Z.of_nat (size X) < MAX_SIZE ->
  wp (set_exec h op) (fun r m' => exists o', mem_ok m' /\ at_ m' h o' /\ only h m m' /\
    set_obj m' o' (fst (set_spec op X)) /\ r = default h (snd (set_spec op X))) m.
Proof.
  intros Hm Ho (s & l & -> & Hr & Hs & ->) _ Hsz. rewrite (set_size l Hs) in Hsz.
  assert (Hh : (h =? 0) = false) by (apply Z.eqb_neq; apply Hm in Ho; lia).
  assert (Hstay : forall X, X = list_to_set l -> exists o', mem_ok m /\ at_ m h o' /\ only h m m /\ set_obj m o' X).
  { intros X ->. exists (OSet s). split_and!; [done|done|apply only_refl|by exists s, l]. }
  destruct op as [v|v|v|]; cbn [set_exec set_spec fst snd default];
    unfold tk_set_add, tk_set_has, tk_set_remove, tk_set_len; rewrite Hh;
    (apply wp_bind; eapply ld_set_ok; [exact Ho|]);
    try (eapply wp_seq; [by apply (set_bsearch_ok s l v)|]; intros [idx found] m0 [-> Hsp]; cbv beta iota).
  - destruct found.
    { apply wp_ret. destruct (Hstay ({[v]} ∪ list_to_set l)) as (o' & ? & ? & ? & ?); [apply split_in in Hsp; set_solver|].
      exists o'. by split_and!. }
    eapply wp_seq; [by apply (set_room_ok m h s l)|]. intros b m1 (-> & s1 & Hm1 & Ho1 & Hon & Hr1 & Hlt). cbn [negb].
    apply wp_bind. eapply ld_set_ok; [exact Ho1|]. destruct Hsp as (l1 & l2 & -> & <- & HF1 & HF2).
    eapply wp_seq2; [by apply (set_insert_ok s1 l1 l2 v)|]. intros d m2 [-> Hr2].
    apply wp_bind. eapply wp_st; [done|exact Ho1|]. intros m' Hm' Ho' Hon'. apply wp_ret. eexists.
    split_and!; [done|exact Ho'|by eapply only_trans| |done]. eexists _, _. split_and!; [done|exact Hr2|by apply sorted_insert|].
    set_solver.
  - apply wp_ret. destruct (Hstay (list_to_set l) eq_refl) as (o' & ? & ? & ? & ?). exists o'. split_and!; [done..|].
    destruct found; [rewrite decide_True by by eapply split_in|rewrite decide_False by by eapply split_not_in]; done.
  - destruct found; cbn [negb].
    2: { apply wp_ret. destruct (Hstay (list_to_set l ∖ {[v]})) as (o' & ? & ? & ? & ?); [apply split_not_in in Hsp; set_solver|].
         exists o'. by split_and!. }
    destruct Hsp as (l1 & l2 & -> & <- & HF1 & HF2). eapply wp_seq; [by eapply set_delete_ok|]. intros d m0 [-> Hr1]. cbn beta.
    apply wp_bind. eapply wp_st; [done|exact Ho|]. intros m' Hm' Ho' Hon. apply wp_ret. eexists.
    split_and!; [done|exact Ho'|done| |done]. eexists _, _. split_and!; [done|exact Hr1|by eapply sorted_remove|].
    rewrite Forall_forall in HF1, HF2. apply set_eq. intros x. rewrite elem_of_difference, !elem_of_list_to_set, elem_of_singleton.
    rewrite !elem_of_app, elem_of_cons. split; [tauto|]. intros [Hx|Hx]; (split; [tauto|]); intros ->;
      [specialize (HF1 _ Hx)|specialize (HF2 _ Hx)]; lia.
  - apply wp_ret. destruct (Hstay (list_to_set l) eq_refl) as (o' & ? & ? & ? & ?). exists o'. split_and!; [done..|].
    rewrite set_size by done. apply Hr.
Qed.
End Facts.

Section Instance_.
Context `{Allocator}.

#[export, program] Instance set_container : Container SetOp (gset Z) := {|
  ct_new := tk_set_new; ct_exec := set_exec; ct_empty := ∅; ct_spec := set_spec; ct_size X := Z.of_nat (size X); ct_max := MAX_SIZE;
  ct_rep := set_obj; ct_pre _ _ := True
|}.
Next Obligation. done. Qed.
Next Obligation.
  intros op X. destruct op as [v|v|v|]; cbn; try lia.
  - rewrite size_union_alt, size_singleton. assert (size (X ∖ {[v]}) <= size X)%nat by (apply subseteq_size; set_solver). lia.
  - assert (size (X ∖ {[v]}) <= size X)%nat by (apply subseteq_size; set_solver). lia.
Qed.
Next Obligation. intros m Hp Hm. by apply set_alloc_ok. Qed.
Next Obligation. intros m h o a op Hp. apply (set_exec_ok Hp). Qed.
Next Obligation. done. Qed.
End Instance_.
