(* ===== verification/TkMapFacts.v ===== *)
(** * Hash maps are association lists: the table of slots and the entries *)

From Stdlib Require Import ZArith Lia String Ascii.
From stdpp Require Import base tactics list gmap.
From S2P Require Import Prelude Heap TkArray TkMap Containers SeqFacts.
Open Scope Z_scope.

(** * Tables of slots

    What a table of slots promises: each entry is found by probing from its hash,
    and there is a free slot to stop at. *)

(** The first [k] entries, with the hashes [hs], are in a table of [n] slots. *)
Record table_ok (n : Z) (hs slots : list Z) (k : Z) : Prop := {
  tb_len : zlen slots = n;
  tb_range i : 0 <= i < n -> -1 <= byte_at slots i < k;
  tb_inj i j : 0 <= i < n -> 0 <= j < n -> byte_at slots i = byte_at slots j -> 0 <= byte_at slots i -> i = j;
  tb_path e : 0 <= e < k -> exists t, 0 <= t < n /\ byte_at slots ((byte_at hs e + t) mod n) = e /\
    forall t', 0 <= t' < t -> 0 <= byte_at slots ((byte_at hs e + t') mod n)
}.

(** ** Probing *)

Lemma pow_pos p : 0 <= p -> 1 <= 2 ^ p.
Proof. intros. pose proof (Z.pow_pos_nonneg 2 p). lia. Qed.

Lemma pow_le_64 p : 0 <= p <= 31 -> 2 ^ p <= 2 ^ 31.
Proof. intros. apply Z.pow_le_mono_r; lia. Qed.

Lemma first_slot h p : 0 <= p <= 31 -> Z.land h (slot_mask (2 ^ p)) = h mod 2 ^ p.
Proof.
  intros. pose proof (pow_pos p). pose proof (pow_le_64 p). unfold slot_mask, u64. rewrite Z.mod_small by lia.
  replace (2 ^ p - 1) with (Z.ones p) by (rewrite Z.ones_equiv; lia). apply Z.land_ones. lia.
Qed.

Lemma next_slot_eq h t p : 0 <= p <= 31 -> next_slot ((h + t) mod 2 ^ p) (slot_mask (2 ^ p)) = (h + (t + 1)) mod 2 ^ p.
Proof.
  intros. unfold next_slot. rewrite first_slot by done. pose proof (pow_pos p). pose proof (pow_le_64 p).
  pose proof (Z.mod_pos_bound (h + t) (2 ^ p)). unfold u64. rewrite (Z.mod_small _ (2 ^ 64)) by lia.
  rewrite Zplus_mod_idemp_l. f_equal. lia.
Qed.

(** How far a slot is from the first one. *)
Lemma probe_dist h t n : 0 <= t < n -> ((h + t) mod n - h) mod n = t.
Proof.
  intros. rewrite Zminus_mod_idemp_l. replace (h + t - h) with t by lia. apply Z.mod_small. lia.
Qed.

Lemma probe_all h i n : 0 <= i < n -> exists t, 0 <= t < n /\ (h + t) mod n = i.
Proof.
  intros. exists ((i - h) mod n). split; [apply Z.mod_pos_bound; lia|].
  rewrite Zplus_mod_idemp_r. replace (h + (i - h)) with i by lia. apply Z.mod_small. lia.
Qed.

Lemma probe_inj h t t' n : 0 <= t < n -> 0 <= t' < n -> (h + t) mod n = (h + t') mod n -> t = t'.
Proof. intros Ht Ht' E. rewrite <- (probe_dist h t n), E by done. by apply probe_dist. Qed.

(** ** A free slot *)

Lemma nth_free n hs slots k :
  table_ok n hs slots k -> 0 <= k < n -> exists i, 0 <= i < n /\ byte_at slots i = -1.
Proof.
  intros [Hl Hr Hi _] Hk. destruct (decide (Exists (fun x => x = -1) slots)) as [He|He].
  - apply Exists_exists in He as (x & Hx & ->). apply list_elem_of_lookup in Hx as [i Hx].
    exists (Z.of_nat i). pose proof (lookup_lt_Some _ _ _ Hx). split; [unfold zlen in Hl; lia|].
    unfold byte_at. rewrite Nat2Z.id, nth_lookup, Hx. done.
  - exfalso. assert (Hat : forall i x, slots !! i = Some x -> byte_at slots (Z.of_nat i) = x).
    { intros i x Hx. unfold byte_at. rewrite Nat2Z.id, nth_lookup, Hx. done. }
    assert (Hin : forall i x, slots !! i = Some x -> 0 <= x < k /\ Z.of_nat i < n).
    { intros i x Hx. pose proof (lookup_lt_Some _ _ _ Hx). unfold zlen in Hl.
      specialize (Hr (Z.of_nat i) ltac:(lia)). rewrite (Hat _ _ Hx) in Hr. split; [|lia].
      destruct (decide (x = -1)) as [->|]; [|lia]. destruct He. apply Exists_exists. exists (-1). split; [|done].
      by eapply list_elem_of_lookup_2. }
    assert (Hsub : slots ⊆+ map Z.of_nat (seq 0 (Z.to_nat k))).
    { apply NoDup_submseteq.
      - apply NoDup_alt. intros i j x Hx Hy. pose proof (Hin _ _ Hx). pose proof (Hin _ _ Hy).
        assert (Z.of_nat i = Z.of_nat j); [|lia]. apply Hi; [lia|lia| |]; rewrite ?(Hat _ _ Hx), ?(Hat _ _ Hy); [done|lia].
      - intros x [i Hx]%list_elem_of_lookup. pose proof (Hin _ _ Hx). apply list_elem_of_In, in_map_iff.
        exists (Z.to_nat x). split; [lia|]. apply in_seq. lia. }
    apply submseteq_length in Hsub. rewrite length_map, length_seq in Hsub. unfold zlen in Hl. lia.
Qed.

(** The least number with a property. *)
Lemma least (P : nat -> Prop) `{forall n, Decision (P n)} n : P n -> exists d, P d /\ (d <= n)%nat /\ forall t, (t < d)%nat -> ~ P t.
Proof.
  induction n as [n IH] using lt_wf_ind. intros Hn.
  destruct (decide (Exists P (seq 0 n))) as [He|He].
  - apply Exists_exists in He as (i & Hi & HP). apply elem_of_seq in Hi. destruct (IH i) as (d & ? & ? & ?); [lia|done|].
    exists d. split_and!; [done|lia|done].
  - exists n. split_and!; [done|lia|]. intros t Ht HP. destruct He. apply Exists_exists. exists t. split; [|done].
    apply elem_of_seq. lia.
Qed.

(** The first free slot from [h] on. *)
Lemma free_slot n hs slots k h :
  table_ok n hs slots k -> 0 <= k < n ->
  exists d, 0 <= d < n /\ byte_at slots ((h + d) mod n) = -1 /\
    forall t, 0 <= t < d -> 0 <= byte_at slots ((h + t) mod n).
Proof.
  intros Ht Hk. destruct (nth_free _ _ _ _ Ht Hk) as (i & Hi & E). destruct (probe_all h i n Hi) as (t & Htn & <-).
  destruct (least (fun t => byte_at slots ((h + Z.of_nat t) mod n) = -1) (Z.to_nat t)) as (d & Hd & Hle & Hmin).
  { by rewrite Z2Nat.id by lia. }
  exists (Z.of_nat d). split_and!; [lia|lia|done|]. intros t' Ht'.
  pose proof (tb_range _ _ _ _ Ht ((h + t') mod n) ltac:(apply Z.mod_pos_bound; lia)).
  specialize (Hmin (Z.to_nat t') ltac:(lia)). cbv beta in Hmin. rewrite Z2Nat.id in Hmin by lia. lia.
Qed.

(** ** Insertion *)

Lemma table_insert n hs slots k d :
  table_ok n hs slots k -> 0 <= k -> 0 <= d < n -> byte_at slots ((byte_at hs k + d) mod n) = -1 ->
  (forall t, 0 <= t < d -> 0 <= byte_at slots ((byte_at hs k + t) mod n)) ->
  table_ok n hs (<[Z.to_nat ((byte_at hs k + d) mod n) := k]> slots) (k + 1).
Proof.
  intros [Hl Hr Hi Hp] Hk Hd Hfree Hpath. set (j := (byte_at hs k + d) mod n) in *.
  assert (Hmod : forall x, 0 <= x mod n < n) by (intros; apply Z.mod_pos_bound; lia).
  assert (Hj : 0 <= j < n) by apply Hmod.
  assert (Hb : forall i, 0 <= i -> byte_at (<[Z.to_nat j := k]> slots) i = if i =? j then k else byte_at slots i).
  { intros i Hi'. apply byte_at_insert; lia. }
  split.
  - by rewrite zlen_insert.
  - intros i Hi'. rewrite Hb by lia. specialize (Hr i Hi'). destruct (i =? j); lia.
  - intros i i' Hi1 Hi2. rewrite !Hb by lia. pose proof (Hr i Hi1). pose proof (Hr i' Hi2).
    destruct (i =? j) eqn:E1, (i' =? j) eqn:E2; zb; [lia|lia|lia|]. by apply Hi.
  - intros e He. destruct (decide (e = k)) as [->|Hne].
    + exists d. fold j. split_and!; [lia|lia|rewrite Hb, Z.eqb_refl by lia; done|].
      intros t' Ht'. specialize (Hpath t' Ht'). rewrite Hb by apply Hmod. destruct (_ =? j); lia.
    + destruct (Hp e ltac:(lia)) as (t & Ht & Et & Hpre). exists t. split_and!; [lia|lia| |].
      * rewrite Hb by apply Hmod. destruct (_ =? j) eqn:E; zb; [|done]. rewrite E in Et. lia.
      * intros t' Ht'. specialize (Hpre t' Ht'). rewrite Hb by apply Hmod. destruct (_ =? j); lia.
Qed.

Lemma table_ext n hs hs' slots k :
  (forall e, 0 <= e < k -> byte_at hs e = byte_at hs' e) -> table_ok n hs slots k -> table_ok n hs' slots k.
Proof.
  intros He [Hl Hr Hi Hp]. split; [done..|]. intros e Hek. rewrite <- (He e Hek). by apply Hp.
Qed.

Lemma table_empty n hs : 0 <= n -> table_ok n hs (repeat (-1) (Z.to_nat n)) 0.
Proof.
  intros Hn. assert (Hb : forall i, 0 <= i < n -> byte_at (repeat (-1) (Z.to_nat n)) i = -1).
  { intros i Hi. unfold byte_at. apply nth_repeat_lt. lia. }
  split; [unfold zlen; rewrite repeat_length; lia|intros i Hi; rewrite Hb; lia| |lia].
  intros i j Hi Hj E H0. rewrite Hb in H0; lia.
Qed.

Lemma tk_map_slot_insert_ok p hs slots k (m : Mem) :
  0 <= p <= 31 -> table_ok (2 ^ p) hs slots k -> 0 <= k < 2 ^ p -> k < zlen hs ->
  wp (tk_map_slot_insert (2 ^ p) hs slots k) (fun s' m' => m' = m /\ table_ok (2 ^ p) hs s' (k + 1)) m.
Proof.
  intros Hp Ht Hk Hz. unfold tk_map_slot_insert. apply wp_bind, wp_rd_word; [lia|]. rewrite first_slot by done.
  set (n := 2 ^ p) in *. set (h := byte_at hs k). destruct (free_slot n hs slots k h Ht Hk) as (d & Hd & Hfree & Hpath).
  apply (wp_iter (fun i m' => m' = m /\ exists t, 0 <= t <= d /\ i = (h + t) mod n) (fun i _ => Z.to_nat (n - (i - h) mod n))).
  - split; [done|]. exists 0. split; [lia|]. f_equal. lia.
  - pose proof (Z.mod_pos_bound (h mod n - h) n). lia.
  - intros i m' (-> & t & Htd & ->). pose proof (Z.mod_pos_bound (h + t) n). pose proof (tb_len _ _ _ _ Ht).
    apply wp_bind, wp_rd_word; [lia|]. destruct (decide (t = d)) as [->|Hne].
    + rewrite Hfree. cbn -[next_slot]. apply wp_bind, wp_wr_word; [lia|]. apply wp_ret. split; [done|]. by apply table_insert; [|lia|..].
    + rewrite (proj2 (Z.leb_le _ _)) by (apply Hpath; lia). apply wp_ret.
      replace (next_slot ((h + t) mod n) (slot_mask n)) with ((h + (t + 1)) mod n) by (symmetry; by apply next_slot_eq). split.
      * split; [done|]. exists (t + 1). split; [lia|done].
      * rewrite !probe_dist by lia. lia.
Qed.

Lemma insert_all_ok p hs c : forall slots k (m : Mem),
  0 <= p <= 31 -> table_ok (2 ^ p) hs slots (Z.of_nat k) -> Z.of_nat (k + c) < 2 ^ p -> Z.of_nat (k + c) <= zlen hs ->
  wp (insert_all (2 ^ p) hs slots (map Z.of_nat (seq k c))) (fun s' m' => m' = m /\ table_ok (2 ^ p) hs s' (Z.of_nat (k + c))) m.
Proof.
  induction c as [|c IH]; intros slots k m Hp Ht Hk Hz; cbn [seq map insert_all].
  - apply wp_ret. by rewrite Nat.add_0_r.
  - eapply wp_seq; [apply tk_map_slot_insert_ok; [done..|lia|lia]|]. intros s' m' [-> Ht']. cbn beta.
    replace (Z.of_nat k + 1) with (Z.of_nat (S k)) in Ht' by lia.
    replace (k + S c)%nat with (S k + c)%nat by lia. apply IH; [done|done|lia|lia].
Qed.

(** * Hash maps are association lists

    A map holds an association list from what its keys denote, in the order of
    insertion, with no key twice. *)

(** ** Keys *)

Inductive Key := KInt (k : Z) | KNull | KStr (s : list Z).

#[export] Instance Key_eq_dec : EqDecision Key.
Proof. solve_decision. Defined.

(** What an argument denotes as a key; [None] for what is not an address of a string. *)
Definition denote (m : Mem) (kind key : Z) : option Key :=
  if kind =? TK_MAP_KEY_INT then Some (KInt key)
  else if key =? 0 then Some KNull
  else if key <? 4096 then None
  else match mm_objs m !! key with Some (OStr s) => Some (KStr s) | _ => None end.

Definition hash_of (k : Key) : Z :=
  match k with KInt k => tk_map_hash_int k | KNull => fnv_basis | KStr s => tk_map_hash_str s end.

(** ** Association lists *)

Fixpoint assoc_get (k : Key) (a : list (Key * Z)) : option Z :=
  match a with
  | [] => None
  | (k', v) :: a => if decide (k' = k) then Some v else assoc_get k a
  end.

(** An overwritten key keeps its place. *)
Fixpoint assoc_set (k : Key) (v : Z) (a : list (Key * Z)) : list (Key * Z) :=
  match a with
  | [] => [(k, v)]
  | (k', v') :: a => if decide (k' = k) then (k', v) :: a else (k', v') :: assoc_set k v a
  end.

Lemma assoc_get_at a i k v : NoDup (map fst a) -> a !! i = Some (k, v) -> assoc_get k a = Some v.
Proof.
  revert i. induction a as [|[k' v'] a IH]; intros i; [done|]. cbn. intros [Hk Hn]%NoDup_cons.
  destruct i as [|i]; cbn; [intros [= -> ->]; by rewrite decide_True|]. intros Hi.
  rewrite decide_False; [by eapply IH|]. intros ->. apply Hk, list_elem_of_In, in_map_iff. exists (k, v). split; [done|].
  apply list_elem_of_In. by eapply list_elem_of_lookup_2.
Qed.

Lemma assoc_get_none a k : k ∉ map fst a -> assoc_get k a = None.
Proof.
  induction a as [|[k' v'] a IH]; [done|]. cbn. intros [Hk Ha]%not_elem_of_cons. rewrite decide_False by done. by apply IH.
Qed.

Lemma assoc_set_at a i k v v' : NoDup (map fst a) -> a !! i = Some (k, v) -> assoc_set k v' a = <[i := (k, v')]> a.
Proof.
  revert i. induction a as [|[k1 v1] a IH]; intros i; [done|]. cbn. intros [Hk Hn]%NoDup_cons.
  destruct i as [|i]; cbn; [intros [= -> ->]; by rewrite decide_True|]. intros Hi.
  rewrite decide_False; [f_equal; by apply IH|]. intros ->. apply Hk, list_elem_of_In, in_map_iff. exists (k, v). split; [done|].
  apply list_elem_of_In. by eapply list_elem_of_lookup_2.
Qed.

Lemma assoc_set_new a k v : k ∉ map fst a -> assoc_set k v a = a ++ [(k, v)].
Proof.
  induction a as [|[k' v'] a IH]; [done|]. cbn. intros [Hk Ha]%not_elem_of_cons. rewrite decide_False by done.
  by rewrite IH.
Qed.

Lemma assoc_set_size a k v : zlen (assoc_set k v a) <= zlen a + 1.
Proof.
  induction a as [|[k' v'] a IH]; cbn; [done|]. case_decide; rewrite !zlen_cons; [lia|]. lia.
Qed.

(** ** The struct *)

Definition MAX_ENTRIES : Z := 2 ^ 29.

(** Entry [i] holds an argument and the value; the argument denotes the key. *)
Record map_body (m : Mem) (im : TkMapImpl) (es : list (Z * Z)) (a : list (Key * Z)) : Prop := {
  mr_kind : tm_kind im = TK_MAP_KEY_STR \/ tm_kind im = TK_MAP_KEY_INT;
  mr_len : tm_len im = zlen a;
  mr_fits : zlen a <= tm_cap im <= 2 ^ 30;
  mr_words : zlen (tm_entries im) = 2 * tm_cap im /\ zlen (tm_hashes im) = tm_cap im;
  mr_entries i key v : es !! i = Some (key, v) ->
    byte_at (tm_entries im) (2 * Z.of_nat i) = key /\ byte_at (tm_entries im) (2 * Z.of_nat i + 1) = v;
  mr_keys : Forall2 (fun e p => denote m (tm_kind im) (fst e) = Some (fst p) /\ snd e = snd p) es a;
  mr_nodup : NoDup (map fst a);
  mr_hashes i k v : a !! i = Some (k, v) -> byte_at (tm_hashes im) (Z.of_nat i) = hash_of k
}.

(** No slots before the first entry; then a power of two of them, 0.7 of it in use at most. *)
Definition map_slots (im : TkMapImpl) (a : list (Key * Z)) : Prop :=
  (tm_nslots im = 0 /\ a = []) \/
  exists p, 4 <= p <= 31 /\ tm_nslots im = 2 ^ p /\ table_ok (2 ^ p) (tm_hashes im) (tm_slots im) (zlen a) /\
            zlen a * 10 <= 2 ^ p * 7.

Definition map_rep (m : Mem) (im : TkMapImpl) (es : list (Z * Z)) (a : list (Key * Z)) : Prop :=
  map_body m im es a /\ map_slots im a.

(** A map depends on the heap through its keys. *)
Definition keeps_keys (m m' : Mem) (kind : Z) : Prop :=
  forall key k, denote m kind key = Some k -> denote m' kind key = Some k.

Lemma keeps_same m m' kind : mm_objs m' = mm_objs m -> keeps_keys m m' kind.
Proof. intros E key k. unfold denote. by rewrite E. Qed.

Lemma only_keeps h m m' im kind : mem_ok m -> at_ m h (OMap im) -> only h m m' -> keeps_keys m m' kind.
Proof.
  intros Hm Ho [_ Hon] key k. unfold denote. destruct (kind =? _); [done|]. destruct (key =? 0); [done|].
  destruct (key <? 4096); [done|]. destruct (mm_objs m !! key) as [o|] eqn:E; [|done].
  intros Hk. rewrite Hon, E; [done| |apply (proj2 Hm) in E; lia]. intros ->. unfold at_ in Ho. rewrite Ho in E. by injection E as <-.
Qed.

Lemma fresh_keeps h m m' kind : mem_ok m -> mm_objs m !! h = None -> only h m m' -> keeps_keys m m' kind.
Proof.
  intros Hm Hf [_ Hon] key k. unfold denote. destruct (kind =? _); [done|]. destruct (key =? 0); [done|].
  destruct (key <? 4096); [done|]. destruct (mm_objs m !! key) as [o|] eqn:E; [|done].
  intros Hk. rewrite Hon, E; [done| |apply (proj2 Hm) in E; lia]. intros ->. by rewrite Hf in E.
Qed.

Lemma map_body_keeps m m' im es a : keeps_keys m m' (tm_kind im) -> map_body m im es a -> map_body m' im es a.
Proof.
  intros Hk [? ? ? ? ? Hkeys ? ?]. split; [done..| |done|done]. eapply Forall2_impl; [exact Hkeys|].
  intros e p [Hd ?]. split; [by apply Hk|done].
Qed.

Lemma map_rep_keeps m m' im es a : keeps_keys m m' (tm_kind im) -> map_rep m im es a -> map_rep m' im es a.
Proof. intros Hk [Hb Hs]. split; [by eapply map_body_keeps|done]. Qed.

Section Facts.
Context `{Allocator}.

(** ** Keys and hashes *)

Lemma wp_ld_str m h s (Q : list Z -> Mem -> Prop) : at_ m h (OStr s) -> Q s m -> wp (ld_str h) Q m.
Proof. intros Ho HQ. unfold ld_str. apply wp_bind. eapply wp_ld; [exact Ho|]. by apply wp_ret. Qed.

Lemma ld_map_ok m h im (Q : TkMapImpl -> Mem -> Prop) : at_ m h (OMap im) -> Q im m -> wp (ld_map h) Q m.
Proof. intros Ho HQ. unfold ld_map. apply wp_bind. eapply wp_ld; [exact Ho|]. by apply wp_ret. Qed.

(** The three cases of a key of strings. *)
Lemma denote_str m kind key k :
  (kind =? TK_MAP_KEY_INT) = false -> denote m kind key = Some k ->
  (key = 0 /\ k = KNull) \/ (4096 <= key /\ exists s, at_ m key (OStr s) /\ k = KStr s).
Proof.
  unfold denote. intros ->. destruct (key =? 0) eqn:E; zb; [intros [= <-]; by left|].
  destruct (key <? 4096) eqn:E1; zb; [done|]. destruct (mm_objs m !! key) as [[]|] eqn:E2; intros [= <-].
  right. split; [done|]. eexists. by split.
Qed.

Lemma tk_map_hash_ok m im key k :
  denote m (tm_kind im) key = Some k -> wp (tk_map_hash im key) (fun h m' => m' = m /\ h = hash_of k) m.
Proof.
  intros Hd. unfold tk_map_hash. destruct (tm_kind im =? TK_MAP_KEY_INT) eqn:E.
  - unfold denote in Hd. rewrite E in Hd. injection Hd as <-. by apply wp_ret.
  - destruct (denote_str _ _ _ _ E Hd) as [[-> ->]|(Hk & s & Hs & ->)]; [by apply wp_ret|].
    rewrite (proj2 (Z.eqb_neq key 0)) by lia. apply wp_bind. eapply wp_ld_str; [exact Hs|]. by apply wp_ret.
Qed.

Lemma tk_map_key_eq_ok m im x y k1 k2 :
  denote m (tm_kind im) x = Some k1 -> denote m (tm_kind im) y = Some k2 ->
  wp (tk_map_key_eq im x y) (fun b m' => m' = m /\ b = bool_decide (k1 = k2)) m.
Proof.
  intros H1 H2. unfold tk_map_key_eq. destruct (tm_kind im =? TK_MAP_KEY_INT) eqn:E.
  - unfold denote in H1, H2. rewrite E in H1, H2. injection H1 as <-. injection H2 as <-. apply wp_ret. split; [done|].
    apply eq_true_iff_eq. rewrite bool_decide_eq_true, Z.eqb_eq. split; [by intros ->|by intros [= ->]].
  - destruct (denote_str _ _ _ _ E H1) as [[-> ->]|(Hx & s1 & Hs1 & ->)], (denote_str _ _ _ _ E H2) as [[-> ->]|(Hy & s2 & Hs2 & ->)].
    + by apply wp_ret.
    + cbn. apply wp_ret. split; [done|]. apply Z.eqb_neq. lia.
    + rewrite orb_true_r. apply wp_ret. split; [done|]. apply Z.eqb_neq. lia.
    + rewrite !(proj2 (Z.eqb_neq _ 0)) by lia. cbn [orb]. apply wp_bind. eapply wp_ld_str; [exact Hs1|].
      apply wp_bind. eapply wp_ld_str; [exact Hs2|]. apply wp_ret. split; [done|].
      apply eq_true_iff_eq. rewrite bool_decide_eq_true, bytes_eqb_eq. split; [by intros ->|by intros [= ->]].
Qed.

Lemma tk_map_check_key_ok m im key k : denote m (tm_kind im) key = Some k -> tk_map_check_key im key = true.
Proof.
  intros Hd. unfold tk_map_check_key. destruct (tm_kind im =? TK_MAP_KEY_STR) eqn:E; zb; [|done].
  assert (E' : (tm_kind im =? TK_MAP_KEY_INT) = false) by (rewrite E; done).
  destruct (denote_str _ _ _ _ E' Hd) as [[-> _]|(Hk & _)]; [done|].
  rewrite (proj2 (Z.ltb_ge key 0)), (proj2 (Z.ltb_ge key 4096)), andb_false_r by lia. done.
Qed.

(** ** Search *)

(** The entry [e] of a key, -1 when there is none. *)
Definition found (k : Key) (a : list (Key * Z)) (e : Z) : Prop :=
  (exists i v, a !! i = Some (k, v) /\ e = Z.of_nat i) \/ ((k ∉ map fst a) /\ e = -1).

Lemma entry_at m im es a i k v :
  map_body m im es a -> a !! i = Some (k, v) ->
  byte_at (tm_entries im) (2 * Z.of_nat i + 1) = v /\ Z.of_nat i < zlen a /\
  denote m (tm_kind im) (byte_at (tm_entries im) (2 * Z.of_nat i)) = Some k.
Proof.
  intros Hr Hi. pose proof (lookup_lt_Some _ _ _ Hi).
  destruct (Forall2_lookup_r _ _ _ _ _ (mr_keys _ _ _ _ Hr) Hi) as ([key v'] & He & Hd & Hv).
  destruct (mr_entries _ _ _ _ Hr _ _ _ He) as [E1 E2]. cbn in *. rewrite E1, E2. unfold zlen. split_and!; [done|lia|done].
Qed.

Lemma tk_map_find_ok m im es a key k :
  map_rep m im es a -> denote m (tm_kind im) key = Some k ->
  wp (tk_map_find im key (hash_of k)) (fun e m' => m' = m /\ found k a e) m.
Proof.
  intros [Hr Hsl0] Hd. unfold tk_map_find. pose proof (zlen_nonneg a) as Hna.
  destruct Hsl0 as [[-> ->]|(p & Hp & Hn & Ht & Hload)].
  { apply wp_ret. split; [done|]. right. split; [|done]. apply not_elem_of_nil. }
  rewrite Hn, first_slot by lia. pose proof (pow_pos p ltac:(lia)). rewrite (proj2 (Z.eqb_neq _ 0)) by lia.
  destruct (free_slot _ _ _ _ (hash_of k) Ht ltac:(lia)) as (d & Hdn & Hfree & Hpath).
  set (n := 2 ^ p) in *. set (h := hash_of k) in *.
  (* the slots passed hold no entry of the key *)
  apply (wp_iter (fun i m' => m' = m /\ exists t, 0 <= t <= d /\ i = (h + t) mod n /\
      forall t', 0 <= t' < t -> forall j v, a !! j = Some (k, v) -> byte_at (tm_slots im) ((h + t') mod n) <> Z.of_nat j)
    (fun i _ => Z.to_nat (n - (i - h) mod n))).
  - split; [done|]. exists 0. split_and!; [lia|lia|f_equal; lia|lia].
  - pose proof (Z.mod_pos_bound (h mod n - h) n). lia.
  - intros i m' (-> & t & Htd & -> & Hpast). assert (0 <= (h + t) mod n < n) by (apply Z.mod_pos_bound; lia).
    pose proof (tb_len _ _ _ _ Ht) as Hsl. pose proof (mr_words _ _ _ _ Hr) as [Hw1 Hw2]. pose proof (mr_fits _ _ _ _ Hr).
    apply wp_bind, wp_rd_word; [lia|]. set (e := byte_at (tm_slots im) ((h + t) mod n)) in *.
    destruct (e <? 0) eqn:E; zb.
    { (* a free slot: the key is nowhere *)
      apply wp_ret. split; [done|]. right. split; [|done]. intros ((k' & v) & Hk' & Hin)%list_elem_of_In%in_map_iff.
      cbn in Hk'. subst k'. apply list_elem_of_In, list_elem_of_lookup in Hin as [j Hj].
      pose proof (entry_at _ _ _ _ _ _ _ Hr Hj) as (_ & Hjn & _).
      destruct (tb_path _ _ _ _ Ht (Z.of_nat j) ltac:(lia)) as (t0 & Ht0 & Et0 & Hpre).
      rewrite (mr_hashes _ _ _ _ Hr _ _ _ Hj) in Et0, Hpre. fold h in Et0, Hpre.
      destruct (decide (t0 < t)); [by apply (Hpast t0 ltac:(lia) j v Hj)|].
      destruct (decide (t0 = t)) as [->|]; [fold e in Et0; lia|]. specialize (Hpre t ltac:(lia)). fold e in Hpre. lia. }
    pose proof (tb_range _ _ _ _ Ht ((h + t) mod n) ltac:(done)) as He. fold e in He.
    destruct (lookup_lt_is_Some_2 a (Z.to_nat e)) as [[k' v] Ha]; [unfold zlen in He; lia|].
    pose proof (entry_at _ _ _ _ _ _ _ Hr Ha) as (_ & _ & Hkey). pose proof (mr_hashes _ _ _ _ Hr _ _ _ Ha) as Hh.
    rewrite Z2Nat.id in Hkey, Hh by done.
    apply wp_bind, wp_rd_word; [lia|]. rewrite Hh. apply wp_bind.
    assert (Hcmp : wp (if hash_of k' =? h then (do k0 <- rd_word (tm_entries im) (2 * e); tk_map_key_eq im k0 key) else ret false)
                      (fun (b : bool) m' => m' = m /\ b = bool_decide (k' = k)) m).
    { destruct (hash_of k' =? h) eqn:E1; zb.
      - apply wp_bind, wp_rd_word; [lia|]. by apply tk_map_key_eq_ok.
      - apply wp_ret. split; [done|]. symmetry. apply bool_decide_eq_false_2. by intros ->. }
    eapply wp_conseq; [exact Hcmp|]. intros b m' [-> ->]. case_bool_decide as Hkk; apply wp_ret.
    + subst k'. split; [done|]. left. exists (Z.to_nat e), v. split; [done|]. lia.
    + assert (t <> d) by (intros ->; fold e in Hfree; lia).
      replace (next_slot ((h + t) mod n) (slot_mask n)) with ((h + (t + 1)) mod n) by (symmetry; apply next_slot_eq; lia).
      split; [split; [done|]|rewrite !probe_dist by lia; lia]. exists (t + 1). split_and!; [lia|lia|done|].
      intros t' Ht' j v' Hj Et'. destruct (decide (t' = t)) as [->|]; [|by apply (Hpast t' ltac:(lia) j v' Hj)].
      fold e in Et'. rewrite Et', Nat2Z.id in Ha. rewrite Ha in Hj. by injection Hj as -> _.
Qed.
End Facts.
