(* ===== verification/ArrayFacts.v ===== *)
(** * Arrays are lists, and what the functions on arrays return *)

From Stdlib Require Import ZArith Lia String Ascii Permutation Sorted.
From stdpp Require Import base tactics list gmap.
From S2P Require Import Prelude Heap TkArray Containers SeqFacts.
Open Scope Z_scope.

(** * Arrays are lists

    The elements of a block, and what the functions on arrays do with them: a
    function that returns an array returns a block of its own. *)

(** The first [len] words of the block. *)
Record arr_rep (a : TkArr) (l : list Z) : Prop := {
  ar_len : ta_len a = zlen l;
  ar_cap : ta_cap a = zlen (ta_data a);
  ar_fits : zlen l <= ta_cap a <= 2 ^ 58;
  ar_data : take (length l) (ta_data a) = l
}.

(** A value of the language of array type: 0 is the empty array. *)
Definition arr_val (m : Mem) (h : Z) (l : list Z) : Prop :=
  (h = 0 /\ l = []) \/ (0 < h /\ exists a, at_ m h (OArr a) /\ arr_rep a l).

(** A new object at [h], and no other change. *)
Definition fresh (h : Z) (m m' : Mem) : Prop := 0 < h /\ mm_objs m !! h = None /\ only h m m'.

Lemma arr_rep_lookup a l i : arr_rep a l -> 0 <= i < zlen l -> byte_at (ta_data a) i = byte_at l i.
Proof.
  intros H Hi. rewrite <- (ar_data _ _ H) at 1. unfold byte_at. rewrite !nth_lookup, lookup_take, decide_True; [done|].
  unfold zlen in Hi. lia.
Qed.

(** No object that was there changes. *)
Lemma fresh_at h m m' h' o : fresh h m m' -> mem_ok m -> at_ m h' o -> at_ m' h' o.
Proof.
  intros (Hh & Hf & _ & Hon) Hm Ho. unfold at_ in *. rewrite Hon; [done| |apply (proj2 Hm) in Ho; lia].
  intros ->. by rewrite Hf in Ho.
Qed.

Lemma fresh_only h m m' m'' : fresh h m m' -> only h m' m'' -> fresh h m m''.
Proof. intros (Hh & Hf & Hon) Hon'. split_and!; [done|done|by eapply only_trans]. Qed.

Lemma arr_rep_full d : zlen d <= 2 ^ 58 -> arr_rep (mkArr 1 (zlen d) (zlen d) d) d.
Proof. intros. split; cbn; [done|done|lia|by rewrite take_ge]. Qed.

Section Facts.
Context `{Allocator}.

(** ** Loops *)

Lemma wp_for_from {St} (f : Z -> M St unit) (I : Z -> St -> Prop) (Q : unit -> St -> Prop) c : forall k s,
  I (Z.of_nat k) s ->
  (forall i s, Z.of_nat k <= i < Z.of_nat (k + c) -> I i s -> wp (f i) (fun _ s' => I (i + 1) s') s) ->
  (forall s, I (Z.of_nat (k + c)) s -> Q tt s) -> wp (each f (map Z.of_nat (seq k c))) Q s.
Proof.
  induction c as [|c IH]; intros k s H0 Hf HQ; cbn [seq map each].
  - apply wp_ret, HQ. by rewrite Nat.add_0_r.
  - eapply wp_seq; [apply Hf; [lia|exact H0]|]. intros [] s' H1. cbn beta in *. apply IH.
    + by replace (Z.of_nat (S k)) with (Z.of_nat k + 1) by lia.
    + intros i s0 Hi. apply Hf. lia.
    + intros s0 Hs0. apply HQ. by replace (k + S c)%nat with (S k + c)%nat by lia.
Qed.

Lemma wp_for n (f : Z -> MM unit) (I : Z -> Mem -> Prop) (Q : unit -> Mem -> Prop) m :
  0 <= n -> I 0 m -> (forall i m, 0 <= i < n -> I i m -> wp (f i) (fun _ m' => I (i + 1) m') m) ->
  (forall m, I n m -> Q tt m) -> wp (for_ n f) Q m.
Proof.
  intros Hn H0 Hf HQ. unfold for_. apply (wp_for_from f I); cbn [Nat.add]; rewrite ?Z2Nat.id by done; [done| |done].
  intros i m' Hi. apply Hf. lia.
Qed.

(** ** Blocks *)

Lemma ld_arr_ok m h a (Q : TkArr -> Mem -> Prop) : at_ m h (OArr a) -> Q a m -> wp (ld_arr h) Q m.
Proof. intros Ho HQ. unfold ld_arr. apply wp_bind. eapply wp_ld; [exact Ho|]. by apply wp_ret. Qed.

Lemma tk_arr_len_ok m h l (Q : Z -> Mem -> Prop) : arr_val m h l -> Q (zlen l) m -> wp (tk_arr_len h) Q m.
Proof.
  intros [[-> ->]|(Hh & a & Ho & Hr)] HQ; unfold tk_arr_len; [by apply wp_ret|].
  rewrite (proj2 (Z.eqb_neq h 0)) by lia. apply wp_bind. eapply ld_arr_ok; [exact Ho|]. apply wp_ret. by rewrite (ar_len _ _ Hr).
Qed.

Lemma arr_set_ok m h rc cap len d i v (Q : unit -> Mem -> Prop) :
  mem_ok m -> at_ m h (OArr (mkArr rc cap len d)) -> 0 <= i < zlen d ->
  (forall m', mem_ok m' -> at_ m' h (OArr (mkArr rc cap len (<[Z.to_nat i := v]> d))) -> only h m m' -> Q tt m') ->
  wp (arr_set h i v) Q m.
Proof.
  intros Hm Ho Hi HQ. unfold arr_set. apply wp_bind. eapply ld_arr_ok; [exact Ho|]. apply wp_bind, wp_wr_word; [done|].
  by eapply wp_st.
Qed.

Lemma arr_copy_ok m h rc cap len d src j n (Q : unit -> Mem -> Prop) :
  mem_ok m -> at_ m h (OArr (mkArr rc cap len d)) -> 0 <= j -> 0 <= n -> j + n <= zlen src -> n <= zlen d ->
  (forall m', mem_ok m' -> at_ m' h (OArr (mkArr rc cap len (slice src j n ++ drop (Z.to_nat n) d))) -> only h m m' -> Q tt m') ->
  wp (arr_copy h src j n) Q m.
Proof.
  intros Hm Ho Hj Hn Hs Hd HQ. unfold arr_copy. apply wp_bind, wp_rd_range; [done..|].
  apply wp_bind. eapply ld_arr_ok; [exact Ho|]. cbn. rewrite (proj2 (Z.leb_le _ _)) by done. by eapply wp_st.
Qed.

(** A new block of [cap] words, or NULL when [malloc] fails. *)
Lemma tk_arr_alloc_ok m cap len (Q : Z -> Mem -> Prop) :
  mem_ok m -> 0 <= len <= cap -> cap <= 2 ^ 58 ->
  (forall h d m', fresh h m m' -> mem_ok m' -> at_ m' h (OArr (mkArr 1 cap len d)) -> zlen d = cap -> Q h m') ->
  (malloc_ok (mm_calls m) = false -> forall m', mm_objs m' = mm_objs m -> mm_next m' = mm_next m -> Q 0 m') ->
  wp (tk_arr_alloc cap len) Q m.
Proof.
  intros Hm Hl Hc HQ H0. unfold tk_arr_alloc. rewrite (proj2 (Z.ltb_ge cap len)), (proj2 (Z.ltb_ge cap 0)) by lia.
  apply wp_bind, wp_allocates. intros m1 E1 N1. destruct (malloc_ok (mm_calls m)); [|by apply wp_ret, H0].
  unfold TK_ARR_HDR. rewrite block_words_small by lia.
  assert (((Z.to_nat (cap + 3) <? 3)%nat) = false) as -> by (apply Nat.ltb_ge; lia).
  apply wp_new; [by eapply same_ok|]. intros h m' _ Hh Hm' Ho Hon Hf. rewrite E1 in Hf. eapply HQ; [|done|exact Ho|].
  - split_and!; [done|done|by eapply only_trans; [apply same_only|]].
  - unfold uninit, zlen. rewrite length_map, length_seq. lia.
Qed.

(** ** Appending *)

(** The elements of a value, copied to a block with room for one more, and that one. *)
Lemma copy_and_set_ok m arr l a h cap len d v (Q : unit -> Mem -> Prop) :
  mem_ok m -> at_ m arr (OArr a) -> arr_rep a l -> at_ m h (OArr (mkArr 1 cap len d)) -> zlen l < zlen d ->
  (forall m' d', mem_ok m' -> at_ m' h (OArr (mkArr 1 cap len d')) -> only h m m' -> zlen d' = zlen d ->
     take (length l + 1) d' = l ++ [v] -> Q tt m') ->
  wp (do! when (0 <? zlen l) (arr_copy h (ta_data a) 0 (zlen l)); arr_set h (zlen l) v) Q m.
Proof.
  intros Hm Ha Hr Ho Hd HQ. pose proof (zlen_nonneg l). pose proof (ar_cap _ _ Hr). pose proof (ar_fits _ _ Hr).
  assert (HIdx : Z.to_nat (zlen l) = length l) by (unfold zlen; lia).
  assert (Htake : forall k, take (length l + 1) (<[length l := v]> (l ++ k)) = l ++ [v] \/ k = []).
  { intros [|x k]; [by right|left]. rewrite insert_middle. rewrite take_app_add. done. }
  assert (Hset : forall m1 k, mem_ok m1 -> at_ m1 h (OArr (mkArr 1 cap len (l ++ k))) -> only h m m1 -> zlen (l ++ k) = zlen d ->
    wp (arr_set h (zlen l) v) Q m1).
  { intros m1 k Hm1 Ho1 Hon1 Hz. eapply arr_set_ok; [done|exact Ho1|lia|]. intros m2 Hm2 Ho2 Hon2.
    eapply HQ; [done|exact Ho2|by eapply only_trans|by rewrite zlen_insert|]. rewrite HIdx.
    destruct (Htake k) as [E| ->]; [done|]. rewrite app_nil_r in Hz. lia. }
  apply wp_bind. destruct (0 <? zlen l) eqn:E; zb; cbn [when].
  - eapply arr_copy_ok; [done|exact Ho|lia|lia|lia|lia|]. intros m1 Hm1 Ho1 Hon1. cbn beta.
    assert (Hsl : slice (ta_data a) 0 (zlen l) = l) by (unfold slice; rewrite HIdx; apply (ar_data _ _ Hr)).
    rewrite Hsl in Ho1. eapply Hset; [done|exact Ho1|done|]. rewrite zlen_app, HIdx. unfold zlen in *. rewrite length_drop. lia.
  - apply wp_ret. destruct l as [|x l]; [|rewrite zlen_cons in *; pose proof (zlen_nonneg l); lia].
    apply (Hset m d); [done|done|apply only_refl|done].
Qed.

(** What is left of the arguments when [malloc] fails. *)
Definition no_memory (m m' : Mem) : Prop := malloc_ok (mm_calls m) = false /\ mm_objs m' = mm_objs m /\ mm_next m' = mm_next m.

Lemma arr_val_new m m' h cap len d l :
  fresh h m m' -> at_ m' h (OArr (mkArr 1 cap len d)) -> len = zlen l -> cap = zlen d -> zlen l <= cap <= 2 ^ 58 ->
  take (length l) d = l -> arr_val m' h l.
Proof. intros (Hh & _) Ho -> -> Hc Hd. right. split; [done|]. eexists. split; [exact Ho|]. by split. Qed.

(** The elements of [arr], and one more, in a block that was just allocated. *)
Lemma append_block_ok m m0 arr l h cap d v :
  arr_val m arr l -> mem_ok m -> fresh h m m0 -> mem_ok m0 -> at_ m0 h (OArr (mkArr 1 cap (zlen l + 1) d)) -> zlen d = cap ->
  zlen l + 1 <= cap <= 2 ^ 58 ->
  wp (do! when (0 <? zlen l) (do src <- arr_words arr; arr_copy h src 0 (zlen l)); do! arr_set h (zlen l) v; ret h)
     (fun h' m' => h' = h /\ fresh h m m' /\ mem_ok m' /\ arr_val m' h (l ++ [v])) m0.
Proof.
  intros Hv Hm Hf Hm0 Ho Hd Hc.
  assert (HQ : forall m' d', mem_ok m' -> at_ m' h (OArr (mkArr 1 cap (zlen l + 1) d')) -> only h m0 m' -> zlen d' = zlen d ->
     take (length l + 1) d' = l ++ [v] -> h = h /\ fresh h m m' /\ mem_ok m' /\ arr_val m' h (l ++ [v])).
  { intros m' d' Hm' Ho' Hon' Hz Ht. assert (Hf' : fresh h m m') by by eapply fresh_only. split_and!; [done|exact Hf'|done|].
    eapply arr_val_new; [exact Hf'|exact Ho'|by rewrite zlen_app|lia|rewrite zlen_app; change (zlen [v]) with 1; lia|].
    by rewrite length_app. }
  destruct Hv as [[-> ->]|(Hh & a & Ha & Hr)].
  - cbn [when]. apply wp_bind, wp_ret, wp_bind. eapply arr_set_ok; [done|exact Ho|cbn in *; unfold zlen in *; cbn in *; lia|].
    intros m' Hm' Ho' Hon'. apply wp_ret. eapply HQ; [done|exact Ho'|done|by rewrite zlen_insert|].
    destruct d as [|x d]; [unfold zlen in *; cbn in *; lia|done].
  - assert (Ha0 : at_ m0 arr (OArr a)) by by eapply fresh_at.
    eapply (wp_seq2 _ _ _ (fun _ m' => h = h /\ fresh h m m' /\ mem_ok m' /\ arr_val m' h (l ++ [v]))).
    2: { intros _ m' HP. by apply wp_ret. }
    assert (E : (do! when (0 <? zlen l) (do src <- arr_words arr; arr_copy h src 0 (zlen l)); arr_set h (zlen l) v) m0 =
                (do! when (0 <? zlen l) (arr_copy h (ta_data a) 0 (zlen l)); arr_set h (zlen l) v) m0).
    { unfold arr_words, ld_arr, ld, bind. unfold at_ in Ha0. destruct (0 <? zlen l); cbn [when]; [|done]. by rewrite Ha0. }
    unfold wp. rewrite E. eapply (copy_and_set_ok m0 arr l a h cap (zlen l + 1) d v); [done|done|done|done|lia|].
    intros m' d' ? ? ? ? ?. by eapply HQ.
Qed.

(** [a.append(e)]: a new array; with no memory, the old one. *)
Lemma tk_array_append_w_ok m arr l v :
  mem_ok m -> arr_val m arr l -> zlen l < MAX_SIZE ->
  wp (tk_array_append_w arr v) (fun h m' =>
    (fresh h m m' /\ mem_ok m' /\ arr_val m' h (l ++ [v])) \/ (no_memory m m' /\ h = arr)) m.
Proof.
  intros Hm Hv Hs. unfold tk_array_append_w, MAX_SIZE in *. pose proof (zlen_nonneg l).
  apply wp_bind. eapply tk_arr_len_ok; [exact Hv|]. apply wp_bind, wp_i64; [lia|].
  apply wp_bind, tk_arr_alloc_ok; [done|lia|lia| |].
  - intros h d m0 Hf Hm0 Ho Hd. rewrite (proj2 (Z.eqb_neq h 0)) by (destruct Hf; lia).
    eapply wp_conseq; [eapply (append_block_ok m m0); [done|done|done|done|exact Ho|done|lia]|].
    intros h' m' (-> & ?). by left.
  - intros Hf m' E1 E2. apply wp_ret. right. by split.
Qed.

(** Doubling stays below 2^58. *)
Definition arr_room (m : Mem) (h : Z) : Prop := forall a, at_ m h (OArr a) -> ta_cap a <= 2 ^ 57.

Lemma arr_room_at m h rc cap len d : at_ m h (OArr (mkArr rc cap len d)) -> cap <= 2 ^ 57 -> arr_room m h.
Proof. intros Ho Hc a Ha. unfold at_ in *. rewrite Ho in Ha. by injection Ha as <-. Qed.

(** The same in place: the block of [arr] when it has room, a new one otherwise. *)
Lemma tk_array_append_inplace_w_ok m arr l v :
  mem_ok m -> arr_val m arr l -> zlen l < 2 ^ 56 -> arr_room m arr ->
  wp (tk_array_append_inplace_w arr v) (fun h m' =>
    (mem_ok m' /\ arr_val m' h (l ++ [v]) /\ arr_room m' h /\ (fresh h m m' \/ (h = arr /\ only arr m m'))) \/
    (no_memory m m' /\ h = arr)) m.
Proof.
  intros Hm Hv Hs Hcap. unfold tk_array_append_inplace_w. pose proof (zlen_nonneg l).
  destruct Hv as [[-> ->]|(Hh & a & Ha & Hr)]; cbn -[Z.pow].
  - apply wp_bind, tk_arr_alloc_ok; [done|lia|lia| |].
    + intros h d m0 Hf Hm0 Ho Hd. rewrite (proj2 (Z.eqb_neq h 0)) by (destruct Hf; lia). cbn [negb when].
      apply wp_bind. eapply arr_set_ok; [done|exact Ho|lia|]. intros m' Hm' Ho' Hon'. apply wp_ret. left.
      assert (Hf' : fresh h m m') by by eapply fresh_only. split_and!; [done| |by eapply arr_room_at|by left].
      eapply arr_val_new; [exact Hf'|exact Ho'|done|by rewrite zlen_insert|unfold zlen; cbn; lia|].
      destruct d as [|x d]; [unfold zlen in *; cbn in *; lia|done].
    + intros Hf m' E1 E2. cbn. apply wp_bind, wp_ret, wp_ret. right. by split.
  - rewrite (proj2 (Z.eqb_neq arr 0)) by lia. apply wp_bind. eapply ld_arr_ok; [exact Ha|].
    pose proof (ar_cap _ _ Hr) as Hc. pose proof (ar_fits _ _ Hr) as Hf. specialize (Hcap _ Ha).
    pose proof (ar_data _ _ Hr) as Hd. rewrite (ar_len _ _ Hr). destruct (zlen l <? ta_cap a) eqn:E; zb.
    + destruct a as [rc cap len d]; cbn [ta_cap ta_len ta_data] in *.
      apply wp_bind. eapply arr_set_ok; [done|exact Ha|lia|]. intros m1 Hm1 Ho1 Hon1.
      apply wp_bind, wp_i64; [lia|]. apply wp_bind. unfold tk_arr_setlen. apply wp_bind. eapply ld_arr_ok; [exact Ho1|].
      eapply wp_st; [done|exact Ho1|]. intros m2 Hm2 Ho2 Hon2. apply wp_ret. left. split_and!; [done| |by eapply arr_room_at|right; split; [done|by eapply only_trans]].
      right. split; [done|]. eexists. split; [exact Ho2|]. cbn.
      replace (Z.to_nat (zlen l)) with (length l) by (unfold zlen; lia).
      split; cbn; rewrite ?zlen_insert, ?zlen_app; change (zlen [v]) with 1; [lia|lia|lia|].
      apply insert_end; [done|]. unfold zlen in *. lia.
    + apply (wp_seq _ _ (fun nc m' => m' = m /\ zlen l + 1 <= nc <= 2 ^ 57)).
      { destruct (0 <? ta_cap a) eqn:E0; zb; [apply wp_i64; [lia|split; [done|lia]]|apply wp_ret; split; [done|lia]]. }
      intros nc m0 [-> Hnc]. cbn beta. apply wp_bind, wp_i64; [lia|]. apply wp_bind, tk_arr_alloc_ok; [done|lia|lia| |].
      * intros h d m0 Hf' Hm0 Ho Hz. rewrite (proj2 (Z.eqb_neq h 0)) by (destruct Hf'; lia).
        assert (Ha0 : at_ m0 arr (OArr a)) by by eapply fresh_at.
        eapply (wp_seq2 _ _ _ (fun _ m' => fresh h m m' /\ mem_ok m' /\ arr_val m' h (l ++ [v]) /\ arr_room m' h)).
        { eapply (copy_and_set_ok m0 arr l a h nc (zlen l + 1) d v); [done|done|done|done|lia|].
          intros m' d' Hm' Ho' Hon' Hz' Ht. assert (Hf'' : fresh h m m') by by eapply fresh_only. split_and!; [exact Hf''|done| |eapply arr_room_at; [exact Ho'|lia]].
          eapply arr_val_new; [exact Hf''|exact Ho'|by rewrite zlen_app|lia|rewrite zlen_app; change (zlen [v]) with 1; lia|].
          by rewrite length_app. }
        intros [] m' (? & ? & ? & ?). cbn beta. apply wp_ret. left. split_and!; [done|done|done|by left].
      * intros Hfl m' E1 E2. apply wp_ret. right. by split.
Qed.
End Facts.

(** * What the functions on arrays return

    [map], [filter], [reduce] and [sort] are those of lists, for functions that
    change nothing; slices, concatenation and search too. *)

(** Objects are allocated, none changes. *)
Definition keeps_heap (m m' : Mem) : Prop :=
  mem_ok m' /\ mm_next m <= mm_next m' /\ forall h, h < mm_next m -> mm_objs m' !! h = mm_objs m !! h.

Lemma keeps_at m m' h o : mem_ok m -> keeps_heap m m' -> at_ m h o -> at_ m' h o.
Proof. intros Hm (_ & _ & Hk) Ho. unfold at_ in *. rewrite Hk; [done|]. by apply (proj2 Hm) in Ho as []. Qed.

Lemma keeps_fresh h m m1 m2 : fresh h m m1 -> keeps_heap m1 m2 -> fresh h m m2.
Proof.
  intros (Hh & Hf & Hn & Hon) (_ & Hn' & Hk). split_and!; [done|done|]. split; [lia|].
  intros h' Hne Hlt. rewrite Hk by lia. by apply Hon.
Qed.

Lemma take_insert_snoc {A} (d : list A) i y : (i < length d)%nat -> take (S i) (<[i := y]> d) = take i d ++ [y].
Proof.
  intros Hi. rewrite (take_S_r _ _ y) by by rewrite list_lookup_insert_eq. by rewrite take_insert_ge by lia.
Qed.

Lemma take_snoc l k : 0 <= k < zlen l -> take (Z.to_nat (k + 1)) l = take (Z.to_nat k) l ++ [byte_at l k].
Proof.
  intros Hk. replace (Z.to_nat (k + 1)) with (S (Z.to_nat k)) by lia. apply take_S_r. by apply byte_at_lookup.
Qed.

Section Ops.
Context `{Allocator}.

Lemma arr_get_ok m h a l i (Q : Z -> Mem -> Prop) :
  at_ m h (OArr a) -> arr_rep a l -> 0 <= i < zlen l -> Q (byte_at l i) m -> wp (arr_get h i) Q m.
Proof.
  intros Ho Hr Hi HQ. unfold arr_get. apply wp_bind. eapply ld_arr_ok; [exact Ho|].
  pose proof (ar_cap _ _ Hr). pose proof (ar_fits _ _ Hr). apply wp_rd_word; [lia|]. by rewrite (arr_rep_lookup a l).
Qed.

(** An output block filled up to [k]. *)
Definition filled (m : Mem) (h n len : Z) (r : list Z) : Prop :=
  exists d, at_ m h (OArr (mkArr 1 n len d)) /\ zlen d = n /\ take (length r) d = r /\ zlen r <= n.

Lemma filled_set m h n len r y (Q : unit -> Mem -> Prop) :
  mem_ok m -> filled m h n len r -> zlen r < n ->
  (forall m', mem_ok m' -> filled m' h n len (r ++ [y]) -> only h m m' -> Q tt m') -> wp (arr_set h (zlen r) y) Q m.
Proof.
  intros Hm (d & Ho & Hz & Ht & Hn) Hlt HQ. eapply arr_set_ok; [done|exact Ho|pose proof (zlen_nonneg r); lia|].
  intros m' Hm' Ho' Hon. apply HQ; [done| |done]. eexists. split; [exact Ho'|]. rewrite zlen_insert, zlen_app.
  change (zlen [y]) with 1. split_and!; [done| |lia].
  replace (Z.to_nat (zlen r)) with (length r) by (unfold zlen; lia). apply insert_end; [done|]. unfold zlen in *. lia.
Qed.

Lemma filled_val m m' h n len r :
  fresh h m m' -> filled m' h n len r -> len = zlen r -> n <= 2 ^ 58 -> arr_val m' h r.
Proof. intros Hf (d & Ho & Hz & Ht & Hn) -> Hc. eapply arr_val_new; [exact Hf|exact Ho|done|done|done|done]. Qed.

(** A block from the allocator. *)
Lemma alloc_filled m n (Q : Z -> Mem -> Prop) :
  mem_ok m -> 0 <= n <= 2 ^ 58 ->
  (forall h m', h <> 0 -> fresh h m m' -> mem_ok m' -> filled m' h n n [] -> Q h m') ->
  (forall m', no_memory m m' -> Q 0 m') -> wp (tk_arr_alloc n n) Q m.
Proof.
  intros Hm Hn HQ H0. apply tk_arr_alloc_ok; [done|lia|lia| |].
  - intros h d m' Hf Hm' Ho Hz. apply HQ; [destruct Hf; lia|done|done|]. exists d. split_and!; [done|done|done|]. rewrite zlen_nil. lia.
  - intros Hfl m' E1 E2. by apply H0.
Qed.

(** ** Functions of the language *)

Section Callback.
Context (f : Z -> MM Z) (g : Z -> Z)
  (Hf : forall x m, mem_ok m -> wp (f x) (fun y m' => y = g x /\ keeps_heap m m') m).

Lemma tk_arr_map_ok m arr a l :
  mem_ok m -> at_ m arr (OArr a) -> arr_rep a l ->
  wp (tk_arr_map arr f) (fun h m' =>
    (fresh h m m' /\ mem_ok m' /\ arr_val m' h (map g l)) \/ (no_memory m m' /\ h = arr)) m.
Proof.
  intros Hm Ha Hr. unfold tk_arr_map. apply wp_bind. eapply ld_arr_ok; [exact Ha|]. rewrite (ar_len _ _ Hr).
  pose proof (zlen_nonneg l). pose proof (ar_fits _ _ Hr). apply wp_bind, alloc_filled; [done|lia| |].
  2: { intros m' Hnm. apply wp_ret. by right. }
  intros h m0 Hh Hf0 Hm0 Hfill. rewrite (proj2 (Z.eqb_neq h 0)) by done. apply wp_bind.
  apply (wp_for (zlen l) _ (fun i m' => mem_ok m' /\ fresh h m m' /\ filled m' h (zlen l) (zlen l) (map g (take (Z.to_nat i) l))));
    [lia|done| |].
  - intros i m1 Hi (Hm1 & Hf1 & Hfill1). apply wp_bind. eapply arr_get_ok; [by eapply fresh_at|exact Hr|done|].
    eapply wp_seq; [by apply Hf|]. intros y m2 [-> Hk]. cbn beta. pose proof Hk as (Hm2 & _).
    assert (Hz : zlen (map g (take (Z.to_nat i) l)) = i) by (unfold zlen in *; rewrite length_map, length_take; lia).
    rewrite <- Hz at 1. apply (filled_set _ _ (zlen l) (zlen l)); [done| |lia|].
    + destruct Hfill1 as (d & Ho & Hrest). exists d. split; [by apply (keeps_at m1)|done].
    + intros m3 Hm3 Hfill3 Hon. split_and!; [done|eapply fresh_only; [by eapply keeps_fresh|done]|].
      by rewrite take_snoc, map_app.
  - intros m' (Hm' & Hf' & Hfill'). apply wp_ret. left. split_and!; [done|done|].
    rewrite take_ge in Hfill' by (unfold zlen; lia). eapply filled_val; [done|exact Hfill'| |lia].
    unfold zlen. by rewrite length_map.
Qed.

Lemma filter_loop_ok m arr a l h : forall c k r m0,
  at_ m arr (OArr a) -> mem_ok m -> arr_rep a l -> (k + c = length l)%nat ->
  mem_ok m0 -> fresh h m m0 -> filled m0 h (zlen l) (zlen l) r -> (length r <= k)%nat ->
  wp (filter_loop arr h f (map Z.of_nat (seq k c)) (zlen r)) (fun n m' => mem_ok m' /\ fresh h m m' /\
    exists r', r' = r ++ List.filter (fun x => negb (g x =? 0)) (drop k l) /\ n = zlen r' /\ filled m' h (zlen l) (zlen l) r') m0.
Proof.
  induction c as [|c IH]; intros k r m0 Ha Hm Hr Hkc Hm0 Hf0 Hfill Hrk; cbn [seq map filter_loop].
  - apply wp_ret. split_and!; [done|done|]. exists r. rewrite drop_ge by lia. by rewrite app_nil_r.
  - assert (Hlt : 0 <= Z.of_nat k < zlen l) by (unfold zlen; lia).
    apply wp_bind. eapply arr_get_ok; [by eapply fresh_at|exact Hr|done|].
    eapply wp_seq; [by apply Hf|]. intros y m1 [-> Hk]. cbn beta. pose proof Hk as (Hm1 & _).
    assert (Hf1 : fresh h m m1) by by eapply keeps_fresh.
    assert (Hfill1 : filled m1 h (zlen l) (zlen l) r).
    { destruct Hfill as (d & Ho & Hrest). exists d. split; [by apply (keeps_at m0)|done]. }
    assert (Hd : drop k l = byte_at l (Z.of_nat k) :: drop (S k) l).
    { apply drop_S. rewrite <- (Nat2Z.id k) at 1. by apply byte_at_lookup. }
    rewrite Hd. cbn [List.filter]. destruct (negb (g (byte_at l (Z.of_nat k)) =? 0)).
    + apply wp_bind. eapply arr_get_ok; [by eapply fresh_at|exact Hr|done|]. apply wp_bind.
      apply (filled_set _ _ (zlen l) (zlen l)); [done|done|unfold zlen; lia|]. intros m2 Hm2 Hfill2 Hon. cbn beta.
      replace (zlen r + 1) with (zlen (r ++ [byte_at l (Z.of_nat k)])) by by rewrite zlen_app.
      eapply wp_conseq; [apply (IH (S k) _ m2); [done|done|done|lia|done|by eapply fresh_only|done|rewrite length_app; cbn; lia]|].
      intros n m' (? & ? & r' & -> & ? & ?). split_and!; [done|done|]. eexists. split_and!; [|done|done]. by rewrite <- app_assoc.
    + apply (IH (S k) r m1); (done || lia).
Qed.

Lemma tk_arr_filter_ok m arr a l :
  mem_ok m -> at_ m arr (OArr a) -> arr_rep a l ->
  wp (tk_arr_filter arr f) (fun h m' =>
    (fresh h m m' /\ mem_ok m' /\ arr_val m' h (List.filter (fun x => negb (g x =? 0)) l)) \/ (no_memory m m' /\ h = arr)) m.
Proof.
  intros Hm Ha Hr. unfold tk_arr_filter. apply wp_bind. eapply ld_arr_ok; [exact Ha|]. rewrite (ar_len _ _ Hr).
  pose proof (zlen_nonneg l). pose proof (ar_fits _ _ Hr). apply wp_bind, alloc_filled; [done|lia| |].
  2: { intros m' Hnm. apply wp_ret. by right. }
  intros h m0 Hh Hf0 Hm0 Hfill. rewrite (proj2 (Z.eqb_neq h 0)) by done. unfold zlen at 1. rewrite Nat2Z.id.
  eapply wp_seq; [apply (filter_loop_ok m arr a l h (length l) 0 [] m0); (done || lia)|].
  intros n m1 (Hm1 & Hf1 & r & Er & -> & Hfill1). cbn beta. rewrite drop_0 in Er. cbn in Er.
  destruct Hfill1 as (d & Ho & Hz & Ht & Hn). apply wp_bind. unfold tk_arr_setlen.
  apply wp_bind. eapply ld_arr_ok; [exact Ho|]. eapply wp_st; [done|exact Ho|]. intros m2 Hm2 Ho2 Hon. apply wp_ret. left.
  cbn [ta_rc ta_cap ta_data] in Ho2. subst r. assert (Hf2 : fresh h m m2) by by eapply fresh_only. split_and!; [done|done|].
  eapply arr_val_new; [exact Hf2|exact Ho2|done|done|lia|done].
Qed.
End Callback.

Section Reduce.
Context (f : Z -> Z -> MM Z) (g : Z -> Z -> Z)
  (Hf : forall x y m, mem_ok m -> wp (f x y) (fun z m' => z = g x y /\ keeps_heap m m') m).

Lemma reduce_loop_ok arr a l : forall c k acc m,
  mem_ok m -> at_ m arr (OArr a) -> arr_rep a l -> (k + c = length l)%nat ->
  wp (reduce_loop arr f (map Z.of_nat (seq k c)) acc) (fun r m' => r = fold_left g (drop k l) acc /\ keeps_heap m m') m.
Proof.
  induction c as [|c IH]; intros k acc m Hm Ha Hr Hkc; cbn [seq map reduce_loop].
  - apply wp_ret. rewrite drop_ge by lia. split; [done|]. by split_and!.
  - assert (Hlt : 0 <= Z.of_nat k < zlen l) by (unfold zlen; lia).
    apply wp_bind. eapply arr_get_ok; [exact Ha|exact Hr|done|].
    eapply wp_seq; [by apply Hf|]. intros y m1 [-> Hk]. cbn beta. pose proof Hk as (Hm1 & Hn1 & Hk1).
    rewrite (drop_S l (byte_at l (Z.of_nat k)) k) by (rewrite <- (Nat2Z.id k) at 1; by apply byte_at_lookup). cbn [fold_left].
    eapply wp_conseq; [apply (IH (S k)); [done|by apply (keeps_at m)|done|lia]|].
    intros r m' [-> (Hm' & Hn' & Hk')]. split; [done|]. split_and!; [done|lia|]. intros h' Hh'. rewrite Hk' by lia. by apply Hk1.
Qed.

Lemma tk_arr_reduce_ok m arr a l init :
  mem_ok m -> at_ m arr (OArr a) -> arr_rep a l ->
  wp (tk_arr_reduce arr init f) (fun r m' => r = fold_left g l init /\ keeps_heap m m') m.
Proof.
  intros Hm Ha Hr. unfold tk_arr_reduce. apply wp_bind. eapply ld_arr_ok; [exact Ha|]. rewrite (ar_len _ _ Hr).
  unfold zlen. rewrite Nat2Z.id. by apply (reduce_loop_ok arr a l (length l) 0).
Qed.
End Reduce.

(** ** Copies *)

(** [n] elements of [arr] from [start] on, in a block of their own. *)
Lemma copy_out_ok m m0 arr a l h j n (Q : unit -> Mem -> Prop) :
  mem_ok m -> at_ m arr (OArr a) -> arr_rep a l -> fresh h m m0 -> mem_ok m0 -> filled m0 h n n [] ->
  0 <= j -> 0 <= n -> j + n <= zlen l ->
  (forall m', fresh h m m' -> mem_ok m' -> filled m' h n n (slice l j n) -> Q tt m') ->
  wp (when (0 <? n) (arr_copy h (ta_data a) j n)) Q m0.
Proof.
  intros Hm Ha Hr Hf Hm0 (d & Ho & Hz & _) Hj Hn Hl HQ. pose proof (ar_cap _ _ Hr). pose proof (ar_fits _ _ Hr).
  assert (Hlen : length (slice l j n) = Z.to_nat n) by (unfold slice; rewrite length_take, length_drop; unfold zlen in *; lia).
  destruct (0 <? n) eqn:E; zb; cbn [when].
  - eapply arr_copy_ok; [done|exact Ho|lia|lia|lia|lia|]. intros m' Hm' Ho' Hon.
    assert (Hsl : slice (ta_data a) j n = slice l j n).
    { unfold slice. rewrite <- (take_drop (length l) (ta_data a)), (ar_data _ _ Hr). rewrite drop_app_le, take_app_le; [done|..];
        rewrite ?length_drop; unfold zlen in *; lia. }
    rewrite Hsl in Ho'. apply HQ; [by eapply fresh_only|done|]. eexists. split; [exact Ho'|]. rewrite zlen_app.
    unfold zlen in *. rewrite Hlen, length_drop. split_and!; [lia| |lia]. rewrite <- Hlen. apply take_app_length.
  - apply wp_ret, HQ; [done|done|]. exists d. rewrite Hlen. split_and!; [done|done| |unfold zlen; lia].
    replace (Z.to_nat n) with 0%nat by lia. symmetry. by apply length_zero_iff_nil; rewrite Hlen; lia.
Qed.

(** [a.slice(start; end)]: the bounds cut to the array. *)
Definition slice_of (l : list Z) (start end_ : Z) : list Z :=
  let s := Z.min (zlen l) (Z.max 0 start) in
  slice l s (Z.min (zlen l) end_ - s).

Lemma tk_arr_slice_w_ok m arr l start end_ :
  mem_ok m -> arr_val m arr l -> zlen l <= 2 ^ 58 -> - 2 ^ 62 <= end_ ->
  wp (tk_arr_slice_w arr start end_) (fun h m' =>
    (fresh h m m' /\ mem_ok m' /\ arr_val m' h (slice_of l start end_)) \/ (no_memory m m' /\ h = 0)) m.
Proof.
  intros Hm Hv Hl He. unfold tk_arr_slice_w. pose proof (zlen_nonneg l). apply wp_bind. eapply tk_arr_len_ok; [exact Hv|].
  unfold slice_of. set (s := Z.min (zlen l) (Z.max 0 start)).
  replace (if zlen l <? (if start <? 0 then 0 else start) then zlen l else if start <? 0 then 0 else start) with s.
  2: { unfold s. destruct (start <? 0) eqn:E1, (zlen l <? start) eqn:E2; zb; try lia; destruct (zlen l <? 0) eqn:E3; zb; lia. }
  replace (if zlen l <? end_ then zlen l else end_) with (Z.min (zlen l) end_) by (destruct (zlen l <? end_) eqn:E; zb; lia).
  assert (Hs : 0 <= s <= zlen l) by (unfold s; lia). clearbody s. set (e := Z.min (zlen l) end_).
  assert (Hee : - 2 ^ 62 <= e <= zlen l) by (unfold e; lia). clearbody e. apply wp_bind, wp_i64; [lia|].
  assert (Hsl : forall n, n = e - s \/ (e - s < 0 /\ n = 0) -> slice l s n = slice l s (e - s)).
  { intros n [->|[Hneg ->]]; [done|]. unfold slice. by replace (Z.to_nat (e - s)) with 0%nat by lia. }
  set (n := if e - s <? 0 then 0 else e - s).
  assert (Hn : 0 <= n /\ s + n <= zlen l /\ slice l s n = slice l s (e - s)).
  { unfold n. destruct (e - s <? 0) eqn:E; zb; (split_and!; [lia|lia|apply Hsl; lia]). }
  destruct Hn as (Hn0 & Hnl & <-). clearbody n.
  apply wp_bind, alloc_filled; [done|lia| |]; [|intros m' Hnm; apply wp_ret; by right].
  intros h m0 Hh Hf Hm0 Hfill. rewrite (proj2 (Z.eqb_neq h 0)) by done.
  assert (HQ : forall m', fresh h m m' -> mem_ok m' -> filled m' h n n (slice l s n) ->
     (fresh h m m' /\ mem_ok m' /\ arr_val m' h (slice l s n)) \/ (no_memory m m' /\ h = 0)).
  { intros m' Hf' Hm' Hfill'. left. split_and!; [done|done|]. eapply filled_val; [exact Hf'|exact Hfill'| |lia].
    unfold slice, zlen in *. rewrite length_take, length_drop. lia. }
  destruct Hv as [[-> ->]|(Ha0 & a & Ha & Hr)].
  - unfold zlen in Hnl. cbn in Hnl. assert (s = 0 /\ n = 0) as [-> ->] by lia. cbn. apply wp_bind, wp_ret, wp_ret.
    by apply HQ.
  - apply wp_bind. assert (Ha1 : at_ m0 arr (OArr a)) by by eapply fresh_at.
    pose proof (copy_out_ok m m0 arr a l h s n (fun _ m' => (fresh h m m' /\ mem_ok m' /\ arr_val m' h (slice l s n)) \/ (no_memory m m' /\ h = 0)))
      as HC. specialize (HC Hm Ha Hr Hf Hm0 Hfill ltac:(lia) Hn0 ltac:(lia) HQ).
    unfold arr_words, ld_arr, ld, bind. unfold at_ in Ha1.
    destruct (0 <? n); cbn [when] in *; unfold wp at 1; [rewrite Ha1; exact HC|exact HC].
Qed.

(** [tk_array_concat]: the elements of both. *)
Lemma copy_loop_ok m arr l h n j (r : list Z) m0 (Q : unit -> Mem -> Prop) :
  mem_ok m -> arr_val m arr l -> fresh h m m0 -> mem_ok m0 -> filled m0 h n n r -> zlen r = j -> j + zlen l <= n ->
  (forall m', fresh h m m' -> mem_ok m' -> filled m' h n n (r ++ l) -> Q tt m') ->
  wp (for_ (zlen l) (fun i => do x <- arr_get arr i; arr_set h (j + i) x)) Q m0.
Proof.
  intros Hm Hv Hf Hm0 Hfill Hj Hn HQ. pose proof (zlen_nonneg l).
  apply (wp_for (zlen l) _ (fun i m' => fresh h m m' /\ mem_ok m' /\ filled m' h n n (r ++ take (Z.to_nat i) l))); [done|..].
  - cbn. by rewrite app_nil_r.
  - intros i m1 Hi (Hf1 & Hm1 & Hfill1). destruct Hv as [[-> ->]|(Ha0 & a & Ha & Hr)]; [unfold zlen in Hi; cbn in Hi; lia|].
    apply wp_bind. eapply arr_get_ok; [by eapply fresh_at|exact Hr|done|].
    assert (Hz : zlen (r ++ take (Z.to_nat i) l) = j + i) by (rewrite zlen_app; unfold zlen in *; rewrite length_take; lia).
    rewrite <- Hz. apply (filled_set _ _ n n); [done|done|lia|]. intros m2 Hm2 Hfill2 Hon.
    split_and!; [by eapply fresh_only|done|]. by rewrite take_snoc, app_assoc.
  - intros m' (? & ? & Hfill'). apply HQ; [done|done|]. by rewrite take_ge in Hfill' by (unfold zlen; lia).
Qed.

Lemma tk_array_concat_ok m x y l k :
  mem_ok m -> arr_val m x l -> arr_val m y k -> zlen l + zlen k <= 2 ^ 58 ->
  wp (tk_array_concat x y) (fun h m' =>
    (fresh h m m' /\ mem_ok m' /\ arr_val m' h (l ++ k)) \/ (no_memory m m' /\ h = 0)) m.
Proof.
  intros Hm Hx Hy Hn. unfold tk_array_concat. pose proof (zlen_nonneg l). pose proof (zlen_nonneg k).
  apply wp_bind. eapply tk_arr_len_ok; [exact Hx|]. apply wp_bind. eapply tk_arr_len_ok; [exact Hy|].
  apply wp_bind, wp_i64; [lia|]. apply wp_bind, alloc_filled; [done|lia| |]; [|intros m' Hnm; apply wp_ret; by right].
  intros h m0 Hh Hf Hm0 Hfill. rewrite (proj2 (Z.eqb_neq h 0)) by done.
  apply wp_bind, (copy_loop_ok m x l h (zlen l + zlen k) 0 [] m0); [done|done|done|done|done|done|lia|]. cbn [app].
  intros m1 Hf1 Hm1 Hfill1. cbn beta.
  apply wp_bind, (copy_loop_ok m y k h (zlen l + zlen k) (zlen l) l m1); [done|done|done|done|done|done|lia|].
  intros m2 Hf2 Hm2 Hfill2. cbn beta. apply wp_ret. left. split_and!; [done|done|].
  eapply filled_val; [done|exact Hfill2|by rewrite zlen_app|lia].
Qed.

(** ** Sorting *)

(** What [qsort] asks of the comparison, and what it gives. *)
Definition consistent (c : Z -> Z -> Z) : Prop :=
  (forall x y, c x y < 0 <-> 0 < c y x) /\ (forall x y z, c x y <= 0 -> c y z <= 0 -> c x z <= 0).

Definition qsort_ok (qsort : (Z -> Z -> Z) -> list Z -> list Z) : Prop :=
  forall c l, consistent c -> Permutation l (qsort c l) /\ StronglySorted (fun x y => c x y <= 0) (qsort c l).

(** The comparison that [tk_arr_sort] passes on. *)
Lemma qsort_cmp_le cmp x y : tk_arr_sort_qsort_cmp cmp x y <= 0 <-> cmp x y <= 0.
Proof. unfold tk_arr_sort_qsort_cmp. destruct (0 <? cmp x y) eqn:E1, (cmp x y <? 0) eqn:E2; zb; cbn; lia. Qed.

Lemma qsort_cmp_consistent cmp : consistent cmp -> consistent (tk_arr_sort_qsort_cmp cmp).
Proof.
  intros [H1 H2]. split.
  - intros x y. specialize (H1 x y). unfold tk_arr_sort_qsort_cmp.
    destruct (0 <? cmp x y) eqn:E1, (cmp x y <? 0) eqn:E2, (0 <? cmp y x) eqn:E3, (cmp y x <? 0) eqn:E4; zb; cbn; lia.
  - intros x y z. rewrite !qsort_cmp_le. apply H2.
Qed.

Lemma tk_arr_sort_ok qsort cmp m arr a l :
  qsort_ok qsort -> consistent cmp -> mem_ok m -> at_ m arr (OArr a) -> arr_rep a l ->
  wp (tk_arr_sort qsort arr cmp) (fun h m' =>
    (fresh h m m' /\ mem_ok m' /\ exists r, arr_val m' h r /\ Permutation l r /\ StronglySorted (fun x y => cmp x y <= 0) r) \/
    (no_memory m m' /\ h = arr)) m.
Proof.
  intros Hq Hc Hm Ha Hr. unfold tk_arr_sort. apply wp_bind. eapply ld_arr_ok; [exact Ha|]. rewrite (ar_len _ _ Hr).
  pose proof (zlen_nonneg l). pose proof (ar_fits _ _ Hr). apply wp_bind, alloc_filled; [done|lia| |].
  2: { intros m' Hnm. apply wp_ret. by right. }
  intros h m0 Hh Hf0 Hm0 Hfill. rewrite (proj2 (Z.eqb_neq h 0)) by done.
  apply wp_bind, (copy_out_ok m m0 arr a l h 0 (zlen l)); [done|done|done|done|done|done|lia|lia|lia|].
  intros m1 Hf1 Hm1 (d & Ho1 & Hz1 & Ht1 & _). cbn beta.
  assert (Hsl : slice l 0 (zlen l) = l) by (unfold slice; change (drop (Z.to_nat 0) l) with l; apply take_ge; unfold zlen; lia).
  rewrite Hsl in Ht1. apply wp_bind. eapply ld_arr_ok; [exact Ho1|]. apply wp_bind, wp_rd_range; cbn [ta_data]; [lia..|].
  assert (slice d 0 (zlen l) = l) as ->.
  { unfold slice. change (drop (Z.to_nat 0) d) with d. unfold zlen. by rewrite Nat2Z.id. }
  destruct (Hq (tk_arr_sort_qsort_cmp cmp) l (qsort_cmp_consistent cmp Hc)) as [Hperm Hsort].
  set (r := qsort (tk_arr_sort_qsort_cmp cmp) l) in *. assert (Hlr : length r = length l) by by rewrite Hperm.
  apply wp_bind. eapply arr_copy_ok; [done|exact Ho1|lia|lia|unfold zlen; lia|lia|]. intros m2 Hm2 Ho2 Hon. apply wp_ret. left.
  assert (Hf2 : fresh h m m2) by by eapply fresh_only. split_and!; [done|done|]. exists r. split_and!; [|done|].
  - assert (slice r 0 (zlen l) = r) as Hsr by (unfold slice; change (drop (Z.to_nat 0) r) with r; apply take_ge; unfold zlen; lia).
    rewrite Hsr in Ho2. eapply arr_val_new; [exact Hf2|exact Ho2|unfold zlen; lia| |unfold zlen in *; lia|apply take_app_length].
    rewrite zlen_app. unfold zlen in *. rewrite length_drop. lia.
  - assert (Himp : forall k, StronglySorted (fun x y => tk_arr_sort_qsort_cmp cmp x y <= 0) k -> StronglySorted (fun x y => cmp x y <= 0) k).
    { induction k as [|x k IH]; [constructor|]. intros [Hs Hall]%StronglySorted_inv. constructor; [by apply IH|].
      eapply Forall_impl; [exact Hall|]. intros y. apply qsort_cmp_le. }
    by apply Himp.
Qed.

(** ** Search *)

Lemma index_loop_ok arr a l p (q : Z -> bool) : forall c k m,
  at_ m arr (OArr a) -> arr_rep a l -> (k + c = length l)%nat ->
  (forall i, 0 <= i < zlen l -> wp (p (byte_at l i)) (fun b m' => m' = m /\ b = q (byte_at l i)) m) ->
  wp (index_loop arr p (map Z.of_nat (seq k c))) (fun r m' => m' = m /\
    ((Z.of_nat k <= r < zlen l /\ q (byte_at l r) = true /\ forall i, Z.of_nat k <= i < r -> q (byte_at l i) = false) \/
     (r = -1 /\ forall i, Z.of_nat k <= i < zlen l -> q (byte_at l i) = false))) m.
Proof.
  induction c as [|c IH]; intros k m Ha Hr Hkc Hp; cbn [seq map index_loop].
  - apply wp_ret. split; [done|]. right. split; [done|]. unfold zlen. lia.
  - assert (Hlt : 0 <= Z.of_nat k < zlen l) by (unfold zlen; lia).
    apply wp_bind. eapply arr_get_ok; [exact Ha|exact Hr|done|]. eapply wp_seq; [by apply Hp|]. intros b m' [-> ->]. cbn beta.
    destruct (q (byte_at l (Z.of_nat k))) eqn:E.
    + apply wp_ret. split; [done|]. left. split_and!; [lia|lia|done|lia].
    + eapply wp_conseq; [by apply IH; [|..|lia|]|]. intros r m' [-> Hres]. split; [done|].
      assert (Hstep : forall i, Z.of_nat k <= i -> i <> Z.of_nat k -> Z.of_nat (S k) <= i) by lia.
      destruct Hres as [(Hr1 & Hr2 & Hr3)|(-> & Hr1)]; [left; split_and!; [lia|lia|done|]|right; split; [done|]];
        intros i Hi; (destruct (decide (i = Z.of_nat k)) as [->|]; [done|]); [apply Hr3|apply Hr1]; lia.
Qed.
End Ops.
