(* ===== verification/MapContainer.v ===== *)
(** * What the operations of hash maps do, and maps as values *)

From Stdlib Require Import ZArith Lia String Ascii.
From stdpp Require Import base tactics list gmap.
From S2P Require Import Prelude Heap TkArray TkMap Containers SeqFacts TkMapFacts ArrayFacts.
Open Scope Z_scope.

(** * What the operations of hash maps do

    Lookup, insertion with its growth, and the copy behind [m.set], on the
    association list. *)

(** The heap but for the counter of the allocator. *)
Definition same_heap (m m' : Mem) : Prop := mm_objs m' = mm_objs m /\ mm_next m' = mm_next m.

Lemma same_heap_ok h m m' o : same_heap m m' -> mem_ok m -> at_ m h o -> mem_ok m' /\ at_ m' h o /\ only h m m'.
Proof. intros [E1 E2] ? ?. split_and!; [by eapply same_ok|by unfold at_; rewrite E1|by apply same_only]. Qed.

(** ** Blocks *)

Lemma byte_at_take (l : list Z) k i : 0 <= i < Z.of_nat k -> byte_at (take k l) i = byte_at l i.
Proof. intros Hi. unfold byte_at. rewrite !nth_lookup, lookup_take, decide_True by lia. done. Qed.

Lemma byte_at_resized `{Allocator} data n i :
  zlen data <= n < 2 ^ 60 -> 0 <= i < zlen data -> byte_at (resized data n) i = byte_at data i.
Proof.
  intros Hn Hi. rewrite <- (byte_at_take _ (length data)) by (unfold zlen in Hi; lia). rewrite take_resized by (done || lia).
  by rewrite take_ge.
Qed.

(** Other blocks with the same words in use. *)
Lemma map_body_blocks m im es a ew hs cap nslots slots :
  map_body m im es a -> zlen ew = 2 * cap -> zlen hs = cap -> zlen a <= cap <= 2 ^ 30 ->
  (forall i, 0 <= i < 2 * zlen a -> byte_at ew i = byte_at (tm_entries im) i) ->
  (forall i, 0 <= i < zlen a -> byte_at hs i = byte_at (tm_hashes im) i) ->
  map_body m (mkMap ew (tm_len im) cap (tm_kind im) nslots slots hs) es a.
Proof.
  intros [Hk Hl Hf Hw He Hks Hn Hh] Hew Hhs Hcap Hbe Hbh.
  assert (Hlen : length es = length a) by by eapply Forall2_length.
  split; cbn [tm_kind tm_len tm_cap tm_entries tm_hashes]; [done|done|done|done| |done|done|].
  - intros i key v Hi. pose proof (lookup_lt_Some _ _ _ Hi). unfold zlen in Hbe. rewrite !Hbe by lia. by apply He.
  - intros i k v Hi. pose proof (lookup_lt_Some _ _ _ Hi). unfold zlen in Hbh. rewrite Hbh by lia. by eapply Hh.
Qed.

(** An entry written over. *)
Lemma map_body_set m im es a i k v0 key v :
  map_body m im es a -> a !! i = Some (k, v0) -> es !! i = Some (key, v0) ->
  map_body m (mkMap (<[Z.to_nat (2 * Z.of_nat i + 1) := v]> (tm_entries im)) (tm_len im) (tm_cap im) (tm_kind im)
                    (tm_nslots im) (tm_slots im) (tm_hashes im)) (<[i := (key, v)]> es) (<[i := (k, v)]> a).
Proof.
  intros [Hk Hl Hf [Hw1 Hw2] He Hks Hn Hh] Hi Hei. pose proof (lookup_lt_Some _ _ _ Hi) as Hlt.
  assert (Hlen : length es = length a) by by eapply Forall2_length.
  assert (Hb : forall j, 0 <= j -> byte_at (<[Z.to_nat (2 * Z.of_nat i + 1) := v]> (tm_entries im)) j =
                                   if j =? 2 * Z.of_nat i + 1 then v else byte_at (tm_entries im) j).
  { intros j Hj. apply byte_at_insert; [|done]. unfold zlen in *. lia. }
  split; cbn [tm_kind tm_len tm_cap tm_entries tm_hashes]; rewrite ?zlen_insert; [done|done|done|done| | | |].
  - intros j key' v' Hj. rewrite !Hb by lia. rewrite (proj2 (Z.eqb_neq _ _)) by lia.
    destruct (decide (i = j)) as [<-|Hne].
    + rewrite list_lookup_insert_eq in Hj by lia. injection Hj as <- <-. rewrite Z.eqb_refl. split; [|done]. by apply (He i _ _ Hei).
    + rewrite list_lookup_insert_ne in Hj by done. rewrite (proj2 (Z.eqb_neq _ _)) by lia. by apply He.
  - apply Forall2_insert; [done|]. cbn. split; [|done].
    destruct (Forall2_lookup_lr _ _ _ _ _ _ Hks Hei Hi) as [Hd _]. exact Hd.
  - assert (map fst (<[i := (k, v)]> a) = map fst a) as ->; [|done].
    rewrite list_fmap_insert. apply list_insert_id. rewrite list_lookup_fmap, Hi. done.
  - intros j k' v' Hj. destruct (decide (i = j)) as [<-|Hne].
    + rewrite list_lookup_insert_eq in Hj by lia. injection Hj as <- <-. by eapply Hh.
    + rewrite list_lookup_insert_ne in Hj by done. by eapply Hh.
Qed.

(** A new entry behind the others. *)
Lemma map_body_snoc m im es a k key v slots :
  map_body m im es a -> zlen a < tm_cap im -> k ∉ map fst a -> denote m (tm_kind im) key = Some k ->
  map_body m (mkMap (<[Z.to_nat (2 * zlen a + 1) := v]> (<[Z.to_nat (2 * zlen a) := key]> (tm_entries im))) (zlen a + 1)
                    (tm_cap im) (tm_kind im) (tm_nslots im) slots (<[Z.to_nat (zlen a) := hash_of k]> (tm_hashes im)))
             (es ++ [(key, v)]) (a ++ [(k, v)]).
Proof.
  intros [Hk Hl Hf [Hw1 Hw2] He Hks Hn Hh] Hlt Hnew Hd. pose proof (zlen_nonneg a).
  assert (Hlen : length es = length a) by by eapply Forall2_length.
  assert (Hb : forall j, 0 <= j -> byte_at (<[Z.to_nat (2 * zlen a + 1) := v]> (<[Z.to_nat (2 * zlen a) := key]> (tm_entries im))) j =
                 if j =? 2 * zlen a + 1 then v else if j =? 2 * zlen a then key else byte_at (tm_entries im) j).
  { intros j Hj. rewrite !byte_at_insert by (rewrite ?zlen_insert; lia). done. }
  assert (Hbh : forall j, 0 <= j -> byte_at (<[Z.to_nat (zlen a) := hash_of k]> (tm_hashes im)) j =
                  if j =? zlen a then hash_of k else byte_at (tm_hashes im) j).
  { intros j Hj. apply byte_at_insert; lia. }
  split; cbn [tm_kind tm_len tm_cap tm_entries tm_hashes]; rewrite ?zlen_insert, ?zlen_app; change (zlen [(k, v)]) with 1;
    [done|done|lia|done| | | |].
  - intros j key' v' Hj. rewrite !Hb by lia. unfold zlen in *. apply lookup_app_Some in Hj as [Hj|[Hge Hj]].
    + pose proof (lookup_lt_Some _ _ _ Hj). rewrite !(proj2 (Z.eqb_neq _ _)) by lia. by apply He.
    + apply list_lookup_singleton_Some in Hj as [Hj E]. injection E as <- <-. assert (j = length a) as -> by lia.
      rewrite !Z.eqb_refl, (proj2 (Z.eqb_neq _ _)) by lia. done.
  - apply Forall2_app; [done|]. by constructor.
  - rewrite map_app. apply NoDup_app. split_and!; [done| |by apply NoDup_singleton]. cbn.
    intros x Hx [->|Hx']%elem_of_cons; [done|by apply not_elem_of_nil in Hx'].
  - intros j k' v' Hj. rewrite Hbh by lia. unfold zlen in *. apply lookup_app_Some in Hj as [Hj|[Hge Hj]].
    + pose proof (lookup_lt_Some _ _ _ Hj). rewrite (proj2 (Z.eqb_neq _ _)) by lia. by eapply Hh.
    + apply list_lookup_singleton_Some in Hj as [Hj E]. injection E as <- <-. assert (j = length a) as -> by lia.
      by rewrite Z.eqb_refl.
Qed.

Section Facts.
Context `{Allocator} (Hp : Plenty).

(** ** Growth *)

Lemma wp_allocates_ok (Q : bool -> Mem -> Prop) m : (forall m', same_heap m m' -> Q true m') -> wp allocates Q m.
Proof. intros HQ. apply wp_allocates. intros m' E1 E2. rewrite (Hp _). by apply HQ. Qed.

Lemma map_grow_ok m im es a :
  map_rep m im es a -> zlen a < MAX_ENTRIES ->
  wp (map_grow im) (fun '(im', ok) m' => ok = true /\ same_heap m m' /\ map_rep m im' es a /\ zlen a < tm_cap im' /\
                                       tm_kind im' = tm_kind im) m.
Proof.
  intros [Hb Hs] Hmax. unfold map_grow, MAX_ENTRIES in *. pose proof (mr_fits _ _ _ _ Hb). pose proof (mr_words _ _ _ _ Hb).
  rewrite (mr_len _ _ _ _ Hb). pose proof (zlen_nonneg a). destruct (tm_cap im <=? zlen a) eqn:E; zb; [|by apply wp_ret].
  apply (wp_seq _ _ (fun nc m' => m' = m /\ zlen a < nc /\ tm_cap im <= nc <= 2 ^ 30)).
  { destruct (tm_cap im =? 0) eqn:E0; zb; [apply wp_ret; unfold TK_MAP_MIN_CAP; split_and!; [done|lia..]|].
    apply wp_i32; [lia|]. split_and!; [done|lia..]. }
  intros nc m0 (-> & Hnc & Hcap). cbn beta.
  apply wp_bind, wp_allocates_ok. intros m1 [E1 N1]. cbn [negb]. apply wp_bind, wp_allocates_ok. intros m2 [E2 N2]. cbn [negb].
  apply wp_ret. split; [done|]. split; [split; congruence|]. split; [|done]. split.
  - rewrite <- (mr_len _ _ _ _ Hb). apply map_body_blocks; [done|..]; rewrite ?zlen_resized by lia; [lia|done|lia|..]; intros; apply byte_at_resized; lia.
  - destruct Hs as [[Hns ->]|(p & Hp' & Hn & Ht & Hload)]; [by left|]. right. exists p. split_and!; [lia|lia|done| |done].
    eapply table_ext; [|exact Ht]. intros. symmetry. apply byte_at_resized; lia.
Qed.

(** A rehash calls the allocator once. *)
Lemma tk_map_rehash_any m im es a p :
  map_body m im es a -> 4 <= p <= 31 -> zlen a * 10 <= 2 ^ p * 7 ->
  wp (tk_map_rehash im (2 ^ p)) (fun r m' => same_heap m m' /\ mm_calls m' = S (mm_calls m) /\
    if malloc_ok (mm_calls m)
    then exists im', r = Some im' /\ map_rep m im' es a /\ tm_cap im' = tm_cap im /\ tm_kind im' = tm_kind im /\ tm_nslots im' = 2 ^ p
    else r = None) m.
Proof.
  intros Hb Hp' Hload. unfold tk_map_rehash. apply wp_bind, wp_allocates_calls. intros m1 E1 E2 E3.
  destruct (malloc_ok (mm_calls m)); cbn [negb]; [|by apply wp_ret].
  pose proof (pow_pos p ltac:(lia)). pose proof (pow_le_64 p ltac:(lia)). pose proof (zlen_nonneg a).
  pose proof (mr_fits _ _ _ _ Hb). pose proof (mr_words _ _ _ _ Hb) as [Hw1 Hw2].
  rewrite (Z.mod_small (2 ^ p * 4)), Z.div_mul, (mr_len _ _ _ _ Hb) by lia. unfold zlen at 1. rewrite Nat2Z.id.
  eapply wp_seq; [apply (insert_all_ok p _ (length a) _ 0); [lia|apply table_empty; lia|unfold zlen in *; lia..]|].
  cbn beta. intros slots m2 [-> Ht]. apply wp_ret. split_and!; [done|done|]. eexists. split_and!; [done| |done..].
  split.
  - rewrite <- (mr_len _ _ _ _ Hb). by apply map_body_blocks.
  - right. exists p. split_and!; [lia|lia|done|exact Ht|done].
Qed.

Lemma tk_map_rehash_ok m im es a p :
  map_body m im es a -> 4 <= p <= 31 -> zlen a * 10 <= 2 ^ p * 7 ->
  wp (tk_map_rehash im (2 ^ p)) (fun r m' => same_heap m m' /\ exists im', r = Some im' /\ map_rep m im' es a /\
    tm_cap im' = tm_cap im /\ tm_kind im' = tm_kind im /\ tm_nslots im' = 2 ^ p) m.
Proof.
  intros Hb Hp' Hload. eapply wp_conseq; [by apply (tk_map_rehash_any m im es a p)|].
  intros r m' (Hs & _ & Hr). rewrite (Hp _) in Hr. done.
Qed.

(** Room for one more in the table. *)
Lemma map_load_ok m im es a :
  map_rep m im es a -> zlen a < MAX_ENTRIES ->
  wp (map_load im) (fun '(im', ok) m' => ok = true /\ same_heap m m' /\ map_rep m im' es a /\ tm_cap im' = tm_cap im /\
    tm_kind im' = tm_kind im /\ (zlen a + 1) * 10 <= tm_nslots im' * 7) m.
Proof.
  intros [Hb Hs] Hmax. unfold map_load, MAX_ENTRIES in *. pose proof (zlen_nonneg a).
  assert (Hn : 0 <= tm_nslots im <= 2 ^ 31).
  { destruct Hs as [[-> _]|(p & Hp' & -> & _)]; [done|]. pose proof (pow_le_64 p ltac:(lia)). pose proof (pow_pos p ltac:(lia)). lia. }
  rewrite (mr_len _ _ _ _ Hb). apply wp_bind, wp_i32; [lia|]. apply wp_bind, wp_i64; [lia|]. apply wp_bind, wp_i64; [lia|].
  destruct (tm_nslots im * 7 <? (zlen a + 1) * 10) eqn:E; zb.
  2: { apply wp_ret. by split_and!. }
  apply (wp_seq _ _ (fun ns m' => m' = m /\ exists p, 4 <= p <= 31 /\ ns = 2 ^ p /\ (zlen a + 1) * 10 <= 2 ^ p * 7)).
  { destruct Hs as [[-> ->]|(p & Hp' & En & _ & Hload)].
    - apply wp_ret. split; [done|]. exists 4. split_and!; [done..|]. cbn. unfold zlen. cbn. lia.
    - rewrite En in *. pose proof (pow_pos p ltac:(lia)). rewrite (proj2 (Z.eqb_neq _ 0)) by lia.
      apply wp_i64; [lia|]. split; [done|]. exists (p + 1). rewrite Z.pow_add_r by lia. change (2 ^ 1) with 2.
      assert (p < 30); [|split_and!; [lia|lia|done|]].
      + destruct (decide (p < 30)); [done|]. pose proof (Z.pow_le_mono_r 2 30 p ltac:(lia) ltac:(lia)). lia.
      + pose proof (Z.pow_le_mono_r 2 4 p ltac:(lia) ltac:(lia)). lia. }
  intros ns m0 (-> & p & Hp' & -> & Hload). cbn beta.
  eapply wp_seq; [apply (tk_map_rehash_ok m im es a p); [done|done|lia]|].
  intros r m1 (Hsame & im' & -> & Hr' & Hc & Hk & Hns). cbn beta iota. apply wp_ret. rewrite Hns. by split_and!.
Qed.

(** ** Insertion *)

Lemma tk_map_put_found_ok m h im es a k v e :
  mem_ok m -> at_ m h (OMap im) -> map_rep m im es a -> 0 <= e -> found k a e ->
  wp (do d <- wr_word (tm_entries im) (2 * e + 1) v;
      do! st h (OMap (mkMap d (tm_len im) (tm_cap im) (tm_kind im) (tm_nslots im) (tm_slots im) (tm_hashes im)));
      ret (Some tt))
     (fun r m' => r = Some tt /\ exists im' es', mem_ok m' /\ at_ m' h (OMap im') /\ only h m m' /\
        map_rep m' im' es' (assoc_set k v a) /\ tm_kind im' = tm_kind im) m.
Proof.
  intros Hm Ho [Hb Hs] He Hf. destruct Hf as [(i & v0 & Hi & ->)|[_ ->]]; [|lia].
  destruct (Forall2_lookup_r _ _ _ _ _ (mr_keys _ _ _ _ Hb) Hi) as ([key0 v1] & Hei & Hd & Hv). cbn in Hd, Hv. subst v1.
  pose proof (entry_at _ _ _ _ _ _ _ Hb Hi) as (_ & Hlt & _).
  pose proof (mr_words _ _ _ _ Hb) as [Hw1 Hw2]. pose proof (mr_fits _ _ _ _ Hb).
  apply wp_bind, wp_wr_word; [lia|]. apply wp_bind. eapply wp_st; [done|exact Ho|]. intros m' Hm' Ho' Hon. apply wp_ret.
  split; [done|]. eexists _, _. split_and!; [done|exact Ho'|done| |done].
  rewrite (assoc_set_at a i k v0 v (mr_nodup _ _ _ _ Hb) Hi). split.
  - eapply (map_body_keeps m); [by eapply only_keeps|]. eapply map_body_set; [exact Hb|exact Hi|exact Hei].
  - destruct Hs as [[? ->]|(p & Hs)]; [done|]. right. exists p. cbn. by rewrite zlen_insert.
Qed.

Lemma tk_map_put_new_ok m h im es a key k v :
  mem_ok m -> at_ m h (OMap im) -> map_rep m im es a -> denote m (tm_kind im) key = Some k -> k ∉ map fst a ->
  zlen a < tm_cap im -> zlen a < MAX_ENTRIES -> (zlen a + 1) * 10 <= tm_nslots im * 7 ->
  wp (do d <- wr_word (tm_entries im) (2 * tm_len im) key;
      do d <- wr_word d (2 * tm_len im + 1) v;
      do hs <- wr_word (tm_hashes im) (tm_len im) (hash_of k);
      do n <- i32 (tm_len im + 1);
      do slots <- tk_map_slot_insert (tm_nslots im) hs (tm_slots im) (tm_len im);
      do! st h (OMap (mkMap d n (tm_cap im) (tm_kind im) (tm_nslots im) slots hs));
      ret (Some tt))
     (fun r m' => r = Some tt /\ exists im' es', mem_ok m' /\ at_ m' h (OMap im') /\ only h m m' /\
        map_rep m' im' es' (assoc_set k v a) /\ tm_kind im' = tm_kind im) m.
Proof.
  intros Hm Ho [Hb Hs] Hd Hnew Hlt Hmax Hload. rewrite (mr_len _ _ _ _ Hb). unfold MAX_ENTRIES in *. pose proof (zlen_nonneg a).
  pose proof (mr_words _ _ _ _ Hb) as [Hw1 Hw2]. destruct Hs as [[Hn _]|(p & Hp' & Hn & Ht & Hl)]; [lia|].
  apply wp_bind, wp_wr_word; [lia|]. apply wp_bind, wp_wr_word; [rewrite zlen_insert; lia|].
  apply wp_bind, wp_wr_word; [lia|]. apply wp_bind, wp_i32; [lia|]. rewrite Hn in *.
  eapply wp_seq.
  { apply tk_map_slot_insert_ok; [lia| |lia|rewrite zlen_insert; lia].
    eapply table_ext; [|exact Ht]. intros e He. rewrite byte_at_insert by lia. by rewrite (proj2 (Z.eqb_neq _ _)) by lia. }
  cbn beta. intros slots m1 [-> Ht']. apply wp_bind. eapply wp_st; [done|exact Ho|]. intros m' Hm' Ho' Hon. apply wp_ret.
  split; [done|]. eexists _, _. split_and!; [done|exact Ho'|done| |done].
  rewrite (assoc_set_new a k v Hnew). split.
  - eapply (map_body_keeps m); [by eapply only_keeps|]. rewrite <- Hn. by apply map_body_snoc.
  - right. exists p. cbn. rewrite zlen_app. change (zlen [(k, v)]) with 1. split_and!; [lia|lia|done|exact Ht'|lia].
Qed.

Lemma tk_map_put_ok m h im es a key k v :
  mem_ok m -> at_ m h (OMap im) -> map_rep m im es a -> denote m (tm_kind im) key = Some k -> zlen a < MAX_ENTRIES ->
  wp (tk_map_put h key v) (fun r m' => r = Some tt /\ exists im' es', mem_ok m' /\ at_ m' h (OMap im') /\ only h m m' /\
    map_rep m' im' es' (assoc_set k v a) /\ tm_kind im' = tm_kind im) m.
Proof.
  intros Hm Ho Hr Hd Hmax. unfold tk_map_put. rewrite (proj2 (Z.eqb_neq h 0)) by (apply (proj2 Hm) in Ho; lia).
  apply wp_bind. eapply ld_map_ok; [exact Ho|]. rewrite (tk_map_check_key_ok _ _ _ _ Hd). cbn [negb].
  eapply wp_seq; [by apply tk_map_hash_ok|]. intros hk m0 [-> ->]. cbn beta.
  eapply wp_seq; [by eapply tk_map_find_ok|]. intros e m0 [-> Hf]. cbn beta. destruct (0 <=? e) eqn:E; zb.
  { by apply (tk_map_put_found_ok m h im es a k v e). }
  destruct Hf as [(i & v0 & _ & ->)|[Hnew _]]; [lia|].
  eapply wp_seq; [by apply map_grow_ok|]. intros [im1 ok1] m1 (-> & Hsame1 & Hr1 & Hlt1 & Hk1). cbn [negb].
  destruct (same_heap_ok h _ _ _ Hsame1 Hm Ho) as (Hm1 & Ho1 & Hon1).
  apply wp_bind. eapply wp_st; [done|exact Ho1|]. intros m2 Hm2 Ho2 Hon2.
  assert (HK2 : keeps_keys m m2 (tm_kind im1)) by (eapply only_keeps; [exact Hm|exact Ho|by eapply only_trans]).
  apply (map_rep_keeps _ m2) in Hr1; [|done].
  eapply wp_seq; [by apply map_load_ok|]. intros [im3 ok3] m3 (-> & Hsame3 & Hr3 & Hc3 & Hk3 & Hload). cbn [negb].
  destruct (same_heap_ok h _ _ _ Hsame3 Hm2 Ho2) as (Hm3 & Ho3 & Hon3).
  apply wp_bind. eapply wp_st; [done|exact Ho3|]. intros m4 Hm4 Ho4 Hon4.
  assert (Hon : only h m m4) by (do 4 (eapply only_trans; [eassumption|]); apply only_refl).
  assert (HK : keeps_keys m m4 (tm_kind im)) by by eapply only_keeps.
  assert (HK4 : keeps_keys m2 m4 (tm_kind im3)) by (eapply only_keeps; [exact Hm2|exact Ho2|by eapply only_trans]).
  apply (map_rep_keeps _ m4) in Hr3; [|done].
  eapply wp_conseq; [apply (tk_map_put_new_ok m4 h im3 es a key k v); [done|done|done| |done|lia|done|done]|].
  { rewrite Hk3, Hk1. by apply HK. }
  intros r m' (-> & im' & es' & Hm' & Ho' & Hon' & Hr' & Hk'). split; [done|]. exists im', es'.
  split_and!; [done|done|by eapply only_trans|done|congruence].
Qed.

(** ** Lookup *)

Lemma map_entry_ok m h im es a key k :
  at_ m h (OMap im) -> map_rep m im es a -> denote m (tm_kind im) key = Some k ->
  wp (map_entry h key) (fun r m' => m' = m /\ exists e, r = Some (im, e) /\ found k a e) m.
Proof.
  intros Ho Hr Hd. unfold map_entry. apply wp_bind. eapply ld_map_ok; [exact Ho|].
  rewrite (tk_map_check_key_ok _ _ _ _ Hd). cbn [negb].
  eapply wp_seq; [by apply tk_map_hash_ok|]. intros hk m0 [-> ->]. cbn beta.
  eapply wp_seq; [by eapply tk_map_find_ok|]. intros e m0 [-> Hf]. cbn beta. apply wp_ret. split; [done|]. by exists e.
Qed.

(** The value at an entry that was found. *)
Lemma found_value m im es a k e d (Q : option Z -> Mem -> Prop) :
  map_rep m im es a -> found k a e -> Q (Some (default d (assoc_get k a))) m ->
  wp (if 0 <=? e then (do v <- rd_word (tm_entries im) (2 * e + 1); ret (Some v)) else ret (Some d)) Q m.
Proof.
  intros [Hb _] Hf HQ. destruct Hf as [(i & v & Hi & ->)|[Hn ->]].
  - rewrite (proj2 (Z.leb_le _ _)) by lia. pose proof (entry_at _ _ _ _ _ _ _ Hb Hi) as (Hv & Hlt & _).
    pose proof (mr_words _ _ _ _ Hb) as [Hw1 Hw2]. pose proof (mr_fits _ _ _ _ Hb).
    apply wp_bind, wp_rd_word; [lia|]. apply wp_ret. rewrite Hv.
    by rewrite (assoc_get_at a i k v (mr_nodup _ _ _ _ Hb) Hi) in HQ.
  - apply wp_ret. by rewrite assoc_get_none in HQ.
Qed.

Lemma found_in k a e : NoDup (map fst a) -> found k a e -> (0 <=? e) = bool_decide (is_Some (assoc_get k a)).
Proof.
  intros Hd [(i & v & Hi & ->)|[Hn ->]].
  - rewrite (assoc_get_at a i k v Hd Hi), bool_decide_eq_true_2 by done. apply Z.leb_le. lia.
  - by rewrite assoc_get_none.
Qed.
End Facts.

(** * Maps as values

    The copy that [m.set] makes, the array of the keys, and the interface of the
    operations in place. *)

(** A map of the language with the keys of [kind]. *)
Definition map_val (m : Mem) (kind h : Z) (a : list (Key * Z)) : Prop :=
  0 < h /\ exists im es, at_ m h (OMap im) /\ map_rep m im es a /\ tm_kind im = kind.

(** No value changes with a new object. *)
Lemma map_val_fresh m m' kind h h' a : mem_ok m -> fresh h m m' -> map_val m kind h' a -> map_val m' kind h' a.
Proof.
  intros Hm Hf (Hh & im & es & Ho & Hr & Hk). split; [done|]. exists im, es. split_and!; [by eapply fresh_at| |done].
  eapply map_rep_keeps; [|exact Hr]. destruct Hf as (_ & Hf & Hon). by eapply fresh_keeps.
Qed.

Section Facts.
Context `{Allocator}.

(** ** The number of slots of a copy *)

Lemma over_load_true len ns : over_load len ns = true -> 0 <= ns -> 1 <= len -> ns < 2 * len.
Proof. unfold over_load. intros Ho Hns Hlen. zb. lia. Qed.

Lemma over_load_false len ns : over_load len ns = false -> 0 <= ns -> len * 10 <= ns * 7.
Proof. unfold over_load. intros Ho Hns. zb. lia. Qed.

Lemma clone_slots_ok len (m : Mem) :
  1 <= len <= MAX_ENTRIES ->
  wp (clone_slots len) (fun ns m' => m' = m /\ exists p, 4 <= p <= 31 /\ ns = 2 ^ p /\ len * 10 <= 2 ^ p * 7) m.
Proof.
  intros Hl. unfold clone_slots, MAX_ENTRIES in *.
  apply (wp_iter (fun ns m' => m' = m /\ exists p, 4 <= p <= 31 /\ ns = 2 ^ p) (fun ns _ => Z.to_nat (2 * len - ns))).
  - split; [done|]. by exists 4.
  - unfold TK_MAP_MIN_SLOTS. lia.
  - intros ns m' (-> & p & Hp & ->). pose proof (pow_pos p ltac:(lia)). destruct (over_load len (2 ^ p)) eqn:E.
    + pose proof (over_load_true _ _ E ltac:(lia) ltac:(lia)). apply wp_bind, wp_i64; [lia|]. apply wp_ret.
      split; [|lia]. split; [done|]. exists (p + 1). rewrite Z.pow_add_r by lia. split; [|done].
      destruct (decide (p < 30)); [lia|]. pose proof (Z.pow_le_mono_r 2 30 p ltac:(lia) ltac:(lia)). lia.
    + apply wp_ret. split; [done|]. exists p. split_and!; [lia|lia|done|]. apply over_load_false; [done|lia].
Qed.

(** ** The copy *)

Lemma clone_body m im es a hs ew cap :
  map_body m im es a -> zlen a <= cap <= 2 ^ 30 -> zlen ew = 2 * cap -> zlen hs = cap ->
  take (length (slice (tm_entries im) 0 (2 * zlen a))) ew = slice (tm_entries im) 0 (2 * zlen a) ->
  take (length (slice (tm_hashes im) 0 (zlen a))) hs = slice (tm_hashes im) 0 (zlen a) ->
  map_body m (mkMap ew (zlen a) cap (tm_kind im) 0 [] hs) es a.
Proof.
  intros Hb Hc Hew Hhs Ht1 Ht2. pose proof (mr_fits _ _ _ _ Hb). pose proof (mr_words _ _ _ _ Hb) as [Hw1 Hw2].
  pose proof (zlen_nonneg a).
  assert (Hsl : forall (l w : list Z) n, 0 <= n <= zlen l -> take (length (slice l 0 n)) w = slice l 0 n ->
    forall i, 0 <= i < n -> byte_at w i = byte_at l i).
  { intros l w n Hn Ht i Hi. assert (Hlen : length (slice l 0 n) = Z.to_nat n).
    { unfold slice. rewrite length_take, length_drop. unfold zlen in Hn. lia. }
    rewrite <- (byte_at_take w (Z.to_nat n)) by lia. rewrite Hlen in Ht. rewrite Ht. unfold slice. apply (byte_at_take l). lia. }
  rewrite <- (mr_len _ _ _ _ Hb). apply map_body_blocks; [done|done|done|done|..]; intros i Hi;
    [eapply (Hsl _ _ (2 * zlen a)); [lia|done|lia]|eapply (Hsl _ _ (zlen a)); [lia|done|lia]].
Qed.

(** Of the calls of the allocator between two heaps, all gave memory, or one failed. *)
Definition served (m m' : Mem) : Prop := forall n, (mm_calls m <= n < mm_calls m')%nat -> malloc_ok n = true.
Definition starved (m m' : Mem) : Prop := exists n, (mm_calls m <= n < mm_calls m')%nat /\ malloc_ok n = false.

Lemma served_next m m1 m2 :
  served m m1 -> mm_calls m2 = S (mm_calls m1) -> malloc_ok (mm_calls m1) = true -> served m m2.
Proof. intros Hs Hc Hok n Hn. destruct (decide (n = mm_calls m1)) as [->|]; [done|]. apply Hs. lia. Qed.

Lemma starved_now m m1 m2 :
  (mm_calls m <= mm_calls m1)%nat -> (mm_calls m1 < mm_calls m2)%nat -> malloc_ok (mm_calls m1) = false -> starved m m2.
Proof. intros Hle Hlt Hno. exists (mm_calls m1). split; [lia|done]. Qed.

(** The result of a copy: 0, or a map that holds what [im] does. *)
Definition copied (im : TkMapImpl) (es : list (Z * Z)) (a : list (Key * Z)) (m : Mem) (h : Z) (m' : Mem) : Prop :=
  (starved m m' /\ h = 0 /\ same_heap m m') \/
  (served m m' /\ mem_ok m' /\ fresh h m m' /\
   exists im', at_ m' h (OMap im') /\ map_rep m' im' es a /\ tm_kind im' = tm_kind im).

Lemma copied_new m m2 im im' es a :
  mem_ok m -> same_heap m m2 -> served m m2 -> map_rep m im' es a -> tm_kind im' = tm_kind im ->
  wp (new_obj (OMap im')) (copied im es a m) m2.
Proof.
  intros Hm [E2 N2] S2 Hr' Hk'. apply wp_new_calls; [by eapply same_ok|]. intros h m' Hc _ Hh Hm' Ho Hon Hf. rewrite E2 in Hf.
  assert (Hfr : fresh h m m') by (split_and!; [done|done|by eapply only_trans; [apply same_only|]]).
  right. split_and!; [unfold served; by rewrite Hc|done|exact Hfr|]. exists im'. split_and!; [done| |done].
  eapply map_rep_keeps; [|exact Hr']. destruct Hfr as (_ & _ & Hon'). by eapply fresh_keeps.
Qed.

(** A block of [k] words that begins with [n] of a list. *)
Lemma zlen_block (l : list Z) n k :
  0 <= n <= zlen l -> n <= k < 2 ^ 60 -> zlen (slice l 0 n ++ drop (length (slice l 0 n)) (uninit (block_words k))) = k.
Proof.
  intros Hn Hk. rewrite zlen_app. unfold slice, uninit, zlen in *. rewrite block_words_small by lia.
  rewrite length_drop, length_take, length_map, length_seq, length_drop. lia.
Qed.

(** A copy, or 0 when an allocation failed. *)
Lemma tk_map_clone_any m im es a :
  mem_ok m -> map_rep m im es a -> zlen a <= MAX_ENTRIES -> wp (tk_map_clone im) (copied im es a m) m.
Proof.
  intros Hm [Hb Hs] Hmax. unfold tk_map_clone. rewrite (mr_len _ _ _ _ Hb). unfold MAX_ENTRIES in *.
  pose proof (zlen_nonneg a). pose proof (mr_fits _ _ _ _ Hb). pose proof (mr_words _ _ _ _ Hb) as [Hw1 Hw2].
  assert (S0 : served m m) by (intros n Hn; lia).
  apply wp_bind, wp_allocates_calls. intros m1 E1 N1 C1. destruct (malloc_ok (mm_calls m)) eqn:F0; cbn [negb].
  2:{ apply wp_ret. left. split_and!; [apply (starved_now m m m1); [lia|lia|done]|done|done]. }
  pose proof (served_next m m m1 S0 C1 F0) as S1. destruct (0 <? zlen a) eqn:E0; zb.
  - apply wp_bind, wp_allocates_calls. intros m2 E2 N2 C2. apply wp_bind, wp_allocates_calls. intros m3 E3 N3 C3.
    destruct (malloc_ok (mm_calls m1)) eqn:F1; cbn [andb negb].
    2:{ apply wp_ret. left. split_and!; [apply (starved_now m m1 m3); [lia|lia|done]|done|split; congruence]. }
    destruct (malloc_ok (mm_calls m2)) eqn:F2; cbn [negb].
    2:{ apply wp_ret. left. split_and!; [apply (starved_now m m2 m3); [lia|lia|done]|done|split; congruence]. }
    pose proof (served_next m m2 m3 (served_next m m1 m2 S1 C2 F1) C3 F2) as S3.
    apply wp_bind, wp_rd_range; [lia..|]. apply wp_bind, wp_rd_range; [lia..|].
    set (cap := if TK_MAP_MIN_CAP <? zlen a then zlen a else TK_MAP_MIN_CAP).
    assert (Hcap : zlen a <= cap <= 2 ^ 30) by (unfold cap, TK_MAP_MIN_CAP; destruct (8 <? zlen a) eqn:E8; zb; lia). clearbody cap.
    eapply wp_seq; [apply clone_slots_ok; unfold MAX_ENTRIES; lia|]. intros ns m4 (-> & p & Hp' & -> & Hload). cbn beta zeta.
    eapply wp_seq.
    { apply (tk_map_rehash_any m3 _ es a p); [|done|done]. eapply (map_body_keeps m); [apply keeps_same; congruence|].
      apply clone_body; [done|done|apply zlen_block; lia|apply zlen_block; lia|apply take_app_length|apply take_app_length]. }
    cbn beta. intros r m4 ([E4 N4] & C4 & Hr). destruct (malloc_ok (mm_calls m3)) eqn:F3.
    2:{ subst r. apply wp_ret. left. split_and!; [apply (starved_now m m3 m4); [lia|lia|done]|done|split; congruence]. }
    destruct Hr as (im' & -> & Hr' & _ & Hk' & _).
    apply copied_new; [done|split; congruence|by apply (served_next m m3)| |done].
    eapply map_rep_keeps; [|exact Hr']. apply keeps_same. congruence.
  - assert (a = []) as -> by (destruct a; [done|]; rewrite zlen_cons in *; pose proof (zlen_nonneg a); lia).
    assert (es = []) as -> by (pose proof (mr_keys _ _ _ _ Hb) as Hks; by apply Forall2_nil_inv_r in Hks).
    apply copied_new; [done|done|done| |done]. split; [|by left]. pose proof (mr_kind _ _ _ _ Hb).
    split; cbn; [done|done|done|done|by intros|constructor|constructor|by intros].
Qed.

Lemma tk_map_clone_ok m im es a :
  Plenty -> mem_ok m -> map_rep m im es a -> zlen a <= MAX_ENTRIES ->
  wp (tk_map_clone im) (fun h m' => mem_ok m' /\ fresh h m m' /\
    exists im', at_ m' h (OMap im') /\ map_rep m' im' es a /\ tm_kind im' = tm_kind im) m.
Proof.
  intros Hp Hm Hr Hmax. eapply wp_conseq; [by apply tk_map_clone_any|].
  intros h m' [((n & _ & Hn) & _)|[_ ?]]; [by rewrite (Hp n) in Hn|done].
Qed.

(** [m.set(k; v)]: a new map; the receiver and every other object stay. *)
Lemma tk_map_set_w_ok m kind h a key k v :
  Plenty -> mem_ok m -> map_val m kind h a -> denote m kind key = Some k -> zlen a < MAX_ENTRIES ->
  wp (tk_map_set_w h key v) (fun r m' => exists h', r = Some h' /\ fresh h' m m' /\ mem_ok m' /\ map_val m' kind h' (assoc_set k v a)) m.
Proof.
  intros Hp Hm (Hh & im & es & Ho & Hr & Hk) Hd Hmax. unfold tk_map_set_w. rewrite (proj2 (Z.eqb_neq h 0)) by lia.
  apply wp_bind. eapply ld_map_ok; [exact Ho|]. eapply wp_seq; [apply tk_map_clone_ok; [done|done|exact Hr|lia]|].
  intros cp m1 (Hm1 & Hf & im1 & Ho1 & Hr1 & Hk1). cbn beta. rewrite (proj2 (Z.eqb_neq cp 0)) by (destruct Hf; lia).
  eapply wp_seq.
  { apply (tk_map_put_ok Hp m1 cp im1 es a key k v); [done|done|done| |done]. rewrite Hk1, Hk.
    destruct Hf as (_ & Hf & Hon). eapply fresh_keeps; [exact Hm|exact Hf|exact Hon|done]. }
  intros r m2 (-> & im2 & es2 & Hm2 & Ho2 & Hon2 & Hr2 & Hk2). cbn beta iota. apply wp_ret. exists cp.
  split_and!; [done|by eapply fresh_only|done|]. split; [by destruct Hf|]. exists im2, es2. split_and!; [done|done|congruence].
Qed.

(** A key that is no string: [tk_map_put] exits, having changed nothing; [m.set]
    exits behind its copy, or answers the receiver when there is none. *)
Definition bad_key (key : Z) : Prop := key < 0 \/ 0 < key < 4096.

Lemma bad_key_check im key : tm_kind im = TK_MAP_KEY_STR -> bad_key key -> tk_map_check_key im key = false.
Proof.
  intros Hk Hkey. unfold tk_map_check_key, bad_key in *. rewrite Hk.
  destruct (key <? 0) eqn:E1, (0 <? key) eqn:E2, (key <? 4096) eqn:E3; zb; cbn; (done || lia).
Qed.

Lemma put_trap m h key v im :
  at_ m h (OMap im) -> h <> 0 -> tm_kind im = TK_MAP_KEY_STR -> bad_key key -> tk_map_put h key v m = Ok (None, m).
Proof.
  intros Ho Hh Hk Hkey. assert (Hl : ld_map h m = Ok (im, m)) by (unfold ld_map, ld, bind; unfold at_ in Ho; by rewrite Ho).
  unfold tk_map_put, bind. rewrite (proj2 (Z.eqb_neq h 0)), Hl by done. by rewrite (bad_key_check im key Hk Hkey).
Qed.

Lemma entry_trap m h key im :
  at_ m h (OMap im) -> tm_kind im = TK_MAP_KEY_STR -> bad_key key -> map_entry h key m = Ok (None, m).
Proof.
  intros Ho Hk Hkey. assert (Hl : ld_map h m = Ok (im, m)) by (unfold ld_map, ld, bind; unfold at_ in Ho; by rewrite Ho).
  unfold map_entry, bind. rewrite Hl. by rewrite (bad_key_check im key Hk Hkey).
Qed.

Lemma tk_map_set_w_trap m h a key v :
  mem_ok m -> map_val m TK_MAP_KEY_STR h a -> zlen a <= MAX_ENTRIES -> bad_key key ->
  wp (tk_map_set_w h key v) (fun r m' => (forall x o, at_ m x o -> at_ m' x o) /\
    ((r = None /\ served m m') \/ (r = Some h /\ starved m m'))) m.
Proof.
  intros Hm (Hh & im & es & Ho & Hr & Hk) Hmax Hkey. unfold tk_map_set_w. rewrite (proj2 (Z.eqb_neq h 0)) by lia.
  apply wp_bind. eapply ld_map_ok; [exact Ho|]. eapply wp_seq; [by apply tk_map_clone_any|].
  intros cp m1 [(Hn & -> & Hs & _)|(Hs & Hm1 & Hf & im1 & Ho1 & _ & Hk1)]; cbn beta.
  - apply wp_ret. split; [|by right]. intros x o. unfold at_. by rewrite Hs.
  - rewrite (proj2 (Z.eqb_neq cp 0)) by (destruct Hf; lia). apply wp_bind. unfold wp.
    rewrite (put_trap m1 cp key v im1) by (done || (destruct Hf; lia) || congruence). cbn. split; [|by left].
    intros x o. by apply (fresh_at cp).
Qed.

(** ** The keys *)

(** An array of the arguments the keys were set with, in the order of insertion. *)
Lemma tk_map_keys_w_ok m kind h a :
  mem_ok m -> map_val m kind h a ->
  wp (tk_map_keys_w h) (fun r m' => (no_memory m m' /\ r = 0) \/
    (fresh r m m' /\ mem_ok m' /\ exists l, arr_val m' r l /\ map (denote m kind) l = map (fun p => Some (fst p)) a)) m.
Proof.
  intros Hm (Hh & im & es & Ho & [Hb Hs] & Hk). unfold tk_map_keys_w. rewrite (proj2 (Z.eqb_neq h 0)) by lia.
  apply wp_bind. eapply ld_map_ok; [exact Ho|]. rewrite (mr_len _ _ _ _ Hb).
  pose proof (zlen_nonneg a). pose proof (mr_fits _ _ _ _ Hb). pose proof (mr_words _ _ _ _ Hb) as [Hw1 Hw2].
  assert (Hle : zlen es = zlen a) by (unfold zlen; f_equal; eapply Forall2_length, (mr_keys _ _ _ _ Hb)).
  apply wp_bind, alloc_filled; [done|lia| |]; [|intros m' Hnm; apply wp_ret; by left].
  intros r m1 Hr0 Hf1 Hm1 Hfill1. rewrite (proj2 (Z.eqb_neq r 0)) by done. apply wp_bind.
  apply (wp_for (zlen a) _ (fun i m' => fresh r m m' /\ mem_ok m' /\ filled m' r (zlen a) (zlen a) (map fst (take (Z.to_nat i) es))));
    [lia|done| |].
  - intros i m2 Hi (Hf2 & Hm2 & Hfill2). apply wp_bind, wp_rd_word; [lia|].
    destruct (lookup_lt_is_Some_2 es (Z.to_nat i)) as [[key v] He]; [unfold zlen in *; lia|].
    destruct (mr_entries _ _ _ _ Hb _ _ _ He) as [E1 _]. rewrite Z2Nat.id in E1 by lia. rewrite E1.
    assert (Hz : zlen (map fst (take (Z.to_nat i) es)) = i) by (unfold zlen in *; rewrite length_map, length_take; lia).
    rewrite <- Hz at 1. apply (filled_set _ _ (zlen a) (zlen a)); [done|done|lia|]. intros m3 Hm3 Hfill3 Hon.
    split_and!; [by eapply fresh_only|done|]. replace (Z.to_nat (i + 1)) with (S (Z.to_nat i)) by lia.
    by rewrite (take_S_r _ _ _ He), map_app.
  - intros m2 (Hf2 & Hm2 & Hfill2). apply wp_ret. right. split_and!; [done|done|]. exists (map fst es). split.
    + rewrite take_ge in Hfill2 by (unfold zlen in *; lia). eapply filled_val; [done|exact Hfill2| |lia].
      unfold zlen in *. rewrite length_map. lia.
    + rewrite map_map. pose proof (mr_keys _ _ _ _ Hb) as Hks. rewrite Hk in Hks.
      clear -Hks. induction Hks as [|e p es a [Hd _] Hks IH]; [done|]. cbn. by rewrite Hd, IH.
Qed.
End Facts.

(** ** The interface *)

(** Each operation with its argument and what that denotes. *)
Inductive MapOp :=
  | MSet (key : Z) (k : Key) (v : Z)
  | MGet (key : Z) (k : Key)
  | MGetOr (key : Z) (k : Key) (d : Z)
  | MHas (key : Z) (k : Key)
  | MLen.

Definition map_spec (op : MapOp) (a : list (Key * Z)) : list (Key * Z) * option Z :=
  match op with
  | MSet _ k v => (assoc_set k v a, None)
  | MGet _ k => (a, Some (default 0 (assoc_get k a)))
  | MGetOr _ k d => (a, Some (default d (assoc_get k a)))
  | MHas _ k => (a, Some (Z.b2z (bool_decide (is_Some (assoc_get k a)))))
  | MLen => (a, Some (zlen a))
  end.

Definition map_pre (kind : Z) (m : Mem) (op : MapOp) : Prop :=
  match op with
  | MSet key k _ | MGet key k | MGetOr key k _ | MHas key k => denote m kind key = Some k
  | MLen => True
  end.

Definition map_obj (kind : Z) (m : Mem) (o : Obj) (a : list (Key * Z)) : Prop :=
  exists im es, o = OMap im /\ map_rep m im es a /\ tm_kind im = kind.

Section Instance_.
Context `{Allocator}.

(** What returns; the exit of RT006 is undefined here. *)
Definition returned (r : MM (option Z)) : MM Z := do x <- r; match x with Some x => ret x | None => oob end.

Definition map_exec (h : Z) (op : MapOp) : MM Z :=
  match op with
  | MSet key _ v => returned (tk_map_set_inplace_w h key v)
  | MGet key _ => returned (tk_map_get h key)
  | MGetOr key _ d => returned (tk_map_getor_w h key d)
  | MHas key _ => returned (tk_map_contains_w h key)
  | MLen => tk_map_len_w h
  end.

Lemma map_exec_ok kind m h o a op :
  Plenty -> mem_ok m -> at_ m h o -> map_obj kind m o a -> map_pre kind m op -> zlen a < MAX_ENTRIES ->
  wp (map_exec h op) (fun r m' => exists o', mem_ok m' /\ at_ m' h o' /\ only h m m' /\
    map_obj kind m' o' (fst (map_spec op a)) /\ r = default h (snd (map_spec op a))) m.
Proof.
  intros Hp Hm Ho (im & es & -> & Hr & Hk) Hpre Hmax. assert (Hh : (h =? 0) = false) by (apply Z.eqb_neq; apply (proj2 Hm) in Ho; lia).
  assert (Hstay : forall r : Z, exists o', mem_ok m /\ at_ m h o' /\ only h m m /\ map_obj kind m o' a /\ r = r).
  { intros r. exists (OMap im). split_and!; [done|done|apply only_refl|by exists im, es|done]. }
  destruct op as [key k v|key k|key k d|key k|]; cbn [map_exec map_spec map_pre fst snd default] in *;
    unfold tk_map_set_inplace_w, tk_map_get, tk_map_getor_w, tk_map_contains_w, tk_map_len_w, returned; rewrite ?Hh; subst kind;
    try (apply wp_bind; eapply wp_seq; [by apply (map_entry_ok m h im es a key k)|]; intros x m0 (-> & e & -> & Hf); cbv beta iota).
  - apply wp_bind. eapply wp_seq; [by apply (tk_map_put_ok Hp m h im es a key k v)|].
    intros r m' (-> & im' & es' & ? & ? & ? & ? & ?). cbn beta iota. apply wp_ret, wp_ret. exists (OMap im').
    split_and!; [done..|by exists im', es'|done].
  - eapply found_value; [exact Hr|exact Hf|]. by apply wp_ret, Hstay.
  - eapply found_value; [exact Hr|exact Hf|]. by apply wp_ret, Hstay.
  - apply wp_ret, wp_ret. rewrite (found_in k a e (mr_nodup _ _ _ _ (proj1 Hr)) Hf). by apply Hstay.
  - apply wp_bind. eapply ld_map_ok; [exact Ho|]. apply wp_ret. rewrite (mr_len _ _ _ _ (proj1 Hr)). by apply Hstay.
Qed.

Lemma tk_map_new_kind_ok kind m :
  Plenty -> kind = TK_MAP_KEY_STR \/ kind = TK_MAP_KEY_INT -> mem_ok m ->
  wp (tk_map_new_kind kind) (fun h m' => exists o, 0 < h /\ mm_objs m !! h = None /\ mem_ok m' /\ at_ m' h o /\ only h m m' /\
    map_obj kind m' o []) m.
Proof.
  intros Hp Hk Hm. unfold tk_map_new_kind. apply wp_bind, wp_allocates_ok; [done|]. intros m1 [E1 N1]. cbn [negb].
  apply wp_new; [by eapply same_ok|]. intros h m' _ Hh Hm' Ho Hon Hf. rewrite E1 in Hf. eexists.
  split_and!; [done|done|done|exact Ho|by eapply only_trans; [apply same_only|]|].
  eexists _, []. split_and!; [done| |done]. split; [|by left].
  split; cbn; [done|done|done|done|by intros|constructor|constructor|by intros].
Qed.
End Instance_.

(** The two kinds of maps. *)
Section Kinds.
Context `{Allocator} (kind : Z) (Hkind : kind = TK_MAP_KEY_STR \/ kind = TK_MAP_KEY_INT).

#[program] Definition map_container : Container MapOp (list (Key * Z)) := {|
  ct_new := tk_map_new_kind kind; ct_exec := map_exec; ct_empty := []; ct_spec := map_spec; ct_size := zlen;
  ct_max := MAX_ENTRIES; ct_rep := map_obj kind; ct_pre := map_pre kind
|}.
Next Obligation. done. Qed.
Next Obligation. intros op a. destruct op; cbn; try lia. apply assoc_set_size. Qed.
Next Obligation. intros m Hp Hm. by apply tk_map_new_kind_ok. Qed.
Next Obligation. intros m h o a op Hp. by apply map_exec_ok. Qed.
Next Obligation.
  intros m m' h op Hm Hobj Hon. assert (Hks : keeps_keys m m' kind).
  { destruct (mm_objs m !! h) as [o|] eqn:Ho.
    - destruct (Hobj o Ho) as (a & im & es & -> & _ & _). by eapply only_keeps.
    - by eapply fresh_keeps. }
  destruct op; cbn; try done; apply Hks.
Qed.
End Kinds.
