(* ===== verification/ContainerProps.v ===== *)
(** * Containers of the runtime

    Traces of calls answer as the abstract values do; copies leave every other
    value alone; functions on arrays are those of lists. *)

From Stdlib Require Import ZArith Lia String Ascii Permutation Sorted.
From stdpp Require Import base tactics list gmap sorting.
From S2P Require Import Prelude Heap TkArray Collections TkMap Containers SeqFacts TkMapFacts MapContainer ArrayFacts.
Open Scope Z_scope.

(** ** A concrete heap *)

(** An allocator that always succeeds. *)
Definition roomy : Allocator := {| malloc_ok _ := true; junk n := Z.of_nat n |}.

Lemma roomy_plenty : @Plenty roomy.
Proof. by intros n. Qed.

Definition heap_of (o : Obj) : Mem := mkMem {[4096 := o]} 4097 0.

Lemma heap_of_ok o : mem_ok (heap_of o).
Proof.
  split; [done|]. intros h o'. cbn. destruct (decide (h = 4096)) as [->|Hne]; [done|].
  by rewrite lookup_singleton_ne.
Qed.

Lemma heap_of_at o : at_ (heap_of o) 4096 o.
Proof. apply lookup_singleton_eq. Qed.

(** ** Preservation of values *)

Lemma arr_val_at m m' x l : (forall o, at_ m x o -> at_ m' x o) -> arr_val m x l -> arr_val m' x l.
Proof. intros Ho [?|(Hx & a & Ha & Hr)]; [by left|]. right. split; [done|]. exists a. split; [by apply Ho|done]. Qed.

Section Append.
Context `{Allocator} (Hp : Plenty).

(** [a = a.append(x)] for the elements of a list. *)
Fixpoint append_all (app : Z -> Z -> MM Z) (arr : Z) (xs : list Z) : MM Z :=
  match xs with
  | [] => ret arr
  | x :: xs => do arr <- app arr x; append_all app arr xs
  end.

Lemma no_memory_absurd m m' : ~ no_memory m m'.
Proof. intros [E _]. by rewrite (Hp _) in E. Qed.

Lemma append_copies xs : forall m arr l,
  mem_ok m -> arr_val m arr l -> zlen l + zlen xs <= 2 ^ 56 ->
  wp (append_all tk_array_append_w arr xs) (fun h m' => arr_val m' h (l ++ xs) /\ forall x o, at_ m x o -> at_ m' x o) m.
Proof.
  induction xs as [|x xs IH]; intros m arr l Hm Hv Hn; cbn [append_all].
  - apply wp_ret. by rewrite app_nil_r.
  - rewrite zlen_cons in Hn. pose proof (zlen_nonneg xs).
    eapply wp_seq; [apply tk_array_append_w_ok; [done|exact Hv|unfold MAX_SIZE; lia]|].
    intros h m1 [(Hf & Hm1 & Hv1)|[Hno _]]; [|by apply no_memory_absurd in Hno]. cbn beta.
    eapply wp_conseq; [apply (IH m1 h (l ++ [x])); [done|done|rewrite zlen_app; change (zlen [x]) with 1; lia]|].
    intros h' m' [Hv' Hk]. rewrite <- app_assoc in Hv'. split; [done|]. intros y o Ho. by apply Hk; eapply fresh_at.
Qed.

Lemma append_in_place xs : forall m arr l,
  mem_ok m -> arr_val m arr l -> arr_room m arr -> zlen l + zlen xs <= 2 ^ 56 ->
  wp (append_all tk_array_append_inplace_w arr xs) (fun h m' => arr_val m' h (l ++ xs) /\
    forall x o, x <> arr -> at_ m x o -> at_ m' x o) m.
Proof.
  induction xs as [|x xs IH]; intros m arr l Hm Hv Hroom Hn; cbn [append_all].
  - apply wp_ret. by rewrite app_nil_r.
  - rewrite zlen_cons in Hn. pose proof (zlen_nonneg xs).
    eapply wp_seq; [apply tk_array_append_inplace_w_ok; [done|exact Hv|lia|done]|].
    intros h m1 [(Hm1 & Hv1 & Hroom1 & Hf)|[Hno _]]; [|by apply no_memory_absurd in Hno]. cbn beta.
    eapply wp_conseq; [apply (IH m1 h (l ++ [x])); [done|done|done|rewrite zlen_app; change (zlen [x]) with 1; lia]|].
    intros h' m' [Hv' Hk]. rewrite <- app_assoc in Hv'. split; [done|]. intros y o Hne Ho.
    destruct Hf as [Hf|[-> [_ Hon]]].
    + apply Hk; [|by eapply fresh_at]. intros ->. destruct Hf as (_ & Hf & _). unfold at_ in Ho. by rewrite Hf in Ho.
    + apply Hk; [done|]. unfold at_. rewrite Hon; [done|done|]. by apply (proj2 Hm) in Ho as [].
Qed.
End Append.

(** ** Properties *)

(** C8: From a new map with keys of either kind, any sequence of settings in place
    and lookups, within 2^29 of them, answers as the association list in the order
    of insertion does; no other object changes, and the map left holds that list. *)
Theorem map_calls_refine `{Allocator} (kind : Z) (ops : list MapOp) (m : Mem)
  (Hp : Plenty) (Hkind : kind = TK_MAP_KEY_STR \/ kind = TK_MAP_KEY_INT) (Hm : mem_ok m)
  (Hpre : Forall (map_pre kind m) ops) (Hn : zlen ops <= MAX_ENTRIES) :
  wp (do h <- tk_map_new_kind kind; do rs <- @calls _ _ _ (map_container kind Hkind) h ops; ret (h, rs)) (fun '(h, rs) m' =>
    rs = map (default h) (@answers _ _ _ (map_container kind Hkind) [] ops) /\ only h m m' /\
    map_val m' kind h (fold_left (fun a op => fst (map_spec op a)) ops [])) m.
Proof.
  eapply wp_conseq; [apply (@new_calls_ok _ _ _ (map_container kind Hkind) Hp ops m); done|].
  intros [h rs] m' (-> & Hm' & Hon & _ & o & Ho & im & es & -> & Hr & Hk). split_and!; [done|done|].
  split; [by apply (proj2 Hm') in Ho as []|]. by exists im, es.
Qed.

Definition map_ops : list MapOp :=
  [MSet 7 (KInt 7) 70; MSet 23 (KInt 23) 1; MSet 7 (KInt 7) 71; MGet 7 (KInt 7); MGetOr 9 (KInt 9) 5; MHas 23 (KInt 23); MLen].

Lemma map_calls_refine_witness :
  let kind := TK_MAP_KEY_INT in
  @wp _ _ (do h <- @tk_map_new_kind roomy kind;
           do rs <- @calls roomy _ _ (@map_container roomy kind (or_intror eq_refl)) h map_ops; ret (h, rs))
    (fun '(h, rs) m' => rs = map (default h) [None; None; None; Some 71; Some 5; Some 1; Some 2] /\ only h mem_init m' /\
       map_val m' kind h [(KInt 7, 71); (KInt 23, 1)]) mem_init.
Proof.
  refine (@map_calls_refine roomy TK_MAP_KEY_INT map_ops mem_init roomy_plenty (or_intror eq_refl) mem_init_ok _ _).
  - repeat constructor.
  - vm_compute. discriminate.
Defined.

(** C10: [m.set(k; v)] answers a new map that holds the entries of [m] with [k] set,
    and every map and array there was has the value it had. *)
Theorem map_set_value `{Allocator} (m : Mem) (kind h key v : Z) (k : Key) (a : list (Key * Z))
  (Hp : Plenty) (Hm : mem_ok m) (Hv : map_val m kind h a) (Hk : denote m kind key = Some k) (Hn : zlen a < MAX_ENTRIES) :
  wp (tk_map_set_w h key v) (fun r m' => exists h', r = Some h' /\ map_val m' kind h' (assoc_set k v a) /\
    mm_objs m !! h' = None /\
    (forall kind2 h2 a2, map_val m kind2 h2 a2 -> map_val m' kind2 h2 a2) /\
    (forall h2 l2, arr_val m h2 l2 -> arr_val m' h2 l2)) m.
Proof.
  eapply wp_conseq; [by apply (tk_map_set_w_ok m kind h a key k v)|].
  intros r m' (h' & -> & Hf & Hm' & Hv'). exists h'. split_and!; [done|done|by destruct Hf as (_ & ? & _)| |].
  - intros kind2 h2 a2. by apply (map_val_fresh m m' kind2 h').
  - intros h2 l2. apply arr_val_at. intros o. by apply (fresh_at h').
Qed.

Definition empty_map : TkMapImpl := mkMap [] 0 0 TK_MAP_KEY_INT 0 [] [].

Lemma map_set_value_witness :
  @wp _ _ (@tk_map_set_w roomy 4096 5 50) (fun r m' => exists h', r = Some h' /\
    map_val m' TK_MAP_KEY_INT h' (assoc_set (KInt 5) 50 []) /\ mm_objs (heap_of (OMap empty_map)) !! h' = None /\
    (forall kind2 h2 a2, map_val (heap_of (OMap empty_map)) kind2 h2 a2 -> map_val m' kind2 h2 a2) /\
    (forall h2 l2, arr_val (heap_of (OMap empty_map)) h2 l2 -> arr_val m' h2 l2)) (heap_of (OMap empty_map)).
Proof.
  refine (@map_set_value roomy (heap_of (OMap empty_map)) TK_MAP_KEY_INT 4096 5 50 (KInt 5) [] roomy_plenty
            (heap_of_ok _) _ eq_refl _); [|vm_compute; reflexivity].
  split; [done|]. exists empty_map, []. split_and!; [apply heap_of_at| |done]. split; [|by left].
  split; cbn; [by right|done|done|done|by intros|constructor|constructor|by intros].
Defined.

(** C19: From a new set, any sequence of additions, removals and tests answers as a
    finite set of numbers does: the binary search finds what the set holds, within
    its fuel, and the shifts keep it in order. *)
Theorem set_calls_refine `{Allocator} (ops : list SetOp) (m : Mem)
  (Hp : Plenty) (Hm : mem_ok m) (Hn : zlen ops <= MAX_SIZE) :
  wp (do h <- tk_set_new; do rs <- calls h ops; ret (h, rs)) (fun '(h, rs) m' =>
    rs = map (default h) (answers (∅ : gset Z) ops) /\ only h m m' /\
    exists o, at_ m' h o /\ set_obj m' o (fold_left (fun X op => fst (set_spec op X)) ops ∅)) m.
Proof.
  eapply wp_conseq; [apply (@new_calls_ok _ _ _ set_container Hp ops m); [done| |done]|].
  - apply Forall_forall. by intros.
  - intros [h rs] m' (-> & Hm' & Hon & _ & o & Ho & Hr). split_and!; [done|done|by exists o].
Qed.

Definition set_ops : list SetOp := [SetAdd 5; SetAdd 3; SetAdd 5; SetHas 3; SetRemove 3; SetHas 3; SetLen].

Lemma set_calls_refine_witness :
  @wp _ _ (do h <- @tk_set_new roomy; do rs <- @calls roomy _ _ (@set_container roomy) h set_ops; ret (h, rs))
    (fun '(h, rs) m' => rs = map (default h) (@answers roomy _ _ (@set_container roomy) (∅ : gset Z) set_ops) /\
       only h mem_init m' /\
       exists o, at_ m' h o /\ set_obj m' o (fold_left (fun X op => fst (set_spec op X)) set_ops ∅)) mem_init.
Proof.
  refine (@set_calls_refine roomy set_ops mem_init roomy_plenty mem_init_ok _). vm_compute. discriminate.
Defined.

(** C28: From new ones, any sequence of calls on a queue answers first-in first-out,
    through the growth of the ring; on a stack last-in first-out; on a vector as a
    list indexed by number, with reads outside it giving 0. *)
Theorem sequences_refine `{Allocator} (qops : list QueueOp) (sops : list StackOp) (vops : list VecOp) (m : Mem)
  (Hp : Plenty) (Hm : mem_ok m) (Hq : zlen qops <= MAX_SIZE) (Hs : zlen sops <= MAX_SIZE) (Hv : zlen vops <= MAX_SIZE) :
  wp (do h <- tk_queue_new; do rs <- calls h qops; ret (h, rs)) (fun '(h, rs) m' =>
    rs = map (default h) (answers [] qops) /\ only h m m' /\
    exists o, at_ m' h o /\ queue_obj m' o (fold_left (fun l op => fst (queue_spec op l)) qops [])) m /\
  wp (do h <- tk_stack_new; do rs <- calls h sops; ret (h, rs)) (fun '(h, rs) m' =>
    rs = map (default h) (answers [] sops) /\ only h m m' /\
    exists o, at_ m' h o /\ stack_obj m' o (fold_left (fun l op => fst (stack_spec op l)) sops [])) m /\
  wp (do h <- tk_vec_new; do rs <- calls h vops; ret (h, rs)) (fun '(h, rs) m' =>
    rs = map (default h) (answers [] vops) /\ only h m m' /\
    exists o, at_ m' h o /\ vec_obj m' o (fold_left (fun l op => fst (vec_spec op l)) vops [])) m.
Proof.
  split_and!;
    [eapply wp_conseq; [apply (@new_calls_ok _ _ _ queue_container Hp qops m); [done|apply Forall_forall; by intros|done]|]
    |eapply wp_conseq; [apply (@new_calls_ok _ _ _ stack_container Hp sops m); [done|apply Forall_forall; by intros|done]|]
    |eapply wp_conseq; [apply (@new_calls_ok _ _ _ vec_container Hp vops m); [done|apply Forall_forall; by intros|done]|]];
    intros [h rs] m' (-> & Hm' & Hon & _ & o & Ho & Hr); (split_and!; [done|done|by exists o]).
Qed.

Definition queue_ops : list QueueOp := [QPush 1; QPush 2; QPop; QPeek; QLen; QPop; QPop].
Definition stack_ops : list StackOp := [SPush 1; SPush 2; SPop; SPeek; SLen; SEmpty].
Definition vec_ops : list VecOp := [VPush 4; VPush 5; VSet 0 9; VGet 0; VGet 7; VPop; VLen].

Lemma sequences_refine_witness :
  @wp _ _ (do h <- @tk_queue_new roomy; do rs <- @calls roomy _ _ (@queue_container roomy) h queue_ops; ret (h, rs))
    (fun '(h, rs) m' => rs = [h; h; 1; 2; 1; 2; 0] /\ only h mem_init m' /\
      exists o, at_ m' h o /\ queue_obj m' o []) mem_init /\
  @wp _ _ (do h <- @tk_stack_new roomy; do rs <- @calls roomy _ _ (@stack_container roomy) h stack_ops; ret (h, rs))
    (fun '(h, rs) m' => rs = [h; h; 2; 1; 1; 0] /\ only h mem_init m' /\
      exists o, at_ m' h o /\ stack_obj m' o [1]) mem_init /\
  @wp _ _ (do h <- @tk_vec_new roomy; do rs <- @calls roomy _ _ (@vec_container roomy) h vec_ops; ret (h, rs))
    (fun '(h, rs) m' => rs = [h; h; h; 9; 0; 5; 1] /\ only h mem_init m' /\
      exists o, at_ m' h o /\ vec_obj m' o [9]) mem_init.
Proof.
  refine (@sequences_refine roomy queue_ops stack_ops vec_ops mem_init roomy_plenty mem_init_ok _ _ _);
    vm_compute; discriminate.
Defined.

(** C29: Appending in place, which the compiler uses for an array it has proved to be
    owned, builds the array that appending copies builds; copies change no value, and
    the calls in place none but that of the array. *)
Theorem append_build_equiv `{Allocator} (m : Mem) (arr : Z) (l xs : list Z)
  (Hp : Plenty) (Hm : mem_ok m) (Hv : arr_val m arr l) (Hroom : arr_room m arr) (Hn : zlen l + zlen xs <= 2 ^ 56) :
  wp (append_all tk_array_append_w arr xs) (fun h m' => arr_val m' h (l ++ xs) /\
    forall x k, arr_val m x k -> arr_val m' x k) m /\
  wp (append_all tk_array_append_inplace_w arr xs) (fun h m' => arr_val m' h (l ++ xs) /\
    forall x k, x <> arr -> arr_val m x k -> arr_val m' x k) m.
Proof.
  split.
  - eapply wp_conseq; [by apply append_copies|]. intros h m' [Hv' Hk]. split; [done|]. intros x k. apply arr_val_at, Hk.
  - eapply wp_conseq; [by apply append_in_place|]. intros h m' [Hv' Hk]. split; [done|].
    intros x k Hne. apply arr_val_at. intros o. by apply Hk.
Qed.

Lemma append_build_equiv_witness :
  @wp _ _ (append_all (@tk_array_append_w roomy) 0 [5; 6; 7]) (fun h m' => arr_val m' h [5; 6; 7] /\
    forall x k, arr_val mem_init x k -> arr_val m' x k) mem_init /\
  @wp _ _ (append_all (@tk_array_append_inplace_w roomy) 0 [5; 6; 7]) (fun h m' => arr_val m' h [5; 6; 7] /\
    forall x k, x <> 0 -> arr_val mem_init x k -> arr_val m' x k) mem_init.
Proof.
  refine (@append_build_equiv roomy mem_init 0 [] [5; 6; 7] roomy_plenty mem_init_ok (or_introl (conj eq_refl eq_refl)) _ _).
  - intros a Ha. unfold at_ in Ha. cbn in Ha. by rewrite lookup_empty in Ha.
  - vm_compute. discriminate.
Defined.

(** What a function on arrays answers: a new array, or [dflt] when there is no memory. *)
Definition new_array `{Allocator} (m : Mem) (dflt : Z) (P : list Z -> Prop) (h : Z) (m' : Mem) : Prop :=
  (mm_objs m !! h = None /\ (exists l, P l /\ arr_val m' h l) /\ forall x k, arr_val m x k -> arr_val m' x k) \/
  (no_memory m m' /\ h = dflt).

Lemma new_array_fresh `{Allocator} m dflt (P : list Z -> Prop) l h m' :
  mem_ok m -> P l -> (fresh h m m' /\ mem_ok m' /\ arr_val m' h l) \/ (no_memory m m' /\ h = dflt) -> new_array m dflt P h m'.
Proof.
  intros Hm HP [(Hf & _ & Hv)|Hno]; [left|by right]. split_and!; [by destruct Hf as (_ & ? & _)|by exists l|].
  intros x k. apply arr_val_at. intros o. by apply (fresh_at h).
Qed.

(** C37: For functions that change nothing, [map], [filter] and [reduce] on an array
    are those of lists, [sort] orders a permutation of it, slices cut their bounds to
    it; each answers a new array and changes none. *)
Theorem array_functions `{Allocator} (qsort : (Z -> Z -> Z) -> list Z -> list Z) (f : Z -> MM Z) (g : Z -> Z)
    (f2 : Z -> Z -> MM Z) (g2 : Z -> Z -> Z) (cmp : Z -> Z -> Z) (m : Mem) (arr : Z) (l : list Z) (init start end_ : Z)
  (Hq : qsort_ok qsort) (Hc : consistent cmp)
  (Hf : forall x m, mem_ok m -> wp (f x) (fun y m' => y = g x /\ keeps_heap m m') m)
  (Hf2 : forall x y m, mem_ok m -> wp (f2 x y) (fun z m' => z = g2 x y /\ keeps_heap m m') m)
  (Hm : mem_ok m) (Harr : arr <> 0) (Hv : arr_val m arr l) (He : - 2 ^ 62 <= end_) :
  wp (tk_arr_map arr f) (new_array m arr (fun r => r = map g l)) m /\
  wp (tk_arr_filter arr f) (new_array m arr (fun r => r = List.filter (fun x => negb (g x =? 0)) l)) m /\
  wp (tk_arr_reduce arr init f2) (fun r m' => r = fold_left g2 l init /\ forall x k, arr_val m x k -> arr_val m' x k) m /\
  wp (tk_arr_sort qsort arr cmp) (new_array m arr (fun r => Permutation l r /\ StronglySorted (fun x y => cmp x y <= 0) r)) m /\
  wp (tk_arr_slice_w arr start end_) (new_array m 0 (fun r => r = slice_of l start end_)) m.
Proof.
  pose proof Hv as [[? _]|(_ & a & Ha & Hr)]; [done|]. pose proof (ar_fits _ _ Hr). split_and!.
  - eapply wp_conseq; [by eapply (tk_arr_map_ok f g Hf)|]. intros h m'. by apply new_array_fresh.
  - eapply wp_conseq; [by eapply (tk_arr_filter_ok f g Hf)|]. intros h m'. by apply new_array_fresh.
  - eapply wp_conseq; [by eapply (tk_arr_reduce_ok f2 g2 Hf2)|]. intros r m' [-> Hk]. split; [done|].
    intros x k. apply arr_val_at. intros o. by apply keeps_at.
  - eapply wp_conseq; [by eapply tk_arr_sort_ok|]. intros h m' [(Hfr & Hm' & r & Hvr & Hr')|Hno]; [|by right].
    apply (new_array_fresh _ _ _ r); [done|done|by left].
  - eapply wp_conseq; [apply (tk_arr_slice_w_ok m arr l start end_); (done || lia)|]. intros h m'. by apply new_array_fresh.
Qed.

(** A [qsort] for the witness: stdpp's merge sort. *)
Definition sorter (c : Z -> Z -> Z) : list Z -> list Z := @merge_sort Z (fun x y => c x y <= 0) (fun x y => decide (c x y <= 0)).

Lemma sorter_ok : qsort_ok sorter.
Proof.
  intros c l [H1 H2]. assert (Ht : Transitive (fun x y => c x y <= 0)) by (intros x y z; apply H2).
  assert (Hto : Total (fun x y => c x y <= 0)).
  { intros x y. destruct (decide (c x y <= 0)); [by left|right]. assert (0 < c x y) as Hlt%H1 by lia. lia. }
  split; [symmetry; apply merge_sort_Permutation|by apply StronglySorted_merge_sort].
Qed.

Definition three : TkArr := mkArr 1 3 3 [3; 1; 2].

Lemma array_functions_witness :
  let m := heap_of (OArr three) in
  @wp _ _ (@tk_arr_map roomy 4096 (fun x => ret (2 * x))) (@new_array roomy m 4096 (fun r => r = [6; 2; 4])) m /\
  @wp _ _ (@tk_arr_filter roomy 4096 (fun x => ret (2 * x))) (@new_array roomy m 4096 (fun r => r = [3; 1; 2])) m /\
  @wp _ _ (@tk_arr_reduce 4096 0 (fun x y => ret (x + y)))
    (fun r m' => r = 6 /\ forall x k, arr_val m x k -> arr_val m' x k) m /\
  @wp _ _ (@tk_arr_sort roomy sorter 4096 Z.sub)
    (@new_array roomy m 4096 (fun r => Permutation [3; 1; 2] r /\ StronglySorted (fun x y => x - y <= 0) r)) m /\
  @wp _ _ (@tk_arr_slice_w roomy 4096 1 9) (@new_array roomy m 0 (fun r => r = [1; 2])) m.
Proof.
  refine (@array_functions roomy sorter (fun x => ret (2 * x)) (fun x => 2 * x) (fun x y => ret (x + y)) Z.add Z.sub
            (heap_of (OArr three)) 4096 [3; 1; 2] 0 1 9 sorter_ok _ _ _ (heap_of_ok _) _ _ _).
  - split; intros; lia.
  - intros x m Hm. by split; [|split_and!].
  - intros x y m Hm. by split; [|split_and!].
  - discriminate.
  - right. split; [done|]. exists three. split; [apply heap_of_at|]. split; cbn; [done|done|by vm_compute|done].
  - vm_compute. discriminate.
Defined.

(** C24: On a map of strings, a key that is negative or in the first page exits with
    RT006 before anything is read through it.  The calls that set in place and the
    lookups exit with no change.  [m.set] copies first: every object there was stays,
    and it exits, except when the copy gets no memory, when it answers the receiver. *)
Theorem map_key_trap `{Allocator} (m : Mem) (h key v : Z) (a : list (Key * Z))
  (Hm : mem_ok m) (Hv : map_val m TK_MAP_KEY_STR h a) (Hn : zlen a <= MAX_ENTRIES) (Hkey : key < 0 \/ 0 < key < 4096) :
  (tk_map_put h key v m = Ok (None, m) /\ tk_map_set_inplace_w h key v m = Ok (None, m) /\
   tk_map_put_w h key v m = Ok (None, m) /\ tk_map_setint_w h key v m = Ok (None, m)) /\
  (tk_map_get h key m = Ok (None, m) /\ tk_map_getor_w h key v m = Ok (None, m) /\
   tk_map_getint_w h key m = Ok (None, m) /\ tk_map_contains_w h key m = Ok (None, m)) /\
  wp (tk_map_set_w h key v) (fun r m' => (forall x o, at_ m x o -> at_ m' x o) /\
    ((r = None /\ served m m') \/ (r = Some h /\ starved m m'))) m.
Proof.
  split_and!; [| | | | | | | |by apply (tk_map_set_w_trap m h a)]; destruct Hv as (Hh & im & _ & Ho & _ & Hk);
    assert (Hp : tk_map_put h key v m = Ok (None, m)) by (apply (put_trap m h key v im); (done || lia));
    assert (He : map_entry h key m = Ok (None, m)) by by apply (entry_trap m h key im).
  all: unfold tk_map_set_inplace_w, tk_map_setint_w, tk_map_put_w, tk_map_getor_w, tk_map_getint_w, tk_map_contains_w, tk_map_get;
    rewrite ?(proj2 (Z.eqb_neq h 0)) by lia; unfold bind; rewrite ?Hp, ?He; done.
Qed.

Definition str_map : TkMapImpl := mkMap [] 0 0 TK_MAP_KEY_STR 0 [] [].

Lemma str_map_val : map_val (heap_of (OMap str_map)) TK_MAP_KEY_STR 4096 [].
Proof.
  split; [done|]. exists str_map, []. split_and!; [apply heap_of_at| |done]. split; [|by left].
  split; cbn; [by left|done|done|done|by intros|constructor|constructor|by intros].
Qed.

Lemma map_key_trap_witness :
  let m := heap_of (OMap str_map) in
  (@tk_map_put roomy 4096 2 5 m = Ok (None, m) /\ @tk_map_set_inplace_w roomy 4096 2 5 m = Ok (None, m) /\
   @tk_map_put_w roomy 4096 2 5 m = Ok (None, m) /\ @tk_map_setint_w roomy 4096 2 5 m = Ok (None, m)) /\
  (tk_map_get 4096 2 m = Ok (None, m) /\ tk_map_getor_w 4096 2 5 m = Ok (None, m) /\
   tk_map_getint_w 4096 2 m = Ok (None, m) /\ tk_map_contains_w 4096 2 m = Ok (None, m)) /\
  @wp _ _ (@tk_map_set_w roomy 4096 2 5) (fun r m' => (forall x o, at_ m x o -> at_ m' x o) /\
    ((r = None /\ @served roomy m m') \/ (r = Some 4096 /\ @starved roomy m m'))) m.
Proof.
  refine (@map_key_trap roomy (heap_of (OMap str_map)) 4096 2 5 [] (heap_of_ok _) str_map_val _ _); [vm_compute; discriminate|].
  right. split; reflexivity.
Defined.

(** With memory [m.set] exits behind the copy it has made; without, it returns. *)
Example set_exits : @tk_map_set_w roomy 4096 2 5 (heap_of (OMap str_map)) =
  Ok (None, mkMem (<[4097 := OMap str_map]> {[4096 := OMap str_map]}) 4098 1).
Proof. reflexivity. Qed.

Definition no_room : Allocator := {| malloc_ok _ := false; junk n := 0 |}.

Example set_returns : @tk_map_set_w no_room 4096 2 5 (heap_of (OMap str_map)) =
  Ok (Some 4096, mkMem {[4096 := OMap str_map]} 4097 1).
Proof. reflexivity. Qed.

(** ** Without memory *)

Section NoMemory.
Context `{Allocator}.

Lemma i64_in {S} n (s : S) : - 2 ^ 63 <= n < 2 ^ 63 -> i64 n s = Ok (n, s).
Proof. intros [H1 H2]. unfold i64, i64_ok. by rewrite (proj2 (Z.leb_le _ _) H1), (proj2 (Z.ltb_lt _ _) H2). Qed.

(** [dynarr_push] on a full array writes behind the block when [realloc] fails. *)
Lemma push_no_memory m h a v :
  at_ m h (ODyn a) -> zlen (da_data a) = da_cap a -> da_len a = da_cap a -> 0 < da_cap a < 2 ^ 61 ->
  malloc_ok (mm_calls m) = false -> dynarr_push h v m = Oob.
Proof.
  intros Ho Hz Hl Hc Hf. assert (Hld : forall m', mm_objs m' = mm_objs m -> ld_dyn h m' = Ok (a, m')).
  { intros m' E. unfold ld_dyn, ld, bind. unfold at_ in Ho. by rewrite E, Ho. }
  unfold dynarr_push, bind at 1. rewrite Hld by done. unfold bind at 1.
  rewrite Hl, i64_in by lia.
  unfold bind at 1, dynarr_ensure, bind at 1. rewrite Hld by done. rewrite (proj2 (Z.leb_gt (da_cap a + 1) _)) by lia.
  pose proof (double_cap_ok (da_cap a) (da_cap a + 1) m ltac:(lia) ltac:(lia) ltac:(lia) ltac:(lia)) as (nc & m1 & E & -> & ->)%wp_ok.
  unfold bind at 1. rewrite E. unfold bind at 1, allocates at 1. rewrite Hf. cbn [negb ret].
  unfold bind at 1. rewrite Hld by done. unfold bind, wr_word, oob. rewrite Hl.
  rewrite (proj2 (Z.ltb_ge (da_cap a) (zlen _))), andb_false_r by lia. done.
Qed.

(** [tk_queue_push] on a full queue overwrites its first element. *)
Lemma queue_no_memory m h q v :
  at_ m h (OQueue q) -> h <> 0 -> zlen (qu_data q) = qu_cap q -> qu_len q = qu_cap q -> 0 <= qu_head q < qu_cap q -> qu_cap q < 2 ^ 62 ->
  malloc_ok (mm_calls m) = false ->
  exists m', tk_queue_push h v m = Ok (h, m') /\
    at_ m' h (OQueue (mkQueue (<[Z.to_nat (qu_head q) := v]> (qu_data q)) (qu_cap q) (qu_head q) (qu_len q + 1))).
Proof.
  intros Ho Hh Hz Hl Hhd Hc Hf. assert (Hld : forall m', mm_objs m' = mm_objs m -> ld_queue h m' = Ok (q, m')).
  { intros m' E. unfold ld_queue, ld, bind. unfold at_ in Ho. by rewrite E, Ho. }
  unfold tk_queue_push. rewrite (proj2 (Z.eqb_neq h 0)) by done. unfold bind at 1. rewrite Hld by done.
  rewrite Hl, Z.eqb_refl. cbn [when]. unfold bind at 1, queue_grow, bind at 1. rewrite Hld by done.
  unfold bind at 1. rewrite i64_in by lia.
  unfold bind at 1, allocates at 1. rewrite Hf. cbn [negb ret]. unfold bind at 1. rewrite Hld by done.
  unfold bind at 1, c_rem. rewrite (proj2 (Z.eqb_neq _ _)) by lia. cbn [ret].
  assert (Z.rem (qu_head q + qu_len q) (qu_cap q) = qu_head q) as ->.
  { rewrite Z.rem_mod_nonneg, Hl by lia. replace (qu_head q + qu_cap q) with (qu_head q + 1 * qu_cap q) by lia.
    rewrite Z.mod_add by lia. apply Z.mod_small. lia. }
  unfold bind at 1, wr_word. rewrite (proj2 (Z.leb_le _ _)), (proj2 (Z.ltb_lt _ _)) by lia. cbn [andb ret].
  unfold bind, st, ret. eexists. split; [done|]. unfold at_. cbn. by rewrite lookup_insert_eq, Hl.
Qed.

(** [tk_map_set_w] that cannot copy answers the receiver, in which the key is not set. *)
Lemma map_set_no_memory m h im key v :
  at_ m h (OMap im) -> h <> 0 -> malloc_ok (mm_calls m) = false ->
  exists m', tk_map_set_w h key v m = Ok (Some h, m') /\ mm_objs m' = mm_objs m.
Proof.
  intros Ho Hh Hf. unfold tk_map_set_w. rewrite (proj2 (Z.eqb_neq h 0)) by done.
  unfold bind at 1, ld_map, ld, bind at 1. unfold at_ in Ho. rewrite Ho. cbn [ret].
  unfold bind at 1, tk_map_clone, bind at 1, allocates at 1. rewrite Hf. cbn [negb ret]. eexists. split; [reflexivity|done].
Qed.
End NoMemory.
