(* ===== verification/Sha.v ===== *)
(** * SHA-256, SHA-512 and HMAC: [src/src/stdlib/crypto.c]

    Both hashes buffer a block and absorb it when it is full; the code has them
    twice, with other constants, which are the record [Alg] here.  A [ByteArray] is
    its bytes, NULL or not. *)

From Stdlib Require Import ZArith Lia String Ascii.
From stdpp Require Import base tactics list.
From S2P Require Import Prelude ModName Heap.
Open Scope Z_scope.

(** ** Words *)

Section Words.
Context (w : Z).

(** An unsigned number of [w] bits. *)
Definition wrap (x : Z) : Z := x mod 2 ^ w.
Definition SHR (x n : Z) : Z := Z.shiftr x n.
Definition ROTR (x n : Z) : Z := Z.lor (SHR x n) (wrap (Z.shiftl x (w - n))).
End Words.

Definition F0 (x y z : Z) : Z := Z.lor (Z.land x y) (Z.land z (Z.lor x y)).
Definition F1 (x y z : Z) : Z := Z.lxor z (Z.land x (Z.lxor y z)).

(** The bytes of a word of [n] bytes, the first the highest, and back. *)
Definition be_bytes (n : nat) (x : Z) : list Z := map (fun i => Z.shiftr x (8 * Z.of_nat i) mod 256) (rev (seq 0 n)).
Definition be_word (l : list Z) : Z := fold_left (fun x b => Z.lor (Z.shiftl x 8) b) l 0.

(** ** SHA-256 *)

Definition SHA256_DIGEST_SIZE : Z := 32.
Definition SHA256_BLOCK_SIZE : Z := 64.

Definition SHA256_K : list Z :=
  [0x428A2F98; 0x71374491; 0xB5C0FBCF; 0xE9B5DBA5; 0x3956C25B; 0x59F111F1;
   0x923F82A4; 0xAB1C5ED5; 0xD807AA98; 0x12835B01; 0x243185BE; 0x550C7DC3;
   0x72BE5D74; 0x80DEB1FE; 0x9BDC06A7; 0xC19BF174; 0xE49B69C1; 0xEFBE4786;
   0x0FC19DC6; 0x240CA1CC; 0x2DE92C6F; 0x4A7484AA; 0x5CB0A9DC; 0x76F988DA;
   0x983E5152; 0xA831C66D; 0xB00327C8; 0xBF597FC7; 0xC6E00BF3; 0xD5A79147;
   0x06CA6351; 0x14292967; 0x27B70A85; 0x2E1B2138; 0x4D2C6DFC; 0x53380D13;
   0x650A7354; 0x766A0ABB; 0x81C2C92E; 0x92722C85; 0xA2BFE8A1; 0xA81A664B;
   0xC24B8B70; 0xC76C51A3; 0xD192E819; 0xD6990624; 0xF40E3585; 0x106AA070;
   0x19A4C116; 0x1E376C08; 0x2748774C; 0x34B0BCB5; 0x391C0CB3; 0x4ED8AA4A;
   0x5B9CCA4F; 0x682E6FF3; 0x748F82EE; 0x78A5636F; 0x84C87814; 0x8CC70208;
   0x90BEFFFA; 0xA4506CEB; 0xBEF9A3F7; 0xC67178F2].

Definition S0 (x : Z) : Z := Z.lxor (Z.lxor (ROTR 32 x 7) (ROTR 32 x 18)) (SHR x 3).
Definition S1 (x : Z) : Z := Z.lxor (Z.lxor (ROTR 32 x 17) (ROTR 32 x 19)) (SHR x 10).
Definition E0 (x : Z) : Z := Z.lxor (Z.lxor (ROTR 32 x 2) (ROTR 32 x 13)) (ROTR 32 x 22).
Definition E1 (x : Z) : Z := Z.lxor (Z.lxor (ROTR 32 x 6) (ROTR 32 x 11)) (ROTR 32 x 25).

(** [w[i & 15] += ...] *)
Definition scr (wd : Z) (s1 s0 : Z -> Z) (i : Z) (w : list Z) : list Z :=
  let at_ j := byte_at w (Z.land j 15) in
  <[Z.to_nat (Z.land i 15) := wrap wd (at_ i + (s1 (at_ (i - 2)) + at_ (i - 7) + s0 (at_ (i - 15))))]> w.

Definition SHA256_SCR : Z -> list Z -> list Z := scr 32 S1 S0.

(** Statement [i] of the unrolled rounds: the argument [r] of [P] is the variable
    [(r - i) mod 8] of a, b, c, d, e, f, g, h. *)
Definition P (v : list Z) (i x K : Z) : list Z :=
  let var r := (r - i) mod 8 in
  let reg r := byte_at v (var r) in
  let tmp1 := wrap 32 (reg 7 + E1 (reg 4) + F1 (reg 4) (reg 5) (reg 6) + K + x) in
  let tmp2 := wrap 32 (E0 (reg 0) + F0 (reg 0) (reg 1) (reg 2)) in
  <[Z.to_nat (var 7) := wrap 32 (tmp1 + tmp2)]> (<[Z.to_nat (var 3) := wrap 32 (reg 3 + tmp1)]> v).

(** The words of a block. *)
Definition load_words (n : nat) (data : list Z) : list Z :=
  map (fun i => be_word (slice data (Z.of_nat (i * n)) (Z.of_nat n))) (seq 0 16).

Definition add_words (wd : Z) (h v : list Z) : list Z := zip_with (fun x y => wrap wd (x + y)) h v.

Definition sha256_process_block (h data : list Z) : list Z :=
  let '(_, v) := fold_left (fun '(w, v) i =>
      let w := if 16 <=? i then SHA256_SCR i w else w in
      (w, P v i (byte_at w (Z.land i 15)) (byte_at SHA256_K i)))
    (map Z.of_nat (seq 0 64)) (load_words 4 data, h) in
  add_words 32 h v.

(** ** SHA-512 *)

Definition SHA512_DIGEST_SIZE : Z := 64.
Definition SHA512_BLOCK_SIZE : Z := 128.

Definition SHA512_K : list Z :=
  [0x428a2f98d728ae22; 0x7137449123ef65cd; 0xb5c0fbcfec4d3b2f; 0xe9b5dba58189dbbc;
   0x3956c25bf348b538; 0x59f111f1b605d019; 0x923f82a4af194f9b; 0xab1c5ed5da6d8118;
   0xd807aa98a3030242; 0x12835b0145706fbe; 0x243185be4ee4b28c; 0x550c7dc3d5ffb4e2;
   0x72be5d74f27b896f; 0x80deb1fe3b1696b1; 0x9bdc06a725c71235; 0xc19bf174cf692694;
   0xe49b69c19ef14ad2; 0xefbe4786384f25e3; 0x0fc19dc68b8cd5b5; 0x240ca1cc77ac9c65;
   0x2de92c6f592b0275; 0x4a7484aa6ea6e483; 0x5cb0a9dcbd41fbd4; 0x76f988da831153b5;
   0x983e5152ee66dfab; 0xa831c66d2db43210; 0xb00327c898fb213f; 0xbf597fc7beef0ee4;
   0xc6e00bf33da88fc2; 0xd5a79147930aa725; 0x06ca6351e003826f; 0x142929670a0e6e70;
   0x27b70a8546d22ffc; 0x2e1b21385c26c926; 0x4d2c6dfc5ac42aed; 0x53380d139d95b3df;
   0x650a73548baf63de; 0x766a0abb3c77b2a8; 0x81c2c92e47edaee6; 0x92722c851482353b;
   0xa2bfe8a14cf10364; 0xa81a664bbc423001; 0xc24b8b70d0f89791; 0xc76c51a30654be30;
   0xd192e819d6ef5218; 0xd69906245565a910; 0xf40e35855771202a; 0x106aa07032bbd1b8;
   0x19a4c116b8d2d0c8; 0x1e376c085141ab53; 0x2748774cdf8eeb99; 0x34b0bcb5e19b48a8;
   0x391c0cb3c5c95a63; 0x4ed8aa4ae3418acb; 0x5b9cca4f7763e373; 0x682e6ff3d6b2b8a3;
   0x748f82ee5defb2fc; 0x78a5636f43172f60; 0x84c87814a1f0ab72; 0x8cc702081a6439ec;
   0x90befffa23631e28; 0xa4506cebde82bde9; 0xbef9a3f7b2c67915; 0xc67178f2e372532b;
   0xca273eceea26619c; 0xd186b8c721c0c207; 0xeada7dd6cde0eb1e; 0xf57d4f7fee6ed178;
   0x06f067aa72176fba; 0x0a637dc5a2c898a6; 0x113f9804bef90dae; 0x1b710b35131c471b;
   0x28db77f523047d84; 0x32caab7b40c72493; 0x3c9ebe0a15c9bebc; 0x431d67c49c100d4c;
   0x4cc5d4becb3e42b6; 0x597f299cfc657e2a; 0x5fcb6fab3ad6faec; 0x6c44198c4a475817].

Definition S512_0 (x : Z) : Z := Z.lxor (Z.lxor (ROTR 64 x 1) (ROTR 64 x 8)) (SHR x 7).
Definition S512_1 (x : Z) : Z := Z.lxor (Z.lxor (ROTR 64 x 19) (ROTR 64 x 61)) (SHR x 6).
Definition E512_0 (x : Z) : Z := Z.lxor (Z.lxor (ROTR 64 x 28) (ROTR 64 x 34)) (ROTR 64 x 39).
Definition E512_1 (x : Z) : Z := Z.lxor (Z.lxor (ROTR 64 x 14) (ROTR 64 x 18)) (ROTR 64 x 41).

(** One round: [tmp1], [tmp2] and the shift of the variables. *)
Definition sha512_round (v : list Z) (x K : Z) : list Z :=
  match v with
  | [a; b; c; d; e; f; g; h] =>
      let tmp1 := wrap 64 (h + E512_1 e + F1 e f g + K + x) in
      let tmp2 := wrap 64 (E512_0 a + F0 a b c) in
      [wrap 64 (tmp1 + tmp2); a; b; c; wrap 64 (d + tmp1); e; f; g]
  | _ => v
  end.

Definition sha512_process_block (h data : list Z) : list Z :=
  let '(_, v) := fold_left (fun '(w, v) i =>
      let w := if 16 <=? i then scr 64 S512_1 S512_0 i w else w in
      (w, sha512_round v (byte_at w (Z.land i 15)) (byte_at SHA512_K i)))
    (map Z.of_nat (seq 0 80)) (load_words 8 data, h) in
  add_words 64 h v.

(** ** Buffering *)

(** [Sha256State], [Sha512State]. *)
Record ShaState := mkSha { sh_h : list Z; sh_block : list Z; sh_block_len : Z; sh_total_len : Z }.

(** What differs: the size of a block, where its length field starts, the initial
    state, the size of a word in bytes, and the function of a block. *)
Record Alg := {
  al_block : Z;
  al_field : Z;
  al_init : list Z;
  al_word : nat;
  al_process : list Z -> list Z -> list Z
}.

Definition sha256 : Alg := {|
  al_block := SHA256_BLOCK_SIZE;
  al_field := 56;
  al_init := [0x6a09e667; 0xbb67ae85; 0x3c6ef372; 0xa54ff53a; 0x510e527f; 0x9b05688c; 0x1f83d9ab; 0x5be0cd19];
  al_word := 4;
  al_process := sha256_process_block
|}.

Definition sha512 : Alg := {|
  al_block := SHA512_BLOCK_SIZE;
  al_field := 112;
  al_init := [0x6a09e667f3bcc908; 0xbb67ae8584caa73b; 0x3c6ef372fe94f82b; 0xa54ff53a5f1d36f1;
              0x510e527fade682d1; 0x9b05688c2b3e6c1f; 0x1f83d9abfb41bd6b; 0x5be0cd19137e2179];
  al_word := 8;
  al_process := sha512_process_block
|}.

Section Buffer.
Context (a : Alg) {S : Type}.

(** [init_state]; the block is not set. *)
Definition init_state (junk : list Z) : ShaState := mkSha (al_init a) junk 0 0.

(** [s->block[s->block_len++] = v;] *)
Definition put_byte (s : ShaState) (v : Z) : M S ShaState :=
  do b <- wr_word (sh_block s) (sh_block_len s) v;
  ret (mkSha (sh_h s) b (wrap 32 (sh_block_len s + 1)) (sh_total_len s)).

(** [process_block(s, s->block); s->block_len = 0;] *)
Definition absorb (s : ShaState) : ShaState :=
  mkSha (al_process a (sh_h s) (sh_block s)) (sh_block s) 0 (sh_total_len s).

Fixpoint update_bytes (s : ShaState) (data : list Z) : M S ShaState :=
  match data with
  | [] => ret s
  | x :: data =>
      do s <- put_byte s x;
      update_bytes (if sh_block_len s =? al_block a then absorb s else s) data
  end.

Definition update_state (s : ShaState) (data : list Z) : M S ShaState :=
  do s <- update_bytes s data;
  ret (mkSha (sh_h s) (sh_block s) (sh_block_len s) (wrap 64 (sh_total_len s + zlen data))).

(** [while (s->block_len < n) s->block[s->block_len++] = 0;] *)
Definition zero_to (n : Z) (s : ShaState) : M S ShaState :=
  iter (Datatypes.S (Z.to_nat n)) (fun s =>
    if sh_block_len s <? n then do s <- put_byte s 0; ret (inl s) else ret (inr s)) s.

(** [block[i] = ...] for the bytes of a field. *)
Fixpoint put_field (b : list Z) (i : Z) (field : list Z) : M S (list Z) :=
  match field with
  | [] => ret b
  | x :: field => do b <- wr_word b i x; put_field b (i + 1) field
  end.

(** The digest. *)
Definition finish (s : ShaState) : M S (list Z) :=
  do s <- put_byte s 0x80;
  do s <- (if al_field a <? sh_block_len s then do s <- zero_to (al_block a) s; ret (absorb s) else ret s);
  do s <- zero_to (al_field a) s;
  let bit_len := wrap 64 (sh_total_len s * 8) in
  do b <- put_field (sh_block s) (al_field a) (repeat 0 (Z.to_nat (al_block a - 8 - al_field a)) ++ be_bytes 8 bit_len);
  ret (flat_map (be_bytes (al_word a)) (al_process a (sh_h s) b)).

Definition oneshot (junk : list Z) (data : option (list Z)) : M S (list Z) :=
  let s := init_state junk in
  do s <- match data with Some (x :: l) => update_state s (x :: l) | _ => ret s end;
  finish s.

(** [crypto_sha256], [crypto_sha512]; [ok]: does [malloc] succeed? *)
Definition crypto_hash (ok : bool) (junk : list Z) (data : option (list Z)) : M S (option (list Z)) :=
  if ok then do d <- oneshot junk data; ret (Some d) else ret None.

(** The key in a block of zeros. *)
Definition key_block (junk : list Z) (key : option (list Z)) : M S (list Z) :=
  let zeros := repeat 0 (Z.to_nat (al_block a)) in
  match key with
  | Some (x :: l) =>
      if al_block a <? zlen (x :: l) then do d <- oneshot junk key; put_field zeros 0 d
      else put_field zeros 0 (x :: l)
  | _ => ret zeros
  end.

(** [crypto_hmac_sha256], [crypto_hmac_sha512].  What the buffer holds when it is
    set up for the key, for the inner and for the outer hash: [junk0], [junk1], [junk2]. *)
Definition crypto_hmac (ok : bool) (junk0 junk1 junk2 : list Z) (key data : option (list Z)) : M S (option (list Z)) :=
  if negb ok then ret None
  else
    do k <- key_block junk0 key;
    let k := map (fun x => Z.lxor x 0x36) k in
    do s <- update_state (init_state junk1) k;
    do s <- match data with Some (x :: l) => update_state s (x :: l) | _ => ret s end;
    do inner <- finish s;
    let k := map (fun x => Z.lxor x (Z.lxor 0x36 0x5c)) k in
    do s <- update_state (init_state junk2) k;
    do s <- update_state s inner;
    do mac <- finish s;
    ret (Some mac).
End Buffer.

Definition crypto_sha256 {S} : bool -> list Z -> option (list Z) -> M S (option (list Z)) := crypto_hash sha256.
Definition crypto_sha512 {S} : bool -> list Z -> option (list Z) -> M S (option (list Z)) := crypto_hash sha512.
Definition crypto_hmac_sha256 {S} : bool -> list Z -> list Z -> list Z -> option (list Z) -> option (list Z) -> M S (option (list Z)) :=
  crypto_hmac sha256.
Definition crypto_hmac_sha512 {S} : bool -> list Z -> list Z -> list Z -> option (list Z) -> option (list Z) -> M S (option (list Z)) :=
  crypto_hmac sha512.

(** ** Comparison and hexadecimal *)

(** A [ByteArray] is its pointer and its length. *)
Record ByteArray := mkBytes { ba_data : option (list Z); ba_len : Z }.

(** [diff |= a.data[i] ^ b.data[i]] for [n] bytes from [i] on. *)
Fixpoint diff_bytes {S} (x y : list Z) (n : nat) (i diff : Z) : M S Z :=
  match n with
  | O => ret diff
  | Datatypes.S n => do p <- rd x i; do q <- rd y i; diff_bytes x y n (i + 1) (Z.lor diff (Z.lxor p q))
  end.

Definition crypto_constanteq {S} (x y : ByteArray) : M S Z :=
  if negb (ba_len x =? ba_len y) then ret 0
  else if ba_len x =? 0 then ret 1
  else
    match ba_data x, ba_data y with
    | Some p, Some q =>
        do diff <- diff_bytes p q (Z.to_nat (ba_len x)) 0 0;
        ret (if diff =? 0 then 1 else 0)
    | _, _ => ret 0
    end.

Definition hex_chars : list Z := bytes_of "0123456789abcdef".

(** The text of the bytes; [ok]: does [malloc] succeed? *)
Definition crypto_to_hex {S} (ok : bool) (x : ByteArray) : M S (option (list Z)) :=
  match ba_data x with
  | Some p =>
      if ba_len x =? 0 then ret (if ok then Some [] else None)
      else if negb ok then ret None
      else
        do l <- rd_range p 0 (ba_len x);
        ret (Some (flat_map (fun b => [byte_at hex_chars (Z.land (Z.shiftr b 4) 0x0f); byte_at hex_chars (Z.land b 0x0f)]) l))
  | None => ret (if ok then Some [] else None)
  end.

Inductive HexResult := HexBytes (b : ByteArray) | HexErr (msg : string).

Definition hex_value (ch : Z) : option Z :=
  if (chr "0" <=? ch) && (ch <=? chr "9") then Some (ch - chr "0")
  else if (chr "a" <=? ch) && (ch <=? chr "f") then Some (ch - chr "a" + 10)
  else if (chr "A" <=? ch) && (ch <=? chr "F") then Some (ch - chr "A" + 10)
  else None.

(** Two digits for a byte; [None] at a character that is none. *)
Fixpoint hex_pairs (l : list Z) : option (list Z) :=
  match l with
  | hi :: lo :: l =>
      match hex_value hi, hex_value lo, hex_pairs l with
      | Some h, Some v, Some bs => Some (Z.lor (Z.shiftl h 4) v :: bs)
      | _, _, _ => None
      end
  | _ => Some []
  end.

Definition crypto_from_hex (ok : bool) (hex : option (list Z)) : HexResult :=
  match hex with
  | None => HexErr "crypto_from_hex: NULL input"
  | Some s =>
      if negb (zlen s mod 2 =? 0) then HexErr "crypto_from_hex: odd-length hex string"
      else if zlen s / 2 =? 0 then HexBytes (mkBytes None 0)
      else if negb ok then HexErr "crypto_from_hex: out of memory"
      else
        match hex_pairs s with
        | None => HexErr "crypto_from_hex: invalid hex character"
        | Some bs => HexBytes (mkBytes (Some bs) (zlen bs))
        end
  end.

(** ** Files *)

(** Every piece [fread] gives. *)
Fixpoint update_reads {S} (s : ShaState) (reads : list (list Z)) : M S ShaState :=
  match reads with
  | [] => ret s
  | buf :: reads => do s <- update_state sha256 s buf; update_reads s reads
  end.

(** [file] is what [fopen] and the calls of [fread] give: [None] when the path is
    NULL or no file, or the pieces up to the first empty one. *)
Definition crypto_sha256file {S} (ok : bool) (junk : list Z) (file : option (list (list Z))) : M S (option (list Z)) :=
  match file with
  | None => ret None
  | Some reads =>
      do s <- update_reads (init_state sha256 junk) reads;
      do digest <- finish sha256 s;
      crypto_to_hex ok (mkBytes (Some digest) SHA256_DIGEST_SIZE)
  end.

(** The comparison of two strings up to case. *)
Fixpoint same_text (x y : list Z) : Z :=
  match x, y with
  | a :: x, b :: y => if negb (tolower a =? tolower b) then 0 else same_text x y
  | [], [] => 1
  | _, _ => 0
  end.

Definition crypto_sha256verify {S} (ok : bool) (junk : list Z) (file : option (list (list Z))) (expected_hex : option (list Z)) : M S Z :=
  match expected_hex with
  | None => ret 0
  | Some e =>
      do actual <- crypto_sha256file ok junk file;
      match actual with
      | None => ret 0
      | Some t => ret (same_text t e)
      end
  end.
