(* ===== verification/ShaSpec.v ===== *)
(** * FIPS 180-4 and RFC 2104

    The secure hash standard, sections 4 to 6, on lists of bytes, for both sizes of
    words; and the keyed hash. *)

From Stdlib Require Import ZArith Lia String Ascii.
From stdpp Require Import base tactics list.
From S2P Require Import Prelude.
Open Scope Z_scope.

(** What an instance of the standard fixes: the bits of a word, the exponents of
    its six functions, the constants and the initial hash value. *)
Record Fips := {
  fi_w : Z;
  fi_Sigma0 : Z * Z * Z;
  fi_Sigma1 : Z * Z * Z;
  fi_sigma0 : Z * Z * Z;
  fi_sigma1 : Z * Z * Z;
  fi_K : list Z;
  fi_H0 : list Z
}.

Section Standard.
Context (f : Fips).

Let w := fi_w f.

(** ** Functions of words (4.1) *)

Definition plus (x y : Z) : Z := (x + y) mod 2 ^ w.
Definition rotr (n x : Z) : Z := x / 2 ^ n + (x mod 2 ^ n) * 2 ^ (w - n).
Definition Ch (x y z : Z) : Z := Z.lxor (Z.land x y) (Z.land (2 ^ w - 1 - x) z).
Definition Maj (x y z : Z) : Z := Z.lxor (Z.lxor (Z.land x y) (Z.land x z)) (Z.land y z).
Definition Sigma (e : Z * Z * Z) (x : Z) : Z := let '(p, q, r) := e in Z.lxor (Z.lxor (rotr p x) (rotr q x)) (rotr r x).
Definition sigma (e : Z * Z * Z) (x : Z) : Z := let '(p, q, r) := e in Z.lxor (Z.lxor (rotr p x) (rotr q x)) (x / 2 ^ r).

(** ** Blocks (5) *)

Definition word_bytes : nat := Z.to_nat (w / 8).
Definition block_bytes : nat := 16 * word_bytes.

(** A number of [n] bytes, the highest first. *)
Definition big_endian (n : nat) (x : Z) : list Z := map (fun i => x / 2 ^ (8 * Z.of_nat i) mod 256) (rev (seq 0 n)).
Definition of_big_endian (l : list Z) : Z := fold_left (fun x b => 256 * x + b) l 0.

(** One bit, the least number of zeros, and the length in bits in two words. *)
Definition pad (m : list Z) : list Z :=
  let field := (2 * word_bytes)%nat in
  let zeros := (Z.of_nat (block_bytes - field) - 1 - zlen m) mod Z.of_nat block_bytes in
  m ++ [0x80] ++ repeat 0 (Z.to_nat zeros) ++ big_endian field (8 * zlen m).

(** A text cut in pieces of [n]. *)
Fixpoint pieces (k n : nat) (m : list Z) : list (list Z) :=
  match k with
  | O => []
  | S k => take n m :: pieces k n (drop n m)
  end.

Definition cut (n : nat) (m : list Z) : list (list Z) := pieces (length m / n) n m.

(** ** The hash (6) *)

(** The schedule: the sixteen words of the block and [n] more. *)
Fixpoint schedule (block : list Z) (n : nat) : list Z :=
  match n with
  | O => map of_big_endian (cut word_bytes block)
  | S n =>
      let ws := schedule block n in
      let at_ k := nth (length ws - k) ws 0 in
      ws ++ [plus (plus (plus (sigma (fi_sigma1 f) (at_ 2%nat)) (at_ 7%nat)) (sigma (fi_sigma0 f) (at_ 15%nat))) (at_ 16%nat)]
  end.

Definition round (v : list Z) (K W : Z) : list Z :=
  match v with
  | [a; b; c; d; e; g; h; i] =>
      let T1 := plus (plus (plus (plus i (Sigma (fi_Sigma1 f) e)) (Ch e g h)) K) W in
      let T2 := plus (Sigma (fi_Sigma0 f) a) (Maj a b c) in
      [plus T1 T2; a; b; c; plus d T1; e; g; h]
  | _ => v
  end.

Definition compress (H block : list Z) : list Z :=
  let W := schedule block (length (fi_K f) - 16) in
  zip_with plus H (fold_left (fun v '(K, W) => round v K W) (zip (fi_K f) W) H).

Definition hash (m : list Z) : list Z :=
  flat_map (big_endian word_bytes) (fold_left compress (cut block_bytes (pad m)) (fi_H0 f)).

(** ** RFC 2104 *)

(** A key longer than a block is hashed, then zeros fill the block. *)
Definition hmac_key (key : list Z) : list Z :=
  let key := if Z.of_nat block_bytes <? zlen key then hash key else key in
  key ++ repeat 0 (block_bytes - length key).

Definition xor_with (b : Z) (l : list Z) : list Z := map (fun x => Z.lxor x b) l.

Definition hmac (key text : list Z) : list Z :=
  hash (xor_with 0x5c (hmac_key key) ++ hash (xor_with 0x36 (hmac_key key) ++ text)).
End Standard.

(** ** The instances *)

(** The constants are the first bits of the fractional parts of the roots of the
    first primes: cube roots (4.2) and square roots (5.3). *)
Definition primes (k : nat) : list Z :=
  take k (List.filter (fun n => forallb (fun d => negb (n mod d =? 0)) (map Z.of_nat (seq 2 (Z.to_nat (Z.sqrt n) - 1))))
                      (map Z.of_nat (seq 2 420))).

(** The greatest number whose cube is at most [n], below 2^68. *)
Definition cube_root (n : Z) : Z :=
  fold_left (fun r k => let r' := r + 2 ^ k in if r' * r' * r' <=? n then r' else r) (rev (map Z.of_nat (seq 0 68))) 0.

Definition root_constants (w : Z) (k : nat) : list Z := map (fun p => cube_root (p * 2 ^ (3 * w)) mod 2 ^ w) (primes k).
Definition root_initial (w : Z) : list Z := map (fun p => Z.sqrt (p * 2 ^ (2 * w)) mod 2 ^ w) (primes 8).

Definition fips_sha256 : Fips := {|
  fi_w := 32;
  fi_Sigma0 := (2, 13, 22); fi_Sigma1 := (6, 11, 25); fi_sigma0 := (7, 18, 3); fi_sigma1 := (17, 19, 10);
  fi_K := root_constants 32 64;
  fi_H0 := root_initial 32
|}.

Definition fips_sha512 : Fips := {|
  fi_w := 64;
  fi_Sigma0 := (28, 34, 39); fi_Sigma1 := (14, 18, 41); fi_sigma0 := (1, 8, 7); fi_sigma1 := (19, 61, 6);
  fi_K := root_constants 64 80;
  fi_H0 := root_initial 64
|}.
