(* ===== verification/ShaHash.v ===== *)
(** * Hashes: blocks, the buffer, and the hash of a text *)

From Stdlib Require Import ZArith Lia String Ascii.
From stdpp Require Import base tactics list.
From S2P Require Import Prelude Heap Sha ShaSpec SeqFacts.
Open Scope Z_scope.

(** * A block of a hash

    Words and their bytes, the schedule, the rounds, and texts cut in blocks. *)

(** * A block

    The functions of words of the code are those of the standard, its window of
    sixteen words the schedule, its rotating variables the working variables. *)

Definition is_word (w x : Z) : Prop := 0 <= x < 2 ^ w.

(** ** Words *)

Lemma bits_above w x i : is_word w x -> 0 <= w <= i -> Z.testbit x i = false.
Proof.
  intros Hx Hi. rewrite <- (Z.mod_small x (2 ^ w)) by apply Hx. by apply Z.mod_pow2_bits_high.
Qed.

Lemma lor_disjoint k a b : 0 <= k -> 0 <= a < 2 ^ k -> 0 <= b -> Z.lor a (b * 2 ^ k) = a + b * 2 ^ k.
Proof.
  intros Hk Ha Hb. assert (Hl : Z.land a (b * 2 ^ k) = 0).
  { apply Z.bits_inj'. intros i Hi. rewrite Z.land_spec, Z.bits_0. destruct (decide (i < k)).
    - by rewrite Z.mul_pow2_bits_low, andb_false_r.
    - by rewrite (bits_above k a) by (done || lia). }
  by rewrite Z.add_nocarry_lxor, Z.lxor_lor.
Qed.

Lemma div_word w x n : is_word w x -> 0 <= n <= w -> 0 <= x / 2 ^ n < 2 ^ (w - n).
Proof.
  intros [H0 H1] Hn. assert (0 < 2 ^ n) by (apply Z.pow_pos_nonneg; lia). split; [by apply Z.div_pos|].
  apply Z.div_lt_upper_bound; [done|]. by rewrite <- Z.pow_add_r, Zplus_minus by lia.
Qed.

Lemma ROTR_rotr f x n : is_word (fi_w f) x -> 0 < n < fi_w f -> ROTR (fi_w f) x n = rotr f n x.
Proof.
  intros Hx Hn. unfold ROTR, SHR, wrap, rotr. rewrite Z.shiftr_div_pow2, Z.shiftl_mul_pow2 by lia.
  assert (0 < 2 ^ n) by (apply Z.pow_pos_nonneg; lia). assert (0 < 2 ^ (fi_w f - n)) by (apply Z.pow_pos_nonneg; lia).
  replace (2 ^ fi_w f) with (2 ^ n * 2 ^ (fi_w f - n)) by (rewrite <- Z.pow_add_r by lia; f_equal; lia).
  rewrite Z.mul_mod_distr_r by lia. apply lor_disjoint; [lia|by apply div_word; [|lia]|]. apply Z.mod_pos_bound. lia.
Qed.

Lemma F0_Maj x y z : F0 x y z = Maj x y z.
Proof.
  apply Z.bits_inj'. intros i Hi. unfold F0, Maj.
  rewrite !Z.lor_spec, !Z.land_spec, !Z.lxor_spec, !Z.land_spec, Z.lor_spec.
  by destruct (Z.testbit x i), (Z.testbit y i), (Z.testbit z i).
Qed.

Lemma complement_bits w x i : is_word w x -> 0 <= i < w -> Z.testbit (2 ^ w - 1 - x) i = negb (Z.testbit x i).
Proof.
  intros Hx Hi. replace (2 ^ w - 1 - x) with (Z.lnot x + 1 * 2 ^ w) by (unfold Z.lnot; lia).
  rewrite <- (Z.mod_pow2_bits_low _ w) by lia. rewrite Z.mod_add by (apply Z.pow_nonzero; lia).
  rewrite Z.mod_pow2_bits_low, Z.lnot_spec by lia. done.
Qed.

Lemma F1_Ch f x y z :
  0 <= fi_w f -> is_word (fi_w f) x -> is_word (fi_w f) y -> is_word (fi_w f) z -> F1 x y z = Ch f x y z.
Proof.
  intros Hw Hx Hy Hz. apply Z.bits_inj'. intros i Hi. unfold F1, Ch. rewrite !Z.lxor_spec, !Z.land_spec, !Z.lxor_spec.
  destruct (decide (i < fi_w f)).
  - rewrite (complement_bits (fi_w f)) by (done || lia). by destruct (Z.testbit x i), (Z.testbit y i), (Z.testbit z i).
  - rewrite !(bits_above (fi_w f) _ i) by (done || lia). by rewrite ?andb_false_r.
Qed.

Lemma plus_word f x y : 0 <= fi_w f -> is_word (fi_w f) (plus f x y).
Proof. intros Hw. apply Z.mod_pos_bound. by apply Z.pow_pos_nonneg. Qed.

Lemma wrap_plus f x y : wrap (fi_w f) (x + y) = plus f x y.
Proof. done. Qed.

Lemma plus_idemp_l f x y : plus f (x mod 2 ^ fi_w f) y = plus f x y.
Proof. apply Zplus_mod_idemp_l. Qed.

(** A sum of five and of four, as the code writes them. *)
Lemma wrap_sum5 f a b c d e : wrap (fi_w f) (a + b + c + d + e) = plus f (plus f (plus f (plus f a b) c) d) e.
Proof. unfold wrap, plus. repeat (rewrite <- ?Z.add_assoc, Zplus_mod_idemp_l). by rewrite <- !Z.add_assoc. Qed.

Lemma wrap_sum4 f a b c d : wrap (fi_w f) (a + (b + c + d)) = plus f (plus f (plus f b c) d) a.
Proof. unfold wrap, plus. repeat (rewrite <- ?Z.add_assoc, Zplus_mod_idemp_l). f_equal. lia. Qed.

(** ** Bytes of words *)

Definition is_byte (b : Z) : Prop := 0 <= b < 256.

Lemma be_word_eq l : Forall is_byte l -> be_word l = of_big_endian l.
Proof.
  intros Hl. unfold be_word, of_big_endian. 
  cut (forall x, 0 <= x -> fold_left (fun x b => Z.lor (Z.shiftl x 8) b) l x = fold_left (fun x b => 256 * x + b) l x).
  { intros Hc. by apply Hc. }
  induction Hl as [|b l Hb Hl IH]; intros x Hx; [done|]. cbn [fold_left]. rewrite Z.shiftl_mul_pow2 by lia.
  unfold is_byte in Hb. rewrite Z.lor_comm, (lor_disjoint 8) by lia.
  replace (b + x * 2 ^ 8) with (256 * x + b) by lia. apply IH. lia.
Qed.

Lemma of_big_endian_word l : Forall is_byte l -> is_word (8 * zlen l) (of_big_endian l).
Proof.
  unfold of_big_endian, is_word. intros Hl. induction l as [|b l IH] using rev_ind; [done|].
  apply Forall_app in Hl as [Hl [Hb _]%Forall_cons]. specialize (IH Hl). rewrite fold_left_app. cbn [fold_left].
  unfold is_byte in Hb. pose proof (zlen_nonneg l). rewrite zlen_app. change (zlen [b]) with 1.
  replace (8 * (zlen l + 1)) with (8 + 8 * zlen l) by lia. rewrite Z.pow_add_r by lia. lia.
Qed.

Lemma be_bytes_eq n x : be_bytes n x = big_endian n x.
Proof. apply map_ext. intros i. by rewrite Z.shiftr_div_pow2 by lia. Qed.

Lemma big_endian_bytes n x : Forall is_byte (big_endian n x) /\ length (big_endian n x) = n.
Proof.
  unfold big_endian. split; [|by rewrite length_map, length_rev, length_seq].
  apply Forall_forall. intros b (i & <- & _)%list_elem_of_In%in_map_iff. by apply Z.mod_pos_bound.
Qed.

(** ** Pieces *)

Lemma length_pieces k n m : length (pieces k n m) = k.
Proof. revert m. induction k; intros m; cbn; [done|]. by f_equal. Qed.

Lemma pieces_app k1 k2 n l1 l2 :
  length l1 = (k1 * n)%nat -> pieces (k1 + k2) n (l1 ++ l2) = pieces k1 n l1 ++ pieces k2 n l2.
Proof.
  revert l1. induction k1 as [|k1 IH]; intros l1 Hl; cbn in *.
  - apply length_zero_iff_nil in Hl. by subst.
  - rewrite take_app_le, drop_app_le by lia. f_equal. apply IH. rewrite length_drop. lia.
Qed.

Lemma cut_app n l1 l2 k : n <> 0%nat -> length l1 = (k * n)%nat -> cut n (l1 ++ l2) = cut n l1 ++ cut n l2.
Proof.
  intros Hn Hl. unfold cut. rewrite length_app, Hl. rewrite Nat.add_comm, Nat.div_add by done.
  rewrite Nat.add_comm, Nat.div_mul by done. by apply pieces_app.
Qed.

Lemma cut_one n l : n <> 0%nat -> length l = n -> cut n l = [l].
Proof.
  intros Hn <-. unfold cut. rewrite Nat.div_same by done. cbn. by rewrite firstn_all.
Qed.

Lemma pieces_slices k n m : pieces k n m = map (fun i => slice m (Z.of_nat (i * n)) (Z.of_nat n)) (seq 0 k).
Proof.
  revert m. induction k as [|k IH]; intros m; [done|]. cbn [pieces seq map]. f_equal.
  - unfold slice. by rewrite !Nat2Z.id.
  - rewrite IH, <- seq_shift, map_map. apply map_ext. intros i. unfold slice. by rewrite !Nat2Z.id, drop_drop.
Qed.

Lemma load_words_eq n data :
  n <> 0%nat -> length data = (16 * n)%nat -> Forall is_byte data -> load_words n data = map of_big_endian (cut n data).
Proof.
  intros Hn Hl Hb. unfold load_words, cut. rewrite Hl, Nat.div_mul, pieces_slices, map_map by done. apply map_ext_in.
  intros i Hi. apply be_word_eq. unfold slice. by apply Forall_take, Forall_drop.
Qed.

(** ** Loops over indices *)

Lemma fold_rel {A B} (f : A -> nat -> A) (g : B -> nat -> B) (I : nat -> A -> B -> Prop) n a b :
  I 0%nat a b -> (forall i a b, (i < n)%nat -> I i a b -> I (S i) (f a i) (g b i)) ->
  I n (fold_left f (seq 0 n) a) (fold_left g (seq 0 n) b).
Proof.
  intros H0 Hs. induction n as [|n IH]; [done|]. rewrite seq_S, !fold_left_app. cbn. apply Hs; [lia|].
  apply IH. intros i a' b' Hi. apply Hs. lia.
Qed.

Lemma fold_zip {V} (step : V -> Z -> Z -> V) (K W : list Z) v :
  length W = length K ->
  fold_left (fun v '(k, x) => step v k x) (zip K W) v =
  fold_left (fun v i => step v (nth i K 0) (nth i W 0)) (seq 0 (length K)) v.
Proof.
  revert W v. induction K as [|k K IH]; intros [|x W] v Hl; [done..|]. cbn in *. rewrite IH by lia.
  rewrite <- seq_shift. generalize (seq 0 (length K)) as l. generalize (step v k x) as u. clear.
  intros u l. revert u. induction l as [|i l IH]; intros u; [done|]. cbn. apply IH.
Qed.

Lemma fold_map {A} (f : A -> Z -> A) l a : fold_left f (map Z.of_nat l) a = fold_left (fun a i => f a (Z.of_nat i)) l a.
Proof. revert a. induction l as [|i l IH]; intros a; [done|]. cbn. apply IH. Qed.

(** * The functions of a block are the compression functions of the standard *)

(** ** The schedule *)

Section Schedule.
Context (f : Fips) (Hw : 0 < fi_w f) (block : list Z) (Hb : length (map of_big_endian (cut (word_bytes f) block)) = 16%nat).

Lemma schedule_length n : length (schedule f block n) = (16 + n)%nat.
Proof. induction n; cbn [schedule]; [done|]. rewrite length_app. cbn. lia. Qed.

Lemma schedule_prefix n k i : (i < 16 + n)%nat -> nth i (schedule f block (k + n)) 0 = nth i (schedule f block n) 0.
Proof.
  intros Hi. induction k as [|k IH]; [done|]. cbn [Nat.add schedule]. rewrite app_nth1; [done|]. rewrite schedule_length. lia.
Qed.

Lemma schedule_next n t :
  (16 <= t < 16 + n)%nat ->
  nth t (schedule f block n) 0 =
  plus f (plus f (plus f (sigma f (fi_sigma1 f) (nth (t - 2) (schedule f block n) 0)) (nth (t - 7) (schedule f block n) 0))
    (sigma f (fi_sigma0 f) (nth (t - 15) (schedule f block n) 0))) (nth (t - 16) (schedule f block n) 0).
Proof.
  intros Ht. set (k := (t - 16)%nat). assert (E : t = (16 + k)%nat) by lia. clearbody k. subst t.
  replace n with (n - S k + S k)%nat by lia. rewrite !schedule_prefix by lia. cbn [schedule].
  pose proof (schedule_length k) as Hl. rewrite app_nth2, Hl by lia. rewrite Nat.sub_diag. cbn [nth].
  rewrite !app_nth1 by lia. by replace (16 + k - 16)%nat with k by lia.
Qed.

Lemma schedule_words n :
  Forall (is_word (fi_w f)) (map of_big_endian (cut (word_bytes f) block)) -> Forall (is_word (fi_w f)) (schedule f block n).
Proof.
  intros H0. induction n; cbn [schedule]; [done|]. apply Forall_app. split; [done|]. constructor; [|done]. apply plus_word. lia.
Qed.
End Schedule.

(** ** The window of sixteen words *)

Lemma land15 j : Z.land (Z.of_nat j) 15 = Z.of_nat (j mod 16).
Proof. change 15 with (Z.ones 4). rewrite Z.land_ones by lia. by rewrite Nat2Z.inj_mod. Qed.

Lemma byte_at_nth (l : list Z) i : byte_at l (Z.of_nat i) = nth i l 0.
Proof. unfold byte_at. by rewrite Nat2Z.id. Qed.

(** The words behind the sixteenth follow the recurrence of the schedule. *)
Definition recurs (f : Fips) (W : list Z) : Prop :=
  forall t, (16 <= t < length W)%nat -> nth t W 0 =
     plus f (plus f (plus f (sigma f (fi_sigma1 f) (nth (t - 2) W 0)) (nth (t - 7) W 0)) (sigma f (fi_sigma0 f) (nth (t - 15) W 0)))
       (nth (t - 16) W 0).

(** Before round [i] the window holds the words of the last sixteen. *)
Definition window (W : list Z) (i : nat) (w : list Z) : Prop :=
  length w = 16%nat /\ forall j, (Nat.max 16 i - 16 <= j < Nat.max 16 i)%nat -> nth (j mod 16) w 0 = nth j W 0.

Lemma window_at W i w j :
  window W i w -> (Nat.max 16 i - 16 <= j < Nat.max 16 i)%nat -> byte_at w (Z.land (Z.of_nat j) 15) = nth j W 0.
Proof. intros [_ Hw] Hj. rewrite land15, byte_at_nth. by apply Hw. Qed.

Lemma nth_word w l i : 0 < w -> Forall (is_word w) l -> is_word w (nth i l 0).
Proof.
  intros Hw Hl. destruct (decide (i < length l)%nat).
  - rewrite Forall_forall in Hl. apply Hl, list_elem_of_In, nth_In. done.
  - rewrite nth_overflow by lia. split; [done|]. apply Z.pow_pos_nonneg; lia.
Qed.

Section Window.
Context (f : Fips) (s1 s0 : Z -> Z) (W : list Z) (Hw : 0 < fi_w f) (HW : Forall (is_word (fi_w f)) W)
  (H1 : forall x, is_word (fi_w f) x -> s1 x = sigma f (fi_sigma1 f) x)
  (H0 : forall x, is_word (fi_w f) x -> s0 x = sigma f (fi_sigma0 f) x)
  (Hnext : recurs f W).

Lemma scr_window i w :
  window W i w -> (16 <= i < length W)%nat -> window W (S i) (scr (fi_w f) s1 s0 (Z.of_nat i) w).
Proof.
  intros Hwin Hi. pose proof Hwin as [Hl Hc]. unfold scr.
  assert (Hat : forall k z, Z.of_nat k = z -> (1 <= k <= 16)%nat -> byte_at w (Z.land (Z.of_nat i - z) 15) = nth (i - k) W 0).
  { intros k z <- Hk. rewrite <- Nat2Z.inj_sub by lia. apply (window_at W i); [done|lia]. }
  rewrite (Hat 2%nat 2), (Hat 7%nat 7), (Hat 15%nat 15) by lia.
  assert (Hcur : byte_at w (Z.land (Z.of_nat i) 15) = nth (i - 16) W 0).
  { rewrite land15, byte_at_nth. replace (i mod 16)%nat with ((i - 16) mod 16)%nat; [apply Hc; lia|].
    replace i with (i - 16 + 1 * 16)%nat at 2 by lia. by rewrite Nat.Div0.mod_add. }
  rewrite Hcur, H1, H0, wrap_sum4, <- Hnext by (done || by apply nth_word). rewrite land15, Nat2Z.id.
  assert (Hm : (i mod 16 < 16)%nat) by (apply Nat.mod_upper_bound; lia).
  split; [by rewrite length_insert|]. intros j Hj. rewrite !nth_lookup. destruct (decide (j = i)) as [->|Hne].
  - by rewrite list_lookup_insert_eq by lia.
  - rewrite list_lookup_insert_ne.
    + rewrite <- nth_lookup, Hc, nth_lookup by lia. done.
    + intros Hmod. assert (j mod 16 = i mod 16)%nat by done. pose proof (Nat.div_mod_eq i 16). pose proof (Nat.div_mod_eq j 16). lia.
Qed.

(** The window a round reads, and its word. *)
Lemma step_window i w :
  window W i w -> (i < length W)%nat ->
  let w' := if 16 <=? Z.of_nat i then scr (fi_w f) s1 s0 (Z.of_nat i) w else w in
  window W (S i) w' /\ byte_at w' (Z.land (Z.of_nat i) 15) = nth i W 0.
Proof.
  intros Hwin Hi w'. assert (Hn : window W (S i) w').
  { unfold w'. destruct (16 <=? Z.of_nat i) eqn:E; zb; [apply scr_window; [done|lia]|].
    destruct Hwin as [Hl Hc]. split; [done|]. intros j Hj. apply Hc. lia. }
  split; [done|]. apply (window_at W (S i)); [done|lia].
Qed.
End Window.

(** ** The rounds of SHA-512 *)

Lemma length_8 {A} (l : list A) : length l = 8%nat -> exists a b c d e f g h, l = [a; b; c; d; e; f; g; h].
Proof.
  intros Hl. do 8 (destruct l as [|? l]; [done|]). destruct l; [|done]. by do 8 eexists.
Qed.

Lemma Forall_8 {A} (P : A -> Prop) a b c d e f g h :
  Forall P [a; b; c; d; e; f; g; h] <-> P a /\ P b /\ P c /\ P d /\ P e /\ P f /\ P g /\ P h.
Proof. rewrite !Forall_cons. intuition constructor. Qed.

(** The working variables stay words, eight of them. *)
Definition words8 (f : Fips) (v : list Z) : Prop := length v = 8%nat /\ Forall (is_word (fi_w f)) v.

Lemma round_words8 f v K W : 0 < fi_w f -> words8 f v -> words8 f (round f v K W).
Proof.
  intros Hw [Hl Hv]. apply length_8 in Hl as (a & b & c & d & e & g & h & i & ->). apply Forall_8 in Hv.
  split; [done|]. cbn [round]. apply Forall_8. destruct_and!. split_and!; try done; apply plus_word; lia.
Qed.

Lemma sigma_512 x : is_word 64 x ->
  S512_0 x = sigma fips_sha512 (1, 8, 7) x /\ S512_1 x = sigma fips_sha512 (19, 61, 6) x /\
  E512_0 x = Sigma fips_sha512 (28, 34, 39) x /\ E512_1 x = Sigma fips_sha512 (14, 18, 41) x.
Proof.
  intros Hx. unfold S512_0, S512_1, E512_0, E512_1, sigma, Sigma, SHR. rewrite !Z.shiftr_div_pow2 by lia.
  pose proof (ROTR_rotr fips_sha512) as HR. cbn [fi_w fips_sha512] in HR.
  split_and!; f_equal; rewrite ?HR by (done || lia); done.
Qed.

Lemma sha512_round_eq v K W : words8 fips_sha512 v -> sha512_round v W K = round fips_sha512 v K W.
Proof.
  intros [Hl Hv]. apply length_8 in Hl as (a & b & c & d & e & g & h & i & ->). apply Forall_8 in Hv. destruct_and!.
  cbn [sha512_round round]. destruct (sigma_512 a) as (_ & _ & -> & _); [done|]. destruct (sigma_512 e) as (_ & _ & _ & ->); [done|].
  rewrite F0_Maj, (F1_Ch fips_sha512) by done.
  rewrite (wrap_sum5 fips_sha512), !(wrap_plus fips_sha512). done.
Qed.

(** ** The rounds of SHA-256: the variables rotate instead of their values *)

Lemma sigma_256 x : is_word 32 x ->
  S0 x = sigma fips_sha256 (7, 18, 3) x /\ S1 x = sigma fips_sha256 (17, 19, 10) x /\
  E0 x = Sigma fips_sha256 (2, 13, 22) x /\ E1 x = Sigma fips_sha256 (6, 11, 25) x.
Proof.
  intros Hx. unfold S0, S1, E0, E1, sigma, Sigma, SHR. rewrite !Z.shiftr_div_pow2 by lia.
  pose proof (ROTR_rotr fips_sha256) as HR. cbn [fi_w fips_sha256] in HR.
  split_and!; f_equal; rewrite ?HR by (done || lia); done.
Qed.

(** Role [r] in round [i] is played by variable [(r - i) mod 8]. *)
Definition rotated (i : Z) (v u : list Z) : Prop :=
  length v = 8%nat /\ forall r, 0 <= r < 8 -> byte_at v ((r - i) mod 8) = byte_at u r.

Lemma P_round i v u K W :
  rotated i v u -> words8 fips_sha256 u -> rotated (i + 1) (P v i W K) (round fips_sha256 u K W).
Proof.
  intros [Hl Hrot] [Hlu Hu]. unfold P. apply length_8 in Hlu as (a & b & c & d & e & g & h & j & ->). apply Forall_8 in Hu. destruct_and!.
  rewrite !Hrot by lia.
  change (byte_at [a; b; c; d; e; g; h; j] 7) with j. change (byte_at [a; b; c; d; e; g; h; j] 6) with h.
  change (byte_at [a; b; c; d; e; g; h; j] 5) with g. change (byte_at [a; b; c; d; e; g; h; j] 4) with e.
  change (byte_at [a; b; c; d; e; g; h; j] 3) with d. change (byte_at [a; b; c; d; e; g; h; j] 2) with c.
  change (byte_at [a; b; c; d; e; g; h; j] 1) with b. change (byte_at [a; b; c; d; e; g; h; j] 0) with a.
  destruct (sigma_256 a) as (_ & _ & -> & _); [done|]. destruct (sigma_256 e) as (_ & _ & _ & ->); [done|].
  rewrite F0_Maj, (F1_Ch fips_sha256), (wrap_sum5 fips_sha256), !(wrap_plus fips_sha256) by done. cbn [round].
  set (T1 := plus _ _ W). set (T2 := plus _ (Sigma _ _ a) _).
  assert (Hmod : forall x, 0 <= x mod 8 < 8) by (intros; apply Z.mod_pos_bound; lia).
  split; [by rewrite !length_insert|]. intros r Hr.
  assert (Hz : zlen v = 8) by (unfold zlen; lia). pose proof (Hmod (7 - i)). pose proof (Hmod (3 - i)). pose proof (Hmod (r - (i + 1))).
  rewrite !byte_at_insert by (rewrite ?zlen_insert; lia).
  assert (Hpos : (r - (i + 1)) mod 8 = ((if r =? 0 then 7 else r - 1) - i) mod 8).
  { destruct (r =? 0) eqn:E; zb; [|f_equal; lia]. subst r. rewrite <- (Z.mod_add (0 - (i + 1)) 1 8) by lia. f_equal. lia. }
  assert (Heq : forall p q, 0 <= p < 8 -> 0 <= q < 8 -> (((p - i) mod 8 =? (q - i) mod 8) = (p =? q))).
  { intros p q Hp Hq. destruct (p =? q) eqn:E; zb; [subst; apply Z.eqb_refl|]. apply Z.eqb_neq. intros Hm.
    pose proof (Z.div_mod (p - i) 8 ltac:(lia)). pose proof (Z.div_mod (q - i) 8 ltac:(lia)). lia. }
  rewrite Hpos, !Heq by (destruct (r =? 0) eqn:E; zb; lia).
  assert (r = 0 \/ r = 1 \/ r = 2 \/ r = 3 \/ r = 4 \/ r = 5 \/ r = 6 \/ r = 7) as Hc by lia.
  destruct Hc as [->|[->|[->|[->|[->|[->|[->| ->]]]]]]];
    repeat match goal with |- context [?p =? ?q] => let c := eval vm_compute in (p =? q) in change (p =? q) with c end;
    cbv iota; rewrite ?Hrot by lia; reflexivity.
Qed.

(** * From blocks to texts

    The buffer of a hash holds what is left behind the full blocks; finishing pads
    as the standard does. *)

(** ** The compression functions *)

Lemma constants_256 : fi_K fips_sha256 = SHA256_K /\ fi_H0 fips_sha256 = al_init sha256.
Proof. split; vm_compute; reflexivity. Qed.

Lemma constants_512 : fi_K fips_sha512 = SHA512_K /\ fi_H0 fips_sha512 = al_init sha512.
Proof. split; vm_compute; reflexivity. Qed.

Opaque root_constants root_initial.

Lemma words8_init (f : Fips) l : forallb (fun x => (0 <=? x) && (x <? 2 ^ fi_w f)) l = true -> length l = 8%nat -> words8 f l.
Proof. intros Hl Hn. split; [done|]. rewrite forallb_forall in Hl. apply Forall_forall. intros x Hx%list_elem_of_In%Hl. unfold is_word. zb. lia. Qed.

Lemma zip_plus f H v : zip_with (fun x y => wrap (fi_w f) (x + y)) H v = zip_with (plus f) H v.
Proof. done. Qed.

Lemma compress_words8 f H block : 0 < fi_w f -> words8 f H -> words8 f (compress f H block).
Proof.
  intros Hw HH. unfold compress. set (W := schedule _ _ _). clearbody W.
  assert (Hv : words8 f (fold_left (fun v '(K, W) => round f v K W) (zip (fi_K f) W) H)).
  { revert H HH. generalize (zip (fi_K f) W) as l. induction l as [|[K x] l IH]; intros v Hv; [done|].
    cbn. by apply IH, round_words8. }
  destruct Hv as [Hl _]. set (v := fold_left _ _ _) in *. clearbody v. split; [rewrite length_zip_with, (proj1 HH), Hl; done|].
  apply Forall_forall. intros x Hx. apply list_elem_of_lookup in Hx as [i Hi]. apply lookup_zip_with_Some in Hi as (y & z & -> & _).
  apply plus_word. lia.
Qed.

Section Compress.
Context (f : Fips) (block : list Z) (Hw : fi_w f = 8 * Z.of_nat (word_bytes f)) (Hpos : 0 < fi_w f)
  (Hl : length block = block_bytes f) (Hb : Forall is_byte block).

Lemma load_words_cut : load_words (word_bytes f) block = map of_big_endian (cut (word_bytes f) block).
Proof. apply load_words_eq; [lia|done|done]. Qed.

Lemma loaded_words :
  length (map of_big_endian (cut (word_bytes f) block)) = 16%nat /\
  Forall (is_word (fi_w f)) (map of_big_endian (cut (word_bytes f) block)).
Proof.
  rewrite length_map. unfold cut. rewrite length_pieces, Hl. unfold block_bytes. rewrite Nat.div_mul by lia. split; [done|].
  apply Forall_map, Forall_forall. intros l Hin. rewrite pieces_slices in Hin. apply list_elem_of_In, in_map_iff in Hin as (i & <- & Hi%in_seq).
  assert (Hlen : zlen (slice block (Z.of_nat (i * word_bytes f)) (Z.of_nat (word_bytes f))) = Z.of_nat (word_bytes f)).
  { unfold slice, zlen. rewrite length_take, length_drop, Hl, !Nat2Z.id. unfold block_bytes. nia. }
  assert (Hbl : Forall is_byte (slice block (Z.of_nat (i * word_bytes f)) (Z.of_nat (word_bytes f)))) by (by apply Forall_take, Forall_drop).
  apply of_big_endian_word in Hbl. by rewrite Hlen, <- Hw in Hbl.
Qed.

(** The window before the first round. *)
Lemma first_window n :
  let W := schedule f block n in
  length W = (16 + n)%nat /\ Forall (is_word (fi_w f)) W /\ recurs f W /\ window W 0 (map of_big_endian (cut (word_bytes f) block)).
Proof.
  destruct loaded_words as [H16 HF]. cbn zeta. split_and!; [by apply schedule_length|by apply schedule_words| |].
  { intros t Ht. rewrite schedule_length in Ht by done. by apply schedule_next. }
  split; [done|]. intros j Hj. rewrite Nat.mod_small by lia. symmetry.
  rewrite <- (Nat.add_0_r n). by rewrite schedule_prefix by (done || lia).
Qed.
End Compress.

(** The loops of both sides before round [i]. *)
Definition rounds_512 (W : list Z) (i : nat) (p : list Z * list Z) (u : list Z) : Prop :=
  window W i (fst p) /\ snd p = u /\ words8 fips_sha512 u.

Definition rounds_256 (W : list Z) (i : nat) (p : list Z * list Z) (u : list Z) : Prop :=
  window W i (fst p) /\ rotated (Z.of_nat i) (snd p) u /\ words8 fips_sha256 u.

Lemma sha512_compress H block :
  words8 fips_sha512 H -> length block = 128%nat -> Forall is_byte block ->
  sha512_process_block H block = compress fips_sha512 H block.
Proof.
  intros HH Hl Hb. unfold sha512_process_block, compress. rewrite (proj1 constants_512). cbn [length SHA512_K].
  replace (load_words 8 block) with (map of_big_endian (cut (word_bytes fips_sha512) block))
    by (symmetry; by apply (load_words_cut fips_sha512)).
  destruct (first_window fips_sha512 block eq_refl eq_refl Hl Hb 64) as (HWl & HW & Hnext & Hwin). change (80 - 16)%nat with 64%nat.
  set (W := schedule fips_sha512 block 64) in *.
  clearbody W. rewrite (fold_zip (round fips_sha512)) by (by rewrite HWl). change (length SHA512_K) with 80%nat. rewrite fold_map.
  match goal with |- (let '(_, v) := fold_left ?F _ ?init in _) = zip_with _ _ (fold_left ?G _ _) =>
    assert (HR : rounds_512 W 80 (fold_left F (seq 0 80) init) (fold_left G (seq 0 80) H)); [apply (fold_rel F G (rounds_512 W))|] end.
  - split_and!; [exact Hwin|reflexivity|exact HH].
  - intros i [w v] v' Hi (Hw & E & Hv). cbn [fst snd] in Hw, E. subst v.
    destruct (step_window fips_sha512 S512_1 S512_0 W eq_refl HW) with (i := i) (w := w) as [Hw' Hat];
      [intros x Hx; exact (proj1 (proj2 (sigma_512 x Hx)))|intros x Hx; exact (proj1 (sigma_512 x Hx))|exact Hnext|exact Hw|lia|].
    cbv zeta in *. split_and!; [exact Hw'| |by apply round_words8].
    cbn [snd]. rewrite <- byte_at_nth. cbn [fi_w fips_sha512] in Hat. rewrite Hat. by apply sha512_round_eq.
  - destruct (fold_left _ (seq 0 80) (_, H)) as [w v]. destruct HR as (_ & E & _). cbn [snd] in E. by rewrite E.
Qed.

Lemma rotated_64 v u : rotated 64 v u -> length u = 8%nat -> v = u.
Proof.
  intros [Hl Hr] Hu. apply (nth_ext _ _ 0 0); [lia|]. intros r Hrl. specialize (Hr (Z.of_nat r) ltac:(lia)).
  replace ((Z.of_nat r - 64) mod 8) with (Z.of_nat r) in Hr; [by rewrite !byte_at_nth in Hr|].
  symmetry. rewrite <- (Z.mod_add (Z.of_nat r - 64) 8 8) by lia. rewrite Z.mod_small; lia.
Qed.

Lemma sha256_compress H block :
  words8 fips_sha256 H -> length block = 64%nat -> Forall is_byte block ->
  sha256_process_block H block = compress fips_sha256 H block.
Proof.
  intros HH Hl Hb. unfold sha256_process_block, compress. rewrite (proj1 constants_256). cbn [length SHA256_K].
  replace (load_words 4 block) with (map of_big_endian (cut (word_bytes fips_sha256) block))
    by (symmetry; by apply (load_words_cut fips_sha256)).
  destruct (first_window fips_sha256 block eq_refl eq_refl Hl Hb 48) as (HWl & HW & Hnext & Hwin). change (64 - 16)%nat with 48%nat.
  set (W := schedule fips_sha256 block 48) in *.
  clearbody W. rewrite (fold_zip (round fips_sha256)) by (by rewrite HWl). change (length SHA256_K) with 64%nat. rewrite fold_map.
  match goal with |- (let '(_, v) := fold_left ?F _ ?init in _) = zip_with _ _ (fold_left ?G _ _) =>
    assert (HR : rounds_256 W 64 (fold_left F (seq 0 64) init) (fold_left G (seq 0 64) H)); [apply (fold_rel F G (rounds_256 W))|] end.
  - split_and!; [exact Hwin| |exact HH]. split; [apply HH|]. intros r Hr. cbn [snd]. by rewrite Z.sub_0_r, Z.mod_small by lia.
  - intros i [w v] v' Hi (Hw & Hrot & Hv). cbn [fst snd] in Hw, Hrot.
    destruct (step_window fips_sha256 S1 S0 W eq_refl HW) with (i := i) (w := w) as [Hw' Hat];
      [intros x Hx; exact (proj1 (proj2 (sigma_256 x Hx)))|intros x Hx; exact (proj1 (sigma_256 x Hx))|exact Hnext|exact Hw|lia|].
    cbv zeta in *. split_and!; [exact Hw'| |by apply round_words8].
    cbn [snd]. rewrite <- byte_at_nth. cbn [fi_w fips_sha256] in Hat. unfold SHA256_SCR. rewrite Hat.
    replace (Z.of_nat (S i)) with (Z.of_nat i + 1) by lia. by apply P_round.
  - destruct (fold_left _ (seq 0 64) (_, H)) as [w v]. destruct HR as (_ & E & [Hu _]). cbn [snd] in E.
    apply rotated_64 in E; [|done]. by rewrite E.
Qed.

(** * Hashes of texts

    Absorbing bytes one by one and finishing give the hash of the standard, for
    either instance. *)

(** The code's record is that instance of the standard. *)
Record agrees (a : Alg) (f : Fips) : Prop := {
  ag_word : fi_w f = 8 * Z.of_nat (word_bytes f) /\ al_word a = word_bytes f;
  ag_size : (4 <= word_bytes f <= 8)%nat;
  ag_block : al_block a = Z.of_nat (block_bytes f);
  ag_field : al_field a = Z.of_nat (block_bytes f - 2 * word_bytes f);
  ag_init : al_init a = fi_H0 f /\ words8 f (fi_H0 f);
  ag_process H block :
    words8 f H -> length block = block_bytes f -> Forall is_byte block -> al_process a H block = compress f H block
}.

Lemma sha256_agrees : agrees sha256 fips_sha256.
Proof.
  split; [done|vm_compute; lia|done|done| |exact sha256_compress]. destruct constants_256 as [_ E]. split; [done|]. rewrite E.
  by apply words8_init.
Qed.

Lemma sha512_agrees : agrees sha512 fips_sha512.
Proof.
  split; [done|vm_compute; lia|done|done| |exact sha512_compress]. destruct constants_512 as [_ E]. split; [done|]. rewrite E.
  by apply words8_init.
Qed.

(** ** Numbers of bytes *)

Lemma big_endian_split k n x :
  0 <= x < 2 ^ (8 * Z.of_nat n) -> big_endian (k + n) x = repeat 0 k ++ big_endian n x.
Proof.
  intros Hx. induction k as [|k IH]; [done|]. unfold big_endian in *. cbn [Nat.add repeat app].
  rewrite seq_S, rev_app_distr. cbn [rev app map Nat.add]. rewrite IH. f_equal.
  rewrite Z.div_small; [done|]. split; [lia|]. eapply Z.lt_le_trans; [apply Hx|]. apply Z.pow_le_mono_r; lia.
Qed.

(** A field written into a block. *)
Lemma put_field_ok {S} field : forall b i (st : S),
  0 <= i -> i + zlen field <= zlen b ->
  wp (put_field b i field) (fun b' st' => st' = st /\
    b' = take (Z.to_nat i) b ++ field ++ drop (Z.to_nat (i + zlen field)) b) st.
Proof.
  induction field as [|x field IH]; intros b i st Hi Hb; cbn [put_field].
  - apply wp_ret. split; [done|]. rewrite zlen_nil, Z.add_0_r. cbn. by rewrite take_drop.
  - rewrite zlen_cons in Hb. pose proof (zlen_nonneg field). apply wp_bind, wp_wr_word; [lia|].
    eapply wp_conseq; [apply IH; rewrite ?zlen_insert; lia|]. intros b' st' (-> & ->). split; [done|].
    replace (Z.to_nat (i + 1)) with (Datatypes.S (Z.to_nat i)) by lia.
    assert (Hlt : (Z.to_nat i < length b)%nat) by (unfold zlen in Hb; lia).
    rewrite (take_S_r _ _ x) by by rewrite list_lookup_insert_eq. rewrite take_insert_ge by lia.
    rewrite drop_insert_lt by lia. rewrite <- app_assoc, zlen_cons. cbn [app]. do 4 f_equal. lia.
Qed.

Section Stream.
Context (a : Alg) (f : Fips) (Ha : agrees a f).

Let B := block_bytes f.

(** The block starts with [pre], which is all it counts. *)
Definition holds (s : ShaState) (pre : list Z) : Prop :=
  length (sh_block s) = B /\ Forall is_byte (sh_block s) /\ take (length pre) (sh_block s) = pre /\ sh_block_len s = zlen pre.

Lemma B_bounds : (64 <= B <= 128)%nat /\ B = (16 * word_bytes f)%nat.
Proof. unfold B, block_bytes. pose proof (ag_size _ _ Ha). lia. Qed.

Lemma holds_length s pre : holds s pre -> (length pre <= B)%nat.
Proof. intros (Hl & _ & Ht & _). rewrite <- Ht, length_take. lia. Qed.

Lemma holds_full s pre : holds s pre -> length pre = B -> sh_block s = pre.
Proof. intros (Hl & _ & Ht & _) Hp. by rewrite <- Ht, take_ge by lia. Qed.

Lemma put_byte_ok {S} s pre v (st : S) :
  holds s pre -> (length pre < B)%nat -> is_byte v ->
  wp (put_byte s v) (fun s' st' => st' = st /\ holds s' (pre ++ [v]) /\ sh_h s' = sh_h s /\ sh_total_len s' = sh_total_len s) st.
Proof.
  intros (Hl & Hb & Ht & Hn) Hlt Hv. pose proof B_bounds. unfold put_byte. apply wp_bind, wp_wr_word; [rewrite Hn; unfold zlen; lia|].
  apply wp_ret. split; [done|]. split; [|done]. unfold holds. cbn. rewrite Hn. replace (Z.to_nat (zlen pre)) with (length pre) by (unfold zlen; lia).
  split_and!; [by rewrite length_insert|by apply Forall_insert|apply insert_end; [done|lia]|].
  unfold wrap. rewrite zlen_app. apply Z.mod_small. change (zlen [v]) with 1. unfold zlen. lia.
Qed.

(** ** Absorbing *)

(** The bytes [m] were absorbed: full blocks, and the rest in the buffer. *)
Definition absorbed (s : ShaState) (m : list Z) : Prop :=
  exists full rest k, m = full ++ rest /\ length full = (k * B)%nat /\ (length rest < B)%nat /\ holds s rest /\
    sh_h s = fold_left (compress f) (cut B full) (fi_H0 f).

Lemma folded_words8 l H : words8 f H -> words8 f (fold_left (compress f) l H).
Proof.
  assert (Hw : 0 < fi_w f) by (rewrite (proj1 (ag_word _ _ Ha)); pose proof (ag_size _ _ Ha); lia).
  revert H. induction l as [|b l IH]; intros H HH; [done|]. cbn. by apply IH, compress_words8.
Qed.

(** A block that is full. *)
Lemma absorb_ok s pre full k :
  holds s pre -> length pre = B -> length full = (k * B)%nat -> sh_h s = fold_left (compress f) (cut B full) (fi_H0 f) ->
  holds (absorb a s) [] /\ sh_h (absorb a s) = fold_left (compress f) (cut B (full ++ pre)) (fi_H0 f) /\
  sh_total_len (absorb a s) = sh_total_len s /\ length (full ++ pre) = (S k * B)%nat.
Proof.
  intros Hs Hp Hf Hh. pose proof B_bounds. pose proof (holds_full _ _ Hs Hp) as Hbl. destruct Hs as (Hl & Hb & _ & _).
  unfold absorb. cbn [sh_h sh_block sh_block_len sh_total_len].
  split_and!; [by split_and!| |done|rewrite length_app; lia].
  rewrite (cut_app B full pre k), (cut_one B pre), fold_left_app by (done || lia). cbn [fold_left]. rewrite <- Hh, <- Hbl.
  apply (ag_process _ _ Ha); [|done|done]. rewrite Hh. apply folded_words8, (ag_init _ _ Ha).
Qed.

Lemma update_bytes_ok {S} data : forall s m (st : S),
  absorbed s m -> Forall is_byte data ->
  wp (update_bytes a s data) (fun s' st' => st' = st /\ absorbed s' (m ++ data) /\ sh_total_len s' = sh_total_len s) st.
Proof.
  induction data as [|x data IH]; intros s m st Hs Hd; cbn [update_bytes].
  - apply wp_ret. by rewrite app_nil_r.
  - apply Forall_cons in Hd as [Hx Hd]. destruct Hs as (full & rest & k & -> & Hf & Hr & Hh & Hst).
    eapply wp_seq; [by apply (put_byte_ok s rest x st)|]. intros s1 st1 (-> & Hs1 & Hh1 & Ht1). cbn beta.
    replace ((full ++ rest) ++ x :: data) with ((full ++ rest ++ [x]) ++ data) by by rewrite <- !app_assoc.
    destruct (sh_block_len s1 =? al_block a) eqn:E; zb.
    + rewrite (ag_block _ _ Ha) in E. fold B in E. assert (Hfull : length (rest ++ [x]) = B).
      { destruct Hs1 as (_ & _ & _ & Hn). rewrite Hn in E. unfold zlen in E. lia. }
      destruct (absorb_ok s1 (rest ++ [x]) full k) as (Ha1 & Ha2 & Ha3 & Ha4); [done|done|done|by rewrite Hh1|].
      eapply wp_conseq; [apply (IH (absorb a s1) (full ++ rest ++ [x]) st); [|done]|].
      * exists (full ++ rest ++ [x]), [], (Datatypes.S k). split_and!; [by rewrite app_nil_r|done|pose proof B_bounds; cbn; lia|done|done].
      * intros s' st' (-> & Hs' & Ht'). split_and!; [done|done|congruence].
    + assert (Hlt : (length (rest ++ [x]) < B)%nat).
      { rewrite (ag_block _ _ Ha) in E. fold B in E. destruct Hs1 as (_ & _ & _ & Hn). rewrite Hn in E. unfold zlen in E.
        rewrite length_app in *. cbn in *. lia. }
      eapply wp_conseq; [apply (IH s1 (full ++ rest ++ [x]) st); [|done]|].
      * exists full, (rest ++ [x]), k. split_and!; [done|done|done|done|by rewrite Hh1].
      * intros s' st' (-> & Hs' & Ht'). split_and!; [done|done|congruence].
Qed.

(** With the count of all bytes. *)
Definition counted (s : ShaState) (m : list Z) : Prop := absorbed s m /\ sh_total_len s = zlen m mod 2 ^ 64.

Lemma update_state_ok {S} data s m (st : S) :
  counted s m -> Forall is_byte data -> wp (update_state a s data) (fun s' st' => st' = st /\ counted s' (m ++ data)) st.
Proof.
  intros [Hs Ht] Hd. unfold update_state. eapply wp_seq; [by apply (update_bytes_ok data s m st)|].
  intros s1 st1 (-> & Hs1 & Ht1). cbn beta. apply wp_ret. split; [done|]. split; [exact Hs1|]. cbn.
  rewrite Ht1, Ht, zlen_app. unfold wrap. apply Zplus_mod_idemp_l.
Qed.

Lemma init_state_ok junk : length junk = B -> Forall is_byte junk -> counted (init_state a junk) [].
Proof.
  intros Hl Hb. pose proof B_bounds. split; [|done]. exists [], [], 0%nat. split_and!; [done|done|cbn; lia|by split_and!|].
  unfold cut. cbn [sh_h init_state length]. rewrite Nat.Div0.div_0_l. apply (ag_init _ _ Ha).
Qed.

(** ** Finishing *)

Lemma zero_to_ok {S} n s pre (st : S) :
  holds s pre -> zlen pre <= n -> n <= Z.of_nat B ->
  wp (zero_to n s) (fun s' st' => st' = st /\ holds s' (pre ++ repeat 0 (Z.to_nat (n - zlen pre))) /\ sh_h s' = sh_h s /\
    sh_total_len s' = sh_total_len s) st.
Proof.
  intros Hs Hp Hn. unfold zero_to. pose proof (zlen_nonneg pre).
  apply (wp_iter (fun s1 st1 => st1 = st /\ sh_h s1 = sh_h s /\ sh_total_len s1 = sh_total_len s /\
    exists j, holds s1 (pre ++ repeat 0 j) /\ zlen pre + Z.of_nat j <= n) (fun s1 _ => Z.to_nat (n - sh_block_len s1))).
  - split_and!; [done..|]. exists 0%nat. cbn. rewrite app_nil_r. split; [done|lia].
  - destruct Hs as (_ & _ & _ & ->). lia.
  - intros s1 st1 (-> & Hh & Ht & j & Hs1 & Hj). pose proof Hs1 as (_ & _ & _ & Hl1).
    assert (Hz : zlen (pre ++ repeat 0 j) = zlen pre + Z.of_nat j) by (unfold zlen; rewrite length_app, repeat_length; lia).
    rewrite Hl1, Hz. destruct (zlen pre + Z.of_nat j <? n) eqn:E; zb.
    + eapply wp_seq; [apply (put_byte_ok s1 (pre ++ repeat 0 j) 0 st); [exact Hs1|unfold zlen in *; lia|done]|].
      intros s2 st2 (-> & Hs2 & Hh2 & Ht2). cbn beta. apply wp_ret. pose proof Hs2 as (_ & _ & _ & Hl2).
      assert (Hz2 : zlen ((pre ++ repeat 0 j) ++ [0]) = zlen pre + Z.of_nat j + 1) by (rewrite zlen_app, Hz; done).
      split; [|rewrite Hl2, Hz2; lia]. split_and!; [done|congruence|congruence|]. exists (Datatypes.S j).
      rewrite <- app_assoc in Hs2. rewrite <- repeat_cons in Hs2. split; [exact Hs2|lia].
    + apply wp_ret. split_and!; [done| |done|done]. replace (Z.to_nat (n - zlen pre)) with j by lia. done.
Qed.

(** The padding behind [rest]. *)
Definition zeros_behind (rest : list Z) : nat :=
  let field := (B - 2 * word_bytes f)%nat in
  if decide (length rest < field)%nat then (field - 1 - length rest)%nat else (B - 1 - length rest + field)%nat.

Lemma pad_zeros full rest k :
  length full = (k * B)%nat -> (length rest < B)%nat ->
  pad f (full ++ rest) = full ++ (rest ++ [0x80] ++ repeat 0 (zeros_behind rest) ++ big_endian (2 * word_bytes f) (8 * zlen (full ++ rest))).
Proof.
  intros Hf Hr. pose proof B_bounds. unfold pad. fold B. rewrite <- app_assoc. do 4 f_equal.
  unfold zeros_behind. assert (Hz : zlen (full ++ rest) = Z.of_nat (length rest) + Z.of_nat k * Z.of_nat B) by (rewrite zlen_app; unfold zlen; lia).
  replace (Z.of_nat (B - 2 * word_bytes f) - 1 - zlen (full ++ rest)) with
    (Z.of_nat (B - 2 * word_bytes f) - 1 - Z.of_nat (length rest) + (- Z.of_nat k) * Z.of_nat B) by lia.
  rewrite Z.mod_add by lia. case_decide.
  - rewrite Z.mod_small by lia. f_equal. lia.
  - rewrite <- (Z.mod_add _ 1) by lia. rewrite Z.mod_small by lia. f_equal. lia.
Qed.

(** The two words of the length. *)
Lemma length_field n :
  0 <= n < 2 ^ 61 ->
  repeat 0 (Z.to_nat (al_block a - 8 - al_field a)) ++ be_bytes 8 (wrap 64 (n mod 2 ^ 64 * 8)) = big_endian (2 * word_bytes f) (8 * n).
Proof.
  intros Hn. pose proof B_bounds. pose proof (ag_size _ _ Ha). rewrite (ag_block _ _ Ha), (ag_field _ _ Ha). fold B.
  unfold wrap. rewrite (Z.mod_small n), Z.mod_small, be_bytes_eq by lia. replace (n * 8) with (8 * n) by lia.
  set (k := Z.to_nat (Z.of_nat B - 8 - Z.of_nat (B - 2 * word_bytes f))).
  assert (Hk : (2 * word_bytes f)%nat = (k + 8)%nat) by lia. clearbody k. rewrite Hk. symmetry. apply big_endian_split. lia.
Qed.

(** The last block. *)
Lemma last_block_ok {S} s pre n (st : S) (Q : list Z -> S -> Prop) :
  holds s pre -> length pre = (B - 2 * word_bytes f)%nat -> 0 <= n < 2 ^ 61 -> sh_total_len s = n mod 2 ^ 64 ->
  words8 f (sh_h s) -> Forall is_byte pre ->
  Q (flat_map (big_endian (word_bytes f)) (compress f (sh_h s) (pre ++ big_endian (2 * word_bytes f) (8 * n)))) st ->
  wp (do b <- put_field (sh_block s) (al_field a) (repeat 0 (Z.to_nat (al_block a - 8 - al_field a)) ++ be_bytes 8 (wrap 64 (sh_total_len s * 8)));
      ret (flat_map (be_bytes (al_word a)) (al_process a (sh_h s) b))) Q st.
Proof.
  intros (Hl & Hb & Ht & Hn) Hp Hbound Htot Hw Hpre HQ. pose proof B_bounds. rewrite Htot, length_field by done.
  destruct (big_endian_bytes (2 * word_bytes f) (8 * n)) as [Hfb Hfl]. set (field := big_endian _ (8 * n)) in *. clearbody field.
  assert (Hfz : zlen field = Z.of_nat (2 * word_bytes f)) by (unfold zlen; lia).
  rewrite (ag_field _ _ Ha). fold B. eapply wp_seq; [apply put_field_ok; [lia|rewrite Hfz; unfold zlen; lia]|].
  intros b st' (-> & ->). cbn beta. apply wp_ret.
  replace (Z.to_nat (Z.of_nat (B - 2 * word_bytes f))) with (length pre) by lia. rewrite Ht.
  rewrite (drop_ge (sh_block s)), app_nil_r by lia. rewrite (ag_process _ _ Ha); [|done|rewrite length_app; fold B; lia|by apply Forall_app].
  rewrite (proj2 (ag_word _ _ Ha)). erewrite flat_map_ext; [exact HQ|]. intros x. apply be_bytes_eq.
Qed.

Lemma finish_ok {S} s m (st : S) :
  counted s m -> zlen m < 2 ^ 61 -> wp (finish a s) (fun d st' => st' = st /\ d = hash f m) st.
Proof.
  intros [(full & rest & k & -> & Hf & Hr & Hs & Hh) Htot] Hm. unfold finish. pose proof B_bounds.
  pose proof (zlen_nonneg (full ++ rest)) as Hz0.
  eapply wp_seq; [by apply (put_byte_ok s rest 0x80 st)|]. intros s1 st1 (-> & Hs1 & Hh1 & Ht1). cbn beta.
  assert (Hl1 : sh_block_len s1 = Z.of_nat (length rest) + 1).
  { destruct Hs1 as (_ & _ & _ & ->). unfold zlen. rewrite length_app. cbn. lia. }
  assert (HW : words8 f (sh_h s)) by (rewrite Hh; apply folded_words8, (ag_init _ _ Ha)).
  assert (Hrb : Forall is_byte (rest ++ [0x80])).
  { apply Forall_app. split; [|by repeat constructor]. destruct Hs as (_ & Hb & <- & _). by apply Forall_take. }
  assert (Hzb : forall j, Forall is_byte (repeat 0 j)) by (intros j; apply Forall_forall; intros x ->%list_elem_of_In%repeat_spec; done).
  assert (Hhash : hash f (full ++ rest) = flat_map (big_endian (word_bytes f))
    (fold_left (compress f) (cut B (rest ++ [0x80] ++ repeat 0 (zeros_behind rest) ++ big_endian (2 * word_bytes f) (8 * zlen (full ++ rest)))) (sh_h s))).
  { unfold hash. fold B. rewrite (pad_zeros full rest k), (cut_app B full _ k), fold_left_app, <- Hh by (done || lia). done. }
  rewrite Hl1, (ag_field _ _ Ha). fold B. unfold zeros_behind in Hhash.
  destruct (Z.of_nat (B - 2 * word_bytes f) <? Z.of_nat (length rest) + 1) eqn:E; zb.
  - rewrite decide_False in Hhash by lia. eapply wp_seq.
    { eapply wp_seq; [apply (zero_to_ok (al_block a) s1 (rest ++ [0x80]) st); [done|rewrite (ag_block _ _ Ha), zlen_app; fold B; unfold zlen; cbn; lia|rewrite (ag_block _ _ Ha); done]|].
      intros s2 st2 (-> & Hs2 & Hh2 & Ht2). cbn beta. apply wp_ret.
      instantiate (1 := fun s' st' => st' = st /\ exists s2, s' = absorb a s2 /\
        holds s2 ((rest ++ [0x80]) ++ repeat 0 (B - 1 - length rest)) /\ sh_h s2 = sh_h s /\ sh_total_len s2 = sh_total_len s).
      split; [done|]. exists s2. split_and!; [done| |congruence|congruence].
      replace (Z.to_nat (al_block a - zlen (rest ++ [0x80]))) with (B - 1 - length rest)%nat in Hs2; [done|].
      rewrite (ag_block _ _ Ha), zlen_app. fold B. unfold zlen. cbn. lia. }
    intros s2 st2 (-> & s3 & -> & Hs3 & Hh3 & Ht3). cbn beta.
    set (blk := (rest ++ [0x80]) ++ repeat 0 (B - 1 - length rest)) in *.
    assert (Hblk : length blk = B) by (unfold blk; rewrite !length_app, repeat_length; cbn; lia).
    assert (Hblkb : Forall is_byte blk) by (by apply Forall_app).
    pose proof (holds_full _ _ Hs3 Hblk) as Hb3.
    assert (Hs4 : holds (absorb a s3) []) by (destruct Hs3 as (? & ? & _); by split_and!).
    assert (Hh4 : sh_h (absorb a s3) = compress f (sh_h s) blk).
    { unfold absorb. cbn [sh_h]. rewrite Hb3, Hh3. by apply (ag_process _ _ Ha). }
    eapply wp_seq; [apply (zero_to_ok (Z.of_nat (B - 2 * word_bytes f)) (absorb a s3) [] st); [done|unfold zlen; cbn; lia|lia]|].
    intros s5 st5 (-> & Hs5 & Hh5 & Ht5). cbn beta zeta. cbn [app] in Hs5.
    assert (Htot5 : sh_total_len s5 = zlen (full ++ rest) mod 2 ^ 64) by (rewrite Ht5; cbn; congruence).
    pose proof (last_block_ok s5 _ (zlen (full ++ rest)) st (fun d st' => st' = st /\ d = hash f (full ++ rest)) Hs5) as HL.
    rewrite (ag_field _ _ Ha) in HL. fold B in HL. apply HL; [|lia|done| |done|].
    + rewrite repeat_length. unfold zlen. cbn. lia.
    + rewrite Hh5, Hh4. apply compress_words8; [rewrite (proj1 (ag_word _ _ Ha)); lia|done].
    + split; [done|]. rewrite Hhash, Hh5, Hh4. rewrite Z.sub_0_r, Nat2Z.id.
      assert (Hsplit : forall y l, rest ++ [0x80] ++ repeat 0 (B - 1 - length rest + y) ++ l = blk ++ (repeat 0 y ++ l))
        by (intros y l; unfold blk; by rewrite repeat_app, <- !app_assoc).
      rewrite Hsplit.
      rewrite (cut_app B blk _ 1), (cut_one B blk) by (done || lia).
      rewrite cut_one; [done|lia|]. rewrite length_app, repeat_length, (proj2 (big_endian_bytes _ _)). lia.
  - rewrite decide_True in Hhash by lia. apply wp_bind, wp_ret.
    eapply wp_seq; [apply (zero_to_ok (Z.of_nat (B - 2 * word_bytes f)) s1 (rest ++ [0x80]) st); [done|rewrite zlen_app; unfold zlen; cbn; lia|lia]|].
    intros s5 st5 (-> & Hs5 & Hh5 & Ht5). cbn beta zeta.
    replace (Z.to_nat (Z.of_nat (B - 2 * word_bytes f) - zlen (rest ++ [0x80]))) with (B - 2 * word_bytes f - 1 - length rest)%nat in Hs5
      by (rewrite zlen_app; unfold zlen; cbn; lia).
    pose proof (last_block_ok s5 _ (zlen (full ++ rest)) st (fun d st' => st' = st /\ d = hash f (full ++ rest)) Hs5) as HL.
    rewrite (ag_field _ _ Ha) in HL. fold B in HL. apply HL; [|lia|congruence|by rewrite Hh5, Hh1|by apply Forall_app|].
    + rewrite !length_app, repeat_length. cbn. lia.
    + split; [done|]. rewrite Hhash, Hh5, Hh1, <- !app_assoc. rewrite (cut_one B); [done|lia|].
      rewrite !length_app, repeat_length, (proj2 (big_endian_bytes _ _)). cbn. lia.
Qed.
End Stream.
