(* ===== verification/ShaProps.v ===== *)
(** * Hashes, keyed hashes and their comparison

    [crypto_sha256] and [crypto_sha512] are the hashes of FIPS 180-4, the keyed ones
    that of RFC 2104; comparison is equality, and hexadecimal texts read back. *)

From Stdlib Require Import ZArith Lia String Ascii.
From stdpp Require Import base tactics list.
From S2P Require Import Prelude ModName Heap Sha ShaSpec ShaHash.
Open Scope Z_scope.

(** ** Bytes *)

Lemma byte_lxor x b : is_byte x -> is_byte b -> is_byte (Z.lxor x b).
Proof.
  unfold is_byte. change 256 with (2 ^ 8). intros Hx Hb.
  assert (H0 : 0 <= Z.lxor x b) by (apply Z.lxor_nonneg; lia). split; [done|].
  destruct (decide (Z.lxor x b = 0)) as [->|Hne]; [done|]. apply Z.log2_lt_pow2; [lia|].
  destruct (decide (Z.log2 (Z.lxor x b) < 8)) as [|Hge]; [done|].
  pose proof (Z.bit_log2 (Z.lxor x b) ltac:(lia)) as Hbit. rewrite Z.lxor_spec, !(bits_above 8) in Hbit by (done || lia). done.
Qed.

Lemma xor_bytes b l : is_byte b -> Forall is_byte l -> Forall is_byte (xor_with b l).
Proof. intros Hb Hl. apply Forall_map. eapply Forall_impl; [exact Hl|]. intros x Hx. by apply byte_lxor. Qed.

Lemma hash_bytes f m : Forall is_byte (hash f m).
Proof.
  unfold hash. generalize (fold_left (compress f) (cut (block_bytes f) (pad f m)) (fi_H0 f)) as v.
  induction v as [|x v IH]; [constructor|]. cbn. apply Forall_app. split; [|done]. apply big_endian_bytes.
Qed.

Lemma hash_length a f m : agrees a f -> length (hash f m) = (8 * word_bytes f)%nat.
Proof.
  intros Ha. unfold hash. destruct (folded_words8 a f Ha (cut (block_bytes f) (pad f m)) (fi_H0 f)) as [Hl _]; [apply (ag_init _ _ Ha)|].
  apply length_8 in Hl as (x1 & x2 & x3 & x4 & x5 & x6 & x7 & x8 & ->). cbn [flat_map].
  rewrite !length_app, !(proj2 (big_endian_bytes _ _)). cbn. lia.
Qed.

Section Hash.
Context (a : Alg) (f : Fips) (Ha : agrees a f).

(** What the buffer of the state holds before it is written: any bytes. *)
Definition scratch (junk : list Z) : Prop := length junk = block_bytes f /\ Forall is_byte junk.

(** A text that may be NULL, absorbed. *)
Lemma update_opt_ok {S} s m (data : option (list Z)) (st : S) :
  counted f s m -> Forall is_byte (default [] data) ->
  wp (match data with Some (x :: l) => update_state a s (x :: l) | _ => ret s end)
     (fun s' st' => st' = st /\ counted f s' (m ++ default [] data)) st.
Proof.
  intros Hs Hd. destruct data as [[|x l]|]; cbn [default] in *; [|by apply update_state_ok|]; apply wp_ret; by rewrite app_nil_r.
Qed.

Lemma oneshot_ok {S} junk data (st : S) :
  scratch junk -> Forall is_byte (default [] data) -> zlen (default [] data) < 2 ^ 61 ->
  wp (oneshot a junk data) (fun d st' => st' = st /\ d = hash f (default [] data)) st.
Proof.
  intros [Hj Hb] Hd Hn. unfold oneshot.
  eapply wp_seq; [apply (update_opt_ok (init_state a junk) [] data st); [by apply init_state_ok|done]|].
  intros s st' (-> & Hs). cbn beta. cbn [app] in Hs. by apply finish_ok.
Qed.

Lemma key_block_ok {S} junk key (st : S) :
  scratch junk -> Forall is_byte (default [] key) -> zlen (default [] key) < 2 ^ 61 ->
  wp (key_block a junk key) (fun k st' => st' = st /\ k = hmac_key f (default [] key)) st.
Proof.
  intros Hj Hk Hn. unfold key_block, hmac_key. pose proof (B_bounds a f Ha). rewrite (ag_block _ _ Ha), Nat2Z.id.
  set (zeros := repeat 0 (block_bytes f)). assert (Hz : zlen zeros = Z.of_nat (block_bytes f)) by (unfold zlen, zeros; by rewrite repeat_length).
  assert (Hput : forall field, (length field <= block_bytes f)%nat ->
    wp (put_field zeros 0 field) (fun k st' => st' = st /\ k = field ++ repeat 0 (block_bytes f - length field)) st).
  { intros field Hf. eapply wp_conseq; [apply put_field_ok; [lia|rewrite Hz; unfold zlen; lia]|]. intros k st' (-> & ->). split; [done|].
    cbn [take firstn Z.to_nat]. rewrite Z.add_0_l. unfold zlen. rewrite Nat2Z.id. unfold zeros.
    replace (repeat 0 (block_bytes f)) with (repeat 0 (length field) ++ repeat 0 (block_bytes f - length field))
      by (rewrite <- repeat_app; f_equal; lia).
    by rewrite drop_app_length' by by rewrite repeat_length. }
  assert (Hnull : zeros = (if Z.of_nat (block_bytes f) <? zlen (@nil Z) then hash f [] else []) ++
    repeat 0 (block_bytes f - length (if Z.of_nat (block_bytes f) <? zlen (@nil Z) then hash f [] else []))).
  { rewrite (proj2 (Z.ltb_ge _ _)) by (unfold zlen; cbn; lia). cbn [app length]. by rewrite Nat.sub_0_r. }
  destruct key as [[|x l]|]; cbn [default] in *; [by apply wp_ret| |by apply wp_ret].
  change (id (x :: l)) with (x :: l) in *. destruct (Z.of_nat (block_bytes f) <? zlen (x :: l)) eqn:E; zb.
  - eapply wp_seq; [by apply (oneshot_ok junk (Some (x :: l)) st)|]. intros d st' (-> & ->). cbn beta.
    apply (Hput (hash f (x :: l))). rewrite (hash_length a f) by done. unfold block_bytes. lia.
  - apply Hput. unfold zlen in E. lia.
Qed.

Lemma hmac_key_ok key : Forall is_byte key -> Forall is_byte (hmac_key f key) /\ length (hmac_key f key) = block_bytes f.
Proof.
  intros Hk. pose proof (B_bounds a f Ha). unfold hmac_key.
  assert (Hz : forall j, Forall is_byte (repeat 0 j)) by (intros j; apply Forall_forall; intros x ->%list_elem_of_In%repeat_spec; done).
  split; [apply Forall_app; split; [destruct (_ <? _); [apply hash_bytes|done]|done]|].
  rewrite length_app, repeat_length. destruct (Z.of_nat (block_bytes f) <? zlen key) eqn:E; zb.
  - rewrite (hash_length a f) by done. lia.
  - unfold zlen in E. lia.
Qed.

Lemma crypto_hmac_ok {S} junk0 junk1 junk2 key data (st : S) :
  Forall scratch [junk0; junk1; junk2] -> Forall is_byte (default [] key) -> Forall is_byte (default [] data) ->
  zlen (default [] key) < 2 ^ 61 -> zlen (default [] data) < 2 ^ 60 ->
  wp (crypto_hmac a true junk0 junk1 junk2 key data) (fun r st' => st' = st /\ r = Some (hmac f (default [] key) (default [] data))) st.
Proof.
  intros Hj Hk Hd Hnk Hnd. rewrite !Forall_cons in Hj. destruct Hj as (Hj & [Hl1 Hb1] & [Hl2 Hb2] & _).
  unfold crypto_hmac. cbn [negb]. pose proof (B_bounds a f Ha).
  eapply wp_seq; [by apply (key_block_ok junk0 key st)|]. intros k st1 (-> & ->). cbn beta zeta.
  destruct (hmac_key_ok (default [] key) Hk) as [Hkb Hkl]. set (K := hmac_key f (default [] key)) in *.
  change (map (fun x => Z.lxor x 0x36) K) with (xor_with 0x36 K).
  assert (Hipad : Forall is_byte (xor_with 0x36 K)) by by apply xor_bytes.
  assert (Hlen : forall b, zlen (xor_with b K) = Z.of_nat (block_bytes f)) by (intros b; unfold xor_with, zlen; by rewrite length_map, Hkl).
  eapply wp_seq; [apply (update_state_ok a f Ha (xor_with 0x36 K) (init_state a junk1) [] st); [by apply init_state_ok|done]|].
  intros s1 st1 (-> & Hs1). cbn beta. cbn [app] in Hs1.
  eapply wp_seq; [by apply (update_opt_ok s1 (xor_with 0x36 K) data st)|]. intros s2 st2 (-> & Hs2). cbn beta.
  eapply wp_seq; [apply (finish_ok a f Ha s2 (xor_with 0x36 K ++ default [] data) st Hs2); rewrite zlen_app, Hlen; lia|]. intros inner st3 (-> & ->). cbn beta zeta.
  assert (Hopad : map (fun x => Z.lxor x (Z.lxor 0x36 0x5c)) (xor_with 0x36 K) = xor_with 0x5c K).
  { unfold xor_with. rewrite map_map. apply map_ext. intros x. rewrite Z.lxor_assoc. f_equal. }
  rewrite Hopad. assert (Hob : Forall is_byte (xor_with 0x5c K)) by by apply xor_bytes.
  eapply wp_seq; [apply (update_state_ok a f Ha (xor_with 0x5c K) (init_state a junk2) [] st); [by apply init_state_ok|done]|].
  intros s4 st4 (-> & Hs4). cbn beta. cbn [app] in Hs4.
  eapply wp_seq; [apply (update_state_ok a f Ha (hash f (xor_with 0x36 K ++ default [] data)) s4 (xor_with 0x5c K) st Hs4); apply hash_bytes|]. intros s5 st5 (-> & Hs5). cbn beta.
  eapply wp_seq.
  { apply (finish_ok a f Ha s5 (xor_with 0x5c K ++ hash f (xor_with 0x36 K ++ default [] data)) st Hs5). rewrite zlen_app, Hlen. unfold zlen. rewrite (hash_length a f) by done. lia. }
  intros mac st6 (-> & ->). cbn beta. by apply wp_ret.
Qed.
End Hash.

(** ** Comparison *)

Lemma diff_bytes_ok {S} x y : forall n i diff (st : S),
  0 <= i -> i + Z.of_nat n <= zlen x -> i + Z.of_nat n <= zlen y ->
  wp (diff_bytes x y n i diff) (fun d st' => st' = st /\ (d = 0 <-> diff = 0 /\ slice x i (Z.of_nat n) = slice y i (Z.of_nat n))) st.
Proof.
  induction n as [|n IH]; intros i diff st Hi Hx Hy; cbn [diff_bytes].
  - apply wp_ret. split; [done|]. unfold slice. cbn. tauto.
  - apply wp_bind, wp_rd; [lia|]. apply wp_bind, wp_rd; [lia|].
    eapply wp_conseq; [apply IH; lia|]. intros d st' (-> & Hd). split; [done|]. rewrite Hd, Z.lor_eq_0_iff, Z.lxor_eq_0_iff.
    assert (Hsl : forall l : list Z, i + Z.of_nat (Datatypes.S n) <= zlen l -> slice l i (Z.of_nat (Datatypes.S n)) = byte_at l i :: slice l (i + 1) (Z.of_nat n)).
    { intros l Hl. unfold slice. rewrite !Nat2Z.id. replace (Z.to_nat (i + 1)) with (Datatypes.S (Z.to_nat i)) by lia.
      destruct (drop (Z.to_nat i) l) as [|b k] eqn:E.
      { apply (f_equal length) in E. rewrite length_drop in E. unfold zlen in Hl. cbn in E. lia. }
      cbn [take firstn]. f_equal.
      - unfold byte_at. rewrite <- (take_drop (Z.to_nat i) l), E, app_nth2 by (rewrite length_take; lia).
        rewrite length_take. unfold zlen in Hl. by replace (Z.to_nat i - Nat.min (Z.to_nat i) (length l))%nat with 0%nat by lia.
      - f_equal. rewrite <- (Nat.add_1_r (Z.to_nat i)), <- drop_drop, E. done. }
    rewrite !Hsl by lia. split; [intros ((-> & ->) & ->); done|intros (-> & E); injection E; auto].
Qed.

(** The bytes of a [ByteArray]: NULL has none. *)
Definition has_bytes (x : ByteArray) (l : list Z) : Prop :=
  default [] (ba_data x) = l /\ ba_len x = zlen l.

Lemma zlen_0 {A} (l : list A) : zlen l = 0 -> l = [].
Proof. destruct l as [|x l]; [done|]. rewrite zlen_cons. pose proof (zlen_nonneg l). lia. Qed.

Lemma constanteq_ok {S} x y l k (st : S) :
  has_bytes x l -> has_bytes y k ->
  wp (crypto_constanteq x y) (fun r st' => st' = st /\ r = if decide (l = k) then 1 else 0) st.
Proof.
  intros [Hx Hlx] [Hy Hly]. unfold crypto_constanteq. rewrite Hlx, Hly.
  destruct (zlen l =? zlen k) eqn:E; cbn [negb]; zb.
  2:{ apply wp_ret. rewrite decide_False by congruence. done. }
  destruct (zlen l =? 0) eqn:E0; zb.
  { rewrite E in E0. apply zlen_0 in E0 as ->. apply zlen_0 in E as ->. by apply wp_ret. }
  assert (Hsome : forall z j, has_bytes z j -> zlen j <> 0 -> ba_data z = Some j).
  { intros z j [Hz _] Hj. destruct (ba_data z); cbn in Hz; subst; done. }
  rewrite (Hsome x l), (Hsome y k) by (done || congruence). pose proof (zlen_nonneg l).
  eapply wp_seq; [apply diff_bytes_ok; lia|]. intros d st' (-> & Hd). cbn beta. apply wp_ret. split; [done|].
  rewrite Z2Nat.id in Hd by lia. rewrite E in Hd at 2. rewrite !slice_all in Hd.
  case_decide; destruct (d =? 0) eqn:Ed; zb; tauto.
Qed.

(** ** Hexadecimal *)

Definition hex_of (b : Z) : list Z := [byte_at hex_chars (Z.land (Z.shiftr b 4) 0x0f); byte_at hex_chars (Z.land b 0x0f)].

Lemma hex_pairs_of l : Forall is_byte l -> hex_pairs (flat_map hex_of l) = Some l.
Proof.
  induction 1 as [|b l Hb Hl IH]; [done|]. cbn [flat_map hex_of app hex_pairs]. rewrite IH.
  assert (Hall : forallb (fun n => match hex_value (byte_at hex_chars (Z.land (Z.shiftr (Z.of_nat n) 4) 0x0f)),
      hex_value (byte_at hex_chars (Z.land (Z.of_nat n) 0x0f)) with
    | Some h, Some v => Z.lor (Z.shiftl h 4) v =? Z.of_nat n | _, _ => false end) (seq 0 256) = true) by (vm_compute; reflexivity).
  rewrite forallb_forall in Hall. destruct Hb as [Hb0 Hb1]. specialize (Hall (Z.to_nat b) ltac:(apply in_seq; lia)).
  rewrite Z2Nat.id in Hall by done. destruct (hex_value _); [|done]. destruct (hex_value _); [|done]. zb. by rewrite Hall.
Qed.

Lemma hex_of_length l : zlen (flat_map hex_of l) = 2 * zlen l.
Proof. induction l as [|b l IH]; [done|]. cbn [flat_map hex_of app]. rewrite !zlen_cons, IH. lia. Qed.

Lemma to_hex_ok {S} x l (st : S) :
  has_bytes x l -> wp (crypto_to_hex true x) (fun r st' => st' = st /\ r = Some (flat_map hex_of l)) st.
Proof.
  intros [Hx Hl]. unfold crypto_to_hex. destruct (ba_data x) as [p|]; cbn in Hx; [|subst; by apply wp_ret].
  unfold id in Hx. subst p. rewrite Hl. destruct (zlen l =? 0) eqn:E; zb.
  { apply zlen_0 in E as ->. by apply wp_ret. }
  cbn [negb]. pose proof (zlen_nonneg l). apply wp_bind, wp_rd_range; [lia..|]. rewrite slice_all. by apply wp_ret.
Qed.

Lemma from_hex_ok l : Forall is_byte l -> exists y, crypto_from_hex true (Some (flat_map hex_of l)) = HexBytes y /\ has_bytes y l.
Proof.
  intros Hb. unfold crypto_from_hex. rewrite hex_of_length.
  replace (2 * zlen l) with (zlen l * 2) by lia. rewrite Z_mod_mult, Z_div_mult by lia. cbn [negb Z.eqb].
  destruct (zlen l =? 0) eqn:E; zb.
  - apply zlen_0 in E as ->. by eexists.
  - rewrite hex_pairs_of by done. by eexists.
Qed.

(** ** Files *)

Lemma update_reads_ok {S} reads : forall s m (st : S),
  counted fips_sha256 s m -> Forall is_byte (concat reads) ->
  wp (update_reads s reads) (fun s' st' => st' = st /\ counted fips_sha256 s' (m ++ concat reads)) st.
Proof.
  induction reads as [|buf reads IH]; intros s m st Hs Hb; cbn [update_reads concat] in *; [apply wp_ret; by rewrite app_nil_r|].
  apply Forall_app in Hb as [Hb1 Hb2].
  eapply wp_seq; [by apply (update_state_ok sha256 fips_sha256 sha256_agrees buf s m st)|]. intros s1 st1 (-> & Hs1). cbn beta.
  rewrite app_assoc. by apply IH.
Qed.

Lemma sha256file_ok {S} junk reads (st : S) :
  scratch fips_sha256 junk -> Forall is_byte (concat reads) -> zlen (concat reads) < 2 ^ 61 ->
  wp (crypto_sha256file true junk (Some reads)) (fun r st' => st' = st /\ r = Some (flat_map hex_of (hash fips_sha256 (concat reads)))) st.
Proof.
  intros [Hj Hjb] Hb Hn. unfold crypto_sha256file.
  eapply wp_seq; [apply (update_reads_ok reads (init_state sha256 junk) [] st); [by apply (init_state_ok sha256 fips_sha256 sha256_agrees)|done]|].
  intros s st1 (-> & Hs). cbn beta. cbn [app] in Hs.
  eapply wp_seq; [by apply (finish_ok sha256 fips_sha256 sha256_agrees s (concat reads) st)|]. intros d st2 (-> & ->). cbn beta.
  apply to_hex_ok. split; [done|]. cbn [ba_len]. unfold zlen. by rewrite (hash_length _ _ _ sha256_agrees).
Qed.

Lemma same_text_ok x : forall y, same_text x y = if decide (map tolower x = map tolower y) then 1 else 0.
Proof.
  induction x as [|a x IH]; intros [|b y]; cbn [same_text map]; [by rewrite decide_True|by rewrite decide_False..|].
  destruct (tolower a =? tolower b) eqn:E; cbn [negb]; zb.
  - rewrite IH. repeat case_decide; congruence.
  - rewrite decide_False by congruence. done.
Qed.

(** Its digits have no capitals. *)
Lemma tolower_hex l : Forall is_byte l -> map tolower (flat_map hex_of l) = flat_map hex_of l.
Proof.
  induction 1 as [|b l Hb Hl IH]; [done|]. cbn [flat_map hex_of app map]. rewrite IH.
  assert (Hall : forallb (fun n => forallb (fun c => tolower c =? c) (hex_of (Z.of_nat n))) (seq 0 256) = true) by (vm_compute; reflexivity).
  rewrite forallb_forall in Hall. destruct Hb as [Hb0 Hb1]. specialize (Hall (Z.to_nat b) ltac:(apply in_seq; lia)).
  rewrite Z2Nat.id in Hall by done. cbn [forallb hex_of] in Hall. rewrite !andb_true_iff, !Z.eqb_eq in Hall. destruct Hall as (-> & -> & _). done.
Qed.

Lemma wp_eq {S A} (m : M S A) (a : A) (st : S) : wp m (fun r st' => st' = st /\ r = a) st -> m st = Ok (a, st).
Proof. intros (r & st' & H & -> & ->)%wp_ok. done. Qed.

Lemma bytes_check l : forallb (fun x => (0 <=? x) && (x <? 256)) l = true -> Forall is_byte l.
Proof.
  rewrite forallb_forall. intros H. apply Forall_forall. intros x Hx%list_elem_of_In%H.
  rewrite andb_true_iff, Z.leb_le, Z.ltb_lt in Hx. exact Hx.
Qed.

(** ** What is promised *)

Definition text_of (r : res (option (list Z) * unit)) : option (list Z) :=
  match r with Ok (Some d, _) => Some (flat_map hex_of d) | _ => None end.

(** The vectors of the standards. *)
Example abc_sha256 :
  flat_map hex_of (hash fips_sha256 (bytes_of "abc")) = bytes_of "ba7816bf8f01cfea414140de5dae2223b00361a396177a9cb410ff61f20015ad".
Proof. vm_compute. reflexivity. Qed.

Example jefe_hmac :
  flat_map hex_of (hmac fips_sha256 (bytes_of "Jefe") (bytes_of "what do ya want for nothing?")) =
  bytes_of "5bdcc146bf60754e6a042426089575c75a003f089d2739839dec58b964ec3843".
Proof. vm_compute. reflexivity. Qed.

(** C18: [crypto_sha256] and [crypto_sha512] compute the hashes of FIPS 180-4 of every
    text below 2^61 bytes, NULL being the empty one, whatever the buffer held; and
    [crypto_sha256file] the first of a file, however its reads are cut, in hexadecimal. *)
Theorem sha_fips {S} junk256 junk512 data reads (st : S) :
  scratch fips_sha256 junk256 -> scratch fips_sha512 junk512 ->
  Forall is_byte (default [] data) -> zlen (default [] data) < 2 ^ 61 -> concat reads = default [] data ->
  crypto_sha256 true junk256 data st = Ok (Some (hash fips_sha256 (default [] data)), st) /\
  crypto_sha512 true junk512 data st = Ok (Some (hash fips_sha512 (default [] data)), st) /\
  crypto_sha256file true junk256 (Some reads) st = Ok (Some (flat_map hex_of (hash fips_sha256 (default [] data))), st).
Proof.
  intros Hj Hj' Hb Hn Hr. split_and!; apply wp_eq.
  - eapply wp_seq; [by apply (oneshot_ok sha256 fips_sha256 sha256_agrees junk256 data st)|]. intros d st' (-> & ->). by apply wp_ret.
  - eapply wp_seq; [by apply (oneshot_ok sha512 fips_sha512 sha512_agrees junk512 data st)|]. intros d st' (-> & ->). by apply wp_ret.
  - rewrite <- Hr. apply sha256file_ok; [done|by rewrite Hr..].
Qed.

Lemma sha_fips_witness :
  text_of (crypto_sha256 true (repeat 7 64) (Some (bytes_of "abc")) tt) =
    Some (bytes_of "ba7816bf8f01cfea414140de5dae2223b00361a396177a9cb410ff61f20015ad").
Proof.
  destruct (sha_fips (repeat 7 64) (repeat 9 128) (Some (bytes_of "abc")) [bytes_of "a"; bytes_of "bc"] tt) as (-> & _ & _).
  - split; [reflexivity|by apply bytes_check].
  - split; [reflexivity|by apply bytes_check].
  - by apply bytes_check.
  - vm_compute. reflexivity.
  - reflexivity.
  - exact (f_equal Some abc_sha256).
Defined.

(** C21: [crypto_hmac_sha256] and [crypto_hmac_sha512] compute the keyed hash of RFC 2104
    for every key and text, keys longer than a block included. *)
Theorem hmac_rfc2104 {S} a f junk0 junk1 junk2 key data (st : S) :
  (a, f) ∈ [(sha256, fips_sha256); (sha512, fips_sha512)] -> Forall (scratch f) [junk0; junk1; junk2] ->
  Forall is_byte (default [] key) -> Forall is_byte (default [] data) ->
  zlen (default [] key) < 2 ^ 61 -> zlen (default [] data) < 2 ^ 60 ->
  crypto_hmac a true junk0 junk1 junk2 key data st = Ok (Some (hmac f (default [] key) (default [] data)), st).
Proof.
  intros Haf Hj Hk Hd Hnk Hnd. apply wp_eq, crypto_hmac_ok; [|done..].
  rewrite !elem_of_cons in Haf. destruct Haf as [[= -> ->]|[[= -> ->]|[]%not_elem_of_nil]]; [exact sha256_agrees|exact sha512_agrees].
Qed.

Lemma hmac_rfc2104_witness :
  text_of (crypto_hmac_sha256 true (repeat 7 64) (repeat 8 64) (repeat 9 64) (Some (bytes_of "Jefe")) (Some (bytes_of "what do ya want for nothing?")) tt) =
    Some (bytes_of "5bdcc146bf60754e6a042426089575c75a003f089d2739839dec58b964ec3843").
Proof.
  unfold crypto_hmac_sha256.
  rewrite (hmac_rfc2104 sha256 fips_sha256 (repeat 7 64) (repeat 8 64) (repeat 9 64) (Some (bytes_of "Jefe"))
             (Some (bytes_of "what do ya want for nothing?")) tt).
  - exact (f_equal Some jefe_hmac).
  - apply list_elem_of_here.
  - repeat (constructor; [split; [reflexivity|by apply bytes_check]|]). constructor.
  - by apply bytes_check.
  - by apply bytes_check.
  - vm_compute. reflexivity.
  - vm_compute. reflexivity.
Defined.

(** C9: [crypto_constanteq] is equality of the bytes; hexadecimal texts read back as the
    bytes they were written for; and [crypto_sha256verify] answers 1 for exactly the
    texts that are, up to case, the hash of the file. *)
Theorem digests_compare {S} x y l k junk reads expected (st : S) :
  has_bytes x l -> has_bytes y k -> Forall is_byte l ->
  scratch fips_sha256 junk -> Forall is_byte (concat reads) -> zlen (concat reads) < 2 ^ 61 ->
  crypto_constanteq x y st = Ok (if decide (l = k) then 1 else 0, st) /\
  (exists t z, crypto_to_hex true x st = Ok (Some t, st) /\ crypto_from_hex true (Some t) = HexBytes z /\ has_bytes z l) /\
  crypto_sha256verify true junk (Some reads) (Some expected) st =
    Ok (if decide (map tolower expected = flat_map hex_of (hash fips_sha256 (concat reads))) then 1 else 0, st).
Proof.
  intros Hx Hy Hl Hj Hr Hn. split_and!; [by apply wp_eq, constanteq_ok| |].
  - destruct (from_hex_ok l Hl) as (z & Hz1 & Hz2). exists (flat_map hex_of l), z. split_and!; [by apply wp_eq, to_hex_ok|done|done].
  - apply wp_eq. eapply wp_seq; [by apply sha256file_ok|]. intros t st' (-> & ->). cbn beta iota. apply wp_ret. split; [done|].
    rewrite same_text_ok, tolower_hex by apply hash_bytes. repeat case_decide; congruence.
Qed.

Lemma digests_compare_witness :
  crypto_constanteq (mkBytes (Some [1; 2]) 2) (mkBytes (Some [1; 3]) 2) tt = Ok (0, tt) /\
  crypto_sha256verify true (repeat 7 64) (Some [bytes_of "a"; bytes_of "bc"])
    (Some (bytes_of "BA7816bf8f01cfea414140de5dae2223b00361a396177a9cb410ff61f20015ad")) tt = Ok (1, tt).
Proof.
  destruct (digests_compare (mkBytes (Some [1; 2]) 2) (mkBytes (Some [1; 3]) 2) [1; 2] [1; 3] (repeat 7 64) [bytes_of "a"; bytes_of "bc"]
    (bytes_of "BA7816bf8f01cfea414140de5dae2223b00361a396177a9cb410ff61f20015ad") tt) as (-> & _ & ->).
  - by split.
  - by split.
  - by apply bytes_check.
  - split; [reflexivity|by apply bytes_check].
  - by apply bytes_check.
  - vm_compute. reflexivity.
  - split; [reflexivity|]. rewrite decide_True; [reflexivity|]. etransitivity; [|symmetry; exact abc_sha256]. vm_compute. reflexivity.
Defined.
