(* ===== verification/Json.v ===== *)
(** * JSON texts

    A reader of the texts of RFC 8259 that reports and dumps are for, and what it
    reads, as rules that follow a text from left to right.  Numbers are integers:
    the reader refuses a fraction and an exponent, and a pair of surrogates.  It reads
    bytes, any from 32 on in a string: that a text is UTF-8 is [utf8_valid]. *)

From Stdlib Require Import ZArith Lia String Ascii.
From stdpp Require Import base tactics list.
From S2P Require Import Prelude CStr EncUtf8.
Open Scope Z_scope.

#[warnings="-register-all"]
Inductive json :=
  | JNull
  | JBool (b : bool)
  | JNumber (z : Z)
  | JString (s : list Z)
  | JArray (l : list json)
  | JObject (m : list (list Z * json)).

(** ** Reading *)

Definition ws (c : Z) : bool := (c =? 32) || (c =? 9) || (c =? 10) || (c =? 13).
Definition skip : list Z -> list Z := drop_while ws.

Definition digit (c : Z) : bool := (chr "0" <=? c) && (c <=? chr "9").

Definition hex_char (c : Z) : option Z :=
  if digit c then Some (c - 48)
  else if (chr "a" <=? c) && (c <=? chr "f") then Some (c - 87)
  else if (chr "A" <=? c) && (c <=? chr "F") then Some (c - 55)
  else None.

(** The character an escape of one letter stands for. *)
Definition unescape (e : Z) : option Z :=
  if (e =? 34) || (e =? 92) || (e =? 47) then Some e
  else if e =? chr "b" then Some 8
  else if e =? chr "f" then Some 12
  else if e =? chr "n" then Some 10
  else if e =? chr "r" then Some 13
  else if e =? chr "t" then Some 9
  else None.

Definition before (l : list Z) (r : option (list Z * list Z)) : option (list Z * list Z) :=
  match r with Some (v, r) => Some (l ++ v, r) | None => None end.

(** The characters of a string up to its quote, and what is behind. *)
Fixpoint chars (s : list Z) : option (list Z * list Z) :=
  match s with
  | [] => None
  | c :: s =>
      if c =? 34 then Some ([], s)
      else if c =? 92 then
        match s with
        | e :: s =>
            if e =? chr "u" then
              match s with
              | x1 :: x2 :: x3 :: x4 :: s =>
                  match hex_char x1, hex_char x2, hex_char x3, hex_char x4 with
                  | Some d1, Some d2, Some d3, Some d4 =>
                      let u := ((d1 * 16 + d2) * 16 + d3) * 16 + d4 in
                      if (0xd800 <=? u) && (u <? 0xe000) then None else before (utf8_enc u) (chars s)
                  | _, _, _, _ => None
                  end
              | _ => None
              end
            else match unescape e with Some c => before [c] (chars s) | None => None end
        | [] => None
        end
      else if c <? 32 then None
      else before [c] (chars s)
  end.

(** The digits at the front of a text, behind the number [a]. *)
Fixpoint digits (a : Z) (s : list Z) : Z * list Z :=
  match s with
  | c :: s' => if digit c then digits (10 * a + (c - 48)) s' else (a, s)
  | [] => (a, [])
  end.

(** No digit, fraction or exponent follows. *)
Definition ends (s : list Z) : bool :=
  match s with
  | c :: _ => negb (digit c || (c =? chr ".") || (c =? chr "e") || (c =? chr "E"))
  | [] => true
  end.

(** A natural number, with no zero in front. *)
Definition natural (s : list Z) : option (Z * list Z) :=
  match s with
  | c :: s' =>
      if digit c then
        let (z, r) := if c =? chr "0" then (0, s') else digits 0 s in
        if ends r then Some (z, r) else None
      else None
  | [] => None
  end.

Definition number (s : list Z) : option (json * list Z) :=
  match s with
  | c :: s' =>
      if c =? chr "-" then match natural s' with Some (z, r) => Some (JNumber (- z), r) | None => None end
      else match natural s with Some (z, r) => Some (JNumber z, r) | None => None end
  | [] => None
  end.

Definition word (w : list Z) (v : json) (s : list Z) : option (json * list Z) :=
  if starts_with w s then Some (v, drop (length w) s) else None.

Definition literal (s : list Z) : option (json * list Z) :=
  match word (bytes_of "null") JNull s, word (bytes_of "true") (JBool true) s with
  | Some r, _ | None, Some r => Some r
  | None, None => word (bytes_of "false") (JBool false) s
  end.

(** Every second call reads a character. *)
Fixpoint value (n : nat) (s : list Z) : option (json * list Z) :=
  match n with
  | O => None
  | S n =>
      match skip s with
      | [] => None
      | c :: r =>
          if c =? 34 then match chars r with Some (v, r) => Some (JString v, r) | None => None end
          else if c =? chr "{" then
            match skip r with
            | d :: r' =>
                if d =? chr "}" then Some (JObject [], r')
                else match members n r with Some (m, r) => Some (JObject m, r) | None => None end
            | [] => None
            end
          else if c =? chr "[" then
            match skip r with
            | d :: r' =>
                if d =? chr "]" then Some (JArray [], r')
                else match items n r with Some (l, r) => Some (JArray l, r) | None => None end
            | [] => None
            end
          else if digit c || (c =? chr "-") then number (c :: r)
          else literal (c :: r)
      end
  end
with members (n : nat) (s : list Z) : option (list (list Z * json) * list Z) :=
  match n with
  | O => None
  | S n =>
      match skip s with
      | [] => None
      | c :: r =>
          if c =? 34 then
            match chars r with
            | None => None
            | Some (k, r) =>
                match skip r with
                | [] => None
                | c :: r =>
                    if c =? chr ":" then
                      match value n r with
                      | None => None
                      | Some (v, r) =>
                          match skip r with
                          | [] => None
                          | c :: r =>
                              if c =? chr "," then
                                match members n r with Some (m, r) => Some ((k, v) :: m, r) | None => None end
                              else if c =? chr "}" then Some ([(k, v)], r)
                              else None
                          end
                      end
                    else None
                end
            end
          else None
      end
  end
with items (n : nat) (s : list Z) : option (list json * list Z) :=
  match n with
  | O => None
  | S n =>
      match value n s with
      | None => None
      | Some (v, r) =>
          match skip r with
          | [] => None
          | c :: r =>
              if c =? chr "," then match items n r with Some (l, r) => Some (v :: l, r) | None => None end
              else if c =? chr "]" then Some ([v], r)
              else None
          end
      end
  end.

(** A text that is one value, with white space around it. *)
Definition json_text (s : list Z) : option json :=
  match value (2 * length s + 1) s with
  | Some (v, r) => match skip r with [] => Some v | _ => None end
  | None => None
  end.

(** ** What is read

    [s] starts with a value, members up to a brace or items up to a bracket, and
    [r] is left. *)

Definition reads_with {A} (c : nat) (f : nat -> list Z -> option (A * list Z)) (s : list Z) (v : A) (r : list Z) : Prop :=
  (length r < length s)%nat /\ forall n, (2 * length s + c < n)%nat -> f n s = Some (v, r).

Abbreviation reads := (reads_with 0).

Lemma json_text_reads s v : reads value s v [] -> json_text s = Some v.
Proof. intros [_ H]. unfold json_text. by rewrite H by lia. Qed.

Lemma skip_length s : (length (skip s) <= length s)%nat.
Proof. induction s as [|c s IH]; cbn; [done|]. destruct (ws c); cbn; lia. Qed.

Lemma skip_ws w s : forallb ws w = true -> skip (w ++ s) = skip s.
Proof. induction w as [|c w IH]; cbn; [done|]. intros [-> Hw]%andb_prop. by apply IH. Qed.

Lemma skip_idem s : skip (skip s) = skip s.
Proof.
  induction s as [|c s IH]; [done|]. unfold skip. cbn [drop_while].
  destruct (ws c) eqn:E; [done|]. cbn [drop_while]. by rewrite E.
Qed.

(** White space in front is read over. *)
Class Skips {A} (f : nat -> list Z -> option (A * list Z)) : Prop := skips n s : f n s = f n (skip s).

#[global] Instance value_skips : Skips value.
Proof. intros [|n] s; [done|]. cbn [value]. by rewrite skip_idem. Qed.

#[global] Instance members_skips : Skips members.
Proof. intros [|n] s; [done|]. cbn [members]. by rewrite skip_idem. Qed.

#[global] Instance items_skips : Skips items.
Proof. intros [|n] s; [done|]. cbn [items]. by rewrite skips. Qed.

Lemma reads_ws `{Skips A f} c w s v r : forallb ws w = true -> reads_with c f s v r -> reads_with c f (w ++ s) v r.
Proof.
  intros Hw [Hl Hr]. split; [rewrite length_app; lia|]. intros n Hn. rewrite length_app in Hn.
  rewrite skips, skip_ws, <- skips by done. apply Hr. lia.
Qed.

Lemma chars_length s : forall v r, chars s = Some (v, r) -> (length r < length s)%nat.
Proof.
  induction s as [s IH] using (induction_ltof1 _ (@length Z)). unfold ltof in IH. intros v r.
  assert (Hb : forall l k v r, before l (chars k) = Some (v, r) -> (length k < length s)%nat -> (length r < length k)%nat).
  { intros l k v' r' E Hk. unfold before in E. destruct (chars k) as [[v0 r0]|] eqn:E0; [|done]. injection E as _ ->. by eapply IH. }
  destruct s as [|c s]; [done|]. cbn [chars]. repeat case_match; intros E; try done; simplify_eq/=; try lia.
  all: apply Hb in E; cbn in *; lia.
Qed.

(** ** Rules *)

Lemma skip_head c s : ws c = false -> skip (c :: s) = c :: s.
Proof. intros H. unfold skip. cbn [drop_while]. by rewrite H. Qed.

(** Comparisons of given characters. *)
Ltac known :=
  repeat match goal with
    | |- context [?a =? ?b] => let v := eval vm_compute in (a =? b) in
        match v with true => change (a =? b) with true | false => change (a =? b) with false end
    end; cbv iota.

Lemma read_string s v r : chars s = Some (v, r) -> reads value (34 :: s) (JString v) r.
Proof.
  intros H. pose proof (chars_length _ _ _ H). split; [cbn; lia|]. intros [|n] Hn; [lia|]. cbn [value].
  rewrite skip_head by done. known. by rewrite H.
Qed.

(** The quote that starts a member is no white space and no brace. *)
Lemma members_head n s m r : members n s = Some (m, r) -> exists s', skip s = 34 :: s'.
Proof.
  destruct n as [|n]; [done|]. cbn [members]. destruct (skip s) as [|c s']; [done|].
  destruct (c =? 34) eqn:E; [|done]. zb. subst. eauto.
Qed.

Lemma read_object s m r : reads members s m r -> reads value (chr "{" :: s) (JObject m) r.
Proof.
  intros [Hl Hr]. split; [cbn; lia|]. intros [|n] Hn; [lia|]. cbn [value]. rewrite skip_head by done. known.
  cbn [length] in Hn. pose proof (Hr n ltac:(lia)) as E. destruct (members_head _ _ _ _ E) as [s' ->]. known. by rewrite E.
Qed.

Lemma read_no_members s s' : skip s = chr "}" :: s' -> reads value (chr "{" :: s) (JObject []) s'.
Proof.
  intros H. pose proof (skip_length s) as Hl. rewrite H in Hl. cbn in Hl. split; [cbn; lia|].
  intros [|n] Hn; [lia|]. cbn [value]. rewrite skip_head by done. known. rewrite H. by known.
Qed.

(** The rest of a member behind its name: a colon, a value, and a comma or the brace. *)
Lemma read_member s k s1 s2 v s3 s4 m r :
  chars s = Some (k, s1) -> skip s1 = chr ":" :: s2 -> reads value s2 v s3 -> skip s3 = chr "," :: s4 -> reads members s4 m r ->
  reads members (34 :: s) ((k, v) :: m) r.
Proof.
  intros Hk H1 [Hl2 H2] H3 [Hl4 H4]. pose proof (chars_length _ _ _ Hk). pose proof (skip_length s1) as L1. rewrite H1 in L1.
  pose proof (skip_length s3) as L3. rewrite H3 in L3. cbn [length] in *. split; [cbn [length]; lia|]. intros [|n] Hn; [lia|]. cbn [length] in Hn. cbn [members].
  rewrite skip_head by done. known. rewrite Hk, H1. known. rewrite H2 by lia. rewrite H3. known. by rewrite H4 by lia.
Qed.

Lemma read_last_member s k s1 s2 v s3 r :
  chars s = Some (k, s1) -> skip s1 = chr ":" :: s2 -> reads value s2 v s3 -> skip s3 = chr "}" :: r ->
  reads members (34 :: s) [(k, v)] r.
Proof.
  intros Hk H1 [Hl2 H2] H3. pose proof (chars_length _ _ _ Hk). pose proof (skip_length s1) as L1. rewrite H1 in L1.
  pose proof (skip_length s3) as L3. rewrite H3 in L3. cbn [length] in *. split; [cbn [length]; lia|]. intros [|n] Hn; [lia|]. cbn [length] in Hn. cbn [members].
  rewrite skip_head by done. known. rewrite Hk, H1. known. rewrite H2 by lia. rewrite H3. by known.
Qed.

Lemma read_item s v s1 s2 l r :
  reads value s v s1 -> skip s1 = chr "," :: s2 -> reads_with 1 items s2 l r -> reads_with 1 items s (v :: l) r.
Proof.
  intros [Hl H] H1 [Hl2 H2]. pose proof (skip_length s1) as L1. rewrite H1 in L1. cbn [length] in *. split; [lia|].
  intros [|n] Hn; [lia|]. cbn [items]. rewrite H by lia. rewrite H1. known. by rewrite H2 by lia.
Qed.

Lemma read_last_item s v s1 r : reads value s v s1 -> skip s1 = chr "]" :: r -> reads_with 1 items s [v] r.
Proof.
  intros [Hl H] H1. pose proof (skip_length s1) as L1. rewrite H1 in L1. cbn [length] in *. split; [lia|].
  intros [|n] Hn; [lia|]. cbn [items]. rewrite H by lia. rewrite H1. by known.
Qed.

Lemma natural_length s z r : natural s = Some (z, r) -> (length r < length s)%nat.
Proof.
  destruct s as [|c s]; [done|]. cbn [natural]. destruct (digit c) eqn:E; [|done].
  assert (Hd : forall k a, (length (digits a k).2 <= length k)%nat).
  { induction k as [|x k IH]; intros a; cbn; [done|]. destruct (digit x); cbn; [|lia]. specialize (IH (10 * a + (x - 48))). lia. }
  destruct (c =? chr "0"); [intros; case_match; simplify_eq; cbn; lia|].
  cbn [digits]. rewrite E. pose proof (Hd s (10 * 0 + (c - 48))). destruct (digits _ s). cbn in *. intros. case_match; simplify_eq. lia.
Qed.

Lemma read_number s z r : number s = Some (JNumber z, r) -> reads value s (JNumber z) r.
Proof.
  intros H. destruct s as [|c s]; [done|]. assert (Hc : digit c || (c =? chr "-") = true /\ (length r < length (c :: s))%nat).
  { cbn [number] in H. destruct (c =? chr "-"); [rewrite orb_true_r|rewrite orb_false_r].
    - destruct (natural s) as [[z' r']|] eqn:E; [|done]. injection H as _ ->. apply natural_length in E. cbn. split; [done|lia].
    - destruct (natural (c :: s)) as [[z' r']|] eqn:E; [|done]. injection H as _ ->. pose proof (natural_length _ _ _ E).
      split; [|done]. cbn [natural] in E. by destruct (digit c). }
  destruct Hc as [Hc Hl]. split; [done|]. intros [|n] Hn; [lia|]. cbn [value].
  assert (Hws : ws c = false) by (unfold digit, ws in *; lia).
  unfold skip. cbn [drop_while]. rewrite Hws. rewrite Hc. unfold digit in Hc.
  rewrite (proj2 (Z.eqb_neq c 34)), (proj2 (Z.eqb_neq c _)), (proj2 (Z.eqb_neq c _)) by lia. done.
Qed.

Lemma items_head n s l r : items n s = Some (l, r) -> exists c s', skip s = c :: s' /\ c <> chr "]".
Proof.
  destruct n as [|[|n]]; [done|done|]. cbn [items value]. destruct (skip s) as [|c s']; [done|].
  intros H. exists c, s'. split; [done|]. intros ->. revert H. known. cbn. unfold literal, word. cbn. done.
Qed.

Lemma read_array s l r : reads_with 1 items s l r -> reads value (chr "[" :: s) (JArray l) r.
Proof.
  intros [Hl Hr]. split; [cbn; lia|]. intros [|n] Hn; [lia|]. cbn [value]. rewrite skip_head by done. known.
  cbn [length] in Hn. pose proof (Hr n ltac:(lia)) as E. destruct (items_head _ _ _ _ E) as (c & s' & -> & Hc).
  rewrite (proj2 (Z.eqb_neq _ _) Hc). by rewrite E.
Qed.

Lemma read_no_items s s' : skip s = chr "]" :: s' -> reads value (chr "[" :: s) (JArray []) s'.
Proof.
  intros H. pose proof (skip_length s) as Hl. rewrite H in Hl. cbn in Hl. split; [cbn; lia|].
  intros [|n] Hn; [lia|]. cbn [value]. rewrite skip_head by done. known. rewrite H. by known.
Qed.

Lemma read_null s : reads value (bytes_of "null" ++ s) JNull s.
Proof. split; [rewrite length_app; cbn; lia|]. intros [|n] Hn; [lia|]. done. Qed.
