(* ===== verification/Report.v ===== *)
(** * The texts of diagnostics: [src/src/diag.c]

    The three formats: JSON lines and text on the error stream as they come, SARIF
    buffered and written at the end.  [Diag] has the same state without texts. *)

From Stdlib Require Import ZArith Lia String Ascii.
From stdpp Require Import base tactics list.
From S2P Require Import Prelude CStr Diag Ir.
Open Scope Z_scope.

(** ** [printf] *)

(** The digits of a number that is not negative. *)
Fixpoint nat_text (fuel : nat) (z : Z) : list Z :=
  match fuel with
  | O => []
  | S n => (if z <? 10 then [] else nat_text n (z / 10)) ++ [chr "0" + z mod 10]
  end.

Definition udec (z : Z) : list Z := nat_text (S (Z.to_nat (Z.log2 z))) z.

(** [%d] and [%04d]. *)
Definition dec (z : Z) : list Z := if z <? 0 then chr "-" :: udec (- z) else udec z.
Definition zeros_to (n : Z) (l : list Z) : list Z := repeat (chr "0") (Z.to_nat (n - zlen l)) ++ l.
Definition dec04 (z : Z) : list Z := if z <? 0 then chr "-" :: zeros_to 3 (udec (- z)) else zeros_to 4 (udec z).

(** [%04x] of a number below 2^16. *)
Definition hex04 (z : Z) : list Z := map (fun k => hex_digit (Z.shiftr z k mod 16)) [12; 8; 4; 0].

(** [%*s] with an empty string. *)
Definition spaces (n : Z) : list Z := repeat 32 (Z.to_nat n).

(** ** State *)

Inductive DiagMode := DIAG_MODE_JSON | DIAG_MODE_TEXT.
Inductive DiagFormat := DIAG_FMT_TEXT | DIAG_FMT_JSON | DIAG_FMT_SARIF.

Record SarifEntry := mkEntry {
  e_severity : DiagSeverity;
  e_code : Z;
  e_line : Z;
  e_col : Z;
  e_byte_offset : Z;
  e_span_start : Z;
  e_span_end : Z;
  e_message : list Z;
  e_fix : list Z
}.

(** The statics, and what the error stream and the output have received. *)
Record Report := mkReport {
  r_int_mode : DiagIntMode;
  r_mode : DiagMode;
  r_error_count : Z;
  r_warn_count : Z;
  r_seq : Z;
  r_suppress : bool;
  r_source_file : list Z;
  r_source : option (list Z);
  r_sarif_buf : list SarifEntry;
  r_stderr : list Z;
  r_stdout : list Z
}.

Definition report_init : Report := mkReport DIAG_INT_JSON DIAG_MODE_JSON 0 0 0 false [] None [] [] [].

Definition RM (A : Type) : Type := M Report A.

Definition set_modes (i : DiagIntMode) (m : DiagMode) (r : Report) : Report :=
  mkReport i m (r_error_count r) (r_warn_count r) (r_seq r) (r_suppress r) (r_source_file r) (r_source r)
    (r_sarif_buf r) (r_stderr r) (r_stdout r).
Definition set_counts (e w q : Z) (r : Report) : Report :=
  mkReport (r_int_mode r) (r_mode r) e w q (r_suppress r) (r_source_file r) (r_source r)
    (r_sarif_buf r) (r_stderr r) (r_stdout r).
Definition set_suppress (b : bool) (r : Report) : Report :=
  mkReport (r_int_mode r) (r_mode r) (r_error_count r) (r_warn_count r) (r_seq r) b (r_source_file r) (r_source r)
    (r_sarif_buf r) (r_stderr r) (r_stdout r).
Definition set_sources (f : list Z) (s : option (list Z)) (r : Report) : Report :=
  mkReport (r_int_mode r) (r_mode r) (r_error_count r) (r_warn_count r) (r_seq r) (r_suppress r) f s
    (r_sarif_buf r) (r_stderr r) (r_stdout r).
Definition set_sarif (l : list SarifEntry) (r : Report) : Report :=
  mkReport (r_int_mode r) (r_mode r) (r_error_count r) (r_warn_count r) (r_seq r) (r_suppress r) (r_source_file r) (r_source r)
    l (r_stderr r) (r_stdout r).

(** [fputs(s, stderr)], [fputs(s, stdout)]. *)
Definition add_err (s : list Z) (r : Report) : Report :=
  mkReport (r_int_mode r) (r_mode r) (r_error_count r) (r_warn_count r) (r_seq r) (r_suppress r)
    (r_source_file r) (r_source r) (r_sarif_buf r) (r_stderr r ++ s) (r_stdout r).
Definition add_out (s : list Z) (r : Report) : Report :=
  mkReport (r_int_mode r) (r_mode r) (r_error_count r) (r_warn_count r) (r_seq r) (r_suppress r)
    (r_source_file r) (r_source r) (r_sarif_buf r) (r_stderr r) (r_stdout r ++ s).
Definition put_err (s : list Z) : RM unit := modify (add_err s).
Definition put_out (s : list Z) : RM unit := modify (add_out s).

Definition diag_set_mode (mode : DiagMode) : RM unit :=
  modify (set_modes (match mode with DIAG_MODE_TEXT => DIAG_INT_TEXT | DIAG_MODE_JSON => DIAG_INT_JSON end) mode).

Definition diag_set_format (fmt : DiagFormat) : RM unit :=
  match fmt with
  | DIAG_FMT_SARIF => modify (set_modes DIAG_INT_SARIF DIAG_MODE_JSON)
  | DIAG_FMT_JSON => modify (set_modes DIAG_INT_JSON DIAG_MODE_JSON)
  | DIAG_FMT_TEXT => modify (set_modes DIAG_INT_TEXT DIAG_MODE_TEXT)
  end.

(** A NULL path is an empty one. *)
Definition diag_set_source_file (path : option (list Z)) : RM unit :=
  modify (fun r => set_sources (default [] path) (r_source r) r).
Definition diag_set_source (src : option (list Z)) : RM unit := modify (fun r => set_sources (r_source_file r) src r).

Definition diag_error_count : RM Z := gets r_error_count.
Definition diag_reset : RM unit := modify (set_counts 0 0 0).
Definition diag_suppress_texts (on : bool) : RM unit := modify (set_suppress on).
Definition diag_reset_counts : RM unit := modify (fun r => set_counts 0 0 (r_seq r) r).

(** ** The line of an offset *)

(** What is copied into the buffer of [buf_size] bytes, or -1 ([None]). *)
Definition extract_source_line (byte_offset buf_size : Z) : RM (option (list Z)) :=
  do src <- gets r_source;
  match src with
  | Some buf =>
      if (zlen buf =? 0) || (byte_offset <? 0) || (buf_size =? 0) then ret None
      else
        let off := if zlen buf <? byte_offset then zlen buf else byte_offset in
        do ls <- iter (S (Z.to_nat off)) (fun ls =>
            if 0 <? ls then
              do c <- rd buf (ls - 1);
              ret (if c =? 10 then inr ls else inl (ls - 1))
            else ret (inr ls)) off;
        do le <- iter (S (Z.to_nat (zlen buf - off))) (fun le =>
            if le <? zlen buf then
              do c <- rd buf le;
              ret (if (c =? 10) || (c =? 13) then inr le else inl (le + 1))
            else ret (inr le)) off;
        let line_len := if buf_size <=? le - ls then buf_size - 1 else le - ls in
        do l <- rd_range buf ls line_len;
        ret (Some l)
  | None => ret None
  end.

(** ** Fields *)

Record DiagFields := mkFields { f_fix : option (list Z); f_expected : option (list Z); f_got : option (list Z) }.

Definition set_field (key : list Z) (v : option (list Z)) (f : DiagFields) : DiagFields :=
  if bytes_eqb key (bytes_of "fix") then mkFields v (f_expected f) (f_got f)
  else if bytes_eqb key (bytes_of "expected") then mkFields (f_fix f) v (f_got f)
  else if bytes_eqb key (bytes_of "got") then mkFields (f_fix f) (f_expected f) v
  else f.

(** The arguments behind the message; none may be asked for behind the last. *)
Fixpoint extract_fields (f : DiagFields) (ap : list (option (list Z))) : RM DiagFields :=
  match ap with
  | [] => oob
  | None :: _ => ret f
  | Some key :: ap =>
      match ap with
      | [] => oob
      | None :: _ => ret (set_field key None f)
      | Some v :: ap => extract_fields (set_field key (Some v) f) ap
      end
  end.

(** ** JSON *)

Definition escape_char (c : Z) : list Z :=
  if c =? 34 then lit "\'"
  else if c =? 92 then lit "\\"
  else if c =? 10 then lit "\n"
  else if c =? 13 then lit "\r"
  else if c =? 9 then lit "\t"
  else if c <? 32 then lit "\u" ++ hex04 c
  else [c].

(** Up to the end of the string. *)
Definition json_escape (s : list Z) : list Z := flat_map escape_char (until_nul s).

Definition severity_str (sev : DiagSeverity) : list Z :=
  match sev with DIAG_ERROR => bytes_of "error" | DIAG_WARNING => bytes_of "warning" end.
Definition severity_letter (sev : DiagSeverity) : Z := match sev with DIAG_ERROR => chr "E" | DIAG_WARNING => chr "W" end.

Definition phase_for_code (code : Z) : list Z :=
  if (1000 <=? code) && (code <=? 1999) then bytes_of "lex"
  else if (2000 <=? code) && (code <=? 2999) then bytes_of "parse"
  else if (3000 <=? code) && (code <=? 3999) then bytes_of "name_resolution"
  else if (4000 <=? code) && (code <=? 4999) then bytes_of "type_check"
  else if (5000 <=? code) && (code <=? 5999) then bytes_of "arena_check"
  else if (6000 <=? code) && (code <=? 6999) then bytes_of "ir_lower"
  else if (8000 <=? code) && (code <=? 8999) then bytes_of "ffi"
  else if (9000 <=? code) && (code <=? 9999) then bytes_of "codegen"
  else bytes_of "lex".

(** A field that is NULL is written as an empty one. *)
Definition escape_field (f : option (list Z)) : list Z := match f with Some s => json_escape s | None => [] end.

Definition emit_json (sev : DiagSeverity) (code byte_offset line col span_start span_end : Z) (message : list Z)
    (fields : DiagFields) : RM unit :=
  do r <- get;
  let diag_id := printed 16 (chr "D" :: dec04 (r_seq r)) in
  let code_str := printed 8 (severity_letter sev :: dec04 code) in
  do! put_err (lit "{'schema_version':'1.0','diagnostic_id':'" ++ diag_id ++ lit "','error_code':'" ++ code_str ++
               lit "','severity':'" ++ severity_str sev ++ lit "','stage':'" ++ phase_for_code code ++ lit "','message':'");
  do! put_err (json_escape message);
  do! put_err (lit "','file':'");
  do! put_err (json_escape (r_source_file r));
  do! put_err (lit "','pos':{'offset':" ++ dec byte_offset ++ lit ",'line':" ++ dec line ++ lit ",'col':" ++ dec col ++
               lit "},'span_start':" ++ dec (if 0 <=? span_start then span_start else byte_offset) ++
               lit ",'span_end':" ++ dec (if 0 <=? span_end then span_end else byte_offset) ++ lit ",'context':[]");
  do! put_err (lit ",'expected':'" ++ escape_field (f_expected fields) ++ lit "'");
  do! put_err (lit ",'got':'" ++ escape_field (f_got fields) ++ lit "'");
  do! put_err (lit ",'fix':'" ++ escape_field (f_fix fields) ++ lit "'");
  do sl <- extract_source_line byte_offset 1024;
  do! match sl with
      | Some l => put_err (lit ",'source_line':'" ++ json_escape l ++ lit "'")
      | None => put_err (lit ",'source_line':''")
      end;
  put_err (lit "}|").

(** ** Text *)

Definition shown_file (f : list Z) : list Z := match f with [] => bytes_of "<input>" | _ => f end.

Definition emit_text (sev : DiagSeverity) (code byte_offset line col span_len : Z) (message : list Z)
    (fields : DiagFields) : RM unit :=
  do r <- get;
  do! put_err (severity_str sev ++ bytes_of "[" ++ severity_letter sev :: dec04 code ++ bytes_of "]: " ++ message ++ [10]);
  do! put_err (bytes_of " --> " ++ shown_file (r_source_file r) ++
               bytes_of ":" ++ dec line ++ bytes_of ":" ++ dec col ++ [10]);
  do sl <- extract_source_line byte_offset 1024;
  match sl with
  | None => ret tt
  | Some buf =>
      let sl_buf := until_nul buf in
      let gutter := zlen (printed 16 (dec line)) in
      do! put_err (spaces gutter ++ bytes_of " |" ++ [10]);
      do! put_err (dec line ++ bytes_of " | " ++ sl_buf ++ [10]);
      do! put_err (spaces gutter ++ bytes_of " | ");
      do! put_err (spaces (col - 1));
      do! put_err (bytes_of "^");
      do! when (1 <? span_len)
        (let avail := zlen sl_buf - (col - 1) - 1 in
         let under := span_len - 1 in
         let under := if avail <? under then avail else under in
         put_err (repeat (chr "~") (Z.to_nat under)));
      do! match f_fix fields with
          | Some (x :: l) => put_err (bytes_of " " ++ x :: l)
          | _ => ret tt
          end;
      do! put_err [10];
      put_err (spaces gutter ++ bytes_of " |" ++ [10])
  end.

(** ** Emission *)

Definition update_counts (sev : DiagSeverity) : RM unit :=
  modify (fun r => match sev with
    | DIAG_ERROR => set_counts (r_error_count r + 1) (r_warn_count r) (r_seq r + 1) r
    | DIAG_WARNING => set_counts (r_error_count r) (r_warn_count r + 1) (r_seq r + 1) r
    end).

(** The texts are cut to their arrays. *)
Definition buffer_entry (sev : DiagSeverity) (code byte_offset line col span_start span_end : Z) (message : list Z)
    (fix_ : option (list Z)) : RM unit :=
  modify (fun r =>
    if SARIF_MAX_DIAGS <=? zlen (r_sarif_buf r) then r
    else set_sarif (r_sarif_buf r ++ [mkEntry sev code line col byte_offset span_start span_end
      (take 511 message) (take 255 (default [] fix_))]) r).

(** The common part of [diag_emit] and [diag_emit_span]. *)
Definition emit_texts (sev : DiagSeverity) (code byte_offset line col span_len span_start span_end : Z) (message : list Z)
    (ap : list (option (list Z))) : RM unit :=
  do fields <- extract_fields (mkFields None None None) ap;
  do r <- get;
  if r_suppress r then ret tt
  else
    do! update_counts sev;
    match r_int_mode r with
    | DIAG_INT_TEXT => emit_text sev code byte_offset line col span_len message fields
    | DIAG_INT_SARIF => buffer_entry sev code byte_offset line col span_start span_end message (f_fix fields)
    | DIAG_INT_JSON => emit_json sev code byte_offset line col span_start span_end message fields
    end.

Definition diag_emit_texts (sev : DiagSeverity) (code byte_offset line col : Z) : list Z -> list (option (list Z)) -> RM unit :=
  emit_texts sev code byte_offset line col 0 (-1) (-1).

Definition diag_emit_span_texts (sev : DiagSeverity) (code byte_offset line col span_len : Z)
    : list Z -> list (option (list Z)) -> RM unit :=
  emit_texts sev code byte_offset line col span_len byte_offset (byte_offset + span_len).

(** ** SARIF *)

Definition sarif_level : DiagSeverity -> list Z := severity_str.
Definition sarif_json_escape : list Z -> list Z := json_escape.

(** One result; [more]: does another follow? *)
Definition sarif_result (file : list Z) (e : SarifEntry) (more : bool) : list Z :=
  let rule_id := printed 16 (severity_letter (e_severity e) :: dec04 (e_code e)) in
  lit "        {|          'ruleId': '" ++ rule_id ++ lit "',|          'level': '" ++ sarif_level (e_severity e) ++
  lit "',|          'message': {|            'text': '" ++ sarif_json_escape (e_message e) ++
  lit "'|          },|          'locations': [|            {|              'physicalLocation': {|                'artifactLocation': {|                  'uri': '" ++
  sarif_json_escape file ++
  lit "'|                },|                'region': {|                  'startLine': " ++ dec (e_line e) ++
  lit ",|                  'startColumn': " ++ dec (e_col e) ++ lit ",|                  'byteOffset': " ++ dec (e_byte_offset e) ++
  (if (0 <=? e_span_start e) && (e_span_start e <? e_span_end e)
   then lit ",|                  'byteLength': " ++ dec (e_span_end e - e_span_start e) else []) ++
  lit "|                }|              }|            }|          ]" ++
  (match e_fix e with
   | [] => []
   | fix_ => lit ",|          'fixes': [|            {|              'description': {|                'text': '" ++
             sarif_json_escape fix_ ++ lit "'|              }|            }|          ]"
   end) ++
  lit "|        }" ++ (if more then lit "," else []) ++ lit "|".

Fixpoint sarif_results (file : list Z) (l : list SarifEntry) : list Z :=
  match l with
  | [] => []
  | e :: l => sarif_result file e (match l with [] => false | _ => true end) ++ sarif_results file l
  end.

Definition diag_flush_sarif : RM unit :=
  do r <- get;
  match r_int_mode r with
  | DIAG_INT_SARIF =>
      do! put_out (lit "{|  'version': '2.1.0',|  '$schema': 'https://docs.oasis-open.org/sarif/sarif/v2.1.0/cos02/schemas/sarif-schema-2.1.0.json',|  'runs': [|    {|      'tool': {|        'driver': {|          'name': 'toke',|          'version': '0.3.1'|        }|      },|      'results': [|");
      do! put_out (sarif_results (r_source_file r) (r_sarif_buf r));
      put_out (lit "      ]|    }|  ]|}|")
  | _ => ret tt
  end.
