(* ===== verification/Dump.v ===== *)
(** * Dumps: [src/src/ast_json.c] and [src/src/sourcemap.c]

    The tree as JSON, and the map between positions of two texts. *)

From Stdlib Require Import ZArith Lia String Ascii.
From stdpp Require Import base tactics list.
From S2P Require Import Prelude CStr Ast Ir Report.
Open Scope Z_scope.

(** ** The tree *)

Definition node_kind_name (k : NodeKind) : list Z :=
  bytes_of match k with
  | NODE_PROGRAM => "PROGRAM"
  | NODE_MODULE => "MODULE_DECL"
  | NODE_IMPORT => "IMPORT_DECL"
  | NODE_FUNC_DECL => "FUNC_DECL"
  | NODE_TYPE_DECL => "TYPE_DECL"
  | NODE_CONST_DECL => "CONST_DECL"
  | NODE_PARAM => "PARAM"
  | NODE_FIELD => "FIELD"
  | NODE_STMT_LIST => "STMT_LIST"
  | NODE_BIND_STMT => "BIND_STMT"
  | NODE_MUT_BIND_STMT => "MUT_BIND_STMT"
  | NODE_ASSIGN_STMT => "ASSIGN_STMT"
  | NODE_RETURN_STMT => "RETURN_STMT"
  | NODE_IF_STMT => "IF_STMT"
  | NODE_LOOP_STMT => "LOOP_STMT"
  | NODE_BREAK_STMT => "BREAK_STMT"
  | NODE_ARENA_STMT => "ARENA_STMT"
  | NODE_MATCH_STMT => "MATCH_STMT"
  | NODE_EXPR_STMT => "EXPR_STMT"
  | NODE_BINARY_EXPR => "BINARY_EXPR"
  | NODE_UNARY_EXPR => "UNARY_EXPR"
  | NODE_CALL_EXPR => "CALL_EXPR"
  | NODE_CAST_EXPR => "CAST_EXPR"
  | NODE_PROPAGATE_EXPR => "PROPAGATE_EXPR"
  | NODE_INDEX_EXPR => "INDEX_EXPR"
  | NODE_FIELD_EXPR => "FIELD_EXPR"
  | NODE_IDENT => "IDENT"
  | NODE_TYPE_IDENT => "TYPE_IDENT"
  | NODE_INT_LIT => "INT_LIT"
  | NODE_FLOAT_LIT => "FLOAT_LIT"
  | NODE_STR_LIT => "STR_LIT"
  | NODE_BOOL_LIT => "BOOL_LIT"
  | NODE_ARRAY_LIT => "ARRAY_LIT"
  | NODE_STRUCT_LIT => "STRUCT_LIT"
  | NODE_FIELD_INIT => "FIELD_INIT"
  | NODE_TYPE_EXPR => "TYPE_EXPR"
  | NODE_ARRAY_TYPE => "ARRAY_TYPE"
  | NODE_FUNC_TYPE => "FUNC_TYPE"
  | NODE_PTR_TYPE => "PTR_TYPE"
  | NODE_MATCH_ARM => "MATCH_ARM"
  | NODE_RETURN_SPEC => "RETURN_SPEC"
  | NODE_MODULE_PATH => "MODULE_PATH"
  | NODE_LOOP_INIT => "LOOP_INIT"
  | NODE_MAP_TYPE => "MAP_TYPE"
  | NODE_MAP_LIT => "MAP_LIT"
  | NODE_MAP_ENTRY => "MAP_ENTRY"
  | NODE_FUNC_REF => "FUNC_REF"
  | NODE_CLOSURE => "CLOSURE"
  | NODE_SCOPE_STMT => "SCOPE_STMT"
  | NODE_SPAWN_EXPR => "SPAWN_EXPR"
  end%string.

Definition indent (depth : nat) : list Z := flat_map (fun _ => bytes_of "  ") (repeat tt depth).

Definition is_ident_node (k : NodeKind) : bool :=
  match k with NODE_IDENT | NODE_TYPE_IDENT | NODE_MODULE_PATH => true | _ => false end.

Definition is_literal_node (k : NodeKind) : bool :=
  match k with NODE_INT_LIT | NODE_FLOAT_LIT | NODE_STR_LIT | NODE_BOOL_LIT => true | _ => false end.

Section Dump.
Context (src : option (list Z)).

(** The [len] characters at [s], quoted: no end of string is looked for. *)
Definition emit_json_string (buf : list Z) (s len : Z) : OM unit :=
  do l <- rd_range buf s len;
  fputs (lit "'" ++ flat_map escape_char l ++ lit "'").

(** The text of the node, under a name, when [b] and it has one. *)
Definition emit_text_of (b : bool) (name : string) (n : Node) (depth : nat) : OM unit :=
  match src with
  | Some buf =>
      when (b && (0 <? n_tok_len n))
        (do! fputs (lit ",|" ++ indent (depth + 1) ++ lit name);
         emit_json_string buf (n_tok_start n) (n_tok_len n))
  | None => ret tt
  end.

Definition emit_head (n : Node) (depth : nat) : OM unit :=
  do! fputs (indent depth ++ lit "{|");
  do! fputs (indent (depth + 1) ++ lit "'kind': '" ++ node_kind_name (n_kind n) ++ lit "',|");
  do! fputs (indent (depth + 1) ++ lit "'pos': {'line': " ++ dec (n_line n) ++ lit ", 'col': " ++ dec (n_col n) ++
             lit ", 'offset': " ++ dec (n_start n) ++ lit "},|");
  do! fputs (indent (depth + 1) ++ lit "'span': {'start': " ++ dec (n_tok_start n) ++
             lit ", 'end': " ++ dec (n_tok_start n + n_tok_len n) ++ lit "}");
  do! emit_text_of (is_ident_node (n_kind n)) "'name': " n depth;
  emit_text_of (is_literal_node (n_kind n)) "'value': " n depth.

Fixpoint emit_node (n : Node) (depth : nat) : OM unit :=
  do! emit_head n depth;
  do! match n_children n with
      | [] => ret tt
      | children =>
          do! fputs (lit ",|" ++ indent (depth + 1) ++ lit "'children': [|");
          do! (fix each (l : list Node) : OM unit :=
                 match l with
                 | [] => ret tt
                 | c :: l =>
                     do! emit_node c (depth + 2);
                     do! fputs ((match l with [] => [] | _ => lit "," end) ++ lit "|");
                     each l
                 end) children;
          fputs (indent (depth + 1) ++ lit "]")
      end;
  fputs (lit "|" ++ indent depth ++ lit "}").

Definition ast_dump_json (root : option Node) : OM unit :=
  do! match root with Some n => emit_node n 0 | None => fputs (lit "null") end;
  fputs (lit "|").
End Dump.

(** ** The source map *)

Record SpanMapping := mkMapping {
  compact_line : Z; compact_col : Z; expanded_line : Z; expanded_col : Z; sm_length : Z
}.

(** [entries] are those in use of [cap] in the block. *)
Record SourceMap := mkSourceMap { sm_entries : list SpanMapping; sm_cap : Z }.

Definition INITIAL_CAP : Z := 256.

(** [ok]: does the allocation succeed? *)
Definition sourcemap_init (ok : bool) : SourceMap := mkSourceMap [] (if ok then INITIAL_CAP else 0).

(** 0, or -1 and no change. *)
Definition sourcemap_add (ok : bool) (sm : SourceMap) (e : SpanMapping) : Z * SourceMap :=
  if sm_cap sm <=? zlen (sm_entries sm) then
    if ok then (0, mkSourceMap (sm_entries sm ++ [e]) (if sm_cap sm =? 0 then INITIAL_CAP else sm_cap sm * 2))
    else (-1, sm)
  else (0, mkSourceMap (sm_entries sm ++ [e]) (sm_cap sm)).

Definition covers (line col : Z) (e : SpanMapping) : bool :=
  (compact_line e =? line) && (compact_col e <=? col) && (col <? compact_col e + sm_length e).

(** The expanded line and column, of the first entry that covers the position. *)
Fixpoint sourcemap_lookup (l : list SpanMapping) (line col : Z) : option (Z * Z) :=
  match l with
  | [] => None
  | e :: l =>
      if covers line col e then Some (expanded_line e, expanded_col e + (col - compact_col e))
      else sourcemap_lookup l line col
  end.

Definition mapping_json (e : SpanMapping) : list Z :=
  lit "{'compact':{'line':" ++ dec (compact_line e) ++ lit ",'col':" ++ dec (compact_col e) ++ lit "}," ++
  lit "'expanded':{'line':" ++ dec (expanded_line e) ++ lit ",'col':" ++ dec (expanded_col e) ++ lit "}," ++
  lit "'len':" ++ dec (sm_length e) ++ lit "}".

Fixpoint mappings_json (first : bool) (l : list SpanMapping) : list Z :=
  match l with
  | [] => []
  | e :: l => (if first then [] else lit ",") ++ mapping_json e ++ mappings_json false l
  end.

(** The text of the file; [None]: it cannot be opened, or not closed. *)
Definition sourcemap_emit_json (opened closed : bool) (sm : SourceMap) : Z * option (list Z) :=
  if negb opened then (-1, None)
  else
    let text := lit "{'version':1,'mappings':[" ++ mappings_json true (sm_entries sm) ++ lit "]}" in
    (if closed then 0 else -1, Some text).

Definition sourcemap_free (sm : SourceMap) : SourceMap := mkSourceMap [] 0.

(** [build_sourcemap] of [main.c]: the runs of characters of two strings, side by
    side.  A place in a string is what is left of it, with its line and column. *)
Record Place := mkPlace { pl_rest : list Z; pl_line : Z; pl_col : Z }.

Definition is_space (c : Z) : bool := (c =? chr " ") || (c =? 10) || (c =? 13) || (c =? 9).

Fixpoint skip_spaces (l : list Z) (line col : Z) : Place :=
  match l with
  | c :: l' =>
      if is_space c then
        if c =? 10 then skip_spaces l' (line + 1) 0 else skip_spaces l' line (col + 1)
      else mkPlace l line col
  | [] => mkPlace [] line col
  end.

(** The characters up to a space in either, and what is left. *)
Fixpoint run_length (c e : list Z) : Z :=
  match c, e with
  | x :: c, y :: e => if is_space x || is_space y then 0 else 1 + run_length c e
  | _, _ => 0
  end.

Definition advance_by (n : Z) (p : Place) : Place := mkPlace (drop (Z.to_nat n) (pl_rest p)) (pl_line p) (pl_col p + n).

(** [ok]: does growing from this capacity succeed? *)
Fixpoint build_runs (fuel : nat) (ok : Z -> bool) (sm : SourceMap) (c e : Place) : option SourceMap :=
  match fuel with
  | O => None
  | S fuel =>
      match pl_rest c, pl_rest e with
      | [], _ | _, [] => Some sm
      | _, _ =>
          let c := skip_spaces (pl_rest c) (pl_line c) (pl_col c) in
          let e := skip_spaces (pl_rest e) (pl_line e) (pl_col e) in
          match pl_rest c, pl_rest e with
          | [], _ | _, [] => Some sm
          | _, _ =>
              let len := run_length (pl_rest c) (pl_rest e) in
              let sm := if 0 <? len
                        then snd (sourcemap_add (ok (sm_cap sm)) sm (mkMapping (pl_line c) (pl_col c) (pl_line e) (pl_col e) len))
                        else sm in
              build_runs fuel ok sm (advance_by len c) (advance_by len e)
          end
      end
  end.

Definition build_sourcemap (ok : Z -> bool) (sm : SourceMap) (compact expanded : list Z) : option SourceMap :=
  build_runs (S (length compact)) ok sm (mkPlace compact 1 0) (mkPlace expanded 1 0).
