(* ===== verification/ReportFacts.v ===== *)
(** * The texts of diagnostics, read back *)

From Stdlib Require Import ZArith Lia String Ascii.
From stdpp Require Import base tactics list.
From S2P Require Import Prelude CStr Diag EncUtf8 Ir Report Json.
Open Scope Z_scope.

(** ** Numbers *)

Lemma digits_app l : forall a r, forallb digit l = true -> ends r = true ->
  digits a (l ++ r) = (fold_left (fun a c => 10 * a + (c - 48)) l a, r).
Proof.
  induction l as [|c l IH]; intros a r Hl Hr; cbn [app fold_left digits].
  - destruct r as [|x r]; [done|]. cbn [digits]. cbn [ends] in Hr. destruct (digit x); [done|done].
  - cbn [forallb] in Hl. apply andb_prop in Hl as [Hc Hl]. rewrite Hc. by apply IH.
Qed.

(** The digits of a number: their value, and no zero in front. *)
Lemma nat_text_ok n : forall z, 0 <= z < 2 ^ Z.of_nat n -> n <> O ->
  forallb digit (nat_text n z) = true /\ fold_left (fun a c => 10 * a + (c - 48)) (nat_text n z) 0 = z /\
  exists c l, nat_text n z = c :: l /\ (c = 48 -> z = 0 /\ l = []).
Proof.
  induction n as [|n IH]; intros z Hz Hn; [done|]. cbn [nat_text].
  assert (Hd : digit (48 + z mod 10) = true) by (unfold digit; pose proof (Z.mod_pos_bound z 10); lia).
  destruct (z <? 10) eqn:E; zb.
  - cbn [app forallb fold_left]. rewrite Hd, Z.mod_small by lia. split_and!; [done|lia|]. exists (48 + z), []. split; [done|]. intros. split; [lia|done].
  - rewrite Nat2Z.inj_succ, Z.pow_succ_r in Hz by lia.
    assert (Hq : 1 <= z / 10 < 2 ^ Z.of_nat n).
    { split; [apply Z.div_le_lower_bound; lia|]. apply Z.div_lt_upper_bound; lia. }
    assert (Hn' : n <> O) by (intros ->; cbn in Hq; lia).
    destruct (IH (z / 10) ltac:(lia) Hn') as (H1 & H2 & c & l & H3 & H4).
    rewrite forallb_app, fold_left_app, H1, H2. cbn [forallb fold_left]. rewrite Hd. split_and!; [done|pose proof (Z.div_mod z 10); lia|].
    rewrite H3. exists c, (l ++ [48 + z mod 10]). split; [done|]. intros Hc. destruct (H4 Hc) as [H0 _]. lia.
Qed.

Lemma udec_fuel z : 0 <= z -> 0 <= z < 2 ^ Z.of_nat (S (Z.to_nat (Z.log2 z))).
Proof.
  intros Hz. pose proof (Z.log2_nonneg z). rewrite Nat2Z.inj_succ, Z2Nat.id by done. split; [done|].
  destruct (decide (z = 0)) as [->|]; [done|]. apply Z.log2_spec. lia.
Qed.

Lemma natural_udec z r : 0 <= z -> ends r = true -> natural (udec z ++ r) = Some (z, r).
Proof.
  intros Hz Hr. destruct (nat_text_ok _ z (udec_fuel z Hz)) as (H1 & H2 & c & l & H3 & H4); [done|].
  unfold udec. rewrite H3 in *. cbn [app natural]. pose proof H1 as H1'. cbn [forallb] in H1'. apply andb_prop in H1' as [Hc _].
  rewrite Hc. destruct (c =? chr "0") eqn:E; zb.
  - destruct (H4 E) as [-> ->]. cbn [app]. by rewrite Hr.
  - change (c :: l ++ r) with ((c :: l) ++ r). rewrite digits_app by done. by rewrite H2, Hr.
Qed.

Lemma udec_head z : 0 <= z -> exists c l, udec z = c :: l /\ digit c = true.
Proof.
  intros Hz. destruct (nat_text_ok _ z (udec_fuel z Hz)) as (H1 & _ & c & l & H3 & _); [done|].
  exists c, l. split; [done|]. rewrite H3 in H1. cbn [forallb] in H1. by apply andb_prop in H1 as [? _].
Qed.

Lemma read_dec z r : ends r = true -> reads value (dec z ++ r) (JNumber z) r.
Proof.
  intros Hr. apply read_number. unfold dec. destruct (z <? 0) eqn:E; zb.
  - cbn [app number]. rewrite Z.eqb_refl, natural_udec by (lia || done). f_equal. f_equal. f_equal. lia.
  - destruct (udec_head z ltac:(lia)) as (c & l & Hu & Hd). rewrite Hu. cbn [app number].
    rewrite (proj2 (Z.eqb_neq c _)) by (unfold digit in Hd; lia). change (c :: l ++ r) with ((c :: l) ++ r).
    by rewrite <- Hu, natural_udec.
Qed.

(** ** Strings *)

Definition is_char (c : Z) : Prop := 0 <= c < 256.

Lemma hex_char_digit d : 0 <= d < 16 -> hex_char (hex_digit d) = Some d.
Proof.
  intros H. unfold hex_char, hex_digit, digit. destruct (d <? 10) eqn:E; zb.
  - rewrite (proj2 (Z.leb_le _ _)), (proj2 (Z.leb_le _ _)) by lia. cbn. f_equal. lia.
  - rewrite (proj2 (Z.leb_gt (chr "a" + (d - 10)) _)), andb_false_r by lia.
    rewrite (proj2 (Z.leb_le _ _)), (proj2 (Z.leb_le _ _)) by lia. cbn. f_equal. lia.
Qed.

Lemma chars_escape_char c k : is_char c -> chars (escape_char c ++ k) = before [c] (chars k).
Proof.
  unfold is_char. intros Hc. unfold escape_char. repeat case_match; zb; subst; try reflexivity.
  - unfold hex04. cbn [app map].
    assert (Hs : forall j, 0 <= Z.shiftr c j mod 16 < 16) by (intros; apply Z.mod_pos_bound; lia).
    change (lit "\u" ++ ?l) with (92 :: chr "u" :: l). cbn [app chars]. known.
    rewrite !hex_char_digit by done.
    assert (Hu : ((Z.shiftr c 12 mod 16 * 16 + Z.shiftr c 8 mod 16) * 16 + Z.shiftr c 4 mod 16) * 16 + Z.shiftr c 0 mod 16 = c).
    { rewrite !Z.shiftr_div_pow2 by lia. change (2 ^ 12) with 4096. change (2 ^ 8) with 256. change (2 ^ 4) with 16. change (2 ^ 0) with 1.
      rewrite Z.div_1_r. rewrite (Z.div_small c 4096), (Z.div_small c 256) by lia. change (0 mod 16) with 0. rewrite (Z.mod_small (c / 16)).
      - pose proof (Z.div_mod c 16). lia.
      - split; [apply Z.div_pos; lia|apply Z.div_lt_upper_bound; lia]. }
    rewrite Hu, (proj2 (Z.leb_gt _ _)) by lia. cbn [andb]. unfold utf8_enc. by rewrite (proj2 (Z.ltb_lt _ _)) by lia.
  - cbn [app chars]. by rewrite (proj2 (Z.eqb_neq c 34)), (proj2 (Z.eqb_neq c 92)), (proj2 (Z.ltb_ge c 32)) by lia.
Qed.

Lemma chars_escape s r : Forall is_char s -> chars (flat_map escape_char s ++ 34 :: r) = Some (s, r).
Proof.
  induction 1 as [|c s Hc Hs IH]; [done|]. cbn [flat_map]. rewrite <- app_assoc, chars_escape_char, IH by done. done.
Qed.

Lemma chars_plain l r : Forall (fun c => 32 <= c /\ c <> 34 /\ c <> 92) l -> chars (l ++ 34 :: r) = Some (l, r).
Proof.
  induction 1 as [|c l (H1 & H2 & H3) Hl IH]; [done|]. cbn [app chars].
  rewrite (proj2 (Z.eqb_neq c 34)), (proj2 (Z.eqb_neq c 92)), (proj2 (Z.ltb_ge c 32)), IH by done. done.
Qed.

(** A string of C. *)
Definition c_string (s : list Z) : Prop := Forall (fun c => 0 < c < 256) s.

Lemma until_nul_string l : Forall is_char l -> c_string (until_nul l).
Proof.
  induction 1 as [|c l Hc Hl IH]; [constructor|]. cbn [until_nul]. destruct (c =? 0) eqn:E; zb; [constructor|].
  constructor; [unfold is_char in Hc; lia|done].
Qed.

Lemma until_nul_c s : c_string s -> until_nul s = s.
Proof.
  induction 1 as [|c s Hc Hs IH]; [done|]. cbn [until_nul]. by rewrite (proj2 (Z.eqb_neq c 0)), IH by lia.
Qed.

Lemma c_string_chars s : c_string s -> Forall is_char s.
Proof. intros H. eapply Forall_impl; [exact H|]. unfold is_char. intros; lia. Qed.

(** The text between the quotes of a string that was escaped. *)
Lemma chars_json_escape s r : c_string s -> chars (json_escape s ++ 34 :: r) = Some (s, r).
Proof. intros H. unfold json_escape. rewrite until_nul_c by done. by apply chars_escape, c_string_chars. Qed.

Lemma chars_escape_field f r : c_string (default [] f) -> chars (escape_field f ++ 34 :: r) = Some (default [] f, r).
Proof. destruct f as [s|]; cbn [default escape_field]; [by apply chars_json_escape|done]. Qed.

(** ** Characters of a line *)

Definition visible (l : list Z) : Prop := Forall (fun c => 32 <= c) l.

Lemma visible_check l : forallb (fun c => 32 <=? c) l = true -> visible l.
Proof. rewrite forallb_forall. intros H. apply Forall_forall. intros x Hx%list_elem_of_In%H. lia. Qed.

Lemma visible_escape s : Forall is_char s -> visible (flat_map escape_char s).
Proof.
  intros H. apply Forall_flat_map. eapply Forall_impl; [exact H|]. intros c Hc. unfold is_char in Hc. unfold escape_char.
  destruct (c =? 34); [by apply visible_check|]. destruct (c =? 92); [by apply visible_check|].
  destruct (c =? 10); [by apply visible_check|]. destruct (c =? 13); [by apply visible_check|].
  destruct (c =? 9); [by apply visible_check|]. destruct (c <? 32) eqn:E; zb; [|by repeat constructor].
  apply Forall_app. split; [by apply visible_check|]. unfold hex04. apply Forall_map, Forall_forall. intros k _.
  pose proof (Z.mod_pos_bound (Z.shiftr c k) 16). unfold hex_digit. cbn. case_match; lia.
Qed.

Lemma visible_json_escape s : c_string s -> visible (json_escape s).
Proof. intros H. unfold json_escape. rewrite until_nul_c by done. by apply visible_escape, c_string_chars. Qed.

Lemma visible_field f : c_string (default [] f) -> visible (escape_field f).
Proof. destruct f; cbn [default escape_field]; [apply visible_json_escape|constructor]. Qed.

Definition plain_text (l : list Z) : Prop := Forall (fun c => 32 <= c /\ c <> 34 /\ c <> 92) l.

Lemma plain_visible l : plain_text l -> visible l.
Proof. intros H. eapply Forall_impl; [exact H|]. by intros c (? & _ & _). Qed.

Lemma plain_digits l : forallb digit l = true -> plain_text l.
Proof. intros H. apply Forall_forall. intros c Hc%list_elem_of_In. rewrite forallb_forall in H. apply H in Hc. unfold digit in Hc. zb. lia. Qed.

Lemma plain_udec z : 0 <= z -> plain_text (udec z).
Proof. intros Hz. apply plain_digits. by apply (nat_text_ok _ z (udec_fuel z Hz)). Qed.

Lemma plain_dec z : plain_text (dec z).
Proof. unfold dec. destruct (z <? 0) eqn:E; zb; [constructor; [lia|]|]; apply plain_udec; lia. Qed.

Lemma plain_zeros n l : plain_text l -> plain_text (zeros_to n l).
Proof.
  intros H. unfold zeros_to. apply Forall_app. split; [|done]. apply Forall_forall. intros x Hx%list_elem_of_In%repeat_spec. lia.
Qed.

Lemma plain_dec04 z : plain_text (dec04 z).
Proof. unfold dec04. destruct (z <? 0) eqn:E; zb; [constructor; [lia|]|]; apply plain_zeros, plain_udec; lia. Qed.

(** ** Arrays for numbers *)

Lemma nat_text_length n : forall z k, 0 <= z < 10 ^ Z.of_nat k -> (1 <= k)%nat -> (length (nat_text n z) <= k)%nat.
Proof.
  induction n as [|n IH]; intros z k Hz Hk; cbn [nat_text]; [cbn; lia|]. rewrite length_app. cbn [length].
  destruct (z <? 10) eqn:E; zb; [cbn; lia|]. destruct k as [|[|k]]; [lia|change (10 ^ Z.of_nat 1) with 10 in Hz; lia|].
  rewrite Nat2Z.inj_succ, Z.pow_succ_r in Hz by lia.
  pose proof (IH (z / 10) (S k) ltac:(split; [apply Z.div_pos; lia|apply Z.div_lt_upper_bound; lia]) ltac:(lia)). lia.
Qed.

Lemma dec04_length z k : 0 <= z < 10 ^ Z.of_nat k -> (4 <= k)%nat -> (length (dec04 z) <= k)%nat.
Proof.
  intros Hz Hk. unfold dec04. rewrite (proj2 (Z.ltb_ge z 0)) by lia. unfold zeros_to. rewrite length_app, repeat_length.
  unfold udec. set (t := nat_text _ z). assert (length t <= k)%nat by (apply nat_text_length; [done|lia]). unfold zlen. lia.
Qed.

Lemma printed_all size l : (length l < Z.to_nat size)%nat -> printed size l = l.
Proof. intros H. unfold printed. apply take_ge. lia. Qed.

(** ** The line of an offset *)

(** [line] is the part of [buf] around [off] up to the line feeds, and behind [off]
    up to a carriage return. *)
Definition line_of (buf : list Z) (off : Z) (line : list Z) : Prop :=
  exists s e, 0 <= s <= off /\ off <= e <= zlen buf /\ line = slice buf s (e - s) /\
    (s = 0 \/ byte_at buf (s - 1) = 10) /\ (forall i, s <= i < off -> byte_at buf i <> 10) /\
    (e = zlen buf \/ byte_at buf e = 10 \/ byte_at buf e = 13) /\
    (forall i, off <= i < e -> byte_at buf i <> 10 /\ byte_at buf i <> 13).

(** What is shown of it in [size] bytes; no line without a source or before it. *)
Definition shown_line (src : option (list Z)) (off size : Z) (l : option (list Z)) : Prop :=
  match src with
  | None => l = None
  | Some buf =>
      if (zlen buf =? 0) || (off <? 0) || (size =? 0) then l = None
      else exists line, line_of buf (Z.min off (zlen buf)) line /\ l = Some (take (Z.to_nat (size - 1)) line)
  end.

Lemma extract_source_line_ok off size (r : Report) :
  0 <= size ->
  wp (extract_source_line off size) (fun l r' => r' = r /\ shown_line (r_source r) off size l) r.
Proof.
  intros Hsz. unfold extract_source_line. apply wp_bind, wp_gets. unfold shown_line. destruct (r_source r) as [buf|]; [|by apply wp_ret].
  destruct ((zlen buf =? 0) || (off <? 0) || (size =? 0)) eqn:E; [by apply wp_ret|]. zb.
  pose proof (zlen_nonneg buf). set (o := if zlen buf <? off then zlen buf else off).
  assert (Ho : o = Z.min off (zlen buf) /\ 0 <= o <= zlen buf) by (unfold o; destruct (zlen buf <? off) eqn:?; zb; lia).
  destruct Ho as [<- Ho]. clearbody o. cbv zeta.
  eapply wp_seq.
  { apply (wp_iter (fun s r' => r' = r /\ 0 <= s <= o /\ forall i, s <= i < o -> byte_at buf i <> 10) (fun s _ => Z.to_nat s)
      _ (fun s r' => r' = r /\ 0 <= s <= o /\ (s = 0 \/ byte_at buf (s - 1) = 10) /\ forall i, s <= i < o -> byte_at buf i <> 10)).
    - split_and!; [done|lia|lia|]. intros; lia.
    - lia.
    - intros s r' (-> & Hs & Hno). destruct (0 <? s) eqn:E0; zb.
      + apply wp_bind, wp_rd; [lia|]. apply wp_ret. destruct (byte_at buf (s - 1) =? 10) eqn:E1; zb; [by split_and!; auto; lia|].
        split; [|lia]. split_and!; [done|lia|lia|]. intros i Hi. destruct (decide (i = s - 1)) as [->|]; [done|]. apply Hno. lia.
      + apply wp_ret. split_and!; [done|lia|lia|left; lia|done]. }
  intros s r' (-> & Hs & Hstart & Hno). cbn beta.
  eapply wp_seq.
  { apply (wp_iter (fun e r' => r' = r /\ o <= e <= zlen buf /\ forall i, o <= i < e -> byte_at buf i <> 10 /\ byte_at buf i <> 13)
      (fun e _ => Z.to_nat (zlen buf - e)) _
      (fun e r' => r' = r /\ o <= e <= zlen buf /\ (e = zlen buf \/ byte_at buf e = 10 \/ byte_at buf e = 13) /\
         forall i, o <= i < e -> byte_at buf i <> 10 /\ byte_at buf i <> 13)).
    - split_and!; [done|lia|lia|]. intros; lia.
    - lia.
    - intros e r' (-> & He & Hn). destruct (e <? zlen buf) eqn:E0; zb.
      + apply wp_bind, wp_rd; [lia|]. apply wp_ret. destruct ((byte_at buf e =? 10) || (byte_at buf e =? 13)) eqn:E1.
        * apply orb_prop in E1 as [?%Z.eqb_eq|?%Z.eqb_eq]; split_and!; auto; lia.
        * zb. split; [|lia]. split_and!; [done|lia|lia|]. intros i Hi. destruct (decide (i = e)) as [->|]; [done|]. apply Hn. lia.
      + apply wp_ret. split_and!; [done|lia|lia|left; lia|done]. }
  intros e r' (-> & He & Hend & Hn). cbn beta zeta.
  apply wp_bind, wp_rd_range; [lia|case_match; zb; lia|case_match; zb; lia|]. apply wp_ret. split; [done|].
  exists (slice buf s (e - s)). split.
  { exists s, e. split_and!; try lia; done. }
  f_equal. unfold slice. rewrite take_take. f_equal. case_match; zb; lia.
Qed.

(** ** Reading a text that is written *)

(** Literals as their characters, and all in one list. *)
Ltac flat :=
  repeat match goal with
    | |- context [lit ?s] => let v := eval vm_compute in (lit s) in change (lit s) with v
    end; rewrite <- ?app_assoc; cbn [app].

(** [chars] of a name that is given, or of a string that was written. *)
Ltac string_end :=
  first [ eassumption | eapply chars_json_escape; done | eapply chars_escape_field; done | eapply chars_plain; done | eapply chars_escape; assumption | reflexivity ].

Ltac strip s := lazymatch s with 32 :: ?t => strip t | 10 :: ?t => strip t | _ => s end.

Ltac spaces_of s :=
  lazymatch s with
  | 32 :: ?t => let w := spaces_of t in constr:(32 :: w)
  | 10 :: ?t => let w := spaces_of t in constr:(10 :: w)
  | _ => constr:(@nil Z)
  end.

Ltac spaces_read :=
  lazymatch goal with
  | |- reads_with ?c _ ?s _ _ => let s' := strip s in let w := spaces_of s in apply (reads_ws c w s'); [reflexivity|]
  end.

(** Further white space, and how it ends; other files extend these. *)
Ltac lead := fail.
Ltac skip_end := reflexivity.

Ltac reading :=
  lazymatch goal with
  | |- reads_with _ _ (32 :: _) _ _ => spaces_read; reading
  | |- reads_with _ _ (10 :: _) _ _ => spaces_read; reading
  | |- reads value (123 :: _) (JObject []) _ => apply read_no_members; skip_end
  | |- reads value (123 :: _) (JObject _) _ => apply read_object; reading
  | |- reads value (91 :: _) (JArray []) _ => apply read_no_items; skip_end
  | |- reads value (91 :: _) (JArray _) _ => apply read_array; reading
  | |- reads_with 1 items _ [_] _ => eapply read_last_item; [reading|skip_end]
  | |- reads value (34 :: _) (JString _) _ => apply read_string; string_end
  | |- reads value (dec _ ++ _) (JNumber _) _ => apply read_dec; reflexivity
  | |- reads value (49 :: _) (JNumber _) _ => apply read_number; reflexivity
  | |- reads members (34 :: _) [_] _ =>
      eapply read_last_member; [string_end|skip_end|reading|skip_end]
  | |- reads members (34 :: _) (_ :: _) _ =>
      eapply read_member; [string_end|skip_end|reading|skip_end|reading]
  | |- _ => first [lead; reading | eassumption | idtac]
  end.

Definition name (s : string) (v : json) : list Z * json := (bytes_of s, v).

(** What a line of JSON says. *)
Definition diag_json (seq : Z) (file : list Z) (sev : DiagSeverity) (code byte_offset line col span_start span_end : Z)
    (message : list Z) (fields : DiagFields) (source_line : list Z) : json :=
  JObject [
    name "schema_version" (JString (bytes_of "1.0"));
    name "diagnostic_id" (JString (chr "D" :: dec04 seq));
    name "error_code" (JString (severity_letter sev :: dec04 code));
    name "severity" (JString (severity_str sev));
    name "stage" (JString (phase_for_code code));
    name "message" (JString message);
    name "file" (JString file);
    name "pos" (JObject [name "offset" (JNumber byte_offset); name "line" (JNumber line); name "col" (JNumber col)]);
    name "span_start" (JNumber (if 0 <=? span_start then span_start else byte_offset));
    name "span_end" (JNumber (if 0 <=? span_end then span_end else byte_offset));
    name "context" (JArray []);
    name "expected" (JString (default [] (f_expected fields)));
    name "got" (JString (default [] (f_got fields)));
    name "fix" (JString (default [] (f_fix fields)));
    name "source_line" (JString source_line)
  ].

Lemma plain_severity sev : plain_text (severity_str sev).
Proof. destruct sev; repeat (constructor; [by repeat split|]); constructor. Qed.

Lemma plain_phase code : plain_text (phase_for_code code).
Proof. unfold phase_for_code. repeat case_match; repeat (constructor; [by repeat split|]); constructor. Qed.

Lemma plain_id sev code : plain_text (severity_letter sev :: dec04 code).
Proof. constructor; [by destruct sev|apply plain_dec04]. Qed.

Lemma plain_seq seq : plain_text (chr "D" :: dec04 seq).
Proof. constructor; [done|apply plain_dec04]. Qed.

Lemma add_err_app a b r : add_err b (add_err a r) = add_err (a ++ b) r.
Proof. unfold add_err. cbn. by rewrite app_assoc. Qed.

(** The text of the line, and that it is read as what it says. *)
Definition json_line (seq : Z) (file : list Z) (sev : DiagSeverity) (code byte_offset line col span_start span_end : Z)
    (message : list Z) (fields : DiagFields) (source_line : list Z) : list Z :=
  lit "{'schema_version':'1.0','diagnostic_id':'" ++ (chr "D" :: dec04 seq) ++
  lit "','error_code':'" ++ (severity_letter sev :: dec04 code) ++
  lit "','severity':'" ++ severity_str sev ++ lit "','stage':'" ++ phase_for_code code ++ lit "','message':'" ++
  json_escape message ++ lit "','file':'" ++ json_escape file ++
  lit "','pos':{'offset':" ++ dec byte_offset ++ lit ",'line':" ++ dec line ++ lit ",'col':" ++ dec col ++
  lit "},'span_start':" ++ dec (if 0 <=? span_start then span_start else byte_offset) ++
  lit ",'span_end':" ++ dec (if 0 <=? span_end then span_end else byte_offset) ++ lit ",'context':[]" ++
  lit ",'expected':'" ++ escape_field (f_expected fields) ++ lit "'" ++
  lit ",'got':'" ++ escape_field (f_got fields) ++ lit "'" ++
  lit ",'fix':'" ++ escape_field (f_fix fields) ++ lit "'" ++
  lit ",'source_line':'" ++ json_escape source_line ++ lit "'}".

Definition fields_ok (f : DiagFields) : Prop :=
  c_string (default [] (f_fix f)) /\ c_string (default [] (f_expected f)) /\ c_string (default [] (f_got f)).

Lemma json_line_reads seq file sev code off line col ss se message fields sl :
  c_string file -> c_string message -> fields_ok fields -> c_string sl ->
  json_text (json_line seq file sev code off line col ss se message fields sl) =
  Some (diag_json seq file sev code off line col ss se message fields sl).
Proof.
  intros Hf Hm (Hx & He & Hg) Hs. apply json_text_reads. unfold json_line, diag_json, name.
  pose proof (plain_seq seq) as P1. pose proof (plain_id sev code) as P2. pose proof (plain_severity sev) as P3. pose proof (plain_phase code) as P4.
  set (id := chr "D" :: dec04 seq) in *. set (cs := severity_letter sev :: dec04 code) in *.
  set (sv := severity_str sev) in *. set (ph := phase_for_code code) in *. clearbody id cs sv ph.
  flat. reading.
Qed.

Lemma json_line_visible seq file sev code off line col ss se message fields sl :
  c_string file -> c_string message -> fields_ok fields -> c_string sl ->
  visible (json_line seq file sev code off line col ss se message fields sl).
Proof.
  intros Hf Hm (Hx & He & Hg) Hs. unfold json_line.
  pose proof (plain_visible _ (plain_seq seq)). pose proof (plain_visible _ (plain_id sev code)).
  pose proof (plain_visible _ (plain_severity sev)). pose proof (plain_visible _ (plain_phase code)).
  assert (Hd : forall z, visible (dec z)) by (intros; apply plain_visible, plain_dec).
  repeat (apply Forall_app; split); try done; try apply Hd; try (by apply visible_json_escape); try (by apply visible_field);
    by apply visible_check.
Qed.

Lemma json_escape_until k : json_escape (until_nul k) = json_escape k.
Proof.
  unfold json_escape. f_equal. induction k as [|c k IH]; [done|]. cbn [until_nul]. destruct (c =? 0) eqn:E; [done|].
  cbn [until_nul]. by rewrite E, IH.
Qed.

Lemma emit_json_ok sev code off line col ss se message fields (r : Report) :
  0 <= r_seq r < 2 ^ 31 -> 0 <= code < 10000 ->
  wp (emit_json sev code off line col ss se message fields)
     (fun _ r' => exists l, shown_line (r_source r) off 1024 l /\
        r' = add_err (json_line (r_seq r) (r_source_file r) sev code off line col ss se message fields (until_nul (default [] l)) ++ [10]) r) r.
Proof.
  intros Hseq Hcode. unfold emit_json. apply wp_bind, wp_get. cbv zeta.
  rewrite (printed_all 16), (printed_all 8).
  2,3: cbn [length]; pose proof (dec04_length (r_seq r) 10 ltac:(cbn; lia) ltac:(lia)); pose proof (dec04_length code 4 ltac:(cbn; lia) ltac:(lia)); cbn; lia.
  repeat (apply wp_bind, wp_modify).
  rewrite !add_err_app. eapply wp_seq; [by apply extract_source_line_ok|]. intros l r' (-> & Hl). cbn beta. cbn [r_source add_err] in Hl.
  destruct l as [k|]; apply wp_bind, wp_modify, wp_modify; [exists (Some k)|exists None]; (split; [done|]); rewrite !add_err_app;
    f_equal; unfold json_line; cbn [default]; rewrite ?json_escape_until; flat; reflexivity.
Qed.

(** ** SARIF *)

Definition result_json (file : list Z) (e : SarifEntry) : json :=
  JObject ([
    name "ruleId" (JString (severity_letter (e_severity e) :: dec04 (e_code e)));
    name "level" (JString (severity_str (e_severity e)));
    name "message" (JObject [name "text" (JString (e_message e))]);
    name "locations" (JArray [JObject [name "physicalLocation" (JObject [
      name "artifactLocation" (JObject [name "uri" (JString file)]);
      name "region" (JObject ([
        name "startLine" (JNumber (e_line e));
        name "startColumn" (JNumber (e_col e));
        name "byteOffset" (JNumber (e_byte_offset e))] ++
        (if (0 <=? e_span_start e) && (e_span_start e <? e_span_end e)
         then [name "byteLength" (JNumber (e_span_end e - e_span_start e))] else [])))])]])] ++
    match e_fix e with
    | [] => []
    | fix_ => [name "fixes" (JArray [JObject [name "description" (JObject [name "text" (JString fix_)])]])]
    end).

Definition sarif_json (file : list Z) (l : list SarifEntry) : json :=
  JObject [
    name "version" (JString (bytes_of "2.1.0"));
    name "$schema" (JString (bytes_of "https://docs.oasis-open.org/sarif/sarif/v2.1.0/cos02/schemas/sarif-schema-2.1.0.json"));
    name "runs" (JArray [JObject [
      name "tool" (JObject [name "driver" (JObject [name "name" (JString (bytes_of "toke")); name "version" (JString (bytes_of "0.3.1"))])]);
      name "results" (JArray (map (result_json file) l))]])
  ].

Definition entry_ok (e : SarifEntry) : Prop := 0 <= e_code e < 10000 /\ c_string (e_message e) /\ c_string (e_fix e).

Lemma sarif_result_reads file e (more : bool) rest :
  c_string file -> entry_ok e ->
  reads value (sarif_result file e more ++ rest) (result_json file e) ((if more then lit "," else []) ++ lit "|" ++ rest).
Proof.
  intros Hf (Hc & Hm & Hx). unfold sarif_result, result_json, sarif_level, sarif_json_escape, name. cbv zeta.
  rewrite printed_all by (cbn [length]; pose proof (dec04_length (e_code e) 4 ltac:(cbn; lia) ltac:(lia)); cbn; lia).
  pose proof (plain_id (e_severity e) (e_code e)) as P2. pose proof (plain_severity (e_severity e)) as P3.
  set (cs := severity_letter _ :: _) in *. set (sv := severity_str _) in *. clearbody cs sv.
  destruct ((0 <=? e_span_start e) && (e_span_start e <? e_span_end e)); destruct (e_fix e) as [|x k]; flat; reading.
Qed.

Lemma sarif_results_read file l rest k :
  c_string file -> Forall entry_ok l -> l <> [] -> skip rest = chr "]" :: k ->
  reads_with 1 items (sarif_results file l ++ rest) (map (result_json file) l) k.
Proof.
  intros Hf Hl Hne Hr. induction Hl as [|e l He Hl IH]; [done|]. cbn [sarif_results map]. rewrite <- app_assoc.
  destruct l as [|e' l].
  - cbn [sarif_results map app]. eapply read_last_item; [by apply sarif_result_reads|].
    change (skip ([] ++ lit "|" ++ rest)) with (skip rest). done.
  - eapply read_item; [by apply sarif_result_reads|reflexivity|]. apply (reads_ws 1 (lit "|")); [done|]. by apply IH.
Qed.

(** The document. *)
Definition sarif_text (file : list Z) (l : list SarifEntry) : list Z :=
  lit "{|  'version': '2.1.0',|  '$schema': 'https://docs.oasis-open.org/sarif/sarif/v2.1.0/cos02/schemas/sarif-schema-2.1.0.json',|  'runs': [|    {|      'tool': {|        'driver': {|          'name': 'toke',|          'version': '0.3.1'|        }|      },|      'results': [|" ++
  sarif_results file l ++ lit "      ]|    }|  ]|}|".

Lemma sarif_text_reads file l :
  c_string file -> Forall entry_ok l -> json_text (sarif_text file l) = Some (sarif_json file l).
Proof.
  intros Hf Hl. unfold json_text.
  assert (H : reads value (sarif_text file l) (sarif_json file l) [10]).
  { unfold sarif_text, sarif_json, name. destruct l as [|e l].
    - cbn [sarif_results map]. flat. reading.
    - pose proof (sarif_results_read file (e :: l) (lit "      ]|    }|  ]|}|") (lit "|    }|  ]|}|") Hf Hl ltac:(done) eq_refl) as Hr.
      set (res := sarif_results file (e :: l)) in *. set (vs := map (result_json file) (e :: l)) in *.
      assert (Hvs : exists v vs', vs = v :: vs') by (by eexists _, _). clearbody res vs. destruct Hvs as (v & vs' & ->).
      revert Hr. flat. intros Hr. reading. }
  destruct H as [_ H]. rewrite H by lia. done.
Qed.

(** ** UTF-8

    The reader takes any byte that is no control character.  The document is UTF-8
    exactly when the texts in it are. *)

Lemma ascii_nat_text n : forall z, 0 <= z -> ascii (nat_text n z).
Proof.
  unfold ascii. induction n as [|n IH]; intros z Hz; [done|]. cbn [nat_text]. rewrite forallb_app. apply andb_true_intro. split.
  - destruct (z <? 10); [done|]. apply IH, Z.div_pos; lia.
  - cbn [forallb]. pose proof (Z.mod_pos_bound z 10). unfold ascii_char. rewrite (proj2 (Z.leb_le _ _)), (proj2 (Z.ltb_lt _ _)) by (cbn; lia). done.
Qed.

Lemma ascii_cons c l : ascii_char c = true -> ascii l -> ascii (c :: l).
Proof. unfold ascii. cbn [forallb]. by intros -> ->. Qed.

Lemma ascii_app l k : ascii l -> ascii k -> ascii (l ++ k).
Proof. unfold ascii. rewrite forallb_app. by intros -> ->. Qed.

Lemma ascii_dec z : ascii (dec z).
Proof. unfold dec, udec. destruct (z <? 0) eqn:E; zb; [apply ascii_cons; [done|]|]; apply ascii_nat_text; lia. Qed.

Lemma ascii_zeros n l : ascii l -> ascii (zeros_to n l).
Proof. intros Hl. unfold zeros_to. apply ascii_app; [|done]. induction (Z.to_nat _); [done|by apply ascii_cons]. Qed.

Lemma ascii_rule_id sev code : ascii (printed 16 (severity_letter sev :: dec04 code)).
Proof.
  assert (H : ascii (severity_letter sev :: dec04 code)).
  { apply ascii_cons; [by destruct sev|]. unfold dec04, udec.
    destruct (code <? 0) eqn:E; zb; [apply ascii_cons; [done|]|]; apply ascii_zeros, ascii_nat_text; lia. }
  unfold printed. revert H. generalize (severity_letter sev :: dec04 code), (Z.to_nat (16 - 1)). unfold ascii.
  induction l as [|c l IH]; intros [|n]; try done. cbn [take forallb]. intros [-> Hl]%andb_prop. by apply IH.
Qed.

Lemma ascii_escape_char c : ascii_char c = true -> exists a l, escape_char c = a :: l /\ ascii_char a = true /\ ascii l.
Proof.
  intros Hc. unfold escape_char. destruct (c =? 34); [by eexists _, _|]. destruct (c =? 92); [by eexists _, _|].
  destruct (c =? 10); [by eexists _, _|]. destruct (c =? 13); [by eexists _, _|]. destruct (c =? 9); [by eexists _, _|].
  destruct (c <? 32); [|by exists c, []]. eexists _, _. split; [reflexivity|]. split; [done|]. apply ascii_cons; [done|].
  unfold hex04, ascii. cbn [map forallb]. rewrite !andb_true_iff.
  assert (Hd : forall k, ascii_char (hex_digit (Z.shiftr c k mod 16)) = true).
  { intros k. pose proof (Z.mod_pos_bound (Z.shiftr c k) 16). unfold hex_digit, ascii_char.
    case_match; rewrite (proj2 (Z.leb_le _ _)), (proj2 (Z.ltb_lt _ _)) by (zb; cbn; lia); done. }
  by rewrite !Hd.
Qed.

(** The escapes leave the other characters as they are. *)
Lemma utf8_escape s : forall h, Forall is_char s -> utf8_valid (h ++ flat_map escape_char s) <-> utf8_valid (h ++ s).
Proof.
  induction s as [|c s IH]; intros h Hs; [done|]. apply Forall_cons in Hs as [Hc Hs]. cbn [flat_map].
  destruct (ascii_char c) eqn:E.
  - destruct (ascii_escape_char c E) as (a & l & -> & Ha & Hl). cbn [app].
    rewrite !utf8_valid_cut, (utf8_valid_ascii l) by done. by rewrite (IH [] Hs).
  - assert (Hn : escape_char c = [c]).
    { unfold ascii_char, is_char in *. rewrite (proj2 (Z.leb_le 0 c)) in E by lia. cbn in E. zb. unfold escape_char.
      by rewrite !(proj2 (Z.eqb_neq _ _)), (proj2 (Z.ltb_ge _ _)) by lia. }
    rewrite Hn. specialize (IH (h ++ [c]) Hs). by rewrite <- !app_assoc in IH.
Qed.

Lemma utf8_json_escape s a r : c_string s -> ascii a -> a <> [] ->
  utf8_valid (json_escape s ++ a ++ r) <-> utf8_valid s /\ utf8_valid r.
Proof.
  intros Hs Ha Hne. rewrite utf8_valid_cut_ascii by done. unfold json_escape. rewrite until_nul_c by done.
  by rewrite (utf8_escape s [] (c_string_chars s Hs)).
Qed.

Definition utf8_entry (file : list Z) (e : SarifEntry) : Prop :=
  utf8_valid file /\ utf8_valid (e_message e) /\ utf8_valid (e_fix e).

Lemma utf8_nil : utf8_valid [].
Proof. by exists []. Qed.

Lemma sarif_result_utf8 file e (more : bool) rest :
  c_string file -> entry_ok e ->
  utf8_valid (sarif_result file e more ++ rest) <-> utf8_entry file e /\ utf8_valid rest.
Proof.
  intros Hf (_ & Hm & Hx). unfold sarif_result, utf8_entry, sarif_level, sarif_json_escape. cbv zeta. rewrite <- !app_assoc.
  pose proof (ascii_rule_id (e_severity e) (e_code e)) as Hr. set (id := printed _ _) in *. clearbody id.
  assert (Hs : ascii (severity_str (e_severity e))) by (by destruct (e_severity e)).
  pose proof utf8_nil as Hnil. pose proof (fun z => ascii_dec z) as Hd.
  rewrite (utf8_valid_ascii (lit _)), (utf8_valid_ascii id), (utf8_valid_ascii (lit _)), (utf8_valid_ascii (severity_str _)),
    (utf8_valid_ascii (lit _)), utf8_json_escape, utf8_json_escape by done.
  rewrite (utf8_valid_ascii (dec _)), (utf8_valid_ascii (lit _)), (utf8_valid_ascii (dec _)), (utf8_valid_ascii (lit _)),
    (utf8_valid_ascii (dec _)) by done.
  rewrite (utf8_valid_ascii (if _ && _ then _ else _)), (utf8_valid_ascii (lit _)) by (done || by destruct (_ && _); [apply ascii_app|]).
  assert (Ht : utf8_valid (lit "|        }" ++ (if more then lit "," else []) ++ lit "|" ++ rest) <-> utf8_valid rest).
  { rewrite (utf8_valid_ascii (lit _)), (utf8_valid_ascii (if more then _ else _)), (utf8_valid_ascii (lit _)) by (done || by destruct more). done. }
  destruct (e_fix e) as [|x k]; cbn [app]; [rewrite Ht; tauto|]. rewrite <- !app_assoc, (utf8_valid_ascii (lit _)), utf8_json_escape by done.
  rewrite Ht. tauto.
Qed.

Lemma sarif_text_utf8 file l :
  c_string file -> Forall entry_ok l -> utf8_valid (sarif_text file l) <-> Forall (utf8_entry file) l.
Proof.
  intros Hf Hl. unfold sarif_text. rewrite (utf8_valid_ascii (lit _)) by done.
  induction Hl as [|e l He Hl IH]; cbn [sarif_results].
  - split; [by constructor|]. intros _. rewrite <- (app_nil_r (lit _)). apply (utf8_valid_ascii (lit _)); [done|apply utf8_nil].
  - rewrite <- app_assoc, sarif_result_utf8, IH, Forall_cons by done. done.
Qed.
