(* ===== verification/DumpFacts.v ===== *)
(** * Dumps read back, and positions looked up *)

From Stdlib Require Import ZArith Lia String Ascii.
From stdpp Require Import base tactics list gmap.
From S2P Require Import Prelude CStr Diag EncUtf8 Lexer Ast Resolve ResolveSpec Ir Report Dump.
From S2P Require Import Json ReportFacts.
Open Scope Z_scope.

(** ** The tree *)

Section Tree.
Context (src : option (list Z)).

Definition node_string (b : bool) (nm : string) (n : Node) : list (list Z * json) :=
  match src with
  | Some buf => if b && (0 <? n_tok_len n) then [name nm (JString (slice buf (n_tok_start n) (n_tok_len n)))] else []
  | None => []
  end.

(** What the dump of a node says. *)
Fixpoint node_json (n : Node) : json :=
  JObject ([
    name "kind" (JString (node_kind_name (n_kind n)));
    name "pos" (JObject [name "line" (JNumber (n_line n)); name "col" (JNumber (n_col n)); name "offset" (JNumber (n_start n))]);
    name "span" (JObject [name "start" (JNumber (n_tok_start n)); name "end" (JNumber (n_tok_start n + n_tok_len n))])] ++
    node_string (is_ident_node (n_kind n)) "name" n ++
    node_string (is_literal_node (n_kind n)) "value" n ++
    match n_children n with
    | [] => []
    | children => [name "children" (JArray (map node_json children))]
    end).

Definition string_text (b : bool) (nm : string) (n : Node) (depth : nat) : list Z :=
  match src with
  | Some buf =>
      if b && (0 <? n_tok_len n)
      then lit ",|" ++ indent (depth + 1) ++ lit nm ++ lit "'" ++ flat_map escape_char (slice buf (n_tok_start n) (n_tok_len n)) ++ lit "'"
      else []
  | None => []
  end.

Definition head_text (n : Node) (depth : nat) : list Z :=
  indent depth ++ lit "{|" ++ indent (depth + 1) ++ lit "'kind': '" ++ node_kind_name (n_kind n) ++ lit "',|" ++
  indent (depth + 1) ++ lit "'pos': {'line': " ++ dec (n_line n) ++ lit ", 'col': " ++ dec (n_col n) ++
  lit ", 'offset': " ++ dec (n_start n) ++ lit "},|" ++
  indent (depth + 1) ++ lit "'span': {'start': " ++ dec (n_tok_start n) ++ lit ", 'end': " ++ dec (n_tok_start n + n_tok_len n) ++ lit "}" ++
  string_text (is_ident_node (n_kind n)) "'name': " n depth ++ string_text (is_literal_node (n_kind n)) "'value': " n depth.

Fixpoint node_text (n : Node) (depth : nat) : list Z :=
  head_text n depth ++
  (match n_children n with
   | [] => []
   | children =>
       lit ",|" ++ indent (depth + 1) ++ lit "'children': [|" ++
       (fix each (l : list Node) : list Z :=
          match l with
          | [] => []
          | c :: l => node_text c (depth + 2) ++ ((match l with [] => [] | _ => lit "," end) ++ lit "|") ++ each l
          end) children ++ indent (depth + 1) ++ lit "]"
   end) ++ lit "|" ++ indent depth ++ lit "}".

Definition children_text (depth : nat) : list Node -> list Z :=
  fix each (l : list Node) : list Z :=
    match l with
    | [] => []
    | c :: l => node_text c (depth + 2) ++ ((match l with [] => [] | _ => lit "," end) ++ lit "|") ++ each l
    end.

(** The texts of the nodes are in the source. *)
Definition in_source (n : Node) : Prop := match src with Some buf => spans buf n = true | None => True end.

Lemma wp_fputs t (Q : unit -> list Z -> Prop) o : Q tt (o ++ t) -> wp (fputs t) Q o.
Proof. done. Qed.

Lemma emit_text_of_ok b nm n depth o :
  in_source n -> wp (emit_text_of src b nm n depth) (fun _ o' => o' = o ++ string_text b (nm : string) n depth) o.
Proof.
  intros Hs. unfold emit_text_of, string_text, in_source in *. destruct src as [buf|]; [|apply wp_ret; by rewrite app_nil_r].
  apply wp_when; intros E; rewrite E; [|by rewrite app_nil_r].
  assert (Hsp : span_in buf n = true) by (by apply spans_node). unfold span_in in Hsp. zb.
  apply wp_bind, wp_fputs. unfold emit_json_string. apply wp_bind, wp_rd_range; [lia..|]. apply wp_fputs. by rewrite <- !app_assoc.
Qed.

Lemma emit_head_ok n depth o : in_source n -> wp (emit_head src n depth) (fun _ o' => o' = o ++ head_text n depth) o.
Proof.
  intros Hs. unfold emit_head. do 4 apply wp_bind, wp_fputs.
  eapply wp_seq; [by apply emit_text_of_ok|]. intros _ o1 ->. eapply wp_conseq; [by apply emit_text_of_ok|]. intros _ o2 ->.
  unfold head_text. by rewrite <- !app_assoc.
Qed.

Definition emit_children (depth : nat) : list Node -> OM unit :=
  fix each (l : list Node) : OM unit :=
    match l with
    | [] => ret tt
    | c :: l =>
        do! emit_node src c (depth + 2);
        do! fputs ((match l with [] => [] | _ => lit "," end) ++ lit "|");
        each l
    end.

Lemma emit_node_eq n depth :
  emit_node src n depth =
    (do! emit_head src n depth;
     do! match n_children n with
         | [] => ret tt
         | _ =>
             do! fputs (lit ",|" ++ indent (depth + 1) ++ lit "'children': [|");
             do! emit_children depth (n_children n);
             fputs (indent (depth + 1) ++ lit "]")
         end;
     fputs (lit "|" ++ indent depth ++ lit "}")).
Proof. by destruct n as [k st ln col ts tl op cap [|c cs]]. Qed.

Lemma node_text_eq n depth :
  node_text n depth =
    head_text n depth ++
    (match n_children n with
     | [] => []
     | _ => lit ",|" ++ indent (depth + 1) ++ lit "'children': [|" ++ children_text depth (n_children n) ++ indent (depth + 1) ++ lit "]"
     end) ++ lit "|" ++ indent depth ++ lit "}".
Proof. by destruct n as [k st ln col ts tl op cap [|c cs]]. Qed.

Lemma node_json_eq n :
  node_json n = JObject ([
    name "kind" (JString (node_kind_name (n_kind n)));
    name "pos" (JObject [name "line" (JNumber (n_line n)); name "col" (JNumber (n_col n)); name "offset" (JNumber (n_start n))]);
    name "span" (JObject [name "start" (JNumber (n_tok_start n)); name "end" (JNumber (n_tok_start n + n_tok_len n))])] ++
    node_string (is_ident_node (n_kind n)) "name" n ++
    node_string (is_literal_node (n_kind n)) "value" n ++
    match n_children n with
    | [] => []
    | _ => [name "children" (JArray (map node_json (n_children n)))]
    end).
Proof. by destruct n as [k st ln col ts tl op cap [|c cs]]. Qed.

Lemma in_source_children n : in_source n -> Forall in_source (n_children n).
Proof.
  unfold in_source. destruct src as [buf|]; [|by intros; apply Forall_forall]. destruct n as [k st ln col ts tl op cap cs].
  cbn [spans n_children]. intros [_ Hs]%andb_prop. rewrite forallb_forall in Hs. apply List.Forall_forall. auto.
Qed.

Lemma emit_node_ok n : forall depth o, in_source n -> wp (emit_node src n depth) (fun _ o' => o' = o ++ node_text n depth) o.
Proof.
  induction n as [n IH] using node_ind'. intros depth o Hs. pose proof (in_source_children n Hs) as Hcs.
  rewrite emit_node_eq, node_text_eq. eapply wp_seq; [by apply emit_head_ok|]. intros _ o1 ->.
  assert (Heach : forall o, wp (emit_children depth (n_children n)) (fun _ o' => o' = o ++ children_text depth (n_children n)) o).
  { revert IH Hcs. generalize (n_children n) as l. clear. induction l as [|c l IHl]; intros IH Hl o; [apply wp_ret; by rewrite app_nil_r|].
    apply Forall_cons in IH as [Hc IH]. apply Forall_cons in Hl as [Hc' Hl]. cbn [children_text emit_children].
    eapply wp_seq; [by apply Hc|]. intros _ o1 ->. apply wp_bind, wp_fputs. eapply wp_conseq; [by apply IHl|]. intros _ o2 ->.
    by rewrite <- !app_assoc. }
  destruct (n_children n) as [|c cs]; apply wp_bind.
  - apply wp_ret, wp_fputs. by rewrite <- !app_assoc.
  - apply wp_bind, wp_fputs. eapply wp_seq; [apply Heach|]. intros _ o2 ->. apply wp_fputs, wp_fputs. by rewrite <- !app_assoc.
Qed.

(** ** Reading it *)

Lemma indent_ws depth : forallb ws (indent depth) = true.
Proof. unfold indent. induction depth as [|d IH]; [done|]. cbn [repeat flat_map]. by rewrite forallb_app, IH. Qed.

Lemma skip_indent depth s : skip (10 :: indent depth ++ s) = skip s.
Proof. change (skip (10 :: indent depth ++ s)) with (skip (indent depth ++ s)). apply skip_ws, indent_ws. Qed.

Ltac lead ::=
  lazymatch goal with
  | |- reads_with _ _ (indent _ ++ _) _ _ => apply reads_ws; [apply indent_ws|]
  | H : forall r, reads_with 1 items _ _ r |- reads_with 1 items _ _ _ => apply H
  end.
Ltac skip_end ::= first [reflexivity | rewrite skip_indent; reflexivity].

Lemma plain_kind k : plain_text (node_kind_name k).
Proof. destruct k; repeat (constructor; [by repeat split|]); constructor. Qed.

Lemma children_read depth l rest k :
  Forall (fun c => forall depth rest, in_source c -> reads value (node_text c depth ++ rest) (node_json c) rest) l ->
  Forall in_source l -> l <> [] -> skip rest = chr "]" :: k ->
  reads_with 1 items (children_text depth l ++ rest) (map node_json l) k.
Proof.
  intros IH Hl Hne Hr. induction l as [|c l IHl]; [done|]. apply Forall_cons in IH as [Hc IH]. apply Forall_cons in Hl as [Hc' Hl].
  cbn [children_text map]. rewrite <- app_assoc. destruct l as [|c' l].
  - cbn [children_text map app]. eapply read_last_item; [by apply Hc|].
    change (skip (lit "|" ++ rest)) with (skip rest). done.
  - eapply read_item; [by apply Hc|reflexivity|]. apply (reads_ws 1 (lit "|")); [done|]. by apply IHl.
Qed.

Definition source_chars : Prop := match src with Some buf => Forall is_char buf | None => True end.

Lemma node_text_reads n : source_chars -> forall depth rest,
  in_source n -> reads value (node_text n depth ++ rest) (node_json n) rest.
Proof.
  intros Hsrc. induction n as [n IH] using node_ind'. intros depth rest Hs. pose proof (in_source_children n Hs) as Hcs.
  rewrite node_text_eq, node_json_eq. unfold head_text, string_text, node_string, name.
  pose proof (plain_kind (n_kind n)) as Pk. set (kn := node_kind_name (n_kind n)) in *. clearbody kn.
  assert (Hex : is_ident_node (n_kind n) = false \/ is_literal_node (n_kind n) = false) by (destruct (n_kind n); auto).
  assert (Hsl : forall buf, src = Some buf -> Forall is_char (slice buf (n_tok_start n) (n_tok_len n))).
  { intros buf E. unfold source_chars in Hsrc. rewrite E in Hsrc. unfold slice. by apply Forall_take, Forall_drop. }
  assert (Hch : n_children n <> [] -> forall r, reads_with 1 items (children_text depth (n_children n) ++ indent (depth + 1) ++ chr "]" :: r) (map node_json (n_children n)) r).
  { intros Hne r. apply children_read; [done|done|done|]. rewrite skip_ws by apply indent_ws. done. }
  set (str buf := slice buf (n_tok_start n) (n_tok_len n)) in *.
  destruct (n_children n) as [|c cs] eqn:Ec; [clear Hch|specialize (Hch ltac:(done)); set (ct := children_text depth (c :: cs)) in *;
    set (cj := map node_json (c :: cs)) in *; assert (Hcj : exists v vs, cj = v :: vs) by (by eexists _, _); clearbody ct cj;
    destruct Hcj as (v & vs & ->)].
  all: destruct src as [buf|]; [specialize (Hsl buf eq_refl); destruct (is_ident_node (n_kind n)), (is_literal_node (n_kind n)), (0 <? n_tok_len n)|];
    cbn [andb]; destruct Hex as [Hex|Hex]; try discriminate Hex; clear Hex; flat; reading.
Qed.
End Tree.

(** Trees that are the same but for the operators and the sizes of arrays. *)
#[warnings="-register-all"]
Inductive same_tree : Node -> Node -> Prop :=
  same_tree_intro n m :
    n_kind n = n_kind m -> n_start n = n_start m -> n_line n = n_line m -> n_col n = n_col m ->
    n_tok_start n = n_tok_start m -> n_tok_len n = n_tok_len m -> Forall2 same_tree (n_children n) (n_children m) ->
    same_tree n m.

Lemma node_kind_name_inj : Inj (=) (=) node_kind_name.
Proof.
  intros k k' H%bytes_eqb_eq. destruct k; destruct k'; first [reflexivity|vm_compute in H; discriminate H].
Qed.

(** What the dump says determines the tree, but for those. *)
Lemma node_json_inj src n : forall m, node_json src n = node_json src m -> same_tree n m.
Proof.
  induction n as [n IH] using node_ind'. intros m H. rewrite !node_json_eq in H. injection H as Hk Hl Hc Ho Hs He Hrest.
  apply node_kind_name_inj in Hk. assert (Hlen : n_tok_len n = n_tok_len m) by lia.
  assert (Hstr : forall b nm, node_string src b nm n = node_string src b nm m) by (intros; unfold node_string; by rewrite Hs, Hlen).
  rewrite Hk, !Hstr in Hrest. apply app_inv_head, app_inv_head in Hrest.
  constructor; try done. revert IH Hrest. generalize (n_children n) as l, (n_children m) as k. clear. intros l k IH H.
  assert (Hmap : map (node_json src) l = map (node_json src) k) by (destruct l, k; [done|discriminate H|discriminate H|]; injection H as H1 H2; cbn [map]; by rewrite H1, H2).
  clear H. revert k Hmap. induction IH as [|c l Hc Hl IHl]; intros [|d k] Hmap; try discriminate Hmap; [constructor|].
  cbn [map] in Hmap. injection Hmap as H1 H2. constructor; [by apply Hc|by apply IHl].
Qed.

(** Those are not written. *)
Lemma same_tree_text src n : forall m depth, same_tree n m -> node_text src n depth = node_text src m depth.
Proof.
  induction n as [n IH] using node_ind'. intros m depth H. inversion H as [? ? Hk Hst Hl Hc Hts Htl Hcs]; subst.
  rewrite !node_text_eq. unfold head_text, string_text. rewrite Hk, Hst, Hl, Hc, Hts, Htl. f_equal.
  assert (Ht : children_text src depth (n_children n) = children_text src depth (n_children m)).
  { clear -IH Hcs. induction Hcs as [|c d l k Hcd Hcs IHl]; [done|]. apply Forall_cons in IH as [Hc IH].
    cbn [children_text]. rewrite (Hc d (depth + 2)%nat Hcd). fold (children_text src depth). rewrite (IHl IH).
    by inversion Hcs. }
  rewrite Ht. by destruct Hcs.
Qed.

(** ** The source map *)

(** The places of the characters that are no spaces. *)
Fixpoint marks (l : list Z) (line col : Z) : list (Z * Z) :=
  match l with
  | [] => []
  | c :: l =>
      if is_space c then if c =? 10 then marks l (line + 1) 0 else marks l line (col + 1)
      else (line, col) :: marks l line (col + 1)
  end.

(** The pairs of places of a run, and those of an entry. *)
Fixpoint pairs (n : nat) (line col eline ecol : Z) : list ((Z * Z) * (Z * Z)) :=
  match n with
  | O => []
  | S n => ((line, col), (eline, ecol)) :: pairs n line (col + 1) eline (ecol + 1)
  end.

Definition pairs_of (e : SpanMapping) : list ((Z * Z) * (Z * Z)) :=
  pairs (Z.to_nat (sm_length e)) (compact_line e) (compact_col e) (expanded_line e) (expanded_col e).

Fixpoint assoc (p : Z * Z) (l : list ((Z * Z) * (Z * Z))) : option (Z * Z) :=
  match l with
  | [] => None
  | (q, v) :: l => if decide (p = q) then Some v else assoc p l
  end.

Lemma assoc_app p l k : assoc p (l ++ k) = match assoc p l with Some v => Some v | None => assoc p k end.
Proof. induction l as [|[q v] l IH]; [done|]. cbn. by case_decide. Qed.

Lemma assoc_pairs line col n : forall line' col' eline ecol,
  assoc (line, col) (pairs n line' col' eline ecol) =
  if (line' =? line) && (col' <=? col) && (col <? col' + Z.of_nat n) then Some (eline, ecol + (col - col')) else None.
Proof.
  induction n as [|n IH]; intros; cbn [pairs assoc].
  - destruct (line' =? line), (col' <=? col) eqn:?, (col <? col' + Z.of_nat 0) eqn:?; zb; try done; lia.
  - rewrite IH. case_decide as E; [injection E as -> ->; rewrite Z.eqb_refl, Z.leb_refl, (proj2 (Z.ltb_lt _ _)) by lia; cbn; do 2 f_equal; lia|].
    destruct (line' =? line) eqn:E1; zb; [|done]. subst. cbn [andb].
    destruct (col' + 1 <=? col) eqn:E2, (col <? col' + 1 + Z.of_nat n) eqn:E3, (col' <=? col) eqn:E4, (col <? col' + Z.of_nat (S n)) eqn:E5;
      zb; try lia; cbn [andb]; try done; try (do 2 f_equal; lia); exfalso; apply E; f_equal; lia.
Qed.

Lemma lookup_assoc l line col : Forall (fun e => 0 <= sm_length e) l -> sourcemap_lookup l line col = assoc (line, col) (flat_map pairs_of l).
Proof.
  induction 1 as [|e l He Hl IH]; [done|]. cbn [sourcemap_lookup flat_map]. rewrite assoc_app. unfold pairs_of at 1.
  rewrite assoc_pairs, Z2Nat.id by done. unfold covers. by destruct (_ && _).
Qed.

Lemma marks_skip l : forall line col, let p := skip_spaces l line col in
  marks (pl_rest p) (pl_line p) (pl_col p) = marks l line col /\ (length (pl_rest p) <= length l)%nat /\
  match pl_rest p with [] => True | c :: _ => is_space c = false end.
Proof.
  induction l as [|c l IH]; intros line col; cbn [skip_spaces marks]; [done|]. destruct (is_space c) eqn:E.
  - destruct (c =? 10).
    + destruct (IH (line + 1) 0) as (H1 & H2 & H3). split_and!; [done|cbn; lia|done].
    + destruct (IH line (col + 1)) as (H1 & H2 & H3). split_and!; [done|cbn; lia|done].
  - cbn. rewrite E. done.
Qed.

Lemma run_nonneg c : forall e, 0 <= run_length c e.
Proof. induction c as [|x c IH]; intros [|y e]; cbn [run_length]; try done. destruct (_ || _); [done|]. specialize (IH e). lia. Qed.

(** A run takes its pairs off. *)
Lemma marks_run c : forall e line col eline ecol, let n := run_length c e in
  zip (marks c line col) (marks e eline ecol) =
  pairs (Z.to_nat n) line col eline ecol ++
  zip (marks (drop (Z.to_nat n) c) line (col + n)) (marks (drop (Z.to_nat n) e) eline (ecol + n)).
Proof.
  induction c as [|x c IH]; intros [|y e] line col eline ecol; cbn [run_length]; try (cbn; by rewrite ?Z.add_0_r).
  destruct (is_space x || is_space y) eqn:E; [cbn [Z.to_nat pairs drop app]; by rewrite !Z.add_0_r|]. zb.
  pose proof (run_nonneg c e). replace (Z.to_nat (1 + run_length c e)) with (S (Z.to_nat (run_length c e))) by lia.
  cbn [marks drop pairs]. rewrite H, H0. cbn [zip zip_with app]. f_equal. rewrite IH. do 2 f_equal; f_equal; lia.
Qed.

Lemma run_head x c y e : is_space x = false -> is_space y = false -> 0 < run_length (x :: c) (y :: e).
Proof. intros Hx Hy. cbn [run_length]. rewrite Hx, Hy. cbn. pose proof (run_nonneg c e). lia. Qed.

Definition place_marks (p : Place) : list (Z * Z) := marks (pl_rest p) (pl_line p) (pl_col p).

Lemma zip_nil_r {A B} (l : list A) : zip l (@nil B) = [].
Proof. by destruct l. Qed.

Lemma add_entries sm e : sm_entries (snd (sourcemap_add true sm e)) = sm_entries sm ++ [e].
Proof. unfold sourcemap_add. by destruct (_ <=? _). Qed.

Lemma build_runs_ok ok fuel : (forall cap, ok cap = true) -> forall sm c e,
  (length (pl_rest c) < fuel)%nat -> Forall (fun e => 0 <= sm_length e) (sm_entries sm) ->
  exists sm', build_runs fuel ok sm c e = Some sm' /\ Forall (fun e => 0 <= sm_length e) (sm_entries sm') /\
    flat_map pairs_of (sm_entries sm') = flat_map pairs_of (sm_entries sm) ++ zip (place_marks c) (place_marks e).
Proof.
  intros Hok. induction fuel as [|fuel IH]; intros sm c e Hc Hsm; [lia|]. cbn [build_runs].
  destruct (marks_skip (pl_rest c) (pl_line c) (pl_col c)) as (Hc1 & Hc2 & Hc3).
  destruct (marks_skip (pl_rest e) (pl_line e) (pl_col e)) as (He1 & He2 & He3).
  set (c' := skip_spaces _ _ _) in *. set (e' := skip_spaces _ (pl_line e) _) in *. fold (place_marks c) (place_marks e) in *.
  assert (Hstop : place_marks c = [] \/ place_marks e = [] ->
    exists sm', Some sm = Some sm' /\ Forall (fun e => 0 <= sm_length e) (sm_entries sm') /\
      flat_map pairs_of (sm_entries sm') = flat_map pairs_of (sm_entries sm) ++ zip (place_marks c) (place_marks e)).
  { intros H. exists sm. split_and!; [done|done|]. destruct H as [-> | ->]; by rewrite ?zip_nil_r, app_nil_r. }
  destruct (pl_rest c) as [|x0 c0] eqn:E1; [apply Hstop; left; unfold place_marks; by rewrite E1|].
  destruct (pl_rest e) as [|y0 e0] eqn:E2; [apply Hstop; right; unfold place_marks; by rewrite E2|].
  destruct (pl_rest c') as [|x cs] eqn:E3; [apply Hstop; left; by rewrite <- Hc1|].
  destruct (pl_rest e') as [|y es] eqn:E4; [apply Hstop; right; by rewrite <- He1|]. clear Hstop.
  pose proof (run_head x cs y es Hc3 He3) as Hrun. rewrite (proj2 (Z.ltb_lt _ _)) by done. rewrite Hok.
  set (n := run_length (x :: cs) (y :: es)) in *.
  set (en := mkMapping (pl_line c') (pl_col c') (pl_line e') (pl_col e') n).
  destruct (IH (snd (sourcemap_add true sm en)) (advance_by n c') (advance_by n e')) as (sm' & H1 & H2 & H3).
  - cbn [advance_by pl_rest]. rewrite E3, length_drop. cbn [length] in *. lia.
  - rewrite add_entries. apply Forall_app. split; [done|]. constructor; [change (0 <= n); lia|constructor].
  - exists sm'. split_and!; [done|done|]. rewrite H3, add_entries, flat_map_app. cbn [flat_map]. rewrite app_nil_r, <- app_assoc. f_equal.
    unfold place_marks at 1 2. cbn [advance_by pl_rest pl_line pl_col]. rewrite E3, E4, <- Hc1, <- He1. symmetry. apply marks_run.
Qed.

(** The places of a text are in order. *)
Definition place_lt (p q : Z * Z) : Prop := fst p < fst q \/ fst p = fst q /\ snd p < snd q.

Lemma marks_above l : forall line col, Forall (fun p => fst p = line /\ col <= snd p \/ line < fst p) (marks l line col).
Proof.
  induction l as [|c l IH]; intros line col; cbn [marks]; [constructor|]. destruct (is_space c).
  - destruct (c =? 10); (eapply Forall_impl; [apply IH|]); intros [a b]; cbn; lia.
  - constructor; [cbn; lia|]. eapply Forall_impl; [apply IH|]. intros [a b]. cbn. lia.
Qed.

Lemma marks_nodup l : forall line col, NoDup (marks l line col).
Proof.
  induction l as [|c l IH]; intros line col; cbn [marks]; [constructor|]. destruct (is_space c); [destruct (c =? 10); apply IH|].
  constructor; [|apply IH]. intros Hin. pose proof (marks_above l line (col + 1)) as H. rewrite Forall_forall in H.
  apply H in Hin. cbn in Hin. lia.
Qed.

Lemma assoc_zip l : forall k i p q, NoDup l -> l !! i = Some p -> k !! i = Some q -> assoc p (zip l k) = Some q.
Proof.
  induction l as [|x l IH]; intros [|y k] [|i] p q Hn Hl Hk; try done; cbn in *; apply NoDup_cons in Hn as [Hx Hn].
  - injection Hl as ->. injection Hk as ->. by rewrite decide_True.
  - rewrite decide_False; [by eapply IH|]. intros ->. apply Hx. by apply list_elem_of_lookup_2 in Hl.
Qed.

Lemma assoc_none l : forall k p, p ∉ take (length k) l -> assoc p (zip l k) = None.
Proof.
  induction l as [|x l IH]; intros [|y k] p Hp; try done. cbn in *. apply not_elem_of_cons in Hp as [Hx Hp].
  rewrite decide_False by done. by apply IH.
Qed.

(** ** Its file *)

Definition mapping_value (e : SpanMapping) : json :=
  JObject [
    name "compact" (JObject [name "line" (JNumber (compact_line e)); name "col" (JNumber (compact_col e))]);
    name "expanded" (JObject [name "line" (JNumber (expanded_line e)); name "col" (JNumber (expanded_col e))]);
    name "len" (JNumber (sm_length e))].

Definition map_value (l : list SpanMapping) : json :=
  JObject [name "version" (JNumber 1); name "mappings" (JArray (map mapping_value l))].

Lemma mapping_reads e rest : reads value (mapping_json e ++ rest) (mapping_value e) rest.
Proof. unfold mapping_json, mapping_value, name. flat. reading. Qed.

Lemma mappings_read l rest k :
  l <> [] -> skip rest = chr "]" :: k -> reads_with 1 items (mappings_json true l ++ rest) (map mapping_value l) k.
Proof.
  intros Hne Hr. assert (H : forall e l, reads_with 1 items (mapping_json e ++ mappings_json false l ++ rest) (map mapping_value (e :: l)) k).
  { clear l Hne. intros e l. revert e. induction l as [|e' l IH]; intros e; cbn [mappings_json app map].
    - eapply read_last_item; [apply mapping_reads|done].
    - rewrite <- !app_assoc. eapply read_item; [apply mapping_reads|reflexivity|]. apply IH. }
  destruct l as [|e l]; [done|]. cbn [mappings_json app]. rewrite <- app_assoc. apply H.
Qed.
