(* ===== verification/ReportProps.v ===== *)
(** * What diagnostics, dumps and source maps say

    Every diagnostic is a JSON line that reads back; the SARIF document holds the
    diagnostics in order, and is UTF-8 when their texts are; a dump determines its
    tree but for what it leaves out, the operators; a source map takes each character
    to its copy. *)

From Stdlib Require Import ZArith Lia String Ascii.
From stdpp Require Import base tactics list gmap.
From S2P Require Import EncBase EncUtf8 Prelude CStr Diag Lexer Ast Resolve ResolveSpec Ir Report Dump.
From S2P Require Import Json ReportFacts DumpFacts.
Open Scope Z_scope.

(** ** Diagnostics as they are reported *)

(** The arguments of [diag_emit], or with a span of [diag_emit_span]; the fields end
    with NULL. *)
Record Event := mkEvent {
  ev_sev : DiagSeverity;
  ev_code : Z;
  ev_off : Z;
  ev_line : Z;
  ev_col : Z;
  ev_span : option Z;
  ev_message : list Z;
  ev_fields : list (list Z * list Z)
}.

Definition arguments (kvs : list (list Z * list Z)) : list (option (list Z)) :=
  flat_map (fun '(k, v) => [Some k; Some v]) kvs ++ [None].

Definition emit_event (e : Event) : RM unit :=
  match ev_span e with
  | None => diag_emit_texts (ev_sev e) (ev_code e) (ev_off e) (ev_line e) (ev_col e) (ev_message e) (arguments (ev_fields e))
  | Some n => diag_emit_span_texts (ev_sev e) (ev_code e) (ev_off e) (ev_line e) (ev_col e) n (ev_message e) (arguments (ev_fields e))
  end.

(** The last value of each field. *)
Definition fields_of (kvs : list (list Z * list Z)) : DiagFields :=
  fold_left (fun f '(k, v) => set_field k (Some v) f) kvs (mkFields None None None).

Definition span_start (e : Event) : Z := match ev_span e with None => -1 | Some _ => ev_off e end.
Definition span_end (e : Event) : Z := match ev_span e with None => -1 | Some n => ev_off e + n end.

Definition entry_of (e : Event) : SarifEntry :=
  mkEntry (ev_sev e) (ev_code e) (ev_line e) (ev_col e) (ev_off e) (span_start e) (span_end e)
    (take 511 (ev_message e)) (take 255 (default [] (f_fix (fields_of (ev_fields e))))).

(** Without its texts. *)
Definition forget (e : SarifEntry) : diag :=
  mkDiag (e_severity e) (e_code e) (e_byte_offset e) (e_line e) (e_col e) (e_span_start e) (e_span_end e)
    (match e_fix e with [] => false | _ => true end).

(** The state of [Diag] that the clients see. *)
Definition same_state (r : Report) (d : Diags) : Prop :=
  r_int_mode r = s_int_mode d /\ r_error_count r = s_error_count d /\ r_warn_count r = s_warn_count d /\
  r_seq r = s_seq d /\ r_suppress r = s_suppress d /\ map forget (r_sarif_buf r) = s_sarif_buf d.

Definition event_ok (e : Event) : Prop :=
  0 <= ev_code e < 10000 /\ c_string (ev_message e) /\ Forall (fun '(_, v) => c_string v) (ev_fields e).

Lemma extract_arguments kvs : forall f (r : Report),
  wp (extract_fields f (arguments kvs)) (fun g r' => r' = r /\ g = fold_left (fun f '(k, v) => set_field k (Some v) f) kvs f) r.
Proof.
  induction kvs as [|[k v] kvs IH]; intros f r; [by apply wp_ret|].
  change (arguments ((k, v) :: kvs)) with (Some k :: Some v :: arguments kvs). cbn [extract_fields fold_left]. apply IH.
Qed.

Lemma set_field_ok k v f : fields_ok f -> c_string v -> fields_ok (set_field k (Some v) f).
Proof. intros (H1 & H2 & H3) Hv. unfold set_field, fields_ok. repeat case_match; cbn [f_fix f_expected f_got default]; auto. Qed.

Lemma fields_of_ok kvs : Forall (fun '(_, v) => c_string v) kvs -> fields_ok (fields_of kvs).
Proof.
  unfold fields_of. assert (H0 : fields_ok (mkFields None None None)) by (repeat split; constructor).
  revert H0. generalize (mkFields None None None). induction kvs as [|[k v] kvs IH]; intros f Hf Hk; [done|].
  apply Forall_cons in Hk as [Hv Hk]. cbn [fold_left]. apply IH; [by apply set_field_ok|done].
Qed.

Lemma emit_event_eq e :
  emit_event e = emit_texts (ev_sev e) (ev_code e) (ev_off e) (ev_line e) (ev_col e) (default 0 (ev_span e)) (span_start e) (span_end e)
    (ev_message e) (arguments (ev_fields e)).
Proof. unfold emit_event, span_start, span_end. by destruct (ev_span e). Qed.

(** The text of a report in text mode, with [u] characters underlined behind the
    first; no line without a source. *)
Definition text_report (file : list Z) (e : Event) (line : option (list Z)) (u : Z) : list Z :=
  let gutter := spaces (zlen (printed 16 (dec (ev_line e)))) in
  severity_str (ev_sev e) ++ bytes_of "[" ++ severity_letter (ev_sev e) :: dec04 (ev_code e) ++ bytes_of "]: " ++ ev_message e ++ [10] ++
  bytes_of " --> " ++ shown_file file ++ bytes_of ":" ++ dec (ev_line e) ++ bytes_of ":" ++ dec (ev_col e) ++ [10] ++
  match line with
  | None => []
  | Some l =>
      gutter ++ bytes_of " |" ++ [10] ++ dec (ev_line e) ++ bytes_of " | " ++ until_nul l ++ [10] ++
      gutter ++ bytes_of " | " ++ spaces (ev_col e - 1) ++ bytes_of "^" ++ repeat (chr "~") (Z.to_nat u) ++
      (match f_fix (fields_of (ev_fields e)) with Some (x :: k) => bytes_of " " ++ x :: k | _ => [] end) ++ [10] ++
      gutter ++ bytes_of " |" ++ [10]
  end.

Lemma add_err_nil r : add_err [] r = r.
Proof. destruct r. unfold add_err. cbn. by rewrite app_nil_r. Qed.

Ltac same_text := do 3 (rewrite <- ?app_assoc; cbn [app]); reflexivity.

Lemma emit_text_ok e (r : Report) :
  wp (emit_text (ev_sev e) (ev_code e) (ev_off e) (ev_line e) (ev_col e) (default 0 (ev_span e)) (ev_message e) (fields_of (ev_fields e)))
    (fun _ r' => exists l u, shown_line (r_source r) (ev_off e) 1024 l /\ 0 <= u /\
       ev_col e + u <= Z.max (ev_col e) (zlen (until_nul (default [] l))) /\
       r' = add_err (text_report (r_source_file r) e l u) r) r.
Proof.
  unfold emit_text. apply wp_bind, wp_get. do 2 apply wp_bind, wp_modify. rewrite add_err_app.
  eapply wp_seq; [by apply extract_source_line_ok|]. intros l r' (-> & Hl). cbn beta. cbn [r_source add_err] in Hl.
  destruct l as [buf|].
  2:{ apply wp_ret. exists None, 0. split_and!; [done|done|lia|]. f_equal. unfold text_report. rewrite !app_nil_r. same_text. }
  cbv zeta. set (under := if zlen (until_nul buf) - (ev_col e - 1) - 1 <? default 0 (ev_span e) - 1
    then zlen (until_nul buf) - (ev_col e - 1) - 1 else default 0 (ev_span e) - 1).
  set (u := if 1 <? default 0 (ev_span e) then Z.max 0 under else 0).
  do 5 apply wp_bind, wp_modify. rewrite !add_err_app. apply wp_bind.
  match goal with |- wp (when _ _) _ (add_err ?T _) => set (T0 := T) end.
  assert (Hu : wp (when (1 <? default 0 (ev_span e)) (put_err (repeat (chr "~") (Z.to_nat under))))
    (fun _ r' => r' = add_err (T0 ++ repeat (chr "~") (Z.to_nat u)) r) (add_err T0 r)).
  { apply wp_when; intros E; unfold u; rewrite E; [|by rewrite app_nil_r].
    apply wp_modify. rewrite add_err_app. replace (Z.to_nat under) with (Z.to_nat (Z.max 0 under)) by lia. done. }
  eapply wp_conseq; [exact Hu|]. intros _ r' ->. apply wp_bind.
  assert (Hx : wp match f_fix (fields_of (ev_fields e)) with Some (x :: k) => put_err (bytes_of " " ++ x :: k) | _ => ret tt end
    (fun _ r' => r' = add_err ((T0 ++ repeat (chr "~") (Z.to_nat u)) ++
       match f_fix (fields_of (ev_fields e)) with Some (x :: k) => bytes_of " " ++ x :: k | _ => [] end) r)
    (add_err (T0 ++ repeat (chr "~") (Z.to_nat u)) r)).
  { destruct (f_fix _) as [[|x k]|]; try (apply wp_ret; by rewrite app_nil_r). apply wp_modify. by rewrite add_err_app. }
  eapply wp_conseq; [exact Hx|]. intros _ r' ->. apply wp_bind, wp_modify, wp_modify. rewrite !add_err_app.
  exists (Some buf), u. split_and!; [done|unfold u; destruct (1 <? _); lia| |].
  - change (default [] (Some buf)) with buf. unfold u, under. generalize (default 0 (ev_span e)) as n. intros n.
    destruct (1 <? n) eqn:E1; [|lia]. destruct (_ <? n - 1) eqn:E2; zb; lia.
  - f_equal. unfold T0, text_report. same_text.
Qed.

Lemma take_c_string n s : c_string s -> c_string (take n s).
Proof. apply Forall_take. Qed.

Lemma entry_of_ok e : event_ok e -> entry_ok (entry_of e).
Proof.
  intros (Hc & Hm & Hf). split; [done|]. split; [by apply take_c_string|]. apply take_c_string. by apply fields_of_ok.
Qed.

(** What a report that is not suppressed does to each format. *)
Definition reported (e : Event) (r r' : Report) : Prop :=
  match r_int_mode r with
  | DIAG_INT_JSON =>
      exists l t, shown_line (r_source r) (ev_off e) 1024 l /\ r_stderr r' = r_stderr r ++ t ++ [10] /\ visible t /\
        json_text t = Some (diag_json (r_seq r + 1) (r_source_file r) (ev_sev e) (ev_code e) (ev_off e) (ev_line e) (ev_col e)
          (span_start e) (span_end e) (ev_message e) (fields_of (ev_fields e)) (until_nul (default [] l)))
  | DIAG_INT_TEXT =>
      exists l u, shown_line (r_source r) (ev_off e) 1024 l /\ 0 <= u /\
        ev_col e + u <= Z.max (ev_col e) (zlen (until_nul (default [] l))) /\
        r_stderr r' = r_stderr r ++ text_report (r_source_file r) e l u
  | DIAG_INT_SARIF =>
      r_stderr r' = r_stderr r /\
      r_sarif_buf r' = (if SARIF_MAX_DIAGS <=? zlen (r_sarif_buf r) then r_sarif_buf r else r_sarif_buf r ++ [entry_of e])
  end.

(** What reports keep. *)
Definition keeps_settings (r r' : Report) : Prop :=
  r_int_mode r' = r_int_mode r /\ r_suppress r' = r_suppress r /\ r_source_file r' = r_source_file r /\
  r_source r' = r_source r /\ r_stdout r' = r_stdout r.

Definition source_ok (r : Report) : Prop :=
  c_string (r_source_file r) /\ match r_source r with Some buf => Forall is_char buf | None => True end.

Lemma shown_line_ok (r : Report) off l : source_ok r -> shown_line (r_source r) off 1024 l -> c_string (until_nul (default [] l)).
Proof.
  intros [_ Hs] Hl. apply until_nul_string. unfold shown_line in Hl. destruct (r_source r) as [buf|]; [|by subst; constructor].
  destruct (_ || _); [by subst; constructor|]. destruct Hl as (line & (s & e & _ & _ & -> & _) & ->). cbn [default].
  by apply Forall_take, Forall_take, Forall_drop.
Qed.

Lemma nonempty_take (l : list Z) : (match take 255 l with [] => false | _ => true end) = (match l with [] => false | _ => true end).
Proof. by destruct l. Qed.

Definition event_diag (e : Event) : diag :=
  mkDiag (ev_sev e) (ev_code e) (ev_off e) (ev_line e) (ev_col e) (span_start e) (span_end e)
    (match default [] (f_fix (fields_of (ev_fields e))) with [] => false | _ => true end).

Definition counted_state (e : Event) (r : Report) : Report :=
  match ev_sev e with
  | DIAG_ERROR => set_counts (r_error_count r + 1) (r_warn_count r) (r_seq r + 1) r
  | DIAG_WARNING => set_counts (r_error_count r) (r_warn_count r + 1) (r_seq r + 1) r
  end.

Lemma emit_event_ok e (r : Report) :
  event_ok e -> source_ok r -> 0 <= r_seq r < 2 ^ 31 - 1 ->
  wp (emit_event e) (fun _ r' =>
    keeps_settings r r' /\
    (forall d, same_state r d -> same_state r' (emit_diag (event_diag e) d)) /\
    if r_suppress r then r' = r else reported e r r') r.
Proof.
  intros (Hc & Hm & Hf) Hsrc Hseq. rewrite emit_event_eq. unfold emit_texts.
  eapply wp_seq; [apply extract_arguments|]. intros f r0 (-> & ->). fold (fields_of (ev_fields e)). cbn beta.
  pose proof (fields_of_ok _ Hf) as Hfo. apply wp_bind, wp_get. destruct (r_suppress r) eqn:Es.
  { apply wp_ret. split_and!; [by split_and!| |done]. intros d Hd. pose proof Hd as (_ & _ & _ & _ & E & _). unfold emit_diag. by rewrite <- E, Es. }
  apply wp_bind, wp_modify. fold (counted_state e r).
  assert (Hk : keeps_settings r (counted_state e r)) by (unfold counted_state; destruct (ev_sev e); by split_and!).
  assert (Hmode : r_int_mode (counted_state e r) = r_int_mode r) by apply Hk.
  assert (Hq : r_seq (counted_state e r) = r_seq r + 1) by (unfold counted_state; by destruct (ev_sev e)).
  assert (Hb : r_sarif_buf (counted_state e r) = r_sarif_buf r /\ r_stderr (counted_state e r) = r_stderr r) by (unfold counted_state; by destruct (ev_sev e)).
  assert (Hst : forall d, same_state r d -> same_state (counted_state e r) (update_counters (ev_sev e) d)).
  { intros d (H1 & H2 & H3 & H4 & H5 & H6). unfold counted_state, update_counters. destruct (ev_sev e); split_and!; cbn; congruence. }
  assert (Hstream : forall t d, same_state r d -> r_int_mode r <> DIAG_INT_SARIF -> same_state (add_err t (counted_state e r)) (emit_diag (event_diag e) d)).
  { intros t d Hd Hns. unfold emit_diag. pose proof Hd as (Hm0 & _ & _ & _ & E & _). rewrite <- E, Es. cbn [d_sev event_diag].
    pose proof (Hst d Hd) as (H1 & H2 & H3 & H4 & H5 & H6). rewrite <- H1, Hmode.
    destruct (r_int_mode r) eqn:Em; try done; split_and!; cbn; congruence. }
  unfold reported. destruct (r_int_mode r) eqn:Em.
  - eapply wp_conseq; [apply emit_json_ok; [lia|done]|]. intros _ r' (l & Hl & ->). cbn beta.
    rewrite Hq. destruct Hk as (K1 & K2 & K3 & K4 & K5). rewrite K3, K4 in *.
    pose proof (shown_line_ok r _ l Hsrc Hl) as Hcl. destruct Hsrc as [Hfile _].
    split_and!; [by split_and!| |].
    + intros d Hd. apply Hstream; [done|congruence].
    + exists l. eexists. split_and!; [done|cbn [add_err r_stderr]; rewrite (proj2 Hb); reflexivity| |].
      * by apply json_line_visible.
      * by apply json_line_reads.
  - eapply wp_conseq; [apply emit_text_ok|]. intros _ r' (l & u & Hl & Hu & Hu2 & ->). cbn beta.
    destruct Hk as (K1 & K2 & K3 & K4 & K5). rewrite K3, K4 in *.
    split_and!; [by split_and!| |].
    + intros d Hd. apply Hstream; [done|congruence].
    + exists l, u. split_and!; try done. cbn. by rewrite (proj2 Hb).
  - unfold buffer_entry. apply wp_modify. destruct Hb as [Hb1 Hb2]. rewrite Hb1.
    destruct Hk as (K1 & K2 & K3 & K4 & K5). split_and!.
    + case_match; by split_and!.
    + intros d Hd. unfold emit_diag. pose proof Hd as (Hm0 & _ & _ & _ & E & _). rewrite <- E, Es. cbn [d_sev event_diag].
      pose proof (Hst d Hd) as (H1 & H2 & H3 & H4 & H5 & H6). rewrite <- H1, K1, Em. unfold buffer_sarif. rewrite <- H6, Hb1.
      unfold zlen. rewrite length_map. case_match; [exact (Hst d Hd)|]. split_and!; cbn; try congruence.
      rewrite map_app. f_equal. cbn. unfold forget. cbn. by rewrite nonempty_take.
    + case_match; cbn; by rewrite ?Hb1, ?Hb2.
    + case_match; cbn; by rewrite ?Hb1, ?Hb2.
Qed.

(** C30: a report ends, keeps the settings, and changes the state as [Diag] says,
    which is the state the other phases are proved with.  One that is suppressed
    leaves no trace; in JSON the error stream gets one line without control
    characters that reads back as its severity, code, position, message, fields and
    the line of the source around it; in text the underline ends with that line; in
    SARIF it goes to the buffer unless that is full. *)
Theorem report_refines e (r : Report) :
  event_ok e -> source_ok r -> 0 <= r_seq r < 2 ^ 31 - 1 ->
  exists r', emit_event e r = Ok (tt, r') /\ keeps_settings r r' /\
    (forall d, same_state r d -> same_state r' (emit_diag (event_diag e) d)) /\
    (if r_suppress r then r' = r else reported e r r').
Proof.
  intros He Hs Hq. pose proof (emit_event_ok e r He Hs Hq) as (u & r' & E & H)%wp_ok. destruct u. by exists r'.
Qed.

(** An error in the second line of a text, with a fix. *)
Definition sample_event : Event :=
  mkEvent DIAG_ERROR 1003 5 2 3 (Some 2) (bytes_of "bad 'x'") [(bytes_of "fix", bytes_of "drop it"); (bytes_of "got", [9; 34])].
Definition sample_report : Report := set_sources (bytes_of "a.tk") (Some (bytes_of "m=" ++ [10] ++ bytes_of "x$yz" ++ [10])) report_init.

Lemma strings_check l : forallb (fun c => (0 <? c) && (c <? 256)) l = true -> c_string l.
Proof. rewrite forallb_forall. intros H. apply Forall_forall. intros x Hx%list_elem_of_In%H. zb. lia. Qed.

Lemma chars_check l : forallb (fun c => (0 <=? c) && (c <? 256)) l = true -> Forall is_char l.
Proof. rewrite forallb_forall. intros H. apply Forall_forall. intros x Hx%list_elem_of_In%H. unfold is_char. zb. lia. Qed.

Lemma report_refines_witness :
  event_ok sample_event /\ source_ok sample_report /\
  exists r', emit_event sample_event sample_report = Ok (tt, r') /\ reported sample_event sample_report r'.
Proof.
  assert (He : event_ok sample_event).
  { split; [cbn; lia|]. split; [by apply strings_check|]. repeat (constructor; [by apply strings_check|]). constructor. }
  assert (Hs : source_ok sample_report) by (split; [by apply strings_check|by apply chars_check]).
  split; [exact He|]. split; [exact Hs|].
  destruct (report_refines sample_event sample_report He Hs ltac:(cbn; lia)) as (r' & H1 & _ & _ & H2).
  exists r'. split; [exact H1|exact H2].
Defined.

(** ** SARIF *)

Lemma each_sarif es : forall (r : Report),
  Forall event_ok es -> source_ok r -> r_int_mode r = DIAG_INT_SARIF -> r_suppress r = false ->
  0 <= r_seq r -> r_seq r + zlen es < 2 ^ 31 - 1 -> zlen (r_sarif_buf r) <= 4096 ->
  wp (each emit_event es) (fun _ r' => keeps_settings r r' /\ r_stderr r' = r_stderr r /\
    r_sarif_buf r' = take 4096 (r_sarif_buf r ++ map entry_of es)) r.
Proof.
  induction es as [|e es IH]; intros r Hes Hsrc Hmode Hsup Hq Hn Hb; cbn [each map].
  - apply wp_ret. split_and!; try done. rewrite app_nil_r, take_ge; [done|unfold zlen in Hb; lia].
  - apply Forall_cons in Hes as [He Hes]. rewrite zlen_cons in Hn. pose proof (zlen_nonneg es).
    assert (Hd : exists d, same_state r d).
    { by exists (mkDiags (r_int_mode r) (r_error_count r) (r_warn_count r) (r_seq r) (r_suppress r) [] (map forget (r_sarif_buf r))). }
    destruct Hd as [d Hd].
    eapply wp_seq; [apply (emit_event_ok e r He Hsrc); lia|]. intros _ r1 (Hk & Hst & Hr). cbn beta.
    rewrite Hsup in Hr. unfold reported in Hr. rewrite Hmode in Hr. destruct Hr as [Herr Hbuf].
    pose proof Hk as (K1 & K2 & K3 & K4 & K5).
    assert (Hq1 : r_seq r1 = r_seq r + 1).
    { specialize (Hst d Hd). destruct Hst as (_ & _ & _ & -> & _). destruct Hd as (D1 & _ & _ & D4 & D5 & _).
      unfold emit_diag. rewrite <- D5, Hsup. unfold update_counters, buffer_sarif. rewrite D4. destruct (d_sev _); repeat case_match; done. }
    assert (Hlen : zlen (r_sarif_buf r1) <= 4096).
    { rewrite Hbuf. change SARIF_MAX_DIAGS with 4096. destruct (4096 <=? zlen (r_sarif_buf r)) eqn:E; zb; [lia|]. rewrite zlen_app. change (zlen [entry_of e]) with 1. lia. }
    eapply wp_conseq.
    + apply IH; [done| |congruence|congruence|lia|lia|done]. destruct Hsrc as [Hf Hs]. split; [by rewrite K3|by rewrite K4].
    + intros _ r2 (Hk2 & Herr2 & Hbuf2). destruct Hk2 as (L1 & L2 & L3 & L4 & L5).
      split_and!; [split_and!; congruence|congruence|]. rewrite Hbuf2, Hbuf. change SARIF_MAX_DIAGS with 4096.
      destruct (4096 <=? zlen (r_sarif_buf r)) eqn:E; zb.
      * rewrite !take_app_le by (unfold zlen in *; lia). done.
      * by rewrite <- app_assoc.
Qed.

(** C32: reports in SARIF mode and then [diag_flush_sarif] write one document to the
    output, and nothing to the error stream.  A reader of JSON that takes every byte
    in strings reads it as the SARIF value whose results are the first 4096 reports
    in order, with their messages and fixes cut to their arrays.  The document is
    UTF-8, as JSON must be, exactly when the name of the file and the texts of these
    results are, as they are cut.  In the other modes the flush writes nothing. *)
Theorem sarif_document es (r : Report) :
  Forall event_ok es -> source_ok r -> r_suppress r = false -> r_sarif_buf r = [] ->
  0 <= r_seq r -> r_seq r + zlen es < 2 ^ 31 - 1 ->
  (r_int_mode r = DIAG_INT_SARIF ->
   exists r' t, (do! each emit_event es; diag_flush_sarif) r = Ok (tt, r') /\ r_stderr r' = r_stderr r /\
     r_stdout r' = r_stdout r ++ t /\
     json_text t = Some (sarif_json (r_source_file r) (map entry_of (take 4096 es))) /\
     (utf8_valid t <-> Forall (utf8_entry (r_source_file r)) (map entry_of (take 4096 es)))) /\
  (r_int_mode r <> DIAG_INT_SARIF -> diag_flush_sarif r = Ok (tt, r)).
Proof.
  intros Hes Hsrc Hsup Hbuf Hq Hn. split.
  2:{ intros Hm. unfold diag_flush_sarif, bind, get. by destruct (r_int_mode r). }
  intros Hm. assert (H : wp (do! each emit_event es; diag_flush_sarif) (fun _ r' => r_stderr r' = r_stderr r /\
    r_stdout r' = r_stdout r ++ sarif_text (r_source_file r) (map entry_of (take 4096 es))) r).
  { eapply wp_seq; [apply each_sarif; rewrite ?Hbuf; (done || (cbn; lia))|]. intros _ r1 ((K1 & K2 & K3 & K4 & K5) & Herr & Hb). cbn beta.
    unfold diag_flush_sarif. apply wp_bind, wp_get. rewrite K1, Hm. do 2 apply wp_bind, wp_modify. apply wp_modify.
    cbn [add_out r_stderr r_stdout]. rewrite K3, K5, Hb, Hbuf. cbn [app]. split; [done|].
    unfold sarif_text. by rewrite <- !app_assoc, firstn_map. }
  assert (Hent : Forall entry_ok (map entry_of (take 4096 es))).
  { apply Forall_map, Forall_take. eapply Forall_impl; [exact Hes|]. intros e He. by apply entry_of_ok. }
  apply wp_ok in H as ([] & r' & E & Herr & Hout). exists r', (sarif_text (r_source_file r) (map entry_of (take 4096 es))).
  split_and!; try done; [by apply sarif_text_reads; [apply Hsrc|]|by apply sarif_text_utf8; [apply Hsrc|]].
Qed.

Lemma sample_event_ok : event_ok sample_event.
Proof. split; [cbn; lia|]. split; [by apply strings_check|]. repeat (constructor; [by apply strings_check|]). constructor. Qed.

Lemma sarif_document_witness :
  let r := set_modes DIAG_INT_SARIF DIAG_MODE_JSON sample_report in
  let l := [entry_of sample_event; entry_of sample_event] in
  exists r' t, (do! each emit_event [sample_event; sample_event]; diag_flush_sarif) r = Ok (tt, r') /\
    r_stdout r' = t /\ json_text t = Some (sarif_json (bytes_of "a.tk") l) /\
    (utf8_valid t <-> Forall (utf8_entry (bytes_of "a.tk")) l).
Proof.
  destruct (sarif_document [sample_event; sample_event] (set_modes DIAG_INT_SARIF DIAG_MODE_JSON sample_report)) as [H _].
  - constructor; [exact sample_event_ok|]. constructor; [exact sample_event_ok|constructor].
  - split; [by apply strings_check|by apply chars_check].
  - reflexivity.
  - reflexivity.
  - cbn. lia.
  - vm_compute. reflexivity.
  - destruct (H eq_refl) as (r' & t & H1 & _ & H2 & H3 & H4). exists r', t.
    split; [exact H1|]. split; [exact H2|]. split; [exact H3|exact H4].
Defined.

(** A string with a byte that begins a character and nothing behind it, as the
    message of the lexer for a backslash in front of a character that is not ASCII
    has it: the reader of bytes takes it, and it is no UTF-8. *)
Definition escape_message : list Z :=
  bytes_of "invalid escape sequence '\" ++ [0xc3] ++ bytes_of "' in string literal".

Lemma half_character : ~ utf8_valid escape_message /\
  json_text (34 :: json_escape escape_message ++ [34]) = Some (JString escape_message).
Proof.
  split; [|vm_compute; reflexivity].
  assert (Hb : Forall byte escape_message).
  { apply List.Forall_forall. intros x Hx. assert (Ha : forallb (fun b => (0 <=? b) && (b <? 256)) escape_message = true) by done.
    rewrite forallb_forall in Ha. apply Ha in Hx. unfold byte. zb. done. }
  destruct (utf8_validate_ok escape_message Hb) as (b & E & Hv). intros H%Hv. vm_compute in E. congruence.
Qed.

(** ** Dumps *)

(** C34: on a tree whose texts are in the source the dump ends, reads nothing
    outside it, and appends one text that reads back, as JSON on bytes, as the kinds,
    positions, names, literals and children of the tree.  Another tree has the same
    dump exactly when it is the same but for the operators and the sizes of the
    arrays of children, which are not written. *)
Theorem ast_dump_reads src root o :
  in_source src root -> source_chars src ->
  exists t, ast_dump_json src (Some root) o = Ok (tt, o ++ t) /\ json_text t = Some (node_json src root) /\
    forall m, in_source src m -> (ast_dump_json src (Some m) o = Ok (tt, o ++ t) <-> same_tree root m).
Proof.
  intros Hs Hc.
  assert (Hdump : forall n, in_source src n -> ast_dump_json src (Some n) o = Ok (tt, o ++ node_text src n 0 ++ [10])).
  { intros n Hn. assert (H : wp (ast_dump_json src (Some n)) (fun _ o' => o' = o ++ node_text src n 0 ++ [10]) o).
    { unfold ast_dump_json. eapply wp_seq; [by apply emit_node_ok|]. intros _ o1 ->. apply wp_fputs. by rewrite <- app_assoc. }
    apply wp_ok in H as ([] & o' & -> & ->). done. }
  assert (Hread : forall n, in_source src n -> json_text (node_text src n 0 ++ [10]) = Some (node_json src n)).
  { intros n Hn. destruct (node_text_reads src n Hc 0%nat [10] Hn) as [_ H]. unfold json_text. by rewrite H by lia. }
  exists (node_text src root 0 ++ [10]). split_and!; [by apply Hdump|by apply Hread|].
  intros m Hm. rewrite Hdump by done. split.
  - intros E. injection E as E. apply app_inv_head in E.
    apply (node_json_inj src). apply (inj Some). rewrite <- !Hread by done. by rewrite E.
  - intros Hsame. by rewrite (same_tree_text src root m 0 Hsame).
Qed.

(** [f(x)] in a text of four characters. *)
Definition sample_tree : Node :=
  mkNode NODE_CALL_EXPR 0 1 1 0 1 TK_EOF 8
    [mkNode NODE_IDENT 0 1 1 0 1 TK_EOF 8 []; mkNode NODE_STR_LIT 2 1 3 2 1 TK_EOF 8 []].

(** The same tree, of which the call has another operator and a larger array. *)
Definition other_tree : Node :=
  mkNode NODE_CALL_EXPR 0 1 1 0 1 TK_PLUS 16
    [mkNode NODE_IDENT 0 1 1 0 1 TK_EOF 8 []; mkNode NODE_STR_LIT 2 1 3 2 1 TK_EOF 8 []].

Lemma ast_dump_reads_witness :
  in_source (Some (bytes_of "f(x)")) sample_tree /\
  exists t, ast_dump_json (Some (bytes_of "f(x)")) (Some sample_tree) [] = Ok (tt, t) /\
    json_text t = Some (node_json (Some (bytes_of "f(x)")) sample_tree) /\
    ast_dump_json (Some (bytes_of "f(x)")) (Some other_tree) [] = Ok (tt, t).
Proof.
  split; [reflexivity|]. destruct (ast_dump_reads (Some (bytes_of "f(x)")) sample_tree []) as (t & H1 & H2 & H3).
  - reflexivity.
  - by apply chars_check.
  - exists t. split; [exact H1|]. split; [exact H2|]. apply (H3 other_tree eq_refl).
    repeat (constructor; try reflexivity).
Defined.

(** The trees of a sum and of a difference differ only in the operator: the dump is
    the same, up to the source. *)
Definition binary_tree (op : TokenKind) : Node :=
  mkNode NODE_BINARY_EXPR 0 1 1 0 1 op 8
    [mkNode NODE_IDENT 0 1 1 0 1 TK_EOF 8 []; mkNode NODE_IDENT 2 1 3 2 1 TK_EOF 8 []].

Lemma operators_not_dumped src op op' o :
  ast_dump_json src (Some (binary_tree op)) o = ast_dump_json src (Some (binary_tree op')) o.
Proof. done. Qed.

(** ** Source maps *)

(** C38: the map built from two texts has an entry for each run of characters: the
    lookup of the place of the i-th character of the first that is no space gives the
    place of the i-th of the second, whatever the spaces of either; every other place
    has none.  Its file is valid JSON with the entries. *)
Theorem source_map_places ok compact expanded :
  (forall cap, ok cap = true) ->
  exists sm, build_sourcemap ok (sourcemap_init true) compact expanded = Some sm /\
    (forall i p q, marks compact 1 0 !! i = Some p -> marks expanded 1 0 !! i = Some q ->
       sourcemap_lookup (sm_entries sm) (fst p) (snd p) = Some q) /\
    (forall line col, (line, col) ∉ take (length (marks expanded 1 0)) (marks compact 1 0) ->
       sourcemap_lookup (sm_entries sm) line col = None) /\
    exists t, sourcemap_emit_json true true sm = (0, Some t) /\ json_text t = Some (map_value (sm_entries sm)).
Proof.
  intros Hok. destruct (build_runs_ok ok (S (length compact)) Hok (sourcemap_init true) (mkPlace compact 1 0) (mkPlace expanded 1 0))
    as (sm & H1 & H2 & H3); [cbn; lia|constructor|]. exists sm. split_and!; [done| | |].
  - intros i [line col] q Hp Hq. cbn [fst snd]. rewrite lookup_assoc, H3 by done. cbn [sm_entries sourcemap_init flat_map app].
    eapply assoc_zip; [apply marks_nodup|done|done].
  - intros line col Hn. rewrite lookup_assoc, H3 by done. cbn [sm_entries sourcemap_init flat_map app]. by apply assoc_none.
  - eexists. split; [done|]. apply json_text_reads. unfold map_value, name. destruct (sm_entries sm) as [|e l].
    + cbn [mappings_json map]. flat. reading.
    + pose proof (mappings_read (e :: l) (lit "]}") [chr "}"] ltac:(done) eq_refl) as Hr. revert Hr.
      set (ms := mappings_json true (e :: l)). set (vs := map mapping_value (e :: l)).
      assert (Hvs : exists v vs', vs = v :: vs') by (by eexists _, _). clearbody ms vs. destruct Hvs as (v & vs' & ->).
      flat. intros Hr. reading.
Qed.

Lemma source_map_places_witness :
  exists sm, build_sourcemap (fun _ => true) (sourcemap_init true) (bytes_of "f(x);g") (bytes_of "f( x );" ++ [10] ++ bytes_of "  g") = Some sm /\
    sourcemap_lookup (sm_entries sm) 1 5 = Some (2, 2) /\ sourcemap_lookup (sm_entries sm) 1 6 = None.
Proof.
  destruct (source_map_places (fun _ => true) (bytes_of "f(x);g") (bytes_of "f( x );" ++ [10] ++ bytes_of "  g") ltac:(reflexivity))
    as (sm & H1 & H2 & H3 & _).
  exists sm. split; [exact H1|]. split; [exact (H2 5%nat (1, 5) (2, 2) eq_refl eq_refl)|].
  apply H3. apply (bool_decide_eq_true_1 _). vm_compute. reflexivity.
Defined.

(** The line is cut in bytes: one of 1024 bytes that ends in a character of two is
    written with the half of it, which is no UTF-8. *)
Lemma cut_character :
  extract_source_line 0 1024 (set_sources [] (Some (repeat 97 1022 ++ [0xc3; 0xa9])) report_init) =
  Ok (Some (repeat 97 1022 ++ [0xc3]), set_sources [] (Some (repeat 97 1022 ++ [0xc3; 0xa9])) report_init).
Proof. vm_compute. reflexivity. Qed.
